(* ===== verification/_CoqProject ===== *)
-Q . S2P
Prelude.v
StdModel.v
Values.v
Process.v
Scope.v
Restart.v
KeptDomain.v
Registry.v
Waiters.v
Output.v
Observation.v
Usage.v
Conc.v
Rights.v
Protocol.v
Ownership.v
Ports.v
History.v
FileSystem.v
KeptState.v
KeptStore.v
KeptStoreSpec.v
KeptDirectory.v
Kept.v
KeptOrder.v
KeptInv.v
KeptSteps.v
KeptWork.v
KeptSafe.v
KeptTheorems.v
Display.v
Service.v
ServiceOrder.v
ServiceNames.v
Background.v
BackgroundOrder.v
Unix.v
KeptUnix.v
KeptUnixInv.v
KeptUnixSafe.v
KeptUnixTheorems.v
KeptUnixOrder.v
Procfs.v
Samplers.v
Cgroup.v
CgroupTree.v
Null.v
Native.v
NativeInv.v
NativeSteps.v
NativeOwners.v
NativeSafe.v
NativeTheorems.v
Windows.v
WindowsInv.v
WindowsOwners.v
WindowsSafe.v
WindowsTheorems.v
Blocking.v
BlockingOrder.v
State.v
Dispatch.v
Supervisor.v
SupervisorInv.v
SupervisorSteps.v
SupervisorSafe.v
SupervisorScopes.v
SupervisorTheorems.v
SupervisorOrder.v
