(* ===== verification/Prelude.v ===== *)
(** * Shepherd: a verification of its process supervision

    Shepherd spawns operating-system processes into scopes, monitors them, and
    terminates a scope as a unit: a graceful signal, a grace period, a kill, a sweep
    of the containment resource, and a report that says for each process whether its
    end was verified by a reap. It also keeps processes that outlive their owner, named
    by records in a directory; runs them as services with restarts; and runs background
    commands. This development translates its domain (crates/shepherd-domain), its
    application layer (crates/shepherd-app) and its adapters (crates/shepherd-infra), and
    proves that what they report is true under every interleaving of calls, tasks,
    failures, cancellations and deaths of owners.

    ** The files, bottom up

    Foundations:
    - [Prelude] (this file): options, automation, generic lemmas on lists.
    - [StdModel]: what is used of Rust's standard library: [Result], [Duration] with
      its saturation, ordered maps, byte strings.
    - [Conc]: asynchronous programs over a shared state, their interleaving semantics,
      a rely-guarantee logic with its adequacy theorem, a logic for the order of a
      program's calls, and an executable scheduler.
    - [Protocol]: automata that read the calls of a program with their answers
      ([run_from]); a program [obeys] one when each of its calls is one it allows.
    - [Ownership]: the same programs in several operating-system processes (owners) that
      may die between any two steps, with a separation logic for them in Iris.

    The domain and small adapters:
    - [Values]: shepherd-domain/src/{ids,os,exit,lifecycle,spec,event,error,capability,
      stats}.rs and shepherd-app/src/error.rs; field and constructor names are the
      source's, prefixed where Rocq needs it.
    - [Process], [Scope]: shepherd-domain/src/process.rs and scope.rs. A [&mut self]
      method is a function to the new value and the method's result. [Scope.ScopeCleanup]
      is the abstract cleanup protocol (docs/state/tla/ScopeCleanup.tla) that the
      aggregate refines.
    - [Restart], [KeptDomain]: restart.rs and kept.rs of the domain: the restart delay,
      kept names, the fingerprint of a spec and the identity rule of a record.
    - [Registry]: shepherd-app/src/registry.rs, the repository of scopes.
    - [Waiters]: the trait [Waiters] of shepherd-app/src/ports.rs as a class
      ([WaitersPort]) with the laws its documentation promises ([WaitersLaws]), and the
      adapter shepherd-infra/src/waiters.rs, which discharges them. The supervisor is
      verified against the class.
    - [Output]: shepherd-infra/src/output.rs, the bounded capture queue and its readers.
    - [Observation], [Usage]: observation.rs and usage.rs of shepherd-app, with the
      collection of shepherd-infra/src/usage.rs.
    - [Display]: the texts of error.rs and the [Debug] texts that other texts embed.

    The supervisor:
    - [Ports]: the traits of shepherd-app/src/ports.rs as questions with answers.
    - [History]: the reports and bounded histories of shepherd-app/src/supervisor.rs.
    - [State]: [Inner] of supervisor.rs, and what the supervisor shares with its tasks.
    - [Dispatch]: shepherd-app/src/dispatch.rs.
    - [Supervisor]: every method and every task of [ProcessSupervisor], [ObservedSpawn],
      [ObservedScope], [ScopedProcesses] and [ScopeCleanupBackstop] in supervisor.rs.
    - [SupervisorInv], [SupervisorSteps], [SupervisorSafe], [SupervisorScopes]: the
      invariant, the critical sections that keep it, and one specification per program.
    - [SupervisorTheorems], [SupervisorOrder]: the properties of the supervisor, and
      concrete runs of it over the in-memory waiters.

    Kept processes:
    - [FileSystem]: one directory with inodes, open descriptions and file locks.
    - [KeptState]: the types of shepherd-app/src/kept.rs, the world that all users of one
      store share, and the trait [KeptStore] as a class of operations.
    - [KeptStore]: shepherd-infra/src/kept/store.rs, system call by system call.
    - [KeptStoreSpec], [KeptDirectory]: what a store promises (as resources and triples),
      and the proof that the directory store keeps it.
    - [Kept]: shepherd-app/src/kept.rs over any store; [KeptOrder]: the order of its calls.
    - [KeptInv], [KeptSteps], [KeptWork], [KeptSafe], [KeptTheorems]: its resources and
      invariant, the steps, the blocking tasks, a triple per operation, the properties.

    The launcher of kept processes:
    - [Unix]: a Unix kernel as one process of the machine sees it: the process table with
      recycled numbers, groups, zombies, [waitpid], signals and pidfds, and what every other
      program may do at any time ([OsEvent]).
    - [KeptUnix]: shepherd-infra/src/kept/unix.rs on Linux: the gate, its child and its spawning
      thread, the watchers, [attach], [signal] and [exited].
    - [KeptUnixInv], [KeptUnixSafe]: the invariant and one specification per program;
      [KeptUnixTheorems], [KeptUnixOrder]: the properties, the protocol of a launch, and
      concrete runs, two of them of races that the comments of the source rule out.

    The Unix backend:
    - [Procfs]: what unix.rs of the backend and of the launcher read of the text of
      /proc/<pid>/stat, status and io, and the sampler shepherd-infra/src/usage/linux.rs.
    - [Native]: shepherd-infra/src/backend/unix.rs with sampling.rs and cgroup.rs on Linux,
      over the kernel of [Unix]: [backend_spawn], [backend_wait], [backend_signal],
      [backend_cleanup_scope] and the others are the methods of [UnixProcessBackend];
      [anchor_task] and [waiter_task] reap.
    - [NativeInv], [NativeSteps], [NativeOwners]: the invariant, the critical sections that keep
      it, and those that give out or release a child; [NativeSafe]: one specification per
      program; [NativeTheorems]: the properties, and runs.
    - [Cgroup]: the rest of cgroup.rs: the probe and the detection of a root directory, the
      destructors, and the accounting files. [CgroupTree]: [remove_empty_tree] over a store of
      directories that other programs change between its calls.

    The other backends and samplers:
    - [Windows]: shepherd-infra/src/backend/windows.rs over a kernel of process objects, jobs and
      handles: [win_spawn], [win_wait], [win_signal], [win_cleanup_scope] and the others are the
      methods of [WindowsJobBackend], [win_waiter] is the task that waits for a child.
      [WindowsInv], [WindowsOwners]: the invariant and the steps that keep it; [WindowsSafe]: one
      specification per program; [WindowsTheorems]: the properties, and runs.
    - [Null]: backend/null.rs, the backend of portable tests, with its properties.
    - [Samplers]: usage/macos.rs and usage/windows.rs, as functions of what the system calls
      answer.

    Services and background tasks:
    - [Service]: shepherd-app/src/service.rs, the runner of a service and the supervisor of
      services; [ServiceOrder]: its ledger of runs and the protocol of its statuses;
      [ServiceNames]: names and results, in the separation logic.
    - [Background]: shepherd-app/src/background_task/task.rs; [BackgroundOrder]: the protocol of
      its worker and the accounting of its output.

    The facade:
    - [Blocking]: shepherd/src/blocking.rs, how a future is driven for a caller without an
      async context, runs with a deadline and scoped blocks; [BlockingOrder]: the protocol of
      both.

    ** How the supervisor is modelled

    One critical section under a [std::sync::Mutex] is one atomic step; an [.await] is a
    suspension, at which any other call or task may run, and at which the environment
    may drop the future, running the destructors of the guards it holds ([guarded],
    [cancel_with]). [tokio::spawn] adds a named task to the pool; its [JoinHandle] is a
    cell that the task fills. [tokio::select!] is a suspension on either event, biased
    where the source says so; [tokio::time::timeout] races a timer. These are the
    documented meanings of the runtime's primitives, and nothing is assumed of its
    scheduling. The backend, the clock and the publisher answer anything, at any time,
    or never; the asynchronous [wait] and [sample] may also panic. The injected waiters
    are any implementation of the laws. History fields of [State.Inner] record the
    answered calls of the ports, every attachment, and what was returned to callers, so
    that theorems compare what the supervisor says with what the backend answered.

    ** How the other services are modelled

    - Kept processes: an owner is an operating-system process that uses the store; it dies
      between any two steps, with its claims, descriptions and tasks. Every system call of
      the store is one step on the shared directory and may fail with any text; a blocking
      task goes on when its caller is dropped, with the locks it captured. The store is a
      class with a contract in the separation logic, against which the operations are
      proved; the launcher is what its trait promises.
    - The launcher: its threads and tasks share a state with a kernel, in which every other
      process may fork, exit or move between any two steps; a gated child is a program that
      acts only while its process is alive; a system call is a step and may fail. Every
      mutex is a field that a thread waits for; a blocked thread may stay suspended for
      ever. History fields say what was started, committed, seen and returned.
    - The Unix backend: as the launcher, in one process. A task owns the handle of its child in
      the separation logic, and a program that has seen the world keeps a snapshot, than
      which every later world is later (a monotone resource). History fields say which
      status was reaped, whether the founder of a group was an unreaped child at each use of
      its number, what [signal] reached through a pidfd and what [wait] returned.
    - The Windows backend: likewise. A process is an object that lasts while a handle of it is
      open or it runs; its number may be used again afterwards. A child is created suspended, is
      assigned to the job of its scope and resumed; a process that another one starts is in the
      job of its parent. A termination dooms a process, which exits by an event of its own. The
      critical sections of the mutex are single steps. History fields say which process was
      spawned in which scope, which job belongs to which scope, what was in the jobs of a
      scope when its cleanup succeeded, and what [wait] returned.
    - Services: the runner is a program whose user code, process supervisor and kept
      processes are questions with any answers (panics of the user code included). Its
      properties are automata that read every run.
    - Background tasks: a worker keeps local variables across [catch_unwind], so its blocks
      take them and give them back ([Block]); every effect may unwind, and the mutex around the
      output may be poisoned.
    - The blocking facade: a thread is inside of a runtime or not, [drive] decides on a thread and
      an executor or panics; the supervisor, the clock and the output are asked.

    ** What the theorems show

    - Truth of reports: a fully verified report, a successful shutdown and a verified
      exit each imply that the backend's [wait] answered an exit for the processes they
      speak of, and that the scope admits no process any more
      ([verified_report_reaps_scope], [shutdown_reaps_everything], [verified_exit_reaped]).
    - No leak and no hidden kill: the order of the calls of a spawn, of a termination and
      of an observed cleanup ([spawn_never_leaks], [terminate_two_phase],
      [finish_verified_or_killed]); a scoped handle reaches its own scope only
      ([scoped_handle_isolated]).
    - Stability, safety and bounds of the shared state ([supervisor_history],
      [supervisor_panics], [supervisor_bounded]).
    - The scope aggregate refines the cleanup protocol; verified evidence is immutable;
      each lifecycle fact is announced once (files [Process] and [Scope]).
    - Kept processes: a running process has a decodable record ([kept_running_recorded]) and
      one holder ([kept_held_once]); what the operations return is true
      ([kept_returns_true]); two phases of a termination ([kept_terminate_two_phase]);
      round trips, errors, bounds and names of the store ([kept_record_roundtrip],
      [kept_store_errors], [kept_claim_bounded]).
    - The launcher: a program runs only if its record was committed
      ([programs_run_recorded]), by the protocol of the gate ([gated_launch_protocol]);
      published exits and the answers of [attach] are true although numbers are
      recycled at any time ([published_exits_true], [attach_answers_true]).
    - The Unix backend: a group number is used only while the founder of the group is a child
      that was not reaped ([group_uses_pinned]); what [wait] returns was reaped
      ([waits_report_reaped_status]); no task loses its child ([backend_never_panics]); the
      fields of a process are read as the kernel wrote them, whatever the name of the
      program ([stat_reads_exact]).
    - The Windows backend: a child never runs outside of the job of its scope, a kill reaches
      everything in the scope and nothing else, and a cleanup leaves nothing that runs
      ([windows_scopes_contained]); what [wait] returns is the exit code of the very process
      ([windows_waits_true]). The backend of tests: exits are final ([null_waits_true],
      [null_kill_ends]).
    - The probe for cgroups leaves no directory but its own ([cgroups_new_leaves_only]); the
      removal of a group never follows a symlink, whatever other programs do
      ([remove_empty_tree_inside]), and removes the whole tree when nobody interferes
      ([remove_empty_tree_removes]); totals of io.stat are exact ([io_sum_exact]); the list of a group on macOS is complete and its loop
      ends ([group_members_complete]).
    - Services: one run at a time, properly ended ([service_runs_ledger]); statuses, counts
      and delays ([service_status_protocol]); one service per name
      ([service_name_exclusive]); final results ([service_result_final]).
    - Background tasks: the protocol of the worker ([background_worker_protocol]), the
      accounting of the output ([background_output_accounting]).
    - The blocking facade: the protocols of a run with a deadline ([blocking_run_protocol])
      and of a scoped block, also of one that panics ([blocking_scope_protocol]).
    - A registered wait is delivered, and the waiters' history is bounded ([Waiters]);
      identifiers are never reused and have one owner ([Registry]).
    - The capture queue is a bounded window on what was written, with exact accounting,
      and capture always ends ([Output]); a selected tree is exactly the descendants and
      selection terminates ([Observation]); usage totals count each process once
      ([Usage]); the closed form of the restart delay ([Restart]); names are safe file
      names, fingerprints digest an injective encoding, and a record accepts only its
      own instance ([KeptDomain]).

    ** Bounds and fuel

    Identifiers are [u64]: minting past the last one is the arithmetic panic of a debug
    build ([None] in [Registry], the panic "identifier overflow" in [Supervisor]). Loops
    that are not structural take fuel that is proved to be enough: eviction takes the
    length of its queue, tree selection one more than the number of processes, a claim
    101 attempts (a clock that runs allows no more, [kept_claim_bounded]), the write of a
    record the length of its text, the list of a group on macOS the 15 rounds that its bound
    allows. The 500 looks of a cleanup are the code's. Loops that only the environment ends (the rounds and the
    polls of a service, the polls of a background task for the end of its pipes, the polls of
    a watcher and the rounds of a group sweep, the polls of a reaping task and the rounds of a
    spawn) take any
    bound, over which the theorems quantify; at the bound the program waits for ever. The polls of a
    blocking run for the end of its output take a bound too, which is enough when the
    clock goes on ([blocking_run_protocol]). The
    concrete runs use 100 to 500 steps per turn, more than any of their turns takes. A loop
    that serves events for ever ([sampler_task], [publisher_task]) is one turn that restarts
    its task.

    ** Limits

    - In the Unix backend the whole [remove_empty_tree] is one call that may fail; [CgroupTree] has its
      steps. The re-exports of the crate shepherd and the choice of a backend have no state and
      are not modelled. The crates of test fixtures are not part of the program.
    - In the Windows backend the sampling pool (the one of [Native]) and the readers of output are
      questions, the shared permits of [usage::blocking] are left out, the three queries of a
      scope's accounting fail or answer together, and a pair of a number and a creation time is
      never given to two processes. A process cannot leave its job. A job closed by the drop of
      the whole backend is not modelled.
    - The Unix backend is modelled for Linux. A child that fails before its program runs is reaped by
      the fork. The readers of captured output are questions here and programs in [Output].
      A scope that is cleaned up in the middle of one of its spawns is an exception of
      [group_uses_pinned]; with cgroups a group has no anchor, and
      [cgroup_scope_signals_recycled_group] is a run in which its number is used too late.
    - The launcher is modelled for Linux (on macOS a kqueue stands for the pidfd); it enters [Kept]
      by what its trait promises. A group is listed in one step; [EINTR] restarts a call; [attach] gives the registry's guard back earlier than the
      code does. Signals are recorded, and a process that gets one exits by an event.
    - The closure of a scoped block is the caller's code: an argument of
      [with_scope_options]; in the theorems it returns or panics at any time, while other
      calls use the handle it was given.
    - Mutex poisoning is modelled in [Background] only. A panic inside a critical section of
      the supervisor other than the exhaustion of identifiers is excluded by
      [supervisor_panics].
    - [may_panic] lists the panics that can reach a caller or end a task. One of them, the
      startup of the sampler while a shutdown joins it, is not shown to be impossible.
    - In [Supervisor] a panic of a backend call other than [wait] and [sample] is not
      modelled, nor a panic of the publisher or of the clock.
    - The sampler's weak reference is taken to be alive while the pool runs.
    - A process is identified with the OS identity that it was attached with: an exit that
      the backend's [wait] answers for that identity after the attachment counts as its
      exit. That a backend never gives one identity to two live processes is its own duty.
      Likewise a pair of a number and a start token is never given to two kept processes.
    - The directory of records is listed in one step, and its machine does not crash: what
      [fsync] is for is not modelled. The JSON codec (serde_json) is a parameter. Kept names
      are made by [kept_name_new]. Characters beyond ASCII are not escaped in [Debug] texts.
    - The status protocol of a service compares readiness values, so it takes them with
      decidable equality. A runner or a worker that the runtime drops at its own shutdown
      just stops. [Instant] arithmetic does not overflow.
    - Progress needs the answers of the environment: no theorem says that a call returns
      whatever the backend does. Progress of the parts that depend on no answer (delivery
      of exits, capture, tree selection) is proved. *)

From stdpp Require Import base list sorting gmap strings.

#[global] Set Default Goal Selector "!".
Declare Scope shepherd_scope.
Delimit Scope shepherd_scope with shepherd.
#[global] Open Scope shepherd_scope.

(** ** Automation shared by the component files *)

Create HintDb shepherd.
Create Rewrite HintDb shepherd_rw.

(** Splits every match and boolean test of the goal or hypotheses. *)
Ltac split_cases := repeat (case_match; simplify_eq/=; try done).

(** Closes goals by splitting the cases and first-order reasoning. *)
Ltac crush_cases := split_cases; naive_solver.

(** ** Lists *)

(** Number of elements a boolean test accepts. *)
Fixpoint count_if {A} (f : A -> bool) (l : list A) : nat :=
  match l with
  | [] => 0
  | x :: l => (if f x then 1 else 0) + count_if f l
  end.

Lemma count_if_app {A} (f : A -> bool) l1 l2 :
  count_if f (l1 ++ l2) = count_if f l1 + count_if f l2.
Proof. induction l1 as [|x l1 IH]; simpl; [done|]. rewrite IH. lia. Qed.

Lemma count_if_0 {A} (f : A -> bool) l : (forall x, x ∈ l -> f x = false) -> count_if f l = 0.
Proof.
  induction l as [|x l IH]; intros H; simpl; [done|].
  rewrite H by left. apply IH. intros y Hy. apply H. by right.
Qed.

Lemma count_if_pos {A} (f : A -> bool) l x : x ∈ l -> f x = true -> 0 < count_if f l.
Proof.
  induction 1 as [x l|x y l _ IH]; intros Hf; simpl; [rewrite Hf; lia|].
  specialize (IH Hf). lia.
Qed.

(** A test that only one key passes accepts at most one element of a duplicate-free list. *)
Lemma count_if_map_NoDup {A B} (f : B -> bool) (g : A -> B) (k : A) l :
  NoDup l -> (forall x, f (g x) = true -> x = k) -> count_if f (map g l) <= 1.
Proof.
  intros Hnd Hf. induction Hnd as [|x l Hx Hnd IH]; simpl; [lia|].
  destruct (f (g x)) eqn:E; [|lia]. apply Hf in E as ->.
  rewrite count_if_0; [lia|]. intros y (z & -> & Hz)%list_elem_of_fmap.
  destruct (f (g z)) eqn:E; [|done]. by apply Hf in E as ->.
Qed.

Lemma omap_cons_eq {A B} (f : A -> option B) x (l : list A) :
  omap f (x :: l) = match f x with Some y => y :: omap f l | None => omap f l end.
Proof. reflexivity. Qed.

Lemma count_if_filter {A} (f : A -> bool) (P : A -> Prop) `{!forall x, Decision (P x)} l :
  (forall x, f x = true -> P x) -> count_if f (filter P l) = count_if f l.
Proof.
  intros Hf. induction l as [|x l IH]; [done|]. rewrite filter_cons.
  case_decide as Hd; simpl; rewrite IH; [done|].
  destruct (f x) eqn:E; [by destruct Hd; apply Hf|done].
Qed.

Lemma length_omap_le {A B} (f : A -> option B) (l : list A) : length (omap f l) <= length l.
Proof.
  induction l as [|x l IH]; [done|]. rewrite omap_cons_eq. destruct (f x); simpl; lia.
Qed.
