(* ===== verification/StdModel.v ===== *)
(** * StdModel: the parts of Rust's standard library the program uses

    Machine integers are [Z] (or [N] for identifiers) with their range written
    out, [Duration] is a number of nanoseconds with Rust's saturating bounds,
    [Result] is [result], byte strings are [string], and an ordered map
    ([BTreeMap]) is a [gmap] iterated in ascending key order ([bt_keys]). *)

From stdpp Require Import base list sorting gmap strings.
From S2P Require Import Prelude.

Open Scope Z_scope.

(** ** Result *)

Inductive result (A E : Type) : Type :=
| Ok (a : A)
| Err (e : E).
Arguments Ok {A E} a.
Arguments Err {A E} e.

#[global] Instance result_eq_dec `{EqDecision A, EqDecision E} :
  EqDecision (result A E).
Proof. solve_decision. Defined.

(** [Result::ok]. *)
Definition result_ok {A E} (r : result A E) : option A :=
  match r with Ok a => Some a | Err _ => None end.

Definition result_is_ok {A E} (r : result A E) : bool :=
  match r with Ok _ => true | Err _ => false end.

(** [Option::ok_or]. *)
Definition ok_or {A E} (o : option A) (e : E) : result A E :=
  match o with Some a => Ok a | None => Err e end.

(** ** Machine integers *)

Definition u32_max : Z := 2 ^ 32 - 1.
Definition u64_max : Z := 2 ^ 64 - 1.

(** [u64::wrapping_mul]. *)
Definition u64_wrapping_mul (a b : Z) : Z := (a * b) mod 2 ^ 64.

(** [u64::checked_add]. *)
Definition u64_checked_add (a b : Z) : option Z :=
  if decide (a + b <= u64_max) then Some (a + b) else None.

(** [u64::saturating_add] and [u64::saturating_sub]. *)
Definition u64_saturating_add (a b : Z) : Z := Z.min (a + b) u64_max.
Definition u64_saturating_sub (a b : Z) : Z := Z.max (a - b) 0.

(** [x += 1] on an identifier counter of type [u64], with overflow checks:
    [None] is the panic. *)
Definition id_succ (n : N) : option N :=
  if decide (n + 1 < 2 ^ 64)%N then Some (n + 1)%N else None.

Lemma id_succ_Some n m : id_succ n = Some m -> m = (n + 1)%N.
Proof. unfold id_succ. case_decide; naive_solver. Qed.

Lemma id_succ_None_mono n m : id_succ n = None -> (n <= m)%N -> id_succ m = None.
Proof. unfold id_succ. case_decide; [done|]. intros _ Hle. rewrite decide_False by lia. done. Qed.

(** ** Durations: nanoseconds in [0, Duration::MAX] *)

Abbreviation Duration := Z (only parsing).

Definition nanos_per_sec : Z := 1000000000.
Definition Duration_MAX : Duration := 2 ^ 64 * nanos_per_sec - 1.

Definition duration_valid (d : Duration) : Prop := 0 <= d <= Duration_MAX.

Definition from_secs (s : Z) : Duration := s * nanos_per_sec.
Definition from_millis (ms : Z) : Duration := ms * 1000000.

(** [Duration::saturating_mul] (by a [u32]). *)
Definition duration_saturating_mul (d : Duration) (r : Z) : Duration :=
  Z.min (d * r) Duration_MAX.

(** [Duration::saturating_sub] and [Instant::saturating_duration_since]. *)
Definition duration_saturating_sub (a b : Z) : Z := Z.max (a - b) 0.

(** [Duration::checked_sub]. *)
Definition duration_checked_sub (a b : Duration) : option Duration :=
  if decide (b <= a) then Some (a - b) else None.

Lemma duration_saturating_mul_valid d r :
  duration_valid d -> 0 <= r -> duration_valid (duration_saturating_mul d r).
Proof.
  unfold duration_valid, duration_saturating_mul.
  assert (0 <= Duration_MAX) by (unfold Duration_MAX, nanos_per_sec; lia). nia.
Qed.

(** ** Ordered maps *)

Section BTreeMap.
Context {A : Type}.
Implicit Types (m : gmap N A) (k : N) (a : A).

(** [BTreeMap::keys]: ascending. *)
Definition bt_keys m : list N := merge_sort N.le (elements (dom m)).

(** [BTreeMap::iter]. *)
Definition bt_entries m : list (N * A) :=
  omap (fun k => pair k <$> m !! k) (bt_keys m).

(** [BTreeMap::values]. *)
Definition bt_values m : list A := (bt_entries m).*2.

Lemma elem_of_bt_keys m k : k ∈ bt_keys m <-> is_Some (m !! k).
Proof.
  unfold bt_keys. by rewrite merge_sort_Permutation, elem_of_elements, elem_of_dom.
Qed.

Lemma NoDup_bt_keys m : NoDup (bt_keys m).
Proof. unfold bt_keys. rewrite merge_sort_Permutation. apply NoDup_elements. Qed.

Lemma sorted_bt_keys m : StronglySorted N.le (bt_keys m).
Proof.
  apply StronglySorted_merge_sort; [apply _|]. intros x y. lia.
Qed.

Lemma elem_of_bt_entries m k a : (k, a) ∈ bt_entries m <-> m !! k = Some a.
Proof.
  unfold bt_entries. rewrite list_elem_of_omap. split.
  - intros (k' & _ & Hk). by destruct (m !! k') eqn:?; simplify_eq/=.
  - intros Hk. exists k. rewrite elem_of_bt_keys, Hk. eauto.
Qed.

Lemma bt_entries_fst m : (bt_entries m).*1 = bt_keys m.
Proof.
  unfold bt_entries. assert (Forall (fun k => is_Some (m !! k)) (bt_keys m)) as HF.
  { apply Forall_forall. intros k. apply elem_of_bt_keys. }
  induction HF as [|k l [a Ha] _ IH]; [done|]. simpl. rewrite Ha. simpl. by f_equal.
Qed.

Lemma elem_of_bt_values m a : a ∈ bt_values m <-> exists k, m !! k = Some a.
Proof.
  unfold bt_values. rewrite list_elem_of_fmap. split.
  - intros ([k a'] & -> & ?%elem_of_bt_entries). eauto.
  - intros [k Hk]. exists (k, a). by rewrite elem_of_bt_entries.
Qed.

Lemma length_bt_values m : length (bt_values m) = size m.
Proof.
  unfold bt_values. rewrite length_fmap, <- (length_fmap fst), bt_entries_fst.
  unfold bt_keys. by rewrite merge_sort_Permutation, <- size_dom.
Qed.
End BTreeMap.

#[export] Hint Rewrite @elem_of_bt_keys @elem_of_bt_values @elem_of_bt_entries : shepherd_rw.
#[export] Hint Resolve NoDup_bt_keys sorted_bt_keys : shepherd.
