(* ===== verification/Values.v ===== *)
(** * Values: the domain's plain data

    Identifiers, OS identities, process specs, exits and termination outcomes,
    lifecycle states, events, errors, capabilities and statistics
    (shepherd-domain/src/{ids,os,spec,exit,lifecycle,event,error,capability,
    stats}.rs) and the application errors (shepherd-app/src/error.rs). *)

From stdpp Require Import base list gmap strings pretty.
From Stdlib Require Import SpecFloat.
From S2P Require Import Prelude StdModel.

Open Scope Z_scope.

(** ** Identifiers: [u64] newtypes, never reused by the registry *)

Abbreviation ProcessScopeId := N (only parsing).
Abbreviation ProcessId := N (only parsing).

(** [Display] of the two identifiers. *)
Definition scope_id_display (id : ProcessScopeId) : string := "scope#" +:+ pretty id.
Definition process_id_display (id : ProcessId) : string := "proc#" +:+ pretty id.

(** ** OS identity *)

Inductive ReuseToken : Type :=
| StartTime (t : Z)
| TokenUnavailable.

Record OsIdentity : Type := mkOsIdentity {
  os_pid : Z;
  reuse_token : ReuseToken;
}.

(** ** Spec *)

Abbreviation OsString := string (only parsing).
Abbreviation PathBuf := string (only parsing).

Inductive Signal : Type :=
| Term
| Kill
| Interrupt
| CustomSignal (raw : Z).

Inductive EnvPolicy : Type :=
| Inherit
| Overrides (entries : list (OsString * option OsString))
| Clear (entries : list (OsString * OsString)).

Inductive OutputMode : Type :=
| Discard
| Capture (buffer_bytes tail_bytes : Z).

Record ProcessSpec : Type := mkProcessSpec {
  spec_program : OsString;
  spec_args : list OsString;
  spec_env : EnvPolicy;
  spec_cwd : option PathBuf;
  spec_graceful_signal : Signal;
  spec_output : OutputMode;
}.

Definition spec_new (program : OsString) : ProcessSpec :=
  mkProcessSpec program [] Inherit None Term Discard.

Definition spec_add_arg (s : ProcessSpec) (a : OsString) : ProcessSpec :=
  mkProcessSpec (spec_program s) (spec_args s ++ [a]) (spec_env s) (spec_cwd s)
    (spec_graceful_signal s) (spec_output s).

Definition spec_add_args (s : ProcessSpec) (l : list OsString) : ProcessSpec :=
  mkProcessSpec (spec_program s) (spec_args s ++ l) (spec_env s) (spec_cwd s)
    (spec_graceful_signal s) (spec_output s).

Definition spec_set_env (s : ProcessSpec) (e : EnvPolicy) : ProcessSpec :=
  mkProcessSpec (spec_program s) (spec_args s) e (spec_cwd s)
    (spec_graceful_signal s) (spec_output s).

Definition spec_set_cwd (s : ProcessSpec) (d : PathBuf) : ProcessSpec :=
  mkProcessSpec (spec_program s) (spec_args s) (spec_env s) (Some d)
    (spec_graceful_signal s) (spec_output s).

Definition spec_set_graceful_signal (s : ProcessSpec) (g : Signal) : ProcessSpec :=
  mkProcessSpec (spec_program s) (spec_args s) (spec_env s) (spec_cwd s)
    g (spec_output s).

Definition spec_set_output (s : ProcessSpec) (o : OutputMode) : ProcessSpec :=
  mkProcessSpec (spec_program s) (spec_args s) (spec_env s) (spec_cwd s)
    (spec_graceful_signal s) o.

Abbreviation GracePeriod := Duration (only parsing).
Definition grace_default : GracePeriod := from_secs 5.

(** ** Exits and outcomes *)

Record RawExit : Type := mkRawExit {
  raw_code : option Z;
  raw_signal : option Signal;
  raw_core_dumped : bool;
}.

Inductive UnverifiedReason : Type :=
| DroppedWithoutShutdown
| RuntimeShutdown
| WaitTimedOut (waited : Duration)
| ReapFailed
| ProcessDisappeared.

Inductive TerminationOutcome : Type :=
| ExitedNaturally
| GracefulSuccess
| ForcedRequired
| Failed
| CleanupUnverified (reason : UnverifiedReason).

Definition is_verified (o : TerminationOutcome) : bool :=
  match o with
  | ExitedNaturally | GracefulSuccess | ForcedRequired => true
  | _ => false
  end.

Record ProcessExit : Type := mkProcessExit {
  exit_pid : ProcessId;
  exit_code : option Z;
  exit_signal : option Signal;
  exit_outcome : TerminationOutcome;
  exit_forced : bool;
}.

(** ** Lifecycles *)

Inductive ProcessLifecycle : Type :=
| Spawning
| Running
| GracefulRequested
| Forcing
| ExitedUnreaped
| Reaped
| SpawnFailed.

Definition lifecycle_name (s : ProcessLifecycle) : string :=
  match s with
  | Spawning => "Spawning"
  | Running => "Running"
  | GracefulRequested => "GracefulRequested"
  | Forcing => "Forcing"
  | ExitedUnreaped => "ExitedUnreaped"
  | Reaped => "Reaped"
  | SpawnFailed => "SpawnFailed"
  end.

Definition is_live (s : ProcessLifecycle) : bool :=
  match s with Spawning | Running | GracefulRequested | Forcing => true | _ => false end.

Definition is_terminal (s : ProcessLifecycle) : bool :=
  match s with Reaped | SpawnFailed => true | _ => false end.

Definition is_terminating (s : ProcessLifecycle) : bool :=
  match s with GracefulRequested | Forcing => true | _ => false end.

Inductive ScopeState : Type :=
| Open
| Draining
| Closed.

Definition scope_state_name (s : ScopeState) : string :=
  match s with Open => "Open" | Draining => "Draining" | Closed => "Closed" end.

Definition accepts_processes (s : ScopeState) : bool :=
  match s with Open => true | _ => false end.

(** ** Events *)

Inductive DomainEvent : Type :=
| ProcessSpawned (scope : ProcessScopeId) (pid : ProcessId)
| TerminationRequested (scope : ProcessScopeId) (pid : ProcessId)
| ProcessExited (scope : ProcessScopeId) (pid : ProcessId)
| ProcessReaped (scope : ProcessScopeId) (pid : ProcessId) (exit : ProcessExit)
| ScopeClosed (scope : ProcessScopeId).

Inductive IntegrationEvent : Type :=
| ProcessTerminated (scope : ProcessScopeId) (pid : ProcessId) (outcome : TerminationOutcome)
| ScopeTerminated (scope : ProcessScopeId).

(** ** Errors *)

Record InvalidTransition : Type := mkInvalidTransition {
  it_from : string;
  it_event : string;
}.

Inductive DomainError : Type :=
| DomainError_ScopeClosed (scope : ProcessScopeId)
| DomainError_UnknownProcess (pid : ProcessId)
| DomainError_UnknownScope (scope : ProcessScopeId)
| DomainError_InvalidTransition (t : InvalidTransition).

Inductive ScopeCreationError : Type := SupervisorClosed.

Inductive SpawnError : Type :=
| SpawnError_UnknownScope (scope : ProcessScopeId)
| SpawnError_ScopeClosed (scope : ProcessScopeId)
| SpawnError_Os (message : string)
| SpawnError_Domain (e : DomainError).

Inductive TerminateError : Type :=
| TerminateError_UnknownProcess (pid : ProcessId)
| TerminateError_UnknownScope (scope : ProcessScopeId)
| TerminateError_Signal (message : string)
| TerminateError_Domain (e : DomainError).

Inductive StatsError : Type :=
| StatsError_NotReady (pid : ProcessId)
| StatsError_UnknownProcess (pid : ProcessId)
| StatsError_Backend (message : string).

Inductive WaitError : Type :=
| WaitError_UnknownProcess (pid : ProcessId)
| WaitError_Backend (message : string).

Inductive ShutdownError : Type := ShutdownUnverified (count : nat).

Record HandlerError : Type := mkHandlerError {
  handler_name : string;
  handler_message : string;
}.

(** ** Capabilities *)

Inductive Containment : Type := CgroupV2 | JobObject | ProcessGroup | NoContainment.

Definition contains_detached (c : Containment) : bool :=
  match c with CgroupV2 | JobObject => true | _ => false end.

Inductive Support : Type := Supported | Unsupported.

Definition is_supported (s : Support) : bool :=
  match s with Supported => true | Unsupported => false end.

Record Capabilities : Type := mkCapabilities {
  descendant_containment : Containment;
  cap_cpu : Support;
  cap_rss : Support;
  cap_peak_rss : Support;
  cap_io : Support;
  force_termination : bool;
}.

(** ** Statistics (an [f32] is an IEEE [spec_float] of precision 24) *)

Definition f32 : Type := spec_float.

Inductive ProcessState : Type :=
| StateRunning | StateSleeping | StateStopped | StateZombie | StateUnknown.

Record RawStats : Type := mkRawStats {
  rs_cpu_usage : f32;
  rs_memory_rss_bytes : Z;
  rs_virtual_memory_bytes : option Z;
  rs_peak_rss_bytes : option Z;
  rs_io_read_bytes : option Z;
  rs_io_write_bytes : option Z;
  rs_descendant_count : option Z;
  rs_state : ProcessState;
}.

Record ProcessStats : Type := mkProcessStats {
  ps_pid : ProcessId;
  ps_cpu_usage : f32;
  ps_memory_rss_bytes : Z;
  ps_virtual_memory_bytes : option Z;
  ps_peak_rss_bytes : option Z;
  ps_io_read_bytes : option Z;
  ps_io_write_bytes : option Z;
  ps_descendant_count : option Z;
  ps_uptime : Duration;
  ps_state : ProcessState;
}.

Definition stats_from_raw (pid : ProcessId) (raw : RawStats) (uptime : Duration) : ProcessStats :=
  {| ps_pid := pid;
     ps_cpu_usage := rs_cpu_usage raw;
     ps_memory_rss_bytes := rs_memory_rss_bytes raw;
     ps_virtual_memory_bytes := rs_virtual_memory_bytes raw;
     ps_peak_rss_bytes := rs_peak_rss_bytes raw;
     ps_io_read_bytes := rs_io_read_bytes raw;
     ps_io_write_bytes := rs_io_write_bytes raw;
     ps_descendant_count := rs_descendant_count raw;
     ps_uptime := uptime;
     ps_state := rs_state raw |}.

(** ** Decidable equality (the [PartialEq, Eq] derives) *)

#[global] Instance reuse_token_eq_dec : EqDecision ReuseToken.
Proof. solve_decision. Defined.
#[global] Instance os_identity_eq_dec : EqDecision OsIdentity.
Proof. solve_decision. Defined.
#[global] Instance signal_eq_dec : EqDecision Signal.
Proof. solve_decision. Defined.
#[global] Instance env_policy_eq_dec : EqDecision EnvPolicy.
Proof. solve_decision. Defined.
#[global] Instance output_mode_eq_dec : EqDecision OutputMode.
Proof. solve_decision. Defined.
#[global] Instance process_spec_eq_dec : EqDecision ProcessSpec.
Proof. solve_decision. Defined.
#[global] Instance raw_exit_eq_dec : EqDecision RawExit.
Proof. solve_decision. Defined.
#[global] Instance unverified_reason_eq_dec : EqDecision UnverifiedReason.
Proof. solve_decision. Defined.
#[global] Instance termination_outcome_eq_dec : EqDecision TerminationOutcome.
Proof. solve_decision. Defined.
#[global] Instance process_exit_eq_dec : EqDecision ProcessExit.
Proof. solve_decision. Defined.
#[global] Instance process_lifecycle_eq_dec : EqDecision ProcessLifecycle.
Proof. solve_decision. Defined.
#[global] Instance scope_state_eq_dec : EqDecision ScopeState.
Proof. solve_decision. Defined.
#[global] Instance domain_event_eq_dec : EqDecision DomainEvent.
Proof. solve_decision. Defined.
#[global] Instance integration_event_eq_dec : EqDecision IntegrationEvent.
Proof. solve_decision. Defined.
#[global] Instance invalid_transition_eq_dec : EqDecision InvalidTransition.
Proof. solve_decision. Defined.
#[global] Instance domain_error_eq_dec : EqDecision DomainError.
Proof. solve_decision. Defined.
#[global] Instance spawn_error_eq_dec : EqDecision SpawnError.
Proof. solve_decision. Defined.
#[global] Instance terminate_error_eq_dec : EqDecision TerminateError.
Proof. solve_decision. Defined.
#[global] Instance scope_creation_error_eq_dec : EqDecision ScopeCreationError.
Proof. solve_decision. Defined.

(** A state is exactly one of live, exited-unreaped and terminal. *)
Lemma is_live_not_terminal s : is_live s = true -> is_terminal s = false.
Proof. by destruct s. Qed.

Lemma lifecycle_name_inj : Inj (=) (=) lifecycle_name.
Proof. intros [] [] H; done. Qed.

#[export] Hint Resolve is_live_not_terminal : shepherd.
