(* ===== verification/Process.v ===== *)
(** * Process: one supervised process and its lifecycle

    shepherd-domain/src/process.rs. A [&mut self] method that returns [bool]
    is a function returning the new process and the boolean. *)

From stdpp Require Import base list gmap strings.
From S2P Require Import Prelude StdModel Values.

Open Scope Z_scope.

Record Process : Type := mkProcess {
  process_id : ProcessId;
  process_os : OsIdentity;
  process_spec : ProcessSpec;
  process_state : ProcessLifecycle;
  process_forced : bool;
  process_exit : option ProcessExit;
}.

#[global] Instance process_eq_dec : EqDecision Process.
Proof. solve_decision. Defined.

Definition process_running (id : ProcessId) (os : OsIdentity) (spec : ProcessSpec) : Process :=
  mkProcess id os spec Running false None.

(** Field assignment [self.state = s]. *)
Definition with_state (p : Process) (s : ProcessLifecycle) : Process :=
  mkProcess (process_id p) (process_os p) (process_spec p) s (process_forced p) (process_exit p).

Definition request_graceful (p : Process) : Process * bool :=
  match process_state p with
  | Running | Spawning => (with_state p GracefulRequested, true)
  | _ => (p, false)
  end.

Definition escalate_to_force (p : Process) : Process * bool :=
  match process_state p with
  | Running | Spawning | GracefulRequested =>
      (mkProcess (process_id p) (process_os p) (process_spec p) Forcing true (process_exit p), true)
  | _ => (p, false)
  end.

Definition mark_exited (p : Process) : Process * bool :=
  if is_live (process_state p) then (with_state p ExitedUnreaped, true) else (p, false).

(** [self.exit.is_some_and(|e| e.outcome.is_verified())]. *)
Definition exit_verified (o : option ProcessExit) : bool :=
  match o with Some e => is_verified (exit_outcome e) | None => false end.

(** [self.exit.is_some_and(|previous| !previous.outcome.is_verified())]. *)
Definition exit_unverified (o : option ProcessExit) : bool :=
  match o with Some e => negb (is_verified (exit_outcome e)) | None => false end.

Definition with_reaped (p : Process) (e : ProcessExit) : Process :=
  mkProcess (process_id p) (process_os p) (process_spec p) Reaped (process_forced p) (Some e).

Definition mark_reaped (p : Process) (exit : ProcessExit) : Process * bool :=
  match process_state p with
  | ExitedUnreaped | Running | GracefulRequested | Forcing => (with_reaped p exit, true)
  | Reaped =>
      if exit_unverified (process_exit p) && is_verified (exit_outcome exit)
      then (with_reaped p exit, true)
      else (p, false)
  | _ => (p, false)
  end.

(** The mutations a scope can apply to a process, as data. *)
Inductive process_op : Type :=
| OpRequestGraceful
| OpEscalate
| OpMarkExited
| OpMarkReaped (exit : ProcessExit).

#[global] Instance process_op_eq_dec : EqDecision process_op.
Proof. solve_decision. Defined.

Definition process_apply (p : Process) (op : process_op) : Process * bool :=
  match op with
  | OpRequestGraceful => request_graceful p
  | OpEscalate => escalate_to_force p
  | OpMarkExited => mark_exited p
  | OpMarkReaped e => mark_reaped p e
  end.

(** A sequence of mutations, with the boolean each one returned. *)
Fixpoint process_run (p : Process) (ops : list process_op) : Process * list (process_op * bool) :=
  match ops with
  | [] => (p, [])
  | op :: ops =>
      let '(p1, b) := process_apply p op in
      let '(p2, bs) := process_run p1 ops in
      (p2, (op, b) :: bs)
  end.

(** ** The invariant of a process that a scope owns *)

Record process_wf (p : Process) : Prop := {
  wf_evidence : is_Some (process_exit p) <-> process_state p = Reaped;
  wf_started : process_state p <> Spawning /\ process_state p <> SpawnFailed;
  wf_forcing : process_state p = Forcing -> process_forced p = true;
}.

(** Position of a state in the lifecycle; no operation goes back. *)
Definition lifecycle_rank (s : ProcessLifecycle) : nat :=
  match s with
  | Spawning => 0 | Running => 1 | GracefulRequested => 2 | Forcing => 3
  | ExitedUnreaped => 4 | Reaped => 5 | SpawnFailed => 5
  end%nat.

(** What the terminal evidence of a process is worth. *)
Inductive evidence : Type := NoEvidence | UnverifiedEvidence | VerifiedEvidence.

#[global] Instance evidence_eq_dec : EqDecision evidence.
Proof. solve_decision. Defined.

Definition evidence_of (p : Process) : evidence :=
  match process_exit p with
  | None => NoEvidence
  | Some e => if is_verified (exit_outcome e) then VerifiedEvidence else UnverifiedEvidence
  end.

Definition evidence_rank (e : evidence) : nat :=
  match e with NoEvidence => 0 | UnverifiedEvidence => 1 | VerifiedEvidence => 2 end%nat.

Lemma process_running_wf id os spec : process_wf (process_running id os spec).
Proof. split; simpl; [split; [by intros []|done]|done|done]. Qed.

Lemma process_wf_no_exit p : process_wf p -> process_state p <> Reaped -> process_exit p = None.
Proof.
  intros [Hev _ _] Hs. destruct (process_exit p) eqn:E; [|done].
  exfalso. apply Hs, Hev. eauto.
Qed.

Lemma process_apply_cases p op :
  let q := (process_apply p op).1 in
  q = p \/
  (is_live (process_state p) = true /\ exists s, q = with_state p s /\ (s = GracefulRequested \/ s = ExitedUnreaped)) \/
  (is_live (process_state p) = true /\
   q = mkProcess (process_id p) (process_os p) (process_spec p) Forcing true (process_exit p)) \/
  (exists e, q = with_reaped p e /\
     (process_state p = Reaped ->
      exit_unverified (process_exit p) = true /\ is_verified (exit_outcome e) = true)).
Proof.
  destruct op; simpl; unfold request_graceful, escalate_to_force, mark_exited, mark_reaped;
    repeat case_match; simpl; simplify_eq/=; try (by left);
    try (right; left; split; [done|]; eexists; split; [reflexivity|]; by auto);
    try (right; right; left; by split);
    right; right; right; eexists; (split; [reflexivity|]); intros ?;
    [congruence..|]; by apply andb_true_iff.
Qed.

Lemma process_apply_wf p op : process_wf p -> process_wf (process_apply p op).1.
Proof.
  intros Hp. pose proof (process_wf_no_exit p Hp) as Hno. pose proof Hp as [_ [Hs1 Hs2] _].
  destruct (process_apply_cases p op) as [->|[(Hl & s & -> & Hs)|[[Hl ->]|(e & -> & _)]]];
    [done|..];
    try (assert (process_exit p = None) as He by (apply Hno; intros H'; by rewrite H' in Hl));
    split; simpl; rewrite ?He; try done;
    try (destruct Hs as [-> | ->]); try done; split; try done; try (by intros []); eauto.
Qed.

Lemma process_apply_identity p op :
  process_id (process_apply p op).1 = process_id p /\
  process_os (process_apply p op).1 = process_os p /\
  process_spec (process_apply p op).1 = process_spec p.
Proof.
  by destruct (process_apply_cases p op)
    as [->|[(Hl & s & -> & Hs)|[[Hl ->]|(e & -> & He)]]].
Qed.

Lemma process_apply_rank p op :
  (lifecycle_rank (process_state p) <= lifecycle_rank (process_state (process_apply p op).1))%nat.
Proof.
  destruct p as [id os spec [] forced ex], op; simpl; unfold mark_reaped; simpl;
    try case_match; simpl; lia.
Qed.

Lemma process_apply_evidence p op :
  process_wf p ->
  (evidence_rank (evidence_of p) <= evidence_rank (evidence_of (process_apply p op).1))%nat.
Proof.
  intros Hp. pose proof (process_wf_no_exit p Hp) as Hno. unfold evidence_of.
  destruct (process_apply_cases p op) as [->|[(Hl & s & -> & Hs)|[[Hl ->]|(e & -> & He)]]];
    simpl; [lia..|].
  destruct (decide (process_state p = Reaped)) as [Hr|Hr]; [|rewrite Hno by done; simpl; lia].
  destruct (He Hr) as [Hu ->]. unfold exit_unverified in Hu.
  repeat case_match; simpl; lia.
Qed.

(** A process whose cleanup is verified is immutable. *)
Lemma process_apply_verified p op :
  process_wf p -> evidence_of p = VerifiedEvidence -> process_apply p op = (p, false).
Proof.
  intros [Hev _ _] Hv. unfold evidence_of in Hv.
  destruct (process_exit p) as [e|] eqn:He; [|done].
  destruct (is_verified (exit_outcome e)) eqn:Hve; [|done].
  assert (process_state p = Reaped) as Hr by (apply Hev; eauto).
  destruct op; simpl; unfold request_graceful, escalate_to_force, mark_exited, mark_reaped;
    rewrite Hr; simpl; try done. rewrite He. simpl. by rewrite Hve.
Qed.

Lemma process_run_app p ops1 ops2 :
  process_run p (ops1 ++ ops2) =
  let '(p1, bs1) := process_run p ops1 in
  let '(p2, bs2) := process_run p1 ops2 in (p2, bs1 ++ bs2).
Proof.
  revert p. induction ops1 as [|op ops1 IH]; intros p; simpl.
  - by destruct (process_run p ops2).
  - destruct (process_apply p op) as [p1 b]. rewrite IH.
    destruct (process_run p1 ops1) as [p2 bs1]. by destruct (process_run p2 ops2).
Qed.

Lemma process_run_wf p ops : process_wf p -> process_wf (process_run p ops).1.
Proof.
  revert p. induction ops as [|op ops IH]; intros p Hp; simpl; [done|].
  pose proof (process_apply_wf p op Hp) as H1.
  destruct (process_apply p op) as [p1 b]. specialize (IH p1 H1).
  by destruct (process_run p1 ops).
Qed.

#[export] Hint Resolve process_running_wf process_apply_wf process_run_wf : shepherd.

(** ** Properties *)

(** How often a run asked for the graceful signal to be sent. *)
Definition graceful_signals (trace : list (process_op * bool)) : nat :=
  length (filter (fun x => x = (OpRequestGraceful, true)) trace).

Lemma process_run_identity p ops :
  process_id (process_run p ops).1 = process_id p /\
  process_os (process_run p ops).1 = process_os p /\
  process_spec (process_run p ops).1 = process_spec p.
Proof.
  revert p. induction ops as [|op ops IH]; intros p; simpl; [done|].
  destruct (process_apply_identity p op) as (E1 & E2 & E3).
  destruct (process_apply p op) as [p1 b]; simpl in *. specialize (IH p1).
  destruct (process_run p1 ops); simpl in *. by rewrite <- E1, <- E2, <- E3.
Qed.

Lemma process_run_rank p ops :
  (lifecycle_rank (process_state p) <= lifecycle_rank (process_state (process_run p ops).1))%nat.
Proof.
  revert p. induction ops as [|op ops IH]; intros p; simpl; [done|].
  pose proof (process_apply_rank p op). destruct (process_apply p op) as [p1 b]; simpl in *.
  specialize (IH p1). destruct (process_run p1 ops); simpl in *. lia.
Qed.

Lemma process_run_evidence p ops :
  process_wf p ->
  (evidence_rank (evidence_of p) <= evidence_rank (evidence_of (process_run p ops).1))%nat.
Proof.
  revert p. induction ops as [|op ops IH]; intros p Hp; simpl; [done|].
  pose proof (process_apply_evidence p op Hp). pose proof (process_apply_wf p op Hp).
  destruct (process_apply p op) as [p1 b]; simpl in *.
  specialize (IH p1). destruct (process_run p1 ops); simpl in *. by etrans; eauto.
Qed.

(** A process past [Running] is never signalled gracefully again. *)
Lemma process_run_no_signal p ops :
  (2 <= lifecycle_rank (process_state p))%nat -> graceful_signals (process_run p ops).2 = 0%nat.
Proof.
  revert p. induction ops as [|op ops IH]; intros p Hp; simpl; [done|].
  pose proof (process_apply_rank p op) as Hr.
  destruct (process_apply p op) as [p1 b] eqn:E; simpl in *.
  specialize (IH p1 ltac:(lia)). destruct (process_run p1 ops) as [p2 bs]; simpl in *.
  unfold graceful_signals. rewrite filter_cons. case_decide; [|done]. simplify_eq.
  simpl in E. unfold request_graceful in E. by repeat case_match; simplify_eq/=; lia.
Qed.

(** C37. Along every sequence of mutations of a spawned process: the process keeps its
    identity, its terminal exit is recorded exactly when it is [Reaped], it never moves back
    in the lifecycle, its evidence (none, unverified, verified) only ever improves, and at
    most one call asks the caller to send the graceful signal. *)
Theorem process_run_sound id os spec ops1 ops2 :
  let p0 := process_running id os spec in
  let p1 := (process_run p0 ops1).1 in
  let p2 := (process_run p0 (ops1 ++ ops2)).1 in
  process_wf p2 /\
  (process_id p2 = id /\ process_os p2 = os /\ process_spec p2 = spec) /\
  (lifecycle_rank (process_state p1) <= lifecycle_rank (process_state p2))%nat /\
  (evidence_rank (evidence_of p1) <= evidence_rank (evidence_of p2))%nat /\
  (graceful_signals (process_run p0 ops1).2 <= 1)%nat.
Proof.
  intros p0 p1 p2.
  assert (Hp1 : process_wf p1) by (apply process_run_wf, process_running_wf).
  assert (p2 = (process_run p1 ops2).1) as E2.
  { unfold p2, p1. rewrite process_run_app. destruct (process_run p0 ops1); simpl.
    by destruct (process_run _ ops2). }
  split_and!.
  - rewrite E2. by apply process_run_wf.
  - apply (process_run_identity p0).
  - apply (process_run_identity p0).
  - apply (process_run_identity p0).
  - rewrite E2. apply process_run_rank.
  - rewrite E2. by apply process_run_evidence.
  - clear. unfold p0. generalize (process_running id os spec) as p.
    induction ops1 as [|op ops IH]; intros p; simpl; [unfold graceful_signals; simpl; lia|].
    destruct (process_apply p op) as [p1 b] eqn:E. specialize (IH p1).
    pose proof (process_run_no_signal p1 ops) as Hno.
    destruct (process_run p1 ops) as [p2 bs]; simpl in *.
    unfold graceful_signals in *. rewrite filter_cons. case_decide; [|done].
    simplify_eq/=. rewrite Hno; [lia|].
    unfold request_graceful in E. repeat case_match; simplify_eq/=; lia.
Qed.

(** Verified evidence is never downgraded: once a process has a verified exit, every
    mutation refuses and leaves the process exactly as it is. *)
Theorem verified_process_immutable p ops :
  process_wf p -> evidence_of p = VerifiedEvidence ->
  process_run p ops = (p, map (fun op => (op, false)) ops).
Proof.
  intros Hp Hv. induction ops as [|op ops IH]; simpl; [done|].
  by rewrite process_apply_verified, IH.
Qed.

Lemma verified_process_immutable_witness :
  let e := mkProcessExit 7%N (Some 0) None ExitedNaturally false in
  let e' := mkProcessExit 7%N None None (CleanupUnverified ReapFailed) false in
  let p := (process_run (process_running 7%N (mkOsIdentity 41 TokenUnavailable)
             (spec_new "sleep")) [OpMarkExited; OpMarkReaped e]).1 in
  process_run p [OpMarkReaped e'; OpRequestGraceful] =
  (p, [(OpMarkReaped e', false); (OpRequestGraceful, false)]).
Proof.
  intros e e' p. apply (verified_process_immutable p [OpMarkReaped e'; OpRequestGraceful]).
  - apply process_run_wf, process_running_wf.
  - reflexivity.
Defined.
