(* ===== verification/Scope.v ===== *)
(** * Scope: the [ProcessScope] aggregate

    shepherd-domain/src/scope.rs. A [&mut self] method is a function returning
    the new scope with the method's result. [ScopeCleanup] is the abstract
    specification (docs/state/tla/ScopeCleanup.tla) the aggregate refines. *)

From stdpp Require Import base list sorting gmap strings relations.
From S2P Require Import Prelude StdModel Values Process.

Open Scope Z_scope.

Record ProcessScope : Type := mkProcessScope {
  scope_id : ProcessScopeId;
  scope_state : ScopeState;
  processes : gmap ProcessId Process;
}.

Definition scope_new (id : ProcessScopeId) : ProcessScope := mkProcessScope id Open ∅.

Definition with_scope_state (s : ProcessScope) (st : ScopeState) : ProcessScope :=
  mkProcessScope (scope_id s) st (processes s).

Definition with_processes (s : ProcessScope) (m : gmap ProcessId Process) : ProcessScope :=
  mkProcessScope (scope_id s) (scope_state s) m.

Definition is_open (s : ProcessScope) : bool := accepts_processes (scope_state s).

Definition is_closed (s : ProcessScope) : bool :=
  match scope_state s with Closed => true | _ => false end.

Definition scope_get (s : ProcessScope) (pid : ProcessId) : option Process := processes s !! pid.

Definition scope_contains (s : ProcessScope) (pid : ProcessId) : bool :=
  bool_decide (is_Some (processes s !! pid)).

Definition process_ids (s : ProcessScope) : list ProcessId := bt_keys (processes s).

Definition live_process_ids (s : ProcessScope) : list ProcessId :=
  map process_id (filter (fun p => is_live (process_state p) = true) (bt_values (processes s))).

Definition has_live_processes (s : ProcessScope) : bool :=
  existsb (fun p => is_live (process_state p)) (bt_values (processes s)).

Definition attach_spawned (s : ProcessScope) (pid : ProcessId) (os : OsIdentity)
    (spec : ProcessSpec) : ProcessScope * result DomainEvent DomainError :=
  if negb (accepts_processes (scope_state s)) then
    (s, Err (DomainError_ScopeClosed (scope_id s)))
  else if scope_contains s pid then
    (s, Err (DomainError_InvalidTransition (mkInvalidTransition "owned" "attach duplicate process")))
  else
    (with_processes s (<[pid := process_running pid os spec]> (processes s)),
     Ok (ProcessSpawned (scope_id s) pid)).

Definition request_termination (s : ProcessScope) (pid : ProcessId) :
    ProcessScope * result (list DomainEvent) DomainError :=
  match processes s !! pid with
  | None => (s, Err (DomainError_UnknownProcess pid))
  | Some p =>
      let '(p', requested) := request_graceful p in
      (with_processes s (<[pid := p']> (processes s)),
       Ok (if requested then [TerminationRequested (scope_id s) pid] else []))
  end.

Definition escalate_termination (s : ProcessScope) (pid : ProcessId) :
    ProcessScope * result unit DomainError :=
  match processes s !! pid with
  | None => (s, Err (DomainError_UnknownProcess pid))
  | Some p => (with_processes s (<[pid := (escalate_to_force p).1]> (processes s)), Ok tt)
  end.

(** The loop over [self.processes.values_mut()] of [begin_scope_termination]. *)
Fixpoint request_each (scope : ProcessScopeId) (pids : list ProcessId)
    (m : gmap ProcessId Process) : gmap ProcessId Process * list DomainEvent :=
  match pids with
  | [] => (m, [])
  | pid :: pids =>
      match m !! pid with
      | None => request_each scope pids m
      | Some p =>
          let '(p', requested) := request_graceful p in
          let '(m', events) := request_each scope pids (<[pid := p']> m) in
          (m', if requested then TerminationRequested scope (process_id p') :: events else events)
      end
  end.

Definition begin_scope_termination (s : ProcessScope) : ProcessScope * list DomainEvent :=
  let st := match scope_state s with Open => Draining | st => st end in
  let '(m, events) := request_each (scope_id s) (bt_keys (processes s)) (processes s) in
  (mkProcessScope (scope_id s) st m, events).

Definition record_exit (s : ProcessScope) (pid : ProcessId) :
    ProcessScope * result (list DomainEvent) DomainError :=
  match processes s !! pid with
  | None => (s, Err (DomainError_UnknownProcess pid))
  | Some p =>
      let '(p', exited) := mark_exited p in
      (with_processes s (<[pid := p']> (processes s)),
       Ok (if exited then [ProcessExited (scope_id s) pid] else []))
  end.

(** [self.processes.values().all(|p| p.exit().is_some_and(is_verified))]. *)
Definition all_verified (s : ProcessScope) : bool :=
  forallb (fun p => exit_verified (process_exit p)) (bt_values (processes s)).

Definition record_reaped (s : ProcessScope) (pid : ProcessId) (exit : ProcessExit) :
    ProcessScope * result (list DomainEvent) DomainError :=
  match processes s !! pid with
  | None => (s, Err (DomainError_UnknownProcess pid))
  | Some p =>
      let '(p', reaped) := mark_reaped p exit in
      let s' := with_processes s (<[pid := p']> (processes s)) in
      if reaped then
        let events := [ProcessReaped (scope_id s) pid exit] in
        if match scope_state s' with Draining => true | _ => false end
           && negb (has_live_processes s') && all_verified s'
        then (with_scope_state s' Closed, Ok (events ++ [ScopeClosed (scope_id s)]))
        else (s', Ok events)
      else (s', Ok [])
  end.

Definition prune (s : ProcessScope) (pid : ProcessId) : ProcessScope :=
  if match processes s !! pid with
     | Some p => is_terminal (process_state p) && exit_verified (process_exit p)
     | None => false
     end
  then with_processes s (delete pid (processes s))
  else s.

(** ** The operations as data, and runs *)

Inductive scope_op : Type :=
| SAttach (pid : ProcessId) (os : OsIdentity) (spec : ProcessSpec)
| SRequest (pid : ProcessId)
| SEscalate (pid : ProcessId)
| SBegin
| SExit (pid : ProcessId)
| SReap (pid : ProcessId) (exit : ProcessExit)
| SPrune (pid : ProcessId).

(** The events an operation returns (none on an error). *)
Definition events_of (r : result (list DomainEvent) DomainError) : list DomainEvent :=
  match r with Ok evs => evs | Err _ => [] end.

Definition scope_apply (s : ProcessScope) (op : scope_op) : ProcessScope * list DomainEvent :=
  match op with
  | SAttach pid os spec =>
      let '(s', r) := attach_spawned s pid os spec in
      (s', match r with Ok ev => [ev] | Err _ => [] end)
  | SRequest pid => let '(s', r) := request_termination s pid in (s', events_of r)
  | SEscalate pid => ((escalate_termination s pid).1, [])
  | SBegin => begin_scope_termination s
  | SExit pid => let '(s', r) := record_exit s pid in (s', events_of r)
  | SReap pid e => let '(s', r) := record_reaped s pid e in (s', events_of r)
  | SPrune pid => (prune s pid, [])
  end.

(** The scope after a sequence of operations, with all events in order. *)
Fixpoint scope_run (s : ProcessScope) (ops : list scope_op) : ProcessScope * list DomainEvent :=
  match ops with
  | [] => (s, [])
  | op :: ops =>
      let '(s1, evs1) := scope_apply s op in
      let '(s2, evs2) := scope_run s1 ops in (s2, evs1 ++ evs2)
  end.

(** ** Invariant *)

Record scope_wf (s : ProcessScope) : Prop := {
  wf_ids : forall pid p, processes s !! pid = Some p -> process_id p = pid;
  wf_processes : forall pid p, processes s !! pid = Some p -> process_wf p;
  wf_closed : scope_state s = Closed ->
    forall pid p, processes s !! pid = Some p -> evidence_of p = VerifiedEvidence;
}.

Lemma exit_verified_evidence p :
  exit_verified (process_exit p) = true <-> evidence_of p = VerifiedEvidence.
Proof.
  unfold exit_verified, evidence_of. destruct (process_exit p) as [e|]; [|done].
  by destruct (is_verified (exit_outcome e)).
Qed.

Lemma all_verified_spec s :
  all_verified s = true <->
  forall pid p, processes s !! pid = Some p -> evidence_of p = VerifiedEvidence.
Proof.
  unfold all_verified. rewrite forallb_forall. split.
  - intros H pid p Hp. apply exit_verified_evidence, H, list_elem_of_In, elem_of_bt_values. eauto.
  - intros H p Hp%list_elem_of_In%elem_of_bt_values.
    destruct Hp as [pid Hp]. eapply exit_verified_evidence, H; eauto.
Qed.

Lemma has_live_spec s :
  has_live_processes s = true <->
  exists pid p, processes s !! pid = Some p /\ is_live (process_state p) = true.
Proof.
  unfold has_live_processes. rewrite existsb_exists. split.
  - intros (p & Hp%list_elem_of_In%elem_of_bt_values & Hl). destruct Hp as [pid Hp]. eauto.
  - intros (pid & p & Hp & Hl). exists p. split; [|done].
    apply list_elem_of_In, elem_of_bt_values. eauto.
Qed.

Lemma verified_not_live p :
  process_wf p -> evidence_of p = VerifiedEvidence -> process_state p = Reaped.
Proof.
  intros [Hev _ _] Hv. unfold evidence_of in Hv. apply Hev.
  destruct (process_exit p); [eauto|done].
Qed.

(** ** How one operation changes the process map and the state *)

Lemma decide_elem_tail {A} (k pid : N) (pids : list N) (x y : A) :
  k <> pid -> (if decide (k ∈ pid :: pids) then x else y) = (if decide (k ∈ pids) then x else y).
Proof. intros Hne. destruct (decide (k ∈ pids)), (decide (k ∈ pid :: pids)); try done; set_solver. Qed.

Lemma decide_elem_head {A} (pid : N) (pids : list N) (x y : A) :
  pid ∉ pids -> (if decide (pid ∈ pid :: pids) then x else y) = x.
Proof. intros Hni. case_decide; [done|set_solver]. Qed.

Lemma request_each_lookup scope pids m :
  NoDup pids ->
  forall k, (request_each scope pids m).1 !! k =
    (if decide (k ∈ pids) then (fun p => (request_graceful p).1) <$> m !! k else m !! k).
Proof.
  revert m. induction pids as [|pid pids IH]; intros m Hnd k.
  { case_decide; [set_solver|done]. }
  apply NoDup_cons in Hnd as [Hni Hnd]. cbn [request_each]. destruct (m !! pid) as [p|] eqn:Hp.
  - pose proof (IH (<[pid := (request_graceful p).1]> m) Hnd k) as IHk.
    destruct (request_graceful p) as [p' b] eqn:E. simpl in IHk.
    destruct (request_each scope pids (<[pid := p']> m)) as [m' evs]; simpl in *. rewrite IHk.
    destruct (decide (k = pid)) as [->|Hne].
    + rewrite decide_elem_head, decide_False, lookup_insert_eq, Hp by done. simpl. by rewrite E.
    + rewrite lookup_insert_ne by done.
      by rewrite decide_elem_tail by done.
  - rewrite IH by done. destruct (decide (k = pid)) as [->|Hne].
    + rewrite decide_elem_head, decide_False, Hp by done. done.
    + destruct (decide (k ∈ pids)); [rewrite decide_True by (by right)|rewrite decide_False]; try done.
      rewrite elem_of_cons. naive_solver.
Qed.

Lemma request_each_events scope pids m :
  NoDup pids ->
  (request_each scope pids m).2 =
    omap (fun k => p ← m !! k; if (request_graceful p).2
                     then Some (TerminationRequested scope (process_id p)) else None) pids.
Proof.
  revert m. induction pids as [|pid pids IH]; intros m Hnd; [done|].
  apply NoDup_cons in Hnd as [Hni Hnd]. simpl.
  assert (Hext : forall p', omap (fun k => p ← <[pid := p']> m !! k; if (request_graceful p).2
      then Some (TerminationRequested scope (process_id p)) else None) pids =
    omap (fun k => p ← m !! k; if (request_graceful p).2
      then Some (TerminationRequested scope (process_id p)) else None) pids).
  { intros p'. apply list_omap_ext, Forall_Forall2_diag, Forall_forall. intros k Hk.
    by rewrite lookup_insert_ne by (by intros <-). }
  destruct (m !! pid) as [p|] eqn:Hp; simpl; [|by rewrite IH].
  pose proof (process_apply_identity p OpRequestGraceful) as (Hid & _ & _). simpl in Hid.
  specialize (IH (<[pid := (request_graceful p).1]> m) Hnd). rewrite Hext in IH.
  destruct (request_graceful p) as [p' b] eqn:E; simpl in *.
  destruct (request_each scope pids (<[pid := p']> m)) as [m' evs]; simpl in *.
  rewrite IH, <- Hid. by destruct b.
Qed.

Lemma begin_scope_lookup s pid :
  processes (begin_scope_termination s).1 !! pid =
  (fun p => (request_graceful p).1) <$> processes s !! pid.
Proof.
  unfold begin_scope_termination.
  pose proof (request_each_lookup (scope_id s) _ (processes s) (NoDup_bt_keys (processes s)) pid) as H.
  destruct (request_each _ _ _) as [m evs]; simpl in *. rewrite H.
  case_decide as Hd; [done|]. rewrite elem_of_bt_keys, <- eq_None_not_Some in Hd. by rewrite Hd.
Qed.

(** Whether a graceful request of [pid] would send a signal now. *)
Definition requestable (s : ProcessScope) (pid : ProcessId) : bool :=
  match processes s !! pid with Some p => (request_graceful p).2 | None => false end.

Lemma begin_scope_events s :
  (forall pid p, processes s !! pid = Some p -> process_id p = pid) ->
  (begin_scope_termination s).2 =
    map (TerminationRequested (scope_id s)) (filter (fun k => requestable s k = true) (process_ids s)).
Proof.
  intros Hids. unfold begin_scope_termination, process_ids.
  pose proof (request_each_events (scope_id s) _ (processes s) (NoDup_bt_keys (processes s))) as H.
  destruct (request_each _ _ _) as [m evs]; simpl in *. rewrite H. clear H m evs.
  induction (bt_keys (processes s)) as [|k ks IH]; [done|].
  rewrite filter_cons, omap_cons_eq, IH. unfold requestable.
  destruct (processes s !! k) as [p|] eqn:Hk; simpl; [|done].
  destruct (request_graceful p) as [p' []]; simpl; [|done]. by rewrite (Hids k p).
Qed.

(** The process an event is about. *)
Definition ev_pid (ev : DomainEvent) : option ProcessId :=
  match ev with
  | ProcessSpawned _ k | TerminationRequested _ k | ProcessExited _ k | ProcessReaped _ k _ => Some k
  | ScopeClosed _ => None
  end.

Abbreviation events_about pid evs := (filter (fun ev => ev_pid ev = Some pid) evs).

(** The event a mutation of [pid] announces when it takes effect. *)
Definition announce (scope : ProcessScopeId) (pid : ProcessId) (pop : process_op) : list DomainEvent :=
  match pop with
  | OpRequestGraceful => [TerminationRequested scope pid]
  | OpEscalate => []
  | OpMarkExited => [ProcessExited scope pid]
  | OpMarkReaped e => [ProcessReaped scope pid e]
  end.

(** What an operation can do to one entry of the process map, with its events about it. *)
Inductive entry_change (s : ProcessScope) (op : scope_op) (pid : ProcessId) :
    option Process -> option Process -> list DomainEvent -> Prop :=
| entry_same o : entry_change s op pid o o []
| entry_applied p pop :
    entry_change s op pid (Some p) (Some (process_apply p pop).1)
      (if (process_apply p pop).2 then announce (scope_id s) pid pop else [])
| entry_attached os spec :
    op = SAttach pid os spec -> scope_state s = Open ->
    entry_change s op pid None (Some (process_running pid os spec)) [ProcessSpawned (scope_id s) pid]
| entry_pruned p :
    op = SPrune pid -> exit_verified (process_exit p) = true ->
    entry_change s op pid (Some p) None [].

Lemma entry_insert s op pid k p pop evs :
  processes s !! k = Some p ->
  events_about pid evs =
    (if decide (k = pid) then (if (process_apply p pop).2 then announce (scope_id s) k pop else [])
     else []) ->
  entry_change s op pid (processes s !! pid)
    (<[k := (process_apply p pop).1]> (processes s) !! pid) (events_about pid evs).
Proof.
  intros Hk ->. case_decide as Hd.
  - subst k. rewrite lookup_insert_eq, Hk. constructor.
  - rewrite lookup_insert_ne by done. constructor.
Qed.

Lemma events_about_one pid ev k :
  ev_pid ev = Some k -> events_about pid [ev] = (if decide (k = pid) then [ev] else []).
Proof. intros He. rewrite filter_cons, He. repeat case_decide; naive_solver. Qed.

Lemma events_about_requests i pid l :
  NoDup l ->
  events_about pid (map (TerminationRequested i) l) =
    (if decide (pid ∈ l) then [TerminationRequested i pid] else []).
Proof.
  induction 1 as [|k l Hk Hnd IH]; [by case_decide; [set_solver|]|].
  cbn [map]. rewrite filter_cons. simpl. rewrite IH.
  destruct (decide (Some k = Some pid)) as [[= ->]|Hne].
  - by rewrite decide_elem_head, decide_False.
  - by rewrite decide_elem_tail by congruence.
Qed.

Lemma begin_entry s op pid :
  (forall pid p, processes s !! pid = Some p -> process_id p = pid) ->
  entry_change s op pid (processes s !! pid) (processes (begin_scope_termination s).1 !! pid)
    (events_about pid (begin_scope_termination s).2).
Proof.
  intros Hids. rewrite begin_scope_lookup, begin_scope_events by done.
  rewrite events_about_requests by apply NoDup_filter, NoDup_bt_keys.
  assert (pid ∈ filter (fun k => requestable s k = true) (process_ids s) <->
          requestable s pid = true) as Hiff.
  { rewrite list_elem_of_filter. unfold process_ids. rewrite elem_of_bt_keys. unfold requestable.
    destruct (processes s !! pid); naive_solver. }
  rewrite (decide_ext _ _ _ _ Hiff). unfold requestable. clear Hiff.
  destruct (processes s !! pid) as [p|]; simpl; [|by constructor].
  pose proof (entry_applied s op pid p OpRequestGraceful) as H. simpl in H.
  by destruct (request_graceful p) as [p' []].
Qed.

Lemma scope_apply_entry s op pid :
  (forall pid p, processes s !! pid = Some p -> process_id p = pid) ->
  entry_change s op pid (processes s !! pid) (processes (scope_apply s op).1 !! pid)
    (events_about pid (scope_apply s op).2).
Proof.
  intros Hids. destruct op as [k os spec|k|k| |k|k e|k]; simpl.
  - unfold attach_spawned. destruct (scope_state s) eqn:Hst; simpl; try constructor.
    unfold scope_contains. case_bool_decide as Hk; simpl; [constructor|].
    rewrite (events_about_one _ _ k) by done. case_decide as Hd.
    + subst k. rewrite lookup_insert_eq. apply eq_None_not_Some in Hk. rewrite Hk.
      by econstructor.
    + rewrite lookup_insert_ne by done. constructor.
  - unfold request_termination. destruct (processes s !! k) as [p|] eqn:Hk; [|constructor].
    pose proof (entry_insert s (SRequest k) pid k p OpRequestGraceful) as H. simpl in H.
    destruct (request_graceful p) as [p' []];
      [apply (H [_]); [done|by apply events_about_one]|apply (H []); [done|by case_decide]].
  - unfold escalate_termination. destruct (processes s !! k) as [p|] eqn:Hk; [|constructor].
    apply (entry_insert s (SEscalate k) pid k p OpEscalate []); [done|].
    by repeat case_match.
  - by apply begin_entry.
  - unfold record_exit. destruct (processes s !! k) as [p|] eqn:Hk; [|constructor].
    pose proof (entry_insert s (SExit k) pid k p OpMarkExited) as H. simpl in H.
    destruct (mark_exited p) as [p' []];
      [apply (H [_]); [done|by apply events_about_one]|apply (H []); [done|by case_decide]].
  - unfold record_reaped. destruct (processes s !! k) as [p|] eqn:Hk; [|constructor].
    pose proof (entry_insert s (SReap k e) pid k p (OpMarkReaped e)) as H. simpl in H.
    destruct (mark_reaped p e) as [p' []]; [|apply (H []); [done|by case_decide]].
    assert (events_about pid [ProcessReaped (scope_id s) k e; ScopeClosed (scope_id s)] =
      events_about pid [ProcessReaped (scope_id s) k e]) as Hcl by (by rewrite !filter_cons).
    simpl; destruct (scope_state s); simpl; try destruct (negb _ && _); simpl; rewrite ?Hcl;
      (apply (H [_]); [done|by apply events_about_one]).
  - unfold prune. case_match eqn:E; [|constructor]. simpl.
    destruct (processes s !! k) as [p|] eqn:Hk; [|done]. apply andb_true_iff in E as [_ E].
    destruct (decide (pid = k)) as [->|Hne].
    + rewrite lookup_delete_eq, Hk. by constructor.
    + rewrite lookup_delete_ne by done. constructor.
Qed.

Lemma scope_apply_id s op : scope_id (scope_apply s op).1 = scope_id s.
Proof.
  destruct op; simpl; unfold attach_spawned, request_termination, escalate_termination,
    begin_scope_termination, record_exit, record_reaped, prune;
    repeat (case_match; simplify_eq/=; try done).
Qed.

(** The state moves only from [Open] to [Draining], by [begin_scope_termination], and from
    [Draining] to [Closed], by a [record_reaped] that finds everything verified. *)
Lemma scope_apply_state s op :
  let s' := (scope_apply s op).1 in
  scope_state s' = scope_state s \/
  (op = SBegin /\ scope_state s = Open /\ scope_state s' = Draining) \/
  (scope_state s = Draining /\ scope_state s' = Closed /\ all_verified s' = true /\
   exists pid e, op = SReap pid e).
Proof.
  destruct op as [k os spec|k|k| |k|k e|k]; simpl.
  - unfold attach_spawned. repeat case_match; simplify_eq/=; by left.
  - unfold request_termination. repeat case_match; simplify_eq/=; by left.
  - unfold escalate_termination. repeat case_match; simplify_eq/=; by left.
  - unfold begin_scope_termination. destruct (request_each _ _ _). simpl.
    destruct (scope_state s); auto.
  - unfold record_exit. repeat case_match; simplify_eq/=; by left.
  - unfold record_reaped. destruct (processes s !! k) as [p|]; [|by auto].
    destruct (mark_reaped p e) as [p' []]; simpl; [|by auto].
    destruct (scope_state s) eqn:Hst; simpl; auto.
    destruct (negb _ && _) eqn:E; simpl; auto. apply andb_true_iff in E as [_ E].
    right; right. split_and!; [done..|exact E|eauto].
  - unfold prune. case_match; auto.
Qed.

Lemma scope_apply_wf s op : scope_wf s -> scope_wf (scope_apply s op).1.
Proof.
  intros [Hids Hps Hcl]. split.
  - intros pid p. pose proof (scope_apply_entry s op pid Hids) as H.
    inversion H as [o Ho Ho' Hev|p' pop Ho Ho' Hev|os spec Hop Hst Ho Ho' Hev|p' Hop He Ho Ho' Hev].
    + eauto.
    + intros [= <-]. destruct (process_apply_identity p' pop) as [-> _]. eauto.
    + by intros [= <-].
    + done.
  - intros pid p. pose proof (scope_apply_entry s op pid Hids) as H.
    inversion H as [o Ho Ho' Hev|p' pop Ho Ho' Hev|os spec Hop Hst Ho Ho' Hev|p' Hop He Ho Ho' Hev].
    + eauto.
    + intros [= <-]. eauto with shepherd.
    + intros [= <-]. auto with shepherd.
    + done.
  - intros Hst'. destruct (scope_apply_state s op) as [Hs|[(_ & _ & Hs)|(_ & _ & Hv & _)]];
      [|congruence|by apply all_verified_spec].
    rewrite Hs in Hst'. intros pid p. pose proof (scope_apply_entry s op pid Hids) as H.
    inversion H as [o Ho Ho' Hev|p' pop Ho Ho' Hev|os spec Hop Hst Ho Ho' Hev|p' Hop He Ho Ho' Hev].
    + eauto.
    + intros [= <-]. by rewrite process_apply_verified by eauto; eauto.
    + congruence.
    + done.
Qed.

Lemma scope_new_wf id : scope_wf (scope_new id).
Proof. by split. Qed.

Lemma scope_run_wf s ops : scope_wf s -> scope_wf (scope_run s ops).1.
Proof.
  revert s. induction ops as [|op ops IH]; intros s Hs; simpl; [done|].
  pose proof (scope_apply_wf s op Hs) as H1. destruct (scope_apply s op) as [s1 evs1]; simpl in *.
  specialize (IH s1 H1). by destruct (scope_run s1 ops).
Qed.

#[export] Hint Resolve scope_new_wf scope_apply_wf scope_run_wf : shepherd.

(** ** Events *)

Definition ev_spawned (pid : ProcessId) (ev : DomainEvent) : bool :=
  match ev with ProcessSpawned _ k => bool_decide (k = pid) | _ => false end.
Definition ev_requested (pid : ProcessId) (ev : DomainEvent) : bool :=
  match ev with TerminationRequested _ k => bool_decide (k = pid) | _ => false end.
Definition ev_exited (pid : ProcessId) (ev : DomainEvent) : bool :=
  match ev with ProcessExited _ k => bool_decide (k = pid) | _ => false end.
Definition ev_reaped_verified (pid : ProcessId) (ev : DomainEvent) : bool :=
  match ev with
  | ProcessReaped _ k e => bool_decide (k = pid) && is_verified (exit_outcome e)
  | _ => false
  end.
Definition ev_closed (ev : DomainEvent) : bool :=
  match ev with ScopeClosed _ => true | _ => false end.

(** A fact about a process that an event announces: [f] accepts only announcements of
    [pid], and each of them makes the fact true, where it was false and stays true. *)
Section Announce.
Context (pid : ProcessId) (f : DomainEvent -> bool) (fact : Process -> bool).

Definition pending (s : ProcessScope) : nat :=
  match processes s !! pid with Some p => if fact p then 0 else 1 | None => 0 end%nat.

Context (Hpid : forall ev, f ev = true -> ev_pid ev = Some pid).
Context (Hspawn : forall i, f (ProcessSpawned i pid) = false).
Context (Hstep : forall i p pop, process_wf p ->
  (count_if f (if (process_apply p pop).2 then announce i pid pop else []) +
   (if fact (process_apply p pop).1 then 0 else 1) <= if fact p then 0 else 1)%nat).

Lemma pending_step s op :
  scope_wf s ->
  (count_if f (scope_apply s op).2 + pending (scope_apply s op).1 <=
   pending s + count_if (ev_spawned pid) (scope_apply s op).2)%nat.
Proof using Hpid Hspawn Hstep.
  intros Hs. pose proof (scope_apply_entry s op pid (wf_ids s Hs)) as He.
  assert (Hev : forall ev, ev_spawned pid ev = true -> ev_pid ev = Some pid).
  { intros [] Hev; simpl in *; try done. apply bool_decide_eq_true in Hev. by subst. }
  rewrite <- (count_if_filter f (fun ev => ev_pid ev = Some pid)) by done.
  rewrite <- (count_if_filter (ev_spawned pid) (fun ev => ev_pid ev = Some pid)) by done.
  unfold pending.
  inversion He as [o Ho Ho' Hl|p pop Ho Ho' Hl|os spec Hop Hst Ho Ho' Hl|p Hop Hv Ho Ho' Hl].
  - simpl. lia.
  - pose proof (Hstep (scope_id s) p pop (wf_processes s Hs pid p (eq_sym Ho))). lia.
  - simpl. rewrite Hspawn, bool_decide_true by done. case_match; lia.
  - simpl. lia.
Qed.

Lemma pending_run s ops :
  scope_wf s ->
  (count_if f (scope_run s ops).2 <=
   pending s + count_if (ev_spawned pid) (scope_run s ops).2)%nat.
Proof using Hpid Hspawn Hstep.
  revert s. induction ops as [|op ops IH]; intros s Hs; simpl; [lia|].
  pose proof (pending_step s op Hs) as H1. pose proof (scope_apply_wf s op Hs) as Hs1.
  destruct (scope_apply s op) as [s1 evs1]; simpl in *. specialize (IH s1 Hs1).
  destruct (scope_run s1 ops) as [s2 evs2]; simpl in *. rewrite !count_if_app. lia.
Qed.
End Announce.

(** The scope closes at most once. *)
Lemma scope_run_closed_once s ops :
  (count_if ev_closed (scope_run s ops).2 <= if is_closed s then 0 else 1)%nat.
Proof.
  revert s. induction ops as [|op ops IH]; intros s; simpl; [lia|].
  assert (count_if ev_closed (scope_apply s op).2 + (if is_closed (scope_apply s op).1 then 0 else 1)
    <= if is_closed s then 0 else 1)%nat as H1.
  { unfold is_closed. destruct op as [k os spec|k|k| |k|k e|k]; simpl;
      unfold attach_spawned, request_termination, escalate_termination, record_exit, record_reaped,
        prune; try (repeat (case_match; simplify_eq/=; try congruence); lia).
    unfold begin_scope_termination.
    assert (forall i ks m, count_if ev_closed (request_each i ks m).2 = 0%nat) as H0.
    { intros i ks. induction ks as [|k ks IHk]; intros m; simpl; [done|].
      destruct (m !! k) as [p|]; [|done]. destruct (request_graceful p) as [p' b].
      specialize (IHk (<[k:=p']> m)). destruct (request_each _ _ _). by destruct b. }
    specialize (H0 (scope_id s) (bt_keys (processes s)) (processes s)).
    destruct (request_each _ _ _) as [m evs]; simpl in *. rewrite H0. destruct (scope_state s); lia. }
  destruct (scope_apply s op) as [s1 evs1]; simpl in *. specialize (IH s1).
  destruct (scope_run s1 ops) as [s2 evs2]; simpl in *. rewrite count_if_app. lia.
Qed.

Ltac announce_step :=
  let i := fresh in let p := fresh in let pop := fresh in let Hp := fresh in
  intros i p pop Hp; pose proof (process_wf_no_exit p Hp);
  destruct p as [? ? ? [] ? [?|]], pop; simpl in *; unfold mark_reaped, evidence_of; simpl;
  repeat (case_match; simpl in *; simplify_eq/=; try lia; try naive_solver);
  rewrite ?bool_decide_true by done; simpl; try lia; naive_solver.

Lemma requested_pending pid s ops :
  scope_wf s ->
  (count_if (ev_requested pid) (scope_run s ops).2 <=
   pending pid (fun p => 2 <=? lifecycle_rank (process_state p))%nat s +
   count_if (ev_spawned pid) (scope_run s ops).2)%nat.
Proof.
  apply pending_run.
  - intros [] Hev; simpl in *; try done. apply bool_decide_eq_true in Hev. by subst.
  - done.
  - announce_step.
Qed.

Lemma exited_pending pid s ops :
  scope_wf s ->
  (count_if (ev_exited pid) (scope_run s ops).2 <=
   pending pid (fun p => 4 <=? lifecycle_rank (process_state p))%nat s +
   count_if (ev_spawned pid) (scope_run s ops).2)%nat.
Proof.
  apply pending_run.
  - intros [] Hev; simpl in *; try done. apply bool_decide_eq_true in Hev. by subst.
  - done.
  - announce_step.
Qed.

Lemma reaped_pending pid s ops :
  scope_wf s ->
  (count_if (ev_reaped_verified pid) (scope_run s ops).2 <=
   pending pid (fun p => bool_decide (evidence_of p = VerifiedEvidence)) s +
   count_if (ev_spawned pid) (scope_run s ops).2)%nat.
Proof.
  apply pending_run.
  - intros [] Hev; simpl in *; try done. apply andb_true_iff in Hev as [Hev%bool_decide_eq_true _]. by subst.
  - done.
  - announce_step.
Qed.

(** ** The abstract specification: cleanup of one scope

    What docs/state/tla/ScopeCleanup.tla specifies, with processes admitted one
    by one: a phase, the evidence recorded for every process ever admitted, and
    the set of processes still tracked. *)
Module ScopeCleanup.

Record state : Type := mkState {
  phase : ScopeState;
  evid : gmap ProcessId evidence;
  tracked : gset ProcessId;
}.

Definition init : state := mkState Open ∅ ∅.

Inductive step (a : state) : state -> Prop :=
| Admit p :
    phase a = Open -> p ∉ tracked a ->
    step a (mkState (phase a) (<[p := NoEvidence]> (evid a)) ({[p]} ∪ tracked a))
| Drain :
    phase a = Open -> step a (mkState Draining (evid a) (tracked a))
| Observe p o :
    p ∈ tracked a -> evid a !! p <> Some VerifiedEvidence -> o <> NoEvidence ->
    step a (mkState (phase a) (<[p := o]> (evid a)) (tracked a))
| Close :
    phase a = Draining ->
    (forall p, p ∈ tracked a -> evid a !! p = Some VerifiedEvidence) ->
    step a (mkState Closed (evid a) (tracked a))
| Prune p :
    p ∈ tracked a -> evid a !! p = Some VerifiedEvidence ->
    step a (mkState (phase a) (evid a) (tracked a ∖ {[p]})).

(** Every process admitted is tracked or verified; once closed, all are verified. *)
Record inv (a : state) : Prop := {
  inv_tracked : forall p, p ∈ tracked a -> is_Some (evid a !! p);
  inv_pruned : forall p e, evid a !! p = Some e -> p ∈ tracked a \/ e = VerifiedEvidence;
  inv_closed : phase a = Closed -> forall p e, evid a !! p = Some e -> e = VerifiedEvidence;
}.

Lemma init_inv : inv init.
Proof. split; simpl; set_solver. Qed.

Lemma step_inv a b : step a b -> inv a -> inv b.
Proof.
  intros [p Hph Hp|Hph|p o Hp He Ho|Hph Hall|p Hp He] [Htr Hpr Hcl]; split; simpl.
  - intros q [->%elem_of_singleton|Hq]%elem_of_union;
      [rewrite lookup_insert_eq; eauto|rewrite lookup_insert_is_Some; right; set_solver].
  - intros q e. rewrite lookup_insert_Some. intros [[<- <-]|[_ Hq%Hpr]]; set_solver.
  - congruence.
  - done.
  - done.
  - done.
  - intros q Hq. rewrite lookup_insert_is_Some. destruct (decide (p = q)); auto.
  - intros q e. rewrite lookup_insert_Some. intros [[<- <-]|[_ Hq%Hpr]]; set_solver.
  - intros Hc. destruct (Htr p Hp) as [e Hpe]. destruct He. by rewrite Hpe, (Hcl Hc p e).
  - done.
  - done.
  - intros _ p e Hpe. destruct (Hpr p e Hpe) as [Hp| ->]; [|done]. apply Hall in Hp. congruence.
  - set_solver.
  - intros q e Hq. destruct (decide (q = p)) as [->|Hne]; [right; congruence|].
    destruct (Hpr q e Hq); [left; set_solver|by right].
  - done.
Qed.

Lemma steps_inv a b : rtc step a b -> inv a -> inv b.
Proof. induction 1; eauto using step_inv. Qed.

End ScopeCleanup.

(** The scope implements the abstract state: same phase, same tracked processes, and the
    evidence of every tracked process is the one its recorded exit gives. *)
Record scope_refines (s : ProcessScope) (a : ScopeCleanup.state) : Prop := {
  ref_phase : ScopeCleanup.phase a = scope_state s;
  ref_tracked : ScopeCleanup.tracked a = dom (processes s);
  ref_evidence : forall pid p, processes s !! pid = Some p ->
    ScopeCleanup.evid a !! pid = Some (evidence_of p);
}.

(** One mutation of a process is at most one [Observe]. *)
Lemma process_apply_evidence_cases p pop :
  process_wf p ->
  evidence_of (process_apply p pop).1 = evidence_of p \/
  (evidence_of p <> VerifiedEvidence /\ evidence_of (process_apply p pop).1 <> NoEvidence).
Proof.
  intros Hp. destruct (decide (evidence_of p = VerifiedEvidence)) as [Hv|Hv].
  - left. by rewrite process_apply_verified.
  - pose proof (process_apply_evidence p pop Hp) as H.
    destruct (evidence_of p), (evidence_of (process_apply p pop).1); simpl in *;
      try lia; auto.
Qed.

Lemma refine_observe s a pid p pop m :
  scope_wf s -> scope_refines s a -> processes s !! pid = Some p ->
  m = <[pid := (process_apply p pop).1]> (processes s) ->
  exists a', rtc ScopeCleanup.step a a' /\ scope_refines (with_processes s m) a'.
Proof.
  intros [_ Hps _] [Hph Htr Hev] Hp ->.
  assert (dom (<[pid := (process_apply p pop).1]> (processes s)) = dom (processes s)) as Hd.
  { apply dom_insert_lookup_L; eauto. }
  destruct (process_apply_evidence_cases p pop (Hps _ _ Hp)) as [He|[He1 He2]].
  - exists a. split; [done|]. split; simpl; [done|by rewrite Hd|].
    intros q p'. rewrite lookup_insert_Some. intros [[<- <-]|[_ Hq]]; [|eauto].
    rewrite He. eauto.
  - exists (ScopeCleanup.mkState (ScopeCleanup.phase a)
      (<[pid := evidence_of (process_apply p pop).1]> (ScopeCleanup.evid a)) (ScopeCleanup.tracked a)).
    split.
    + apply rtc_once, ScopeCleanup.Observe; [|rewrite (Hev _ _ Hp); congruence|done].
      rewrite Htr. by eapply elem_of_dom_2.
    + split; simpl; [done|by rewrite Hd|]. intros q p'. rewrite !lookup_insert_Some.
      intros [[<- <-]|[Hne Hq]]; [by left|right; eauto].
Qed.

Lemma request_graceful_evidence p : evidence_of (request_graceful p).1 = evidence_of p.
Proof. unfold request_graceful. by repeat case_match. Qed.

Lemma begin_scope_state s :
  scope_state (begin_scope_termination s).1 = match scope_state s with Open => Draining | st => st end.
Proof. unfold begin_scope_termination. by destruct (request_each _ _ _). Qed.

Lemma begin_scope_dom s : dom (processes (begin_scope_termination s).1) = dom (processes s).
Proof.
  apply set_eq. intros pid. rewrite !elem_of_dom, begin_scope_lookup.
  by rewrite fmap_is_Some.
Qed.

Lemma refine_begin s a :
  scope_refines s a ->
  exists a', rtc ScopeCleanup.step a a' /\ scope_refines (begin_scope_termination s).1 a'.
Proof.
  intros [Hph Htr Hev].
  assert (Hr : forall ph, scope_state (begin_scope_termination s).1 = ph ->
    scope_refines (begin_scope_termination s).1
      (ScopeCleanup.mkState ph (ScopeCleanup.evid a) (ScopeCleanup.tracked a))).
  { intros ph <-. split; simpl; [done|by rewrite begin_scope_dom|].
    intros pid p. rewrite begin_scope_lookup, fmap_Some. intros (q & Hq & ->).
    rewrite request_graceful_evidence. eauto. }
  rewrite begin_scope_state in Hr. destruct (scope_state s) eqn:Hst.
  - eexists. split; [apply rtc_once, ScopeCleanup.Drain; congruence|by apply Hr].
  - exists a. split; [done|]. destruct a; simpl in *. rewrite Hph. by apply Hr.
  - exists a. split; [done|]. destruct a; simpl in *. rewrite Hph. by apply Hr.
Qed.

Lemma refine_close s a :
  scope_refines s a -> scope_state s = Draining -> all_verified s = true ->
  exists a', rtc ScopeCleanup.step a a' /\ scope_refines (with_scope_state s Closed) a'.
Proof.
  intros [Hph Htr Hev] Hst Hall. rewrite all_verified_spec in Hall.
  eexists. split.
  - apply rtc_once, ScopeCleanup.Close; [congruence|]. intros p Hp. rewrite Htr in Hp.
    apply elem_of_dom in Hp as [q Hq]. rewrite (Hev _ _ Hq). f_equal. eauto.
  - by split.
Qed.

Lemma scope_apply_refines s a op :
  scope_wf s -> scope_refines s a ->
  exists a', rtc ScopeCleanup.step a a' /\ scope_refines (scope_apply s op).1 a'.
Proof.
  intros Hs Hr. pose proof Hr as [Hph Htr Hev].
  destruct op as [k os spec|k|k| |k|k e|k]; simpl; [| | |by apply refine_begin| | |].
  - unfold attach_spawned, scope_contains. destruct (scope_state s) eqn:Hst; simpl; [|by exists a..].
    case_bool_decide as Hk; simpl; [by exists a|]. eexists. split.
    + apply rtc_once, (ScopeCleanup.Admit a k); [congruence|]. by rewrite Htr, elem_of_dom.
    + split; simpl; [congruence|rewrite dom_insert_L; congruence|].
      intros q p. rewrite !lookup_insert_Some. intros [[<- <-]|[Hne Hq]]; [by left|right; eauto].
  - unfold request_termination. destruct (processes s !! k) as [p|] eqn:Hk; [|by exists a].
    pose proof (refine_observe s a k p OpRequestGraceful _ Hs Hr Hk eq_refl) as H.
    simpl in H. by destruct (request_graceful p).
  - unfold escalate_termination. destruct (processes s !! k) as [p|] eqn:Hk; [|by exists a].
    apply (refine_observe s a k p OpEscalate _ Hs Hr Hk eq_refl).
  - unfold record_exit. destruct (processes s !! k) as [p|] eqn:Hk; [|by exists a].
    pose proof (refine_observe s a k p OpMarkExited _ Hs Hr Hk eq_refl) as H.
    simpl in H. by destruct (mark_exited p).
  - unfold record_reaped. destruct (processes s !! k) as [p|] eqn:Hk; [|by exists a].
    pose proof (refine_observe s a k p (OpMarkReaped e) _ Hs Hr Hk eq_refl) as (a1 & H1 & Hr1).
    simpl in Hr1. destruct (mark_reaped p e) as [p' []]; [|by exists a1]. simpl in *.
    destruct (scope_state s) eqn:Hst; simpl; [by exists a1| |by exists a1].
    destruct (negb _ && _) eqn:E; simpl; [|by exists a1]. apply andb_true_iff in E as [_ E].
    destruct (refine_close _ a1 Hr1 Hst E) as (a2 & H2 & Hr2).
    exists a2. split; [by etrans|done].
  - unfold prune. destruct (processes s !! k) as [p|] eqn:Hk; [|by exists a].
    destruct (is_terminal _ && _) eqn:E; [|by exists a].
    apply andb_true_iff in E as [_ E%exit_verified_evidence]. eexists. split.
    + apply rtc_once, (ScopeCleanup.Prune a k); [rewrite Htr; by eapply elem_of_dom_2|].
      rewrite (Hev _ _ Hk). congruence.
    + split; simpl; [done|rewrite dom_delete_L; congruence|].
      intros q p'. rewrite lookup_delete_Some. naive_solver.
Qed.

Lemma scope_run_refines s a ops :
  scope_wf s -> scope_refines s a ->
  exists a', rtc ScopeCleanup.step a a' /\ scope_refines (scope_run s ops).1 a'.
Proof.
  revert s a. induction ops as [|op ops IH]; intros s a Hs Hr; simpl; [by exists a|].
  destruct (scope_apply_refines s a op Hs Hr) as (a1 & H1 & Hr1).
  pose proof (scope_apply_wf s op Hs) as Hs1.
  destruct (scope_apply s op) as [s1 evs1]; simpl in *.
  destruct (IH s1 a1 Hs1 Hr1) as (a2 & H2 & Hr2). destruct (scope_run s1 ops).
  exists a2. split; [by etrans|done].
Qed.

(** What the trace must contain for the processes a scope no longer has to clean up. *)
Definition reaped_in (evs : list DomainEvent) (pid : ProcessId) : Prop :=
  exists ev, ev ∈ evs /\ ev_reaped_verified pid ev = true.

Definition accounted (s : ProcessScope) (evs : list DomainEvent) : Prop :=
  forall pid i, ProcessSpawned i pid ∈ evs ->
    match processes s !! pid with
    | Some p => evidence_of p = VerifiedEvidence -> reaped_in evs pid
    | None => reaped_in evs pid
    end.

Lemma events_about_nil pid ev (evs : list DomainEvent) :
  [] = events_about pid evs -> ev_pid ev = Some pid -> ev ∉ evs.
Proof.
  intros Hl Hp Hev. assert (ev ∈ events_about pid evs) as H by (by apply list_elem_of_filter).
  rewrite <- Hl in H. by apply not_elem_of_nil in H.
Qed.

Lemma mark_reaped_evidence p e :
  evidence_of (mark_reaped p e).1 = VerifiedEvidence -> evidence_of p <> VerifiedEvidence ->
  (mark_reaped p e).2 = true /\ is_verified (exit_outcome e) = true.
Proof.
  unfold mark_reaped. destruct (process_state p); simpl; try done;
    try (case_match; simpl; [|done]);
    unfold evidence_of at 1; simpl; by destruct (is_verified (exit_outcome e)).
Qed.

Lemma accounted_apply s evs op :
  scope_wf s -> accounted s evs -> accounted (scope_apply s op).1 (evs ++ (scope_apply s op).2).
Proof.
  intros Hs Hacc pid i Hsp. unfold accounted in Hacc.
  assert (Hmono : forall l, reaped_in evs pid -> reaped_in (evs ++ l) pid).
  { intros l (ev & Hev & Hr). exists ev. split; [|done]. apply elem_of_app. by left. }
  pose proof (scope_apply_entry s op pid (wf_ids s Hs)) as He.
  apply elem_of_app in Hsp.
  inversion He as [o Ho Ho' Hl|p pop Ho Ho' Hl|os spec Hop Hst Ho Ho' Hl|p Hop Hv Ho Ho' Hl].
  - destruct Hsp as [Hsp|Hsp].
    + specialize (Hacc pid i Hsp). rewrite <- Ho in *. destruct o; auto.
    + by apply (events_about_nil pid) in Hsp.
  - intros Hver. destruct (decide (evidence_of p = VerifiedEvidence)) as [Hpv|Hpv].
    { destruct Hsp as [Hsp|Hsp]; [specialize (Hacc pid i Hsp); rewrite <- Ho in Hacc; auto|].
      rewrite process_apply_verified in Hl by (try done; eapply wf_processes; eauto).
      by apply (events_about_nil pid) in Hsp. }
    assert (exists e, pop = OpMarkReaped e /\ (mark_reaped p e).2 = true /\
      is_verified (exit_outcome e) = true) as (e & -> & Hb & Hev).
    { destruct pop as [| | |e]; simpl in Hver.
      - by rewrite request_graceful_evidence in Hver.
      - unfold escalate_to_force in Hver. repeat case_match; done.
      - unfold mark_exited in Hver. repeat case_match; done.
      - eauto using mark_reaped_evidence. }
    simpl in Hl. rewrite Hb in Hl. exists (ProcessReaped (scope_id s) pid e). split.
    + apply elem_of_app. right. apply (list_elem_of_filter (fun ev => ev_pid ev = Some pid)).
      rewrite <- Hl. by left.
    + simpl. by rewrite bool_decide_true.
  - done.
  - destruct Hsp as [Hsp|Hsp].
    + specialize (Hacc pid i Hsp). rewrite <- Ho in Hacc. apply Hmono, Hacc.
      by apply exit_verified_evidence.
    + by apply (events_about_nil pid) in Hsp.
Qed.

Lemma accounted_run s evs ops :
  scope_wf s -> accounted s evs -> accounted (scope_run s ops).1 (evs ++ (scope_run s ops).2).
Proof.
  revert s evs. induction ops as [|op ops IH]; intros s evs Hs Hacc; simpl; [by rewrite app_nil_r|].
  pose proof (scope_apply_wf s op Hs) as Hs1. pose proof (accounted_apply s evs op Hs Hacc) as Ha1.
  destruct (scope_apply s op) as [s1 evs1]; simpl in *.
  specialize (IH s1 (evs ++ evs1) Hs1 Ha1). destruct (scope_run s1 ops); simpl in *.
  by rewrite <- app_assoc in IH.
Qed.

(** ** Properties *)


(** A scope is closed only after cleanup is proved: when a run ends [Closed], every
    process a [ProcessSpawned] event announced has a [ProcessReaped] event with a verified
    outcome in the same trace. The same holds of every process pruned from any scope. *)
Theorem scope_closed_all_reaped id ops :
  let s := (scope_run (scope_new id) ops).1 in
  let evs := (scope_run (scope_new id) ops).2 in
  forall pid i, ProcessSpawned i pid ∈ evs ->
    scope_state s = Closed \/ scope_contains s pid = false ->
    exists j e, ProcessReaped j pid e ∈ evs /\ is_verified (exit_outcome e) = true.
Proof.
  intros s evs pid i Hsp Hc.
  assert (Hr : reaped_in evs pid).
  { pose proof (accounted_run (scope_new id) [] ops (scope_new_wf id)) as H.
    specialize (H ltac:(by intros ? ? ?%not_elem_of_nil) pid i Hsp). fold s evs in H.
    destruct (processes s !! pid) as [p|] eqn:Hp; [|done]. apply H.
    destruct Hc as [Hc|Hc].
    - eapply wf_closed; [apply scope_run_wf, scope_new_wf|exact Hc|exact Hp].
    - unfold scope_contains in Hc. apply bool_decide_eq_false in Hc.
      destruct Hc. eauto. }
  destruct Hr as (ev & Hev & Hb). destruct ev as [| | |j k e|]; simpl in Hb; try done.
  apply andb_true_iff in Hb as [Hk%bool_decide_eq_true Hv]. subst k. eauto.
Qed.

Lemma scope_closed_all_reaped_witness :
  let e := mkProcessExit 4%N None (Some Term) GracefulSuccess false in
  let ops := [SAttach 4%N (mkOsIdentity 900 TokenUnavailable) (spec_new "sh"); SBegin;
              SExit 4%N; SReap 4%N e] in
  exists j e, ProcessReaped j 4%N e ∈ (scope_run (scope_new 1%N) ops).2 /\
    is_verified (exit_outcome e) = true.
Proof.
  intros e ops. apply (scope_closed_all_reaped 1%N ops 4%N 1%N).
  - vm_compute. by left.
  - left. reflexivity.
Defined.

(** No lifecycle fact is announced twice: in the trace of any run, for each process,
    termination requests, exits and verified reaps are each at most as many as its spawns,
    and the scope announces its closing at most once. *)
Theorem scope_events_at_most_once id ops pid :
  let evs := (scope_run (scope_new id) ops).2 in
  let spawned := count_if (ev_spawned pid) evs in
  (count_if (ev_requested pid) evs <= spawned)%nat /\
  (count_if (ev_exited pid) evs <= spawned)%nat /\
  (count_if (ev_reaped_verified pid) evs <= spawned)%nat /\
  (count_if ev_closed evs <= 1)%nat.
Proof.
  intros evs spawned. pose proof (scope_new_wf id) as Hs. split_and!.
  - apply (requested_pending pid (scope_new id) ops Hs).
  - apply (exited_pending pid (scope_new id) ops Hs).
  - apply (reaped_pending pid (scope_new id) ops Hs).
  - apply (scope_run_closed_once (scope_new id) ops).
Qed.

Lemma request_graceful_idempotent p : request_graceful (request_graceful p).1 = ((request_graceful p).1, false).
Proof. unfold request_graceful. destruct (process_state p) eqn:E; simpl; by rewrite ?E. Qed.

(** [begin_scope_termination] asks every live process that was not asked before, in
    ascending order of process id, closes the scope to new processes, changes nothing else,
    and a second call asks nobody and changes nothing. *)
Theorem begin_scope_termination_spec s :
  scope_wf s ->
  let '(s', evs) := begin_scope_termination s in
  evs = map (TerminationRequested (scope_id s))
          (filter (fun k => requestable s k = true) (process_ids s)) /\
  (forall pid, processes s' !! pid = (fun p => (request_graceful p).1) <$> processes s !! pid) /\
  (scope_state s' = match scope_state s with Open => Draining | st => st end) /\
  (forall pid os spec, (attach_spawned s' pid os spec) = (s', Err (DomainError_ScopeClosed (scope_id s)))) /\
  begin_scope_termination s' = (s', []).
Proof.
  intros Hs. pose proof (scope_apply_wf s SBegin Hs) as Hs'. simpl in Hs'.
  pose proof (begin_scope_events s (wf_ids s Hs)) as Hev.
  pose proof (begin_scope_lookup s) as Hlk. pose proof (begin_scope_state s) as Hst.
  pose proof (scope_apply_id s SBegin) as Hid. simpl in Hid.
  destruct (begin_scope_termination s) as [s' evs]; simpl in *.
  split_and!; [done..| |].
  - intros pid os spec. unfold attach_spawned. rewrite Hst, Hid. by destruct (scope_state s).
  - pose proof (begin_scope_events s' (wf_ids s' Hs')) as Hev'.
    pose proof (begin_scope_lookup s') as Hlk'. pose proof (begin_scope_state s') as Hst'.
    pose proof (scope_apply_id s' SBegin) as Hid'. simpl in Hid'.
    destruct (begin_scope_termination s') as [s'' evs']; simpl in *. f_equal.
    + destruct s' as [i st m], s'' as [i' st' m']; simpl in *. f_equal; [done| |].
      * rewrite Hst', Hst. by destruct (scope_state s).
      * apply map_eq. intros pid. rewrite Hlk', Hlk. destruct (processes s !! pid); simpl; [|done].
        by rewrite request_graceful_idempotent.
    + rewrite Hev'. replace (filter _ _) with (@nil N); [done|]. symmetry.
      apply elem_of_nil_inv. intros k [Hk _]%list_elem_of_filter.
      unfold requestable in Hk. rewrite Hlk in Hk. destruct (processes s !! k); simpl in Hk; [|done].
      by rewrite request_graceful_idempotent in Hk.
Qed.

Lemma begin_scope_termination_spec_witness :
  let s := (scope_run (scope_new 3%N)
    [SAttach 8%N (mkOsIdentity 10 (StartTime 5)) (spec_new "b");
     SAttach 2%N (mkOsIdentity 11 (StartTime 6)) (spec_new "a")]).1 in
  (begin_scope_termination s).2 = [TerminationRequested 3%N 2%N; TerminationRequested 3%N 8%N].
Proof.
  intros s. pose proof (begin_scope_termination_spec s
    (scope_run_wf _ _ (scope_new_wf 3%N))) as H.
  destruct (begin_scope_termination s) as [s' evs] eqn:E. destruct H as [-> _]. reflexivity.
Defined.

(** [record_reaped] on an owned process whose evidence improves: it reports the reap, and
    the scope closes exactly when it was draining, this exit is verified and every other
    tracked process already has a verified exit; an unknown process is an error and an exit
    that adds nothing changes nothing. *)
Theorem record_reaped_spec s pid exit :
  scope_wf s ->
  match processes s !! pid with
  | None => record_reaped s pid exit = (s, Err (DomainError_UnknownProcess pid))
  | Some p =>
      if (mark_reaped p exit).2 then
        let closes := scope_state s = Draining /\ is_verified (exit_outcome exit) = true /\
          forall k q, k <> pid -> processes s !! k = Some q -> evidence_of q = VerifiedEvidence in
        (closes /\ (record_reaped s pid exit).2 =
           Ok [ProcessReaped (scope_id s) pid exit; ScopeClosed (scope_id s)] /\
         scope_state (record_reaped s pid exit).1 = Closed) \/
        (~ closes /\ (record_reaped s pid exit).2 = Ok [ProcessReaped (scope_id s) pid exit] /\
         scope_state (record_reaped s pid exit).1 = scope_state s)
      else record_reaped s pid exit = (s, Ok [])
  end.
Proof.
  intros Hs. unfold record_reaped. destruct (processes s !! pid) as [p|] eqn:Hp; [|done].
  pose proof (wf_processes s Hs pid p Hp) as Hwp.
  pose proof (scope_apply_wf s (SReap pid exit) Hs) as Hs'. simpl in Hs'. unfold record_reaped in Hs'.
  rewrite Hp in Hs'.
  assert (Hex : (mark_reaped p exit).2 = true -> (mark_reaped p exit).1 = with_reaped p exit).
  { unfold mark_reaped. by repeat case_match. }
  assert (Hf : (mark_reaped p exit).2 = false -> (mark_reaped p exit).1 = p).
  { unfold mark_reaped. by repeat case_match. }
  destruct (mark_reaped p exit) as [p' []]; simpl in *.
  2:{ rewrite (Hf eq_refl), insert_id by done. by destruct s. }
  rewrite (Hex eq_refl) in *. clear Hex Hf.
  set (s1 := with_processes s (<[pid:=with_reaped p exit]> (processes s))) in *.
  assert (Hver : all_verified s1 = true <-> is_verified (exit_outcome exit) = true /\
    forall k q, k <> pid -> processes s !! k = Some q -> evidence_of q = VerifiedEvidence).
  { rewrite all_verified_spec. unfold s1; simpl. split.
    - intros H. split.
      + specialize (H pid (with_reaped p exit)). rewrite lookup_insert_eq in H.
        specialize (H eq_refl). unfold evidence_of in H; simpl in H. by case_match.
      + intros k q Hne Hk. apply (H k). by rewrite lookup_insert_ne.
    - intros [H1 H2] k q. rewrite lookup_insert_Some. intros [[<- <-]|[Hne Hk]]; [|eauto].
      unfold evidence_of; simpl. by rewrite H1. }
  assert (Hlive : all_verified s1 = true -> has_live_processes s1 = false).
  { intros Hall. destruct (has_live_processes s1) eqn:Hl; [|done].
    apply has_live_spec in Hl as (k & q & Hk & Hl). rewrite all_verified_spec in Hall.
    assert (process_wf q) as Hq.
    { revert Hk. unfold s1; simpl. rewrite lookup_insert_Some. intros [[_ <-]|[_ Hk]].
      - split; simpl; [by split; eauto|done|done].
      - exact (wf_processes s Hs k q Hk). }
    rewrite (verified_not_live q Hq) in Hl by eauto. done. }
  destruct (scope_state s) eqn:Hst; simpl; [right; naive_solver| |right; naive_solver].
  destruct (all_verified s1) eqn:Hall; simpl.
  - rewrite Hlive by done. simpl. left. destruct Hver as [Hver _]. naive_solver.
  - rewrite andb_false_r. right. split; [|naive_solver]. intros (_ & H1 & H2).
    by pose proof (proj2 Hver (conj H1 H2)).
Qed.

Lemma record_reaped_spec_witness :
  let s := (scope_run (scope_new 3%N)
    [SAttach 8%N (mkOsIdentity 10 (StartTime 5)) (spec_new "b"); SBegin; SExit 8%N]).1 in
  let e := mkProcessExit 8%N (Some 0) None GracefulSuccess false in
  scope_state (record_reaped s 8%N e).1 = Closed.
Proof.
  intros s e. pose proof (record_reaped_spec s 8%N e (scope_run_wf _ _ (scope_new_wf 3%N))) as H.
  destruct H as [(_ & _ & H)|(Hn & _ & _)]; [exact H|]. exfalso. apply Hn.
  split; [reflexivity|]. split; [reflexivity|]. intros k q Hne Hk.
  apply elem_of_bt_entries in Hk. vm_compute in Hk. by apply list_elem_of_singleton in Hk as [= -> _].
Defined.
