(* ===== verification/Restart.v ===== *)
(** * Restart: when a service restarts its process after a failure

    shepherd-domain/src/restart.rs. Failure counts are [u32] values in [Z]. *)

From stdpp Require Import base list.
From S2P Require Import Prelude StdModel.

Open Scope Z_scope.

Record RestartPolicy : Type := mkRestartPolicy {
  rp_initial : Duration;
  rp_max : Duration;
  rp_factor : Z;
  rp_healthy_after : Duration;
  rp_max_failures : option Z;
}.

Definition restart_default : RestartPolicy :=
  mkRestartPolicy (from_secs 1) (from_secs 60) 2 (from_secs 60) None.

Definition restart_new (initial max : Duration) : RestartPolicy :=
  mkRestartPolicy initial (Z.max max initial) (rp_factor restart_default)
    (rp_healthy_after restart_default) (rp_max_failures restart_default).

Definition restart_factor (p : RestartPolicy) (factor : Z) : RestartPolicy :=
  mkRestartPolicy (rp_initial p) (rp_max p) (Z.max factor 1) (rp_healthy_after p) (rp_max_failures p).

Definition restart_healthy_after (p : RestartPolicy) (d : Duration) : RestartPolicy :=
  mkRestartPolicy (rp_initial p) (rp_max p) (rp_factor p) d (rp_max_failures p).

Definition restart_max_failures (p : RestartPolicy) (m : option Z) : RestartPolicy :=
  mkRestartPolicy (rp_initial p) (rp_max p) (rp_factor p) (rp_healthy_after p) m.

Definition healthy_duration (p : RestartPolicy) : Duration := rp_healthy_after p.

(** The loop [for _ in 1..failures] with its early [break]. *)
Fixpoint delay_loop (max factor : Z) (iterations : nat) (delay : Duration) : Duration :=
  match iterations with
  | O => delay
  | S n => if decide (max <= delay) then delay
           else delay_loop max factor n (duration_saturating_mul delay factor)
  end.

Definition delay (p : RestartPolicy) (failures : Z) : Duration :=
  if decide (failures = 0) then 0
  else Z.min (delay_loop (rp_max p) (rp_factor p) (Z.to_nat (failures - 1)) (rp_initial p)) (rp_max p).

Definition gives_up (p : RestartPolicy) (failures : Z) : bool :=
  match rp_max_failures p with Some m => bool_decide (m < failures) | None => false end.

(** What the constructor and the setters establish. *)
Record restart_wf (p : RestartPolicy) : Prop := {
  rw_initial : duration_valid (rp_initial p);
  rw_max : duration_valid (rp_max p);
  rw_order : rp_initial p <= rp_max p;
  rw_factor : 1 <= rp_factor p;
}.

Lemma restart_new_wf initial max :
  duration_valid initial -> duration_valid max -> restart_wf (restart_new initial max).
Proof. unfold duration_valid. intros ??. split; simpl; unfold duration_valid; lia. Qed.

Lemma restart_factor_wf p f : restart_wf p -> restart_wf (restart_factor p f).
Proof. intros [? ? ? ?]. split; simpl; try done; lia. Qed.

Lemma restart_default_wf : restart_wf restart_default.
Proof. by split. Qed.

#[export] Hint Resolve restart_new_wf restart_factor_wf restart_default_wf : shepherd.

Lemma delay_loop_closed max factor n d :
  0 <= d -> 1 <= factor -> max <= Duration_MAX ->
  Z.min (delay_loop max factor n d) max = Z.min (d * factor ^ Z.of_nat n) max.
Proof.
  intros Hd Hf Hmax. revert d Hd. induction n as [|n IH]; intros d Hd; cbn [delay_loop].
  { f_equal. change (Z.of_nat 0) with 0. lia. }
  assert (Hp : 0 < factor ^ Z.of_nat n) by (apply Z.pow_pos_nonneg; lia).
  rewrite Nat2Z.inj_succ, Z.pow_succ_r by lia.
  case_decide as Hle.
  - assert (1 <= factor * factor ^ Z.of_nat n) by nia. nia.
  - unfold duration_saturating_mul. destruct (Z.le_gt_cases (d * factor) Duration_MAX).
    + rewrite (Z.min_l (d * factor)) by lia. rewrite IH by nia. f_equal. ring.
    + rewrite (Z.min_r (d * factor)) by lia. rewrite IH by (unfold Duration_MAX, nanos_per_sec; lia).
      assert (d * factor * 1 <= d * factor * factor ^ Z.of_nat n) by (apply Z.mul_le_mono_nonneg_l; nia).
      assert (Duration_MAX * 1 <= Duration_MAX * factor ^ Z.of_nat n)
        by (apply Z.mul_le_mono_nonneg_l; [unfold Duration_MAX, nanos_per_sec|]; lia).
      rewrite !Z.min_r; lia.
Qed.

(** C39. The restart delay is [min(max, initial * factor^(failures-1))]: the loop's early
    break and its saturating multiplication change nothing, the first start never waits,
    the delay never decreases with another failure and never leaves [[initial, max]]. *)
Theorem delay_closed_form p failures :
  restart_wf p -> 0 <= failures <= u32_max ->
  delay p failures =
    (if decide (failures = 0) then 0
     else Z.min (rp_initial p * rp_factor p ^ (failures - 1)) (rp_max p)) /\
  delay p failures <= delay p (failures + 1) <= rp_max p /\
  rp_initial p <= delay p (failures + 1).
Proof.
  intros [[Hi0 Hi1] [Hm0 Hm1] Ho Hf] [Hn0 Hn1].
  assert (Hcl : forall n, 0 < n -> delay p n = Z.min (rp_initial p * rp_factor p ^ (n - 1)) (rp_max p)).
  { intros n Hn. unfold delay. rewrite decide_False by lia.
    rewrite delay_loop_closed by lia. by rewrite Z2Nat.id by lia. }
  split; [|].
  - case_decide as Hz; [by subst|]. apply Hcl. lia.
  - rewrite (Hcl (failures + 1)) by lia. replace (failures + 1 - 1) with failures by lia.
    assert (Hp : 1 <= rp_factor p ^ failures) by (apply Z.pow_le_mono_r with (b := 0); lia).
    split; [|nia]. split; [|lia].
    destruct (decide (failures = 0)) as [->|Hz]; [unfold delay; simpl; nia|].
    rewrite Hcl by lia.
    assert (rp_factor p ^ (failures - 1) <= rp_factor p ^ failures) by (apply Z.pow_le_mono_r; lia).
    nia.
Qed.

Lemma delay_closed_form_witness :
  let p := restart_factor (restart_new (from_secs 1) (from_secs 10)) 3 in
  delay p 3 = from_secs 9 /\ delay p 4 = from_secs 10.
Proof.
  intros p. destruct (delay_closed_form p 3) as (-> & _ & _); [split; simpl; by vm_compute|by vm_compute|].
  destruct (delay_closed_form p 4) as (-> & _ & _); [split; simpl; by vm_compute|by vm_compute|].
  by vm_compute.
Defined.
