(* ===== verification/KeptDomain.v ===== *)
(** * KeptDomain: names, fingerprints and records of kept processes

    shepherd-domain/src/kept.rs. Text is a byte string; [OsStr::to_string_lossy]
    is the standard library's UTF-8 recoder on Unix byte strings. *)

From stdpp Require Import base list strings.
From S2P Require Import Prelude StdModel Values.

Open Scope Z_scope.

(** ** Text as bytes *)

Definition bytes_of (s : string) : list Z :=
  map (fun c => Z.of_N (Ascii.N_of_ascii c)) (String.list_ascii_of_string s).

Definition is_byte (b : Z) : Prop := 0 <= b < 256.

(** [u64::to_le_bytes]. *)
Fixpoint le_bytes (n : nat) (v : Z) : list Z :=
  match n with
  | O => []
  | S n => v mod 256 :: le_bytes n (v / 256)
  end.
Definition to_le_bytes (v : Z) : list Z := le_bytes 8 v.

(** *** UTF-8 with replacement ([String::from_utf8_lossy])

    [utf8_tail b rest] is how many bytes after the lead byte [b] the decoder
    consumes, and whether they complete a character. *)

Definition in_range (lo hi b : Z) : bool := (lo <=? b) && (b <=? hi).
Definition is_cont (b : Z) : bool := in_range 128 191 b.

Definition utf8_second_ok (b c : Z) : bool :=
  if in_range 194 223 b then is_cont c
  else if b =? 224 then in_range 160 191 c
  else if in_range 225 236 b then is_cont c
  else if b =? 237 then in_range 128 159 c
  else if in_range 238 239 b then is_cont c
  else if b =? 240 then in_range 144 191 c
  else if in_range 241 243 b then is_cont c
  else if b =? 244 then in_range 128 143 c
  else false.

(** Continuation bytes a lead byte asks for. *)
Definition utf8_width (b : Z) : nat :=
  if in_range 194 223 b then 1 else if in_range 224 239 b then 2
  else if in_range 240 244 b then 3 else 0.

Fixpoint take_conts (n : nat) (rest : list Z) : nat * bool :=
  match n with
  | O => (O, true)
  | S n =>
      match rest with
      | c :: rest => if is_cont c then let '(k, ok) := take_conts n rest in (S k, ok) else (O, false)
      | [] => (O, false)
      end
  end.

Definition utf8_tail (b : Z) (rest : list Z) : nat * bool :=
  match utf8_width b, rest with
  | S n, c :: rest =>
      if utf8_second_ok b c then let '(k, ok) := take_conts n rest in (S k, ok) else (O, false)
  | _, _ => (O, false)
  end.

Definition replacement : list Z := [239; 191; 189].

Fixpoint lossy_fuel (fuel : nat) (l : list Z) : list Z :=
  match fuel with
  | O => []
  | S fuel =>
      match l with
      | [] => []
      | b :: rest =>
          if b <? 128 then b :: lossy_fuel fuel rest
          else let '(n, ok) := utf8_tail b rest in
               (if ok then b :: take n rest else replacement) ++ lossy_fuel fuel (drop n rest)
      end
  end.

(** [to_string_lossy]: every step consumes a byte, so the length is enough fuel. *)
Definition to_string_lossy (l : list Z) : list Z := lossy_fuel (length l) l.

Definition lossy (s : string) : list Z := to_string_lossy (bytes_of s).

Example lossy_ascii : lossy "abc" = [97; 98; 99].
Proof. reflexivity. Qed.
Example lossy_valid : to_string_lossy [226; 130; 172; 65] = [226; 130; 172; 65].
Proof. reflexivity. Qed.
Example lossy_truncated : to_string_lossy [226; 130; 65; 255] = [239; 191; 189; 65; 239; 191; 189].
Proof. reflexivity. Qed.

(** ** Names *)

Definition KeptName_MAX_LEN : nat := 64.

Record KeptName : Type := mkKeptName { kept_name : string }.
Record KeptNameError : Type := mkKeptNameError { rejected_name : string }.

#[global] Instance kept_name_eq_dec : EqDecision KeptName.
Proof. solve_decision. Defined.

Definition is_ascii_alphanumeric (b : Z) : bool :=
  in_range 48 57 b || in_range 65 90 b || in_range 97 122 b.

(** The closure [allowed]: alphanumeric, [.], [_] or [-]. *)
Definition name_allowed (b : Z) : bool :=
  is_ascii_alphanumeric b || (b =? 46) || (b =? 95) || (b =? 45).

(** The name is UTF-8 text: a character outside ASCII is made of bytes that are not
    allowed, so testing every byte is testing every character. *)
Definition kept_name_new (name : string) : result KeptName KeptNameError :=
  if bool_decide (bytes_of name = [])
     || (KeptName_MAX_LEN <? length (bytes_of name))%nat
     || match bytes_of name with b :: _ => b =? 46 | [] => false end
     || negb (forallb name_allowed (bytes_of name))
  then Err (mkKeptNameError name)
  else Ok (mkKeptName name).

(** ** FNV-1a *)

Definition fnv_new : Z := 0xcbf29ce484222325.
Definition fnv_prime : Z := 0x100000001b3.

Definition fnv_step (h byte : Z) : Z := u64_wrapping_mul (Z.lxor h byte) fnv_prime.

Definition fnv_bytes (h : Z) (bytes : list Z) : Z := fold_left fnv_step bytes h.
Definition fnv_number (h value : Z) : Z := fnv_bytes h (to_le_bytes value).
Definition fnv_text (h : Z) (text : list Z) : Z :=
  fnv_bytes (fnv_number h (Z.of_nat (length text))) text.

(** ** Fingerprints *)

Record SpecFingerprint : Type := from_raw { fp_get : Z }.

#[global] Instance fingerprint_eq_dec : EqDecision SpecFingerprint.
Proof. solve_decision. Defined.

(** [u64::from(raw.unsigned_abs()) | (u64::from(raw < 0) << 32)]. *)
Definition custom_signal_code (raw : Z) : Z :=
  Z.lor (Z.abs raw) (Z.shiftl (if raw <? 0 then 1 else 0) 32).

Definition fnv_arg (h : Z) (arg : OsString) : Z := fnv_text h (lossy arg).

Definition fnv_override (h : Z) (entry : OsString * option OsString) : Z :=
  let h := fnv_text h (lossy entry.1) in
  match entry.2 with
  | Some value => fnv_text (fnv_number h 1) (lossy value)
  | None => fnv_number h 0
  end.

Definition fnv_clear (h : Z) (entry : OsString * OsString) : Z :=
  fnv_text (fnv_text h (lossy entry.1)) (lossy entry.2).

Definition fingerprint_of (spec : ProcessSpec) (revision : option string) : SpecFingerprint :=
  let h := fnv_text fnv_new (lossy (spec_program spec)) in
  let h := fnv_number h (Z.of_nat (length (spec_args spec))) in
  let h := fold_left fnv_arg (spec_args spec) h in
  let h := match spec_env spec with
           | Inherit => fnv_number h 0
           | Overrides entries =>
               fold_left fnv_override entries
                 (fnv_number (fnv_number h 1) (Z.of_nat (length entries)))
           | Clear entries =>
               fold_left fnv_clear entries
                 (fnv_number (fnv_number h 2) (Z.of_nat (length entries)))
           end in
  let h := match spec_cwd spec with
           | Some cwd => fnv_text (fnv_number h 1) (lossy cwd)
           | None => fnv_number h 0
           end in
  let h := match spec_graceful_signal spec with
           | Term => fnv_number h 0
           | Kill => fnv_number h 1
           | Interrupt => fnv_number h 2
           | CustomSignal raw => fnv_number (fnv_number h 3) (custom_signal_code raw)
           end in
  let h := match revision with
           | Some revision => fnv_text (fnv_number h 1) (bytes_of revision)
           | None => fnv_number h 0
           end in
  from_raw h.

(** ** Records and observations *)

Record KeptObservation : Type := mkKeptObservation {
  obs_start_token : Z;
  obs_boot_id : option string;
}.

Record KeptRecord : Type := mkKeptRecord {
  rec_name : KeptName;
  rec_os_pid : Z;
  rec_start_token : Z;
  rec_boot_id : option string;
  rec_exe : option PathBuf;
  rec_program : string;
  rec_args : list string;
  rec_fingerprint : SpecFingerprint;
  rec_revision : option string;
  rec_graceful_signal : Signal;
  rec_log : option PathBuf;
  rec_owner : string;
  rec_started_at_unix_ms : Z;
}.

#[global] Instance kept_observation_eq_dec : EqDecision KeptObservation.
Proof. solve_decision. Defined.
#[global] Instance kept_record_eq_dec : EqDecision KeptRecord.
Proof. solve_decision. Defined.

Definition is_same_instance (r : KeptRecord) (observed : KeptObservation) : bool :=
  let same_boot :=
    match rec_boot_id r, obs_boot_id observed with
    | Some recorded, Some now => bool_decide (recorded = now)
    | _, _ => true
    end in
  (obs_start_token observed =? rec_start_token r) && same_boot.

(** ** The digest as FNV-1a of one encoding *)

Definition enc_number (v : Z) : list Z := to_le_bytes v.
Definition enc_text (t : list Z) : list Z := enc_number (Z.of_nat (length t)) ++ t.
Definition enc_override (e : list Z * option (list Z)) : list Z :=
  enc_text e.1 ++ match e.2 with Some v => enc_number 1 ++ enc_text v | None => enc_number 0 end.
Definition enc_clear (e : list Z * list Z) : list Z := enc_text e.1 ++ enc_text e.2.
Definition enc_list {A} (enc : A -> list Z) (l : list A) : list Z :=
  enc_number (Z.of_nat (length l)) ++ concat (map enc l).

(** What of a spec the fingerprint sees: its text, recoded, and no output mode. *)
Inductive env_view : Type :=
| VInherit
| VOverrides (l : list (list Z * option (list Z)))
| VClear (l : list (list Z * list Z)).

Record spec_view : Type := mkSpecView {
  v_program : list Z;
  v_args : list (list Z);
  v_env : env_view;
  v_cwd : option (list Z);
  v_signal : Signal;
  v_revision : option (list Z);
}.

Definition view_env (e : EnvPolicy) : env_view :=
  match e with
  | Inherit => VInherit
  | Overrides l => VOverrides (map (fun x => (lossy x.1, lossy <$> x.2)) l)
  | Clear l => VClear (map (fun x => (lossy x.1, lossy x.2)) l)
  end.

Definition view_of (s : ProcessSpec) (revision : option string) : spec_view :=
  mkSpecView (lossy (spec_program s)) (map lossy (spec_args s)) (view_env (spec_env s))
    (lossy <$> spec_cwd s) (spec_graceful_signal s) (bytes_of <$> revision).

Definition enc_env (e : env_view) : list Z :=
  match e with
  | VInherit => enc_number 0
  | VOverrides l => enc_number 1 ++ enc_list enc_override l
  | VClear l => enc_number 2 ++ enc_list enc_clear l
  end.
Definition enc_option (o : option (list Z)) : list Z :=
  match o with Some t => enc_number 1 ++ enc_text t | None => enc_number 0 end.
Definition enc_signal (s : Signal) : list Z :=
  match s with
  | Term => enc_number 0
  | Kill => enc_number 1
  | Interrupt => enc_number 2
  | CustomSignal raw => enc_number 3 ++ enc_number (custom_signal_code raw)
  end.

Definition encode (v : spec_view) : list Z :=
  enc_text (v_program v) ++ enc_list enc_text (v_args v) ++ enc_env (v_env v) ++
  enc_option (v_cwd v) ++ enc_signal (v_signal v) ++ enc_option (v_revision v).

#[local] Opaque fnv_step fnv_new lossy to_le_bytes.

Lemma fnv_bytes_app h l1 l2 : fnv_bytes h (l1 ++ l2) = fnv_bytes (fnv_bytes h l1) l2.
Proof. apply fold_left_app. Qed.

Lemma fnv_bytes_cons h b l : fnv_bytes h (b :: l) = fnv_bytes (fnv_step h b) l.
Proof. reflexivity. Qed.

Lemma fnv_text_enc h t : fnv_text h t = fnv_bytes h (enc_text t).
Proof. unfold enc_text. by rewrite fnv_bytes_app. Qed.

Lemma fold_enc {A B} (f : Z -> A -> Z) (enc : B -> list Z) (view : A -> B) l h :
  (forall h x, f h x = fnv_bytes h (enc (view x))) ->
  fold_left f l h = fnv_bytes h (concat (map enc (map view l))).
Proof.
  intros Hf. revert h. induction l as [|x l IH]; intros h; simpl; [done|].
  by rewrite IH, Hf, fnv_bytes_app.
Qed.

Lemma fnv_env_enc h e :
  match e with
  | Inherit => fnv_number h 0
  | Overrides entries =>
      fold_left fnv_override entries (fnv_number (fnv_number h 1) (Z.of_nat (length entries)))
  | Clear entries =>
      fold_left fnv_clear entries (fnv_number (fnv_number h 2) (Z.of_nat (length entries)))
  end = fnv_bytes h (enc_env (view_env e)).
Proof.
  destruct e as [|l|l]; [done|..]; cbn [view_env enc_env]; unfold enc_list;
    rewrite !fnv_bytes_app, length_map; apply fold_enc; intros h' [k v].
  - unfold fnv_override, enc_override. cbn [fst snd]. rewrite fnv_bytes_app, fnv_text_enc.
    destruct v; [|done]. by cbn [fmap option_fmap option_map]; rewrite fnv_bytes_app, fnv_text_enc.
  - unfold fnv_clear, enc_clear. cbn [fst snd]. by rewrite fnv_bytes_app, !fnv_text_enc.
Qed.

Lemma fnv_option_enc h (o : option (list Z)) :
  match o with Some t => fnv_text (fnv_number h 1) t | None => fnv_number h 0 end =
  fnv_bytes h (enc_option o).
Proof. destruct o; [|done]. cbn [enc_option]. by rewrite fnv_bytes_app, fnv_text_enc. Qed.

Lemma fnv_signal_enc h g :
  match g with
  | Term => fnv_number h 0
  | Kill => fnv_number h 1
  | Interrupt => fnv_number h 2
  | CustomSignal raw => fnv_number (fnv_number h 3) (custom_signal_code raw)
  end = fnv_bytes h (enc_signal g).
Proof. destruct g; [reflexivity..|]. cbn [enc_signal]. rewrite fnv_bytes_app. reflexivity. Qed.

Lemma fingerprint_of_encode s revision :
  fingerprint_of s revision = from_raw (fnv_bytes fnv_new (encode (view_of s revision))).
Proof.
  unfold fingerprint_of. f_equal. rewrite fnv_env_enc, fnv_signal_enc.
  rewrite (fold_enc fnv_arg enc_text lossy) by (intros; apply fnv_text_enc).
  rewrite fnv_text_enc. unfold encode, view_of. cbn [v_program v_args v_env v_cwd v_signal v_revision].
  rewrite !fnv_bytes_app, <- !fnv_option_enc. unfold enc_list. rewrite !fnv_bytes_app, length_map.
  destruct (spec_cwd s), revision; reflexivity.
Qed.

(** ** The encoding is injective *)

Lemma le_bytes_length n v : length (le_bytes n v) = n.
Proof. revert v. induction n; intros v; simpl; auto. Qed.

Lemma le_bytes_inj n v w r1 r2 :
  0 <= v < 256 ^ Z.of_nat n -> 0 <= w < 256 ^ Z.of_nat n ->
  le_bytes n v ++ r1 = le_bytes n w ++ r2 -> v = w /\ r1 = r2.
Proof.
  revert v w. induction n as [|n IH]; intros v w Hv Hw.
  - change (256 ^ Z.of_nat 0) with 1 in *. simpl. split; [lia|done].
  - rewrite Nat2Z.inj_succ, Z.pow_succ_r in Hv, Hw by lia. simpl. intros [= Hm Hr].
    destruct (IH (v / 256) (w / 256)) as [Hd ->]; [..|done|].
    + split; [apply Z.div_pos; lia|apply Z.div_lt_upper_bound; lia].
    + split; [apply Z.div_pos; lia|apply Z.div_lt_upper_bound; lia].
    + split; [|done]. rewrite (Z.div_mod v 256), (Z.div_mod w 256) by lia. lia.
Qed.

(** An encoding that can be read back from the front of any byte sequence. *)
Definition prefix_inj {A} (P : A -> Prop) (enc : A -> list Z) : Prop :=
  forall a b r1 r2, P a -> P b -> enc a ++ r1 = enc b ++ r2 -> a = b /\ r1 = r2.

Definition is_u64 (v : Z) : Prop := 0 <= v <= u64_max.
Definition short {A} (l : list A) : Prop := is_u64 (Z.of_nat (length l)).

Lemma enc_number_prefix : prefix_inj is_u64 enc_number.
Proof.
  intros v w r1 r2 Hv Hw. unfold is_u64, u64_max in *.
  apply (le_bytes_inj 8); change (256 ^ Z.of_nat 8) with (2 ^ 64); lia.
Qed.

Lemma enc_text_prefix : prefix_inj short enc_text.
Proof.
  intros a b r1 r2 Ha Hb. unfold enc_text. rewrite <- !app_assoc.
  intros [Hl Hr]%enc_number_prefix; [|done..]. apply Nat2Z.inj in Hl.
  by apply app_inj_1 in Hr.
Qed.

Lemma concat_prefix {A} (P : A -> Prop) enc (l1 l2 : list A) r1 r2 :
  prefix_inj P enc -> Forall P l1 -> Forall P l2 -> length l1 = length l2 ->
  concat (map enc l1) ++ r1 = concat (map enc l2) ++ r2 -> l1 = l2 /\ r1 = r2.
Proof.
  intros Hp H1. revert l2. induction H1 as [|a l1 Ha _ IH]; intros [|b l2] H2 Hl; simpl; try done.
  apply Forall_cons in H2 as [Hb H2]. rewrite <- !app_assoc.
  intros [-> Hr]%Hp; [|done..]. injection Hl as Hl. by destruct (IH l2 H2 Hl Hr) as [-> ->].
Qed.

Lemma enc_list_prefix {A} (P : A -> Prop) enc :
  prefix_inj P enc -> prefix_inj (fun l => Forall P l /\ short l) (enc_list enc).
Proof.
  intros Hp l1 l2 r1 r2 [H1 Hs1] [H2 Hs2]. unfold enc_list. rewrite <- !app_assoc.
  intros [Hl Hr]%enc_number_prefix; [|done..]. apply Nat2Z.inj in Hl.
  by eapply concat_prefix.
Qed.

Definition option_short (o : option (list Z)) : Prop := match o with Some t => short t | None => True end.

Lemma u64_small v : 0 <= v < 4 -> is_u64 v.
Proof. unfold is_u64, u64_max. lia. Qed.

#[local] Opaque enc_number.

Ltac tag_prefix H :=
  rewrite <- ?app_assoc in H; apply enc_number_prefix in H as [? H]; try (apply u64_small; lia); try done.

Lemma enc_option_prefix : prefix_inj option_short enc_option.
Proof.
  intros [a|] [b|] r1 r2 Ha Hb H; simpl in *; tag_prefix H.
  by apply enc_text_prefix in H as [-> ->].
Qed.

Lemma enc_override_prefix :
  prefix_inj (fun e => short e.1 /\ option_short e.2) enc_override.
Proof.
  intros [k1 v1] [k2 v2] r1 r2 [Hk1 Hv1] [Hk2 Hv2]. unfold enc_override. cbn [fst snd] in *.
  rewrite <- !app_assoc. intros [-> Hr]%enc_text_prefix; [|done..].
  change (enc_option v1 ++ r1 = enc_option v2 ++ r2) in Hr.
  by apply enc_option_prefix in Hr as [-> ->].
Qed.

Lemma enc_clear_prefix : prefix_inj (fun e => short e.1 /\ short e.2) enc_clear.
Proof.
  intros [k1 v1] [k2 v2] r1 r2 [Hk1 Hv1] [Hk2 Hv2]. unfold enc_clear. cbn [fst snd] in *.
  rewrite <- !app_assoc. intros [-> Hr]%enc_text_prefix; [|done..].
  by apply enc_text_prefix in Hr as [-> ->].
Qed.

Definition env_short (e : env_view) : Prop :=
  match e with
  | VInherit => True
  | VOverrides l => Forall (fun x => short x.1 /\ option_short x.2) l /\ short l
  | VClear l => Forall (fun x => short x.1 /\ short x.2) l /\ short l
  end.

Lemma enc_env_prefix : prefix_inj env_short enc_env.
Proof.
  intros e1 e2 r1 r2 H1 H2 H. destruct e1 as [|l1|l1], e2 as [|l2|l2]; cbn [enc_env] in H; tag_prefix H.
  - by apply (enc_list_prefix _ _ enc_override_prefix) in H as [-> ->].
  - by apply (enc_list_prefix _ _ enc_clear_prefix) in H as [-> ->].
Qed.

Definition is_i32 (v : Z) : Prop := - 2 ^ 31 <= v < 2 ^ 31.
Definition signal_i32 (g : Signal) : Prop := match g with CustomSignal raw => is_i32 raw | _ => True end.

Lemma custom_signal_code_eq raw :
  is_i32 raw -> custom_signal_code raw = Z.abs raw + (if raw <? 0 then 2 ^ 32 else 0).
Proof.
  unfold custom_signal_code, is_i32. intros H.
  destruct (raw <? 0); [|by rewrite Z.shiftl_0_l, Z.lor_0_r, Z.add_0_r].
  change (Z.shiftl 1 32) with (2 ^ 32). symmetry. apply Z.add_nocarry_lor.
  apply Z.bits_inj_0. intros n. rewrite Z.land_spec.
  destruct (decide (n = 32)) as [->|Hn]; [|by rewrite (Z.pow2_bits_false 32), andb_false_r by lia].
  rewrite Z.bits_above_log2; [done|lia|]. 
  destruct (decide (raw = 0)) as [->|]; [simpl; lia|]. apply Z.log2_lt_pow2; lia.
Qed.

Lemma custom_signal_code_inj a b :
  is_i32 a -> is_i32 b -> custom_signal_code a = custom_signal_code b -> a = b.
Proof.
  intros Ha Hb. rewrite !custom_signal_code_eq by done. unfold is_i32 in *.
  destruct (Z.ltb_spec a 0), (Z.ltb_spec b 0); lia.
Qed.

Lemma custom_signal_code_u64 a : is_i32 a -> is_u64 (custom_signal_code a).
Proof.
  intros Ha. rewrite custom_signal_code_eq by done. unfold is_i32, is_u64, u64_max in *.
  destruct (Z.ltb_spec a 0); lia.
Qed.

Lemma enc_signal_prefix : prefix_inj signal_i32 enc_signal.
Proof.
  intros [| | |a] [| | |b] r1 r2 Ha Hb H; simpl in *; tag_prefix H.
  apply enc_number_prefix in H as [Hc ->]; [|by apply custom_signal_code_u64..].
  by apply custom_signal_code_inj in Hc as ->.
Qed.

(** The sizes a spec has in memory. *)
Record view_short (v : spec_view) : Prop := {
  vs_program : short (v_program v);
  vs_args : Forall short (v_args v) /\ short (v_args v);
  vs_env : env_short (v_env v);
  vs_cwd : option_short (v_cwd v);
  vs_signal : signal_i32 (v_signal v);
  vs_revision : option_short (v_revision v);
}.

Lemma encode_inj v1 v2 : view_short v1 -> view_short v2 -> encode v1 = encode v2 -> v1 = v2.
Proof.
  intros [P1 A1 E1 C1 S1 R1] [P2 A2 E2 C2 S2 R2] H. unfold encode in H.
  apply enc_text_prefix in H as [Hp H]; [|done..].
  apply (enc_list_prefix _ _ enc_text_prefix) in H as [Ha H]; [|done..].
  apply enc_env_prefix in H as [He H]; [|done..].
  apply enc_option_prefix in H as [Hc H]; [|done..].
  apply enc_signal_prefix in H as [Hs H]; [|done..].
  rewrite <- (app_nil_r (enc_option (v_revision v1))), <- (app_nil_r (enc_option (v_revision v2))) in H.
  apply enc_option_prefix in H as [Hr _]; [|done..].
  destruct v1, v2; simpl in *; congruence.
Qed.

(** ** FNV steps are bijections *)

Definition fnv_prime_inv : Z := 14886173955864302971.

#[local] Transparent fnv_step.

Lemma lxor_range a b n : 0 <= n -> 0 <= a < 2 ^ n -> 0 <= b < 2 ^ n -> 0 <= Z.lxor a b < 2 ^ n.
Proof.
  intros Hn Ha Hb. assert (0 <= Z.lxor a b) by (apply Z.lxor_nonneg; lia). split; [done|].
  rewrite <- (Z.mod_small a (2 ^ n)), <- (Z.mod_small b (2 ^ n)) by lia.
  rewrite <- !Z.land_ones by lia.
  assert (Z.lxor (Z.land a (Z.ones n)) (Z.land b (Z.ones n)) = Z.land (Z.lxor a b) (Z.ones n)) as ->.
  { apply Z.bits_inj'. intros k Hk. rewrite Z.lxor_spec, !Z.land_spec, Z.lxor_spec.
    by destruct (Z.testbit a k), (Z.testbit b k), (Z.testbit (Z.ones n) k). }
  rewrite Z.land_ones by lia. apply Z.mod_pos_bound. lia.
Qed.

Lemma fnv_mul_inj x y :
  is_u64 x -> is_u64 y -> u64_wrapping_mul x fnv_prime = u64_wrapping_mul y fnv_prime -> x = y.
Proof.
  unfold is_u64, u64_max, u64_wrapping_mul. intros Hx Hy H.
  assert (Hinv : forall z, 0 <= z < 2 ^ 64 -> ((z * fnv_prime) mod 2 ^ 64 * fnv_prime_inv) mod 2 ^ 64 = z).
  { intros z Hz. rewrite Z.mul_mod_idemp_l by lia. rewrite <- Z.mul_assoc.
    rewrite <- Z.mul_mod_idemp_r by lia.
    replace ((fnv_prime * fnv_prime_inv) mod 2 ^ 64) with 1 by (vm_compute; reflexivity).
    rewrite Z.mul_1_r. apply Z.mod_small. lia. }
  rewrite <- (Hinv x), <- (Hinv y) by lia. by rewrite H.
Qed.

Lemma fnv_step_u64 h b : is_u64 (fnv_step h b).
Proof.
  unfold fnv_step, u64_wrapping_mul, is_u64, u64_max.
  pose proof (Z.mod_pos_bound (Z.lxor h b * fnv_prime) (2 ^ 64)). lia.
Qed.

Lemma lxor_u64 h b : is_u64 h -> is_byte b -> is_u64 (Z.lxor h b).
Proof.
  unfold is_u64, u64_max, is_byte. intros Hh Hb.
  pose proof (lxor_range h b 64). lia.
Qed.

Lemma fnv_step_inj_hash h1 h2 b :
  is_u64 h1 -> is_u64 h2 -> is_byte b -> fnv_step h1 b = fnv_step h2 b -> h1 = h2.
Proof.
  intros H1 H2 Hb H. apply fnv_mul_inj in H; [|by apply lxor_u64..].
  apply (f_equal (fun x => Z.lxor x b)) in H. by rewrite !Z.lxor_assoc, Z.lxor_nilpotent, !Z.lxor_0_r in H.
Qed.

Lemma fnv_step_inj_byte h b1 b2 :
  is_u64 h -> is_byte b1 -> is_byte b2 -> fnv_step h b1 = fnv_step h b2 -> b1 = b2.
Proof.
  intros Hh H1 H2 H. apply fnv_mul_inj in H; [|by apply lxor_u64..].
  apply (f_equal (Z.lxor h)) in H. by rewrite <- !Z.lxor_assoc, Z.lxor_nilpotent, !Z.lxor_0_l in H.
Qed.

#[local] Opaque fnv_step.

Lemma fnv_bytes_u64 h l : is_u64 h -> is_u64 (fnv_bytes h l).
Proof.
  revert h. induction l as [|b l IH]; intros h Hh; simpl; [done|]. apply IH, fnv_step_u64.
Qed.

Lemma fnv_bytes_inj_hash h1 h2 l :
  is_u64 h1 -> is_u64 h2 -> Forall is_byte l -> fnv_bytes h1 l = fnv_bytes h2 l -> h1 = h2.
Proof.
  intros H1 H2 Hl. revert h1 h2 H1 H2. induction Hl as [|b l Hb _ IH]; intros h1 h2 H1 H2; simpl; [done|].
  intros H%IH; [|apply fnv_step_u64..]. by eapply fnv_step_inj_hash.
Qed.

Lemma fnv_new_u64 : is_u64 fnv_new.
Proof. by vm_compute. Qed.

(** ** Every byte of an encoding is a byte *)

#[local] Transparent to_le_bytes lossy enc_number.

Lemma le_bytes_are_bytes n v : Forall is_byte (le_bytes n v).
Proof.
  revert v. induction n as [|n IH]; intros v; simpl; constructor; [|done].
  unfold is_byte. apply Z.mod_pos_bound. lia.
Qed.

Lemma bytes_of_are_bytes s : Forall is_byte (bytes_of s).
Proof.
  unfold bytes_of. apply Forall_map, Forall_forall. intros c _. unfold is_byte. simpl.
  pose proof (Ascii.N_ascii_bounded c). lia.
Qed.

Lemma lossy_fuel_bytes fuel l : Forall is_byte l -> Forall is_byte (lossy_fuel fuel l).
Proof.
  revert l. induction fuel as [|fuel IH]; intros l Hl; simpl; [constructor|].
  destruct Hl as [|b rest Hb Hr]; [constructor|].
  destruct (b <? 128); [by constructor; auto|]. destruct (utf8_tail b rest) as [n ok].
  apply Forall_app. split; [|by apply IH, Forall_drop].
  destruct ok; [by constructor; [|apply Forall_take]|].
  unfold replacement, is_byte. repeat constructor; lia.
Qed.

Lemma lossy_bytes s : Forall is_byte (lossy s).
Proof. apply lossy_fuel_bytes, bytes_of_are_bytes. Qed.

Lemma enc_number_bytes v : Forall is_byte (enc_number v).
Proof. apply le_bytes_are_bytes. Qed.

Lemma enc_text_bytes t : Forall is_byte t -> Forall is_byte (enc_text t).
Proof. intros. apply Forall_app. split; [apply enc_number_bytes|done]. Qed.

Lemma enc_list_bytes {A} (enc : A -> list Z) l :
  (forall x, x ∈ l -> Forall is_byte (enc x)) -> Forall is_byte (enc_list enc l).
Proof.
  intros H. apply Forall_app. split; [apply enc_number_bytes|].
  apply Forall_concat, Forall_map, Forall_forall. done.
Qed.

#[local] Hint Resolve enc_number_bytes enc_text_bytes lossy_bytes bytes_of_are_bytes Forall_app_2 : bytes.

Lemma encode_bytes s revision : Forall is_byte (encode (view_of s revision)).
Proof.
  unfold encode, view_of; cbn [v_program v_args v_env v_cwd v_signal v_revision].
  apply Forall_app_2; [auto with bytes|]. apply Forall_app_2; [|apply Forall_app_2];
    [| |apply Forall_app_2; [|apply Forall_app_2]].
  - apply enc_list_bytes. intros x (y & -> & _)%list_elem_of_fmap. auto with bytes.
  - destruct (spec_env s) as [|l|l]; cbn [view_env enc_env]; auto with bytes;
      apply Forall_app_2; auto with bytes; apply enc_list_bytes;
      intros x ([k v] & -> & _)%list_elem_of_fmap; cbn [fst snd].
    + unfold enc_override. apply Forall_app_2; cbn [fst snd]; auto with bytes.
      destruct v; cbn [fmap option_fmap option_map]; auto with bytes.
    + unfold enc_clear. apply Forall_app_2; cbn [fst snd]; auto with bytes.
  - destruct (spec_cwd s); cbn [fmap option_fmap option_map enc_option]; auto with bytes.
  - destruct (spec_graceful_signal s); cbn [enc_signal]; auto with bytes.
  - destruct revision; cbn [fmap option_fmap option_map enc_option]; auto with bytes.
Qed.

#[local] Opaque to_le_bytes lossy enc_number.

(** ** Properties *)

(** The fingerprint is FNV-1a of a length-prefixed encoding of the spec, and that
    encoding is injective: two specs are digested from the same bytes only if program,
    arguments, environment policy, working directory, graceful signal and revision agree
    (text up to UTF-8 recoding; the output mode is not part of it). *)
Theorem fingerprint_encoding_injective s1 r1 s2 r2 :
  view_short (view_of s1 r1) -> view_short (view_of s2 r2) ->
  fingerprint_of s1 r1 = from_raw (fnv_bytes fnv_new (encode (view_of s1 r1))) /\
  (encode (view_of s1 r1) = encode (view_of s2 r2) <-> view_of s1 r1 = view_of s2 r2).
Proof.
  intros H1 H2. split; [apply fingerprint_of_encode|].
  split; [by apply encode_inj|by intros ->].
Qed.

(** A change of a single byte of the encoding always changes the fingerprint: every FNV
    step is a bijection of the 64-bit state, so no collision exists at distance one. *)
Theorem fingerprint_single_byte s1 r1 s2 r2 pre b1 b2 post :
  encode (view_of s1 r1) = pre ++ b1 :: post ->
  encode (view_of s2 r2) = pre ++ b2 :: post ->
  b1 <> b2 -> fingerprint_of s1 r1 <> fingerprint_of s2 r2.
Proof.
  intros E1 E2 Hne Hf. apply Hne. clear Hne. rewrite !fingerprint_of_encode in Hf. injection Hf as Hf.
  pose proof (encode_bytes s1 r1) as B1. pose proof (encode_bytes s2 r2) as B2.
  rewrite E1 in Hf, B1. rewrite E2 in Hf, B2.
  apply Forall_app in B1 as [_ B1]. apply Forall_app in B2 as [_ B2].
  apply Forall_cons in B1 as [B1 Bp]. apply Forall_cons in B2 as [B2 _].
  rewrite !fnv_bytes_app, !fnv_bytes_cons in Hf.
  apply fnv_bytes_inj_hash in Hf; [|apply fnv_step_u64..|done].
  eapply fnv_step_inj_byte; [| | |exact Hf]; try done.
  apply fnv_bytes_u64, fnv_new_u64.
Qed.

Definition arg_spec (a : string) : ProcessSpec := spec_add_arg (spec_new "sleep") a.

Lemma fingerprint_encoding_injective_witness :
  encode (view_of (arg_spec "10") None) = encode (view_of (arg_spec "20") None) <->
  view_of (arg_spec "10") None = view_of (arg_spec "20") None.
Proof.
  apply (fingerprint_encoding_injective (arg_spec "10") None (arg_spec "20") None);
    (split; [by vm_compute|split; [repeat constructor|]; by vm_compute|done..]).
Defined.

Lemma fingerprint_single_byte_witness :
  fingerprint_of (arg_spec "10") None <> fingerprint_of (arg_spec "20") None.
Proof.
  apply (fingerprint_single_byte (arg_spec "10") None (arg_spec "20") None
    (take 29 (encode (view_of (arg_spec "10") None))) 49 50
    (drop 30 (encode (view_of (arg_spec "10") None)))); [vm_compute; reflexivity..|lia].
Defined.

(** An accepted name is a safe file name: 1 to 64 bytes of ASCII letters, digits, [.],
    [_] and [-] that do not start with a dot, hence no path separator, no NUL, no hidden
    file and none of [.] and [..]; every other text is rejected and returned unchanged. *)
Theorem kept_name_new_spec name :
  match kept_name_new name with
  | Ok n => kept_name n = name /\ (1 <= length (bytes_of name) <= 64)%nat /\
      head (bytes_of name) <> Some 46 /\
      (forall b, b ∈ bytes_of name -> name_allowed b = true /\ b <> 47 /\ b <> 92 /\ b <> 0 /\ b < 128)
  | Err e => rejected_name e = name /\
      (bytes_of name = [] \/ (64 < length (bytes_of name))%nat \/ head (bytes_of name) = Some 46 \/
       exists b, b ∈ bytes_of name /\ name_allowed b = false)
  end.
Proof.
  unfold kept_name_new, KeptName_MAX_LEN. case_bool_decide as Hnil; simpl; [by auto|].
  destruct (Nat.ltb_spec 64 (length (bytes_of name))) as [Hlen|Hlen]; simpl; [by auto|].
  destruct (bytes_of name) as [|b0 l] eqn:E; [done|]. rewrite <- E in *.
  replace (head (bytes_of name)) with (Some b0) by (by rewrite E).
  destruct (Z.eqb_spec b0 46) as [->|Hdot]; simpl; [by auto|].
  destruct (forallb name_allowed (bytes_of name)) eqn:Hall; cbn [negb].
  - rewrite forallb_forall in Hall. split_and!; [done|rewrite E; simpl; lia|lia|congruence|].
    intros b Hb. assert (Hal : name_allowed b = true) by (by apply Hall, list_elem_of_In).
    split; [done|]. unfold name_allowed, is_ascii_alphanumeric, in_range in Hal. lia.
  - split; [done|]. do 3 right. apply not_true_iff_false in Hall.
    rewrite forallb_forall in Hall.
    destruct (decide (Exists (fun b => name_allowed b = false) (bytes_of name))) as [Hex|Hno].
    + apply Exists_exists in Hex as (b & Hb & Hf). eauto.
    + exfalso. apply Hall. intros b Hb. destruct (name_allowed b) eqn:Hf; [done|].
      exfalso. apply Hno, Exists_exists. exists b. by rewrite list_elem_of_In.
Qed.

(** Two observations that a record accepts as its own instance carry the same start
    token, and, where all three name a boot, the same boot: a reused pid (a different start
    token) or a token from another boot is never taken for the recorded process. *)
Theorem is_same_instance_exclusive r o1 o2 :
  is_same_instance r o1 = true -> is_same_instance r o2 = true ->
  obs_start_token o1 = rec_start_token r /\
  obs_start_token o1 = obs_start_token o2 /\
  (is_Some (rec_boot_id r) -> is_Some (obs_boot_id o1) -> is_Some (obs_boot_id o2) -> o1 = o2).
Proof.
  unfold is_same_instance. rewrite !andb_true_iff, !Z.eqb_eq. intros [E1 B1] [E2 B2].
  split_and!; [done|congruence|]. intros [b Hb] [b1 H1] [b2 H2].
  rewrite Hb, H1 in B1. rewrite Hb, H2 in B2.
  apply bool_decide_eq_true in B1, B2. destruct o1, o2; simpl in *. congruence.
Qed.

Lemma is_same_instance_exclusive_witness :
  let r := mkKeptRecord (mkKeptName "db") 31 77 (Some "boot-1") None "db" [] (from_raw 0) None
             Term None "app" 0 in
  obs_start_token (mkKeptObservation 77 None) = rec_start_token r.
Proof.
  intros r. refine (proj1 (is_same_instance_exclusive r (mkKeptObservation 77 None)
    (mkKeptObservation 77 (Some "boot-1")) _ _)); reflexivity.
Defined.
