(* ===== verification/Registry.v ===== *)
(** * Registry: the repository of scope aggregates of one supervisor

    shepherd-app/src/registry.rs. The id counters are [u64]; minting past the
    last one is the arithmetic panic, modelled as [None]. *)

From stdpp Require Import base list sorting gmap strings.
From S2P Require Import Prelude StdModel Values Process Scope.

Open Scope Z_scope.

Record ScopeRegistry : Type := mkScopeRegistry {
  scopes : gmap ProcessScopeId ProcessScope;
  next_scope : N;
  next_process : N;
}.

Definition registry_new : ScopeRegistry := mkScopeRegistry ∅ 0 0.

Definition next_scope_id (r : ScopeRegistry) : option (ScopeRegistry * ProcessScopeId) :=
  id ← id_succ (next_scope r);
  Some (mkScopeRegistry (scopes r) id (next_process r), id).

Definition next_process_id (r : ScopeRegistry) : option (ScopeRegistry * ProcessId) :=
  id ← id_succ (next_process r);
  Some (mkScopeRegistry (scopes r) (next_scope r) id, id).

Definition registry_create_scope (r : ScopeRegistry) : option (ScopeRegistry * ProcessScopeId) :=
  '(r, id) ← next_scope_id r;
  Some (mkScopeRegistry (<[id := scope_new id]> (scopes r)) (next_scope r) (next_process r), id).

Definition registry_get (r : ScopeRegistry) (id : ProcessScopeId) : option ProcessScope :=
  scopes r !! id.

(** A write through [get_mut]: the borrowed scope is replaced by [s]. *)
Definition registry_set (r : ScopeRegistry) (id : ProcessScopeId) (s : ProcessScope) : ScopeRegistry :=
  mkScopeRegistry (<[id := s]> (scopes r)) (next_scope r) (next_process r).

Definition registry_remove (r : ScopeRegistry) (id : ProcessScopeId) : ScopeRegistry :=
  mkScopeRegistry (delete id (scopes r)) (next_scope r) (next_process r).

Definition scope_ids (r : ScopeRegistry) : list ProcessScopeId := bt_keys (scopes r).

(** [self.scopes.iter().find(|(_, scope)| scope.contains(pid)).map(|(id, _)| *id)]. *)
Definition scope_of (r : ScopeRegistry) (pid : ProcessId) : option ProcessScopeId :=
  head (filter (fun id => match scopes r !! id with
                          | Some s => scope_contains s pid
                          | None => false
                          end = true) (scope_ids r)).

(** ** Invariant *)

(** [owns r id pid]: scope [id] tracks [pid]. *)
Definition owns (r : ScopeRegistry) (id : ProcessScopeId) (pid : ProcessId) : Prop :=
  exists s, scopes r !! id = Some s /\ is_Some (processes s !! pid).

Record registry_wf (r : ScopeRegistry) : Prop := {
  rg_ids : forall id s, scopes r !! id = Some s -> scope_id s = id /\ (0 < id <= next_scope r)%N;
  rg_scopes : forall id s, scopes r !! id = Some s -> scope_wf s;
  rg_minted : forall id pid, owns r id pid -> (0 < pid <= next_process r)%N;
  rg_unique : forall id1 id2 pid, owns r id1 pid -> owns r id2 pid -> id1 = id2;
}.

Lemma scope_of_Some r pid id : scope_of r pid = Some id -> owns r id pid.
Proof.
  unfold scope_of. intros H.
  assert (id ∈ filter (fun id => match scopes r !! id with
    | Some s => scope_contains s pid | None => false end = true) (scope_ids r)) as Hin.
  { destruct (filter _ _); [done|]. simpl in H. simplify_eq. by left. }
  apply list_elem_of_filter in Hin as [Hs _]. destruct (scopes r !! id) as [s|] eqn:E; [|done].
  exists s. unfold scope_contains in Hs. by apply bool_decide_eq_true in Hs.
Qed.

Lemma scope_of_None r pid : scope_of r pid = None -> forall id, ~ owns r id pid.
Proof.
  unfold scope_of. intros H id (s & Hs & Hp).
  assert (id ∈ filter (fun id => match scopes r !! id with
    | Some s => scope_contains s pid | None => false end = true) (scope_ids r)) as Hin.
  { apply list_elem_of_filter. unfold scope_contains, scope_ids. rewrite Hs, elem_of_bt_keys.
    split; [by apply bool_decide_eq_true|eauto]. }
  destruct (filter _ _); [by apply not_elem_of_nil in Hin|done].
Qed.

Lemma scope_of_owns r pid id : registry_wf r -> owns r id pid -> scope_of r pid = Some id.
Proof.
  intros Hr Ho. destruct (scope_of r pid) as [id'|] eqn:E.
  - f_equal. eapply rg_unique; eauto using scope_of_Some.
  - by destruct (scope_of_None r pid E id).
Qed.

Lemma registry_new_wf : registry_wf registry_new.
Proof. split; unfold owns; simpl; naive_solver. Qed.

Lemma owns_set r id s id' pid :
  owns (registry_set r id s) id' pid <->
  (id' = id /\ is_Some (processes s !! pid)) \/ (id' <> id /\ owns r id' pid).
Proof.
  unfold owns, registry_set; simpl. destruct (decide (id' = id)) as [->|Hne].
  - rewrite lookup_insert_eq. naive_solver.
  - rewrite lookup_insert_ne by done. naive_solver.
Qed.

Lemma registry_create_scope_wf r r' id :
  registry_wf r -> registry_create_scope r = Some (r', id) ->
  registry_wf r' /\ scopes r !! id = None /\ scopes r' = <[id := scope_new id]> (scopes r) /\
  next_scope r' = id /\ id = (next_scope r + 1)%N /\ next_process r' = next_process r.
Proof.
  intros [H1 H2 H3 H4]. unfold registry_create_scope, next_scope_id.
  destruct (id_succ (next_scope r)) as [n|] eqn:En; simpl; [|done]. intros [= <- <-].
  apply id_succ_Some in En as ->.
  assert (Hnone : scopes r !! (next_scope r + 1)%N = None).
  { destruct (scopes r !! (next_scope r + 1)%N) eqn:E; [|done]. apply H1 in E. lia. }
  split_and!; simpl; try done.
  assert (Ho : forall i p, owns (registry_set r (next_scope r + 1)%N (scope_new (next_scope r + 1))) i p ->
    owns r i p).
  { intros i p. rewrite owns_set. simpl. rewrite lookup_empty.
    intros [[_ []]|[_ ?]]; done. }
  split; simpl.
  - intros i s. rewrite lookup_insert_Some. intros [[<- <-]|[_ Hi%H1]]; [simpl; split; [done|lia]|].
    destruct Hi; split; [done|lia].
  - intros i s. rewrite lookup_insert_Some. intros [[<- <-]|[_ Hi%H2]]; auto with shepherd.
  - intros i p Hp%Ho. eauto.
  - intros i1 i2 p Hp1%Ho Hp2%Ho. eauto.
Qed.

Lemma next_process_id_wf r r' pid :
  registry_wf r -> next_process_id r = Some (r', pid) ->
  registry_wf r' /\ scopes r' = scopes r /\ next_scope r' = next_scope r /\
  next_process r' = pid /\ (next_process r < pid)%N /\ (forall id, ~ owns r id pid).
Proof.
  intros [H1 H2 H3 H4]. unfold next_process_id.
  destruct (id_succ (next_process r)) as [n|] eqn:En; simpl; [|done]. intros [= <- <-].
  apply id_succ_Some in En as ->.
  assert (Hw : registry_wf (mkScopeRegistry (scopes r) (next_scope r) (next_process r + 1))).
  { split; simpl; [done|done| |done]. intros i p Hp. specialize (H3 i p Hp). lia. }
  split_and!; try done; simpl; [lia|]. intros i Hi. specialize (H3 i _ Hi). lia.
Qed.

(** A process tracked after an operation was tracked before or is the one it attached. *)
Lemma scope_apply_tracked s op pid :
  scope_wf s -> is_Some (processes (scope_apply s op).1 !! pid) ->
  is_Some (processes s !! pid) \/ exists os spec, op = SAttach pid os spec.
Proof.
  intros Hs Hp. pose proof (scope_apply_entry s op pid (wf_ids s Hs)) as He.
  inversion He as [o Ho Ho' Hl|p pop Ho Ho' Hl|os spec Hop Hst Ho Ho' Hl|p Hop Hv Ho Ho' Hl].
  - left. congruence.
  - eauto.
  - right. eauto.
  - rewrite <- Ho' in Hp. by destruct Hp.
Qed.

(** Applying an operation to one scope preserves the invariant, provided a process it
    attaches was minted and is tracked nowhere else. *)
Lemma registry_apply_wf r id s op :
  registry_wf r -> scopes r !! id = Some s ->
  (forall pid os spec, op = SAttach pid os spec ->
     (0 < pid <= next_process r)%N /\ (forall i, ~ owns r i pid)) ->
  registry_wf (registry_set r id (scope_apply s op).1).
Proof.
  intros Hr Hs Hop. pose proof Hr as [H1 H2 H3 H4]. pose proof (H2 id s Hs) as Hws.
  assert (Ho : forall i pid, owns (registry_set r id (scope_apply s op).1) i pid ->
    owns r i pid \/ (i = id /\ exists os spec, op = SAttach pid os spec)).
  { intros i pid. rewrite owns_set. intros [[-> Hp]|[_ Hp]]; [|by left].
    apply scope_apply_tracked in Hp as [Hp|Hp]; [|by right|done]. left. exists s. eauto. }
  split; simpl.
  - intros i s'. rewrite lookup_insert_Some. intros [[<- <-]|[_ Hi]]; [|eauto].
    rewrite scope_apply_id. eauto.
  - intros i s'. rewrite lookup_insert_Some. intros [[<- <-]|[_ Hi]]; eauto with shepherd.
  - intros i pid [Hp|(-> & os & spec & ->)]%Ho; [eauto|]. by eapply Hop.
  - intros i1 i2 pid Hp1 Hp2.
    apply Ho in Hp1 as [Hp1|(-> & os & spec & ->)], Hp2 as [Hp2|(-> & os' & spec' & E)].
    + eauto.
    + subst. by destruct (proj2 (Hop pid os' spec' eq_refl) i1).
    + by destruct (proj2 (Hop pid os spec eq_refl) i2).
    + done.
Qed.

Lemma registry_remove_wf r id : registry_wf r -> registry_wf (registry_remove r id).
Proof.
  intros [H1 H2 H3 H4].
  assert (Ho : forall i p, owns (registry_remove r id) i p -> owns r i p).
  { intros i p (s & Hs & Hp). simpl in Hs. apply lookup_delete_Some in Hs as [_ Hs]. by exists s. }
  split; simpl.
  - intros i s. rewrite lookup_delete_Some. naive_solver.
  - intros i s. rewrite lookup_delete_Some. naive_solver.
  - intros i p Hp%Ho. eauto.
  - intros i1 i2 p Hp1%Ho Hp2%Ho. eauto.
Qed.

#[export] Hint Resolve registry_new_wf registry_remove_wf : shepherd.

(** ** The repository's operations as data *)

Inductive registry_op : Type :=
| RCreate
| RSpawn (scope : ProcessScopeId) (os : OsIdentity) (spec : ProcessSpec)
| RScope (scope : ProcessScopeId) (op : scope_op)
| RRemove (scope : ProcessScopeId).

(** What the supervisor does under one registry lock. [RSpawn] mints and attaches in the
    same critical section; [RScope] is any other scope operation ([None]: id overflow). *)
Definition registry_apply (r : ScopeRegistry) (op : registry_op) : option ScopeRegistry :=
  match op with
  | RCreate => '(r, _) ← registry_create_scope r; Some r
  | RSpawn id os spec =>
      '(r, pid) ← next_process_id r;
      Some match registry_get r id with
           | None => r
           | Some s => registry_set r id (attach_spawned s pid os spec).1
           end
  | RScope id (SAttach _ _ _) => Some r
  | RScope id op =>
      Some match registry_get r id with
           | None => r
           | Some s => registry_set r id (scope_apply s op).1
           end
  | RRemove id => Some (registry_remove r id)
  end.

Fixpoint registry_run (r : ScopeRegistry) (ops : list registry_op) : option ScopeRegistry :=
  match ops with
  | [] => Some r
  | op :: ops => r ← registry_apply r op; registry_run r ops
  end.

Lemma registry_apply_op_wf r op r' :
  registry_wf r -> registry_apply r op = Some r' -> registry_wf r'.
Proof.
  intros Hr. destruct op as [|id os spec|id op|id]; [simpl..| |simpl].
  - destruct (registry_create_scope r) as [[r1 id]|] eqn:E; simpl; [|done]. intros [= <-].
    by eapply registry_create_scope_wf.
  - destruct (next_process_id r) as [[r1 pid]|] eqn:E; simpl; [|done]. intros [= <-].
    apply next_process_id_wf in E as (Hr1 & Hsc & _ & Hn & Hlt & Hfree); [|done].
    unfold registry_get. destruct (scopes r1 !! id) as [s|] eqn:Hs; [|done].
    pose proof (registry_apply_wf r1 id s (SAttach pid os spec) Hr1 Hs) as H.
    simpl in H. destruct (attach_spawned s pid os spec); apply H. intros q os' spec' [= <- _ _].
    split; [lia|]. intros i (s' & Hs' & Hp). apply (Hfree i). exists s'. by rewrite <- Hsc.
  - unfold registry_apply, registry_get.
    destruct op; intros E%(inj Some); subst r'; try done;
      (destruct (scopes r !! id) as [s|] eqn:Hs; [|done]; by apply registry_apply_wf).
  - intros [= <-]. auto with shepherd.
Qed.

Lemma registry_run_wf r ops r' : registry_wf r -> registry_run r ops = Some r' -> registry_wf r'.
Proof.
  revert r. induction ops as [|op ops IH]; intros r Hr; simpl; [by intros [= <-]|].
  destruct (registry_apply r op) as [r1|] eqn:E; simpl; [|done].
  apply IH. by eapply registry_apply_op_wf.
Qed.

(** A process belongs to exactly one scope: after any sequence of creations, spawns,
    scope operations and removals, [scope_of] finds the only scope tracking a process and
    [None] only when no scope tracks it, and every scope is filed under its own id. *)
Theorem registry_unique_owner ops r :
  registry_run registry_new ops = Some r ->
  (forall pid id, scope_of r pid = Some id <-> owns r id pid) /\
  (forall id s, scopes r !! id = Some s -> scope_id s = id /\ scope_wf s).
Proof.
  intros Hrun. apply registry_run_wf in Hrun as Hr; [|apply registry_new_wf]. split.
  - intros pid id. split; [apply scope_of_Some|by apply scope_of_owns].
  - intros id s Hs. split; [by apply (rg_ids r Hr)|by eapply rg_scopes].
Qed.

Lemma registry_unique_owner_witness :
  exists r, registry_run registry_new [RCreate; RCreate;
      RSpawn 2%N (mkOsIdentity 70 TokenUnavailable) (spec_new "sh")] = Some r /\
    scope_of r 1%N = Some 2%N.
Proof.
  eexists. split; [reflexivity|].
  apply (registry_unique_owner [RCreate; RCreate;
      RSpawn 2%N (mkOsIdentity 70 TokenUnavailable) (spec_new "sh")]); [reflexivity|].
  eexists. split; [reflexivity|]. by eexists.
Defined.

(** What one operation can add: nothing with an id already minted. *)
Lemma registry_apply_fresh r op r' :
  registry_wf r -> registry_apply r op = Some r' ->
  (next_scope r <= next_scope r')%N /\ (next_process r <= next_process r')%N /\
  (forall id pid, owns r' id pid -> (pid <= next_process r)%N -> owns r id pid) /\
  (forall id, is_Some (scopes r' !! id) -> (id <= next_scope r)%N -> is_Some (scopes r !! id)).
Proof.
  intros Hr. destruct op as [|id os spec|id op|id]; [simpl..| |simpl].
  - destruct (registry_create_scope r) as [[r1 id]|] eqn:E; simpl; [|done]. intros [= <-].
    apply registry_create_scope_wf in E as (_ & _ & Hsc & Hn & Hlt & Hp); [|done].
    split_and!; [lia|lia|..].
    + intros i p (s & Hs & Hps) _. rewrite Hsc in Hs. apply lookup_insert_Some in Hs as [[<- <-]|[_ Hs]].
      * simpl in Hps. rewrite lookup_empty in Hps. by destruct Hps.
      * by exists s.
    + intros i. rewrite Hsc, lookup_insert_is_Some. intros [<-|[_ ?]]; [lia|done].
  - destruct (next_process_id r) as [[r1 pid]|] eqn:E; simpl; [|done]. intros [= <-].
    apply next_process_id_wf in E as (Hr1 & Hsc & Hns & Hn & Hlt & Hfree); [|done].
    unfold registry_get. destruct (scopes r1 !! id) as [s|] eqn:Hs.
    2:{ split_and!; [lia|lia|by unfold owns; rewrite Hsc|by rewrite Hsc]. }
    unfold registry_set; simpl. split_and!; [lia|lia|..].
    + intros i p Ho Hle. pose proof (owns_set r1 id (attach_spawned s pid os spec).1 i p) as Hos.
      apply Hos in Ho as [[-> Hp]|[_ Ho]]; [|unfold owns in *; by rewrite <- Hsc].
      pose proof (scope_apply_tracked s (SAttach pid os spec) p (rg_scopes r1 Hr1 id s Hs)) as Ht.
      simpl in Ht. destruct (attach_spawned s pid os spec) as [s' res]; simpl in *.
      destruct (Ht Hp) as [Hp0|(os' & spec' & [= ->])]; [|lia].
      exists s. by rewrite <- Hsc.
    + intros i. rewrite Hsc in Hs |- *. rewrite lookup_insert_is_Some. intros [<-|[_ ?]]; eauto.
  - assert (Hgen : (forall pid os spec, op <> SAttach pid os spec) ->
      forall s, scopes r !! id = Some s -> r' = registry_set r id (scope_apply s op).1 ->
      (next_scope r <= next_scope r')%N /\ (next_process r <= next_process r')%N /\
      (forall id pid, owns r' id pid -> (pid <= next_process r)%N -> owns r id pid) /\
      (forall id, is_Some (scopes r' !! id) -> (id <= next_scope r)%N -> is_Some (scopes r !! id))).
    { intros Hop s Hs ->. simpl. split_and!; [lia|lia|..].
      - intros i p [[-> Hp]|[_ Ho]]%owns_set _; [|done].
        apply scope_apply_tracked in Hp as [Hp|(os & spec & ->)]; [|by destruct (Hop p os spec)|by eapply rg_scopes].
        by exists s.
      - intros i. rewrite lookup_insert_is_Some. intros [<-|[_ ?]]; eauto. }
    unfold registry_apply, registry_get.
    destruct op; intros E%(inj Some); subst r'; try (split_and!; by (done || lia));
      (destruct (scopes r !! id) as [s|] eqn:Hs; [eapply Hgen; done|split_and!; by (done || lia)]).
  - intros [= <-]. simpl. split_and!; [lia|lia|..].
    + intros i p (s & Hs & Hp) _. simpl in Hs. apply lookup_delete_Some in Hs as [_ Hs]. by exists s.
    + intros i [s Hs] _. apply lookup_delete_Some in Hs as [_ Hs]. eauto.
Qed.

(** Ids are never reused: along every run the counters only grow, a removed scope never
    comes back, and a process that is no longer tracked is never tracked again, so a stale
    handle can only miss and never name another scope or process. *)
Theorem registry_ids_never_reused ops1 ops2 r1 r2 :
  registry_run registry_new ops1 = Some r1 -> registry_run r1 ops2 = Some r2 ->
  (next_scope r1 <= next_scope r2)%N /\ (next_process r1 <= next_process r2)%N /\
  (forall id pid, owns r2 id pid -> (pid <= next_process r1)%N -> owns r1 id pid) /\
  (forall id, is_Some (scopes r2 !! id) -> (id <= next_scope r1)%N -> is_Some (scopes r1 !! id)).
Proof.
  intros H1. apply registry_run_wf in H1 as Hr; [|apply registry_new_wf]. clear H1.
  revert r1 Hr. induction ops2 as [|op ops2 IH]; intros r1 Hr; simpl.
  { intros [= <-]. split_and!; by (done || lia). }
  destruct (registry_apply r1 op) as [r|] eqn:E; simpl; [|done]. intros Hrun.
  pose proof (registry_apply_op_wf r1 op r Hr E) as Hr'.
  destruct (registry_apply_fresh r1 op r Hr E) as (A1 & A2 & A3 & A4).
  destruct (IH r Hr' Hrun) as (B1 & B2 & B3 & B4). split_and!; [lia|lia|..].
  - intros id pid Ho Hle. apply A3; [apply B3; [done|lia]|done].
  - intros id Hs Hle. apply A4; [apply B4; [done|lia]|done].
Qed.

Lemma registry_ids_never_reused_witness :
  exists r1 r2, registry_run registry_new [RCreate] = Some r1 /\
    registry_run r1 [RRemove 1%N; RCreate] = Some r2 /\ (next_scope r1 <= next_scope r2)%N.
Proof.
  do 2 eexists. split; [reflexivity|]. split; [reflexivity|].
  refine (proj1 (registry_ids_never_reused [RCreate] [RRemove 1%N; RCreate] _ _ _ _)); reflexivity.
Defined.
