(* ===== verification/Waiters.v ===== *)
(** * Waiters: the port that wakes [wait(pid)] callers, and its in-memory adapter

    The trait (shepherd-app/src/ports.rs) is the class [WaitersPort] with the
    laws its documentation promises ([WaitersLaws]); the adapter
    (shepherd-infra/src/waiters.rs) is modelled with its [watch] channels as
    cells of a heap and discharges the laws. Supervisor theorems use the class. *)

From stdpp Require Import base list gmap.
From S2P Require Import Prelude StdModel Values.

Open Scope Z_scope.

(** ** The port *)

Class WaitersPort (W F : Type) : Type := {
  signal_exit : W -> ProcessId -> ProcessExit -> W;
  try_get : W -> ProcessId -> option ProcessExit;
  wait : W -> ProcessId -> W * F;
  (** The value a future resolves with now, [None] while it is pending. *)
  poll : W -> F -> option ProcessExit;
}.

(** Recording [e] over the current observation: verified evidence is kept. *)
Definition merge_exit (old : option ProcessExit) (e : ProcessExit) : ProcessExit :=
  match old with
  | Some o => if is_verified (exit_outcome o) then o else e
  | None => e
  end.

(** The contract of the trait's documentation. [waiters_inv] holds of every reachable
    state and [fut_of w f pid] says that [f] came from [wait w pid]. *)
Class WaitersLaws (W F : Type) `{!WaitersPort W F} : Type := {
  waiters_inv : W -> Prop;
  fut_of : W -> F -> ProcessId -> Prop;
  signal_inv w p e : waiters_inv w -> waiters_inv (signal_exit w p e);
  wait_inv w p : waiters_inv w -> waiters_inv (wait w p).1;
  signal_same w p e : waiters_inv w ->
    try_get (signal_exit w p e) p = Some (merge_exit (try_get w p) e);
  signal_other w p e q : waiters_inv w -> q <> p ->
    try_get (signal_exit w p e) q = try_get w q \/ try_get (signal_exit w p e) q = None;
  wait_get w p q : waiters_inv w -> try_get (wait w p).1 q = try_get w q;
  wait_fut w p : waiters_inv w -> fut_of (wait w p).1 (wait w p).2 p;
  wait_poll w p : waiters_inv w -> poll (wait w p).1 (wait w p).2 = try_get w p;
  fut_signal w f p q e : fut_of w f p -> fut_of (signal_exit w q e) f p;
  fut_wait w f p q : waiters_inv w -> fut_of w f p -> fut_of (wait w q).1 f p;
  poll_signal_pending w f p e : waiters_inv w -> fut_of w f p -> poll w f = None ->
    poll (signal_exit w p e) f = Some e;
  poll_signal_ready w f p q e v : waiters_inv w -> fut_of w f p -> poll w f = Some v ->
    poll (signal_exit w q e) f = Some v \/
    (q = p /\ is_verified (exit_outcome v) = false /\ poll (signal_exit w q e) f = Some e);
  poll_signal_other w f p q e : waiters_inv w -> fut_of w f p -> q <> p ->
    poll (signal_exit w q e) f = poll w f;
  poll_wait w f p q : waiters_inv w -> fut_of w f p -> poll (wait w q).1 f = poll w f;
}.

(** ** The in-memory adapter *)

Inductive Slot : Type :=
| Pending (chan : nat)
| Completed (exit : ProcessExit).

#[global] Instance slot_eq_dec : EqDecision Slot.
Proof. solve_decision. Defined.

(** [chans] is the heap of [watch] channels: a receiver keeps its channel's last value
    whether or not a slot still holds the sender. *)
Record InMemoryWaiters : Type := mkInMemoryWaiters {
  entries : gmap ProcessId Slot;
  completed : list ProcessId;
  chans : gmap nat (option ProcessExit);
  next_chan : nat;
}.

Inductive WaitFuture : Type :=
| FutureReady (exit : ProcessExit)
| FutureChan (chan : nat).

Definition HISTORY_BOUND : nat := 256.

Definition in_memory_new : InMemoryWaiters := mkInMemoryWaiters ∅ [] ∅ 0.

(** [*sender.borrow()]. *)
Definition borrow (w : InMemoryWaiters) (c : nat) : option ProcessExit := default None (chans w !! c).

(** The eviction loop [while completed.len() > 256 { pop_front; entries.remove }]. *)
Fixpoint evict {A} (fuel : nat) (bound : nat) (done : list N) (m : gmap N A) : list N * gmap N A :=
  match fuel with
  | O => (done, m)
  | S fuel =>
      if (bound <? length done)%nat then
        match done with
        | old :: done => evict fuel bound done (delete old m)
        | [] => ([], m)
        end
      else (done, m)
  end.

Definition imw_signal_exit (w : InMemoryWaiters) (pid : ProcessId) (exit : ProcessExit) : InMemoryWaiters :=
  match entries w !! pid with
  | Some (Completed _) => w
  | slot =>
      let previously_published :=
        match slot with Some (Pending c) => bool_decide (is_Some (borrow w c)) | _ => false end in
      let chans1 := match slot with Some (Pending c) => <[c := Some exit]> (chans w) | _ => chans w end in
      let '(entries1, chans2, next2) :=
        if is_verified (exit_outcome exit) then (<[pid := Completed exit]> (entries w), chans1, next_chan w)
        else match slot with
             | Some _ => (entries w, chans1, next_chan w)
             | None => (<[pid := Pending (next_chan w)]> (entries w),
                        <[next_chan w := Some exit]> chans1, S (next_chan w))
             end in
      let completed1 := if previously_published then completed w else completed w ++ [pid] in
      let '(completed2, entries2) := evict (length completed1) HISTORY_BOUND completed1 entries1 in
      mkInMemoryWaiters entries2 completed2 chans2 next2
  end.

Definition imw_try_get (w : InMemoryWaiters) (pid : ProcessId) : option ProcessExit :=
  match entries w !! pid with
  | Some (Completed exit) => Some exit
  | Some (Pending c) => borrow w c
  | None => None
  end.

Definition imw_wait (w : InMemoryWaiters) (pid : ProcessId) : InMemoryWaiters * WaitFuture :=
  match entries w !! pid with
  | Some (Completed exit) => (w, FutureReady exit)
  | Some (Pending c) => (w, FutureChan c)
  | None =>
      (mkInMemoryWaiters (<[pid := Pending (next_chan w)]> (entries w)) (completed w)
         (<[next_chan w := None]> (chans w)) (S (next_chan w)),
       FutureChan (next_chan w))
  end.

(** The future's loop returns as soon as its channel holds a value; when the sender is gone
    and there is none it stays pending. *)
Definition imw_poll (w : InMemoryWaiters) (f : WaitFuture) : option ProcessExit :=
  match f with
  | FutureReady exit => Some exit
  | FutureChan c => borrow w c
  end.

#[export] Instance in_memory_waiters : WaitersPort InMemoryWaiters WaitFuture := {
  signal_exit := imw_signal_exit;
  try_get := imw_try_get;
  wait := imw_wait;
  poll := imw_poll;
}.

(** ** Invariant *)

Definition published (w : InMemoryWaiters) (pid : ProcessId) : Prop := is_Some (imw_try_get w pid).

Record imw_inv (w : InMemoryWaiters) : Prop := {
  iw_nodup : NoDup (completed w);
  iw_bound : (length (completed w) <= HISTORY_BOUND)%nat;
  iw_completed : forall pid, pid ∈ completed w <-> published w pid;
  iw_verified : forall pid e, entries w !! pid = Some (Completed e) -> is_verified (exit_outcome e) = true;
  iw_chans : forall c, is_Some (chans w !! c) -> (c < next_chan w)%nat;
  iw_alloc : forall pid c, entries w !! pid = Some (Pending c) -> is_Some (chans w !! c);
  iw_unverified : forall pid c e, entries w !! pid = Some (Pending c) -> borrow w c = Some e ->
    is_verified (exit_outcome e) = false;
  iw_own : forall p q c, entries w !! p = Some (Pending c) -> entries w !! q = Some (Pending c) -> p = q;
}.

(** [f] is a future of [pid]: its channel is [pid]'s while the slot is pending, and a channel
    no slot points to has been published. *)
Definition imw_fut (w : InMemoryWaiters) (f : WaitFuture) (pid : ProcessId) : Prop :=
  match f with
  | FutureReady e => is_verified (exit_outcome e) = true
  | FutureChan c => is_Some (chans w !! c) /\
      (entries w !! pid = Some (Pending c) \/ is_Some (borrow w c)) /\
      (forall q, entries w !! q = Some (Pending c) -> q = pid)
  end.

Lemma evict_spec {A} fuel bound l (m : gmap N A) :
  (length l <= fuel)%nat -> NoDup l ->
  evict fuel bound l m = (drop (length l - bound) l,
    filter (fun x => x.1 ∉ take (length l - bound) l) m).
Proof.
  revert l m. induction fuel as [|fuel IH]; intros l m Hf Hnd.
  { destruct l; simpl in *; [|lia]. f_equal. apply map_eq. intros i. apply option_eq. intros s.
    rewrite map_lookup_filter_Some. set_solver. }
  cbn [evict]. destruct (Nat.ltb_spec bound (length l)) as [Hlt|Hge].
  - destruct l as [|old l]; [simpl in Hlt; lia|]. apply NoDup_cons in Hnd as [Hni Hnd].
    rewrite IH by (simpl in *; auto with lia). simpl length in *.
    replace (S (length l) - bound)%nat with (S (length l - bound))%nat by lia. simpl. f_equal.
    apply map_eq. intros i. apply option_eq. intros s.
    rewrite !map_lookup_filter_Some, lookup_delete_Some. simpl. set_solver.
  - replace (length l - bound)%nat with 0%nat by lia. simpl. f_equal.
    apply map_eq. intros i. apply option_eq. intros s.
    rewrite map_lookup_filter_Some. set_solver.
Qed.

(** [signal_exit] is a record of the exit followed by the eviction of old history. *)
Definition imw_record (w : InMemoryWaiters) (pid : ProcessId) (exit : ProcessExit) : InMemoryWaiters :=
  let ver := is_verified (exit_outcome exit) in
  match entries w !! pid with
  | Some (Completed _) => w
  | Some (Pending c) =>
      mkInMemoryWaiters (if ver then <[pid := Completed exit]> (entries w) else entries w)
        (if decide (is_Some (borrow w c)) then completed w else completed w ++ [pid])
        (<[c := Some exit]> (chans w)) (next_chan w)
  | None =>
      if ver then mkInMemoryWaiters (<[pid := Completed exit]> (entries w)) (completed w ++ [pid])
                    (chans w) (next_chan w)
      else mkInMemoryWaiters (<[pid := Pending (next_chan w)]> (entries w)) (completed w ++ [pid])
             (<[next_chan w := Some exit]> (chans w)) (S (next_chan w))
  end.

Definition imw_evict (w : InMemoryWaiters) : InMemoryWaiters :=
  let n := (length (completed w) - HISTORY_BOUND)%nat in
  mkInMemoryWaiters (filter (fun x => x.1 ∉ take n (completed w)) (entries w))
    (drop n (completed w)) (chans w) (next_chan w).

(** The invariant without the bound, which holds between the two. *)
Record imw_inv1 (w : InMemoryWaiters) : Prop := {
  i1_nodup : NoDup (completed w);
  i1_completed : forall pid, pid ∈ completed w <-> published w pid;
  i1_verified : forall pid e, entries w !! pid = Some (Completed e) -> is_verified (exit_outcome e) = true;
  i1_chans : forall c, is_Some (chans w !! c) -> (c < next_chan w)%nat;
  i1_alloc : forall pid c, entries w !! pid = Some (Pending c) -> is_Some (chans w !! c);
  i1_unverified : forall pid c e, entries w !! pid = Some (Pending c) -> borrow w c = Some e ->
    is_verified (exit_outcome e) = false;
  i1_own : forall p q c, entries w !! p = Some (Pending c) -> entries w !! q = Some (Pending c) -> p = q;
}.

Lemma imw_inv_inv1 w : imw_inv w -> imw_inv1 w.
Proof. intros [? ? ? ? ? ? ? ?]. by split. Qed.

Lemma imw_evict_id w : (length (completed w) <= HISTORY_BOUND)%nat -> imw_evict w = w.
Proof.
  intros Hl. unfold imw_evict. replace (length (completed w) - HISTORY_BOUND)%nat with 0%nat by lia.
  destruct w; simpl. f_equal. apply map_filter_id. set_solver.
Qed.

Lemma imw_borrow_insert w c c' e en co nx :
  borrow (mkInMemoryWaiters en co (<[c := e]> (chans w)) nx) c' =
  if decide (c' = c) then e else borrow w c'.
Proof.
  unfold borrow; simpl. case_decide; [subst; by rewrite lookup_insert_eq|by rewrite lookup_insert_ne].
Qed.

Lemma borrow_fresh w c : imw_inv1 w -> (next_chan w <= c)%nat -> borrow w c = None.
Proof.
  intros [_ _ _ Hc _ _ _] Hle. unfold borrow. destruct (chans w !! c) eqn:E; [|done].
  assert (c < next_chan w)%nat by (apply Hc; eauto). lia.
Qed.

Lemma published_iff w pid :
  published w pid <-> match entries w !! pid with
                      | Some (Completed _) => True
                      | Some (Pending c) => is_Some (borrow w c)
                      | None => False
                      end.
Proof.
  unfold published, imw_try_get. destruct (entries w !! pid) as [[c|e]|]; [done|by split; eauto|].
  by split; [intros []|].
Qed.

(** What a record does to the slots, in terms of the old state. *)
Inductive record_spec (w : InMemoryWaiters) (pid : ProcessId) (e : ProcessExit) :
    InMemoryWaiters -> Prop :=
| rec_completed x :
    entries w !! pid = Some (Completed x) -> record_spec w pid e w
| rec_pending c w' :
    entries w !! pid = Some (Pending c) ->
    chans w' = <[c := Some e]> (chans w) -> next_chan w' = next_chan w ->
    entries w' = (if is_verified (exit_outcome e) then <[pid := Completed e]> (entries w) else entries w) ->
    completed w' = (if decide (is_Some (borrow w c)) then completed w else completed w ++ [pid]) ->
    record_spec w pid e w'
| rec_new_verified w' :
    entries w !! pid = None -> is_verified (exit_outcome e) = true ->
    w' = mkInMemoryWaiters (<[pid := Completed e]> (entries w)) (completed w ++ [pid])
           (chans w) (next_chan w) ->
    record_spec w pid e w'
| rec_new_unverified w' :
    entries w !! pid = None -> is_verified (exit_outcome e) = false ->
    w' = mkInMemoryWaiters (<[pid := Pending (next_chan w)]> (entries w)) (completed w ++ [pid])
           (<[next_chan w := Some e]> (chans w)) (S (next_chan w)) ->
    record_spec w pid e w'.

Lemma imw_record_spec w pid e : record_spec w pid e (imw_record w pid e).
Proof.
  unfold imw_record. destruct (entries w !! pid) as [[c|x]|] eqn:E.
  - by eapply rec_pending.
  - by eapply rec_completed.
  - destruct (is_verified (exit_outcome e)) eqn:V; [by eapply rec_new_verified|by eapply rec_new_unverified].
Qed.

Lemma imw_signal_record w pid e :
  imw_inv w -> imw_signal_exit w pid e = imw_evict (imw_record w pid e).
Proof.
  intros Hw. pose proof (imw_inv_inv1 w Hw) as H1. unfold imw_signal_exit, imw_record.
  assert (Hni : forall b : bool, (b = true <-> published w pid) ->
    NoDup (if b then completed w else completed w ++ [pid])).
  { intros b Hb. destruct b; [apply H1|]. apply NoDup_app. split_and!; [apply H1| |apply NoDup_singleton].
    intros x Hx ->%list_elem_of_singleton. apply (i1_completed w H1), Hb in Hx. done. }
  destruct (entries w !! pid) as [[c|x]|] eqn:E; [|by rewrite imw_evict_id by apply Hw|].
  - specialize (Hni (bool_decide (is_Some (borrow w c)))).
    rewrite bool_decide_eq_true, published_iff, E in Hni. specialize (Hni ltac:(done)).
    replace (if decide (is_Some (borrow w c)) then completed w else completed w ++ [pid])
      with (if bool_decide (is_Some (borrow w c)) then completed w else completed w ++ [pid])
      by (by case_bool_decide; case_decide).
    destruct (is_verified _); rewrite evict_spec by done; done.
  - specialize (Hni false). rewrite published_iff, E in Hni. specialize (Hni ltac:(done)).
    destruct (is_verified _); rewrite evict_spec by done; done.
Qed.

Lemma borrow_insert w w' c e c' :
  chans w' = <[c := Some e]> (chans w) ->
  borrow w' c' = if decide (c' = c) then Some e else borrow w c'.
Proof.
  intros Hc. unfold borrow. rewrite Hc.
  case_decide; [subst; by rewrite lookup_insert_eq|by rewrite lookup_insert_ne].
Qed.

(** The observation after a record, process by process. *)
Lemma imw_record_get w pid e q :
  imw_inv1 w ->
  imw_try_get (imw_record w pid e) q =
    if decide (q = pid) then Some (merge_exit (imw_try_get w pid) e) else imw_try_get w q.
Proof.
  intros Hw. pose proof Hw as [_ _ Hver Hch Hal Hun Hown].
  pose proof (imw_record_spec w pid e) as Hs.
  destruct Hs as [x E|c w' E Ec En Ee Eco|w' E V Ew|w' E V Ew].
  - case_decide; [|done]. subst q. unfold imw_try_get. rewrite E. simpl. by rewrite (Hver _ _ E).
  - unfold imw_try_get. rewrite Ee, E. destruct (decide (q = pid)) as [Hq|Hq].
    + subst q. assert (Hm : merge_exit (borrow w c) e = e).
      { unfold merge_exit. destruct (borrow w c) eqn:B; [|done]. by rewrite (Hun _ _ _ E B). }
      rewrite Hm. destruct (is_verified _); rewrite ?lookup_insert_eq; [done|].
      rewrite E. rewrite (borrow_insert w _ c e c Ec). by rewrite decide_True.
    + assert (Hq' : (if is_verified (exit_outcome e) then <[pid:=Completed e]> (entries w) else entries w) !! q
        = entries w !! q) by (by destruct (is_verified _); rewrite ?lookup_insert_ne).
      rewrite Hq'. destruct (entries w !! q) as [[c'|x]|] eqn:Eq; [|done..].
      rewrite (borrow_insert w _ c e c' Ec). rewrite decide_False; [done|].
      intros ->. by apply Hq, (Hown q pid c).
  - subst w'. unfold imw_try_get; simpl. destruct (decide (q = pid)) as [Hq|Hq].
    + subst q. by rewrite lookup_insert_eq, E.
    + by rewrite lookup_insert_ne.
  - subst w'. unfold imw_try_get; simpl. destruct (decide (q = pid)) as [Hq|Hq].
    + subst q. rewrite lookup_insert_eq, E. simpl.
      rewrite (borrow_insert w _ (next_chan w) e) by done. by rewrite decide_True.
    + rewrite lookup_insert_ne by done. destruct (entries w !! q) as [[c'|x]|] eqn:Eq; [|done..].
      rewrite (borrow_insert w _ (next_chan w) e) by done. rewrite decide_False; [done|].
      intros ->. assert (next_chan w < next_chan w)%nat by (apply Hch; eauto). lia.
Qed.

Lemma imw_record_inv w pid e :
  imw_inv1 w ->
  imw_inv1 (imw_record w pid e) /\
  (length (completed (imw_record w pid e)) <= S (length (completed w)))%nat /\
  (entries w !! pid = None \/ imw_try_get w pid = None ->
   last (completed (imw_record w pid e)) = Some pid).
Proof.
  intros Hw. pose proof Hw as [Hnd Hco Hver Hch Hal Hun Hown].
  pose proof (fun q => imw_record_get w pid e q Hw) as Hget.
  pose proof (imw_record_spec w pid e) as Hs.
  assert (Hnew : imw_try_get w pid = None -> NoDup (completed w ++ [pid])).
  { intros Hg. apply NoDup_app. split_and!; [done| |apply NoDup_singleton].
    intros x Hx ->%list_elem_of_singleton. apply Hco in Hx as []. congruence. }
  assert (Hcomp : forall w', imw_try_get w pid = None ->
    (forall q, imw_try_get w' q = if decide (q = pid) then Some (merge_exit (imw_try_get w pid) e) else imw_try_get w q) ->
    completed w' = completed w ++ [pid] -> forall q, q ∈ completed w' <-> published w' q).
  { intros w' Hg Hg' -> q. unfold published. rewrite Hg', elem_of_app, Hco, list_elem_of_singleton.
    unfold published. case_decide; subst; naive_solver. }
  destruct Hs as [x E|c w' E Ec En Ee Eco|w' E V Ew|w' E V Ew].
  - split_and!; [done|lia|]. unfold imw_try_get. rewrite E. intros []; done.
  - assert (Hb : imw_try_get w pid = borrow w c) by (unfold imw_try_get; by rewrite E).
    assert (Hent : forall q c', entries w' !! q = Some (Pending c') -> entries w !! q = Some (Pending c') /\
      (q = pid -> is_verified (exit_outcome e) = false)).
    { intros q c'. rewrite Ee. destruct (is_verified (exit_outcome e)); [|done].
      rewrite lookup_insert_Some. naive_solver. }
    split_and!.
    + split.
      * rewrite Eco. destruct (decide (is_Some (borrow w c))) as [Hd|Hd]; [done|].
        apply Hnew. rewrite Hb. by apply eq_None_not_Some.
      * destruct (decide (is_Some (borrow w c))) as [Hd|Hd];
          [rewrite Eco|].
        -- intros q. rewrite Hco. unfold published. rewrite Hget. destruct (decide (q = pid)) as [->|]; [|done].
           rewrite Hb. split; [by eauto|by intros _].
        -- apply Hcomp; [by rewrite Hb; apply eq_None_not_Some|done|by rewrite Eco].
      * intros q x. rewrite Ee. destruct (is_verified (exit_outcome e)) eqn:V; [|by eauto].
        rewrite lookup_insert_Some. intros [[<- [= <-]]|[_ Hq]]; eauto.
      * intros c'. rewrite Ec, En, lookup_insert_is_Some. intros [<-|[_ ?]]; eauto.
      * intros q c' [Hq _]%Hent. rewrite Ec, lookup_insert_is_Some.
        destruct (decide (c = c')); [by left|right; eauto].
      * intros q c' x Hq. rewrite (borrow_insert w _ c e c' Ec). apply Hent in Hq as [Hq Hv].
        destruct (decide (c' = c)) as [->|Hne]; [intros [= <-]; by apply Hv, (Hown q pid c)|eauto].
      * intros p q c' [Hp _]%Hent [Hq _]%Hent. eauto.
    + rewrite Eco. destruct (decide _); [lia|]. rewrite length_app. simpl. lia.
    + rewrite Eco. intros [?|Hg]; [congruence|]. rewrite Hb in Hg.
      rewrite decide_False; [apply last_snoc|]. rewrite Hg. by intros [].
  - assert (Hg : imw_try_get w pid = None) by (unfold imw_try_get; by rewrite E).
    subst w'. split_and!; simpl; [|rewrite length_app; simpl; lia|intros _; apply last_snoc].
    split; [by apply Hnew|exact (Hcomp _ Hg Hget eq_refl)| |done| | |]; simpl.
    + intros q x. rewrite lookup_insert_Some. intros [[<- [= <-]]|[_ Hq]]; eauto.
    + intros q c. rewrite lookup_insert_Some. intros [[_ [=]]|[_ Hq]]; eauto.
    + intros q c x. rewrite lookup_insert_Some. intros [[_ [=]]|[_ Hq]]; eauto.
    + intros p q c. rewrite !lookup_insert_Some. naive_solver.
  - assert (Hg : imw_try_get w pid = None) by (unfold imw_try_get; by rewrite E).
    assert (Hlt : forall q c, entries w !! q = Some (Pending c) -> c <> next_chan w).
    { intros q c Hq ->. assert (next_chan w < next_chan w)%nat by (apply Hch; eauto). lia. }
    subst w'. split_and!; simpl; [|rewrite length_app; simpl; lia|intros _; apply last_snoc].
    split; [by apply Hnew|exact (Hcomp _ Hg Hget eq_refl)|..]; simpl.
    + intros q x. rewrite lookup_insert_Some. intros [[_ [=]]|[_ Hq]]; eauto.
    + intros c. rewrite lookup_insert_is_Some. intros [<-|[_ Hc%Hch]]; lia.
    + intros q c. rewrite lookup_insert_Some, lookup_insert_is_Some.
      intros [[_ [= <-]]|[_ Hq]]; [by left|]. right. split; [by apply not_eq_sym, (Hlt q)|eauto].
    + intros q c x. rewrite lookup_insert_Some, (borrow_insert w _ (next_chan w) e) by done.
      intros [[_ [= <-]]|[_ Hq]].
      * rewrite decide_True by done. by intros [= <-].
      * rewrite decide_False by (by eapply Hlt). eauto.
    + intros p q c. rewrite !lookup_insert_Some.
      intros [[<- [= <-]]|[_ Hp]] [[<- Hc]|[_ Hq]]; naive_solver.
Qed.

(** *** Eviction *)

Lemma imw_evict_get w q :
  imw_try_get (imw_evict w) q =
    if decide (q ∈ take (length (completed w) - HISTORY_BOUND) (completed w)) then None
    else imw_try_get w q.
Proof.
  unfold imw_try_get, imw_evict; simpl.
  destruct (filter _ (entries w) !! q) as [s|] eqn:E.
  - apply map_lookup_filter_Some in E as [-> Hn]. simpl in Hn. by rewrite decide_False.
  - apply map_lookup_filter_None in E as [E|E].
    + rewrite E. by destruct (decide _).
    + destruct (entries w !! q) as [s|] eqn:Eq; [|by destruct (decide _)].
      specialize (E s eq_refl). simpl in E. destruct (decide _); [done|by destruct E].
Qed.

Lemma imw_evict_inv w : imw_inv1 w -> imw_inv (imw_evict w).
Proof.
  intros [Hnd Hco Hver Hch Hal Hun Hown].
  assert (Hsub : forall q x, entries (imw_evict w) !! q = Some x -> entries w !! q = Some x).
  { intros q x. simpl. rewrite map_lookup_filter_Some. naive_solver. }
  set (n := (length (completed w) - HISTORY_BOUND)%nat).
  split; [| | |by eauto|done|by eauto|by eauto|by eauto].
  - simpl. fold n. rewrite <- (take_drop n (completed w)) in Hnd. by apply NoDup_app in Hnd as (_ & _ & Hnd).
  - simpl. rewrite length_drop. lia.
  - intros q. unfold published. rewrite imw_evict_get. simpl. fold n.
    rewrite <- (take_drop n (completed w)) in Hnd. apply NoDup_app in Hnd as (_ & Hdis & _).
    specialize (Hco q). rewrite <- (take_drop n (completed w)), elem_of_app in Hco.
    destruct (decide _) as [Hd|Hd].
    + split; [intros Hq; by destruct (Hdis q)|by intros []].
    + unfold published in Hco. naive_solver.
Qed.

Lemma imw_signal_inv w pid e : imw_inv w -> imw_inv (imw_signal_exit w pid e).
Proof.
  intros Hw. rewrite imw_signal_record by done.
  apply imw_evict_inv, imw_record_inv, imw_inv_inv1, Hw.
Qed.

(** The evicted process is the oldest one of a full history, never the one just recorded. *)
Lemma imw_evicted_other w pid e :
  imw_inv w ->
  let w1 := imw_record w pid e in
  pid ∉ take (length (completed w1) - HISTORY_BOUND) (completed w1).
Proof.
  intros Hw w1 Hin. pose proof (imw_inv_inv1 w Hw) as H1.
  destruct (imw_record_inv w pid e H1) as ([Hnd _ _ _ _ _ _] & Hlen & Hlast). fold w1 in Hnd, Hlen, Hlast.
  pose proof (iw_bound w Hw) as Hb.
  destruct (imw_try_get w pid) as [x|] eqn:Hg.
  - assert (completed w1 = completed w) as Hsame.
    { pose proof (imw_record_spec w pid e) as Hs. fold w1 in Hs.
      destruct Hs as [y E|c w' E Ec En Ee Eco|w' E V Ew|w' E V Ew]; [done|..];
        unfold imw_try_get in Hg; rewrite E in Hg; [|done..].
      rewrite Eco, decide_True; eauto. }
    rewrite Hsame in Hin. replace (length (completed w) - HISTORY_BOUND)%nat with 0%nat in Hin by lia.
    by apply not_elem_of_nil in Hin.
  - specialize (Hlast (or_intror eq_refl)). apply last_Some in Hlast as [l Hl]. rewrite Hl in *.
    rewrite length_app in *. simpl in *.
    destruct (decide (length l + 1 - HISTORY_BOUND = 0)%nat) as [Hz|Hz];
      [rewrite Hz in Hin; by apply not_elem_of_nil in Hin|].
    rewrite take_app_le in Hin by (unfold HISTORY_BOUND in *; lia).
    apply NoDup_app in Hnd as (_ & Hdis & _). apply (Hdis pid); [|by left].
    eapply subseteq_take; exact Hin.
Qed.

Lemma imw_signal_get w pid e q :
  imw_inv w ->
  imw_try_get (imw_signal_exit w pid e) q =
    if decide (q = pid) then Some (merge_exit (imw_try_get w pid) e)
    else imw_try_get (imw_evict (imw_record w pid e)) q.
Proof.
  intros Hw. rewrite imw_signal_record by done. destruct (decide (q = pid)) as [->|Hq]; [|done].
  rewrite imw_evict_get, decide_False by (by apply imw_evicted_other).
  rewrite imw_record_get by (by apply imw_inv_inv1). by rewrite decide_True.
Qed.

(** *** Futures *)

Lemma imw_signal_poll w pid e f p :
  imw_inv w -> imw_fut w f p ->
  imw_fut (imw_signal_exit w pid e) f p /\
  imw_poll (imw_signal_exit w pid e) f =
    match f with
    | FutureReady x => Some x
    | FutureChan c =>
        if decide (entries w !! pid = Some (Pending c)) then Some e else borrow w c
    end.
Proof.
  intros Hw Hf. rewrite imw_signal_record by done. pose proof (imw_inv_inv1 w Hw) as H1.
  destruct f as [x|c]; [done|]. destruct Hf as (Hal & Hent & Hown).
  change (borrow (imw_evict ?w1) c) with (borrow w1 c).
  assert (Hb : borrow (imw_record w pid e) c =
      (if decide (entries w !! pid = Some (Pending c)) then Some e else borrow w c) /\
    is_Some (chans (imw_record w pid e) !! c) /\
    (forall q, entries (imw_record w pid e) !! q = Some (Pending c) -> entries w !! q = Some (Pending c))).
  { pose proof (imw_record_spec w pid e) as Hs.
    destruct Hs as [y E|c' w' E Ec En Ee Eco|w' E V Ew|w' E V Ew]; rewrite E.
    - by rewrite decide_False.
    - rewrite (borrow_insert w _ c' e c Ec), Ec, Ee. split_and!.
      + destruct (decide (c = c')) as [->|Hne]; [by rewrite decide_True|rewrite decide_False; congruence].
      + rewrite lookup_insert_is_Some. destruct (decide (c' = c)); auto.
      + intros q. destruct (is_verified _); [|done]. rewrite lookup_insert_Some. naive_solver.
    - rewrite decide_False by done. subst w'. simpl. split_and!; [done..|].
      intros q. rewrite lookup_insert_Some. naive_solver.
    - assert (c < next_chan w)%nat as Hlt by (by apply H1).
      rewrite decide_False by done. subst w'. simpl. split_and!.
      + rewrite (borrow_insert w _ (next_chan w) e) by done. rewrite decide_False by lia. done.
      + rewrite lookup_insert_ne by lia. done.
      + intros q. rewrite lookup_insert_Some. intros [[_ [= ?]]|[_ ?]]; [lia|done]. }
  destruct Hb as (Hb & Hal' & Hback).
  assert (Hsub : forall q x, entries (imw_evict (imw_record w pid e)) !! q = Some x ->
    entries (imw_record w pid e) !! q = Some x).
  { intros q x. simpl. rewrite map_lookup_filter_Some. naive_solver. }
  split; [|exact Hb]. split_and!; [done| |].
  - destruct (borrow (imw_evict (imw_record w pid e)) c) as [v|] eqn:Hv; [right; eauto|left].
    change (borrow (imw_evict ?w1) c) with (borrow w1 c) in Hv. rewrite Hv in Hb.
    destruct (decide (entries w !! pid = Some (Pending c))) as [|Hne]; [done|].
    destruct Hent as [Hent|[v Hv']]; [|congruence].
    assert (Hp : p <> pid) by (by intros ->).
    assert (Hkeep : entries (imw_record w pid e) !! p = Some (Pending c)).
    { pose proof (imw_record_spec w pid e) as Hs.
      destruct Hs as [y E|c' w' E Ec En Ee Eco|w' E V Ew|w' E V Ew]; subst; simpl; try done.
      - rewrite Ee. destruct (is_verified _); [by rewrite lookup_insert_ne|done].
      - by rewrite lookup_insert_ne.
      - by rewrite lookup_insert_ne. }
    simpl. apply map_lookup_filter_Some. split; [done|]. simpl.
    intros Hin. apply elem_of_take in Hin as (i & Hin & _). apply list_elem_of_lookup_2 in Hin.
    destruct (imw_record_inv w pid e H1) as ([_ Hco _ _ _ _ _] & _).
    apply Hco in Hin as [v' Hin]. unfold imw_try_get in Hin. rewrite Hkeep in Hin. congruence.
  - intros q Hq%Hsub%Hback. by apply Hown.
Qed.

Lemma imw_wait_spec w pid :
  imw_inv w ->
  imw_inv (imw_wait w pid).1 /\
  (forall q, imw_try_get (imw_wait w pid).1 q = imw_try_get w q) /\
  imw_fut (imw_wait w pid).1 (imw_wait w pid).2 pid /\
  imw_poll (imw_wait w pid).1 (imw_wait w pid).2 = imw_try_get w pid /\
  (forall f p, imw_fut w f p ->
     imw_fut (imw_wait w pid).1 f p /\ imw_poll (imw_wait w pid).1 f = imw_poll w f).
Proof.
  intros Hw. pose proof Hw as [Hnd Hbd Hco Hver Hch Hal Hun Hown].
  unfold imw_wait. destruct (entries w !! pid) as [[c|x]|] eqn:E; simpl.
  - unfold imw_try_get at 3. rewrite E. split_and!; auto; [by eapply Hal|]. intros q Hq. by eapply Hown.
  - unfold imw_try_get at 3. rewrite E. split_and!; eauto.
  - set (w' := mkInMemoryWaiters _ _ _ _).
    assert (Hfresh : forall c, is_Some (chans w !! c) -> c <> next_chan w).
    { intros c Hc ->. apply Hch in Hc. lia. }
    assert (Hb : forall c, borrow w' c = borrow w c).
    { intros c. unfold w', borrow; simpl. destruct (decide (c = next_chan w)) as [->|Hne].
      - rewrite lookup_insert_eq. symmetry. exact (borrow_fresh w _ (imw_inv_inv1 w Hw) (le_n _)).
      - by rewrite lookup_insert_ne. }
    assert (Hget : forall q, imw_try_get w' q = imw_try_get w q).
    { intros q. unfold imw_try_get. simpl. destruct (decide (q = pid)) as [->|Hq].
      - rewrite lookup_insert_eq, E, Hb. by rewrite (borrow_fresh w _ (imw_inv_inv1 w Hw)).
      - rewrite lookup_insert_ne by done. destruct (entries w !! q) as [[c|]|]; [apply Hb|done..]. }
    split; [|split; [exact Hget|split; [|split]]].
    + split; simpl; try done.
      * intros q. rewrite Hco. unfold published. by rewrite Hget.
      * intros q e. rewrite lookup_insert_Some. naive_solver.
      * intros c. rewrite lookup_insert_is_Some. intros [<-|[_ Hc%Hch]]; lia.
      * intros q c. rewrite lookup_insert_Some, lookup_insert_is_Some. intros [[_ [= <-]]|[_ Hq%Hal]]; [by left|].
        right. split; [by apply not_eq_sym, Hfresh|done].
      * intros q c e. rewrite Hb, lookup_insert_Some. intros [[_ [= <-]]|[_ Hq]]; [|eauto].
        rewrite (borrow_fresh w _ (imw_inv_inv1 w Hw)); done.
      * intros p q c. rewrite !lookup_insert_Some.
        intros [[<- [= <-]]|[_ Hp]] [[<- Hc]|[_ Hq]]; try done.
        -- by apply Hal, Hfresh in Hq.
        -- injection Hc as <-. by apply Hal, Hfresh in Hp.
        -- eauto.
    + split_and!; [by rewrite lookup_insert_eq|left; by rewrite lookup_insert_eq|].
      intros q. rewrite lookup_insert_Some. intros [[? _]|[_ Hq]]; [done|]. by apply Hal, Hfresh in Hq.
    + unfold imw_try_get. rewrite E, Hb. by rewrite (borrow_fresh w _ (imw_inv_inv1 w Hw)).
    + intros [x|c] p; [done|]. intros (Hc & Hent & Hq). simpl. split; [|apply Hb]. split_and!.
      * rewrite lookup_insert_ne by (by apply not_eq_sym, Hfresh). done.
      * rewrite Hb. destruct Hent as [Hent|]; [left|by right]. rewrite lookup_insert_ne; congruence.
      * intros q. rewrite lookup_insert_Some. intros [[_ [= <-]]|[_ ?]]; [by apply Hfresh in Hc|eauto].
Qed.

Lemma imw_signal_other w p e q :
  imw_inv w -> q <> p ->
  imw_try_get (imw_signal_exit w p e) q = imw_try_get w q \/
  imw_try_get (imw_signal_exit w p e) q = None.
Proof.
  intros Hw Hq. rewrite imw_signal_get, decide_False, imw_evict_get by done.
  destruct (decide _); [by right|left].
  by rewrite imw_record_get, decide_False by (done || by apply imw_inv_inv1).
Qed.

#[export] Program Instance in_memory_laws : WaitersLaws InMemoryWaiters WaitFuture := {
  waiters_inv := imw_inv;
  fut_of w f p := imw_inv w /\ imw_fut w f p;
}.
Next Obligation. intros. by apply imw_signal_inv. Qed.
Next Obligation. intros. by apply imw_wait_spec. Qed.
Next Obligation. intros w p e Hw. simpl. by rewrite imw_signal_get, decide_True. Qed.
Next Obligation. intros. by apply imw_signal_other. Qed.
Next Obligation. intros. by apply imw_wait_spec. Qed.
Next Obligation. intros w p Hw. by destruct (imw_wait_spec w p Hw) as (? & ? & ? & ? & ?). Qed.
Next Obligation. intros w p Hw. by destruct (imw_wait_spec w p Hw) as (? & ? & ? & ? & ?). Qed.
Next Obligation.
  intros w f p q e [Hw Hf]. split; [by apply imw_signal_inv|by apply imw_signal_poll].
Qed.
Next Obligation.
  intros w f p q Hw [_ Hf]. by destruct (imw_wait_spec w q Hw) as (? & ? & ? & ? & Hk); split; [|apply Hk].
Qed.
Next Obligation.
  intros w f p e Hw [_ Hf] Hp. simpl in *. destruct (imw_signal_poll w p e f p Hw Hf) as [_ ->].
  destruct f as [x|c]; [done|]. simpl in Hp. destruct Hf as (_ & [Hent|[v Hv]] & _); [|congruence].
  by rewrite decide_True.
Qed.
Next Obligation.
  intros w f p q e v Hw [_ Hf] Hp. simpl in *. destruct (imw_signal_poll w q e f p Hw Hf) as [_ ->].
  destruct f as [x|c]; simpl in *; [by left|]. destruct Hf as (_ & _ & Hown).
  destruct (decide _) as [Hd|Hd]; [right|by left].
  split_and!; [by apply Hown|by eapply (iw_unverified w Hw)|done].
Qed.
Next Obligation.
  intros w f p q e Hw [_ Hf] Hq. simpl. destruct (imw_signal_poll w q e f p Hw Hf) as [_ ->].
  destruct f as [x|c]; [done|]. destruct Hf as (_ & _ & Hown).
  by rewrite decide_False by (intros Hd; by apply Hq, Hown).
Qed.
Next Obligation.
  intros w f p q Hw [_ Hf]. destruct (imw_wait_spec w q Hw) as (? & ? & ? & ? & Hk). by apply (Hk f p).
Qed.

(** ** Runs of any adapter *)

Inductive waiters_op : Type :=
| WSignal (pid : ProcessId) (exit : ProcessExit)
| WWait (pid : ProcessId).

Section Runs.
Context {W F : Type} `{WaitersLaws W F}.

Definition waiters_apply (w : W) (op : waiters_op) : W :=
  match op with
  | WSignal pid e => signal_exit w pid e
  | WWait pid => (wait w pid).1
  end.

Definition waiters_run (w : W) (ops : list waiters_op) : W := fold_left waiters_apply ops w.

Lemma waiters_run_inv w ops : waiters_inv w -> waiters_inv (waiters_run w ops).
Proof.
  revert w. induction ops as [|[p e|p] ops IH]; intros w Hw; simpl; [done|..];
    apply IH; [by apply signal_inv|by apply wait_inv].
Qed.

Lemma waiters_run_fut w ops f p :
  waiters_inv w -> fut_of w f p -> fut_of (waiters_run w ops) f p.
Proof.
  revert w. induction ops as [|[q e|q] ops IH]; intros w Hw Hf; simpl; [done|..]; apply IH.
  - by apply signal_inv.
  - by apply fut_signal.
  - by apply wait_inv.
  - by apply fut_wait.
Qed.

(** A future that resolved stays resolved, and a verified value never changes. *)
Lemma waiters_run_stable w ops f p v :
  waiters_inv w -> fut_of w f p -> poll w f = Some v ->
  exists v', poll (waiters_run w ops) f = Some v' /\
    (is_verified (exit_outcome v) = true -> v' = v).
Proof.
  revert w v. induction ops as [|[q e|q] ops IH]; intros w v Hw Hf Hp; simpl; [by eauto|..].
  - pose proof (signal_inv w q e Hw) as Hw'. pose proof (fut_signal w f p q e Hf) as Hf'.
    destruct (poll_signal_ready w f p q e v Hw Hf Hp) as [Hp'|(-> & Hv & Hp')].
    + exact (IH _ _ Hw' Hf' Hp').
    + destruct (IH _ _ Hw' Hf' Hp') as (v' & Hp'' & _). exists v'. split; [done|congruence].
  - apply IH; [by apply wait_inv|by apply fut_wait|]. by rewrite (poll_wait w f p q).
Qed.

(** The first exit recorded after registration reaches the future, whatever happens to the
    lookup history; if it is verified it is the value the future keeps. *)
Lemma waiters_run_delivers w l1 l2 f p e :
  waiters_inv w -> fut_of w f p ->
  exists v, poll (waiters_run w (l1 ++ WSignal p e :: l2)) f = Some v /\
    (poll (waiters_run w l1) f = None -> is_verified (exit_outcome e) = true -> v = e).
Proof.
  intros Hw Hf. unfold waiters_run. rewrite fold_left_app. fold (waiters_run w l1). simpl.
  set (w1 := waiters_run w l1).
  assert (Hw1 : waiters_inv w1) by (by apply waiters_run_inv).
  assert (Hf1 : fut_of w1 f p) by (by apply waiters_run_fut).
  assert (exists v, poll (signal_exit w1 p e) f = Some v /\ (poll w1 f = None -> v = e))
    as (v & Hv & Hve).
  { destruct (poll w1 f) as [v|] eqn:Hp.
    - destruct (poll_signal_ready w1 f p p e v Hw1 Hf1 Hp) as [->|(_ & _ & ->)]; by eexists.
    - rewrite (poll_signal_pending w1 f p e) by done. by exists e. }
  destruct (waiters_run_stable _ l2 f p v (signal_inv w1 p e Hw1) (fut_signal w1 f p p e Hf1) Hv)
    as (v' & Hv' & Hstable).
  exists v'. split; [done|]. intros Hp Ve. rewrite (Hve Hp) in Hstable. rewrite Hstable; auto.
Qed.
End Runs.

Lemma in_memory_new_inv : imw_inv in_memory_new.
Proof.
  split; simpl; try done.
  - constructor.
  - unfold HISTORY_BOUND. lia.
  - intros pid. unfold published, imw_try_get. simpl.
    split; [intros H; by apply not_elem_of_nil in H|by intros []].
  - intros c. rewrite lookup_empty. by intros [].
Qed.

(** ** Properties *)

(** The adapter's lookup history is exact and bounded: after any sequence of
    notifications and registrations the completed list has no duplicates, at most 256
    entries, and holds precisely the processes whose exit can still be looked up, so that
    neither a correction nor an eviction leaves a stale slot. *)
Theorem waiters_history_bounded ops :
  let w := waiters_run in_memory_new ops in
  NoDup (completed w) /\ (length (completed w) <= HISTORY_BOUND)%nat /\
  (forall pid, pid ∈ completed w <-> is_Some (try_get w pid)).
Proof.
  intros w. pose proof (waiters_run_inv (F := WaitFuture) in_memory_new ops in_memory_new_inv) as Hw.
  by destruct Hw as [? ? ? _ _ _ _ _].
Qed.

(** C34. A registered waiter never misses its exit: whatever runs between registration and
    notification and afterwards (evictions included), the future obtained by [wait] resolves
    once its process's exit is signalled, and if it was pending then and the exit is
    verified, it resolves with exactly that exit for ever. *)
Theorem waiter_delivery ops0 pid l1 e l2 :
  let w0 := waiters_run in_memory_new ops0 in
  let w1 := (wait w0 pid).1 in
  let f := (wait w0 pid).2 in
  exists v, poll (waiters_run w1 (l1 ++ WSignal pid e :: l2)) f = Some v /\
    (poll (waiters_run w1 l1) f = None -> is_verified (exit_outcome e) = true -> v = e).
Proof.
  intros w0 w1 f.
  assert (Hw0 : waiters_inv w0) by exact (waiters_run_inv in_memory_new ops0 in_memory_new_inv).
  apply waiters_run_delivers; [by apply wait_inv|by apply wait_fut].
Qed.

(** Verified evidence is never downgraded by an older notification: once an exit with a
    verified outcome can be looked up, every later lookup gives exactly it or, after 256
    younger completions, nothing - as long as nothing signals the process anew after its
    eviction. *)
Theorem waiters_no_downgrade w pid v q e :
  imw_inv w -> try_get w pid = Some v -> is_verified (exit_outcome v) = true ->
  (try_get (signal_exit w q e) pid = Some v \/
   (q <> pid /\ try_get (signal_exit w q e) pid = None)) /\
  try_get (wait w q).1 pid = Some v.
Proof.
  intros Hw Hg Hv. split; [|by rewrite wait_get].
  destruct (decide (q = pid)) as [->|Hq].
  - left. rewrite signal_same by done. rewrite Hg. simpl. by rewrite Hv.
  - destruct (signal_other w q e pid) as [->| ->]; auto.
Qed.

Lemma waiters_no_downgrade_witness :
  let v := mkProcessExit 3%N (Some 0) None ExitedNaturally false in
  let e := mkProcessExit 3%N None None (CleanupUnverified ReapFailed) false in
  let w := waiters_run in_memory_new [WSignal 3%N e; WSignal 3%N v] in
  try_get (signal_exit w 3%N e) 3%N = Some v.
Proof.
  intros v e w.
  destruct (waiters_no_downgrade w 3%N v 3%N e) as [[H|[H _]] _]; [|reflexivity|reflexivity|exact H|done].
  exact (waiters_run_inv (F := WaitFuture) in_memory_new _ in_memory_new_inv).
Defined.
