(* ===== verification/Output.v ===== *)
(** * Output: the bounded output queue with its capped tail

    shepherd-infra/src/output.rs and the port of shepherd-app/src/output.rs.
    Sizes are [usize] values in [Z]; [None] is the panic of
    [expect("queue byte accounting")]. The reference behaviour of [append] is
    "keep the last [capacity] bytes" ([last_n]). *)

From stdpp Require Import base list strings.
From S2P Require Import Prelude StdModel.

Open Scope Z_scope.

(** ** The port's data *)

Inductive OutputStream : Type := Stdout | Stderr.

#[global] Instance output_stream_eq_dec : EqDecision OutputStream.
Proof. solve_decision. Defined.

Record OutputChunk : Type := mkOutputChunk {
  oc_stream : OutputStream;
  oc_bytes : list Z;
}.

Record OutputSnapshot : Type := mkOutputSnapshot {
  os_chunks : list OutputChunk;
  os_tail : list OutputChunk;
  os_dropped_bytes : Z;
  os_stdout_closed : bool;
  os_stderr_closed : bool;
  os_errors : list string;
}.

(** ** The adapter *)

Record BufferedChunk : Type := mkBufferedChunk {
  bc_stream : OutputStream;
  bc_bytes : list Z;
  bc_offset : Z;
}.

Definition len {A} (l : list A) : Z := Z.of_nat (length l).

(** [bytes[offset..]]. *)
Definition bc_rest (c : BufferedChunk) : list Z := drop (Z.to_nat (bc_offset c)) (bc_bytes c).

Definition bc_snapshot (c : BufferedChunk) : OutputChunk := mkOutputChunk (bc_stream c) (bc_rest c).

(** [copy_within(offset.., 0)] moves the rest to the front, [truncate] keeps its length. *)
Definition bc_into_output (c : BufferedChunk) : OutputChunk :=
  mkOutputChunk (bc_stream c)
    (if bc_offset c =? 0 then bc_bytes c
     else take (Z.to_nat (len (bc_bytes c) - bc_offset c))
            (bc_rest c ++ drop (length (bc_rest c)) (bc_bytes c))).

Record BufferState : Type := mkBufferState {
  bs_queue : list BufferedChunk;
  bs_tail : list BufferedChunk;
  bs_bytes : Z;
  bs_tail_bytes : Z;
  bs_dropped : Z;
  bs_closed : bool * bool;
  bs_errors : list string;
}.

Record Buffer : Type := mkBuffer {
  b_capacity : Z;
  b_tail_capacity : Z;
  b_state : BufferState;
}.

(** The loop [while remove > 0]. A front chunk that keeps bytes was shortened by all of
    [remove], so the loop ends there; an exhausted one is popped and the loop goes on. *)
Fixpoint discard (queue : list BufferedChunk) (remove size dropped : Z) :
    option (list BufferedChunk * Z * Z) :=
  if 0 <? remove then
    match queue with
    | [] => None
    | first :: rest =>
        let count := Z.min remove (len (bc_bytes first) - bc_offset first) in
        let first := mkBufferedChunk (bc_stream first) (bc_bytes first) (bc_offset first + count) in
        if bc_offset first =? len (bc_bytes first)
        then discard rest (remove - count) (size - count) (dropped + count)
        else Some (first :: rest, size - count, dropped + count)
    end
  else Some (queue, size, dropped).

(** [usize::saturating_add] then [saturating_sub] on a 64-bit target. *)
Definition append (queue : list BufferedChunk) (size capacity : Z) (stream : OutputStream)
    (bytes : list Z) : option (list BufferedChunk * Z * Z) :=
  let retain := Z.min (len bytes) capacity in
  let need := u64_saturating_sub (u64_saturating_add size retain) capacity in
  '(queue, size, dropped) ← discard queue need size 0;
  let dropped := dropped + (len bytes - retain) in
  if 0 <? retain then
    Some (queue ++ [mkBufferedChunk stream (drop (Z.to_nat (len bytes - retain)) bytes) 0],
          size + retain, dropped)
  else Some (queue, size, dropped).

Definition push (b : Buffer) (stream : OutputStream) (bytes : list Z) : option Buffer :=
  let s := b_state b in
  '(queue, size, d) ← append (bs_queue s) (bs_bytes s) (b_capacity b) stream bytes;
  let dropped := u64_saturating_add (bs_dropped s) d in
  '(tail, tail_bytes, _) ← append (bs_tail s) (bs_tail_bytes s) (b_tail_capacity b) stream bytes;
  Some (mkBuffer (b_capacity b) (b_tail_capacity b)
    (mkBufferState queue tail size tail_bytes dropped (bs_closed s) (bs_errors s))).

Definition is_stream_closed (closed : bool * bool) (stream : OutputStream) : bool :=
  match stream with Stdout => closed.1 | Stderr => closed.2 end.

Definition set_stream_closed (closed : bool * bool) (stream : OutputStream) : bool * bool :=
  match stream with Stdout => (true, closed.2) | Stderr => (closed.1, true) end.

Definition close (b : Buffer) (stream : OutputStream) (error : option string) : Buffer :=
  let s := b_state b in
  if is_stream_closed (bs_closed s) stream then b
  else mkBuffer (b_capacity b) (b_tail_capacity b)
         (mkBufferState (bs_queue s) (bs_tail s) (bs_bytes s) (bs_tail_bytes s) (bs_dropped s)
            (set_stream_closed (bs_closed s) stream)
            (match error with Some e => bs_errors s ++ [e] | None => bs_errors s end)).

Definition read (b : Buffer) : Buffer * OutputSnapshot :=
  let s := b_state b in
  (mkBuffer (b_capacity b) (b_tail_capacity b)
     (mkBufferState [] (bs_tail s) 0 (bs_tail_bytes s) (bs_dropped s) (bs_closed s) (bs_errors s)),
   mkOutputSnapshot (map bc_into_output (bs_queue s)) (map bc_snapshot (bs_tail s)) (bs_dropped s)
     (bs_closed s).1 (bs_closed s).2 (bs_errors s)).

Definition capture (capacity tail_capacity : Z) : Buffer :=
  mkBuffer capacity tail_capacity (mkBufferState [] [] 0 0 0 (false, false) []).

(** What successive [reader.read] calls return: bytes (none at end of file) or an error. *)
Abbreviation read_result := (result (list Z) string).

(** The task [drain]: [Some (b, true)] when it returned, [Some (b, false)] while it waits for
    a read the sequence does not have. *)
Fixpoint drain (reads : list read_result) (b : Buffer) (stream : OutputStream) : option (Buffer * bool) :=
  match reads with
  | [] => Some (b, false)
  | Ok [] :: _ => Some (close b stream None, true)
  | Ok bytes :: reads => b ← push b stream bytes; drain reads b stream
  | Err error :: _ => Some (close b stream (Some error), true)
  end.

(** What [timeout(100 ms, reader)] gives for one reader task. *)
Inductive reader_end : Type :=
| ReaderReturned
| ReaderFailed (error : string)
| ReaderTimedOut.

Definition finish_reader (b : Buffer) (x : OutputStream * reader_end) : Buffer :=
  match x with
  | (_, ReaderReturned) => b
  | (stream, ReaderFailed error) => close b stream (Some ("output reader failed: " +:+ error))
  | (stream, ReaderTimedOut) =>
      close b stream (Some "pipe remained open after root reap; reader stopped")
  end.

Definition finish_readers (readers : list (OutputStream * reader_end)) (b : Buffer) : Buffer :=
  fold_left finish_reader readers b.

(** ** Reference behaviour *)

Definition last_n {A} (n : Z) (l : list A) : list A := drop (Z.to_nat (len l - n)) l.

(** The bytes a queue still holds, each with its stream. *)
Definition tagged (stream : OutputStream) (bytes : list Z) : list (OutputStream * Z) :=
  map (pair stream) bytes.
Definition content (queue : list BufferedChunk) : list (OutputStream * Z) :=
  flat_map (fun c => tagged (bc_stream c) (bc_rest c)) queue.
Definition chunk_content (chunks : list OutputChunk) : list (OutputStream * Z) :=
  flat_map (fun c => tagged (oc_stream c) (oc_bytes c)) chunks.

Record queue_inv (queue : list BufferedChunk) (size capacity : Z) : Prop := {
  qi_size : size = len (content queue);
  qi_bound : size <= capacity;
  qi_chunks : Forall (fun c => 0 <= bc_offset c < len (bc_bytes c)) queue;
}.

(** The largest capacity a buffer can fill: Rust allocations stay below [isize::MAX]. *)
Definition isize_max : Z := 2 ^ 63 - 1.

Lemma len_app {A} (l1 l2 : list A) : len (l1 ++ l2) = len l1 + len l2.
Proof. unfold len. rewrite length_app. lia. Qed.

Lemma len_nonneg {A} (l : list A) : 0 <= len l.
Proof. unfold len. lia. Qed.

Lemma len_tagged s l : len (tagged s l) = len l.
Proof. unfold len, tagged. by rewrite length_map. Qed.

Lemma len_rest c : 0 <= bc_offset c -> len (bc_rest c) = Z.max 0 (len (bc_bytes c) - bc_offset c).
Proof. intros. unfold len, bc_rest. rewrite length_drop. lia. Qed.

Lemma last_n_all {A} n (l : list A) : len l <= n -> last_n n l = l.
Proof. intros. unfold last_n. by replace (Z.to_nat (len l - n)) with 0%nat by lia. Qed.

Lemma last_n_app {A} n (l1 l2 : list A) :
  0 <= n -> last_n n (last_n n l1 ++ l2) = last_n n (l1 ++ l2).
Proof.
  intros Hn. unfold last_n, len. rewrite !length_app, length_drop.
  destruct (Z.le_gt_cases (Z.of_nat (length l1)) n) as [Hle|Hgt].
  - replace (Z.to_nat (Z.of_nat (length l1) - n)) with 0%nat by lia. rewrite drop_0, Nat.sub_0_r. done.
  - set (k := Z.to_nat (Z.of_nat (length l1) - n)).
    replace (Z.to_nat (Z.of_nat (length l1 + length l2) - n)) with (k + length l2)%nat by lia.
    replace (Z.to_nat (Z.of_nat (length l1 - k + length l2) - n)) with (length l2) by lia.
    rewrite <- drop_drop. f_equal. rewrite drop_app_le by lia. done.
Qed.

Lemma len_last_n {A} n (l : list A) : 0 <= n -> len (last_n n l) = Z.min n (len l).
Proof. intros. unfold last_n, len. rewrite length_drop. lia. Qed.

(** ** The adapter refines the reference *)

Lemma discard_spec queue remove size dropped :
  Forall (fun c => 0 <= bc_offset c < len (bc_bytes c)) queue ->
  0 <= remove <= len (content queue) ->
  exists queue', discard queue remove size dropped = Some (queue', size - remove, dropped + remove) /\
    content queue' = drop (Z.to_nat remove) (content queue) /\
    Forall (fun c => 0 <= bc_offset c < len (bc_bytes c)) queue'.
Proof.
  intros Hq. revert remove size dropped. induction Hq as [|first rest Hf Hrest IH]; intros remove size dropped Hr.
  - unfold len in Hr. simpl in Hr. replace remove with 0 by lia. simpl.
    exists []. split_and!; [|done|constructor]. do 2 f_equal; [f_equal|]; lia.
  - cbn [discard]. destruct (Z.ltb_spec 0 remove) as [Hpos|Hz].
    2:{ replace remove with 0 by lia. exists (first :: rest). split_and!; [|done|by constructor].
        do 2 f_equal; [f_equal|]; lia. }
    set (room := len (bc_bytes first) - bc_offset first).
    assert (Hroom : len (bc_rest first) = room) by (rewrite len_rest; unfold room; lia).
    assert (Hroomn : length (bc_rest first) = Z.to_nat room) by (unfold len in Hroom; lia).
    set (count := Z.min remove room). cbn [bc_offset bc_bytes].
    assert (Hc : len (content (first :: rest)) = room + len (content rest)).
    { simpl. rewrite len_app, len_tagged. lia. }
    destruct (Z.eqb_spec (bc_offset first + count) (len (bc_bytes first))) as [Heq|Hne].
    + assert (Hcr : count = room) by (unfold count, room in *; lia).
      destruct (IH (remove - count) (size - count) (dropped + count)) as (q' & Hd & Hcont & Hq'); [lia|].
      exists q'. rewrite Hd. split_and!; [do 2 f_equal; [f_equal|]; lia| |done].
      rewrite Hcont. simpl. rewrite drop_app_ge by (unfold tagged; rewrite length_map; lia).
      f_equal. unfold tagged. rewrite length_map. lia.
    + assert (Hcr : count = remove) by (unfold count, room in *; lia).
      eexists. split_and!; [rewrite Hcr; reflexivity| |].
      * simpl. unfold bc_rest at 1. cbn [bc_offset bc_bytes bc_stream].
        rewrite drop_app_le by (unfold tagged; rewrite length_map; lia). f_equal.
        unfold tagged. rewrite <- fmap_drop. f_equal. unfold bc_rest.
        rewrite drop_drop. f_equal. lia.
      * constructor; [cbn [bc_offset bc_bytes]; lia|done].
Qed.

Lemma content_app q1 q2 : content (q1 ++ q2) = content q1 ++ content q2.
Proof. apply flat_map_app. Qed.

(** [append] keeps the last [capacity] bytes and reports exactly what it lost. *)
Lemma append_spec queue size capacity stream bytes :
  queue_inv queue size capacity -> 0 <= capacity <= isize_max ->
  exists queue' size' d,
    append queue size capacity stream bytes = Some (queue', size', d) /\
    content queue' = last_n capacity (content queue ++ tagged stream bytes) /\
    queue_inv queue' size' capacity /\
    d = len (content queue) + len bytes - len (content queue').
Proof.
  intros [Hs Hb Hq] Hcap. unfold append.
  pose proof (len_nonneg (content queue)). pose proof (len_nonneg bytes).
  set (retain := Z.min (len bytes) capacity).
  set (need := u64_saturating_sub (u64_saturating_add size retain) capacity).
  assert (Hneed : need = Z.max 0 (size + retain - capacity)).
  { unfold need, u64_saturating_sub, u64_saturating_add, u64_max, isize_max in *. lia. }
  destruct (discard_spec queue need size 0 Hq) as (q1 & Hd & Hc1 & Hq1); [lia|].
  rewrite Hd. simpl.
  assert (Hl1 : len (content q1) = size - need).
  { rewrite Hc1. unfold len. rewrite length_drop. unfold len in *. lia. }
  assert (Hlast : last_n capacity (content queue ++ tagged stream bytes) =
    content q1 ++ tagged stream (drop (Z.to_nat (len bytes - retain)) bytes)).
  { unfold last_n. rewrite len_app, len_tagged.
    destruct (Z.le_gt_cases (len bytes) capacity) as [Hle|Hgt].
    - replace retain with (len bytes) in * by lia.
      replace (Z.to_nat (len bytes - len bytes)) with 0%nat by lia. rewrite drop_0, Hc1.
      rewrite drop_app_le by (unfold len in *; lia). do 2 f_equal. lia.
    - replace retain with capacity in * by lia.
      assert (Hn : need = size) by lia. rewrite Hc1.
      rewrite (drop_ge (content queue)) by (unfold len in *; lia). simpl.
      rewrite drop_app_ge by (unfold len in *; lia). unfold tagged. rewrite <- fmap_drop. f_equal.
      f_equal. unfold len in *. lia. }
  assert (Hld : len (drop (Z.to_nat (len bytes - retain)) bytes) = retain).
  { unfold len. rewrite length_drop. unfold len in *. lia. }
  destruct (Z.ltb_spec 0 retain) as [Hret|Hret].
  - do 3 eexists. split; [reflexivity|].
    assert (Hcont : content (q1 ++ [mkBufferedChunk stream (drop (Z.to_nat (len bytes - retain)) bytes) 0]) =
      last_n capacity (content queue ++ tagged stream bytes)).
    { rewrite content_app, Hlast. f_equal. simpl. rewrite app_nil_r. done. }
    rewrite Hcont, Hlast, len_app, len_tagged, Hld. split_and!; [done| |lia]. split.
    + rewrite Hcont, Hlast, len_app, len_tagged, Hld. lia.
    + lia.
    + apply Forall_app. split; [done|]. constructor; [|constructor]. cbn [bc_offset bc_bytes].
      rewrite Hld. lia.
  - do 3 eexists. split; [reflexivity|].
    assert (Hcont : content q1 = last_n capacity (content queue ++ tagged stream bytes)).
    { rewrite Hlast. replace (drop _ bytes) with (@nil Z); [by rewrite app_nil_r|].
      symmetry. apply nil_length_inv. unfold len at 1 in Hld. lia. }
    split_and!; [done| |lia]. by split; [lia..|].
Qed.

(** *** Runs of one buffer, with what was produced and what the consumer took *)

Inductive buffer_op : Type :=
| BPush (stream : OutputStream) (bytes : list Z)
| BClose (stream : OutputStream) (error : option string)
| BRead.

(** State of a run: the buffer, all bytes pushed, the bytes pushed since the last read, and
    the bytes all reads returned. *)
Record buffer_trace : Type := mkTrace {
  tr_buffer : Buffer;
  tr_produced : list (OutputStream * Z);
  tr_since : list (OutputStream * Z);
  tr_consumed : list (OutputStream * Z);
}.

Definition buffer_step (t : buffer_trace) (op : buffer_op) : option buffer_trace :=
  match op with
  | BPush stream bytes =>
      b ← push (tr_buffer t) stream bytes;
      Some (mkTrace b (tr_produced t ++ tagged stream bytes) (tr_since t ++ tagged stream bytes)
              (tr_consumed t))
  | BClose stream error =>
      Some (mkTrace (close (tr_buffer t) stream error) (tr_produced t) (tr_since t) (tr_consumed t))
  | BRead =>
      let '(b, snap) := read (tr_buffer t) in
      Some (mkTrace b (tr_produced t) [] (tr_consumed t ++ chunk_content (os_chunks snap)))
  end.

Fixpoint buffer_run (t : buffer_trace) (ops : list buffer_op) : option buffer_trace :=
  match ops with
  | [] => Some t
  | op :: ops => t ← buffer_step t op; buffer_run t ops
  end.

Definition trace_new (capacity tail_capacity : Z) : buffer_trace :=
  mkTrace (capture capacity tail_capacity) [] [] [].

Record trace_inv (capacity tail_capacity : Z) (t : buffer_trace) : Prop := {
  ti_capacity : b_capacity (tr_buffer t) = capacity;
  ti_tail_capacity : b_tail_capacity (tr_buffer t) = tail_capacity;
  ti_queue : queue_inv (bs_queue (b_state (tr_buffer t))) (bs_bytes (b_state (tr_buffer t))) capacity;
  ti_tail : queue_inv (bs_tail (b_state (tr_buffer t))) (bs_tail_bytes (b_state (tr_buffer t))) tail_capacity;
  ti_content : content (bs_queue (b_state (tr_buffer t))) = last_n capacity (tr_since t);
  ti_tail_content : content (bs_tail (b_state (tr_buffer t))) = last_n tail_capacity (tr_produced t);
  ti_dropped : bs_dropped (b_state (tr_buffer t)) =
    Z.min u64_max (len (tr_produced t) - len (tr_consumed t) - len (content (bs_queue (b_state (tr_buffer t)))));
}.

Lemma into_output_snapshot c :
  0 <= bc_offset c <= len (bc_bytes c) -> bc_into_output c = bc_snapshot c.
Proof.
  intros Hc. unfold bc_into_output, bc_snapshot. f_equal. destruct (Z.eqb_spec (bc_offset c) 0) as [E|Hne].
  - unfold bc_rest. by rewrite E.
  - assert (Hl : Z.to_nat (len (bc_bytes c) - bc_offset c) = length (bc_rest c)).
    { unfold bc_rest. rewrite length_drop. unfold len. lia. }
    rewrite Hl. apply take_app_length.
Qed.

Lemma chunks_content queue :
  Forall (fun c => 0 <= bc_offset c < len (bc_bytes c)) queue ->
  chunk_content (map bc_into_output queue) = content queue.
Proof.
  induction 1 as [|c q Hc _ IH]; [done|]. cbn [map]. rewrite into_output_snapshot by lia.
  change (tagged (bc_stream c) (bc_rest c) ++ chunk_content (map bc_into_output q) =
    tagged (bc_stream c) (bc_rest c) ++ content q). by rewrite IH.
Qed.

Lemma buffer_step_inv capacity tail_capacity t op :
  0 <= capacity <= isize_max -> 0 <= tail_capacity <= isize_max ->
  trace_inv capacity tail_capacity t ->
  exists t', buffer_step t op = Some t' /\ trace_inv capacity tail_capacity t'.
Proof.
  intros Hcap Htcap [E1 E2 Hq Ht Hc Htc Hd]. destruct op as [stream bytes|stream error|]; simpl.
  - unfold push. rewrite E1, E2.
    destruct (append_spec _ _ _ stream bytes Hq Hcap) as (q' & sz & d & -> & Hc' & Hq' & Hdd). simpl.
    destruct (append_spec _ _ _ stream bytes Ht Htcap) as (tl & tsz & td & -> & Htc' & Ht' & _). simpl.
    eexists. split; [reflexivity|]. split; simpl; try done.
    + rewrite Hc', Hc. apply last_n_app. lia.
    + rewrite Htc', Htc. apply last_n_app. lia.
    + rewrite Hd, Hdd, len_app, len_tagged. unfold u64_saturating_add.
      pose proof (len_nonneg bytes). pose proof (len_nonneg (content q')).
      assert (len (content q') <= len (content (bs_queue (b_state (tr_buffer t)))) + len bytes).
      { rewrite Hc', len_last_n, len_app, len_tagged; lia. }
      lia.
  - eexists. split; [reflexivity|]. unfold close.
    destruct (is_stream_closed _ _); split; simpl; done.
  - eexists. split; [reflexivity|]. split; simpl; try done.
    + split; simpl; [done|lia|constructor].
    + unfold last_n. by rewrite drop_nil.
    + rewrite chunks_content by apply Hq. rewrite len_app, Hd.
      change (len (@nil (OutputStream * Z))) with 0. lia.
Qed.

(** C35. The output buffer is a bounded window on what was written: for every sequence of
    writes, closes and reads it never panics, the queue holds exactly the last [capacity]
    bytes written since the last read, the tail holds exactly the last [tail_capacity] bytes
    ever written whatever was read, reads return what was queued in order, and every byte
    written is consumed, queued or counted as dropped. *)
Theorem buffer_run_spec capacity tail_capacity ops :
  0 <= capacity <= isize_max -> 0 <= tail_capacity <= isize_max ->
  exists t, buffer_run (trace_new capacity tail_capacity) ops = Some t /\
    let s := b_state (tr_buffer t) in
    content (bs_queue s) = last_n capacity (tr_since t) /\
    content (bs_tail s) = last_n tail_capacity (tr_produced t) /\
    bs_bytes s = len (content (bs_queue s)) /\ bs_bytes s <= capacity /\
    bs_tail_bytes s = len (content (bs_tail s)) /\ bs_tail_bytes s <= tail_capacity /\
    chunk_content (os_chunks (read (tr_buffer t)).2) = content (bs_queue s) /\
    (len (tr_produced t) <= u64_max ->
     bs_dropped s + len (tr_consumed t) + len (content (bs_queue s)) = len (tr_produced t)).
Proof.
  intros Hcap Htcap.
  assert (Hrun : forall t0, trace_inv capacity tail_capacity t0 ->
    exists t, buffer_run t0 ops = Some t /\ trace_inv capacity tail_capacity t).
  { induction ops as [|op ops IH]; intros t0 H0; simpl; [eauto|].
    destruct (buffer_step_inv _ _ _ op Hcap Htcap H0) as (t1 & -> & H1). simpl. auto. }
  destruct (Hrun (trace_new capacity tail_capacity)) as (t & Ht & Hinv).
  { split; simpl; try done; try (split; simpl; [done|lia|constructor]);
      unfold last_n; by rewrite drop_nil. }
  exists t. split; [done|]. destruct Hinv as [_ _ [Q1 Q2 Q3] [T1 T2 T3] Hc Htc Hd].
  split_and!; try done.
  - simpl. by apply chunks_content.
  - intros Hp. rewrite Hd. pose proof (len_nonneg (tr_consumed t)).
    pose proof (len_nonneg (content (bs_queue (b_state (tr_buffer t))))). lia.
Qed.

Lemma buffer_run_spec_witness :
  exists t, buffer_run (trace_new 3 5) [BPush Stdout [1; 2]; BRead; BPush Stderr [3; 4]; BPush Stdout [5; 6]] = Some t /\
    content (bs_queue (b_state (tr_buffer t))) = [(Stderr, 4); (Stdout, 5); (Stdout, 6)] /\
    bs_dropped (b_state (tr_buffer t)) = 1.
Proof.
  destruct (buffer_run_spec 3 5 [BPush Stdout [1; 2]; BRead; BPush Stderr [3; 4]; BPush Stdout [5; 6]])
    as (t & Ht & Hc & _); [by vm_compute|by vm_compute|].
  exists t. split; [exact Ht|]. vm_compute in Ht. injection Ht as <-. by vm_compute.
Defined.

(** ** End of capture *)

Lemma close_closes b stream error : is_stream_closed (bs_closed (b_state (close b stream error))) stream = true.
Proof.
  unfold close. destruct (is_stream_closed (bs_closed (b_state b)) stream) eqn:E; [done|]. by destruct stream.
Qed.

Lemma close_keeps b stream error s :
  is_stream_closed (bs_closed (b_state b)) s = true ->
  is_stream_closed (bs_closed (b_state (close b stream error))) s = true.
Proof.
  intros H. unfold close. destruct (is_stream_closed (bs_closed (b_state b)) stream); [done|]. by destruct stream, s.
Qed.

Lemma close_fields b stream error :
  bs_queue (b_state (close b stream error)) = bs_queue (b_state b) /\
  bs_tail (b_state (close b stream error)) = bs_tail (b_state b) /\
  (length (bs_errors (b_state (close b stream error))) <= S (length (bs_errors (b_state b))))%nat.
Proof.
  unfold close. destruct (is_stream_closed (bs_closed (b_state b)) stream); [split_and!; by auto with lia|].
  destruct error; simpl; rewrite ?length_app; simpl; split_and!; (done || lia).
Qed.

Lemma push_closed b stream bytes b' : push b stream bytes = Some b' -> bs_closed (b_state b') = bs_closed (b_state b).
Proof.
  unfold push. destruct (append (bs_queue _) _ _ _ _) as [[[q sz] d]|]; simpl; [|done].
  destruct (append (bs_tail _) _ _ _ _) as [[[tl tsz] td]|]; simpl; [|done]. by intros [= <-].
Qed.

Lemma drain_closes reads b stream b' :
  drain reads b stream = Some (b', true) -> is_stream_closed (bs_closed (b_state b')) stream = true.
Proof.
  revert b. induction reads as [|[[|x bytes]|e] reads IH]; intros b; cbn [drain].
  - by intros [=].
  - intros [= <-]. apply close_closes.
  - destruct (push b stream (x :: bytes)) as [b1|]; simpl; [|done]. apply IH.
  - intros [= <-]. apply close_closes.
Qed.


