(* ===== verification/Observation.v ===== *)
(** * Observation: selecting a process tree from a snapshot

    shepherd-app/src/observation.rs ([select_tree] and the [ProcessObserver]
    methods) and the data of shepherd-domain/src/observation.rs. The platform
    snapshot is an argument. The worklist loop takes fuel; [select_tree] gives
    it one more than the number of processes, which is proved to be enough. *)

From stdpp Require Import base list sorting gmap strings relations.
From S2P Require Import Prelude StdModel Values.

Open Scope Z_scope.

(** ** Data *)

Record ObservedProcessIdentity : Type := mkObservedIdentity {
  oi_os_pid : N;
  oi_start_time : option Z;
}.

#[global] Instance observed_identity_eq_dec : EqDecision ObservedProcessIdentity.
Proof. solve_decision. Defined.

Record ObservedProcess : Type := mkObservedProcess {
  op_identity : ObservedProcessIdentity;
  op_parent : option N;
  op_name : string;
}.

Abbreviation ProcessSnapshot := (list ObservedProcess) (only parsing).

Record ProcessTree : Type := mkProcessTree {
  tree_root : ObservedProcessIdentity;
  tree_processes : list ObservedProcess;
}.

Inductive ObservationError : Type :=
| ObservationUnsupported
| NotVisible (pid : N)
| IdentityChanged (pid : N)
| ObservationBackend (message : string).

(** ** [select_tree] *)

Definition op_pid (p : ObservedProcess) : N := oi_os_pid (op_identity p).

(** [into_iter().map(|p| (pid, p)).collect::<BTreeMap>()]: a later entry wins. *)
Definition by_pid (snapshot : ProcessSnapshot) : gmap N ObservedProcess :=
  fold_left (fun m p => <[op_pid p := p]> m) snapshot ∅.

(** Whether [p]'s link to its reported parent is kept: a parent known to have started after
    its child is stale. *)
Definition link_kept (processes : gmap N ObservedProcess) (parent : N) (p : ObservedProcess) : bool :=
  match processes !! parent with
  | Some pp =>
      match oi_start_time (op_identity pp), oi_start_time (op_identity p) with
      | Some a, Some b => negb (b <? a)
      | _, _ => true
      end
  | None => true
  end.

Definition add_child (processes : gmap N ObservedProcess) (children : gmap N (list N))
    (p : ObservedProcess) : gmap N (list N) :=
  match op_parent p with
  | Some parent =>
      if link_kept processes parent p
      then <[parent := default [] (children !! parent) ++ [op_pid p]]> children
      else children
  | None => children
  end.

Definition children_of (processes : gmap N ObservedProcess) : gmap N (list N) :=
  fold_left (add_child processes) (bt_values processes) ∅.

(** The loop [while let Some(pid) = queue.pop_front()]. *)
Fixpoint select_loop (fuel : nat) (processes : gmap N ObservedProcess) (children : gmap N (list N))
    (queue : list N) (seen : gset N) (selected : list ObservedProcess) :
    option (list ObservedProcess) :=
  match queue with
  | [] => Some selected
  | pid :: queue =>
      match fuel with
      | O => None
      | S fuel =>
          if decide (pid ∈ seen) then select_loop fuel processes children queue seen selected
          else
            select_loop fuel processes children
              (queue ++ default [] (children !! pid)) ({[pid]} ∪ seen)
              (match processes !! pid with Some p => selected ++ [p] | None => selected end)
      end
  end.

Definition select_tree (snapshot : ProcessSnapshot) (pid : N)
    (expected : option ObservedProcessIdentity) : option (result ProcessTree ObservationError) :=
  let processes := by_pid snapshot in
  match processes !! pid with
  | None => Some (Err (NotVisible pid))
  | Some p =>
      let root := op_identity p in
      if match expected with Some e => bool_decide (e <> root) | None => false end
      then Some (Err (IdentityChanged pid))
      else
        selected ← select_loop (S (size processes)) processes (children_of processes) [pid] ∅ [];
        Some (Ok (mkProcessTree root selected))
  end.

(** The observer's methods, over the result of the backend's snapshot. *)
Definition observer_tree (snapshot : result ProcessSnapshot ObservationError) (pid : N) :=
  match snapshot with
  | Err e => Some (Err e)
  | Ok s => select_tree s pid None
  end.

Definition refresh_tree (snapshot : result ProcessSnapshot ObservationError)
    (root : ObservedProcessIdentity) :=
  match snapshot with
  | Err e => Some (Err e)
  | Ok s => select_tree s (oi_os_pid root) (Some root)
  end.

(** ** The tree a snapshot describes *)

(** [c] is a visible process whose kept parent link is [parent]. *)
Definition child_of (processes : gmap N ObservedProcess) (parent c : N) : Prop :=
  exists p, processes !! c = Some p /\ op_parent p = Some parent /\ link_kept processes parent p = true.

Definition descendant (processes : gmap N ObservedProcess) : N -> N -> Prop := rtc (child_of processes).

(** Links as a list of (parent, child). *)
Definition links (processes : gmap N ObservedProcess) : list (N * N) :=
  omap (fun p => parent ← op_parent p;
          if link_kept processes parent p then Some (parent, op_pid p) else None) (bt_values processes).

Lemma by_pid_lookup snapshot pid p : by_pid snapshot !! pid = Some p -> op_pid p = pid /\ p ∈ snapshot.
Proof.
  unfold by_pid. assert (H : forall l (m : gmap N ObservedProcess),
    (forall k q, m !! k = Some q -> op_pid q = k /\ q ∈ snapshot) -> (forall q, q ∈ l -> q ∈ snapshot) ->
    fold_left (fun m p => <[op_pid p := p]> m) l m !! pid = Some p -> op_pid p = pid /\ p ∈ snapshot).
  { induction l as [|q l IH]; intros m Hm Hl; simpl; [apply Hm|]. apply IH.
    - intros k q'. rewrite lookup_insert_Some. intros [[<- <-]|[_ Hk]]; [|eauto].
      split; [done|]. apply Hl. by left.
    - intros q' Hq'. apply Hl. by right. }
  apply H; [by intros k q|done].
Qed.

Lemma children_links processes x :
  default [] (children_of processes !! x) = map snd (filter (fun l => l.1 = x) (links processes)).
Proof.
  unfold children_of, links.
  assert (H : forall l m, default [] (fold_left (add_child processes) l m !! x) =
    default [] (m !! x) ++ map snd (filter (fun l => l.1 = x)
      (omap (fun p => parent ← op_parent p;
          if link_kept processes parent p then Some (parent, op_pid p) else None) l))).
  { induction l as [|p l IH]; intros m; [by rewrite app_nil_r|].
    cbn [fold_left]. rewrite IH, omap_cons_eq. unfold add_child.
    destruct (op_parent p) as [parent|]; simpl; [|done].
    destruct (link_kept processes parent p); [|done]. rewrite filter_cons. simpl.
    destruct (decide (parent = x)) as [->|Hne].
    - rewrite lookup_insert_eq. simpl. by rewrite <- app_assoc.
    - by rewrite lookup_insert_ne. }
  rewrite H. by rewrite lookup_empty.
Qed.

Section Select.
Context (processes : gmap N ObservedProcess).
Context (Hpid : forall k p, processes !! k = Some p -> op_pid p = k).

Lemma elem_of_links parent c : (parent, c) ∈ links processes <-> child_of processes parent c.
Proof using Hpid.
  unfold links, child_of. rewrite list_elem_of_omap. split.
  - intros (p & Hp & Hl). apply elem_of_bt_values in Hp as [k Hk].
    destruct (op_parent p) as [q|] eqn:Hq; simpl in Hl; [|done].
    destruct (link_kept processes q p) eqn:Hl'; simplify_eq/=.
    exists p. by rewrite (Hpid _ _ Hk).
  - intros (p & Hp & Hq & Hl). exists p. rewrite elem_of_bt_values, Hq. simpl. rewrite Hl.
    split; [eauto|]. by rewrite (Hpid _ _ Hp).
Qed.

Lemma elem_of_children parent c :
  c ∈ default [] (children_of processes !! parent) <-> child_of processes parent c.
Proof using Hpid.
  rewrite children_links, list_elem_of_fmap, <- elem_of_links. split.
  - intros ([q c'] & -> & [Hq Hin]%list_elem_of_filter). simpl in *. by subst.
  - intros Hin. exists (parent, c). rewrite list_elem_of_filter. done.
Qed.

(** Links whose parent was not visited yet. *)
Definition open_links (seen : gset N) : nat := length (filter (fun l => l.1 ∉ seen) (links processes)).

Lemma open_links_visit seen x :
  x ∉ seen ->
  open_links seen = (length (default [] (children_of processes !! x)) + open_links ({[x]} ∪ seen))%nat.
Proof using.
  clear Hpid. intros Hx. rewrite children_links, length_map. unfold open_links.
  induction (links processes) as [|[p c] l IH]; [done|]. rewrite !filter_cons. simpl.
  destruct (decide (p = x)) as [->|Hne].
  - rewrite decide_True by done. rewrite decide_False by set_solver. simpl. lia.
  - destruct (decide (p ∉ seen)), (decide (p ∉ {[x]} ∪ seen)); try set_solver; simpl; lia.
Qed.

(** Enough fuel: every step pops a pid, and every link is queued at most once. *)
Lemma select_loop_total fuel queue seen selected :
  (length queue + open_links seen <= fuel)%nat ->
  is_Some (select_loop fuel processes (children_of processes) queue seen selected).
Proof using.
  clear Hpid. revert queue seen selected. induction fuel as [|fuel IH]; intros [|x queue] seen selected Hf;
    cbn [select_loop]; [eauto|simpl in Hf; lia|eauto|]. simpl in Hf.
  destruct (decide (x ∈ seen)) as [Hx|Hx]; apply IH; [lia|].
  rewrite (open_links_visit seen x Hx) in Hf. rewrite length_app. lia.
Qed.

Lemma links_size : (length (links processes) <= size processes)%nat.
Proof using.
  unfold links. etrans; [apply length_omap_le|]. by rewrite length_bt_values.
Qed.

(** The loop's invariant. *)
Record select_inv (root : N) (seen : gset N) (queue : list N) (selected : list ObservedProcess) : Prop := {
  si_start : (seen = ∅ /\ queue = [root] /\ selected = []) \/ root ∈ seen;
  si_reach : forall x, x ∈ seen \/ x ∈ queue ->
    is_Some (processes !! x) /\ descendant processes root x;
  si_closed : forall x c, x ∈ seen -> child_of processes x c -> c ∈ seen \/ c ∈ queue;
  si_parent : forall x, x ∈ queue -> x = root \/ exists y, y ∈ seen /\ child_of processes y x;
  si_nodup : NoDup (map op_pid selected);
  si_selected : forall p, p ∈ selected -> processes !! op_pid p = Some p;
  si_seen : forall k, k ∈ seen <-> k ∈ map op_pid selected;
  si_order : forall i p, selected !! i = Some p ->
    (i = 0%nat /\ op_pid p = root) \/
    exists j q, (j < i)%nat /\ selected !! j = Some q /\ child_of processes (op_pid q) (op_pid p);
}.

Lemma select_visit root seen x queue selected p :
  select_inv root seen (x :: queue) selected -> x ∉ seen -> processes !! x = Some p ->
  select_inv root ({[x]} ∪ seen) (queue ++ default [] (children_of processes !! x)) (selected ++ [p]).
Proof using Hpid.
  intros [Hst Hre Hcl Hpa Hnd Hse Hsn Hor] Hx Hp. pose proof (Hpid _ _ Hp) as Hpx.
  assert (Hreach : is_Some (processes !! x) /\ descendant processes root x) by (apply Hre; right; left).
  split.
  - right. destruct Hst as [(-> & [= -> ->] & ->)|Hr]; set_solver.
  - intros y. rewrite elem_of_union, elem_of_singleton, elem_of_app, elem_of_children.
    intros [[->|Hy]|[Hy|Hy]]; [done|apply Hre; auto|apply Hre; right; by right|].
    split; [destruct Hy as (q & Hq & _); eauto|].
    eapply rtc_r; [apply Hreach|done].
  - intros y c. rewrite elem_of_union, elem_of_singleton. intros [->|Hy] Hc.
    + right. apply elem_of_app. right. by apply elem_of_children.
    + destruct (Hcl y c Hy Hc) as [Hin|Hin]; [left; set_solver|].
      apply elem_of_cons in Hin as [->|Hin]; [left; set_solver|right; apply elem_of_app; by left].
  - intros y [Hy|Hy]%elem_of_app.
    + destruct (Hpa y) as [->|(z & Hz & Hzy)]; [by right|by left|right; exists z; set_solver].
    + right. exists x. split; [set_solver|]. by apply elem_of_children.
  - rewrite map_app. simpl. apply NoDup_app. split_and!; [done| |apply NoDup_singleton].
    intros k Hk ->%list_elem_of_singleton. rewrite Hpx in Hk. by apply Hx, Hsn.
  - intros q [Hq| ->%list_elem_of_singleton]%elem_of_app; [eauto|by rewrite Hpx].
  - intros k. rewrite map_app, elem_of_app, <- Hsn. simpl. rewrite list_elem_of_singleton, Hpx. set_solver.
  - intros i q Hi. apply lookup_app_Some in Hi as [Hi|[Hge Hi]].
    + destruct (Hor i q Hi) as [? |(j & r & Hj & Hr & Hc)]; [by left|right].
      exists j, r. split_and!; [done| |done]. apply lookup_app_Some. by left.
    + apply list_lookup_singleton_Some in Hi as [Hi ->]. rewrite Hpx.
      destruct Hst as [(-> & [= -> ->] & ->)|Hroot]; [left; split; [simpl in *; lia|done]|right].
      destruct (Hpa x) as [->|(y & Hy & Hc)]; [by left|done|].
      apply Hsn, list_elem_of_fmap in Hy as (r & -> & Hr). apply list_elem_of_lookup in Hr as [j Hj].
      pose proof (lookup_lt_Some _ _ _ Hj). exists j, r. split_and!; [lia| |done].
      apply lookup_app_Some. by left.
Qed.

Lemma select_loop_inv root fuel queue seen selected out :
  select_inv root seen queue selected ->
  select_loop fuel processes (children_of processes) queue seen selected = Some out ->
  exists seen', select_inv root seen' [] out.
Proof using Hpid.
  revert queue seen selected. induction fuel as [|fuel IH]; intros [|x queue] seen selected Hi;
    cbn [select_loop]; try (intros [= <-]; by exists seen).
  destruct (decide (x ∈ seen)) as [Hx|Hx].
  - apply IH. destruct Hi as [Hst Hre Hcl Hpa Hnd Hse Hsn Hor]. split; try done.
    + destruct Hst as [(-> & _)|Hr]; [set_solver|by right].
    + intros y [Hy|Hy]; apply Hre; [by left|right; by right].
    + intros y c Hy Hc. destruct (Hcl y c Hy Hc) as [Hin|Hin]; [by left|].
      apply elem_of_cons in Hin as [->|Hin]; auto.
    + intros y Hy. apply Hpa. by right.
  - assert (is_Some (processes !! x)) as [p Hp] by (apply (si_reach _ _ _ _ Hi); right; left).
    rewrite Hp. apply IH. by apply select_visit.
Qed.
End Select.

(** ** Properties *)

(** Tree selection always finishes: the worklist needs at most one more step than there
    are processes in the snapshot, whatever its parent links are (cycles included). *)
Theorem select_tree_total snapshot pid expected : is_Some (select_tree snapshot pid expected).
Proof.
  unfold select_tree. destruct (by_pid snapshot !! pid) as [p|]; [|eauto].
  destruct (match expected with Some e => _ | None => _ end); [eauto|].
  destruct (select_loop_total (by_pid snapshot) (S (size (by_pid snapshot))) [pid] ∅ []) as [sel ->]; [|simpl; eauto].
  pose proof (links_size (by_pid snapshot)). unfold open_links. simpl.
  etrans; [|apply le_n_S; eassumption]. apply le_n_S. apply length_filter.
Qed.

(** C36. A selected tree is exactly the root and its visible descendants: every process of
    the snapshot reachable from the root over kept parent links appears once, nothing else
    does, the root comes first, and every other process comes after one that is its parent.
    A root that is not visible, or whose identity changed, is an error. *)
Theorem select_tree_spec snapshot pid expected :
  let processes := by_pid snapshot in
  match select_tree snapshot pid expected with
  | Some (Ok tree) =>
      (exists p, processes !! pid = Some p /\ op_identity p = tree_root tree) /\
      (expected = None \/ expected = Some (tree_root tree)) /\
      NoDup (map op_pid (tree_processes tree)) /\
      (forall k, k ∈ map op_pid (tree_processes tree) <-> descendant processes pid k) /\
      (forall p, p ∈ tree_processes tree -> processes !! op_pid p = Some p) /\
      (forall i p, tree_processes tree !! i = Some p ->
         (i = 0%nat /\ op_pid p = pid) \/
         exists j q, (j < i)%nat /\ tree_processes tree !! j = Some q /\ child_of processes (op_pid q) (op_pid p))
  | Some (Err e) =>
      (e = NotVisible pid /\ processes !! pid = None) \/
      (e = IdentityChanged pid /\ exists p x, processes !! pid = Some p /\ expected = Some x /\ x <> op_identity p)
  | None => False
  end.
Proof.
  intros processes. destruct (select_tree_total snapshot pid expected) as [r Hr].
  assert (Hpid : forall k p, processes !! k = Some p -> op_pid p = k).
  { intros k p Hk. by apply by_pid_lookup in Hk as [? _]. }
  rewrite Hr. unfold select_tree in Hr. fold processes in Hr.
  destruct (processes !! pid) as [p|] eqn:Hp; [|injection Hr as <-; by left].
  destruct (match expected with Some e => _ | None => _ end) eqn:Hex.
  { injection Hr as <-. right. split; [done|]. destruct expected as [x|]; [|done].
    apply bool_decide_eq_true in Hex. eauto. }
  destruct (select_loop _ _ _ _ _ _) as [sel|] eqn:Hs; simpl in Hr; [|done]. injection Hr as <-.
  apply (select_loop_inv processes Hpid pid) in Hs as [seen Hi].
  2:{ split.
      - by left.
      - intros x [Hx|Hx]; [set_solver|]. apply list_elem_of_singleton in Hx as ->.
        split; [eauto|apply rtc_refl].
      - set_solver.
      - intros x Hx. apply list_elem_of_singleton in Hx. by left.
      - constructor.
      - intros q Hq. by apply not_elem_of_nil in Hq.
      - set_solver.
      - done. }
  destruct Hi as [Hst Hre Hcl Hpa Hnd Hse Hsn Hor]. simpl.
  assert (Hroot : pid ∈ seen) by (by destruct Hst as [(_ & [=] & _)|?]).
  split_and!; [eauto| |done| |done|done].
  - destruct expected as [x|]; [right|by left]. apply bool_decide_eq_false in Hex.
    f_equal. destruct (decide (x = op_identity p)); [done|by destruct Hex].
  - intros k. rewrite <- Hsn. split; [intros Hk; apply Hre; by left|].
    intros Hd. unfold descendant in Hd. clear -Hd Hroot Hcl. revert Hroot.
    induction Hd as [x|x y z Hxy _ IH]; intros Hx; [done|]. apply IH.
    destruct (Hcl x y Hx Hxy) as [? |?%not_elem_of_nil]; done.
Qed.

Example select_tree_example :
  let p pid t parent := mkObservedProcess (mkObservedIdentity pid (Some t)) parent "x" in
  option_map (fun r => match r with Ok t => map op_pid (tree_processes t) | Err _ => [] end)
    (select_tree [p 7%N 5 (Some 2%N); p 2%N 3 (Some 9%N); p 9%N 4 (Some 2%N); p 5%N 1 (Some 7%N)] 2%N None)
  = Some [2%N; 7%N; 9%N].
Proof. vm_compute. reflexivity. Qed.
