(* ===== verification/Usage.v ===== *)
(** * Usage: resource measurements of a selection of processes

    shepherd-app/src/usage.rs ([UsageSnapshot::totals]) and the portable part
    of shepherd-infra/src/usage.rs ([collect]); the native sampler is an
    argument. An [f64] is an IEEE [spec_float] of precision 53. *)

From stdpp Require Import base list gmap strings.
From Stdlib Require Import SpecFloat.
From S2P Require Import Prelude StdModel Values Observation.

Open Scope Z_scope.

(** ** [f64] *)

Definition f64 : Type := spec_float.
Definition f64_of_Z (n : Z) : f64 := binary_normalize 53 1024 n 0 false.
Definition f64_add : f64 -> f64 -> f64 := SFadd 53 1024.
Definition f64_div : f64 -> f64 -> f64 := SFdiv 53 1024.

(** [Duration::as_secs_f64]: seconds plus nanoseconds over 10^9, each converted. *)
Definition as_secs_f64 (d : Duration) : f64 :=
  f64_add (f64_of_Z (d / nanos_per_sec))
    (f64_div (f64_of_Z (d mod nanos_per_sec)) (f64_of_Z nanos_per_sec)).

(** [iter().sum()], left to right. *)
Definition f64_sum (l : list f64) : f64 := fold_left f64_add l (S754_zero false).

(** ** Data *)

Inductive UsageFailure : Type :=
| Unavailable (message : string)
| UsageIdentityChanged
| UsageUnsupported.

Record ProcessUsage : Type := mkProcessUsage {
  pu_identity : ObservedProcessIdentity;
  pu_native_start : Z;
  pu_sampled_at : Z;
  pu_cpu_time : Duration;
  pu_resident_bytes : Z;
  pu_physical_footprint_bytes : option Z;
  pu_peak_physical_footprint_bytes : option Z;
  pu_disk_read_bytes : option Z;
  pu_disk_write_bytes : option Z;
}.

Record UsageEntry : Type := mkUsageEntry {
  ue_identity : ObservedProcessIdentity;
  ue_measurement : result ProcessUsage UsageFailure;
}.

Inductive UsageSelection : Type := SelectTree | SelectProcessGroup.

#[global] Instance usage_selection_eq_dec : EqDecision UsageSelection.
Proof. solve_decision. Defined.

Record UsageTotal (T : Type) : Type := mkUsageTotal {
  ut_value : option T;
  ut_contributors : nat;
}.
Arguments mkUsageTotal {T} _ _.
Arguments ut_value {T} _.
Arguments ut_contributors {T} _.

Record UsageTotals : Type := mkUsageTotals {
  resident_bytes : UsageTotal Z;
  physical_footprint_bytes : UsageTotal Z;
  cpu_cores : UsageTotal f64;
}.

Record UsageSnapshot : Type := mkUsageSnapshot {
  us_selection : UsageSelection;
  us_started_at : Z;
  us_finished_at : Z;
  us_entries : list UsageEntry;
}.

Record TreeUsage : Type := mkTreeUsage { tu_tree : ProcessTree; tu_usage : UsageSnapshot }.

Inductive AccountingSource : Type := LinuxCgroup | WindowsJob.

Record ScopeAccounting : Type := mkScopeAccounting {
  sa_source : AccountingSource;
  sa_sampled_at : Z;
  sa_cpu_time : option Duration;
  sa_memory_bytes : option Z;
  sa_peak_commit_bytes : option Z;
  sa_io_read_bytes : option Z;
  sa_io_write_bytes : option Z;
  sa_member_count : option Z;
}.

Inductive ScopeUsage : Type :=
| Sampled (u : UsageSnapshot)
| Accounting (a : ScopeAccounting).

(** ** [totals] *)

(** [values.iter().try_fold(0, checked_add)]. *)
Fixpoint try_sum (acc : Z) (values : list Z) : option Z :=
  match values with
  | [] => Some acc
  | b :: values => a ← u64_checked_add acc b; try_sum a values
  end.

Definition sum_total (values : list Z) : UsageTotal Z :=
  mkUsageTotal (match values with [] => None | _ => try_sum 0 values end) (length values).

(** The map built from the previous snapshot's measured entries: a later entry replaces an
    earlier one of the same identity. *)
Fixpoint previous_get (entries : list UsageEntry) (id : ObservedProcessIdentity) : option ProcessUsage :=
  match entries with
  | [] => None
  | e :: entries =>
      match previous_get entries id with
      | Some m => Some m
      | None =>
          match ue_measurement e with
          | Ok m => if decide (ue_identity e = id) then Some m else None
          | Err _ => None
          end
      end
  end.

Definition previous_entries (s : UsageSnapshot) (previous : option UsageSnapshot) : list UsageEntry :=
  match previous with
  | Some p => if decide (us_selection p = us_selection s) then us_entries p else []
  | None => []
  end.

(** The rate pushed for one measured entry: the previous measurement must be of the same
    native process, strictly older and with no more CPU time. *)
Definition cpu_rate (old : option ProcessUsage) (now : ProcessUsage) : option f64 :=
  old ← old;
  if pu_native_start old =? pu_native_start now then
    if pu_sampled_at old <=? pu_sampled_at now then
      work ← duration_checked_sub (pu_cpu_time now) (pu_cpu_time old);
      let elapsed := pu_sampled_at now - pu_sampled_at old in
      if elapsed =? 0 then None else Some (f64_div (as_secs_f64 work) (as_secs_f64 elapsed))
    else None
  else None.

Record totals_state : Type := mkTotalsState {
  ts_seen : gset N;
  ts_rss : list Z;
  ts_footprint : list Z;
  ts_cpu : list f64;
}.

Definition option_list {A} (o : option A) : list A := match o with Some x => [x] | None => [] end.

(** One iteration of the loop over the entries. *)
Definition totals_step (previous : list UsageEntry) (t : totals_state) (entry : UsageEntry) : totals_state :=
  let pid := oi_os_pid (ue_identity entry) in
  if decide (pid ∈ ts_seen t) then t
  else
    let seen := {[pid]} ∪ ts_seen t in
    match ue_measurement entry with
    | Err _ => mkTotalsState seen (ts_rss t) (ts_footprint t) (ts_cpu t)
    | Ok now =>
        mkTotalsState seen (ts_rss t ++ [pu_resident_bytes now])
          (ts_footprint t ++ option_list (pu_physical_footprint_bytes now))
          (ts_cpu t ++ option_list (cpu_rate (previous_get previous (ue_identity entry)) now))
    end.

Definition totals (s : UsageSnapshot) (previous : option UsageSnapshot) : UsageTotals :=
  let t := fold_left (totals_step (previous_entries s previous)) (us_entries s)
             (mkTotalsState ∅ [] [] []) in
  mkUsageTotals (sum_total (ts_rss t)) (sum_total (ts_footprint t))
    (mkUsageTotal (match ts_cpu t with [] => None | _ => Some (f64_sum (ts_cpu t)) end)
       (length (ts_cpu t))).

(** ** [collect] *)

Section Collect.
Context (sample : ObservedProcessIdentity -> result ProcessUsage UsageFailure).

(** [filter(|m| seen.insert(m.os_pid))]. *)
Fixpoint dedup_pids (seen : gset N) (members : list ObservedProcessIdentity) :
    list ObservedProcessIdentity :=
  match members with
  | [] => []
  | m :: members =>
      if decide (oi_os_pid m ∈ seen) then dedup_pids seen members
      else m :: dedup_pids ({[oi_os_pid m]} ∪ seen) members
  end.

Definition collect (members : list ObservedProcessIdentity) (selection : UsageSelection)
    (started_at finished_at : Z) : UsageSnapshot :=
  mkUsageSnapshot selection started_at finished_at
    (map (fun identity => mkUsageEntry identity (sample identity)) (dedup_pids ∅ members)).
End Collect.

(** ** Reference: the first entry of every pid, measured *)

Fixpoint first_entries (seen : gset N) (entries : list UsageEntry) : list UsageEntry :=
  match entries with
  | [] => []
  | e :: entries =>
      let pid := oi_os_pid (ue_identity e) in
      if decide (pid ∈ seen) then first_entries seen entries
      else e :: first_entries ({[pid]} ∪ seen) entries
  end.

Definition measured (entries : list UsageEntry) : list (ObservedProcessIdentity * ProcessUsage) :=
  omap (fun e => m ← result_ok (ue_measurement e); Some (ue_identity e, m)) entries.

Lemma totals_fold previous entries t :
  let t' := fold_left (totals_step previous) entries t in
  let fresh := measured (first_entries (ts_seen t) entries) in
  ts_rss t' = ts_rss t ++ map (fun x => pu_resident_bytes x.2) fresh /\
  ts_footprint t' = ts_footprint t ++ omap (fun x => pu_physical_footprint_bytes x.2) fresh /\
  ts_cpu t' = ts_cpu t ++ omap (fun x => cpu_rate (previous_get previous x.1) x.2) fresh.
Proof.
  revert t. induction entries as [|e entries IH]; intros t; cbn [fold_left first_entries].
  { simpl. by rewrite !app_nil_r. }
  unfold totals_step at 2 4 6. destruct (decide _) as [Hin|Hin]; [apply IH|].
  unfold measured. rewrite omap_cons_eq.
  destruct (ue_measurement e) as [now|err]; cbn [result_ok mbind option_bind].
  - destruct (IH (mkTotalsState ({[oi_os_pid (ue_identity e)]} ∪ ts_seen t)
      (ts_rss t ++ [pu_resident_bytes now])
      (ts_footprint t ++ option_list (pu_physical_footprint_bytes now))
      (ts_cpu t ++ option_list (cpu_rate (previous_get previous (ue_identity e)) now)))) as (E1 & E2 & E3).
    cbn [ts_rss ts_footprint ts_cpu ts_seen] in *. rewrite E1, E2, E3, <- !app_assoc, !omap_cons_eq.
    cbn [map fst snd]. split_and!; [done|..].
    + by destruct (pu_physical_footprint_bytes now).
    + by destruct (cpu_rate _ now).
  - apply IH.
Qed.

Fixpoint sum_Z (l : list Z) : Z := match l with [] => 0 | x :: l => x + sum_Z l end.

Lemma try_sum_spec acc values :
  Forall (fun v => 0 <= v) values -> 0 <= acc <= u64_max ->
  try_sum acc values =
    if decide (acc + sum_Z values <= u64_max) then Some (acc + sum_Z values) else None.
Proof.
  intros Hv. revert acc. induction Hv as [|v values Hv Hvs IH]; intros acc Hacc; simpl.
  - rewrite Z.add_0_r, decide_True by lia. done.
  - assert (Hs : 0 <= sum_Z values) by (clear -Hvs; induction Hvs; simpl; lia).
    unfold u64_checked_add. destruct (decide (acc + v <= u64_max)) as [Hle|Hgt]; simpl.
    + rewrite IH by lia. by rewrite Z.add_assoc.
    + rewrite decide_False by lia. done.
Qed.

Lemma sum_total_spec values :
  Forall (fun v => 0 <= v) values ->
  ut_contributors (sum_total values) = length values /\
  ut_value (sum_total values) =
    if decide (values <> [] /\ sum_Z values <= u64_max) then Some (sum_Z values) else None.
Proof.
  intros Hv. split; [done|]. unfold sum_total. destruct values as [|v values]; simpl ut_value.
  - by rewrite decide_False by naive_solver.
  - pose proof (try_sum_spec 0 (v :: values) Hv) as H. simpl in H. rewrite Z.add_0_l in H.
    simpl. rewrite H by (unfold u64_max; lia).
    destruct (decide (v + sum_Z values <= u64_max)); [by rewrite decide_True|rewrite decide_False; naive_solver].
Qed.

(** Usage totals count every process once: over any entry list, memory totals are the sum
    over the first entry of each pid that was measured, with the number of contributors, and
    the value is absent exactly when nobody contributed or the sum leaves [u64]; a failed
    measurement contributes nothing. *)
Theorem totals_count_once s previous :
  let fresh := measured (first_entries ∅ (us_entries s)) in
  let rss := map (fun x => pu_resident_bytes x.2) fresh in
  let footprint := omap (fun x => pu_physical_footprint_bytes x.2) fresh in
  Forall (fun v => 0 <= v) rss -> Forall (fun v => 0 <= v) footprint ->
  let t := totals s previous in
  ut_contributors (resident_bytes t) = length rss /\
  (ut_value (resident_bytes t) =
     if decide (rss <> [] /\ sum_Z rss <= u64_max) then Some (sum_Z rss) else None) /\
  ut_contributors (physical_footprint_bytes t) = length footprint /\
  (ut_value (physical_footprint_bytes t) =
     if decide (footprint <> [] /\ sum_Z footprint <= u64_max) then Some (sum_Z footprint) else None).
Proof.
  intros fresh rss footprint Hr Hf t.
  destruct (totals_fold (previous_entries s previous) (us_entries s) (mkTotalsState ∅ [] [] [])) as (E1 & E2 & _).
  simpl in E1, E2. unfold t, totals. cbn [resident_bytes physical_footprint_bytes].
  rewrite E1, E2. fold fresh. fold rss. fold footprint.
  destruct (sum_total_spec rss Hr), (sum_total_spec footprint Hf). done.
Qed.

Lemma totals_count_once_witness :
  let m id rss := mkProcessUsage id 1 0 0 rss (Some 4) None None None in
  let i pid := mkObservedIdentity pid None in
  let s := mkUsageSnapshot SelectTree 0 0
    [mkUsageEntry (i 5%N) (Ok (m (i 5%N) 10)); mkUsageEntry (i 6%N) (Err UsageUnsupported);
     mkUsageEntry (i 5%N) (Ok (m (i 5%N) 10)); mkUsageEntry (i 7%N) (Ok (m (i 7%N) 3))] in
  ut_contributors (resident_bytes (totals s None)) = 2%nat /\
  ut_value (resident_bytes (totals s None)) = Some 13.
Proof.
  intros m i s. destruct (totals_count_once s None) as (H1 & H2 & _);
    [vm_compute; repeat constructor; discriminate..|]. split; [exact H1|]. rewrite H2. vm_compute. reflexivity.
Defined.

(** A measurement has a predecessor to be compared with. *)
Definition comparable (previous : list UsageEntry) (x : ObservedProcessIdentity * ProcessUsage) : bool :=
  match previous_get previous x.1 with
  | Some old =>
      bool_decide (pu_native_start old = pu_native_start x.2 /\
        pu_sampled_at old < pu_sampled_at x.2 /\ pu_cpu_time old <= pu_cpu_time x.2)
  | None => false
  end.

Lemma cpu_rate_comparable previous x :
  is_Some (cpu_rate (previous_get previous x.1) x.2) <-> comparable previous x = true.
Proof.
  unfold comparable, cpu_rate. destruct (previous_get previous x.1) as [old|]; simpl; [|by split; [intros []|]].
  rewrite bool_decide_eq_true. unfold duration_checked_sub.
  destruct (Z.eqb_spec (pu_native_start old) (pu_native_start x.2)) as [Hn|Hn];
    [|split; [by intros []|by intros (? & _)]].
  destruct (Z.leb_spec (pu_sampled_at old) (pu_sampled_at x.2)) as [Ht|Ht];
    [|split; [by intros []|intros (_ & ? & _); lia]].
  destruct (decide (pu_cpu_time old <= pu_cpu_time x.2)) as [Hc|Hc]; simpl;
    [|split; [by intros []|by intros (_ & _ & ?)]].
  destruct (Z.eqb_spec (pu_sampled_at x.2 - pu_sampled_at old) 0) as [He|He].
  - split; [by intros []|intros (_ & ? & _); lia].
  - split; [intros _; split_and!; (done || lia)|eauto].
Qed.

(** A CPU rate compares one native process with its own earlier self: the contributors are
    exactly the members measured before under the same identity and native start token,
    strictly earlier and with no more CPU time, in a snapshot selected the same way; without
    such a predecessor there is no rate (never a zero), and no contributor means no value. *)
Theorem totals_cpu_contributors s previous :
  let fresh := measured (first_entries ∅ (us_entries s)) in
  let t := cpu_cores (totals s previous) in
  ut_contributors t = count_if (comparable (previous_entries s previous)) fresh /\
  (ut_value t = None <-> ut_contributors t = 0%nat) /\
  (match previous with Some p => us_selection p <> us_selection s | None => True end ->
   ut_contributors t = 0%nat).
Proof.
  intros fresh t.
  destruct (totals_fold (previous_entries s previous) (us_entries s) (mkTotalsState ∅ [] [] [])) as (_ & _ & E).
  simpl in E. assert (Ht : t = mkUsageTotal (match omap (fun x => cpu_rate (previous_get (previous_entries s previous) x.1) x.2) fresh
      with [] => None | l => Some (f64_sum l) end)
      (length (omap (fun x => cpu_rate (previous_get (previous_entries s previous) x.1) x.2) fresh))).
  { unfold t, totals. cbn [cpu_cores]. rewrite E. by destruct (omap _ _). }
  assert (Hl : ut_contributors t = count_if (comparable (previous_entries s previous)) fresh).
  { rewrite Ht. cbn [ut_contributors]. clear. induction fresh as [|x l IH]; [done|].
    rewrite omap_cons_eq. simpl. pose proof (cpu_rate_comparable (previous_entries s previous) x) as Hc.
    destruct (cpu_rate _ x.2), (comparable _ x); simpl; rewrite ?IH; try lia; naive_solver. }
  split; [done|]. split.
  - rewrite Ht. cbn [ut_value ut_contributors]. by destruct (omap _ _).
  - intros Hp. rewrite Hl. assert (previous_entries s previous = []) as ->.
    { destruct previous as [p|]; [|done]. simpl. by rewrite decide_False. }
    apply count_if_0. done.
Qed.

Lemma totals_cpu_contributors_witness :
  let i := mkObservedIdentity 5%N None in
  let at_time t cpu := mkUsageSnapshot SelectTree t t
    [mkUsageEntry i (Ok (mkProcessUsage i 1 t cpu 0 None None None None))] in
  let before := mkUsageSnapshot SelectProcessGroup 0 0 (us_entries (at_time 0 0)) in
  ut_contributors (cpu_cores (totals (at_time 2000000000 500000000) (Some (at_time 0 0)))) = 1%nat /\
  ut_contributors (cpu_cores (totals (at_time 2000000000 500000000) (Some before))) = 0%nat.
Proof.
  intros i at_time before. split.
  - rewrite (proj1 (totals_cpu_contributors (at_time 2000000000 500000000) (Some (at_time 0 0)))).
    vm_compute. reflexivity.
  - apply (totals_cpu_contributors (at_time 2000000000 500000000) (Some before)). discriminate.
Defined.

(** [collect] measures each pid once, in the order the members were given. *)
Lemma dedup_pids_spec seen members :
  NoDup (map oi_os_pid (dedup_pids seen members)) /\
  (forall pid, pid ∈ map oi_os_pid (dedup_pids seen members) <->
     pid ∈ map oi_os_pid members /\ pid ∉ seen) /\
  sublist (dedup_pids seen members) members.
Proof.
  revert seen. induction members as [|m members IH]; intros seen; simpl.
  { split_and!; [constructor| |constructor]. intros pid. rewrite elem_of_nil. naive_solver. }
  destruct (decide (oi_os_pid m ∈ seen)) as [Hin|Hin].
  - destruct (IH seen) as (H1 & H2 & H3). split_and!; [done| |by constructor].
    intros pid. rewrite elem_of_cons, H2. split; [naive_solver|].
    intros [[->|Hp] Hn]; naive_solver.
  - destruct (IH ({[oi_os_pid m]} ∪ seen)) as (H1 & H2 & H3). simpl. split_and!.
    + constructor; [|done]. rewrite H2. set_solver.
    + intros pid. rewrite !elem_of_cons, H2, not_elem_of_union, not_elem_of_singleton.
      destruct (decide (pid = oi_os_pid m)) as [->|Hne]; naive_solver.
    + by constructor.
Qed.

Lemma collect_once sample members selection t1 t2 :
  let s := collect sample members selection t1 t2 in
  NoDup (map (fun e => oi_os_pid (ue_identity e)) (us_entries s)) /\
  (forall e, e ∈ us_entries s -> ue_identity e ∈ members /\ ue_measurement e = sample (ue_identity e)).
Proof.
  destruct (dedup_pids_spec ∅ members) as (H1 & _ & H3). simpl. split.
  - by rewrite map_map.
  - intros e (i & -> & Hi)%list_elem_of_fmap. split; [|done].
    clear -H3 Hi. induction H3; set_solver.
Qed.
