(* ===== verification/Conc.v ===== *)
(** * Conc: asynchronous programs over shared state

    The async functions of the supervisor are values of [Prog]: a step is one
    critical section on the shared state ([Act]), a synchronous call of a port
    ([Call]), a suspension until an event ([Wait]: the state allows a step, a port
    answers, or the first of two, as [tokio::select!] does), or the start of a task
    ([Fork]). A suspension says what dropping the future there does to the state:
    the destructors of the guards it holds. Tasks are named, so that a task that
    loops restarts itself.

    [step] is the interleaving semantics of a pool of such programs: the
    environment adds calls and drops suspended programs at any time. [wp] is a
    rely-guarantee logic for one program among arbitrary others, with its adequacy
    theorem; [ord] is a logic for the order of the calls one program makes;
    [exec] is an executable scheduler for concrete runs. *)

From stdpp Require Import base list strings relations.
From S2P Require Import Prelude StdModel.

Section Lang.
Context {S : Type} {Q : Type -> Type} {T : Type}.

(** What a suspended program waits for, and the value it resumes with. *)
Inductive Event : Type -> Type :=
| Ready {X} (f : S -> option (S * X)) : Event X
| Answer {X} (q : Q X) : Event X
| Either {X Y} (e1 : Event X) (e2 : Event Y) : Event (X + Y)
| Biased {X Y} (f : S -> option (S * X)) (e : Event Y) : Event (X + Y).

Inductive Prog (A : Type) : Type :=
| Ret (a : A)
| Panic (message : string)
| Act (X : Type) (f : S -> S * X) (k : X -> Prog A)
| Call (X : Type) (q : Q X) (k : X -> Prog A)
| Wait (X : Type) (e : Event X) (drop : S -> S) (k : X -> Prog A)
| Fork (t : T) (k : Prog A).
#[global] Arguments Ret {A} a.
#[global] Arguments Panic {A} message.
#[global] Arguments Act {A X} f k.
#[global] Arguments Call {A X} q k.
#[global] Arguments Wait {A X} e drop k.
#[global] Arguments Fork {A} t k.

Fixpoint bind {A B} (p : Prog A) (g : A -> Prog B) : Prog B :=
  match p with
  | Ret a => g a
  | Panic m => Panic m
  | Act f k => Act f (fun x => bind (k x) g)
  | Call q k => Call q (fun x => bind (k x) g)
  | Wait e d k => Wait e d (fun x => bind (k x) g)
  | Fork t k => Fork t (bind k g)
  end.

Definition act {X} (f : S -> S * X) : Prog X := Act f Ret.
Definition call {X} (q : Q X) : Prog X := Call q Ret.
Definition await {X} (f : S -> option (S * X)) : Prog X := Wait (Ready f) id Ret.
Definition ask {X} (q : Q X) : Prog X := Wait (Answer q) id Ret.
Definition select2 {X Y} (e1 : Event X) (e2 : Event Y) : Prog (X + Y) := Wait (Either e1 e2) id Ret.
Definition fork (t : T) : Prog unit := Fork t (Ret tt).
(** Read the state without changing it; change it. *)
Definition reads {X} (f : S -> X) : Prog X := act (fun s => (s, f s)).
Definition modify (f : S -> S) : Prog unit := act (fun s => (f s, tt)).

(** A value with a destructor [d] is alive while [p] runs: [d] runs when [p] returns, when
    it panics, and when it is dropped (after the destructors of what [p] itself holds). *)
Fixpoint guarded {A} (d : S -> S) (p : Prog A) : Prog A :=
  match p with
  | Ret a => Act (fun s => (d s, a)) Ret
  | Panic m => Act (fun s => (d s, tt)) (fun _ => Panic m)
  | Act f k => Act f (fun x => guarded d (k x))
  | Call q k => Call q (fun x => guarded d (k x))
  | Wait e dr k => Wait e (fun s => d (dr s)) (fun x => guarded d (k x))
  | Fork t k => Fork t (guarded d k)
  end.

(** Destructor code that acts only when the program does not get to its end: [d] runs when
    [p] panics or is dropped. *)
Fixpoint cancel_with {A} (d : S -> S) (p : Prog A) : Prog A :=
  match p with
  | Ret a => Ret a
  | Panic m => Act (fun s => (d s, tt)) (fun _ => Panic m)
  | Act f k => Act f (fun x => cancel_with d (k x))
  | Call q k => Call q (fun x => cancel_with d (k x))
  | Wait e dr k => Wait e (fun s => d (dr s)) (fun x => cancel_with d (k x))
  | Fork t k => Fork t (cancel_with d k)
  end.

(** [catch_unwind], and what a [JoinHandle] reports of a task that panicked. *)
Fixpoint catch {A} (p : Prog A) : Prog (result A string) :=
  match p with
  | Ret a => Ret (Ok a)
  | Panic m => Ret (Err m)
  | Act f k => Act f (fun x => catch (k x))
  | Call q k => Call q (fun x => catch (k x))
  | Wait e d k => Wait e d (fun x => catch (k x))
  | Fork t k => Fork t (catch k)
  end.

(** [tokio::time::timeout]: at every suspension of [p] the timer may win; [p] is dropped then. *)
Fixpoint timeout {A Y} (q : Q Y) (p : Prog A) : Prog (option A) :=
  match p with
  | Ret a => Ret (Some a)
  | Panic m => Panic m
  | Act f k => Act f (fun x => timeout q (k x))
  | Call c k => Call c (fun x => timeout q (k x))
  | Wait e d k =>
      Wait (Either e (Answer q)) d
        (fun r => match r with inl x => timeout q (k x) | inr _ => Act (fun s => (d s, None)) Ret end)
  | Fork t k => Fork t (timeout q k)
  end.

(** The suspensions of [select! { biased; x = f => done x, r = p => r }]: whenever [p] is
    suspended and [f] is ready, [f] is taken. [done] either ends the select, dropping [p], or
    goes on with what is left of [p] alone. *)
Fixpoint select_suspended {A X} (f : S -> option (S * X)) (done : X -> option A) (p : Prog A) : Prog A :=
  match p with
  | Ret a => Ret a
  | Panic m => Panic m
  | Act g k => Act g (fun x => select_suspended f done (k x))
  | Call q k => Call q (fun x => select_suspended f done (k x))
  | Wait e d k =>
      Wait (Biased f e) d
        (fun r => match r with
                  | inl x =>
                      match done x with
                      | Some a => Act (fun s => (d s, a)) Ret
                      | None => Wait e d k
                      end
                  | inr y => select_suspended f done (k y)
                  end)
  | Fork t k => Fork t (select_suspended f done k)
  end.

(** The whole select: [f] is polled before [p] starts. *)
Definition select_biased {A X} (f : S -> option (S * X)) (done : X -> option A) (p : Prog A) : Prog A :=
  Act (fun s => match f s with Some (s', x) => (s', Some x) | None => (s, None) end)
    (fun r => match r with
              | Some x => match done x with Some a => Ret a | None => p end
              | None => select_suspended f done p
              end).

(** The suspensions of [select! { a = p => .., y = e => .. }]: at any of them [e] may win, which
    drops [p]. *)
Fixpoint race_suspended {A Y} (e : Event Y) (p : Prog A) : Prog (A + Y) :=
  match p with
  | Ret a => Ret (inl a)
  | Panic m => Panic m
  | Act g k => Act g (fun x => race_suspended e (k x))
  | Call q k => Call q (fun x => race_suspended e (k x))
  | Wait e' d k =>
      Wait (Either e' e) d
        (fun r => match r with
                  | inl x => race_suspended e (k x)
                  | inr y => Act (fun s => (d s, inr y)) Ret
                  end)
  | Fork t k => Fork t (race_suspended e k)
  end.

(** The whole select, whose branches are polled in any order: [e] may win before [p] starts. *)
Definition race {A Y} (e : Event Y) (p : Prog A) : Prog (A + Y) :=
  Wait (Either e (Ready (fun s => Some (s, tt)))) id
    (fun r => match r with inl y => Ret (inr y) | inr _ => race_suspended e p end).

(** [for x in l { g(x).await }], and the same loop left early by [Err]. *)
Fixpoint for_each {A} (l : list A) (g : A -> Prog unit) : Prog unit :=
  match l with
  | [] => Ret tt
  | x :: l => bind (g x) (fun _ => for_each l g)
  end.

(** [v.iter().map(g).collect()] for an async [g], in order. *)
Fixpoint map_each {A B} (l : list A) (g : A -> Prog B) : Prog (list B) :=
  match l with
  | [] => Ret []
  | x :: l => bind (g x) (fun y => bind (map_each l g) (fun ys => Ret (y :: ys)))
  end.

(** ** Semantics *)

Section Semantics.
(** What an answer of a port leaves in the state (its history). *)
Context (answer : forall X, Q X -> X -> S -> S).
(** The program of each task. *)
Context (body : T -> Prog unit).

Fixpoint fires {X} (e : Event X) (s s' : S) : X -> Prop :=
  match e in Event X return X -> Prop with
  | Ready f => fun x => f s = Some (s', x)
  | Answer q => fun x => s' = answer _ q x s
  | Either e1 e2 => fun r => match r with inl x => fires e1 s s' x | inr y => fires e2 s s' y end
  | Biased f e =>
      fun r => match r with
               | inl x => f s = Some (s', x)
               | inr y => f s = None /\ fires e s s' y
               end
  end.

(** One step of one program. *)
Inductive tstep {A} (s : S) : Prog A -> S -> Prog A -> list T -> Prop :=
| ts_act X (f : S -> S * X) k : tstep s (Act f k) (f s).1 (k (f s).2) []
| ts_call X (q : Q X) k x : tstep s (Call q k) (answer _ q x s) (k x) []
| ts_wait X (e : Event X) d k s' x : fires e s s' x -> tstep s (Wait e d k) s' (k x) []
| ts_fork t k : tstep s (Fork t k) s k [t].

Definition config : Type := S * list (Prog unit).

(** A pool step: a program moves (the tasks it starts join the pool), the environment calls
    an operation of [api], or it drops a suspended program (a caller cancels, a task is
    aborted, the runtime shuts down). *)
Inductive step (api : Prog unit -> Prop) : config -> config -> Prop :=
| step_thread s l1 p l2 s' p' ts :
    tstep s p s' p' ts -> step api (s, l1 ++ p :: l2) (s', l1 ++ p' :: l2 ++ map body ts)
| step_call s l p : api p -> step api (s, l) (s, l ++ [p])
| step_drop s l1 X (e : Event X) d k l2 :
    step api (s, l1 ++ Wait e d k :: l2) (d s, l1 ++ l2).

(** What a step does, by the program's form. *)
Lemma tstep_cases {A} s (p : Prog A) s' p' ts :
  tstep s p s' p' ts ->
  match p with
  | Ret _ | Panic _ => False
  | Act f k => s' = (f s).1 /\ p' = k (f s).2
  | Call q k => exists x, s' = answer _ q x s /\ p' = k x
  | Wait e d k => exists x, fires e s s' x /\ p' = k x
  | Fork t k => s' = s /\ p' = k
  end.
Proof. destruct 1; eauto. Qed.

(** The programs that a program becomes, run among any others. *)
Definition becomes {A} (p q : Prog A) : Prop := rtc (fun p p' => exists s s' ts, tstep s p s' p' ts) p q.

(** A destructor guarded by [cancel_with] runs last, wherever the program is dropped. *)
Lemma cancel_with_dropped {A} d (p : Prog A) X (e : Event X) dr k :
  becomes (cancel_with d p) (Wait e dr k) -> exists dr0, dr = (fun s => d (dr0 s)).
Proof.
  assert (Hinv : forall q q' : Prog A, becomes q q' -> ((exists p, q = cancel_with d p) \/ exists m, q = Panic m) ->
    (exists p, q' = cancel_with d p) \/ exists m, q' = Panic m).
  { intros q q' H. induction H as [|q1 q2 q3 (s & s' & ts & Hst) _ IH]; [done|].
    intros Hq. apply IH. clear IH. apply tstep_cases in Hst. destruct Hq as [[r ->]|[m ->]]; [|done].
    destruct r as [a|m|Y f g|Y c g|Y e' d' g|t g]; cbn [cancel_with] in Hst; try done.
    - destruct Hst as [_ ->]. right. eauto.
    - destruct Hst as [_ ->]. left. eauto.
    - destruct Hst as (x & _ & ->). left. eauto.
    - destruct Hst as (x & _ & ->). left. eauto.
    - destruct Hst as [_ ->]. left. eauto. }
  intros H. destruct (Hinv _ _ H) as [[r E]|[m E]]; [left; eauto| |done].
  destruct r as [a|m|Y f g|Y c g|Y e' d' g|t g]; cbn [cancel_with] in E; try done.
  apply (f_equal (fun p => match p with Wait _ dr _ => Some dr | _ => None end)) in E. injection E as E.
  exists d'. exact E.
Qed.

(** ** A program that runs alone *)

(** Every way the program can end, run alone from [s], satisfies [post]. *)
Fixpoint alone {A} (p : Prog A) (post : A -> S -> Prop) (s : S) : Prop :=
  match p with
  | Ret a => post a s
  | Panic _ => True
  | Act f k => alone (k (f s).2) post (f s).1
  | Call q k => forall x, alone (k x) post (answer _ q x s)
  | Wait e _ k => forall s' x, fires e s s' x -> alone (k x) post s'
  | Fork _ k => alone k post s
  end.

(** A run of one program: its steps, without those of others. *)
Inductive runs {A} : S -> Prog A -> S -> A -> Prop :=
| runs_ret s a : runs s (Ret a) s a
| runs_step s p s1 p1 ts s2 a : tstep s p s1 p1 ts -> runs s1 p1 s2 a -> runs s p s2 a.

Lemma alone_runs {A} (p : Prog A) post s s' a : alone p post s -> runs s p s' a -> post a s'.
Proof.
  intros Hp Hr. induction Hr as [s a|s p s1 p1 ts s2 a Ht _ IH]; [done|]. apply IH. clear IH.
  destruct Ht; cbn [alone] in Hp; auto.
Qed.

Lemma alone_mono {A} (p : Prog A) (post1 post2 : A -> S -> Prop) s :
  (forall a s, post1 a s -> post2 a s) -> alone p post1 s -> alone p post2 s.
Proof. intros H. revert s. induction p; cbn [alone]; intros s' Hp; eauto. Qed.

Lemma alone_bind {A B} (p : Prog A) (g : A -> Prog B) post s :
  alone p (fun a s => alone (g a) post s) s -> alone (bind p g) post s.
Proof. revert s. induction p; cbn [alone bind]; intros s' Hp; eauto. Qed.

(** ** Rely-guarantee logic *)

Section Logic.
Context (I : S -> Prop) (R : S -> S -> Prop).
(** What a task may assume when it starts, and which panics are accepted, once and for all. *)
Context (task_pre : T -> S -> Prop) (allowed : string -> S -> Prop).

(** From a state later than [s0], the program keeps the invariant [I], moves only along [R]
    (also when it is dropped), starts tasks when they may start, panics only as allowed, and
    ends in [post]. *)
Fixpoint wp {A} (p : Prog A) (post : A -> S -> Prop) (s0 : S) : Prop :=
  forall s, R s0 s -> I s ->
  match p with
  | Ret a => post a s
  | Panic m => allowed m s
  | Act f k => I (f s).1 /\ R s (f s).1 /\ wp (k (f s).2) post (f s).1
  | Call q k => forall x, I (answer _ q x s) /\ R s (answer _ q x s) /\ wp (k x) post (answer _ q x s)
  | Wait e d k =>
      (I (d s) /\ R s (d s)) /\
      forall s' x, fires e s s' x -> I s' /\ R s s' /\ wp (k x) post s'
  | Fork t k => task_pre t s /\ wp k post s
  end.

Context {HR : PreOrder R}.
Context (allowed_later : forall m s s', allowed m s -> R s s' -> allowed m s').

Lemma wp_later {A} (p : Prog A) post s0 s1 : R s0 s1 -> wp p post s0 -> wp p post s1.
Proof.
  intros H01. destruct p; cbn [wp]; intros Hp s H1 Hs; refine (Hp s _ Hs); by etrans.
Qed.

(** It is enough to consider the program when it moves next. *)
Lemma wp_start {A} (p : Prog A) post s0 :
  (forall s, R s0 s -> I s -> wp p post s) -> wp p post s0.
Proof.
  intros H. destruct p; cbn [wp]; intros s H0 Hs; exact (H s H0 Hs s (reflexivity s) Hs).
Qed.

Lemma wp_ret {A} (a : A) (post : A -> S -> Prop) s0 :
  (forall s, R s0 s -> I s -> post a s) -> wp (Ret a) post s0.
Proof. done. Qed.

Lemma wp_mono {A} (p : Prog A) (post1 post2 : A -> S -> Prop) s0 :
  (forall a s, R s0 s -> I s -> post1 a s -> post2 a s) -> wp p post1 s0 -> wp p post2 s0.
Proof.
  revert s0. induction p as [a|m|X f k IH|X q k IH|X e d k IH|t k IH]; cbn [wp];
    intros s0 Hpost Hp s H0 Hs; specialize (Hp s H0 Hs).
  - eauto.
  - eauto.
  - destruct Hp as (HI & HRs & Hk). split_and!; [done..|]. eapply IH; [|exact Hk].
    intros a s1 H1 Hs1. apply Hpost; [|done]. by do 2 (etrans; [eassumption|]).
  - intros x. destruct (Hp x) as (HI & HRs & Hk). split_and!; [done..|]. eapply IH; [|exact Hk].
    intros a s1 H1 Hs1. apply Hpost; [|done]. by do 2 (etrans; [eassumption|]).
  - destruct Hp as [Hd Hp]. split; [done|]. intros s' x Hf.
    destruct (Hp s' x Hf) as (HI & HRs & Hk). split_and!; [done..|]. eapply IH; [|exact Hk].
    intros a s1 H1 Hs1. apply Hpost; [|done]. by do 2 (etrans; [eassumption|]).
  - destruct Hp as (Ht & Hk). split; [done|]. eapply IH; [|exact Hk].
    intros a s1 H1 Hs1. apply Hpost; [|done]. by etrans.
Qed.

Lemma wp_bind {A B} (p : Prog A) (g : A -> Prog B) post s0 :
  wp p (fun a s => wp (g a) post s) s0 -> wp (bind p g) post s0.
Proof.
  revert s0. induction p as [a|m|X f k IH|X q k IH|X e d k IH|t k IH]; cbn [wp bind]; intros s0 Hp.
  - by apply wp_start.
  - done.
  - intros s H0 Hs. destruct (Hp s H0 Hs) as (? & ? & ?). split_and!; [done..|]. by apply IH.
  - intros s H0 Hs x. destruct (Hp s H0 Hs x) as (? & ? & ?). eauto.
  - intros s H0 Hs. destruct (Hp s H0 Hs) as (? & Hw). split; [done|]. intros s' x Hf.
    destruct (Hw s' x Hf) as (? & ? & ?). eauto.
  - intros s H0 Hs. destruct (Hp s H0 Hs) as [? ?]. split; [done|]. by apply IH.
Qed.

Lemma wp_act {X} (f : S -> S * X) (post : X -> S -> Prop) s0 :
  (forall s, R s0 s -> I s ->
     I (f s).1 /\ R s (f s).1 /\ forall s', R (f s).1 s' -> I s' -> post (f s).2 s') ->
  wp (act f) post s0.
Proof. intros H s H0 Hs. destruct (H s H0 Hs) as (? & ? & ?). done. Qed.

Lemma wp_reads {X} (f : S -> X) (post : X -> S -> Prop) s0 :
  (forall s s', R s0 s -> I s -> R s s' -> I s' -> post (f s) s') -> wp (reads f) post s0.
Proof. intros H. apply wp_act. intros s H0 Hs. split_and!; [done|done|]. simpl. eauto. Qed.

Lemma wp_modify (f : S -> S) (post : unit -> S -> Prop) s0 :
  (forall s, R s0 s -> I s ->
     I (f s) /\ R s (f s) /\ forall s', R (f s) s' -> I s' -> post tt s') ->
  wp (modify f) post s0.
Proof. intros H. by apply wp_act. Qed.

Lemma wp_call {X} (q : Q X) (post : X -> S -> Prop) s0 :
  (forall s x, R s0 s -> I s -> I (answer _ q x s) /\ R s (answer _ q x s) /\
     forall s', R (answer _ q x s) s' -> I s' -> post x s') ->
  wp (call q) post s0.
Proof. intros H s H0 Hs x. by destruct (H s x H0 Hs) as (? & ? & ?). Qed.

Lemma wp_wait {X} (e : Event X) (post : X -> S -> Prop) s0 :
  (forall s s' x, R s0 s -> I s -> fires e s s' x ->
     I s' /\ R s s' /\ forall s'', R s' s'' -> I s'' -> post x s'') ->
  wp (Wait e id Ret) post s0.
Proof.
  intros H s H0 Hs. split; [done|]. intros s' x Hf. by destruct (H s s' x H0 Hs Hf) as (? & ? & ?).
Qed.

Lemma wp_fork t (post : unit -> S -> Prop) s0 :
  (forall s, R s0 s -> I s -> task_pre t s /\ forall s', R s s' -> I s' -> post tt s') ->
  wp (fork t) post s0.
Proof. intros H s H0 Hs. by destruct (H s H0 Hs). Qed.

(** A destructor that may run at any time may guard any program. *)
Definition droppable (d : S -> S) : Prop := forall s, I s -> I (d s) /\ R s (d s).

Lemma wp_guarded {A} d (p : Prog A) (post : A -> S -> Prop) s0 :
  droppable d -> (forall a s s', R s0 s -> post a s -> R s s' -> I s' -> post a s') ->
  wp p post s0 -> wp (guarded d p) post s0.
Proof.
  intros Hd. revert s0. induction p as [a|m|X f k IH|X q k IH|X e dr k IH|t k IH]; cbn [wp guarded];
    intros s0 Hst Hp s H0 Hs; specialize (Hp s H0 Hs); cbn [fst snd].
  - destruct (Hd s Hs) as [? ?]. split_and!; [done..|]. intros s' H' Hs'.
    apply (Hst a s s'); [done..| |done]. by etrans.
  - destruct (Hd s Hs) as [? ?]. split_and!; [done..|]. intros s' H' _. eapply allowed_later; [exact Hp|]. by etrans.
  - destruct Hp as (HI & HRs & Hk). split_and!; [done..|]. apply IH; [|done].
    intros a s1 s2 H1. apply Hst. by do 2 (etrans; [eassumption|]).
  - intros x. destruct (Hp x) as (HI & HRs & Hk). split_and!; [done..|]. apply IH; [|done].
    intros a s1 s2 H1. apply Hst. by do 2 (etrans; [eassumption|]).
  - destruct Hp as [[Hd1 Hd2] Hp]. split.
    { destruct (Hd _ Hd1). split; [done|]. by etrans. }
    intros s' x Hf. destruct (Hp s' x Hf) as (HI & HRs & Hk). split_and!; [done..|]. apply IH; [|done].
    intros a s1 s2 H1. apply Hst. by do 2 (etrans; [eassumption|]).
  - destruct Hp as (Ht & Hk). split; [done|]. apply IH; [|done].
    intros a s1 s2 H1. apply Hst. by etrans.
Qed.

Lemma wp_cancel_with {A} d (p : Prog A) (post : A -> S -> Prop) s0 :
  droppable d -> wp p post s0 -> wp (cancel_with d p) post s0.
Proof.
  intros Hd. revert s0. induction p as [a|m|X f k IH|X q k IH|X e dr k IH|t k IH]; cbn [wp cancel_with];
    intros s0 Hp s H0 Hs; specialize (Hp s H0 Hs); cbn [fst snd].
  - done.
  - destruct (Hd s Hs) as [? ?]. split_and!; [done..|]. intros s' H' _. eapply allowed_later; [exact Hp|]. by etrans.
  - destruct Hp as (HI & HRs & Hk). split_and!; [done..|]. by apply IH.
  - intros x. destruct (Hp x) as (HI & HRs & Hk). split_and!; [done..|]. by apply IH.
  - destruct Hp as [[Hd1 Hd2] Hp]. split.
    { destruct (Hd _ Hd1). split; [done|]. by etrans. }
    intros s' x Hf. destruct (Hp s' x Hf) as (HI & HRs & Hk). split_and!; [done..|]. by apply IH.
  - destruct Hp as (Ht & Hk). split; [done|]. by apply IH.
Qed.

Lemma wp_timeout {A Y} (q : Q Y) (p : Prog A) (post : option A -> S -> Prop) s0 :
  (forall x s, I s -> I (answer _ q x s) /\ R s (answer _ q x s)) ->
  (forall s, R s0 s -> I s -> post None s) ->
  wp p (fun a s => post (Some a) s) s0 -> wp (timeout q p) post s0.
Proof.
  intros Hq. revert s0. induction p as [a|m|X f k IH|X c k IH|X e d k IH|t k IH]; cbn [wp timeout];
    intros s0 Hnone Hp s H0 Hs; pose proof Hp as Hp0; specialize (Hp s H0 Hs); cbn [fst snd].
  - done.
  - done.
  - destruct Hp as (HI & HRs & Hk). split_and!; [done..|]. apply IH; [|done].
    intros s1 H1. apply Hnone. by do 2 (etrans; [eassumption|]).
  - intros x. destruct (Hp x) as (HI & HRs & Hk). split_and!; [done..|]. apply IH; [|done].
    intros s1 H1. apply Hnone. by do 2 (etrans; [eassumption|]).
  - destruct Hp as [Hd Hp]. split; [done|].
    assert (Hdrop : forall s1, R s0 s1 -> I s1 -> I (d s1) /\ R s1 (d s1)) by (intros; by apply Hp0).
    intros s' [x|y]; cbn [fires].
    + intros Hf. destruct (Hp s' x Hf) as (HI & HRs & Hk). split_and!; [done..|]. apply IH; [|done].
      intros s1 H1. apply Hnone. by do 2 (etrans; [eassumption|]).
    + intros ->. destruct (Hq y s Hs) as [HI HRs]. split_and!; [done..|].
      intros s1 H1 Hs1. destruct (Hdrop s1) as [HI1 HR1]; [by do 2 (etrans; [eassumption|])|done|].
      split_and!; [done..|]. intros s2 H2 Hs2. apply Hnone; [|done].
      by do 4 (etrans; [eassumption|]).
  - destruct Hp as (Ht & Hk). split; [done|]. apply IH; [|done].
    intros s1 H1. apply Hnone. by etrans.
Qed.

Lemma wp_catch {A} (p : Prog A) (post : result A string -> S -> Prop) s0 :
  (forall m s, R s0 s -> I s -> allowed m s -> post (Err m) s) ->
  wp p (fun a s => post (Ok a) s) s0 -> wp (catch p) post s0.
Proof.
  revert s0. induction p as [a|m|X f k IH|X c k IH|X e d k IH|t k IH]; cbn [wp catch];
    intros s0 He Hp s H0 Hs; specialize (Hp s H0 Hs).
  - done.
  - eauto.
  - destruct Hp as (HI & HRs & Hk). split_and!; [done..|]. apply IH; [|done].
    intros m s1 H1. apply He. by do 2 (etrans; [eassumption|]).
  - intros x. destruct (Hp x) as (HI & HRs & Hk). split_and!; [done..|]. apply IH; [|done].
    intros m s1 H1. apply He. by do 2 (etrans; [eassumption|]).
  - destruct Hp as [Hd Hp]. split; [done|]. intros s' x Hf.
    destruct (Hp s' x Hf) as (HI & HRs & Hk). split_and!; [done..|]. apply IH; [|done].
    intros m s1 H1. apply He. by do 2 (etrans; [eassumption|]).
  - destruct Hp as (Ht & Hk). split; [done|]. apply IH; [|done].
    intros m s1 H1. apply He. by etrans.
Qed.

Lemma wp_select_suspended {A X} (f : S -> option (S * X)) (done : X -> option A) (p : Prog A) post s0 :
  (forall s s' x, R s0 s -> I s -> f s = Some (s', x) -> I s' /\ R s s' /\
     forall a s'', done x = Some a -> R s' s'' -> I s'' -> post a s'') ->
  wp p post s0 -> wp (select_suspended f done p) post s0.
Proof.
  revert s0. induction p as [a|m|Y g k IH|Y c k IH|Y e d k IH|t k IH]; cbn [wp select_suspended];
    intros s0 Hf Hp s H0 Hs; pose proof Hp as Hp0; specialize (Hp s H0 Hs).
  - done.
  - done.
  - destruct Hp as (HI & HRs & Hk). split_and!; [done..|]. apply IH; [|done].
    intros s1 s2 x H1. apply Hf. by do 2 (etrans; [eassumption|]).
  - intros x. destruct (Hp x) as (HI & HRs & Hk). split_and!; [done..|]. apply IH; [|done].
    intros s1 s2 y H1. apply Hf. by do 2 (etrans; [eassumption|]).
  - destruct Hp as [Hd Hp]. split; [done|].
    assert (Hdrop : forall s1, R s0 s1 -> I s1 -> I (d s1) /\ R s1 (d s1)) by (intros; by apply Hp0).
    intros s' [x|y]; cbn [fires].
    + intros E. destruct (Hf s s' x H0 Hs E) as (HI & HRs & Hdone). split_and!; [done..|].
      destruct (done x) as [a|].
      * intros s1 H1 Hs1. destruct (Hdrop s1) as [HI1 HR1]; [by do 2 (etrans; [eassumption|])|done|].
        split_and!; [done..|]. intros s2 H2 Hs2. apply Hdone; [done| |done].
        by do 2 (etrans; [eassumption|]).
      * intros s1 H1 Hs1. apply Hp0; [by do 2 (etrans; [eassumption|])|done].
    + intros [_ Hfi]. destruct (Hp s' y Hfi) as (HI & HRs & Hk). split_and!; [done..|]. apply IH; [|done].
      intros s1 s2 z H1. apply Hf. by do 2 (etrans; [eassumption|]).
  - destruct Hp as (Ht & Hk). split; [done|]. apply IH; [|done].
    intros s1 s2 x H1. apply Hf. by etrans.
Qed.

Lemma wp_select_biased {A X} (f : S -> option (S * X)) (done : X -> option A) (p : Prog A) post s0 :
  (forall s s' x, R s0 s -> I s -> f s = Some (s', x) -> I s' /\ R s s' /\
     forall a s'', done x = Some a -> R s' s'' -> I s'' -> post a s'') ->
  wp p post s0 -> wp (select_biased f done p) post s0.
Proof.
  intros Hf Hp s H0 Hs. destruct (f s) as [[s' x]|] eqn:E; cbn [fst snd].
  - destruct (Hf s s' x H0 Hs E) as (HI & HRs & Hdone). split_and!; [done..|].
    destruct (done x) as [a|].
    + intros s1 H1 Hs1. eauto.
    + apply (wp_later _ _ s0); [by etrans|done].
  - split_and!; [done..|]. apply wp_select_suspended.
    + intros s1 s2 x H1. apply Hf. by etrans.
    + by apply (wp_later _ _ s0).
Qed.

(** A loop that keeps [inv] along the elements, in order. *)
Lemma wp_for_each {A} (inv : list A -> S -> Prop) (l : list A) (g : A -> Prog unit) s0 :
  (forall x l s, R s0 s -> I s -> inv (x :: l) s -> wp (g x) (fun _ s => inv l s) s) ->
  inv l s0 -> (forall l s s', inv l s -> R s s' -> I s' -> inv l s') ->
  wp (for_each l g) (fun _ s => inv [] s) s0.
Proof.
  intros Hg Hl Hst. revert s0 Hg Hl. induction l as [|x l IH]; intros s0 Hg Hl; cbn [for_each].
  - intros s H0 Hs. eauto.
  - apply wp_bind. apply wp_start. intros s H0 Hs.
    apply (wp_mono _ (fun _ s => inv l s)).
    + intros [] s1 H1 Hs1 Hinv. apply IH; [|done]. intros y l' s2 H2. apply Hg.
      by do 2 (etrans; [eassumption|]).
    + apply Hg; [done..|]. eauto.
Qed.

Lemma wp_map_each {A B} (P : B -> S -> Prop) (l : list A) (g : A -> Prog B) s0 :
  (forall x s, R s0 s -> I s -> x ∈ l -> wp (g x) P s) ->
  (forall b s s', P b s -> R s s' -> I s' -> P b s') ->
  wp (map_each l g) (fun ys s => Forall (fun y => P y s) ys) s0.
Proof.
  intros Hg Hst. revert s0 Hg. induction l as [|x l IH]; intros s0 Hg; cbn [map_each].
  - intros s H0 Hs. constructor.
  - apply wp_bind. apply wp_start. intros s H0 Hs.
    apply (wp_mono _ P).
    + intros y s1 H1 Hs1 Hy. apply wp_bind.
      apply (wp_mono _ (fun ys s => Forall (fun y => P y s) ys)).
      * intros ys s2 H2 Hs2 Hys s3 H3 Hs3. constructor.
        -- apply (Hst y s1 s3); [done| |done]. by etrans.
        -- eapply Forall_impl; [exact Hys|]. intros z Hz. by apply (Hst z s2 s3).
      * apply IH. intros z s2 H2 Hs2 Hz. apply Hg; [|done|by right].
        by do 2 (etrans; [eassumption|]).
    + apply Hg; [done..|by left].
Qed.

(** ** Adequacy: the logic speaks of every reachable pool *)

Section Adequacy.
Context (api : Prog unit -> Prop).
Context (Hapi : forall p s, I s -> api p -> wp p (fun _ _ => True) s).
Context (Hbody : forall t s, I s -> task_pre t s -> wp (body t) (fun _ _ => True) s).

Definition pool_ok (c : config) : Prop := I c.1 /\ Forall (fun p => wp p (fun _ _ => True) c.1) c.2.

Lemma tstep_wp {A} s (p : Prog A) s' p' ts post :
  tstep s p s' p' ts -> I s -> wp p post s ->
  I s' /\ R s s' /\ wp p' post s' /\ Forall (fun t => task_pre t s') ts.
Proof.
  intros Hst Hs Hp. assert (R s s) as Hr by done.
  destruct Hst; specialize (Hp s Hr Hs); cbn [wp] in Hp.
  - destruct Hp as (? & ? & ?). by split_and!.
  - destruct (Hp x) as (? & ? & ?). by split_and!.
  - destruct Hp as [_ Hp]. destruct (Hp s' x H) as (? & ? & ?). by split_and!.
  - destruct Hp as [? ?]. split_and!; [done..|]. by constructor.
Qed.

Lemma step_pool_ok c c' : step api c c' -> pool_ok c -> pool_ok c' /\ R c.1 c'.1.
Proof.
  intros Hst [HI Hl]. destruct Hst as [s l1 p l2 s' p' ts Ht|s l p Hp|s l1 X e d k l2]; cbn in *.
  - apply Forall_app in Hl as [Hl1 Hl2]. inversion Hl2 as [|? ? Hp Hl3]; simplify_eq.
    destruct (tstep_wp _ _ _ _ _ _ Ht HI Hp) as (HI' & HR' & Hp' & Hts).
    split; [|done]. split; [done|]. cbn. rewrite !Forall_app, Forall_cons, Forall_app. split_and!.
    + eapply Forall_impl; [exact Hl1|]. intros q. by apply wp_later.
    + done.
    + eapply Forall_impl; [exact Hl3|]. intros q. by apply wp_later.
    + apply Forall_map. eapply Forall_impl; [exact Hts|]. intros t Htp. by apply Hbody.
  - split; [|done]. split; [done|]. apply Forall_app. split; [done|]. constructor; [|done]. by apply Hapi.
  - apply Forall_app in Hl as [Hl1 Hl2]. inversion Hl2 as [|? ? Hp Hl3]; simplify_eq.
    destruct (Hp s (reflexivity s) HI) as [[HI' HR'] _]. split; [|done]. split; [done|]. cbn.
    apply Forall_app. split; (eapply Forall_impl; [eassumption|]); intros q; by apply wp_later.
Qed.

Lemma wp_adequate c c' : rtc (step api) c c' -> pool_ok c -> pool_ok c' /\ R c.1 c'.1.
Proof.
  induction 1 as [c|c1 c2 c3 Hst _ IH]; [done|]. intros Hok.
  destruct (step_pool_ok _ _ Hst Hok) as [Hok2 HR2]. destruct (IH Hok2) as [Hok3 HR3].
  split; [done|]. by etrans.
Qed.

(** No program of a reachable pool panics other than as allowed. *)
Lemma pool_ok_panics c m : pool_ok c -> Panic m ∈ c.2 -> allowed m c.1.
Proof.
  intros [HI Hl] Hm. rewrite Forall_forall in Hl. exact (Hl _ Hm c.1 (reflexivity _) HI).
Qed.
End Adequacy.
End Logic.

(** ** The order of the calls of one program *)

Section Order.
Context {L : Type} (label : forall X, Q X -> X -> L) (started : T -> L).

Fixpoint labels {X} (e : Event X) : X -> list L :=
  match e in Event X return X -> list L with
  | Ready _ => fun _ => []
  | Answer q => fun x => [label _ q x]
  | Either e1 e2 => fun r => match r with inl x => labels e1 x | inr y => labels e2 y end
  | Biased _ e => fun r => match r with inl _ => [] | inr y => labels e y end
  end.

(** The calls a program makes, with their answers, and the tasks it starts, up to some point
    of a run among other programs (which may change the state between its steps); the last
    argument is its value when it has returned. *)
Inductive trace {A} : Prog A -> list L -> option A -> Prop :=
| tr_stop p : trace p [] None
| tr_ret a : trace (Ret a) [] (Some a)
| tr_act X (f : S -> S * X) k s ls r : trace (k (f s).2) ls r -> trace (Act f k) ls r
| tr_call X (q : Q X) k x ls r : trace (k x) ls r -> trace (Call q k) (label _ q x :: ls) r
| tr_wait X (e : Event X) d k s s' x ls r :
    fires e s s' x -> trace (k x) ls r -> trace (Wait e d k) (labels e x ++ ls) r
| tr_fork t k ls r : trace k ls r -> trace (Fork t k) (started t :: ls) r.

(** [trace] with the states in which the program's critical sections and events took place. *)
Inductive visits {A} : Prog A -> list S -> list L -> option A -> Prop :=
| vi_stop p : visits p [] [] None
| vi_ret a : visits (Ret a) [] [] (Some a)
| vi_act X (f : S -> S * X) k s ss ls r : visits (k (f s).2) ss ls r -> visits (Act f k) (s :: ss) ls r
| vi_call X (q : Q X) k x ss ls r : visits (k x) ss ls r -> visits (Call q k) ss (label _ q x :: ls) r
| vi_wait X (e : Event X) d k s s' x ss ls r :
    fires e s s' x -> visits (k x) ss ls r -> visits (Wait e d k) (s :: ss) (labels e x ++ ls) r
| vi_fork t k ss ls r : visits k ss ls r -> visits (Fork t k) ss (started t :: ls) r.

Lemma visits_trace {A} (p : Prog A) ss ls r : visits p ss ls r -> trace p ls r.
Proof.
  induction 1; [constructor|constructor|by eapply tr_act|by apply tr_call|by eapply tr_wait|by apply tr_fork].
Qed.

(** A program that starts with a critical section. *)
Lemma visits_act {A} (p : Prog A) ss ls r :
  visits p ss ls r ->
  match p with
  | Act f k => (ls = [] /\ r = None) \/ exists s ss', ss = s :: ss' /\ visits (k (f s).2) ss' ls r
  | _ => True
  end.
Proof.
  intros H. destruct H as [p|a|X f k s ss ls r H| | |]; try done.
  - destruct p; try done. by left.
  - right. eauto.
Qed.

(** A step of the pool semantics is a step of the trace. *)
Lemma tstep_trace {A} s (p : Prog A) s' p' ts ls r :
  tstep s p s' p' ts -> trace p' ls r -> exists l0, trace p (l0 ++ ls) r.
Proof.
  intros Hst Htr. destruct Hst.
  - exists []. by eapply tr_act.
  - exists [label _ q x]. by apply tr_call.
  - exists (labels e x). by eapply tr_wait.
  - exists [started t]. by apply tr_fork.
Qed.

Section Ord.
Context (safe : list L -> Prop).

(** After the calls [h]: every further call keeps [safe] and the value satisfies [post]. *)
Fixpoint ord {A} (p : Prog A) (h : list L) (post : list L -> A -> Prop) : Prop :=
  match p with
  | Ret a => post h a
  | Panic _ => True
  | Act f k => forall s, ord (k (f s).2) h post
  | Call q k => forall x, safe (h ++ [label _ q x]) /\ ord (k x) (h ++ [label _ q x]) post
  | Wait e _ k =>
      forall s s' x, fires e s s' x -> safe (h ++ labels e x) /\ ord (k x) (h ++ labels e x) post
  | Fork t k => safe (h ++ [started t]) /\ ord k (h ++ [started t]) post
  end.

Lemma ord_sound {A} (p : Prog A) h post ls r :
  ord p h post -> safe h -> trace p ls r ->
  safe (h ++ ls) /\ forall a, r = Some a -> post (h ++ ls) a.
Proof.
  intros Ho Hh Htr. revert h Ho Hh.
  induction Htr as [p|a|X f k s ls r _ IH|X q k x ls r _ IH|X e d k s s' x ls r Hf _ IH|t k ls r _ IH];
    intros h Ho Hh; cbn [ord] in Ho.
  - by rewrite app_nil_r.
  - rewrite app_nil_r. split; [done|]. by intros ? [= <-].
  - by apply IH.
  - destruct (Ho x). rewrite cons_middle, (assoc_L (++)). by apply IH.
  - destruct (Ho s s' x Hf). rewrite (assoc_L (++)). by apply IH.
  - destruct Ho. rewrite cons_middle, (assoc_L (++)). by apply IH.
Qed.

Lemma ord_bind {A B} (p : Prog A) (g : A -> Prog B) h post :
  ord p h (fun h a => ord (g a) h post) -> ord (bind p g) h post.
Proof.
  revert h. induction p; cbn [ord bind]; intros h Hp; try done.
  - intros s. apply H, Hp.
  - intros x. destruct (Hp x). eauto.
  - intros s s' x Hf. destruct (Hp s s' x Hf). eauto.
  - destruct Hp. eauto.
Qed.

(** Where every history is safe, nothing is left to check. *)
Lemma ord_any {A} (p : Prog A) h : (forall h, safe h) -> ord p h (fun _ _ => True).
Proof. intros Hs. revert h. induction p; cbn [ord]; intros h; auto. Qed.

Lemma ord_mono {A} (p : Prog A) h (post1 post2 : list L -> A -> Prop) :
  (forall h a, post1 h a -> post2 h a) -> ord p h post1 -> ord p h post2.
Proof.
  intros Hpost. revert h. induction p; cbn [ord]; intros h Hp; try done.
  - eauto.
  - eauto.
  - intros x. destruct (Hp x). eauto.
  - intros s s' x Hf. destruct (Hp s s' x Hf). eauto.
  - destruct Hp. eauto.
Qed.
End Ord.
End Order.

(** ** A scheduler *)

Section Exec.
Context (oracle : S -> forall X, Q X -> option X).

Fixpoint fire {X} (e : Event X) (s : S) : option (S * X) :=
  match e in Event X return option (S * X) with
  | Ready f => f s
  | Answer q => match oracle s _ q with Some x => Some (answer _ q x s, x) | None => None end
  | Either e1 e2 =>
      match fire e1 s with
      | Some (s', x) => Some (s', inl x)
      | None => match fire e2 s with Some (s', y) => Some (s', inr y) | None => None end
      end
  | Biased f e =>
      match f s with
      | Some (s', x) => Some (s', inl x)
      | None => match fire e s with Some (s', y) => Some (s', inr y) | None => None end
      end
  end.

Lemma fire_fires {X} (e : Event X) s s' x : fire e s = Some (s', x) -> fires e s s' x.
Proof.
  revert x. induction e; cbn; intros x H.
  - done.
  - destruct (oracle s X q); by simplify_eq.
  - destruct (fire e1 s) as [[]|] eqn:E1; [simplify_eq; eauto|].
    destruct (fire e2 s) as [[]|] eqn:E2; [simplify_eq; eauto|done].
  - destruct (f s) as [[]|] eqn:E1; [by simplify_eq|].
    destruct (fire e s) as [[]|] eqn:E2; [simplify_eq; eauto|done].
Qed.

Definition exec_step {A} (s : S) (p : Prog A) : option (S * Prog A * list T) :=
  match p with
  | Ret _ | Panic _ => None
  | Act f k => let '(s', x) := f s in Some (s', k x, [])
  | Call q k => match oracle s _ q with Some x => Some (answer _ q x s, k x, []) | None => None end
  | Wait e _ k => match fire e s with Some (s', x) => Some (s', k x, []) | None => None end
  | Fork t k => Some (s, k, [t])
  end.

Lemma exec_step_tstep {A} s (p : Prog A) s' p' ts :
  exec_step s p = Some (s', p', ts) -> tstep s p s' p' ts.
Proof.
  destruct p as [a|m|X f k|X q k|X e d k|t k]; cbn; intros H; simplify_eq.
  - destruct (f s) as [s1 x] eqn:E. simplify_eq. pose proof (ts_act s X f k) as Ht. by rewrite E in Ht.
  - destruct (oracle s X q); simplify_eq. constructor.
  - destruct (fire e s) as [[]|] eqn:E; simplify_eq. constructor. by apply fire_fires.
  - constructor.
Qed.

(** The trace of one program that runs alone until it is blocked or done. *)
Fixpoint exec_trace {L A} (label : forall X, Q X -> X -> L) (started : T -> L) (fuel : nat) (s : S) (p : Prog A) :
    list L * option A :=
  match fuel with
  | O => ([], None)
  | Datatypes.S fuel =>
      match p with
      | Ret a => ([], Some a)
      | Panic _ => ([], None)
      | Act f k => exec_trace label started fuel (f s).1 (k (f s).2)
      | Call q k =>
          match oracle s _ q with
          | Some x => let '(ls, r) := exec_trace label started fuel (answer _ q x s) (k x) in (label _ q x :: ls, r)
          | None => ([], None)
          end
      | Wait e _ k =>
          match fire e s with
          | Some (s', x) => let '(ls, r) := exec_trace label started fuel s' (k x) in (labels label e x ++ ls, r)
          | None => ([], None)
          end
      | Fork t k => let '(ls, r) := exec_trace label started fuel s k in (started t :: ls, r)
      end
  end.

Lemma exec_trace_trace {L A} (label : forall X, Q X -> X -> L) (started : T -> L) fuel s (p : Prog A) :
  trace label started p (exec_trace label started fuel s p).1 (exec_trace label started fuel s p).2.
Proof.
  revert s p. induction fuel as [|fuel IH]; intros s p; cbn [exec_trace]; [constructor|].
  destruct p as [a|m|X f k|X q k|X e d k|t k].
  - constructor.
  - constructor.
  - eapply tr_act, IH.
  - destruct (oracle s X q) as [x|]; [|constructor].
    specialize (IH (answer X q x s) (k x)). destruct (exec_trace _ _ _ _ _). by apply tr_call.
  - destruct (fire e s) as [[s' x]|] eqn:E; [|constructor].
    specialize (IH s' (k x)). destruct (exec_trace _ _ _ _ _). eapply tr_wait; [by apply fire_fires|done].
  - specialize (IH s k). destruct (exec_trace _ _ _ _ _). by apply tr_fork.
Qed.

(** The states in which it moves meanwhile. *)
Fixpoint exec_visits {A} (fuel : nat) (s : S) (p : Prog A) : list S :=
  match fuel with
  | O => []
  | Datatypes.S fuel =>
      match p with
      | Ret _ | Panic _ => []
      | Act f k => s :: exec_visits fuel (f s).1 (k (f s).2)
      | Call q k => match oracle s _ q with Some x => exec_visits fuel (answer _ q x s) (k x) | None => [] end
      | Wait e _ k => match fire e s with Some (s', x) => s :: exec_visits fuel s' (k x) | None => [] end
      | Fork t k => exec_visits fuel s k
      end
  end.

Lemma exec_trace_visits {L A} (label : forall X, Q X -> X -> L) (started : T -> L) fuel s (p : Prog A) :
  visits label started p (exec_visits fuel s p)
    (exec_trace label started fuel s p).1 (exec_trace label started fuel s p).2.
Proof.
  revert s p. induction fuel as [|fuel IH]; intros s p; cbn [exec_trace exec_visits]; [constructor|].
  destruct p as [a|m|X f k|X q k|X e d k|t k].
  - constructor.
  - constructor.
  - apply vi_act, IH.
  - destruct (oracle s X q) as [x|]; [|constructor].
    specialize (IH (answer X q x s) (k x)). destruct (exec_trace _ _ _ _ _). by apply vi_call.
  - destruct (fire e s) as [[s' x]|] eqn:E; [|constructor].
    specialize (IH s' (k x)). destruct (exec_trace _ _ _ _ _). eapply vi_wait; [by apply fire_fires|done].
  - specialize (IH s k). destruct (exec_trace _ _ _ _ _). by apply vi_fork.
Qed.

(** One program runs alone to its end. *)
Fixpoint exec_run {A} (fuel : nat) (s : S) (p : Prog A) : option (S * A) :=
  match fuel with
  | O => None
  | Datatypes.S fuel =>
      match p with
      | Ret a => Some (s, a)
      | _ => match exec_step s p with Some (s', p', _) => exec_run fuel s' p' | None => None end
      end
  end.

Lemma exec_run_runs {A} fuel s (p : Prog A) s' a : exec_run fuel s p = Some (s', a) -> runs s p s' a.
Proof.
  revert s p. induction fuel as [|fuel IH]; cbn [exec_run]; intros s p H; [done|].
  assert (Hs : (exists b, p = Ret b) \/
    exec_run (Datatypes.S fuel) s p =
    match exec_step s p with Some (s', p', _) => exec_run fuel s' p' | None => None end)
    by (destruct p; eauto).
  destruct Hs as [[b ->]|E]; [injection H as <- <-; constructor|].
  cbn [exec_run] in E. rewrite E in H.
  destruct (exec_step s p) as [[[s1 p1] ts]|] eqn:Es; [|done].
  eapply runs_step; [by apply exec_step_tstep|by apply IH].
Qed.

(** One program runs until it is blocked. *)
Fixpoint exec_thread (fuel : nat) (s : S) (p : Prog unit) (ts : list T) : S * Prog unit * list T :=
  match fuel with
  | O => (s, p, ts)
  | Datatypes.S fuel =>
      match exec_step s p with
      | Some (s', p', ts') => exec_thread fuel s' p' (ts ++ ts')
      | None => (s, p, ts)
      end
  end.

Inductive choice : Type :=
| Run (i : nat)
| Begin (p : Prog unit)
| Cut (i : nat).

Definition exec_choice (fuel : nat) (c : config) (ch : choice) : config :=
  match ch with
  | Run i =>
      match c.2 !! i with
      | Some p =>
          let '(s', p', ts) := exec_thread fuel c.1 p [] in
          (s', take i c.2 ++ p' :: drop (Datatypes.S i) c.2 ++ map body ts)
      | None => c
      end
  | Begin p => (c.1, c.2 ++ [p])
  | Cut i =>
      match c.2 !! i with
      | Some (Wait e d k) => (d c.1, take i c.2 ++ drop (Datatypes.S i) c.2)
      | _ => c
      end
  end.

Definition exec (fuel : nat) (choices : list choice) (c : config) : config :=
  foldl (exec_choice fuel) c choices.

Definition begins (api : Prog unit -> Prop) (ch : choice) : Prop :=
  match ch with Begin p => api p | _ => True end.

Lemma exec_thread_steps api fuel s p ts s' p' ts' l1 l2 :
  exec_thread fuel s p ts = (s', p', ts') ->
  rtc (step api) (s, l1 ++ p :: l2 ++ map body ts) (s', l1 ++ p' :: l2 ++ map body ts').
Proof.
  revert s p ts. induction fuel as [|fuel IH]; cbn [exec_thread]; intros s p ts H; [by simplify_eq|].
  destruct (exec_step s p) as [[[s1 p1] ts1]|] eqn:E; [|by simplify_eq].
  apply IH in H. eapply rtc_l; [|exact H]. apply exec_step_tstep in E.
  rewrite map_app, (assoc_L (++)). by apply step_thread.
Qed.

Lemma exec_reachable api fuel choices c :
  Forall (begins api) choices -> rtc (step api) c (exec fuel choices c).
Proof.
  intros Hb. revert c. induction Hb as [|ch choices Hch _ IH]; intros c; [done|].
  cbn [exec foldl]. etrans; [|apply IH]. clear IH. destruct c as [s l]. destruct ch as [i|p|i]; cbn.
  - destruct (l !! i) as [p|] eqn:Hi; [|done].
    destruct (exec_thread fuel s p []) as [[s' p'] ts] eqn:E.
    eapply (exec_thread_steps api) in E. cbn [map] in E. rewrite app_nil_r in E.
    by rewrite <- (take_drop_middle l i p Hi) at 1.
  - apply rtc_once. by apply step_call.
  - destruct (l !! i) as [[]|] eqn:Hi; try done.
    rewrite <- (take_drop_middle l i _ Hi) at 1. apply rtc_once. apply step_drop.
Qed.
End Exec.
End Semantics.
End Lang.

(** Sequencing, written as the source's statements. *)
Declare Scope prog_scope.
Delimit Scope prog_scope with prog.
Notation "'let!' x ':=' p 'in' q" := (bind p (fun x => q))
  (at level 200, x pattern, p at level 100, q at level 200, right associativity) : prog_scope.
Notation "p ';;;' q" := (bind p (fun _ => q)) (at level 199, right associativity) : prog_scope.
