(* ===== verification/Rights.v ===== *)
(** * Rights: rely-guarantee for programs that own names

    The logic of [Conc] knows what every program leaves alone. Here a program may also own
    names (of gates, of slots): what it knows of a name that it owns stays so until it changes
    it itself, because every other program leaves it alone. Names that are allocated by a step
    are owned by the program that made it; a task takes names from the program that starts
    it; when a program ends or is dropped its names belong to nobody. *)

From stdpp Require Import base list gmap relations.
From S2P Require Import Prelude Conc.

Section Rights.
Context {S : Type} {Q : Type -> Type} {T N : Type} `{Countable N}.
Context (answer : forall X, Q X -> X -> S -> S).
Abbreviation program := (Prog (S := S) (Q := Q) (T := T)).

(** The invariant, what every step of every program obeys, which names are allocated, and what of a
    name is left alone. *)
Context (I : S -> Prop) (R : S -> S -> Prop) {HR : PreOrder R}.
Context (allocated : N -> S -> Prop) (frame : N -> S -> S -> Prop) {HF : forall n, PreOrder (frame n)}.
Context (allocated_later : forall n s s', R s s' -> allocated n s -> allocated n s').
(** What a task may assume and owns when it starts. *)
Context (task_pre : T -> gset N -> S -> Prop).

Definition keeps (G : gset N) (s s' : S) : Prop := forall n, n ∈ G -> frame n s s'.
Definition exist_at (G : gset N) (s : S) : Prop := forall n, n ∈ G -> allocated n s.

#[local] Instance keeps_preorder G : PreOrder (keeps G).
Proof. split; [by intros s n|]. intros s1 s2 s3 H1 H2 n Hn. etrans; eauto. Qed.

Lemma keeps_sub G G' s s' : G' ⊆ G -> keeps G s s' -> keeps G' s s'.
Proof. intros Hs Hk n Hn. apply Hk. set_solver. Qed.

Lemma exist_later G s s' : R s s' -> exist_at G s -> exist_at G s'.
Proof. intros HRs He n Hn. eapply allocated_later; eauto. Qed.

(** A step of the owner of [G]. *)
Definition moves_with (G : gset N) (s s' : S) : Prop :=
  I s' /\ R s s' /\ forall n, n ∉ G -> allocated n s -> frame n s s'.

Definition advances (G : gset N) (s s' : S) (K : gset N -> Prop) : Prop :=
  moves_with G s s' /\ exists new, (forall n, n ∈ new -> ~ allocated n s /\ allocated n s') /\ K (G ∪ new).

Fixpoint rwp {A} (p : program A) (post : A -> gset N -> S -> Prop) (G : gset N) (s0 : S) : Prop :=
  forall s, R s0 s -> I s -> keeps G s0 s ->
  match p with
  | Ret a => post a G s
  | Panic _ => False
  | Act f k => advances G s (f s).1 (fun G' => rwp (k (f s).2) post G' (f s).1)
  | Call q k => forall x, advances G s (answer _ q x s) (fun G' => rwp (k x) post G' (answer _ q x s))
  | Wait e d k =>
      moves_with G s (d s) /\
      forall s' x, fires answer e s s' x -> advances G s s' (fun G' => rwp (k x) post G' s')
  | Fork t k => exists G1 G2, G = G1 ∪ G2 /\ G1 ## G2 /\ task_pre t G1 s /\ rwp k post G2 s
  end.

Lemma rwp_later {A} (p : program A) post G s0 s1 : R s0 s1 -> keeps G s0 s1 -> rwp p post G s0 -> rwp p post G s1.
Proof. intros H01 K01. destruct p; cbn [rwp]; intros Hp s H1 Hs K1; refine (Hp s _ Hs _); by etrans. Qed.

Lemma rwp_start {A} (p : program A) post G s0 :
  (forall s, R s0 s -> I s -> keeps G s0 s -> rwp p post G s) -> rwp p post G s0.
Proof. intros Hp. destruct p; cbn [rwp]; intros s H0 Hs K0; exact (Hp s H0 Hs K0 s (reflexivity s) Hs (reflexivity s)). Qed.

Lemma advances_mono G s s' (K1 K2 : gset N -> Prop) :
  (forall G', I s' -> R s s' -> K1 G' -> K2 G') -> advances G s s' K1 -> advances G s s' K2.
Proof. intros HK ((HI & HRs & Hf) & new & Hn & Hk). split; [done|]. exists new. auto. Qed.

Lemma rwp_mono {A} (p : program A) (post1 post2 : A -> gset N -> S -> Prop) G s0 :
  (forall a G' s, R s0 s -> I s -> post1 a G' s -> post2 a G' s) -> rwp p post1 G s0 -> rwp p post2 G s0.
Proof.
  revert G s0. induction p as [a|m|X f k IH|X q k IH|X e d k IH|t k IH]; cbn [rwp];
    intros G s0 Hpost Hp s H0 Hs K0; specialize (Hp s H0 Hs K0).
  - eauto.
  - done.
  - eapply advances_mono; [|exact Hp]. intros G' _ H1. apply IH. intros a G2 s2 H2. apply Hpost.
    by do 2 (etrans; [eassumption|]).
  - intros x. eapply advances_mono; [|exact (Hp x)]. intros G' _ H1. apply IH. intros a G2 s2 H2. apply Hpost.
    by do 2 (etrans; [eassumption|]).
  - destruct Hp as [Hd Hp]. split; [done|]. intros s' x Hf. eapply advances_mono; [|exact (Hp s' x Hf)].
    intros G' _ H1. apply IH. intros a G2 s2 H2. apply Hpost. by do 2 (etrans; [eassumption|]).
  - destruct Hp as (G1 & G2 & E & Hd & Ht & Hk). exists G1, G2. split_and!; [done..|]. eapply IH; [|exact Hk].
    intros a G' s2 H2. apply Hpost. by etrans.
Qed.

Lemma rwp_bind {A B} (p : program A) (g : A -> program B) post G s0 :
  rwp p (fun a G' s => rwp (g a) post G' s) G s0 -> rwp (bind p g) post G s0.
Proof.
  revert G s0. induction p as [a|m|X f k IH|X q k IH|X e d k IH|t k IH]; cbn [rwp bind]; intros G s0 Hp.
  - by apply rwp_start.
  - done.
  - intros s H0 Hs K0. eapply advances_mono; [|exact (Hp s H0 Hs K0)]. auto.
  - intros s H0 Hs K0 x. eapply advances_mono; [|exact (Hp s H0 Hs K0 x)]. auto.
  - intros s H0 Hs K0. destruct (Hp s H0 Hs K0) as [Hd Hw]. split; [done|]. intros s' x Hf.
    eapply advances_mono; [|exact (Hw s' x Hf)]. auto.
  - intros s H0 Hs K0. destruct (Hp s H0 Hs K0) as (G1 & G2 & E & Hd & Ht & Hk). exists G1, G2. auto.
Qed.

(** ** Programs that leave every allocated name alone *)

Definition moves_all (s s' : S) : Prop := I s' /\ R s s' /\ forall n, allocated n s -> frame n s s'.

Lemma moves_all_with G s s' : moves_all s s' -> moves_with G s s'.
Proof. intros (HI & HRs & Hf). split_and!; auto. Qed.

Lemma moves_all_keeps G s s' : exist_at G s -> moves_all s s' -> keeps G s s'.
Proof. intros He (_ & _ & Hf) n Hn. auto. Qed.

(** Whatever its client owns, the client keeps. *)
Definition plain {A} (p : program A) (post : A -> S -> Prop) (s0 : S) : Prop :=
  forall s, R s0 s -> I s -> forall G, exist_at G s ->
  rwp p (fun a G' s' => G' = G /\ keeps G s s' /\ post a s') G s.

Lemma plain_later {A} (p : program A) post s0 s1 : R s0 s1 -> plain p post s0 -> plain p post s1.
Proof. intros H01 Hp s H1. apply Hp. by etrans. Qed.

Lemma plain_start {A} (p : program A) post s0 : (forall s, R s0 s -> I s -> plain p post s) -> plain p post s0.
Proof. intros Hp s H0 Hs. exact (Hp s H0 Hs s (reflexivity s) Hs). Qed.

Lemma plain_ret {A} (a : A) (post : A -> S -> Prop) s0 :
  (forall s, R s0 s -> I s -> post a s) -> plain (Ret a) post s0.
Proof. intros Hp s H0 Hs G _ s1 H1 Hs1 K1. split_and!; [done|done|]. apply Hp; [by etrans|done]. Qed.

Lemma plain_mono {A} (p : program A) (post1 post2 : A -> S -> Prop) s0 :
  (forall a s, R s0 s -> I s -> post1 a s -> post2 a s) -> plain p post1 s0 -> plain p post2 s0.
Proof.
  intros Hpost Hp s H0 Hs G He. eapply rwp_mono; [|exact (Hp s H0 Hs G He)]. intros a G' s1 H1 Hs1 (-> & K & Ha).
  split_and!; [done|done|]. apply Hpost; [by etrans|done|done].
Qed.

Lemma plain_bind {A B} (p : program A) (g : A -> program B) post s0 :
  plain p (fun a s => plain (g a) post s) s0 -> plain (bind p g) post s0.
Proof.
  intros Hp s H0 Hs G He. apply rwp_bind. eapply rwp_mono; [|exact (Hp s H0 Hs G He)]. intros a G' s1 H1 Hs1 (-> & K & Ha).
  eapply rwp_mono; [|exact (Ha s1 (reflexivity s1) Hs1 G (exist_later _ _ _ H1 He))]. intros b G2 s2 H2 Hs2 (-> & K2 & Hb).
  split_and!; [done|by etrans|done].
Qed.

(** One step, and the rest is as good. *)
Lemma plain_advances {A} (p : program A) post G s s0 s1 :
  keeps G s0 s -> exist_at G s -> I s -> moves_all s s1 -> plain p post s1 ->
  advances G s s1 (fun G' => rwp p (fun a G' s' => G' = G /\ keeps G s0 s' /\ post a s') G' s1).
Proof.
  intros K0 He Hs Hm Hp. split; [by apply moves_all_with|]. exists ∅. split; [set_solver|]. rewrite union_empty_r_L.
  pose proof (moves_all_keeps _ _ _ He Hm) as K1. destruct Hm as (HI & HRs & _).
  eapply rwp_mono; [|exact (Hp s1 (reflexivity s1) HI G (exist_later _ _ _ HRs He))].
  intros a G' s2 H2 Hs2 (-> & K2 & Ha). split_and!; [done| |done]. etrans; [exact K0|]. by etrans.
Qed.

Lemma plain_act {A X} (f : S -> S * X) (k : X -> program A) post s0 :
  (forall s, R s0 s -> I s -> moves_all s (f s).1 /\ plain (k (f s).2) post (f s).1) -> plain (Act f k) post s0.
Proof.
  intros Hp s H0 Hs G He s1 H1 Hs1 K1. destruct (Hp s1) as [Hm Hk]; [by etrans|done|].
  by apply plain_advances; [|eapply exist_later| | |].
Qed.

Lemma plain_call {A X} (q : Q X) (k : X -> program A) post s0 :
  (forall s x, R s0 s -> I s -> moves_all s (answer _ q x s) /\ plain (k x) post (answer _ q x s)) -> plain (Call q k) post s0.
Proof.
  intros Hp s H0 Hs G He s1 H1 Hs1 K1 x. destruct (Hp s1 x) as [Hm Hk]; [by etrans|done|].
  by apply plain_advances; [|eapply exist_later| | |].
Qed.

Lemma plain_wait {A X} (e : Event X) d (k : X -> program A) post s0 :
  (forall s, R s0 s -> I s -> moves_all s (d s)) ->
  (forall s s' x, R s0 s -> I s -> fires answer e s s' x -> moves_all s s' /\ plain (k x) post s') ->
  plain (Wait e d k) post s0.
Proof.
  intros Hd Hp s H0 Hs G He s1 H1 Hs1 K1. split; [apply moves_all_with, Hd; [by etrans|done]|]. intros s' x Hf.
  destruct (Hp s1 s' x) as [Hm Hk]; [by etrans|done|done|]. by apply plain_advances; [|eapply exist_later| | |].
Qed.

(** A task that owns nothing. *)
Lemma plain_fork t (post : unit -> S -> Prop) s0 :
  (forall s, R s0 s -> I s -> task_pre t ∅ s /\ forall s', R s s' -> I s' -> post tt s') -> plain (fork t) post s0.
Proof.
  intros Hp s H0 Hs G He s1 H1 Hs1 K1. destruct (Hp s1) as [Ht Hk]; [by etrans|done|]. exists ∅, G.
  split_and!; [by rewrite union_empty_l_L|set_solver|done|]. intros s2 H2 Hs2 K2. split_and!; [done|by etrans|auto].
Qed.

(** A destructor that may run at any time. *)
Lemma rwp_guarded {A} d (p : program A) (post : A -> gset N -> S -> Prop) G s0 :
  (forall s, I s -> moves_all s (d s)) ->
  (forall a G s s', post a G s -> R s s' -> I s' -> keeps G s s' -> post a G s') ->
  exist_at G s0 -> rwp p post G s0 -> rwp (guarded d p) post G s0.
Proof.
  intros Hd Hst. assert (Hgrow : forall G s s' new, exist_at G s -> R s s' ->
    (forall n, n ∈ new -> ~ allocated n s /\ allocated n s') -> exist_at (G ∪ new) s').
  { intros G1 s s' new He HRs Hn n [Hi|Hi]%elem_of_union; [eapply allocated_later; eauto|by apply Hn]. }
  revert G s0. induction p as [a|m|X f k IH|X q k IH|X e dr k IH|t k IH]; cbn [rwp guarded];
    intros G s0 He Hp s H0 Hs K0; specialize (Hp s H0 Hs K0); pose proof (exist_later _ _ _ H0 He) as Hes.
  - pose proof (Hd s Hs) as Hm. split; [by apply moves_all_with|]. exists ∅. split; [set_solver|].
    rewrite union_empty_r_L. cbn. intros s1 H1 Hs1 K1. apply (Hst a G s); [done| |done|].
    + destruct Hm as (_ & HRs & _). by etrans.
    + etrans; [by apply moves_all_keeps|done].
  - done.
  - destruct Hp as (Hm & new & Hn & Hk). split; [done|]. exists new. split; [done|]. apply IH; [|done].
    eapply Hgrow; [done|apply Hm|done].
  - intros x. destruct (Hp x) as (Hm & new & Hn & Hk). split; [done|]. exists new. split; [done|]. apply IH; [|done].
    eapply Hgrow; [done|apply Hm|done].
  - destruct Hp as [(HId & HRd & Hfd) Hp]. split.
    { destruct (Hd _ HId) as (? & HRdd & Hfdd). split_and!; [done|by etrans|]. intros n Hn Ha.
      etrans; [by apply Hfd|]. apply Hfdd. by eapply allocated_later. }
    intros s' x Hf. destruct (Hp s' x Hf) as (Hm & new & Hn & Hk). split; [done|]. exists new. split; [done|]. apply IH; [|done].
    eapply Hgrow; [done|apply Hm|done].
  - destruct Hp as (G1 & G2 & -> & Hd2 & Ht & Hk). exists G1, G2. split_and!; [done..|]. apply IH; [|done].
    intros n Hn. apply Hes. set_solver.
Qed.

Lemma plain_guarded {A} d (p : program A) (post : A -> S -> Prop) s0 :
  (forall s, I s -> moves_all s (d s)) -> (forall a s s', post a s -> R s s' -> I s' -> post a s') ->
  plain p post s0 -> plain (guarded d p) post s0.
Proof.
  intros Hd Hst Hp s H0 Hs G He. apply rwp_guarded; [done| |done|by apply Hp].
  intros a G' s1 s2 (-> & K1 & Ha) H12 Hs2 K2. split_and!; [done|by etrans|eauto].
Qed.

(** ** Programs that own names *)

(** First something plain: what is owned stays as it is. *)
Lemma rwp_plain {A B} (p : program A) (g : A -> program B) (mid : A -> S -> Prop) post G s0 :
  exist_at G s0 -> plain p mid s0 ->
  (forall a s, R s0 s -> I s -> keeps G s0 s -> mid a s -> rwp (g a) post G s) -> rwp (bind p g) post G s0.
Proof.
  intros He Hp Hg. apply rwp_bind. apply rwp_start. intros s H0 Hs K0.
  eapply rwp_mono; [|exact (Hp s H0 Hs G (exist_later _ _ _ H0 He))]. intros a G' s1 H1 Hs1 (-> & K1 & Ha).
  apply Hg; [by etrans|done|by etrans|done].
Qed.

Lemma rwp_of_plain {A} (p : program A) (mid : A -> S -> Prop) post G s0 :
  exist_at G s0 -> plain p mid s0 -> (forall a s, R s0 s -> I s -> keeps G s0 s -> mid a s -> post a G s) -> rwp p post G s0.
Proof.
  intros He Hp Hpost. apply rwp_start. intros s H0 Hs K0. eapply rwp_mono; [|exact (Hp s H0 Hs G (exist_later _ _ _ H0 He))].
  intros a G' s1 H1 Hs1 (-> & K1 & Ha). apply Hpost; [by etrans|done|by etrans|done].
Qed.

(** A step that may change what is owned, and gives out no name. *)
Lemma rwp_act {X} (f : S -> S * X) (post : X -> gset N -> S -> Prop) G s0 :
  (forall s, R s0 s -> I s -> keeps G s0 s -> moves_with G s (f s).1 /\
     forall s', R (f s).1 s' -> I s' -> keeps G (f s).1 s' -> post (f s).2 G s') ->
  rwp (act f) post G s0.
Proof.
  intros Hp s H0 Hs K0. destruct (Hp s H0 Hs K0) as [Hm Hk]. split; [done|]. exists ∅. split; [set_solver|].
  by rewrite union_empty_r_L.
Qed.

Lemma rwp_call {X} (q : Q X) (post : X -> gset N -> S -> Prop) G s0 :
  (forall s x, R s0 s -> I s -> keeps G s0 s -> moves_with G s (answer _ q x s) /\
     forall s', R (answer _ q x s) s' -> I s' -> keeps G (answer _ q x s) s' -> post x G s') ->
  rwp (call q) post G s0.
Proof.
  intros Hp s H0 Hs K0 x. destruct (Hp s x H0 Hs K0) as [Hm Hk]. split; [done|]. exists ∅. split; [set_solver|].
  by rewrite union_empty_r_L.
Qed.

Lemma rwp_await {X} (f : S -> option (S * X)) (post : X -> gset N -> S -> Prop) G s0 :
  (forall s s' x, R s0 s -> I s -> keeps G s0 s -> f s = Some (s', x) -> moves_with G s s' /\
     forall s'', R s' s'' -> I s'' -> keeps G s' s'' -> post x G s'') ->
  rwp (await f) post G s0.
Proof.
  intros Hp s H0 Hs K0. split; [split_and!; [done..|reflexivity]|]. intros s' x Hf.
  destruct (Hp s s' x H0 Hs K0 Hf) as [Hm Hk]. split; [done|]. exists ∅. split; [set_solver|]. by rewrite union_empty_r_L.
Qed.

(** A step that gives out names. *)
Lemma rwp_new {X} (f : S -> S * X) (post : X -> gset N -> S -> Prop) (new : S -> gset N) G s0 :
  (forall s, R s0 s -> I s -> keeps G s0 s -> moves_with G s (f s).1 /\
     (forall n, n ∈ new s -> ~ allocated n s /\ allocated n (f s).1) /\
     forall s', R (f s).1 s' -> I s' -> keeps (G ∪ new s) (f s).1 s' -> post (f s).2 (G ∪ new s) s') ->
  rwp (act f) post G s0.
Proof. intros Hp s H0 Hs K0. destruct (Hp s H0 Hs K0) as (Hm & Hn & Hk). split; [done|]. by exists (new s). Qed.

(** A task takes some of the names. *)
Lemma rwp_fork t (post : unit -> gset N -> S -> Prop) G1 G2 s0 :
  G1 ## G2 -> (forall s, R s0 s -> I s -> keeps (G1 ∪ G2) s0 s -> task_pre t G1 s /\
     forall s', R s s' -> I s' -> keeps G2 s s' -> post tt G2 s') ->
  rwp (fork t) post (G1 ∪ G2) s0.
Proof. intros Hd Hp s H0 Hs K0. destruct (Hp s H0 Hs K0) as [Ht Hk]. exists G1, G2. by split_and!. Qed.

(** What is owned may be given up at any time. *)
Lemma rwp_weaken {A} (p : program A) (post : A -> gset N -> S -> Prop) G G' s0 :
  (forall a G1 s, post a G1 s -> forall G2, G1 ⊆ G2 -> post a G2 s) -> G ⊆ G' -> rwp p post G s0 -> rwp p post G' s0.
Proof.
  intros Hpost. assert (Hm : forall G G' s s', G ⊆ G' -> moves_with G s s' -> moves_with G' s s').
  { intros G1 G2 s s' Hs (HI & HRs & Hf). split_and!; [done..|]. intros n Hn. apply Hf. set_solver. }
  assert (Ha : forall G G' s s' K, G ⊆ G' -> (forall new, K (G ∪ new) -> K (G' ∪ new)) -> advances G s s' K -> advances G' s s' K).
  { intros G1 G2 s s' K Hs HK (Hmv & new & Hn & Hk). split; [by eapply Hm|]. exists new. auto. }
  revert G G' s0. induction p as [a|m|X f k IH|X q k IH|X e dr k IH|t k IH]; cbn [rwp]; intros G G' s0 Hs Hp s H0 Hi K0;
    specialize (Hp s H0 Hi (keeps_sub _ _ _ _ Hs K0)).
  - eauto.
  - done.
  - eapply Ha; [exact Hs| |exact Hp]. intros new. apply IH. set_solver.
  - intros x. eapply Ha; [exact Hs| |exact (Hp x)]. intros new. apply IH. set_solver.
  - destruct Hp as [Hd Hp]. split; [by eapply Hm|]. intros s' x Hf. eapply Ha; [exact Hs| |exact (Hp s' x Hf)].
    intros new. apply IH. set_solver.
  - destruct Hp as (G1 & G2 & -> & Hd & Ht & Hk). exists G1, (G' ∖ G1). split_and!.
    + apply set_eq. intros n. destruct (decide (n ∈ G1)); set_solver.
    + set_solver.
    + done.
    + eapply IH; [|exact Hk]. set_solver.
Qed.

(** ** Adequacy *)

Section Adequacy.
Context (body : T -> program unit) (api : program unit -> Prop).
Context (Hapi : forall p s, I s -> api p -> rwp p (fun _ _ _ => True) ∅ s).
Context (Hbody : forall t G s, I s -> exist_at G s -> task_pre t G s -> rwp (body t) (fun _ _ _ => True) G s).

(** The programs of a pool, each with its names; they own [G] together. *)
Inductive owned (s : S) : gset N -> list (program unit) -> Prop :=
| owned_nil : owned s ∅ []
| owned_cons G1 G2 p l : G1 ## G2 -> rwp p (fun _ _ _ => True) G1 s -> owned s G2 l -> owned s (G1 ∪ G2) (p :: l).

Lemma owned_later s s' G l : R s s' -> keeps G s s' -> owned s G l -> owned s' G l.
Proof.
  intros HRs HK Ho. induction Ho as [|G1 G2 p l Hd Hp _ IH]; [constructor|]. constructor; [done| |].
  - eapply rwp_later; [done| |done]. eapply keeps_sub; [|done]. set_solver.
  - apply IH. eapply keeps_sub; [|done]. set_solver.
Qed.

Lemma owned_app s G l1 l2 : owned s G (l1 ++ l2) <-> exists G1 G2, G = G1 ∪ G2 /\ G1 ## G2 /\ owned s G1 l1 /\ owned s G2 l2.
Proof.
  revert G. induction l1 as [|p l1 IH]; intros G; cbn.
  - split.
    + intros Ho. exists ∅, G. split_and!; [by rewrite union_empty_l_L|set_solver|constructor|done].
    + intros (G1 & G2 & -> & _ & H1 & H2). inversion H1; subst. by rewrite union_empty_l_L.
  - split.
    + intros Ho. inversion Ho as [|G1 G2 ? ? Hd Hp Hl]; subst. apply IH in Hl as (G3 & G4 & -> & Hd2 & H3 & H4).
      exists (G1 ∪ G3), G4. split_and!; [by rewrite (assoc_L (∪))|set_solver| |done]. constructor; [set_solver|done|done].
    + intros (G1 & G2 & -> & Hd & H1 & H2). inversion H1 as [|G3 G4 ? ? Hd2 Hp Hl]; subst.
      rewrite <- (assoc_L (∪)). constructor; [set_solver|done|]. apply IH. exists G4, G2. split_and!; [done|set_solver|done|done].
Qed.

Definition pool_owned (c : config (S := S) (Q := Q) (T := T)) : Prop :=
  I c.1 /\ exists G, exist_at G c.1 /\ owned c.1 G c.2.

Lemma exist_sub G G' s : G' ⊆ G -> exist_at G s -> exist_at G' s.
Proof. intros Hs He n Hn. apply He. set_solver. Qed.

(** What a program step gives: the owner keeps or gives away what it owns, with the names it was given. *)
Lemma tstep_rwp {A} s (p : program A) s' p' ts post G :
  tstep answer s p s' p' ts -> I s -> exist_at G s -> rwp p post G s ->
  moves_with G s s' /\ exists new G1 G2, (forall n, n ∈ new -> ~ allocated n s /\ allocated n s') /\
    G ∪ new = G1 ∪ G2 /\ G1 ## G2 /\ rwp p' post G2 s' /\ owned s' G1 (map body ts).
Proof.
  intros Hst Hs He Hp. assert (Hr : R s s) by done. assert (Hk : keeps G s s) by done.
  destruct Hst as [X f k|X q k x|X e d k s' x Hf|t k]; specialize (Hp s Hr Hs Hk); cbn [rwp] in Hp.
  - destruct Hp as (Hm & new & Hn & Hp). split; [done|]. exists new, ∅, (G ∪ new).
    split_and!; [done|by rewrite union_empty_l_L|set_solver|done|constructor].
  - destruct (Hp x) as (Hm & new & Hn & Hp'). split; [done|]. exists new, ∅, (G ∪ new).
    split_and!; [done|by rewrite union_empty_l_L|set_solver|done|constructor].
  - destruct Hp as [_ Hp]. destruct (Hp s' x Hf) as (Hm & new & Hn & Hp'). split; [done|]. exists new, ∅, (G ∪ new).
    split_and!; [done|by rewrite union_empty_l_L|set_solver|done|constructor].
  - destruct Hp as (G1 & G2 & -> & Hd & Ht & Hp). split; [split_and!; [done..|reflexivity]|]. exists ∅, G1, G2.
    split_and!; [set_solver|by rewrite union_empty_r_L|done|done|]. cbn. rewrite <- (union_empty_r_L G1).
    constructor; [set_solver|apply Hbody; [done| |done]; eapply exist_sub; [|done]; set_solver|constructor].
Qed.

Lemma step_owned c c' : step answer body api c c' -> pool_owned c -> pool_owned c' /\ R c.1 c'.1.
Proof.
  intros Hst [HI (G & He & Ho)]. destruct Hst as [s l1 p l2 s' p' ts Ht|s l p Hp|s l1 X e d k l2]; cbn in *.
  - apply owned_app in Ho as (G1 & G2 & -> & Hd & H1 & H2). inversion H2 as [|Gp G3 ? ? Hd2 Hp H3]; subst.
    assert (exist_at Gp s) as Hep by (eapply exist_sub; [|exact He]; set_solver).
    destruct (tstep_rwp _ _ _ _ _ _ _ Ht HI Hep Hp)
      as ((HI' & HR' & Hf) & new & Gt & Gq & Hn & E & Hd3 & Hq & Hts).
    split; [|done]. split; [done|]. cbn. exists (G1 ∪ (Gq ∪ (G3 ∪ Gt))).
    assert (Hnew : forall n, n ∈ new -> n ∉ G1 /\ n ∉ G3).
    { intros n Hi. destruct (Hn n Hi) as [Hna _]. split; intros Hg; apply Hna, He; set_solver. }
    assert (Hold : forall n, n ∈ G1 \/ n ∈ G3 -> n ∉ Gt /\ n ∉ Gq).
    { intros n Hi. assert (n ∉ Gp ∪ new) as Hnot by (intros [?|?]%elem_of_union; [set_solver|destruct (Hnew n); tauto]).
      rewrite E in Hnot. set_solver. }
    assert (Hkeep : forall n, n ∈ G1 \/ n ∈ G3 -> frame n s s').
    { intros n Hi. apply Hf; [set_solver|]. apply He. set_solver. }
    split.
    { intros n Hi. destruct (decide (n ∈ new)) as [Hin|Hni]; [by apply Hn|]. eapply allocated_later; [exact HR'|]. apply He.
      assert (n ∈ Gp ∪ new \/ n ∈ G1 \/ n ∈ G3) as [Hc|Hc] by (rewrite E; set_solver); set_solver. }
    apply owned_app. exists G1, (Gq ∪ (G3 ∪ Gt)). split_and!; [done|set_solver| |].
    + eapply owned_later; [done| |done]. intros n Hi. auto.
    + constructor; [set_solver|done|]. apply owned_app. exists G3, Gt. split_and!; [done|set_solver| |done].
      eapply owned_later; [done| |done]. intros n Hi. auto.
  - split; [|done]. split; [done|]. exists G. split; [done|]. apply owned_app. exists G, ∅.
    split_and!; [by rewrite union_empty_r_L|set_solver|done|]. cbn. rewrite <- (union_empty_r_L ∅).
    constructor; [set_solver|by apply Hapi|constructor].
  - apply owned_app in Ho as (G1 & G2 & -> & Hd & H1 & H2). inversion H2 as [|Gp G3 ? ? Hd2 Hp H3]; subst.
    destruct (Hp s (reflexivity s) HI (reflexivity s)) as [(HI' & HR' & Hf) _]. split; [|done]. split; [done|]. cbn.
    exists (G1 ∪ G3). assert (Hk : keeps (G1 ∪ G3) s (d s)). { intros n Hn. apply Hf; [set_solver|]. apply He. set_solver. }
    split; [eapply exist_later; [done|]; eapply exist_sub; [|done]; set_solver|]. apply owned_app. exists G1, G3.
    split_and!; [done|set_solver|eapply owned_later; [done| |done]|eapply owned_later; [done| |done]];
      (eapply keeps_sub; [|done]); set_solver.
Qed.

Lemma rwp_adequate c c' : rtc (step answer body api) c c' -> pool_owned c -> pool_owned c' /\ R c.1 c'.1.
Proof.
  induction 1 as [c|c1 c2 c3 Hst _ IH]; [done|]. intros Hok.
  destruct (step_owned _ _ Hst Hok) as [Hok2 HR2]. destruct (IH Hok2) as [Hok3 HR3]. split; [done|]. by etrans.
Qed.

(** No program of a reachable pool panics. *)
Lemma pool_owned_panics c m : pool_owned c -> Panic m ∉ c.2.
Proof.
  intros [HI (G & _ & Ho)] Hm. induction Ho as [|G1 G2 p l _ Hp _ IH]; [by apply elem_of_nil in Hm|].
  apply elem_of_cons in Hm as [<-|Hm]; [|by apply IH]. exact (Hp c.1 (reflexivity _) HI (reflexivity _)).
Qed.
End Adequacy.
End Rights.
