(* ===== verification/Protocol.v ===== *)
(** * Protocol: the order of a program's calls, as an automaton

    A protocol is a partial transition function on the labels of [trace]: what a program
    asks, with the answers, and the tasks it starts. [follows] is a program logic for it:
    [ord] of [Conc] with the automaton's phase in place of the history. *)

From stdpp Require Import base list relations.
From S2P Require Import Prelude StdModel Conc.

Open Scope prog_scope.

Section Automaton.
Context {S : Type} {Q : Type -> Type} {T : Type} {answer : forall X, Q X -> X -> S -> S}.
Context {L : Type} {label : forall X, Q X -> X -> L} {started : T -> L}.
Context {P : Type} (delta : P -> L -> option P).

Abbreviation program := (Prog (S := S) (Q := Q) (T := T)).

Fixpoint run_from (p : P) (ls : list L) : option P :=
  match ls with
  | [] => Some p
  | l :: ls => p' ← delta p l; run_from p' ls
  end.

Lemma run_from_app p l1 l2 : run_from p (l1 ++ l2) = (p' ← run_from p l1; run_from p' l2).
Proof. revert p. induction l1 as [|l l1 IH]; intros p; cbn; [done|]. destruct (delta p l); cbn; auto. Qed.

(** [ord] with the automaton's phase in place of the history. *)
Definition follows {A} (prog : program A) (p0 p : P) (post : P -> A -> Prop) : Prop :=
  forall h, run_from p0 h = Some p ->
    ord answer label started (fun h => is_Some (run_from p0 h)) prog h
      (fun h a => exists p', run_from p0 h = Some p' /\ post p' a).

Lemma follows_sound {A} (prog : program A) p0 post ls r :
  follows prog p0 p0 post -> trace answer label started prog ls r ->
  exists p, run_from p0 ls = Some p /\ forall a, r = Some a -> post p a.
Proof.
  intros Hf Htr. destruct (ord_sound _ _ _ _ prog [] _ ls r (Hf [] eq_refl)) as [[p Hp] Hr]; [by eexists|done|].
  cbn in Hp, Hr. exists p. split; [done|]. intros a Ha. destruct (Hr a Ha) as (p' & Hp' & Hpost). congruence.
Qed.

Lemma follows_ret {A} (a : A) p0 p (post : P -> A -> Prop) : post p a -> follows (Ret a) p0 p post.
Proof. intros Hp h Hh. cbn. eauto. Qed.

Lemma follows_panic {A} m p0 p (post : P -> A -> Prop) : follows (Panic m : program A) p0 p post.
Proof. by intros h Hh. Qed.

Lemma follows_bind {A B} (prog : program A) (g : A -> program B) p0 p mid post :
  follows prog p0 p mid -> (forall p' a, mid p' a -> follows (g a) p0 p' post) -> follows (bind prog g) p0 p post.
Proof.
  intros Hp Hg h Hh. apply ord_bind. eapply ord_mono; [|apply Hp, Hh].
  intros h' a (p' & Hp' & Hm). by apply (Hg p' a Hm).
Qed.

Lemma follows_act {X} (f : S -> S * X) p0 p : follows (act f) p0 p (fun p' _ => p' = p).
Proof. intros h Hh s. cbn. eauto. Qed.

Lemma run_step p0 h p l p' : run_from p0 h = Some p -> delta p l = Some p' -> run_from p0 (h ++ [l]) = Some p'.
Proof. intros Hh Hd. rewrite run_from_app, Hh. cbn. by rewrite Hd. Qed.

Lemma follows_call {X} (q : Q X) p0 p (post : P -> X -> Prop) :
  (forall x, exists p', delta p (label X q x) = Some p' /\ post p' x) -> follows (call q) p0 p post.
Proof.
  intros H h Hh x. destruct (H x) as (p' & Hd & Hp). pose proof (run_step _ _ _ _ _ Hh Hd) as Hr.
  split; [by eexists|]. cbn. eauto.
Qed.

Lemma follows_ask {X} (q : Q X) p0 p (post : P -> X -> Prop) :
  (forall x, exists p', delta p (label X q x) = Some p' /\ post p' x) -> follows (ask q) p0 p post.
Proof.
  intros H h Hh s s' x _. cbn. destruct (H x) as (p' & Hd & Hp). pose proof (run_step _ _ _ _ _ Hh Hd) as Hr.
  split; [by eexists|]. eauto.
Qed.

Lemma follows_await {X} (f : S -> option (S * X)) p0 p : follows (await f) p0 p (fun p' _ => p' = p).
Proof. intros h Hh s s' x _. cbn. rewrite app_nil_r. split; [by eexists|]. eauto. Qed.

Lemma follows_race {X Y} (q1 : Q X) (q2 : Q Y) p0 p (post : P -> X + Y -> Prop) :
  (forall x, exists p', delta p (label X q1 x) = Some p' /\ post p' (inl x)) ->
  (forall y, exists p', delta p (label Y q2 y) = Some p' /\ post p' (inr y)) ->
  follows (select2 (Answer q1) (Answer q2)) p0 p post.
Proof.
  intros H1 H2 h Hh s s' [x|y] _; cbn.
  - destruct (H1 x) as (p' & Hd & Hp). pose proof (run_step _ _ _ _ _ Hh Hd) as Hr. split; [by eexists|]. eauto.
  - destruct (H2 y) as (p' & Hd & Hp). pose proof (run_step _ _ _ _ _ Hh Hd) as Hr. split; [by eexists|]. eauto.
Qed.

Lemma follows_race_ready {X Y} (f : S -> option (S * X)) (q : Q Y) p0 p (post : P -> X + Y -> Prop) :
  (forall x, post p (inl x)) ->
  (forall y, exists p', delta p (label Y q y) = Some p' /\ post p' (inr y)) ->
  follows (select2 (Ready f) (Answer q)) p0 p post.
Proof.
  intros H1 H2 h Hh s s' [x|y] _; cbn.
  - rewrite app_nil_r. split; [by eexists|]. eauto.
  - destruct (H2 y) as (p' & Hd & Hp). pose proof (run_step _ _ _ _ _ Hh Hd) as Hr. split; [by eexists|]. eauto.
Qed.

Lemma follows_fork t p0 p (post : P -> unit -> Prop) :
  (exists p', delta p (started t) = Some p' /\ post p' tt) -> follows (fork t) p0 p post.
Proof.
  intros (p' & Hd & Hp) h Hh. pose proof (run_step _ _ _ _ _ Hh Hd) as Hr. split; [by eexists|]. cbn. eauto.
Qed.

Lemma follows_guarded {A} d (prog : program A) p0 p post :
  follows prog p0 p post -> follows (guarded d prog) p0 p post.
Proof.
  intros Hf h Hh. specialize (Hf h Hh). clear Hh. revert h Hf.
  induction prog as [a|m|X f k IH|X q k IH|X e dr k IH|t k IH]; intros h Hf; cbn [ord guarded] in *.
  - intros s. exact Hf.
  - done.
  - intros s. by apply IH.
  - intros x. destruct (Hf x). split; [done|]. by apply IH.
  - intros s s' x Hx. destruct (Hf s s' x Hx). split; [done|]. by apply IH.
  - destruct Hf. split; [done|]. by apply IH.
Qed.

Lemma follows_cancel_with {A} d (prog : program A) p0 p post :
  follows prog p0 p post -> follows (cancel_with d prog) p0 p post.
Proof.
  intros Hf h Hh. specialize (Hf h Hh). clear Hh. revert h Hf.
  induction prog as [a|m|X f k IH|X q k IH|X e dr k IH|t k IH]; intros h Hf; cbn [ord cancel_with] in *.
  - exact Hf.
  - done.
  - intros s. by apply IH.
  - intros x. destruct (Hf x). split; [done|]. by apply IH.
  - intros s s' x Hx. destruct (Hf s s' x Hx). split; [done|]. by apply IH.
  - destruct Hf. split; [done|]. by apply IH.
Qed.

(** In a phase that every action leaves as it is, nothing is left to check. *)
Lemma follows_sink {A} (prog : program A) p0 p :
  (forall l, delta p l = Some p) -> follows prog p0 p (fun p' _ => p' = p).
Proof.
  intros Hp h Hh. assert (Hall : forall ls h, run_from p0 h = Some p -> run_from p0 (h ++ ls) = Some p).
  { clear -Hp. induction ls as [|l ls IH]; intros h Hh; [by rewrite app_nil_r|].
    rewrite cons_middle, (assoc_L (++)). apply IH. by eapply run_step. }
  revert h Hh. induction prog as [a|m|X f k IH|X q k IH|X e dr k IH|t k IH]; intros h Hh; cbn [ord].
  - eauto.
  - done.
  - intros s. by apply IH.
  - intros x. split; [exists p; by apply Hall|]. apply IH. by apply Hall.
  - intros s s' x _. split; [exists p; by apply Hall|]. apply IH. by apply Hall.
  - split; [exists p; by apply Hall|]. apply IH. by apply Hall.
Qed.

(** Where the automaton accepts every action, any program follows it. *)
Lemma follows_any {A} (prog : program A) p0 p :
  (forall q l, is_Some (delta q l)) -> follows prog p0 p (fun _ _ => True).
Proof.
  intros Ht h _. assert (Hall : forall h q, is_Some (run_from q h)).
  { clear -Ht. induction h as [|l h IH]; intros q; cbn; [by eexists|]. destruct (Ht q l) as [q' ->]. apply IH. }
  eapply ord_mono; [|apply ord_any; intros h'; apply Hall]. intros h' a _. destruct (Hall h' p0) as [p' Hp']. eauto.
Qed.

(** ** With an invariant at the suspensions *)

(** [prog] goes on from phase [p] along the automaton to [post], and whenever it is suspended
    the phase satisfies [J]. *)
Fixpoint obeys (J : P -> Prop) {A} (prog : program A) (p : P) (post : P -> A -> Prop) : Prop :=
  match prog with
  | Ret a => post p a
  | Panic _ => True
  | Act f k => forall s, obeys J (k (f s).2) p post
  | Call q k => forall x, exists p', delta p (label _ q x) = Some p' /\ obeys J (k x) p' post
  | Wait e d k =>
      J p /\ forall s s' x, fires answer e s s' x ->
        exists p', run_from p (labels label e x) = Some p' /\ obeys J (k x) p' post
  | Fork t k => exists p', delta p (started t) = Some p' /\ obeys J k p' post
  end.

Lemma obeys_mono (J1 J2 : P -> Prop) {A} (prog : program A) p (post1 post2 : P -> A -> Prop) :
  (forall q, J1 q -> J2 q) -> (forall q a, post1 q a -> post2 q a) -> obeys J1 prog p post1 -> obeys J2 prog p post2.
Proof.
  intros HJ Hpost. revert p. induction prog as [a|m|X f k IH|X q k IH|X e d k IH|t k IH]; cbn [obeys]; intros p Hp.
  - by apply Hpost.
  - done.
  - intros s. apply IH, Hp.
  - intros x. destruct (Hp x) as (p' & ? & ?). eauto.
  - destruct Hp as [HJp Hp]. split; [by apply HJ|]. intros s s' x Hf. destruct (Hp s s' x Hf) as (p' & ? & ?). eauto.
  - destruct Hp as (p' & ? & ?). eauto.
Qed.

Lemma obeys_bind (J : P -> Prop) {A B} (prog : program A) (g : A -> program B) p mid post :
  obeys J prog p mid -> (forall p' a, mid p' a -> obeys J (g a) p' post) -> obeys J (bind prog g) p post.
Proof.
  intros Hp Hg. revert p Hp.
  induction prog as [a|m|X f k IH|X q k IH|X e d k IH|t k IH]; cbn [obeys bind]; intros p Hp.
  - by apply Hg.
  - done.
  - intros s. apply IH, Hp.
  - intros x. destruct (Hp x) as (p' & ? & ?). eauto.
  - destruct Hp as [HJp Hp]. split; [done|]. intros s s' x Hf. destruct (Hp s s' x Hf) as (p' & ? & ?). eauto.
  - destruct Hp as (p' & ? & ?). eauto.
Qed.

Lemma obeys_act (J : P -> Prop) {X} (f : S -> S * X) p (post : P -> X -> Prop) :
  (forall x, post p x) -> obeys J (act f) p post.
Proof. intros Hp s. cbn. apply Hp. Qed.

Lemma obeys_call (J : P -> Prop) {X} (q : Q X) p (post : P -> X -> Prop) :
  (forall x, exists p', delta p (label X q x) = Some p' /\ post p' x) -> obeys J (call q) p post.
Proof. intros H x. destruct (H x) as (p' & ? & ?). exists p'. by split. Qed.

Lemma obeys_ask (J : P -> Prop) {X} (q : Q X) p (post : P -> X -> Prop) :
  J p -> (forall x, exists p', delta p (label X q x) = Some p' /\ post p' x) -> obeys J (ask q) p post.
Proof.
  intros HJ H. split; [done|]. intros s s' x _. destruct (H x) as (p' & Hd & ?). exists p'. cbn. by rewrite Hd.
Qed.

(** A select whose first branch asks nothing: it may end the select at any suspension. *)
Lemma obeys_select (J J' : P -> Prop) {A X} (f : S -> option (S * X)) (done : X -> option A) (prog : program A) p post :
  J p -> (forall q, J q -> J' q) -> (forall q x, J q -> exists a, done x = Some a /\ post q a) ->
  obeys J prog p post -> obeys J' (select_biased f done prog) p post.
Proof.
  intros HJp HJ Hdone Hprog. intros s.
  assert (Hsus : obeys J' (select_suspended f done prog) p post).
  { clear s HJp. revert p Hprog.
    induction prog as [a|m|Y g k IH|Y q k IH|Y e d k IH|t k IH]; cbn [obeys select_suspended]; intros p Hp.
    - done.
    - done.
    - intros s. apply IH, Hp.
    - intros x. destruct (Hp x) as (p' & ? & ?). eauto.
    - destruct Hp as [HJp Hp]. split; [by apply HJ|]. intros s s' [x|y] Hf; cbn [fires labels] in *.
      + exists p. split; [done|]. destruct (Hdone p x HJp) as (a & -> & Ha). intros s0. exact Ha.
      + destruct Hf as [_ Hf]. destruct (Hp s s' y Hf) as (p' & ? & ?). eauto.
    - destruct Hp as (p' & ? & ?). eauto. }
  destruct (f s) as [[s' x]|]; cbn [snd]; [|done]. destruct (Hdone p x HJp) as (a & -> & Ha). exact Ha.
Qed.

Lemma obeys_race (J J' : P -> Prop) {A Y} (e : Event Y) (prog : program A) p (post : P -> A + Y -> Prop) :
  J p -> (forall q, J q -> J' q) ->
  (forall q s s' y, J q -> fires answer e s s' y -> exists q', run_from q (labels label e y) = Some q' /\ post q' (inr y)) ->
  obeys J prog p (fun q a => post q (inl a)) -> obeys J' (race e prog) p post.
Proof.
  intros HJp HJ Hev Hprog. split; [by apply HJ|]. intros s s' [y|u] Hf; cbn [fires labels] in *.
  { destruct (Hev p s s' y HJp Hf) as (q' & ? & ?). eauto. }
  exists p. split; [done|]. clear s s' u Hf HJp. revert p Hprog.
  induction prog as [a|m|X g k IH|X q k IH|X e' d k IH|t k IH]; cbn [obeys race_suspended]; intros p Hp.
  - done.
  - done.
  - intros s. apply IH, Hp.
  - intros x. destruct (Hp x) as (p' & ? & ?). eauto.
  - destruct Hp as [HJp Hp]. split; [by apply HJ|]. intros s s' [x|y] Hf; cbn [fires labels] in *.
    + destruct (Hp s s' x Hf) as (p' & ? & ?). eauto.
    + destruct (Hev p s s' y HJp Hf) as (q' & ? & ?). exists q'. split; [done|]. intros s0. done.
  - destruct Hp as (p' & ? & ?). eauto.
Qed.

(** Under [catch] a panic is a value too. *)
Lemma obeys_catch_bind (J : P -> Prop) {A B} (prog : program A) (g : A -> program B) p mid post :
  obeys J (catch prog) p mid -> (forall p' a, mid p' (Ok a) -> obeys J (catch (g a)) p' post) ->
  (forall p' m, mid p' (Err m) -> post p' (Err m)) -> obeys J (catch (bind prog g)) p post.
Proof.
  intros Hp Hg Hm. revert p Hp.
  induction prog as [a|m|X f k IH|X q k IH|X e d k IH|t k IH]; cbn [obeys bind catch]; intros p Hp.
  - by apply Hg.
  - by apply Hm.
  - intros s. apply IH, Hp.
  - intros x. destruct (Hp x) as (p' & ? & ?). eauto.
  - destruct Hp as [HJp Hp]. split; [done|]. intros s s' x Hf. destruct (Hp s s' x Hf) as (p' & ? & ?). eauto.
  - destruct Hp as (p' & ? & ?). eauto.
Qed.

Lemma obeys_follows (J : P -> Prop) {A} (prog : program A) p0 p post : obeys J prog p post -> follows prog p0 p post.
Proof.
  revert p. induction prog as [a|m|X f k IH|X q k IH|X e d k IH|t k IH]; cbn [obeys]; intros p Hp h Hh; cbn [ord].
  - eauto.
  - done.
  - intros s. by apply (IH _ p).
  - intros x. destruct (Hp x) as (p' & Hd & Hk). pose proof (run_step _ _ _ _ _ Hh Hd) as Hr.
    split; [by eexists|]. by apply (IH x p').
  - destruct Hp as [_ Hp]. intros s s' x Hf. destruct (Hp s s' x Hf) as (p' & Hd & Hk).
    assert (Hr : run_from p0 (h ++ labels label e x) = Some p') by (rewrite run_from_app, Hh; exact Hd).
    split; [by eexists|]. by apply (IH x p').
  - destruct Hp as (p' & Hd & Hk). pose proof (run_step _ _ _ _ _ Hh Hd) as Hr. split; [by eexists|]. by apply (IH p').
Qed.

Lemma obeys_sound (J : P -> Prop) {A} (prog : program A) p0 post ls r :
  obeys J prog p0 post -> trace answer label started prog ls r ->
  exists p, run_from p0 ls = Some p /\ forall a, r = Some a -> post p a.
Proof. intros Ho. apply follows_sound. by eapply obeys_follows. Qed.

End Automaton.

(** ** Programs that keep to some actions *)

Section Quiet.
Context {S : Type} {Q : Type -> Type} {T : Type} {answer : forall X, Q X -> X -> S -> S}.
Context {L : Type} {label : forall X, Q X -> X -> L} {started : T -> L}.

(** The automaton that accepts the actions [ok] and remembers nothing. *)
Definition only (ok : L -> bool) (_ : unit) (l : L) : option unit := if ok l then Some tt else None.

Lemma run_only ok u ls u' : run_from (only ok) u ls = Some u' -> Forall (fun l => ok l = true) ls.
Proof.
  revert u. induction ls as [|l ls IH]; intros u H; [by constructor|]. cbn in H. change (only ok u l) with (if ok l then Some tt else None) in H.
  destruct (ok l) eqn:E; cbn in H; [|done]. constructor; [exact E|]. exact (IH tt H).
Qed.

(** A phase that the actions leave as it is, is the phase at the end. *)
Lemma obeys_only {P} (delta : P -> L -> option P) (J : P -> Prop) ok {A} (prog : Prog (S := S) (Q := Q) (T := T) A) p
    (post : A -> Prop) :
  obeys (answer := answer) (label := label) (started := started) (only ok) (fun _ => True) prog tt (fun _ => post) ->
  J p -> (forall l, ok l = true -> delta p l = Some p) ->
  obeys (answer := answer) (label := label) (started := started) delta J prog p (fun p' a => p' = p /\ post a).
Proof.
  intros Hp HJ Hok.
  assert (Hall : forall ls, Forall (fun l => ok l = true) ls -> run_from delta p ls = Some p).
  { induction 1 as [|l ls Hl _ IH]; cbn; [done|]. rewrite (Hok _ Hl). exact IH. }
  revert Hp. induction prog as [a|m|X f k IH|X c k IH|X e d k IH|t k IH]; cbn [obeys]; intros Hp.
  - done.
  - done.
  - intros s. apply IH, Hp.
  - intros x. destruct (Hp x) as ([] & Hd & Hk). unfold only in Hd. destruct (ok _) eqn:E; [|done]. eauto.
  - destruct Hp as [_ Hp]. split; [done|]. intros s s' x Hf. destruct (Hp s s' x Hf) as ([] & Hd & Hk).
    apply run_only in Hd. eauto.
  - destruct Hp as ([] & Hd & Hk). unfold only in Hd. destruct (ok _) eqn:E; [|done]. eauto.
Qed.
End Quiet.
