(* ===== verification/Ownership.v ===== *)
(** * Ownership: a separation logic for programs of several owners

    The programs of [Conc] run in processes of the operating system, the owners: an
    owner can die at any moment, with all its programs and without running any
    destructor but those of the kernel. [pstep] is the interleaving semantics of
    [Conc] with owners and their deaths; [owp] is a weakest precondition for it in
    Iris' base logic: between two steps a program owns resources that no other
    program touches, and the state interpretation owns what is shared. A program
    that is dropped at a suspension gives back a resource of its own, its [Ψ]. *)

From iris.proofmode Require Import proofmode.
From iris.base_logic.lib Require Export own.
From iris.base_logic.lib Require Import ghost_map.
From stdpp Require Import base list gmap relations.
From S2P Require Import Prelude StdModel Conc.

Section Ownership.
Context {S : Type} {Q : Type -> Type} {T : Type}.
Context (answer : forall X, Q X -> X -> S -> S).
(** What a task runs, and what the kernel does to the state when an owner dies. *)
Context (body : nat -> T -> Prog (S := S) (Q := Q) (T := T) unit) (die : nat -> S -> S).

Abbreviation program := (Prog (S := S) (Q := Q) (T := T)).

(** The state, the owners that have died, and the programs with their owners. *)
Record config : Type := mkConfig {
  c_dead : gset nat;
  c_state : S;
  c_pool : list (nat * program unit);
}.

(** A pool step: a program moves (its tasks have its owner), a living owner calls an operation
    of [api], a suspended program is dropped, or an owner dies. *)
Inductive pstep (api : nat -> program unit -> Prop) : config -> config -> Prop :=
| ps_thread D s l1 a p l2 s' p' ts :
    tstep answer s p s' p' ts ->
    pstep api (mkConfig D s (l1 ++ (a, p) :: l2))
      (mkConfig D s' (l1 ++ (a, p') :: l2 ++ map (fun t => (a, body a t)) ts))
| ps_call D s l a p :
    a ∉ D -> api a p -> pstep api (mkConfig D s l) (mkConfig D s (l ++ [(a, p)]))
| ps_drop D s l1 a X (e : Event X) d k l2 :
    pstep api (mkConfig D s (l1 ++ (a, Wait e d k) :: l2)) (mkConfig D (d s) (l1 ++ l2))
| ps_die D s l a :
    pstep api (mkConfig D s l) (mkConfig ({[a]} ∪ D) (die a s) (filter (fun ap => ap.1 <> a) l)).

(** Only living owners have programs. *)
Definition pool_alive (c : config) : Prop := forall ap, ap ∈ c_pool c -> ap.1 ∉ c_dead c.

Lemma pstep_alive api c c' : pstep api c c' -> pool_alive c -> pool_alive c'.
Proof.
  intros Hst Hc. destruct Hst as [D s l1 a p l2 s' p' ts _|D s l a p Ha _|D s l1 a X e d k l2|D s l a];
    intros ap; cbn.
  - assert (a ∉ D) by (apply (Hc (a, p)); cbn; set_solver).
    rewrite elem_of_app elem_of_cons elem_of_app list_elem_of_fmap.
    intros [?|[->|[?|(t & -> & _)]]]; [|done| |done]; apply (Hc ap); cbn; set_solver.
  - rewrite elem_of_app elem_of_cons elem_of_nil. intros [?|[->|[]]]; [by apply (Hc ap)|done].
  - rewrite elem_of_app. intros ?. apply (Hc ap); cbn; set_solver.
  - rewrite list_elem_of_filter. intros [Hne Hin]. specialize (Hc _ Hin). cbn in Hc. set_solver.
Qed.

(** ** The weakest precondition *)

Section Logic.
Context {Σ : gFunctors}.
(** The state interpretation, and what a task owns when it starts. *)
Context (SI : gset nat -> S -> iProp Σ) (task : nat -> T -> iProp Σ).

Fixpoint owp {A} (a : nat) (p : program A) (Φ : A -> iProp Σ) (Ψ : iProp Σ) : iProp Σ :=
  match p with
  | Ret v => |==> Φ v
  | Panic _ => False
  | Act f k => ∀ D s, ⌜a ∉ D⌝ -∗ SI D s ==∗ SI D (f s).1 ∗ owp a (k (f s).2) Φ Ψ
  | Call q k =>
      ∀ D s x, ⌜a ∉ D⌝ -∗ SI D s ==∗ SI D (answer _ q x s) ∗ owp a (k x) Φ Ψ
  | Wait e d k =>
      (∀ D s, ⌜a ∉ D⌝ -∗ SI D s ==∗ SI D (d s) ∗ Ψ) ∧
      (∀ D s s' x, ⌜a ∉ D⌝ -∗ ⌜fires answer e s s' x⌝ -∗ SI D s ==∗ SI D s' ∗ owp a (k x) Φ Ψ)
  | Fork t k => |==> task a t ∗ owp a k Φ Ψ
  end%I.

(** A destructor that may run now, leaving [Ψ]. *)
Definition drops (a : nat) (d : S -> S) (Ψ : iProp Σ) : iProp Σ :=
  ∀ D s, ⌜a ∉ D⌝ -∗ SI D s ==∗ SI D (d s) ∗ Ψ.

Lemma owp_ret {A} a (v : A) Φ Ψ : Φ v ⊢ owp a (Ret v) Φ Ψ.
Proof. by iIntros "$". Qed.

Lemma owp_bupd {A} a (p : program A) Φ Ψ : (|==> owp a p Φ Ψ) ⊢ owp a p Φ Ψ.
Proof.
  destruct p; cbn [owp]; iIntros "H".
  - by iMod "H".
  - by iApply bupd_elim.
  - iIntros (D s Ha) "Hs". iMod "H". by iApply "H".
  - iIntros (D s x Ha) "Hs". iMod "H". by iApply "H".
  - iSplit.
    + iIntros (D s Ha) "Hs". iMod "H" as "[H _]". by iApply "H".
    + iIntros (D s s' x Ha Hf) "Hs". iMod "H" as "[_ H]". by iApply "H".
  - by iMod "H".
Qed.

Lemma owp_wand {A} a (p : program A) Φ1 Φ2 Ψ1 Ψ2 :
  owp a p Φ1 Ψ1 -∗ ((∀ v, Φ1 v ==∗ Φ2 v) ∧ (Ψ1 ==∗ Ψ2)) -∗ owp a p Φ2 Ψ2.
Proof.
  iIntros "Hp H". iInduction p as [v|m|X f k|X q k|X e d k|t k] "IH"; cbn [owp].
  - iMod "Hp". iDestruct "H" as "[H _]". by iApply "H".
  - done.
  - iIntros (D s Ha) "Hs". iMod ("Hp" with "[//] Hs") as "[$ Hp]". iModIntro. iApply ("IH" with "Hp H").
  - iIntros (D s x Ha) "Hs". iMod ("Hp" with "[//] Hs") as "[$ Hp]". iModIntro. iApply ("IH" with "Hp H").
  - iSplit.
    + iIntros (D s Ha) "Hs". iDestruct "Hp" as "[Hp _]". iMod ("Hp" with "[//] Hs") as "[$ Hp]".
      iDestruct "H" as "[_ H]". by iApply "H".
    + iIntros (D s s' x Ha Hf) "Hs". iDestruct "Hp" as "[_ Hp]".
      iMod ("Hp" with "[//] [//] Hs") as "[$ Hp]". iModIntro. iApply ("IH" with "Hp H").
  - iMod "Hp" as "[$ Hp]". iModIntro. iApply ("IH" with "Hp H").
Qed.

Lemma owp_mono {A} a (p : program A) Φ1 Φ2 Ψ :
  (forall v, Φ1 v ⊢ Φ2 v) -> owp a p Φ1 Ψ ⊢ owp a p Φ2 Ψ.
Proof.
  iIntros (H) "Hp". iApply (owp_wand with "Hp"). iSplit; [|by iIntros "$"].
  iIntros (v) "Hv". iModIntro. by iApply H.
Qed.

Lemma owp_frame {A} a (p : program A) P Φ Ψ :
  P -∗ owp a p Φ Ψ -∗ owp a p (fun v => P ∗ Φ v) (P ∗ Ψ).
Proof. iIntros "HP Hp". iApply (owp_wand with "Hp"). iSplit; iIntros; by iFrame. Qed.

Lemma owp_bind {A B} a (p : program A) (g : A -> program B) Φ Ψ :
  owp a p (fun v => owp a (g v) Φ Ψ) Ψ ⊢ owp a (bind p g) Φ Ψ.
Proof.
  iIntros "Hp". iInduction p as [v|m|X f k|X q k|X e d k|t k] "IH"; cbn [owp bind].
  - by iApply owp_bupd.
  - done.
  - iIntros (D s Ha) "Hs". iMod ("Hp" with "[//] Hs") as "[$ Hp]". by iApply "IH".
  - iIntros (D s x Ha) "Hs". iMod ("Hp" with "[//] Hs") as "[$ Hp]". by iApply "IH".
  - iSplit.
    + iIntros (D s Ha) "Hs". iDestruct "Hp" as "[Hp _]". by iApply ("Hp" with "[//] Hs").
    + iIntros (D s s' x Ha Hf) "Hs". iDestruct "Hp" as "[_ Hp]".
      iMod ("Hp" with "[//] [//] Hs") as "[$ Hp]". by iApply "IH".
  - iMod "Hp" as "[$ Hp]". by iApply "IH".
Qed.

(** A first part with its own postcondition; on a drop, [Ψ1] and the rest give [Ψ]. *)
Lemma owp_seq {A B} a (p : program A) (g : A -> program B) Φ1 Ψ1 Φ Ψ :
  owp a p Φ1 Ψ1 -∗ ((∀ v, Φ1 v -∗ owp a (g v) Φ Ψ) ∧ (Ψ1 ==∗ Ψ)) -∗ owp a (bind p g) Φ Ψ.
Proof.
  iIntros "Hp H". iApply owp_bind. iApply (owp_wand with "Hp"). iSplit.
  - iIntros (v) "Hv". iDestruct "H" as "[H _]". iModIntro. by iApply "H".
  - by iDestruct "H" as "[_ H]".
Qed.

Lemma owp_act {X} a (f : S -> S * X) Φ Ψ :
  (∀ D s, ⌜a ∉ D⌝ -∗ SI D s ==∗ SI D (f s).1 ∗ Φ (f s).2) ⊢ owp a (act f) Φ Ψ.
Proof. iIntros "H" (D s Ha) "Hs". iMod ("H" with "[//] Hs") as "[$ H]". by iModIntro. Qed.

Lemma owp_reads {X} a (f : S -> X) Φ Ψ :
  (∀ D s, ⌜a ∉ D⌝ -∗ SI D s ==∗ SI D s ∗ Φ (f s)) ⊢ owp a (reads f) Φ Ψ.
Proof. apply (owp_act _ (fun s => (s, f s))). Qed.

Lemma owp_modify a (f : S -> S) Φ Ψ :
  (∀ D s, ⌜a ∉ D⌝ -∗ SI D s ==∗ SI D (f s) ∗ Φ tt) ⊢ owp a (modify f) Φ Ψ.
Proof. apply (owp_act _ (fun s => (f s, tt))). Qed.

Lemma owp_call {X} a (q : Q X) Φ Ψ :
  (∀ D s x, ⌜a ∉ D⌝ -∗ SI D s ==∗ SI D (answer _ q x s) ∗ Φ x) ⊢ owp a (call q) Φ Ψ.
Proof. iIntros "H" (D s x Ha) "Hs". iMod ("H" with "[//] Hs") as "[$ H]". by iModIntro. Qed.

Lemma owp_wait {X} a (e : Event X) Φ Ψ :
  Ψ ∧ (∀ D s s' x, ⌜a ∉ D⌝ -∗ ⌜fires answer e s s' x⌝ -∗ SI D s ==∗ SI D s' ∗ Φ x)
  ⊢ owp a (Wait e id Ret) Φ Ψ.
Proof.
  iIntros "H". iSplit.
  - iIntros (D s Ha) "$". by iDestruct "H" as "[$ _]".
  - iIntros (D s s' x Ha Hf) "Hs". iDestruct "H" as "[_ H]".
    iMod ("H" with "[//] [//] Hs") as "[$ H]". by iModIntro.
Qed.

(** A program that has a step of its own before it returns may look at the state first. *)
Definition acts_first {A} (p : program A) : bool :=
  match p with Act _ _ | Call _ _ => true | _ => false end.

Lemma owp_open {A} a (p : program A) Φ Ψ :
  acts_first p = true ->
  (∀ D s, ⌜a ∉ D⌝ -∗ SI D s ==∗ SI D s ∗ owp a p Φ Ψ) -∗ owp a p Φ Ψ.
Proof.
  iIntros (Hp) "H". destruct p; try done; cbn [owp].
  - iIntros (D s Ha) "Hs". iMod ("H" with "[//] Hs") as "[Hs Hp]". by iApply "Hp".
  - iIntros (D s x Ha) "Hs". iMod ("H" with "[//] Hs") as "[Hs Hp]". by iApply "Hp".
Qed.

Lemma owp_fork a t Φ Ψ : task a t ∗ Φ tt ⊢ owp a (fork t) Φ Ψ.
Proof. by iIntros "[$ $]". Qed.

Lemma owp_guarded {A} a d (p : program A) Φ Ψ :
  owp a p (fun v => drops a d (Φ v)) (drops a d Ψ) ⊢ owp a (guarded d p) Φ Ψ.
Proof.
  iIntros "Hp". iInduction p as [v|m|X f k|X q k|X e dr k|t k] "IH"; cbn [owp guarded].
  - iIntros (D s Ha) "Hs". iMod "Hp". iMod ("Hp" with "[//] Hs") as "[$ H]". by iModIntro.
  - done.
  - iIntros (D s Ha) "Hs". iMod ("Hp" with "[//] Hs") as "[$ Hp]". by iApply "IH".
  - iIntros (D s x Ha) "Hs". iMod ("Hp" with "[//] Hs") as "[$ Hp]". by iApply "IH".
  - iSplit.
    + iIntros (D s Ha) "Hs". iDestruct "Hp" as "[Hp _]". iMod ("Hp" with "[//] Hs") as "[Hs Hp]".
      by iApply ("Hp" with "[//] Hs").
    + iIntros (D s s' x Ha Hf) "Hs". iDestruct "Hp" as "[_ Hp]".
      iMod ("Hp" with "[//] [//] Hs") as "[$ Hp]". by iApply "IH".
  - iMod "Hp" as "[$ Hp]". by iApply "IH".
Qed.

Lemma owp_cancel_with {A} a d (p : program A) Φ Ψ :
  owp a p Φ (drops a d Ψ) ⊢ owp a (cancel_with d p) Φ Ψ.
Proof.
  iIntros "Hp". iInduction p as [v|m|X f k|X q k|X e dr k|t k] "IH"; cbn [owp cancel_with].
  - done.
  - done.
  - iIntros (D s Ha) "Hs". iMod ("Hp" with "[//] Hs") as "[$ Hp]". by iApply "IH".
  - iIntros (D s x Ha) "Hs". iMod ("Hp" with "[//] Hs") as "[$ Hp]". by iApply "IH".
  - iSplit.
    + iIntros (D s Ha) "Hs". iDestruct "Hp" as "[Hp _]". iMod ("Hp" with "[//] Hs") as "[Hs Hp]".
      by iApply ("Hp" with "[//] Hs").
    + iIntros (D s s' x Ha Hf) "Hs". iDestruct "Hp" as "[_ Hp]".
      iMod ("Hp" with "[//] [//] Hs") as "[$ Hp]". by iApply "IH".
  - iMod "Hp" as "[$ Hp]". by iApply "IH".
Qed.
End Logic.

(** A program that starts no task needs no assumption on tasks. *)
Lemma owp_task {Σ} SI task1 task2 {A} a (p : program A) Φ (Ψ : iProp Σ) :
  (forall t, task1 a t ⊢ task2 a t) -> owp SI task1 a p Φ Ψ ⊢ owp SI task2 a p Φ Ψ.
Proof.
  iIntros (Ht) "Hp". iInduction p as [v|m|X f k|X q k|X e d k|t k] "IH"; cbn [owp].
  - done.
  - done.
  - iIntros (D s Ha) "Hs". iMod ("Hp" with "[//] Hs") as "[$ Hp]". by iApply "IH".
  - iIntros (D s x Ha) "Hs". iMod ("Hp" with "[//] Hs") as "[$ Hp]". by iApply "IH".
  - iSplit.
    + by iDestruct "Hp" as "[Hp _]".
    + iIntros (D s s' x Ha Hf) "Hs". iDestruct "Hp" as "[_ Hp]".
      iMod ("Hp" with "[//] [//] Hs") as "[$ Hp]". by iApply "IH".
  - iMod "Hp" as "[Htask Hp]". iModIntro. iSplitL "Htask"; [by iApply Ht|by iApply "IH"].
Qed.

(** ** Adequacy: what the state interpretation says holds in every reachable pool *)

Section Adequacy.
Context {Σ : gFunctors} (SI : gset nat -> S -> iProp Σ) (task : nat -> T -> iProp Σ).
Context (api : nat -> program unit -> Prop).
Context (Hapi : forall a p, api a p -> ⊢ owp SI task a p (fun _ => True) True).
Context (Hbody : forall a t, task a t ⊢ owp SI task a (body a t) (fun _ => True) True).
Context (Hdie : forall D s a, SI D s ==∗ SI ({[a]} ∪ D) (die a s)).

Definition pool_res (c : config) : iProp Σ :=
  SI (c_dead c) (c_state c) ∗ [∗ list] ap ∈ c_pool c, owp SI task ap.1 ap.2 (fun _ => True) True.

Lemma tstep_owp {A} a s (p : program A) s' p' ts D Φ Ψ :
  tstep answer s p s' p' ts -> a ∉ D ->
  SI D s -∗ owp SI task a p Φ Ψ ==∗ SI D s' ∗ owp SI task a p' Φ Ψ ∗ [∗ list] t ∈ ts, task a t.
Proof.
  iIntros (Hst Ha) "Hs Hp". destruct Hst; cbn [owp].
  - iMod ("Hp" with "[//] Hs") as "[$ $]". by iModIntro.
  - iMod ("Hp" with "[//] Hs") as "[$ $]". by iModIntro.
  - iDestruct "Hp" as "[_ Hp]". iMod ("Hp" with "[//] [//] Hs") as "[$ $]". by iModIntro.
  - iMod "Hp" as "[Ht Hp]". iModIntro. cbn. iFrame.
Qed.

Lemma pool_filter (l : list (nat * program unit)) P `{!forall x, Decision (P x)} :
  ([∗ list] ap ∈ l, owp SI task ap.1 ap.2 (fun _ => True) True) -∗
  [∗ list] ap ∈ filter P l, owp SI task ap.1 ap.2 (fun _ => True) True.
Proof.
  iIntros "H". iInduction l as [|ap l] "IH"; [done|]. iDestruct "H" as "[Hp H]".
  rewrite filter_cons. case_decide; [iFrame "Hp"|]; by iApply "IH".
Qed.

Lemma pstep_res c c' : pstep api c c' -> pool_alive c -> pool_res c ==∗ pool_res c'.
Proof.
  iIntros (Hst Hc) "[Hs Hl]".
  destruct Hst as [D s l1 a p l2 s' p' ts Ht|D s l a p Ha Hp|D s l1 a X e d k l2|D s l a]; cbn.
  - assert (a ∉ D) as Ha by (apply (Hc (a, p)); cbn; set_solver).
    iDestruct (big_sepL_app with "Hl") as "[Hl1 [Hp Hl2]]". cbn.
    iMod (tstep_owp with "Hs Hp") as "($ & Hp & Hts)"; [done..|]. iModIntro.
    rewrite big_sepL_app big_sepL_cons big_sepL_app. iFrame. rewrite big_sepL_fmap. cbn.
    iApply (big_sepL_impl with "Hts"). iIntros "!>" (? ? _) "Ht". by iApply Hbody.
  - iFrame. iModIntro. cbn. iSplitL; [|done]. by iApply Hapi.
  - assert (a ∉ D) as Ha by (apply (Hc (a, Wait e d k)); cbn; set_solver).
    iDestruct (big_sepL_app with "Hl") as "[Hl1 [Hp Hl2]]". cbn [owp snd fst].
    iDestruct "Hp" as "[Hp _]". iMod ("Hp" with "[//] Hs") as "[$ _]". iModIntro.
    rewrite big_sepL_app. iFrame.
  - iMod (Hdie with "Hs") as "$". iModIntro. by iApply pool_filter.
Qed.

Lemma pool_res_rtc c c' : rtc (pstep api) c c' -> pool_alive c -> pool_res c ==∗ pool_res c'.
Proof.
  induction 1 as [c|c1 c2 c3 Hst _ IH]; iIntros (Hc) "H"; [done|].
  iMod (pstep_res with "H") as "H"; [done..|]. iApply (IH with "H"). by eapply pstep_alive.
Qed.

Lemma owp_adequate (φ : gset nat -> S -> Prop) c c' :
  (forall D s, SI D s ⊢ ⌜φ D s⌝) -> rtc (pstep api) c c' -> pool_alive c ->
  pool_res c ==∗ ⌜φ (c_dead c') (c_state c')⌝.
Proof.
  iIntros (Hφ Hst Hc) "H". iMod (pool_res_rtc with "H") as "[H _]"; [done..|].
  iModIntro. by iApply Hφ.
Qed.

(** No program of a reachable pool has panicked. *)
Lemma owp_no_panic c c' a message :
  rtc (pstep api) c c' -> pool_alive c -> (a, Panic message) ∈ c_pool c' -> pool_res c ==∗ False.
Proof.
  iIntros (Hst Hc Hin) "H". iMod (pool_res_rtc with "H") as "[_ H]"; [done..|].
  by iDestruct (big_sepL_elem_of with "H") as "H".
Qed.
End Adequacy.

(** ** A scheduler *)

Section Scheduler.
Context (oracle : S -> forall X, Q X -> option X).

Inductive turn : Type :=
| Go (i : nat)
| Enter (a : nat) (p : program unit)
| Leave (i : nat)
| Die (a : nat).

Definition take_turn (fuel : nat) (c : config) (t : turn) : config :=
  match t with
  | Go i =>
      match c_pool c !! i with
      | Some (a, p) =>
          let '(s', p', ts) := exec_thread answer oracle fuel (c_state c) p [] in
          mkConfig (c_dead c) s'
            (take i (c_pool c) ++ (a, p') :: drop (Datatypes.S i) (c_pool c) ++ map (fun t => (a, body a t)) ts)
      | None => c
      end
  | Enter a p =>
      if decide (a ∈ c_dead c) then c else mkConfig (c_dead c) (c_state c) (c_pool c ++ [(a, p)])
  | Leave i =>
      match c_pool c !! i with
      | Some (a, Wait e d k) =>
          mkConfig (c_dead c) (d (c_state c)) (take i (c_pool c) ++ drop (Datatypes.S i) (c_pool c))
      | _ => c
      end
  | Die a => mkConfig ({[a]} ∪ c_dead c) (die a (c_state c)) (filter (fun ap => ap.1 <> a) (c_pool c))
  end.

Definition take_turns (fuel : nat) (ts : list turn) (c : config) : config := foldl (take_turn fuel) c ts.

Definition enters (api : nat -> program unit -> Prop) (t : turn) : Prop :=
  match t with Enter a p => api a p | _ => True end.

Lemma exec_thread_psteps api fuel D s a p ts s' p' ts' l1 l2 :
  exec_thread answer oracle fuel s p ts = (s', p', ts') ->
  rtc (pstep api) (mkConfig D s (l1 ++ (a, p) :: l2 ++ map (fun t => (a, body a t)) ts))
    (mkConfig D s' (l1 ++ (a, p') :: l2 ++ map (fun t => (a, body a t)) ts')).
Proof.
  revert s p ts. induction fuel as [|fuel IH]; cbn [exec_thread]; intros s p ts H; [by simplify_eq|].
  destruct (exec_step answer oracle s p) as [[[s1 p1] ts1]|] eqn:E; [|by simplify_eq].
  apply IH in H. eapply rtc_l; [|exact H]. apply exec_step_tstep in E.
  rewrite map_app (assoc_L (++)). by apply ps_thread.
Qed.

Lemma take_turns_reachable api fuel ts c :
  Forall (enters api) ts -> rtc (pstep api) c (take_turns fuel ts c).
Proof.
  intros Hb. revert c. induction Hb as [|t ts Ht _ IH]; intros c; [done|].
  cbn [take_turns foldl]. etrans; [|apply IH]. clear IH. destruct c as [D s l]. destruct t as [i|a p|i|a]; cbn.
  - destruct (l !! i) as [[a p]|] eqn:Hi; [|done].
    destruct (exec_thread answer oracle fuel s p []) as [[s' p'] ts'] eqn:E.
    eapply (exec_thread_psteps api fuel D s a) in E. simpl in E. rewrite app_nil_r in E.
    by rewrite -{1}(take_drop_middle l i (a, p) Hi).
  - case_decide; [done|]. apply rtc_once. by apply ps_call.
  - destruct (l !! i) as [[a []]|] eqn:Hi; try done.
    rewrite -{1}(take_drop_middle l i _ Hi). apply rtc_once. apply ps_drop.
  - apply rtc_once. apply ps_die.
Qed.
End Scheduler.
End Ownership.

(** ** Facts that never change *)

Section FixedMap.
Context {Σ : gFunctors} {K V : Type} `{Countable K} `{!ghost_mapG Σ K V}.
Implicit Types (m : gmap K V) (k : K) (v : V).

(** A map that only grows: each entry can be kept by whoever has read it. *)
Definition fixed_map (γ : gname) m : iProp Σ := ghost_map_auth γ 1 m ∗ [∗ map] k ↦ v ∈ m, k ↪[γ]□ v.

Lemma fixed_map_lookup γ m k v : m !! k = Some v -> fixed_map γ m -∗ k ↪[γ]□ v.
Proof. iIntros (E) "[_ Hm]". by iApply (big_sepM_lookup with "Hm"). Qed.

Lemma fixed_map_agree γ m k v : fixed_map γ m -∗ k ↪[γ]□ v -∗ ⌜m !! k = Some v⌝.
Proof. iIntros "[Ha _] Hk". iApply (ghost_map_lookup with "Ha Hk"). Qed.

Lemma fixed_map_insert γ m k v :
  m !! k = None -> fixed_map γ m ==∗ fixed_map γ (<[k := v]> m) ∗ k ↪[γ]□ v.
Proof.
  iIntros (E) "[Ha Hm]". iMod (ghost_map_insert_persist k v with "Ha") as "[$ #Hk]"; [done|].
  iModIntro. iFrame "Hk". rewrite big_sepM_insert; [|done]. by iFrame "Hk Hm".
Qed.

Lemma fixed_map_alloc m : ⊢ |==> ∃ γ, fixed_map γ m.
Proof.
  iMod (ghost_map_alloc m) as (γ) "[Ha Hm]". iExists γ. iFrame "Ha".
  iApply big_sepM_bupd. iApply (big_sepM_impl with "Hm"). iIntros "!>" (k v _) "Hk".
  by iApply ghost_map_elem_persist.
Qed.
End FixedMap.

(** A set of marks: one more. *)
Lemma fixed_map_mark {Σ : gFunctors} `{Countable K} `{!ghost_mapG Σ K unit} γ (m : gmap K unit) k :
  fixed_map γ m ==∗ fixed_map γ (<[k := tt]> m) ∗ k ↪[γ]□ tt.
Proof.
  iIntros "Hm". destruct (m !! k) as [[]|] eqn:E.
  - iDestruct (fixed_map_lookup with "Hm") as "#Hk"; [done|]. iModIntro. rewrite insert_id; [|done]. by iFrame "Hm".
  - by iApply fixed_map_insert.
Qed.
