(* ===== verification/Ports.v ===== *)
(** * Ports: the calls the supervisor makes outside itself

    shepherd-app/src/ports.rs. [Port X] is a call of the backend, the clock, the
    timer or the publisher that answers an [X]; nothing is assumed of the answers
    (an asynchronous [wait] or [sample] may also panic). [port_call] is the history
    of answered calls. *)

From stdpp Require Import base list gmap strings.
From S2P Require Import Prelude StdModel Values Usage Observation.

Open Scope Z_scope.

Abbreviation Instant := Z (only parsing).

Record Spawned : Type := mkSpawned { spawned_os : OsIdentity }.

Record TerminateOptions : Type := mkTerminateOptions {
  opt_grace : GracePeriod;
  opt_force_timeout : option Duration;
}.

Definition terminate_default : TerminateOptions :=
  mkTerminateOptions grace_default (Some (from_secs 10)).

(** An output observer: a shared handle, compared by address. *)
Record ProcessOutput : Type := mkProcessOutput { output_handle : nat }.

#[global] Instance terminate_options_eq_dec : EqDecision TerminateOptions.
Proof. solve_decision. Defined.
#[global] Instance spawned_eq_dec : EqDecision Spawned.
Proof. solve_decision. Defined.
#[global] Instance process_output_eq_dec : EqDecision ProcessOutput.
Proof. solve_decision. Defined.

(** What [AssertUnwindSafe(f).catch_unwind().await] gives. *)
Inductive unwound (A : Type) : Type :=
| Returned (a : A)
| Unwound.
#[global] Arguments Returned {A} a.
#[global] Arguments Unwound {A}.

(** One observation of the sampler, raced with its timeout and its abort handle. *)
Inductive observation : Type :=
| Observed (r : unwound (result RawStats StatsError))
| ObservationTimeout
| ObservationAborted.

Inductive Port : Type -> Type :=
| BackendSpawn (scope : ProcessScopeId) (spec : ProcessSpec) : Port (result Spawned SpawnError)
| BackendSignal (target : Spawned) (signal : Signal) : Port (result unit TerminateError)
| BackendCleanupScope (scope : ProcessScopeId) : Port (result unit TerminateError)
| BackendWait (target : Spawned) : Port (unwound (result RawExit WaitError))
(** The next finished future of a [FuturesUnordered] of samples: its index. *)
| BackendSampled (pending : list (ProcessId * Spawned)) : Port (nat * observation)
| BackendScopeUsage (scope : ProcessScopeId) : Port (result ScopeUsage ObservationError)
| BackendOutput (target : Spawned) : Port (option ProcessOutput)
| BackendHardKillAll : Port unit
| BackendHardKillScope (scope : ProcessScopeId) : Port unit
| ClockNow : Port Instant
| ClockSleep (d : Duration) : Port unit
| TimerElapsed (d : Duration) : Port unit
| IntervalTick (d : Duration) : Port unit
| PublisherPublish (e : IntegrationEvent) : Port unit.

Inductive port_call : Type :=
| DidSpawn (scope : ProcessScopeId) (spec : ProcessSpec) (r : result Spawned SpawnError)
| DidSignal (target : Spawned) (signal : Signal) (r : result unit TerminateError)
| DidCleanupScope (scope : ProcessScopeId) (r : result unit TerminateError)
| DidWait (target : Spawned) (r : unwound (result RawExit WaitError))
| DidHardKillAll
| DidHardKillScope (scope : ProcessScopeId)
| DidSleep (d : Duration)
| DidElapse (d : Duration)
| DidPublish (e : IntegrationEvent)
(** Observations: usage samples, output handles, clock readings, sampler ticks. *)
| DidObserve
(** Not a call: the attachment of a process, at its place in the history. *)
| DidAttach (pid : ProcessId).

Definition port_label (X : Type) (q : Port X) : X -> port_call :=
  match q in Port X return X -> port_call with
  | BackendSpawn scope spec => DidSpawn scope spec
  | BackendSignal target signal => DidSignal target signal
  | BackendCleanupScope scope => DidCleanupScope scope
  | BackendWait target => DidWait target
  | BackendHardKillAll => fun _ => DidHardKillAll
  | BackendHardKillScope scope => fun _ => DidHardKillScope scope
  | ClockSleep d => fun _ => DidSleep d
  | TimerElapsed d => fun _ => DidElapse d
  | PublisherPublish e => fun _ => DidPublish e
  | BackendSampled _ | BackendScopeUsage _ | BackendOutput _ | ClockNow | IntervalTick _ => fun _ => DidObserve
  end.
