(* ===== verification/History.v ===== *)
(** * History: the supervisor's reports and bounded histories

    The values of shepherd-app/src/supervisor.rs that outlive a process or a
    scope: termination reports and their retained form, the published cleanup
    result, the last attached OS identities, and the unclaimed output captures.
    Each history is a queue of at most 256 identifiers beside a map. *)

From stdpp Require Import base list gmap strings.
From S2P Require Import Prelude StdModel Values Waiters Ports.

Open Scope Z_scope.

(** ** Reports *)

Record ScopeTerminationReport : Type := mkReport {
  report_scope : ProcessScopeId;
  report_outcomes : list (ProcessId * TerminationOutcome);
}.

Definition report_all_verified (r : ScopeTerminationReport) : bool :=
  forallb (fun x => is_verified x.2) (report_outcomes r).

Record ShutdownReport : Type := mkShutdownReport { shutdown_scopes : list ScopeTerminationReport }.

Inductive RetainedScopeOutcomes : Type :=
| RetainedEmpty
| RetainedOne (outcome : ProcessId * TerminationOutcome)
| RetainedMany (outcomes : list (ProcessId * TerminationOutcome)).

Record RetainedScopeReport : Type := mkRetained {
  retained_scope : ProcessScopeId;
  retained_outcomes : RetainedScopeOutcomes;
}.

Definition retain (r : ScopeTerminationReport) : RetainedScopeReport :=
  mkRetained (report_scope r)
    match report_outcomes r with
    | [] => RetainedEmpty
    | [outcome] => RetainedOne outcome
    | outcomes => RetainedMany outcomes
    end.

Definition retained_report (r : RetainedScopeReport) : ScopeTerminationReport :=
  mkReport (retained_scope r)
    match retained_outcomes r with
    | RetainedEmpty => []
    | RetainedOne outcome => [outcome]
    | RetainedMany outcomes => outcomes
    end.

Lemma retained_retain r : retained_report (retain r) = r.
Proof. by destruct r as [scope [|o [|o' l]]]. Qed.

Lemma report_all_verified_spec r pid o :
  report_all_verified r = true -> (pid, o) ∈ report_outcomes r -> is_verified o = true.
Proof.
  unfold report_all_verified. rewrite forallb_forall. intros H Hin.
  apply (H (pid, o)). by apply list_elem_of_In.
Qed.

(** ** The published result of a scope's cleanup *)

Abbreviation CleanupResult := (result ScopeTerminationReport TerminateError) (only parsing).

Definition verified_result (r : option CleanupResult) : option ScopeTerminationReport :=
  match r with
  | Some (Ok report) => if report_all_verified report then Some report else None
  | _ => None
  end.

(** [send_if_modified]: the new value of the channel. *)
Definition publish_scope_cleanup_result (current : option CleanupResult) (r : CleanupResult) : option CleanupResult :=
  match verified_result current with
  | Some _ => current
  | None => Some r
  end.

Lemma verified_result_Some r report :
  verified_result r = Some report -> r = Some (Ok report) /\ report_all_verified report = true.
Proof. destruct r as [[x|]|]; simpl; try done. destruct (report_all_verified x) eqn:E; naive_solver. Qed.

Lemma publish_verified_kept current r report :
  verified_result current = Some report -> publish_scope_cleanup_result current r = current.
Proof. unfold publish_scope_cleanup_result. by intros ->. Qed.

Lemma publish_verified_from current r report :
  verified_result (publish_scope_cleanup_result current r) = Some report ->
  verified_result current = Some report \/ r = Ok report /\ report_all_verified report = true.
Proof.
  unfold publish_scope_cleanup_result. destruct (verified_result current) as [x|] eqn:E.
  - rewrite E. auto.
  - intros [[= ->] H]%verified_result_Some. auto.
Qed.

(** ** Queues of at most [bound] identifiers beside a map *)

(** [order.push_back(id); while order.len() > bound { map.remove(&order.pop_front()) }]. *)
Definition push_bounded {A} (bound : nat) (order : list N) (m : gmap N A) (id : N) : list N * gmap N A :=
  evict (length order + 1) bound (order ++ [id]) m.

Lemma push_bounded_spec {A} bound order (m : gmap N A) id :
  NoDup order -> id ∉ order ->
  push_bounded bound order m id =
    (drop (length order + 1 - bound) (order ++ [id]),
     filter (fun x => x.1 ∉ take (length order + 1 - bound) (order ++ [id])) m).
Proof.
  intros Hnd Hid. unfold push_bounded. rewrite evict_spec, !length_app; [done|rewrite length_app; simpl; lia|].
  apply NoDup_app. split_and!; [done| |apply NoDup_singleton]. set_solver.
Qed.

(** The queue never exceeds its bound, whatever it holds. *)
Lemma evict_length {A} fuel bound l (m : gmap N A) :
  (length l <= fuel)%nat -> (length (evict fuel bound l m).1 <= bound)%nat.
Proof.
  revert l m. induction fuel as [|fuel IH]; intros l m Hf; cbn [evict].
  - simpl. destruct l; simpl in *; lia.
  - destruct (Nat.ltb_spec bound (length l)) as [Hlt|Hge]; [|done].
    destruct l as [|old l]; [simpl; lia|]. apply IH. simpl in Hf. lia.
Qed.

Lemma push_bounded_length {A} bound order (m : gmap N A) id :
  (length (push_bounded bound order m id).1 <= bound)%nat.
Proof. apply evict_length. rewrite length_app. simpl. lia. Qed.

Lemma evict_sub {A} fuel bound l (m : gmap N A) k x :
  (evict fuel bound l m).2 !! k = Some x -> m !! k = Some x.
Proof.
  revert l m. induction fuel as [|fuel IH]; intros l m; cbn [evict]; [done|].
  destruct (_ <? _)%nat; [|done]. destruct l as [|old l]; [done|].
  intros H%IH. by apply lookup_delete_Some in H as [_ ?].
Qed.

Lemma push_bounded_sub {A} bound order (m : gmap N A) id k x :
  (push_bounded bound order m id).2 !! k = Some x -> m !! k = Some x.
Proof. apply evict_sub. Qed.

(** An entry that is left is still in the queue, if it was. *)
Lemma evict_kept {A} fuel bound l (m : gmap N A) k x :
  (evict fuel bound l m).2 !! k = Some x -> k ∈ l -> k ∈ (evict fuel bound l m).1.
Proof.
  revert l m. induction fuel as [|fuel IH]; intros l m; cbn [evict]; [done|].
  destruct (_ <? _)%nat; [|done]. destruct l as [|old l]; [done|]. intros H [->|Hin]%elem_of_cons; [|by apply IH].
  apply evict_sub in H. by rewrite lookup_delete_eq in H.
Qed.

Lemma push_bounded_kept {A} bound order (m : gmap N A) id k x :
  (push_bounded bound order m id).2 !! k = Some x -> k ∈ order \/ k = id -> k ∈ (push_bounded bound order m id).1.
Proof. intros H Hk. eapply evict_kept; [exact H|]. set_solver. Qed.

(** ** The last attached OS identities *)

Definition OS_PID_HISTORY_BOUND : nat := 256.
Definition SCOPE_REPORT_HISTORY_BOUND : nat := 256.

Record OsPidHistory : Type := mkOsPidHistory {
  by_pid : gmap ProcessId Z;
  order : list ProcessId;
}.

Definition os_history_default : OsPidHistory := mkOsPidHistory ∅ [].

Definition remember (h : OsPidHistory) (pid : ProcessId) (os_pid : Z) : OsPidHistory :=
  match by_pid h !! pid with
  | Some _ => mkOsPidHistory (<[pid := os_pid]> (by_pid h)) (order h)
  | None =>
      let '(order', by_pid') := push_bounded OS_PID_HISTORY_BOUND (order h) (<[pid := os_pid]> (by_pid h)) pid in
      mkOsPidHistory by_pid' order'
  end.

Definition os_history_get (h : OsPidHistory) (pid : ProcessId) : option Z := by_pid h !! pid.

Record os_history_wf (h : OsPidHistory) : Prop := {
  oh_nodup : NoDup (order h);
  oh_dom : forall pid, is_Some (by_pid h !! pid) <-> pid ∈ order h;
  oh_bound : (length (order h) <= OS_PID_HISTORY_BOUND)%nat;
}.

Lemma os_history_default_wf : os_history_wf os_history_default.
Proof.
  split; simpl; [constructor| |unfold OS_PID_HISTORY_BOUND; lia].
  intros pid. rewrite lookup_empty, elem_of_nil. split; [by intros []|done].
Qed.

Lemma remember_wf h pid os_pid : os_history_wf h -> os_history_wf (remember h pid os_pid).
Proof.
  intros [Hnd Hdom Hb]. unfold remember. destruct (by_pid h !! pid) as [x|] eqn:E.
  - split; simpl; [done| |done]. intros q. rewrite <- Hdom.
    destruct (decide (q = pid)) as [->|?]; [|by rewrite lookup_insert_ne].
    rewrite lookup_insert_eq, E. split; eauto.
  - assert (Hni : pid ∉ order h) by (rewrite <- Hdom, E; by intros []).
    rewrite push_bounded_spec by done. cbn [by_pid order].
    set (n := (length (order h) + 1 - OS_PID_HISTORY_BOUND)%nat).
    assert (Hnd' : NoDup (order h ++ [pid])).
    { apply NoDup_app. split_and!; [done| |apply NoDup_singleton]. set_solver. }
    assert (Hcover : forall q, q ∈ take n (order h ++ [pid]) -> q ∉ drop n (order h ++ [pid])).
    { rewrite <- (take_drop n (order h ++ [pid])) in Hnd'. apply NoDup_app in Hnd' as (_ & ? & _). done. }
    split; cbn [by_pid order].
    + rewrite <- (take_drop n (order h ++ [pid])) in Hnd'. by apply NoDup_app in Hnd' as (_ & _ & ?).
    + intros q. trans (q ∈ order h ++ [pid] /\ q ∉ take n (order h ++ [pid])).
      * rewrite elem_of_app, list_elem_of_singleton, <- Hdom. unfold is_Some.
        setoid_rewrite map_lookup_filter_Some. setoid_rewrite lookup_insert_Some. simpl.
        split; [naive_solver|]. intros [[[x Hx]| ->] Hq]; [|naive_solver].
        exists x. split; [|done]. right. split; [|done]. intros ->. by rewrite E in Hx.
      * rewrite <- (take_drop n (order h ++ [pid])) at 1. rewrite elem_of_app. naive_solver.
    + rewrite length_drop, length_app. simpl. subst n. lia.
Qed.

Lemma remember_fresh h pid os_pid :
  os_history_wf h -> pid ∉ order h ->
  let n := (length (order h) + 1 - OS_PID_HISTORY_BOUND)%nat in
  order (remember h pid os_pid) = drop n (order h ++ [pid]) /\
  forall q x, os_history_get (remember h pid os_pid) q = Some x <->
    (q = pid /\ x = os_pid \/ os_history_get h q = Some x) /\ q ∉ take n (order h ++ [pid]).
Proof.
  intros [Hnd Hdom Hb] Hni n. unfold remember, os_history_get.
  destruct (by_pid h !! pid) as [x|] eqn:E; [destruct Hni; by rewrite <- Hdom, E|].
  rewrite push_bounded_spec by done. cbn [by_pid order]. split; [done|]. intros q x.
  rewrite map_lookup_filter_Some, lookup_insert_Some. cbn [fst]. fold n. split.
  - naive_solver.
  - intros [[[-> ->]|Hq] Ht]; [naive_solver|]. split; [|done]. right. split; [|done]. by intros ->; congruence.
Qed.

(** The OS identity of a process stays known for exactly the last 256 attachments:
    after any sequence of attachments of distinct processes, the history answers the OS pid
    of each of the last 256 and nothing for the others, whether or not they were reaped. *)
Theorem os_history_window (l : list (ProcessId * Z)) :
  NoDup l.*1 ->
  let h := foldl (fun h x => remember h x.1 x.2) os_history_default l in
  let window := drop (length l - OS_PID_HISTORY_BOUND) l in
  order h = window.*1 /\
  (forall pid os, os_history_get h pid = Some os <-> (pid, os) ∈ window) /\
  (length (order h) <= OS_PID_HISTORY_BOUND)%nat.
Proof.
  intros Hnd h window.
  assert (os_history_wf h /\ order h = window.*1 /\
    forall pid os, os_history_get h pid = Some os <-> (pid, os) ∈ window) as (Hwf & Ho & Hg).
  2: { split_and!; [done..|]. apply Hwf. }
  subst h window. revert Hnd. induction l as [|[pid os] l IH] using rev_ind; intros Hnd.
  { split_and!; [apply os_history_default_wf|done|]. intros pid os. rewrite drop_nil.
    unfold os_history_get; simpl. rewrite lookup_empty, elem_of_nil. done. }
  rewrite fmap_app in Hnd. apply NoDup_app in Hnd as (Hnd & Hni & _).
  destruct (IH Hnd) as (Hwf & Ho & Hg). clear IH. rewrite foldl_app. cbn [foldl fst snd].
  set (h := foldl _ _ _) in *.
  assert (Hfresh : pid ∉ order h).
  { rewrite Ho, fmap_drop. intros Hin. apply (Hni pid); [|by left].
    rewrite <- (take_drop (length l - OS_PID_HISTORY_BOUND) (l.*1)). set_solver. }
  destruct (remember_fresh h pid os Hwf Hfresh) as [Ho' Hg'].
  assert (Hdrop : forall (A : Type) (x : A) (k : list A), length k = length l ->
    drop (length (drop (length k - OS_PID_HISTORY_BOUND) k) + 1 - OS_PID_HISTORY_BOUND)
      (drop (length k - OS_PID_HISTORY_BOUND) k ++ [x]) = drop (length k + 1 - OS_PID_HISTORY_BOUND) (k ++ [x])).
  { intros A x k _. rewrite length_drop. rewrite <- drop_app_le by lia. rewrite drop_drop. f_equal. lia. }
  rewrite length_app. cbn [length]. split_and!.
  - by apply remember_wf.
  - rewrite Ho', Ho, !fmap_drop, fmap_app. cbn [fmap list_fmap fst].
    rewrite <- (length_fmap fst l). rewrite Hdrop by by rewrite length_fmap. by rewrite length_fmap.
  - intros q x. rewrite Hg', Hg. rewrite <- (Hdrop _ (pid, os) l) by done.
    set (w := drop (length l - OS_PID_HISTORY_BOUND) l) in *.
    assert (Hw : NoDup ((w ++ [(pid, os)]).*1)).
    { rewrite fmap_app, <- Ho. apply NoDup_app. split_and!; [apply Hwf| |apply NoDup_singleton]. set_solver. }
    rewrite Ho, length_fmap. set (n := (length w + 1 - OS_PID_HISTORY_BOUND)%nat).
    change ([pid]) with ([(pid, os)].*1). rewrite <- fmap_app, <- fmap_take.
    rewrite <- (take_drop n (w ++ [(pid, os)])) in Hw. rewrite fmap_app in Hw.
    apply NoDup_app in Hw as (_ & Hw & _). split.
    + intros [Hx Ht]. assert ((q, x) ∈ w ++ [(pid, os)]) as Hin by set_solver.
      rewrite <- (take_drop n (w ++ [(pid, os)])) in Hin. apply elem_of_app in Hin as [Hin|?]; [|done].
      destruct Ht. apply list_elem_of_fmap. by exists (q, x).
    + intros Hin. split.
      * assert ((q, x) ∈ w ++ [(pid, os)]) as Hin'.
        { rewrite <- (take_drop n (w ++ [(pid, os)])). set_solver. }
        set_solver.
      * intros Ht. apply (Hw q Ht). apply list_elem_of_fmap. by exists (q, x).
Qed.

Lemma os_history_window_witness :
  NoDup [(1%N, 10); (2%N, 20)].*1 /\
  os_history_get (foldl (fun h x => remember h x.1 x.2) os_history_default [(1%N, 10); (2%N, 20)]) 2 = Some 20.
Proof.
  assert (NoDup [(1%N, 10); (2%N, 20)].*1) as Hnd by (vm_compute; repeat constructor; set_solver).
  split; [exact Hnd|]. apply (os_history_window [(1%N, 10); (2%N, 20)] Hnd).
  vm_compute. right. left.
Defined.

(** ** Unclaimed output captures *)

Definition COMPLETED_BOUND : nat := 256.

(** The body of [retain_completed_output] on [inner.completed] and [inner.outputs]. *)
Definition retain_completed (completed : list ProcessId) (outputs : gmap ProcessId ProcessOutput)
    (pid : ProcessId) : list ProcessId * gmap ProcessId ProcessOutput :=
  if bool_decide (is_Some (outputs !! pid)) && negb (bool_decide (pid ∈ completed))
  then push_bounded COMPLETED_BOUND completed outputs pid
  else (completed, outputs).

(** The body of [take_output]: the claimed observer, and what is left. *)
Definition take_completed (completed : list ProcessId) (outputs : gmap ProcessId ProcessOutput)
    (pid : ProcessId) : list ProcessId * gmap ProcessId ProcessOutput * option ProcessOutput :=
  (filter (fun q => q <> pid) completed, delete pid outputs, outputs !! pid).

Record output_history_wf (completed : list ProcessId) (outputs : gmap ProcessId ProcessOutput) : Prop := {
  uh_nodup : NoDup completed;
  uh_sub : forall pid, pid ∈ completed -> is_Some (outputs !! pid);
  uh_bound : (length completed <= COMPLETED_BOUND)%nat;
}.

Lemma output_history_insert completed outputs pid o :
  output_history_wf completed outputs -> output_history_wf completed (<[pid := o]> outputs).
Proof.
  intros [H1 H2 H3]. split; [done| |done]. intros q Hq%H2. destruct (decide (q = pid)) as [->|].
  - rewrite lookup_insert_eq. eauto.
  - by rewrite lookup_insert_ne.
Qed.

Lemma output_history_retain completed outputs pid :
  output_history_wf completed outputs ->
  output_history_wf (retain_completed completed outputs pid).1 (retain_completed completed outputs pid).2.
Proof.
  intros Hh. pose proof Hh as [H1 H2 H3]. unfold retain_completed. destruct (bool_decide _) eqn:Eo; simpl; [|done].
  apply bool_decide_eq_true in Eo. case_bool_decide as Ec; simpl; [done|].
  rewrite push_bounded_spec by done. simpl.
  assert (Hnd : NoDup (completed ++ [pid])).
  { apply NoDup_app. split_and!; [done| |apply NoDup_singleton]. set_solver. }
  set (n := (length completed + 1 - COMPLETED_BOUND)%nat).
  rewrite <- (take_drop n (completed ++ [pid])) in Hnd. apply NoDup_app in Hnd as (_ & Hdis & Hnd).
  split; [done| |].
  - intros q Hq. assert (q ∈ completed ++ [pid]) as Hin.
    { rewrite <- (take_drop n (completed ++ [pid])). set_solver. }
    assert (is_Some (outputs !! q)) as [x Hx] by set_solver.
    exists x. apply map_lookup_filter_Some. split; [done|]. simpl. intros Ht. by destruct (Hdis q).
  - rewrite length_drop, length_app. simpl. lia.
Qed.

Lemma output_history_take completed outputs pid :
  output_history_wf completed outputs ->
  output_history_wf (take_completed completed outputs pid).1.1 (take_completed completed outputs pid).1.2.
Proof.
  intros [H1 H2 H3]. split; simpl.
  - by apply NoDup_filter.
  - intros q [Hq Hin]%list_elem_of_filter. rewrite lookup_delete_ne by done. auto.
  - pose proof (length_filter (fun q => q <> pid) completed). lia.
Qed.

(** What the histories see: a capture attached, a verified completion, a claim. *)
Inductive output_op : Type :=
| OutputAttached (pid : ProcessId) (o : ProcessOutput)
| OutputCompleted (pid : ProcessId)
| OutputTaken (pid : ProcessId).

Definition output_apply (h : list ProcessId * gmap ProcessId ProcessOutput) (op : output_op) :
    list ProcessId * gmap ProcessId ProcessOutput :=
  match op with
  | OutputAttached pid o => (h.1, <[pid := o]> h.2)
  | OutputCompleted pid => retain_completed h.1 h.2 pid
  | OutputTaken pid => (take_completed h.1 h.2 pid).1
  end.

Definition output_run (ops : list output_op) (h : list ProcessId * gmap ProcessId ProcessOutput) :
    list ProcessId * gmap ProcessId ProcessOutput :=
  foldl output_apply h ops.

Lemma output_apply_wf h op : output_history_wf h.1 h.2 ->
  output_history_wf (output_apply h op).1 (output_apply h op).2.
Proof.
  intros Hh. destruct op; simpl.
  - by apply output_history_insert.
  - by apply output_history_retain.
  - by apply output_history_take.
Qed.

Lemma output_run_wf ops h : output_history_wf h.1 h.2 ->
  output_history_wf (output_run ops h).1 (output_run ops h).2.
Proof.
  revert h. induction ops as [|op ops IH]; intros h Hh; [done|]. apply IH. by apply output_apply_wf.
Qed.

(** Completions of processes other than [pid]; operations that touch [pid]'s capture itself. *)
Definition completes_other (pid : ProcessId) (op : output_op) : bool :=
  match op with OutputCompleted q => bool_decide (q <> pid) | _ => false end.
Definition claims (pid : ProcessId) (op : output_op) : bool :=
  match op with OutputTaken q | OutputAttached q _ => bool_decide (q = pid) | _ => false end.

(** The retained completions younger than [pid]'s. *)
Definition younger (pid : ProcessId) (completed : list ProcessId) (n : nat) : Prop :=
  forall l1 l2, completed = l1 ++ pid :: l2 -> (length l2 <= n)%nat.

Lemma younger_app_other pid completed n q :
  q <> pid -> younger pid completed n -> younger pid (completed ++ [q]) (S n).
Proof.
  intros Hq Hy l1 l2 E. destruct l2 as [|x l2 _] using rev_ind.
  - apply app_inj_tail in E as [_ ?]. done.
  - rewrite app_comm_cons, (assoc_L (++)) in E. apply app_inj_tail in E as [E _].
    rewrite length_app. apply Hy in E. simpl. lia.
Qed.

Lemma younger_drop pid completed n k : younger pid completed n -> younger pid (drop k completed) n.
Proof.
  intros Hy l1 l2 E. apply (Hy (take k completed ++ l1) l2).
  by rewrite <- (assoc_L (++)), <- E, take_drop.
Qed.

Lemma younger_filter pid q completed n :
  NoDup completed -> younger pid completed n -> younger pid (filter (fun x => x <> q) completed) n.
Proof.
  intros Hnd Hy l1 l2 E. assert (pid ∈ completed) as Hin.
  { assert (pid ∈ filter (fun x => x <> q) completed) as H by (rewrite E; set_solver).
    by apply list_elem_of_filter in H as [_ ?]. }
  apply list_elem_of_split in Hin as (k1 & k2 & Ek). pose proof (Hy _ _ Ek) as Hk.
  assert (l2 = filter (fun x => x <> q) k2) as ->.
  { pose proof (NoDup_filter (fun x => x <> q) _ Hnd) as Hnd'. rewrite E in Hnd'.
    assert (pid <> q) as Hpq.
    { assert (pid ∈ filter (fun x => x <> q) completed) as H by (rewrite E; set_solver).
      by apply list_elem_of_filter in H as [? _]. }
    rewrite Ek, filter_app, filter_cons_True in E by done.
    assert (pid ∉ l1) as H1 by (apply NoDup_app in Hnd' as (_ & ? & _); set_solver).
    assert (pid ∉ filter (fun x => x <> q) k1) as H2.
    { rewrite Ek in Hnd. apply NoDup_app in Hnd as (_ & Hd & _). intros [_ H]%list_elem_of_filter.
      apply (Hd pid H). by left. }
    clear -E H1 H2. revert l1 E H1. induction (filter (fun x => x <> q) k1) as [|y k IH]; intros [|z l1] E H1;
      simpl in E; simplify_eq.
    - done.
    - destruct H1. by left.
    - destruct H2. by left.
    - apply (IH ltac:(set_solver) l1); [done|set_solver]. }
  pose proof (length_filter (fun x => x <> q) k2). lia.
Qed.

Lemma younger_evict completed pid n :
  younger pid completed n -> (n < COMPLETED_BOUND)%nat ->
  pid ∉ take (length completed - COMPLETED_BOUND) completed.
Proof.
  intros Hy Hn Hin. apply list_elem_of_split in Hin as (l1 & l2 & E).
  set (k := (length completed - COMPLETED_BOUND)%nat) in *.
  assert (completed = l1 ++ pid :: (l2 ++ drop k completed)) as E'.
  { rewrite <- (take_drop k completed) at 1. rewrite E. by rewrite <- (assoc_L (++)). }
  apply Hy in E'. rewrite length_app, length_drop in E'.
  apply (f_equal length) in E. rewrite length_take, length_app in E. simpl in E. subst k. lia.
Qed.

Lemma output_apply_kept h op pid o n :
  output_history_wf h.1 h.2 -> h.2 !! pid = Some o -> younger pid h.1 n ->
  claims pid op = false -> (n < COMPLETED_BOUND)%nat ->
  let n' := if completes_other pid op then S n else n in
  (n' < COMPLETED_BOUND)%nat ->
  (output_apply h op).2 !! pid = Some o /\ younger pid (output_apply h op).1 n'.
Proof.
  destruct h as [completed outputs]. intros Hh Ho Hy Hc Hn n' Hn'. cbn [fst snd] in *.
  destruct op as [q x|q|q]; simpl in *.
  - apply bool_decide_eq_false in Hc. rewrite lookup_insert_ne by done. done.
  - unfold retain_completed. destruct (bool_decide (is_Some (outputs !! q))) eqn:Eq; simpl.
    2: { split; [done|]. intros l1 l2 E. apply Hy in E. subst n'. destruct (bool_decide (q <> pid)); lia. }
    clear Eq. case_bool_decide as Ec; simpl.
    { split; [done|]. intros l1 l2 E. apply Hy in E. subst n'. destruct (bool_decide (q <> pid)); lia. }
    rewrite push_bounded_spec by (done || apply Hh). cbn [fst snd].
    replace (length completed + 1)%nat with (length (completed ++ [q])) by (rewrite length_app; simpl; lia).
    assert (Hy' : younger pid (completed ++ [q]) n').
    { subst n'. destruct (decide (q = pid)) as [->|Hq].
      2: { rewrite bool_decide_eq_true_2 by done. by apply younger_app_other. }
      - rewrite bool_decide_eq_false_2 by auto.
        intros l1 l2 E. destruct l2 as [|x l2 _] using rev_ind; [simpl; lia|].
        rewrite app_comm_cons, (assoc_L (++)) in E. apply app_inj_tail in E as [E _].
        destruct Ec. rewrite E. set_solver. }
    split; [|by apply younger_drop]. apply map_lookup_filter_Some. split; [done|]. simpl.
    by apply (younger_evict _ _ n').
  - apply bool_decide_eq_false in Hc. rewrite lookup_delete_ne by done. split; [done|].
    apply younger_filter; [apply Hh|done].
Qed.

(** An unclaimed capture is retained: once attached, it can be claimed as long as nobody
    claimed it and fewer than 256 other processes with unclaimed captures completed, in any
    order of attachments, completions and claims; a claim then transfers it, exactly once. *)
Theorem output_retained ops1 ops2 pid o :
  forallb (fun op => negb (claims pid op)) ops2 = true ->
  (length (List.filter (completes_other pid) ops2) < COMPLETED_BOUND)%nat ->
  pid ∉ (output_run ops1 ([], ∅)).1 ->
  let h := output_run (ops1 ++ OutputAttached pid o :: ops2) ([], ∅) in
  output_history_wf h.1 h.2 /\
  (take_completed h.1 h.2 pid).2 = Some o /\
  let h' := output_apply h (OutputTaken pid) in
  (take_completed h'.1 h'.2 pid).2 = None /\ pid ∉ h'.1.
Proof.
  intros Hc Hn Hni h.
  assert (Hwf0 : output_history_wf (output_run ops1 ([], ∅)).1 (output_run ops1 ([], ∅)).2).
  { apply output_run_wf. split; simpl; [constructor| |unfold COMPLETED_BOUND; lia]. by intros q ?%elem_of_nil. }
  assert (Hwf : output_history_wf h.1 h.2).
  { apply output_run_wf. split; simpl; [constructor| |unfold COMPLETED_BOUND; lia]. by intros q ?%elem_of_nil. }
  split; [done|].
  assert (h.2 !! pid = Some o) as Ho.
  { subst h. unfold output_run. rewrite foldl_app. cbn [foldl]. fold (output_run ops1 ([], ∅)).
    set (h0 := output_run ops1 ([], ∅)) in *.
    set (h1 := output_apply h0 (OutputAttached pid o)).
    assert (output_history_wf h1.1 h1.2) as Hwf1 by by apply output_apply_wf.
    assert (h1.2 !! pid = Some o) as H1 by apply lookup_insert_eq.
    assert (younger pid h1.1 0) as Hy.
    { intros l1 l2 E. simpl in E. destruct Hni. rewrite E. set_solver. }
    assert (0 + length (List.filter (completes_other pid) ops2) < COMPLETED_BOUND)%nat as Hn0 by lia.
    clear Hwf0 Hwf Hn Hni. clearbody h1. clear h0. revert h1 Hwf1 H1 Hy. generalize 0%nat Hn0. clear Hn0.
    induction ops2 as [|op ops2 IH]; intros n Hn h1 Hwf1 H1 Hy; [done|].
    cbn [foldl]. cbn [forallb] in Hc. apply andb_true_iff in Hc as [Hop Hc].
    apply negb_true_iff in Hop. cbn [List.filter] in Hn.
    destruct (output_apply_kept h1 op pid o n Hwf1 H1 Hy Hop) as [H1' Hy'].
    { destruct (completes_other pid op); simpl in Hn; lia. }
    { destruct (completes_other pid op); simpl in Hn; lia. }
    eapply IH; [done| |by apply output_apply_wf|done|exact Hy'].
    destruct (completes_other pid op); simpl in Hn; lia. }
  unfold take_completed. cbn [snd fst output_apply]. split_and!; [done|apply lookup_delete_eq|].
  intros [? _]%list_elem_of_filter. done.
Qed.

Lemma output_retained_witness :
  let ops1 := [OutputAttached 1 (mkProcessOutput 7); OutputCompleted 1] in
  let ops2 := [OutputCompleted 2; OutputTaken 1; OutputCompleted 1] in
  let h := output_run (ops1 ++ OutputAttached 2 (mkProcessOutput 8) :: ops2) ([], ∅) in
  2%N ∉ (output_run ops1 ([], ∅)).1 /\ (take_completed h.1 h.2 2).2 = Some (mkProcessOutput 8).
Proof.
  intros ops1 ops2 h.
  assert (2%N ∉ (output_run ops1 ([], ∅)).1) as Hni by (vm_compute; set_solver).
  split; [exact Hni|].
  apply (output_retained ops1 ops2 2 (mkProcessOutput 8)); [reflexivity|vm_compute; lia|exact Hni].
Defined.
