(* ===== verification/FileSystem.v ===== *)
(** * FileSystem: one directory of a POSIX file system

    What shepherd-infra/src/kept/store.rs uses of [std::fs] and [flock]: a directory
    maps file names to inodes, an inode holds bytes, and an open file description may
    hold the exclusive lock of an inode. A name is replaced by [rename] in one step;
    an inode that no name refers to keeps its bytes for whoever has it open. A locked
    description belongs to a process and is closed by the kernel when that dies. *)

From stdpp Require Import base list sorting gmap strings.
From S2P Require Import Prelude StdModel.

Open Scope nat_scope.

Record FileSystem : Type := mkFileSystem {
  fs_dir : gmap string nat;
  fs_data : gmap nat string;
  (** Open file descriptions that hold a lock: the process and the inode. *)
  fs_flocks : gmap nat (nat * nat);
  (** Inodes and descriptions from here on are unused. *)
  fs_next : nat;
}.

(** [std::io::Error]: the kinds the program tells apart, and its text. *)
Inductive IoError : Type :=
| IoNotFound
| IoWouldBlock
| IoFailed (text : string).

Definition io_display (e : IoError) : string :=
  match e with
  | IoNotFound => "No such file or directory (os error 2)"
  | IoWouldBlock => "Resource temporarily unavailable (os error 11)"
  | IoFailed text => text
  end.

(** [open] with [create]: the inode of the name, a new empty file if there is none. *)
Definition fs_create (path : string) (fs : FileSystem) : FileSystem * nat :=
  match fs_dir fs !! path with
  | Some ino => (fs, ino)
  | None =>
      (mkFileSystem (<[path := fs_next fs]> (fs_dir fs)) (<[fs_next fs := ""]> (fs_data fs))
         (fs_flocks fs) (S (fs_next fs)), fs_next fs)
  end.

Definition fs_set_data (ino : nat) (bytes : string) (fs : FileSystem) : FileSystem :=
  mkFileSystem (fs_dir fs) (<[ino := bytes]> (fs_data fs)) (fs_flocks fs) (fs_next fs).

(** [open] with [create] and [truncate]. *)
Definition fs_create_truncate (path : string) (fs : FileSystem) : FileSystem * nat :=
  let '(fs, ino) := fs_create path fs in (fs_set_data ino "" fs, ino).

(** [open] for reading. *)
Definition fs_open (path : string) (fs : FileSystem) : result nat IoError :=
  match fs_dir fs !! path with Some ino => Ok ino | None => Err IoNotFound end.

Definition fs_read (ino : nat) (fs : FileSystem) : string := default "" (fs_data fs !! ino).

(** [write] at an offset: the bytes there are replaced. *)
Definition splice (old : string) (offset : nat) (chunk : string) : string :=
  String.substring 0 offset old +:+ chunk +:+
  String.substring (offset + String.length chunk) (String.length old) old.

Definition fs_write (ino offset : nat) (chunk : string) (fs : FileSystem) : FileSystem :=
  fs_set_data ino (splice (fs_read ino fs) offset chunk) fs.

Definition fs_rename (from to : string) (fs : FileSystem) : FileSystem * result unit IoError :=
  match fs_dir fs !! from with
  | Some ino =>
      (mkFileSystem (<[to := ino]> (delete from (fs_dir fs))) (fs_data fs) (fs_flocks fs) (fs_next fs), Ok tt)
  | None => (fs, Err IoNotFound)
  end.

Definition fs_unlink (path : string) (fs : FileSystem) : FileSystem * result unit IoError :=
  match fs_dir fs !! path with
  | Some _ => (mkFileSystem (delete path (fs_dir fs)) (fs_data fs) (fs_flocks fs) (fs_next fs), Ok tt)
  | None => (fs, Err IoNotFound)
  end.

(** [flock(LOCK_EX | LOCK_NB)] through a new description of process [owner]. *)
Definition fs_flock (owner ino : nat) (fs : FileSystem) : FileSystem * result nat IoError :=
  if decide (map_Exists (fun _ l => l.2 = ino) (fs_flocks fs)) then (fs, Err IoWouldBlock)
  else (mkFileSystem (fs_dir fs) (fs_data fs) (<[fs_next fs := (owner, ino)]> (fs_flocks fs)) (S (fs_next fs)),
        Ok (fs_next fs)).

(** Closing a description releases its lock. *)
Definition fs_close (ofd : nat) (fs : FileSystem) : FileSystem :=
  mkFileSystem (fs_dir fs) (fs_data fs) (delete ofd (fs_flocks fs)) (fs_next fs).

(** The kernel closes every description of a process that dies. *)
Definition fs_exit (owner : nat) (fs : FileSystem) : FileSystem :=
  mkFileSystem (fs_dir fs) (fs_data fs) (filter (fun l => l.2.1 <> owner) (fs_flocks fs)) (fs_next fs).

(** [read_dir]: the names in the directory, in some order (here: the map's). *)
Definition fs_list (fs : FileSystem) : list string := (map_to_list (fs_dir fs)).*1.

(** ** Text *)

(** [str::strip_suffix]. *)
Definition strip_suffix (suffix s : string) : option string :=
  let n := String.length s - String.length suffix in
  if decide (String.length suffix <= String.length s /\
             String.substring n (String.length suffix) s = suffix)
  then Some (String.substring 0 n s) else None.

Lemma substring_all s : String.substring 0 (String.length s) s = s.
Proof. induction s as [|c s IH]; simpl; congruence. Qed.

Lemma sapp_cons c s t : String c s +:+ t = String c (s +:+ t).
Proof. reflexivity. Qed.

Lemma substring_app_l s t : String.substring 0 (String.length s) (s +:+ t) = s.
Proof. induction s as [|c s IH]; [by destruct t|]. rewrite sapp_cons. cbn. by rewrite IH. Qed.

Lemma substring_app_r s t n :
  String.substring (String.length s) n (s +:+ t) = String.substring 0 n t.
Proof. induction s as [|c s IH]; [done|exact IH]. Qed.

Lemma length_sapp s t : String.length (s +:+ t) = String.length s + String.length t.
Proof. induction s as [|c s IH]; [done|]. by rewrite sapp_cons; simpl; rewrite IH. Qed.

Lemma sapp_assoc (s t u : string) : (s +:+ t) +:+ u = s +:+ (t +:+ u).
Proof. induction s as [|c s IH]; [done|]. by rewrite !sapp_cons, IH. Qed.

Lemma sapp_nil_r s : s +:+ "" = s.
Proof. induction s as [|c s IH]; [done|]. by rewrite sapp_cons, IH. Qed.

Lemma length_substring n s : String.length (String.substring 0 n s) = Nat.min n (String.length s).
Proof. revert n. induction s as [|c s IH]; intros [|n]; cbn; [done..|]. by rewrite IH. Qed.

Lemma sapp_inj_r (s t u : string) : s +:+ u = t +:+ u -> s = t.
Proof.
  revert t. induction s as [|c s IH]; intros [|d t] E; [done|..].
  - apply (f_equal String.length) in E. rewrite !length_sapp in E. simpl in E. lia.
  - apply (f_equal String.length) in E. rewrite !length_sapp in E. simpl in E. lia.
  - injection E as -> E. f_equal. by apply IH.
Qed.

Lemma strip_suffix_app s suffix : strip_suffix suffix (s +:+ suffix) = Some s.
Proof.
  unfold strip_suffix. rewrite length_sapp.
  replace (String.length s + String.length suffix - String.length suffix) with (String.length s) by lia.
  rewrite substring_app_r, substring_all, substring_app_l.
  case_decide as H; [done|]. destruct H. split; [lia|done].
Qed.

Lemma substring_split s n :
  n <= String.length s ->
  String.substring 0 n s +:+ String.substring n (String.length s - n) s = s.
Proof.
  revert n. induction s as [|c s IH]; intros n Hn; simpl in *.
  - by replace n with 0 by lia.
  - destruct n as [|n]; cbn; [by rewrite substring_all|]. rewrite sapp_cons. f_equal. apply IH. lia.
Qed.

Lemma strip_suffix_Some suffix s stem : strip_suffix suffix s = Some stem -> s = stem +:+ suffix.
Proof.
  unfold strip_suffix. case_decide as H; [|done]. destruct H as [Hl He]. intros [= <-].
  rewrite <- He at 2.
  replace (String.length suffix) with (String.length s - (String.length s - String.length suffix)) at 3 by lia.
  symmetry. apply substring_split. lia.
Qed.

Lemma sapp_last s t a b : s +:+ String a "" = t +:+ String b "" -> a = b.
Proof.
  revert t. induction s as [|c s IH]; intros [|d t] E.
  - by injection E.
  - injection E as -> E. by destruct t.
  - injection E as -> E. by destruct s.
  - injection E as -> E. by apply (IH t).
Qed.

(** [write] at the end of what was written adds to it. *)
Lemma splice_end s chunk : splice s (String.length s) chunk = s +:+ chunk.
Proof.
  unfold splice. rewrite substring_all. f_equal.
  assert (forall n m t, String.length t <= n -> String.substring n m t = "") as Hend.
  { intros n m t. revert n. induction t as [|c t IH]; intros [|n] Ht; simpl in *; try done; try lia.
    - by destruct m.
    - apply IH. lia. }
  rewrite Hend by lia. clear. induction chunk as [|c chunk IH]; [done|]. by rewrite sapp_cons; simpl; rewrite IH.
Qed.

(** ** Laws of the directory *)

Section Laws.
Implicit Types (fs : FileSystem).

(** Every name refers to an inode in use, with its bytes. *)
Record fs_wf fs : Prop := {
  wf_dir : forall path ino, fs_dir fs !! path = Some ino -> ino < fs_next fs /\ is_Some (fs_data fs !! ino);
  wf_data : forall ino, is_Some (fs_data fs !! ino) -> ino < fs_next fs;
  wf_flocks : forall ofd l, fs_flocks fs !! ofd = Some l -> ofd < fs_next fs /\ l.2 < fs_next fs;
  (** A locked inode has one holder. *)
  wf_exclusive : forall ofd1 ofd2 l1 l2,
    fs_flocks fs !! ofd1 = Some l1 -> fs_flocks fs !! ofd2 = Some l2 -> l1.2 = l2.2 -> ofd1 = ofd2;
  (** An inode has one name: the program makes no links. *)
  wf_links : forall path1 path2 ino,
    fs_dir fs !! path1 = Some ino -> fs_dir fs !! path2 = Some ino -> path1 = path2;
}.

Lemma fs_create_wf path fs : fs_wf fs -> fs_wf (fs_create path fs).1.
Proof.
  intros [Hd Hb Hf He Hl]. unfold fs_create. destruct (fs_dir fs !! path) eqn:E; [done|].
  split; cbn; [| | |done|].
  - intros p i. destruct (decide (p = path)) as [->|Hp].
    + rewrite lookup_insert_eq. intros [= <-]. rewrite lookup_insert_eq. split; [lia|eauto].
    + rewrite lookup_insert_ne by done. intros Hi. apply Hd in Hi as [? ?].
      rewrite lookup_insert_ne by lia. split; [lia|done].
  - intros i. destruct (decide (i = fs_next fs)) as [->|Hi]; [lia|].
    rewrite lookup_insert_ne by done. intros H%Hb. lia.
  - intros o l Ho. apply Hf in Ho. lia.
  - intros p1 p2 i. rewrite !lookup_insert. repeat case_decide; intros; simplify_eq; try done.
    + apply Hd in H2 as [? _]. lia.
    + apply Hd in H1 as [? _]. lia.
    + by eapply Hl.
Qed.

Lemma fs_set_data_wf ino bytes fs : ino < fs_next fs -> fs_wf fs -> fs_wf (fs_set_data ino bytes fs).
Proof.
  intros Hi [Hd Hb Hf He Hl]. split; cbn; [| |done..].
  - intros p i Hp. apply Hd in Hp as [? ?]. split; [done|].
    destruct (decide (i = ino)) as [->|]; [rewrite lookup_insert_eq; eauto|by rewrite lookup_insert_ne].
  - intros i. destruct (decide (i = ino)) as [->|]; [done|]. rewrite lookup_insert_ne by done. apply Hb.
Qed.

Lemma fs_create_ino path fs : fs_wf fs -> (fs_create path fs).2 < fs_next (fs_create path fs).1.
Proof.
  intros [Hd _ _ _ _]. unfold fs_create. destruct (fs_dir fs !! path) eqn:E; cbn; [destruct (Hd _ _ E); lia|lia].
Qed.

Lemma fs_create_truncate_wf path fs : fs_wf fs -> fs_wf (fs_create_truncate path fs).1.
Proof.
  intros H. unfold fs_create_truncate. pose proof (fs_create_wf path fs H) as Hw.
  pose proof (fs_create_ino path fs H) as Hi. destruct (fs_create path fs) as [fs' ino]; cbn in *.
  by apply fs_set_data_wf.
Qed.

Lemma fs_rename_wf from to fs : fs_wf fs -> fs_wf (fs_rename from to fs).1.
Proof.
  intros H. unfold fs_rename. destruct (fs_dir fs !! from) as [ino|] eqn:E; [|done].
  destruct H as [Hd Hb Hf He Hl]. split; cbn; [|done..|].
  - intros p i. destruct (decide (p = to)) as [->|Hp].
    + rewrite lookup_insert_eq. intros [= <-]. by apply Hd in E.
    + rewrite lookup_insert_ne by done. intros [_ Hi]%lookup_delete_Some. by apply Hd in Hi.
  - intros p1 p2 i. rewrite !lookup_insert. repeat case_decide; intros H1 H2; simplify_eq; try done.
    + apply lookup_delete_Some in H2 as [Hn H2]. by destruct Hn; apply (Hl _ _ _ E H2).
    + apply lookup_delete_Some in H1 as [Hn H1]. by destruct Hn; apply (Hl _ _ _ E H1).
    + apply lookup_delete_Some in H1 as [_ H1]. apply lookup_delete_Some in H2 as [_ H2]. by eapply Hl.
Qed.

Lemma fs_unlink_wf path fs : fs_wf fs -> fs_wf (fs_unlink path fs).1.
Proof.
  intros H. unfold fs_unlink. destruct (fs_dir fs !! path) as [ino|] eqn:E; [|done].
  destruct H as [Hd Hb Hf He Hl]. split; cbn; [|done..|].
  - intros p i [_ Hi]%lookup_delete_Some. by apply Hd in Hi.
  - intros p1 p2 i [_ H1]%lookup_delete_Some [_ H2]%lookup_delete_Some. by eapply Hl.
Qed.

Lemma fs_flock_wf owner ino fs : ino < fs_next fs -> fs_wf fs -> fs_wf (fs_flock owner ino fs).1.
Proof.
  intros Hi H. unfold fs_flock. case_decide as Hex; [done|]. destruct H as [Hd Hb Hf He Hl].
  assert (Hno : forall o l, fs_flocks fs !! o = Some l -> l.2 <> ino).
  { intros o l Ho El. apply Hex. by exists o, l. }
  split; cbn.
  - intros p i Hp. apply Hd in Hp as [? ?]. split; [lia|done].
  - intros i H%Hb. lia.
  - intros o l. destruct (decide (o = fs_next fs)) as [->|].
    + rewrite lookup_insert_eq. intros [= <-]. cbn. lia.
    + rewrite lookup_insert_ne by done. intros H%Hf. lia.
  - intros o1 o2 l1 l2. rewrite !lookup_insert. repeat case_decide; intros; simplify_eq/=; try done.
    + by destruct (Hno _ _ H2).
    + by destruct (Hno _ _ H1).
    + by eapply He.
  - done.
Qed.

Lemma fs_close_wf ofd fs : fs_wf fs -> fs_wf (fs_close ofd fs).
Proof.
  intros [Hd Hb Hf He Hl]. split; cbn; [done|done|..].
  - intros o l [_ Ho]%lookup_delete_Some. by apply Hf in Ho.
  - intros o1 o2 l1 l2 [_ H1]%lookup_delete_Some [_ H2]%lookup_delete_Some. by eapply He.
  - done.
Qed.

Lemma fs_exit_wf owner fs : fs_wf fs -> fs_wf (fs_exit owner fs).
Proof.
  intros [Hd Hb Hf He Hl]. split; cbn; [done|done|..].
  - intros o l [Ho _]%map_lookup_filter_Some. by apply Hf in Ho.
  - intros o1 o2 l1 l2 [H1 _]%map_lookup_filter_Some [H2 _]%map_lookup_filter_Some. by eapply He.
  - done.
Qed.
End Laws.

#[export] Hint Resolve fs_create_wf fs_create_ino fs_create_truncate_wf fs_rename_wf fs_unlink_wf
  fs_close_wf fs_exit_wf : shepherd.
