(* ===== verification/KeptState.v ===== *)
(** * KeptState: the ports and the shared state of kept processes

    The types of shepherd-app/src/kept.rs, and the world that every user of one store
    shares: the store's directory, the kept processes the system runs, and, for each
    process that uses Shepherd (an owner, a number), its claims, its blocking tasks and
    the [KeptProcess] values its callers hold.

    A [KeptLock] and every clone of an [Arc<KeptLock>] is an entry of [w_arcs]; the
    guard of a lock is released when the last entry with that guard goes, or when the
    owner dies. [tokio::task::spawn_blocking] is a task that cannot be dropped once it
    runs, with a cell for its result ([w_cells]). *)

From stdpp Require Import base list gmap strings.
From S2P Require Import Prelude StdModel Values KeptDomain Ports Conc FileSystem.

Open Scope Z_scope.

(** ** Data *)

Inductive KeptError : Type :=
| KeptUnsupported
| KeptBusy (name : KeptName)
| KeptAlreadyRunning (name : KeptName) (os_pid : Z)
| KeptCaptureUnsupported
| KeptStoreFailed (text : string)
| KeptLaunchFailed (text : string)
| KeptSignalFailed (text : string).

(** The guard is an open file description that holds the lock. *)
Record KeptLock : Type := mkKeptLock {
  lock_name : KeptName;
  lock_guard : nat;
}.

Record KeptLaunch : Type := mkKeptLaunch {
  launch_os_pid : Z;
  launch_start_token : Z;
}.

Record KeptExit : Type := mkKeptExit {
  kexit_code : option Z;
  kexit_signal : option Signal;
  kexit_stragglers : bool;
}.
Definition kept_exit_default : KeptExit := mkKeptExit None None false.

Record KeptSpec : Type := mkKeptSpec {
  ks_name : KeptName;
  ks_spec : ProcessSpec;
  ks_log : option PathBuf;
  ks_revision : option string;
}.
Definition kept_spec_new (name : KeptName) (spec : ProcessSpec) : KeptSpec := mkKeptSpec name spec None None.
Definition kept_spec_log (s : KeptSpec) (path : PathBuf) : KeptSpec :=
  mkKeptSpec (ks_name s) (ks_spec s) (Some path) (ks_revision s).
Definition kept_spec_revision (s : KeptSpec) (revision : string) : KeptSpec :=
  mkKeptSpec (ks_name s) (ks_spec s) (ks_log s) (Some revision).
Definition kept_fingerprint (s : KeptSpec) : SpecFingerprint := fingerprint_of (ks_spec s) (ks_revision s).

Record KeptEntry : Type := mkKeptEntry {
  entry_record : KeptRecord;
  entry_held : bool;
}.

Record KeptTermination : Type := mkKeptTermination {
  kt_outcome : TerminationOutcome;
  kt_exit : option KeptExit;
}.

#[global] Instance kept_lock_eq_dec : EqDecision KeptLock.
Proof. solve_decision. Defined.
#[global] Instance kept_launch_eq_dec : EqDecision KeptLaunch.
Proof. solve_decision. Defined.
#[global] Instance kept_launch_countable : Countable KeptLaunch.
Proof.
  refine (inj_countable' (fun l => (launch_os_pid l, launch_start_token l)) (fun p => mkKeptLaunch p.1 p.2) _).
  by intros [].
Defined.
#[global] Instance kept_name_countable : Countable KeptName.
Proof. refine (inj_countable' kept_name mkKeptName _). by intros []. Defined.

(** The instance a record speaks of. *)
Definition record_instance (r : KeptRecord) : KeptLaunch := mkKeptLaunch (rec_os_pid r) (rec_start_token r).

(** ** Questions to the environment *)

Inductive KeptPort : Type -> Type :=
(** Does this system call fail? With which text? *)
| SysFault : KeptPort (option string)
(** How many bytes one [write] takes. *)
| WriteSome (rest : string) : KeptPort (result nat string)
(** Why a blocking task that never ran was refused. *)
| JoinFailed : KeptPort string
| KeptClockNow : KeptPort Instant
| KeptClockSleep (d : Duration) : KeptPort unit
(** [SystemTime::now] since the epoch, in nanoseconds. *)
| SystemNow : KeptPort Z
| BootId : KeptPort (option string)
(** The launcher: the identity of a forked child, whether its program started, whether a
    record's process is seen. *)
| LaunchFork (spec : ProcessSpec) (log : option PathBuf) : KeptPort (result KeptLaunch string)
| LaunchGo (launch : KeptLaunch) : KeptPort (result unit string)
| AttachLook (r : KeptRecord) : KeptPort (result bool KeptError)
(** The target: its executable, its signals, whether its exit is published yet, and the exit. *)
| TargetExe (launch : KeptLaunch) : KeptPort (option PathBuf)
| TargetSignal (launch : KeptLaunch) (signal : Signal) : KeptPort (result unit KeptError)
| TargetPublished (launch : KeptLaunch) : KeptPort bool
| TargetExit (launch : KeptLaunch) : KeptPort KeptExit.

(** ** The world *)

(** A kept process: held before [exec] by the process that launches it, running, or gone. *)
Inductive Stage : Type :=
| StageGated (owner : nat)
| StageRunning
| StageGone.

#[global] Instance stage_eq_dec : EqDecision Stage.
Proof. solve_decision. Defined.

(** What a blocking task gives back. *)
Inductive WorkValue : Type :=
| ValueLock (r : result (option nat) KeptError)
| ValueRead (r : result (option KeptRecord) KeptError)
| ValueNames (r : result (list KeptName) KeptError)
| ValueUnit (r : result unit KeptError)
| ValueLaunch (r : result KeptLaunch KeptError).

(** The cell of a [JoinHandle]: the task has not finished, has finished, was refused, or the
    handle was dropped. *)
Inductive Cell : Type :=
| CellOpen
| CellDone (v : WorkValue)
| CellRefused
| CellClosed.

(** A [KeptProcess] value: its lock (an entry of [w_arcs]), record and target. *)
Record KeptProcess : Type := mkKeptProcess {
  kp_lock : nat;
  kp_record : KeptRecord;
  kp_target : KeptLaunch;
}.

(** A value in a caller's hands, and how many calls borrow it. *)
Record HeldProcess : Type := mkHeldProcess {
  held_owner : nat;
  held_process : KeptProcess;
  held_borrows : nat;
}.

(** What calls of the public interface returned. *)
Inductive KeptReturn : Type :=
| RetStart (owner : nat) (spec : KeptSpec) (r : result KeptRecord KeptError)
| RetAdopt (owner : nat) (name : KeptName) (r : result (option KeptRecord) KeptError)
(** [alive] is what ran when the call began. *)
| RetList (owner : nat) (alive : list KeptLaunch) (r : result (list KeptEntry) KeptError)
| RetExited (owner : nat) (r : KeptRecord) (exit : KeptExit)
| RetKeptTerminate (owner : nat) (r : KeptRecord) (t : KeptTermination).

Record World : Type := mkWorld {
  w_fs : FileSystem;
  w_procs : gmap KeptLaunch Stage;
  w_arcs : gmap nat (nat * KeptLock);
  w_cells : gmap nat Cell;
  w_held : gmap nat HeldProcess;
  w_next : nat;
  w_returned : list KeptReturn;
}.

Definition set_fs (fs : FileSystem) (w : World) : World :=
  mkWorld fs (w_procs w) (w_arcs w) (w_cells w) (w_held w) (w_next w) (w_returned w).
Definition set_procs (procs : gmap KeptLaunch Stage) (w : World) : World :=
  mkWorld (w_fs w) procs (w_arcs w) (w_cells w) (w_held w) (w_next w) (w_returned w).
Definition set_arcs (arcs : gmap nat (nat * KeptLock)) (w : World) : World :=
  mkWorld (w_fs w) (w_procs w) arcs (w_cells w) (w_held w) (w_next w) (w_returned w).
Definition set_cells (cells : gmap nat Cell) (w : World) : World :=
  mkWorld (w_fs w) (w_procs w) (w_arcs w) cells (w_held w) (w_next w) (w_returned w).
Definition set_held (held : gmap nat HeldProcess) (w : World) : World :=
  mkWorld (w_fs w) (w_procs w) (w_arcs w) (w_cells w) held (w_next w) (w_returned w).
Definition bump (w : World) : World :=
  mkWorld (w_fs w) (w_procs w) (w_arcs w) (w_cells w) (w_held w) (S (w_next w)) (w_returned w).
Definition log_return (r : KeptReturn) (w : World) : World :=
  mkWorld (w_fs w) (w_procs w) (w_arcs w) (w_cells w) (w_held w) (w_next w) (w_returned w ++ [r]).

(** *** Processes *)

Definition is_gone (i : KeptLaunch) (w : World) : bool :=
  match w_procs w !! i with Some (StageGated _) | Some StageRunning => false | _ => true end.

Definition set_stage (i : KeptLaunch) (st : Stage) (w : World) : World :=
  set_procs (<[i := st]> (w_procs w)) w.

(** A fork: the system never gives a new process an identity it has used. *)
Definition fork_gated (owner : nat) (i : KeptLaunch) (w : World) : World * bool :=
  match w_procs w !! i with
  | Some _ => (w, false)
  | None => (set_stage i (StageGated owner) w, true)
  end.

(** A child that is still held starts its program. *)
Definition open_gate (i : KeptLaunch) (w : World) : World :=
  match w_procs w !! i with Some (StageGated _) => set_stage i StageRunning w | _ => w end.

(** A process ends, for whatever reason. *)
Definition end_process (i : KeptLaunch) (w : World) : World :=
  match w_procs w !! i with Some _ => set_stage i StageGone w | None => w end.

(** *** Locks *)

(** The claim of a lock just taken: a first entry. *)
Definition new_arc (owner : nat) (lock : KeptLock) (w : World) : World * nat :=
  (bump (set_arcs (<[w_next w := (owner, lock)]> (w_arcs w)) w), w_next w).

(** [Arc::clone]. *)
Definition clone_arc (h : nat) (w : World) : World * nat :=
  match w_arcs w !! h with
  | Some arc => (bump (set_arcs (<[w_next w := arc]> (w_arcs w)) w), w_next w)
  | None => (bump w, w_next w)
  end.

(** Dropping one; the last one drops the guard, which closes the description. *)
Definition drop_arc (h : nat) (w : World) : World :=
  match w_arcs w !! h with
  | Some (_, lock) =>
      let rest := delete h (w_arcs w) in
      let w := set_arcs rest w in
      if decide (map_Exists (fun _ arc => lock_guard arc.2 = lock_guard lock) rest) then w
      else set_fs (fs_close (lock_guard lock) (w_fs w)) w
  | None => w
  end.

(** *** Blocking tasks *)

(** The closures given to [spawn_blocking], with what they capture (a lock by its entry). *)
Inductive Work : Type -> Type :=
| WorkLock (name : KeptName) : Work (option nat)
| WorkRead (name : KeptName) : Work (option KeptRecord)
| WorkNames : Work (list KeptName)
| WorkWrite (lock : nat) (record : KeptRecord) : Work unit
| WorkRemove (lock : nat) : Work unit
(** [gated_spawn] with the commit closure of [start], which captures a lock and a record. *)
| WorkLaunch (spec : ProcessSpec) (log : option PathBuf) (lock : nat) (record : KeptRecord) : Work KeptLaunch.

Inductive KeptTask : Type :=
| RunWork (cell : nat) {X : Type} (work : Work X).

Definition inject_value {X} (work : Work X) : result X KeptError -> WorkValue :=
  match work in Work X return result X KeptError -> WorkValue with
  | WorkLock _ => ValueLock
  | WorkRead _ => ValueRead
  | WorkNames => ValueNames
  | WorkWrite _ _ | WorkRemove _ => ValueUnit
  | WorkLaunch _ _ _ _ => ValueLaunch
  end.

Definition project_value {X} (work : Work X) (v : WorkValue) : option (result X KeptError) :=
  match work in Work X return option (result X KeptError) with
  | WorkLock _ => match v with ValueLock r => Some r | _ => None end
  | WorkRead _ => match v with ValueRead r => Some r | _ => None end
  | WorkNames => match v with ValueNames r => Some r | _ => None end
  | WorkWrite _ _ | WorkRemove _ => match v with ValueUnit r => Some r | _ => None end
  | WorkLaunch _ _ _ _ => match v with ValueLaunch r => Some r | _ => None end
  end.

Lemma project_inject {X} (work : Work X) r : project_value work (inject_value work r) = Some r.
Proof. by destruct work. Qed.

Lemma project_value_Some {X} (work : Work X) v r : project_value work v = Some r -> v = inject_value work r.
Proof. destruct work, v; cbn; congruence. Qed.

(** The locks a closure owns. *)
Definition captured {X} (work : Work X) : option nat :=
  match work with
  | WorkWrite h _ | WorkRemove h | WorkLaunch _ _ h _ => Some h
  | _ => None
  end.

Definition drop_captured {X} (work : Work X) (w : World) : World :=
  match captured work with Some h => drop_arc h w | None => w end.

(** Dropping a result: a claim in it is released. *)
Definition drop_value (v : WorkValue) (w : World) : World :=
  match v with ValueLock (Ok (Some h)) => drop_arc h w | _ => w end.

Definition new_cell (w : World) : World * nat :=
  (bump (set_cells (<[w_next w := CellOpen]> (w_cells w)) w), w_next w).

(** The task ends. *)
Definition deliver (j : nat) (v : WorkValue) (w : World) : World :=
  match w_cells w !! j with
  | Some CellOpen => set_cells (<[j := CellDone v]> (w_cells w)) w
  | _ => drop_value v w
  end.

(** The runtime refuses to start the task: its closure is dropped. *)
Definition refuse {X} (j : nat) (work : Work X) (w : World) : World :=
  let w := drop_captured work w in
  match w_cells w !! j with
  | Some CellOpen => set_cells (<[j := CellRefused]> (w_cells w)) w
  | _ => w
  end.

(** The handle gives the result. *)
Definition take_cell {X} (j : nat) (work : Work X) (w : World) : option (World * option (result X KeptError)) :=
  match w_cells w !! j with
  | Some (CellDone v) =>
      match project_value work v with
      | Some r => Some (set_cells (delete j (w_cells w)) w, Some r)
      | None => None
      end
  | Some CellRefused => Some (set_cells (delete j (w_cells w)) w, None)
  | _ => None
  end.

(** The handle is dropped. *)
Definition close_cell (j : nat) (w : World) : World :=
  match w_cells w !! j with
  | Some CellOpen => set_cells (<[j := CellClosed]> (w_cells w)) w
  | Some (CellDone v) => drop_value v (set_cells (delete j (w_cells w)) w)
  | Some CellRefused => set_cells (delete j (w_cells w)) w
  | _ => w
  end.

(** *** An owner dies *)

(** Its descriptions are closed, its memory is gone. (A child it held before [exec] exits by
    itself; until then it is held for ever.) *)
Definition owner_dies (a : nat) (w : World) : World :=
  mkWorld (fs_exit a (w_fs w)) (w_procs w) (filter (fun arc => arc.2.1 <> a) (w_arcs w)) (w_cells w)
    (filter (fun h => held_owner h.2 <> a) (w_held w)) (w_next w) (w_returned w).

(** ** Programs *)

Definition KProg (A : Type) : Type := @Prog World KeptPort KeptTask A.
Definition KEvent (X : Type) : Type := @Event World KeptPort X.

(** Answers leave no trace: what matters is in the world. *)
Definition kept_answer (X : Type) (q : KeptPort X) (x : X) (w : World) : World := w.

Section Programs.
Open Scope prog_scope.

(** [p?] *)
Definition try_ {A B E} (p : KProg (result A E)) (k : A -> KProg (result B E)) : KProg (result B E) :=
  bind p (fun r => match r with Ok x => k x | Err e => Ret (Err e) end).

(** One system call: it fails with some text, or acts on the directory in one step. *)
Definition sys {X} (f : FileSystem -> FileSystem * result X IoError) : KProg (result X IoError) :=
  let! fault := call SysFault in
  match fault with
  | Some text => Ret (Err (IoFailed text))
  | None => act (fun w => let '(fs, r) := f (w_fs w) in (set_fs fs w, r))
  end.

(** ** The store, as a client sees it *)

(** [trait KeptStore]: blocking operations of one owner on the shared directory. *)
Class KeptStore : Type := {
  store_lock : nat -> KeptName -> KProg (result (option KeptLock) KeptError);
  store_read : KeptName -> KProg (result (option KeptRecord) KeptError);
  store_write : KeptLock -> KeptRecord -> KProg (result unit KeptError);
  store_remove : KeptLock -> KProg (result unit KeptError);
  store_names : KProg (result (list KeptName) KeptError);
}.
End Programs.

Notation "'let?' x ':=' p 'in' q" := (try_ p (fun x => q))
  (at level 200, x pattern, p at level 100, q at level 200, right associativity) : prog_scope.
