(* ===== verification/KeptStore.v ===== *)
(** * KeptStore: kept records as files in one directory

    shepherd-infra/src/kept/store.rs. [<name>.json] holds the record, [<name>.lock]
    the owner's claim. serde_json is a parameter ([RecordCodec]); all that is asked of
    it is that it reads back what it wrote. A system call is one step ([KeptState.sys])
    that may fail; an operation is the sequence of its system calls, so operations of
    several owners interleave call by call. *)

From stdpp Require Import base list sorting gmap strings pretty.
From S2P Require Import Prelude StdModel Values KeptDomain Ports Conc FileSystem KeptState.

Open Scope Z_scope.

(** ** Text of the errors *)

Definition store_error (context error : string) : KeptError :=
  KeptStoreFailed (context +:+ ": " +:+ error).

(** [ParseIntError] of [u64::from_str_radix]. *)
Inductive ParseIntError : Type := ParseEmpty | ParseInvalidDigit | ParsePosOverflow.
Definition parse_int_display (e : ParseIntError) : string :=
  match e with
  | ParseEmpty => "cannot parse integer from empty string"
  | ParseInvalidDigit => "invalid digit found in string"
  | ParsePosOverflow => "number too large to fit in target type"
  end.

(** ** Hexadecimal *)

Definition hex_char (d : Z) : Ascii.ascii :=
  Ascii.ascii_of_N (Z.to_N (if d <? 10 then 48 + d else 87 + d)).

(** The [n] lowest hexadecimal digits, the most significant first. *)
Fixpoint hex_fixed (n : nat) (v : Z) : string :=
  match n with
  | O => ""
  | S n => String (hex_char ((v / 16 ^ Z.of_nat n) mod 16)) (hex_fixed n v)
  end.

(** [format!("{:016x}", raw)]: sixteen digits are all of a [u64]. *)
Definition fingerprint_display (f : SpecFingerprint) : string := hex_fixed 16 (fp_get f).

(** [char::to_digit(16)]. *)
Definition hex_digit (c : Ascii.ascii) : option Z :=
  let b := Z.of_N (Ascii.N_of_ascii c) in
  if in_range 48 57 b then Some (b - 48)
  else if in_range 97 102 b then Some (b - 87)
  else if in_range 65 70 b then Some (b - 55)
  else None.

Fixpoint parse_hex (acc : Z) (s : string) : result Z ParseIntError :=
  match s with
  | EmptyString => Ok acc
  | String c s =>
      match hex_digit c with
      | None => Err ParseInvalidDigit
      | Some d =>
          if u64_max <? acc * 16 then Err ParsePosOverflow
          else if u64_max <? acc * 16 + d then Err ParsePosOverflow
          else parse_hex (acc * 16 + d) s
      end
  end.

(** [u64::from_str_radix(s, 16)]: a leading [+] is allowed before a digit. *)
Definition from_str_radix_16 (s : string) : result Z ParseIntError :=
  match s with
  | EmptyString => Err ParseEmpty
  | String c rest =>
      if bool_decide (c = Ascii.ascii_of_nat 43) && negb (bool_decide (rest = "")) then parse_hex 0 rest
      else parse_hex 0 s
  end.

(** ** The stored form *)

Inductive StoredSignal : Type :=
| StoredTerm
| StoredKill
| StoredInterrupt
| StoredCustom (raw : Z).

Record StoredRecord : Type := mkStoredRecord {
  sr_format : Z;
  sr_name : string;
  sr_os_pid : Z;
  sr_start_token : Z;
  sr_boot_id : option string;
  sr_exe : option PathBuf;
  sr_program : string;
  sr_args : list string;
  sr_fingerprint : string;
  sr_revision : option string;
  sr_graceful_signal : StoredSignal;
  sr_log : option PathBuf;
  sr_owner : string;
  sr_started_at_unix_ms : Z;
}.

#[global] Instance stored_signal_eq_dec : EqDecision StoredSignal.
Proof. solve_decision. Defined.
#[global] Instance stored_record_eq_dec : EqDecision StoredRecord.
Proof. solve_decision. Defined.

Definition FORMAT : Z := 1.

Definition stored_signal_from (s : Signal) : StoredSignal :=
  match s with
  | Term => StoredTerm
  | Kill => StoredKill
  | Interrupt => StoredInterrupt
  | CustomSignal raw => StoredCustom raw
  end.

Definition signal_from_stored (s : StoredSignal) : Signal :=
  match s with
  | StoredTerm => Term
  | StoredKill => Kill
  | StoredInterrupt => Interrupt
  | StoredCustom raw => CustomSignal raw
  end.

Definition stored_from (r : KeptRecord) : StoredRecord :=
  mkStoredRecord FORMAT (kept_name (rec_name r)) (rec_os_pid r) (rec_start_token r) (rec_boot_id r)
    (rec_exe r) (rec_program r) (rec_args r) (fingerprint_display (rec_fingerprint r)) (rec_revision r)
    (stored_signal_from (rec_graceful_signal r)) (rec_log r) (rec_owner r) (rec_started_at_unix_ms r).

(** A number in decimal. *)
Definition decimal (z : Z) : string := pretty z.

(** [KeptNameError]'s text: the rejected text is quoted and escaped (an accepted one needs no
    escape; here the characters of ASCII that Rust's [Debug] escapes with a backslash). *)
Definition debug_char (c : Ascii.ascii) : string :=
  let b := Z.of_N (Ascii.N_of_ascii c) in
  let escaped (b : nat) := String (Ascii.ascii_of_nat 92) (String (Ascii.ascii_of_nat b) "") in
  if b =? 34 then escaped 34%nat
  else if b =? 92 then escaped 92%nat
  else if b =? 10 then escaped 110%nat
  else if b =? 13 then escaped 114%nat
  else if b =? 9 then escaped 116%nat
  else if b =? 0 then escaped 48%nat
  else String c "".
Fixpoint debug_text (s : string) : string :=
  match s with EmptyString => "" | String c s => debug_char c +:+ debug_text s end.
Definition quote : string := String (Ascii.ascii_of_nat 34) "".
Definition kept_name_error_display (e : KeptNameError) : string :=
  "invalid kept process name " +:+ quote +:+ debug_text (rejected_name e) +:+ quote +:+
  ": use 1-64 of [A-Za-z0-9._-], not starting with '.'".

Definition into_record (s : StoredRecord) (file_name : KeptName) : result KeptRecord KeptError :=
  if negb (sr_format s =? FORMAT) then
    Err (KeptStoreFailed ("record " +:+ kept_name file_name +:+ " has unknown format " +:+ decimal (sr_format s)))
  else
  match kept_name_new (sr_name s) with
  | Err e => Err (store_error "record name" (kept_name_error_display e))
  | Ok name =>
      if negb (bool_decide (name = file_name)) then
        Err (KeptStoreFailed ("record file " +:+ kept_name file_name +:+ " names " +:+ kept_name name))
      else
      match from_str_radix_16 (sr_fingerprint s) with
      | Err e => Err (store_error "record fingerprint" (parse_int_display e))
      | Ok fingerprint =>
          Ok (mkKeptRecord name (sr_os_pid s) (sr_start_token s) (sr_boot_id s) (sr_exe s) (sr_program s)
                (sr_args s) (from_raw fingerprint) (sr_revision s)
                (signal_from_stored (sr_graceful_signal s)) (sr_log s) (sr_owner s)
                (sr_started_at_unix_ms s))
      end
  end.

(** serde_json's [to_vec_pretty] and [from_slice] for [StoredRecord], with their error texts. *)
Class RecordCodec : Type := {
  to_vec_pretty : StoredRecord -> result string string;
  from_slice : string -> result StoredRecord string;
}.

(** It reads back what it wrote. *)
Class RecordCodecLaws `{RecordCodec} : Prop := {
  from_slice_to_vec s bytes : to_vec_pretty s = Ok bytes -> from_slice bytes = Ok s;
}.

(** ** The files *)

Definition record_path (name : KeptName) : string := kept_name name +:+ ".json".
Definition lock_path (name : KeptName) : string := kept_name name +:+ ".lock".
Definition temporary_path (name : KeptName) : string := "." +:+ kept_name name +:+ ".json.tmp".

Section Store.
Context `{RecordCodec}.
Open Scope prog_scope.

(** What the bytes of a record file say. *)
Definition decode_record (name : KeptName) (bytes : string) : result KeptRecord KeptError :=
  match from_slice bytes with
  | Err e => Err (store_error "decode record" e)
  | Ok stored => into_record stored name
  end.

Definition sync_dir : KProg (result unit KeptError) :=
  let! synced := sys (fun fs => (fs, Ok tt)) in
  Ret (match synced with Ok tt => Ok tt | Err e => Err (store_error "sync directory" (io_display e)) end).

Definition directory_lock (owner : nat) (name : KeptName) : KProg (result (option KeptLock) KeptError) :=
  let! opened := sys (fun fs => let '(fs, ino) := fs_create (lock_path name) fs in (fs, Ok ino)) in
  match opened with
  | Err e => Ret (Err (store_error "open lock" (io_display e)))
  | Ok ino =>
      let! locked := sys (fs_flock owner ino) in
      match locked with
      | Ok ofd => Ret (Ok (Some (mkKeptLock name ofd)))
      | Err IoWouldBlock => Ret (Ok None)
      | Err e => Ret (Err (store_error "lock" (io_display e)))
      end
  end.

(** [std::fs::read]: open, then read to the end. *)
Definition fs_read_file (path : string) : KProg (result string IoError) :=
  let! opened := sys (fun fs => (fs, fs_open path fs)) in
  match opened with
  | Err e => Ret (Err e)
  | Ok ino => sys (fun fs => (fs, Ok (fs_read ino fs)))
  end.

Definition directory_read (name : KeptName) : KProg (result (option KeptRecord) KeptError) :=
  let! bytes := fs_read_file (record_path name) in
  match bytes with
  | Err IoNotFound => Ret (Ok None)
  | Err e => Ret (Err (store_error "read record" (io_display e)))
  | Ok bytes =>
      Ret (match decode_record name bytes with Ok r => Ok (Some r) | Err e => Err e end)
  end.

(** [Write::write_all] at an offset: each [write] takes at least one byte, so the length of
    what is left is enough fuel. *)
Fixpoint write_all (fuel : nat) (ino offset : nat) (rest : string) : KProg (result unit IoError) :=
  match fuel with
  | O => Ret (Ok tt)
  | S fuel =>
      if bool_decide (rest = "") then Ret (Ok tt)
      else
        let! taken := call (WriteSome rest) in
        match taken with
        | Err text => Ret (Err (IoFailed text))
        | Ok O => Ret (Err (IoFailed "failed to write whole buffer"))
        | Ok n =>
            let n := Nat.min n (String.length rest) in
            modify (fun w => set_fs (fs_write ino offset (String.substring 0 n rest) (w_fs w)) w) ;;;
            write_all fuel ino (offset + n) (String.substring n (String.length rest - n) rest)
        end
  end.

Definition directory_write (lock : KeptLock) (record : KeptRecord) : KProg (result unit KeptError) :=
  if negb (bool_decide (lock_name lock = rec_name record)) then
    Ret (Err (KeptStoreFailed ("claim for " +:+ kept_name (lock_name lock) +:+ " cannot write record " +:+
                               kept_name (rec_name record))))
  else
  match to_vec_pretty (stored_from record) with
  | Err e => Ret (Err (store_error "encode record" e))
  | Ok bytes =>
      let temporary := temporary_path (rec_name record) in
      let! created := sys (fun fs => let '(fs, ino) := fs_create_truncate temporary fs in (fs, Ok ino)) in
      match created with
      | Err e => Ret (Err (store_error "create record" (io_display e)))
      | Ok ino =>
          let! written := write_all (String.length bytes) ino 0 bytes in
          let! flushed := match written with
                          | Ok tt => sys (fun fs => (fs, Ok tt))
                          | Err e => Ret (Err e)
                          end in
          match flushed with
          | Err e => Ret (Err (store_error "write record" (io_display e)))
          | Ok tt =>
              let! published := sys (fs_rename temporary (record_path (rec_name record))) in
              match published with
              | Err e => Ret (Err (store_error "publish record" (io_display e)))
              | Ok tt => sync_dir
              end
          end
      end
  end.

Definition directory_remove (lock : KeptLock) : KProg (result unit KeptError) :=
  let! removed := sys (fs_unlink (record_path (lock_name lock))) in
  match removed with
  | Ok tt => sync_dir
  | Err IoNotFound => Ret (Ok tt)
  | Err e => Ret (Err (store_error "remove record" (io_display e)))
  end.

(** The names of the record files among the entries. *)
Definition record_names (entries : list string) : list KeptName :=
  omap (fun file => match strip_suffix ".json" file with
                    | Some stem => result_ok (kept_name_new stem)
                    | None => None
                    end) entries.

Definition name_le (a b : KeptName) : Prop := String.leb (kept_name a) (kept_name b) = true.
#[global] Instance name_le_dec a b : Decision (name_le a b).
Proof. unfold name_le. apply _. Defined.

Definition directory_names : KProg (result (list KeptName) KeptError) :=
  let! listed := sys (fun fs => (fs, Ok (fs_list fs))) in
  match listed with
  | Err e => Ret (Err (store_error "list" (io_display e)))
  | Ok entries => Ret (Ok (merge_sort name_le (record_names entries)))
  end.

#[global] Instance DirectoryKeptStore : KeptStore := {
  store_lock := directory_lock;
  store_read := directory_read;
  store_write := directory_write;
  store_remove := directory_remove;
  store_names := directory_names;
}.
End Store.

(** ** The record codec *)

Lemma hex_digit_char d : 0 <= d < 16 -> hex_digit (hex_char d) = Some d.
Proof.
  intros H. assert (d = 0 \/ d = 1 \/ d = 2 \/ d = 3 \/ d = 4 \/ d = 5 \/ d = 6 \/ d = 7 \/ d = 8 \/
    d = 9 \/ d = 10 \/ d = 11 \/ d = 12 \/ d = 13 \/ d = 14 \/ d = 15) as Hd by lia.
  by repeat destruct Hd as [->|Hd]; [..|rewrite Hd].
Qed.

Lemma parse_hex_fixed n acc v :
  0 <= acc -> acc * 16 ^ Z.of_nat n + v mod 16 ^ Z.of_nat n <= u64_max ->
  parse_hex acc (hex_fixed n v) = Ok (acc * 16 ^ Z.of_nat n + v mod 16 ^ Z.of_nat n).
Proof.
  revert acc. induction n as [|n IH]; intros acc Ha Hb; cbn [hex_fixed parse_hex].
  - f_equal. change (16 ^ Z.of_nat 0) with 1. rewrite Z.mod_1_r. lia.
  - assert (0 < 16 ^ Z.of_nat n) as Hpos by (apply Z.pow_pos_nonneg; lia).
    rewrite Nat2Z.inj_succ, Z.pow_succ_r in Hb |- * by lia.
    set (P := 16 ^ Z.of_nat n) in *.
    assert (v mod (16 * P) = P * ((v / P) mod 16) + v mod P) as Hv.
    { rewrite (Z.mul_comm 16 P), Z.rem_mul_r by lia. lia. }
    pose proof (Z.mod_pos_bound (v / P) 16 ltac:(lia)) as Hd.
    pose proof (Z.mod_pos_bound v P ltac:(lia)) as Hr.
    rewrite hex_digit_char by lia. rewrite Hv in Hb |- *.
    assert (acc * 16 + (v / P) mod 16 <= u64_max) as Hs by nia.
    destruct (Z.ltb_spec u64_max (acc * 16)); [lia|].
    destruct (Z.ltb_spec u64_max (acc * 16 + (v / P) mod 16)); [lia|].
    rewrite IH by nia. f_equal. nia.
Qed.

Lemma from_str_radix_display raw :
  0 <= raw <= u64_max -> from_str_radix_16 (fingerprint_display (from_raw raw)) = Ok raw.
Proof.
  intros Hr. unfold fingerprint_display, from_str_radix_16. cbn [fp_get].
  assert (parse_hex 0 (hex_fixed 16 raw) = Ok raw) as E.
  { rewrite parse_hex_fixed; change (16 ^ Z.of_nat 16) with (2 ^ 64); unfold u64_max in *;
      rewrite ?Z.mod_small by lia; [f_equal; lia|lia..]. }
  destruct (hex_fixed 16 raw) as [|c rest] eqn:Eh; [by cbn in Eh|].
  case_bool_decide as Hc; cbn [andb]; [|done]. exfalso. subst c. by cbn in E.
Qed.

Lemma signal_from_stored_from s : signal_from_stored (stored_signal_from s) = s.
Proof. by destruct s. Qed.

(** A record whose name was accepted and whose fingerprint is a [u64]. *)
Definition record_valid (r : KeptRecord) : Prop :=
  kept_name_new (kept_name (rec_name r)) = Ok (rec_name r) /\ 0 <= fp_get (rec_fingerprint r) <= u64_max.

Lemma into_record_stored_from r : record_valid r -> into_record (stored_from r) (rec_name r) = Ok r.
Proof.
  destruct r as [n pid tok boot exe prog args [raw] rev sig log owner ms]. intros [Hn Hf].
  cbn [rec_name rec_fingerprint fp_get] in Hn, Hf. unfold into_record, stored_from. cbn [sr_format sr_name
    rec_name Z.eqb negb FORMAT Pos.eqb]. rewrite Hn, bool_decide_eq_true_2 by done. cbn [negb sr_fingerprint
    rec_fingerprint]. rewrite from_str_radix_display by done. cbn. by rewrite signal_from_stored_from.
Qed.

Lemma into_record_name s n r : into_record s n = Ok r -> rec_name r = n.
Proof.
  unfold into_record. destruct (negb _); [done|]. destruct (kept_name_new _); [|done].
  case_bool_decide; [|done]. cbn. destruct (from_str_radix_16 _); [|done]. by intros [= <-].
Qed.

(** ** The files of different names and kinds are different *)

Lemma record_path_inj n1 n2 : record_path n1 = record_path n2 -> n1 = n2.
Proof. destruct n1, n2. intros E. apply (sapp_inj_r _ _ ".json") in E. cbn in E. by subst. Qed.

Lemma lock_path_inj n1 n2 : lock_path n1 = lock_path n2 -> n1 = n2.
Proof. destruct n1, n2. intros E. apply (sapp_inj_r _ _ ".lock") in E. cbn in E. by subst. Qed.

Lemma temporary_path_inj n1 n2 : temporary_path n1 = temporary_path n2 -> n1 = n2.
Proof.
  destruct n1 as [s1], n2 as [s2]. unfold temporary_path. intros E. injection E as E.
  apply (sapp_inj_r _ _ ".json.tmp") in E. cbn in E. by subst.
Qed.

Lemma record_path_last n : exists s, record_path n = s +:+ "n".
Proof. exists (kept_name n +:+ ".jso"). by rewrite (sapp_assoc _ ".jso"). Qed.
Lemma lock_path_last n : exists s, lock_path n = s +:+ "k".
Proof. exists (kept_name n +:+ ".loc"). by rewrite (sapp_assoc _ ".loc"). Qed.
Lemma temporary_path_last n : exists s, temporary_path n = s +:+ "p".
Proof.
  exists ("." +:+ (kept_name n +:+ ".json.tm")). unfold temporary_path.
  by rewrite (sapp_assoc "."), (sapp_assoc _ ".json.tm").
Qed.

Lemma record_path_ne_temporary n m : record_path n <> temporary_path m.
Proof.
  destruct (record_path_last n) as [s ->], (temporary_path_last m) as [t ->]. intros E%sapp_last. done.
Qed.
Lemma record_path_ne_lock n m : record_path n <> lock_path m.
Proof. destruct (record_path_last n) as [s ->], (lock_path_last m) as [t ->]. intros E%sapp_last. done. Qed.
Lemma lock_path_ne_temporary n m : lock_path n <> temporary_path m.
Proof. destruct (lock_path_last n) as [s ->], (temporary_path_last m) as [t ->]. intros E%sapp_last. done. Qed.

(** ** What the directory says of a name *)

Definition record_bytes (fs : FileSystem) (n : KeptName) : option string :=
  match fs_dir fs !! record_path n with Some ino => Some (fs_read ino fs) | None => None end.

(** What [read] gives when no system call fails. *)
Definition stored_view `{RecordCodec} (fs : FileSystem) (n : KeptName) : result (option KeptRecord) KeptError :=
  match record_bytes fs n with
  | None => Ok None
  | Some bytes => match decode_record n bytes with Ok r => Ok (Some r) | Err e => Err e end
  end.

Lemma record_bytes_create path fs n :
  fs_wf fs -> (forall m, path <> record_path m) ->
  record_bytes (fs_create path fs).1 n = record_bytes fs n.
Proof.
  intros Hw Hp. unfold record_bytes, fs_create. destruct (fs_dir fs !! path) eqn:E; [done|]. cbn.
  rewrite lookup_insert_ne by done. destruct (fs_dir fs !! record_path n) as [i|] eqn:Ei; [|done].
  unfold fs_read. cbn. rewrite lookup_insert_ne; [done|]. apply (wf_dir _ Hw) in Ei as [? _]. lia.
Qed.

(** Bytes written to an inode that another name refers to do not reach a record. *)
Lemma record_bytes_set_data path ino bytes fs n :
  fs_wf fs -> fs_dir fs !! path = Some ino -> (forall m, path <> record_path m) ->
  record_bytes (fs_set_data ino bytes fs) n = record_bytes fs n.
Proof.
  intros Hw Hi Hp. unfold record_bytes. cbn. destruct (fs_dir fs !! record_path n) as [i|] eqn:Ei; [|done].
  unfold fs_read. cbn. rewrite lookup_insert_ne; [done|]. intros <-. by apply (Hp n), (wf_links _ Hw _ _ ino).
Qed.

Lemma fs_create_dir path fs : fs_dir (fs_create path fs).1 !! path = Some (fs_create path fs).2.
Proof. unfold fs_create. destruct (fs_dir fs !! path) eqn:E; cbn; [done|apply lookup_insert_eq]. Qed.

Lemma record_bytes_create_truncate path fs n :
  fs_wf fs -> (forall m, path <> record_path m) ->
  record_bytes (fs_create_truncate path fs).1 n = record_bytes fs n.
Proof.
  intros Hw Hp. unfold fs_create_truncate. pose proof (record_bytes_create path fs n Hw Hp) as E.
  pose proof (fs_create_dir path fs) as Hd. pose proof (fs_create_wf path fs Hw) as Hw'.
  destruct (fs_create path fs) as [fs' ino]; cbn in *. by rewrite (record_bytes_set_data path) by done.
Qed.

(** Publishing replaces one record, by the bytes of the temporary. *)
Lemma record_bytes_rename m fs n ino :
  fs_wf fs -> fs_dir fs !! temporary_path m = Some ino ->
  record_bytes (fs_rename (temporary_path m) (record_path m) fs).1 n =
  if decide (n = m) then Some (fs_read ino fs) else record_bytes fs n.
Proof.
  intros Hw Hi. unfold record_bytes, fs_rename. rewrite Hi. cbn. case_decide as Hn.
  - subst. by rewrite lookup_insert_eq.
  - rewrite lookup_insert_ne by (intros E%record_path_inj; done).
    rewrite lookup_delete_ne by (apply not_eq_sym, record_path_ne_temporary). done.
Qed.

Lemma record_bytes_unlink m fs n :
  record_bytes (fs_unlink (record_path m) fs).1 n = if decide (n = m) then None else record_bytes fs n.
Proof.
  unfold record_bytes, fs_unlink. case_decide as Hn.
  - subst. destruct (fs_dir fs !! record_path m) eqn:E; cbn; [by rewrite lookup_delete_eq|by rewrite E].
  - destruct (fs_dir fs !! record_path m) eqn:E; cbn; [|done].
    rewrite lookup_delete_ne by (intros E'%record_path_inj; done). done.
Qed.

Lemma record_bytes_flock owner ino fs n : record_bytes (fs_flock owner ino fs).1 n = record_bytes fs n.
Proof. unfold fs_flock. by case_decide. Qed.

(** ** Each operation, run alone *)

Section Alone.
Context `{RecordCodec}.

Abbreviation alone := (alone kept_answer).

Lemma alone_sys {X} (f : FileSystem -> FileSystem * result X IoError) (post : result X IoError -> World -> Prop) w :
  (forall text, post (Err (IoFailed text)) w) ->
  post (f (w_fs w)).2 (set_fs (f (w_fs w)).1 w) -> alone (sys f) post w.
Proof. intros He Hf [text|]; [apply He|]. unfold kept_answer. cbn. revert Hf. by destruct (f (w_fs w)). Qed.

(** Only the directory may have changed, well-formed, and its records are [view]. *)
Definition only_records (w : World) (view : KeptName -> option string) (w' : World) : Prop :=
  (exists fs, w' = set_fs fs w) /\ fs_wf (w_fs w') /\ forall n, record_bytes (w_fs w') n = view n.

Lemma only_records_refl w : fs_wf (w_fs w) -> only_records w (record_bytes (w_fs w)) w.
Proof. intros Hw. split; [|done]. exists (w_fs w). by destruct w. Qed.

Lemma only_records_step w view w' view' fs :
  only_records w view w' -> fs_wf fs -> (forall n, record_bytes fs n = view' n) ->
  only_records w view' (set_fs fs w').
Proof. intros [[fs' ->] _] Hw Hv. split; [by exists fs|done]. Qed.

Lemma sync_dir_alone w : alone sync_dir (fun r w' => w' = w /\ (r = Ok tt \/ exists e, r = Err (KeptStoreFailed e))) w.
Proof.
  apply alone_bind, alone_sys; cbn; [|split; [by destruct w|by left]].
  intros text. split; [done|]. right. eexists. reflexivity.
Qed.

(** A file is read as it is, or the read fails. *)
Lemma directory_read_alone n w :
  alone (directory_read n)
    (fun r w' => w' = w /\ (r = stored_view (w_fs w) n \/ exists e, r = Err (KeptStoreFailed e))) w.
Proof.
  apply alone_bind, alone_bind, alone_sys; cbn.
  { intros text. split; [done|]. right. eexists. reflexivity. }
  unfold fs_open, stored_view, record_bytes. destruct (fs_dir (w_fs w) !! record_path n) as [ino|]; cbn.
  - intros [text|]; cbn.
    + split; [by destruct w|]. right. eexists. reflexivity.
    + split; [by destruct w|]. by left.
  - split; [by destruct w|]. by left.
Qed.

Lemma substring_0 s : String.substring 0 0 s = "".
Proof. by destruct s. Qed.

(** The whole text is written from the offset on, or an error leaves the file in some state. *)
Lemma write_all_alone fuel path ino rest w0 w view (post : result unit IoError -> World -> Prop) :
  (String.length rest <= fuel)%nat -> (forall m, path <> record_path m) ->
  only_records w0 view w -> fs_dir (w_fs w) !! path = Some ino ->
  (forall r w', only_records w0 view w' -> fs_dir (w_fs w') !! path = Some ino ->
     (r = Ok tt -> fs_read ino (w_fs w') = fs_read ino (w_fs w) +:+ rest) -> post r w') ->
  alone (write_all fuel ino (String.length (fs_read ino (w_fs w))) rest) post w.
Proof.
  revert rest w. induction fuel as [|fuel IH]; intros rest w Hl Hp Hw Hi Hpost; cbn [write_all].
  { destruct rest; cbn in Hl; [|lia]. apply Hpost; [done..|]. intros _. by rewrite sapp_nil_r. }
  case_bool_decide as Hr.
  { apply Hpost; [done..|]. intros _. subst. by rewrite sapp_nil_r. }
  apply alone_bind. intros [[|n]|text]; [by apply Hpost| |by apply Hpost]. cbn [Conc.alone].
  apply alone_bind. cbn [Conc.alone act modify fst snd].
  set (k := Nat.min (S n) (String.length rest)).
  unfold kept_answer. set (w1 := set_fs (fs_write _ _ _ _) _).
  assert (Hk : (1 <= k <= String.length rest)%nat).
  { unfold k. destruct rest; cbn [String.length]; [done|lia]. }
  destruct Hw as (Hfs & Hwf & Hv).
  assert (Hread : fs_read ino (w_fs w1) = fs_read ino (w_fs w) +:+ String.substring 0 k rest).
  { unfold w1, fs_write, fs_read. cbn. rewrite lookup_insert_eq. cbn. apply splice_end. }
  replace (String.length (fs_read ino (w_fs w)) + k)%nat with (String.length (fs_read ino (w_fs w1))).
  2:{ rewrite Hread, length_sapp, length_substring. lia. }
  apply IH.
  - pose proof (f_equal String.length (substring_split rest k ltac:(lia))) as E.
    rewrite length_sapp, length_substring in E. lia.
  - done.
  - apply (only_records_step w0 view); [by split|by apply fs_set_data_wf; [apply (wf_dir _ Hwf) in Hi as [? _]|]|].
    intros m. unfold fs_write. by rewrite (record_bytes_set_data path).
  - done.
  - intros r w' Hw' Hi' Hr'. apply Hpost; [done..|]. intros E. rewrite (Hr' E), Hread, sapp_assoc.
    by rewrite substring_split by lia.
Qed.

(** A write replaces the record of its claim by the new one, or fails and leaves the old one or
    the new one; no other record changes. *)
Lemma directory_write_alone lock r w :
  fs_wf (w_fs w) ->
  alone (directory_write lock r)
    (fun res w' =>
       (exists e, res = Err (KeptStoreFailed e) /\ only_records w (record_bytes (w_fs w)) w') \/
       (lock_name lock = rec_name r /\ exists bytes, to_vec_pretty (stored_from r) = Ok bytes /\
        (res = Ok tt \/ exists e, res = Err (KeptStoreFailed e)) /\
        only_records w (fun n => if decide (n = rec_name r) then Some bytes else record_bytes (w_fs w) n) w')) w.
Proof.
  intros Hwf. pose proof (only_records_refl w Hwf) as Hw. unfold directory_write.
  case_bool_decide as Hn; cbn [negb]; [|left; eauto].
  destruct (to_vec_pretty (stored_from r)) as [bytes|e]; [|left; eexists; by split].
  apply alone_bind, alone_sys. { intros text. left. eexists. by split. }
  set (path := temporary_path (rec_name r)).
  assert (Hp : forall m, path <> record_path m) by (intros m; apply not_eq_sym, record_path_ne_temporary).
  pose proof (fs_create_truncate_wf path _ Hwf) as Hwf1.
  pose proof (record_bytes_create_truncate path (w_fs w)) as Hv1.
  assert (Hc : fs_dir (fs_create_truncate path (w_fs w)).1 !! path = Some (fs_create_truncate path (w_fs w)).2 /\
               fs_read (fs_create_truncate path (w_fs w)).2 (fs_create_truncate path (w_fs w)).1 = "").
  { unfold fs_create_truncate. pose proof (fs_create_dir path (w_fs w)).
    destruct (fs_create path (w_fs w)) as [fs ino]. cbn in *. split; [done|].
    unfold fs_read. cbn. by rewrite lookup_insert_eq. }
  destruct (fs_create_truncate path (w_fs w)) as [fs1 ino]. cbn [fst snd] in *. destruct Hc as [Hi Hempty].
  assert (Hw1 : only_records w (record_bytes (w_fs w)) (set_fs fs1 w)).
  { split; [by exists fs1|]. split; [done|]. intros n. by apply Hv1. }
  replace O with (String.length (fs_read ino (w_fs (set_fs fs1 w)))) by (cbn; by rewrite Hempty).
  apply alone_bind. apply (write_all_alone _ path ino bytes w _ (record_bytes (w_fs w))); [done..|].
  intros [[]|e] w2 Hw2 Hi2 Hd2; [|left; eexists; by split].
  specialize (Hd2 eq_refl). cbn [w_fs set_fs] in Hd2. rewrite Hempty in Hd2. cbn in Hd2.
  apply alone_bind, alone_sys. { intros text. left. eexists. by split. } cbn [fst snd].
  assert (Hw2' : set_fs (w_fs w2) w2 = w2) by (by destruct w2). rewrite Hw2'.
  apply alone_bind, alone_sys. { intros text. left. eexists. by split. }
  assert (Hok : (fs_rename path (record_path (rec_name r)) (w_fs w2)).2 = Ok tt) by (unfold fs_rename; by rewrite Hi2).
  rewrite Hok. eapply alone_mono; [|apply sync_dir_alone]. intros res w' [-> Hres].
  right. split; [done|]. exists bytes. split; [done|]. split; [done|].
  destruct Hw2 as (Hfs2 & Hwf2 & Hv2).
  apply (only_records_step w (record_bytes (w_fs w))); [done|by apply fs_rename_wf|].
  intros n. unfold path. rewrite (record_bytes_rename _ _ _ ino) by done. rewrite Hd2, Hv2. done.
Qed.

(** A removal removes the record of the claim; removing a missing record succeeds. *)
Lemma directory_remove_alone lock w :
  fs_wf (w_fs w) ->
  alone (directory_remove lock)
    (fun res w' =>
       (exists e, res = Err (KeptStoreFailed e) /\ only_records w (record_bytes (w_fs w)) w') \/
       ((res = Ok tt \/ exists e, res = Err (KeptStoreFailed e)) /\
        only_records w (fun n => if decide (n = lock_name lock) then None else record_bytes (w_fs w) n) w')) w.
Proof.
  intros Hwf. pose proof (only_records_refl w Hwf) as Hw.
  apply alone_bind, alone_sys. { intros text. left. eexists. by split. }
  assert (Hw' : only_records w (fun n => if decide (n = lock_name lock) then None else record_bytes (w_fs w) n)
            (set_fs (fs_unlink (record_path (lock_name lock)) (w_fs w)).1 w)).
  { apply (only_records_step w (record_bytes (w_fs w))); [done|by apply fs_unlink_wf|].
    intros n. apply record_bytes_unlink. }
  unfold fs_unlink in *. destruct (fs_dir (w_fs w) !! record_path (lock_name lock)) eqn:E; cbn [fst snd] in *.
  - eapply alone_mono; [|apply sync_dir_alone]. intros res w' [-> Hres]. right. by split.
  - right. split; [by left|done].
Qed.
End Alone.

(** ** Properties of the store *)

Lemma kept_name_new_Ok s n : kept_name_new s = Ok n -> s = kept_name n.
Proof. unfold kept_name_new. destruct (_ || _ || _ || _); [done|]. by intros [= <-]. Qed.

(** The names found are the accepted names that have a record file. *)
Lemma elem_of_record_names fs n :
  n ∈ record_names (fs_list fs) <-> kept_name_new (kept_name n) = Ok n /\ is_Some (record_bytes fs n).
Proof.
  unfold record_names, fs_list, record_bytes. rewrite list_elem_of_omap. split.
  - intros (file & Hf & Hs). destruct (strip_suffix ".json" file) as [stem|] eqn:E; [|done].
    apply strip_suffix_Some in E as ->. destruct (kept_name_new stem) as [m|] eqn:En; [|done].
    cbn in Hs. injection Hs as ->. pose proof (kept_name_new_Ok _ _ En) as ->. split; [done|].
    apply list_elem_of_fmap in Hf as ([p ino] & Ep & Hf%elem_of_map_to_list). cbn in Ep. subst p.
    unfold record_path. rewrite Hf. eauto.
  - intros [Hn Hb]. exists (record_path n). split.
    + destruct (fs_dir fs !! record_path n) as [ino|] eqn:E; [|by destruct Hb].
      apply list_elem_of_fmap. exists (record_path n, ino). by rewrite elem_of_map_to_list.
    + unfold record_path. by rewrite strip_suffix_app, Hn.
Qed.

Lemma directory_names_alone w :
  alone kept_answer directory_names
    (fun res w' => w' = w /\
       ((exists e, res = Err (KeptStoreFailed e)) \/
        exists names, res = Ok names /\ Sorted name_le names /\
          forall n, n ∈ names <-> kept_name_new (kept_name n) = Ok n /\ is_Some (record_bytes (w_fs w) n))) w.
Proof.
  apply alone_bind, alone_sys; cbn; [intros text; split; [done|]; left; eexists; reflexivity|].
  split; [by destruct w|]. right. eexists. split; [done|]. split.
  { apply Sorted_merge_sort. intros x y. unfold name_le.
    destruct (String.leb_total (kept_name x) (kept_name y)); auto. }
  intros n. rewrite merge_sort_Permutation. apply elem_of_record_names.
Qed.

Section Properties.
Context `{RecordCodecLaws}.
Open Scope prog_scope.

(** A write, then a read of the same name. *)
Definition write_then_read (lock : KeptLock) (r : KeptRecord) :
    KProg (result unit KeptError * result (option KeptRecord) KeptError) :=
  let! written := directory_write lock r in
  let! found := directory_read (rec_name r) in
  Ret (written, found).

(** C21. Round trip of a record through the store: after a write that succeeded, a read of its
    name gives exactly that record, unless the read's own system calls fail; a write that
    failed leaves the record that was there or the whole new one. *)
Theorem kept_record_roundtrip lock r w w' written found :
  record_valid r -> fs_wf (w_fs w) ->
  runs kept_answer w (write_then_read lock r) w' (written, found) ->
  (exists e, found = Err (KeptStoreFailed e)) \/
  match written with
  | Ok tt => found = Ok (Some r)
  | Err _ => found = stored_view (w_fs w) (rec_name r) \/ found = Ok (Some r)
  end.
Proof.
  intros Hr Hw Hrun.
  assert (Hall : alone kept_answer (write_then_read lock r)
    (fun a _ => (exists e, a.2 = Err (KeptStoreFailed e)) \/
       match a.1 with
       | Ok tt => a.2 = Ok (Some r)
       | Err _ => a.2 = stored_view (w_fs w) (rec_name r) \/ a.2 = Ok (Some r)
       end) w); [|exact (alone_runs _ _ _ _ _ _ Hall Hrun)].
  apply alone_bind. eapply alone_mono; [|by apply directory_write_alone]. intros wr w1 Hwr.
  apply alone_bind. eapply alone_mono; [|apply directory_read_alone].
  intros found' w2 [-> [->|[e ->]]]; [|left; by exists e]. right. cbn [fst snd].
  destruct Hwr as [(e & -> & _ & _ & Hv)|(_ & bytes & Hb & Hres & _ & _ & Hv)].
  - left. unfold stored_view. by rewrite Hv.
  - assert (Hnew : stored_view (w_fs w1) (rec_name r) = Ok (Some r)).
    { unfold stored_view. rewrite Hv, decide_True by done. unfold decode_record.
      by rewrite (from_slice_to_vec _ _ Hb), into_record_stored_from. }
    destruct Hres as [->|[e ->]]; [done|by right].
Qed.

(** C22. Damaged or foreign records are errors, never absences: a read says that there is no
    record only when there is no file, and gives a record only when the file's text is one of
    the current format that carries the file's own name and a hexadecimal fingerprint; in
    every other case it is a store error. A read changes nothing, and a write under a claim
    for another name is refused before any file is touched. *)
Theorem kept_store_errors n w w' found lock r w1 written :
  runs kept_answer w (directory_read n) w' found ->
  lock_name lock <> rec_name r -> runs kept_answer w (directory_write lock r) w1 written ->
  w' = w /\
  match found with
  | Ok None => record_bytes (w_fs w) n = None
  | Ok (Some r) =>
      rec_name r = n /\
      exists bytes stored raw, record_bytes (w_fs w) n = Some bytes /\ from_slice bytes = Ok stored /\
        sr_format stored = FORMAT /\ sr_name stored = kept_name n /\
        from_str_radix_16 (sr_fingerprint stored) = Ok raw /\ rec_fingerprint r = from_raw raw /\
        rec_os_pid r = sr_os_pid stored /\ rec_start_token r = sr_start_token stored
  | Err e => exists text, e = KeptStoreFailed text
  end /\
  w1 = w /\ exists text, written = Err (KeptStoreFailed text).
Proof.
  intros Hread Hne Hwrite. pose proof (alone_runs _ _ _ _ _ _ (directory_read_alone n w) Hread) as [-> Hf].
  assert (Hrefused : alone kept_answer (directory_write lock r)
    (fun res w1 => w1 = w /\ exists text, res = Err (KeptStoreFailed text)) w).
  { unfold directory_write. rewrite bool_decide_eq_false_2 by done. cbn. eauto. }
  pose proof (alone_runs _ _ _ _ _ _ Hrefused Hwrite) as Hw. split_and!; [done| |apply Hw..].
  destruct Hf as [->|[e ->]]; [|by eexists]. unfold stored_view.
  destruct (record_bytes (w_fs w) n) as [bytes|] eqn:Eb; [|done]. unfold decode_record.
  destruct (from_slice bytes) as [stored|e] eqn:Es; [|by eexists]. unfold into_record.
  destruct (Z.eqb_spec (sr_format stored) FORMAT) as [Hfo|]; cbn [negb]; [|by eexists].
  destruct (kept_name_new (sr_name stored)) as [m|e] eqn:En; [|by eexists].
  case_bool_decide as Hm; cbn [negb]; [|by eexists]. subst m.
  destruct (from_str_radix_16 (sr_fingerprint stored)) as [raw|e] eqn:Er; [|by eexists].
  cbn. split; [done|]. exists bytes, stored, raw. split_and!; try done.
  by apply kept_name_new_Ok in En.
Qed.

(** The listing of a store is exact and sorted: the names listed are those accepted names
    whose record file exists, whatever other files (locks, temporaries, foreign files) the
    directory holds, in ascending order; and listing changes nothing. *)
Theorem kept_names_exact w w' names :
  runs kept_answer w directory_names w' (Ok names) ->
  w' = w /\ Sorted name_le names /\
  forall n, n ∈ names <-> kept_name_new (kept_name n) = Ok n /\ is_Some (record_bytes (w_fs w) n).
Proof.
  intros Hrun. pose proof (alone_runs _ _ _ _ _ _ (directory_names_alone w) Hrun) as [-> [[e ?]|Hn]]; [done|].
  destruct Hn as (names' & [= <-] & Hs & Hn). done.
Qed.
End Properties.

(** ** A concrete store *)

(** A codec that knows the text of one record. *)
Definition sample_record : KeptRecord :=
  mkKeptRecord (mkKeptName "tunnel") 41 9 (Some "boot") (Some "/bin/sleep") "sleep" ["30"]
    (fingerprint_of (spec_new "sleep") (Some "r")) (Some "r") Term (Some "/tmp/x.log") "test" 5.
Definition sample_text : string := "{format: 1, name: tunnel}".

#[local] Instance sample_codec : RecordCodec := {
  to_vec_pretty s := if decide (s = stored_from sample_record) then Ok sample_text else Err "unsupported";
  from_slice b := if decide (b = sample_text) then Ok (stored_from sample_record) else Err "expected value";
}.
#[local] Instance sample_codec_laws : RecordCodecLaws.
Proof.
  split. cbn. intros s bytes. case_decide as Hs; [|done]. intros [= <-]. by rewrite decide_True, Hs.
Qed.

Definition empty_fs : FileSystem := mkFileSystem ∅ ∅ ∅ 0.
Definition empty_world : World := mkWorld empty_fs ∅ ∅ ∅ ∅ 0 [].
Definition sample_lock : KeptLock := mkKeptLock (mkKeptName "tunnel") 7.

(** No system call fails, and a [write] takes up to ten bytes. *)
Definition calm_oracle (w : World) (X : Type) (q : KeptPort X) : option X :=
  match q in KeptPort X return option X with
  | SysFault => Some None
  | WriteSome _ => Some (Ok 10%nat)
  | KeptClockNow => Some 0
  | KeptClockSleep _ => Some tt
  | SystemNow => Some 0
  | BootId => Some (Some "boot")
  | LaunchFork _ _ => Some (Ok (mkKeptLaunch 41 9))
  | LaunchGo _ => Some (Ok tt)
  | AttachLook _ => Some (Ok true)
  | TargetExe _ => Some (Some "/bin/sleep")
  | TargetSignal _ _ => Some (Ok tt)
  | TargetPublished _ => Some true
  | TargetExit _ => Some kept_exit_default
  | JoinFailed => None
  end.

Lemma sample_record_valid : record_valid sample_record.
Proof. split; [reflexivity|]. by vm_compute. Qed.

Lemma empty_fs_wf : fs_wf empty_fs.
Proof. split; cbn; intros *; rewrite ?lookup_empty; done. Qed.

Lemma kept_record_roundtrip_witness :
  exists w', runs kept_answer empty_world (write_then_read sample_lock sample_record) w' (Ok tt, Ok (Some sample_record)) /\
    ((exists e, Ok (Some sample_record) = Err (A := option KeptRecord) (KeptStoreFailed e)) \/
     Ok (E := KeptError) (Some sample_record) = Ok (Some sample_record)).
Proof.
  assert (exists w', runs kept_answer empty_world (write_then_read sample_lock sample_record) w'
                       (Ok tt, Ok (Some sample_record))) as [w' Hrun].
  { eexists. apply (exec_run_runs kept_answer calm_oracle 100). vm_compute. reflexivity. }
  exists w'. split; [exact Hrun|].
  exact (kept_record_roundtrip sample_lock sample_record empty_world w' (Ok tt) (Ok (Some sample_record))
    sample_record_valid empty_fs_wf Hrun).
Defined.

(** A directory with a record file that is not one. *)
Definition damaged_world : World :=
  set_fs (mkFileSystem {["tunnel.json" := 0%nat; "tunnel.lock" := 1%nat]} {[0%nat := "{"; 1%nat := ""]} ∅ 2) empty_world.

Lemma kept_store_errors_witness :
  exists w' w1 e1 e2,
    runs kept_answer damaged_world (directory_read (mkKeptName "tunnel")) w' (Err (KeptStoreFailed e1)) /\
    runs kept_answer damaged_world (directory_write (mkKeptLock (mkKeptName "db") 7) sample_record) w1
      (Err (KeptStoreFailed e2)) /\ w' = damaged_world.
Proof.
  eexists _, _, _, _.
  assert (Hr : runs kept_answer damaged_world (directory_read (mkKeptName "tunnel")) damaged_world
    (Err (KeptStoreFailed "decode record: expected value"))).
  { apply (exec_run_runs kept_answer calm_oracle 100). vm_compute. reflexivity. }
  assert (Hw : runs kept_answer damaged_world (directory_write (mkKeptLock (mkKeptName "db") 7) sample_record)
    damaged_world (Err (KeptStoreFailed "claim for db cannot write record tunnel"))).
  { apply (exec_run_runs kept_answer calm_oracle 100). vm_compute. reflexivity. }
  split; [exact Hr|]. split; [exact Hw|].
  refine (proj1 (kept_store_errors _ _ _ _ (mkKeptLock (mkKeptName "db") 7) sample_record _ _ Hr _ Hw)).
  by vm_compute.
Defined.

Lemma kept_names_exact_witness :
  exists w', runs kept_answer damaged_world directory_names w' (Ok [mkKeptName "tunnel"]) /\ w' = damaged_world.
Proof.
  exists damaged_world.
  assert (Hr : runs kept_answer damaged_world directory_names damaged_world (Ok [mkKeptName "tunnel"])).
  { apply (exec_run_runs kept_answer calm_oracle 100). vm_compute. reflexivity. }
  split; [exact Hr|]. exact (proj1 (kept_names_exact _ _ _ Hr)).
Defined.
