(* ===== verification/KeptStoreSpec.v ===== *)
(** * KeptStoreSpec: what a kept store promises, and that the directory keeps it

    [KeptStoreSpec] is the contract of the trait [KeptStore] as its clients use it: the
    store is a map of names to records and a set of claims, and each operation acts on
    them in one step of its own, although it is many system calls ([law_*]; [client] is
    whatever the clients keep with the store, and a law's premise is the client's
    update at that one step). [directory_spec] proves it of the directory store: among
    arbitrary other operations, crashes of their owners included, a reader gets the
    bytes of one whole write, and a claim has one holder. *)

From iris.proofmode Require Import proofmode.
From iris.base_logic.lib Require Import ghost_map.
From stdpp Require Import base list gmap strings.
From S2P Require Import Prelude StdModel Values KeptDomain Conc Ownership FileSystem KeptState KeptStore.

Open Scope Z_scope.

(** What clients keep with a store: the owners that died, the claims (by their guard), the
    records as bytes, every guard ever used, and the world outside the directory. *)
Abbreviation kept_client Σ :=
  (gset nat -> gmap nat (nat * KeptName) -> gmap KeptName string -> gset nat -> World -> iProp Σ).

(** A client does not look at the directory itself. *)
Definition ignores_fs {Σ} (client : kept_client Σ) : Prop :=
  forall D claims recs used fs w, client D claims recs used (set_fs fs w) = client D claims recs used w.

(** What bytes that are there, or not, say. *)
Definition view_of (decode : KeptName -> string -> result KeptRecord KeptError) (recs : gmap KeptName string)
    (n : KeptName) : result (option KeptRecord) KeptError :=
  match recs !! n with
  | None => Ok None
  | Some bytes => match decode n bytes with Ok r => Ok (Some r) | Err e => Err e end
  end.

(** Success, or a store error. *)
Definition store_result (res : result unit KeptError) : Prop :=
  res = Ok tt \/ exists e, res = Err (KeptStoreFailed e).

Section Interp.
Context {Σ : gFunctors}.
Context (store_interp : FileSystem -> gmap nat (nat * KeptName) -> gmap KeptName string -> gset nat -> iProp Σ).

(** The whole state: the store, and what its clients keep with it. *)
Definition kept_interp (client : kept_client Σ) (D : gset nat) (w : World) : iProp Σ :=
  ∃ claims recs used, store_interp (w_fs w) claims recs used ∗ client D claims recs used w.
End Interp.

Abbreviation kowp SI := (owp (S := World) (Q := KeptPort) (T := KeptTask) kept_answer SI).

Class KeptStoreSpec (Σ : gFunctors) `{KeptStore} (decode : KeptName -> string -> result KeptRecord KeptError) : Type := {
  store_interp : FileSystem -> gmap nat (nat * KeptName) -> gmap KeptName string -> gset nat -> iProp Σ;
  (** The right to write the record of a claim. *)
  store_writer : nat -> KeptName -> iProp Σ;
  writer_exclusive c n n' : store_writer c n -∗ store_writer c n' -∗ False;
  (** One claim per name, and no guard is used twice. *)
  interp_claims fs claims recs used :
    store_interp fs claims recs used -∗
    ⌜(forall c1 c2 a1 a2 n, claims !! c1 = Some (a1, n) -> claims !! c2 = Some (a2, n) -> c1 = c2) /\
     dom claims ⊆ used⌝;
  interp_close fs claims recs used c :
    store_interp fs claims recs used ==∗ store_interp (fs_close c fs) (delete c claims) recs used;
  interp_exit fs claims recs used a :
    store_interp fs claims recs used ==∗
    store_interp (fs_exit a fs) (filter (fun l => l.2.1 <> a) claims) recs used;
  decode_names n bytes r : decode n bytes = Ok r -> rec_name r = n;

  law_lock (client : kept_client Σ) task a n (Φ : result (option KeptLock) KeptError -> iProp Σ) Ψ :
    ignores_fs client ->
    (∀ e, Φ (Err (KeptStoreFailed e))) ∧ Φ (Ok None) ∧
    (∀ c D claims recs used w, ⌜a ∉ D⌝ -∗ ⌜c ∉ used⌝ -∗ ⌜forall c' a', claims !! c' <> Some (a', n)⌝ -∗
       store_writer c n -∗ client D claims recs used w ==∗
       client D (<[c := (a, n)]> claims) recs ({[c]} ∪ used) w ∗ Φ (Ok (Some (mkKeptLock n c))))
    ⊢ kowp (kept_interp store_interp client) task a (store_lock a n) Φ Ψ;

  law_read (client : kept_client Σ) task a n (Φ : result (option KeptRecord) KeptError -> iProp Σ) Ψ :
    ignores_fs client ->
    (∀ e, Φ (Err (KeptStoreFailed e))) ∧
    (∀ D claims recs used w, ⌜a ∉ D⌝ -∗ client D claims recs used w ==∗
       client D claims recs used w ∗ ((∀ e, Φ (Err (KeptStoreFailed e))) ∧ Φ (view_of decode recs n)))
    ⊢ kowp (kept_interp store_interp client) task a (store_read n) Φ Ψ;

  law_write (client : kept_client Σ) task a lock r P (Φ : result unit KeptError -> iProp Σ) Ψ :
    ignores_fs client -> lock_name lock = rec_name r -> record_valid r ->
    (forall D claims recs used w, a ∉ D ->
       P -∗ client D claims recs used w -∗ ⌜claims !! lock_guard lock = Some (a, rec_name r)⌝) ->
    P ∗ store_writer (lock_guard lock) (rec_name r) ∗
    ((∀ e, P -∗ store_writer (lock_guard lock) (rec_name r) -∗ Φ (Err (KeptStoreFailed e))) ∧
     (∀ bytes D claims recs used w, ⌜decode (rec_name r) bytes = Ok r⌝ -∗ ⌜a ∉ D⌝ -∗ P -∗
        client D claims recs used w ==∗ client D claims (<[rec_name r := bytes]> recs) used w ∗
        (∀ res, ⌜store_result res⌝ -∗ store_writer (lock_guard lock) (rec_name r) -∗ Φ res)))
    ⊢ kowp (kept_interp store_interp client) task a (store_write lock r) Φ Ψ;

  law_remove (client : kept_client Σ) task a lock (Φ : result unit KeptError -> iProp Σ) Ψ :
    ignores_fs client ->
    (∀ e, Φ (Err (KeptStoreFailed e))) ∧
    (∀ D claims recs used w, ⌜a ∉ D⌝ -∗ client D claims recs used w ==∗
       client D claims (delete (lock_name lock) recs) used w ∗ (∀ res, ⌜store_result res⌝ -∗ Φ res))
    ⊢ kowp (kept_interp store_interp client) task a (store_remove lock) Φ Ψ;

  law_names (client : kept_client Σ) task a (Φ : result (list KeptName) KeptError -> iProp Σ) Ψ :
    ignores_fs client ->
    (∀ e, Φ (Err (KeptStoreFailed e))) ∧
    (∀ D claims recs used w, ⌜a ∉ D⌝ -∗ client D claims recs used w ==∗
       client D claims recs used w ∗
       (∀ names, ⌜forall n, kept_name_new (kept_name n) = Ok n -> is_Some (recs !! n) -> n ∈ names⌝ -∗ Φ (Ok names)))
    ⊢ kowp (kept_interp store_interp client) task a store_names Φ Ψ;
}.
