(* ===== verification/KeptDirectory.v ===== *)
(** * KeptDirectory: the directory store keeps the contract

    The proof that [DirectoryKeptStore] is a [KeptStoreSpec]: [store_ok] relates the
    directory to the abstract records and claims, with three pieces of ghost state: the
    inode of every lock file ever opened, the bytes of every published inode (fixed for
    ever), and what each writer has written of its temporary. *)

From iris.proofmode Require Import proofmode.
From iris.base_logic.lib Require Import ghost_map.
From stdpp Require Import base list sorting gmap strings.
From S2P Require Import Prelude StdModel Values KeptDomain Conc Ownership FileSystem KeptState KeptStore.
From S2P Require Import KeptStoreSpec.

Open Scope Z_scope.

(** ** The invariant of the directory *)

(** What a writer has open: the inode of its temporary, and the bytes in it. *)
Abbreviation writing := (option (nat * string)).

Record store_ok (fs : FileSystem) (claims : gmap nat (nat * KeptName)) (recs : gmap KeptName string)
    (used : gset nat) (W : gmap nat (KeptName * writing)) (P : gmap nat string) (L : gmap KeptName nat) : Prop := {
  so_wf : fs_wf fs;
  so_recs : forall n, recs !! n = record_bytes fs n;
  so_claim : forall c a n, claims !! c = Some (a, n) ->
    exists ino, fs_flocks fs !! c = Some (a, ino) /\ fs_dir fs !! lock_path n = Some ino;
  so_flock : forall c a ino, fs_flocks fs !! c = Some (a, ino) -> exists n, claims !! c = Some (a, n);
  so_used : dom claims ⊆ used /\ forall c, c ∈ used -> (c < fs_next fs)%nat;
  so_writers : dom W ⊆ used;
  so_writer : forall c n t a n', W !! c = Some (n, t) -> claims !! c = Some (a, n') -> n' = n;
  so_writing : forall c n ino b a, W !! c = Some (n, Some (ino, b)) -> claims !! c = Some (a, n) ->
    fs_dir fs !! temporary_path n = Some ino /\ fs_read ino fs = b;
  so_pub : forall ino b, P !! ino = Some b -> fs_read ino fs = b /\ (ino < fs_next fs)%nat /\
    forall n, fs_dir fs !! temporary_path n <> Some ino;
  so_rec_pub : forall n ino, fs_dir fs !! record_path n = Some ino -> P !! ino = Some (fs_read ino fs);
  so_locks : forall n ino, L !! n = Some ino -> fs_dir fs !! lock_path n = Some ino;
}.

Section Steps.
Implicit Types (fs : FileSystem) (claims : gmap nat (nat * KeptName)) (recs : gmap KeptName string).

Lemma store_ok_claims fs claims recs used W P L c1 c2 a1 a2 n :
  store_ok fs claims recs used W P L ->
  claims !! c1 = Some (a1, n) -> claims !! c2 = Some (a2, n) -> c1 = c2.
Proof.
  intros H H1 H2. destruct (so_claim _ _ _ _ _ _ _ H _ _ _ H1) as (i1 & Hf1 & Hd1).
  destruct (so_claim _ _ _ _ _ _ _ H _ _ _ H2) as (i2 & Hf2 & Hd2). simplify_eq.
  by eapply (wf_exclusive _ (so_wf _ _ _ _ _ _ _ H)).
Qed.

(** A file of another kind than a record is created: what was there stays. *)
Lemma store_ok_create fs claims recs used W P L path :
  store_ok fs claims recs used W P L -> (forall m, path <> record_path m) ->
  store_ok (fs_create path fs).1 claims recs used W P L.
Proof.
  intros [Hwf Hr Hc Hf [Hu1 Hu2] HW Hn Hw Hp Hrp Hl] Hpath.
  pose proof (fs_create_wf path fs Hwf) as Hwf'.
  pose proof (fun n => record_bytes_create path fs n Hwf Hpath) as Hrb.
  revert Hwf' Hrb. unfold fs_create. destruct (fs_dir fs !! path) as [ino|] eqn:E; [done|].
  cbn [fst]. intros Hwf' Hrb. split; cbn [fs_dir fs_flocks fs_next].
  - done.
  - intros n. by rewrite Hrb.
  - intros c a n Hca. destruct (Hc c a n Hca) as (ino & Hfl & Hd). exists ino. split; [done|].
    rewrite lookup_insert_ne; [done|]. intros ->. by rewrite E in Hd.
  - done.
  - split; [done|]. intros c Hin. specialize (Hu2 c Hin). lia.
  - done.
  - done.
  - intros c n ino b a Hwc Hca. destruct (Hw c n ino b a Hwc Hca) as [Hd Hb]. split.
    + rewrite lookup_insert_ne; [done|]. intros ->. by rewrite E in Hd.
    + apply (wf_dir _ Hwf) in Hd as [Hlt _]. unfold fs_read in *. cbn. by rewrite lookup_insert_ne; [|lia].
  - intros ino b Hpi. destruct (Hp ino b Hpi) as (Hb & Hlt & Hne). split_and!; [|lia|].
    + unfold fs_read in *. cbn. by rewrite lookup_insert_ne; [|lia].
    + intros n. destruct (decide (path = temporary_path n)) as [->|].
      * rewrite lookup_insert_eq. intros [= Hx]. lia.
      * by rewrite lookup_insert_ne.
  - intros n ino. rewrite lookup_insert_ne; [|done]. intros Hd.
    rewrite (Hrp n ino Hd). apply (wf_dir _ Hwf) in Hd as [Hlt _]. unfold fs_read. cbn.
    by rewrite lookup_insert_ne; [|lia].
  - intros n ino Hln. specialize (Hl n ino Hln). rewrite lookup_insert_ne; [done|]. intros ->. by rewrite E in Hl.
Qed.

Lemma store_ok_lock_inode fs claims recs used W P L n ino :
  store_ok fs claims recs used W P L -> fs_dir fs !! lock_path n = Some ino ->
  store_ok fs claims recs used W P (<[n := ino]> L).
Proof.
  intros [] Hd. split; try done. intros m i. destruct (decide (m = n)) as [->|].
  - rewrite lookup_insert_eq. by intros [= <-].
  - rewrite lookup_insert_ne; [|done]. auto.
Qed.

(** A claim is taken. *)
Lemma store_ok_flock fs claims recs used W P L a n ino :
  store_ok fs claims recs used W P L -> fs_dir fs !! lock_path n = Some ino ->
  match (fs_flock a ino fs).2 with
  | Ok c => c ∉ used /\ (forall c' a', claims !! c' <> Some (a', n)) /\
      store_ok (fs_flock a ino fs).1 (<[c := (a, n)]> claims) recs ({[c]} ∪ used) (<[c := (n, None)]> W) P L
  | Err _ => (fs_flock a ino fs).1 = fs
  end.
Proof.
  intros [Hwf Hr Hc Hf [Hu1 Hu2] HW Hn Hw Hp Hrp Hl] Hd.
  pose proof (proj1 (wf_dir _ Hwf _ _ Hd)) as Hlt. pose proof (fs_flock_wf a ino fs Hlt Hwf) as Hwf'.
  pose proof (record_bytes_flock a ino fs) as Hrb. revert Hwf' Hrb. unfold fs_flock.
  case_decide as Hex; [done|]. cbn [fst snd]. intros Hwf' Hrb.
  assert (Hfresh : fs_next fs ∉ used) by (intros Hin%Hu2; lia).
  assert (Hcl : claims !! fs_next fs = None).
  { apply not_elem_of_dom. intros Hin. by apply Hfresh, Hu1. }
  split; [done|]. split.
  { intros c' a' Hca. destruct (Hc c' a' n Hca) as (ino' & Hfl & Hd'). simplify_eq.
    apply Hex. exists c', (a', ino). by split. }
  split; cbn [fs_dir fs_flocks fs_next].
  - done.
  - intros m. by rewrite Hrb.
  - intros c a' m. destruct (decide (c = fs_next fs)) as [->|].
    + rewrite !lookup_insert_eq. intros [= <- <-]. eauto.
    + rewrite !lookup_insert_ne; [|done..]. intros Hca. by apply Hc.
  - intros c a' i. destruct (decide (c = fs_next fs)) as [->|].
    + rewrite !lookup_insert_eq. intros [= <- <-]. eauto.
    + rewrite !lookup_insert_ne; [|done..]. apply Hf.
  - split; [set_solver|]. intros c. rewrite elem_of_union elem_of_singleton. intros [->|Hin%Hu2]; lia.
  - set_solver.
  - intros c m t a' m'. destruct (decide (c = fs_next fs)) as [->|].
    + rewrite !lookup_insert_eq. congruence.
    + rewrite !lookup_insert_ne; [|done..]. apply Hn.
  - intros c m i b a'. destruct (decide (c = fs_next fs)) as [->|].
    + by rewrite !lookup_insert_eq.
    + rewrite !lookup_insert_ne; [|done..]. apply Hw.
  - intros i b Hpi. destruct (Hp i b Hpi) as (? & ? & ?). split_and!; [done|lia|done].
  - done.
  - done.
Qed.

(** A claim is released. *)
Lemma store_ok_claims_sub fs fs' claims claims' recs used W P L :
  store_ok fs claims recs used W P L -> fs_wf fs' ->
  fs_dir fs' = fs_dir fs -> fs_data fs' = fs_data fs -> fs_next fs' = fs_next fs ->
  claims' ⊆ claims ->
  (forall c a n, claims' !! c = Some (a, n) -> fs_flocks fs' !! c = fs_flocks fs !! c) ->
  (forall c a ino, fs_flocks fs' !! c = Some (a, ino) -> fs_flocks fs !! c = Some (a, ino) /\ claims' !! c = claims !! c) ->
  store_ok fs' claims' recs used W P L.
Proof.
  intros [Hwf Hr Hc Hf [Hu1 Hu2] HW Hn Hw Hp Hrp Hl] Hwf' Ed Eb En Hsub H1 H2.
  assert (Hread : forall i, fs_read i fs' = fs_read i fs) by (intros; unfold fs_read; by rewrite Eb).
  assert (Hs : forall c x, claims' !! c = Some x -> claims !! c = Some x).
  { intros c x Hx. by eapply lookup_weaken. }
  split.
  - done.
  - intros n. rewrite Hr. unfold record_bytes. rewrite Ed. by destruct (fs_dir fs !! _); [rewrite Hread|].
  - intros c a n Hca. rewrite (H1 _ _ _ Hca) Ed. apply Hc. auto.
  - intros c a i Hfl. destruct (H2 _ _ _ Hfl) as [Hfl' ->]. by eapply Hf.
  - split; [|by rewrite En]. etrans; [|exact Hu1]. by apply subseteq_dom.
  - done.
  - intros c n t a n' Hwc Hca. eapply Hn; eauto.
  - intros c n i b a Hwc Hca. rewrite Ed Hread. eapply Hw; eauto.
  - intros i b Hpi. rewrite Hread En Ed. by apply Hp.
  - intros n i. rewrite Ed Hread. apply Hrp.
  - intros n i. rewrite Ed. apply Hl.
Qed.

Lemma store_ok_close fs claims recs used W P L c :
  store_ok fs claims recs used W P L -> store_ok (fs_close c fs) (delete c claims) recs used W P L.
Proof.
  intros H. eapply store_ok_claims_sub; [exact H|..]; try done.
  - apply fs_close_wf, H.
  - apply delete_subseteq.
  - intros c' a n [Hne _]%lookup_delete_Some. cbn. by rewrite lookup_delete_ne.
  - cbn. intros c' a i [Hne Hfl]%lookup_delete_Some. split; [done|]. by rewrite lookup_delete_ne.
Qed.

Lemma store_ok_exit fs claims recs used W P L a :
  store_ok fs claims recs used W P L ->
  store_ok (fs_exit a fs) (filter (fun l => l.2.1 <> a) claims) recs used W P L.
Proof.
  intros H. eapply store_ok_claims_sub; [exact H|..]; try done.
  - apply fs_exit_wf, H.
  - apply map_filter_subseteq.
  - intros c a' n [Hca Hne]%map_lookup_filter_Some. cbn in Hne |- *.
    destruct (so_claim _ _ _ _ _ _ _ H _ _ _ Hca) as (i & Hfl & _). rewrite Hfl.
    by apply map_lookup_filter_Some.
  - intros c a' i [Hfl Hne]%map_lookup_filter_Some. cbn in Hne. split; [done|].
    destruct (so_flock _ _ _ _ _ _ _ H _ _ _ Hfl) as [n Hca]. rewrite Hca. by apply map_lookup_filter_Some.
Qed.

(** A writer opens its temporary. *)
Lemma store_ok_open_temporary fs claims recs used W P L a c n t :
  store_ok fs claims recs used W P L -> W !! c = Some (n, t) -> claims !! c = Some (a, n) ->
  store_ok (fs_create_truncate (temporary_path n) fs).1 claims recs used
    (<[c := (n, Some ((fs_create_truncate (temporary_path n) fs).2, ""))]> W) P L.
Proof.
  intros H Hwc Hca. assert (Hne : forall m, temporary_path n <> record_path m).
  { intros m E. by apply (record_path_ne_temporary m n). }
  pose proof (store_ok_create _ _ _ _ _ _ _ (temporary_path n) H Hne) as H1.
  pose proof (fs_create_dir (temporary_path n) fs) as Hd.
  unfold fs_create_truncate. destruct (fs_create (temporary_path n) fs) as [fs1 ino]. cbn [fst snd] in *.
  destruct H1 as [Hwf Hr Hc Hf [Hu1 Hu2] HW Hn Hw Hp Hrp Hl].
  assert (Hoff : forall path i, path <> temporary_path n -> fs_dir fs1 !! path = Some i -> i <> ino).
  { intros path i Hp' Hi ->. apply Hp'. by eapply (wf_links _ Hwf). }
  assert (Hread : forall i, i <> ino -> fs_read i (fs_set_data ino "" fs1) = fs_read i fs1).
  { intros i Hi. unfold fs_read. cbn. by rewrite lookup_insert_ne. }
  split; cbn [fs_dir fs_flocks fs_next fs_set_data].
  - apply fs_set_data_wf; [|done]. by apply (wf_dir _ Hwf) in Hd as [? _].
  - intros m. rewrite Hr. symmetry. by apply (record_bytes_set_data (temporary_path n)).
  - done.
  - done.
  - done.
  - rewrite dom_insert. apply elem_of_dom_2 in Hwc. set_solver.
  - intros c' m t' a' m'. destruct (decide (c' = c)) as [->|].
    + rewrite lookup_insert_eq. intros [= <- _] Hca'. by simplify_eq.
    + rewrite lookup_insert_ne; [|done]. apply Hn.
  - intros c' m i b a'. destruct (decide (c' = c)) as [->|].
    + rewrite lookup_insert_eq. intros [= <- <- <-] _. split; [done|].
      unfold fs_read. cbn. by rewrite lookup_insert_eq.
    + rewrite lookup_insert_ne; [|done]. intros Hwc' Hca'. destruct (Hw _ _ _ _ _ Hwc' Hca') as [Hd' Hb'].
      split; [done|]. rewrite Hread; [done|]. eapply Hoff; [|exact Hd']. intros E%temporary_path_inj. subst m.
      by eapply (store_ok_claims _ _ _ _ _ _ _ _ _ _ _ _ H) in Hca'; [|exact Hca].
  - intros i b Hpi. destruct (Hp i b Hpi) as (Hb & Hlt & Hnt). split_and!; [|done..].
    rewrite Hread; [done|]. intros ->. by apply (Hnt n).
  - intros m i Hi. rewrite Hread; [by apply (Hrp m)|]. eapply Hoff; [|exact Hi]. apply record_path_ne_temporary.
  - done.
Qed.

(** A writer writes at the end of its temporary. *)
Lemma store_ok_write fs claims recs used W P L a c n ino b chunk :
  store_ok fs claims recs used W P L -> W !! c = Some (n, Some (ino, b)) -> claims !! c = Some (a, n) ->
  store_ok (fs_write ino (String.length b) chunk fs) claims recs used
    (<[c := (n, Some (ino, b +:+ chunk))]> W) P L.
Proof.
  intros H Hwc Hca. destruct H as [Hwf Hr Hc Hf [Hu1 Hu2] HW Hn Hw Hp Hrp Hl] eqn:EH.
  destruct (Hw _ _ _ _ _ Hwc Hca) as [Hd Hb].
  assert (Hoff : forall path i, path <> temporary_path n -> fs_dir fs !! path = Some i -> i <> ino).
  { intros path i Hp' Hi ->. apply Hp'. by eapply (wf_links _ Hwf). }
  unfold fs_write. rewrite Hb splice_end.
  assert (Hread : forall i, i <> ino -> fs_read i (fs_set_data ino (b +:+ chunk) fs) = fs_read i fs).
  { intros i Hi. unfold fs_read. cbn. by rewrite lookup_insert_ne. }
  split; cbn [fs_dir fs_flocks fs_next fs_set_data].
  - apply fs_set_data_wf; [|done]. by apply (wf_dir _ Hwf) in Hd as [? _].
  - intros m. rewrite Hr. symmetry. apply (record_bytes_set_data (temporary_path n)); [done..|].
    intros m' E. by apply (record_path_ne_temporary m' n).
  - done.
  - done.
  - done.
  - rewrite dom_insert. apply elem_of_dom_2 in Hwc. set_solver.
  - intros c' m t' a' m'. destruct (decide (c' = c)) as [->|].
    + rewrite lookup_insert_eq. intros [= <- _] Hca'. by simplify_eq.
    + rewrite lookup_insert_ne; [|done]. apply Hn.
  - intros c' m i b' a'. destruct (decide (c' = c)) as [->|].
    + rewrite lookup_insert_eq. intros [= <- <- <-] _. split; [done|].
      unfold fs_read. cbn. by rewrite lookup_insert_eq.
    + rewrite lookup_insert_ne; [|done]. intros Hwc' Hca'. destruct (Hw _ _ _ _ _ Hwc' Hca') as [Hd' Hb'].
      split; [done|]. rewrite Hread; [done|]. eapply Hoff; [|exact Hd']. intros E%temporary_path_inj. subst m.
      by eapply (store_ok_claims _ _ _ _ _ _ _ _ _ _ _ _ H) in Hca'; [|exact Hca].
  - intros i b' Hpi. destruct (Hp i b' Hpi) as (Hb' & Hlt & Hnt). split_and!; [|done..].
    rewrite Hread; [done|]. intros ->. by apply (Hnt n).
  - intros m i Hi. rewrite Hread; [by apply (Hrp m)|]. eapply Hoff; [|exact Hi]. apply record_path_ne_temporary.
  - done.
Qed.

(** A writer publishes its temporary. *)
Lemma store_ok_publish fs claims recs used W P L a c n ino b :
  store_ok fs claims recs used W P L -> W !! c = Some (n, Some (ino, b)) -> claims !! c = Some (a, n) ->
  P !! ino = None /\ (fs_rename (temporary_path n) (record_path n) fs).2 = Ok tt /\
  store_ok (fs_rename (temporary_path n) (record_path n) fs).1 claims (<[n := b]> recs) used
    (<[c := (n, None)]> W) (<[ino := b]> P) L.
Proof.
  intros H Hwc Hca. destruct H as [Hwf Hr Hc Hf [Hu1 Hu2] HW Hn Hw Hp Hrp Hl] eqn:EH.
  destruct (Hw _ _ _ _ _ Hwc Hca) as [Hd Hb].
  pose proof (fs_rename_wf (temporary_path n) (record_path n) fs Hwf) as Hwf'.
  pose proof (fun m => record_bytes_rename n fs m ino Hwf Hd) as Hrb.
  revert Hwf' Hrb. unfold fs_rename. rewrite Hd. cbn [fst snd]. intros Hwf' Hrb.
  assert (Hother : forall path i, path <> record_path n -> path <> temporary_path n ->
    (<[record_path n:=ino]> (delete (temporary_path n) (fs_dir fs)) !! path = Some i <-> fs_dir fs !! path = Some i)).
  { intros path i H1 H2. rewrite lookup_insert_ne; [|done]. by rewrite lookup_delete_ne. }
  split. { destruct (P !! ino) as [b'|] eqn:E; [|done]. destruct (Hp ino b' E) as (_ & _ & Hnt). by destruct (Hnt n). }
  split; [done|]. split; cbn [fs_dir fs_flocks fs_next].
  - done.
  - intros m. rewrite Hrb. destruct (decide (m = n)) as [->|].
    + by rewrite lookup_insert_eq Hb.
    + by rewrite lookup_insert_ne.
  - intros c' a' m Hca'. destruct (Hc _ _ _ Hca') as (i & Hfl & Hdl). exists i. split; [done|].
    apply Hother; [|by apply lock_path_ne_temporary|done]. intros E. by apply (record_path_ne_lock n m).
  - done.
  - done.
  - rewrite dom_insert. apply elem_of_dom_2 in Hwc. set_solver.
  - intros c' m t' a' m'. destruct (decide (c' = c)) as [->|].
    + rewrite lookup_insert_eq. intros [= <- _] Hca'. by simplify_eq.
    + rewrite lookup_insert_ne; [|done]. apply Hn.
  - intros c' m i b' a'. destruct (decide (c' = c)) as [->|]; [by rewrite lookup_insert_eq|].
    rewrite lookup_insert_ne; [|done]. intros Hwc' Hca'. destruct (Hw _ _ _ _ _ Hwc' Hca') as [Hd' Hb'].
    split; [|done]. apply Hother; [|intros E%temporary_path_inj|done].
    + intros E. by apply (record_path_ne_temporary n m).
    + subst m. by eapply (store_ok_claims _ _ _ _ _ _ _ _ _ _ _ _ H) in Hca'; [|exact Hca].
  - intros i b'. destruct (decide (i = ino)) as [->|].
    + rewrite lookup_insert_eq. intros [= <-]. split_and!; [done|by apply (wf_dir _ Hwf) in Hd as [? _]|].
      intros m E. apply (record_path_ne_temporary n m).
      eapply (wf_links _ Hwf'); cbn; [|exact E]. apply lookup_insert_eq.
    + rewrite lookup_insert_ne; [|done]. intros Hpi. destruct (Hp i b' Hpi) as (Hb' & Hlt & Hnt).
      split_and!; [done..|]. intros m. destruct (decide (m = n)) as [->|Hm].
      * rewrite lookup_insert_ne; [|apply record_path_ne_temporary]. by rewrite lookup_delete_eq.
      * intros E. apply (Hnt m). apply Hother in E; [done| |].
        -- intros E'. by apply (record_path_ne_temporary n m).
        -- by intros E'%temporary_path_inj.
  - intros m i. destruct (decide (m = n)) as [->|Hm].
    + rewrite lookup_insert_eq. intros [= <-]. rewrite lookup_insert_eq. by rewrite -Hb.
    + intros E. apply Hother in E; [|by intros E'%record_path_inj|by apply record_path_ne_temporary].
      assert (i <> ino).
      { intros ->. by apply (record_path_ne_temporary m n), (wf_links _ Hwf _ _ ino). }
      rewrite lookup_insert_ne; [|done]. by apply (Hrp m).
  - intros m i Hlm. apply Hother; [|by apply lock_path_ne_temporary|by apply Hl].
    intros E. by apply (record_path_ne_lock n m).
Qed.

(** A record is removed. *)
Lemma store_ok_unlink fs claims recs used W P L n :
  store_ok fs claims recs used W P L ->
  store_ok (fs_unlink (record_path n) fs).1 claims (delete n recs) used W P L.
Proof.
  intros H. destruct H as [Hwf Hr Hc Hf [Hu1 Hu2] HW Hn Hw Hp Hrp Hl] eqn:EH.
  pose proof (fs_unlink_wf (record_path n) fs Hwf) as Hwf'. pose proof (record_bytes_unlink n fs) as Hrb.
  revert Hwf' Hrb. unfold fs_unlink. destruct (fs_dir fs !! record_path n) as [ino|] eqn:E; cbn [fst].
  2:{ intros _ Hrb. rewrite delete_id; [done|]. rewrite Hr Hrb. by rewrite decide_True. }
  intros Hwf' Hrb.
  assert (Hother : forall path, path <> record_path n -> delete (record_path n) (fs_dir fs) !! path = fs_dir fs !! path).
  { intros path Hne. by rewrite lookup_delete_ne. }
  split; cbn [fs_dir fs_flocks fs_next].
  - done.
  - intros m. rewrite Hrb. case_decide as Hm; [subst; by rewrite lookup_delete_eq|by rewrite lookup_delete_ne].
  - intros c a m Hca. rewrite Hother; [by apply Hc|]. intros E'. by apply (record_path_ne_lock n m).
  - done.
  - done.
  - done.
  - done.
  - intros c m i b a Hwc Hca. rewrite Hother; [by eapply Hw|]. intros E'. by apply (record_path_ne_temporary n m).
  - intros i b Hpi. destruct (Hp i b Hpi) as (? & ? & Hnt). split_and!; [done..|]. intros m.
    rewrite Hother; [done|]. intros E'. by apply (record_path_ne_temporary n m).
  - intros m i [Hne Hi]%lookup_delete_Some. by apply (Hrp m).
  - intros m i Hlm. rewrite Hother; [by apply Hl|]. intros E'. by apply (record_path_ne_lock n m).
Qed.
End Steps.

(** ** The contract *)

Class directoryGpreS (Σ : gFunctors) : Type := {
  #[global] directory_writers :: ghost_mapG Σ nat (KeptName * writing);
  #[global] directory_published :: ghost_mapG Σ nat string;
  #[global] directory_locks :: ghost_mapG Σ KeptName nat;
}.
Class directoryGS (Σ : gFunctors) : Type := {
  #[global] directory_pre :: directoryGpreS Σ;
  writers_name : gname;
  published_name : gname;
  locks_name : gname;
}.
Definition directoryΣ : gFunctors :=
  #[ghost_mapΣ nat (KeptName * writing); ghost_mapΣ nat string; ghost_mapΣ KeptName nat].
#[global] Instance subG_directoryΣ {Σ} : subG directoryΣ Σ -> directoryGpreS Σ.
Proof. solve_inG. Qed.

Section Directory.
Context `{!directoryGS Σ} `{RecordCodecLaws}.

Definition directory_interp fs claims recs used : iProp Σ :=
  ∃ W P L, ghost_map_auth writers_name 1 W ∗ fixed_map published_name P ∗
    fixed_map locks_name L ∗ ⌜store_ok fs claims recs used W P L⌝.

Definition directory_writing (c : nat) (n : KeptName) (t : writing) : iProp Σ := c ↪[writers_name] (n, t).
Definition directory_writer (c : nat) (n : KeptName) : iProp Σ := ∃ t, directory_writing c n t.

Section Calls.
Context (client : kept_client Σ) (task : nat -> KeptTask -> iProp Σ) (Hclient : ignores_fs client).

Abbreviation SI := (kept_interp directory_interp client).
Abbreviation dowp := (kowp SI task).

(** A system call that may fail without effect. *)
Lemma owp_sys a {X} (f : FileSystem -> FileSystem * result X IoError) (Φ : result X IoError -> iProp Σ) Ψ :
  (∀ text, Φ (Err (IoFailed text))) ∧
  (∀ D w, ⌜a ∉ D⌝ -∗ SI D w ==∗ SI D (set_fs (f (w_fs w)).1 w) ∗ Φ (f (w_fs w)).2)
  ⊢ dowp a (sys f) Φ Ψ.
Proof.
  iIntros "H" (D w [text|] Ha) "Hs"; iModIntro.
  - iFrame. iDestruct "H" as "[H _]". iApply "H".
  - iFrame. iDestruct "H" as "[_ H]". cbn. iIntros (D' w' Ha') "Hs".
    iMod ("H" $! D' w' with "[//] Hs") as "H". iModIntro. unfold kept_answer.
    destruct (f (w_fs w')) as [fs r]. iDestruct "H" as "[$ H]". by iModIntro.
Qed.

(** One that leaves the directory as it is. *)
Lemma owp_sys_same a (Φ : result unit IoError -> iProp Σ) Ψ :
  (∀ r, ⌜r = Ok tt \/ exists text, r = Err (IoFailed text)⌝ -∗ Φ r) ⊢ dowp a (sys (fun fs => (fs, Ok tt))) Φ Ψ.
Proof.
  iIntros "H". iApply owp_sys. iSplit.
  - iIntros (text). iApply "H". eauto.
  - iIntros (D w Ha) "Hs". cbn. iSplitL "Hs"; [|iApply "H"; eauto]. by destruct w.
Qed.

Lemma sync_dir_spec a (Φ : result unit KeptError -> iProp Σ) Ψ :
  (∀ res, ⌜store_result res⌝ -∗ Φ res) ⊢ dowp a sync_dir Φ Ψ.
Proof.
  iIntros "H". iApply owp_bind. iApply owp_sys_same. iIntros (r [->|[text ->]]); iApply owp_ret; iApply "H"; iPureIntro.
  - by left.
  - right. eexists. reflexivity.
Qed.

(** Opening for a moment what is inside the state interpretation. *)
Lemma interp_open D w :
  SI D w ⊣⊢ ∃ claims recs used W P L, ghost_map_auth writers_name 1 W ∗ fixed_map published_name P ∗
    fixed_map locks_name L ∗ ⌜store_ok (w_fs w) claims recs used W P L⌝ ∗ client D claims recs used w.
Proof.
  iSplit.
  - iIntros "(%claims & %recs & %used & (%W & %P & %L & HW & HP & HL & %Hok) & Hc)".
    iExists claims, recs, used, W, P, L. by iFrame.
  - iIntros "(%claims & %recs & %used & %W & %P & %L & HW & HP & HL & %Hok & Hc)".
    iExists claims, recs, used. iFrame. done.
Qed.

Lemma directory_lock_spec a n (Φ : result (option KeptLock) KeptError -> iProp Σ) Ψ :
  (∀ e, Φ (Err (KeptStoreFailed e))) ∧ Φ (Ok None) ∧
  (∀ c D claims recs used w, ⌜a ∉ D⌝ -∗ ⌜c ∉ used⌝ -∗ ⌜forall c' a', claims !! c' <> Some (a', n)⌝ -∗
     directory_writer c n -∗ client D claims recs used w ==∗
     client D (<[c := (a, n)]> claims) recs ({[c]} ∪ used) w ∗ Φ (Ok (Some (mkKeptLock n c))))
  ⊢ dowp a (directory_lock a n) Φ Ψ.
Proof.
  iIntros "H". iApply owp_bind. iApply owp_sys. iSplit.
  { iIntros (text). iApply owp_ret. iDestruct "H" as "[H _]". iApply "H". }
  iIntros (D w Ha) "Hs". rewrite interp_open.
  iDestruct "Hs" as "(%claims & %recs & %used & %W & %P & %L & HW & HP & HL & %Hok & Hc)".
  pose proof (store_ok_create _ _ _ _ _ _ _ (lock_path n) Hok
    (fun m E => record_path_ne_lock m n (eq_sym E))) as Hok1.
  pose proof (fs_create_dir (lock_path n) (w_fs w)) as Hd.
  destruct (fs_create (lock_path n) (w_fs w)) as [fs1 ino]. cbn [fst snd] in *.
  iAssert (|==> ∃ L', fixed_map locks_name L' ∗ n ↪[locks_name]□ ino ∗
    ⌜store_ok fs1 claims recs used W P L'⌝)%I with "[HL]" as ">(%L' & HL & #Hn & %Hok2)".
  { destruct (L !! n) as [i|] eqn:E.
    - pose proof (so_locks _ _ _ _ _ _ _ Hok1 _ _ E) as Hd'. rewrite Hd in Hd'. injection Hd' as <-.
      iModIntro. iExists L. iDestruct (fixed_map_lookup with "HL") as "#$"; [done|]. by iFrame "HL".
    - iMod (fixed_map_insert _ _ n ino with "HL") as "[HL #Hn]"; [done|]. iModIntro.
      iExists _. iFrame "HL Hn". iPureIntro. by apply store_ok_lock_inode. }
  iModIntro. iSplitL "HW HP HL Hc".
  { rewrite interp_open. iExists claims, recs, used, W, P, L'. rewrite Hclient. by iFrame "HW HP HL Hc". }
  clear -Hclient. iApply owp_bind. iApply owp_sys. iSplit.
  { iIntros (text). iApply owp_ret. iDestruct "H" as "[H _]". iApply "H". }
  iIntros (D w Ha) "Hs". rewrite interp_open.
  iDestruct "Hs" as "(%claims & %recs & %used & %W & %P & %L & HW & HP & HL & %Hok & Hc)".
  iDestruct (fixed_map_agree with "HL Hn") as %HL.
  pose proof (store_ok_flock _ _ _ _ _ _ _ a n ino Hok (so_locks _ _ _ _ _ _ _ Hok _ _ HL)) as Hfl.
  destruct (fs_flock a ino (w_fs w)) as [fs2 [c|e]] eqn:Efl; cbn [fst snd] in *.
  - destruct Hfl as (Hfresh & Hnone & Hok2).
    iMod (ghost_map_insert c (n, None) with "HW") as "[HW Hw]".
    { apply not_elem_of_dom. intros Hin. apply Hfresh. by apply (so_writers _ _ _ _ _ _ _ Hok). }
    iDestruct "H" as "(_ & _ & H)".
    iMod ("H" $! c D claims recs used w with "[//] [//] [//] [Hw] Hc") as "[Hc H]"; [by iExists None|].
    iModIntro. iSplitR "H"; [|by iApply owp_ret]. rewrite interp_open.
    iExists _, recs, _, _, P, L. rewrite Hclient. iFrame "HW HP HL Hc". done.
  - subst fs2. iModIntro. iSplitR "H".
    { rewrite interp_open. iExists claims, recs, used, W, P, L. rewrite Hclient. iFrame "HW HP HL Hc". done. }
    destruct e; iApply owp_ret; first [by iDestruct "H" as "(_ & $ & _)"|iDestruct "H" as "[H _]"; iApply "H"].
Qed.

Lemma directory_read_spec a n (Φ : result (option KeptRecord) KeptError -> iProp Σ) Ψ :
  (∀ e, Φ (Err (KeptStoreFailed e))) ∧
  (∀ D claims recs used w, ⌜a ∉ D⌝ -∗ client D claims recs used w ==∗
     client D claims recs used w ∗ ((∀ e, Φ (Err (KeptStoreFailed e))) ∧ Φ (view_of decode_record recs n)))
  ⊢ dowp a (directory_read n) Φ Ψ.
Proof.
  iIntros "H". iApply owp_bind. iApply owp_bind. iApply owp_sys. iSplit.
  { iIntros (text). do 2 iApply owp_ret. iDestruct "H" as "[H _]". iApply "H". }
  iIntros (D w Ha) "Hs". rewrite interp_open.
  iDestruct "Hs" as "(%claims & %recs & %used & %W & %P & %L & HW & HP & HL & %Hok & Hc)".
  iDestruct "H" as "[_ H]". iMod ("H" with "[//] Hc") as "[Hc H]". cbn [fst snd].
  unfold view_of. rewrite (so_recs _ _ _ _ _ _ _ Hok). unfold record_bytes, fs_open.
  destruct (fs_dir (w_fs w) !! record_path n) as [ino|] eqn:E.
  - pose proof (so_rec_pub _ _ _ _ _ _ _ Hok _ _ E) as HPi.
    iDestruct (fixed_map_lookup with "HP") as "#Hi"; [exact HPi|]. iModIntro. iSplitR "H".
    { rewrite interp_open. iExists claims, recs, used, W, P, L. rewrite Hclient. iFrame "HW HP HL Hc". done. }
    iApply owp_sys. iSplit.
    { iIntros (text). iApply owp_ret. iDestruct "H" as "[H _]". iApply "H". }
    set (bytes := fs_read ino (w_fs w)).
    iIntros (D' w' Ha') "Hs". rewrite interp_open.
    iDestruct "Hs" as "(%claims' & %recs' & %used' & %W' & %P' & %L' & HW & HP & HL & %Hok' & Hc)".
    iDestruct (fixed_map_agree with "HP Hi") as %HPi'.
    destruct (so_pub _ _ _ _ _ _ _ Hok' _ _ HPi') as (Hb & _). cbn [fst snd]. rewrite Hb.
    iModIntro. iSplitR "H".
    { rewrite interp_open. iExists claims', recs', used', W', P', L'. rewrite Hclient. iFrame "HW HP HL Hc". done. }
    iApply owp_ret. iDestruct "H" as "[_ H]". fold bytes. by destruct (decode_record n bytes).
  - iModIntro. iSplitR "H".
    { rewrite interp_open. iExists claims, recs, used, W, P, L. rewrite Hclient. iFrame "HW HP HL Hc". done. }
    do 2 iApply owp_ret. by iDestruct "H" as "[_ H]".
Qed.

Lemma directory_remove_spec a lock (Φ : result unit KeptError -> iProp Σ) Ψ :
  (∀ e, Φ (Err (KeptStoreFailed e))) ∧
  (∀ D claims recs used w, ⌜a ∉ D⌝ -∗ client D claims recs used w ==∗
     client D claims (delete (lock_name lock) recs) used w ∗ (∀ res, ⌜store_result res⌝ -∗ Φ res))
  ⊢ dowp a (directory_remove lock) Φ Ψ.
Proof.
  iIntros "H". iApply owp_bind. iApply owp_sys. iSplit.
  { iIntros (text). iApply owp_ret. iDestruct "H" as "[H _]". iApply "H". }
  iIntros (D w Ha) "Hs". rewrite interp_open.
  iDestruct "Hs" as "(%claims & %recs & %used & %W & %P & %L & HW & HP & HL & %Hok & Hc)".
  iDestruct "H" as "[_ H]". iMod ("H" with "[//] Hc") as "[Hc H]".
  pose proof (store_ok_unlink _ _ _ _ _ _ _ (lock_name lock) Hok) as Hok'. iModIntro. iSplitR "H".
  { rewrite interp_open. iExists claims, _, used, W, P, L. rewrite Hclient. iFrame "HW HP HL Hc". done. }
  unfold fs_unlink. destruct (fs_dir (w_fs w) !! record_path (lock_name lock)); cbn [snd].
  - iApply sync_dir_spec. iIntros (res Hres). by iApply "H".
  - iApply owp_ret. iApply "H". iPureIntro. by left.
Qed.

Lemma directory_names_spec a (Φ : result (list KeptName) KeptError -> iProp Σ) Ψ :
  (∀ e, Φ (Err (KeptStoreFailed e))) ∧
  (∀ D claims recs used w, ⌜a ∉ D⌝ -∗ client D claims recs used w ==∗
     client D claims recs used w ∗
     (∀ names, ⌜forall n, kept_name_new (kept_name n) = Ok n -> is_Some (recs !! n) -> n ∈ names⌝ -∗ Φ (Ok names)))
  ⊢ dowp a directory_names Φ Ψ.
Proof.
  iIntros "H". iApply owp_bind. iApply owp_sys. iSplit.
  { iIntros (text). iApply owp_ret. iDestruct "H" as "[H _]". iApply "H". }
  iIntros (D w Ha) "Hs". rewrite interp_open.
  iDestruct "Hs" as "(%claims & %recs & %used & %W & %P & %L & HW & HP & HL & %Hok & Hc)".
  iDestruct "H" as "[_ H]". iMod ("H" with "[//] Hc") as "[Hc H]". iModIntro. cbn [fst snd]. iSplitR "H".
  { rewrite interp_open. iExists claims, recs, used, W, P, L. rewrite Hclient. iFrame "HW HP HL Hc". done. }
  iApply owp_ret. iApply "H". iPureIntro. intros n Hn Hrec.
  rewrite merge_sort_Permutation. apply elem_of_record_names. split; [done|].
  by rewrite -(so_recs _ _ _ _ _ _ _ Hok).
Qed.

(** Writing the rest of the text at the end of what is written. *)
Lemma write_all_spec a c n ino R fuel b rest (Φ : result unit IoError -> iProp Σ) Ψ :
  (String.length rest <= fuel)%nat ->
  (forall D claims recs used w, a ∉ D -> R -∗ client D claims recs used w -∗ ⌜claims !! c = Some (a, n)⌝) ->
  R -∗ directory_writing c n (Some (ino, b)) -∗
  ((∀ text t, R -∗ directory_writing c n t -∗ Φ (Err (IoFailed text))) ∧
   (R -∗ directory_writing c n (Some (ino, b +:+ rest)) -∗ Φ (Ok tt))) -∗
  dowp a (write_all fuel ino (String.length b) rest) Φ Ψ.
Proof.
  iIntros (Hl HR) "HR Hw H". iInduction fuel as [|fuel] "IH" forall (b rest Hl); cbn [write_all].
  { destruct rest; cbn in Hl; [|lia]. iApply owp_ret. iDestruct "H" as "[_ H]".
    rewrite sapp_nil_r. iApply ("H" with "HR Hw"). }
  case_bool_decide as Hr.
  { subst. iApply owp_ret. iDestruct "H" as "[_ H]". rewrite sapp_nil_r. iApply ("H" with "HR Hw"). }
  iApply owp_bind. iApply owp_call. iIntros (D w [[|k]|text] Ha) "$"; iModIntro.
  { iApply owp_ret. iDestruct "H" as "[H _]". iApply ("H" with "HR Hw"). }
  2:{ iApply owp_ret. iDestruct "H" as "[H _]". iApply ("H" with "HR Hw"). }
  clear D w Ha. set (m := Nat.min (S k) (String.length rest)).
  assert (Hm : (1 <= m <= String.length rest)%nat).
  { unfold m. destruct rest; cbn [String.length]; [done|lia]. }
  iApply owp_bind. iApply owp_modify. iIntros (D w Ha) "Hs". rewrite interp_open.
  iDestruct "Hs" as "(%claims & %recs & %used & %W & %P & %L & HW & HP & HL & %Hok & Hc)".
  iDestruct (HR with "HR Hc") as %Hclaim; [done|].
  iDestruct (ghost_map_lookup with "HW Hw") as %HWc.
  pose proof (store_ok_write _ _ _ _ _ _ _ _ _ _ _ _ (String.substring 0 m rest) Hok HWc Hclaim) as Hok'.
  iMod (ghost_map_update (n, Some (ino, b +:+ String.substring 0 m rest)) with "HW Hw") as "[HW Hw]".
  iModIntro. iSplitL "HW HP HL Hc".
  { rewrite interp_open. iExists claims, recs, used, _, P, L. rewrite Hclient. iFrame "HW HP HL Hc". done. }
  replace (String.length b + m)%nat with (String.length (b +:+ String.substring 0 m rest)).
  2:{ rewrite length_sapp length_substring. lia. }
  pose proof (substring_split rest m ltac:(lia)) as Hsplit.
  iApply ("IH" with "[%] HR Hw").
  { apply (f_equal String.length) in Hsplit. rewrite length_sapp length_substring in Hsplit. lia. }
  rewrite sapp_assoc Hsplit. done.
Qed.

Lemma directory_write_spec a lock r R (Φ : result unit KeptError -> iProp Σ) Ψ :
  lock_name lock = rec_name r -> record_valid r ->
  (forall D claims recs used w, a ∉ D ->
     R -∗ client D claims recs used w -∗ ⌜claims !! lock_guard lock = Some (a, rec_name r)⌝) ->
  R ∗ directory_writer (lock_guard lock) (rec_name r) ∗
  ((∀ e, R -∗ directory_writer (lock_guard lock) (rec_name r) -∗ Φ (Err (KeptStoreFailed e))) ∧
   (∀ bytes D claims recs used w, ⌜decode_record (rec_name r) bytes = Ok r⌝ -∗ ⌜a ∉ D⌝ -∗ R -∗
      client D claims recs used w ==∗ client D claims (<[rec_name r := bytes]> recs) used w ∗
      (∀ res, ⌜store_result res⌝ -∗ directory_writer (lock_guard lock) (rec_name r) -∗ Φ res)))
  ⊢ dowp a (directory_write lock r) Φ Ψ.
Proof.
  iIntros (Hn Hr HR) "(HR & [%t Hw] & H)". unfold directory_write. rewrite bool_decide_eq_true_2; [|done]. cbn [negb].
  set (c := lock_guard lock). set (n := rec_name r).
  destruct (to_vec_pretty (stored_from r)) as [bytes|e] eqn:Eb.
  2:{ iApply owp_ret. iDestruct "H" as "[H _]". iApply ("H" with "HR [Hw]"). by iExists t. }
  assert (Hdec : decode_record n bytes = Ok r).
  { unfold decode_record. by rewrite (from_slice_to_vec _ _ Eb) into_record_stored_from. }
  iApply owp_bind. iApply owp_sys. iSplit.
  { iIntros (text). iApply owp_ret. iDestruct "H" as "[H _]". iApply ("H" with "HR [Hw]"). by iExists t. }
  iIntros (D w Ha) "Hs". rewrite interp_open.
  iDestruct "Hs" as "(%claims & %recs & %used & %W & %P & %L & HW & HP & HL & %Hok & Hc)".
  iDestruct (HR with "HR Hc") as %Hclaim; [done|].
  iDestruct (ghost_map_lookup with "HW Hw") as %HWc.
  pose proof (store_ok_open_temporary _ _ _ _ _ _ _ _ _ _ _ Hok HWc Hclaim) as Hok'. fold n in Hok' |- *.
  destruct (fs_create_truncate (temporary_path n) (w_fs w)) as [fs1 ino]. cbn [fst snd] in *.
  iMod (ghost_map_update (n, Some (ino, "")) with "HW Hw") as "[HW Hw]". iModIntro. iSplitL "HW HP HL Hc".
  { rewrite interp_open. iExists claims, recs, used, _, P, L. rewrite Hclient. iFrame "HW HP HL Hc". done. }
  clear - HR Hclient Hdec. iApply owp_bind.
  iApply (write_all_spec a c n ino R (String.length bytes) "" bytes with "HR Hw"); [done|done|]. iSplit.
  { iIntros (text t) "HR Hw". iApply owp_bind. do 2 iApply owp_ret. iDestruct "H" as "[H _]".
    iApply ("H" with "HR [Hw]"). by iExists t. }
  iIntros "HR Hw". iApply owp_bind. iApply owp_sys_same. iIntros (r0 [->|[text ->]]).
  2:{ iApply owp_ret. iDestruct "H" as "[H _]". iApply ("H" with "HR [Hw]"). by iExists _. }
  iApply owp_bind. iApply owp_sys. iSplit.
  { iIntros (text). iApply owp_ret. iDestruct "H" as "[H _]". iApply ("H" with "HR [Hw]"). by iExists _. }
  iIntros (D w Ha) "Hs". rewrite interp_open.
  iDestruct "Hs" as "(%claims & %recs & %used & %W & %P & %L & HW & HP & HL & %Hok & Hc)".
  iDestruct (HR with "HR Hc") as %Hclaim; [done|].
  iDestruct (ghost_map_lookup with "HW Hw") as %HWc.
  destruct (store_ok_publish _ _ _ _ _ _ _ _ _ _ _ _ Hok HWc Hclaim) as (HPi & -> & Hok').
  iMod (ghost_map_update (n, None) with "HW Hw") as "[HW Hw]".
  iMod (fixed_map_insert _ _ ino bytes with "HP") as "[HP _]"; [exact HPi|].
  iDestruct "H" as "[_ H]". iMod ("H" with "[//] [//] HR Hc") as "[Hc H]". iModIntro. iSplitL "HW HP HL Hc".
  { rewrite interp_open. iExists claims, _, used, _, _, L. rewrite Hclient. iFrame "HW HP HL Hc". done. }
  iApply sync_dir_spec. iIntros (res Hres). iApply ("H" with "[//]"). by iExists _.
Qed.
End Calls.

#[global] Instance directory_spec : KeptStoreSpec Σ decode_record.
Proof.
  refine {| store_interp := directory_interp; store_writer := directory_writer |}.
  - iIntros (c n n') "[%t H1] [%t' H2]". by iCombine "H1 H2" gives %[? _].
  - iIntros (fs claims recs used) "(%W & %P & %L & _ & _ & _ & %Hok)". iPureIntro. split.
    + intros c1 c2 a1 a2 n. by eapply store_ok_claims.
    + apply (so_used _ _ _ _ _ _ _ Hok).
  - iIntros (fs claims recs used c) "(%W & %P & %L & HW & HP & HL & %Hok)". iModIntro.
    iExists W, P, L. iFrame. iPureIntro. by apply store_ok_close.
  - iIntros (fs claims recs used a) "(%W & %P & %L & HW & HP & HL & %Hok)". iModIntro.
    iExists W, P, L. iFrame. iPureIntro. by apply store_ok_exit.
  - intros n bytes r. unfold decode_record. destruct (from_slice bytes); [|done]. apply into_record_name.
  - intros client task a n Φ Ψ Hc. by apply directory_lock_spec.
  - intros client task a n Φ Ψ Hc. by apply directory_read_spec.
  - intros client task a lock r R Φ Ψ Hc Hn Hr HR. by apply directory_write_spec.
  - intros client task a lock Φ Ψ Hc. by apply directory_remove_spec.
  - intros client task a Φ Ψ Hc. by apply directory_names_spec.
Defined.
End Directory.
