(* ===== verification/Kept.v ===== *)
(** * Kept: processes that outlive their owner

    [KeptProcesses] and [KeptProcess] of shepherd-app/src/kept.rs, over any store
    ([KeptStore]) and over what the trait [KeptLauncher] promises. An [async fn] is a
    program that can be dropped wherever it awaits; the closures of [blocking] run as
    tasks of their own and outlive a dropped caller, with the locks they captured. *)

From stdpp Require Import base list sorting gmap strings.
From S2P Require Import Prelude StdModel Values KeptDomain Ports Conc FileSystem KeptState KeptStore.

Open Scope Z_scope.
Open Scope prog_scope.

Definition CLAIM_WAIT : Duration := from_secs 2.
Definition CLAIM_RETRY : Duration := from_millis 20.
Definition GROUP_REPORT : Duration := from_secs 2.

(** [u64::try_from(elapsed.as_millis()).unwrap_or(u64::MAX)]; 0 before the epoch. *)
Definition unix_ms_of (since_epoch : Z) : Z :=
  if since_epoch <? 0 then 0 else Z.min (since_epoch / 1000000) u64_max.

Definition string_of_bytes (l : list Z) : string :=
  String.string_of_list_ascii (map (fun b => Ascii.ascii_of_N (Z.to_N b)) l).
(** [to_string_lossy().into_owned()]. *)
Definition lossy_string (s : OsString) : string := string_of_bytes (lossy s).

(** [Duration::saturating_add]. *)
Definition duration_saturating_add (a b : Duration) : Duration := Z.min (a + b) Duration_MAX.

Definition set_instance (r : KeptRecord) (launch : KeptLaunch) : KeptRecord :=
  mkKeptRecord (rec_name r) (launch_os_pid launch) (launch_start_token launch) (rec_boot_id r) (rec_exe r)
    (rec_program r) (rec_args r) (rec_fingerprint r) (rec_revision r) (rec_graceful_signal r) (rec_log r)
    (rec_owner r) (rec_started_at_unix_ms r).
Definition set_exe (r : KeptRecord) (exe : option PathBuf) : KeptRecord :=
  mkKeptRecord (rec_name r) (rec_os_pid r) (rec_start_token r) (rec_boot_id r) exe
    (rec_program r) (rec_args r) (rec_fingerprint r) (rec_revision r) (rec_graceful_signal r) (rec_log r)
    (rec_owner r) (rec_started_at_unix_ms r).

(** ** What the trait [KeptLauncher] promises

    [launch] starts the child, commits, and only then lets it run; if anything fails the
    program never runs and the child ends. [attach] may miss nothing that lives: [None]
    means that the instance is gone. A target's exit resolves only once it has exited. *)

Definition launcher_launch (owner : nat) (spec : ProcessSpec) (log : option PathBuf)
    (commit : KeptLaunch -> KProg (result unit KeptError)) (drop_commit : World -> World) :
    KProg (result KeptLaunch KeptError) :=
  let! forked := call (LaunchFork spec log) in
  match forked with
  | Err text => modify drop_commit ;;; Ret (Err (KeptLaunchFailed text))
  | Ok launch =>
      let! fresh := act (fork_gated owner launch) in
      if negb fresh then modify drop_commit ;;; Ret (Err (KeptLaunchFailed "child start time unreadable"))
      else
        let! committed := commit launch in
        match committed with
        | Err e => modify (end_process launch) ;;; Ret (Err e)
        | Ok tt =>
            let! opened := call (LaunchGo launch) in
            match opened with
            | Err text => modify (end_process launch) ;;; Ret (Err (KeptLaunchFailed text))
            | Ok tt => modify (open_gate launch) ;;; Ret (Ok launch)
            end
        end
  end.

Definition launcher_attach (r : KeptRecord) : KProg (result (option KeptLaunch) KeptError) :=
  let! seen := ask (AttachLook r) in
  match seen with
  | Err e => Ret (Err e)
  | Ok seen =>
      reads (fun w => Ok (if negb (is_gone (record_instance r) w) || seen then Some (record_instance r) else None))
  end.

(** The event [exited()] waits for; what it then says of the exit. *)
Definition when_gone (i : KeptLaunch) : KEvent unit :=
  Ready (fun w => if is_gone i w then Some (w, tt) else None).

Definition target_exited (i : KeptLaunch) : KProg KeptExit :=
  Wait (when_gone i) id Ret ;;; call (TargetExit i).

(** [FutureExt::now_or_never(&mut exited)]. *)
Definition target_exited_now (i : KeptLaunch) : KProg (option KeptExit) :=
  let! published := call (TargetPublished i) in
  let! gone := reads (is_gone i) in
  if published && gone then let! exit := call (TargetExit i) in Ret (Some exit) else Ret None.

Section Kept.
Context `{KeptStore}.
(** The label that each owner writes into its records. *)
Context (label : nat -> string).

(** ** Blocking work *)

(** A lock behind its handle. (A handle in a program's hands always has its entry.) *)
Definition with_lock {X} (h : nat) (use : KeptLock -> KProg (result X KeptError)) : KProg (result X KeptError) :=
  let! arc := reads (fun w => w_arcs w !! h) in
  match arc with
  | Some (_, lock) => use lock
  | None => Ret (Err (KeptStoreFailed "no claim"))
  end.

(** The commit closure of [start]. *)
Definition commit_record (h : nat) (record : KeptRecord) (launch : KeptLaunch) : KProg (result unit KeptError) :=
  let! r := with_lock h (fun lock => store_write lock (set_instance record launch)) in
  modify (drop_arc h) ;;; Ret r.

Definition run_work (a : nat) {X} (work : Work X) : KProg (result X KeptError) :=
  match work in Work X return KProg (result X KeptError) with
  | WorkLock name =>
      let! locked := store_lock a name in
      match locked with
      | Err e => Ret (Err e)
      | Ok None => Ret (Ok None)
      | Ok (Some lock) => let! h := act (new_arc a lock) in Ret (Ok (Some h))
      end
  | WorkRead name => store_read name
  | WorkNames => store_names
  | WorkWrite h record =>
      let! r := with_lock h (fun lock => store_write lock record) in
      modify (drop_arc h) ;;; Ret r
  | WorkRemove h =>
      let! r := with_lock h store_remove in
      modify (drop_arc h) ;;; Ret r
  | WorkLaunch spec log h record => launcher_launch a spec log (commit_record h record) (drop_arc h)
  end.

(** A task waits to be started, and the runtime may refuse it then; afterwards it cannot be
    dropped. *)
Definition kept_body (a : nat) (t : KeptTask) : KProg unit :=
  match t with
  | RunWork j work =>
      Wait (Ready (fun w => Some (w, tt))) (refuse j work) (fun _ =>
        let! r := run_work a work in
        modify (deliver j (inject_value work r)))
  end.

(** [spawn_blocking(work).await]: the work goes on if the caller is dropped. *)
Definition spawn_blocking {X} (refused : string -> KeptError) (work : Work X) : KProg (result X KeptError) :=
  let! j := act new_cell in
  fork (RunWork j work) ;;;
  Wait (Ready (take_cell j work)) (close_cell j) (fun r =>
    match r with
    | Some r => Ret r
    | None => let! text := call JoinFailed in Ret (Err (refused text))
    end).

Definition blocking {X} (work : Work X) : KProg (result X KeptError) := spawn_blocking KeptStoreFailed work.

(** A lock in a local variable of [p]: it is dropped where [p] is, and at its end unless
    the value [p] gives has taken it over. *)
Definition holding {A} (h : nat) (moved : A -> bool) (p : KProg A) : KProg A :=
  cancel_with (drop_arc h)
    (let! r := p in
     if moved r then Ret r else modify (drop_arc h) ;;; Ret r).

(** ** [KeptProcess] *)

Section Process.
Context (a : nat) (kp : KeptProcess).

Definition forget : KProg (result unit KeptError) :=
  let! h := act (clone_arc (kp_lock kp)) in
  blocking (WorkRemove h).

Definition rewrite_record : KProg (result unit KeptError) :=
  let! h := act (clone_arc (kp_lock kp)) in
  blocking (WorkWrite h (kp_record kp)).

Definition kept_exited : KProg KeptExit :=
  let! exit := target_exited (kp_target kp) in
  forget ;;; Ret exit.

Definition kept_finish (outcome : TerminationOutcome) (exit : option KeptExit) : KProg KeptTermination :=
  let outcome :=
    if match exit with Some exit => kexit_stragglers exit | None => false end
    then CleanupUnverified (WaitTimedOut GROUP_REPORT) else outcome in
  let! forgotten := forget in
  Ret (match forgotten with
       | Ok tt => mkKeptTermination outcome exit
       | Err _ => mkKeptTermination (CleanupUnverified ReapFailed) exit
       end).

(** [exited] or the timer, whichever is first. *)
Definition exited_within (d : Duration) : KProg (option KeptExit) :=
  let! first := select2 (when_gone (kp_target kp)) (Answer (KeptClockSleep d)) in
  match first with
  | inl _ => let! exit := call (TargetExit (kp_target kp)) in Ret (Some exit)
  | inr _ => Ret None
  end.

Definition kept_terminate (options : TerminateOptions) : KProg KeptTermination :=
  guarded (drop_arc (kp_lock kp))
    (let! already := target_exited_now (kp_target kp) in
     match already with
     | Some exit => kept_finish ExitedNaturally (Some exit)
     | None =>
         let! asked := ask (TargetSignal (kp_target kp) (rec_graceful_signal (kp_record kp))) in
         let! graceful := match asked with
                          | Ok tt => exited_within (opt_grace options)
                          | Err _ => Ret None
                          end in
         match graceful with
         | Some exit => kept_finish GracefulSuccess (Some exit)
         | None =>
             ask (TargetSignal (kp_target kp) Kill) ;;;
             let! exit := match opt_force_timeout options with
                          | None => let! exit := target_exited (kp_target kp) in Ret (Some exit)
                          | Some d => exited_within d
                          end in
             match exit with
             | Some exit => kept_finish ForcedRequired (Some exit)
             | None =>
                 Ret (mkKeptTermination
                        (CleanupUnverified (WaitTimedOut
                           (duration_saturating_add (opt_grace options) (default 0 (opt_force_timeout options)))))
                        None)
             end
         end
     end).
End Process.

(** ** [KeptProcesses] *)

Section Processes.
Context (a : nat).

(** The loop of [claim]. A clock that runs lets it retry at most a hundred times, so 101
    attempts are enough ([kept_claim_bounded] of KeptOrder); past them the model waits for ever. *)
Fixpoint claim_loop (fuel : nat) (name : KeptName) (deadline : Instant) : KProg (result nat KeptError) :=
  match fuel with
  | O => await (fun _ => None)
  | S fuel =>
      let? lock := blocking (WorkLock name) in
      match lock with
      | Some h => Ret (Ok h)
      | None =>
          let! now := call KeptClockNow in
          if deadline <=? now then Ret (Err (KeptBusy name))
          else ask (KeptClockSleep CLAIM_RETRY) ;;; claim_loop fuel name deadline
      end
  end.

Definition claim_for (fuel : nat) (name : KeptName) : KProg (result nat KeptError) :=
  let! now := call KeptClockNow in
  claim_loop fuel name (now + CLAIM_WAIT).

Definition claim_attempts : nat := 101.
Definition claim : KeptName -> KProg (result nat KeptError) := claim_for claim_attempts.

Definition read_kept (name : KeptName) : KProg (result (option KeptRecord) KeptError) := blocking (WorkRead name).

Definition result_moves {A E} (r : result A E) : bool := result_is_ok r.

(** The record [start] prepares; the launch fills in the instance. *)
Definition new_record (spec : KeptSpec) (boot_id : option string) (started : Z) : KeptRecord :=
  mkKeptRecord (ks_name spec) 0 0 boot_id None (lossy_string (spec_program (ks_spec spec)))
    (map lossy_string (spec_args (ks_spec spec))) (kept_fingerprint spec) (ks_revision spec)
    (spec_graceful_signal (ks_spec spec)) (ks_log spec) (label a) (unix_ms_of started).

(** [start] from the launch on. *)
Definition start_launch (spec : KeptSpec) (lock : nat) (record : KeptRecord) : KProg (result KeptProcess KeptError) :=
  let! commit_lock := act (clone_arc lock) in
  let! launched := spawn_blocking KeptLaunchFailed (WorkLaunch (ks_spec spec) (ks_log spec) commit_lock record) in
  match launched with
  | Err error =>
      let! cleanup := act (clone_arc lock) in
      blocking (WorkRemove cleanup) ;;; Ret (Err error)
  | Ok launch =>
      let! exe := call (TargetExe launch) in
      let process := mkKeptProcess lock (set_exe (set_instance record launch) exe) launch in
      rewrite_record process ;;; Ret (Ok process)
  end.

Definition start (spec : KeptSpec) : KProg (result KeptProcess KeptError) :=
  match spec_output (ks_spec spec) with
  | Capture _ _ => Ret (Err KeptCaptureUnsupported)
  | _ =>
      let? lock := claim (ks_name spec) in
      holding lock result_moves
        (let? previous := read_kept (ks_name spec) in
         let? _ := match previous with
                   | None => Ret (Ok tt)
                   | Some previous =>
                       let? target := launcher_attach previous in
                       Ret (match target with
                            | Some target => Err (KeptAlreadyRunning (ks_name spec) (launch_os_pid target))
                            | None => Ok tt
                            end)
                   end in
         let! boot_id := call BootId in
         let! started := call SystemNow in
         start_launch spec lock (new_record spec boot_id started))
  end.

Definition adopt_moves {A} (r : result (option A) KeptError) : bool :=
  match r with Ok (Some _) => true | _ => false end.

(** The lock goes into the [KeptProcess], or into the closure that removes the record. *)
Definition adopt (name : KeptName) : KProg (result (option KeptProcess) KeptError) :=
  let? lock := claim name in
  let? found := holding lock adopt_moves
    (let? record := read_kept name in
     match record with
     | None => Ret (Ok None)
     | Some record =>
         let? target := launcher_attach record in
         Ret (Ok (Some (record, target)))
     end) in
  match found with
  | None => Ret (Ok None)
  | Some (record, Some target) => Ret (Ok (Some (mkKeptProcess lock record target)))
  | Some (_, None) =>
      let? _ := blocking (WorkRemove lock) in
      Ret (Ok None)
  end.

(** The arm [(false, Some(lock))] of [list]'s match on one name: what it adds to the listing.
    [None] from its first part says that the record is the one seen dead. *)
Definition stale {A} (r : result (option A) KeptError) : bool :=
  match r with Ok None => true | _ => false end.

Definition list_dead (name : KeptName) (record : KeptRecord) (lock : nat) : KProg (result (list KeptEntry) KeptError) :=
  let? entries := holding lock stale
    (let? current := read_kept name in
     if bool_decide (current = Some record) then Ret (Ok None)
     else
       match current with
       | None => Ret (Ok (Some []))
       | Some current =>
           let? target := launcher_attach current in
           Ret (Ok (Some (match target with Some _ => [mkKeptEntry current false] | None => [] end)))
       end) in
  match entries with
  | Some entries => Ret (Ok entries)
  | None =>
      let? _ := blocking (WorkRemove lock) in
      Ret (Ok [])
  end.

Definition list_one (name : KeptName) : KProg (result (list KeptEntry) KeptError) :=
  let? found := read_kept name in
  match found with
  | None => Ret (Ok [])
  | Some record =>
      let? target := launcher_attach record in
      let? lock := blocking (WorkLock name) in
      match target, lock with
      | Some _, None => Ret (Ok [mkKeptEntry record true])
      | Some _, Some lock => modify (drop_arc lock) ;;; Ret (Ok [mkKeptEntry record false])
      | None, Some lock => list_dead name record lock
      | None, None => Ret (Ok [])
      end
  end.

Fixpoint list_all (names : list KeptName) (live : list KeptEntry) : KProg (result (list KeptEntry) KeptError) :=
  match names with
  | [] => Ret (Ok live)
  | name :: names =>
      let? entries := list_one name in
      list_all names (live ++ entries)
  end.

Definition list_kept : KProg (result (list KeptEntry) KeptError) :=
  let? names := blocking WorkNames in
  list_all (merge_sort name_le names) [].
End Processes.

(** ** The public interface, with the values its callers hold *)

(** A call's result goes to the caller, who holds a [KeptProcess] in it. *)
Definition hold (a : nat) (kp : KeptProcess) (w : World) : World :=
  bump (set_held (<[w_next w := mkHeldProcess a kp 0]> (w_held w)) w).

Definition borrow (a k : nat) (w : World) : option (World * KeptProcess) :=
  match w_held w !! k with
  | Some h =>
      if decide (held_owner h = a)
      then Some (set_held (<[k := mkHeldProcess a (held_process h) (S (held_borrows h))]> (w_held w)) w, held_process h)
      else None
  | None => None
  end.

Definition give_back (k : nat) (w : World) : World :=
  match w_held w !! k with
  | Some h => set_held (<[k := mkHeldProcess (held_owner h) (held_process h) (Nat.pred (held_borrows h))]> (w_held w)) w
  | None => w
  end.

(** A value is moved out of its caller's hands only while nothing borrows it. *)
Definition move_out (a k : nat) (w : World) : option (World * KeptProcess) :=
  match w_held w !! k with
  | Some h =>
      if decide (held_owner h = a /\ held_borrows h = O)
      then Some (set_held (delete k (w_held w)) w, held_process h) else None
  | None => None
  end.

Definition live_instances (w : World) : list KeptLaunch :=
  filter (fun i => w_procs w !! i = Some StageRunning) (map_to_list (w_procs w)).*1.

Definition serve_start (a : nat) (spec : KeptSpec) : KProg unit :=
  let! r := start a spec in
  modify (fun w =>
    match r with
    | Ok kp => log_return (RetStart a spec (Ok (kp_record kp))) (hold a kp w)
    | Err e => log_return (RetStart a spec (Err e)) w
    end).

Definition serve_adopt (a : nat) (name : KeptName) : KProg unit :=
  let! r := adopt name in
  modify (fun w =>
    match r with
    | Ok (Some kp) => log_return (RetAdopt a name (Ok (Some (kp_record kp)))) (hold a kp w)
    | Ok None => log_return (RetAdopt a name (Ok None)) w
    | Err e => log_return (RetAdopt a name (Err e)) w
    end).

Definition serve_list (a : nat) : KProg unit :=
  let! alive := reads live_instances in
  let! r := list_kept in
  modify (log_return (RetList a alive r)).

Definition serve_exited (a k : nat) : KProg unit :=
  let! kp := await (borrow a k) in
  guarded (give_back k)
    (let! exit := kept_exited kp in
     modify (log_return (RetExited a (kp_record kp) exit))).

Definition serve_terminate (a k : nat) (options : TerminateOptions) : KProg unit :=
  let! kp := await (move_out a k) in
  let! t := kept_terminate kp options in
  modify (log_return (RetKeptTerminate a (kp_record kp) t)).

(** [release], and dropping the value. *)
Definition serve_release (a k : nat) : KProg unit :=
  let! kp := await (move_out a k) in
  modify (drop_arc (kp_lock kp)).

(** What may happen at any time: the calls of each owner (a name is one that [KeptName::new]
    accepted), and the exit of any process. *)
Inductive kept_api (a : nat) : KProg unit -> Prop :=
| api_start spec :
    kept_name_new (kept_name (ks_name spec)) = Ok (ks_name spec) -> kept_api a (serve_start a spec)
| api_adopt name : kept_name_new (kept_name name) = Ok name -> kept_api a (serve_adopt a name)
| api_list : kept_api a (serve_list a)
| api_exited k : kept_api a (serve_exited a k)
| api_terminate k options : kept_api a (serve_terminate a k options)
| api_release k : kept_api a (serve_release a k)
| api_process_ends i : kept_api a (modify (end_process i)).
End Kept.
