(* ===== verification/KeptOrder.v ===== *)
(** * KeptOrder: the order of calls in the kept-process service

    For one call among any others: how often [claim] tries, and in which order
    [terminate] signals, waits and removes the record. *)

From stdpp Require Import base list gmap strings.
From S2P Require Import Prelude StdModel Values KeptDomain Ports Conc Protocol FileSystem KeptState KeptStore Kept.

Open Scope Z_scope.
Open Scope prog_scope.

(** ** What is seen of a call *)

Inductive kept_action : Type :=
| SawClock (t : Instant)
| Slept (d : Duration)
| Signalled (target : KeptLaunch) (signal : Signal) (ok : bool)
| SawExit (target : KeptLaunch) (exit : KeptExit)
| Asked
| StartedLock (name : KeptName)
| StartedRemove
| StartedOther.

Definition kept_label (X : Type) (q : KeptPort X) (x : X) : kept_action :=
  match q in KeptPort X return X -> kept_action with
  | KeptClockNow => SawClock
  | KeptClockSleep d => fun _ => Slept d
  | TargetSignal i s => fun r => Signalled i s (result_is_ok r)
  | TargetExit i => SawExit i
  | _ => fun _ => Asked
  end x.

Definition kept_started (t : KeptTask) : kept_action :=
  match t with
  | RunWork _ work =>
      match work with
      | WorkLock n => StartedLock n
      | WorkRemove _ => StartedRemove
      | _ => StartedOther
      end
  end.

Section Order.
Context `{KeptStore}.

Definition kept_trace {A} (p : KProg A) (ls : list kept_action) (r : option A) : Prop :=
  trace kept_answer kept_label kept_started p ls r.

Abbreviation follows := (Protocol.follows (answer := kept_answer) (label := kept_label) (started := kept_started)) (only parsing).

(** A blocking task: it is started, and its result is anything. *)
Lemma follows_spawn {P X} (delta : P -> kept_action -> option P) refused (work : Work X) p0 p q (post : P -> result X KeptError -> Prop) :
  (forall j, delta p (kept_started (RunWork j work)) = Some q) -> delta q Asked = Some q ->
  (forall r, post q r) -> follows delta (spawn_blocking refused work) p0 p post.
Proof.
  intros Hd Hq Hpost. eapply follows_bind; [apply follows_act|]. intros p' j ->.
  eapply follows_bind with (mid := fun p' _ => p' = q); [apply follows_fork; eauto|]. intros p' _ ->.
  apply (follows_bind _ (await (take_cell j work)) (fun r =>
    match r with Some r => Ret r | None => let! text := call JoinFailed in Ret (Err (refused text)) end) _ _ (fun p' _ => p' = q)).
  - apply follows_await.
  - intros p' [r|] ->; [by apply follows_ret|].
    eapply follows_bind with (mid := fun p' _ => p' = q); [apply follows_call; eauto|].
    intros p' text ->. by apply follows_ret.
Qed.

(** ** [claim] *)

(** With the first reading of the clock, the last one (and what was slept since) and the number
    of attempts so far: about to try; the attempt was made; the clock was read after it. Or
    a clock that ran backwards, or that ran less than was slept. *)
Inductive claim_phase : Type :=
| ClaimBegins
| ClaimTries (first last : Instant) (attempts : Z)
| ClaimTried (first last : Instant) (attempts : Z)
| ClaimChecked (first last : Instant) (attempts : Z)
| ClockBroken.

(** At most 101 attempts, with a sleep of [CLAIM_RETRY] between any two. *)
Definition claim_delta (name : KeptName) (p : claim_phase) (l : kept_action) : option claim_phase :=
  match p, l with
  | ClockBroken, _ => Some ClockBroken
  | ClaimBegins, SawClock t => Some (ClaimTries t t 0)
  | ClaimTries f last n, StartedLock m =>
      if bool_decide (m = name) && (n <? 101) then Some (ClaimTried f last (n + 1)) else None
  | ClaimTried _ _ _, Asked => Some p
  | ClaimTried f last n, SawClock t => Some (if last <=? t then ClaimChecked f t n else ClockBroken)
  | ClaimChecked f last n, Slept d => if d =? CLAIM_RETRY then Some (ClaimTries f (last + d) n) else None
  | _, _ => None
  end.

(** The value is that of an attempt, or [Busy] after two seconds. *)
Definition claim_ends (name : KeptName) (p : claim_phase) (r : result nat KeptError) : Prop :=
  match p with
  | ClaimTried f last n => True
  | ClaimChecked f last n => r = Err (KeptBusy name) /\ f + CLAIM_WAIT <= last
  | ClockBroken => True
  | _ => False
  end.

Lemma follows_broken name {A} (p : KProg A) p0 (post : claim_phase -> A -> Prop) :
  (forall a, post ClockBroken a) -> follows (claim_delta name) p p0 ClockBroken post.
Proof.
  intros Hpost h Hh. eapply ord_mono; [|by apply (follows_sink (claim_delta name) p p0 ClockBroken)].
  intros h' a (p' & Hp' & ->). eauto.
Qed.

Lemma follows_claim_loop fuel name p0 f last n :
  0 <= n <= 100 -> f + CLAIM_RETRY * n <= last ->
  follows (claim_delta name) (claim_loop fuel name (f + CLAIM_WAIT)) p0 (ClaimTries f last n) (claim_ends name).
Proof.
  revert last n. induction fuel as [|fuel IH]; intros last n Hn Hlast; cbn [claim_loop].
  { intros h Hh. intros ? ? ? Hf. by cbn in Hf. }
  unfold try_. eapply follows_bind with (mid := fun p _ => p = ClaimTried f last (n + 1)).
  { apply (follows_spawn _ _ _ _ _ (ClaimTried f last (n + 1))); [|done|done]. intros j. cbn.
    rewrite bool_decide_eq_true_2 by done. by rewrite (proj2 (Z.ltb_lt n 101)) by lia. }
  intros p [[lock|]|e] ->; [by apply follows_ret| |by apply follows_ret].
  eapply follows_bind with (mid := fun p t =>
    p = ClockBroken \/ p = ClaimChecked f t (n + 1) /\ f + CLAIM_RETRY * n <= t).
  { apply follows_call. intros t. cbn. eexists. split; [reflexivity|].
    destruct (last <=? t) eqn:E; [right; split; [done|lia]|by left]. }
  intros p t [->|[-> Ht]]; [by apply follows_broken|].
  destruct (f + CLAIM_WAIT <=? t) eqn:Hd; [apply follows_ret; split; [done|lia]|].
  eapply follows_bind with (mid := fun p _ => p = ClaimTries f (t + CLAIM_RETRY) (n + 1)).
  { apply follows_ask. intros []. cbn. rewrite Z.eqb_refl. eauto. }
  intros p _ ->. apply IH; unfold CLAIM_WAIT, CLAIM_RETRY, from_secs, from_millis, nanos_per_sec in *; lia.
Qed.

Lemma follows_claim fuel name :
  follows (claim_delta name) (claim_for fuel name) ClaimBegins ClaimBegins (claim_ends name).
Proof.
  eapply follows_bind with (mid := fun p t => p = ClaimTries t t 0).
  { apply follows_call. intros t. eexists. by split. }
  intros p t ->. apply follows_claim_loop; [lia|]. unfold CLAIM_RETRY. lia.
Qed.

(** ** [terminate] *)

(** Nothing done yet; asked gracefully (did the signal go through?); the grace period is over;
    killed; the last wait is over; the exit is known, with what it is called; the record was
    given up. *)
Inductive stop_phase : Type :=
| StopBegins
| StopAsked (sent : bool)
| StopGraceOver
| StopKilled
| StopTimedOut
| StopExited (how : TerminationOutcome) (exit : KeptExit)
| StopForgot (how : TerminationOutcome) (exit : KeptExit).

Section Terminate.
Context (kp : KeptProcess) (options : TerminateOptions).

Definition stop_delta (p : stop_phase) (l : kept_action) : option stop_phase :=
  match l, p with
  | Asked, _ => Some p
  | Signalled i s ok, StopBegins =>
      if bool_decide (i = kp_target kp /\ s = rec_graceful_signal (kp_record kp)) then Some (StopAsked ok) else None
  | Signalled i s ok, (StopAsked false | StopGraceOver) =>
      if bool_decide (i = kp_target kp /\ s = Kill) then Some StopKilled else None
  | Slept d, StopAsked true => if d =? opt_grace options then Some StopGraceOver else None
  | Slept d, StopKilled => if bool_decide (opt_force_timeout options = Some d) then Some StopTimedOut else None
  | SawExit i e, StopBegins => if bool_decide (i = kp_target kp) then Some (StopExited ExitedNaturally e) else None
  | SawExit i e, StopAsked true => if bool_decide (i = kp_target kp) then Some (StopExited GracefulSuccess e) else None
  | SawExit i e, StopKilled => if bool_decide (i = kp_target kp) then Some (StopExited ForcedRequired e) else None
  | StartedRemove, StopExited how e => Some (StopForgot how e)
  | _, _ => None
  end.

(** The outcome that is reported. *)
Definition stop_ends (p : stop_phase) (t : KeptTermination) : Prop :=
  match p with
  | StopForgot how e =>
      kt_exit t = Some e /\
      (kt_outcome t = CleanupUnverified ReapFailed \/
       kt_outcome t = if kexit_stragglers e then CleanupUnverified (WaitTimedOut GROUP_REPORT) else how)
  | StopTimedOut =>
      t = mkKeptTermination (CleanupUnverified (WaitTimedOut
            (duration_saturating_add (opt_grace options) (default 0 (opt_force_timeout options))))) None
  | _ => False
  end.

Lemma follows_kept_finish how exit p0 :
  follows stop_delta (kept_finish kp how (Some exit)) p0 (StopExited how exit) stop_ends.
Proof.
  unfold kept_finish. eapply follows_bind with (mid := fun p _ => p = StopForgot how exit).
  { unfold forget. eapply follows_bind; [apply follows_act|]. intros p h ->. by eapply follows_spawn. }
  intros p r ->. apply follows_ret. destruct r as [[]|e]; cbn; split; auto.
Qed.

Lemma follows_exit p0 p how :
  (forall e, stop_delta p (SawExit (kp_target kp) e) = Some (StopExited how e)) ->
  follows stop_delta (call (TargetExit (kp_target kp))) p0 p (fun p e => p = StopExited how e).
Proof. intros Hd. apply follows_call. intros e. exists (StopExited how e). split; [apply Hd|done]. Qed.

Lemma follows_exited_within d p0 p q how :
  (forall e, stop_delta p (SawExit (kp_target kp) e) = Some (StopExited how e)) ->
  stop_delta p (Slept d) = Some q ->
  follows stop_delta (exited_within kp d) p0 p (fun p o =>
    match o with Some e => p = StopExited how e | None => p = q end).
Proof.
  intros Hexit Hsleep. eapply follows_bind with (mid := fun p' r => p' = match r with inl _ => p | inr _ => q end).
  { apply follows_race_ready; [done|]. intros []. eauto. }
  intros p' [u|u] ->; [|by apply follows_ret].
  eapply follows_bind; [by apply follows_exit|]. intros p' e ->. by apply follows_ret.
Qed.

Lemma follows_kept_terminate : follows stop_delta (kept_terminate kp options) StopBegins StopBegins stop_ends.
Proof.
  unfold kept_terminate. apply follows_guarded.
  eapply follows_bind with (mid := fun p o =>
    match o with Some e => p = StopExited ExitedNaturally e | None => p = StopBegins end).
  { unfold target_exited_now. eapply follows_bind with (mid := fun p _ => p = StopBegins); [apply follows_call; eauto|].
    intros p published ->. eapply follows_bind; [apply follows_act|]. intros p gone ->.
    destruct (published && gone); [|by apply follows_ret].
    eapply follows_bind; [apply (follows_exit _ _ ExitedNaturally); intros e; cbn; by rewrite bool_decide_eq_true_2|].
    intros p e ->. by apply follows_ret. }
  intros p [e|] ->; [apply follows_kept_finish|].
  eapply follows_bind with (mid := fun p r => p = StopAsked (result_is_ok r)).
  { apply follows_ask. intros r. eexists. split; [cbn; by rewrite bool_decide_eq_true_2|done]. }
  intros p asked ->.
  eapply follows_bind with (mid := fun p o => match o with
    | Some e => p = StopExited GracefulSuccess e
    | None => p = StopAsked false \/ p = StopGraceOver end).
  { destruct asked as [[]|e]; cbn [result_is_ok]; [|by apply follows_ret; left].
    intros h Hh. eapply ord_mono; [|apply (follows_exited_within (opt_grace options) _ (StopAsked true) StopGraceOver GracefulSuccess)].
    - intros h' o (p' & Hp' & Ho). exists p'. split; [done|]. destruct o; [done|by right].
    - intros e. cbn. by rewrite bool_decide_eq_true_2.
    - cbn. by rewrite Z.eqb_refl.
    - done. }
  intros p [e|] Hp; [subst; apply follows_kept_finish|].
  eapply follows_bind with (mid := fun p _ => p = StopKilled).
  { apply follows_ask. intros r. exists StopKilled. split; [|done].
    destruct Hp as [->| ->]; cbn; by rewrite bool_decide_eq_true_2. }
  intros p' _ ->. clear Hp p.
  eapply follows_bind with (mid := fun p o => match o with Some e => p = StopExited ForcedRequired e | None => p = StopTimedOut end).
  { destruct (opt_force_timeout options) as [d|] eqn:Ed.
    - apply follows_exited_within.
      + intros e. cbn. by rewrite bool_decide_eq_true_2.
      + cbn. by rewrite bool_decide_eq_true_2.
    - eapply follows_bind with (mid := fun p e => p = StopExited ForcedRequired e); [|intros p e ->; by apply follows_ret].
      eapply follows_bind; [apply follows_await|]. intros p u ->. apply follows_exit.
      intros e. cbn. by rewrite bool_decide_eq_true_2. }
  intros p [e|] ->; [apply follows_kept_finish|by apply follows_ret].
Qed.
End Terminate.

(** ** Properties *)

(** [claim] tries at most 101 times and always ends: in every run, completed or cut short,
    of the loop with any bound on its rounds, a clock that never runs backwards and runs at
    least as long as was slept allows no more attempts (so the bound of [claim] is never
    reached), each after a sleep of 20 ms; the value is that of the last attempt, or [Busy]
    once two seconds have passed since the call began. *)
Theorem kept_claim_bounded fuel name ls r :
  kept_trace (claim_for fuel name) ls r ->
  exists p, run_from (claim_delta name) ClaimBegins ls = Some p /\ forall a, r = Some a -> claim_ends name p a.
Proof. intros Htr. exact (follows_sound _ _ _ _ _ _ (follows_claim fuel name) Htr). Qed.

(** C11. A kept process is stopped in two phases and forgotten last: in every run of
    [terminate], completed or cut short, at most one graceful signal and then one kill go to
    the target, the kill only if the first signal failed or the whole grace period has
    passed; the record is given up only after the exit was seen, once, and the outcome says
    what happened (with no exit, that the waits timed out). *)
Theorem kept_terminate_two_phase kp options ls r :
  kept_trace (kept_terminate kp options) ls r ->
  exists p, run_from (stop_delta kp options) StopBegins ls = Some p /\
    forall t, r = Some t -> stop_ends options p t.
Proof. intros Htr. exact (follows_sound _ _ _ _ _ _ (follows_kept_terminate kp options) Htr). Qed.
End Order.

(** ** Runs *)

Section Runs.
#[local] Existing Instance sample_codec.

(** The world in which a task with this result has just finished. *)
Definition finished_world (v : WorkValue) : World := set_cells {[0%nat := CellDone v]} empty_world.
Definition ended_world (i : KeptLaunch) : World := set_procs {[i := StageGone]} empty_world.
Definition sample_process : KeptProcess := mkKeptProcess 0 sample_record (record_instance sample_record).

Lemma kept_claim_bounded_witness :
  exists p, run_from (claim_delta (lock_name sample_lock)) ClaimBegins
      [SawClock 0; StartedLock (lock_name sample_lock); SawClock 2000000000] = Some p /\
    forall a, Some (Err (KeptBusy (lock_name sample_lock))) = Some a -> claim_ends (lock_name sample_lock) p a.
Proof.
  apply (kept_claim_bounded 3).
  unfold kept_trace, claim_for, claim_loop, try_, blocking, spawn_blocking. cbn [bind call act fork ask].
  refine (tr_call _ _ _ _ KeptClockNow _ 0 _ _ _).
  refine (tr_act _ _ _ _ _ _ empty_world _ _ _).
  refine (tr_fork _ _ _ _ _ _ _ _).
  refine (tr_wait _ _ _ _ (Ready _) _ _ (finished_world (ValueLock (Ok None))) _ (Some (Ok None)) _ _ _ _); [by vm_compute|].
  refine (tr_call _ _ _ _ KeptClockNow _ 2000000000 _ _ _). apply tr_ret.
Defined.

Lemma kept_terminate_two_phase_witness :
  exists p, run_from (stop_delta sample_process (mkTerminateOptions 1000 None)) StopBegins
      [Asked; Signalled (kp_target sample_process) Term true; Slept 1000; Signalled (kp_target sample_process) Kill true;
       SawExit (kp_target sample_process) kept_exit_default; StartedRemove] = Some p /\
    forall t, Some (mkKeptTermination ForcedRequired (Some kept_exit_default)) = Some t ->
      stop_ends (mkTerminateOptions 1000 None) p t.
Proof.
  apply (kept_terminate_two_phase sample_process). unfold kept_trace.
  refine (tr_call _ _ _ _ (TargetPublished _) _ false _ _ _).
  refine (tr_act _ _ _ _ _ _ empty_world _ _ _).
  refine (tr_wait _ _ _ _ (Answer (TargetSignal _ _)) _ _ empty_world empty_world (Ok tt) _ _ _ _); [done|].
  refine (tr_wait _ _ _ _ (Either _ (Answer (KeptClockSleep _))) _ _ empty_world empty_world (inr tt) _ _ _ _); [done|].
  refine (tr_wait _ _ _ _ (Answer (TargetSignal _ _)) _ _ empty_world empty_world (Ok tt) _ _ _ _); [done|].
  refine (tr_wait _ _ _ _ (Ready _) _ _ (ended_world (kp_target sample_process)) _ tt _ _ _ _); [by vm_compute|].
  refine (tr_call _ _ _ _ (TargetExit _) _ kept_exit_default _ _ _).
  refine (tr_act _ _ _ _ _ _ empty_world _ _ _).
  refine (tr_act _ _ _ _ _ _ empty_world _ _ _).
  refine (tr_fork _ _ _ _ _ _ _ _).
  refine (tr_wait _ _ _ _ (Ready _) _ _ (finished_world (ValueUnit (Ok tt))) _ (Some (Ok tt)) _ _ _ _); [by vm_compute|].
  refine (tr_act _ _ _ _ _ _ empty_world _ _ _). apply tr_ret.
Defined.
End Runs.
