(* ===== verification/KeptInv.v ===== *)
(** * KeptInv: what the users of a kept store keep together

    The state interpretation of the kept-process service ([kept_client]) over any store
    that keeps the contract of [KeptStoreSpec], in separation logic.

    A claim that was just taken belongs to the program that took it: only that program
    writes the record ([PhaseOwn]: it knows what the record is). When the claim goes
    into a [KeptProcess], its name is settled on one instance for good ([PhaseShared]):
    from then on anyone with the lock may remove the record once that instance is gone.
    An instance that is recorded has a home: while it lives, the record there is its
    own. These are the invariants [claims_ok] and [procs_ok]; [arcs_ok] says that a
    lock in a living program's hands keeps its claim. *)

From iris.proofmode Require Import proofmode.
From iris.base_logic.lib Require Import ghost_map.
From stdpp Require Import base list gmap strings.
From S2P Require Import Prelude StdModel Values KeptDomain Ports Conc Ownership FileSystem KeptState KeptStore.
From S2P Require Import KeptStoreSpec KeptDirectory Kept.

Open Scope Z_scope.

(** ** Ghost data *)

(** Who may do what with a claim: just taken by its owner, of one program that knows the
    record's bytes, or settled on an instance (or on none). *)
Inductive Phase : Type :=
| PhaseRaw (a : nat) (n : KeptName)
| PhaseOwn (n : KeptName) (v : option string)
| PhaseShared (n : KeptName) (o : option KeptLaunch).

(** A launched instance: not recorded yet, or recorded under a name. *)
Inductive InstState : Type :=
| InstNew
| InstHome (n : KeptName).

(** What the caller of a blocking task wants from it. *)
Inductive Purpose : Type :=
| PurposeLock (a : nat) (n : KeptName)
| PurposeRead (lock : KeptLock) (v : option string)
| PurposeSee (n : KeptName) (about : list KeptLaunch)
| PurposeNames (homes : list (KeptLaunch * KeptName))
| PurposeWrite (lock : KeptLock) (i : KeptLaunch)
| PurposeRemove
| PurposeLaunch (lock : KeptLock) (v : option string).

Definition gone_in (procs : gmap KeptLaunch Stage) (i : KeptLaunch) : Prop := procs !! i = Some StageGone.
Definition live_in (procs : gmap KeptLaunch Stage) (i : KeptLaunch) : Prop :=
  exists st, procs !! i = Some st /\ st <> StageGone.

Section Inv.
Context (decode : KeptName -> string -> result KeptRecord KeptError).

Definition bytes_view (n : KeptName) (v : option string) : result (option KeptRecord) KeptError :=
  match v with
  | None => Ok None
  | Some bytes => match decode n bytes with Ok r => Ok (Some r) | Err e => Err e end
  end.

(** The record of [n] is of the instance [i]. *)
Definition recorded (recs : gmap KeptName string) (n : KeptName) (i : KeptLaunch) : Prop :=
  exists b r, recs !! n = Some b /\ decode n b = Ok r /\ record_instance r = i.

Record arcs_ok (D : gset nat) (claims : gmap nat (nat * KeptName)) (arcs A : gmap nat (nat * KeptLock))
    (L : gmap nat bool) (Ph : gmap nat Phase) (next : nat) : Prop := {
  ao_known : arcs ⊆ A;
  ao_live : forall t a lock, L !! t = Some true -> A !! t = Some (a, lock) -> a ∉ D -> arcs !! t = Some (a, lock);
  ao_none : forall t, L !! t = Some false -> arcs !! t = None;
  ao_live_known : dom L ⊆ dom A;
  ao_claim : forall t a lock, arcs !! t = Some (a, lock) -> claims !! lock_guard lock = Some (a, lock_name lock);
  ao_phase : forall t a lock, arcs !! t = Some (a, lock) ->
    exists ph, Ph !! lock_guard lock = Some ph /\ forall a n, ph <> PhaseRaw a n;
  ao_next : forall t, t ∈ dom A -> (t < next)%nat;
}.

Record claims_ok (D : gset nat) (claims : gmap nat (nat * KeptName)) (recs : gmap KeptName string) (used : gset nat)
    (Ph : gmap nat Phase) (De : gmap nat unit) (procs : gmap KeptLaunch Stage) : Prop := {
  co_raw : forall c a n, Ph !! c = Some (PhaseRaw a n) -> a ∉ D -> claims !! c = Some (a, n);
  co_own : forall c n v a n', Ph !! c = Some (PhaseOwn n v) -> claims !! c = Some (a, n') -> n' = n /\ recs !! n = v;
  co_shared : forall c n o a n', Ph !! c = Some (PhaseShared n o) -> claims !! c = Some (a, n') ->
    n' = n /\ forall i, recorded recs n i -> o = Some i \/ gone_in procs i;
  co_unique : forall c1 c2 a1 a2 n, claims !! c1 = Some (a1, n) -> claims !! c2 = Some (a2, n) -> c1 = c2;
  co_used : dom claims ⊆ used /\ dom Ph ⊆ used;
  co_dead : forall c, is_Some (De !! c) -> claims !! c = None /\ c ∈ used;
}.

Record procs_ok (recs : gmap KeptName string) (procs : gmap KeptLaunch Stage) (In : gmap KeptLaunch InstState)
    (Kn Go : gmap KeptLaunch unit) : Prop := {
  po_gone : forall i, is_Some (Go !! i) -> gone_in procs i;
  po_known : forall i, is_Some (Kn !! i) -> is_Some (procs !! i);
  po_recorded : forall n i, recorded recs n i -> is_Some (procs !! i);
  po_running : forall i, procs !! i = Some StageRunning -> exists n, In !! i = Some (InstHome n);
  po_inst : forall i, is_Some (In !! i) -> is_Some (procs !! i);
  po_home : forall i n, In !! i = Some (InstHome n) ->
    kept_name_new (kept_name n) = Ok n /\ (live_in procs i -> recorded recs n i);
}.

(** What was returned was true, and stays so. *)
Definition return_ok (procs : gmap KeptLaunch Stage) (r : KeptReturn) : Prop :=
  match r with
  | RetStart _ spec (Ok r) =>
      rec_name r = ks_name spec /\ rec_fingerprint r = kept_fingerprint spec /\ is_Some (procs !! record_instance r)
  | RetAdopt _ n (Ok (Some r)) => rec_name r = n /\ is_Some (procs !! record_instance r)
  | RetList _ alive (Ok entries) =>
      forall i, i ∈ alive -> gone_in procs i \/ exists e, e ∈ entries /\ record_instance (entry_record e) = i
  | RetExited _ r _ => gone_in procs (record_instance r)
  | RetKeptTerminate _ r t =>
      (is_Some (kt_exit t) -> gone_in procs (record_instance r)) /\
      (is_verified (kt_outcome t) = true -> exists exit, kt_exit t = Some exit /\ kexit_stragglers exit = false)
  | _ => True
  end.

(** The processes only ever progress. *)
Definition procs_le (p1 p2 : gmap KeptLaunch Stage) : Prop :=
  forall i, (is_Some (p1 !! i) -> is_Some (p2 !! i)) /\ (gone_in p1 i -> gone_in p2 i).

Lemma return_ok_le p1 p2 r : procs_le p1 p2 -> return_ok p1 r -> return_ok p2 r.
Proof.
  intros Hle. destruct r as [a spec [r|e]|a n [[r|]|e]|a alive [es|e]|a r exit|a r t]; cbn; try done.
  - intros (? & ? & ?). split_and!; [done..|]. by apply Hle.
  - intros (? & ?). split; [done|]. by apply Hle.
  - intros H i Hi. destruct (H i Hi) as [?|?]; [left; by apply Hle|by right].
  - apply Hle.
  - intros [H1 H2]. split; [|done]. intros He. by apply Hle, H1.
Qed.
End Inv.

(** ** The interpretation *)

Class keptGpreS (Σ : gFunctors) : Type := {
  #[global] kept_pre_arcs :: ghost_mapG Σ nat (nat * KeptLock);
  #[global] kept_pre_live :: ghost_mapG Σ nat bool;
  #[global] kept_pre_unit :: ghost_mapG Σ nat unit;
  #[global] kept_pre_phases :: ghost_mapG Σ nat Phase;
  #[global] kept_pre_insts :: ghost_mapG Σ KeptLaunch InstState;
  #[global] kept_pre_marks :: ghost_mapG Σ KeptLaunch unit;
  #[global] kept_pre_cells :: ghost_mapG Σ nat Purpose;
}.
Class keptGS (Σ : gFunctors) : Type := {
  #[global] kept_pre :: keptGpreS Σ;
  arcs_name : gname;
  live_name : gname;
  phases_name : gname;
  insts_name : gname;
  known_name : gname;
  gone_name : gname;
  dead_name : gname;
  cells_name : gname;
}.
Definition keptΣ : gFunctors :=
  #[ghost_mapΣ nat (nat * KeptLock); ghost_mapΣ nat bool; ghost_mapΣ nat unit; ghost_mapΣ nat Phase;
    ghost_mapΣ KeptLaunch InstState; ghost_mapΣ KeptLaunch unit; ghost_mapΣ nat Purpose].
#[global] Instance subG_keptΣ {Σ} : subG keptΣ Σ -> keptGpreS Σ.
Proof. solve_inG. Qed.

Section Interp.
Context {Σ : gFunctors} `{!keptGS Σ} `{KeptStore} {decode : KeptName -> string -> result KeptRecord KeptError}.
Context `{!KeptStoreSpec Σ decode}.

(** [t] names this lock; [t] is in the holder's hands, with its entry or (which ownership of
    values excludes) without. *)
Definition arc_is (t a : nat) (lock : KeptLock) : iProp Σ := t ↪[arcs_name]□ (a, lock).
Definition arc_held (t : nat) : iProp Σ := t ↪[live_name] true.
Definition arc_none (t : nat) : iProp Σ := t ↪[live_name] false.
Definition phase_is (c : nat) (ph : Phase) : iProp Σ := c ↪[phases_name] ph.
Definition phase_half (c : nat) (ph : Phase) : iProp Σ := c ↪[phases_name]{#1/2} ph.
Definition shared (c : nat) (n : KeptName) (o : option KeptLaunch) : iProp Σ := c ↪[phases_name]□ PhaseShared n o.
Definition inst_new (i : KeptLaunch) : iProp Σ := i ↪[insts_name] InstNew.
Definition inst_home (i : KeptLaunch) (n : KeptName) : iProp Σ := i ↪[insts_name]□ InstHome n.
Definition known (i : KeptLaunch) : iProp Σ := i ↪[known_name]□ tt.
Definition gone (i : KeptLaunch) : iProp Σ := i ↪[gone_name]□ tt.
Definition dead (c : nat) : iProp Σ := c ↪[dead_name]□ tt.

(** The instance of a record, when there is one, is known. *)
Definition view_known (r : result (option KeptRecord) KeptError) : iProp Σ :=
  match r with Ok (Some r) => known (record_instance r) | _ => True end.

#[global] Instance view_known_persistent r : Persistent (view_known r).
Proof. destruct r as [[r|]|e]; apply _. Qed.

(** What a program that owns a claim knows. *)
Definition own_claim (lock : KeptLock) (v : option string) : iProp Σ :=
  phase_is (lock_guard lock) (PhaseOwn (lock_name lock) v) ∗ store_writer (lock_guard lock) (lock_name lock).

(** Bytes that name no living instance. *)
Definition bytes_gone (n : KeptName) (v : option string) : iProp Σ :=
  match v with
  | None => True
  | Some bytes => match decode n bytes with Ok r => gone (record_instance r) | Err _ => True end
  end.

(** What the result of a task gives its caller. *)
Definition purpose_done (g : Purpose) (v : WorkValue) : iProp Σ :=
  match g, v with
  | PurposeLock a n, ValueLock (Ok (Some t)) =>
      ∃ lock v, arc_is t a lock ∗ arc_held t ∗ ⌜lock_name lock = n⌝ ∗ own_claim lock v
  | PurposeLock _ _, ValueLock _ => True
  | PurposeRead lock v, ValueRead r =>
      phase_half (lock_guard lock) (PhaseOwn (lock_name lock) v) ∗ view_known r ∗
      (⌜r = bytes_view decode (lock_name lock) v⌝ ∨ ⌜exists e, r = Err (KeptStoreFailed e)⌝ ∨ dead (lock_guard lock))
  | PurposeSee n about, ValueRead r =>
      view_known r ∗
      match r with
      | Ok o => [∗ list] i ∈ about, gone i ∨ ⌜exists r, o = Some r /\ record_instance r = i⌝
      | Err _ => True
      end
  | PurposeNames homes, ValueNames (Ok names) =>
      [∗ list] h ∈ homes, gone h.1 ∨ ⌜h.2 ∈ names⌝
  | PurposeNames _, ValueNames _ => True
  | PurposeWrite lock i, ValueUnit _ =>
      ∃ b r, own_claim lock (Some b) ∗ ⌜decode (lock_name lock) b = Ok r /\ record_instance r = i⌝
  | PurposeRemove, ValueUnit _ => True
  | PurposeLaunch lock v, ValueLaunch (Ok i) =>
      ∃ b r, own_claim lock (Some b) ∗ ⌜decode (lock_name lock) b = Ok r /\ record_instance r = i⌝ ∗
        inst_home i (lock_name lock) ∗ known i
  | PurposeLaunch lock v, ValueLaunch (Err _) =>
      ∃ v', own_claim lock v' ∗ (⌜v' = v⌝ ∨ bytes_gone (lock_name lock) v')
  | _, ValueLock (Ok (Some _)) => False
  | _, _ => True
  end.

(** What is left when the task is refused. *)
Definition purpose_refused (g : Purpose) : iProp Σ :=
  match g with
  | PurposeRead lock v => phase_half (lock_guard lock) (PhaseOwn (lock_name lock) v)
  | PurposeWrite lock i =>
      ∃ b r, own_claim lock (Some b) ∗ ⌜decode (lock_name lock) b = Ok r /\ record_instance r = i⌝
  | PurposeLaunch lock v => own_claim lock v
  | _ => True
  end.

Definition cell_res (j : nat) (st : Cell) : iProp Σ :=
  match st with
  | CellDone v => ∃ g, j ↪[cells_name]□ g ∗ purpose_done g v
  | CellRefused => ∃ g, j ↪[cells_name]□ g ∗ purpose_refused g
  | _ => True
  end.

(** A [KeptProcess]: its lock, settled on its target, and the right to the claim. *)
Definition process_info (a : nat) (kp : KeptProcess) : iProp Σ :=
  ∃ lock, arc_is (kp_lock kp) a lock ∗ ⌜lock_name lock = rec_name (kp_record kp)⌝ ∗
    ⌜record_instance (kp_record kp) = kp_target kp⌝ ∗
    shared (lock_guard lock) (lock_name lock) (Some (kp_target kp)) ∗ known (kp_target kp).
Definition process_res (a : nat) (kp : KeptProcess) : iProp Σ :=
  ∃ lock, arc_is (kp_lock kp) a lock ∗ arc_held (kp_lock kp) ∗ ⌜lock_name lock = rec_name (kp_record kp)⌝ ∗
    ⌜record_instance (kp_record kp) = kp_target kp⌝ ∗
    shared (lock_guard lock) (lock_name lock) (Some (kp_target kp)) ∗ known (kp_target kp) ∗
    store_writer (lock_guard lock) (lock_name lock).

Definition held_res (h : HeldProcess) : iProp Σ := process_res (held_owner h) (held_process h).

(** Where an instance is recorded is known to all. *)
Definition home_mark (i : KeptLaunch) (st : InstState) : iProp Σ :=
  match st with InstHome n => inst_home i n | InstNew => True end.
#[global] Instance home_mark_persistent i st : Persistent (home_mark i st).
Proof. destruct st; apply _. Qed.

(** Dead owners hold nothing. *)
Definition held_alive (D : gset nat) (held : gmap nat HeldProcess) : Prop :=
  forall k h, held !! k = Some h -> held_owner h ∉ D.

Definition ids_ok (w : World) (Ce : gmap nat Purpose) : Prop :=
  (forall j, j ∈ dom (w_cells w) \/ j ∈ dom Ce -> (j < w_next w)%nat) /\
  (forall k, k ∈ dom (w_held w) -> (k < w_next w)%nat).

Definition client : kept_client Σ := fun D claims recs used w =>
  (∃ A L Ph In Kn Go De Ce,
    (fixed_map arcs_name A ∗ ghost_map_auth live_name 1 L ∗ ⌜arcs_ok D claims (w_arcs w) A L Ph (w_next w)⌝) ∗
    (ghost_map_auth phases_name 1 Ph ∗ fixed_map dead_name De ∗ ⌜claims_ok decode D claims recs used Ph De (w_procs w)⌝) ∗
    (ghost_map_auth insts_name 1 In ∗ fixed_map known_name Kn ∗ fixed_map gone_name Go ∗
     ([∗ map] i ↦ st ∈ In, home_mark i st) ∗ ⌜procs_ok decode recs (w_procs w) In Kn Go⌝) ∗
    (fixed_map cells_name Ce ∗ ⌜ids_ok w Ce⌝ ∗ [∗ map] j ↦ st ∈ w_cells w, cell_res j st) ∗
    (([∗ map] k ↦ h ∈ w_held w, held_res h) ∗ ⌜held_alive D (w_held w)⌝) ∗
    ⌜Forall (return_ok (w_procs w)) (w_returned w)⌝)%I.

Lemma client_ignores_fs : ignores_fs client.
Proof. by intros D claims recs used fs w. Qed.
End Interp.
