(* ===== verification/KeptSteps.v ===== *)
(** * KeptSteps: the steps of the kept-process service keep its invariant

    One lemma per change of the world: locks taken, cloned and dropped, blocking tasks
    and their cells, processes, values held by callers, an owner's death. *)

From iris.proofmode Require Import proofmode.
From iris.base_logic.lib Require Import ghost_map.
From stdpp Require Import base list gmap strings.
From S2P Require Import Prelude StdModel Values KeptDomain Ports Conc Ownership FileSystem KeptState KeptStore.
From S2P Require Import KeptStoreSpec KeptDirectory Kept KeptInv.

Open Scope Z_scope.

(** ** Locks *)

Section Arcs.
Context (decode : KeptName -> string -> result KeptRecord KeptError).
Implicit Types (D : gset nat) (claims : gmap nat (nat * KeptName)) (arcs A : gmap nat (nat * KeptLock)).

Lemma arcs_ok_fresh D claims arcs A L Ph next : arcs_ok D claims arcs A L Ph next ->
  A !! next = None /\ L !! next = None /\ arcs !! next = None.
Proof.
  intros H. assert (Ha : A !! next = None).
  { apply not_elem_of_dom. intros Hin%(ao_next _ _ _ _ _ _ _ H). lia. }
  split; [done|]. split.
  - apply not_elem_of_dom. intros Hin%(ao_live_known _ _ _ _ _ _ _ H). by apply elem_of_dom in Hin as [? ?]; congruence.
  - eapply lookup_weaken_None; [exact Ha|]. apply H.
Qed.

(** A new entry for a claim that is held. *)
Lemma arcs_ok_insert D claims arcs A L Ph next a lock :
  arcs_ok D claims arcs A L Ph next ->
  claims !! lock_guard lock = Some (a, lock_name lock) ->
  (exists ph, Ph !! lock_guard lock = Some ph /\ forall a n, ph <> PhaseRaw a n) ->
  arcs_ok D claims (<[next := (a, lock)]> arcs) (<[next := (a, lock)]> A) (<[next := true]> L) Ph (S next).
Proof.
  intros H Hc Hp. destruct (arcs_ok_fresh _ _ _ _ _ _ _ H) as (HA & HL & Ha). destruct H as [Ak Al An Alk Ac Ap Ax]. split.
  - by apply insert_mono.
  - intros t b l. rewrite !lookup_insert. case_decide; [done|]. eauto.
  - intros t. rewrite !lookup_insert. case_decide; [done|]. eauto.
  - rewrite !dom_insert. set_solver.
  - intros t b l. rewrite lookup_insert. case_decide; [by intros [= <- <-]|]. eauto.
  - intros t b l. rewrite lookup_insert. case_decide; [by intros [= <- <-]|]. eauto.
  - intros t. rewrite dom_insert elem_of_union elem_of_singleton. intros [->|Ht%Ax]; lia.
Qed.

(** A handle that names no entry. *)
Lemma arcs_ok_insert_none D claims arcs A L Ph next a lock :
  arcs_ok D claims arcs A L Ph next ->
  arcs_ok D claims arcs (<[next := (a, lock)]> A) (<[next := false]> L) Ph (S next).
Proof.
  intros H. destruct (arcs_ok_fresh _ _ _ _ _ _ _ H) as (HA & HL & Ha). destruct H as [Ak Al An Alk Ac Ap Ax]. split.
  - by apply insert_subseteq_r.
  - intros t b l. rewrite !lookup_insert. case_decide; [done|]. eauto.
  - intros t. rewrite !lookup_insert. case_decide; [by subst|]. eauto.
  - rewrite !dom_insert. set_solver.
  - done.
  - done.
  - intros t. rewrite dom_insert elem_of_union elem_of_singleton. intros [->|Ht%Ax]; lia.
Qed.

Lemma arcs_ok_bump D claims arcs A L Ph next :
  arcs_ok D claims arcs A L Ph next -> arcs_ok D claims arcs A L Ph (S next).
Proof. intros [Ak Al An Alk Ac Ap Ax]. split; try done. intros t Ht%Ax. lia. Qed.

Lemma arcs_ok_phase D claims arcs A L Ph next c ph :
  arcs_ok D claims arcs A L Ph next -> (forall a n, ph <> PhaseRaw a n) ->
  arcs_ok D claims arcs A L (<[c := ph]> Ph) next.
Proof.
  intros [Ak Al An Alk Ac Ap Ax] Hp. split; try done. intros t a l Hl. destruct (Ap t a l Hl) as (ph' & E & Hne).
  destruct (decide (c = lock_guard l)) as [->|]; [rewrite lookup_insert_eq; eauto|].
  rewrite lookup_insert_ne; [eauto|done].
Qed.

Lemma arcs_ok_phase_raw D claims arcs A L Ph next c a n :
  arcs_ok D claims arcs A L Ph next -> Ph !! c = None ->
  arcs_ok D (<[c := (a, n)]> claims) arcs A L (<[c := PhaseRaw a n]> Ph) next.
Proof.
  intros [Ak Al An Alk Ac Ap Ax] Hp.
  assert (Hne : forall t b l, arcs !! t = Some (b, l) -> c <> lock_guard l).
  { intros t b l Hl ->. destruct (Ap _ _ _ Hl) as (ph & E & _). congruence. }
  split; try done.
  - intros t b l Hl. rewrite lookup_insert_ne; [eauto|]. by eapply Hne.
  - intros t b l Hl. rewrite lookup_insert_ne; [eauto|]. by eapply Hne.
Qed.

(** An entry goes; with the last one of a claim, the claim. *)
Lemma arcs_ok_drop D claims arcs A L Ph next t a lock :
  arcs_ok D claims arcs A L Ph next -> arcs !! t = Some (a, lock) ->
  let claims' := if decide (map_Exists (fun _ arc => lock_guard arc.2 = lock_guard lock) (delete t arcs))
                 then claims else delete (lock_guard lock) claims in
  arcs_ok D claims' (delete t arcs) A (delete t L) Ph next.
Proof.
  intros H Ht claims'. destruct H as [Ak Al An Alk Ac Ap Ax]. split.
  - etrans; [apply delete_subseteq|done].
  - intros t' b l. rewrite lookup_delete_Some. intros [Hne HL] HA HD. rewrite lookup_delete_ne; eauto.
  - intros t' [Hne HL]%lookup_delete_Some. rewrite lookup_delete_ne; eauto.
  - rewrite dom_delete. set_solver.
  - intros t' b l [Hne Hl]%lookup_delete_Some. unfold claims'. case_decide as Hex; [eauto|].
    rewrite lookup_delete_ne; [eauto|]. intros E. apply Hex. exists t', (b, l).
    split; [by rewrite lookup_delete_ne|done].
  - intros t' b l [Hne Hl]%lookup_delete_Some. eauto.
  - done.
Qed.

Lemma claims_ok_drop D claims recs used Ph De procs c :
  claims_ok decode D claims recs used Ph De procs -> (forall a n, Ph !! c <> Some (PhaseRaw a n)) ->
  claims_ok decode D (delete c claims) recs used Ph De procs.
Proof.
  intros [Cr Co Cs Cu Cus Cd] Hc. split.
  - intros c' a n E Ha. rewrite lookup_delete_ne; [eauto|]. intros ->. by apply (Hc a n).
  - intros c' n v a n' E [_ Hl]%lookup_delete_Some. eauto.
  - intros c' n o a n' E [_ Hl]%lookup_delete_Some. eauto.
  - intros c1 c2 a1 a2 n [_ H1]%lookup_delete_Some [_ H2]%lookup_delete_Some. eauto.
  - rewrite dom_delete. set_solver.
  - intros c' Hd. destruct (Cd _ Hd) as [E ?]. split; [|done]. apply lookup_delete_None. by right.
Qed.

(** The phase of a claim moves on. *)
Lemma claims_ok_phase D claims recs used Ph De procs c ph0 ph :
  claims_ok decode D claims recs used Ph De procs -> Ph !! c = Some ph0 ->
  (forall a n', claims !! c = Some (a, n') ->
     match ph with
     | PhaseRaw a' n => False
     | PhaseOwn n v => n' = n /\ recs !! n = v
     | PhaseShared n o => n' = n /\ forall i, recorded decode recs n i -> o = Some i \/ gone_in procs i
     end) ->
  (forall a n, ph <> PhaseRaw a n) ->
  claims_ok decode D claims recs used (<[c := ph]> Ph) De procs.
Proof.
  intros [Cr Co Cs Cu Cus Cd] Hc0 Hc Hne. split.
  - intros c' a n. rewrite lookup_insert. case_decide; [intros [= ->]; by destruct (Hne a n)|eauto].
  - intros c' n v a n'. rewrite lookup_insert. case_decide; [|eauto]. subst. intros [= ->] E. by apply (Hc a n').
  - intros c' n o a n'. rewrite lookup_insert. case_decide; [|eauto]. subst. intros [= ->] E. by apply (Hc a n').
  - done.
  - rewrite dom_insert. apply elem_of_dom_2 in Hc0. set_solver.
  - done.
Qed.

(** A claim is taken. *)
Lemma claims_ok_take D claims recs used Ph De procs c a n :
  claims_ok decode D claims recs used Ph De procs -> c ∉ used ->
  (forall c' a', claims !! c' <> Some (a', n)) ->
  claims_ok decode D (<[c := (a, n)]> claims) recs ({[c]} ∪ used) (<[c := PhaseRaw a n]> Ph) De procs.
Proof.
  intros [Cr Co Cs Cu Cus Cd] Hc Hn. destruct Cus as [Hu1 Hu2].
  assert (HPh : Ph !! c = None) by (apply not_elem_of_dom; set_solver).
  split.
  - intros c' b m. rewrite !lookup_insert. case_decide; [by intros [= -> ->]|eauto].
  - intros c' m v b m'. rewrite !lookup_insert. case_decide; [done|eauto].
  - intros c' m v b m'. rewrite !lookup_insert. case_decide; [done|eauto].
  - intros c1 c2 a1 a2 m. rewrite !lookup_insert. repeat case_decide; subst; [done| | |eauto].
    + intros [= <- <-] E. by destruct (Hn c2 a2).
    + intros E [= <- <-]. by destruct (Hn c1 a1).
  - rewrite !dom_insert. set_solver.
  - intros c' Hd. destruct (Cd _ Hd) as [E ?]. rewrite lookup_insert_ne; [|by intros ->]. split; [done|set_solver].
Qed.

Lemma claims_ok_mark_dead D claims recs used Ph De procs c :
  claims_ok decode D claims recs used Ph De procs -> claims !! c = None -> c ∈ used ->
  claims_ok decode D claims recs used Ph (<[c := tt]> De) procs.
Proof.
  intros [Cr Co Cs Cu Cus Cd] Hc Hu. split; try done. intros c'. rewrite lookup_insert. case_decide; [by subst|eauto].
Qed.

(** The record of a name changes, by who owns its claim. *)
Lemma claims_ok_write D claims recs recs' used Ph De procs c n v :
  claims_ok decode D claims recs used Ph De procs -> Ph !! c = Some (PhaseOwn n v) ->
  (exists a, claims !! c = Some (a, n)) -> (forall m, m <> n -> recs' !! m = recs !! m) ->
  claims_ok decode D claims recs' used (<[c := PhaseOwn n (recs' !! n)]> Ph) De procs.
Proof.
  intros [Cr Co Cs Cu Cus Cd] Hc [a Ha] Hrec. split.
  - intros c' b m. rewrite lookup_insert. case_decide; [done|eauto].
  - intros c' m v' b m'. rewrite lookup_insert. case_decide; subst.
    + intros [= <- <-] E. split; [congruence|done].
    + intros E E'. destruct (Co _ _ _ _ _ E E') as [-> Hv]. split; [done|].
      rewrite Hrec; [done|]. intros ->. by destruct (Cu _ _ _ _ _ Ha E').
  - intros c' m o b m'. rewrite lookup_insert. case_decide; subst; [done|].
    intros E E'. destruct (Cs _ _ _ _ _ E E') as [-> Hv]. split; [done|].
    intros i (bs & r & Hb & Hr). rewrite Hrec in Hb; [|intros ->; by destruct (Cu _ _ _ _ _ Ha E')].
    apply Hv. by exists bs, r.
  - done.
  - rewrite dom_insert. apply elem_of_dom_2 in Hc. set_solver.
  - done.
Qed.

(** The record of a name is removed under a shared claim. *)
Lemma claims_ok_remove D claims recs used Ph De procs c a n o :
  claims_ok decode D claims recs used Ph De procs -> Ph !! c = Some (PhaseShared n o) -> claims !! c = Some (a, n) ->
  claims_ok decode D claims (delete n recs) used Ph De procs.
Proof.
  intros [Cr Co Cs Cu Cus Cd] Hc Ha. split; try done.
  - intros c' m v b m' E E'. destruct (Co _ _ _ _ _ E E') as [-> Hv]. split; [done|].
    rewrite lookup_delete_ne; [done|]. intros ->. pose proof (Cu _ _ _ _ _ Ha E'). congruence.
  - intros c' m o' b m' E E'. destruct (Cs _ _ _ _ _ E E') as [-> Hv]. split; [done|].
    intros i (bs & r & [_ Hb]%lookup_delete_Some & Hr). apply Hv. by exists bs, r.
Qed.

(** Processes progress. *)
Lemma claims_ok_procs D claims recs used Ph De procs procs' :
  claims_ok decode D claims recs used Ph De procs -> procs_le procs procs' ->
  claims_ok decode D claims recs used Ph De procs'.
Proof.
  intros [Cr Co Cs Cu Cus Cd] Hle. split; try done. intros c n o a n' E E'. destruct (Cs _ _ _ _ _ E E') as [-> Hv].
  split; [done|]. intros i Hi. destruct (Hv i Hi) as [?|?]; [by left|right; by apply Hle].
Qed.

(** An owner dies. *)
Lemma claims_ok_die D claims recs used Ph De procs a :
  claims_ok decode D claims recs used Ph De procs ->
  claims_ok decode ({[a]} ∪ D) (filter (fun l => l.2.1 <> a) claims) recs used Ph De procs.
Proof.
  intros [Cr Co Cs Cu Cus Cd]. split.
  - intros c b n E Hb. apply map_lookup_filter_Some. split; [apply Cr; set_solver|set_solver].
  - intros c n v b n' E [Hl _]%map_lookup_filter_Some. eauto.
  - intros c n v b n' E [Hl _]%map_lookup_filter_Some. eauto.
  - intros c1 c2 a1 a2 n [H1 _]%map_lookup_filter_Some [H2 _]%map_lookup_filter_Some. eauto.
  - split; [|exact (proj2 Cus)]. etrans; [|exact (proj1 Cus)]. apply subseteq_dom, map_filter_subseteq.
  - intros c Hd. destruct (Cd _ Hd) as [E ?]. split; [|done]. apply map_lookup_filter_None. by left.
Qed.

Lemma arcs_ok_die D claims arcs A L Ph next a :
  arcs_ok D claims arcs A L Ph next ->
  arcs_ok ({[a]} ∪ D) (filter (fun l => l.2.1 <> a) claims) (filter (fun arc => arc.2.1 <> a) arcs) A L Ph next.
Proof.
  intros [Ak Al An Alk Ac Ap Ax]. split.
  - etrans; [apply map_filter_subseteq|done].
  - intros t b l HL HA Hb. apply map_lookup_filter_Some. split; [apply Al; [done..|set_solver]|set_solver].
  - intros t HL. apply map_lookup_filter_None. left. eauto.
  - done.
  - intros t b l [Hl Hne]%map_lookup_filter_Some. apply map_lookup_filter_Some. split; [eauto|done].
  - intros t b l [Hl Hne]%map_lookup_filter_Some. eauto.
  - done.
Qed.
End Arcs.

(** ** Processes *)

Section Procs.
Context (decode : KeptName -> string -> result KeptRecord KeptError).
Implicit Types (recs : gmap KeptName string) (procs : gmap KeptLaunch Stage).

Lemma procs_le_refl procs : procs_le procs procs.
Proof. done. Qed.

Lemma procs_le_insert procs i st :
  (gone_in procs i -> st = StageGone) -> procs_le procs (<[i := st]> procs).
Proof.
  intros Hg j. unfold gone_in. rewrite !lookup_insert. case_decide; [subst|done]. split; [eauto|].
  intros Hj. by rewrite (Hg Hj).
Qed.

Lemma live_gone procs i : live_in procs i -> gone_in procs i -> False.
Proof. intros (st & E & Hne). unfold gone_in. congruence. Qed.

Lemma is_gone_spec i w : is_Some (w_procs w !! i) -> is_gone i w = true <-> gone_in (w_procs w) i.
Proof. intros [st E]. unfold is_gone, gone_in. rewrite E. by destruct st. Qed.

Lemma procs_ok_fork recs procs In Kn Go i a :
  procs_ok decode recs procs In Kn Go -> procs !! i = None ->
  In !! i = None /\
  procs_ok decode recs (<[i := StageGated a]> procs) (<[i := InstNew]> In) (<[i := tt]> Kn) Go.
Proof.
  intros [Pg Pk Prec Pr Pi Ph] Hi.
  assert (Hin : In !! i = None).
  { destruct (In !! i) eqn:E; [|done]. destruct (Pi i) as [? ?]; [eauto|congruence]. }
  assert (Hle : procs_le procs (<[i := StageGated a]> procs)).
  { apply procs_le_insert. unfold gone_in. congruence. }
  split; [done|]. split.
  - intros j Hj. apply Hle. auto.
  - intros j. rewrite !lookup_insert. case_decide; eauto.
  - intros n j Hj. apply Hle. eauto.
  - intros j. rewrite !lookup_insert. case_decide; [done|eauto].
  - intros j. rewrite !lookup_insert. case_decide; eauto.
  - intros j n. rewrite !lookup_insert. case_decide; [done|]. intros E. destruct (Ph j n E) as [Hn Hl].
    split; [done|]. intros (st & Est & Hne). rewrite lookup_insert_ne in Est; [|done]. apply Hl. by exists st.
Qed.

(** A stage that is no more alive than before, or a recorded instance that starts. *)
Lemma procs_ok_stage recs procs In Kn Go i st :
  procs_ok decode recs procs In Kn Go -> is_Some (procs !! i) ->
  st = StageGone \/ (st = StageRunning /\ live_in procs i /\ exists n, In !! i = Some (InstHome n)) ->
  procs_ok decode recs (<[i := st]> procs) In Kn Go /\ procs_le procs (<[i := st]> procs).
Proof.
  intros [Pg Pk Prec Pr Pi Ph] Hi Hst.
  assert (Hle : procs_le procs (<[i := st]> procs)).
  { apply procs_le_insert. intros Hg. destruct Hst as [->|(_ & Hl & _)]; [done|]. by destruct (live_gone _ _ Hl). }
  split; [|done]. split.
  - intros j Hj. apply Hle. auto.
  - intros j Hj. apply Hle. auto.
  - intros n j Hj. apply Hle. eauto.
  - intros j. rewrite lookup_insert. case_decide; [|eauto]. subst. intros [= ->]. by destruct Hst as [|(_ & _ & ?)].
  - intros j Hj. apply Hle. auto.
  - intros j n E. destruct (Ph j n E) as [Hn Hl]. split; [done|]. intros (st' & Est & Hne). apply Hl.
    revert Est. rewrite lookup_insert. case_decide; [|intros; by exists st']. subst. intros [= <-].
    destruct Hst as [->|(_ & Hlive & _)]; [done|exact Hlive].
Qed.

Lemma procs_ok_known recs procs In Kn Go i :
  procs_ok decode recs procs In Kn Go -> is_Some (procs !! i) ->
  procs_ok decode recs procs In (<[i := tt]> Kn) Go.
Proof. intros [] Hi. split; try done. intros j. rewrite lookup_insert. case_decide; [by subst|eauto]. Qed.

Lemma procs_ok_gone recs procs In Kn Go i :
  procs_ok decode recs procs In Kn Go -> gone_in procs i ->
  procs_ok decode recs procs In Kn (<[i := tt]> Go).
Proof. intros [] Hi. split; try done. intros j. rewrite lookup_insert. case_decide; [by subst|eauto]. Qed.

(** A record is written for an instance, over one that speaks of no other living instance. *)
Lemma procs_ok_write recs procs In Kn Go n b r i :
  procs_ok decode recs procs In Kn Go -> decode n b = Ok r -> record_instance r = i -> is_Some (procs !! i) ->
  kept_name_new (kept_name n) = Ok n ->
  (forall j, recorded decode recs n j -> gone_in procs j \/ j = i) ->
  (In !! i = Some InstNew \/ In !! i = Some (InstHome n)) ->
  procs_ok decode (<[n := b]> recs) procs (<[i := InstHome n]> In) Kn Go.
Proof.
  intros [Pg Pk Prec Pr Pi Ph] Hd Hr Hi Hn Hold Hin.
  assert (Hnew : recorded decode (<[n := b]> recs) n i) by (exists b, r; by rewrite lookup_insert_eq).
  assert (Hrec : forall m j, m <> n -> recorded decode (<[n := b]> recs) m j <-> recorded decode recs m j).
  { intros m j Hm. unfold recorded. by setoid_rewrite lookup_insert_ne; [|done]. }
  split; [done|done|..].
  - intros m j. destruct (decide (m = n)) as [->|Hm].
    + intros (b' & r' & E & E' & <-). rewrite lookup_insert_eq in E. injection E as <-.
      assert (r' = r) as -> by congruence. by rewrite Hr.
    + rewrite Hrec; [|done]. apply Prec.
  - intros j Hj. destruct (Pr j Hj) as [m Hm]. rewrite lookup_insert. case_decide; eauto.
  - intros j. rewrite lookup_insert. case_decide; [by subst|eauto].
  - intros j m. rewrite lookup_insert. case_decide as Hji.
    + subst j. by intros [= ->].
    + intros E. destruct (Ph j m E) as [Hm Hl]. split; [done|]. intros Hlive.
      destruct (decide (m = n)) as [->|]; [|by apply Hrec; auto].
      exfalso. destruct (Hold j (Hl Hlive)) as [Hg| ->]; [by eapply live_gone|done].
Qed.

(** A record that speaks of no living instance is removed. *)
Lemma procs_ok_remove recs procs In Kn Go n :
  procs_ok decode recs procs In Kn Go -> (forall j, recorded decode recs n j -> gone_in procs j) ->
  procs_ok decode (delete n recs) procs In Kn Go.
Proof.
  intros [Pg Pk Prec Pr Pi Ph] Hold.
  assert (Hsub : forall m j, recorded decode (delete n recs) m j -> recorded decode recs m j).
  { intros m j (b & r & [_ Hb]%lookup_delete_Some & Hr). by exists b, r. }
  split; [done|done|eauto|done|done|]. intros j m E. destruct (Ph j m E) as [Hm Hl]. split; [done|].
  intros Hlive. specialize (Hl Hlive). destruct (decide (m = n)) as [->|].
  - by destruct (live_gone _ _ Hlive (Hold j Hl)).
  - destruct Hl as (b & r & Hb & Hr). exists b, r. by rewrite lookup_delete_ne.
Qed.
End Procs.

(** ** The steps *)

(** Takes the client's interpretation [Hc] apart, and puts it together again. *)
Ltac open_client :=
  iDestruct "Hc" as "(%A & %L & %Ph & %Inn & %Kn & %Go & %De & %Ce & (HA & HL & %Hao) & (HPh & HDe & %Hco) & (HIn & HKn & HGo & #Hhomes & %Hpo) & (HCe & %Hid & Hcells) & (Hheld & %Hha) & %Hret)".
Ltac close_client :=
  iExists _, _, _, _, _, _, _, _; iFrame "HA HL HPh HDe HIn HKn HGo Hhomes HCe Hcells Hheld"; iPureIntro; split_and!; try done.

Section Steps.
Context {Σ : gFunctors} `{!keptGS Σ} `{HS : KeptStore} {decode : KeptName -> string -> result KeptRecord KeptError}.
Context `{!KeptStoreSpec Σ decode}.

Abbreviation SI := (kept_interp store_interp client).

(** A step that leaves the directory alone is a step of the client. *)
Lemma client_step (P : iProp Σ) (f : World -> World) D w :
  w_fs (f w) = w_fs w ->
  (∀ claims recs used, client D claims recs used w ==∗ client D claims recs used (f w) ∗ P) -∗
  SI D w ==∗ SI D (f w) ∗ P.
Proof.
  iIntros (Hf) "H (%claims & %recs & %used & Hs & Hc)". iMod ("H" with "Hc") as "[Hc $]". iModIntro.
  iExists claims, recs, used. rewrite Hf. iFrame.
Qed.

(** *** Locks *)

Lemma client_new_arc D claims recs used w a n c :
  a ∉ D -> phase_is c (PhaseRaw a n) -∗ client D claims recs used w ==∗
  client D claims recs used (new_arc a (mkKeptLock n c) w).1 ∗
  ∃ v, arc_is (w_next w) a (mkKeptLock n c) ∗ arc_held (w_next w) ∗ phase_is c (PhaseOwn n v).
Proof.
  iIntros (Ha) "Hph Hc". open_client.
  iDestruct (ghost_map_lookup with "HPh Hph") as %Hc.
  pose proof (co_raw _ _ _ _ _ _ _ _ Hco _ _ _ Hc Ha) as Hclaim.
  destruct (arcs_ok_fresh _ _ _ _ _ _ _ Hao) as (HAn & HLn & _).
  iMod (fixed_map_insert _ _ (w_next w) (a, mkKeptLock n c) with "HA") as "[HA #$]"; [done|].
  iMod (ghost_map_insert (w_next w) true with "HL") as "[HL $]"; [done|].
  iMod (ghost_map_update (PhaseOwn n (recs !! n)) with "HPh Hph") as "[HPh Hph]".
  iModIntro. iSplitR "Hph"; [|by iExists _]. close_client.
  - apply arcs_ok_insert; [by apply arcs_ok_phase|done|]. cbn. rewrite lookup_insert_eq. eauto.
  - eapply claims_ok_phase; [done|exact Hc|cbn; intros a' n' Hn'|done].
    rewrite Hclaim in Hn'. by simplify_eq.
  - split; cbn; intros ? Hj; apply Hid in Hj; lia.
Qed.

Lemma client_clone D claims recs used w a t lock :
  a ∉ D -> arc_is t a lock -∗ arc_held t -∗ client D claims recs used w ==∗
  client D claims recs used (clone_arc t w).1 ∗ arc_held t ∗ arc_is (w_next w) a lock ∗ arc_held (w_next w).
Proof.
  iIntros (Ha) "#Hi Ht Hc". open_client.
  iDestruct (fixed_map_agree with "HA Hi") as %HAt. iDestruct (ghost_map_lookup with "HL Ht") as %HLt.
  pose proof (ao_live _ _ _ _ _ _ _ Hao _ _ _ HLt HAt Ha) as Hat.
  destruct (arcs_ok_fresh _ _ _ _ _ _ _ Hao) as (HAn & HLn & _).
  iMod (fixed_map_insert _ _ (w_next w) (a, lock) with "HA") as "[HA #$]"; [done|].
  iMod (ghost_map_insert (w_next w) true with "HL") as "[HL $]"; [done|].
  iModIntro. iFrame "Ht". unfold clone_arc. rewrite Hat. cbn [fst]. close_client.
  - apply arcs_ok_insert; [done|by eapply ao_claim|by eapply ao_phase].
  - split; cbn; intros ? Hj; apply Hid in Hj; lia.
Qed.

(** The same of a lock that some other value keeps: what is cloned may turn out to be nothing. *)
Definition arc_maybe (t : nat) : iProp Σ := arc_held t ∨ arc_none t.

Lemma client_clone_known D claims recs used w a t lock :
  arc_is t a lock -∗ client D claims recs used w ==∗
  client D claims recs used (clone_arc t w).1 ∗ arc_is (w_next w) a lock ∗ arc_maybe (w_next w).
Proof.
  iIntros "#Hi Hc". open_client.
  iDestruct (fixed_map_agree with "HA Hi") as %HAt.
  destruct (arcs_ok_fresh _ _ _ _ _ _ _ Hao) as (HAn & HLn & _).
  iMod (fixed_map_insert _ _ (w_next w) (a, lock) with "HA") as "[HA #$]"; [done|].
  unfold clone_arc. destruct (w_arcs w !! t) as [arc|] eqn:Hat; cbn [fst].
  - pose proof (lookup_weaken _ _ _ _ Hat (ao_known _ _ _ _ _ _ _ Hao)) as E.
    assert (arc = (a, lock)) as -> by congruence.
    iMod (ghost_map_insert (w_next w) true with "HL") as "[HL Hl]"; [done|]. iModIntro.
    iSplitR "Hl"; [|by iLeft]. close_client.
    + apply arcs_ok_insert; [done|by eapply ao_claim|by eapply ao_phase].
    + split; cbn; intros ? Hj; apply Hid in Hj; lia.
  - iMod (ghost_map_insert (w_next w) false with "HL") as "[HL Hl]"; [done|]. iModIntro.
    iSplitR "Hl"; [|by iRight]. close_client.
    + by apply arcs_ok_insert_none.
    + split; cbn; intros ? Hj; apply Hid in Hj; lia.
Qed.

(** Dropping a lock closes its description with the last entry. *)
Lemma interp_drop_arc D w a t lock :
  a ∉ D -> arc_is t a lock -∗ arc_held t -∗ SI D w ==∗ SI D (drop_arc t w).
Proof.
  iIntros (Ha) "#Hi Ht (%claims & %recs & %used & Hs & Hc)". open_client.
  iDestruct (fixed_map_agree with "HA Hi") as %HAt. iDestruct (ghost_map_lookup with "HL Ht") as %HLt.
  pose proof (ao_live _ _ _ _ _ _ _ Hao _ _ _ HLt HAt Ha) as Hat.
  pose proof (arcs_ok_drop _ _ _ _ _ _ _ _ _ _ Hao Hat) as Hao'. cbn zeta in Hao'.
  iMod (ghost_map_delete with "HL Ht") as "HL". unfold drop_arc. rewrite Hat.
  destruct (decide (map_Exists _ _)) as [Hex|Hex].
  - iModIntro. iExists claims, recs, used. iFrame "Hs". close_client.
  - iMod (interp_close _ _ _ _ (lock_guard lock) with "Hs") as "Hs". iModIntro.
    iExists (delete (lock_guard lock) claims), recs, used. iFrame "Hs". close_client.
    apply claims_ok_drop; [done|]. intros b m E.
    destruct (ao_phase _ _ _ _ _ _ _ Hao _ _ _ Hat) as (ph & E' & Hne). apply (Hne b m). congruence.
Qed.

Lemma interp_drop_maybe D w a t lock :
  a ∉ D -> arc_is t a lock -∗ arc_maybe t -∗ SI D w ==∗ SI D (drop_arc t w).
Proof.
  iIntros (Ha) "#Hi [Ht|Ht] Hs"; [by iApply (interp_drop_arc with "Hi Ht")|].
  iDestruct "Hs" as "(%claims & %recs & %used & Hs & Hc)". open_client.
  iDestruct (ghost_map_lookup with "HL Ht") as %HLt. iModIntro.
  unfold drop_arc. rewrite (ao_none _ _ _ _ _ _ _ Hao _ HLt). iExists claims, recs, used. iFrame "Hs". close_client.
Qed.

(** What an entry in hand says of the world. *)
Lemma client_arc D claims recs used w a t lock :
  a ∉ D -> arc_is t a lock -∗ arc_held t -∗ client D claims recs used w -∗
  ⌜w_arcs w !! t = Some (a, lock) /\ claims !! lock_guard lock = Some (a, lock_name lock)⌝.
Proof.
  iIntros (Ha) "#Hi Ht Hc". open_client.
  iDestruct (fixed_map_agree with "HA Hi") as %HAt. iDestruct (ghost_map_lookup with "HL Ht") as %HLt.
  iPureIntro. pose proof (ao_live _ _ _ _ _ _ _ Hao _ _ _ HLt HAt Ha) as Hat. split; [done|].
  by eapply ao_claim.
Qed.

Lemma client_arc_none D claims recs used w t :
  arc_none t -∗ client D claims recs used w -∗ ⌜w_arcs w !! t = None⌝.
Proof.
  iIntros "Ht Hc". open_client. iDestruct (ghost_map_lookup with "HL Ht") as %HLt.
  iPureIntro. by eapply ao_none.
Qed.

(** *** Processes *)

Lemma client_procs D claims recs used w i st :
  (forall In Kn Go, procs_ok decode recs (w_procs w) In Kn Go ->
     procs_ok decode recs (<[i := st]> (w_procs w)) In Kn Go /\ procs_le (w_procs w) (<[i := st]> (w_procs w))) ->
  client D claims recs used w -∗ client D claims recs used (set_stage i st w).
Proof.
  iIntros (Hst) "Hc". open_client. destruct (Hst _ _ _ Hpo) as [Hpo' Hle]. close_client.
  - by eapply claims_ok_procs.
  - eapply Forall_impl; [exact Hret|]. intros r. by apply return_ok_le.
Qed.

(** Any process may end. *)
Lemma client_end D claims recs used w i :
  client D claims recs used w -∗ client D claims recs used (end_process i w).
Proof.
  unfold end_process. destruct (w_procs w !! i) eqn:E; [|by iIntros "$"].
  apply client_procs. intros In Kn Go H. apply procs_ok_stage; [done|eauto|by left].
Qed.

Lemma client_open_gate D claims recs used w i n :
  inst_home i n -∗ client D claims recs used w -∗ client D claims recs used (open_gate i w).
Proof.
  iIntros "#Hi Hc". open_client. iDestruct (ghost_map_lookup with "HIn Hi") as %Hin. unfold open_gate.
  destruct (w_procs w !! i) as [[a| |]|] eqn:E; try by close_client.
  destruct (procs_ok_stage decode recs (w_procs w) Inn Kn Go i StageRunning) as [Hpo' Hle]; [done|eauto|..].
  { right. split; [done|]. split; [by exists (StageGated a)|eauto]. }
  close_client.
  - by eapply claims_ok_procs.
  - eapply Forall_impl; [exact Hret|]. intros r. by apply return_ok_le.
Qed.

Lemma client_fork D claims recs used w a i :
  client D claims recs used w ==∗
  client D claims recs used (fork_gated a i w).1 ∗
  if (fork_gated a i w).2 then inst_new i ∗ known i else True.
Proof.
  iIntros "Hc". unfold fork_gated. destruct (w_procs w !! i) eqn:E; [by iFrame "Hc"|]. cbn [fst snd].
  open_client. destruct (procs_ok_fork decode _ _ _ _ _ i a Hpo E) as [Hin Hpo'].
  iMod (ghost_map_insert i InstNew with "HIn") as "[HIn $]"; [done|].
  iMod (fixed_map_mark _ _ i with "HKn") as "[HKn #$]". iModIntro.
  iDestruct (big_sepM_insert_2 home_mark Inn i InstNew with "[//] Hhomes") as "#Hhomes'". iClear "Hhomes". iRename "Hhomes'" into "Hhomes".
  assert (Hle : procs_le (w_procs w) (<[i := StageGated a]> (w_procs w))).
  { apply procs_le_insert. unfold gone_in. congruence. }
  close_client.
  - by eapply claims_ok_procs.
  - eapply Forall_impl; [exact Hret|]. intros r. by apply return_ok_le.
Qed.

(** A known instance that is seen gone is gone for good. *)
Lemma client_gone D claims recs used w i :
  is_gone i w = true -> known i -∗ client D claims recs used w ==∗ client D claims recs used w ∗ gone i.
Proof.
  iIntros (Hg) "#Hk Hc". open_client. iDestruct (fixed_map_agree with "HKn Hk") as %HK.
  apply is_gone_spec in Hg; [|by eapply po_known; eauto].
  iMod (fixed_map_mark _ _ i with "HGo") as "[HGo #$]". iModIntro. close_client. by apply procs_ok_gone.
Qed.

(** *** Cells *)

Definition cell_for (j : nat) (g : Purpose) : iProp Σ := j ↪[cells_name]□ g.

Lemma client_new_cell D claims recs used w g :
  client D claims recs used w ==∗ client D claims recs used (new_cell w).1 ∗ cell_for (w_next w) g.
Proof.
  iIntros "Hc". open_client.
  assert (Hj : w_next w ∉ dom (w_cells w) /\ w_next w ∉ dom Ce).
  { split; intros Hin; [pose proof (proj1 Hid (w_next w) (or_introl Hin))
                       |pose proof (proj1 Hid (w_next w) (or_intror Hin))]; lia. }
  destruct Hj as [Hj1 Hj2]. apply not_elem_of_dom in Hj1, Hj2.
  iMod (fixed_map_insert _ _ (w_next w) g with "HCe") as "[HCe #$]"; [done|]. iModIntro.
  iAssert ([∗ map] j ↦ st ∈ <[w_next w := CellOpen]> (w_cells w), cell_res j st)%I with "[Hcells]" as "Hcells".
  { rewrite big_sepM_insert; [|done]. by iFrame. }
  close_client.
  - by apply arcs_ok_bump.
  - split; cbn.
    + intros j. rewrite !dom_insert. intros [Hj|Hj]; apply elem_of_union in Hj as [Hj|Hj].
      * apply elem_of_singleton in Hj. lia.
      * pose proof (proj1 Hid j (or_introl Hj)). lia.
      * apply elem_of_singleton in Hj. lia.
      * pose proof (proj1 Hid j (or_intror Hj)). lia.
    + intros k Hk. apply Hid in Hk. lia.
Qed.

(** A cell changes, with what it holds. *)
Lemma client_set_cell D claims recs used w j st :
  is_Some (w_cells w !! j) -> cell_res j st -∗ client D claims recs used w -∗
  client D claims recs used (set_cells (<[j := st]> (w_cells w)) w).
Proof.
  iIntros ([st0 Hj]) "Hst Hc". open_client.
  iAssert ([∗ map] j ↦ st ∈ <[j := st]> (w_cells w), cell_res j st)%I with "[Hcells Hst]" as "Hcells".
  { rewrite big_sepM_insert_delete. iFrame "Hst". rewrite (big_sepM_delete _ _ _ _ Hj).
    by iDestruct "Hcells" as "[_ $]". }
  close_client. split; cbn; [|exact (proj2 Hid)]. intros k. rewrite dom_insert_lookup; [|eauto]. apply (proj1 Hid).
Qed.

Lemma client_delete_cell D claims recs used w j st :
  w_cells w !! j = Some st -> client D claims recs used w -∗
  client D claims recs used (set_cells (delete j (w_cells w)) w) ∗ cell_res j st.
Proof.
  iIntros (Hj) "Hc". open_client. rewrite (big_sepM_delete _ _ _ _ Hj).
  iDestruct "Hcells" as "[$ Hcells]". close_client. split; cbn; [|exact (proj2 Hid)].
  intros k. rewrite dom_delete. intros [Hk|Hk]; apply (proj1 Hid); [left; set_solver|by right].
Qed.

(** The locks in a purpose belong to the owner that runs the task. *)
Definition purpose_of (a : nat) (g : Purpose) : Prop := match g with PurposeLock b _ => b = a | _ => True end.

Lemma interp_drop_value D w a g v :
  a ∉ D -> purpose_of a g -> purpose_done g v -∗ SI D w ==∗ SI D (drop_value v w).
Proof.
  iIntros (Ha Hg) "Hv Hs". destruct v as [[[t|]|e]|r|r|r|r]; try by iFrame.
  destruct g as [b n|lock v|n ab|hs|lock i| |lock v]; cbn in Hg |- *; try done. subst b.
  iDestruct "Hv" as (lock v) "(#Hi & Ht & _)". iApply (interp_drop_arc with "Hi Ht Hs"). done.
Qed.

Lemma interp_deliver D w a j g v :
  a ∉ D -> purpose_of a g -> cell_for j g -∗ purpose_done g v -∗ SI D w ==∗ SI D (deliver j v w).
Proof.
  iIntros (Ha Hg) "#Hj Hv Hs". unfold deliver.
  destruct (w_cells w !! j) as [[]|] eqn:E; try by iApply (interp_drop_value with "Hv Hs").
  iDestruct "Hs" as "(%claims & %recs & %used & Hs & Hc)". iModIntro. iExists claims, recs, used. iFrame "Hs".
  iApply (client_set_cell with "[Hv] Hc"); [eauto|]. iExists g. by iFrame "Hv Hj".
Qed.

Lemma client_take_cell D claims recs used w {X} (work : Work X) j g w' o :
  take_cell j work w = Some (w', o) ->
  cell_for j g -∗ client D claims recs used w -∗ client D claims recs used w' ∗
  match o with
  | Some r => purpose_done g (inject_value work r)
  | None => purpose_refused g
  end.
Proof.
  iIntros (Ht) "#Hj Hc". unfold take_cell in Ht. destruct (w_cells w !! j) as [[|v| |]|] eqn:E; simplify_eq.
  - destruct (project_value work v) as [r|] eqn:Ep; simplify_eq. apply project_value_Some in Ep as ->.
    iDestruct (client_delete_cell _ _ _ _ _ _ _ E with "Hc") as "[$ (%g' & Hj' & Hv)]".
    by iDestruct (ghost_map_elem_agree with "Hj Hj'") as %->.
  - iDestruct (client_delete_cell _ _ _ _ _ _ _ E with "Hc") as "[$ (%g' & Hj' & Hv)]".
    by iDestruct (ghost_map_elem_agree with "Hj Hj'") as %->.
Qed.

Lemma interp_close_cell D w a j g :
  a ∉ D -> purpose_of a g -> cell_for j g -∗ SI D w ==∗ SI D (close_cell j w).
Proof.
  iIntros (Ha Hg) "#Hj (%claims & %recs & %used & Hs & Hc)". unfold close_cell.
  destruct (w_cells w !! j) as [[|v| |]|] eqn:E.
  - iModIntro. iExists claims, recs, used. iFrame "Hs". iApply (client_set_cell with "[] Hc"); [eauto|done].
  - iDestruct (client_delete_cell _ _ _ _ _ _ _ E with "Hc") as "[Hc (%g' & Hj' & Hv)]".
    iDestruct (ghost_map_elem_agree with "Hj Hj'") as %<-.
    iApply (interp_drop_value with "Hv [Hs Hc]"); [done..|]. iExists claims, recs, used. iFrame.
  - iModIntro. iExists claims, recs, used. iFrame "Hs". by iDestruct (client_delete_cell _ _ _ _ _ _ _ E with "Hc") as "[$ _]".
  - iModIntro. iExists claims, recs, used. iFrame.
  - iModIntro. iExists claims, recs, used. iFrame.
Qed.

(** What a task's closure owns: its lock. *)
Definition captured_res (a : nat) {X} (work : Work X) : iProp Σ :=
  match captured work with Some h => ∃ lock, arc_is h a lock ∗ arc_maybe h | None => True end.

Lemma interp_refuse D w a {X} (work : Work X) j g :
  a ∉ D -> cell_for j g -∗ captured_res a work -∗ purpose_refused g -∗ SI D w ==∗ SI D (refuse j work w).
Proof.
  iIntros (Ha) "#Hj Hcap Hr Hs". unfold refuse, drop_captured, captured_res.
  iAssert (|==> SI D (match captured work with Some h => drop_arc h w | None => w end))%I with "[Hcap Hs]" as ">Hs".
  { destruct (captured work) as [h|]; [|by iFrame]. iDestruct "Hcap" as (lock) "[#Hi Ht]".
    by iApply (interp_drop_maybe with "Hi Ht Hs"). }
  set (w1 := match captured work with Some h => drop_arc h w | None => w end).
  iModIntro. destruct (w_cells w1 !! j) as [[]|] eqn:E; try done.
  iDestruct "Hs" as "(%claims & %recs & %used & Hs & Hc)". iExists claims, recs, used. iFrame "Hs".
  iApply (client_set_cell with "[Hr] Hc"); [eauto|]. iExists g. by iFrame "Hr Hj".
Qed.

(** *** Phases *)

(** The record under an owned claim speaks of no living instance but [o]. *)
Definition settled (n : KeptName) (v : option string) (o : option KeptLaunch) : iProp Σ :=
  match v with
  | None => True
  | Some bytes =>
      match decode n bytes with
      | Ok r => ⌜o = Some (record_instance r)⌝ ∨ gone (record_instance r)
      | Err _ => True
      end
  end.

#[global] Instance settled_persistent n v o : Persistent (settled n v o).
Proof. unfold settled. destruct v as [b|]; [destruct (decode n b)|]; apply _. Qed.

Lemma client_share D claims recs used w lock v o :
  own_claim lock v -∗ settled (lock_name lock) v o -∗ client D claims recs used w ==∗
  client D claims recs used w ∗ shared (lock_guard lock) (lock_name lock) o ∗
  store_writer (lock_guard lock) (lock_name lock).
Proof.
  iIntros "[Hph $] #Hset Hc". open_client. iDestruct (ghost_map_lookup with "HPh Hph") as %Hc.
  iMod (ghost_map_update (PhaseShared (lock_name lock) o) with "HPh Hph") as "[HPh Hph]".
  iMod (ghost_map_elem_persist with "Hph") as "#$".
  iAssert (⌜forall i, recs !! lock_name lock = v -> recorded decode recs (lock_name lock) i ->
    o = Some i \/ gone_in (w_procs w) i⌝)%I as %Hold.
  { iIntros (i Hv (b & r & Hb & Hr & <-)). rewrite Hb in Hv. subst v. cbn. rewrite Hr.
    iDestruct "Hset" as "[%|Hg]"; [by iLeft|]. iDestruct (fixed_map_agree with "HGo Hg") as %Hg.
    iPureIntro. right. apply (po_gone _ _ _ _ _ _ Hpo). eauto. }
  iModIntro. close_client.
  - by apply arcs_ok_phase.
  - eapply claims_ok_phase; [done|exact Hc|cbn; intros a' n' Hn'|done].
    destruct (co_own _ _ _ _ _ _ _ _ Hco _ _ _ _ _ Hc Hn') as [-> Hv]. split; [done|]. intros i. by apply Hold.
Qed.

(** *** Values in callers' hands, and what was returned *)

Lemma client_hold D claims recs used w a kp :
  a ∉ D -> process_res a kp -∗ client D claims recs used w -∗ client D claims recs used (hold a kp w).
Proof.
  iIntros (Ha) "Hkp Hc". open_client.
  assert (Hk : w_held w !! w_next w = None).
  { apply not_elem_of_dom. intros Hin. apply Hid in Hin. lia. }
  iAssert ([∗ map] k ↦ h ∈ <[w_next w := mkHeldProcess a kp 0]> (w_held w), held_res h)%I with "[Hheld Hkp]" as "Hheld".
  { rewrite big_sepM_insert; [|done]. iFrame. }
  close_client.
  - by apply arcs_ok_bump.
  - split; cbn.
    + intros j Hj. apply Hid in Hj. lia.
    + intros k. rewrite dom_insert elem_of_union elem_of_singleton. intros [->|Hk'%Hid]; lia.
  - intros k h. cbn. rewrite lookup_insert. case_decide; [by intros [= <-]|apply Hha].
Qed.

Lemma held_alive_update D held k h h' :
  held_alive D held -> held !! k = Some h -> held_owner h' = held_owner h -> held_alive D (<[k := h']> held).
Proof. intros H Hk E j x. rewrite lookup_insert. case_decide; [intros [= <-]; rewrite E|]; by eapply H. Qed.

Lemma held_alive_subseteq D held held' : held_alive D held -> held' ⊆ held -> held_alive D held'.
Proof. intros H Hs k h Hk. eapply H. by eapply lookup_weaken. Qed.

Lemma process_res_info a kp : process_res a kp ⊢ process_info a kp.
Proof. iIntros "(%lock & #Hi & _ & %Hn & %Hr & #Hsh & #Hk & _)". iExists lock. by iFrame "Hi Hsh Hk". Qed.

Lemma client_borrow D claims recs used w a k w' kp :
  borrow a k w = Some (w', kp) -> client D claims recs used w -∗ client D claims recs used w' ∗ process_info a kp.
Proof.
  iIntros (Hb) "Hc". unfold borrow in Hb. destruct (w_held w !! k) as [h|] eqn:Hk; [|done].
  case_decide as Ho; [|done]. simplify_eq. open_client.
  rewrite (big_sepM_delete _ _ _ _ Hk). iDestruct "Hheld" as "[Hh Hheld]".
  iSplit; [|by iApply process_res_info].
  iAssert ([∗ map] k' ↦ h' ∈ <[k := mkHeldProcess (held_owner h) (held_process h) (S (held_borrows h))]> (w_held w),
    held_res h')%I with "[Hheld Hh]" as "Hheld".
  { rewrite big_sepM_insert_delete. by iFrame. }
  close_client.
  - split; cbn; [exact (proj1 Hid)|]. intros k'. rewrite dom_insert_lookup; [|eauto]. apply (proj2 Hid).
  - by eapply held_alive_update.
Qed.

Lemma client_give_back D claims recs used w k :
  client D claims recs used w -∗ client D claims recs used (give_back k w).
Proof.
  iIntros "Hc". unfold give_back. destruct (w_held w !! k) as [h|] eqn:Hk; [|done]. open_client.
  iAssert ([∗ map] k' ↦ h' ∈ <[k := mkHeldProcess (held_owner h) (held_process h) (Nat.pred (held_borrows h))]> (w_held w),
    held_res h')%I with "[Hheld]" as "Hheld".
  { rewrite big_sepM_insert_delete (big_sepM_delete _ _ _ _ Hk). iDestruct "Hheld" as "[Hh Hheld]". by iFrame. }
  close_client.
  - split; cbn; [exact (proj1 Hid)|]. intros k'. rewrite dom_insert_lookup; [|eauto]. apply (proj2 Hid).
  - by eapply held_alive_update.
Qed.

Lemma client_move_out D claims recs used w a k w' kp :
  move_out a k w = Some (w', kp) -> client D claims recs used w -∗ client D claims recs used w' ∗ process_res a kp.
Proof.
  iIntros (Hb) "Hc". unfold move_out in Hb. destruct (w_held w !! k) as [h|] eqn:Hk; [|done].
  case_decide as Ho; [|done]. destruct Ho as [<- _]. simplify_eq. open_client.
  rewrite (big_sepM_delete _ _ _ _ Hk). iDestruct "Hheld" as "[$ Hheld]".
  close_client.
  - split; cbn; [exact (proj1 Hid)|]. intros k'. rewrite dom_delete. intros Hk'. apply (proj2 Hid). set_solver.
  - eapply held_alive_subseteq; [done|apply delete_subseteq].
Qed.

Lemma client_log D claims recs used w r :
  return_ok (w_procs w) r -> client D claims recs used w -∗ client D claims recs used (log_return r w).
Proof.
  iIntros (Hr) "Hc". open_client. close_client. cbn. apply Forall_app. split; [done|]. by constructor.
Qed.

(** *** An owner dies *)

Lemma interp_die D w a : SI D w ==∗ SI ({[a]} ∪ D) (owner_dies a w).
Proof.
  iIntros "(%claims & %recs & %used & Hs & Hc)". open_client.
  iMod (interp_exit _ _ _ _ a with "Hs") as "Hs". iModIntro.
  iExists _, recs, used. iFrame "Hs".
  iAssert ([∗ map] k ↦ h ∈ filter (fun h => held_owner h.2 <> a) (w_held w), held_res h)%I with "[Hheld]" as "Hheld".
  { iApply (big_sepM_subseteq with "Hheld"). apply map_filter_subseteq. }
  close_client.
  - by apply arcs_ok_die.
  - by apply claims_ok_die.
  - split; cbn; [exact (proj1 Hid)|]. intros k Hk. apply (proj2 Hid).
    eapply subseteq_dom; [|exact Hk]. apply map_filter_subseteq.
  - intros k h [Hk Hne]%map_lookup_filter_Some. cbn in Hne. specialize (Hha k h Hk). set_solver.
Qed.
End Steps.
