(* ===== verification/KeptWork.v ===== *)
(** * KeptWork: the blocking tasks of the kept-process service

    Each closure that the service hands to [spawn_blocking] meets its purpose
    ([work_*]), among arbitrary other operations on the store and whatever becomes of
    its caller; [blocking_spec] is what the caller may rely on. *)

From iris.proofmode Require Import proofmode.
From iris.base_logic.lib Require Import ghost_map.
From stdpp Require Import base list gmap strings.
From S2P Require Import Prelude StdModel Values KeptDomain Ports Conc Ownership FileSystem KeptState KeptStore.
From S2P Require Import KeptStoreSpec KeptDirectory Kept KeptInv KeptSteps.

Open Scope Z_scope.

Section Work.
Context {Σ : gFunctors} `{!keptGS Σ} `{HS : KeptStore} {decode : KeptName -> string -> result KeptRecord KeptError}.
Context `{!KeptStoreSpec Σ decode}.

Abbreviation SI := (kept_interp store_interp client).

(** What a task is trusted with: to run, without tasks of its own. *)
Definition kept_task (a : nat) (t : KeptTask) : iProp Σ :=
  kowp SI (fun _ _ => False%I) a (kept_body a t) (fun _ => True%I) True%I.

Section Calls.
Context (task : nat -> KeptTask -> iProp Σ).
Abbreviation kwp := (kowp SI task).

(** ** The client's update at the one step of each store operation *)

Lemma client_take D claims recs used w a n c :
  c ∉ used -> (forall c' a', claims !! c' <> Some (a', n)) ->
  client D claims recs used w ==∗
  client D (<[c := (a, n)]> claims) recs ({[c]} ∪ used) w ∗ phase_is c (PhaseRaw a n).
Proof.
  iIntros (Hc Hn) "Hc". open_client.
  assert (HPh : Ph !! c = None).
  { apply not_elem_of_dom. intros Hin. apply Hc. by apply (co_used _ _ _ _ _ _ _ _ Hco). }
  iMod (ghost_map_insert c (PhaseRaw a n) with "HPh") as "[HPh $]"; [done|]. iModIntro. close_client.
  - by apply arcs_ok_phase_raw.
  - by apply claims_ok_take.
Qed.

Lemma client_view_known D claims recs used w n :
  client D claims recs used w ==∗ client D claims recs used w ∗ view_known (view_of decode recs n).
Proof.
  iIntros "Hc". unfold view_of. destruct (recs !! n) as [b|] eqn:Eb; [|by iFrame "Hc"].
  destruct (decode n b) as [r|e] eqn:Er; [|by iFrame "Hc"]. cbn [view_known]. open_client.
  assert (Hk : is_Some (w_procs w !! record_instance r)).
  { eapply po_recorded; [exact Hpo|]. exists b, r. by split_and!. }
  iMod (fixed_map_mark _ _ (record_instance r) with "HKn") as "[HKn #$]". iModIntro. close_client.
  by apply procs_ok_known.
Qed.

(** Under an owned claim the record is what the owner knows, unless the claim is dead. *)
Lemma client_own_view D claims recs used w lock v :
  phase_half (lock_guard lock) (PhaseOwn (lock_name lock) v) -∗ client D claims recs used w ==∗
  client D claims recs used w ∗ phase_half (lock_guard lock) (PhaseOwn (lock_name lock) v) ∗
  (⌜recs !! lock_name lock = v⌝ ∨ dead (lock_guard lock)).
Proof.
  iIntros "Hph Hc". open_client. iDestruct (ghost_map_lookup with "HPh Hph") as %Hc. iFrame "Hph".
  destruct (claims !! lock_guard lock) as [[b m]|] eqn:E.
  - destruct (co_own _ _ _ _ _ _ _ _ Hco _ _ _ _ _ Hc E) as [_ Hv]. iModIntro. iSplitL; [close_client|by iLeft].
  - iMod (fixed_map_mark _ _ (lock_guard lock) with "HDe") as "[HDe #Hd]". iModIntro.
    iSplitL; [|by iRight]. close_client. apply claims_ok_mark_dead; [done..|].
    apply (co_used _ _ _ _ _ _ _ _ Hco). by apply elem_of_dom_2 in Hc.
Qed.

(** An instance at home is gone, or its record is there. *)
Lemma client_home D claims recs used w i n :
  inst_home i n -∗ client D claims recs used w ==∗ client D claims recs used w ∗
  (gone i ∨ ⌜recorded decode recs n i /\ kept_name_new (kept_name n) = Ok n⌝).
Proof.
  iIntros "#Hi Hc". open_client. iDestruct (ghost_map_lookup with "HIn Hi") as %Hin.
  destruct (po_home _ _ _ _ _ _ Hpo _ _ Hin) as [Hn Hl].
  destruct (po_inst _ _ _ _ _ _ Hpo i) as [st Est]; [eauto|].
  destruct (decide (st = StageGone)) as [->|Hst].
  - iMod (fixed_map_mark _ _ i with "HGo") as "[HGo #Hg]". iModIntro. iSplitL; [|by iLeft].
    close_client. by apply procs_ok_gone.
  - iModIntro. iSplitL; [close_client|]. iRight. iPureIntro. split; [|done]. apply Hl. by exists st.
Qed.

Lemma client_homes {X} D claims recs used w (l : list X) (f : X -> KeptLaunch) (n : X -> KeptName) :
  ([∗ list] x ∈ l, inst_home (f x) (n x)) -∗ client D claims recs used w ==∗ client D claims recs used w ∗
  [∗ list] x ∈ l, gone (f x) ∨ ⌜recorded decode recs (n x) (f x) /\ kept_name_new (kept_name (n x)) = Ok (n x)⌝.
Proof.
  iIntros "Hl Hc". iInduction l as [|x l] "IH"; [by iFrame "Hc"|]. iDestruct "Hl" as "[Hx Hl]".
  iMod (client_home with "Hx Hc") as "[Hc $]". iApply ("IH" with "Hl Hc").
Qed.

(** A record of a living claim is written: the first of a new instance. *)
Lemma client_write_new D claims recs used w a lock v b r i :
  claims !! lock_guard lock = Some (a, lock_name lock) ->
  decode (lock_name lock) b = Ok r -> record_instance r = i -> kept_name_new (kept_name (lock_name lock)) = Ok (lock_name lock) ->
  settled (decode := decode) (lock_name lock) v None -∗ phase_is (lock_guard lock) (PhaseOwn (lock_name lock) v) -∗
  inst_new i -∗ client D claims recs used w ==∗
  client D claims (<[lock_name lock := b]> recs) used w ∗
  phase_is (lock_guard lock) (PhaseOwn (lock_name lock) (Some b)) ∗ inst_home i (lock_name lock).
Proof.
  iIntros (Ha Hd Hr Hn) "#Hset Hph Hi Hc". open_client.
  iDestruct (ghost_map_lookup with "HPh Hph") as %Hc. iDestruct (ghost_map_lookup with "HIn Hi") as %Hin.
  destruct (co_own _ _ _ _ _ _ _ _ Hco _ _ _ _ _ Hc Ha) as [_ Hv].
  iAssert (⌜forall j, recorded decode recs (lock_name lock) j -> gone_in (w_procs w) j⌝)%I as %Hold.
  { iIntros (j (b' & r' & Hb & Hr' & <-)). rewrite Hb in Hv. subst v. cbn. rewrite Hr'.
    iDestruct "Hset" as "[%|Hg]"; [done|]. iDestruct (fixed_map_agree with "HGo Hg") as %Hg.
    iPureIntro. apply (po_gone _ _ _ _ _ _ Hpo). eauto. }
  iMod (ghost_map_update (PhaseOwn (lock_name lock) (Some b)) with "HPh Hph") as "[HPh $]".
  iMod (ghost_map_update (InstHome (lock_name lock)) with "HIn Hi") as "[HIn Hi]".
  iMod (ghost_map_elem_persist with "Hi") as "#Hi". iFrame "Hi". iModIntro.
  iDestruct (big_sepM_insert_2 home_mark Inn i (InstHome (lock_name lock)) with "Hi Hhomes") as "#Hhomes'".
  iClear "Hhomes". iRename "Hhomes'" into "Hhomes". close_client.
  - by apply arcs_ok_phase.
  - assert (E : Some b = <[lock_name lock := b]> recs !! lock_name lock) by (by rewrite lookup_insert_eq).
    rewrite E. eapply claims_ok_write; [done|exact Hc|eauto|]. intros m Hm. by rewrite lookup_insert_ne.
  - eapply procs_ok_write; [done|exact Hd|done| |done| |by left].
    + eapply po_inst; [exact Hpo|]. eauto.
    + intros j Hj. left. by apply Hold.
Qed.

(** ... and another one of the same instance. *)
Lemma client_write_same D claims recs used w a lock b0 r0 b r i :
  claims !! lock_guard lock = Some (a, lock_name lock) ->
  decode (lock_name lock) b0 = Ok r0 -> record_instance r0 = i ->
  decode (lock_name lock) b = Ok r -> record_instance r = i ->
  phase_is (lock_guard lock) (PhaseOwn (lock_name lock) (Some b0)) -∗
  inst_home i (lock_name lock) -∗ client D claims recs used w ==∗
  client D claims (<[lock_name lock := b]> recs) used w ∗
  phase_is (lock_guard lock) (PhaseOwn (lock_name lock) (Some b)).
Proof.
  iIntros (Ha Hd0 Hr0 Hd Hr) "Hph #Hi Hc". open_client.
  iDestruct (ghost_map_lookup with "HPh Hph") as %Hc. iDestruct (ghost_map_lookup with "HIn Hi") as %Hin.
  destruct (co_own _ _ _ _ _ _ _ _ Hco _ _ _ _ _ Hc Ha) as [_ Hv].
  destruct (po_home _ _ _ _ _ _ Hpo _ _ Hin) as [Hn _].
  iMod (ghost_map_update (PhaseOwn (lock_name lock) (Some b)) with "HPh Hph") as "[HPh $]". iModIntro.
  assert (Hpo' : procs_ok decode (<[lock_name lock := b]> recs) (w_procs w) Inn Kn Go).
  { rewrite <- (insert_id Inn i (InstHome (lock_name lock))); [|done].
    eapply procs_ok_write; [done|exact Hd|done| |done| |by right].
    + eapply po_inst; [exact Hpo|]. eauto.
    + intros j (b' & r' & Hb & Hr' & <-). right. rewrite Hv in Hb. injection Hb as <-.
      assert (r' = r0) as -> by congruence. done. }
  close_client.
  - by apply arcs_ok_phase.
  - assert (E : Some b = <[lock_name lock := b]> recs !! lock_name lock) by (by rewrite lookup_insert_eq).
    rewrite E. eapply claims_ok_write; [done|exact Hc|eauto|]. intros m Hm. by rewrite lookup_insert_ne.
Qed.

(** The instance a shared claim is settled on is gone. *)
Definition removable (o : option KeptLaunch) : iProp Σ := match o with Some i => gone i | None => True end.

Lemma client_remove D claims recs used w a lock o :
  claims !! lock_guard lock = Some (a, lock_name lock) ->
  shared (lock_guard lock) (lock_name lock) o -∗ removable o -∗ client D claims recs used w -∗
  client D claims (delete (lock_name lock) recs) used w.
Proof.
  iIntros (Ha) "#Hsh #Hg Hc". open_client. iDestruct (ghost_map_lookup with "HPh Hsh") as %Hc.
  destruct (co_shared _ _ _ _ _ _ _ _ Hco _ _ _ _ _ Hc Ha) as [_ Hold].
  iAssert (⌜forall i, o = Some i -> gone_in (w_procs w) i⌝)%I as %Hgone.
  { iIntros (i ->). cbn. iDestruct (fixed_map_agree with "HGo Hg") as %Hg. iPureIntro.
    apply (po_gone _ _ _ _ _ _ Hpo). eauto. }
  close_client.
  - by eapply claims_ok_remove.
  - apply procs_ok_remove; [done|]. intros j Hj. destruct (Hold j Hj) as [E|?]; [by apply Hgone|done].
Qed.

(** ** The tasks *)

Lemma work_lock a n :
  ⊢ kwp a (run_work a (WorkLock n)) (fun r => purpose_done (PurposeLock a n) (ValueLock r)) True%I.
Proof.
  iApply owp_bind. iApply law_lock; [apply client_ignores_fs|]. iSplit; [|iSplit].
  - iIntros (e). by iApply owp_ret.
  - by iApply owp_ret.
  - iIntros (c D claims recs used w Ha Hc Hn) "Hw Hc".
    iMod (client_take with "Hc") as "[$ Hph]"; [done..|]. iModIntro. clear.
    iApply owp_bind. iApply owp_act. iIntros (D w Ha).
    iApply (client_step _ (fun w => (new_arc a (mkKeptLock n c) w).1)); [done|]. iIntros (claims recs used) "Hc". iMod (client_new_arc with "Hph Hc") as "[$ (%v & #Hi & Ht & Hph)]"; [done|].
    iModIntro. iApply owp_ret. iExists (mkKeptLock n c), v. by iFrame "Hi Ht Hph Hw".
Qed.

Lemma work_read a lock v :
  phase_half (lock_guard lock) (PhaseOwn (lock_name lock) v)
  ⊢ kwp a (run_work a (WorkRead (lock_name lock))) (fun r => purpose_done (PurposeRead lock v) (ValueRead r)) True%I.
Proof.
  iIntros "Hph". cbn [run_work]. iApply law_read; [apply client_ignores_fs|]. iSplit.
  - iIntros (e). iFrame "Hph". iSplit; [done|]. iRight. iLeft. iPureIntro. eauto.
  - iIntros (D claims recs used w Ha) "Hc". iMod (client_own_view with "Hph Hc") as "(Hc & Hph & Hv)".
    iMod (client_view_known _ _ _ _ _ (lock_name lock) with "Hc") as "[$ #Hk]". iModIntro. iSplit.
    + iIntros (e). iFrame "Hph". iSplit; [done|]. iRight. iLeft. iPureIntro. eauto.
    + iFrame "Hph Hk". iDestruct "Hv" as "[%Hv|Hd]"; [iLeft|by do 2 iRight].
      iPureIntro. unfold view_of, bytes_view. by rewrite Hv.
Qed.

Lemma work_see a n about :
  ([∗ list] i ∈ about, inst_home i n)
  ⊢ kwp a (run_work a (WorkRead n)) (fun r => purpose_done (PurposeSee n about) (ValueRead r)) True%I.
Proof.
  iIntros "Hl". cbn [run_work]. iApply law_read; [apply client_ignores_fs|]. iSplit.
  - iIntros (e). by iSplit.
  - iIntros (D claims recs used w Ha) "Hc".
    iMod (client_homes _ _ _ _ _ about id (fun _ => n) with "Hl Hc") as "[Hc Hl]".
    iMod (client_view_known _ _ _ _ _ n with "Hc") as "[$ #Hk]". iModIntro. iSplit.
    + iIntros (e). by iSplit.
    + iFrame "Hk". unfold view_of. destruct (recs !! n) as [b|] eqn:Eb; [destruct (decode n b) as [r|e] eqn:Er|].
      2: done.
      * iApply (big_sepL_impl with "Hl"). iIntros "!>" (k i _) "[$|%Hr]". iRight. iPureIntro.
        destruct Hr as [(b' & r' & Hb & Hr & Hi) _]. exists r'. split; [|done]. congruence.
      * iApply (big_sepL_impl with "Hl"). iIntros "!>" (k i _) "[$|%Hr]". iRight. iPureIntro.
        destruct Hr as [(b' & r' & Hb & _) _]. congruence.
Qed.

Lemma work_names a homes :
  ([∗ list] h ∈ homes, inst_home h.1 h.2)
  ⊢ kwp a (run_work a WorkNames) (fun r => purpose_done (PurposeNames homes) (ValueNames r)) True%I.
Proof.
  iIntros "Hl". cbn [run_work]. iApply law_names; [apply client_ignores_fs|]. iSplit; [by iIntros (e)|].
  iIntros (D claims recs used w Ha) "Hc". iMod (client_homes _ _ _ _ _ homes fst snd with "Hl Hc") as "[$ Hl]".
  iModIntro. iIntros (names Hnames). iApply (big_sepL_impl with "Hl"). iIntros "!>" (k h _) "[$|%Hr]". iRight.
  iPureIntro. destruct Hr as [(b & r & Hb & _) Hn]. apply Hnames; [done|]. rewrite Hb. eauto.
Qed.

(** The lock behind a handle in hand. *)
Lemma with_lock_spec a {X} t lock (use : KeptLock -> KProg (result X KeptError)) Φ Ψ :
  arc_is t a lock -∗ arc_held t -∗ (arc_held t -∗ kwp a (use lock) Φ Ψ) -∗ kwp a (with_lock t use) Φ Ψ.
Proof.
  iIntros "#Hi Ht H". iApply owp_bind. iApply owp_reads.
  iIntros (D w Ha) "(%claims & %recs & %used & Hs & Hc)".
  iDestruct (client_arc with "Hi Ht Hc") as %[Hat _]; [done|]. iModIntro. rewrite Hat.
  iSplitL "Hs Hc"; [iExists claims, recs, used; iFrame|by iApply "H"].
Qed.

Lemma drop_arc_spec a t lock Φ Ψ :
  arc_is t a lock -∗ arc_held t -∗ Φ tt -∗ kwp a (modify (drop_arc t)) Φ Ψ.
Proof.
  iIntros "#Hi Ht H". iApply owp_modify. iIntros (D w Ha) "Hs". iFrame "H".
  by iApply (interp_drop_arc with "Hi Ht Hs").
Qed.

Lemma work_remove a t lock o :
  arc_is t a lock -∗ arc_maybe t -∗ shared (lock_guard lock) (lock_name lock) o -∗ removable o -∗
  kwp a (run_work a (WorkRemove t)) (fun r => purpose_done PurposeRemove (ValueUnit r)) True%I.
Proof.
  iIntros "#Hi [Ht|Ht] #Hsh #Hg"; cbn [run_work]; iApply owp_bind.
  - iApply (with_lock_spec with "Hi Ht"). iIntros "Ht". iApply law_remove; [apply client_ignores_fs|]. iSplit.
    { iIntros (e). iApply owp_bind. iApply (drop_arc_spec with "Hi Ht"). by iApply owp_ret. }
    iIntros (D claims recs used w Ha) "Hc". iDestruct (client_arc with "Hi Ht Hc") as %[_ Hcl]; [done|].
    iModIntro. iSplitL "Hc"; [by iApply (client_remove with "Hsh Hg Hc")|]. iIntros (res _).
    iApply owp_bind. iApply (drop_arc_spec with "Hi Ht"). by iApply owp_ret.
  - iApply owp_bind. iApply owp_reads. iIntros (D w Ha) "(%claims & %recs & %used & Hs & Hc)".
    iDestruct (client_arc_none with "Ht Hc") as %Hat. iModIntro. rewrite Hat.
    iSplitL "Hs Hc"; [iExists claims, recs, used; iFrame|]. iApply owp_ret.
    iApply owp_bind. iApply owp_modify. iIntros (D' w' Ha') "Hs".
    iMod (interp_drop_maybe with "Hi [Ht] Hs") as "$"; [done|by iRight|]. iModIntro. by iApply owp_ret.
Qed.

(** A write under an owned claim: the update at the step that publishes. *)
Lemma store_write_spec a t lock v r R (Φ : result unit KeptError -> iProp Σ) Ψ :
  lock_name lock = rec_name r -> record_valid r ->
  arc_is t a lock -∗ arc_held t -∗ own_claim lock v -∗ R -∗
  (∀ b D claims recs used w, ⌜decode (lock_name lock) b = Ok r⌝ -∗
     ⌜claims !! lock_guard lock = Some (a, lock_name lock)⌝ -∗ R -∗
     phase_is (lock_guard lock) (PhaseOwn (lock_name lock) v) -∗ client D claims recs used w ==∗
     client D claims (<[lock_name lock := b]> recs) used w ∗
     phase_is (lock_guard lock) (PhaseOwn (lock_name lock) (Some b)) ∗
     (arc_held t -∗ own_claim lock (Some b) -∗ ∀ res, ⌜store_result res⌝ -∗ Φ res)) ∧
  (∀ e, arc_held t -∗ own_claim lock v -∗ R -∗ Φ (Err (KeptStoreFailed e))) -∗
  kwp a (store_write lock r) Φ Ψ.
Proof.
  iIntros (Hn Hr) "#Hi Ht [Hph Hw] HR H".
  iApply (law_write client task a lock r
    (arc_is t a lock ∗ arc_held t ∗ phase_is (lock_guard lock) (PhaseOwn (lock_name lock) v) ∗ R)%I Φ Ψ);
    [apply client_ignores_fs|done|done| |].
  { iIntros (D claims recs used w Ha) "(#Hi & Ht & _) Hc".
    iDestruct (client_arc with "Hi Ht Hc") as %[_ Hcl]; [done|]. by rewrite -Hn. }
  rewrite -Hn. iFrame "Hi Ht Hph HR Hw". iSplit.
  - iIntros (e) "(_ & Ht & Hph & HR) Hw". iDestruct "H" as "[_ H]". iApply ("H" with "Ht [Hph Hw] HR"). by iFrame.
  - iIntros (b D claims recs used w Hd Ha) "(_ & Ht & Hph & HR) Hc".
    iDestruct (client_arc with "Hi Ht Hc") as %[_ Hcl]; [done|]. iDestruct "H" as "[H _]".
    iMod ("H" with "[//] [//] HR Hph Hc") as "($ & Hph & H)". iModIntro. iIntros (res Hres) "Hw".
    iApply ("H" with "Ht [Hph Hw] [//]"). by iFrame.
Qed.

Lemma work_write a t lock b0 r0 r i :
  lock_name lock = rec_name r -> record_valid r -> record_instance r = i ->
  decode (lock_name lock) b0 = Ok r0 -> record_instance r0 = i ->
  arc_is t a lock -∗ arc_held t -∗ own_claim lock (Some b0) -∗ inst_home i (lock_name lock) -∗
  kwp a (run_work a (WorkWrite t r)) (fun res => purpose_done (PurposeWrite lock i) (ValueUnit res)) True.
Proof.
  iIntros (Hn Hr Hri Hd0 Hr0) "#Hi Ht Hown #Hh". cbn [run_work]. iApply owp_bind.
  iApply (with_lock_spec with "Hi Ht"). iIntros "Ht".
  iApply (store_write_spec _ _ _ _ _ True%I with "Hi Ht Hown [//]"); [done..|]. iSplit.
  - iIntros (b D claims recs used w Hd Hcl) "_ Hph Hc".
    iMod (client_write_same with "Hph Hh Hc") as "[$ $]"; [done..|]. iModIntro.
    iIntros "Ht Hown" (res _). iApply owp_bind. iApply (drop_arc_spec with "Hi Ht"). iApply owp_ret.
    iExists b, r. by iFrame "Hown".
  - iIntros (e) "Ht Hown _". iApply owp_bind. iApply (drop_arc_spec with "Hi Ht"). iApply owp_ret.
    iExists b0, r0. by iFrame "Hown".
Qed.

(** ** The launch *)

Lemma end_process_spec a i (Φ : unit -> iProp Σ) Ψ :
  known i -∗ (gone i -∗ Φ tt) -∗ kwp a (modify (end_process i)) Φ Ψ.
Proof.
  iIntros "#Hk H". iApply owp_modify. iIntros (D w Ha) "(%claims & %recs & %used & Hs & Hc)".
  iDestruct (client_end _ _ _ _ _ i with "Hc") as "Hc".
  assert (Hfs : w_fs (end_process i w) = w_fs w) by (unfold end_process; by destruct (w_procs w !! i)).
  iAssert (|==> client D claims recs used (end_process i w) ∗ gone i)%I with "[Hc]" as ">[Hc Hg]".
  { iApply (client_gone with "Hk Hc"). unfold end_process, is_gone.
    destruct (w_procs w !! i) eqn:E; [by cbn; rewrite lookup_insert_eq|by rewrite E]. }
  iModIntro. iSplitR "H Hg"; [|by iApply "H"]. iExists claims, recs, used. rewrite Hfs. iFrame.
Qed.
(** What the commit closure leaves: the new record, or (only if it failed) the old one. *)
Definition committed (lock : KeptLock) (i : KeptLaunch) : iProp Σ :=
  ∃ b r, own_claim lock (Some b) ∗ ⌜decode (lock_name lock) b = Ok r /\ record_instance r = i⌝ ∗
    inst_home i (lock_name lock).

Lemma commit_spec a t lock v r i :
  lock_name lock = rec_name r -> record_valid r ->
  arc_is t a lock -∗ arc_held t -∗ own_claim lock v -∗ settled (decode := decode) (lock_name lock) v None -∗ inst_new i -∗
  kwp a (commit_record t r i)
    (fun res => committed lock i ∨ ⌜exists e, res = Err e⌝ ∗ own_claim lock v) True%I.
Proof.
  iIntros (Hn Hr) "#Hi Ht Hown #Hset Hnew". iApply owp_bind.
  iApply (with_lock_spec with "Hi Ht"). iIntros "Ht".
  iApply (store_write_spec _ _ _ _ _ (inst_new i) with "Hi Ht Hown Hnew"); [done|done|]. iSplit.
  - iIntros (b D claims recs used w Hd Hcl) "Hnew Hph Hc".
    iMod (client_write_new with "Hset Hph Hnew Hc") as "($ & $ & #Hh)"; [done|exact Hd|by destruct i|..].
    { rewrite Hn. apply Hr. }
    iModIntro. iIntros "Ht Hown" (res _). iApply owp_bind. iApply (drop_arc_spec with "Hi Ht"). iApply owp_ret.
    iLeft. iExists b, _. iFrame "Hown Hh". iPureIntro. split; [exact Hd|by destruct i].
  - iIntros (e) "Ht Hown _". iApply owp_bind. iApply (drop_arc_spec with "Hi Ht"). iApply owp_ret.
    iRight. iFrame "Hown". eauto.
Qed.

(** A launch that failed left no record of a living instance. *)
Lemma committed_gone lock v i e :
  committed lock i -∗ gone i -∗ purpose_done (decode := decode) (PurposeLaunch lock v) (ValueLaunch (Err e)).
Proof.
  iIntros "(%b & %r & Hown & [%Hd <-] & _) #Hg". iExists (Some b). iFrame "Hown". iRight. cbn. by rewrite Hd.
Qed.

Lemma work_launch a t lock v spec log r :
  lock_name lock = rec_name r -> record_valid r ->
  arc_is t a lock -∗ arc_held t -∗ own_claim lock v -∗ settled (decode := decode) (lock_name lock) v None -∗
  kwp a (run_work a (WorkLaunch spec log t r)) (fun res => purpose_done (PurposeLaunch lock v) (ValueLaunch res)) True%I.
Proof.
  iIntros (Hn Hr) "#Hi Ht Hown #Hset". cbn [run_work]. unfold launcher_launch. iApply owp_bind. iApply owp_call.
  iIntros (D w [i|text] Ha) "$"; iModIntro.
  2: { iApply owp_bind. iApply (drop_arc_spec with "Hi Ht"). iApply owp_ret. iExists v. iFrame "Hown". by iLeft. }
  iApply owp_bind. iApply owp_act. clear D w Ha. iIntros (D w Ha).
  iApply (client_step _ (fun w => (fork_gated a i w).1)).
  { unfold fork_gated. by destruct (w_procs w !! i). }
  iIntros (claims recs used) "Hc". iMod (client_fork _ _ _ _ _ a i with "Hc") as "[$ Hf]". iModIntro.
  destruct (fork_gated a i w).2; cbn [negb].
  2: { iApply owp_bind. iApply (drop_arc_spec with "Hi Ht"). iApply owp_ret. iExists v. iFrame "Hown". by iLeft. }
  iDestruct "Hf" as "[Hnew #Hk]".
  iApply (owp_seq with "[Ht Hown Hnew]"); [by iApply (commit_spec with "Hi Ht Hown Hset Hnew")|].
  iSplit; [|by iIntros "$"]. iIntros (res) "[Hcm|[[%e ->] Hown]]".
  2: { iApply owp_bind. iApply (end_process_spec with "Hk"). iIntros "_". iApply owp_ret. iExists v. iFrame "Hown". by iLeft. }
  destruct res as [[]|e].
  2: { iApply owp_bind. iApply (end_process_spec with "Hk"). iIntros "#Hg". iApply owp_ret. by iApply (committed_gone with "Hcm"). }
  iApply owp_bind. iApply owp_call. clear D w Ha. iIntros (D w [[]|text] Ha) "$"; iModIntro.
  2: { iApply owp_bind. iApply (end_process_spec with "Hk"). iIntros "#Hg". iApply owp_ret. by iApply (committed_gone with "Hcm"). }
  iDestruct "Hcm" as "(%b & %r' & Hown & %Hd & #Hh)". iApply owp_bind. iApply owp_modify. clear D w Ha claims recs used. iIntros (D w Ha).
  iApply (client_step _ (open_gate i)).
  { unfold open_gate. by destruct (w_procs w !! i) as [[]|]. }
  iIntros (claims recs used) "Hc". iModIntro. iSplitL "Hc"; [by iApply (client_open_gate with "Hh Hc")|].
  iApply owp_ret. iExists b, r'. by iFrame "Hown Hh Hk".
Qed.
End Calls.

(** ** What a caller may rely on *)

Abbreviation kwp := (kowp SI kept_task).

(** A task that was trusted with its work: it may run, or be refused. *)
Definition entrusted (a : nat) {X} (work : Work X) (g : Purpose) : iProp Σ :=
  kowp SI (fun _ _ => False%I) a (run_work a work) (fun r => purpose_done g (inject_value work r)) True%I ∧
  (captured_res a work ∗ purpose_refused g).

Lemma kept_task_spec a j {X} (work : Work X) g :
  purpose_of a g -> cell_for j g -∗ entrusted a work g -∗ kept_task a (RunWork j work).
Proof.
  iIntros (Hg) "#Hj H". unfold kept_task. cbn [kept_body owp]. iSplit.
  - iIntros (D w Ha) "Hs". iDestruct "H" as "[_ [Hcap Href]]".
    by iMod (interp_refuse with "Hj Hcap Href Hs") as "$".
  - iIntros (D w w' x Ha Hf) "Hs". inversion Hf; simplify_eq. iFrame "Hs". iModIntro.
    iDestruct "H" as "[H _]". iApply (owp_seq with "H"). iSplit; [|by iIntros "$"]. iIntros (r) "Hr".
    iApply owp_modify. iIntros (D2 w2 Ha2) "Hs". by iMod (interp_deliver with "Hj Hr Hs") as "$".
Qed.

Lemma take_cell_fs {X} j (work : Work X) w w' o : take_cell j work w = Some (w', o) -> w_fs w' = w_fs w.
Proof.
  unfold take_cell. destruct (w_cells w !! j) as [[|v| |]|]; intros; simplify_eq; [|done].
  destruct (project_value work v); by simplify_eq.
Qed.

(** A refusal is one of the errors. *)
Definition refusal {X} (g : Purpose) (work : Work X) (refused : string -> KeptError) : Prop :=
  forall text, purpose_refused g ⊢ purpose_done g (inject_value work (Err (refused text))).

Lemma spawn_blocking_spec a {X} (work : Work X) g refused Φ Ψ :
  purpose_of a g -> refusal g work refused -> entrusted a work g -∗
  ((∀ r D w, ⌜a ∉ D⌝ -∗ purpose_done g (inject_value work r) -∗ SI D w ==∗ SI D w ∗ Φ r) ∧ Ψ) -∗
  kwp a (spawn_blocking refused work) Φ Ψ.
Proof.
  iIntros (Hg Href) "Hwork H". iApply owp_bind. iApply owp_act. iIntros (D w Ha).
  iApply (client_step _ (fun w => (new_cell w).1)); [done|]. iIntros (claims recs used) "Hc".
  iMod (client_new_cell with "Hc") as "[$ #Hj]". iModIntro. cbn [snd new_cell].
  iApply owp_bind. iApply owp_fork. iSplitL "Hwork"; [by iApply (kept_task_spec with "Hj")|].
  generalize (w_next w). intros j. cbn [owp]. iSplit.
  - iIntros (D' w' Ha') "Hs". iMod (interp_close_cell with "Hj Hs") as "$"; [done..|]. by iDestruct "H" as "[_ $]".
  - clear D w Ha claims recs used. iIntros (D w w' x Ha Hf) "(%claims & %recs & %used & Hs & Hc)".
    inversion Hf as [Ht]. pose proof (take_cell_fs _ _ _ _ _ Ht) as Hfs.
    iDestruct (client_take_cell _ _ _ _ _ _ _ _ _ _ Ht with "Hj Hc") as "[Hc Hv]".
    iAssert (SI D w') with "[Hs Hc]" as "Hs"; [iExists claims, recs, used; rewrite Hfs; iFrame|].
    iDestruct "H" as "[H _]". destruct x as [r|].
    + iMod ("H" with "[//] Hv Hs") as "[$ H]". iModIntro. by iApply owp_ret.
    + iFrame "Hs". iModIntro. iApply owp_bind. iApply owp_call. iIntros (D2 w2 text Ha2) "Hs".
      iMod ("H" with "[//] [Hv] Hs") as "[$ H]"; [by iApply Href|]. iModIntro. by iApply owp_ret.
Qed.

(** The same when the result is all that is asked for. *)
Lemma spawn_blocking_plain a {X} (work : Work X) g refused Φ Ψ :
  purpose_of a g -> refusal g work refused -> entrusted a work g -∗
  ((∀ r, purpose_done g (inject_value work r) -∗ Φ r) ∧ Ψ) -∗ kwp a (spawn_blocking refused work) Φ Ψ.
Proof.
  iIntros (Hg Href) "Hwork H". iApply (spawn_blocking_spec with "Hwork"); [done..|]. iSplit.
  - iIntros (r D w Ha) "Hv $". iModIntro. iDestruct "H" as "[H _]". by iApply "H".
  - by iDestruct "H" as "[_ $]".
Qed.

Lemma call_lock a n Φ Ψ :
  (∀ t lock v, arc_is t a lock -∗ arc_held t -∗ ⌜lock_name lock = n⌝ -∗ own_claim lock v -∗ Φ (Ok (Some t))) ∧
  Φ (Ok None) ∧ (∀ e, Φ (Err e)) ∧ Ψ
  ⊢ kwp a (blocking (WorkLock n)) Φ Ψ.
Proof.
  iIntros "H". iApply (spawn_blocking_plain _ _ (PurposeLock a n)); [done|by iIntros (text)|..].
  { iSplit; [iApply work_lock|by iSplit]. }
  iSplit; [|by iDestruct "H" as "(_ & _ & _ & $)"]. iIntros (r) "Hv". destruct r as [[t|]|e].
  - iDestruct "Hv" as (lock v) "(#Hi & Ht & Hn & Hown)". iDestruct "H" as "[H _]". iApply ("H" with "Hi Ht Hn Hown").
  - iDestruct "H" as "(_ & $ & _)".
  - iDestruct "H" as "(_ & _ & H & _)". iApply "H".
Qed.

(** Reading under a claim in hand: what is there is what the owner of the claim knows. *)
Lemma call_read a t lock v Φ Ψ :
  arc_is t a lock -∗ arc_held t -∗ own_claim lock v -∗
  ((∀ r, arc_held t -∗ own_claim lock v -∗ view_known r -∗
      ⌜r = bytes_view decode (lock_name lock) v \/ exists e, r = Err (KeptStoreFailed e)⌝ -∗ Φ r) ∧
   (arc_held t -∗ Ψ)) -∗
  kwp a (blocking (WorkRead (lock_name lock))) Φ Ψ.
Proof.
  iIntros "#Hi Ht [[Hph1 Hph2] Hw] H".
  iApply (spawn_blocking_spec _ _ (PurposeRead lock v) with "[Hph1]"); [done|..].
  { iIntros (text) "Hph". iFrame "Hph". iSplit; [done|]. iRight. iLeft. eauto. }
  { iSplit; [by iApply work_read|]. by iFrame "Hph1". }
  iSplit; [|iDestruct "H" as "[_ H]"; by iApply "H"].
  iIntros (r D w Ha) "(Hph1 & #Hk & Hv) (%claims & %recs & %used & Hs & Hc)".
  iAssert (⌜r = bytes_view decode (lock_name lock) v \/ exists e, r = Err (KeptStoreFailed e)⌝)%I as %Hr.
  { iDestruct "Hv" as "[%Hr|[%Hr|Hd]]"; [by iLeft|by iRight|].
    iDestruct (client_arc with "Hi Ht Hc") as %[_ Hcl]; [done|].
    open_client. iDestruct (fixed_map_agree with "HDe Hd") as %Hd.
    destruct (co_dead _ _ _ _ _ _ _ _ Hco (lock_guard lock)); [eauto|congruence]. }
  iModIntro. iSplitL "Hs Hc"; [iExists claims, recs, used; iFrame|]. iDestruct "H" as "[H _]".
  iApply ("H" with "Ht [Hph1 Hph2 Hw] Hk [//]"). iFrame "Hw". iCombine "Hph1 Hph2" as "$".
Qed.

Lemma call_see a n about Φ Ψ :
  ([∗ list] i ∈ about, inst_home i n) -∗
  ((∀ r, view_known r -∗
      match r with
      | Ok o => [∗ list] i ∈ about, gone i ∨ ⌜exists r, o = Some r /\ record_instance r = i⌝
      | Err _ => True
      end -∗ Φ r) ∧ Ψ) -∗
  kwp a (blocking (WorkRead n)) Φ Ψ.
Proof.
  iIntros "#Hl H". iApply (spawn_blocking_plain _ _ (PurposeSee n about)); [done|..].
  { iIntros (text) "_". by iSplit. }
  { iSplit; [by iApply work_see|by iSplit]. }
  iSplit; [|by iDestruct "H" as "[_ $]"]. iIntros (r) "[Hk Hv]". iDestruct "H" as "[H _]". iApply ("H" with "Hk Hv").
Qed.

Lemma call_names a homes Φ Ψ :
  ([∗ list] h ∈ homes, inst_home h.1 h.2) -∗
  ((∀ names, ([∗ list] h ∈ homes, gone h.1 ∨ ⌜h.2 ∈ names⌝) -∗ Φ (Ok names)) ∧ (∀ e, Φ (Err e)) ∧ Ψ) -∗
  kwp a (blocking WorkNames) Φ Ψ.
Proof.
  iIntros "#Hl H". iApply (spawn_blocking_plain _ _ (PurposeNames homes)); [done|by iIntros (text)|..].
  { iSplit; [by iApply work_names|by iSplit]. }
  iSplit; [|by iDestruct "H" as "(_ & _ & $)"]. iIntros ([names|e]) "Hv".
  - iDestruct "H" as "[H _]". by iApply "H".
  - iDestruct "H" as "(_ & H & _)". by iApply "H".
Qed.

Lemma call_write a t lock b0 r0 r i Φ Ψ :
  lock_name lock = rec_name r -> record_valid r -> record_instance r = i ->
  decode (lock_name lock) b0 = Ok r0 -> record_instance r0 = i ->
  arc_is t a lock -∗ arc_held t -∗ own_claim lock (Some b0) -∗ inst_home i (lock_name lock) -∗
  ((∀ res b r, own_claim lock (Some b) -∗ ⌜decode (lock_name lock) b = Ok r /\ record_instance r = i⌝ -∗ Φ res) ∧ Ψ) -∗
  kwp a (blocking (WorkWrite t r)) Φ Ψ.
Proof.
  iIntros (Hn Hr Hri Hd0 Hr0) "#Hi Ht Hown #Hh H".
  iApply (spawn_blocking_plain _ _ (PurposeWrite lock i) with "[Ht Hown]"); [done|by iIntros (text) "$"|..].
  { iSplit; [by iApply (work_write with "Hi Ht Hown Hh")|]. iSplitL "Ht".
    - iExists lock. iFrame "Hi". by iLeft.
    - iExists b0, r0. by iFrame "Hown". }
  iSplit; [|by iDestruct "H" as "[_ $]"]. iIntros (res) "(%b & %r' & Hown & %Hb)". iDestruct "H" as "[H _]".
  by iApply ("H" with "Hown").
Qed.

Lemma call_remove a t lock o Φ Ψ :
  arc_is t a lock -∗ arc_maybe t -∗ shared (lock_guard lock) (lock_name lock) o -∗ removable o -∗
  ((∀ res, Φ res) ∧ Ψ) -∗ kwp a (blocking (WorkRemove t)) Φ Ψ.
Proof.
  iIntros "#Hi Ht #Hsh #Hg H".
  iApply (spawn_blocking_plain _ _ PurposeRemove with "[Ht]"); [done|by iIntros (text)|..].
  { iSplit; [by iApply (work_remove with "Hi Ht Hsh Hg")|]. iSplit; [|done]. iExists lock. by iFrame "Hi". }
  iSplit; [|by iDestruct "H" as "[_ $]"]. iIntros (res) "_". iDestruct "H" as "[H _]". iApply "H".
Qed.

Lemma call_launch a t lock v spec log r Φ Ψ :
  lock_name lock = rec_name r -> record_valid r ->
  arc_is t a lock -∗ arc_held t -∗ own_claim lock v -∗ settled (decode := decode) (lock_name lock) v None -∗
  ((∀ i b r, own_claim lock (Some b) -∗ ⌜decode (lock_name lock) b = Ok r /\ record_instance r = i⌝ -∗
      inst_home i (lock_name lock) -∗ known i -∗ Φ (Ok i)) ∧
   (∀ e v', own_claim lock v' -∗ settled (decode := decode) (lock_name lock) v' None -∗ Φ (Err e)) ∧ Ψ) -∗
  kwp a (spawn_blocking KeptLaunchFailed (WorkLaunch spec log t r)) Φ Ψ.
Proof.
  iIntros (Hn Hr) "#Hi Ht Hown #Hset H".
  iApply (spawn_blocking_plain _ _ (PurposeLaunch lock v) with "[Ht Hown]"); [done|..].
  { iIntros (text) "Hown". iExists v. iFrame "Hown". by iLeft. }
  { iSplit; [by iApply (work_launch with "Hi Ht Hown Hset")|]. iFrame "Hown". iExists lock. iFrame "Hi". by iLeft. }
  iSplit; [|by iDestruct "H" as "(_ & _ & $)"]. iIntros ([i|e]) "Hv".
  - iDestruct "Hv" as (b r') "(Hown & Hb & Hh & Hk)". iDestruct "H" as "[H _]". iApply ("H" with "Hown Hb Hh Hk").
  - iDestruct "Hv" as (v') "[Hown Hv]". iDestruct "H" as "(_ & H & _)". iApply ("H" with "Hown").
    iDestruct "Hv" as "[->|Hg]"; [done|]. unfold settled, bytes_gone. destruct v' as [b|]; [|done].
    destruct (decode (lock_name lock) b); [by iRight|done].
Qed.
End Work.
