(* ===== verification/KeptSafe.v ===== *)
(** * KeptSafe: the operations of the kept-process service keep its invariant

    Each operation of [KeptProcesses] and [KeptProcess] on its own, in separation logic:
    what it needs, what it gives back, and what is left when it is dropped. *)

From iris.proofmode Require Import proofmode.
From iris.base_logic.lib Require Import ghost_map.
From stdpp Require Import base list sorting gmap strings.
From S2P Require Import Prelude StdModel Values KeptDomain Ports Conc Ownership FileSystem KeptState KeptStore.
From S2P Require Import KeptStoreSpec KeptDirectory Kept KeptInv KeptSteps KeptWork.

Open Scope Z_scope.

Section Safe.
Context {Σ : gFunctors} `{!keptGS Σ} `{HS : KeptStore} {decode : KeptName -> string -> result KeptRecord KeptError}.
Context `{!KeptStoreSpec Σ decode}.
Context (label : nat -> string).

Abbreviation SI := (kept_interp store_interp client).
Abbreviation kwp := (kowp SI kept_task).

(** ** Locks in local variables *)

(** A step that only needs the client's part of the state. *)
Lemma open_client_first {A} a (p : KProg A) Φ Ψ :
  acts_first p = true ->
  (∀ D claims recs used w, ⌜a ∉ D⌝ -∗ client D claims recs used w ==∗ client D claims recs used w ∗ kwp a p Φ Ψ) -∗
  kwp a p Φ Ψ.
Proof.
  iIntros (Hp) "H". iApply owp_open; [done|]. iIntros (D w Ha) "(%claims & %recs & %used & Hs & Hc)".
  iMod ("H" with "[//] Hc") as "[Hc $]". iModIntro. iExists claims, recs, used. iFrame.
Qed.

Lemma drops_arc a t lock (P : iProp Σ) : arc_is t a lock -∗ arc_held t -∗ P -∗ drops SI a (drop_arc t) P.
Proof.
  iIntros "#Hi Ht HP" (D w Ha) "Hs". iFrame "HP". by iApply (interp_drop_arc with "Hi Ht Hs").
Qed.

Lemma holding_spec {A} a t lock (moved : A -> bool) p Φ :
  arc_is t a lock -∗ kwp a p (fun r => (if moved r then True else arc_held t) ∗ Φ r) (arc_held t) -∗
  kwp a (holding t moved p) Φ True%I.
Proof.
  iIntros "#Hi Hp". iApply owp_cancel_with. iApply (owp_seq with "Hp"). iSplit.
  - iIntros (r) "[Ht HΦ]". destruct (moved r); [by iApply owp_ret|]. iApply owp_bind.
    iApply (drop_arc_spec with "Hi Ht"). by iApply owp_ret.
  - iIntros "Ht". iModIntro. by iApply (drops_arc with "Hi Ht").
Qed.

(** A claim that was just won. *)
Definition claimed (a : nat) (n : KeptName) (t : nat) : iProp Σ :=
  ∃ lock v, arc_is t a lock ∗ arc_held t ∗ ⌜lock_name lock = n⌝ ∗ own_claim lock v.

Lemma claim_loop_spec a fuel n deadline :
  ⊢ kwp a (claim_loop fuel n deadline) (fun r => match r with Ok t => claimed a n t | Err _ => True end) True%I.
Proof.
  iInduction fuel as [|fuel] "IH"; cbn [claim_loop].
  - iApply owp_wait. iSplit; [done|]. iIntros (D w w' x Ha Hf). by cbn in Hf.
  - iApply owp_bind. iApply call_lock. iSplit; [|iSplit; [|iSplit; [|done]]].
    + iIntros (t lock v) "#Hi Ht %Hn Hown". iApply owp_ret. iExists lock, v. by iFrame "Hi Ht Hown".
    + iApply owp_bind. iApply owp_call. iIntros (D w now Ha) "$". iModIntro.
      destruct (deadline <=? now); [by iApply owp_ret|]. iApply owp_bind. iApply owp_wait. iSplit; [done|].
      iIntros (D' w1 w2 x Ha' Hf) "Hs". cbn in Hf. subst w2. iFrame "Hs". iModIntro. iApply "IH".
    + iIntros (e). by iApply owp_ret.
Qed.

Lemma claim_spec a n :
  ⊢ kwp a (claim n) (fun r => match r with Ok t => claimed a n t | Err _ => True end) True%I.
Proof.
  iApply owp_bind. iApply owp_call. iIntros (D w now Ha) "$". iModIntro. iApply claim_loop_spec.
Qed.

(** ** Attaching *)

Definition attached (r : KeptRecord) (res : result (option KeptLaunch) KeptError) : iProp Σ :=
  match res with
  | Ok (Some i) => ⌜i = record_instance r⌝
  | Ok None => gone (record_instance r)
  | Err _ => True
  end.
#[local] Instance attached_persistent r res : Persistent (attached r res).
Proof. destruct res as [[i|]|e]; apply _. Qed.

Lemma attach_spec a r Φ Ψ :
  known (record_instance r) -∗ ((∀ res, attached r res -∗ Φ res) ∧ Ψ) -∗ kwp a (launcher_attach r) Φ Ψ.
Proof.
  iIntros "#Hk H". iApply owp_bind. iApply owp_wait. iSplit; [by iDestruct "H" as "[_ $]"|].
  iIntros (D w w' seen Ha Hf) "Hs". cbn in Hf. subst w'. iFrame "Hs". iModIntro. iDestruct "H" as "[H _]".
  destruct seen as [seen|e]; [|iApply owp_ret; by iApply "H"]. iApply owp_reads.
  clear D w Ha. iIntros (D w Ha) "(%claims & %recs & %used & Hs & Hc)".
  destruct (is_gone (record_instance r) w) eqn:Hg; cbn [negb orb]; [|].
  - iMod (client_gone with "Hk Hc") as "[Hc #Hgone]"; [done|]. iModIntro.
    iSplitR "H"; [iExists claims, recs, used; iFrame|]. iApply "H". by destruct seen.
  - iModIntro. iSplitR "H"; [iExists claims, recs, used; iFrame|]. by iApply "H".
Qed.

(** ** [start] *)

(** A [KeptProcess] on its way to its caller: its claim is still the program's own. *)
Definition process_new (a : nat) (kp : KeptProcess) : iProp Σ :=
  ∃ lock v, arc_is (kp_lock kp) a lock ∗ arc_held (kp_lock kp) ∗ ⌜lock_name lock = rec_name (kp_record kp)⌝ ∗
    ⌜record_instance (kp_record kp) = kp_target kp⌝ ∗ own_claim lock v ∗
    settled (decode := decode) (lock_name lock) v (Some (kp_target kp)) ∗ known (kp_target kp).

Lemma process_new_share D claims recs used w a kp :
  process_new a kp -∗ client D claims recs used w ==∗ client D claims recs used w ∗ process_res a kp.
Proof.
  iIntros "(%lock & %v & #Hi & Ht & %Hn & %Hr & Hown & #Hset & #Hk) Hc".
  iMod (client_share with "Hown Hset Hc") as "($ & #Hsh & Hw)". iModIntro. iExists lock. by iFrame "Hi Ht Hsh Hk Hw".
Qed.

(** A clone of a lock that is in hand. *)
Lemma clone_spec a t lock Φ Ψ :
  arc_is t a lock -∗ arc_held t -∗ (∀ h, arc_held t -∗ arc_is h a lock -∗ arc_held h -∗ Φ h) -∗
  kwp a (act (clone_arc t)) Φ Ψ.
Proof.
  iIntros "#Hi Ht H". iApply owp_act. iIntros (D w Ha).
  iApply (client_step _ (fun w => (clone_arc t w).1)).
  { unfold clone_arc. by destruct (w_arcs w !! t). }
  iIntros (claims recs used) "Hc". iMod (client_clone with "Hi Ht Hc") as "($ & Ht & Hi' & Ht')"; [done|]. iModIntro.
  assert ((clone_arc t w).2 = w_next w) as ->. { unfold clone_arc. by destruct (w_arcs w !! t). }
  iApply ("H" with "Ht Hi' Ht'").
Qed.

(** A claim that speaks of no living instance is shared, so that its record can be removed. *)
Lemma share_spec {A} a lock v (p : KProg A) Φ Ψ :
  acts_first p = true -> own_claim lock v -∗ settled (decode := decode) (lock_name lock) v None -∗
  (shared (lock_guard lock) (lock_name lock) None -∗ kwp a p Φ Ψ) -∗ kwp a p Φ Ψ.
Proof.
  iIntros (Hp) "Hown #Hset H". iApply open_client_first; [done|]. iIntros (D claims recs used w Ha) "Hc".
  iMod (client_share with "Hown Hset Hc") as "($ & #Hsh & _)". iModIntro. by iApply "H".
Qed.

Lemma record_valid_instance r i : record_valid r -> record_valid (set_instance r i).
Proof. done. Qed.
Lemma record_valid_exe r exe : record_valid r -> record_valid (set_exe r exe).
Proof. done. Qed.

Lemma start_launch_spec a t lock v spec r :
  lock_name lock = rec_name r -> record_valid r ->
  arc_is t a lock -∗ arc_held t -∗ own_claim lock v -∗ settled (decode := decode) (lock_name lock) v None -∗
  kwp a (start_launch spec t r)
    (fun res => match res with
                | Ok kp => process_new a kp ∗
                    ⌜rec_name (kp_record kp) = rec_name r /\ rec_fingerprint (kp_record kp) = rec_fingerprint r⌝
                | Err _ => arc_held t
                end) (arc_held t).
Proof.
  iIntros (Hn Hr) "#Hi Ht Hown #Hset". iApply owp_bind. iApply (clone_spec with "Hi Ht").
  iIntros (h) "Ht #Hih Hh". iApply owp_bind. iApply (call_launch with "Hih Hh Hown Hset"); [done..|].
  iSplit; [|iSplit; [|done]].
  - iIntros (i b r' ) "Hown [%Hd %Hri] #Hhome #Hk". iApply owp_bind. iApply owp_call. iIntros (D w exe Ha) "$". iModIntro.
    iApply owp_bind. iApply owp_bind. iApply (clone_spec with "Hi Ht"). cbn [kp_lock kp_record].
    iIntros (h2) "Ht #Hih2 Hh".
    iApply (call_write with "Hih2 Hh Hown Hhome"); [done| |by destruct i|done..|].
    { by apply record_valid_exe, record_valid_instance. }
    iSplit; [|done]. iIntros (res b2 r2) "Hown [%Hd2 %Hri2]". iApply owp_ret. iSplit; [|done].
    iExists lock, (Some b2). iFrame "Hi Ht Hown Hk". cbn. rewrite Hd2. iSplit; [done|]. iSplit; [by destruct i|].
    iLeft. by rewrite Hri2.
  - iIntros (e v') "Hown #Hset'". iApply owp_bind. iApply (share_spec with "Hown Hset'"); [done|]. iIntros "#Hsh".
    iApply (clone_spec with "Hi Ht"). iIntros (h2) "Ht #Hih2 Hh". iApply owp_bind.
    iApply (call_remove with "Hih2 [Hh] Hsh"); [by iLeft|done|]. iSplit; [|done]. iIntros (res). by iApply owp_ret.
Qed.

Lemma fingerprint_u64 spec revision : 0 <= fp_get (fingerprint_of spec revision) <= u64_max.
Proof. rewrite fingerprint_of_encode. apply fnv_bytes_u64, fnv_new_u64. Qed.

Definition started (a : nat) (spec : KeptSpec) (res : result KeptProcess KeptError) : iProp Σ :=
  match res with
  | Ok kp => process_new a kp ∗
      ⌜rec_name (kp_record kp) = ks_name spec /\ rec_fingerprint (kp_record kp) = kept_fingerprint spec⌝
  | Err _ => True
  end.

(** What [start] learns of the previous record under its claim. *)
Lemma previous_settled n v previous :
  Ok (Some previous) = bytes_view decode n v -> gone (record_instance previous) -∗
  settled (decode := decode) n v None.
Proof.
  iIntros (Hv) "#Hg". destruct v as [b|]; [|done]. cbn in Hv |- *. destruct (decode n b); [|done].
  simplify_eq. by iRight.
Qed.

Lemma start_spec a spec :
  kept_name_new (kept_name (ks_name spec)) = Ok (ks_name spec) ->
  ⊢ kwp a (start label a spec) (started a spec) True%I.
Proof.
  iIntros (Hname). unfold start. destruct (spec_output (ks_spec spec)); [|by iApply owp_ret].
  iApply owp_seq; [iApply claim_spec|]. iSplit; [|by iIntros "$"]. iIntros ([t|e]); [|iIntros "_"; by iApply owp_ret].
  iIntros "(%lock & %v & #Hi & Ht & %Hn & Hown)". iApply (holding_spec with "Hi"). rewrite -Hn.
  iApply owp_bind. iApply (call_read with "Hi Ht Hown"). iSplit; [|by iIntros "$"].
  iIntros (r) "Ht Hown #Hkr %Hr". destruct r as [previous|e]; [|iApply owp_ret; by iFrame].
  destruct Hr as [Hr|[? ?]]; [|done].
  iApply (owp_seq _ _ _ _ _ _ (fun r => arc_held t ∗ own_claim lock v ∗
    match r with Ok _ => settled (decode := decode) (lock_name lock) v None | Err _ => True end)%I (arc_held t)
    with "[Ht Hown]").
  { destruct previous as [previous|].
    - iApply owp_bind. iApply (attach_spec with "Hkr"). iSplit; [|done]. iIntros (res) "#Hres".
      destruct res as [[i|]|e]; iApply owp_ret; iFrame; try done. by iApply previous_settled.
    - iApply owp_ret. iFrame. destruct v as [b|]; [|done]. cbn in Hr |- *. by destruct (decode _ b). }
  iSplit; [|by iIntros "$"]. iIntros ([[]|e]) "(Ht & Hown & #Hset)"; [|iApply owp_ret; by iFrame].
  iApply owp_bind. iApply owp_call. iIntros (D w boot Ha) "$". iModIntro.
  iApply owp_bind. iApply owp_call. clear D w Ha. iIntros (D w now Ha) "$". iModIntro.
  iApply (owp_wand with "[Ht Hown]").
  { iApply (start_launch_spec with "Hi Ht Hown Hset"); [done|]. split; [done|]. apply fingerprint_u64. }
  iSplit; [|by iIntros "$"]. iIntros ([kp|e]) "H"; iModIntro; cbn; [|by iFrame]. by iDestruct "H" as "[$ %]".
Qed.

(** ** [adopt] *)

Definition adopted (a : nat) (n : KeptName) (res : result (option KeptProcess) KeptError) : iProp Σ :=
  match res with
  | Ok (Some kp) => process_new a kp ∗ ⌜rec_name (kp_record kp) = n⌝
  | _ => True
  end.

(** The record of a claim whose instance is gone is removed. *)
Lemma remove_stale a t lock v record Φ :
  Ok (Some record) = bytes_view decode (lock_name lock) v ->
  arc_is t a lock -∗ arc_held t -∗ own_claim lock v -∗ gone (record_instance record) -∗ (∀ res, Φ res) -∗
  kwp a (blocking (WorkRemove t)) Φ True%I.
Proof.
  iIntros (Hr) "#Hi Ht Hown #Hg H". iApply (share_spec with "Hown"); [done|by iApply previous_settled|].
  iIntros "#Hsh". iApply (call_remove with "Hi [Ht] Hsh [//]"); [by iLeft|]. by iSplit.
Qed.

Lemma adopt_spec a n : ⊢ kwp a (adopt n) (adopted a n) True%I.
Proof.
  iApply owp_seq; [iApply claim_spec|]. iSplit; [|by iIntros "$"]. iIntros ([t|e]); [|iIntros "_"; by iApply owp_ret].
  iIntros "(%lock & %v & #Hi & Ht & %Hn & Hown)". rewrite -Hn. iApply (owp_seq _ _ _ _ _ _
    (fun r => match r with
              | Ok (Some (record, target)) => arc_held t ∗ own_claim lock v ∗
                  ⌜Ok (Some record) = bytes_view decode (lock_name lock) v⌝ ∗ known (record_instance record) ∗
                  attached record (Ok target)
              | _ => True
              end)%I True%I with "[Ht Hown]").
  { iApply (holding_spec with "Hi"). iApply owp_bind. iApply (call_read with "Hi Ht Hown"). iSplit; [|by iIntros "$"].
    iIntros (r) "Ht Hown #Hkr %Hr". destruct r as [[record|]|e]; try (iApply owp_ret; by iFrame).
    destruct Hr as [Hr|[? ?]]; [|done]. iApply owp_bind. iApply (attach_spec with "Hkr"). iSplit; [|done].
    iIntros ([target|e]) "#Hres"; iApply owp_ret; cbn; [|by iFrame "Ht"]. iSplit; [done|]. by iFrame "Ht Hown Hkr Hres". }
  iSplit; [|by iIntros "$"]. iIntros ([[[record [target|]]|]|e]) "H"; try by iApply owp_ret.
  - iDestruct "H" as "(Ht & Hown & %Hr & #Hk & ->)". iApply owp_ret.
    destruct v as [b|]; [|done]. cbn in Hr. destruct (decode (lock_name lock) b) as [r'|e] eqn:Hd; [|done].
    simplify_eq. pose proof (decode_names _ _ _ Hd) as Hname. cbn. iSplit; [|done].
    iExists lock, (Some b). iFrame "Hi Ht Hown Hk". cbn. rewrite Hd. iSplit; [done|]. iSplit; [done|]. by iLeft.
  - iDestruct "H" as "(Ht & Hown & %Hr & #Hk & #Hg)". iApply owp_bind.
    iApply (remove_stale with "Hi Ht Hown Hg"); [done|]. iIntros ([]); by iApply owp_ret.
Qed.

(** ** [list] *)

Definition listed (es : list KeptEntry) (i : KeptLaunch) : iProp Σ :=
  gone i ∨ ⌜exists e, e ∈ es /\ record_instance (entry_record e) = i⌝.

Lemma list_dead_spec a n record t :
  claimed a n t -∗ gone (record_instance record) -∗ kwp a (list_dead n record t) (fun _ => True%I) True%I.
Proof.
  iIntros "(%lock & %v & #Hi & Ht & %Hn & Hown) #Hg". rewrite -Hn. iApply (owp_seq _ _ _ _ _ _
    (fun r => match r with
              | Ok None => arc_held t ∗ own_claim lock v ∗ ⌜Ok (Some record) = bytes_view decode (lock_name lock) v⌝
              | _ => True
              end)%I True%I with "[Ht Hown]").
  { iApply (holding_spec with "Hi"). iApply owp_bind. iApply (call_read with "Hi Ht Hown"). iSplit; [|by iIntros "$"].
    iIntros (r) "Ht Hown #Hkr %Hr". destruct r as [current|e]; [|iApply owp_ret; by iFrame].
    destruct Hr as [Hr|[? ?]]; [|done]. destruct (bool_decide _) eqn:Hb.
    - apply bool_decide_eq_true in Hb as ->. iApply owp_ret. cbn. by iFrame "Ht Hown".
    - destruct current as [current|]; [|iApply owp_ret; cbn; by iFrame].
      iApply owp_bind. iApply (attach_spec with "Hkr"). iSplit; [|done].
      iIntros ([target|e]) "_"; iApply owp_ret; cbn; by iFrame. }
  iSplit; [|by iIntros "$"]. iIntros ([[es|]|e]) "H"; try by iApply owp_ret.
  iDestruct "H" as "(Ht & Hown & %Hr)". iApply owp_bind.
  iApply (remove_stale with "Hi Ht Hown Hg"); [done|]. iIntros ([]); by iApply owp_ret.
Qed.

Lemma list_one_spec a n about :
  ([∗ list] i ∈ about, inst_home i n) -∗
  kwp a (list_one n)
    (fun res => match res with Ok es => [∗ list] i ∈ about, listed es i | Err _ => True end)%I True%I.
Proof.
  iIntros "#Hl". iApply owp_bind. iApply (call_see with "Hl"). iSplit; [|done].
  iIntros ([[record|]|e]) "#Hk #Hsee"; [| |by iApply owp_ret].
  2: { iApply owp_ret. iApply (big_sepL_impl with "Hsee"). iIntros "!>" (k i _) "[$|%H]". by destruct H as (? & ? & _). }
  iApply owp_bind. iApply (attach_spec with "Hk"). iSplit; [|done].
  iIntros ([target|e]) "#Hat"; [|by iApply owp_ret]. iApply owp_bind. iApply call_lock.
  (* What is listed in the end. *)
  iAssert (∀ es, ⌜from_option (fun _ => exists e, e ∈ es /\ entry_record e = record) True target⌝ -∗
    [∗ list] i ∈ about, listed es i)%I as "#Hes".
  { iIntros (es He). iApply (big_sepL_impl with "Hsee"). iIntros "!>" (k i _) "[$|%H]".
    destruct H as (r & [= <-] & <-). destruct target as [j|]; [|by iLeft].
    destruct He as (e & Hin & <-). iRight. eauto. }
  iSplit; [|iSplit; [|iSplit; [|done]]].
  - iIntros (t lock v) "#Hi Ht %Hn Hown". destruct target as [j|].
    + iApply owp_bind. iApply (drop_arc_spec with "Hi Ht"). iApply owp_ret. iApply "Hes". iPureIntro.
      exists (mkKeptEntry record false). split; [set_solver|done].
    + iApply (owp_wand with "[Ht Hown]").
      { iApply (list_dead_spec with "[Ht Hown] Hat"). iExists lock, v. by iFrame "Hi Ht Hown". }
      iSplit; [|by iIntros "$"]. iIntros ([es|e]) "_"; iModIntro; [by iApply "Hes"|done].
  - destruct target as [j|]; iApply owp_ret; iApply "Hes"; iPureIntro; [|done].
    exists (mkKeptEntry record true). split; [set_solver|done].
  - iIntros (e). by iApply owp_ret.
Qed.

(** Every instance whose home is known is listed, or gone, once its home was looked at. *)
Lemma list_all_spec a names homes live :
  ([∗ list] h ∈ homes, inst_home h.1 h.2) -∗
  ([∗ list] h ∈ homes, ⌜h.2 ∈ names⌝ ∨ listed live h.1) -∗
  kwp a (list_all names live)
    (fun res => match res with Ok es => [∗ list] h ∈ homes, listed es h.1 | Err _ => True end)%I True%I.
Proof.
  iIntros "#Hl". iInduction names as [|n names] "IH" forall (live); iIntros "#Hn"; cbn [list_all].
  - iApply owp_ret. iApply (big_sepL_impl with "Hn"). iIntros "!>" (k h _) "[%|$]". set_solver.
  - iApply (owp_seq with "[]").
    { iApply (list_one_spec a n (filter (fun h => h.2 = n) homes).*1). iApply big_sepL_intro.
      iIntros "!>" (k i Hk). apply list_elem_of_lookup_2 in Hk.
      apply list_elem_of_fmap in Hk as (h & -> & [<- Hh]%list_elem_of_filter).
      by iApply (big_sepL_elem_of with "Hl"). }
    iSplit; [|by iIntros "$"]. iIntros ([es|e]) "#Hes"; [|by iApply owp_ret]. iApply "IH".
    iApply big_sepL_intro. iIntros "!>" (k h Hk). apply list_elem_of_lookup_2 in Hk.
    iAssert (⌜h.2 ∈ n :: names⌝ ∨ listed live h.1)%I as "[%Hin|Hlive]"; [by iApply (big_sepL_elem_of with "Hn")|..].
    + destruct (decide (h.2 = n)) as [Hh|Hh]; [|iLeft; iPureIntro; set_solver]. iRight.
      iAssert (listed es h.1) as "[$|%He]".
      { iApply (big_sepL_elem_of (fun i => listed es i) with "Hes"). apply list_elem_of_fmap. exists h.
        split; [done|]. by apply list_elem_of_filter. }
      iRight. iPureIntro. destruct He as (e & ? & ?). exists e. split; [set_solver|done].
    + iRight. iDestruct "Hlive" as "[$|%He]". iRight. iPureIntro. destruct He as (e & ? & ?).
      exists e. split; [set_solver|done].
Qed.

Lemma list_kept_spec a homes :
  ([∗ list] h ∈ homes, inst_home h.1 h.2) -∗
  kwp a list_kept
    (fun res => match res with Ok es => [∗ list] h ∈ homes, listed es h.1 | Err _ => True end)%I True%I.
Proof.
  iIntros "#Hl". iApply owp_bind. iApply (call_names with "Hl"). iSplit; [|iSplit; [|done]].
  - iIntros (names) "#Hn". iApply (list_all_spec with "Hl"). iApply (big_sepL_impl with "Hn").
    iIntros "!>" (k h _) "[Hg|%Hin]"; [iRight; by iLeft|iLeft]. by rewrite merge_sort_Permutation.
  - iIntros (e). by iApply owp_ret.
Qed.

(** ** [KeptProcess] *)

Lemma guarded_spec {A} a t lock (p : KProg A) Φ :
  arc_is t a lock -∗ arc_held t -∗ kwp a p Φ True%I -∗ kwp a (guarded (drop_arc t) p) Φ True%I.
Proof.
  iIntros "#Hi Ht Hp". iApply owp_guarded. iApply (owp_wand with "[Ht Hp]"); [iApply (owp_frame with "Ht Hp")|].
  iSplit; [iIntros (v)|]; iIntros "[Ht Hv]"; iModIntro; by iApply (drops_arc with "Hi Ht").
Qed.

#[local] Instance process_info_persistent a kp : Persistent (process_info a kp).
Proof. apply _. Qed.

(** [exited]: once it resolves the instance is gone for good. *)
Lemma wait_gone_spec a i Φ Ψ :
  known i -∗ ((gone i -∗ Φ tt) ∧ Ψ) -∗ kwp a (Wait (when_gone i) id Ret) Φ Ψ.
Proof.
  iIntros "#Hk H". iApply owp_wait. iSplit; [by iDestruct "H" as "[_ $]"|]. iIntros (D w w' [] Ha Hf) "Hs".
  cbn in Hf. destruct (is_gone i w) eqn:Hg; simplify_eq. iDestruct "Hs" as "(%claims & %recs & %used & Hs & Hc)".
  iMod (client_gone with "Hk Hc") as "[Hc #Hgone]"; [done|]. iModIntro.
  iSplitR "H"; [iExists claims, recs, used; iFrame|]. iDestruct "H" as "[H _]". by iApply "H".
Qed.

Lemma exited_within_spec a kp d Φ Ψ :
  known (kp_target kp) -∗
  (((∀ exit, gone (kp_target kp) -∗ Φ (Some exit)) ∧ Φ None) ∧ Ψ) -∗ kwp a (exited_within kp d) Φ Ψ.
Proof.
  iIntros "#Hk H". iApply owp_bind. iApply owp_wait. iSplit; [by iDestruct "H" as "[_ $]"|].
  iIntros (D w w' x Ha Hf) "Hs". destruct x as [[]|[]]; cbn in Hf.
  - destruct (is_gone (kp_target kp) w) eqn:Hg; simplify_eq.
    iDestruct "Hs" as "(%claims & %recs & %used & Hs & Hc)".
    iMod (client_gone with "Hk Hc") as "[Hc #Hgone]"; [done|]. iModIntro.
    iSplitR "H"; [iExists claims, recs, used; iFrame|]. iApply owp_bind. iApply owp_call.
    iIntros (D2 w2 exit Ha2) "$". iModIntro. iApply owp_ret. iDestruct "H" as "[[H _] _]". by iApply "H".
  - subst w'. iFrame "Hs". iModIntro. iApply owp_ret. by iDestruct "H" as "[[_ $] _]".
Qed.

Lemma forget_spec a kp Φ Ψ :
  process_info a kp -∗ gone (kp_target kp) -∗ ((∀ res, Φ res) ∧ Ψ) -∗ kwp a (forget kp) Φ Ψ.
Proof.
  iIntros "(%lock & #Hi & %Hn & %Hr & #Hsh & #Hk) #Hg H". iApply owp_bind. iApply owp_act. iIntros (D w Ha).
  iApply (client_step _ (fun w => (clone_arc (kp_lock kp) w).1)).
  { unfold clone_arc. by destruct (w_arcs w !! kp_lock kp). }
  iIntros (claims recs used) "Hc". iMod (client_clone_known with "Hi Hc") as "($ & #Hi' & Ht)". iModIntro.
  assert ((clone_arc (kp_lock kp) w).2 = w_next w) as ->.
  { unfold clone_arc. by destruct (w_arcs w !! kp_lock kp). }
  iApply (call_remove with "Hi' Ht Hsh Hg H").
Qed.

Definition terminated (kp : KeptProcess) (t : KeptTermination) : iProp Σ :=
  ⌜is_verified (kt_outcome t) = true -> exists exit, kt_exit t = Some exit /\ kexit_stragglers exit = false⌝ ∗
  (⌜kt_exit t = None⌝ ∨ gone (kp_target kp)).

Lemma finish_spec a kp outcome exit :
  process_info a kp -∗ gone (kp_target kp) -∗ kwp a (kept_finish kp outcome (Some exit)) (terminated kp) True%I.
Proof.
  iIntros "#Hinfo #Hg". iApply owp_bind. iApply (forget_spec with "Hinfo Hg"). iSplit; [|done].
  iIntros (res). iApply owp_ret. iSplit; [|iRight; by destruct res].
  iPureIntro. destruct res as [[]|e]; cbn; [|done]. destruct (kexit_stragglers exit) eqn:E; cbn; [done|eauto].
Qed.

Lemma exited_now_spec a i Φ Ψ :
  known i -∗ ((∀ exit, gone i -∗ Φ (Some exit)) ∧ Φ None) -∗ kwp a (target_exited_now i) Φ Ψ.
Proof.
  iIntros "#Hk H". iApply owp_bind. iApply owp_call. iIntros (D w published Ha) "$". iModIntro. clear D w Ha.
  iApply owp_bind. iApply owp_reads. iIntros (D w Ha) "(%claims & %recs & %used & Hs & Hc)".
  destruct (is_gone i w) eqn:Hg; [iMod (client_gone with "Hk Hc") as "[Hc #Hgone]"; [done|]|]; iModIntro;
    (iSplitL "Hs Hc"; [iExists claims, recs, used; iFrame|]).
  - destruct published; cbn [andb]; [|iApply owp_ret; by iDestruct "H" as "[_ $]"].
    iApply owp_bind. iApply owp_call. iIntros (D2 w2 exit Ha2) "$". iModIntro. iApply owp_ret.
    iDestruct "H" as "[H _]". by iApply "H".
  - rewrite andb_false_r. iApply owp_ret. by iDestruct "H" as "[_ $]".
Qed.

Lemma terminate_spec a kp options :
  process_res a kp -∗ kwp a (kept_terminate kp options) (terminated kp) True%I.
Proof.
  iIntros "Hkp". iAssert (process_info a kp) as "#Hinfo"; [by iApply process_res_info|].
  iDestruct "Hkp" as "(%lock & #Hi & Ht & _ & _ & _ & #Hk & _)".
  iApply (guarded_spec with "Hi Ht"). iApply owp_bind. iApply (exited_now_spec with "Hk"). iSplit.
  { iIntros (exit) "#Hg". by iApply finish_spec. }
  iApply owp_bind. iApply owp_wait. iSplit; [done|]. iIntros (D w w' asked Ha Hf) "Hs". cbn in Hf. subst w'.
  iFrame "Hs". iModIntro.
  iApply (owp_seq _ _ _ _ _ _ (fun o => match o with Some _ => gone (kp_target kp) | None => True end)%I True%I with "[]").
  { destruct asked as [[]|]; [|by iApply owp_ret]. iApply (exited_within_spec with "Hk"). iSplit; [|done].
    iSplit; [by iIntros (exit) "$"|done]. }
  iSplit; [|by iIntros "$"]. iIntros ([exit|]) "#Hg"; [by iApply finish_spec|].
  iApply owp_bind. iApply owp_wait. iSplit; [done|]. clear D w Ha asked. iIntros (D w w' asked Ha Hf) "Hs".
  cbn in Hf. subst w'. iFrame "Hs". iModIntro.
  iApply (owp_seq _ _ _ _ _ _ (fun o => match o with Some _ => gone (kp_target kp) | None => True end)%I True%I with "[]").
  { destruct (opt_force_timeout options).
    - iApply (exited_within_spec with "Hk"). iSplit; [|done]. iSplit; [by iIntros (exit) "$"|done].
    - iApply owp_bind. iApply owp_bind. iApply (wait_gone_spec with "Hk"). iSplit; [|done]. iIntros "#Hgone".
      iApply owp_call. iIntros (D2 w2 exit Ha2) "$". iModIntro. by iApply owp_ret. }
  iSplit; [|by iIntros "$"]. iIntros ([exit|]) "#Hg'"; [by iApply finish_spec|]. iApply owp_ret. iSplit; [done|by iLeft].
Qed.

Lemma exited_spec a kp :
  process_info a kp -∗ kwp a (kept_exited kp) (fun _ => gone (kp_target kp)) True%I.
Proof.
  iIntros "#Hinfo". iPoseProof "Hinfo" as "(%lock & _ & _ & _ & _ & #Hk)". iApply owp_bind. iApply owp_bind.
  iApply (wait_gone_spec with "Hk"). iSplit; [|done]. iIntros "#Hg". iApply owp_call.
  iIntros (D w exit Ha) "$". iModIntro. iApply owp_bind. iApply (forget_spec with "Hinfo Hg").
  iSplit; [|done]. iIntros (res). by iApply owp_ret.
Qed.

(** ** The public interface *)

Lemma client_known D claims recs used w i :
  known i -∗ client D claims recs used w -∗ ⌜is_Some (w_procs w !! i)⌝.
Proof.
  iIntros "Hk Hc". open_client. iDestruct (fixed_map_agree with "HKn Hk") as %HK. iPureIntro.
  eapply po_known; [exact Hpo|eauto].
Qed.

Lemma client_gone_in D claims recs used w i :
  gone i -∗ client D claims recs used w -∗ ⌜gone_in (w_procs w) i⌝.
Proof.
  iIntros "Hg Hc". open_client. iDestruct (fixed_map_agree with "HGo Hg") as %HG. iPureIntro.
  eapply po_gone; [exact Hpo|eauto].
Qed.

(** A return that is true when it is logged. *)
Lemma log_spec a r (f : World -> World) (Ψ : iProp Σ) :
  (forall w, w_fs (f w) = w_fs w) -> 
  (∀ D claims recs used w, ⌜a ∉ D⌝ -∗ client D claims recs used w ==∗
     client D claims recs used (f w) ∗ ⌜return_ok (w_procs (f w)) r⌝) -∗
  kwp a (modify (fun w => log_return r (f w))) (fun _ => True%I) Ψ.
Proof.
  iIntros (Hf) "H". iApply owp_modify. iIntros (D w Ha).
  iApply (client_step _ (fun w => log_return r (f w))); [exact (Hf w)|]. iIntros (claims recs used) "Hc".
  iMod ("H" with "[//] Hc") as "[Hc %Hr]". iModIntro. iSplit; [|done]. by iApply client_log.
Qed.

Lemma log_only_spec a r (Ψ : iProp Σ) :
  (∀ D claims recs used w, client D claims recs used w -∗ ⌜return_ok (w_procs w) r⌝) -∗
  kwp a (modify (log_return r)) (fun _ => True%I) Ψ.
Proof.
  iIntros "H". iApply (log_spec _ _ id); [done|]. iIntros (D claims recs used w Ha) "Hc". iModIntro.
  iSplit; [done|]. iApply ("H" with "Hc").
Qed.

Lemma serve_hold_spec a r kp (Ψ : iProp Σ) :
  (forall procs, is_Some (procs !! record_instance (kp_record kp)) -> return_ok procs r) ->
  process_new a kp -∗ kwp a (modify (fun w => log_return r (hold a kp w))) (fun _ => True%I) Ψ.
Proof.
  iIntros (Hr) "Hkp". iApply (log_spec _ _ (hold a kp)); [done|]. iIntros (D claims recs used w Ha) "Hc".
  iMod (process_new_share with "Hkp Hc") as "[Hc Hkp]". iModIntro.
  iAssert (⌜is_Some (w_procs w !! record_instance (kp_record kp))⌝)%I as %Hk.
  { iDestruct "Hkp" as "(%lock & _ & _ & _ & -> & _ & #Hk & _)". by iApply (client_known with "Hk"). }
  iSplit; [by iApply (client_hold with "Hkp Hc")|]. iPureIntro. by apply Hr.
Qed.

Lemma serve_start_spec a spec :
  kept_name_new (kept_name (ks_name spec)) = Ok (ks_name spec) ->
  ⊢ kwp a (serve_start label a spec) (fun _ => True%I) True%I.
Proof.
  iIntros (Hname). iApply owp_seq; [by iApply start_spec|]. iSplit; [|by iIntros "$"].
  iIntros ([kp|e]) "H".
  - iDestruct "H" as "[Hkp [%Hn %Hf]]". iApply (serve_hold_spec with "Hkp"). by intros procs Hk.
  - iApply log_only_spec. by iIntros.
Qed.

Lemma serve_adopt_spec a n : ⊢ kwp a (serve_adopt a n) (fun _ => True%I) True%I.
Proof.
  iApply owp_seq; [by iApply adopt_spec|]. iSplit; [|by iIntros "$"]. iIntros ([[kp|]|e]) "H".
  - iDestruct "H" as "[Hkp %Hn]". iApply (serve_hold_spec with "Hkp"). by intros procs Hk.
  - iApply log_only_spec. by iIntros.
  - iApply log_only_spec. by iIntros.
Qed.

(** The homes of all that runs. *)
Lemma client_running D claims recs used w l :
  (forall i, i ∈ l -> w_procs w !! i = Some StageRunning) -> client D claims recs used w -∗
  ∃ homes, ⌜homes.*1 = l⌝ ∗ [∗ list] h ∈ homes, inst_home h.1 h.2.
Proof.
  iIntros (Hl) "Hc". open_client.
  assert (Hhome : forall i, i ∈ l -> exists n, Inn !! i = Some (InstHome n)).
  { intros i Hi. by apply (po_running _ _ _ _ _ _ Hpo), Hl. }
  iAssert ([∗ map] i ↦ st ∈ Inn, home_mark i st)%I as "#Hm"; [done|]. iClear "∗". iClear "Hhomes". clear Hl.
  iInduction l as [|i l] "IH"; [iExists []; by iSplit|].
  destruct (Hhome i) as [n Hn]; [set_solver|]. iDestruct ("IH" with "[%]") as (homes) "[%Hh #Hhs]"; [intros j Hj; apply Hhome; set_solver|].
  iExists ((i, n) :: homes). cbn. rewrite Hh. iSplit; [done|]. iFrame "Hhs".
  by iDestruct (big_sepM_lookup _ _ _ _ Hn with "Hm") as "$".
Qed.

Lemma live_instances_running w i : i ∈ live_instances w -> w_procs w !! i = Some StageRunning.
Proof. unfold live_instances. by intros [? _]%list_elem_of_filter. Qed.

Lemma serve_list_spec a : ⊢ kwp a (serve_list a) (fun _ => True%I) True%I.
Proof.
  iApply owp_bind. iApply owp_reads. iIntros (D w Ha) "(%claims & %recs & %used & Hs & Hc)".
  iDestruct (client_running _ _ _ _ _ _ (live_instances_running w) with "Hc") as "#(%homes & %Hh & Hhs)". iModIntro.
  iSplitL "Hs Hc"; [iExists claims, recs, used; iFrame|]. generalize dependent (live_instances w). clear D w Ha claims recs used.
  intros alive <-. iApply owp_seq; [by iApply (list_kept_spec with "Hhs")|]. iSplit; [|by iIntros "$"].
  iIntros (res) "#Hres". iApply log_only_spec. iIntros (D claims recs used w) "Hc".
  destruct res as [es|e]; [|done]. cbn [return_ok]. iIntros (i (h & -> & Hin)%list_elem_of_fmap).
  iAssert (listed es h.1) as "[Hg|%He]"; [|iLeft|by iRight].
  { iApply (big_sepL_elem_of (fun h => listed es h.1) homes h Hin with "Hres"). }
  by iApply (client_gone_in with "Hg").
Qed.

Lemma serve_exited_spec a k : ⊢ kwp a (serve_exited a k) (fun _ => True%I) True%I.
Proof.
  iApply owp_bind. iApply owp_wait. iSplit; [done|]. iIntros (D w w' kp Ha Hf) "(%claims & %recs & %used & Hs & Hc)".
  cbn in Hf. assert (Hfs : w_fs w' = w_fs w).
  { revert Hf. unfold borrow. destruct (w_held w !! k); [|done]. case_decide; [|done]. by intros [= <- <-]. }
  iDestruct (client_borrow _ _ _ _ _ _ _ _ _ Hf with "Hc") as "[Hc #Hinfo]". iModIntro.
  iSplitL "Hs Hc"; [iExists claims, recs, used; rewrite Hfs; iFrame|]. clear D w w' Ha Hf Hfs claims recs used.
  iApply owp_guarded. iApply (owp_wand _ _ _ _ _ (fun _ => True)%I _ True%I).
  2: { iSplit; [iIntros (v)|]; iIntros "_"; iModIntro; iIntros (D w Ha);
       iApply (client_step _ (give_back k)); try (unfold give_back; by destruct (w_held w !! k));
       iIntros (claims recs used) "Hc"; iModIntro; (iSplit; [|done]); by iApply client_give_back. }
  iApply owp_seq; [by iApply exited_spec|]. iSplit; [|by iIntros "$"]. iIntros (exit) "#Hg".
  iApply log_only_spec. iIntros (D claims recs used w) "Hc". cbn.
  iDestruct "Hinfo" as "(%lock & _ & _ & -> & _)". by iApply (client_gone_in with "Hg").
Qed.

Lemma move_out_spec a k Φ Ψ :
  ((∀ kp, process_res a kp -∗ Φ kp) ∧ Ψ) -∗ kwp a (await (move_out a k)) Φ Ψ.
Proof.
  iIntros "H". iApply owp_wait. iSplit; [by iDestruct "H" as "[_ $]"|].
  iIntros (D w w' kp Ha Hf) "(%claims & %recs & %used & Hs & Hc)". cbn in Hf.
  assert (Hfs : w_fs w' = w_fs w).
  { revert Hf. unfold move_out. destruct (w_held w !! k); [|done]. case_decide; [|done]. by intros [= <- <-]. }
  iDestruct (client_move_out _ _ _ _ _ _ _ _ _ Hf with "Hc") as "[Hc Hkp]". iModIntro.
  iSplitL "Hs Hc"; [iExists claims, recs, used; rewrite Hfs; iFrame|]. iDestruct "H" as "[H _]". by iApply "H".
Qed.

Lemma serve_terminate_spec a k options : ⊢ kwp a (serve_terminate a k options) (fun _ => True%I) True%I.
Proof.
  iApply owp_bind. iApply move_out_spec. iSplit; [|done]. iIntros (kp) "Hkp".
  iAssert (process_info a kp) as "#Hinfo"; [by iApply process_res_info|].
  iApply (owp_seq with "[Hkp]"); [by iApply terminate_spec|]. iSplit; [|by iIntros "$"].
  iIntros (t) "[%Hv #Ht]". iApply log_only_spec. iIntros (D claims recs used w) "Hc". cbn [return_ok].
  iDestruct "Hinfo" as "(%lock & _ & _ & -> & _)". iSplit; [|done]. iIntros ([exit Hexit]).
  iDestruct "Ht" as "[%|Hg]"; [congruence|]. by iApply (client_gone_in with "Hg").
Qed.

Lemma serve_release_spec a k : ⊢ kwp a (serve_release a k) (fun _ => True%I) True%I.
Proof.
  iApply owp_bind. iApply move_out_spec. iSplit; [|done]. iIntros (kp) "(%lock & #Hi & Ht & _)".
  by iApply (drop_arc_spec with "Hi Ht").
Qed.

Lemma process_ends_spec a i : ⊢ kwp a (modify (end_process i)) (fun _ => True%I) True%I.
Proof.
  iApply owp_modify. iIntros (D w Ha). iApply (client_step _ (end_process i)).
  { unfold end_process. by destruct (w_procs w !! i). }
  iIntros (claims recs used) "Hc". iModIntro. iSplit; [|done]. by iApply client_end.
Qed.

(** Every call keeps the invariant. *)
Lemma kept_api_spec a p : kept_api label a p -> ⊢ kwp a p (fun _ => True%I) True%I.
Proof.
  intros [spec Hn|n _| |k|k options|k|i].
  - by apply serve_start_spec.
  - apply serve_adopt_spec.
  - apply serve_list_spec.
  - apply serve_exited_spec.
  - apply serve_terminate_spec.
  - apply serve_release_spec.
  - apply process_ends_spec.
Qed.

(** A task is what it was trusted with (it starts no other). *)
Lemma kept_body_spec a t : kept_task a t ⊢ kwp a (kept_body a t) (fun _ => True%I) True%I.
Proof. apply owp_task. by iIntros (t') "[]". Qed.
End Safe.
