(* ===== verification/KeptTheorems.v ===== *)
(** * KeptTheorems: what holds of kept processes in every run

    Any number of owners call the service on one directory, in any order and at any
    pace; calls are dropped where they wait, owners die between any two steps, processes
    end when they like, system calls fail. From a directory that nobody uses (with
    whatever earlier owners left in it), the theorems hold in every world that such a
    run reaches. *)

From iris.proofmode Require Import proofmode.
From iris.base_logic.lib Require Import ghost_map.
From stdpp Require Import base list sorting relations gmap strings.
From S2P Require Import Prelude StdModel Values KeptDomain Ports Conc Ownership FileSystem KeptState KeptStore.
From S2P Require Import KeptStoreSpec KeptDirectory Kept KeptInv KeptSteps KeptWork KeptSafe.

Open Scope Z_scope.

(** ** The records of a directory *)

Definition records_list (fs : FileSystem) : list (KeptName * nat) :=
  omap (fun entry => stem ← strip_suffix ".json" entry.1; Some (mkKeptName stem, entry.2)) (map_to_list (fs_dir fs)).

Lemma elem_of_records_list fs n ino : (n, ino) ∈ records_list fs <-> fs_dir fs !! record_path n = Some ino.
Proof.
  unfold records_list. rewrite list_elem_of_omap. split.
  - intros ([path i] & Hin & He). cbn in He. apply elem_of_map_to_list in Hin.
    destruct (strip_suffix ".json" path) as [stem|] eqn:E; [|done]. cbn in He. simplify_eq.
    by apply strip_suffix_Some in E as ->.
  - intros Hd. exists (record_path n, ino). split; [by apply elem_of_map_to_list|]. cbn. unfold record_path.
    rewrite strip_suffix_app. cbn. by destruct n.
Qed.

Lemma records_list_fun fs n i1 i2 : (n, i1) ∈ records_list fs -> (n, i2) ∈ records_list fs -> i1 = i2.
Proof. rewrite !elem_of_records_list. congruence. Qed.

Definition records_of (fs : FileSystem) : gmap KeptName string :=
  (fun ino => fs_read ino fs) <$> list_to_map (records_list fs).

Lemma records_of_spec fs n : records_of fs !! n = record_bytes fs n.
Proof.
  unfold records_of, record_bytes. rewrite lookup_fmap. destruct (fs_dir fs !! record_path n) as [ino|] eqn:E.
  - rewrite (elem_of_list_to_map_1' _ _ ino); [done| |by apply elem_of_records_list].
    intros y Hy. eapply records_list_fun; [|exact Hy]. by apply elem_of_records_list.
  - apply fmap_None, not_elem_of_list_to_map_1. intros ([m i] & -> & Hin)%list_elem_of_fmap.
    apply elem_of_records_list in Hin. cbn in E. congruence.
Qed.

(** The published inodes. *)
Definition published_of (fs : FileSystem) : gmap nat string :=
  list_to_map ((fun p => (p.2, fs_read p.2 fs)) <$> records_list fs).

Lemma published_of_spec fs ino b :
  published_of fs !! ino = Some b <-> b = fs_read ino fs /\ exists n, fs_dir fs !! record_path n = Some ino.
Proof.
  unfold published_of. split.
  - intros ([n i] & Heq & Hin)%elem_of_list_to_map_2%list_elem_of_fmap. cbn in Heq. simplify_eq. split; [done|].
    exists n. by apply elem_of_records_list.
  - intros (-> & n & Hn). apply elem_of_list_to_map_1'.
    + intros y ([m i] & Heq & _)%list_elem_of_fmap. cbn in Heq. by simplify_eq.
    + apply list_elem_of_fmap. exists (n, ino). split; [done|]. by apply elem_of_records_list.
Qed.

Lemma store_ok_quiet fs :
  fs_wf fs -> fs_flocks fs = ∅ -> store_ok fs ∅ (records_of fs) ∅ ∅ (published_of fs) ∅.
Proof.
  intros Hwf Hfl. split; try done.
  - apply records_of_spec.
  - intros c a ino. rewrite Hfl. by rewrite lookup_empty.
  - intros ino b [-> [n Hn]]%published_of_spec. split_and!; [done|by apply (wf_dir _ Hwf) in Hn as [? _]|].
    intros m Hm. apply (record_path_ne_temporary n m). by eapply (wf_links _ Hwf).
  - intros n ino Hn. apply published_of_spec. eauto.
Qed.

Lemma directory_alloc `{!directoryGpreS Σ} fs :
  fs_wf fs -> fs_flocks fs = ∅ ->
  ⊢ |==> ∃ _ : directoryGS Σ, directory_interp fs ∅ (records_of fs) ∅.
Proof.
  intros Hwf Hfl. iMod (ghost_map_alloc (∅ : gmap nat (KeptName * writing))) as (γw) "[HW _]".
  iMod (fixed_map_alloc (published_of fs)) as (γp) "HP". iMod (fixed_map_alloc (∅ : gmap KeptName nat)) as (γl) "HL".
  iModIntro. iExists (Build_directoryGS Σ _ γw γp γl), ∅, (published_of fs), ∅. iFrame "HW HP HL". iPureIntro.
  by apply store_ok_quiet.
Qed.

(** ** A system that nobody uses now *)

Section Kept.
Context `{RecordCodecLaws} (label : nat -> string).

(** What a run starts from: no locks, no calls; records speak of instances that exist or
    existed, and what runs is recorded. *)
Record quiet_world (w : World) : Prop := {
  qw_wf : fs_wf (w_fs w);
  qw_flocks : fs_flocks (w_fs w) = ∅;
  qw_arcs : w_arcs w = ∅;
  qw_cells : w_cells w = ∅;
  qw_held : w_held w = ∅;
  qw_returned : w_returned w = [];
  qw_recorded : forall n r, stored_view (w_fs w) n = Ok (Some r) -> is_Some (w_procs w !! record_instance r);
  qw_running : forall i, w_procs w !! i = Some StageRunning ->
    exists n r, kept_name_new (kept_name n) = Ok n /\ stored_view (w_fs w) n = Ok (Some r) /\ record_instance r = i;
}.

Lemma recorded_stored_view fs n i :
  recorded decode_record (records_of fs) n i <-> exists r, stored_view fs n = Ok (Some r) /\ record_instance r = i.
Proof.
  unfold recorded, stored_view. rewrite records_of_spec. destruct (record_bytes fs n) as [b|].
  - split.
    + intros (b' & r & [= <-] & -> & Hi). eauto.
    + intros (r & Hr & Hi). destruct (decode_record n b) eqn:E; simplify_eq. eauto.
  - split; [by intros (? & ? & ? & _)|by intros (? & ? & _)].
Qed.

(** The homes of the recorded instances. *)
Definition homes_of (fs : FileSystem) : gmap KeptLaunch InstState :=
  list_to_map (omap (fun p =>
    match kept_name_new (kept_name p.1), decode_record p.1 p.2 with
    | Ok n, Ok r => Some (record_instance r, InstHome n)
    | _, _ => None
    end) (map_to_list (records_of fs))).

Lemma homes_of_Some fs i st :
  homes_of fs !! i = Some st ->
  exists n, st = InstHome n /\ kept_name_new (kept_name n) = Ok n /\ recorded decode_record (records_of fs) n i.
Proof.
  intros ([n b] & Hin & He)%elem_of_list_to_map_2%list_elem_of_omap. cbn in He. apply elem_of_map_to_list in Hin.
  destruct (kept_name_new (kept_name n)) as [m|] eqn:Hn; [|done].
  destruct (decode_record n b) as [r|] eqn:Hd; [|done]. simplify_eq.
  assert (m = n) as -> by (apply kept_name_new_Ok in Hn; destruct m, n; cbn in *; by subst).
  exists n. split_and!; [done..|]. by exists b, r.
Qed.

Lemma homes_of_recorded fs n i :
  kept_name_new (kept_name n) = Ok n -> recorded decode_record (records_of fs) n i -> is_Some (homes_of fs !! i).
Proof.
  intros Hn (b & r & Hb & Hr & <-). destruct (homes_of fs !! record_instance r) eqn:E; [eauto|].
  exfalso. unfold homes_of in E. apply not_elem_of_list_to_map_2 in E. apply E. apply list_elem_of_fmap.
  exists (record_instance r, InstHome n). split; [done|]. apply list_elem_of_omap. exists (n, b).
  split; [by apply elem_of_map_to_list|]. cbn. by rewrite Hn Hr.
Qed.

Lemma procs_ok_quiet w : quiet_world w ->
  procs_ok decode_record (records_of (w_fs w)) (w_procs w) (homes_of (w_fs w)) ∅ ∅.
Proof.
  intros [Hwf Hfl Ha Hc Hh Hr Hrec Hrun]. split.
  - intros i. rewrite lookup_empty. by intros [].
  - intros i. rewrite lookup_empty. by intros [].
  - intros n i (r & Hv & <-)%recorded_stored_view. eauto.
  - intros i (n & r & Hn & Hv & <-)%Hrun.
    destruct (homes_of_recorded (w_fs w) n (record_instance r)) as [st Hst]; [done|apply recorded_stored_view; eauto|].
    destruct (homes_of_Some _ _ _ Hst) as (m & -> & _). eauto.
  - intros i [st Hst]. destruct (homes_of_Some _ _ _ Hst) as (n & _ & _ & (r & Hv & <-)%recorded_stored_view). eauto.
  - intros i n Hst. destruct (homes_of_Some _ _ _ Hst) as (m & [= <-] & Hn & Hv). done.
Qed.

(** Its state interpretation can be set up. *)
Lemma kept_alloc `{!keptGpreS Σ, !directoryGpreS Σ} w :
  quiet_world w ->
  ⊢ |==> ∃ (_ : keptGS Σ) (_ : directoryGS Σ), kept_interp store_interp client ∅ w.
Proof.
  intros Hq. iMod (directory_alloc (w_fs w)) as (GD) "Hs"; [apply Hq..|].
  iMod (fixed_map_alloc (∅ : gmap nat (nat * KeptLock))) as (γa) "HA".
  iMod (ghost_map_alloc (∅ : gmap nat bool)) as (γl) "[HL _]".
  iMod (ghost_map_alloc (∅ : gmap nat Phase)) as (γp) "[HPh _]".
  iMod (ghost_map_alloc (homes_of (w_fs w))) as (γi) "[HIn Hi]".
  iMod (fixed_map_alloc (∅ : gmap KeptLaunch unit)) as (γk) "HKn".
  iMod (fixed_map_alloc (∅ : gmap KeptLaunch unit)) as (γg) "HGo".
  iMod (fixed_map_alloc (∅ : gmap nat unit)) as (γd) "HDe".
  iMod (fixed_map_alloc (∅ : gmap nat Purpose)) as (γc) "HCe".
  set (GK := Build_keptGS Σ _ γa γl γp γi γk γg γd γc).
  iAssert (|==> [∗ map] i ↦ st ∈ homes_of (w_fs w), home_mark i st)%I with "[Hi]" as ">#Hhomes".
  { iApply big_sepM_bupd. iApply (big_sepM_impl with "Hi"). iIntros "!>" (i st Hst) "Hi".
    destruct (homes_of_Some _ _ _ Hst) as (n & -> & _). by iApply ghost_map_elem_persist. }
  iModIntro. iExists GK, GD, ∅, (records_of (w_fs w)), ∅. iFrame "Hs".
  iExists ∅, ∅, ∅, _, ∅, ∅, ∅, ∅. iFrame "HA HL HPh HDe HIn HKn HGo HCe Hhomes".
  rewrite (qw_cells _ Hq) (qw_held _ Hq) (qw_returned _ Hq) !big_sepM_empty (qw_arcs _ Hq). iPureIntro. split_and!; try done.
  - split; try done. by intros c [].
  - by apply procs_ok_quiet.
  - split; intros j; rewrite ?(qw_cells _ Hq) ?(qw_held _ Hq) ?dom_empty_L; set_solver.
Qed.

(** ** Runs *)

(** The worlds that owners reach from [w0]. *)
Definition kept_reachable (w0 : World) (c : config) : Prop :=
  rtc (pstep kept_answer kept_body owner_dies (kept_api label)) (mkConfig ∅ w0 []) c.

(** What follows from the interpretation holds in every reachable world. *)
Lemma kept_adequate (φ : gset nat -> World -> Prop) w0 c :
  (forall Σ (GK : keptGS Σ) (GD : directoryGS Σ) D w, kept_interp store_interp client D w ⊢ ⌜φ D w⌝) ->
  quiet_world w0 -> kept_reachable w0 c -> φ (c_dead c) (c_state c).
Proof.
  intros Hφ Hq Hr. set (Σ := #[keptΣ; directoryΣ]).
  apply (pure_soundness (PROP := iPropI Σ)), (uPred.bupd_soundness (M := iResUR Σ)); [apply _|].
  iMod (kept_alloc (Σ := Σ) w0 Hq) as (GK GD) "Hs".
  iApply (owp_adequate kept_answer kept_body owner_dies (kept_interp store_interp client) kept_task); [..|exact Hr|done|].
  - intros a p. apply kept_api_spec.
  - intros a t. apply kept_body_spec.
  - intros D w a. iApply interp_die.
  - apply Hφ.
  - by iFrame "Hs".
Qed.

(** ** What the interpretation says *)

Section Interp.
Context `{!keptGS Σ, !directoryGS Σ}.

Abbreviation SI := (kept_interp store_interp client).

Definition running_recorded (w : World) : Prop :=
  forall i, w_procs w !! i = Some StageRunning ->
    exists n r, kept_name_new (kept_name n) = Ok n /\ stored_view (w_fs w) n = Ok (Some r) /\ record_instance r = i.

(** The abstract records are the files of the directory. *)
Lemma interp_records fs claims recs used n :
  store_interp fs claims recs used ⊢ ⌜recs !! n = record_bytes fs n⌝.
Proof. iIntros "(%W & %P & %L & _ & _ & _ & %Hok)". iPureIntro. apply Hok. Qed.

Lemma interp_running D w : SI D w ⊢ ⌜running_recorded w⌝.
Proof.
  iIntros "(%claims & %recs & %used & Hs & Hc)". open_client. iIntros (i Hi).
  destruct (po_running _ _ _ _ _ _ Hpo i Hi) as [n Hn].
  destruct (po_home _ _ _ _ _ _ Hpo i n Hn) as [Hname Hl]. destruct Hl as (b & r & Hb & Hr & Hri).
  { by exists StageRunning. }
  iDestruct (interp_records _ _ _ _ n with "Hs") as %Hrec. iPureIntro. exists n, r. split; [done|]. split; [|done].
  unfold stored_view. rewrite -Hrec Hb. by rewrite Hr.
Qed.

(** One holder per name, who has its lock file locked. *)
Definition held_claimed (w : World) : Prop :=
  (forall k h, w_held w !! k = Some h -> exists ofd ino,
     fs_flocks (w_fs w) !! ofd = Some (held_owner h, ino) /\
     fs_dir (w_fs w) !! lock_path (rec_name (kp_record (held_process h))) = Some ino) /\
  (forall k1 k2 h1 h2, w_held w !! k1 = Some h1 -> w_held w !! k2 = Some h2 ->
     rec_name (kp_record (held_process h1)) = rec_name (kp_record (held_process h2)) -> k1 = k2).

Lemma held_claim D claims arcs A L Ph next a kp :
  arcs_ok D claims arcs A L Ph next -> a ∉ D ->
  process_res a kp -∗ fixed_map arcs_name A -∗ ghost_map_auth live_name 1 L -∗
  ∃ c, ⌜claims !! c = Some (a, rec_name (kp_record kp))⌝ ∗ store_writer c (rec_name (kp_record kp)) ∗
    fixed_map arcs_name A ∗ ghost_map_auth live_name 1 L.
Proof.
  iIntros (Hao Ha) "(%lock & #Hi & Ht & <- & _ & _ & _ & Hw) HA HL".
  iDestruct (fixed_map_agree with "HA Hi") as %HAt. iDestruct (ghost_map_lookup with "HL Ht") as %HLt.
  pose proof (ao_live _ _ _ _ _ _ _ Hao _ _ _ HLt HAt Ha) as Hat.
  iExists (lock_guard lock). iFrame. iPureIntro. by eapply ao_claim.
Qed.

Lemma interp_locked fs claims recs used c a n :
  claims !! c = Some (a, n) ->
  store_interp fs claims recs used ⊢
  ⌜exists ino, fs_flocks fs !! c = Some (a, ino) /\ fs_dir fs !! lock_path n = Some ino⌝.
Proof. iIntros (Hc) "(%W & %P & %L & _ & _ & _ & %Hok)". iPureIntro. by eapply so_claim. Qed.

Lemma interp_held D w : SI D w ⊢ ⌜held_claimed w⌝.
Proof.
  iIntros "(%claims & %recs & %used & Hs & Hc)". open_client. iSplit.
  - iIntros (k h Hk). iDestruct (big_sepM_lookup _ _ _ _ Hk with "Hheld") as "Hh".
    iDestruct (held_claim with "Hh HA HL") as (c) "[%Hc _]"; [done|by eapply Hha|].
    iDestruct (interp_locked _ _ _ _ _ _ _ Hc with "Hs") as %(ino & ? & ?). eauto.
  - iIntros (k1 k2 h1 h2 H1 H2 Hn). destruct (decide (k1 = k2)) as [|Hne]; [done|]. iExFalso.
    rewrite (big_sepM_delete _ _ _ _ H1) (big_sepM_delete _ _ k2 h2); [|by rewrite lookup_delete_ne].
    iDestruct "Hheld" as "(Hh1 & Hh2 & _)".
    iDestruct (held_claim with "Hh1 HA HL") as (c1) "(%Hc1 & Hw1 & HA & HL)"; [done|by eapply Hha|].
    iDestruct (held_claim with "Hh2 HA HL") as (c2) "(%Hc2 & Hw2 & HA & HL)"; [done|by eapply Hha|].
    rewrite -Hn in Hc2 |- *. pose proof (co_unique _ _ _ _ _ _ _ _ Hco _ _ _ _ _ Hc1 Hc2) as <-.
    iApply (writer_exclusive with "Hw1 Hw2").
Qed.

Lemma interp_returned D w : SI D w ⊢ ⌜Forall (return_ok (w_procs w)) (w_returned w)⌝.
Proof. iIntros "(%claims & %recs & %used & Hs & Hc)". open_client. done. Qed.
End Interp.

(** ** Properties *)

(** C8. A kept process that runs always has a record: in every world that any owners reach, by
    any interleaving of their calls, dropped calls, failing system calls and deaths of
    owners, each running instance is named by a record file that [read] decodes, under
    an accepted name (which [list] shows and [adopt] finds). *)
Theorem kept_running_recorded w0 c :
  quiet_world w0 -> kept_reachable w0 c -> running_recorded (c_state c).
Proof. apply (kept_adequate (fun _ => running_recorded)). intros Σ GK GD. apply interp_running. Qed.

(** C9. A kept name has one holder: two [KeptProcess] values of one name, in the hands of any
    callers of any owners, are one value; and the holder's process has the lock of the
    name's lock file. *)
Theorem kept_held_once w0 c :
  quiet_world w0 -> kept_reachable w0 c -> held_claimed (c_state c).
Proof. apply (kept_adequate (fun _ => held_claimed)). intros Σ GK GD. apply interp_held. Qed.

(** C10. What the calls return is true: a started or adopted process has the name (and, started,
    the fingerprint) that was asked for; a listing that succeeds names every instance that
    ran when it began, unless it is gone by now; [exited] and every termination with an exit
    return only when the instance is gone, and a termination that claims to be verified has
    an exit that saw no stragglers of the group. *)
Theorem kept_returns_true w0 c :
  quiet_world w0 -> kept_reachable w0 c ->
  Forall (return_ok (w_procs (c_state c))) (w_returned (c_state c)).
Proof.
  apply (kept_adequate (fun _ w => Forall (return_ok (w_procs w)) (w_returned w))). intros Σ GK GD. apply interp_returned.
Qed.
End Kept.

(** ** A run *)

Definition demo_label (a : nat) : string := "app".
Definition demo_name : KeptName := mkKeptName "tunnel".
Definition demo_spec : KeptSpec := kept_spec_revision (kept_spec_new demo_name (spec_new "sleep")) "r".
Definition demo_launch : KeptLaunch := mkKeptLaunch 41 9.
Definition demo_record : KeptRecord := set_instance (new_record demo_label 1 demo_spec (Some "boot") 0) demo_launch.
Definition demo_record_exe : KeptRecord := set_exe demo_record (Some "/bin/sleep").

(** A codec that knows the two texts of one record. *)
#[local] Instance demo_codec : RecordCodec := {
  to_vec_pretty s :=
    if decide (s = stored_from demo_record) then Ok "{tunnel}"
    else if decide (s = stored_from demo_record_exe) then Ok "{tunnel, /bin/sleep}" else Err "unsupported";
  from_slice b :=
    if decide (b = "{tunnel}") then Ok (stored_from demo_record)
    else if decide (b = "{tunnel, /bin/sleep}") then Ok (stored_from demo_record_exe) else Err "expected value";
}.
#[local] Instance demo_codec_laws : RecordCodecLaws.
Proof.
  split. cbn. intros s bytes. case_decide as H1; [by intros [= <-]; rewrite H1|].
  case_decide as H2; [|done]. by intros [= <-]; rewrite H2.
Qed.

Lemma empty_quiet : quiet_world empty_world.
Proof.
  split; try done. apply empty_fs_wf.
Qed.

Definition demo_turns (ts : list (turn (S := World) (Q := KeptPort) (T := KeptTask))) : config :=
  take_turns kept_answer kept_body owner_dies calm_oracle 100 ts (mkConfig ∅ empty_world []).

Lemma kept_demo_reachable ts : Forall (enters (kept_api demo_label)) ts -> kept_reachable demo_label empty_world (demo_turns ts).
Proof. apply take_turns_reachable. Qed.

(** Owner 1 starts the process: the caller and its four tasks, in turn. *)
Definition demo_start : list (turn (S := World) (Q := KeptPort) (T := KeptTask)) :=
  [Enter 1 (serve_start demo_label 1 demo_spec); Go 0; Go 1; Go 0; Go 2; Go 0; Go 3; Go 0; Go 4; Go 0]%nat.
(** It dies; owner 2 adopts the process ... *)
Definition demo_adopt : list (turn (S := World) (Q := KeptPort) (T := KeptTask)) :=
  demo_start ++ [Die 1; Enter 2 (serve_adopt 2 demo_name); Go 0; Go 1; Go 0; Go 2; Go 0]%nat.
(** ... which ends, and is terminated by name. *)
Definition demo_stop : list (turn (S := World) (Q := KeptPort) (T := KeptTask)) :=
  demo_adopt ++ [Enter 2 (modify (end_process demo_launch)); Go 3;
                 Enter 2 (serve_terminate 2 11 (mkTerminateOptions 1000 None)); Go 4; Go 5; Go 4]%nat.

(** Finds the one call of each [Enter]. *)
Ltac demo_enters := repeat constructor; by vm_compute.

Lemma kept_running_recorded_witness :
  exists c, kept_reachable demo_label empty_world c /\
    w_procs (c_state c) !! demo_launch = Some StageRunning /\ running_recorded (c_state c).
Proof.
  exists (demo_turns demo_start).
  assert (Hr : kept_reachable demo_label empty_world (demo_turns demo_start)).
  { apply kept_demo_reachable. demo_enters. }
  split; [exact Hr|]. split; [by vm_compute|].
  exact (kept_running_recorded demo_label empty_world (demo_turns demo_start) empty_quiet Hr).
Defined.

Lemma kept_held_once_witness :
  exists c h, kept_reachable demo_label empty_world c /\ w_held (c_state c) !! 11%nat = Some h /\
    held_owner h = 2%nat /\ held_claimed (c_state c).
Proof.
  exists (demo_turns demo_adopt).
  assert (Hr : kept_reachable demo_label empty_world (demo_turns demo_adopt)).
  { apply kept_demo_reachable. demo_enters. }
  eexists. split; [exact Hr|]. split; [by vm_compute|]. split; [done|].
  exact (kept_held_once demo_label empty_world (demo_turns demo_adopt) empty_quiet Hr).
Defined.

Lemma kept_returns_true_witness :
  exists c, kept_reachable demo_label empty_world c /\
    last (w_returned (c_state c)) =
      Some (RetKeptTerminate 2 demo_record_exe (mkKeptTermination ExitedNaturally (Some kept_exit_default))) /\
    Forall (return_ok (w_procs (c_state c))) (w_returned (c_state c)).
Proof.
  exists (demo_turns demo_stop).
  assert (Hr : kept_reachable demo_label empty_world (demo_turns demo_stop)).
  { apply kept_demo_reachable. demo_enters. }
  split; [exact Hr|]. split; [by vm_compute|].
  exact (kept_returns_true demo_label empty_world (demo_turns demo_stop) empty_quiet Hr).
Defined.
