(* ===== verification/Display.v ===== *)
(** * Display: the errors in words

    The [thiserror] texts of shepherd-domain/src/error.rs, shepherd-app/src/error.rs and
    shepherd-app/src/kept.rs, and what [{:?}] prints of a signal, a duration and a
    termination outcome. *)

From stdpp Require Import base list strings pretty.
From S2P Require Import Prelude StdModel Values KeptDomain KeptState KeptStore.

Open Scope Z_scope.

(** ** [Display] *)

Definition invalid_transition_display (t : InvalidTransition) : string :=
  "invalid transition from " +:+ it_from t +:+ " on event '" +:+ it_event t +:+ "'".

Definition domain_error_display (e : DomainError) : string :=
  match e with
  | DomainError_ScopeClosed scope => "scope " +:+ scope_id_display scope +:+ " is not accepting new processes"
  | DomainError_UnknownProcess pid => "unknown process " +:+ process_id_display pid
  | DomainError_UnknownScope scope => "unknown scope " +:+ scope_id_display scope
  | DomainError_InvalidTransition t => invalid_transition_display t
  end.

Definition scope_creation_error_display (e : ScopeCreationError) : string :=
  match e with SupervisorClosed => "supervisor is no longer accepting scopes" end.

Definition spawn_error_display (e : SpawnError) : string :=
  match e with
  | SpawnError_UnknownScope scope => "unknown scope " +:+ scope_id_display scope
  | SpawnError_ScopeClosed scope => "scope " +:+ scope_id_display scope +:+ " is not accepting new processes"
  | SpawnError_Os message => "failed to spawn process: " +:+ message
  | SpawnError_Domain e => domain_error_display e
  end.

Definition wait_error_display (e : WaitError) : string :=
  match e with
  | WaitError_UnknownProcess pid => "unknown process " +:+ process_id_display pid
  | WaitError_Backend message => "failed to wait for process: " +:+ message
  end.

Definition kept_error_display (e : KeptError) : string :=
  match e with
  | KeptUnsupported => "kept processes are not supported on this platform"
  | KeptBusy name => "kept process " +:+ kept_name name +:+ " is held by another owner"
  | KeptAlreadyRunning name os_pid =>
      "kept process " +:+ kept_name name +:+ " is already running as pid " +:+ decimal os_pid
  | KeptCaptureUnsupported => "kept processes cannot capture output; give them a log file"
  | KeptStoreFailed text => "kept record store failed: " +:+ text
  | KeptLaunchFailed text => "failed to launch kept process: " +:+ text
  | KeptSignalFailed text => "failed to signal kept process: " +:+ text
  end.

(** ** [Debug] *)

Definition signal_debug (s : Signal) : string :=
  match s with
  | Term => "Term"
  | Kill => "Kill"
  | Interrupt => "Interrupt"
  | CustomSignal raw => "Custom(" +:+ decimal raw +:+ ")"
  end.

(** The digits of [fraction] after the point, [width] of them, without the zeros at the end. *)
Fixpoint fraction_digits (width : nat) (fraction : Z) : string :=
  if fraction =? 0 then ""
  else
    match width with
    | O => ""
    | S width =>
        let unit := 10 ^ Z.of_nat width in
        decimal (fraction / unit) +:+ fraction_digits width (fraction mod unit)
    end.

Definition fmt_decimal (integer fraction : Z) (width : nat) (suffix : string) : string :=
  decimal integer
    +:+ (if fraction =? 0 then "" else "." +:+ fraction_digits width fraction)
    +:+ suffix.

(** The micro sign, in UTF-8. *)
Definition micros_suffix : string := String (Ascii.ascii_of_nat 194) (String (Ascii.ascii_of_nat 181) "s").

Definition duration_debug (d : Duration) : string :=
  let secs := d / nanos_per_sec in
  let nanos := d mod nanos_per_sec in
  if 0 <? secs then fmt_decimal secs nanos 9 "s"
  else if 1000000 <=? nanos then fmt_decimal (nanos / 1000000) (nanos mod 1000000) 6 "ms"
  else if 1000 <=? nanos then fmt_decimal (nanos / 1000) (nanos mod 1000) 3 micros_suffix
  else fmt_decimal nanos 0 1 "ns".

Definition unverified_reason_debug (r : UnverifiedReason) : string :=
  match r with
  | DroppedWithoutShutdown => "DroppedWithoutShutdown"
  | RuntimeShutdown => "RuntimeShutdown"
  | WaitTimedOut waited => "WaitTimedOut { waited: " +:+ duration_debug waited +:+ " }"
  | ReapFailed => "ReapFailed"
  | ProcessDisappeared => "ProcessDisappeared"
  end.

Definition outcome_debug (o : TerminationOutcome) : string :=
  match o with
  | ExitedNaturally => "ExitedNaturally"
  | GracefulSuccess => "GracefulSuccess"
  | ForcedRequired => "ForcedRequired"
  | Failed => "Failed"
  | CleanupUnverified reason => "CleanupUnverified(" +:+ unverified_reason_debug reason +:+ ")"
  end.

Example duration_debug_secs : duration_debug 15000000000 = "15s".
Proof. by vm_compute. Qed.
Example duration_debug_fraction : duration_debug 2050000000 = "2.05s".
Proof. by vm_compute. Qed.
Example duration_debug_millis : duration_debug 1500000 = "1.5ms".
Proof. by vm_compute. Qed.
Example duration_debug_nanos : duration_debug 7 = "7ns".
Proof. by vm_compute. Qed.
