(* ===== verification/Service.v ===== *)
(** * Service: named processes that are kept running

    shepherd-app/src/service.rs: the runner of one service, the supervisor of many, and
    the handles. The supervisor of processes, the kept processes, the clock and the user's
    [Service] are asked ([ServicePort]) and may answer anything; the shared state
    is the map of names and, for each service ever started, its channels and its task
    ([Slot]). Readiness values are of one type [R]. *)

From stdpp Require Import base list sorting gmap strings.
From S2P Require Import Prelude StdModel Values Restart KeptDomain Ports Conc History KeptState KeptStore Display.

Open Scope Z_scope.
Open Scope prog_scope.

(** ** Data *)

Record ServiceLaunch : Type := mkServiceLaunch {
  sl_spec : ProcessSpec;
  sl_log : option PathBuf;
  sl_revision : option string;
}.
Definition service_launch_new (spec : ProcessSpec) : ServiceLaunch := mkServiceLaunch spec None None.
Definition service_launch_log (l : ServiceLaunch) (path : PathBuf) : ServiceLaunch :=
  mkServiceLaunch (sl_spec l) (Some path) (sl_revision l).
Definition service_launch_revision (l : ServiceLaunch) (revision : string) : ServiceLaunch :=
  mkServiceLaunch (sl_spec l) (sl_log l) (Some revision).
Definition launch_fingerprint (l : ServiceLaunch) : SpecFingerprint := fingerprint_of (sl_spec l) (sl_revision l).

(** A failure is its message, which is what it displays. *)
Record ServiceFailure : Type := mkServiceFailure { service_failure : string }.

Record ServiceInstance : Type := mkServiceInstance {
  si_os_pid : Z;
  si_adopted : bool;
  si_output : option ProcessOutput;
  si_record : option KeptRecord;
}.

(** A handle of a store of kept processes; its operations are questions. *)
Record KeptProcesses : Type := mkKeptProcesses { kept_processes : nat }.

Record ServiceOptions : Type := mkServiceOptions {
  so_restart : RestartPolicy;
  so_ready_within : Duration;
  so_ready_poll : Duration;
  so_terminate : TerminateOptions;
  so_kept : option KeptProcesses;
}.
Definition service_options_default : ServiceOptions :=
  mkServiceOptions restart_default (from_secs 30) (from_millis 500) terminate_default None.

Inductive ServiceFailureKind : Type :=
| KindLaunch
| KindStart
| KindReadyCheck
| KindNotReadyInTime
| KindExitedBeforeReady
| KindExited.

Record RunFailure : Type := mkRunFailure {
  rf_kind : ServiceFailureKind;
  rf_reason : string;
}.

Inductive ServiceState : Type :=
| Summary_Starting (attempt : Z)
| Summary_Ready (os_pid : Z) (adopted : bool)
| Summary_Backoff (failures : Z) (delay : Duration)
| Summary_Stopping
| Summary_Stopped
| Summary_Released (os_pid : Z)
| Summary_Failed.

Inductive ServiceStop : Type := StopTerminate | StopLeave.

Record ServiceStopped : Type := mkServiceStopped {
  ss_outcome : option TerminationOutcome;
  ss_left_running : option Z;
}.

Record ServiceSummary : Type := mkServiceSummary {
  sum_name : KeptName;
  sum_state : ServiceState;
}.

Record ServiceNameInUse : Type := mkServiceNameInUse { name_in_use : KeptName }.
Definition name_in_use_display (e : ServiceNameInUse) : string :=
  "service " +:+ kept_name (name_in_use e) +:+ " is already running".

Inductive Running : Type :=
| RunScoped (scope : ProcessScopeId) (pid : ProcessId)
| RunKept (process : KeptProcess).

#[global] Instance kept_record_eq_decision : EqDecision KeptRecord.
Proof. solve_decision. Defined.
#[global] Instance kept_process_eq_dec : EqDecision KeptProcess.
Proof. solve_decision. Defined.
#[global] Instance kept_processes_eq_dec : EqDecision KeptProcesses.
Proof. solve_decision. Defined.
#[global] Instance running_eq_dec : EqDecision Running.
Proof. solve_decision. Defined.
#[global] Instance service_failure_kind_eq_dec : EqDecision ServiceFailureKind.
Proof. solve_decision. Defined.
#[global] Instance run_failure_eq_dec : EqDecision RunFailure.
Proof. solve_decision. Defined.
#[global] Instance kept_spec_eq_dec : EqDecision KeptSpec.
Proof. solve_decision. Defined.
#[global] Instance service_stop_eq_dec : EqDecision ServiceStop.
Proof. solve_decision. Defined.
#[global] Instance service_stopped_eq_dec : EqDecision ServiceStopped.
Proof. solve_decision. Defined.

(** [step], without [tokio::select!]'s macro: what [or_stop] gives. *)
Inductive Step (A : Type) : Type :=
| StepDone (a : A)
| StepStop (how : ServiceStop).
Arguments StepDone {A} a.
Arguments StepStop {A} how.

Definition kept_os_pid (p : KeptProcess) : Z := launch_os_pid (kp_target p).

Definition is_final (s : ServiceState) : bool :=
  match s with Summary_Stopped | Summary_Released _ | Summary_Failed => true | _ => false end.

Definition stopped (outcome : option TerminationOutcome) (left_running : option Z) : ServiceStopped :=
  mkServiceStopped outcome left_running.

(** [u32::saturating_add(1)]. *)
Definition u32_saturating_succ (n : Z) : Z := Z.min (n + 1) u32_max.

(** ** Text *)

Definition describe (code : option Z) (signal : option string) : string :=
  match code, signal with
  | Some code, _ => "exited with code " +:+ decimal code
  | None, Some signal => "killed by " +:+ signal
  | None, None => "exited"
  end.

Definition kept_failure (e : KeptError) : string := "kept: " +:+ kept_error_display e.

Section Service.
Context {R : Type}.

Inductive ServiceStatus : Type :=
| Service_Starting (attempt : Z)
| Service_Ready (value : R) (os_pid : Z) (adopted : bool)
| Service_Backoff (failures : Z) (delay : Duration) (kind : ServiceFailureKind) (reason : string)
| Service_Stopping
| Service_Stopped
| Service_Released (os_pid : Z)
| Service_Failed (kind : ServiceFailureKind) (reason : string).

Definition status_is_final (s : ServiceStatus) : bool :=
  match s with Service_Stopped | Service_Released _ | Service_Failed _ _ => true | _ => false end.

Definition status_summary (s : ServiceStatus) : ServiceState :=
  match s with
  | Service_Starting attempt => Summary_Starting attempt
  | Service_Ready _ os_pid adopted => Summary_Ready os_pid adopted
  | Service_Backoff failures delay _ _ => Summary_Backoff failures delay
  | Service_Stopping => Summary_Stopping
  | Service_Stopped => Summary_Stopped
  | Service_Released os_pid => Summary_Released os_pid
  | Service_Failed _ _ => Summary_Failed
  end.

Lemma status_summary_final s : is_final (status_summary s) = status_is_final s.
Proof. by destruct s. Qed.

(** ** Questions to the environment *)

Inductive ServicePort : Type -> Type :=
(** The user's [Service] may panic. *)
| UserLaunch : ServicePort (unwound (result ServiceLaunch ServiceFailure))
| UserReady (instance : ServiceInstance) : ServicePort (unwound (result (option R) ServiceFailure))
(** [ProcessSupervisor]. *)
| TryCreateScope : ServicePort (result ProcessScopeId ScopeCreationError)
| SpawnIn (scope : ProcessScopeId) (spec : ProcessSpec) : ServicePort (result ProcessId SpawnError)
| TerminateScope (scope : ProcessScopeId) (options : TerminateOptions) :
    ServicePort (result ScopeTerminationReport TerminateError)
| OsPid (pid : ProcessId) : ServicePort (option Z)
| TakeOutput (pid : ProcessId) : ServicePort (option ProcessOutput)
| WaitFor (pid : ProcessId) : ServicePort (result ProcessExit WaitError)
(** [KeptProcesses] and [KeptProcess]. *)
| KeptAdopt (kept : KeptProcesses) (name : KeptName) : ServicePort (result (option KeptProcess) KeptError)
| KeptStart (kept : KeptProcesses) (spec : KeptSpec) : ServicePort (result KeptProcess KeptError)
| KeptTerminate (process : KeptProcess) (options : TerminateOptions) : ServicePort KeptTermination
| KeptExited (process : KeptProcess) : ServicePort KeptExit
| KeptRelease (process : KeptProcess) : ServicePort unit
| ServiceNow : ServicePort Instant
| ServiceSleep (d : Duration) : ServicePort unit
(** [tracing::warn!]. *)
| Warn (failures : Z) (failure : RunFailure) : ServicePort unit
(** [self.status.send_replace(status)] of the service [k]. *)
| Publish (k : nat) (status : ServiceStatus) : ServicePort unit
(** Not a call: a stop request is received, at its place in the history. *)
| StopSeen (how : ServiceStop) : ServicePort unit.

(** ** The shared state *)

(** What the [JoinHandle] of a runner gives: nothing yet, its value, or that it panicked or
    was aborted. *)
Inductive RunnerState : Type :=
| RunnerActive
| RunnerReturned (r : ServiceStopped)
| RunnerLost.

(** A service: the values of its two watch channels, the stop channel (a message, whether the
    sender is alive), its task, and whether its handle is still in its holder's hands. *)
Record Slot : Type := mkSlot {
  slot_name : KeptName;
  slot_summary : ServiceState;
  slot_status : ServiceStatus;
  slot_request : option ServiceStop;
  slot_sender : bool;
  slot_runner : RunnerState;
  slot_handle : bool;
}.

Record ServiceWorld : Type := mkServiceWorld {
  sw_services : gmap KeptName nat;
  sw_slots : gmap nat Slot;
  sw_next : nat;
}.

Definition on_slot (k : nat) (f : Slot -> Slot) (w : ServiceWorld) : ServiceWorld :=
  mkServiceWorld (sw_services w) (alter f k (sw_slots w)) (sw_next w).

Definition set_summary (s : ServiceState) (x : Slot) : Slot :=
  mkSlot (slot_name x) s (slot_status x) (slot_request x) (slot_sender x) (slot_runner x) (slot_handle x).
Definition set_status (s : ServiceStatus) (x : Slot) : Slot :=
  mkSlot (slot_name x) (slot_summary x) s (slot_request x) (slot_sender x) (slot_runner x) (slot_handle x).
Definition set_request (m : option ServiceStop) (x : Slot) : Slot :=
  mkSlot (slot_name x) (slot_summary x) (slot_status x) m (slot_sender x) (slot_runner x) (slot_handle x).
Definition set_runner (r : RunnerState) (x : Slot) : Slot :=
  mkSlot (slot_name x) (slot_summary x) (slot_status x) (slot_request x) (slot_sender x) r (slot_handle x).
(** The sender goes, with a message or without. *)
Definition close_sender (m : option ServiceStop) (x : Slot) : Slot :=
  mkSlot (slot_name x) (slot_summary x) (slot_status x) m false (slot_runner x) (slot_handle x).
Definition take_handle (x : Slot) : Slot :=
  mkSlot (slot_name x) (slot_summary x) (slot_status x) (slot_request x) (slot_sender x) (slot_runner x) false.

Definition service_answer (X : Type) (q : ServicePort X) (x : X) : ServiceWorld -> ServiceWorld :=
  match q with
  | Publish k status => on_slot k (set_status status)
  | _ => id
  end.

(** A runner, with bounds for its rounds and for the readiness checks of one run. *)
Inductive ServiceTask : Type :=
| RunService (k : nat) (name : KeptName) (options : ServiceOptions) (rounds polls : nat).

Abbreviation SProg := (Prog (S := ServiceWorld) (Q := ServicePort) (T := ServiceTask)).
Abbreviation SEvent := (Event (S := ServiceWorld) (Q := ServicePort)).

(** ** The runner *)

Section Runner.
Context (k : nat) (name : KeptName) (options : ServiceOptions).

(** [stop.recv()]: a message, then [None] once the sender is gone. *)
Definition recv_stop (w : ServiceWorld) : option (ServiceWorld * option ServiceStop) :=
  x ← sw_slots w !! k;
  match slot_request x with
  | Some how => Some (on_slot k (set_request None) w, Some how)
  | None => if slot_sender x then None else Some (w, None)
  end.

Definition or_stop {X} (work : SProg X) : SProg (Step X) :=
  let! step := select_biased recv_stop (fun stop => Some (StepStop (default StopLeave stop)))
                 (let! x := work in Ret (StepDone x)) in
  match step with
  | StepStop how => call (StopSeen how) ;;; Ret (StepStop how)
  | StepDone x => Ret (StepDone x)
  end.

Definition publish (status : ServiceStatus) : SProg unit :=
  modify (on_slot k (set_summary (status_summary status))) ;;;
  call (Publish k status).

Definition failed (failures : Z) (failure : RunFailure) : SProg (Z * RunFailure) :=
  call (Warn failures failure) ;;;
  Ret (u32_saturating_succ failures, failure).

(** A call of the user's code, whose panic ends the runner. *)
Definition user {X} (q : ServicePort (unwound X)) : SProg X :=
  let! answered := ask q in
  match answered with
  | Returned x => Ret x
  | Unwound => Panic "service panicked"
  end.

Definition start_scoped (launch : ServiceLaunch) : SProg (result (Running * ServiceInstance) string) :=
  let! created := call TryCreateScope in
  match created with
  | Err e => Ret (Err (scope_creation_error_display e))
  | Ok scope =>
      let! spawned := ask (SpawnIn scope (sl_spec launch)) in
      match spawned with
      | Err error =>
          ask (TerminateScope scope (so_terminate options)) ;;;
          Ret (Err ("spawn: " +:+ spawn_error_display error))
      | Ok pid =>
          let! os_pid := call (OsPid pid) in
          let! output := call (TakeOutput pid) in
          Ret (Ok (RunScoped scope pid, mkServiceInstance (default 0 os_pid) false output None))
      end
  end.

Definition kept_instance (process : KeptProcess) (adopted : bool) : ServiceInstance :=
  mkServiceInstance (kept_os_pid process) adopted None (Some (kp_record process)).

(** [start_kept] from the start of a new run on. *)
Definition start_new (kept : KeptProcesses) (launch : ServiceLaunch) : SProg (result (Running * ServiceInstance) string) :=
  let spec := mkKeptSpec name (sl_spec launch) (sl_log launch) (sl_revision launch) in
  let! started := ask (KeptStart kept spec) in
  match started with
  | Err e => Ret (Err (kept_failure e))
  | Ok process => Ret (Ok (RunKept process, kept_instance process false))
  end.

Definition start_kept (kept : KeptProcesses) (launch : ServiceLaunch) (may_adopt : bool) :
    SProg (result (Running * ServiceInstance) string) :=
  let fingerprint := launch_fingerprint launch in
  let! previous := ask (KeptAdopt kept name) in
  match previous with
  | Err e => Ret (Err (kept_failure e))
  | Ok None => start_new kept launch
  | Ok (Some previous) =>
      if may_adopt && bool_decide (rec_fingerprint (kp_record previous) = fingerprint) then
        Ret (Ok (RunKept previous, kept_instance previous true))
      else
        let! ended := ask (KeptTerminate previous (so_terminate options)) in
        if negb (is_verified (kt_outcome ended)) then
          Ret (Err ("previous run did not stop: " +:+ outcome_debug (kt_outcome ended)))
        else start_new kept launch
  end.

(** *** The exit of a run, and what it is in words *)

Definition exit_answer (running : Running) : Type :=
  match running with
  | RunScoped _ _ => result ProcessExit WaitError
  | RunKept _ => KeptExit
  end.

Definition exit_question (running : Running) : ServicePort (exit_answer running) :=
  match running with
  | RunScoped _ pid => WaitFor pid
  | RunKept process => KeptExited process
  end.

Definition exit_text (running : Running) : exit_answer running -> string :=
  match running with
  | RunScoped _ _ => fun r =>
      match r with
      | Ok exit => describe (exit_code exit) (signal_debug <$> exit_signal exit)
      | Err error => "wait failed: " +:+ wait_error_display error
      end
  | RunKept _ => fun exit => describe (kexit_code exit) (signal_debug <$> kexit_signal exit)
  end.

Definition exited (running : Running) : SProg string :=
  let! x := ask (exit_question running) in
  Ret (exit_text running x).

(** *** Readiness *)

Definition late : RunFailure := mkRunFailure KindNotReadyInTime "not ready in time".

(** The block [check]; a bound of its rounds. *)
Fixpoint check_loop (polls : nat) (deadline : Instant) (instance : ServiceInstance) : SProg (result R RunFailure) :=
  match polls with
  | O => await (fun _ => None)
  | S polls =>
      let! ready := user (UserReady instance) in
      match ready with
      | Ok (Some value) => Ret (Ok value)
      | Err failure => Ret (Err (mkRunFailure KindReadyCheck ("not ready: " +:+ service_failure failure)))
      | Ok None =>
          let! now := call ServiceNow in
          if deadline <=? now then Ret (Err late)
          else ask (ServiceSleep (so_ready_poll options)) ;;; check_loop polls deadline instance
      end
  end.

Definition until_ready (polls : nat) (running : Running) (instance : ServiceInstance) : SProg (result R RunFailure) :=
  let! now := call ServiceNow in
  let deadline := now + so_ready_within options in
  let! first := race (Either (Answer (exit_question running)) (Answer (ServiceSleep (so_ready_within options))))
                  (check_loop polls deadline instance) in
  Ret (match first with
       | inl result => result
       | inr (inl exit) =>
           Err (mkRunFailure KindExitedBeforeReady ("exited before ready: " +:+ exit_text running exit))
       | inr (inr _) => Err late
       end).

(** *** The end of a run *)

(** The outcome of the run's process in the report on its scope. *)
Definition scoped_outcome (pid : ProcessId) (report : result ScopeTerminationReport TerminateError) :
    option TerminationOutcome :=
  match report with
  | Err _ => None
  | Ok report =>
      Some (match list_find (fun entry => entry.1 = pid) (report_outcomes report) with
            | Some (_, (_, outcome)) => outcome
            | None => ExitedNaturally
            end)
  end.

Definition end_run (running : Running) (how : ServiceStop) : SProg ServiceStopped :=
  match running, how with
  | RunKept process, StopLeave =>
      let os_pid := kept_os_pid process in
      call (KeptRelease process) ;;;
      Ret (stopped None (Some os_pid))
  | RunKept process, StopTerminate =>
      let! ended := ask (KeptTerminate process (so_terminate options)) in
      Ret (stopped (Some (kt_outcome ended)) None)
  | RunScoped scope pid, _ =>
      let! report := ask (TerminateScope scope (so_terminate options)) in
      Ret (stopped (scoped_outcome pid report) None)
  end.

Definition final_status (result : ServiceStopped) : ServiceStatus :=
  match ss_left_running result with
  | Some os_pid => Service_Released os_pid
  | None => Service_Stopped
  end.

Definition finish (running : option Running) (how : ServiceStop) : SProg ServiceStopped :=
  publish Service_Stopping ;;;
  let! result := match running with
                 | Some running => end_run running how
                 | None => Ret (stopped None None)
                 end in
  publish (final_status result) ;;;
  Ret result.

(** *** [run] *)

(** Its local variables. *)
Record RunState : Type := mkRunState {
  rs_failures : Z;
  rs_attempt : Z;
  rs_last : RunFailure;
  rs_may_adopt : bool;
}.

Definition run_begins : RunState := mkRunState 0 0 (mkRunFailure KindStart "") true.

(** [continue], after [failed]. *)
Definition next_round (s : RunState) (may_adopt : bool) (failures : Z) (failure : RunFailure) :
    SProg (RunState + ServiceStopped) :=
  let! (failures, last) := failed failures failure in
  Ret (inl (mkRunState failures (rs_attempt s) last may_adopt)).

(** The first block of the loop's body; [Some] is a [return]. *)
Definition back_off (s : RunState) : SProg (option ServiceStopped) :=
  if 0 <? rs_failures s then
    if gives_up (so_restart options) (rs_failures s) then
      publish (Service_Failed (rf_kind (rs_last s)) (rf_reason (rs_last s))) ;;;
      Ret (Some (stopped None None))
    else
      let delay := delay (so_restart options) (rs_failures s) in
      publish (Service_Backoff (rs_failures s) delay (rf_kind (rs_last s)) (rf_reason (rs_last s))) ;;;
      let! slept := or_stop (ask (ServiceSleep delay)) in
      match slept with
      | StepStop _ => publish Service_Stopped ;;; Ret (Some (stopped None None))
      | StepDone _ => Ret None
      end
  else Ret None.

(** A run that has started: readiness, then its exit. *)
Definition watch_run (polls : nat) (s : RunState) (running : Running) (instance : ServiceInstance) :
    SProg (RunState + ServiceStopped) :=
  let! ready := or_stop (until_ready polls running instance) in
  match ready with
  | StepStop how => let! result := finish (Some running) how in Ret (inr result)
  | StepDone (Err failure) =>
      end_run running StopTerminate ;;;
      next_round s false (rs_failures s) failure
  | StepDone (Ok value) =>
      publish (Service_Ready value (si_os_pid instance) (si_adopted instance)) ;;;
      let! ready_at := call ServiceNow in
      let! exit := or_stop (exited running) in
      match exit with
      | StepStop how => let! result := finish (Some running) how in Ret (inr result)
      | StepDone exit =>
          end_run running StopTerminate ;;;
          let! now := call ServiceNow in
          let failures :=
            if healthy_duration (so_restart options) <=? duration_saturating_sub now ready_at
            then 0 else rs_failures s in
          next_round s false failures (mkRunFailure KindExited exit)
      end
  end.

(** The loop's body. *)
Definition round (polls : nat) (s : RunState) : SProg (RunState + ServiceStopped) :=
  let! returned := back_off s in
  match returned with
  | Some result => Ret (inr result)
  | None =>
      let attempt := u32_saturating_succ (rs_attempt s) in
      let s := mkRunState (rs_failures s) attempt (rs_last s) (rs_may_adopt s) in
      publish (Service_Starting attempt) ;;;
      let! launched := or_stop (user UserLaunch) in
      match launched with
      | StepStop how => let! result := finish None how in Ret (inr result)
      | StepDone (Err failure) =>
          next_round s (rs_may_adopt s) (rs_failures s)
            (mkRunFailure KindLaunch ("launch: " +:+ service_failure failure))
      | StepDone (Ok launch) =>
          let! started := match so_kept options with
                          | Some kept => start_kept kept launch (rs_may_adopt s)
                          | None => start_scoped launch
                          end in
          match started with
          | Err failure => next_round s (rs_may_adopt s) (rs_failures s) (mkRunFailure KindStart failure)
          | Ok (running, instance) => watch_run polls s running instance
          end
      end
  end.

Fixpoint run_rounds (rounds polls : nat) (s : RunState) : SProg ServiceStopped :=
  match rounds with
  | O => await (fun _ => None)
  | S rounds =>
      let! r := round polls s in
      match r with
      | inl s => run_rounds rounds polls s
      | inr result => Ret result
      end
  end.

(** The rounds are not bounded in the code; every finite run has some bound. *)
Definition run (rounds polls : nat) : SProg ServiceStopped := run_rounds rounds polls run_begins.

(** The task: its end is what the [JoinHandle] gives. *)
Definition runner_task (rounds polls : nat) : SProg unit :=
  cancel_with (on_slot k (set_runner RunnerLost))
    (let! r := catch (run rounds polls) in
     modify (on_slot k (set_runner (match r with Ok r => RunnerReturned r | Err _ => RunnerLost end)))).
End Runner.

Definition service_body (t : ServiceTask) : SProg unit :=
  match t with RunService k name options rounds polls => runner_task k name options rounds polls end.

(** ** [ServiceSupervisor] and [ServiceHandle] *)

Definition service_new : ServiceWorld := mkServiceWorld ∅ ∅ 0.

(** The critical section of [start]: is the name in use? The new channels. *)
Definition register (name : KeptName) (w : ServiceWorld) : ServiceWorld * option nat :=
  if match sw_services w !! name with
     | Some k => match sw_slots w !! k with Some x => negb (is_final (slot_summary x)) | None => false end
     | None => false
     end
  then (w, None)
  else
    (mkServiceWorld (<[name := sw_next w]> (sw_services w))
       (<[sw_next w := mkSlot name (Summary_Starting 1) (Service_Starting 1) None true RunnerActive true]> (sw_slots w))
       (S (sw_next w)),
     Some (sw_next w)).

(** A handle is the number of its service. *)
Definition service_start (rounds polls : nat) (name : KeptName) (options : ServiceOptions) : SProg (result nat ServiceNameInUse) :=
  let! registered := act (register name) in
  match registered with
  | None => Ret (Err (mkServiceNameInUse name))
  | Some k => fork (RunService k name options rounds polls) ;;; Ret (Ok k)
  end.

Definition service_summaries (w : ServiceWorld) : list ServiceSummary :=
  merge_sort (fun a b => name_le (sum_name a) (sum_name b))
    (omap (fun entry => (fun x => mkServiceSummary entry.1 (slot_summary x)) <$> sw_slots w !! entry.2)
       (map_to_list (sw_services w))).

Definition service_list : SProg (list ServiceSummary) := reads service_summaries.

Definition handle_name (k : nat) (w : ServiceWorld) : option KeptName := slot_name <$> sw_slots w !! k.
(** What a receiver of the status borrows. *)
Definition handle_status (k : nat) (w : ServiceWorld) : option ServiceStatus := slot_status <$> sw_slots w !! k.

(** [wait_for] on the status: the value is looked at first, then whether the sender is gone. *)
Definition status_seen (k : nat) (w : ServiceWorld) : option (ServiceWorld * option R) :=
  x ← sw_slots w !! k;
  match slot_status x with
  | Service_Ready value _ _ => Some (w, Some value)
  | s =>
      if status_is_final s then Some (w, None)
      else match slot_runner x with RunnerActive => None | _ => Some (w, None) end
  end.

Definition handle_ready (k : nat) : SProg (option R) := await (status_seen k).

(** A message is lost when the runner is gone. *)
Definition send_stop (how : ServiceStop) (x : Slot) : Slot :=
  match slot_runner x with
  | RunnerActive => close_sender (Some how) x
  | _ => close_sender None x
  end.

Definition task_ended (k : nat) (w : ServiceWorld) : option (ServiceWorld * ServiceStopped) :=
  x ← sw_slots w !! k;
  match slot_runner x with
  | RunnerActive => None
  | RunnerReturned r => Some (w, r)
  | RunnerLost => Some (w, stopped None None)
  end.

(** A handle moves out of its holder's hands once. *)
Definition move_handle (k : nat) (w : ServiceWorld) : option (ServiceWorld * unit) :=
  x ← sw_slots w !! k;
  if slot_handle x then Some (on_slot k take_handle w, tt) else None.

Definition handle_stop (k : nat) (how : ServiceStop) : SProg ServiceStopped :=
  modify (on_slot k (send_stop how)) ;;;
  await (task_ended k).

Definition handle_drop (k : nat) : SProg unit := modify (on_slot k (close_sender None)).
End Service.
