(* ===== verification/ServiceOrder.v ===== *)
(** * ServiceOrder: what the runner of a service does, in which order

    Two protocols of one runner, for all answers of the user's code, the process
    supervisor, the kept processes and the clock, and for every pace of the others: the
    ledger of its runs, and the statuses it publishes. *)

From stdpp Require Import base list gmap strings.
From S2P Require Import Prelude StdModel Values Restart KeptDomain Ports Conc Protocol History KeptState Display Service.

Open Scope Z_scope.
Open Scope prog_scope.

Section Order.
Context {R : Type}.
Abbreviation Port := (ServicePort (R := R)).
Abbreviation SProg := (Prog (S := ServiceWorld (R := R)) (Q := ServicePort (R := R)) (T := ServiceTask)).

(** A question with its answer. *)
Inductive answered : Type :=
| Did {X : Type} (q : Port X) (x : X)
| Began (t : ServiceTask).

Definition service_label (X : Type) (q : Port X) : X -> answered := Did q.

Definition service_trace {A} (p : SProg A) (ls : list answered) (r : option A) : Prop :=
  trace service_answer service_label Began p ls r.

Abbreviation obeys := (Protocol.obeys (answer := service_answer) (label := service_label) (started := Began)) (only parsing).

(** ** What the runner does, for any protocol *)

Section Generic.
Context {P : Type} (delta : P -> answered -> option P) (k : nat).
Abbreviation anyhow := (fun _ : P => True).

Lemma obeys_publish (J : P -> Prop) p status (post : P -> unit -> Prop) :
  (exists p', delta p (Did (Publish k status) tt) = Some p' /\ post p' tt) -> obeys delta J (publish k status) p post.
Proof.
  intros (p' & Hs & Hp). unfold publish. apply (obeys_bind _ _ _ _ _ (fun q _ => q = p)); [by apply obeys_act|].
  intros q _ ->. apply obeys_call. intros []. by exists p'.
Qed.

(** A stop request may interrupt [work] wherever it is suspended. *)
Lemma obeys_or_stop {X} (J : P -> Prop) (asked : ServiceStop -> P) p (work : SProg X) (post : P -> Step X -> Prop) :
  J p -> (forall q how, J q -> delta q (Did (StopSeen how) tt) = Some (asked how)) ->
  (forall how, post (asked how) (StepStop how)) ->
  obeys delta J work p (fun p x => post p (StepDone x)) -> obeys delta anyhow (or_stop k work) p post.
Proof.
  intros HJ Hstop Hpost Hwork. unfold or_stop.
  apply (obeys_bind _ _ _ _ _ (fun p step =>
    match step with StepStop _ => J p | StepDone x => post p (StepDone x) end)).
  - apply (obeys_select _ J); [done|done| |].
    + intros q x Hq. eexists. by split.
    + eapply obeys_bind; [exact Hwork|]. intros q x Hq. exact Hq.
  - intros q [x|how] Hq; [exact Hq|].
    apply (obeys_bind _ _ _ _ _ (fun p _ => p = asked how)); [|intros ? _ ->; apply Hpost].
    apply obeys_call. intros []. exists (asked how). split; [by apply Hstop|done].
Qed.

Lemma obeys_user {X} (J : P -> Prop) p (q : Port (unwound X)) (post : P -> X -> Prop) :
  J p -> (forall x, exists p', delta p (Did q (Returned x)) = Some p' /\ post p' x) ->
  (exists p', delta p (Did q Unwound) = Some p') -> obeys delta J (user q) p post.
Proof.
  intros HJ Hx [p2 Hu]. unfold user.
  apply (obeys_bind _ _ _ _ _ (fun p r => match r with Returned x => post p x | Unwound => True end)).
  - apply obeys_ask; [done|]. intros [x|]; [apply Hx|by exists p2].
  - intros q' [x|] Hp; [exact Hp|done].
Qed.
End Generic.

Section Runner.
Context (k : nat) (name : KeptName) (options : ServiceOptions).

(** ** The ledger of the runs *)

(** Nothing runs; a launch was prepared; its scope was made; a spawn failed, so its scope has to
    be swept; an earlier run has to stop first; a kept run may start; a run; the
    end, with what is to be returned; the final status was published. *)
Inductive ledger_phase : Type :=
| Idle
| Prepared (launch : ServiceLaunch)
| Scoped (launch : ServiceLaunch) (scope : ProcessScopeId)
| Sweeping (scope : ProcessScopeId)
| Replacing (launch : ServiceLaunch) (previous : KeptProcess)
| Vacant (launch : ServiceLaunch)
| Runs (running : Running) (adopted : bool)
| Over (result : ServiceStopped)
| Closed (result : ServiceStopped).

(** With whether the runner has had a run of its own, and the stop request it has seen. *)
Record ledger : Type := mkLedger {
  lg_fresh : bool;
  lg_stop : option ServiceStop;
  lg_phase : ledger_phase;
}.
Definition ledger_begins : ledger := mkLedger true None Idle.

Definition to_phase (s : ledger) (p : ledger_phase) : option ledger := Some (mkLedger (lg_fresh s) (lg_stop s) p).
Definition has_run (s : ledger) (running : Running) (adopted : bool) : option ledger :=
  Some (mkLedger false (lg_stop s) (Runs running adopted)).
(** A run was ended, with this outcome: at a request that is the end of the runner. *)
Definition run_ended (s : ledger) (outcome : option TerminationOutcome) : option ledger :=
  to_phase s (match lg_stop s with Some _ => Over (stopped outcome None) | None => Idle end).
Definition given {A} (b : bool) (o : option A) : option A := if b then o else None.

Definition describes (running : Running) (adopted : bool) (i : ServiceInstance) : bool :=
  match running with
  | RunScoped _ _ => negb adopted && negb (si_adopted i) && bool_decide (si_record i = None)
  | RunKept p =>
      bool_decide (si_adopted i = adopted) && (si_os_pid i =? kept_os_pid p) && bool_decide (si_record i = Some (kp_record p))
  end.

Definition ledger_status (s : ledger) (status : ServiceStatus (R := R)) : option ledger :=
  match status, lg_phase s with
  | Service_Starting _, Idle => given (bool_decide (lg_stop s = None)) (Some s)
  | Service_Backoff _ _ _ _, Idle => given (bool_decide (lg_stop s = None)) (Some s)
  | Service_Ready _ os_pid adopted, Runs running adopted' =>
      given (bool_decide (lg_stop s = None) && bool_decide (adopted = adopted') &&
             match running with RunKept p => os_pid =? kept_os_pid p | _ => true end) (Some s)
  | Service_Stopping, Runs _ _ => given (negb (bool_decide (lg_stop s = None))) (Some s)
  | Service_Stopping, Over _ => given (negb (bool_decide (lg_stop s = None))) (Some s)
  | Service_Stopped, Over r => given (bool_decide (ss_left_running r = None)) (to_phase s (Closed r))
  | Service_Released os_pid, Over r => given (bool_decide (ss_left_running r = Some os_pid)) (to_phase s (Closed r))
  | Service_Failed _ _, Idle => given (bool_decide (lg_stop s = None)) (to_phase s (Closed (stopped None None)))
  | _, _ => None
  end.

Definition ledger_delta (s : ledger) (l : answered) : option ledger :=
  match l with
  | Began _ => None
  | Did q x =>
      match q in ServicePort X return X -> option ledger with
      | UserLaunch => fun answer =>
          match lg_phase s, lg_stop s, answer with
          | Idle, None, Returned (Ok launch) => to_phase s (Prepared launch)
          | Idle, None, _ => Some s
          | _, _, _ => None
          end
      | TryCreateScope => fun created =>
          match lg_phase s, so_kept options, created with
          | Prepared launch, None, Ok scope => to_phase s (Scoped launch scope)
          | Prepared _, None, Err _ => to_phase s Idle
          | _, _, _ => None
          end
      | SpawnIn scope spec => fun spawned =>
          match lg_phase s with
          | Scoped launch scope' =>
              given (bool_decide (scope = scope') && bool_decide (spec = sl_spec launch))
                match spawned with
                | Ok pid => has_run s (RunScoped scope pid) false
                | Err _ => to_phase s (Sweeping scope)
                end
          | _ => None
          end
      | TerminateScope scope opts => fun report =>
          match lg_phase s with
          | Sweeping scope' => given (bool_decide (scope = scope') && bool_decide (opts = so_terminate options)) (to_phase s Idle)
          | Runs (RunScoped scope' pid) _ =>
              given (bool_decide (scope = scope') && bool_decide (opts = so_terminate options))
                (run_ended s (scoped_outcome pid report))
          | _ => None
          end
      | KeptAdopt kept name' => fun previous =>
          match lg_phase s with
          | Prepared launch =>
              given (bool_decide (so_kept options = Some kept) && bool_decide (name' = name))
                match previous with
                | Err _ => to_phase s Idle
                | Ok None => to_phase s (Vacant launch)
                | Ok (Some p) =>
                    if lg_fresh s && bool_decide (rec_fingerprint (kp_record p) = launch_fingerprint launch)
                    then has_run s (RunKept p) true
                    else to_phase s (Replacing launch p)
                end
          | _ => None
          end
      | KeptTerminate p opts => fun ended =>
          match lg_phase s with
          | Replacing launch p' =>
              given (bool_decide (p = p') && bool_decide (opts = so_terminate options))
                (to_phase s (if is_verified (kt_outcome ended) then Vacant launch else Idle))
          | Runs (RunKept p') _ =>
              given (bool_decide (p = p') && bool_decide (opts = so_terminate options))
                (run_ended s (Some (kt_outcome ended)))
          | _ => None
          end
      | KeptStart kept spec => fun started =>
          match lg_phase s with
          | Vacant launch =>
              given (bool_decide (so_kept options = Some kept) &&
                     bool_decide (spec = mkKeptSpec name (sl_spec launch) (sl_log launch) (sl_revision launch)))
                match started with
                | Ok p => has_run s (RunKept p) false
                | Err _ => to_phase s Idle
                end
          | _ => None
          end
      | KeptRelease p => fun _ =>
          match lg_phase s with
          | Runs (RunKept p') _ =>
              given (bool_decide (p = p') && bool_decide (lg_stop s = Some StopLeave))
                (to_phase s (Over (stopped None (Some (kept_os_pid p)))))
          | _ => None
          end
      | UserReady i => fun _ =>
          match lg_phase s with Runs running adopted => given (bool_decide (lg_stop s = None) && describes running adopted i) (Some s) | _ => None end
      | WaitFor pid | OsPid pid | TakeOutput pid => fun _ =>
          match lg_phase s with Runs (RunScoped _ pid') _ => given (bool_decide (pid = pid')) (Some s) | _ => None end
      | KeptExited p => fun _ =>
          match lg_phase s with Runs (RunKept p') _ => given (bool_decide (p = p')) (Some s) | _ => None end
      | StopSeen how => fun _ =>
          match lg_phase s, lg_stop s with
          | Idle, None => Some (mkLedger (lg_fresh s) (Some how) (Over (stopped None None)))
          | Runs _ _, None => Some (mkLedger (lg_fresh s) (Some how) (lg_phase s))
          | _, _ => None
          end
      | ServiceNow | ServiceSleep _ | Warn _ _ => fun _ =>
          match lg_phase s with Closed _ => None | _ => Some s end
      | Publish k' status => fun _ => given (bool_decide (k' = k)) (ledger_status s status)
      end x
  end.

(** What the runner returns, once its final status is published. *)
Definition ledger_ends (s : ledger) (r : ServiceStopped) : Prop := lg_phase s = Closed r.

#[local] Arguments given {A} !b o /.
#[local] Hint Extern 1 (is_Some _) => (by eexists) : core.

Abbreviation ledger_obeys J := (obeys ledger_delta J) (only parsing).

Ltac decide_ok := cbn; rewrite ?bool_decide_eq_true_2, ?Z.eqb_refl by done; cbn.

(** What a start leaves. *)
Definition started_ok (f : bool) (s : ledger) (r : result (Running * ServiceInstance) string) : Prop :=
  match r with
  | Err _ => s = mkLedger f None Idle
  | Ok (running, i) =>
      s = mkLedger false None (Runs running (si_adopted i)) /\ describes running (si_adopted i) i = true /\
      (forall p, running = RunKept p -> si_os_pid i = kept_os_pid p)
  end.

Abbreviation anywhere := (fun _ : ledger => True).

Lemma ledger_start_scoped f launch :
  so_kept options = None ->
  ledger_obeys anywhere (start_scoped options launch) (mkLedger f None (Prepared launch)) (started_ok f).
Proof.
  intros Hk. unfold start_scoped.
  apply (obeys_bind _ _ _ _ _ (fun p r => p = mkLedger f None (match r with Ok scope => Scoped launch scope | Err _ => Idle end))).
  { apply obeys_call. intros [scope|e]; eexists; (split; [cbn; by rewrite Hk|done]). }
  intros p [scope|e] ->; [|done].
  apply (obeys_bind _ _ _ _ _ (fun p r => p =
    match r with Ok pid => mkLedger false None (Runs (RunScoped scope pid) false) | Err _ => mkLedger f None (Sweeping scope) end)).
  { apply obeys_ask; [done|]. intros [pid|e]; eexists; (split; [by decide_ok|done]). }
  intros p [pid|e] ->.
  - apply (obeys_bind _ _ _ _ _ (fun p _ => p = mkLedger false None (Runs (RunScoped scope pid) false))).
    { apply obeys_call. intros x. eexists. split; [by decide_ok|done]. }
    intros p x ->.
    apply (obeys_bind _ _ _ _ _ (fun p _ => p = mkLedger false None (Runs (RunScoped scope pid) false))).
    { apply obeys_call. intros y. eexists. split; [by decide_ok|done]. }
    intros p y ->. cbn. by split_and!.
  - apply (obeys_bind _ _ _ _ _ (fun p _ => p = mkLedger f None Idle)).
    { apply obeys_ask; [done|]. intros x. eexists. split; [by decide_ok|done]. }
    by intros p x ->.
Qed.

Lemma ledger_start_new f kept launch :
  so_kept options = Some kept ->
  ledger_obeys anywhere (start_new name kept launch) (mkLedger f None (Vacant launch)) (started_ok f).
Proof.
  intros Hk. unfold start_new.
  apply (obeys_bind _ _ _ _ _ (fun p r => p =
    match r with Ok q => mkLedger false None (Runs (RunKept q) false) | Err _ => mkLedger f None Idle end)).
  { apply obeys_ask; [done|]. intros [q|e]; eexists; (split; [by decide_ok|done]). }
  intros p [q|e] ->; [|done]. cbn. split_and!; [done|by decide_ok|by intros ? [= <-]].
Qed.

Lemma ledger_start_kept f kept launch :
  so_kept options = Some kept ->
  ledger_obeys anywhere (start_kept name options kept launch f) (mkLedger f None (Prepared launch)) (started_ok f).
Proof.
  intros Hk. unfold start_kept.
  apply (obeys_bind _ _ _ _ _ (fun p r => Some p =
    match r with
    | Err _ => Some (mkLedger f None Idle)
    | Ok None => Some (mkLedger f None (Vacant launch))
    | Ok (Some q) =>
        if f && bool_decide (rec_fingerprint (kp_record q) = launch_fingerprint launch)
        then Some (mkLedger false None (Runs (RunKept q) true)) else Some (mkLedger f None (Replacing launch q))
    end)).
  { apply obeys_ask; [done|]. intros r.
    destruct r as [[q|]|e]; [destruct (f && _) eqn:E| |]; eexists; (split; [|reflexivity]); cbn; rewrite ?E;
      by rewrite !bool_decide_eq_true_2. }
  intros p [[q|]|e] Hp; [|by simplify_eq; apply ledger_start_new|by simplify_eq].
  destruct (f && _) eqn:E; simplify_eq.
  { cbn. split_and!; [done|by decide_ok|by intros ? [= <-]]. }
  apply (obeys_bind _ _ _ _ _ (fun p t =>
    p = mkLedger f None (if is_verified (kt_outcome t) then Vacant launch else Idle))).
  { apply obeys_ask; [done|]. intros t. eexists. split; [by decide_ok|done]. }
  intros p t ->. destruct (is_verified (kt_outcome t)); cbn [negb]; [by apply ledger_start_new|done].
Qed.

(** The end of a run, at no request: [StopTerminate]. *)
Lemma ledger_end_run f stop running adopted how :
  (forall h, stop = Some h -> how = h) -> (stop = None -> how = StopTerminate) ->
  ledger_obeys anywhere (end_run options running how) (mkLedger f stop (Runs running adopted)) (fun s r =>
    s = mkLedger f stop (match stop with Some _ => Over r | None => Idle end)).
Proof.
  intros Hh Hn. unfold end_run. destruct running as [scope pid|q].
  - apply (obeys_bind _ _ _ _ _ (fun p r => p =
      mkLedger f stop (match stop with Some _ => Over (stopped (scoped_outcome pid r) None) | None => Idle end))).
    { apply obeys_ask; [done|]. intros r. eexists. split; [by decide_ok|by destruct stop]. }
    intros p r ->. cbn. done.
  - destruct how.
    + apply (obeys_bind _ _ _ _ _ (fun p r => p =
        mkLedger f stop (match stop with Some _ => Over (stopped (Some (kt_outcome r)) None) | None => Idle end))).
      { apply obeys_ask; [done|]. intros r. eexists. split; [by decide_ok|by destruct stop]. }
      intros p r ->. cbn. done.
    + destruct stop as [h|]; [|by specialize (Hn eq_refl)]. specialize (Hh h eq_refl) as <-.
      apply (obeys_bind _ _ _ _ _ (fun s _ => s = mkLedger f (Some StopLeave) (Over (stopped None (Some (kept_os_pid q)))))).
      { apply obeys_call. intros x. eexists. split; [by decide_ok|done]. }
      by intros p x ->.
Qed.

Lemma ledger_final f how result (post : ledger -> unit -> Prop) :
  post (mkLedger f (Some how) (Closed result)) tt ->
  ledger_obeys anywhere (publish k (final_status result)) (mkLedger f (Some how) (Over result)) post.
Proof.
  intros Hp. apply obeys_publish. exists (mkLedger f (Some how) (Closed result)). split; [|done].
  unfold final_status. destruct (ss_left_running result) eqn:E; by decide_ok.
Qed.

Lemma ledger_finish f how running adopted :
  ledger_obeys anywhere (finish k options running how)
    (mkLedger f (Some how) (match running with Some r => Runs r adopted | None => Over (stopped None None) end)) ledger_ends.
Proof.
  unfold finish. set (s := mkLedger f (Some how) _).
  apply (obeys_bind _ _ _ _ _ (fun p _ => p = s)).
  { apply obeys_publish. exists s. split; [|done]. by destruct running; decide_ok. }
  intros p _ ->. subst s.
  apply (obeys_bind _ _ _ _ _ (fun p r => p = mkLedger f (Some how) (Over r))).
  { destruct running as [r|]; [|done]. apply ledger_end_run; [by intros ? [= <-]|done]. }
  intros p r ->. eapply obeys_bind with (mid := fun p _ => p = mkLedger f (Some how) (Closed r));
    [by apply ledger_final|]. by intros p _ ->.
Qed.

Lemma ledger_check_loop s running adopted polls deadline i :
  s = mkLedger false None (Runs running adopted) -> describes running adopted i = true ->
  ledger_obeys (fun p => p = s) (check_loop options polls deadline i) s (fun p _ => p = s).
Proof.
  intros Hs Hi. induction polls as [|polls IH]; cbn [check_loop].
  { split; [done|]. intros s0 s1 x Hf. by cbn in Hf. }
  apply (obeys_bind _ _ _ _ _ (fun p _ => p = s)).
  { apply obeys_user; [done| |]; [intros x|]; exists s; [split; [|done]|]; subst s; cbn; by rewrite Hi. }
  intros p [[v|]|e] ->; [done| |done].
  apply (obeys_bind _ _ _ _ _ (fun p _ => p = s)); [apply obeys_call; intros x; exists s; by subst s|].
  intros p now ->. destruct (deadline <=? now); [done|].
  apply (obeys_bind _ _ _ _ _ (fun p _ => p = s)); [apply obeys_ask; [done|]; intros x; exists s; by subst s|].
  intros p _ ->. exact IH.
Qed.

Lemma ledger_exit s running adopted x :
  s = mkLedger false None (Runs running adopted) -> ledger_delta s (Did (exit_question (R := R) running) x) = Some s.
Proof. intros ->. destruct running; by decide_ok. Qed.

Lemma ledger_until_ready s running adopted polls i :
  s = mkLedger false None (Runs running adopted) -> describes running adopted i = true ->
  ledger_obeys (fun p => p = s) (until_ready options polls running i) s (fun p _ => p = s).
Proof.
  intros Hs Hi. unfold until_ready.
  apply (obeys_bind _ _ _ _ _ (fun p _ => p = s)); [apply obeys_call; intros x; exists s; by subst s|].
  intros p now ->.
  apply (obeys_bind _ _ _ _ _ (fun p _ => p = s)); [|by intros p r ->].
  apply (obeys_race _ (fun p => p = s)); [done|done| |by eapply ledger_check_loop].
  intros p s0 s1 [x|x] -> _; exists s; (split; [|done]); cbn [labels]; unfold service_label; cbn [run_from].
  - by erewrite ledger_exit.
  - by subst s.
Qed.

(** Before a round: nothing runs, and [may_adopt] says whether something has. *)
Definition between (s : RunState) : ledger := mkLedger (rs_may_adopt s) None Idle.
Definition round_ends (s : ledger) (r : RunState + ServiceStopped) : Prop :=
  match r with inl next => s = between next | inr result => ledger_ends s result end.

Lemma ledger_next_round s f failures failure :
  ledger_obeys anywhere (next_round s f failures failure) (mkLedger f None Idle) round_ends.
Proof.
  unfold next_round, failed.
  apply (obeys_bind _ _ _ _ _ (fun p _ => p = mkLedger f None Idle)); [|by intros p [n e] ->].
  apply (obeys_bind _ _ _ _ _ (fun p _ => p = mkLedger f None Idle)); [|by intros p u ->].
  apply obeys_call. intros x. eexists. by split.
Qed.

Lemma ledger_watch_run polls s running i :
  describes running (si_adopted i) i = true -> (forall p, running = RunKept p -> si_os_pid i = kept_os_pid p) ->
  ledger_obeys anywhere (watch_run k options polls s running i) (mkLedger false None (Runs running (si_adopted i))) round_ends.
Proof.
  intros Hi Hpid. unfold watch_run. set (s0 := mkLedger false None (Runs running (si_adopted i))).
  set (stopping how := mkLedger false (Some how) (Runs running (si_adopted i))).
  assert (Hstop : forall how, ledger_obeys anywhere (let! result := finish k options (Some running) how in Ret (inr result))
            (stopping how) round_ends).
  { intros how. eapply obeys_bind; [exact (ledger_finish false how (Some running) (si_adopted i))|]. intros p r Hp. exact Hp. }
  assert (Hend : ledger_obeys anywhere (end_run options running StopTerminate) s0 (fun p _ => p = mkLedger false None Idle)).
  { subst s0. eapply obeys_mono; [done| |apply ledger_end_run; [done|done]]. by intros p r ->. }
  apply (obeys_bind _ _ _ _ _ (fun p r => p = match r with StepStop how => stopping how | StepDone _ => s0 end)).
  { apply (obeys_or_stop _ _ (fun p => p = s0) stopping); [done|by intros ? ? ->|done|]. by eapply ledger_until_ready. }
  intros p [[value|failure]|how] ->; [| |apply Hstop].
  2:{ eapply obeys_bind; [exact Hend|]. intros p r ->. apply ledger_next_round. }
  apply (obeys_bind _ _ _ _ _ (fun p _ => p = s0)).
  { apply obeys_publish. exists s0. split; [|done]. subst s0. decide_ok. destruct running as [|q]; cbn; [done|].
    by rewrite (Hpid q eq_refl), Z.eqb_refl. }
  intros p _ ->. apply (obeys_bind _ _ _ _ _ (fun p _ => p = s0)); [apply obeys_call; intros x; exists s0; by split|].
  intros p ready_at ->.
  apply (obeys_bind _ _ _ _ _ (fun p r => p = match r with StepStop how => stopping how | StepDone _ => s0 end)).
  { apply (obeys_or_stop _ _ (fun p => p = s0) stopping); [done|by intros ? ? ->|done|]. unfold exited.
    apply (obeys_bind _ _ _ _ _ (fun p _ => p = s0)); [|by intros p x ->].
    apply obeys_ask; [done|]. intros x. exists s0. split; [|done]. by eapply ledger_exit. }
  intros p [exit|how] ->; [|apply Hstop]. eapply obeys_bind; [exact Hend|]. intros p r ->.
  apply (obeys_bind _ _ _ _ _ (fun p _ => p = mkLedger false None Idle)).
  { apply obeys_call. intros x. eexists. by split. }
  intros p now ->. apply ledger_next_round.
Qed.

Lemma ledger_back_off s :
  ledger_obeys anywhere (back_off k options s) (between s) (fun p r =>
    match r with None => p = between s | Some result => ledger_ends p result end).
Proof.
  unfold back_off. destruct (0 <? rs_failures s); [|done].
  destruct (gives_up (so_restart options) (rs_failures s)).
  { eapply obeys_bind with (mid := fun p _ => ledger_ends p (stopped None None)); [|by intros p _ Hp].
    apply obeys_publish. eexists. split; [by decide_ok|done]. }
  apply (obeys_bind _ _ _ _ _ (fun p _ => p = between s)); [apply obeys_publish; eexists; split; [by decide_ok|done]|]. intros p _ ->.
  apply (obeys_bind _ _ _ _ _ (fun p r => p =
    match r with StepStop how => mkLedger (rs_may_adopt s) (Some how) (Over (stopped None None)) | StepDone _ => between s end)).
  { apply (obeys_or_stop _ _ (fun p => p = between s) (fun how => mkLedger (rs_may_adopt s) (Some how) (Over (stopped None None))));
      [done|by intros ? ? ->|done|]. apply obeys_ask; [done|]. intros x. eexists. by split. }
  intros p [u|how] ->; [done|].
  eapply obeys_bind with (mid := fun p _ => ledger_ends p (stopped None None)); [|by intros p _ Hp].
  by apply (ledger_final _ how (stopped None None)).
Qed.

Lemma ledger_round polls s : ledger_obeys anywhere (round k name options polls s) (between s) round_ends.
Proof.
  unfold round. eapply obeys_bind; [apply ledger_back_off|]. intros p [result|] Hp; [exact Hp|]. subst p.
  apply (obeys_bind _ _ _ _ _ (fun p _ => p = between s)); [apply obeys_publish; eexists; split; [by decide_ok|done]|]. intros p _ ->.
  apply (obeys_bind _ _ _ _ _ (fun p r => p =
    match r with
    | StepStop how => mkLedger (rs_may_adopt s) (Some how) (Over (stopped None None))
    | StepDone (Ok launch) => mkLedger (rs_may_adopt s) None (Prepared launch)
    | StepDone (Err _) => between s
    end)).
  { apply (obeys_or_stop _ _ (fun p => p = between s) (fun how => mkLedger (rs_may_adopt s) (Some how) (Over (stopped None None))));
      [done|by intros ? ? ->|done|]. apply obeys_user; [done| |by eexists]. intros [launch|e]; eexists; by split. }
  cbn [rs_failures rs_attempt rs_last rs_may_adopt].
  intros p [[launch|failure]|how] ->; [|apply ledger_next_round|].
  2:{ eapply obeys_bind; [apply (ledger_finish _ how None false)|]. intros p r Hp. exact Hp. }
  apply (obeys_bind _ _ _ _ _ (started_ok (rs_may_adopt s))).
  { destruct (so_kept options) as [kept|] eqn:E; [by apply ledger_start_kept|by apply ledger_start_scoped]. }
  intros p [[running i]|e] Hp; cbn in Hp; [|subst p; apply ledger_next_round].
  destruct Hp as (-> & Hi & Hpid). by apply ledger_watch_run.
Qed.

Lemma ledger_run_rounds rounds polls s : ledger_obeys anywhere (run_rounds k name options rounds polls s) (between s) ledger_ends.
Proof.
  revert s. induction rounds as [|rounds IH]; intros s; cbn [run_rounds].
  { split; [done|]. intros s0 s1 x Hf. by cbn in Hf. }
  eapply obeys_bind; [apply ledger_round|]. intros p [s'|result] Hp; [|exact Hp]. cbn in Hp. subst p. apply IH.
Qed.

(** ** The statuses *)

(** With the consecutive failures, the attempts so far, and the last failure: before a round;
    [Backoff] was published; the delay is over; the launch, the start and the readiness checks
    of an attempt (with the value of the last check); ready (with the clock's reading then);
    the run is over; a stop request was seen (in a backoff or not); [Stopping] was published; a
    final status was published. *)
Inductive status_phase : Type :=
| Resting (failures attempt : Z) (last : RunFailure)
| Backing (failures attempt : Z) (delay : Duration)
| Waited (failures attempt : Z)
| Launching (failures attempt : Z)
| Starts (failures attempt : Z)
| Readying (failures attempt : Z) (value : option R)
| Serving (failures attempt : Z) (since : option Instant)
| Served (failures attempt : Z)
| AskedResting
| Asked
| Stops
| Finished.
Definition status_begins : status_phase := Resting 0 0 (rs_last run_begins).

Context `{EqDecision R}.

Definition to_status (b : bool) (p : status_phase) : option status_phase := if b then Some p else None.

Definition status_publish (p : status_phase) (s : ServiceStatus (R := R)) : option status_phase :=
  match p, s with
  | Resting f a last, Service_Failed kind reason =>
      to_status ((0 <? f) && gives_up (so_restart options) f && bool_decide (last = mkRunFailure kind reason)) Finished
  | Resting f a last, Service_Backoff f' d kind reason =>
      to_status ((0 <? f) && negb (gives_up (so_restart options) f) && (f' =? f)
                 && (d =? delay (so_restart options) f) && bool_decide (last = mkRunFailure kind reason)) (Backing f a d)
  | Resting f a last, Service_Starting n =>
      to_status (negb (0 <? f) && (n =? u32_saturating_succ a)) (Launching f n)
  | Waited f a, Service_Starting n => to_status (n =? u32_saturating_succ a) (Launching f n)
  | Readying f a (Some v), Service_Ready v' _ _ => to_status (bool_decide (v' = v)) (Serving f a None)
  | Asked, Service_Stopping => Some Stops
  | AskedResting, Service_Stopped => Some Finished
  | Stops, (Service_Stopped | Service_Released _) => Some Finished
  | _, _ => None
  end.

(** How readiness fails. *)
Definition readiness_kind (kind : ServiceFailureKind) : bool :=
  match kind with KindReadyCheck | KindNotReadyInTime | KindExitedBeforeReady => true | _ => false end.

Definition status_warn (p : status_phase) (n : Z) (failure : RunFailure) : option status_phase :=
  match p with
  | Launching f a => to_status ((n =? f) && bool_decide (rf_kind failure = KindLaunch)) (Resting (u32_saturating_succ f) a failure)
  | Starts f a => to_status ((n =? f) && bool_decide (rf_kind failure = KindStart)) (Resting (u32_saturating_succ f) a failure)
  | Readying f a _ =>
      to_status ((n =? f) && readiness_kind (rf_kind failure))
        (Resting (u32_saturating_succ f) a failure)
  | Served f a => to_status ((n =? f) && bool_decide (rf_kind failure = KindExited)) (Resting (u32_saturating_succ f) a failure)
  | _ => None
  end.

(** The phases in which a run is started, watched or ended. *)
Definition at_work (p : status_phase) : bool :=
  match p with Starts _ _ | Readying _ _ _ | Serving _ _ (Some _) | Stops => true | _ => false end.

Definition status_delta (p : status_phase) (l : answered) : option status_phase :=
  match l with
  | Began _ => None
  | Did q x =>
      match q in ServicePort X return X -> option status_phase with
      | UserLaunch => fun answer =>
          match p, answer with
          | Launching f a, Returned (Ok _) => Some (Starts f a)
          | Launching f a, _ => Some p
          | _, _ => None
          end
      | UserReady _ => fun answer =>
          match p, answer with
          | Readying f a _, Returned (Ok v) => Some (Readying f a v)
          | Readying f a _, _ => Some (Readying f a None)
          | _, _ => None
          end
      | ServiceNow => fun t =>
          match p with
          | Starts f a => Some (Readying f a None)
          | Readying f a None => Some p
          | Serving f a None => Some (Serving f a (Some t))
          | Serving f a (Some since) =>
              Some (Served (if healthy_duration (so_restart options) <=? duration_saturating_sub t since then 0 else f) a)
          | _ => None
          end
      | ServiceSleep d => fun _ =>
          match p with
          | Backing f a d' => to_status (d =? d') (Waited f a)
          | Readying _ _ None => to_status ((d =? so_ready_poll options) || (d =? so_ready_within options)) p
          | _ => None
          end
      | StopSeen _ => fun _ =>
          match p with
          | Backing _ _ _ => Some AskedResting
          | Launching _ _ | Starts _ _ | Readying _ _ None | Serving _ _ (Some _) => Some Asked
          | _ => None
          end
      | Warn n failure => fun _ => status_warn p n failure
      | Publish k' s => fun _ => if bool_decide (k' = k) then status_publish p s else None
      | _ => fun _ => to_status (at_work p) p
      end x
  end.

(** Starting, watching and ending a run asks the supervisor and the kept processes only. *)
Definition service_work (l : answered) : bool :=
  match l with
  | Began _ => false
  | Did q _ =>
      match q with
      | TryCreateScope | SpawnIn _ _ | TerminateScope _ _ | OsPid _ | TakeOutput _ | WaitFor _
      | KeptAdopt _ _ | KeptStart _ _ | KeptTerminate _ _ | KeptExited _ | KeptRelease _ => true
      | _ => false
      end
  end.

Abbreviation status_obeys J := (obeys status_delta J) (only parsing).
Abbreviation some_phase := (fun _ : status_phase => True).
Abbreviation works := (obeys (only service_work) (fun _ => True)) (only parsing).

Lemma service_work_delta p l : at_work p = true -> service_work l = true -> status_delta p l = Some p.
Proof. intros Hp Hl. destruct l as [X q x|t]; [|done]. destruct q; try done; cbn [status_delta]; by rewrite Hp. Qed.

Lemma status_works (J : status_phase -> Prop) {A} (prog : SProg A) p :
  at_work p = true -> J p -> works prog tt (fun _ _ => True) -> status_obeys J prog p (fun p' _ => p' = p).
Proof.
  intros Hp HJ Hw. eapply obeys_mono; [done| |eapply (obeys_only _ J service_work prog p (fun _ => True)); [exact Hw|done|]].
  - by intros q a [-> _].
  - intros l Hl. by apply service_work_delta.
Qed.

Ltac works_step :=
  eapply (obeys_bind _ _ _ _ _ (fun _ _ => True)); [first [apply obeys_ask; [done|]; intros ?; by exists tt | apply obeys_call; intros ?; by exists tt]|intros [] ? _].

Lemma works_start_scoped launch : works (start_scoped (R := R) options launch) tt (fun _ _ => True).
Proof.
  unfold start_scoped. works_step. case_match; [|done]. works_step. case_match; [|by works_step].
  works_step. by works_step.
Qed.

Lemma works_start_kept kept launch adopt : works (start_kept (R := R) name options kept launch adopt) tt (fun _ _ => True).
Proof.
  assert (Hnew : works (start_new (R := R) name kept launch) tt (fun _ _ => True)).
  { unfold start_new. works_step. by case_match. }
  unfold start_kept. works_step. case_match; [|done]. case_match; [|exact Hnew]. case_match; [done|].
  works_step. case_match; [done|exact Hnew].
Qed.

Lemma works_end_run running how : works (end_run (R := R) options running how) tt (fun _ _ => True).
Proof. unfold end_run. destruct running, how; by works_step. Qed.

Lemma works_exited running : works (exited (R := R) running) tt (fun _ _ => True).
Proof. unfold exited. eapply (obeys_bind _ _ _ _ _ (fun _ _ => True)); [|done]. destruct running; (apply obeys_ask; [done|]; intros ?; by exists tt). Qed.

Lemma status_finish p running how :
  p = Asked ->
  status_obeys some_phase (finish k options running how) p (fun p _ => p = Finished).
Proof.
  intros ->. unfold finish.
  apply (obeys_bind _ _ _ _ _ (fun p _ => p = Stops)); [apply obeys_publish; eexists; split; [by decide_ok|done]|]. intros p _ ->.
  apply (obeys_bind _ _ _ _ _ (fun p _ => p = Stops)).
  { destruct running as [r|]; [|done]. apply status_works; [done|done|apply works_end_run]. }
  intros p r ->. apply (obeys_bind _ _ _ _ _ (fun p _ => p = Finished)); [|by intros p _ ->].
  apply obeys_publish. exists Finished. split; [|done]. unfold final_status. destruct (ss_left_running r); by decide_ok.
Qed.

(** After the checks: a value is that of the last one; a failure is one of readiness. *)
Definition checked (f a : Z) (p : status_phase) (r : result R RunFailure) : Prop :=
  match r with
  | Ok v => p = Readying f a (Some v)
  | Err failure => p = Readying f a None /\ readiness_kind (rf_kind failure) = true
  end.

Lemma status_check_loop f a polls deadline i :
  status_obeys (fun p => p = Readying f a None) (check_loop options polls deadline i) (Readying f a None) (checked f a).
Proof.
  induction polls as [|polls IH]; cbn [check_loop].
  { split; [done|]. intros s0 s1 x Hf. by cbn in Hf. }
  apply (obeys_bind _ _ _ _ _ (fun p r => p = Readying f a (match r with Ok v => v | Err _ => None end))).
  { apply obeys_user; [done| |by eexists]. intros [v|e]; eexists; by split. }
  intros p [[v|]|e] ->; [done| |done].
  apply (obeys_bind _ _ _ _ _ (fun p _ => p = Readying f a None)); [apply obeys_call; intros x; eexists; by split|].
  intros p now ->. destruct (deadline <=? now); [done|].
  apply (obeys_bind _ _ _ _ _ (fun p _ => p = Readying f a None)).
  { apply obeys_ask; [done|]. intros x. eexists. split; [by decide_ok|done]. }
  intros p _ ->. exact IH.
Qed.

Lemma status_exit p running x :
  at_work p = true -> status_delta p (Did (exit_question (R := R) running) x) = Some p.
Proof. intros Hp. destruct running; cbn [exit_question status_delta]; by rewrite Hp. Qed.

Definition not_yet_ready (f a : Z) (p : status_phase) : Prop := p = Starts f a \/ p = Readying f a None.

Lemma status_until_ready f a polls running i :
  status_obeys (not_yet_ready f a) (until_ready options polls running i) (Starts f a) (checked f a).
Proof.
  unfold until_ready.
  apply (obeys_bind _ _ _ _ _ (fun p _ => p = Readying f a None)); [apply obeys_call; intros x; eexists; by split|].
  intros p now ->.
  apply (obeys_bind _ _ _ _ _ (fun p r => match r with inl r => checked f a p r | inr _ => p = Readying f a None end)).
  - apply (obeys_race _ (fun p => p = Readying f a None)); [done|by right|  |apply status_check_loop].
    intros p s0 s1 [x|x] -> _; exists (Readying f a None); (split; [|done]); cbn [labels]; unfold service_label; cbn [run_from].
    + by rewrite status_exit.
    + cbn. by rewrite Z.eqb_refl, orb_true_r.
  - intros p [r|[x|x]] Hp; [exact Hp|by split..].
Qed.

Definition rests (s : RunState) : status_phase := Resting (rs_failures s) (rs_attempt s) (rs_last s).
Definition status_round_ends (p : status_phase) (r : RunState + ServiceStopped) : Prop :=
  match r with inl next => p = rests next | inr _ => p = Finished end.

Lemma status_next_round p s adopt f failure :
  (forall x, status_delta p (Did (Warn f failure) x) = Some (Resting (u32_saturating_succ f) (rs_attempt s) failure)) ->
  status_obeys some_phase (next_round s adopt f failure) p status_round_ends.
Proof.
  intros Hd. unfold next_round, failed.
  apply (obeys_bind _ _ _ _ _ (fun p r => p = Resting r.1 (rs_attempt s) r.2)); [|by intros q [n e] ->].
  eapply (obeys_bind _ _ _ _ _ (fun q _ => q = _)); [|intros q u ->; reflexivity].
  apply obeys_call. intros x. eexists. split; [apply Hd|done].
Qed.

Lemma status_stopped running how :
  status_obeys some_phase (let! result := finish k options running how in Ret (inr result)) Asked status_round_ends.
Proof. eapply obeys_bind; [by apply status_finish|]. intros p r Hp. exact Hp. Qed.

Lemma status_watch_run polls s running i :
  status_obeys some_phase (watch_run k options polls s running i) (Starts (rs_failures s) (rs_attempt s)) status_round_ends.
Proof.
  unfold watch_run. set (f := rs_failures s). set (a := rs_attempt s).
  apply (obeys_bind _ _ _ _ _ (fun p r => match r with StepStop _ => p = Asked | StepDone r => checked f a p r end)).
  { apply (obeys_or_stop _ _ (not_yet_ready f a) (fun _ => Asked)); [by left|by intros q how [->| ->]|done|apply status_until_ready]. }
  intros p [[value|failure]|how] Hp; cbn in Hp; [subst p| |subst p; apply status_stopped].
  2:{ destruct Hp as [-> Hkind].
      apply (obeys_bind _ _ _ _ _ (fun p _ => p = Readying f a None)); [by apply status_works; [..|apply works_end_run]|].
      intros p r ->. apply status_next_round. intros []. cbn. by rewrite Z.eqb_refl, Hkind. }
  apply (obeys_bind _ _ _ _ _ (fun p _ => p = Serving f a None)).
  { apply obeys_publish. eexists. split; [by decide_ok|done]. }
  intros p _ ->.
  apply (obeys_bind _ _ _ _ _ (fun p t => p = Serving f a (Some t))); [apply obeys_call; intros t; eexists; by split|].
  intros p ready_at ->.
  apply (obeys_bind _ _ _ _ _ (fun p r => p = match r with StepStop _ => Asked | StepDone _ => Serving f a (Some ready_at) end)).
  { apply (obeys_or_stop _ _ (fun p => p = Serving f a (Some ready_at)) (fun _ => Asked)); [done|by intros q how ->|done|].
    by apply status_works; [..|apply works_exited]. }
  intros p [exit|how] ->; [|apply status_stopped].
  apply (obeys_bind _ _ _ _ _ (fun p _ => p = Serving f a (Some ready_at))); [by apply status_works; [..|apply works_end_run]|].
  intros p r ->.
  apply (obeys_bind _ _ _ _ _ (fun p now => p = Served
    (if healthy_duration (so_restart options) <=? duration_saturating_sub now ready_at then 0 else f) a)).
  { apply obeys_call. intros t. eexists. by split. }
  intros p now ->. apply status_next_round. intros []. cbn. by rewrite Z.eqb_refl.
Qed.

Lemma status_back_off s :
  status_obeys some_phase (back_off k options s) (rests s) (fun p r =>
    match r with
    | None => p = rests s /\ (0 <? rs_failures s) = false \/ p = Waited (rs_failures s) (rs_attempt s)
    | Some _ => p = Finished
    end).
Proof.
  unfold back_off. destruct (0 <? rs_failures s) eqn:Ef; [|by left].
  destruct (gives_up (so_restart options) (rs_failures s)) eqn:Eg.
  { apply (obeys_bind _ _ _ _ _ (fun p _ => p = Finished)); [|by intros p _ ->].
    apply obeys_publish. eexists. split; [|done]. destruct (rs_last s) eqn:El. cbn. rewrite bool_decide_eq_true_2 by done.
    cbn. by rewrite Ef, Eg, bool_decide_eq_true_2. }
  set (d := delay (so_restart options) (rs_failures s)).
  apply (obeys_bind _ _ _ _ _ (fun p _ => p = Backing (rs_failures s) (rs_attempt s) d)).
  { apply obeys_publish. eexists. split; [|done]. destruct (rs_last s) eqn:El. cbn. rewrite bool_decide_eq_true_2 by done.
    cbn. by rewrite Ef, Eg, !Z.eqb_refl, bool_decide_eq_true_2. }
  intros p _ ->.
  apply (obeys_bind _ _ _ _ _ (fun p r => p =
    match r with StepStop _ => AskedResting | StepDone _ => Waited (rs_failures s) (rs_attempt s) end)).
  { apply (obeys_or_stop _ _ (fun p => p = Backing (rs_failures s) (rs_attempt s) d) (fun _ => AskedResting));
      [done|by intros q how ->|done|].
    apply obeys_ask; [done|]. intros []. eexists. split; [by decide_ok|done]. }
  intros p [u|how] ->; [by right|].
  apply (obeys_bind _ _ _ _ _ (fun p _ => p = Finished)); [|by intros p _ ->].
  apply obeys_publish. eexists. split; [by decide_ok|done].
Qed.

Lemma status_round polls s : status_obeys some_phase (round k name options polls s) (rests s) status_round_ends.
Proof.
  unfold round. eapply obeys_bind; [apply status_back_off|]. intros p [result|] Hp; [exact Hp|].
  set (f := rs_failures s). set (a := u32_saturating_succ (rs_attempt s)).
  apply (obeys_bind _ _ _ _ _ (fun p _ => p = Launching f a)).
  { apply obeys_publish. eexists. split; [|done]. destruct Hp as [[-> Ef]| ->]; decide_ok; [by rewrite Ef|done]. }
  clear p Hp. intros p _ ->. cbn [rs_failures rs_attempt rs_last rs_may_adopt].
  apply (obeys_bind _ _ _ _ _ (fun p r => p =
    match r with StepStop _ => Asked | StepDone (Ok _) => Starts f a | StepDone (Err _) => Launching f a end)).
  { apply (obeys_or_stop _ _ (fun p => p = Launching f a) (fun _ => Asked)); [done|by intros q how ->|done|].
    apply obeys_user; [done| |by eexists]. intros [launch|e]; eexists; by split. }
  intros p [[launch|failure]|how] ->; [| |apply status_stopped].
  2:{ apply status_next_round. intros []. cbn. by rewrite Z.eqb_refl. }
  apply (obeys_bind _ _ _ _ _ (fun p _ => p = Starts f a)).
  { destruct (so_kept options) as [kept|]; (apply status_works; [done|done|]);
      [apply works_start_kept|apply works_start_scoped]. }
  intros p [[running i]|e] ->; [apply status_watch_run|].
  apply status_next_round. intros []. cbn. by rewrite Z.eqb_refl.
Qed.

Lemma status_run_rounds rounds polls s :
  status_obeys some_phase (run_rounds k name options rounds polls s) (rests s) (fun p _ => p = Finished).
Proof.
  revert s. induction rounds as [|rounds IH]; intros s; cbn [run_rounds].
  { split; [done|]. intros s0 s1 x Hf. by cbn in Hf. }
  eapply obeys_bind; [apply status_round|]. intros p [s'|result] Hp; [|exact Hp]. cbn in Hp. subst p. apply IH.
Qed.
End Runner.

(** ** Properties *)

(** C23. The ledger of a service's runs: in every run of the runner, completed or cut short, with
    any answers, one run exists at a time, and it is ended (terminated, or released
    after a request to leave it) before the next launch and before the end; a spawn that failed
    has its scope swept; a kept run is started only when no earlier one is left, or
    after it stopped verifiably; an earlier run is adopted only with the same fingerprint and
    before the runner had a run of its own; readiness is asked of the current run only; the
    final status and the returned value say what happened to the last run. *)
Theorem service_runs_ledger k name options rounds polls ls r :
  service_trace (run k name options rounds polls) ls r ->
  exists s, run_from (ledger_delta k name options) ledger_begins ls = Some s /\
    forall a, r = Some a -> ledger_ends s a.
Proof. intros Htr. eapply obeys_sound; [apply (ledger_run_rounds k name options rounds polls run_begins)|exact Htr]. Qed.

(** C24. The statuses of a service: attempts are numbered from 1, consecutive failures are counted
    as the log says (from 0 again after a run that was ready for the healthy duration);
    after a failure the delay of the restart policy is announced and slept, or, exactly when
    the policy gives up, the service fails for good with the last failure; [Ready] carries
    the value of the last readiness check; [Stopping] follows a stop request only; nothing
    follows a final status, and the runner returns after one only. *)
Theorem service_status_protocol `{EqDecision R} k name options rounds polls ls r :
  service_trace (run k name options rounds polls) ls r ->
  exists p, run_from (status_delta k options) status_begins ls = Some p /\ forall a, r = Some a -> p = Finished.
Proof.
  intros Htr. destruct (obeys_sound _ _ _ _ _ _ _ (status_run_rounds k name options rounds polls run_begins) Htr) as (p & Hp & Hr).
  by exists p.
Qed.
End Order.

(** ** A run *)

Section Demo.
Definition demo_launch : ServiceLaunch := service_launch_new (spec_new "served").
Definition demo_name : KeptName := mkKeptName "demo".
Definition demo_process : KeptProcess :=
  mkKeptProcess 0
    (mkKeptRecord demo_name 7 1 None None "served" [] (launch_fingerprint demo_launch) None Term None "owner" 0)
    (mkKeptLaunch 7 1).
(** The first failure is the last. *)
Definition demo_options : ServiceOptions :=
  mkServiceOptions (restart_max_failures restart_default (Some 0)) (from_secs 30) (from_millis 500) terminate_default
    (Some (mkKeptProcesses 0)).

(** An earlier run is adopted, becomes ready at once, and exits with code 3. *)
Definition demo_oracle (w : ServiceWorld (R := nat)) (X : Type) (q : ServicePort (R := nat) X) : option X :=
  match q with
  | UserLaunch => Some (Returned (Ok demo_launch))
  | UserReady _ => Some (Returned (Ok (Some 5%nat)))
  | KeptAdopt _ _ => Some (Ok (Some demo_process))
  | KeptTerminate _ _ => Some (mkKeptTermination ExitedNaturally None)
  | KeptExited _ =>
      match slot_status <$> sw_slots w !! 0%nat with
      | Some (Service_Ready _ _ _) => Some (mkKeptExit (Some 3) None false)
      | _ => None
      end
  | ServiceNow => Some 0
  | Warn _ _ => Some tt
  | Publish _ _ => Some tt
  | _ => None
  end.

(** The trace and the result of its runner. *)
Definition demo_run : list answered * option ServiceStopped :=
  exec_trace service_answer demo_oracle service_label Began 100 (register demo_name service_new).1
    (run 0 demo_name demo_options 2 2).

Lemma service_runs_ledger_witness :
  length demo_run.1 = 12%nat /\
  exists s, run_from (ledger_delta 0 demo_name demo_options) ledger_begins demo_run.1 = Some s /\
    ledger_ends s (stopped None None).
Proof.
  split; [by vm_compute|].
  destruct (service_runs_ledger 0 demo_name demo_options 2 2 demo_run.1 demo_run.2) as (s & Hs & Hr); [apply exec_trace_trace|].
  exists s. split; [exact Hs|]. apply Hr. by vm_compute.
Defined.

Lemma service_status_protocol_witness :
  exists p, run_from (status_delta 0 demo_options) status_begins demo_run.1 = Some p /\ p = Finished.
Proof.
  destruct (service_status_protocol 0 demo_name demo_options 2 2 demo_run.1 demo_run.2) as (p & Hp & Hr); [apply exec_trace_trace|].
  exists p. split; [exact Hp|]. apply (Hr (stopped None None)). by vm_compute.
Defined.
End Demo.
