(* ===== verification/ServiceNames.v ===== *)
(** * ServiceNames: what holds of the services of a supervisor in every run

    Callers start, stop and drop services of a [ServiceSupervisor] in any order; runners
    interleave with them step by step. A runner owns its channels (a ghost map of
    their values), which gives one unfinished service per name, and results that agree
    with the final status. *)

From iris.proofmode Require Import proofmode.
From iris.base_logic.lib Require Import ghost_map.
From stdpp Require Import base list relations gmap strings.
From S2P Require Import Prelude StdModel Values Restart KeptDomain Ports Conc Ownership History KeptState Display Service ServiceOrder.

Open Scope Z_scope.
Open Scope prog_scope.

Section Names.
Context {R : Type}.
Abbreviation World := (ServiceWorld (R := R)).
Abbreviation Port := (ServicePort (R := R)).
Abbreviation SProg := (Prog (S := ServiceWorld (R := R)) (Q := ServicePort (R := R)) (T := ServiceTask)).

(** ** The calls of the interface *)

Definition serve_service_start (rounds polls : nat) (name : KeptName) (options : ServiceOptions) : SProg unit :=
  service_start rounds polls name options ;;; Ret tt.
Definition serve_service_list : SProg unit := service_list ;;; Ret tt.
Definition serve_ready (k : nat) : SProg unit := handle_ready k ;;; Ret tt.
Definition serve_stop (k : nat) (how : ServiceStop) : SProg unit :=
  await (move_handle k) ;;; handle_stop k how ;;; Ret tt.
Definition serve_drop (k : nat) : SProg unit := await (move_handle k) ;;; handle_drop k.

(** The supervisor lives in one process: any number for it. *)
Inductive service_api (a : nat) : SProg unit -> Prop :=
| sapi_start rounds polls name options : service_api a (serve_service_start rounds polls name options)
| sapi_list : service_api a serve_service_list
| sapi_ready k : service_api a (serve_ready k)
| sapi_stop k how : service_api a (serve_stop k how)
| sapi_drop k : service_api a (serve_drop k).

Definition service_reachable (c : config) : Prop :=
  rtc (pstep service_answer (fun _ => service_body) (fun _ => id) service_api) (mkConfig ∅ service_new []) c.

(** ** What others see of a service *)

Record View : Type := mkView {
  v_name : KeptName;
  v_summary : ServiceState;
  v_status : ServiceStatus (R := R);
  v_runner : RunnerState;
}.
Definition view_of (x : Slot) : View := mkView (slot_name x) (slot_summary x) (slot_status x) (slot_runner x).
Definition views (w : World) : gmap nat View := view_of <$> sw_slots w.

(** A result and the final status that goes with it. *)
Definition agrees (r : ServiceStopped) (s : ServiceStatus (R := R)) : Prop :=
  match s with
  | Service_Stopped => ss_left_running r = None
  | Service_Released os_pid => ss_left_running r = Some os_pid
  | Service_Failed _ _ => r = stopped None None
  | _ => False
  end.

Record world_ok (names : gmap KeptName nat) (vs : gmap nat View) (next : nat) : Prop := {
  wo_used : forall k, is_Some (vs !! k) -> (k < next)%nat;
  wo_named : forall n k, names !! n = Some k -> exists v, vs !! k = Some v /\ v_name v = n;
  wo_open : forall k v, vs !! k = Some v -> is_final (v_summary v) = false -> names !! v_name v = Some k;
  wo_returned : forall k v r, vs !! k = Some v -> v_runner v = RunnerReturned r ->
    v_summary v = status_summary (v_status v) /\ agrees r (v_status v);
}.

(** Two worlds that look the same. *)
Definition alike (w1 w2 : World) : Prop :=
  sw_services w1 = sw_services w2 /\ views w1 = views w2 /\ sw_next w1 = sw_next w2.

Lemma alike_refl w : alike w w.
Proof. done. Qed.

Lemma on_slot_alike k f w : (forall x, view_of (f x) = view_of x) -> alike w (on_slot k f w).
Proof.
  intros Hf. split_and!; [done| |done]. apply map_eq. intros j. unfold views, on_slot. cbn. rewrite !lookup_fmap.
  destruct (decide (j = k)) as [->|Hj]; [|by rewrite lookup_alter_ne].
  rewrite lookup_alter_eq. destruct (sw_slots w !! k); cbn; [by rewrite Hf|done].
Qed.

Lemma views_on_slot k f g w :
  (forall x, view_of (f x) = g (view_of x)) -> views (on_slot k f w) = alter g k (views w).
Proof.
  intros Hf. apply map_eq. intros j. unfold views, on_slot. cbn. rewrite lookup_fmap.
  destruct (decide (j = k)) as [->|Hj].
  - rewrite !lookup_alter_eq lookup_fmap. destruct (sw_slots w !! k); cbn; [by rewrite Hf|done].
  - by rewrite !lookup_alter_ne // lookup_fmap.
Qed.

(** ** Programs that change nothing others see *)

Fixpoint quiet {A} (p : SProg A) : Prop :=
  match p with
  | Ret _ | Panic _ => True
  | Act f k => forall w, alike w (f w).1 /\ quiet (k (f w).2)
  | Call q k => forall x w, alike w (service_answer _ q x w) /\ quiet (k x)
  | Wait e d k => (forall w, alike w (d w)) /\ forall w w' x, fires service_answer e w w' x -> alike w w' /\ quiet (k x)
  | Fork _ _ => False
  end.

Lemma quiet_bind {A B} (p : SProg A) (g : A -> SProg B) : quiet p -> (forall a, quiet (g a)) -> quiet (bind p g).
Proof.
  intros Hp Hg. induction p as [a|m|X f k IH|X q k IH|X e d k IH|t k IH]; cbn [quiet bind] in *; [done|done| | | |done].
  - intros w. destruct (Hp w). eauto.
  - intros x w. destruct (Hp x w). eauto.
  - destruct Hp as [Hd Hp]. split; [done|]. intros w w' x Hf. destruct (Hp w w' x Hf). eauto.
Qed.

Lemma quiet_select {A X} (f : World -> option (World * X)) (done : X -> option A) (p : SProg A) :
  (forall w w' x, f w = Some (w', x) -> alike w w') -> quiet p -> quiet (select_biased f done p).
Proof.
  intros Hf Hp.
  assert (Hs : quiet (select_suspended f done p)).
  { induction p as [a|m|Y g k IH|Y q k IH|Y e d k IH|t k IH]; cbn [quiet select_suspended] in *; [done|done| | | |done].
    - intros w. destruct (Hp w). eauto.
    - intros x w. destruct (Hp x w). eauto.
    - destruct Hp as [Hd Hp]. split; [done|]. intros w w' [x|y]; cbn [fires].
      + intros Hx. split; [by eapply Hf|]. destruct (done x); [by intros w0; split; [apply Hd|]|by split].
      + intros [_ Hy]. destruct (Hp w w' y Hy). eauto. }
  intros w. destruct (f w) as [[w' x]|] eqn:E; cbn.
  - split; [by eapply Hf|]. by destruct (done x).
  - by split.
Qed.

Lemma quiet_race {A Y} (e : Event Y) (p : SProg A) :
  (forall w w' y, fires service_answer e w w' y -> alike w w') -> quiet p -> quiet (race e p).
Proof.
  intros He Hp. assert (Hs : quiet (race_suspended e p)).
  { induction p as [a|m|X g k IH|X q k IH|X e' d k IH|t k IH]; cbn [quiet race_suspended] in *; [done|done| | | |done].
    - intros w. destruct (Hp w). eauto.
    - intros x w. destruct (Hp x w). eauto.
    - destruct Hp as [Hd Hp]. split; [done|]. intros w w' [x|y]; cbn [fires].
      + intros Hx. destruct (Hp w w' x Hx). eauto.
      + intros Hy. split; [by eapply He|]. intros w0. by split; [apply Hd|]. }
  split; [done|]. intros w w' [y|u]; cbn [fires].
  - intros Hy. split; [by eapply He|done].
  - by intros [= <-].
Qed.

(** A question that publishes nothing. *)
Definition asks {X} (q : Port X) : Prop := forall x w, service_answer X q x w = w.

Lemma quiet_call {X} (q : Port X) : asks q -> quiet (call q).
Proof. intros Hq x w. by rewrite Hq. Qed.
Lemma quiet_ask {X} (q : Port X) : asks q -> quiet (ask q).
Proof. intros Hq. split; [done|]. intros w w' x ->. by rewrite Hq. Qed.
Lemma quiet_never {X} : quiet (await (fun _ => None) : SProg X).
Proof. split; [done|]. by intros w w' x Hf. Qed.

Ltac quiet_step :=
  lazymatch goal with
  | |- quiet (bind _ _) => apply quiet_bind; [|intros ?]
  | |- quiet (Ret _) => done
  | |- quiet (Panic _) => done
  | |- quiet (call _) => by apply quiet_call
  | |- quiet (ask _) => by apply quiet_ask
  | |- quiet (match ?x with _ => _ end) => destruct x
  end.
Ltac quiet_steps := repeat quiet_step.

Section Runner.
Context (k : nat) (name : KeptName) (options : ServiceOptions).

Lemma quiet_or_stop {X} (p : SProg X) : quiet p -> quiet (or_stop k p).
Proof.
  intros Hp. unfold or_stop. apply quiet_bind; [|intros r; quiet_steps].
  apply quiet_select; [|apply quiet_bind; [done|intros ?; quiet_steps]].
  intros w w' x Hw. unfold recv_stop in Hw. destruct (sw_slots w !! k) as [s|]; [|done]. cbn in Hw.
  destruct (slot_request s); [simplify_eq; by apply on_slot_alike|]. destruct (slot_sender s); by simplify_eq.
Qed.

Lemma quiet_user {X} (q : Port (unwound X)) : asks q -> quiet (user q).
Proof. intros Hq. unfold user. apply quiet_bind; [by apply quiet_ask|intros ?; quiet_steps]. Qed.

Lemma quiet_start_scoped launch : quiet (start_scoped (R := R) options launch).
Proof. unfold start_scoped. quiet_steps. Qed.

Lemma quiet_start_kept kept launch adopt : quiet (start_kept (R := R) name options kept launch adopt).
Proof. unfold start_kept, start_new. quiet_steps. Qed.

Lemma quiet_exited running : quiet (exited (R := R) running).
Proof. unfold exited. quiet_step; [|done]. destruct running; by apply quiet_ask. Qed.

Lemma quiet_end_run running how : quiet (end_run (R := R) options running how).
Proof. unfold end_run. quiet_steps. Qed.

Lemma quiet_check_loop polls deadline i : quiet (check_loop options polls deadline i).
Proof.
  induction polls as [|polls IH]; cbn [check_loop]; [apply quiet_never|].
  apply quiet_bind; [by apply quiet_user|]. intros r. repeat (quiet_step || exact IH).
Qed.

Lemma quiet_until_ready polls running i : quiet (until_ready options polls running i).
Proof.
  unfold until_ready. quiet_step; [quiet_step|]. quiet_step; [|quiet_steps].
  apply quiet_race; [|apply quiet_check_loop]. intros w w' [x|x] Hf; cbn [fires] in Hf; [destruct running|]; by subst.
Qed.

Lemma quiet_next_round s adopt f failure : quiet (next_round (R := R) s adopt f failure).
Proof. unfold next_round, failed. quiet_steps. Qed.
End Runner.

(** ** The logic *)

Section Logic.
Context `{!ghost_mapG Σ nat View} (γ : gname).

Definition service_interp (_ : gset nat) (w : World) : iProp Σ :=
  ghost_map_auth γ 1 (views w) ∗ ⌜world_ok (sw_services w) (views w) (sw_next w)⌝.

Lemma interp_alike D w1 w2 : alike w1 w2 -> service_interp D w1 ⊢ service_interp D w2.
Proof. intros (E1 & E2 & E3). unfold service_interp. by rewrite E1 E2 E3. Qed.

(** The runner of [k] has the values of its channels; it has not finished. *)
Definition left_behind (k : nat) : iProp Σ := ∃ v, k ↪[γ] v ∗ ⌜v_runner v = RunnerActive⌝.
Definition unfinished (k : nat) (name : KeptName) : iProp Σ :=
  ∃ summary status, k ↪[γ] mkView name summary status RunnerActive ∗ ⌜is_final summary = false⌝.
Definition finished (k : nat) (name : KeptName) (r : ServiceStopped) : iProp Σ :=
  ∃ status, k ↪[γ] mkView name (status_summary status) status RunnerActive ∗
    ⌜status_is_final status = true /\ agrees r status⌝.

Definition service_task (a : nat) (t : ServiceTask) : iProp Σ :=
  match t with RunService k name _ _ _ => unfinished k name end.

Abbreviation sowp a p Φ Ψ := (owp service_answer service_interp service_task a p Φ Ψ) (only parsing).

Lemma unfinished_left k name : unfinished k name ⊢ left_behind k.
Proof. iIntros "(%su & %st & Hk & _)". iExists _. by iFrame "Hk". Qed.
Lemma finished_left k name r : finished k name r ⊢ left_behind k.
Proof. iIntros "(%st & Hk & _)". iExists _. by iFrame "Hk". Qed.

(** A part of the runner of [k], whose panics end the runner. *)
Definition part {A} (a k : nat) (p : SProg A) (Φ : A -> iProp Σ) : iProp Σ :=
  sowp a (catch p) (fun r => match r with Ok x => Φ x | Err _ => left_behind k end) (left_behind k).

Lemma quiet_catch {A} a (p : SProg A) : quiet p -> ⊢ sowp a (catch p) (fun _ => True) True.
Proof.
  intros Hp. iInduction p as [v|m|X f k|X q k|X e d k|t k] "IH" forall (Hp); cbn [owp catch quiet] in *.
  - done.
  - done.
  - iIntros (D w Ha) "Hs". destruct (Hp w) as [Hw Hk]. iModIntro. iSplitL "Hs"; [by iApply (interp_alike with "Hs")|].
    by iApply "IH".
  - iIntros (D w x Ha) "Hs". destruct (Hp x w) as [Hw Hk]. iModIntro. iSplitL "Hs"; [by iApply (interp_alike with "Hs")|].
    by iApply "IH".
  - destruct Hp as [Hd Hp]. iSplit.
    + iIntros (D w Ha) "Hs". iModIntro. iSplitL; [by iApply (interp_alike with "Hs")|done].
    + iIntros (D w w' x Ha Hf) "Hs". destruct (Hp w w' x Hf) as [Hw Hk]. iModIntro.
      iSplitL "Hs"; [by iApply (interp_alike with "Hs")|]. by iApply "IH".
  - done.
Qed.

Lemma part_quiet {A} a k (p : SProg A) P Φ :
  quiet p -> (P ⊢ left_behind k) -> (forall x, P ⊢ Φ x) -> P ⊢ part a k p Φ.
Proof.
  iIntros (Hp Hl Hx) "HP". iDestruct (owp_frame with "HP []") as "Hq"; [by iApply (quiet_catch a p Hp)|].
  iApply (owp_wand with "Hq"). iSplit.
  - iIntros ([x|m]) "[HP _]"; iModIntro; [by iApply Hx|by iApply Hl].
  - iIntros "[HP _]". iModIntro. by iApply Hl.
Qed.

Lemma part_ret {A} a k (x : A) Φ : Φ x ⊢ part a k (Ret x) Φ.
Proof. by iIntros "$". Qed.

Lemma part_bind {A B} a k (p : SProg A) (g : A -> SProg B) Φ :
  part a k p (fun x => part a k (g x) Φ) ⊢ part a k (bind p g) Φ.
Proof.
  iIntros "Hp". unfold part. iInduction p as [v|m|X f kk|X q kk|X e d kk|t kk] "IH"; cbn [owp catch bind].
  - by iApply owp_bupd.
  - done.
  - iIntros (D s Ha) "Hs". iMod ("Hp" with "[//] Hs") as "[$ Hp]". by iApply "IH".
  - iIntros (D s x Ha) "Hs". iMod ("Hp" with "[//] Hs") as "[$ Hp]". by iApply "IH".
  - iSplit.
    + iIntros (D s Ha) "Hs". iDestruct "Hp" as "[Hp _]". by iApply ("Hp" with "[//] Hs").
    + iIntros (D s s' x Ha Hf) "Hs". iDestruct "Hp" as "[_ Hp]".
      iMod ("Hp" with "[//] [//] Hs") as "[$ Hp]". by iApply "IH".
  - iMod "Hp" as "[$ Hp]". by iApply "IH".
Qed.

Lemma part_never {A} a k (Φ : A -> iProp Σ) : left_behind k ⊢ part a k (await (fun _ => None)) Φ.
Proof.
  iIntros "Hk". iSplit; [by iIntros (D w Ha) "$"|]. iIntros (D w w' x Ha Hf). by cbn in Hf.
Qed.

(** A first part that changes nothing. *)
Lemma part_seq {A B} a k (p : SProg A) (g : A -> SProg B) P Φ :
  quiet p -> (P ⊢ left_behind k) -> (forall x, P ⊢ part a k (g x) Φ) -> P ⊢ part a k (bind p g) Φ.
Proof. iIntros (Hp Hl Hg) "HP". iApply part_bind. by iApply (part_quiet with "HP"). Qed.

(** *** Steps that others see *)

Lemma world_ok_insert names vs next k v v' :
  world_ok names vs next -> vs !! k = Some v -> v_name v' = v_name v ->
  (is_final (v_summary v') = false -> is_final (v_summary v) = false) ->
  (forall r, v_runner v' = RunnerReturned r -> v_summary v' = status_summary (v_status v') /\ agrees r (v_status v')) ->
  world_ok names (<[k := v']> vs) next.
Proof.
  intros [Hu Hn Ho Hr] Hk Hname Hfin Hret. split.
  - intros j [x Hj]. apply Hu. rewrite lookup_insert in Hj. case_decide; [subst; eauto|eauto].
  - intros n j Hj. destruct (Hn n j Hj) as (x & Hx & <-). rewrite lookup_insert. case_decide; [|eauto].
    subst j. simplify_eq. eauto.
  - intros j x Hj Hx. rewrite lookup_insert in Hj. case_decide; [|eauto]. simplify_eq. rewrite Hname. eauto.
  - intros j x r Hj Hx. rewrite lookup_insert in Hj. case_decide; [|eauto]. simplify_eq. eauto.
Qed.

(** The runner changes its channels or its task. *)
Lemma own_slot a k (f : Slot -> Slot) (v v' : View) D w :
  (forall x, view_of x = v -> view_of (f x) = v') -> v_name v' = v_name v ->
  (is_final (v_summary v') = false -> is_final (v_summary v) = false) ->
  (forall r, v_runner v' = RunnerReturned r -> v_summary v' = status_summary (v_status v') /\ agrees r (v_status v')) ->
  a ∉ D -> service_interp D w -∗ k ↪[γ] v ==∗ service_interp D (on_slot k f w) ∗ k ↪[γ] v'.
Proof.
  iIntros (Hf Hname Hfin Hret _) "[Ha %Hok] Hk". iDestruct (ghost_map_lookup with "Ha Hk") as %Hv.
  iMod (ghost_map_update v' with "Ha Hk") as "[Ha $]". iModIntro.
  assert (E : views (on_slot k f w) = <[k := v']> (views w)).
  { apply map_eq. intros j. unfold views, on_slot in *. cbn. rewrite lookup_fmap in Hv. rewrite lookup_fmap.
    destruct (decide (j = k)) as [->|Hj].
    - rewrite lookup_alter_eq lookup_insert_eq. destruct (sw_slots w !! k) as [x|]; [|done]. cbn in *.
      simplify_eq. by rewrite (Hf x eq_refl).
    - by rewrite lookup_alter_ne // lookup_insert_ne // lookup_fmap. }
  unfold service_interp. rewrite E. iFrame "Ha". iPureIntro. by eapply world_ok_insert.
Qed.

(** [publish]: a last status, or another one. *)
Lemma part_publish a k name status Φ :
  (if status_is_final status
   then ∃ su st, k ↪[γ] mkView name su st RunnerActive ∗ (k ↪[γ] mkView name (status_summary status) status RunnerActive -∗ Φ tt)
   else unfinished k name ∗ (unfinished k name -∗ Φ tt))
  ⊢ part a k (publish k status) Φ.
Proof.
  iIntros "H". unfold part, publish, modify, act, call. cbn [bind catch owp]. iIntros (D w Ha) "Hs".
  iAssert (∃ su st, k ↪[γ] mkView name su st RunnerActive ∗ ⌜status_is_final status = false -> is_final su = false⌝ ∗
    (k ↪[γ] mkView name (status_summary status) status RunnerActive -∗ Φ tt))%I with "[H]" as (su st) "(Hk & %Hfin & H)".
  { destruct (status_is_final status) eqn:E.
    - iDestruct "H" as (su st) "[Hk H]". iExists su, st. by iFrame.
    - iDestruct "H" as "[(%su & %st & Hk & %Hfin) H]". iExists su, st. iFrame "Hk". iSplit; [done|].
      iIntros "Hk". iApply "H". iExists _, _. iFrame "Hk". iPureIntro. by rewrite status_summary_final. }
  iMod (own_slot a k _ _ (mkView name (status_summary status) st RunnerActive) with "Hs Hk") as "[$ Hk]"; [..|done|].
  { intros [] Hx. unfold view_of, set_summary in *. cbn in *. by simplify_eq. }
  { done. }
  { cbn. by rewrite status_summary_final. }
  { done. }
  iModIntro. iIntros (D' w' [] Ha') "Hs". cbn [service_answer].
  iMod (own_slot a k _ _ (mkView name (status_summary status) status RunnerActive) with "Hs Hk") as "[$ Hk]"; [..|done|].
  { intros [] Hx. unfold view_of, set_status in *. cbn in *. by simplify_eq. }
  1-3: done.
  iModIntro. iModIntro. by iApply "H".
Qed.

Lemma part_publish_open a k name status Φ :
  status_is_final status = false ->
  unfinished k name -∗ (unfinished k name -∗ Φ tt) -∗ part a k (publish k status) Φ.
Proof. iIntros (E) "Hk H". iApply (part_publish a k name). rewrite E. iFrame. Qed.

Lemma part_publish_final a k name status r Φ :
  status_is_final status = true -> agrees r status ->
  unfinished k name -∗ (finished k name r -∗ Φ tt) -∗ part a k (publish k status) Φ.
Proof.
  iIntros (E Hr) "(%su & %st & Hk & _) H". iApply (part_publish a k name). rewrite E. iExists su, st. iFrame "Hk".
  iIntros "Hk". iApply "H". iExists status. by iFrame "Hk".
Qed.

(** *** The runner *)

Section RunnerParts.
Context (a k : nat) (name : KeptName) (options : ServiceOptions).

Lemma agrees_final r : agrees r (final_status (R := R) r) /\ status_is_final (final_status (R := R) r) = true.
Proof. unfold final_status. by destruct (ss_left_running r) eqn:E. Qed.

Lemma part_finish running how :
  unfinished k name ⊢ part a k (finish k options running how) (finished k name).
Proof.
  iIntros "Hk". iApply part_bind. iApply (part_publish_open with "Hk"); [done|]. iIntros "Hk".
  iApply part_seq; [destruct running; [apply quiet_end_run|done]|apply unfinished_left| |iExact "Hk"].
  iIntros (r) "Hk". destruct (agrees_final r). iApply part_bind. iApply (part_publish_final with "Hk"); [done..|].
  iIntros "Hk". by iApply part_ret.
Qed.

(** What a round leaves. *)
Definition round_left (r : RunState + ServiceStopped) : iProp Σ :=
  match r with inl _ => unfinished k name | inr result => finished k name result end.

Lemma part_stopped running how :
  unfinished k name ⊢ part a k (let! result := finish k options running how in Ret (inr result)) round_left.
Proof.
  iIntros "Hk". iApply part_bind. iDestruct (part_finish running how with "Hk") as "Hp".
  iApply (owp_wand with "Hp"). iSplit; [|by iIntros "$"].
  iIntros ([r|m]) "H"; [|by iModIntro]. iModIntro. by iApply part_ret.
Qed.

Lemma part_next_round s adopt f failure :
  unfinished k name ⊢ part a k (next_round s adopt f failure) round_left.
Proof.
  unfold next_round. iIntros "Hk". iApply part_seq; [|apply unfinished_left| |iExact "Hk"].
  { unfold failed. quiet_steps. }
  iIntros ([n e]) "Hk". by iApply part_ret.
Qed.

Lemma part_end_next running s adopt f failure :
  unfinished k name ⊢ part a k (end_run options running StopTerminate ;;; next_round s adopt f failure) round_left.
Proof.
  iIntros "Hk". iApply part_seq; [apply quiet_end_run|apply unfinished_left| |iExact "Hk"].
  iIntros (r) "Hk". by iApply part_next_round.
Qed.

Lemma part_watch_run polls s running i :
  unfinished k name ⊢ part a k (watch_run k options polls s running i) round_left.
Proof.
  iIntros "Hk". unfold watch_run.
  iApply part_seq; [apply quiet_or_stop, quiet_until_ready|apply unfinished_left| |iExact "Hk"].
  iIntros ([[value|failure]|how]) "Hk"; [|by iApply part_end_next|by iApply part_stopped].
  iApply part_bind. iApply (part_publish_open with "Hk"); [done|]. iIntros "Hk".
  iApply part_seq; [by apply quiet_call|apply unfinished_left| |iExact "Hk"]. iIntros (ready_at) "Hk".
  iApply part_seq; [apply quiet_or_stop, quiet_exited|apply unfinished_left| |iExact "Hk"].
  iIntros ([exit|how]) "Hk"; [|by iApply part_stopped].
  iApply part_seq; [apply quiet_end_run|apply unfinished_left| |iExact "Hk"]. iIntros (r) "Hk".
  iApply part_seq; [by apply quiet_call|apply unfinished_left| |iExact "Hk"]. iIntros (now) "Hk".
  by iApply part_next_round.
Qed.

Lemma part_back_off s :
  unfinished k name ⊢ part a k (back_off k options s) (fun r =>
    match r with None => unfinished k name | Some result => finished k name result end).
Proof.
  iIntros "Hk". unfold back_off. destruct (0 <? rs_failures s); [|by iApply part_ret].
  destruct (gives_up (so_restart options) (rs_failures s)).
  { iApply part_bind. iApply (part_publish_final _ _ _ _ (stopped None None) with "Hk"); [done..|]. iIntros "Hk". by iApply part_ret. }
  iApply part_bind. iApply (part_publish_open with "Hk"); [done|]. iIntros "Hk".
  iApply part_seq; [apply quiet_or_stop; by apply quiet_ask|apply unfinished_left| |iExact "Hk"].
  iIntros ([u|how]) "Hk"; [by iApply part_ret|].
  iApply part_bind. iApply (part_publish_final _ _ _ _ (stopped None None) with "Hk"); [done..|]. iIntros "Hk". by iApply part_ret.
Qed.

Lemma part_round polls s : unfinished k name ⊢ part a k (round k name options polls s) round_left.
Proof.
  iIntros "Hk". unfold round. iApply part_bind. iDestruct (part_back_off s with "Hk") as "Hp".
  iApply (owp_wand with "Hp"). iSplit; [|by iIntros "$"].
  iIntros ([[result|]|m]) "Hk"; iModIntro; [by iApply part_ret| |done].
  iApply part_bind. iApply (part_publish_open with "Hk"); [done|]. iIntros "Hk".
  iApply part_seq; [apply quiet_or_stop; by apply quiet_user|apply unfinished_left| |iExact "Hk"].
  iIntros ([[launch|failure]|how]) "Hk"; [|by iApply part_next_round|by iApply part_stopped].
  iApply part_seq; [destruct (so_kept options); [apply quiet_start_kept|apply quiet_start_scoped]
                   |apply unfinished_left| |iExact "Hk"].
  iIntros ([[running i]|e]) "Hk"; [by iApply part_watch_run|by iApply part_next_round].
Qed.

Lemma part_run_rounds rounds polls s : unfinished k name ⊢ part a k (run_rounds k name options rounds polls s) (finished k name).
Proof.
  iIntros "Hk". iInduction rounds as [|rounds] "IH" forall (s); cbn [run_rounds].
  { iApply part_never. by iApply unfinished_left. }
  iApply part_bind. iDestruct (part_round polls s with "Hk") as "Hp". iApply (owp_wand with "Hp"). iSplit; [|by iIntros "$"].
  iIntros ([[s'|result]|m]) "Hk"; iModIntro; [by iApply "IH"|by iApply part_ret|done].
Qed.

(** The task sets its result, or is lost. *)
Lemma lose_slot D w :
  a ∉ D -> left_behind k -∗ service_interp D w ==∗ service_interp D (on_slot k (set_runner RunnerLost) w).
Proof.
  iIntros (Ha) "(%v & Hk & %Hv) Hs".
  iMod (own_slot a k _ _ (mkView (v_name v) (v_summary v) (v_status v) RunnerLost) with "Hs Hk") as "[$ _]"; [..|done|done].
  - intros [] Hx. unfold view_of, set_runner in *. cbn in *. by subst.
  - done.
  - done.
  - done.
Qed.

Lemma runner_task_spec rounds polls :
  unfinished k name ⊢ sowp a (runner_task k name options rounds polls) (fun _ => True) True.
Proof.
  iIntros "Hk". unfold runner_task. iApply owp_cancel_with.
  iApply (owp_seq service_answer service_interp service_task a _ _ _ (left_behind k) with "[Hk]").
  { iApply (part_run_rounds rounds polls run_begins with "Hk"). }
  iSplit.
  - iIntros ([r|m]) "Hk"; iApply owp_modify; iIntros (D w Ha) "Hs".
    + iDestruct "Hk" as (st) "(Hk & %Hst & %Hr)".
      iMod (own_slot a k _ _ (mkView name (status_summary st) st (RunnerReturned r)) with "Hs Hk") as "[$ _]"; [..|done|done].
      * intros [] Hx. unfold view_of, set_runner in *. cbn in *. by simplify_eq.
      * done.
      * done.
      * cbn. by intros r' [= <-].
    + iMod (lose_slot with "Hk Hs") as "$"; [done|]. done.
  - iIntros "Hk". iModIntro. iIntros (D w Ha) "Hs". iMod (lose_slot with "Hk Hs") as "$"; done.
Qed.
End RunnerParts.

(** *** The callers *)

Lemma world_ok_register names vs next name :
  world_ok names vs next ->
  (forall k v, names !! name = Some k -> vs !! k = Some v -> is_final (v_summary v) = true) ->
  world_ok (<[name := next]> names) (<[next := mkView name (Summary_Starting 1) (Service_Starting 1) RunnerActive]> vs) (S next).
Proof.
  intros [Hu Hn Ho Hr] Hfree. assert (Hnext : forall k, is_Some (vs !! k) -> k <> next).
  { intros k Hk. apply Hu in Hk. lia. }
  split.
  - intros k. rewrite lookup_insert. case_decide; [lia|]. intros Hk%Hu. lia.
  - intros n k. rewrite lookup_insert. case_decide as E.
    + intros [= <-]. subst n. eexists. by rewrite lookup_insert_eq.
    + intros Hk. destruct (Hn n k Hk) as (v & Hv & Hname). exists v. rewrite lookup_insert_ne; [done|].
      intros ->. by eapply (Hnext k).
  - intros k v. rewrite lookup_insert. case_decide as E; [intros [= <-] _; subst; by rewrite lookup_insert_eq|].
    intros Hv Hopen. rewrite lookup_insert_ne; [by eapply Ho|]. intros En.
    pose proof (Ho k v Hv Hopen) as Hk. rewrite -En in Hk. pose proof (Hfree k v Hk Hv). congruence.
  - intros k v r. rewrite lookup_insert. case_decide; [by intros [= <-]|]. apply Hr.
Qed.

Lemma interp_register name D w :
  service_interp D w ==∗ service_interp D (register name w).1 ∗
    match (register name w).2 with Some k => unfinished k name | None => True end.
Proof.
  iIntros "[Ha %Hok]". unfold register.
  destruct (match sw_services w !! name with Some k => _ | None => false end) eqn:E; cbn; [by iFrame|].
  assert (Hviews : views (mkServiceWorld (<[name := sw_next w]> (sw_services w))
      (<[sw_next w := mkSlot name (Summary_Starting 1) (Service_Starting (R := R) 1) None true RunnerActive true]> (sw_slots w)) (S (sw_next w)))
    = <[sw_next w := mkView name (Summary_Starting 1) (Service_Starting 1) RunnerActive]> (views w)).
  { unfold views. cbn. by rewrite fmap_insert. }
  assert (Hfresh : views w !! sw_next w = None).
  { destruct (views w !! sw_next w) eqn:Ev; [|done]. pose proof (wo_used _ _ _ Hok (sw_next w)) as Hlt. rewrite Ev in Hlt.
    assert (sw_next w < sw_next w)%nat by (apply Hlt; eauto). lia. }
  iMod (ghost_map_insert (sw_next w) (mkView name (Summary_Starting 1) (Service_Starting 1) RunnerActive) with "Ha") as "[Ha Hk]"; [done|].
  iModIntro. iSplitL "Ha".
  - unfold service_interp. rewrite Hviews. iFrame "Ha". iPureIntro. apply world_ok_register; [done|].
    intros k v Hk Hv. rewrite Hk in E. unfold views in Hv. rewrite lookup_fmap in Hv.
    destruct (sw_slots w !! k) as [x|]; [|done]. cbn in Hv. simplify_eq. by apply negb_false_iff.
  - iExists _, _. by iFrame "Hk".
Qed.

Lemma service_body_spec a t : service_task a t ⊢ sowp a (service_body t) (fun _ => True) True.
Proof. destruct t as [k name options rounds polls]. apply runner_task_spec. Qed.

Lemma service_die D w (a : nat) : service_interp D w ==∗ service_interp ({[a]} ∪ D) (id w).
Proof. by iIntros "$". Qed.

Lemma await_alike {X} a (f : World -> option (World * X)) :
  (forall w w' x, f w = Some (w', x) -> alike w w') -> ⊢ sowp a (await f) (fun _ => True) True.
Proof.
  iIntros (Hf). iApply owp_wait. iSplit; [done|]. iIntros (D w w' x Ha Hw) "Hs". cbn in Hw.
  iModIntro. iSplit; [|done]. iApply (interp_alike with "Hs"). by eapply Hf.
Qed.

Lemma modify_alike a (f : World -> World) : (forall w, alike w (f w)) -> ⊢ sowp a (modify f) (fun _ => True) True.
Proof.
  iIntros (Hf). iApply owp_modify. iIntros (D w Ha) "Hs". iModIntro. iSplit; [|done]. by iApply (interp_alike with "Hs").
Qed.

Lemma move_handle_alike k w w' u : move_handle (R := R) k w = Some (w', u) -> alike w w'.
Proof.
  unfold move_handle. destruct (sw_slots w !! k) as [x|]; [|done]. cbn. destruct (slot_handle x); [|done].
  intros [= <- _]. by apply on_slot_alike.
Qed.

Lemma service_api_spec a p : service_api a p -> ⊢ sowp a p (fun _ => True) True.
Proof.
  intros Hp. destruct Hp as [rounds polls name options| |k|k how|k].
  - unfold serve_service_start, service_start. cbn [bind]. iIntros (D w Ha) "Hs".
    iMod (interp_register name with "Hs") as "[$ Hk]". iModIntro.
    destruct (register name w).2 as [k|]; [|done]. cbn. iModIntro. by iFrame "Hk".
  - iIntros (D w Ha) "$". done.
  - unfold serve_ready. iApply owp_bind. iApply (owp_wand with "[]"); [iApply await_alike|by iSplit; iIntros].
    intros w w' x Hw. unfold status_seen in Hw. destruct (sw_slots w !! k) as [s|]; [|done]. cbn in Hw.
    destruct (slot_status s); simplify_eq/=; try done; destruct (slot_runner s); by simplify_eq.
  - unfold serve_stop, handle_stop. iApply owp_bind.
    iApply (owp_wand with "[]"); [iApply await_alike; apply move_handle_alike|]. iSplit; [|by iIntros].
    iIntros ([] _). iModIntro. iApply owp_bind. iApply owp_bind.
    iApply (owp_wand with "[]"); [iApply modify_alike|].
    { intros w. apply on_slot_alike. intros x. unfold send_stop. by destruct (slot_runner x). }
    iSplit; [|by iIntros]. iIntros ([] _). iModIntro.
    iApply (owp_wand with "[]"); [iApply await_alike|by iSplit; iIntros].
    intros w w' x Hw. unfold task_ended in Hw. destruct (sw_slots w !! k) as [s|]; [|done]. cbn in Hw.
    destruct (slot_runner s); by simplify_eq.
  - unfold serve_drop. iApply owp_bind.
    iApply (owp_wand with "[]"); [iApply await_alike; apply move_handle_alike|]. iSplit; [|by iIntros].
    iIntros ([] _). iModIntro. iApply modify_alike. intros w. by apply on_slot_alike.
Qed.
End Logic.

(** ** Every reachable world *)

Lemma service_world_ok c : service_reachable c ->
  world_ok (sw_services (c_state c)) (views (c_state c)) (sw_next (c_state c)).
Proof.
  intros Hr. set (Σ := ghost_mapΣ nat View).
  apply (pure_soundness (PROP := iPropI Σ)), (uPred.bupd_soundness (M := iResUR Σ)); [apply _|].
  iMod (ghost_map_alloc (∅ : gmap nat View)) as (γ) "[Ha _]".
  iApply (owp_adequate service_answer (fun _ => service_body) (fun _ => id) (service_interp γ) (service_task γ) service_api
    (service_api_spec γ) (service_body_spec γ) (service_die γ) (fun _ w => world_ok (sw_services w) (views w) (sw_next w)) _ c);
    [..|exact Hr|done|].
  - by iIntros (D w) "[_ $]".
  - iSplitL; [|done]. iSplitL; [unfold views; cbn; by rewrite fmap_empty|]. iPureIntro.
    split; [by intros k [v Hv]|by intros|by intros|by intros].
Qed.

(** ** Properties *)

(** C25. One unfinished service per name: in every world that callers and runners reach, by any
    interleaving, two services of one name that have not published a final status are the
    same, and it is the one that the map of names has. *)
Theorem service_name_exclusive c k1 k2 x1 x2 :
  service_reachable c ->
  sw_slots (c_state c) !! k1 = Some x1 -> sw_slots (c_state c) !! k2 = Some x2 ->
  slot_name x1 = slot_name x2 -> is_final (slot_summary x1) = false -> is_final (slot_summary x2) = false ->
  k1 = k2 /\ sw_services (c_state c) !! slot_name x1 = Some k1.
Proof.
  intros Hr H1 H2 Hn Hf1 Hf2. destruct (service_world_ok c Hr) as [_ _ Ho _].
  assert (Hv : forall k x, sw_slots (c_state c) !! k = Some x -> views (c_state c) !! k = Some (view_of x)).
  { intros k x Hk. unfold views. by rewrite lookup_fmap Hk. }
  pose proof (Ho k1 _ (Hv k1 x1 H1) Hf1) as E1. pose proof (Ho k2 _ (Hv k2 x2 H2) Hf2) as E2. cbn in E1, E2.
  rewrite -Hn in E2. split; [congruence|done].
Qed.

(** What stopping a service returns is true: when the task of a runner has returned, the last
    published status is final, the listing shows it, and it agrees with the returned value
    (released with the pid that was left running, stopped with nothing left running,
    or failed). *)
Theorem service_result_final c k x r :
  service_reachable c -> sw_slots (c_state c) !! k = Some x -> slot_runner x = RunnerReturned r ->
  is_final (slot_summary x) = true /\ slot_summary x = status_summary (slot_status x) /\ agrees r (slot_status x).
Proof.
  intros Hr Hk Hx. destruct (service_world_ok c Hr) as [_ _ _ Hret].
  destruct (Hret k (view_of x) r) as [Hs Ha]; [unfold views; by rewrite lookup_fmap Hk|done|].
  cbn in Hs, Ha. split_and!; [|done|done]. rewrite Hs status_summary_final. by destruct (slot_status x).
Qed.

(** A runner that was lost (its service panicked) before a final status keeps its name for ever. *)
Lemma lost_name_in_use (w : World) name k (x : Slot (R := R)) :
  sw_services w !! name = Some k -> sw_slots w !! k = Some x -> slot_runner x = RunnerLost ->
  is_final (slot_summary x) = false -> (register name w).2 = None.
Proof. intros Hn Hk _ Hf. unfold register. by rewrite Hn Hk Hf. Qed.
End Names.

(** ** Runs *)

Section Runs.
Abbreviation turns := (list (turn (S := ServiceWorld (R := nat)) (Q := ServicePort (R := nat)) (T := ServiceTask))).

Definition demo_turns (oracle : ServiceWorld (R := nat) -> forall X, ServicePort (R := nat) X -> option X) (ts : turns) : config :=
  take_turns service_answer (fun _ => service_body) (fun _ => id) oracle 100 ts (mkConfig ∅ service_new []).

Lemma service_demo_reachable oracle ts : Forall (enters service_api) ts -> service_reachable (demo_turns oracle ts).
Proof. apply take_turns_reachable. Qed.

(** A service is started, runs to its end, and is started again. *)
Definition demo_restart : turns :=
  [Enter 0 (serve_service_start 2 2 demo_name demo_options); Go 0; Go 1;
   Enter 0 (serve_service_start 2 2 demo_name demo_options); Go 2]%nat.

Lemma demo_restart_reachable : service_reachable (demo_turns demo_oracle demo_restart).
Proof. apply service_demo_reachable. repeat constructor. Qed.

Definition demo_second : Slot (R := nat) :=
  mkSlot demo_name (Summary_Starting 1) (Service_Starting 1) None true RunnerActive true.
Definition demo_first : Slot (R := nat) :=
  mkSlot demo_name Summary_Failed (Service_Failed KindExited "exited with code 3") None true
    (RunnerReturned (stopped None None)) true.

Lemma service_name_exclusive_witness :
  exists c : config, service_reachable c /\ sw_slots (c_state c) !! 1%nat = Some demo_second /\
    sw_services (c_state c) !! demo_name = Some 1%nat.
Proof.
  exists (demo_turns demo_oracle demo_restart).
  assert (Hk : sw_slots (c_state (demo_turns demo_oracle demo_restart)) !! 1%nat = Some demo_second) by (by vm_compute).
  split; [apply demo_restart_reachable|]. split; [exact Hk|].
  exact (proj2 (service_name_exclusive _ 1 1 demo_second demo_second demo_restart_reachable Hk Hk eq_refl eq_refl eq_refl)).
Defined.

Lemma service_result_final_witness :
  exists c : config, service_reachable c /\ sw_slots (c_state c) !! 0%nat = Some demo_first /\
    is_final (slot_summary demo_first) = true.
Proof.
  exists (demo_turns demo_oracle demo_restart).
  assert (Hk : sw_slots (c_state (demo_turns demo_oracle demo_restart)) !! 0%nat = Some demo_first) by (by vm_compute).
  split; [apply demo_restart_reachable|]. split; [exact Hk|].
  exact (proj1 (service_result_final _ 0 demo_first (stopped None None) demo_restart_reachable Hk eq_refl)).
Defined.

(** The service panics in its launch; its name is in use afterwards, and nothing runs. *)
Definition panicking_oracle (_ : ServiceWorld (R := nat)) (X : Type) (q : ServicePort (R := nat) X) : option X :=
  match q with
  | UserLaunch => Some Unwound
  | Publish _ _ => Some tt
  | _ => None
  end.

Lemma panicked_service_keeps_its_name :
  let c := demo_turns panicking_oracle demo_restart in
  service_reachable c /\ slot_runner <$> sw_slots (c_state c) !! 0%nat = Some RunnerLost /\
  (register demo_name (c_state c)).2 = None.
Proof.
  intros c. split; [apply service_demo_reachable; repeat constructor|]. split; by vm_compute.
Qed.
End Runs.
