(* ===== verification/Background.v ===== *)
(** * Background: one command whose scope outlives its caller's wait

    shepherd-app/src/background_task/task.rs. The supervisor, the clock and the captured
    output are asked ([BackgroundPort]); they are injected, so any of them may
    panic ([Unwound]). The shared state of a task is its two watch channels and
    the mutex around its output. A worker keeps local variables across
    [catch_unwind]: its blocks take them and give them back with a value, or with
    [None] when they unwound ([Block]). *)

From stdpp Require Import base list gmap strings.
From S2P Require Import Prelude StdModel Values Ports Conc History Output.

Open Scope Z_scope.
Open Scope prog_scope.

(** ** Data *)

Record BackgroundTaskOptions : Type := mkBackgroundTaskOptions {
  bto_timeout : Duration;
  bto_output_bytes : Z;
  bto_termination : TerminateOptions;
}.
Definition background_options_default : BackgroundTaskOptions :=
  mkBackgroundTaskOptions (from_secs 3600) 65536 terminate_default.

Inductive BackgroundTaskCause : Type :=
| CauseExited
| CauseCancelled
| CauseTimedOut
| CauseSpawnFailed (e : SpawnError)
| CauseWorkerFailed.

Record BackgroundTaskOutput : Type := mkBackgroundTaskOutput {
  bo_tail : list OutputChunk;
  bo_omitted_bytes : Z;
  bo_stdout_closed : bool;
  bo_stderr_closed : bool;
  bo_errors : list string;
}.
Definition background_output_default : BackgroundTaskOutput := mkBackgroundTaskOutput [] 0 false false [].

Record BackgroundTaskResult : Type := mkBackgroundTaskResult {
  br_scope : ProcessScopeId;
  br_process : option ProcessId;
  br_os_pid : option Z;
  br_cause : BackgroundTaskCause;
  br_exit : option ProcessExit;
  br_cleanup : result ScopeTerminationReport TerminateError;
  br_output : BackgroundTaskOutput;
}.

Definition cleanup_verified (r : BackgroundTaskResult) : bool :=
  match br_cleanup r with Ok report => report_all_verified report | Err _ => false end.

Inductive BackgroundTaskStatus : Type :=
| Background_Starting
| Background_Running (process : ProcessId) (os_pid : option Z)
| Background_Finished (result : BackgroundTaskResult).

(** The captured output, the bytes its reads took from the queue so far, and the last observation. *)
Record BackgroundOutput : Type := mkBackgroundOutput {
  bk_source : option ProcessOutput;
  bk_drained : Z;
  bk_current : BackgroundTaskOutput;
}.
Definition background_output_new : BackgroundOutput := mkBackgroundOutput None 0 background_output_default.

(** An attached process; its exit is a question. *)
Record Attached : Type := mkAttached {
  at_pid : ProcessId;
  at_output : option ProcessOutput;
}.

#[global] Instance background_cause_eq_dec : EqDecision BackgroundTaskCause.
Proof. solve_decision. Defined.

(** [iter().map(|chunk| chunk.bytes.len() as u64).sum()]. *)
Definition chunk_bytes (chunks : list OutputChunk) : Z := foldr (fun c n => len (oc_bytes c) + n) 0 chunks.

(** What a snapshot of the source makes of the observation. *)
Definition account (snapshot : OutputSnapshot) (o : BackgroundOutput) : BackgroundOutput :=
  let drained := u64_saturating_add (bk_drained o) (chunk_bytes (os_chunks snapshot)) in
  let retained := chunk_bytes (os_tail snapshot) in
  mkBackgroundOutput (bk_source o) drained
    (mkBackgroundTaskOutput (os_tail snapshot)
       (u64_saturating_sub (u64_saturating_add drained (os_dropped_bytes snapshot)) retained)
       (os_stdout_closed snapshot) (os_stderr_closed snapshot) (os_errors snapshot)).

(** ** Questions to the environment *)

Inductive BackgroundPort : Type -> Type :=
| BgNow : BackgroundPort (unwound Instant)
| BgSleep (d : Duration) : BackgroundPort (unwound unit)
| BgCreateScope : BackgroundPort (result ProcessScopeId ScopeCreationError)
(** [spawn_observed]: the handle of the spawn, whose completion and admission are asked for. *)
| BgSpawn (scope : ProcessScopeId) (spec : ProcessSpec) : BackgroundPort (unwound nat)
| BgSpawned (spawn : nat) : BackgroundPort (unwound (result Attached SpawnError))
| BgTakeAdmission (spawn : nat) : BackgroundPort (unwound (option Attached))
| BgOsPid (pid : ProcessId) : BackgroundPort (unwound (option Z))
| BgExit (pid : ProcessId) : BackgroundPort (unwound ProcessExit)
(** [exit.now_or_never()]. *)
| BgExitNow (pid : ProcessId) : BackgroundPort (unwound (option ProcessExit))
| BgFinish (scope : ProcessScopeId) (options : TerminateOptions) :
    BackgroundPort (unwound (result ScopeTerminationReport TerminateError))
| BgRead (source : ProcessOutput) : BackgroundPort (unwound OutputSnapshot)
| BgDropCapture (source : ProcessOutput) : BackgroundPort (unwound unit)
(** [state.send_replace(status)] of the task [k]. *)
| BgPublish (k : nat) (status : BackgroundTaskStatus) : BackgroundPort unit.

(** ** The shared state *)

Record BackgroundShared : Type := mkBackgroundShared {
  bs_status : BackgroundTaskStatus;
  bs_stop : bool;
  bs_output : BackgroundOutput;
  bs_locked : bool;
  bs_poisoned : bool;
}.

Record BackgroundWorld : Type := mkBackgroundWorld {
  bw_tasks : gmap nat BackgroundShared;
  bw_next : nat;
}.

Definition on_task (k : nat) (f : BackgroundShared -> BackgroundShared) (w : BackgroundWorld) : BackgroundWorld :=
  mkBackgroundWorld (alter f k (bw_tasks w)) (bw_next w).

Definition with_status (s : BackgroundTaskStatus) (x : BackgroundShared) : BackgroundShared :=
  mkBackgroundShared s (bs_stop x) (bs_output x) (bs_locked x) (bs_poisoned x).
Definition with_stop (b : bool) (x : BackgroundShared) : BackgroundShared :=
  mkBackgroundShared (bs_status x) b (bs_output x) (bs_locked x) (bs_poisoned x).
Definition with_output (o : BackgroundOutput) (x : BackgroundShared) : BackgroundShared :=
  mkBackgroundShared (bs_status x) (bs_stop x) o (bs_locked x) (bs_poisoned x).
Definition with_lock_held (b : bool) (x : BackgroundShared) : BackgroundShared :=
  mkBackgroundShared (bs_status x) (bs_stop x) (bs_output x) b (bs_poisoned x).
(** The guard is dropped while its thread unwinds. *)
Definition unwind_lock (x : BackgroundShared) : BackgroundShared :=
  mkBackgroundShared (bs_status x) (bs_stop x) (bs_output x) false true.

Definition background_answer (X : Type) (q : BackgroundPort X) (x : X) : BackgroundWorld -> BackgroundWorld :=
  match q with
  | BgPublish k status => on_task k (with_status status)
  | _ => id
  end.

Inductive BackgroundJob : Type :=
| RunBackground (k : nat) (admitted_at : Instant) (scope : ProcessScopeId) (spec : ProcessSpec)
    (options : BackgroundTaskOptions) (polls : nat).

Abbreviation BProg := (Prog (S := BackgroundWorld) (Q := BackgroundPort) (T := BackgroundJob)).
Abbreviation BEvent := (Event (S := BackgroundWorld) (Q := BackgroundPort)).

(** ** The worker *)

(** The variables that [run] declares before its blocks. *)
Record Locals : Type := mkLocals {
  lo_spawn : option nat;
  lo_observation : option Attached;
  lo_exit : option ProcessExit;
  lo_os_pid : option Z;
}.
Definition locals_new : Locals := mkLocals None None None None.

Definition Block (A : Type) : Type := Locals -> BProg (Locals * option A).

Definition block_ret {A} (a : A) : Block A := fun l => Ret (l, Some a).
Definition block_panic {A} : Block A := fun l => Ret (l, None).
Definition block_bind {A B} (p : Block A) (g : A -> Block B) : Block B := fun l =>
  let! (l, o) := p l in
  match o with Some a => g a l | None => Ret (l, None) end.
Definition block_lift {A} (p : BProg A) : Block A := fun l => let! a := p in Ret (l, Some a).
Definition block_set (f : Locals -> Locals) : Block unit := fun l => Ret (f l, Some tt).
Definition block_get {A} (f : Locals -> A) : Block A := fun l => Ret (l, Some (f l)).
(** An answer that may be a panic. *)
Definition block_answered {A} (r : unwound A) : Block A :=
  match r with Returned a => block_ret a | Unwound => block_panic end.
Definition effect {X} (q : BackgroundPort (unwound X)) : Block X :=
  block_bind (block_lift (call q)) block_answered.

#[local] Notation "'do' x ':=' p 'in' q" := (block_bind p (fun x => q))
  (at level 200, x pattern, p at level 100, q at level 200, right associativity).
#[local] Notation "'do_' p 'in' q" := (block_bind p (fun _ => q))
  (at level 200, p at level 100, q at level 200, right associativity).

Definition set_spawn (h : nat) (l : Locals) : Locals := mkLocals (Some h) (lo_observation l) (lo_exit l) (lo_os_pid l).
Definition set_observation (a : Attached) (l : Locals) : Locals := mkLocals (lo_spawn l) (Some a) (lo_exit l) (lo_os_pid l).
Definition set_exit (e : option ProcessExit) (l : Locals) : Locals := mkLocals (lo_spawn l) (lo_observation l) e (lo_os_pid l).
Definition set_os_pid (p : option Z) (l : Locals) : Locals := mkLocals (lo_spawn l) (lo_observation l) (lo_exit l) p.

Section Worker.
Context (k : nat) (admitted_at : Instant) (scope : ProcessScopeId) (spec : ProcessSpec) (options : BackgroundTaskOptions).

(** *** The output behind its mutex *)

(** [lock()]: the mutex is taken, and whether it was poisoned. *)
Definition lock_output (w : BackgroundWorld) : option (BackgroundWorld * bool) :=
  x ← bw_tasks w !! k;
  if bs_locked x then None else Some (on_task k (with_lock_held true) w, bs_poisoned x).
Definition unlock_output : BProg unit := modify (on_task k (with_lock_held false)).

Definition output_of (w : BackgroundWorld) : BackgroundOutput :=
  match bw_tasks w !! k with Some x => bs_output x | None => background_output_new end.
Definition set_output (o : BackgroundOutput) : BProg unit := modify (on_task k (with_output o)).

(** [Output::read] under the lock, whether it is poisoned or not; [None] when the source panicked. *)
Definition read_output : BProg (option BackgroundTaskOutput) :=
  await lock_output ;;;
  let! o := reads output_of in
  match bk_source o with
  | None => unlock_output ;;; Ret (Some (bk_current o))
  | Some source =>
      let! answered := call (BgRead source) in
      match answered with
      | Unwound => modify (on_task k unwind_lock) ;;; Ret None
      | Returned snapshot =>
          let o := account snapshot o in
          set_output o ;;; unlock_output ;;; Ret (Some (bk_current o))
      end
  end.

Definition block_output : Block BackgroundTaskOutput :=
  do output := block_lift read_output in
  match output with Some output => block_ret output | None => block_panic end.

(** *** [attached] *)

(** The source goes into the shared output; a poisoned mutex is a panic. *)
Definition attach_output (source : option ProcessOutput) : Block unit :=
  do poisoned := block_lift (await lock_output) in
  if poisoned : bool then
    do_ block_lift (modify (on_task k unwind_lock)) in
    block_panic
  else
    do o := block_lift (reads output_of) in
    do_ block_lift (set_output (mkBackgroundOutput source (bk_drained o) (bk_current o))) in
    block_lift unlock_output.

Definition attached (observation : Attached) : Block unit :=
  do_ attach_output (at_output observation) in
  do os_pid := effect (BgOsPid (at_pid observation)) in
  block_lift (call (BgPublish k (Background_Running (at_pid observation) os_pid))).

(** *** The activity *)

Definition stop_requested (w : BackgroundWorld) : bool :=
  match bw_tasks w !! k with Some x => bs_stop x | None => false end.
(** [stopped.changed()]: the only change is to [true]. *)
Definition stop_changed (w : BackgroundWorld) : option (BackgroundWorld * unit) :=
  if stop_requested w then Some (w, tt) else None.

(** The second select: the exit first; then a stop request before the timer. *)
Definition watch_process (remaining : Duration) (pid : ProcessId) : Block BackgroundTaskCause :=
  do first := block_lift (Wait (Either (Answer (BgExit pid)) (Biased stop_changed (Answer (BgSleep remaining)))) id Ret) in
  match first with
  | inl exit =>
      do exit := block_answered exit in
      do_ block_set (set_exit (Some exit)) in
      block_ret CauseExited
  | inr (inl _) => block_ret CauseCancelled
  | inr (inr slept) =>
      do_ block_answered slept in
      block_ret CauseTimedOut
  end.

(** From the spawn on. *)
Definition spawn_and_watch (remaining : Duration) : Block BackgroundTaskCause :=
  let bytes := bto_output_bytes options in
  do spawn := effect (BgSpawn scope (spec_set_output spec (Capture bytes bytes))) in
  do_ block_set (set_spawn spawn) in
  do first := block_lift (Wait (Either (Answer (BgSpawned spawn)) (Either (Ready stop_changed) (Answer (BgSleep remaining)))) id Ret) in
  match first with
  | inl spawned =>
      do spawned := block_answered spawned in
      match spawned with
      | Err error => block_ret (CauseSpawnFailed error)
      | Ok observation =>
          do os_pid := effect (BgOsPid (at_pid observation)) in
          do_ block_set (set_os_pid os_pid) in
          do_ attached observation in
          do_ block_set (set_observation (mkAttached (at_pid observation) None)) in
          watch_process remaining (at_pid observation)
      end
  | inr (inl _) => block_ret CauseCancelled
  | inr (inr slept) =>
      do_ block_answered slept in
      block_ret CauseTimedOut
  end.

Definition activity : Block BackgroundTaskCause :=
  do stopped := block_lift (reads stop_requested) in
  if stopped : bool then block_ret CauseCancelled
  else
    do now := effect BgNow in
    let remaining := duration_saturating_sub (bto_timeout options) (duration_saturating_sub now admitted_at) in
    if remaining =? 0 then block_ret CauseTimedOut
    else spawn_and_watch remaining.

(** *** Finalization *)

Definition recover_admission : Block unit :=
  do observation := block_get lo_observation in
  match observation with
  | Some _ => block_ret tt
  | None =>
      do spawn := block_get lo_spawn in
      match spawn with
      | None => block_ret tt
      | Some spawn =>
          do admission := effect (BgTakeAdmission spawn) in
          match admission with
          | None => block_ret tt
          | Some recovered =>
              do os_pid := effect (BgOsPid (at_pid recovered)) in
              do_ block_set (set_os_pid os_pid) in
              do_ attached recovered in
              block_set (set_observation (mkAttached (at_pid recovered) None))
          end
      end
  end.

Definition last_exit : Block unit :=
  do exit := block_get lo_exit in
  match exit with
  | Some _ => block_ret tt
  | None =>
      do observation := block_get lo_observation in
      match observation with
      | None => block_ret tt
      | Some observed =>
          do exit := effect (BgExitNow (at_pid observed)) in
          block_set (set_exit exit)
      end
  end.

Definition CLOSE_BUDGET : Duration := from_secs 1.
Definition CLOSE_POLL : Duration := from_millis 5.

(** The loop that waits for the pipes to close, with a bound of its rounds. *)
Fixpoint close_loop (polls : nat) (output : BackgroundTaskOutput) : Block BackgroundTaskOutput :=
  if bo_stdout_closed output && bo_stderr_closed output then block_ret output
  else
    match polls with
    | O => fun _ => await (fun _ => None)
    | S polls =>
        do first := block_lift (select2 (Answer (BgSleep CLOSE_BUDGET)) (Answer (BgSleep CLOSE_POLL))) in
        match first with
        | inl closed =>
            do_ block_answered closed in
            block_ret output
        | inr slept =>
            do_ block_answered slept in
            do output := block_output in
            close_loop polls output
        end
    end.

Definition has_source (w : BackgroundWorld) : bool :=
  match bk_source (output_of w) with Some _ => true | None => false end.

Definition finalization (polls : nat) : Block BackgroundTaskOutput :=
  do_ recover_admission in
  do_ last_exit in
  do output := block_output in
  do source := block_lift (await lock_output ;;; let! source := reads has_source in unlock_output ;;; Ret source) in
  if source : bool then close_loop polls output else block_ret output.

(** *** Publication *)

(** Under the lock: the current observation is frozen and the source is taken out. *)
Definition freeze (finalized : bool) (o : BackgroundOutput) : BackgroundOutput :=
  let c := bk_current o in
  mkBackgroundOutput None (bk_drained o)
    (if finalized then c
     else mkBackgroundTaskOutput (bo_tail c) (bo_omitted_bytes c) (bo_stdout_closed c) (bo_stderr_closed c)
            (bo_errors c ++ ["background output collection failed"])).

Definition freeze_output (finalized : bool) : BProg (BackgroundTaskOutput * option ProcessOutput) :=
  await lock_output ;;;
  let! o := reads output_of in
  let frozen := freeze finalized o in
  set_output frozen ;;;
  unlock_output ;;;
  Ret (bk_current frozen, bk_source o).

Definition worker_failed_cleanup : result ScopeTerminationReport TerminateError :=
  Err (TerminateError_Signal "background cleanup worker panicked").

Definition background_run (polls : nat) : BProg unit :=
  let! (l, activity) := activity locals_new in
  let cause := default CauseWorkerFailed activity in
  let! finished := ask (BgFinish scope (bto_termination options)) in
  let cleanup := match finished with Returned cleanup => cleanup | Unwound => worker_failed_cleanup end in
  let! (l, finalized) := finalization polls l in
  let! (output, capture) := freeze_output (match finalized with Some _ => true | None => false end) in
  match capture with
  | Some capture => call (BgDropCapture capture) ;;; Ret tt
  | None => Ret tt
  end ;;;
  call (BgPublish k (Background_Finished
    (mkBackgroundTaskResult scope (at_pid <$> lo_observation l) (lo_os_pid l) cause (lo_exit l) cleanup output))).
End Worker.

Definition background_body (t : BackgroundJob) : BProg unit :=
  match t with
  | RunBackground k admitted_at scope spec options polls => background_run k admitted_at scope spec options polls
  end.

(** ** The handle *)

Definition background_shared_new : BackgroundShared :=
  mkBackgroundShared Background_Starting false background_output_new false false.

Definition new_task (w : BackgroundWorld) : BackgroundWorld * nat :=
  (mkBackgroundWorld (<[bw_next w := background_shared_new]> (bw_tasks w)) (S (bw_next w)), bw_next w).

(** A handle: the number of its task, and its scope ([id]). *)
Record BackgroundTask : Type := mkBackgroundTask {
  bt_task : nat;
  bt_scope : ProcessScopeId;
}.

Definition background_start (polls : nat) (spec : ProcessSpec) (options : BackgroundTaskOptions) :
    BProg (result BackgroundTask ScopeCreationError) :=
  let! now := call BgNow in
  match now with
  | Unwound => Panic "clock panicked"
  | Returned admitted_at =>
      let! created := call BgCreateScope in
      match created with
      | Err e => Ret (Err e)
      | Ok scope =>
          let! k := act new_task in
          fork (RunBackground k admitted_at scope spec options polls) ;;;
          Ret (Ok (mkBackgroundTask k scope))
      end
  end.

Definition background_status (k : nat) (w : BackgroundWorld) : option BackgroundTaskStatus := bs_status <$> bw_tasks w !! k.

(** [output]: a panic of the source goes to the caller. *)
Definition background_output (k : nat) : BProg BackgroundTaskOutput :=
  let! output := read_output k in
  match output with Some output => Ret output | None => Panic "output source panicked" end.

Definition background_cancel (k : nat) : BProg unit := modify (on_task k (with_stop true)).

Definition finished_result (k : nat) (w : BackgroundWorld) : option (BackgroundWorld * BackgroundTaskResult) :=
  match background_status k w with Some (Background_Finished result) => Some (w, result) | _ => None end.
Definition background_wait (k : nat) : BProg BackgroundTaskResult := await (finished_result k).
