(* ===== verification/BackgroundOrder.v ===== *)
(** * BackgroundOrder: what the worker of a background task does, in which order

    One protocol of the worker, for all answers and panics of what it is given and for every
    pace of the handles; and the accounting of its output, against the reference of
    the output buffer. *)

From stdpp Require Import base list gmap strings.
From S2P Require Import Prelude StdModel Values Ports Conc Protocol History Output Background.

Open Scope Z_scope.
Open Scope prog_scope.

#[global] Instance report_eq_dec : EqDecision ScopeTerminationReport.
Proof. solve_decision. Defined.

(** A question with its answer. *)
Inductive answered : Type :=
| Did {X : Type} (q : BackgroundPort X) (x : X)
| Began (t : BackgroundJob).

Definition background_label (X : Type) (q : BackgroundPort X) : X -> answered := Did q.

Abbreviation BProg := (Prog (S := BackgroundWorld) (Q := BackgroundPort) (T := BackgroundJob)).

Definition background_trace {A} (p : BProg A) (ls : list answered) (r : option A) : Prop :=
  trace background_answer background_label Began p ls r.

Section Worker.
Context (k : nat) (admitted_at : Instant) (scope : ProcessScopeId) (spec : ProcessSpec) (options : BackgroundTaskOptions).

(** What the worker knows: the rest of its budget, its spawn, the process that is being attached and
    the attached one, its exit, why it stopped waiting (when an answer says so), the
    cleanup, and whether the result is published. *)
Record worker : Type := mkWorker {
  wk_budget : option Duration;
  wk_spawn : option nat;
  wk_attaching : option ProcessId;
  wk_process : option ProcessId;
  wk_exit : option ProcessExit;
  wk_cause : option BackgroundTaskCause;
  wk_cleanup : option (result ScopeTerminationReport TerminateError);
  wk_done : bool;
}.
Definition worker_begins : worker := mkWorker None None None None None None None false.

Definition set_cause (s : worker) (c : BackgroundTaskCause) : option worker :=
  Some (mkWorker (wk_budget s) (wk_spawn s) (wk_attaching s) (wk_process s) (wk_exit s) (Some c) (wk_cleanup s) (wk_done s)).
(** An effect of the activity: a panic is the end of the activity. *)
Definition in_activity {A} (s : worker) (r : unwound A) (next : A -> option worker) : option worker :=
  match wk_cleanup s, wk_cause s with
  | None, None => match r with Returned a => next a | Unwound => set_cause s CauseWorkerFailed end
  | _, _ => None
  end.
(** An effect of the finalization. *)
Definition in_finalization {A} (s : worker) (r : unwound A) (next : A -> option worker) : option worker :=
  match wk_cleanup s, r with
  | Some _, Returned a => next a
  | Some _, Unwound => Some s
  | None, _ => None
  end.
Definition given (b : bool) (o : option worker) : option worker := if b then o else None.

(** The cause that goes with what was seen; with nothing seen, the task was cancelled (or the
    output's mutex was poisoned). *)
Definition cause_ok (seen : option BackgroundTaskCause) (c : BackgroundTaskCause) : bool :=
  match seen with
  | Some c' => bool_decide (c = c')
  | None => match c with CauseCancelled | CauseWorkerFailed => true | _ => false end
  end.

Definition remaining_at (t : Instant) : Duration :=
  duration_saturating_sub (bto_timeout options) (duration_saturating_sub t admitted_at).

Definition worker_publish (s : worker) (status : BackgroundTaskStatus) : option worker :=
  match status with
  | Background_Running pid _ =>
      given (bool_decide (wk_attaching s = Some pid) && bool_decide (wk_process s = None))
        (Some (mkWorker (wk_budget s) (wk_spawn s) (wk_attaching s) (Some pid) (wk_exit s) (wk_cause s) (wk_cleanup s) false))
  | Background_Finished r =>
      given (bool_decide (wk_cleanup s = Some (br_cleanup r)) && bool_decide (br_scope r = scope) &&
             bool_decide (br_process r = wk_process s) && bool_decide (br_exit r = wk_exit s) && cause_ok (wk_cause s) (br_cause r))
        (Some (mkWorker (wk_budget s) (wk_spawn s) (wk_attaching s) (wk_process s) (wk_exit s) (wk_cause s) (wk_cleanup s) true))
  | Background_Starting => None
  end.

Definition worker_delta (s : worker) (l : answered) : option worker :=
  if wk_done s then None
  else
  match l with
  | Began _ => None
  | Did q x =>
      match q in BackgroundPort X return X -> option worker with
      | BgNow => fun r => given (bool_decide (wk_budget s = None)) (in_activity s r (fun t =>
          let left := remaining_at t in
          if left =? 0 then set_cause s CauseTimedOut
          else Some (mkWorker (Some left) (wk_spawn s) (wk_attaching s) (wk_process s) (wk_exit s) None None false)))
      | BgSpawn scope' spec' => fun r =>
          given (bool_decide (wk_spawn s = None) && negb (bool_decide (wk_budget s = None)) && bool_decide (scope' = scope) &&
                 bool_decide (spec' = spec_set_output spec (Capture (bto_output_bytes options) (bto_output_bytes options))))
            (in_activity s r (fun h =>
               Some (mkWorker (wk_budget s) (Some h) (wk_attaching s) (wk_process s) (wk_exit s) None None false)))
      | BgSpawned h => fun r =>
          given (bool_decide (wk_spawn s = Some h) && bool_decide (wk_attaching s = None)) (in_activity s r (fun spawned =>
            match spawned with
            | Ok a => Some (mkWorker (wk_budget s) (wk_spawn s) (Some (at_pid a)) (wk_process s) (wk_exit s) None None false)
            | Err e => set_cause s (CauseSpawnFailed e)
            end))
      | BgExit pid => fun r =>
          given (bool_decide (wk_process s = Some pid)) (in_activity s r (fun e =>
            Some (mkWorker (wk_budget s) (wk_spawn s) (wk_attaching s) (wk_process s) (Some e) (Some CauseExited) None false)))
      | BgSleep d => fun r =>
          match wk_cleanup s with
          | None => given (bool_decide (wk_budget s = Some d) && negb (bool_decide (wk_spawn s = None)))
                      (in_activity s r (fun _ => set_cause s CauseTimedOut))
          | Some _ => given ((d =? CLOSE_BUDGET) || (d =? CLOSE_POLL)) (Some s)
          end
      | BgFinish scope' opts => fun r =>
          given (bool_decide (wk_cleanup s = None) && bool_decide (scope' = scope) && bool_decide (opts = bto_termination options))
            (Some (mkWorker (wk_budget s) (wk_spawn s) (wk_attaching s) (wk_process s) (wk_exit s) (wk_cause s)
                     (Some (match r with Returned cleanup => cleanup | Unwound => worker_failed_cleanup end)) false))
      | BgTakeAdmission h => fun r =>
          given (bool_decide (wk_spawn s = Some h) && bool_decide (wk_process s = None)) (in_finalization s r (fun admission =>
            match admission with
            | None => Some s
            | Some a =>
                Some (mkWorker (wk_budget s) (wk_spawn s) (Some (at_pid a)) (wk_process s) (wk_exit s) (wk_cause s) (wk_cleanup s) false)
            end))
      | BgExitNow pid => fun r =>
          given (bool_decide (wk_process s = Some pid) && bool_decide (wk_exit s = None)) (in_finalization s r (fun exit =>
            Some (mkWorker (wk_budget s) (wk_spawn s) (wk_attaching s) (wk_process s) exit (wk_cause s) (wk_cleanup s) false)))
      | BgOsPid pid => fun r =>
          given (bool_decide (wk_attaching s = Some pid))
            match wk_cleanup s with
            | None => in_activity s r (fun _ => Some s)
            | Some _ => in_finalization s r (fun _ => Some s)
            end
      | BgRead _ => fun r => in_finalization s r (fun _ => Some s)
      | BgDropCapture _ => fun r => in_finalization s r (fun _ => Some s)
      | BgPublish k' status => fun _ => given (bool_decide (k' = k)) (worker_publish s status)
      | BgCreateScope => fun _ => None
      end x
  end.

Abbreviation obeys := (Protocol.obeys (answer := background_answer) (label := background_label) (started := Began)
  worker_delta (fun _ => True)) (only parsing).

(** ** Blocks *)

(** A block from locals [l] and state [s], to locals and a value, or to a panic. *)
Definition block_obeys {A} (p : Block A) (l : Locals) (s : worker) (post : worker -> Locals -> option A -> Prop) : Prop :=
  obeys (p l) s (fun s r => post s r.1 r.2).

Lemma block_obeys_bind {A B} (p : Block A) (g : A -> Block B) l s mid post :
  block_obeys p l s mid ->
  (forall s' l' a, mid s' l' (Some a) -> block_obeys (g a) l' s' post) ->
  (forall s' l', mid s' l' None -> post s' l' None) ->
  block_obeys (block_bind p g) l s post.
Proof.
  intros Hp Hg Hn. unfold block_obeys, block_bind. eapply obeys_bind; [exact Hp|].
  intros s' [l' [a|]] Hm; cbn in Hm; [by apply Hg|by apply Hn].
Qed.

Lemma block_obeys_lift {A} (p : BProg A) l s (post : worker -> Locals -> option A -> Prop) :
  obeys p s (fun s' a => post s' l (Some a)) -> block_obeys (block_lift p) l s post.
Proof. intros Hp. unfold block_obeys, block_lift. eapply obeys_bind; [exact Hp|]. by intros s' a Ha. Qed.

Lemma block_obeys_effect {X} (q : BackgroundPort (unwound X)) l s (post : worker -> Locals -> option X -> Prop) :
  (forall r, exists s', worker_delta s (Did q r) = Some s' /\ post s' l (match r with Returned x => Some x | Unwound => None end)) ->
  block_obeys (effect q) l s post.
Proof.
  intros Hq. unfold effect.
  eapply (block_obeys_bind _ _ _ _ (fun s' l' o => l' = l /\ exists r, o = Some r /\
    post s' l (match r with Returned x => Some x | Unwound => None end))).
  - apply block_obeys_lift, obeys_call. intros r. destruct (Hq r) as (s' & ? & ?). exists s'. split; [done|]. eauto.
  - intros s' l' a (-> & r & [= <-] & Hr). by destruct a.
  - by intros s' l' (_ & r & ? & _).
Qed.

Lemma block_obeys_mono {A} (p : Block A) l s (post1 post2 : worker -> Locals -> option A -> Prop) :
  (forall s' l' o, post1 s' l' o -> post2 s' l' o) -> block_obeys p l s post1 -> block_obeys p l s post2.
Proof. intros H. apply obeys_mono; [done|]. intros s' r. apply H. Qed.

Lemma block_obeys_set f l s (post : worker -> Locals -> option unit -> Prop) :
  post s (f l) (Some tt) -> block_obeys (block_set f) l s post.
Proof. done. Qed.

(** Steps that ask nothing. *)
Lemma obeys_lock s (post : worker -> bool -> Prop) : (forall b, post s b) -> obeys (await (lock_output k)) s post.
Proof. intros Hp. split; [done|]. intros w w' b _. exists s. split; [done|apply Hp]. Qed.

Lemma obeys_silent {X} (p : BProg X) s (post : worker -> X -> Prop) :
  obeys p s (fun s' _ => s' = s) -> (forall x, post s x) -> obeys p s post.
Proof. intros Hp Hpost. eapply obeys_mono; [done| |exact Hp]. by intros s' x ->. Qed.

(** *** The attachment *)

Definition attaching_to (s : worker) (pid : ProcessId) : Prop :=
  wk_attaching s = Some pid /\ wk_process s = None /\ wk_done s = false.
Definition has_process (s : worker) (pid : ProcessId) : worker :=
  mkWorker (wk_budget s) (wk_spawn s) (wk_attaching s) (Some pid) (wk_exit s) (wk_cause s) (wk_cleanup s) false.
(** A panic: the activity is over, or the finalization. *)
Definition unwound_from (s s' : worker) : Prop :=
  s' = s \/ wk_cleanup s = None /\ set_cause s CauseWorkerFailed = Some s'.

Lemma block_attach_output source l s :
  block_obeys (attach_output k source) l s (fun s' l' _ => s' = s /\ l' = l).
Proof.
  unfold attach_output.
  eapply block_obeys_bind with (mid := fun s' l' _ => s' = s /\ l' = l);
    [apply block_obeys_lift, obeys_lock; intros b; by split| |done].
  intros s1 l1 poisoned [-> ->]. destruct poisoned.
  - eapply block_obeys_bind with (mid := fun s' l' _ => s' = s /\ l' = l); [|by intros|done].
    apply block_obeys_lift, obeys_act. by split.
  - eapply block_obeys_bind with (mid := fun s' l' _ => s' = s /\ l' = l); [by apply block_obeys_lift, obeys_act| |done].
    intros s1 l1 o [-> ->].
    eapply block_obeys_bind with (mid := fun s' l' _ => s' = s /\ l' = l); [by apply block_obeys_lift, obeys_act| |done].
    intros s1 l1 u [-> ->]. by apply block_obeys_lift, obeys_act.
Qed.

Lemma block_os_pid pid l s :
  attaching_to s pid -> (wk_cleanup s = None -> wk_cause s = None) ->
  block_obeys (effect (BgOsPid pid)) l s (fun s' l' o => l' = l /\
    match o with Some _ => s' = s | None => unwound_from s s' end).
Proof.
  destruct s as [bu sp atg pr ex ca cl dn]. intros (Ha & Hp & Hd) Hc. cbn in Ha, Hp, Hd, Hc. subst.
  apply block_obeys_effect. intros r. cbn. rewrite bool_decide_eq_true_2 by done. destruct cl as [cl|].
  - destruct r; eexists; (split; [done|]); split; try done. by left.
  - rewrite (Hc eq_refl). destruct r; eexists; (split; [done|]); split; try done. by right.
Qed.

Lemma block_attached o l s :
  attaching_to s (at_pid o) -> (wk_cleanup s = None -> wk_cause s = None) ->
  block_obeys (attached k o) l s (fun s' l' r => l' = l /\
    match r with Some _ => s' = has_process s (at_pid o) | None => unwound_from s s' end).
Proof.
  intros Ha Hc. unfold attached.
  eapply block_obeys_bind; [apply block_attach_output| |].
  2:{ intros s' l' [-> ->]. split; [done|by left]. }
  intros s1 l1 [] [-> ->]. eapply block_obeys_bind; [by apply block_os_pid|intros s1 l1 p [-> ->]|by intros].
  apply block_obeys_lift, obeys_call. intros []. exists (has_process s (at_pid o)).
  split; [|by split]. destruct s as [bu sp atg pr ex ca cl dn]. destruct Ha as (Ha & Hp & Hd). cbn in Ha, Hp, Hd. subst.
  cbn. by rewrite !bool_decide_eq_true_2.
Qed.

(** *** The activity *)

(** The locals are what the protocol knows. *)
Definition known (s : worker) (l : Locals) : Prop :=
  wk_spawn s = lo_spawn l /\ wk_process s = at_pid <$> lo_observation l /\ wk_exit s = lo_exit l /\ wk_done s = false.

Definition acted (s : worker) (l : Locals) (o : option BackgroundTaskCause) : Prop :=
  known s l /\ wk_cleanup s = None /\ cause_ok (wk_cause s) (default CauseWorkerFailed o) = true.

Lemma cause_ok_same c : cause_ok (Some c) c = true.
Proof. cbn. by rewrite bool_decide_eq_true_2. Qed.

(** A wait for several events is a wait for each. *)
Lemma block_answered_obeys {A B} (r : unwound A) (g : A -> Block B) l s post :
  match r with Returned a => block_obeys (g a) l s post | Unwound => post s l None end ->
  block_obeys (block_bind (block_answered r) g) l s post.
Proof.
  intros Hr. destruct r as [a|].
  - eapply block_obeys_bind with (mid := fun s' l' o => s' = s /\ l' = l /\ o = Some a); [done|by intros ? ? ? (-> & -> & [= <-])|].
    by intros s' l' (_ & _ & ?).
  - eapply block_obeys_bind with (mid := fun s' l' o => s' = s /\ l' = l /\ o = None); [done| |].
    + by intros ? ? ? (_ & _ & ?).
    + by intros ? ? (-> & -> & _).
Qed.

Lemma block_timed_out d s l r :
  wk_budget s = Some d -> is_Some (wk_spawn s) -> wk_cleanup s = None -> wk_cause s = None -> known s l ->
  exists s', worker_delta s (Did (BgSleep d) r) = Some s' /\
    acted s' l (match r with Returned _ => Some CauseTimedOut | Unwound => None end).
Proof.
  destruct s as [bu sp atg pr ex ca cl dn], l as [ls lo le lp]. intros Hb [h Hs] Hcl Hca (E1 & E2 & E3 & E4).
  cbn in Hb, Hs, Hcl, Hca, E1, E2, E3, E4. subst. cbn. rewrite bool_decide_eq_true_2 by done. destruct r; (eexists; split; [done|]); (split; [by split_and!|]); by split.
Qed.

Lemma block_watch_process d s l pid :
  wk_budget s = Some d -> is_Some (wk_spawn s) -> wk_cleanup s = None -> wk_cause s = None -> known s l ->
  wk_process s = Some pid ->
  block_obeys (watch_process k d pid) l s acted.
Proof.
  intros Hb Hs Hcl Hca Hk Hp. unfold watch_process.
  eapply block_obeys_bind with (mid := fun s' l' r => l' = l /\
    match r with
    | Some (inl (Returned e)) => acted s' (set_exit (Some e) l) (Some CauseExited)
    | Some (inl Unwound) => acted s' l None
    | Some (inr (inl _)) => acted s' l (Some CauseCancelled)
    | Some (inr (inr r)) => acted s' l (match r with Returned _ => Some CauseTimedOut | Unwound => None end)
    | None => False
    end).
  - apply block_obeys_lift. split; [done|]. intros w w' [r|[u|r]] _; cbn [labels].
    + destruct s as [bu sp atg pr ex ca cl dn], l as [ls lo le lp]. destruct Hk as (E1 & E2 & E3 & E4).
      cbn in Hb, Hs, Hcl, Hca, E1, E2, E3, E4, Hp. subst.
      destruct r; eexists; (split; [cbn; by rewrite bool_decide_eq_true_2|]);
        (split; [done|]); (split; [by split_and!|]); by split.
    + exists s. split; [done|]. split; [done|]. split; [done|]. split; [done|]. by rewrite Hca.
    + destruct (block_timed_out d s l r Hb Hs Hcl Hca Hk) as (s' & Hd & Ha). exists s'. cbn. unfold background_label. by rewrite Hd.
  - intros s' l' [[e|]|[u|r]] [-> Hm].
    + apply block_answered_obeys. by eapply block_obeys_bind with (mid := fun s1 l1 o => s1 = s' /\ l1 = set_exit (Some e) l /\ o = Some tt);
        [done|intros ? ? ? (-> & -> & _)|intros ? ? (_ & _ & ?)].
    + by apply block_answered_obeys.
    + done.
    + apply block_answered_obeys. by destruct r.
  - by intros s' l' [_ ?].
Qed.

(** A panic in the activity is its end. *)
Lemma acted_unwound s s' l :
  known s l -> wk_cleanup s = None -> wk_cause s = None -> unwound_from s s' -> acted s' l None.
Proof.
  intros (E1 & E2 & E3 & E4) Hcl Hca [->|[_ [= <-]]]; (split; [by split_and!|]); (split; [done|]); cbn; by rewrite ?Hca.
Qed.

Lemma block_spawn_and_watch d s l :
  wk_budget s = Some d -> wk_cleanup s = None -> wk_cause s = None -> known s l -> l = locals_new -> wk_attaching s = None ->
  block_obeys (spawn_and_watch k scope spec options d) l s acted.
Proof.
  destruct s as [bu sp atg pr ex ca cl dn]. intros Hb Hcl Hca (E1 & E2 & E3 & E4) -> Hat. cbn in Hb, Hcl, Hca, E1, E2, E3, E4, Hat. subst.
  unfold spawn_and_watch.
  eapply block_obeys_bind with (mid := fun s' l' o => l' = locals_new /\
    match o with
    | Some h => s' = mkWorker (Some d) (Some h) None None None None None false
    | None => acted s' locals_new None
    end); [|intros s' l' h [-> ->]|by intros s' l' [-> ?]].
  { apply block_obeys_effect. intros r. destruct r; eexists; (split; [cbn; by rewrite !bool_decide_eq_true_2|]); (split; [done|]);
      [done|]. split; [by split_and!|]. by split. }
  eapply block_obeys_bind with (mid := fun s' l' o => o = Some tt /\ l' = set_spawn h locals_new /\
    s' = mkWorker (Some d) (Some h) None None None None None false); [done|intros s' l' [] (_ & -> & ->)|by intros s' l' (? & _)].
  eapply block_obeys_bind with (mid := fun s' l' r => l' = set_spawn h locals_new /\
    match r with
    | Some (inl (Returned (Ok o))) => s' = mkWorker (Some d) (Some h) (Some (at_pid o)) None None None None false
    | Some (inl (Returned (Err e))) => acted s' l' (Some (CauseSpawnFailed e))
    | Some (inl Unwound) => acted s' l' None
    | Some (inr (inl _)) => acted s' l' (Some CauseCancelled)
    | Some (inr (inr r)) => acted s' l' (match r with Returned _ => Some CauseTimedOut | Unwound => None end)
    | None => False
    end); [|intros s' l' r [-> Hm]|by intros s' l' [_ ?]].
  { apply block_obeys_lift. split; [done|]. intros w w' [r|[u|r]] _; cbn [labels].
    - destruct r as [[o|e]|]; eexists; (split; [cbn; by rewrite !bool_decide_eq_true_2|]); (split; [done|]);
        [done| |]; (split; [by split_and!|]); (split; [done|]); [apply cause_ok_same|done].
    - eexists. split; [done|]. split; [done|]. split; [by split_and!|]. by split.
    - destruct (block_timed_out d (mkWorker (Some d) (Some h) None None None None None false) (set_spawn h locals_new) r)
        as (s' & Hd & Ha); [done|by eexists|done|done|by split_and!|]. exists s'. cbn [run_from]. unfold background_label. by rewrite Hd. }
  destruct r as [[[o|e]|]|[u|r]]; [| |by apply block_answered_obeys|done|apply block_answered_obeys; by destruct r].
  2:{ by apply block_answered_obeys. }
  subst s'. apply block_answered_obeys. set (s := mkWorker (Some d) (Some h) (Some (at_pid o)) None None None None false).
  assert (Hk : known s (set_spawn h locals_new)) by (by split_and!).
  eapply block_obeys_bind; [by apply block_os_pid|intros s' l' p [-> ->]|].
  2:{ intros s' l' [-> Hu]. by eapply acted_unwound. }
  eapply block_obeys_bind with (mid := fun s' l' r => r = Some tt /\ s' = s /\ l' = set_os_pid p (set_spawn h locals_new));
    [done|intros s' l' [] (_ & -> & ->)|by intros s' l' (? & _)].
  eapply block_obeys_bind; [by apply block_attached|intros s' l' [] [-> ->]|].
  2:{ intros s' l' [-> Hu]. by apply (acted_unwound s). }
  set (l := mkLocals (Some h) (Some (mkAttached (at_pid o) None)) None p).
  eapply block_obeys_bind with (mid := fun s' l' r => r = Some tt /\ s' = has_process s (at_pid o) /\ l' = l);
    [done|intros s' l' [] (_ & -> & ->)|by intros s' l' (? & _)].
  apply block_watch_process; [done|by eexists|done|done|by split_and!|done].
Qed.

Lemma block_activity : block_obeys (activity k admitted_at scope spec options) locals_new worker_begins acted.
Proof.
  unfold activity. assert (Hk : known worker_begins locals_new) by (by split_and!).
  eapply block_obeys_bind with (mid := fun s' l' _ => s' = worker_begins /\ l' = locals_new);
    [by apply block_obeys_lift, obeys_act|intros s' l' stopped [-> ->]|by intros s' l' [-> ->]].
  destruct stopped; [by split_and!|].
  eapply block_obeys_bind with (mid := fun s' l' o => l' = locals_new /\
    match o with
    | Some t => if remaining_at t =? 0 then acted s' l' (Some CauseTimedOut)
                else s' = mkWorker (Some (remaining_at t)) None None None None None None false
    | None => acted s' l' None
    end); [|intros s' l' t [-> Hm]|by intros s' l' [-> ?]].
  { apply block_obeys_effect. intros [t|].
    - cbn [worker_delta wk_done worker_begins given bool_decide wk_budget in_activity wk_cleanup wk_cause].
      destruct (remaining_at t =? 0); eexists; (split; [done|]); (split; [done|]); [|done]. split; [by split_and!|]. by split.
    - eexists. split; [done|]. split; [done|]. split; [by split_and!|]. by split. }
  fold (remaining_at t). destruct (remaining_at t =? 0); [exact Hm|]. subst s'.
  by apply block_spawn_and_watch.
Qed.

(** *** Finalization and publication *)

Section Finalization.
Context (cleanup : result ScopeTerminationReport TerminateError) (cause : option BackgroundTaskCause).

Definition settled (s : worker) (l : Locals) : Prop := known s l /\ wk_cleanup s = Some cleanup /\ wk_cause s = cause.
Abbreviation stays := (fun s l _ => settled s l) (only parsing).

Lemma settled_unwound s s' l : settled s l -> unwound_from s s' -> settled s' l.
Proof. intros (Hk & Hcl & Hca) [->|[? _]]; [done|congruence]. Qed.

(** An effect that changes nothing. *)
Lemma block_settled_effect {X} (q : BackgroundPort (unwound X)) s l :
  settled s l -> (forall r, worker_delta s (Did q r) = Some s) -> block_obeys (effect q) l s (fun s' l' _ => s' = s /\ l' = l).
Proof. intros _ Hd. apply block_obeys_effect. intros r. exists s. by split. Qed.

Lemma block_recover_admission s l : settled s l -> block_obeys (recover_admission k) l s stays.
Proof.
  intros Hs. unfold recover_admission.
  eapply block_obeys_bind with (mid := fun s' l' o => s' = s /\ l' = l /\ o = Some (lo_observation l));
    [done|intros s' l' ? (-> & -> & [= ->])|by intros s' l' (_ & _ & ?)].
  destruct (lo_observation l) as [o|] eqn:Eo; [exact Hs|].
  eapply block_obeys_bind with (mid := fun s' l' o => s' = s /\ l' = l /\ o = Some (lo_spawn l));
    [done|intros s' l' ? (-> & -> & [= ->])|by intros s' l' (_ & _ & ?)].
  destruct (lo_spawn l) as [h|] eqn:Eh; [|exact Hs].
  eapply block_obeys_bind with (mid := fun s' l' r => l' = l /\ settled s' l' /\ wk_process s' = None /\
    match r with Some (Some a) => wk_attaching s' = Some (at_pid a) | _ => True end);
    [|intros s' l' a (-> & Hs' & Hp' & Ha)|by intros s' l' (_ & ? & _)].
  { apply block_obeys_effect. destruct s as [bu sp atg pr ex ca cl dn], l as [ls lo le lp].
    destruct Hs as ((E1 & E2 & E3 & E4) & Hcl & Hca). cbn in Eo, Eh, E1, E2, E3, E4, Hcl, Hca. subst.
    intros [[a|]|]; eexists; (split; [cbn; by rewrite bool_decide_eq_true_2|]); by split_and!. }
  destruct a as [a|]; [|exact Hs'].
  assert (Hat : attaching_to s' (at_pid a)) by (split; [done|]; split; [done|apply Hs']).
  assert (Hno : wk_cleanup s' = None -> wk_cause s' = None) by (intros E; destruct Hs' as (_ & E' & _); congruence).
  eapply block_obeys_bind; [by apply block_os_pid|intros s2 l2 p [-> ->]|].
  2:{ intros s2 l2 [-> Hu]. by eapply settled_unwound. }
  assert (Hs2 : settled s' (set_os_pid p l)) by exact Hs'.
  eapply block_obeys_bind with (mid := fun s2 l2 r => r = Some tt /\ s2 = s' /\ l2 = set_os_pid p l);
    [done|intros s2 l2 [] (_ & -> & ->)|by intros s2 l2 (? & _)].
  eapply block_obeys_bind; [by apply block_attached|intros s2 l2 [] [-> ->]|].
  2:{ intros s2 l2 [-> Hu]. by eapply settled_unwound. }
  destruct Hs' as ((E1 & E2 & E3 & E4) & Hcl & Hca). by split_and!.
Qed.

Lemma block_last_exit s l : settled s l -> block_obeys last_exit l s stays.
Proof.
  intros Hs. unfold last_exit.
  eapply block_obeys_bind with (mid := fun s' l' o => s' = s /\ l' = l /\ o = Some (lo_exit l));
    [done|intros s' l' ? (-> & -> & [= ->])|by intros s' l' (_ & _ & ?)].
  destruct (lo_exit l) as [e|] eqn:Ee; [exact Hs|].
  eapply block_obeys_bind with (mid := fun s' l' o => s' = s /\ l' = l /\ o = Some (lo_observation l));
    [done|intros s' l' ? (-> & -> & [= ->])|by intros s' l' (_ & _ & ?)].
  destruct (lo_observation l) as [o|] eqn:Eo; [|exact Hs].
  eapply block_obeys_bind with (mid := fun s' l' r => match r with Some e => settled s' (set_exit e l') | None => settled s' l' end);
    [|intros s' l' e He; exact He|by intros s' l' He].
  apply block_obeys_effect. destruct s as [bu sp atg pr ex ca cl dn], l as [ls lo le lp].
  destruct Hs as ((E1 & E2 & E3 & E4) & Hcl & Hca). cbn in Eo, Ee, E1, E2, E3, E4, Hcl, Hca. subst.
  intros [e|]; eexists; (split; [cbn; by rewrite bool_decide_eq_true_2|]); by split_and!.
Qed.

Lemma settled_delta s l {X} (q : BackgroundPort X) r :
  settled s l ->
  match q with BgRead _ | BgDropCapture _ => True | BgSleep d => (d =? CLOSE_BUDGET) || (d =? CLOSE_POLL) = true | _ => False end ->
  worker_delta s (Did q r) = Some s.
Proof.
  intros ((_ & _ & _ & E4) & Hcl & _) Hq. unfold worker_delta. rewrite E4. destruct q; try done.
  - rewrite Hcl. by rewrite Hq.
  - unfold in_finalization. rewrite Hcl. by destruct r.
  - unfold in_finalization. rewrite Hcl. by destruct r.
Qed.

Lemma obeys_read_output s l : settled s l -> obeys (read_output k) s (fun s' _ => s' = s).
Proof.
  intros Hs. unfold read_output. apply (obeys_bind _ _ _ _ _ (fun s' _ => s' = s)); [by apply obeys_lock|]. intros s' _ ->.
  apply (obeys_bind _ _ _ _ _ (fun s' _ => s' = s)); [by apply obeys_act|]. intros s' o ->.
  destruct (bk_source o) as [source|].
  - apply (obeys_bind _ _ _ _ _ (fun s' _ => s' = s)).
    { apply obeys_call. intros x. exists s. split; [|done]. by eapply settled_delta. }
    intros s' [snapshot|] ->.
    + apply (obeys_bind _ _ _ _ _ (fun s' _ => s' = s)); [by apply obeys_act|]. intros s' _ ->.
      by apply (obeys_bind _ _ _ _ _ (fun s' _ => s' = s)); [apply obeys_act|intros s' _ ->].
    + by apply (obeys_bind _ _ _ _ _ (fun s' _ => s' = s)); [apply obeys_act|intros s' _ ->].
  - by apply (obeys_bind _ _ _ _ _ (fun s' _ => s' = s)); [apply obeys_act|intros s' _ ->].
Qed.

Lemma block_output_settled s l : settled s l -> block_obeys (block_output k) l s (fun s' l' _ => s' = s /\ l' = l).
Proof.
  intros Hs. unfold block_output.
  eapply block_obeys_bind with (mid := fun s' l' _ => s' = s /\ l' = l); [|intros s' l' [o|] [-> ->]; by split|done].
  apply block_obeys_lift. eapply obeys_mono; [done| |by eapply obeys_read_output]. by intros s' o ->.
Qed.

Lemma block_close_loop polls output s l :
  settled s l -> block_obeys (close_loop k polls output) l s stays.
Proof.
  intros Hs. revert output. induction polls as [|polls IH]; intros output; cbn [close_loop].
  { destruct (_ && _); [exact Hs|]. split; [done|]. intros w w' x Hf. by cbn in Hf. }
  destruct (_ && _); [exact Hs|].
  eapply block_obeys_bind with (mid := fun s' l' _ => s' = s /\ l' = l); [|intros s' l' r [-> ->]|by intros s' l' [-> ->]].
  { apply block_obeys_lift. split; [done|]. intros w w' [r|r] _; exists s; (split; [|done]); cbn [labels run_from];
      unfold background_label; by rewrite (settled_delta s l). }
  destruct r as [r|r]; apply block_answered_obeys; (destruct r; [|exact Hs]); [exact Hs|].
  eapply block_obeys_bind; [by apply block_output_settled|intros s' l' o [-> ->]; apply IH|by intros s' l' [-> ->]].
Qed.

Lemma block_finalization polls s l : settled s l -> block_obeys (finalization k polls) l s stays.
Proof.
  intros Hs. unfold finalization.
  eapply block_obeys_bind; [by apply block_recover_admission|intros s1 l1 u H1|by intros]. clear s l Hs.
  eapply block_obeys_bind; [by apply block_last_exit|intros s l v Hs|by intros]. clear s1 l1 H1.
  eapply block_obeys_bind; [by apply block_output_settled|intros s' l' o [-> ->]|by intros s' l' [-> ->]].
  eapply block_obeys_bind with (mid := fun s' l' _ => s' = s /\ l' = l); [|intros s' l' b [-> ->]|by intros s' l' [-> ->]].
  - apply block_obeys_lift. apply (obeys_bind _ _ _ _ _ (fun s' _ => s' = s)); [by apply obeys_lock|]. intros s' _ ->.
    apply (obeys_bind _ _ _ _ _ (fun s' _ => s' = s)); [by apply obeys_act|]. intros s' b ->.
    by apply (obeys_bind _ _ _ _ _ (fun s' _ => s' = s)); [apply obeys_act|intros s' _ ->].
  - destruct b; [by apply block_close_loop|exact Hs].
Qed.

Lemma obeys_freeze b s : obeys (freeze_output k b) s (fun s' _ => s' = s).
Proof.
  unfold freeze_output. apply (obeys_bind _ _ _ _ _ (fun s' _ => s' = s)); [by apply obeys_lock|]. intros s' _ ->.
  apply (obeys_bind _ _ _ _ _ (fun s' _ => s' = s)); [by apply obeys_act|]. intros s' o ->.
  apply (obeys_bind _ _ _ _ _ (fun s' _ => s' = s)); [by apply obeys_act|]. intros s' _ ->.
  by apply (obeys_bind _ _ _ _ _ (fun s' _ => s' = s)); [apply obeys_act|intros s' _ ->].
Qed.
End Finalization.

Lemma obeys_background_run polls :
  obeys (background_run k admitted_at scope spec options polls) worker_begins (fun s _ => wk_done s = true).
Proof.
  unfold background_run. eapply obeys_bind; [apply block_activity|]. intros s [l o] Ha. cbn in Ha.
  destruct Ha as (Hk & Hcl & Hc). set (cause := default CauseWorkerFailed o) in *.
  apply (obeys_bind _ _ _ _ _ (fun s' r =>
    settled (match r with Returned c => c | Unwound => worker_failed_cleanup end) (wk_cause s) s' l)).
  { apply obeys_ask; [done|]. intros r. destruct s as [bu sp atg pr ex ca cl dn]. destruct Hk as (E1 & E2 & E3 & E4).
    cbn in E1, E2, E3, E4, Hcl, Hc. subst. eexists. split; [cbn; by rewrite !bool_decide_eq_true_2|].
    split; [by split_and!|]. by split. }
  intros s1 r H1. set (cleanup := match r with Returned c => c | Unwound => worker_failed_cleanup end) in *.
  eapply obeys_bind; [eapply block_finalization, H1|]. intros s2 [l2 fin] H2. cbn in H2.
  eapply obeys_bind; [apply obeys_freeze|]. intros s' [output capture] ->.
  apply (obeys_bind _ _ _ _ _ (fun s' _ => s' = s2)).
  { destruct capture as [c|]; [|done]. apply (obeys_bind _ _ _ _ _ (fun s' _ => s' = s2)); [|by intros s' _ ->].
    apply obeys_call. intros x. exists s2. split; [|done]. by eapply settled_delta. }
  intros s' _ ->. apply obeys_call. intros [].
  destruct H2 as ((E1 & E2 & E3 & E4) & Hcl2 & Hca2).
  exists (mkWorker (wk_budget s2) (wk_spawn s2) (wk_attaching s2) (wk_process s2) (wk_exit s2) (wk_cause s2) (wk_cleanup s2) true).
  split; [|reflexivity].
  unfold background_label, worker_delta. rewrite E4, bool_decide_eq_true_2 by done. cbn.
  by rewrite Hcl2, E2, E3, Hca2, Hc, !bool_decide_eq_true_2.
Qed.
End Worker.

(** ** The worker never panics *)

Fixpoint no_panic {A} (p : BProg A) : Prop :=
  match p with
  | Ret _ => True
  | Panic _ => False
  | Act f k => forall w, no_panic (k (f w).2)
  | Call q k => forall x, no_panic (k x)
  | Wait e d k => forall x, no_panic (k x)
  | Fork t k => no_panic k
  end.

Lemma no_panic_bind {A B} (p : BProg A) (g : A -> BProg B) : no_panic p -> (forall a, no_panic (g a)) -> no_panic (bind p g).
Proof. intros Hp Hg. induction p; cbn [no_panic bind] in *; auto. Qed.

Lemma no_panic_block {A B} (p : Block A) (g : A -> Block B) l :
  no_panic (p l) -> (forall a l, no_panic (g a l)) -> no_panic (block_bind p g l).
Proof. intros Hp Hg. apply no_panic_bind; [done|]. by intros [l' [a|]]. Qed.

Lemma no_panic_step {A} (p : BProg A) w w' p' ts : tstep background_answer w p w' p' ts -> no_panic p -> no_panic p'.
Proof. intros Hst Hp. apply tstep_cases in Hst. destruct p; cbn [no_panic] in *; naive_solver. Qed.

Lemma no_panic_becomes {A} (p p' : BProg A) : becomes background_answer p p' -> no_panic p -> no_panic p'.
Proof. induction 1 as [|p1 p2 p3 (w & w' & ts & Hst) _ IH]; [done|]. intros Hp. apply IH. by eapply no_panic_step. Qed.

Lemma no_panic_effect {X} (q : BackgroundPort (unwound X)) l : no_panic (effect q l).
Proof. by intros []. Qed.

Lemma no_panic_lift {A} (p : BProg A) l : no_panic p -> no_panic (block_lift p l).
Proof. intros Hp. by apply no_panic_bind. Qed.

Lemma no_panic_answered {A} (r : unwound A) l : no_panic (block_answered r l).
Proof. by destruct r. Qed.

Create HintDb no_panic.
#[local] Hint Resolve no_panic_bind no_panic_block no_panic_effect no_panic_lift no_panic_answered : no_panic.

(** One step of a program: its first call, or the case its last answer is in. *)
Ltac no_panic_step :=
  lazymatch goal with
  | |- no_panic (block_bind _ _ _) => apply no_panic_block; [|intros ? ?]
  | |- no_panic (bind _ _) => apply no_panic_bind; [|intros ?]
  | |- no_panic (effect _ _) => apply no_panic_effect
  | |- no_panic (block_lift _ _) => apply no_panic_lift
  | |- no_panic (block_answered _ _) => apply no_panic_answered
  | |- no_panic (match ?x with _ => _ end _) => destruct x
  | |- no_panic (match ?x with _ => _ end) => destruct x
  | |- no_panic _ => solve [eauto with no_panic | by intros ? | exact I]
  end.

Lemma no_panic_read k : no_panic (read_output k).
Proof. unfold read_output, unlock_output, set_output. repeat no_panic_step. Qed.

Lemma no_panic_attached k o l : no_panic (attached k o l).
Proof. unfold attached, attach_output, set_output, unlock_output. repeat no_panic_step. Qed.

Lemma no_panic_output k l : no_panic (block_output k l).
Proof. unfold block_output. apply no_panic_block; [apply no_panic_bind; [apply no_panic_read|done]|]. intros [o|] l'; done. Qed.

Lemma no_panic_close_loop k polls output l : no_panic (close_loop k polls output l).
Proof.
  revert output l. induction polls as [|polls IH]; intros output l; cbn [close_loop]; (destruct (_ && _); [done|]); [done|].
  apply no_panic_block; [by apply no_panic_bind|]. intros [r|r] l'; (apply no_panic_block; [by destruct r|]); intros [] l2; [done|].
  apply no_panic_block; [apply no_panic_output|]. intros o l3. apply IH.
Qed.

#[local] Hint Resolve no_panic_read no_panic_attached no_panic_output no_panic_close_loop : no_panic.

Lemma no_panic_activity k admitted_at scope spec options l : no_panic (activity k admitted_at scope spec options l).
Proof.
  unfold activity. repeat no_panic_step. unfold spawn_and_watch, watch_process.
  repeat first [no_panic_step|lazymatch goal with |- no_panic (attached _ _ _) => apply no_panic_attached end].
Qed.

Lemma no_panic_finalization k polls l : no_panic (finalization k polls l).
Proof. unfold finalization, recover_admission, last_exit, unlock_output. repeat no_panic_step. Qed.

Lemma no_panic_run k admitted_at scope spec options polls : no_panic (background_run k admitted_at scope spec options polls).
Proof.
  unfold background_run. apply no_panic_bind; [apply no_panic_activity|]. intros [l o].
  apply no_panic_bind; [done|]. intros r. apply no_panic_bind; [apply no_panic_finalization|]. intros [l2 f].
  unfold freeze_output, set_output, unlock_output. repeat no_panic_step.
Qed.


(** A task whose command exits, with one panic of the output source. *)
Section Demo.
Definition demo_background : BackgroundTaskOptions := mkBackgroundTaskOptions 100 4 terminate_default.
Definition demo_attached : Attached := mkAttached 7%N (Some (mkProcessOutput 3)).
Definition demo_exit : ProcessExit := mkProcessExit 7%N (Some 0) None ExitedNaturally true.
Definition background_oracle (w : BackgroundWorld) (X : Type) (q : BackgroundPort X) : option X :=
  match q in BackgroundPort X return option X with
  | BgNow => Some (Returned 10)
  | BgSpawn _ _ => Some (Returned 0%nat)
  | BgSpawned _ => Some (Returned (Ok demo_attached))
  | BgOsPid _ => Some (Returned (Some 4242))
  | BgExit _ => Some (Returned demo_exit)
  | BgFinish _ _ => Some Unwound
  | BgRead _ => Some Unwound
  | BgDropCapture _ => Some (Returned tt)
  | BgPublish _ _ => Some tt
  | _ => None
  end.

(** The trace and the result of its worker. *)
Definition background_demo_run : list answered * option unit :=
  exec_trace background_answer background_oracle background_label Began 100
    (mkBackgroundWorld {[ 0%nat := background_shared_new ]} 1)
    (background_run 0 0 5%N (spec_new "job") demo_background 2).

End Demo.

(** ** The accounting of the output *)

(** A run of the captured buffer, whose reads are those of a task. *)
Fixpoint observed_run (t : buffer_trace) (o : BackgroundOutput) (ops : list buffer_op) : option (buffer_trace * BackgroundOutput) :=
  match ops with
  | [] => Some (t, o)
  | op :: ops =>
      t' ← buffer_step t op;
      observed_run t' (match op with BRead => account (read (tr_buffer t)).2 o | _ => o end) ops
  end.

Lemma chunk_bytes_content chunks : chunk_bytes chunks = len (chunk_content chunks).
Proof.
  induction chunks as [|c chunks IH]; [done|]. cbn [chunk_bytes foldr]. fold (chunk_bytes chunks). rewrite IH.
  cbn [chunk_content flat_map]. by rewrite len_app, len_tagged.
Qed.

Lemma snapshot_content queue : chunk_content (map bc_snapshot queue) = content queue.
Proof. induction queue as [|c q IH]; [done|]. cbn [map chunk_content content flat_map]. f_equal. exact IH. Qed.

(** What the task has read is all that the reads consumed, and no byte is counted twice. *)
Record observed (capacity : Z) (t : buffer_trace) (o : BackgroundOutput) : Prop := {
  ob_trace : trace_inv capacity capacity t;
  ob_since : len (tr_consumed t) + len (tr_since t) <= len (tr_produced t);
  ob_drained : len (tr_produced t) <= u64_max -> bk_drained o = len (tr_consumed t);
}.

Lemma observed_queue capacity t o : 0 <= capacity -> observed capacity t o ->
  len (content (bs_queue (b_state (tr_buffer t)))) <= len (tr_since t).
Proof. intros Hcap Hob. rewrite (ti_content _ _ _ (ob_trace _ _ _ Hob)), len_last_n; lia. Qed.

Lemma account_read capacity t o :
  0 <= capacity -> observed capacity t o -> len (tr_produced t) <= u64_max ->
  let o' := account (read (tr_buffer t)).2 o in
  bk_drained o' = len (tr_consumed t) + len (content (bs_queue (b_state (tr_buffer t)))) /\
  chunk_content (bo_tail (bk_current o')) = last_n capacity (tr_produced t) /\
  bo_omitted_bytes (bk_current o') = len (tr_produced t) - len (last_n capacity (tr_produced t)).
Proof.
  intros Hcap Hob Hp. pose proof (observed_queue _ _ _ Hcap Hob). destruct Hob as [[E1 E2 Hq Ht Hc Htc Hd] Hs Ho].
  cbn [account read snd bk_drained bk_current bo_tail bo_omitted_bytes os_chunks os_tail os_dropped_bytes].
  rewrite !chunk_bytes_content, snapshot_content, (chunks_content _ (qi_chunks _ _ _ Hq)), Htc, (Ho Hp), Hd.
  pose proof (len_nonneg (tr_consumed t)). pose proof (len_nonneg (content (bs_queue (b_state (tr_buffer t))))).
  assert (len (last_n capacity (tr_produced t)) <= len (tr_produced t)) by (rewrite len_last_n; lia).
  unfold u64_saturating_add, u64_saturating_sub. split_and!; [lia|done|lia].
Qed.

Lemma observed_step capacity t o op : 0 <= capacity <= isize_max -> observed capacity t o ->
  exists t', buffer_step t op = Some t' /\
    observed capacity t' (match op with BRead => account (read (tr_buffer t)).2 o | _ => o end).
Proof.
  intros Hcap Hob. destruct (buffer_step_inv capacity capacity t op Hcap Hcap (ob_trace _ _ _ Hob)) as (t' & Ht & Hinv).
  exists t'. split; [exact Ht|]. split; [exact Hinv|..]; destruct op as [stream bytes|stream error|]; cbn [buffer_step] in Ht.
  all: try (destruct (push _ _ _); cbn in Ht; [|done]).
  all: injection Ht as <-; cbn [tr_consumed tr_since tr_produced tr_buffer]; pose proof (ob_since _ _ _ Hob).
  all: rewrite ?len_app, ?len_tagged; try lia.
  - cbn [read snd os_chunks]. rewrite (chunks_content _ (qi_chunks _ _ _ (ti_queue _ _ _ (ob_trace _ _ _ Hob)))).
    pose proof (observed_queue _ _ _ (proj1 Hcap) Hob). change (len []) with 0. lia.
  - intros Hp. apply (ob_drained _ _ _ Hob). pose proof (len_nonneg bytes). lia.
  - apply (ob_drained _ _ _ Hob).
  - intros Hp. cbn [read snd os_chunks]. rewrite (chunks_content _ (qi_chunks _ _ _ (ti_queue _ _ _ (ob_trace _ _ _ Hob)))).
    apply (account_read capacity t o (proj1 Hcap) Hob Hp).
Qed.

Lemma observed_run_ok capacity ops t o : 0 <= capacity <= isize_max -> observed capacity t o ->
  exists t' o', observed_run t o ops = Some (t', o') /\ observed capacity t' o'.
Proof.
  intros Hcap. revert t o. induction ops as [|op ops IH]; intros t o Hob; cbn [observed_run]; [eauto|].
  destruct (observed_step _ _ _ op Hcap Hob) as (t' & -> & Hob'). by apply IH.
Qed.

Lemma observed_run_read ops t o t' o' :
  observed_run t o ops = Some (t', o') ->
  exists t'', observed_run t o (ops ++ [BRead]) = Some (t'', account (read (tr_buffer t')).2 o') /\
    tr_produced t'' = tr_produced t'.
Proof.
  revert t o. induction ops as [|op ops IH]; intros t o; cbn [observed_run app].
  - intros [= <- <-]. by eexists.
  - destruct (buffer_step t op) as [t1|]; cbn; [apply IH|done].
Qed.

Lemma observed_new capacity : 0 <= capacity -> observed capacity (trace_new capacity capacity) background_output_new.
Proof.
  intros. repeat split; cbn; try done; try lia; by (unfold last_n; rewrite drop_nil || constructor).
Qed.

(** C27. The accounting of a background task's output: whatever is written to the captured
    streams, and whenever the task reads them, an observation holds exactly the last
    [output_bytes] bytes that were ever written, with their streams and in order, and (while
    the output fits a [u64]) [omitted_bytes] is exactly the number of the bytes before them:
    nothing is counted twice and nothing is lost between two reads. *)
Theorem background_output_accounting capacity ops :
  0 <= capacity <= isize_max ->
  exists t o, observed_run (trace_new capacity capacity) background_output_new (ops ++ [BRead]) = Some (t, o) /\
    (len (tr_produced t) <= u64_max ->
     chunk_content (bo_tail (bk_current o)) = last_n capacity (tr_produced t) /\
     bo_omitted_bytes (bk_current o) = len (tr_produced t) - len (last_n capacity (tr_produced t))).
Proof.
  intros Hcap. destruct (observed_run_ok capacity ops _ _ Hcap (observed_new capacity (proj1 Hcap))) as (t & o & Hrun & Hob).
  destruct (observed_run_read _ _ _ _ _ Hrun) as (t' & Hrun' & E). exists t', (account (read (tr_buffer t)).2 o).
  split; [exact Hrun'|]. rewrite E. intros Hp. by apply (account_read capacity t o (proj1 Hcap) Hob Hp).
Qed.

Lemma background_output_accounting_witness :
  exists t o, observed_run (trace_new 3 3) background_output_new
      ([BPush Stdout [1; 2]; BRead; BPush Stderr [3; 4; 5; 6]; BClose Stdout None; BPush Stderr [7]] ++ [BRead]) = Some (t, o) /\
    map oc_bytes (bo_tail (bk_current o)) = [[5; 6]; [7]] /\ bo_omitted_bytes (bk_current o) = 4.
Proof.
  destruct (background_output_accounting 3 [BPush Stdout [1; 2]; BRead; BPush Stderr [3; 4; 5; 6]; BClose Stdout None; BPush Stderr [7]])
    as (t & o & Hrun & _); [by vm_compute|].
  exists t, o. split; [exact Hrun|]. vm_compute in Hrun. injection Hrun as <- <-. by vm_compute.
Defined.
