(* ===== verification/Unix.v ===== *)
(** * Unix: the processes of a machine, as one process of it sees them

    What shepherd-infra/src/kept/unix.rs and shepherd-infra/src/backend/unix.rs use of a Unix
    kernel: the process table (numbers are given out again once no process and no group
    has them), groups, signals, exits and [waitpid]. The launcher and the backend run in
    one process, called here; [OsEvent] is what every other program of the machine, and the
    kernel itself, may do at any time. A signal changes nothing at once: a process
    that got [SIGKILL] exits by an event, or has not yet. *)

From stdpp Require Import base list gmap strings.
From S2P Require Import Prelude StdModel Values KeptDomain KeptState.

Open Scope Z_scope.

(** ** The process table *)

Inductive WaitStatus : Type :=
| WExited (code : Z)
| WSignaled (signal : Z) (core_dumped : bool).

(** Who may wait for a process: this one, or another (often init). *)
Inductive Parent : Type := Here | Elsewhere.

#[global] Instance wait_status_eq_dec : EqDecision WaitStatus.
Proof. solve_decision. Defined.
#[global] Instance parent_eq_dec : EqDecision Parent.
Proof. solve_decision. Defined.

(** An entry: a process that runs, or a zombie (it has an exit). *)
Record UnixProcess : Type := mkUnixProcess {
  up_token : Z;
  up_parent : Parent;
  up_group : Z;
  up_exit : option WaitStatus;
}.

Definition with_parent (par : Parent) (p : UnixProcess) : UnixProcess :=
  mkUnixProcess (up_token p) par (up_group p) (up_exit p).
Definition with_group (g : Z) (p : UnixProcess) : UnixProcess :=
  mkUnixProcess (up_token p) (up_parent p) g (up_exit p).
Definition with_exit (s : WaitStatus) (p : UnixProcess) : UnixProcess :=
  mkUnixProcess (up_token p) (up_parent p) (up_group p) (Some s).

(** A signal this process sent: to a group or a single process (by number, or by pidfd), and the
    processes it was delivered to. *)
Inductive Sent : Type :=
| SentGroup (group : Z) (signal : Z) (to : list KeptLaunch)
| SentProcess (number : Z) (signal : Z) (to : option KeptLaunch)
| SentPidfd (to : KeptLaunch) (signal : Z).

(** The table, the identities that no new process gets (those given to a process before, and those
    set apart, see [reserve]), the boot, and the signals sent. *)
Record Kernel : Type := mkKernel {
  k_table : gmap Z UnixProcess;
  k_used : gset KeptLaunch;
  k_boot : string;
  k_sent : list Sent;
}.

Definition set_table (t : gmap Z UnixProcess) (k : Kernel) : Kernel := mkKernel t (k_used k) (k_boot k) (k_sent k).
Definition log_sent (s : Sent) (k : Kernel) : Kernel := mkKernel (k_table k) (k_used k) (k_boot k) (k_sent k ++ [s]).

Definition i32_max : Z := 2 ^ 31 - 1.

(** ** Queries *)

Definition start_time (p : Z) (k : Kernel) : option Z := up_token <$> k_table k !! p.
Definition exited (p : UnixProcess) : bool := match up_exit p with Some _ => true | None => false end.
Definition zombie (p : Z) (k : Kernel) : bool := match k_table k !! p with Some pr => exited pr | None => false end.
Definition child_of_here (p : Z) (k : Kernel) : bool :=
  match k_table k !! p with Some pr => bool_decide (up_parent pr = Here) | None => false end.
(** [kill(pid, None)] gives [ESRCH]. *)
Definition no_process (p : Z) (k : Kernel) : bool := bool_decide (k_table k !! p = None).

Definition identity (p : Z) (pr : UnixProcess) : KeptLaunch := mkKeptLaunch p (up_token pr).
Definition identity_at (p : Z) (k : Kernel) : option KeptLaunch := identity p <$> k_table k !! p.

(** The instance has its number: it runs, or is a zombie. *)
Definition present (i : KeptLaunch) (k : Kernel) : bool := bool_decide (identity_at (launch_os_pid i) k = Some i).
Definition alive (i : KeptLaunch) (k : Kernel) : bool :=
  match k_table k !! launch_os_pid i with
  | Some pr => bool_decide (up_token pr = launch_start_token i) && negb (exited pr)
  | None => false
  end.

Definition in_group (g : Z) (k : Kernel) : list (Z * UnixProcess) :=
  filter (fun e => up_group e.2 = g) (map_to_list (k_table k)).
Definition group_numbers (g : Z) (k : Kernel) : list Z := (in_group g k).*1.
(** Those that run, by identity. *)
Definition alive_members (g : Z) (k : Kernel) : list KeptLaunch :=
  map (fun e => identity e.1 e.2) (filter (fun e => exited e.2 = false) (in_group g k)).

(** ** Calls that change something *)

Inductive Errno : Type :=
| ESRCH
| OtherErrno (text : string).

Definition killpg (g signal : Z) (refused : option string) (k : Kernel) : Kernel * result unit Errno :=
  match in_group g k with
  | [] => (k, Err ESRCH)
  | members =>
      match refused with
      | Some text => (k, Err (OtherErrno text))
      | None => (log_sent (SentGroup g signal (map (fun e => identity e.1 e.2) members)) k, Ok tt)
      end
  end.

Definition kill_process (p signal : Z) (refused : option string) (k : Kernel) : Kernel * result unit Errno :=
  match k_table k !! p with
  | None => (k, Err ESRCH)
  | Some pr =>
      match refused with
      | Some text => (k, Err (OtherErrno text))
      | None => (log_sent (SentProcess p signal (Some (identity p pr))) k, Ok tt)
      end
  end.

(** A pidfd names one instance for ever. *)
Definition kill_pidfd (i : KeptLaunch) (signal : Z) (refused : option string) (k : Kernel) : Kernel * result unit Errno :=
  if present i k then
    match refused with
    | Some text => (k, Err (OtherErrno text))
    | None => (log_sent (SentPidfd i signal) k, Ok tt)
    end
  else (k, Err ESRCH).

(** [waitpid(pid, None)]: blocks ([None]) while the child runs; [inr] is an error. *)
Definition waitpid (p : Z) (k : Kernel) : option (Kernel * (WaitStatus + unit)) :=
  match k_table k !! p with
  | Some pr =>
      match up_parent pr, up_exit pr with
      | Here, Some status => Some (set_table (delete p (k_table k)) k, inl status)
      | Here, None => None
      | Elsewhere, _ => Some (k, inr tt)
      end
  | None => Some (k, inr tt)
  end.

(** ** What the others do *)

(** A new process: its number is one that no process and no group has, its identity was never given
    out. A child starts in its parent's group. *)
Definition number_free (p : Z) (k : Kernel) : bool :=
  (1 <=? p) && (p <=? i32_max) && bool_decide (k_table k !! p = None) && bool_decide (in_group p k = []).

Definition os_fork (i : KeptLaunch) (par : Parent) (group : Z) (k : Kernel) : option Kernel :=
  let p := launch_os_pid i in
  if number_free p k && negb (bool_decide (i ∈ k_used k)) && bool_decide (in_group group k <> []) then
    Some (mkKernel (<[p := mkUnixProcess (launch_start_token i) par group None]> (k_table k)) ({[i]} ∪ k_used k) (k_boot k) (k_sent k))
  else None.

Definition os_exit (i : KeptLaunch) (status : WaitStatus) (k : Kernel) : Kernel :=
  if alive i k then set_table (alter (with_exit status) (launch_os_pid i) (k_table k)) k else k.

(** [setsid] and [setpgid(0, 0)]: a group of its own. *)
Definition os_found (i : KeptLaunch) (k : Kernel) : Kernel :=
  if alive i k then set_table (alter (with_group (launch_os_pid i)) (launch_os_pid i) (k_table k)) k else k.

Inductive OsEvent : Type :=
| OsFork (i : KeptLaunch) (par : Parent) (group : Z)
| OsExit (i : KeptLaunch) (status : WaitStatus)
(** A zombie is waited for, whoever its parent is. *)
| OsReap (p : Z)
| OsFound (i : KeptLaunch)
| OsJoin (i : KeptLaunch) (group : Z)
(** The parent of a process is gone: init adopts it. *)
| OsAdopt (p : Z).

Definition os_event (e : OsEvent) (k : Kernel) : Kernel :=
  match e with
  | OsFork i par group => default k (os_fork i par group k)
  | OsExit i status => os_exit i status k
  | OsReap p => if zombie p k then set_table (delete p (k_table k)) k else k
  | OsFound i => os_found i k
  | OsJoin i group =>
      if alive i k && bool_decide (in_group group k <> [])
      then set_table (alter (with_group group) (launch_os_pid i) (k_table k)) k else k
  | OsAdopt p => set_table (alter (with_parent Elsewhere) p (k_table k)) k
  end.

(** A record names an instance of some machine and boot: this kernel gives its identity to no
    process from now on (a process that has it keeps it). *)
Definition reserve (i : KeptLaunch) (k : Kernel) : Kernel := mkKernel (k_table k) ({[i]} ∪ k_used k) (k_boot k) (k_sent k).

(** ** What stays *)

(** The identities in the table were given out; numbers are of the type [pid_t]. *)
Definition kernel_wf (k : Kernel) : Prop :=
  forall p pr, k_table k !! p = Some pr -> identity p pr ∈ k_used k /\ 1 <= p <= i32_max.

(** Later kernels: identities stay given out, and an instance that has lost its number, or
    has exited, stays so. *)
Record kernel_later (k k' : Kernel) : Prop := {
  kl_used : k_used k ⊆ k_used k';
  kl_boot : k_boot k' = k_boot k;
  kl_absent : forall i, i ∈ k_used k -> present i k = false -> present i k' = false;
  kl_ended : forall i, i ∈ k_used k -> alive i k = false -> alive i k' = false;
}.

#[global] Instance kernel_later_preorder : PreOrder kernel_later.
Proof.
  split.
  - by intros k.
  - intros k1 k2 k3 [U1 B1 A1 E1] [U2 B2 A2 E2]. split; [set_solver|congruence|eauto..].
Qed.

Lemma present_spec i k : present i k = true <->
  exists pr, k_table k !! launch_os_pid i = Some pr /\ up_token pr = launch_start_token i.
Proof.
  unfold present, identity_at, identity. rewrite bool_decide_eq_true. destruct (k_table k !! launch_os_pid i) as [pr|]; cbn.
  - split; [intros [= E]; exists pr; split; [done|]; by rewrite <- E|].
    intros (pr' & [= <-] & E). rewrite E. by destruct i.
  - naive_solver.
Qed.

Lemma alive_spec i k : alive i k = true <->
  exists pr, k_table k !! launch_os_pid i = Some pr /\ up_token pr = launch_start_token i /\ up_exit pr = None.
Proof.
  unfold alive, exited. destruct (k_table k !! launch_os_pid i) as [pr|].
  - rewrite andb_true_iff, bool_decide_eq_true, negb_true_iff. split.
    + intros [E H]. exists pr. by destruct (up_exit pr).
    + by intros (pr' & [= <-] & E & ->).
  - naive_solver.
Qed.

Lemma alive_present i k : alive i k = true -> present i k = true.
Proof. rewrite alive_spec, present_spec. naive_solver. Qed.

Lemma absent_ended i k : present i k = false -> alive i k = false.
Proof. rewrite <- !not_true_iff_false. intros H ?. by apply H, alive_present. Qed.

Lemma start_time_present p t k : start_time p k = Some t <-> present (mkKeptLaunch p t) k = true.
Proof. unfold start_time. rewrite present_spec, fmap_Some. cbn. naive_solver. Qed.

Lemma start_time_absent i t k : start_time (launch_os_pid i) k = Some t -> t <> launch_start_token i -> present i k = false.
Proof.
  intros (pr & E & ->)%fmap_Some Hne. apply not_true_iff_false. rewrite present_spec. intros (pr' & E' & ?). naive_solver.
Qed.

Lemma zombie_ended i k : zombie (launch_os_pid i) k = true -> alive i k = false.
Proof.
  unfold zombie, exited. intros Hz. apply not_true_iff_false. rewrite alive_spec. intros (pr & E & _ & Hx). by rewrite E, Hx in Hz.
Qed.

Lemma no_process_ended i k : no_process (launch_os_pid i) k = true -> alive i k = false.
Proof. unfold no_process. rewrite bool_decide_eq_true. intros E. unfold alive. by rewrite E. Qed.

(** A change of the table that gives out no identity: entries lose, but never change, their identity,
    and exits are for ever. *)
Lemma table_later k t :
  kernel_wf k ->
  (forall p pr', t !! p = Some pr' -> exists pr, k_table k !! p = Some pr /\ up_token pr' = up_token pr /\
     (up_exit pr <> None -> up_exit pr' <> None)) ->
  kernel_wf (set_table t k) /\ kernel_later k (set_table t k).
Proof.
  intros Hwf Ht. split; [|split].
  - intros p pr' E. destruct (Ht _ _ E) as (pr & E' & Et & _). unfold identity. rewrite Et. by apply (Hwf p pr).
  - done.
  - done.
  - intros i _ Hi. apply not_true_iff_false. rewrite present_spec. cbn. intros (pr' & E & Et).
    destruct (Ht _ _ E) as (pr & E' & Et' & _). apply not_true_iff_false in Hi. apply Hi. rewrite present_spec.
    exists pr. split; [done|congruence].
  - intros i _ Hi. apply not_true_iff_false. rewrite alive_spec. cbn. intros (pr' & E & Et & Ex).
    destruct (Ht _ _ E) as (pr & E' & Et' & Hx). apply not_true_iff_false in Hi. apply Hi. rewrite alive_spec.
    exists pr. split_and!; [done|congruence|]. destruct (up_exit pr); [|done]. by destruct Hx.
Qed.

Lemma alter_later k f p :
  kernel_wf k -> (forall pr, up_token (f pr) = up_token pr) -> (forall pr, up_exit pr <> None -> up_exit (f pr) <> None) ->
  kernel_wf (set_table (alter f p (k_table k)) k) /\ kernel_later k (set_table (alter f p (k_table k)) k).
Proof.
  intros Hwf Hf Hx. apply table_later; [done|]. intros q pr'. rewrite lookup_alter_Some.
  intros [(-> & pr & E & ->)|[_ E]]; eauto.
Qed.

Lemma delete_later k p :
  kernel_wf k -> kernel_wf (set_table (delete p (k_table k)) k) /\ kernel_later k (set_table (delete p (k_table k)) k).
Proof. intros Hwf. apply table_later; [done|]. intros q pr' [_ E]%lookup_delete_Some. eauto. Qed.

Lemma same_later k k' :
  kernel_wf k -> k_table k' = k_table k -> k_used k' = k_used k -> k_boot k' = k_boot k -> kernel_wf k' /\ kernel_later k k'.
Proof.
  intros Hwf Et Eu Eb. split; [|split].
  - intros p pr. rewrite Et, Eu. apply Hwf.
  - by rewrite Eu.
  - done.
  - intros i _. unfold present, identity_at. by rewrite Et.
  - intros i _. unfold alive. by rewrite Et.
Qed.

Lemma fork_later k i par g k' : kernel_wf k -> os_fork i par g k = Some k' -> kernel_wf k' /\ kernel_later k k'.
Proof.
  unfold os_fork. intros Hwf H. destruct (number_free _ _ && _ && _) eqn:G; [|done]. injection H as <-.
  rewrite !andb_true_iff, negb_true_iff, bool_decide_eq_false in G. destruct G as [[Hf Hu] _].
  unfold number_free in Hf. rewrite !andb_true_iff, !Z.leb_le, bool_decide_eq_true in Hf. destruct Hf as [[Hp Hn] _].
  assert (Hother : forall j, j ∈ k_used k -> launch_os_pid j = launch_os_pid i -> launch_start_token i <> launch_start_token j).
  { intros j Hj Ep Et. apply Hu. replace i with j; [done|]. destruct i, j; cbn in *; congruence. }
  split; [|split]; cbn.
  - intros p pr. cbn. rewrite lookup_insert_Some. intros [[<- <-]|[_ E]].
    + split; [|done]. unfold identity; cbn. destruct i; set_solver.
    + destruct (Hwf p pr E). split; [by apply elem_of_union_r|done].
  - set_solver.
  - done.
  - intros j Hj. rewrite <- !not_true_iff_false, !present_spec. cbn. intros Hne (pr & E & Et). apply Hne.
    apply lookup_insert_Some in E as [[Ep <-]|[_ E]]; [|eauto]. cbn in Et. by destruct (Hother j Hj).
  - intros j Hj. rewrite <- !not_true_iff_false, !alive_spec. cbn. intros Hne (pr & E & Et & Hx). apply Hne.
    apply lookup_insert_Some in E as [[Ep <-]|[_ E]]; [|eauto]. cbn in Et. by destruct (Hother j Hj).
Qed.

Lemma reserve_later k i : kernel_wf k -> kernel_wf (reserve i k) /\ kernel_later k (reserve i k).
Proof.
  intros Hwf. split; [|by split; [apply union_subseteq_r|..]]. intros p pr E. destruct (Hwf p pr E). split; [set_solver|done].
Qed.

Lemma exit_later k i status : kernel_wf k -> kernel_wf (os_exit i status k) /\ kernel_later k (os_exit i status k).
Proof. intros Hwf. unfold os_exit. destruct (alive i k); [|done]. by apply alter_later. Qed.

Lemma found_later k i : kernel_wf k -> kernel_wf (os_found i k) /\ kernel_later k (os_found i k).
Proof. intros Hwf. unfold os_found. destruct (alive i k); [|done]. by apply alter_later. Qed.

Lemma event_later k e : kernel_wf k -> kernel_wf (os_event e k) /\ kernel_later k (os_event e k).
Proof.
  intros Hwf. destruct e as [i par g|i status|p|i|i g|p]; cbn.
  - destruct (os_fork i par g k) as [k'|] eqn:E; [by eapply fork_later|done].
  - by apply exit_later.
  - destruct (zombie p k); [by apply delete_later|done].
  - by apply found_later.
  - destruct (_ && _); [by apply alter_later|done].
  - by apply alter_later.
Qed.

Lemma killpg_later k g s r : kernel_wf k -> kernel_wf (killpg g s r k).1 /\ kernel_later k (killpg g s r k).1.
Proof. intros Hwf. unfold killpg. destruct (in_group g k), r; try done; by apply same_later. Qed.

Lemma kill_process_later k p s r : kernel_wf k -> kernel_wf (kill_process p s r k).1 /\ kernel_later k (kill_process p s r k).1.
Proof. intros Hwf. unfold kill_process. destruct (k_table k !! p), r; try done; by apply same_later. Qed.

Lemma kill_pidfd_later k i s r : kernel_wf k -> kernel_wf (kill_pidfd i s r k).1 /\ kernel_later k (kill_pidfd i s r k).1.
Proof. intros Hwf. unfold kill_pidfd. destruct (present i k), r; try done; by apply same_later. Qed.

Lemma waitpid_later k p k' r : kernel_wf k -> waitpid p k = Some (k', r) -> kernel_wf k' /\ kernel_later k k'.
Proof.
  intros Hwf. unfold waitpid. destruct (k_table k !! p) as [pr|]; [|by intros [= <- <-]].
  destruct (up_parent pr), (up_exit pr); intros [= <- <-]; try done; by apply delete_later.
Qed.
