(* ===== verification/KeptUnix.v ===== *)
(** * KeptUnix: the launcher of kept processes on Linux

    shepherd-infra/src/kept/unix.rs over the kernel of [Unix]. The threads and tasks of this
    process share the registry of watched processes, their [ended] mutexes and the gate
    lock; a gated child is a program of its own, that acts only while it is alive. Every
    system call is one step, and may fail; a blocked thread is suspended where it blocks.
    The spec that a client launches is data of the questions; the closure [commit] of the
    client is the question [Commit]. *)

From stdpp Require Import base list gmap strings.
From S2P Require Import Prelude StdModel Values KeptDomain Ports Conc KeptState KeptStore Display Unix.

Open Scope Z_scope.
Open Scope prog_scope.

Definition GO : Z := 71.
Definition ABORT : Z := 65.
Definition GROUP_SWEEP : Duration := from_secs 2.
Definition POLL : Duration := from_millis 250.
Definition SWEEP_RETRY : Duration := from_millis 20.
Definition SIGKILL : Z := 9.

(** ** The command *)

Inductive EnvOp : Type :=
| EnvSet (key value : OsString)
| EnvRemove (key : OsString)
| EnvClear.

Definition apply_env (env : EnvPolicy) : list EnvOp :=
  match env with
  | Inherit => []
  | Overrides entries =>
      map (fun e => match e.2 with Some value => EnvSet e.1 value | None => EnvRemove e.1 end) entries
  | Clear entries => EnvClear :: map (fun e => EnvSet e.1 e.2) entries
  end.

(** Standard input is null; both outputs go to the log, or to null. *)
Record Command : Type := mkCommand {
  cmd_program : OsString;
  cmd_args : list OsString;
  cmd_cwd : option PathBuf;
  cmd_env : list EnvOp;
  cmd_log : option PathBuf;
}.

Definition gated_command (spec : ProcessSpec) (log : option PathBuf) : Command :=
  mkCommand (spec_program spec) (spec_args spec) (spec_cwd spec) (apply_env (spec_env spec)) log.

(** ** Questions *)

Inductive UnixPort : Type -> Type :=
(** Does this call fail? With which text? *)
| CallFails : UnixPort (option string)
(** The identity of the child that a fork of this command makes. *)
| Forks (command : Command) : UnixPort KeptLaunch
(** Whether the entry of a process under /proc can be read, and the boot's identity; those that
    a listing skips. *)
| Readable (p : Z) : UnixPort bool
| BootReads : UnixPort bool
| Listed (group : Z) : UnixPort (option (gset Z))
| Commit (launch : KeptLaunch) : UnixPort (result unit KeptError)
(** A byte into the socket of a gate. *)
| GateSend (g : nat) (b : Z) : UnixPort (result unit string)
| PidfdOpens (p : Z) : UnixPort bool
(** [AsyncFd::with_interest]; an error of [readable]. *)
| PidfdWatched : UnixPort bool
| PidfdFails : UnixPort unit
| ExeOf (p : Z) : UnixPort (option PathBuf)
| UnixNow : UnixPort Instant
| UnixSleep (d : Duration) : UnixPort unit
| BlockingRefused : UnixPort string.

(** ** The shared state *)

Inductive Owner : Type := Child | Foreign.
#[global] Instance owner_eq_dec : EqDecision Owner.
Proof. solve_decision. Defined.

(** The pidfd is the instance it names. [wd_locked]: the mutex of [wd_ended] is held. *)
Record Watched : Type := mkWatched {
  wd_os_pid : Z;
  wd_start_token : Z;
  wd_owner : Owner;
  wd_exe : option PathBuf;
  wd_pidfd : option KeptLaunch;
  wd_ended : option KeptExit;
  wd_locked : bool;
  wd_exit : option KeptExit;
  wd_started : bool;
  wd_launching : bool;
}.

Definition watched_new (os_pid start_token : Z) (owner : Owner) (exe : option PathBuf) (pidfd : option KeptLaunch) : Watched :=
  mkWatched os_pid start_token owner exe pidfd None false None false false.

Definition watched_instance (d : Watched) : KeptLaunch := mkKeptLaunch (wd_os_pid d) (wd_start_token d).

Definition set_wd_exe (exe : option PathBuf) (d : Watched) : Watched :=
  mkWatched (wd_os_pid d) (wd_start_token d) (wd_owner d) exe (wd_pidfd d) (wd_ended d) (wd_locked d) (wd_exit d) (wd_started d) (wd_launching d).
Definition set_ended (e : KeptExit) (d : Watched) : Watched :=
  mkWatched (wd_os_pid d) (wd_start_token d) (wd_owner d) (wd_exe d) (wd_pidfd d) (Some e) (wd_locked d) (wd_exit d) (wd_started d) (wd_launching d).
Definition set_wd_locked (b : bool) (d : Watched) : Watched :=
  mkWatched (wd_os_pid d) (wd_start_token d) (wd_owner d) (wd_exe d) (wd_pidfd d) (wd_ended d) b (wd_exit d) (wd_started d) (wd_launching d).
Definition set_wd_exit (e : KeptExit) (d : Watched) : Watched :=
  mkWatched (wd_os_pid d) (wd_start_token d) (wd_owner d) (wd_exe d) (wd_pidfd d) (wd_ended d) (wd_locked d) (Some e) (wd_started d) (wd_launching d).
Definition set_started (b : bool) (d : Watched) : Watched :=
  mkWatched (wd_os_pid d) (wd_start_token d) (wd_owner d) (wd_exe d) (wd_pidfd d) (wd_ended d) (wd_locked d) (wd_exit d) b (wd_launching d).
Definition set_launching (b : bool) (d : Watched) : Watched :=
  mkWatched (wd_os_pid d) (wd_start_token d) (wd_owner d) (wd_exe d) (wd_pidfd d) (wd_ended d) (wd_locked d) (wd_exit d) (wd_started d) b.

(** The pipe on which [std::process::Command::spawn] learns of a failed child: still open, an
    error in it, or closed by [exec]. (A child that dies closes it too.) *)
Inductive ExecPipe : Type :=
| PipeOpen
| PipeError (text : string)
| PipeClosed.

(** One launch: the socket pair, the child and the thread that spawns it. [g_held]: a copy of the
    owner's end in some other process. [g_go] (history): [GO] was sent. *)
Record Gate : Type := mkGate {
  g_child : option KeptLaunch;
  g_inbox : list Z;
  g_report : option Z;
  g_owner_end : bool;
  g_held : bool;
  g_child_end : bool;
  g_pipe : ExecPipe;
  g_thread : option (result unit string);
  g_go : bool;
}.
Definition gate_new : Gate := mkGate None [] None true false true PipeOpen None false.

Definition set_g_child (i : KeptLaunch) (g : Gate) : Gate :=
  mkGate (Some i) (g_inbox g) (g_report g) (g_owner_end g) (g_held g) (g_child_end g) (g_pipe g) (g_thread g) (g_go g).
Definition set_g_inbox (l : list Z) (g : Gate) : Gate :=
  mkGate (g_child g) l (g_report g) (g_owner_end g) (g_held g) (g_child_end g) (g_pipe g) (g_thread g) (g_go g).
Definition set_g_report (p : option Z) (g : Gate) : Gate :=
  mkGate (g_child g) (g_inbox g) p (g_owner_end g) (g_held g) (g_child_end g) (g_pipe g) (g_thread g) (g_go g).
Definition close_owner_end (g : Gate) : Gate :=
  mkGate (g_child g) (g_inbox g) (g_report g) false (g_held g) (g_child_end g) (g_pipe g) (g_thread g) (g_go g).
Definition set_g_held (b : bool) (g : Gate) : Gate :=
  mkGate (g_child g) (g_inbox g) (g_report g) (g_owner_end g) b (g_child_end g) (g_pipe g) (g_thread g) (g_go g).
Definition close_child_end (g : Gate) : Gate :=
  mkGate (g_child g) (g_inbox g) (g_report g) (g_owner_end g) (g_held g) false (g_pipe g) (g_thread g) (g_go g).
Definition set_g_pipe (p : ExecPipe) (g : Gate) : Gate :=
  mkGate (g_child g) (g_inbox g) (g_report g) (g_owner_end g) (g_held g) (g_child_end g) p (g_thread g) (g_go g).
Definition set_g_thread (r : result unit string) (g : Gate) : Gate :=
  mkGate (g_child g) (g_inbox g) (g_report g) (g_owner_end g) (g_held g) (g_child_end g) (g_pipe g) (Some r) (g_go g).
(** A byte of the owner arrives. *)
Definition add_byte (b : Z) (g : Gate) : Gate :=
  mkGate (g_child g) (g_inbox g ++ [b]) (g_report g) (g_owner_end g) (g_held g) (g_child_end g) (g_pipe g) (g_thread g) (g_go g || (b =? GO)).

(** The cell of a blocking launch: running, done, refused by the runtime, or its handle dropped. *)
Inductive LaunchCell : Type :=
| LaunchOpen
| LaunchDone (r : result (KeptLaunch * nat) KeptError)
| LaunchRefused
| LaunchClosed.

(** A call of [attach] that returned: its record; when it started, whether the recorded instance
    had its number and which entry the number had; and the answer. *)
Record Attached : Type := mkAttached {
  at_record : KeptRecord;
  at_there : bool;
  at_known : option nat;
  at_answer : result (option nat) KeptError;
}.

(** History: the instances whose program was started, and those whose record was committed; what
    a listing or a kill of a group found alive, with the instances that the listing skipped;
    the entries of failed launches; whether the boot's identity could not be read once; the calls
    of [attach] that returned. *)
Record UnixWorld : Type := mkUnixWorld {
  u_kernel : Kernel;
  u_gates : gmap nat Gate;
  u_gate_locked : bool;
  u_registry : gmap Z nat;
  u_watched : gmap nat Watched;
  u_cells : gmap nat LaunchCell;
  u_next : nat;
  u_started : gset KeptLaunch;
  u_committed : gset KeptLaunch;
  u_seen : list (Z * list KeptLaunch);
  u_skipped : gset KeptLaunch;
  u_abandoned : gset nat;
  u_unread : bool;
  u_attached : list Attached;
}.

Definition set_kernel (k : Kernel) (w : UnixWorld) : UnixWorld :=
  mkUnixWorld k (u_gates w) (u_gate_locked w) (u_registry w) (u_watched w) (u_cells w) (u_next w) (u_started w) (u_committed w) (u_seen w) (u_skipped w) (u_abandoned w) (u_unread w) (u_attached w).
Definition set_gates (m : gmap nat Gate) (w : UnixWorld) : UnixWorld :=
  mkUnixWorld (u_kernel w) m (u_gate_locked w) (u_registry w) (u_watched w) (u_cells w) (u_next w) (u_started w) (u_committed w) (u_seen w) (u_skipped w) (u_abandoned w) (u_unread w) (u_attached w).
Definition set_gate_locked (b : bool) (w : UnixWorld) : UnixWorld :=
  mkUnixWorld (u_kernel w) (u_gates w) b (u_registry w) (u_watched w) (u_cells w) (u_next w) (u_started w) (u_committed w) (u_seen w) (u_skipped w) (u_abandoned w) (u_unread w) (u_attached w).
Definition set_registry (m : gmap Z nat) (w : UnixWorld) : UnixWorld :=
  mkUnixWorld (u_kernel w) (u_gates w) (u_gate_locked w) m (u_watched w) (u_cells w) (u_next w) (u_started w) (u_committed w) (u_seen w) (u_skipped w) (u_abandoned w) (u_unread w) (u_attached w).
Definition set_watched (m : gmap nat Watched) (w : UnixWorld) : UnixWorld :=
  mkUnixWorld (u_kernel w) (u_gates w) (u_gate_locked w) (u_registry w) m (u_cells w) (u_next w) (u_started w) (u_committed w) (u_seen w) (u_skipped w) (u_abandoned w) (u_unread w) (u_attached w).
Definition set_ucells (m : gmap nat LaunchCell) (w : UnixWorld) : UnixWorld :=
  mkUnixWorld (u_kernel w) (u_gates w) (u_gate_locked w) (u_registry w) (u_watched w) m (u_next w) (u_started w) (u_committed w) (u_seen w) (u_skipped w) (u_abandoned w) (u_unread w) (u_attached w).
Definition u_bump (w : UnixWorld) : UnixWorld :=
  mkUnixWorld (u_kernel w) (u_gates w) (u_gate_locked w) (u_registry w) (u_watched w) (u_cells w) (S (u_next w)) (u_started w) (u_committed w) (u_seen w) (u_skipped w) (u_abandoned w) (u_unread w) (u_attached w).
Definition mark_started (i : KeptLaunch) (w : UnixWorld) : UnixWorld :=
  mkUnixWorld (u_kernel w) (u_gates w) (u_gate_locked w) (u_registry w) (u_watched w) (u_cells w) (u_next w) ({[i]} ∪ u_started w) (u_committed w) (u_seen w) (u_skipped w) (u_abandoned w) (u_unread w) (u_attached w).
Definition mark_committed (i : KeptLaunch) (w : UnixWorld) : UnixWorld :=
  mkUnixWorld (u_kernel w) (u_gates w) (u_gate_locked w) (u_registry w) (u_watched w) (u_cells w) (u_next w) (u_started w) ({[i]} ∪ u_committed w) (u_seen w) (u_skipped w) (u_abandoned w) (u_unread w) (u_attached w).
(** A look at a group, and those among its running members that it does not show. *)
Definition mark_seen (group : Z) (hidden : gset Z) (w : UnixWorld) : UnixWorld :=
  let alive := alive_members group (u_kernel w) in
  mkUnixWorld (u_kernel w) (u_gates w) (u_gate_locked w) (u_registry w) (u_watched w) (u_cells w) (u_next w) (u_started w) (u_committed w) (u_seen w ++ [(group, alive)]) (list_to_set (filter (fun i => launch_os_pid i ∈ hidden) alive) ∪ u_skipped w) (u_abandoned w) (u_unread w) (u_attached w).

Definition mark_abandoned (k : nat) (w : UnixWorld) : UnixWorld :=
  mkUnixWorld (u_kernel w) (u_gates w) (u_gate_locked w) (u_registry w) (u_watched w) (u_cells w) (u_next w) (u_started w) (u_committed w) (u_seen w) (u_skipped w) ({[k]} ∪ u_abandoned w) (u_unread w) (u_attached w).
Definition mark_unread (w : UnixWorld) : UnixWorld :=
  mkUnixWorld (u_kernel w) (u_gates w) (u_gate_locked w) (u_registry w) (u_watched w) (u_cells w) (u_next w) (u_started w) (u_committed w) (u_seen w) (u_skipped w) (u_abandoned w) true (u_attached w).
Definition log_attached (a : Attached) (w : UnixWorld) : UnixWorld :=
  mkUnixWorld (u_kernel w) (u_gates w) (u_gate_locked w) (u_registry w) (u_watched w) (u_cells w) (u_next w) (u_started w) (u_committed w) (u_seen w) (u_skipped w) (u_abandoned w) (u_unread w) (u_attached w ++ [a]).

Definition on_gate (g : nat) (f : Gate -> Gate) (w : UnixWorld) : UnixWorld := set_gates (alter f g (u_gates w)) w.
Definition on_watched (k : nat) (f : Watched -> Watched) (w : UnixWorld) : UnixWorld := set_watched (alter f k (u_watched w)) w.

(** A commit that succeeded made the record durable. *)
Definition unix_answer (X : Type) (q : UnixPort X) : X -> UnixWorld -> UnixWorld :=
  match q in UnixPort X return X -> UnixWorld -> UnixWorld with
  | Commit launch => fun r => match r with Ok _ => mark_committed launch | Err _ => id end
  | GateSend g b => fun r => match r with Ok _ => on_gate g (add_byte b) | Err _ => id end
  | BootReads => fun r => if r then id else mark_unread
  | _ => fun _ => id
  end.

Inductive UnixTask : Type :=
| RunSpawner (g : nat) (command : Command)
| RunChild (g : nat) (i : KeptLaunch)
| RunLaunch (cell : nat) (spec : ProcessSpec) (log : option PathBuf)
| RunWatcher (k : nat) (polls : nat).

Abbreviation UProg := (Prog (S := UnixWorld) (Q := UnixPort) (T := UnixTask)).
Abbreviation UEvent := (Event (S := UnixWorld) (Q := UnixPort)).

(** ** System calls *)

(** [p?] of a call that fails with a text. *)
Definition sys_try {A X} (context : string -> KeptError) (f : UnixWorld -> UnixWorld * X) (failed : KeptError -> UProg A)
    (k : X -> UProg A) : UProg A :=
  let! fails := call CallFails in
  match fails with
  | Some text => failed (context text)
  | None => let! x := act f in k x
  end.

Definition kernel_act {X} (f : Kernel -> Kernel * X) : UProg X :=
  act (fun w => let '(k, x) := f (u_kernel w) in (set_kernel k w, x)).
Definition kernel_reads {X} (f : Kernel -> X) : UProg X := reads (fun w => f (u_kernel w)).

(** A file of /proc/[p] is read, or not. *)
Definition proc_read {X} (p : Z) (unread : X) (f : Kernel -> X) : UProg X :=
  let! readable := call (Readable p) in
  if readable : bool then kernel_reads f else Ret unread.

Definition read_start_time (p : Z) : UProg (option Z) := proc_read p None (start_time p).
Definition is_zombie (p : Z) : UProg bool := proc_read p false (zombie p).
Definition child_here (p : Z) : UProg bool := proc_read p false (child_of_here p).
(** [kill(pid, None) == Err(ESRCH)]. *)
Definition is_absent (p : Z) : UProg bool := kernel_reads (no_process p).

Definition boot_id : UProg (option string) :=
  let! reads := call BootReads in
  if reads : bool then let! boot := kernel_reads k_boot in Ret (Some boot) else Ret None.

Definition read_exe (p : Z) : UProg (option PathBuf) := call (ExeOf p).

(** [killpg]; a group that has nobody is seen to be empty. *)
Definition send_group (group signal : Z) : UProg (result unit Errno) :=
  let! refused := call CallFails in
  act (fun w =>
    let '(k, r) := killpg group signal refused (u_kernel w) in
    (match r with Err ESRCH => mark_seen group ∅ (set_kernel k w) | _ => set_kernel k w end, r)).

Definition send_process (p signal : Z) : UProg (result unit Errno) :=
  let! refused := call CallFails in kernel_act (kill_process p signal refused).
Definition send_pidfd (i : KeptLaunch) (signal : Z) : UProg (result unit Errno) :=
  let! refused := call CallFails in kernel_act (kill_pidfd i signal refused).

(** [group_members]: the numbers of the group that the listing shows. *)
Definition group_members (group : Z) : UProg (option (list Z)) :=
  let! hidden := call (Listed group) in
  match hidden with
  | None => Ret None
  | Some hidden =>
      act (fun w => (mark_seen group hidden w, Some (filter (fun p => p ∉ hidden) (group_numbers group (u_kernel w)))))
  end.

(** [members.iter().all(|&pid| is_zombie(pid as u32))]. *)
Fixpoint all_zombies (members : list Z) : UProg bool :=
  match members with
  | [] => Ret true
  | p :: members =>
      let! z := is_zombie p in
      if z : bool then all_zombies members else Ret false
  end.

Definition open_pidfd (p : Z) : UProg (option KeptLaunch) :=
  let! opens := call (PidfdOpens p) in
  if opens : bool then kernel_reads (identity_at p) else Ret None.

(** ** Signals *)

Section Signals.
(** [nix]'s [Signal::try_from]; 1 to 31 on Linux, or the text of its error. *)
Context (nix_try_from : Z -> result Z string).

Definition to_nix (s : Signal) : result Z TerminateError :=
  match s with
  | Term => Ok 15
  | Kill => Ok SIGKILL
  | Interrupt => Ok 2
  | CustomSignal raw => match nix_try_from raw with Ok n => Ok n | Err text => Err (TerminateError_Signal text) end
  end.

Definition terminate_error_display (e : TerminateError) : string :=
  match e with
  | TerminateError_UnknownProcess pid => "unknown process " +:+ process_id_display pid
  | TerminateError_UnknownScope scope => "unknown scope " +:+ scope_id_display scope
  | TerminateError_Signal message => "failed to signal process: " +:+ message
  | TerminateError_Domain e => domain_error_display e
  end.

Definition signal_from_raw (raw : Z) : Signal :=
  if raw =? 15 then Term else if raw =? 9 then Kill else if raw =? 2 then Interrupt else CustomSignal raw.

(** ** Watched processes *)

Definition lookup_watched (k : nat) (w : UnixWorld) : option Watched := u_watched w !! k.

(** The immutable fields of an entry; an entry in a program's hands is there. *)
Definition with_watched {X} (k : nat) (absent : X) (use : Watched -> UProg X) : UProg X :=
  let! d := reads (lookup_watched k) in
  match d with Some d => use d | None => Ret absent end.

Definition has_exited (k : nat) (w : UnixWorld) : bool :=
  match u_watched w !! k with Some d => match wd_exit d with Some _ => true | None => false end | None => false end.

Definition lock_ended (k : nat) (w : UnixWorld) : option (UnixWorld * option KeptExit) :=
  d ← u_watched w !! k;
  if wd_locked d then None else Some (on_watched k (set_wd_locked true) w, wd_ended d).
Definition unlock_ended (k : nat) : UProg unit := modify (on_watched k (set_wd_locked false)).

(** [Watched::ended]. *)
Definition watched_ended (k : nat) : UProg bool :=
  let! ended := await (lock_ended k) in
  unlock_ended k ;;;
  Ret (match ended with Some _ => true | None => false end).

Definition forget_watched (k : nat) : UProg unit :=
  modify (fun w =>
    match u_watched w !! k with
    | Some d => if decide (u_registry w !! wd_os_pid d = Some k) then set_registry (delete (wd_os_pid d) (u_registry w)) w else w
    | None => w
    end).

Definition watched_publish (k : nat) (exit : KeptExit) : UProg unit :=
  modify (on_watched k (set_wd_exit exit)) ;;;
  forget_watched k.

Definition abandon (k : nat) : UProg unit :=
  await (lock_ended k) ;;;
  modify (fun w => mark_abandoned k (on_watched k (set_ended kept_exit_default) w)) ;;;
  unlock_ended k ;;;
  watched_publish k kept_exit_default.

(** [Watched::watch]; the watcher polls at most [polls] times where there is no notification. *)
Definition watch (polls : nat) (k : nat) : UProg unit :=
  let! launching := reads (fun w => match u_watched w !! k with Some d => wd_launching d | None => true end) in
  if launching : bool then Ret tt
  else
    let! done := reads (has_exited k) in
    if done : bool then Ret tt
    else
      let! started := act (fun w =>
        (on_watched k (set_started true) w, match u_watched w !! k with Some d => wd_started d | None => true end)) in
      if started : bool then Ret tt else fork (RunWatcher k polls).

Definition confirmed_alive (d : Watched) : UProg bool :=
  let! token := read_start_time (wd_os_pid d) in
  if bool_decide (token = Some (wd_start_token d)) then
    let! z := is_zombie (wd_os_pid d) in Ret (negb z)
  else Ret false.

Definition gone (d : Watched) : UProg bool :=
  let! token := read_start_time (wd_os_pid d) in
  match token with
  | Some token => if token =? wd_start_token d then is_zombie (wd_os_pid d) else Ret true
  | None =>
      let! absent := is_absent (wd_os_pid d) in
      if absent : bool then Ret true else is_zombie (wd_os_pid d)
  end.

Fixpoint poll_gone (polls : nat) (d : Watched) : UProg unit :=
  let! g := gone d in
  if g : bool then Ret tt
  else
    match polls with
    | O => await (fun _ => None)
    | S polls => ask (UnixSleep POLL) ;;; poll_gone polls d
    end.

(** A pidfd turns readable when its process has exited. *)
Definition pidfd_readable (i : KeptLaunch) : UEvent unit :=
  Ready (fun w => if alive i (u_kernel w) then None else Some (w, tt)).

Definition wait_for_exit (polls : nat) (d : Watched) : UProg unit :=
  match wd_pidfd d with
  | Some i =>
      let! watched := call PidfdWatched in
      if watched : bool then
        let! first := select2 (pidfd_readable i) (Answer PidfdFails) in
        match first with
        | inl _ => Ret tt
        | inr _ => poll_gone polls d
        end
      else poll_gone polls d
  | None => poll_gone polls d
  end.

Definition reap (p : Z) : UProg KeptExit :=
  let! r := await (fun w => match waitpid p (u_kernel w) with Some (k, r) => Some (set_kernel k w, r) | None => None end) in
  Ret (match r with
       | inl (WExited code) => mkKeptExit (Some code) None false
       | inl (WSignaled signal _) => mkKeptExit None (Some (signal_from_raw signal)) false
       | inr _ => kept_exit_default
       end).

(** The loop of [group_empties]: within its two seconds a clock that runs lets it go round at
    most a hundred times. *)
Fixpoint empties_loop (fuel : nat) (group : Z) (deadline : Instant) : UProg bool :=
  let! sent := send_group group SIGKILL in
  match sent with
  | Err ESRCH => Ret true
  | _ =>
      let! members := group_members group in
      let! empty := (match members with Some members => all_zombies members | None => Ret false end) in
      if empty : bool then Ret true
      else
        let! now := call UnixNow in
        if deadline <=? now then Ret false
        else
          match fuel with
          | O => await (fun _ => None)
          | S fuel => ask (UnixSleep SWEEP_RETRY) ;;; empties_loop fuel group deadline
          end
  end.
Definition group_empties (rounds : nat) (group : Z) : UProg bool :=
  let! now := call UnixNow in
  empties_loop rounds group (now + GROUP_SWEEP).

Definition with_stragglers (b : bool) (e : KeptExit) : KeptExit := mkKeptExit (kexit_code e) (kexit_signal e) b.

(** A child's leader pins its group until it is reaped; a foreign one only as a zombie of the
    same instance. *)
Definition is_pinned (d : Watched) : UProg bool :=
  match wd_owner d with
  | Child => Ret true
  | Foreign =>
      let! token := read_start_time (wd_os_pid d) in
      if bool_decide (token = Some (wd_start_token d)) then is_zombie (wd_os_pid d) else Ret false
  end.

Definition watched_reap (d : Watched) : UProg KeptExit :=
  match wd_owner d with Child => reap (wd_os_pid d) | Foreign => Ret kept_exit_default end.

Definition stragglers_of (rounds : nat) (d : Watched) (pinned : bool) : UProg bool :=
  if pinned then let! empty := group_empties rounds (wd_os_pid d) in Ret (negb empty)
  else
    let! absent := is_absent (wd_os_pid d) in
    if negb absent then Ret true
    else
      let! members := group_members (wd_os_pid d) in
      match members with
      | None => Ret true
      | Some members =>
          let! empty := all_zombies members in
          if empty : bool then Ret false
          else let! empty := group_empties rounds (wd_os_pid d) in Ret (negb empty)
      end.

Definition finish (rounds : nat) (k : nat) (d : Watched) : UProg unit :=
  let! ended := await (lock_ended k) in
  match ended with
  | Some exit =>
      unlock_ended k ;;;
      watched_publish k (with_stragglers true exit)
  | None =>
      let! pinned := is_pinned d in
      (if pinned : bool then send_group (wd_os_pid d) SIGKILL ;;; Ret tt else Ret tt) ;;;
      let! exit := watched_reap d in
      modify (on_watched k (set_ended exit)) ;;;
      unlock_ended k ;;;
      let! stragglers := stragglers_of rounds d pinned in
      watched_publish k (with_stragglers stragglers exit)
  end.

(** The drop of [Rearm]. *)
Definition rearm (k : nat) (w : UnixWorld) : UnixWorld :=
  if has_exited k w then w else on_watched k (set_started false) w.

Definition watcher (polls : nat) (k : nat) : UProg unit :=
  guarded (rearm k) (with_watched k tt (fun d => wait_for_exit polls d ;;; finish polls k d)).

(** ** Launching *)

Definition launch_error (context text : string) : KeptError := KeptLaunchFailed (context +:+ ": " +:+ text).

(** *** The child, between [fork] and [exec] *)

(** The child does something, if it is alive. *)
Definition child_does {X} (i : KeptLaunch) (f : UnixWorld -> UnixWorld * X) : UProg X :=
  await (fun w => if alive i (u_kernel w) then Some (f w) else None).

(** It tells why it failed, and exits. *)
Definition child_fails (g : nat) (i : KeptLaunch) (text : string) : UProg unit :=
  child_does i (fun w =>
    (on_gate g (set_g_pipe (PipeError text)) (set_kernel (os_exit i (WExited 1) (u_kernel w)) w), tt)).

Definition child_try {X} (g : nat) (i : KeptLaunch) (f : UnixWorld -> UnixWorld * X) (k : X -> UProg unit) : UProg unit :=
  let! fails := call CallFails in
  match fails with
  | Some text => child_fails g i text
  | None => let! x := child_does i f in k x
  end.

(** [read]: the next byte of the owner, or none once every copy of the owner's end is closed (the
    child closed its own); [EINTR] reads again. *)
Definition gate_read (g : nat) (i : KeptLaunch) (w : UnixWorld) : option (UnixWorld * option Z) :=
  if alive i (u_kernel w) then
    gate ← u_gates w !! g;
    match g_inbox gate with
    | b :: rest => Some (on_gate g (set_g_inbox rest) w, Some b)
    | [] => if g_owner_end gate || g_held gate then None else Some (w, None)
    end
  else None.

Definition run_program (g : nat) (i : KeptLaunch) (w : UnixWorld) : UnixWorld * unit :=
  (on_gate g (set_g_pipe PipeClosed) (mark_started i w), tt).

Definition child (g : nat) (i : KeptLaunch) : UProg unit :=
  child_try g i (fun w => (set_kernel (os_found i (u_kernel w)) w, tt)) (fun _ =>
  child_try g i (fun w => (on_gate g (set_g_report (Some (launch_os_pid i))) w, tt)) (fun _ =>
    let! fails := call CallFails in
    match fails with
    | Some _ => child_fails g i "Operation canceled (os error 125)"
    | None =>
        let! byte := await (gate_read g i) in
        if bool_decide (byte = Some GO)
        then child_try g i (run_program g i) (fun _ => Ret tt)
        else child_fails g i "Operation canceled (os error 125)"
    end)).

(** *** [Command::spawn], on a thread of its own *)

(** The child that the fork makes; the kernel gives it an unused identity and the group of this
    process. (A gate has one spawning thread, which forks once.) *)
Definition fork_child (g : nat) (i : KeptLaunch) (group : Z) (w : UnixWorld) : UnixWorld * bool :=
  match u_gates w !! g, os_fork i Here group (u_kernel w) with
  | Some gate, Some k =>
      match g_child gate with
      | None => (on_gate g (set_g_child i) (set_kernel k w), true)
      | Some _ => (w, false)
      end
  | _, _ => (w, false)
  end.

(** What the parent reads from the pipe: an error, or its end (the child has run [exec] or is dead). *)
Definition pipe_end (g : nat) (i : KeptLaunch) (w : UnixWorld) : option (UnixWorld * option string) :=
  gate ← u_gates w !! g;
  match g_pipe gate with
  | PipeError text => Some (w, Some text)
  | PipeClosed => Some (w, None)
  | PipeOpen => if alive i (u_kernel w) then None else Some (w, None)
  end.

(** The number of this process's own group. *)
Context (here_group : Z).

Definition command_spawn (g : nat) (command : Command) : UProg (result unit string) :=
  let! fails := call CallFails in
  match fails with
  | Some text => Ret (Err text)
  | None =>
      let! i := call (Forks command) in
      let! forked := act (fork_child g i here_group) in
      if forked : bool then
        fork (RunChild g i) ;;;
        let! failed := await (pipe_end g i) in
        match failed with
        | None => Ret (Ok tt)
        | Some text => reap (launch_os_pid i) ;;; Ret (Err text)
        end
      else Ret (Err "fork")
  end.

Definition spawner (g : nat) (command : Command) : UProg unit :=
  let! spawned := command_spawn g command in
  modify (on_gate g close_child_end) ;;;
  modify (on_gate g (set_g_thread spawned)).

(** *** [gated_spawn] *)

Definition new_gate (w : UnixWorld) : UnixWorld * nat :=
  (u_bump (set_gates (<[u_next w := gate_new]> (u_gates w)) w), u_next w).

Definition lock_gate (w : UnixWorld) : option (UnixWorld * unit) :=
  if u_gate_locked w then None else Some (set_gate_locked true w, tt).
Definition unlock_gate : UProg unit := modify (set_gate_locked false).

(** The end of [gated_spawn]: the owner's end (if it is still open) and the gate's lock are dropped. *)
Definition gate_returns {X} (g : nat) (r : X) : UProg X :=
  modify (on_gate g close_owner_end) ;;;
  unlock_gate ;;;
  Ret r.

(** [join(spawner)]. *)
Definition join_spawner (g : nat) : UProg (result unit string) :=
  await (fun w =>
    gate ← u_gates w !! g;
    match g_thread gate with Some r => Some (w, r) | None => None end).

Definition gate_abort (g : nat) : UProg unit :=
  call (GateSend g ABORT) ;;; modify (on_gate g close_owner_end).

(** The owner reads the number, or the end of the socket: the spawning thread and the child have
    closed theirs. *)
Definition child_has_end (gate : Gate) (w : UnixWorld) : bool :=
  match g_child gate with
  | Some i => alive i (u_kernel w) && match g_pipe gate with PipeOpen => true | _ => false end
  | None => false
  end.
Definition read_report (g : nat) (w : UnixWorld) : option (UnixWorld * option Z) :=
  gate ← u_gates w !! g;
  match g_report gate with
  | Some p => Some (on_gate g (set_g_report None) w, Some p)
  | None => if g_child_end gate || child_has_end gate w then None else Some (w, None)
  end.

Definition register (d : Watched) (w : UnixWorld) : UnixWorld * nat :=
  let k := u_next w in
  (u_bump (set_registry (<[wd_os_pid d := k]> (u_registry w)) (set_watched (<[k := d]> (u_watched w)) w)), k).

Definition open_gate (rounds : nat) (g : nat) (launch : KeptLaunch) (k : nat) : UProg (result (KeptLaunch * nat) KeptError) :=
  let! opened := call (GateSend g GO) in
  let! spawned := join_spawner g in
  modify (on_gate g close_owner_end) ;;;
  let failure :=
    match opened, spawned with
    | Ok _, Ok _ => None
    | Err error, _ => Some (launch_error "open gate" error)
    | _, Err error => Some (launch_error "exec" error)
    end in
  match failure with
  | Some error => abandon k ;;; gate_returns g (Err error)
  | None =>
      let! exe := read_exe (launch_os_pid launch) in
      modify (on_watched k (set_wd_exe exe)) ;;;
      modify (on_watched k (set_launching false)) ;;;
      watch rounds k ;;;
      gate_returns g (Ok (launch, k))
  end.

Definition commit_and_open (rounds : nat) (g : nat) (os_pid token : Z) : UProg (result (KeptLaunch * nat) KeptError) :=
  let launch := mkKeptLaunch os_pid token in
  let! pidfd := open_pidfd os_pid in
  let! k := act (register (set_launching true (watched_new os_pid token Child None pidfd))) in
  let! committed := call (Commit launch) in
  match committed with
  | Err error =>
      gate_abort g ;;;
      join_spawner g ;;;
      abandon k ;;;
      gate_returns g (Err error)
  | Ok _ => open_gate rounds g launch k
  end.

(** From the start of the spawning thread on. *)
Definition gated_child (rounds : nat) (g : nat) (command : Command) : UProg (result (KeptLaunch * nat) KeptError) :=
  let! fails := call CallFails in
  match fails with
  | Some text => modify (on_gate g close_child_end) ;;; gate_returns g (Err (launch_error "spawn thread" text))
  | None =>
      fork (RunSpawner g command) ;;;
      let! fails := call CallFails in
      let! report := (match fails with Some text => Ret (Err text)
                      | None => let! p := await (read_report g) in
                                Ret (match p with Some p => Ok p | None => Err "failed to fill whole buffer" end) end) in
      match report with
      | Err error =>
          gate_abort g ;;;
          let! spawned := join_spawner g in
          gate_returns g (Err (match spawned with
                               | Err spawn => launch_error "spawn" spawn
                               | Ok _ => launch_error "child did not report" error
                               end))
      | Ok os_pid =>
          let! token := read_start_time os_pid in
          match token with
          | None =>
              gate_abort g ;;;
              join_spawner g ;;;
              gate_returns g (Err (KeptLaunchFailed "child start time unreadable"))
          | Some token => commit_and_open rounds g os_pid token
          end
      end
  end.

(** [open_log] and the copy of its descriptor. *)
Definition open_log (log : option PathBuf) : UProg (result unit KeptError) :=
  match log with
  | None => Ret (Ok tt)
  | Some _ =>
      sys_try (launch_error "log file") (fun w => (w, tt)) (fun e => Ret (Err e)) (fun _ =>
      sys_try (launch_error "log file") (fun w => (w, tt)) (fun e => Ret (Err e)) (fun _ => Ret (Ok tt)))
  end.

Definition gated_spawn (rounds : nat) (spec : ProcessSpec) (log : option PathBuf) : UProg (result (KeptLaunch * nat) KeptError) :=
  await lock_gate ;;;
  sys_try (launch_error "gate socket") new_gate (fun e => unlock_gate ;;; Ret (Err e)) (fun g =>
    let! opened := open_log log in
    match opened with
    | Err e => modify (on_gate g close_child_end) ;;; gate_returns g (Err e)
    | Ok _ => gated_child rounds g (gated_command spec log)
    end).

(** *** [launch] *)

Definition new_launch_cell (w : UnixWorld) : UnixWorld * nat :=
  (u_bump (set_ucells (<[u_next w := LaunchOpen]> (u_cells w)) w), u_next w).
Definition fill_cell (j : nat) (c : LaunchCell) (w : UnixWorld) : UnixWorld :=
  match u_cells w !! j with Some LaunchOpen => set_ucells (<[j := c]> (u_cells w)) w | _ => w end.
Definition take_launch (j : nat) (w : UnixWorld) : option (UnixWorld * option (result (KeptLaunch * nat) KeptError)) :=
  match u_cells w !! j with
  | Some (LaunchDone r) => Some (set_ucells (delete j (u_cells w)) w, Some r)
  | Some LaunchRefused => Some (set_ucells (delete j (u_cells w)) w, None)
  | _ => None
  end.
Definition drop_launch (j : nat) (w : UnixWorld) : UnixWorld := set_ucells (<[j := LaunchClosed]> (u_cells w)) w.

(** A target is the number of its [Watched]. *)
Definition launch (spec : ProcessSpec) (log : option PathBuf) : UProg (result (KeptLaunch * nat) KeptError) :=
  let! j := act new_launch_cell in
  fork (RunLaunch j spec log) ;;;
  Wait (Ready (take_launch j)) (drop_launch j) (fun r =>
    match r with
    | Some r => Ret r
    | None => let! text := call BlockingRefused in Ret (Err (KeptLaunchFailed text))
    end).

Definition launch_task (rounds : nat) (j : nat) (spec : ProcessSpec) (log : option PathBuf) : UProg unit :=
  Wait (Ready (fun w => Some (w, tt))) (fill_cell j LaunchRefused) (fun _ =>
    let! r := gated_spawn rounds spec log in
    modify (fill_cell j (LaunchDone r))).

(** ** [attach] *)

Definition observe (p : Z) : UProg (result (option KeptObservation) KeptError) :=
  let! token := read_start_time p in
  match token with
  | Some token => let! boot := boot_id in Ret (Ok (Some (mkKeptObservation token boot)))
  | None =>
      let! absent := is_absent p in
      if absent : bool then Ret (Ok None)
      else
        let! z := is_zombie p in
        if z : bool then Ret (Ok None)
        else Ret (Err (KeptSignalFailed ("pid " +:+ decimal p +:+ " exists but its start time is unreadable")))
  end.

Definition registered (p : Z) (w : UnixWorld) : option (nat * Watched) :=
  k ← u_registry w !! p; d ← u_watched w !! k; Some (k, d).

(** The registry is looked at again before the new entry goes in. *)
Definition register_once (d : Watched) (w : UnixWorld) : UnixWorld * nat :=
  match registered (wd_os_pid d) w with
  | Some (k, known) => if wd_start_token known =? wd_start_token d then (w, k) else register d w
  | None => register d w
  end.

Definition attach_seen (rounds : nat) (r : KeptRecord) (pidfd : option KeptLaunch) : UProg (result (option nat) KeptError) :=
  let! ours := child_here (rec_os_pid r) in
  let! z := is_zombie (rec_os_pid r) in
  if z : bool then
    (if ours : bool then send_group (rec_os_pid r) SIGKILL ;;; reap (rec_os_pid r) ;;; Ret tt else Ret tt) ;;;
    Ret (Ok None)
  else
    let! exe := read_exe (rec_os_pid r) in
    let owner := if ours : bool then Child else Foreign in
    let! k := act (register_once (watched_new (rec_os_pid r) (rec_start_token r) owner exe pidfd)) in
    watch rounds k ;;;
    Ret (Ok (Some k)).

Definition attach_new (rounds : nat) (r : KeptRecord) : UProg (result (option nat) KeptError) :=
  if i32_max <? rec_os_pid r then Ret (Ok None)
  else
    let! pidfd := open_pidfd (rec_os_pid r) in
    let! observed := observe (rec_os_pid r) in
    match observed with
    | Err e => Ret (Err e)
    | Ok None => Ret (Ok None)
    | Ok (Some observed) =>
        if is_same_instance r observed then attach_seen rounds r pidfd else Ret (Ok None)
    end.

(** (The code keeps the registry's guard through the first branch; here others may use the registry
    meanwhile.) *)
Definition attach_known (rounds : nat) (r : KeptRecord) (known : option (nat * Watched)) : UProg (result (option nat) KeptError) :=
  match known with
  | Some (k, d) =>
      if wd_start_token d =? rec_start_token r then
        let! ended := watched_ended k in
        if ended : bool then Ret (Ok None)
        else watch rounds k ;;; Ret (Ok (Some k))
      else attach_new rounds r
  | None => attach_new rounds r
  end.

Definition attach (rounds : nat) (r : KeptRecord) : UProg (result (option nat) KeptError) :=
  let! known := reads (registered (rec_os_pid r)) in
  attach_known rounds r known.

(** [attach] with its history: what holds when it looks at the registry, and what it returns. From
    the call on, the identity in the record is given to no process. *)
Definition attach_starts (r : KeptRecord) (w : UnixWorld) : UnixWorld * (bool * option (nat * Watched)) :=
  (set_kernel (reserve (record_instance r) (u_kernel w)) w,
   (present (record_instance r) (u_kernel w), registered (rec_os_pid r) w)).
Definition attach_call (rounds : nat) (r : KeptRecord) : UProg unit :=
  let! start := act (attach_starts r) in
  let! x := attach_known rounds r start.2 in
  modify (log_attached (mkAttached r start.1 (fst <$> start.2) x)).

(** ** The target *)

Definition sent_result (r : result unit Errno) : result unit KeptError :=
  match r with
  | Ok _ | Err ESRCH => Ok tt
  | Err (OtherErrno text) => Err (KeptSignalFailed text)
  end.

(** What [signal] sends under the lock of [ended], when it has not ended. *)
Definition signal_pinned (d : Watched) (n : Z) : UProg (result unit KeptError) :=
  let! sent := send_group (wd_os_pid d) n in
  match sent_result sent with
  | Err e => Ret (Err e)
  | Ok _ => let! sent := send_process (wd_os_pid d) n in Ret (sent_result sent)
  end.

Definition signal_live (d : Watched) (n : Z) : UProg (result unit KeptError) :=
  match wd_owner d, wd_pidfd d with
  | Foreign, Some i =>
      let! sent := send_pidfd i n in
      match sent with
      | Err (OtherErrno text) => Ret (Err (KeptSignalFailed (terminate_error_display (TerminateError_Signal text))))
      | _ =>
          let! confirmed := confirmed_alive d in
          if confirmed : bool then let! sent := send_group (wd_os_pid d) n in Ret (sent_result sent) else Ret (Ok tt)
      end
  | Foreign, None =>
      let! confirmed := confirmed_alive d in
      if confirmed : bool then signal_pinned d n else Ret (Ok tt)
  | Child, _ => signal_pinned d n
  end.

Definition target_signal (k : nat) (s : Signal) : UProg (result unit KeptError) :=
  match to_nix s with
  | Err e => Ret (Err (KeptSignalFailed (terminate_error_display e)))
  | Ok n =>
      with_watched k (Ok tt) (fun d =>
        let! ended := await (lock_ended k) in
        match ended with
        | Some _ => unlock_ended k ;;; Ret (Ok tt)
        | None => let! r := signal_live d n in unlock_ended k ;;; Ret r
        end)
  end.

Definition target_exe (k : nat) (w : UnixWorld) : option PathBuf := d ← u_watched w !! k; wd_exe d.
Definition target_os_pid (k : nat) (w : UnixWorld) : option Z := wd_os_pid <$> u_watched w !! k.

Definition published (k : nat) (w : UnixWorld) : option (UnixWorld * KeptExit) :=
  d ← u_watched w !! k; e ← wd_exit d; Some (w, e).
Definition target_exited (rounds : nat) (k : nat) : UProg KeptExit :=
  watch rounds k ;;; await (published k).

(** ** The tasks, and the world that runs them *)

Definition unix_body (rounds : nat) (t : UnixTask) : UProg unit :=
  match t with
  | RunSpawner g command => spawner g command
  | RunChild g i => child g i
  | RunLaunch j spec log => launch_task rounds j spec log
  | RunWatcher k polls => watcher polls k
  end.

(** What the rest of the machine does: its processes, copies of a gate's socket leaked into
    another program, and the end of this process (the kernel closes its descriptors). *)
Inductive UnixOutside : Type :=
| Outside (e : OsEvent)
| LeakGate (g : nat) (held : bool)
| CloseGates.

Definition outside (e : UnixOutside) (w : UnixWorld) : UnixWorld :=
  match e with
  | Outside e => set_kernel (os_event e (u_kernel w)) w
  | LeakGate g held => on_gate g (set_g_held held) w
  | CloseGates => set_gates (close_owner_end <$> u_gates w) w
  end.
End Signals.
