(* ===== verification/KeptUnixInv.v ===== *)
(** * KeptUnixInv: what always holds of the launcher's state

    The invariant of [KeptUnix], the relation between a world and the later ones, the parts of a
    gate that one program has for itself, and the updates that keep all three. *)

From stdpp Require Import base list gmap strings.
From S2P Require Import Prelude StdModel Values KeptDomain Ports Conc Rights KeptState KeptStore Display Unix KeptUnix.

Open Scope Z_scope.

Definition dead (i : KeptLaunch) (w : UnixWorld) : Prop := alive i (u_kernel w) = false.

(** Everybody who was seen to run in the group at some look at it has exited, or was not shown. *)
Definition group_done (g : Z) (w : UnixWorld) : Prop :=
  exists members, (g, members) ∈ u_seen w /\ forall m, m ∈ members -> dead m w \/ m ∈ u_skipped w.

(** The instance of a record is gone. *)
Definition record_gone (r : KeptRecord) (w : UnixWorld) : Prop :=
  dead (record_instance r) w \/ exists b, rec_boot_id r = Some b /\ b <> k_boot (u_kernel w).

(** [j] is the child of gate [g]. *)
Definition gate_child (g : nat) (j : KeptLaunch) (w : UnixWorld) : Prop :=
  exists gate, u_gates w !! g = Some gate /\ g_child gate = Some j.

(** Some launch made a child with this number that is gone and never started its program. *)
Definition launch_failed (p : Z) (w : UnixWorld) : Prop :=
  exists g j, gate_child g j w /\ launch_os_pid j = p /\ dead j w /\ j ∉ u_started w.

(** What a launch knows of its child: it is the instance [l], or is gone (and the number may be
    someone else's). *)
Definition launch_of (g : nat) (l : KeptLaunch) (w : UnixWorld) : Prop :=
  exists j, gate_child g j w /\ launch_os_pid j = launch_os_pid l /\ (j = l \/ dead j w).

Record gate_ok (w : UnixWorld) (gate : Gate) : Prop := {
  go_report : forall p, g_report gate = Some p -> exists i, g_child gate = Some i /\ launch_os_pid i = p;
  go_child : forall i, g_child gate = Some i -> i ∈ k_used (u_kernel w);
  go_open : GO ∈ g_inbox gate -> g_go gate = true /\ exists i, g_child gate = Some i /\ (i ∈ u_committed w \/ dead i w);
  go_closed : g_pipe gate = PipeClosed -> g_go gate = true;
  go_ran : forall i, g_child gate = Some i -> i ∈ u_started w -> g_pipe gate = PipeClosed;
  go_error : forall text, g_pipe gate = PipeError text -> exists i, g_child gate = Some i /\ dead i w;
  go_spawned : forall i, g_thread gate = Some (Ok tt) -> g_child gate = Some i -> dead i w \/ g_pipe gate = PipeClosed;
  go_failed : forall e i, g_thread gate = Some (Err e) -> g_child gate = Some i -> dead i w /\ i ∉ u_started w;
}.

Record watched_ok (w : UnixWorld) (k : nat) (d : Watched) : Prop := {
  wo_used : watched_instance d ∈ k_used (u_kernel w);
  wo_pidfd : forall i, wd_pidfd d = Some i -> i ∈ k_used (u_kernel w) /\ (i = watched_instance d \/ dead (watched_instance d) w);
  wo_abandoned : k ∈ u_abandoned w -> launch_failed (wd_os_pid d) w;
  wo_ended : wd_ended d <> None -> k ∈ u_abandoned w \/ dead (watched_instance d) w;
  wo_exit : forall e, wd_exit d = Some e -> k ∈ u_abandoned w \/
    (dead (watched_instance d) w /\ (kexit_stragglers e = false -> group_done (wd_os_pid d) w));
}.

(** The entry [k] is of the recorded instance. *)
Definition entry_of (r : KeptRecord) (k : nat) (w : UnixWorld) : Prop :=
  exists d, u_watched w !! k = Some d /\ watched_instance d = record_instance r.

(** A process that had the recorded number and start time when [attach] began is the recorded
    instance: the boot is the same, or one of the two is not known. *)
Definition same_boot (r : KeptRecord) (w : UnixWorld) : Prop :=
  forall b, rec_boot_id r = Some b -> b = k_boot (u_kernel w) \/ u_unread w = true.

Definition attached_ok (w : UnixWorld) (a : Attached) : Prop :=
  match at_answer a with
  | Ok None => record_gone (at_record a) w \/ launch_failed (rec_os_pid (at_record a)) w
  | Ok (Some k) => entry_of (at_record a) k w /\ (at_known a = Some k \/ (at_there a = true /\ same_boot (at_record a) w))
  | Err _ => True
  end.

Record unix_inv (w : UnixWorld) : Prop := {
  ui_kernel : kernel_wf (u_kernel w);
  ui_started : u_started w ⊆ u_committed w;
  ui_started_child : forall i, i ∈ u_started w -> exists g, gate_child g i w;
  ui_committed : forall i, i ∈ u_committed w -> exists g, launch_of g i w;
  ui_gates : forall g gate, u_gates w !! g = Some gate -> gate_ok w gate;
  ui_children : forall g g' i, gate_child g i w -> gate_child g' i w -> g = g';
  ui_watched : forall k d, u_watched w !! k = Some d -> watched_ok w k d;
  ui_seen : forall g members m, (g, members) ∈ u_seen w -> m ∈ members -> m ∈ k_used (u_kernel w);
  ui_attached : forall a, a ∈ u_attached w -> record_instance (at_record a) ∈ k_used (u_kernel w) /\ attached_ok w a;
  ui_registry : forall p k, u_registry w !! p = Some k -> exists d, u_watched w !! k = Some d /\ wd_os_pid d = p;
  ui_abandoned : forall k, k ∈ u_abandoned w -> is_Some (u_watched w !! k);
  ui_next_gates : forall g, (u_next w <= g)%nat -> u_gates w !! g = None;
  ui_next_watched : forall k, (u_next w <= k)%nat -> u_watched w !! k = None;
}.

(** The fields of an entry that never change, and of a gate. *)
Definition same_watched (d d' : Watched) : Prop :=
  watched_instance d' = watched_instance d /\ wd_owner d' = wd_owner d /\ wd_pidfd d' = wd_pidfd d.

Definition gate_later (gate gate' : Gate) : Prop :=
  (forall i, g_child gate = Some i -> g_child gate' = Some i) /\ (g_go gate = true -> g_go gate' = true) /\
  (g_pipe gate = PipeClosed -> g_pipe gate' = PipeClosed).

Record unix_later (w w' : UnixWorld) : Prop := {
  ul_kernel : kernel_later (u_kernel w) (u_kernel w');
  ul_committed : u_committed w ⊆ u_committed w';
  ul_started : forall i, i ∈ k_used (u_kernel w) -> dead i w -> i ∈ u_started w' -> i ∈ u_started w;
  ul_skipped : u_skipped w ⊆ u_skipped w';
  ul_abandoned : u_abandoned w ⊆ u_abandoned w';
  ul_seen : u_seen w ⊆ u_seen w';
  ul_unread : u_unread w = true -> u_unread w' = true;
  ul_next : (u_next w <= u_next w')%nat;
  ul_gates : forall g gate, u_gates w !! g = Some gate -> exists gate', u_gates w' !! g = Some gate' /\ gate_later gate gate';
  ul_watched : forall k d, u_watched w !! k = Some d -> exists d', u_watched w' !! k = Some d' /\ same_watched d d';
}.

#[global] Instance same_watched_preorder : PreOrder same_watched.
Proof. split; [by intros d|]. intros d1 d2 d3 (? & ? & ?) (? & ? & ?). split_and!; congruence. Qed.

#[global] Instance gate_later_preorder : PreOrder gate_later.
Proof. split; [by intros g|]. intros g1 g2 g3 (? & ? & ?) (? & ? & ?). split_and!; auto. Qed.

#[global] Instance unix_later_preorder : PreOrder unix_later.
Proof.
  split.
  - intros w. split; try done; [intros g gate E; by exists gate|intros k d E; by exists d].
  - intros w1 w2 w3 [K1 C1 T1 S1 A1 N1 B1 X1 G1 W1] [K2 C2 T2 S2 A2 N2 B2 X2 G2 W2].
    split; [by etrans|set_solver| |set_solver..|auto|lia| | ].
    + intros i Hi Hd H3. apply T1; [done|done|]. apply T2; [by apply (kl_used _ _ K1)|by apply (kl_ended _ _ K1)|done].
    + intros g gate E. destruct (G1 _ _ E) as (gate1 & E1 & H1). destruct (G2 _ _ E1) as (gate2 & E2 & H2).
      exists gate2. split; [done|by etrans].
    + intros k d E. destruct (W1 _ _ E) as (d' & E' & H'). destruct (W2 _ _ E') as (d'' & E'' & H''). exists d''.
      split; [done|by etrans].
Qed.

(** ** Rights: what one program has of a gate for itself

    The launch sends [GO]; its spawning thread forks the child and ends; the child
    speaks on the pipe. *)

Inductive right : Type :=
| Sending (g : nat)
| Spawning (g : nat)
| Running (g : nat).

#[global] Instance right_eq_dec : EqDecision right.
Proof. solve_decision. Defined.
#[global] Instance right_countable : Countable right.
Proof.
  refine (inj_countable' (fun r => match r with Sending g => (0%nat, g) | Spawning g => (1%nat, g) | Running g => (2%nat, g) end)
    (fun p => match p with (O, g) => Sending g | (S O, g) => Spawning g | (_, g) => Running g end) _). by intros [].
Defined.

Definition right_gate (r : right) : nat := match r with Sending g | Spawning g | Running g => g end.

Definition allocated (r : right) (w : UnixWorld) : Prop := (right_gate r < u_next w)%nat.

Definition frame (r : right) (w w' : UnixWorld) : Prop :=
  match r with
  | Sending g => g_go <$> u_gates w' !! g = g_go <$> u_gates w !! g
  | Spawning g => (fun gate => (g_child gate, g_thread gate)) <$> u_gates w' !! g = (fun gate => (g_child gate, g_thread gate)) <$> u_gates w !! g
  | Running g => g_pipe <$> u_gates w' !! g = g_pipe <$> u_gates w !! g
  end.

#[global] Instance frame_preorder r : PreOrder (frame r).
Proof. split; [by intros w; destruct r|]. intros w1 w2 w3. destruct r; cbn; congruence. Qed.

Lemma allocated_later r w w' : unix_later w w' -> allocated r w -> allocated r w'.
Proof. intros Hl Ha. pose proof (ul_next _ _ Hl). unfold allocated in *. lia. Qed.

Lemma frame_other r w w' : u_gates w' !! right_gate r = u_gates w !! right_gate r -> frame r w w'.
Proof. intros E. destruct r; cbn in *; by rewrite E. Qed.

(** ** What stays true *)

Lemma dead_later i w w' : unix_later w w' -> i ∈ k_used (u_kernel w) -> dead i w -> dead i w'.
Proof. intros [] Hi Hd. by apply (kl_ended _ _ ul_kernel0). Qed.

Lemma used_later i w w' : unix_later w w' -> i ∈ k_used (u_kernel w) -> i ∈ k_used (u_kernel w').
Proof. intros [[]] Hi. set_solver. Qed.

Lemma group_done_later g w w' : unix_inv w -> unix_later w w' -> group_done g w -> group_done g w'.
Proof.
  intros Hw Hl (members & Hs & Hm). exists members. split; [by apply (ul_seen _ _ Hl)|]. intros m Hin.
  destruct (Hm m Hin) as [Hd|Hk]; [left|right; by apply (ul_skipped _ _ Hl)].
  eapply dead_later; [done| |done]. by eapply (ui_seen _ Hw).
Qed.

Lemma record_gone_later r w w' : unix_later w w' -> record_instance r ∈ k_used (u_kernel w) -> record_gone r w -> record_gone r w'.
Proof.
  intros Hl Hr [Hd|(b & E & Hb)]; [left; by eapply dead_later|]. right. exists b. split; [done|].
  by rewrite (kl_boot _ _ (ul_kernel _ _ Hl)).
Qed.

Lemma gate_child_later g i w w' : unix_later w w' -> gate_child g i w -> gate_child g i w'.
Proof. intros Hl (gate & E & Ei). destruct (ul_gates _ _ Hl _ _ E) as (gate' & E' & Hc & _). exists gate'. auto. Qed.

Lemma gate_child_used g i w : unix_inv w -> gate_child g i w -> i ∈ k_used (u_kernel w).
Proof. intros Hw (gate & E & Ei). by apply (go_child _ _ (ui_gates _ Hw _ _ E)). Qed.

Lemma never_started_later i w w' : unix_later w w' -> i ∈ k_used (u_kernel w) -> dead i w -> i ∉ u_started w -> i ∉ u_started w'.
Proof. intros Hl Hu Hd Hn Hs. by apply Hn, (ul_started _ _ Hl). Qed.

Lemma launch_failed_later p w w' : unix_inv w -> unix_later w w' -> launch_failed p w -> launch_failed p w'.
Proof.
  intros Hw Hl (g & j & Hc & Hp & Hd & Hn). pose proof (gate_child_used _ _ _ Hw Hc) as Hu. exists g, j.
  split_and!; [by eapply gate_child_later|done|by eapply dead_later|by eapply never_started_later].
Qed.

Lemma launch_of_later g l w w' : unix_inv w -> unix_later w w' -> launch_of g l w -> launch_of g l w'.
Proof.
  intros Hw Hl (i & Hg & Hp & Hi). exists i. split_and!; [by eapply gate_child_later|done|]. destruct Hi as [->|Hd]; [by left|right].
  eapply dead_later; [done|by eapply gate_child_used|done].
Qed.

Lemma gate_ok_later w w' gate : unix_later w w' -> u_started w' = u_started w -> gate_ok w gate -> gate_ok w' gate.
Proof.
  intros Hl Es [Hr Hc Ho Hcl Hran He Hs Hf]. split; rewrite ?Es; try done.
  - intros i Ei. eapply used_later; eauto.
  - intros HGO. destruct (Ho HGO) as (Hg & i & Ei & [Hi|Hi]); (split; [done|]); exists i; (split; [done|]);
      [left; by apply (ul_committed _ _ Hl)|right; eapply dead_later; eauto].
  - intros text Et. destruct (He text Et) as (i & Ei & Hd). exists i. split; [done|]. eapply dead_later; eauto.
  - intros i Et Ei. destruct (Hs i Et Ei); [left; eapply dead_later; eauto|by right].
  - intros e i Et Ei. destruct (Hf e i Et Ei) as [Hd Hn]. split; [eapply dead_later; eauto|done].
Qed.

Lemma watched_ok_later w w' k d :
  unix_inv w -> unix_later w w' -> (k ∈ u_abandoned w' -> k ∈ u_abandoned w) -> watched_ok w k d -> watched_ok w' k d.
Proof.
  intros Hw Hl Hab [Hu Hp Ha He Hx]. split.
  - by eapply used_later.
  - intros i Ei. destruct (Hp i Ei) as [Hi [->|Hd]]; (split; [by eapply used_later|]); [by left|right; by eapply dead_later].
  - intros Hin. eapply launch_failed_later; eauto.
  - intros Hn. destruct (He Hn) as [Hin|Hd]; [left; by apply (ul_abandoned _ _ Hl)|right; by eapply dead_later].
  - intros e E. destruct (Hx e E) as [Hin|[Hd Hg]]; [left; by apply (ul_abandoned _ _ Hl)|right]. split; [by eapply dead_later|].
    intros Hs. eapply group_done_later; eauto.
Qed.

Lemma entry_of_later r k w w' : unix_later w w' -> entry_of r k w -> entry_of r k w'.
Proof.
  intros Hl (d & E & Hi). destruct (ul_watched _ _ Hl _ _ E) as (d' & E' & Hs & _). exists d'. split; [done|congruence].
Qed.

Lemma same_boot_later r w w' : unix_later w w' -> same_boot r w -> same_boot r w'.
Proof.
  intros Hl Hb b E. destruct (Hb b E) as [->|Hu]; [left; by rewrite (kl_boot _ _ (ul_kernel _ _ Hl))|right; by apply (ul_unread _ _ Hl)].
Qed.

Lemma attached_ok_later w w' a :
  unix_inv w -> unix_later w w' -> record_instance (at_record a) ∈ k_used (u_kernel w) -> attached_ok w a -> attached_ok w' a.
Proof.
  intros Hw Hl Hr. unfold attached_ok. destruct (at_answer a) as [[k|]|e]; cbn; [|intros [Hg|Hf]|done].
  - intros [He Hk]. split; [by eapply entry_of_later|]. destruct Hk as [Hk|[Ht Hb]]; [by left|right]. split; [done|by eapply same_boot_later].
  - left. by eapply record_gone_later.
  - right. by eapply launch_failed_later.
Qed.

Lemma registry_later w w' p k :
  unix_inv w -> unix_later w w' -> u_registry w !! p = Some k -> exists d, u_watched w' !! k = Some d /\ wd_os_pid d = p.
Proof.
  intros Hw Hl E. destruct (ui_registry _ Hw _ _ E) as (d & Ed & <-). destruct (ul_watched _ _ Hl _ _ Ed) as (d' & Ed' & Hi & _).
  exists d'. split; [done|]. unfold watched_instance in Hi. congruence.
Qed.

Lemma watched_later k w w' : unix_later w w' -> is_Some (u_watched w !! k) -> is_Some (u_watched w' !! k).
Proof. intros Hl [d E]. destruct (ul_watched _ _ Hl _ _ E) as (d' & E' & _). by exists d'. Qed.

(** ** Updates *)

Abbreviation moves := (moves_all unix_inv unix_later allocated frame).
Abbreviation moves_with := (moves_with unix_inv unix_later allocated frame).

Lemma moves_refl w : unix_inv w -> moves w w.
Proof. done. Qed.

Lemma moves_trans w w1 w2 : moves w w1 -> moves w1 w2 -> moves w w2.
Proof.
  intros (_ & L1 & F1) (I2 & L2 & F2). split_and!; [done|by etrans|]. intros r Hr. etrans; [by apply F1|].
  apply F2. by eapply allocated_later.
Qed.

(** The gates stay as they are. *)
Lemma moves_same_gates w w' : unix_inv w' -> unix_later w w' -> u_gates w' = u_gates w -> moves w w'.
Proof. intros Hw Hl E. split_and!; [done|done|]. intros r _. apply frame_other. by rewrite E. Qed.

(** The kernel, and the histories that only grow, move on. *)
Lemma moves_kernel w w' :
  unix_inv w -> kernel_wf (u_kernel w') -> kernel_later (u_kernel w) (u_kernel w') ->
  u_gates w' = u_gates w -> u_watched w' = u_watched w -> (u_next w <= u_next w')%nat ->
  u_started w' = u_started w -> u_committed w ⊆ u_committed w' -> u_skipped w ⊆ u_skipped w' ->
  u_abandoned w' = u_abandoned w -> u_seen w ⊆ u_seen w' -> (u_unread w = true -> u_unread w' = true) ->
  (forall i, i ∈ u_committed w' -> i ∈ u_committed w \/ exists g, launch_of g i w) ->
  (forall g members m, (g, members) ∈ u_seen w' -> m ∈ members -> m ∈ k_used (u_kernel w')) ->
  (forall a, a ∈ u_attached w' -> a ∈ u_attached w \/ (record_instance (at_record a) ∈ k_used (u_kernel w') /\ attached_ok w' a)) ->
  (forall p k, u_registry w' !! p = Some k -> u_registry w !! p = Some k) ->
  moves w w'.
Proof.
  intros Hw Hwf Hk Eg Ew Hn Es Hc Hsk Ea Hse Hun Hcm Hsu Hat Hr.
  assert (Hl : unix_later w w').
  { split; rewrite ?Es, ?Ea; try done; rewrite ?Eg, ?Ew; [intros g gate E; by exists gate|intros k d E; by exists d]. }
  assert (Hch : forall g i, gate_child g i w' -> gate_child g i w) by (intros g i; unfold gate_child; by rewrite Eg).
  apply moves_same_gates; [|done..]. split.
  - done.
  - rewrite Es. etrans; [by apply (ui_started _ Hw)|done].
  - rewrite Es. intros i Hi. destruct (ui_started_child _ Hw i Hi) as [g Hg]. exists g. by eapply gate_child_later.
  - intros i Hi. destruct (Hcm i Hi) as [Hold|[g Hg]]; [|exists g; by eapply launch_of_later].
    destruct (ui_committed _ Hw i Hold) as [g Hg]. exists g. by eapply launch_of_later.
  - rewrite Eg. intros g gate E. eapply gate_ok_later; [done..|]. by eapply (ui_gates _ Hw).
  - intros g g' i H1 H2. eapply (ui_children _ Hw); eauto.
  - rewrite Ew. intros k d E. eapply watched_ok_later; [done..|by rewrite Ea|]. by eapply (ui_watched _ Hw).
  - done.
  - intros a Hin. destruct (Hat a Hin) as [Hold|Hnew]; [|done]. destruct (ui_attached _ Hw _ Hold) as [Hu Hok].
    split; [by eapply used_later|by eapply attached_ok_later].
  - intros p k E. by eapply registry_later, Hr.
  - rewrite Ea, Ew. apply (ui_abandoned _ Hw).
  - rewrite Eg. intros g Hg. apply (ui_next_gates _ Hw). lia.
  - rewrite Ew. intros k Hg. apply (ui_next_watched _ Hw). lia.
Qed.

Lemma moves_set_kernel w k :
  unix_inv w -> kernel_wf k /\ kernel_later (u_kernel w) k -> moves w (set_kernel k w).
Proof.
  intros Hw [Hwf Hl]. apply moves_kernel; cbn; try done; try by left.
  intros g members m Hs Hm. apply (kl_used _ _ Hl). by eapply (ui_seen _ Hw).
Qed.

(** Fields that the invariant does not speak of. *)
Lemma moves_other w w' :
  unix_inv w -> u_kernel w' = u_kernel w -> u_gates w' = u_gates w -> u_watched w' = u_watched w ->
  (u_next w <= u_next w')%nat -> u_started w' = u_started w -> u_committed w' = u_committed w ->
  u_skipped w' = u_skipped w -> u_abandoned w' = u_abandoned w -> u_seen w' = u_seen w -> u_attached w' = u_attached w ->
  (u_unread w = true -> u_unread w' = true) ->
  (forall p k, u_registry w' !! p = Some k -> u_registry w !! p = Some k) ->
  moves w w'.
Proof.
  intros Hw Ek Eg Ew Hn Es Ec Esk Ea Ese Eat Hun Hr. apply moves_kernel; rewrite ?Ek, ?Es, ?Ec, ?Esk, ?Ea, ?Ese, ?Eat; try done;
    try by apply Hw.
  all: by left.
Qed.

Lemma moves_commit w g l : unix_inv w -> launch_of g l w -> moves w (mark_committed l w).
Proof.
  intros Hw Hg. apply moves_kernel; cbn; try done; try by apply Hw.
  - set_solver.
  - intros i [->%elem_of_singleton|Hi]%elem_of_union; eauto.
  - by left.
Qed.

Lemma moves_seen w g hidden : unix_inv w -> moves w (mark_seen g hidden w).
Proof.
  intros Hw. apply moves_kernel; cbn; try done; try by apply Hw.
  - set_solver.
  - set_solver.
  - by left.
  - intros g' members m [Hs|Hs]%elem_of_app Hm; [by eapply (ui_seen _ Hw)|].
    apply list_elem_of_singleton in Hs as [= -> ->]. unfold alive_members in Hm.
    apply list_elem_of_fmap in Hm as ([p pr] & -> & Hin). apply list_elem_of_filter in Hin as [_ Hin].
    apply list_elem_of_filter in Hin as [_ Hin]. apply elem_of_map_to_list in Hin. by apply (ui_kernel _ Hw).
  - by left.
Qed.

Lemma moves_attached w a :
  unix_inv w -> record_instance (at_record a) ∈ k_used (u_kernel w) -> attached_ok w a -> moves w (log_attached a w).
Proof.
  intros Hw Hr Hx. apply moves_kernel; cbn; try done; try by apply Hw.
  - by left.
  - intros a' [Hs|Hs]%elem_of_app; [by left|]. apply list_elem_of_singleton in Hs as ->. by right.
Qed.

(** Gates and entries change, the kernel and the histories do not. *)
Lemma inv_of_later w w' :
  unix_inv w -> unix_later w w' -> u_kernel w' = u_kernel w -> u_started w' = u_started w -> u_committed w' = u_committed w ->
  u_seen w' = u_seen w -> u_attached w' = u_attached w -> u_abandoned w' = u_abandoned w ->
  (forall g gate, u_gates w' !! g = Some gate -> u_gates w !! g = Some gate \/ gate_ok w gate) ->
  (forall g g' i, gate_child g i w' -> gate_child g' i w' -> g = g') ->
  (forall k d, u_watched w' !! k = Some d -> u_watched w !! k = Some d \/ watched_ok w k d) ->
  (forall p k, u_registry w' !! p = Some k -> u_registry w !! p = Some k \/ exists d, u_watched w' !! k = Some d /\ wd_os_pid d = p) ->
  (forall g, (u_next w' <= g)%nat -> u_gates w' !! g = None) ->
  (forall k, (u_next w' <= k)%nat -> u_watched w' !! k = None) ->
  unix_inv w'.
Proof.
  intros Hw Hl Ek Es Ec Ese Eat Ea Hg Hch Hd Hr Hng Hnw. split; rewrite ?Ek, ?Es, ?Ec, ?Ese, ?Eat; try by apply Hw.
  - intros i Hi. destruct (ui_started_child _ Hw i Hi) as [g Hgc]. exists g. by eapply gate_child_later.
  - intros i Hi. destruct (ui_committed _ Hw i Hi) as [g Hgc]. exists g. by eapply launch_of_later.
  - intros g gate E. eapply gate_ok_later; [done..|]. destruct (Hg g gate E); [by eapply (ui_gates _ Hw)|done].
  - done.
  - intros k d E. eapply watched_ok_later; [done..|by rewrite Ea|]. destruct (Hd k d E); [by eapply (ui_watched _ Hw)|done].
  - intros a Hin. destruct (ui_attached _ Hw _ Hin) as [Hu Hok]. split; [done|]. by eapply attached_ok_later.
  - intros p k E. destruct (Hr p k E); [by eapply registry_later|done].
  - rewrite Ea. intros k Hk. eapply watched_later; [done|]. by apply (ui_abandoned _ Hw).
  - done.
  - done.
Qed.

(** A gate changes and keeps its child. *)
Lemma gate_changes w g f :
  unix_inv w ->
  (forall gate, u_gates w !! g = Some gate -> gate_ok w gate -> gate_ok w (f gate) /\ gate_later gate (f gate) /\ g_child (f gate) = g_child gate) ->
  unix_inv (on_gate g f w) /\ unix_later w (on_gate g f w) /\ forall r, right_gate r <> g -> frame r w (on_gate g f w).
Proof.
  intros Hw Hf.
  assert (Hl : unix_later w (on_gate g f w)).
  { split; cbn; try done; [|intros k d E; by exists d]. intros g' gate E. destruct (decide (g = g')) as [<-|Hne].
    - exists (f gate). rewrite lookup_alter_eq, E. split; [done|]. by apply (Hf gate E (ui_gates _ Hw g gate E)).
    - exists gate. by rewrite lookup_alter_ne. }
  split_and!; [|done|intros r Hr; apply frame_other; cbn; by rewrite lookup_alter_ne].
  assert (Hch : forall g' i, gate_child g' i (on_gate g f w) -> gate_child g' i w).
  { intros g' i (gate & E & Ei). cbn in E. rewrite lookup_alter_Some in E. destruct E as [(<- & gate0 & E & ->)|[_ E]]; [|by exists gate].
    exists gate0. split; [done|]. destruct (Hf gate0 E (ui_gates _ Hw _ _ E)) as (_ & _ & Ec). congruence. }
  apply (inv_of_later w); cbn; try done; try by apply Hw.
  - intros g' gate. rewrite lookup_alter_Some. intros [(-> & gate0 & E & ->)|[_ E]]; [right|by left].
    by apply Hf, (ui_gates _ Hw g').
  - intros g1 g2 i H1 H2. eapply (ui_children _ Hw); eauto.
  - by left.
  - by left.
  - intros g' Hg. rewrite lookup_alter_None. by apply (ui_next_gates _ Hw).
Qed.

(** In what neither the invariant nor a right speaks of. *)
Definition gate_plain (f : Gate -> Gate) : Prop :=
  forall gate, g_child (f gate) = g_child gate /\ (g_report (f gate) = g_report gate \/ g_report (f gate) = None) /\
    (GO ∈ g_inbox (f gate) -> GO ∈ g_inbox gate) /\ g_go (f gate) = g_go gate /\ g_pipe (f gate) = g_pipe gate /\
    g_thread (f gate) = g_thread gate.

Lemma gate_plain_ok f w gate : gate_plain f -> gate_ok w gate -> gate_ok w (f gate).
Proof.
  intros Hf [Hr Hc Ho Hcl Hran He Hs Hfl]. destruct (Hf gate) as (Ec & Er & Ei & Eg & Ep & Et).
  split; rewrite ?Ec, ?Eg, ?Ep, ?Et; try done.
  - intros p Er'. destruct Er as [Er|Er]; [apply Hr; congruence|congruence].
  - auto.
Qed.

Lemma frames_plain g f w : gate_plain f -> forall r, frame r w (on_gate g f w).
Proof.
  intros Hf r. destruct (decide (right_gate r = g)) as [<-|Hne]; [|apply frame_other; cbn; by rewrite lookup_alter_ne].
  destruct r as [g|g|g]; cbn; rewrite lookup_alter_eq; destruct (u_gates w !! g) as [gate|]; cbn; try done;
    destruct (Hf gate) as (Ec & _ & _ & Eg & Ep & Et); by rewrite ?Ec, ?Eg, ?Ep, ?Et.
Qed.

Lemma moves_gate_plain w g f : unix_inv w -> gate_plain f -> moves w (on_gate g f w).
Proof.
  intros Hw Hf. destruct (gate_changes w g f Hw) as (HI & Hl & _).
  - intros gate E Hg. split_and!; [by apply gate_plain_ok| |apply Hf]. destruct (Hf gate) as (Ec & _ & _ & Eg & Ep & _).
    unfold gate_later. by rewrite Ec, Eg, Ep.
  - split_and!; [done|done|]. intros r _. by apply frames_plain.
Qed.

(** An entry changes and keeps what never changes. *)
Lemma moves_watched w k f :
  unix_inv w -> (forall d, same_watched d (f d)) ->
  (forall d, u_watched w !! k = Some d -> watched_ok w k d -> watched_ok w k (f d)) ->
  moves w (on_watched k f w).
Proof.
  intros Hw Hs Hf.
  assert (Hl : unix_later w (on_watched k f w)).
  { split; cbn; try done; [intros g gate E; by exists gate|]. intros k' d E. destruct (decide (k = k')) as [<-|Hne].
    - exists (f d). by rewrite lookup_alter_eq, E.
    - exists d. by rewrite lookup_alter_ne. }
  apply moves_same_gates; [|done..]. apply (inv_of_later w); cbn; try done; try by apply Hw.
  - by left.
  - intros k' d. rewrite lookup_alter_Some. intros [(-> & d0 & E & ->)|[_ E]]; [right|by left].
    by apply Hf, (ui_watched _ Hw k').
  - by left.
  - intros k' Hk. rewrite lookup_alter_None. by apply (ui_next_watched _ Hw).
Qed.

Lemma moves_watched_plain w k f :
  unix_inv w ->
  (forall d, same_watched d (f d) /\ wd_ended (f d) = wd_ended d /\ wd_exit (f d) = wd_exit d) ->
  moves w (on_watched k f w).
Proof.
  intros Hw Hf. apply moves_watched; [done|apply Hf|]. intros d _ [Hu Hp Ha He Hx].
  destruct (Hf d) as ((Ei & Eo & Ep) & Ee & Ex). assert (wd_os_pid (f d) = wd_os_pid d) as Ed by (unfold watched_instance in Ei; congruence).
  split; rewrite ?Ei, ?Ep, ?Ee, ?Ex, ?Ed; done.
Qed.

(** The entry of a launch that failed is given up. *)
Lemma moves_abandon w k d :
  unix_inv w -> u_watched w !! k = Some d -> launch_failed (wd_os_pid d) w -> moves w (mark_abandoned k w).
Proof.
  intros Hw Ek Hf.
  assert (Hl : unix_later w (mark_abandoned k w)).
  { split; cbn; try done; [set_solver|intros g gate E; by exists gate|intros k' d' E; by exists d']. }
  apply moves_same_gates; [|done..]. split; cbn; try by apply Hw.
  - intros g gate E. eapply gate_ok_later; [exact Hl|done|]. by eapply (ui_gates _ Hw).
  - intros k' d' E. destruct (ui_watched _ Hw _ _ E) as [Hu Hp Ha He Hx]. split; cbn; [done..| | |].
    + intros [->%elem_of_singleton|Hin]%elem_of_union; [|exact (Ha Hin)]. assert (d' = d) as -> by congruence. exact Hf.
    + intros Hn. destruct (He Hn); [left; set_solver|by right].
    + intros e E'. destruct (Hx e E'); [left; set_solver|by right].
  - intros k' [->%elem_of_singleton|Hin]%elem_of_union; [by exists d|by apply (ui_abandoned _ Hw)].
Qed.

Lemma moves_new_gate w : unix_inv w -> moves w (new_gate w).1.
Proof.
  intros Hw.
  assert (Hold : forall g gate, u_gates w !! g = Some gate -> u_gates (new_gate w).1 !! g = Some gate).
  { intros g gate E. cbn. rewrite lookup_insert_ne; [done|]. intros <-. rewrite (ui_next_gates _ Hw) in E; [done|lia]. }
  assert (Hl : unix_later w (new_gate w).1).
  { split; cbn; try done; try lia; [|intros k d E; by exists d]. intros g gate E. exists gate. split; [by apply Hold|done]. }
  split_and!; [|done|].
  - assert (Hch : forall g i, gate_child g i (new_gate w).1 -> gate_child g i w).
    { intros g i (gate & E & Ei). cbn in E. apply lookup_insert_Some in E as [[<- <-]|[_ E]]; [done|by exists gate]. }
    apply (inv_of_later w); cbn; try done; try (by apply Hw); try lia.
    + intros g gate. rewrite lookup_insert_Some. intros [[<- <-]|[_ E]]; [right|by left].
      split; cbn; try done; set_solver.
    + intros g1 g2 i H1 H2. eapply (ui_children _ Hw); eauto.
    + by left.
    + by left.
    + intros g Hg. rewrite lookup_insert_None. split; [apply (ui_next_gates _ Hw); lia|lia].
    + intros k Hk. apply (ui_next_watched _ Hw). lia.
  - intros r Hr. apply frame_other. cbn. apply lookup_insert_ne. unfold allocated in Hr. lia.
Qed.

Lemma moves_register w d :
  unix_inv w -> watched_instance d ∈ k_used (u_kernel w) -> wd_ended d = None -> wd_exit d = None ->
  (forall i, wd_pidfd d = Some i -> i ∈ k_used (u_kernel w) /\ (i = watched_instance d \/ dead (watched_instance d) w)) ->
  moves w (register d w).1 /\ u_watched (register d w).1 !! (register d w).2 = Some d.
Proof.
  intros Hw Hu He Hx Hp. split; [|cbn; by rewrite lookup_insert_eq].
  assert (Hl : unix_later w (register d w).1).
  { split; cbn; try done; try lia; [intros g gate E; by exists gate|]. intros k d' E. exists d'. rewrite lookup_insert_ne; [done|]. intros <-.
    rewrite (ui_next_watched _ Hw) in E; [done|lia]. }
  apply moves_same_gates; [|done..]. apply (inv_of_later w); cbn; try done; try (by apply Hw); try lia.
  - by left.
  - intros k d'. rewrite lookup_insert_Some. intros [[<- <-]|[_ E]]; [right|by left]. split; rewrite ?He, ?Hx; try done.
    intros Hin. destruct (ui_abandoned _ Hw _ Hin) as [d0 E]. rewrite (ui_next_watched _ Hw) in E; [done|lia].
  - intros p k. rewrite lookup_insert_Some. intros [[<- <-]|[_ E]]; [right; exists d; by rewrite lookup_insert_eq|by left].
  - intros g Hg. apply (ui_next_gates _ Hw). lia.
  - intros k Hk. rewrite lookup_insert_None. split; [apply (ui_next_watched _ Hw); lia|lia].
Qed.

(** ** Updates by the owner of a right *)

Lemma moves_owned G G' w w' : G ⊆ G' -> moves_with G w w' -> moves_with G' w w'.
Proof. intros Hs (HI & Hl & Hf). split_and!; [done..|]. intros r Hr. apply Hf. set_solver. Qed.

(** [moves], then an update by an owner. *)
Lemma moves_then G w w1 w2 : moves w w1 -> moves_with G w1 w2 -> moves_with G w w2.
Proof.
  intros (_ & L1 & F1) (I2 & L2 & F2). split_and!; [done|by etrans|]. intros r Hn Hr. etrans; [by apply F1|].
  apply F2; [done|]. by eapply allocated_later.
Qed.

(** A gate changes, but for its child and in the part of one right at most. *)
Lemma owner_gate_changes w r f :
  unix_inv w ->
  (forall gate, u_gates w !! right_gate r = Some gate -> gate_ok w gate ->
     gate_ok w (f gate) /\ gate_later gate (f gate) /\ g_child (f gate) = g_child gate /\
     (r <> Sending (right_gate r) -> g_go (f gate) = g_go gate) /\
     (r <> Spawning (right_gate r) -> g_thread (f gate) = g_thread gate) /\
     (r <> Running (right_gate r) -> g_pipe (f gate) = g_pipe gate)) ->
  moves_with {[r]} w (on_gate (right_gate r) f w).
Proof.
  intros Hw Hf. destruct (gate_changes w (right_gate r) f Hw) as (HI & Hl & Hfr).
  { intros gate E Hg. destruct (Hf gate E Hg) as (? & ? & ? & _). done. }
  split_and!; [done|done|]. intros r' Hn _. destruct (decide (right_gate r' = right_gate r)) as [Eg|Hne]; [|by apply Hfr].
  assert (r' <> r) as Hne by set_solver.
  destruct (u_gates w !! right_gate r) as [gate|] eqn:E.
  - destruct (Hf gate eq_refl (ui_gates _ Hw _ _ E)) as (_ & _ & Ec & H1 & H2 & H3).
    destruct r, r'; cbn in *; simplify_eq; rewrite lookup_alter_eq, E; cbn; rewrite ?Ec, ?H1, ?H2, ?H3; done.
  - destruct r, r'; cbn in *; simplify_eq; rewrite lookup_alter_eq, E; done.
Qed.

(** A gate changes in what no right speaks of. *)
Lemma moves_gate w g f :
  unix_inv w ->
  (forall gate, u_gates w !! g = Some gate -> gate_ok w gate ->
     gate_ok w (f gate) /\ g_child (f gate) = g_child gate /\ g_go (f gate) = g_go gate /\ g_thread (f gate) = g_thread gate /\
     g_pipe (f gate) = g_pipe gate) ->
  moves w (on_gate g f w).
Proof.
  intros Hw Hf. destruct (gate_changes w g f Hw) as (HI & Hl & Hfr).
  { intros gate E Hg. destruct (Hf gate E Hg) as (? & Ec & Eg & Et & Ep). unfold gate_later. by rewrite Ec, Eg, Ep. }
  split_and!; [done|done|]. intros r _. destruct (decide (right_gate r = g)) as [<-|Hne]; [|by apply Hfr].
  destruct (u_gates w !! right_gate r) as [gate|] eqn:E.
  - destruct (Hf gate eq_refl (ui_gates _ Hw _ _ E)) as (_ & Ec & Eg & Et & Ep).
    destruct r; cbn in *; rewrite lookup_alter_eq, E; cbn; by rewrite ?Ec, ?Eg, ?Et, ?Ep.
  - destruct r; cbn in *; by rewrite lookup_alter_eq, E.
Qed.

Lemma add_byte_plain b : b <> GO -> gate_plain (add_byte b).
Proof.
  intros Hb gate. cbn. split_and!; try done; [by left| |].
  - intros [Hin|Hin]%elem_of_app; [done|]. apply list_elem_of_singleton in Hin. congruence.
  - destruct (Z.eqb_spec b GO); [done|]. by rewrite orb_false_r.
Qed.

Lemma go_sent w g :
  unix_inv w -> (exists i, gate_child g i w /\ (i ∈ u_committed w \/ dead i w)) -> moves_with {[Sending g]} w (on_gate g (add_byte GO) w).
Proof.
  intros Hw (i & (gate0 & E0 & Ei) & Hi). apply (owner_gate_changes w (Sending g)); [done|]. cbn. intros gate E [Hr Hc Ho Hcl Hran He Hs Hf].
  assert (gate0 = gate) as -> by congruence. assert (g_go (add_byte GO gate) = true) as Hgo by (cbn; by rewrite orb_true_r).
  split_and!; try done. split; try done. intros _. split; [done|]. by exists i.
Qed.

(** The spawning thread ends with [r]. *)
Lemma thread_ends w g r :
  unix_inv w ->
  (forall gate i, u_gates w !! g = Some gate -> g_child gate = Some i ->
     match r with Ok _ => dead i w \/ g_pipe gate = PipeClosed | Err _ => dead i w /\ i ∉ u_started w end) ->
  moves_with {[Spawning g]} w (on_gate g (set_g_thread r) w).
Proof.
  intros Hw Hch. apply (owner_gate_changes w (Spawning g)); [done|]. cbn. intros gate E [Hr Hc Ho Hcl Hran He Hs Hf].
  split_and!; try done. split; cbn; try done.
  - intros i [= ->] Ei. exact (Hch gate i E Ei).
  - intros e i [= ->] Ei. exact (Hch gate i E Ei).
Qed.

(** The spawning thread forks the child. *)
Lemma child_forked w g i group gate k :
  unix_inv w -> u_gates w !! g = Some gate -> g_child gate = None -> g_thread gate = None ->
  os_fork i Here group (u_kernel w) = Some k ->
  moves_with {[Spawning g]} w (on_gate g (set_g_child i) (set_kernel k w)).
Proof.
  intros Hw Eg Ec Et Ef. pose proof (fork_later _ _ _ _ _ (ui_kernel _ Hw) Ef) as Hk.
  pose proof (moves_set_kernel _ _ Hw Hk) as Hm. pose proof Hm as (Hwk & Hlk & _). eapply moves_then; [exact Hm|].
  assert (Hi : i ∈ k_used k /\ i ∉ k_used (u_kernel w)).
  { unfold os_fork in Ef. destruct (number_free _ _ && negb (bool_decide (i ∈ k_used (u_kernel w))) && _) eqn:Eb; [|done].
    injection Ef as <-. apply andb_true_iff in Eb as [[_ Hn]%andb_true_iff _]. apply negb_true_iff, bool_decide_eq_false in Hn.
    split; [cbn; set_solver|done]. }
  destruct Hi as [Hi Hni]. set (w1 := set_kernel k w) in *. set (w2 := on_gate g (set_g_child i) w1).
  assert (Hfresh : forall g', ~ gate_child g' i w). { intros g' Hg. apply Hni. by eapply gate_child_used. }
  assert (Hl : unix_later w1 w2).
  { split; cbn; try done; [|intros k' d E; by exists d]. intros g' gate' E. destruct (decide (g = g')) as [<-|Hne].
    - exists (set_g_child i gate'). rewrite lookup_alter_eq, E. split; [done|]. assert (gate' = gate) as -> by congruence.
      unfold gate_later. rewrite Ec. by split_and!.
    - exists gate'. by rewrite lookup_alter_ne. }
  assert (Hch : forall g' j, gate_child g' j w2 -> (g' = g /\ j = i) \/ gate_child g' j w).
  { intros g' j (gate' & E & Ej). cbn in E. apply lookup_alter_Some in E as [(<- & gate0 & E & ->)|[_ E]].
    - left. cbn in Ej. by injection Ej.
    - right. by exists gate'. }
  split_and!; [|done|].
  - apply (inv_of_later w1); try done; try by apply Hwk.
    + intros g' gate'. cbn. rewrite lookup_alter_Some. intros [(<- & gate0 & E & ->)|[_ E]]; [right|by left].
      assert (gate0 = gate) as -> by congruence. destruct (ui_gates _ Hwk _ _ Eg) as [Hr Hc Ho Hcl Hran He Hs Hf]. split; cbn; try done.
      * intros p Ep. destruct (Hr p Ep) as (? & ? & _). congruence.
      * by intros ? [= <-].
      * intros HGO. destruct (Ho HGO) as (_ & ? & ? & _). congruence.
      * intros j [= <-] Hs'. destruct (ui_started_child _ Hw i Hs') as [g' Hg']. by destruct (Hfresh g').
      * intros text Ep. destruct (He text Ep) as (? & ? & _). congruence.
      * congruence.
      * congruence.
    + intros g1 g2 j H1 H2. destruct (Hch _ _ H1) as [[-> ->]|H1'], (Hch _ _ H2) as [[-> Ej]|H2']; try done.
      * by destruct (Hfresh g2).
      * subst j. by destruct (Hfresh g1).
      * eapply (ui_children _ Hw); eauto.
    + by left.
    + by left.
    + intros g' Hg. cbn. rewrite lookup_alter_None. by apply (ui_next_gates _ Hw).
  - intros r Hn _. destruct (decide (right_gate r = g)) as [Er|Hne]; [|apply frame_other; cbn; by rewrite lookup_alter_ne].
    destruct r as [g'|g'|g']; cbn in Er; subst g'; [| |]; cbn; rewrite ?lookup_alter_eq, ?Eg; try done. set_solver.
Qed.

Lemma exit_dead i status k : alive i (os_exit i status k) = false.
Proof.
  unfold os_exit. destruct (alive i k) eqn:Ha; [|done]. apply not_true_iff_false. rewrite alive_spec. cbn.
  intros (pr & E & _ & Hx). rewrite lookup_alter_eq in E. destruct (k_table k !! launch_os_pid i); [|done]. cbn in E. by simplify_eq.
Qed.

(** The child tells an error and exits, before it runs its program. *)
Lemma child_failed w g i gate text :
  unix_inv w -> u_gates w !! g = Some gate -> g_child gate = Some i -> g_pipe gate <> PipeClosed ->
  moves_with {[Running g]} w (on_gate g (set_g_pipe (PipeError text)) (set_kernel (os_exit i (WExited 1) (u_kernel w)) w)).
Proof.
  intros Hw E Ei Hp. assert (Hm : moves w (set_kernel (os_exit i (WExited 1) (u_kernel w)) w)) by (apply moves_set_kernel, exit_later; [done|apply Hw]).
  eapply moves_then; [exact Hm|]. destruct Hm as (Hw1 & _). apply (owner_gate_changes _ (Running g)); [done|]. cbn. intros gate' E' [Hr Hc Ho Hcl Hran He Hs Hf].
  assert (gate' = gate) as -> by congruence. split_and!; try done. split; cbn; try done.
  - intros j Ej Hj. by specialize (Hran j Ej Hj).
  - intros text' _. exists i. split; [done|]. apply exit_dead.
  - intros j Et Ej. destruct (Hs j Et Ej); [by left|done].
Qed.

(** The child runs its program. *)
Lemma program_runs w g i gate :
  unix_inv w -> u_gates w !! g = Some gate -> g_child gate = Some i -> g_go gate = true -> alive i (u_kernel w) = true ->
  i ∈ u_committed w -> moves_with {[Running g]} w (run_program g i w).1.
Proof.
  intros Hw E Ei Hgo Ha Hc. cbn [run_program fst]. set (w2 := on_gate g (set_g_pipe PipeClosed) (mark_started i w)).
  assert (Hgc : gate_child g i w) by by exists gate.
  assert (Hold : forall g' gate', u_gates w !! g' = Some gate' -> u_gates w2 !! g' = Some (if decide (g' = g) then set_g_pipe PipeClosed gate' else gate')).
  { intros g' gate' E'. cbn. case_decide as Hg; [subst g'; by rewrite lookup_alter_eq, E'|by rewrite lookup_alter_ne]. }
  assert (Hl : unix_later w w2).
  { split; cbn; try done; [|intros g' gate' E'; eexists; split; [by apply Hold|by case_decide]|intros k' d' E'; by exists d'].
    intros j Hj Hd [->%elem_of_singleton|Hs]%elem_of_union; [unfold dead in Hd; congruence|done]. }
  assert (Hch : forall g' j, gate_child g' j w2 -> gate_child g' j w).
  { intros g' j (gate' & E' & Ej). cbn in E'. apply lookup_alter_Some in E' as [(<- & gate0 & E' & ->)|[_ E']]; [by exists gate0|by exists gate']. }
  split_and!; [|done|].
  - split; cbn; try by apply Hw.
    + pose proof (ui_started _ Hw). set_solver.
    + intros j [->%elem_of_singleton|Hj]%elem_of_union; [exists g; by eapply gate_child_later|].
      destruct (ui_started_child _ Hw j Hj) as [g' Hg']. exists g'. by eapply gate_child_later.
    + intros j Hj. destruct (ui_committed _ Hw j Hj) as [g' Hg']. exists g'. by eapply launch_of_later.
    + assert (Hother : forall gate', u_gates w !! g = Some gate' -> gate' = gate) by (intros; congruence).
      intros g' gate'. rewrite lookup_alter_Some. intros [(-> & gate0 & E0 & ->)|[Hne E0]].
      * rewrite (Hother _ E0) in *. destruct (ui_gates _ Hw _ _ E) as [Hr Hc' Ho Hcl Hran He Hs Hf]. split; cbn; try done.
        -- intros j _ _. by right.
        -- intros e j Et Ej. destruct (Hf e j Et Ej) as [Hd _]. assert (j = i) as -> by congruence. unfold dead in Hd. congruence.
      * destruct (ui_gates _ Hw _ _ E0) as [Hr Hc' Ho Hcl Hran He Hs Hf].
        assert (Hj : forall j, g_child gate' = Some j -> j <> i).
        { intros j Ej ->. apply Hne. eapply (ui_children _ Hw _ _ i); [done|]. by exists gate'. }
        split; cbn; try done.
        -- intros j Ej [->%elem_of_singleton|Hin]%elem_of_union; [by destruct (Hj i Ej)|by eapply Hran].
        -- intros e j Et Ej. destruct (Hf e j Et Ej) as [Hd Hn]. split; [done|]. specialize (Hj j Ej). set_solver.
    + intros g1 g2 j H1 H2. eapply (ui_children _ Hw); eauto.
    + intros k d Ek. eapply watched_ok_later; [done|exact Hl|done|]. by eapply (ui_watched _ Hw).
    + intros a Hin. destruct (ui_attached _ Hw _ Hin) as [Hu Hok]. split; [done|]. by eapply attached_ok_later.
    + intros g' Hg. rewrite lookup_alter_None. by apply (ui_next_gates _ Hw).
  - intros r Hn _. destruct (decide (right_gate r = g)) as [Er|Hne]; [|apply frame_other; cbn; by rewrite lookup_alter_ne].
    destruct r as [g'|g'|g']; cbn in Er; subst g'; cbn; rewrite ?lookup_alter_eq, ?E; try done. set_solver.
Qed.
