(* ===== verification/KeptUnixSafe.v ===== *)
(** * KeptUnixSafe: what each program of the launcher does, among any others

    One specification per operation of [KeptUnix] in the logic of [Rights]: it keeps [unix_inv],
    moves along [unix_later], leaves the rights of others alone, panics never, and what it
    returns is true. *)

From stdpp Require Import base list gmap strings.
From S2P Require Import Prelude StdModel Values KeptDomain Ports Conc Rights KeptState KeptStore Display Unix KeptUnix KeptUnixInv.

Open Scope Z_scope.
Open Scope prog_scope.

(** The child of gate [g] is [i], and has not started its program; only it changes that. *)
Definition waiting (g : nat) (i : KeptLaunch) (w : UnixWorld) : Prop :=
  exists gate, u_gates w !! g = Some gate /\ g_child gate = Some i /\ g_pipe gate <> PipeClosed.

(** No child of gate [g] was forked yet. *)
Definition unforked (g : nat) (w : UnixWorld) : Prop :=
  exists gate, u_gates w !! g = Some gate /\ g_child gate = None /\ g_thread gate = None /\ g_pipe gate <> PipeClosed.

(** What a task has for itself when it starts. *)
Definition unix_task_pre (t : UnixTask) (G : gset right) (w : UnixWorld) : Prop :=
  match t with
  | RunChild g i => Running g ∈ G /\ waiting g i w
  | RunSpawner g _ => G = {[Spawning g; Running g]} /\ unforked g w
  | _ => True
  end.

(** A program that owns no right, or leaves its rights alone. *)
Definition uwp {A} (p : UProg A) (post : A -> UnixWorld -> Prop) (w : UnixWorld) : Prop :=
  plain unix_answer unix_inv unix_later allocated frame unix_task_pre p post w.

(** A program with the rights [G]. *)
Definition owns {A} (p : UProg A) (post : A -> gset right -> UnixWorld -> Prop) (G : gset right) (w : UnixWorld) : Prop :=
  rwp unix_answer unix_inv unix_later allocated frame unix_task_pre p post G w.

Abbreviation keeps := (Rights.keeps frame).
Abbreviation exist_at := (Rights.exist_at allocated).

(** The standing hypotheses of [Rights]. *)
Ltac standing := first [exact unix_later_preorder|exact frame_preorder|exact allocated_later|idtac].

(** ** Rules *)

Lemma uwp_ret {A} (a : A) (post : A -> UnixWorld -> Prop) w0 :
  (forall w, unix_later w0 w -> unix_inv w -> post a w) -> uwp (Ret a) post w0.
Proof. apply plain_ret; exact _. Qed.

Lemma uwp_bind {A B} (p : UProg A) (g : A -> UProg B) post w0 : uwp p (fun a w => uwp (g a) post w) w0 -> uwp (bind p g) post w0.
Proof. apply plain_bind; standing. Qed.

Lemma uwp_mono {A} (p : UProg A) (post1 post2 : A -> UnixWorld -> Prop) w0 :
  (forall a w, unix_later w0 w -> unix_inv w -> post1 a w -> post2 a w) -> uwp p post1 w0 -> uwp p post2 w0.
Proof. apply plain_mono; exact _. Qed.

(** In sequence, with what the first part gives; everything the rest needs is about later worlds. *)
Lemma uwp_seq {A B} (p : UProg A) (g : A -> UProg B) mid post w0 :
  uwp p mid w0 -> (forall a w, unix_later w0 w -> unix_inv w -> mid a w -> uwp (g a) post w) -> uwp (bind p g) post w0.
Proof. intros Hp Hg. apply uwp_bind. eapply uwp_mono; [exact Hg|exact Hp]. Qed.

Lemma uwp_later {A} (p : UProg A) post w0 w : unix_later w0 w -> uwp p post w0 -> uwp p post w.
Proof. apply plain_later. exact _. Qed.

Lemma uwp_start {A} (p : UProg A) post w0 : (forall w, unix_later w0 w -> unix_inv w -> uwp p post w) -> uwp p post w0.
Proof. apply plain_start; exact _. Qed.

Lemma uwp_act {X} (f : UnixWorld -> UnixWorld * X) (post : X -> UnixWorld -> Prop) w0 :
  (forall w, unix_later w0 w -> unix_inv w ->
     moves w (f w).1 /\ forall w', unix_later (f w).1 w' -> unix_inv w' -> post (f w).2 w') ->
  uwp (act f) post w0.
Proof.
  intros H. apply plain_act; standing. intros w Hl Hw. destruct (H w Hl Hw) as [Hm Hp].
  split; [done|]. by apply uwp_ret.
Qed.

Lemma uwp_modify (f : UnixWorld -> UnixWorld) (post : unit -> UnixWorld -> Prop) w0 :
  (forall w, unix_later w0 w -> unix_inv w -> moves w (f w) /\ forall w', unix_later (f w) w' -> unix_inv w' -> post tt w') ->
  uwp (modify f) post w0.
Proof. intros H. by apply uwp_act. Qed.

Lemma uwp_reads {X} (f : UnixWorld -> X) (post : X -> UnixWorld -> Prop) w0 :
  (forall w w', unix_later w0 w -> unix_inv w -> unix_later w w' -> unix_inv w' -> post (f w) w') -> uwp (reads f) post w0.
Proof. intros H. apply uwp_act. intros w Hl Hw. split; [by apply moves_refl|]. intros w'. by apply H. Qed.

Lemma uwp_asks {X} (q : UnixPort X) (post : X -> UnixWorld -> Prop) w0 :
  (forall w x, unix_later w0 w -> unix_inv w -> moves w (unix_answer X q x w) /\
     forall w', unix_later (unix_answer X q x w) w' -> unix_inv w' -> post x w') ->
  uwp (call q) post w0.
Proof.
  intros H. apply plain_call; standing. intros w x Hl Hw. destruct (H w x Hl Hw) as [Hm Hp].
  split; [done|]. by apply uwp_ret.
Qed.

(** A question whose answer leaves the world as it is. *)
Definition unnoticed {X} (q : UnixPort X) : Prop := forall x w, unix_answer X q x w = w.

Lemma uwp_call {X} (q : UnixPort X) (post : X -> UnixWorld -> Prop) w0 :
  unnoticed q -> (forall x w, unix_later w0 w -> unix_inv w -> post x w) -> uwp (call q) post w0.
Proof.
  intros Hq H. apply uwp_asks. intros w x Hl Hw. rewrite (Hq x w). split; [by apply moves_refl|].
  intros w' Hl' Hw'. apply H; [by etrans|done].
Qed.

Lemma uwp_wait {A X} (e : UEvent X) d (k : X -> UProg A) post w0 :
  (forall w, unix_later w0 w -> unix_inv w -> moves w (d w)) ->
  (forall w w' x, unix_later w0 w -> unix_inv w -> fires unix_answer e w w' x -> moves w w' /\ uwp (k x) post w') ->
  uwp (Wait e d k) post w0.
Proof. apply plain_wait; standing. Qed.

Lemma uwp_await {X} (f : UnixWorld -> option (UnixWorld * X)) (post : X -> UnixWorld -> Prop) w0 :
  (forall w w' x, unix_later w0 w -> unix_inv w -> f w = Some (w', x) ->
     moves w w' /\ forall w'', unix_later w' w'' -> unix_inv w'' -> post x w'') ->
  uwp (await f) post w0.
Proof.
  intros H. apply uwp_wait; [intros; by apply moves_refl|]. intros w w' x Hl Hw E. destruct (H w w' x Hl Hw E) as [Hm Hp].
  split; [done|]. by apply uwp_ret.
Qed.

Lemma uwp_ask {X} (q : UnixPort X) (post : X -> UnixWorld -> Prop) w0 :
  unnoticed q -> (forall x w, unix_later w0 w -> unix_inv w -> post x w) -> uwp (ask q) post w0.
Proof.
  intros Hq H. apply uwp_wait; [intros; by apply moves_refl|]. intros w w' x Hl Hw E. cbn in E. rewrite Hq in E. rewrite E.
  split; [by apply moves_refl|]. apply uwp_ret. intros w1 Hl' Hw'. apply H; [by etrans|done].
Qed.

Lemma uwp_fork t w0 : (forall w, unix_later w0 w -> unix_inv w -> unix_task_pre t ∅ w) -> uwp (fork t) (fun _ _ => True) w0.
Proof. intros H. apply plain_fork; standing. intros w Hl Hw. split; [by apply H|done]. Qed.

Lemma uwp_never {X} (post : X -> UnixWorld -> Prop) w0 : uwp (await (fun _ => None)) post w0.
Proof. by apply uwp_await. Qed.

(** The kernel changes, and the answer is as good as nothing. *)
Lemma uwp_kernel_act {X} (f : Kernel -> Kernel * X) w0 :
  (forall k, kernel_wf k -> kernel_wf (f k).1 /\ kernel_later k (f k).1) -> uwp (kernel_act f) (fun _ _ => True) w0.
Proof.
  intros Hf. apply uwp_act. intros w Hl Hw. destruct (f (u_kernel w)) as [k x] eqn:E. split; [|done]. cbn.
  pose proof (Hf (u_kernel w) (ui_kernel _ Hw)) as H. rewrite E in H. by apply moves_set_kernel.
Qed.

Lemma uwp_kernel_reads {X} (f : Kernel -> X) (post : X -> UnixWorld -> Prop) w0 :
  (forall w w', unix_later w0 w -> unix_inv w -> unix_later w w' -> unix_inv w' -> post (f (u_kernel w)) w') ->
  uwp (kernel_reads f) post w0.
Proof. apply uwp_reads. Qed.

Lemma uwp_proc_read {X} p (unread : X) (f : Kernel -> X) (post : X -> UnixWorld -> Prop) w0 :
  (forall w, unix_later w0 w -> unix_inv w -> post unread w) ->
  (forall w w', unix_later w0 w -> unix_inv w -> unix_later w w' -> unix_inv w' -> post (f (u_kernel w)) w') ->
  uwp (proc_read p unread f) post w0.
Proof.
  intros Hu Hf. eapply uwp_seq; [by apply (uwp_call _ (fun _ _ => True))|]. intros [] w Hl Hw _.
  - apply uwp_kernel_reads. intros w1 w2 H1. apply Hf. by etrans.
  - apply uwp_ret. intros w1 H1. apply Hu. by etrans.
Qed.

(** ** The calls *)

Section Calls.
Context (i : KeptLaunch).

Definition given (w : UnixWorld) : Prop := i ∈ k_used (u_kernel w).

Lemma given_later w w' : unix_later w w' -> given w -> given w'.
Proof. apply used_later. Qed.

Lemma dead_given w w' : unix_later w w' -> given w -> dead i w -> dead i w'.
Proof. apply dead_later. Qed.

(** What a start time says of the instance that may have the number. *)
Lemma uwp_start_time w0 :
  given w0 ->
  uwp (read_start_time (launch_os_pid i))
    (fun r w => forall t, r = Some t -> mkKeptLaunch (launch_os_pid i) t ∈ k_used (u_kernel w) /\ (t <> launch_start_token i -> dead i w)) w0.
Proof.
  intros Hi. apply uwp_proc_read; [done|]. intros w w' Hl Hw Hl' Hw' t E. split.
  - apply start_time_present in E as E'. rewrite present_spec in E'. destruct E' as (pr & Epr & Et). cbn in *.
    eapply used_later; [done|]. destruct (ui_kernel _ Hw _ _ Epr) as [Hu _]. unfold identity in Hu. by rewrite Et in Hu.
  - intros Hne. eapply dead_given; [done|by eapply given_later|]. by eapply absent_ended, start_time_absent.
Qed.

Lemma uwp_zombie w0 : given w0 -> uwp (is_zombie (launch_os_pid i)) (fun b w => b = true -> dead i w) w0.
Proof.
  intros Hi. apply uwp_proc_read; [done|]. intros w w' Hl Hw Hl' Hw' Hz. eapply dead_given; [done|by eapply given_later|].
  by apply zombie_ended.
Qed.

Lemma uwp_absent w0 : given w0 -> uwp (is_absent (launch_os_pid i)) (fun b w => b = true -> dead i w) w0.
Proof.
  intros Hi. apply uwp_kernel_reads. intros w w' Hl Hw Hl' Hw' Hz. eapply dead_given; [done|by eapply given_later|].
  by apply no_process_ended.
Qed.

(** A pidfd at the number of an instance names that instance, unless it is gone. *)
Lemma uwp_open_pidfd w0 :
  given w0 ->
  uwp (open_pidfd (launch_os_pid i)) (fun o w => forall j, o = Some j -> j ∈ k_used (u_kernel w) /\ (j = i \/ dead i w)) w0.
Proof.
  intros Hi. eapply uwp_seq; [by apply (uwp_call _ (fun _ _ => True))|]. intros [] w Hl Hw _; [|by apply uwp_ret].
  apply uwp_kernel_reads. intros w1 w2 H1 Hw1 H2 Hw2 j (pr & E & ->)%fmap_Some. split.
  - eapply used_later; [done|]. by apply (ui_kernel _ Hw1).
  - unfold identity. destruct (decide (up_token pr = launch_start_token i)) as [->|Hne]; [left; by destruct i|right].
    eapply dead_given; [done|do 2 (eapply given_later; [done|]); done|].
    eapply absent_ended, start_time_absent; [|exact Hne]. unfold start_time. by rewrite E.
Qed.
End Calls.

Lemma uwp_boot_id w0 :
  uwp boot_id (fun o w => match o with Some b => b = k_boot (u_kernel w) | None => u_unread w = true end) w0.
Proof.
  eapply (uwp_seq _ _ (fun b w => b = false -> u_unread w = true)).
  { apply uwp_asks. intros w [] Hl Hw; cbn; (split; [|intros w' Hl' _; try done; intros _; by apply (ul_unread _ _ Hl')]); [done|by apply moves_other]. }
  intros [] w Hl Hw Hb.
  - eapply uwp_seq; [apply (uwp_kernel_reads _ (fun b w => b = k_boot (u_kernel w)))|].
    + intros w1 w2 H1 Hw1 H2 Hw2. by rewrite (kl_boot _ _ (ul_kernel _ _ H2)).
    + intros b w1 H1 Hw1 ->. apply uwp_ret. intros w2 H2 Hw2. cbn. by rewrite (kl_boot _ _ (ul_kernel _ _ H2)).
  - apply uwp_ret. intros w1 H1 Hw1. apply (ul_unread _ _ H1). by apply Hb.
Qed.

(** A group that a signal did not find is done. *)
Lemma uwp_send_group g s w0 : uwp (send_group g s) (fun r w => r = Err ESRCH -> group_done g w) w0.
Proof.
  eapply uwp_seq; [by apply (uwp_call _ (fun _ _ => True))|]. intros refused w Hl Hw _.
  apply uwp_act. intros w1 H1 Hw1. pose proof (killpg_later _ g s refused (ui_kernel _ Hw1)) as Hk.
  destruct (killpg g s refused (u_kernel w1)) as [k r] eqn:E. cbn [fst] in Hk.
  pose proof (moves_set_kernel _ _ Hw1 Hk) as Hmk. pose proof Hmk as [Hwk _].
  assert (r = Err ESRCH -> in_group g k = []) as Hr.
  { unfold killpg in E. destruct (in_group g (u_kernel w1)) as [|m ms] eqn:Eg; [injection E as <- <-; done|].
    destruct refused; injection E as <- <-; done. }
  destruct r as [u|[|text]]; cbn; try done.
  pose proof (moves_seen _ g ∅ Hwk) as Hms. pose proof Hms as [Hws _]. split; [by eapply moves_trans|]. intros w' Hl' Hw' _.
  eapply group_done_later; [exact Hws|done|]. exists []. split; [|by intros m ?%elem_of_nil].
  cbn. unfold alive_members. rewrite (Hr eq_refl). set_solver.
Qed.

Lemma uwp_send_process p s w0 : uwp (send_process p s) (fun _ _ => True) w0.
Proof.
  eapply uwp_seq; [by apply (uwp_call _ (fun _ _ => True))|]. intros refused w Hl Hw _.
  apply uwp_kernel_act. intros. by apply kill_process_later.
Qed.

Lemma uwp_send_pidfd i s w0 : uwp (send_pidfd i s) (fun _ _ => True) w0.
Proof.
  eapply uwp_seq; [by apply (uwp_call _ (fun _ _ => True))|]. intros refused w Hl Hw _.
  apply uwp_kernel_act. intros. by apply kill_pidfd_later.
Qed.

(** The numbers that a look at a group shows: everybody who ran in it, or was skipped. *)
Definition shows (g : Z) (shown : list Z) (w : UnixWorld) : Prop :=
  exists members, (g, members) ∈ u_seen w /\
    forall m, m ∈ members -> launch_os_pid m ∈ shown \/ m ∈ u_skipped w.

Lemma shows_later g shown w w' : unix_later w w' -> shows g shown w -> shows g shown w'.
Proof.
  intros Hl (members & Hs & Hm). exists members. split; [by apply (ul_seen _ _ Hl)|]. intros m Hin.
  destruct (Hm m Hin); [by left|right; by apply (ul_skipped _ _ Hl)].
Qed.

Lemma uwp_group_members g w0 : uwp (group_members g) (fun o w => forall shown, o = Some shown -> shows g shown w) w0.
Proof.
  eapply uwp_seq; [by apply (uwp_call _ (fun _ _ => True))|]. intros [hidden|] w Hl Hw _; [|by apply uwp_ret].
  apply uwp_act. intros w1 H1 Hw1. cbn [fst snd]. split; [by apply moves_seen|].
  intros w2 H2 Hw2 shown [= <-]. eapply shows_later; [done|].
  exists (alive_members g (u_kernel w1)). split; [cbn; set_solver|]. intros m Hm.
  destruct (decide (launch_os_pid m ∈ hidden)) as [Hh|Hh].
  - right. cbn. apply elem_of_union_l, elem_of_list_to_set, list_elem_of_filter. done.
  - left. apply list_elem_of_filter. split; [done|]. unfold alive_members in Hm.
    apply list_elem_of_fmap in Hm as ([p pr] & -> & Hin). apply list_elem_of_filter in Hin as [_ Hin].
    cbn. unfold group_numbers. apply list_elem_of_fmap. by exists (p, pr).
Qed.

Lemma uwp_all_zombies shown w0 :
  uwp (all_zombies shown) (fun b w => b = true -> forall m, m ∈ k_used (u_kernel w0) -> launch_os_pid m ∈ shown -> dead m w) w0.
Proof.
  revert w0. induction shown as [|p shown IH]; intros w0; cbn [all_zombies]; [apply uwp_ret; set_solver|].
  eapply uwp_seq.
  { apply (uwp_proc_read _ _ _ (fun b w => b = true -> forall m, m ∈ k_used (u_kernel w0) -> launch_os_pid m = p -> dead m w)); [done|].
    intros w w' Hl Hw Hl' Hw' Hz m Hm <-. eapply dead_later; [done|by eapply used_later|]. by apply zombie_ended. }
  intros [] w Hl Hw Hp; [|by apply uwp_ret]. eapply uwp_mono; [|apply IH]. intros b w1 H1 Hw1 Hb Eb m Hm [Hin|Hin]%elem_of_cons.
  - eapply dead_later; [done|by eapply used_later|]. by apply Hp.
  - apply Hb; [done|by eapply used_later|done].
Qed.

(** A look that shows zombies only: the group is done. *)
Lemma uwp_seen_zombies g shown w0 : unix_inv w0 -> shows g shown w0 -> uwp (all_zombies shown) (fun b w => b = true -> group_done g w) w0.
Proof.
  intros Hw0 (members & Hs & Hm). eapply uwp_mono; [|apply uwp_all_zombies]. intros b w Hl Hw Hb Eb.
  exists members. split; [by apply (ul_seen _ _ Hl)|]. intros m Hin. destruct (Hm m Hin) as [Hp|Hk].
  - left. apply Hb; [done|by eapply (ui_seen _ Hw0)|done].
  - right. by apply (ul_skipped _ _ Hl).
Qed.

Lemma uwp_reap p w0 : uwp (reap p) (fun e _ => kexit_stragglers e = false) w0.
Proof.
  eapply uwp_seq; [apply (uwp_await _ (fun _ _ => True))|].
  - intros w w' x Hl Hw E. destruct (waitpid p (u_kernel w)) as [[k r]|] eqn:Ek; [|done]. injection E as <- <-. split; [|done].
    apply moves_set_kernel; [done|]. by eapply waitpid_later; [apply Hw|].
  - intros [[]|[]] w Hl Hw _; by apply uwp_ret.
Qed.

(** A round of the sweep after its kill: it looks, and goes on with [rest] unless the time is over. *)
Lemma uwp_sweep_look g deadline (rest : UProg bool) w0 :
  (forall w, unix_inv w -> uwp rest (fun b w => b = true -> group_done g w) w) ->
  uwp (let! members := group_members g in
       let! empty := (match members with Some members => all_zombies members | None => Ret false end) in
       if empty : bool then Ret true else let! now := call UnixNow in if deadline <=? now then Ret false else rest)
    (fun b w => b = true -> group_done g w) w0.
Proof.
  intros Hr. eapply uwp_seq; [apply uwp_group_members|]. intros members w1 H1 Hw1 Hm.
  eapply (uwp_seq _ _ (fun b w => b = true -> group_done g w)).
  { destruct members as [members|]; [by apply uwp_seen_zombies; auto|by apply uwp_ret]. }
  intros [] w2 H2 Hw2 Hb; [apply uwp_ret; intros w3 H3 Hw3 _; eapply group_done_later; [exact Hw2|done|by apply Hb]|].
  eapply uwp_seq; [by apply (uwp_call _ (fun _ _ => True))|]. intros now w3 H3 Hw3 _.
  destruct (deadline <=? now); [by apply uwp_ret|]. by apply Hr.
Qed.

Lemma uwp_empties fuel g deadline w0 : uwp (empties_loop fuel g deadline) (fun b w => b = true -> group_done g w) w0.
Proof.
  revert w0. induction fuel as [|fuel IH]; intros w0; cbn [empties_loop];
    (eapply uwp_seq; [apply uwp_send_group|]); intros sent w Hl Hw Hs;
    destruct sent as [u|[|text]];
    try (apply uwp_ret; intros w1 H1 Hw1 _; eapply group_done_later; [exact Hw|done|by apply Hs]);
    apply uwp_sweep_look; intros w1 Hw1; try apply uwp_never;
    (eapply uwp_seq; [by apply (uwp_ask _ (fun _ _ => True))|]); intros [] w2 H2 Hw2 _; apply IH.
Qed.

Lemma uwp_group_empties rounds g w0 : uwp (group_empties rounds g) (fun b w => b = true -> group_done g w) w0.
Proof. eapply uwp_seq; [by apply (uwp_call _ (fun _ _ => True))|]. intros now w Hl Hw _. apply uwp_empties. Qed.

(** ** Watched processes *)

(** [d] is what a program has read of the entry [k]; the instance is given out. *)
Record knows (k : nat) (d : Watched) (w : UnixWorld) : Prop := {
  kn_entry : exists d', u_watched w !! k = Some d' /\ same_watched d d';
  kn_given : given (watched_instance d) w;
  kn_pidfd : forall i, wd_pidfd d = Some i -> given i w /\ (i = watched_instance d \/ dead (watched_instance d) w);
}.

Lemma knows_later k d w w' : unix_later w w' -> knows k d w -> knows k d w'.
Proof.
  intros Hl [(d' & E & Hs) Hg Hp]. split.
  - destruct (ul_watched _ _ Hl _ _ E) as (d'' & E' & Hs'). exists d''. split; [done|by etrans].
  - by eapply given_later.
  - intros i Ei. destruct (Hp i Ei) as [Hi [->|Hd]]; (split; [by eapply given_later|]); [by left|right; by eapply dead_later].
Qed.

Lemma knows_lookup k d w : unix_inv w -> u_watched w !! k = Some d -> knows k d w.
Proof. intros Hw E. destruct (ui_watched _ Hw _ _ E) as [Hu Hp _ _ _]. split; [by exists d|done|done]. Qed.

(** What may be published of an entry. *)
Definition ended_ok (k : nat) (d : Watched) (w : UnixWorld) : Prop := k ∈ u_abandoned w \/ dead (watched_instance d) w.
Definition exit_ok (k : nat) (d : Watched) (e : KeptExit) (w : UnixWorld) : Prop :=
  k ∈ u_abandoned w \/ (dead (watched_instance d) w /\ (kexit_stragglers e = false -> group_done (wd_os_pid d) w)).

Lemma ended_ok_later k d w w' : unix_later w w' -> knows k d w -> ended_ok k d w -> ended_ok k d w'.
Proof. intros Hl Hk [Ha|Hd]; [left; by apply (ul_abandoned _ _ Hl)|right; eapply dead_later; [done|apply Hk|done]]. Qed.

Lemma exit_ok_later k d e w w' : unix_inv w -> unix_later w w' -> knows k d w -> exit_ok k d e w -> exit_ok k d e w'.
Proof.
  intros Hw Hl Hk [Ha|[Hd Hg]]; [left; by apply (ul_abandoned _ _ Hl)|right]. split; [eapply dead_later; [done|apply Hk|done]|].
  intros Hs. eapply group_done_later; eauto.
Qed.

Section Entry.
Context (k : nat) (d : Watched).

Lemma same_os_pid d1 d2 : same_watched d1 d2 -> wd_os_pid d2 = wd_os_pid d1.
Proof. intros [Hi _]. unfold watched_instance in Hi. congruence. Qed.

Lemma uwp_lock_ended w0 :
  knows k d w0 -> uwp (await (lock_ended k)) (fun o w => o <> None -> ended_ok k d w) w0.
Proof.
  intros Hk. apply uwp_await. intros w w' o Hl Hw E. pose proof (knows_later _ _ _ _ Hl Hk) as Hk1. unfold lock_ended in E.
  destruct (u_watched w !! k) as [d1|] eqn:Ed; [|done]. cbn in E. destruct (wd_locked d1); [done|]. injection E as <- <-.
  assert (Hm : moves w (on_watched k (set_wd_locked true) w)) by by apply moves_watched_plain. split; [done|].
  intros w2 H2 Hw2 Hn. destruct (kn_entry _ _ _ Hk1) as (d' & E' & Hs). rewrite Ed in E'. injection E' as <-.
  destruct Hm as (_ & Hm & _). assert (unix_later w w2) as Hl2 by by etrans.
  eapply ended_ok_later; [exact Hl2|done|]. unfold ended_ok. rewrite <- (proj1 Hs). by apply (wo_ended _ _ _ (ui_watched _ Hw _ _ Ed)).
Qed.

Lemma uwp_unlock_ended (P : UnixWorld -> Prop) w0 :
  (forall w, unix_later w0 w -> unix_inv w -> P w) -> uwp (unlock_ended k) (fun _ w => P w) w0.
Proof.
  intros HP. apply uwp_modify. intros w Hl Hw.
  assert (Hm : moves w (on_watched k (set_wd_locked false) w)) by by apply moves_watched_plain. split; [done|].
  intros w' Hl' Hw'. apply HP; [|done]. destruct Hm as (_ & Hm & _). by do 2 (etrans; [eassumption|]).
Qed.

Lemma uwp_forget w0 : uwp (forget_watched k) (fun _ _ => True) w0.
Proof.
  apply uwp_modify. intros w Hl Hw. split; [|done]. destruct (u_watched w !! k) as [d1|]; [|by apply moves_refl].
  case_decide; [|by apply moves_refl]. apply moves_other; try done. cbn. by intros p k' [_ E]%lookup_delete_Some.
Qed.

Lemma exit_ok_same d1 e w : same_watched d d1 -> exit_ok k d e w -> exit_ok k d1 e w.
Proof. intros Hs. unfold exit_ok. by rewrite (proj1 Hs), (same_os_pid _ _ Hs). Qed.

Lemma knows_entry d1 w : knows k d w -> u_watched w !! k = Some d1 -> same_watched d d1.
Proof. intros [(d' & E & Hs) _ _] E1. congruence. Qed.

Lemma uwp_publish e w0 : unix_inv w0 -> knows k d w0 -> exit_ok k d e w0 -> uwp (watched_publish k e) (fun _ _ => True) w0.
Proof.
  intros Hw0 Hk He. apply (uwp_seq _ _ (fun _ _ => True)); [|intros; apply uwp_forget].
  apply uwp_modify. intros w Hl Hw. split; [|done].
  apply moves_watched; [done|done|]. intros d1 E [Hu Hp Hab Hen Hx]. split; cbn; [done..|]. intros e' [= <-].
  apply (exit_ok_same d1); [eapply knows_entry; [by eapply knows_later|done]|]. exact (exit_ok_later _ _ _ _ _ Hw0 Hl Hk He).
Qed.

Lemma uwp_set_ended e w0 : unix_inv w0 -> knows k d w0 -> ended_ok k d w0 ->
  uwp (modify (on_watched k (set_ended e))) (fun _ _ => True) w0.
Proof.
  intros Hw0 Hk He. apply uwp_modify. intros w Hl Hw. split; [|done].
  apply moves_watched; [done|done|]. intros d1 E [Hu Hp Hab Hen Hx]. split; cbn; [done..| |done]. intros _.
  change (ended_ok k d1 w). unfold ended_ok. rewrite (proj1 (knows_entry _ _ (knows_later _ _ _ _ Hl Hk) E)).
  exact (ended_ok_later _ _ _ _ Hl Hk He).
Qed.

Lemma uwp_abandon w0 :
  unix_inv w0 -> knows k d w0 -> launch_failed (wd_os_pid d) w0 -> uwp (abandon k) (fun _ _ => True) w0.
Proof.
  intros Hw0 Hk Hf. eapply uwp_seq; [by apply uwp_lock_ended|]. intros o w Hl Hw _.
  apply (uwp_seq _ _ (fun _ w => k ∈ u_abandoned w)).
  { apply uwp_modify. intros w1 H1 Hw1. assert (unix_later w0 w1) as H01 by by etrans.
    assert (launch_failed (wd_os_pid d) w1) as Hf1 by (exact (launch_failed_later _ _ _ Hw0 H01 Hf)).
    pose proof (knows_later _ _ _ _ H01 Hk) as Hk1. destruct (kn_entry _ _ _ Hk1) as (d1 & E1 & Hs).
    assert (Ha : moves w1 (mark_abandoned k w1)).
    { apply (moves_abandon _ _ d1); [done|done|]. by rewrite (same_os_pid _ _ Hs). }
    split.
    - eapply moves_trans; [exact Ha|]. apply (moves_watched (mark_abandoned k w1)); [apply Ha|done|].
      intros d2 E [Hu Hp Hab Hen Hx]. split; cbn; [done..| |done]. intros _. left. cbn. set_solver.
    - intros w' Hl' _. apply (ul_abandoned _ _ Hl'). cbn. set_solver. }
  intros [] w1 H1 Hw1 Ha. apply (uwp_seq _ _ (fun _ w => k ∈ u_abandoned w)).
  { apply uwp_unlock_ended. intros w2 H2 _. by apply (ul_abandoned _ _ H2). }
  intros [] w2 H2 Hw2 Ha2. apply uwp_publish; [done| |by left]. eapply knows_later; [|exact Hk]. by do 2 (etrans; [eassumption|]).
Qed.

Lemma uwp_watch polls w0 : uwp (watch polls k) (fun _ _ => True) w0.
Proof.
  apply (uwp_seq _ _ (fun _ _ => True)); [by apply uwp_reads|]. intros [] w Hl Hw _; [by apply uwp_ret|].
  apply (uwp_seq _ _ (fun _ _ => True)); [by apply uwp_reads|]. intros [] w1 H1 Hw1 _; [by apply uwp_ret|].
  apply (uwp_seq _ _ (fun _ _ => True)).
  { apply uwp_act. intros w2 H2 Hw2. split; [|done]. by apply moves_watched_plain. }
  intros [] w2 H2 Hw2 _; [by apply uwp_ret|by apply uwp_fork].
Qed.

Lemma uwp_gone w0 : given (watched_instance d) w0 -> uwp (gone d) (fun b w => b = true -> dead (watched_instance d) w) w0.
Proof.
  intros Hg. eapply uwp_seq; [by apply (uwp_start_time (watched_instance d))|]. intros [t|] w Hl Hw Ht; cbn in Ht.
  - destruct (Ht t eq_refl) as [_ Hne]. destruct (Z.eqb_spec t (wd_start_token d)) as [->|Hn].
    + apply (uwp_zombie (watched_instance d)). by eapply given_later.
    + apply uwp_ret. intros w' Hl' _ _. eapply dead_later; [done|by eapply given_later|]. by apply Hne.
  - eapply uwp_seq; [apply (uwp_absent (watched_instance d)); by eapply given_later|]. intros [] w1 H1 Hw1 Ha.
    + apply uwp_ret. intros w2 H2 _ _. eapply dead_later; [done|eapply given_later; [|done]; by etrans|by apply Ha].
    + apply (uwp_zombie (watched_instance d)). eapply given_later; [|done]. by etrans.
Qed.

Lemma uwp_poll_gone polls w0 : given (watched_instance d) w0 -> uwp (poll_gone polls d) (fun _ w => dead (watched_instance d) w) w0.
Proof.
  revert w0. induction polls as [|polls IH]; intros w0 Hg; cbn [poll_gone];
    (eapply uwp_seq; [by apply uwp_gone|]); intros [] w Hl Hw Hd.
  1,3: apply uwp_ret; intros w' Hl' _; eapply dead_later; [done|by eapply given_later|by apply Hd].
  - apply uwp_never.
  - apply (uwp_seq _ _ (fun _ _ => True)); [by apply uwp_ask|]. intros [] w1 H1 Hw1 _. apply IH. eapply given_later; [|done]. by etrans.
Qed.

Lemma uwp_wait_for_exit polls w0 : knows k d w0 -> uwp (wait_for_exit polls d) (fun _ w => dead (watched_instance d) w) w0.
Proof.
  intros Hk. unfold wait_for_exit. destruct (wd_pidfd d) as [i|] eqn:Ei; [|apply uwp_poll_gone, Hk].
  apply (uwp_seq _ _ (fun _ _ => True)); [by apply uwp_call|]. intros [] w Hl Hw _;
    [|apply uwp_poll_gone; eapply given_later; [done|apply Hk]].
  apply (uwp_seq _ _ (fun r w => match r with inl _ => dead (watched_instance d) w | inr _ => True end)).
  - apply uwp_wait; [intros; by apply moves_refl|]. intros w1 w2 [[]|[]] H1 Hw1 E; cbn in E.
    + destruct (alive i (u_kernel w1)) eqn:Ea; [done|]. injection E as <-. split; [by apply moves_refl|]. apply uwp_ret. intros w3 H3 Hw3.
      destruct (kn_pidfd _ _ _ (knows_later _ _ _ _ Hl Hk) i Ei) as [Hi [->|Hd]].
      * eapply dead_later; [done|eapply given_later; done|done].
      * apply (dead_later _ w); [by etrans|eapply given_later; [exact Hl|apply Hk]|done].
    + subst w2. split; [by apply moves_refl|by apply uwp_ret].
  - intros [[]|[]] w1 H1 Hw1 Hd.
    + apply uwp_ret. intros w2 H2 _. eapply dead_later; [done|eapply given_later; [|apply Hk]; by etrans|done].
    + apply uwp_poll_gone. eapply given_later; [|apply Hk]. by etrans.
Qed.
End Entry.

Section Finish.
Context (k : nat) (d : Watched).

Lemma uwp_is_pinned w0 : given (watched_instance d) w0 -> uwp (is_pinned d) (fun _ _ => True) w0.
Proof.
  intros Hg. unfold is_pinned. destruct (wd_owner d); [by apply uwp_ret|].
  eapply uwp_seq; [by apply (uwp_start_time (watched_instance d))|]. intros t w Hl Hw _. case_bool_decide; [|by apply uwp_ret].
  eapply uwp_mono; [|apply (uwp_zombie (watched_instance d)); by eapply given_later]. done.
Qed.

Lemma uwp_watched_reap w0 : uwp (watched_reap d) (fun e _ => kexit_stragglers e = false) w0.
Proof. unfold watched_reap. destruct (wd_owner d); [apply uwp_reap|by apply uwp_ret]. Qed.

Lemma uwp_stragglers rounds pinned w0 :
  given (watched_instance d) w0 -> uwp (stragglers_of rounds d pinned) (fun b w => b = false -> group_done (wd_os_pid d) w) w0.
Proof.
  assert (Hempties : forall w, uwp (let! empty := group_empties rounds (wd_os_pid d) in Ret (negb empty))
    (fun b w => b = false -> group_done (wd_os_pid d) w) w).
  { intros w. eapply uwp_seq; [apply uwp_group_empties|]. intros b w1 H1 Hw1 Hb. apply uwp_ret. intros w2 H2 Hw2 E.
    eapply group_done_later; [exact Hw1|done|]. apply Hb. by destruct b. }
  intros Hg. unfold stragglers_of. destruct pinned; [apply Hempties|].
  eapply uwp_seq; [by apply (uwp_absent (watched_instance d))|]. intros [] w Hl Hw _; cbn [negb]; [|by apply uwp_ret].
  eapply uwp_seq; [apply uwp_group_members|]. intros [shown|] w1 H1 Hw1 Hs; [|by apply uwp_ret].
  eapply uwp_seq; [by apply uwp_seen_zombies; auto|]. intros [] w2 H2 Hw2 Hz; [|apply Hempties].
  apply uwp_ret. intros w3 H3 Hw3 _. eapply group_done_later; [exact Hw2|done|by apply Hz].
Qed.

Lemma uwp_finish rounds w0 : knows k d w0 -> dead (watched_instance d) w0 -> uwp (finish rounds k d) (fun _ _ => True) w0.
Proof.
  intros Hk Hd.
  assert (Hkd : forall w, unix_later w0 w -> knows k d w /\ dead (watched_instance d) w).
  { intros w Hl. split; [by eapply knows_later|]. eapply dead_later; [done|apply Hk|done]. }
  eapply uwp_seq; [by apply (uwp_lock_ended k d)|]. intros [exit|] w Hl Hw _.
  { apply (uwp_seq _ _ (fun _ _ => True)); [by apply uwp_unlock_ended|]. intros [] w1 H1 Hw1 _.
    destruct (Hkd w1) as [Hk1 Hd1]; [by etrans|]. apply (uwp_publish k d); [done..|]. right. done. }
  destruct (Hkd w Hl) as [Hk1 Hd1]. eapply uwp_seq; [apply uwp_is_pinned, Hk1|]. intros pinned w1 H1 Hw1 _.
  apply (uwp_seq _ _ (fun _ _ => True)).
  { destruct pinned; [|by apply uwp_ret]. eapply uwp_seq; [apply uwp_send_group|]. intros; by apply uwp_ret. }
  intros [] w2 H2 Hw2 _. eapply uwp_seq; [apply uwp_watched_reap|]. intros exit w3 H3 Hw3 Hs.
  destruct (Hkd w3) as [Hk3 Hd3]; [by do 3 (etrans; [eassumption|])|].
  eapply uwp_seq; [apply (uwp_set_ended k d); [done..|by right]|]. intros [] w4 H4 Hw4 _.
  apply (uwp_seq _ _ (fun _ _ => True)); [by apply uwp_unlock_ended|]. intros [] w5 H5 Hw5 _.
  assert (Hl5 : unix_later w0 w5) by (do 5 (etrans; [eassumption|]); done). destruct (Hkd w5 Hl5) as [Hk5 Hd5].
  eapply uwp_seq; [apply uwp_stragglers, Hk5|]. intros b w6 H6 Hw6 Hb.
  destruct (Hkd w6) as [Hk6 Hd6]; [by etrans|]. apply (uwp_publish k d); [done..|]. right. split; [done|]. cbn. exact Hb.
Qed.
End Finish.

Lemma uwp_watcher polls k w0 : uwp (watcher polls k) (fun _ _ => True) w0.
Proof.
  apply plain_guarded; standing; [|done|].
  - intros w Hw. unfold rearm. destruct (has_exited k w); [by apply moves_refl|]. by apply moves_watched_plain.
  - apply (uwp_seq _ _ (fun o w => forall d, o = Some d -> knows k d w)).
    + apply uwp_reads. intros w w' Hl Hw Hl' Hw' d E. eapply knows_later; [done|]. by apply knows_lookup.
    + intros [d|] w Hl Hw Hd; [|by apply uwp_ret]. specialize (Hd d eq_refl).
      eapply uwp_seq; [by apply (uwp_wait_for_exit k d)|]. intros [] w1 H1 Hw1 Hdead. apply uwp_finish; [by eapply knows_later|done].
Qed.

(** ** Programs with rights *)

Lemma owns_bind {A B} (p : UProg A) (g : A -> UProg B) post G w0 :
  owns p (fun a G' w => owns (g a) post G' w) G w0 -> owns (bind p g) post G w0.
Proof. apply rwp_bind; exact _. Qed.

(** First something that leaves the rights alone. *)
Lemma owns_seq {A B} (p : UProg A) (g : A -> UProg B) mid post G w0 :
  exist_at G w0 -> uwp p mid w0 ->
  (forall a w, unix_later w0 w -> unix_inv w -> keeps G w0 w -> exist_at G w -> mid a w -> owns (g a) post G w) ->
  owns (bind p g) post G w0.
Proof.
  intros He Hp Hg. eapply rwp_plain; standing; [exact He|exact Hp|]. intros a w Hl Hw Hk Hm. apply Hg; try done.
  by eapply exist_later; standing.
Qed.

Lemma owns_plain {A} (p : UProg A) G w0 : exist_at G w0 -> uwp p (fun _ _ => True) w0 -> owns p (fun _ _ _ => True) G w0.
Proof. intros He Hp. by eapply rwp_of_plain; standing. Qed.

Lemma uwp_owns {A} (p : UProg A) w0 : (forall w, unix_later w0 w -> unix_inv w -> owns p (fun _ _ _ => True) ∅ w) ->
  owns p (fun _ _ _ => True) ∅ w0.
Proof. intros Hp. apply rwp_start; standing. intros w Hl Hw _. by apply Hp. Qed.

(** ** Launching *)

Section Launch.
Context (here_group : Z).

(** What the owner of a right knows of its gate stays so. *)
Lemma waiting_later g i w w' G : unix_later w w' -> keeps G w w' -> Running g ∈ G -> waiting g i w -> waiting g i w'.
Proof.
  intros Hl Hk Hin (gate & E & Ei & Hp). destruct (ul_gates _ _ Hl _ _ E) as (gate' & E' & Hc & _). exists gate'.
  split_and!; [done|by apply Hc|]. specialize (Hk _ Hin). cbn in Hk. rewrite E, E' in Hk. cbn in Hk. congruence.
Qed.

Lemma unforked_later g w w' G :
  unix_later w w' -> keeps G w w' -> Spawning g ∈ G -> Running g ∈ G -> unforked g w -> unforked g w'.
Proof.
  intros Hl Hk Hs Hr (gate & E & Ec & Et & Hp). destruct (ul_gates _ _ Hl _ _ E) as (gate' & E' & _). exists gate'.
  pose proof (Hk _ Hs) as Hk1. pose proof (Hk _ Hr) as Hk2. cbn in Hk1, Hk2. rewrite E, E' in Hk1, Hk2. cbn in Hk1, Hk2.
  split_and!; congruence.
Qed.

Lemma waiting_child g i w : waiting g i w -> gate_child g i w.
Proof. intros (gate & E & Ei & _). by exists gate. Qed.

(** *** The child *)

Section Child.
Context (g : nat) (i : KeptLaunch) (G : gset right) (HG : Running g ∈ G).

Lemma owns_child_fails text w0 : waiting g i w0 -> owns (child_fails g i text) (fun _ _ _ => True) G w0.
Proof.
  intros Hwt. apply rwp_await; standing. intros w w' x Hl Hw Hk E. destruct (alive i (u_kernel w)); [|done]. injection E as <- <-.
  split; [|done]. destruct (waiting_later _ _ _ _ _ Hl Hk HG Hwt) as (gate & Eg & Ei & Hp).
  eapply moves_owned; [|by eapply child_failed]. set_solver.
Qed.

(** A call of the child that leaves the rights alone. *)
Lemma owns_child_try {X} (f : UnixWorld -> UnixWorld * X) (k : X -> UProg unit) w0 :
  exist_at G w0 -> waiting g i w0 ->
  (forall w, unix_later w0 w -> unix_inv w -> waiting g i w -> moves w (f w).1) ->
  (forall x w, unix_later w0 w -> unix_inv w -> exist_at G w -> waiting g i w -> owns (k x) (fun _ _ _ => True) G w) ->
  owns (child_try g i f k) (fun _ _ _ => True) G w0.
Proof.
  intros He Hwt Hf Hk. eapply owns_seq; [done|by apply (uwp_call _ (fun _ _ => True))|]. intros [text|] w Hl Hw K He' _.
  - apply owns_child_fails. by eapply waiting_later.
  - assert (waiting g i w) as Hwt1 by by eapply waiting_later. apply owns_bind. apply rwp_await; standing. intros w1 w2 x H1 Hw1 K1 E.
    destruct (alive i (u_kernel w1)); [|done]. injection E as E.
    assert (waiting g i w1) as Hwt2 by by eapply waiting_later.
    pose proof (Hf w1 ltac:(by etrans) Hw1 Hwt2) as Hm. rewrite E in Hm. cbn in Hm. split; [by apply moves_all_with|].
    intros w3 H3 Hw3 K3. destruct Hm as (Hw2 & H2 & F2). apply Hk; [by do 3 (etrans; [eassumption|])|done| |].
    + eapply exist_later; [exact allocated_later| |exact He']. by do 2 (etrans; [eassumption|]).
    + eapply waiting_later; [done|done|done|]. eapply waiting_later; [done| |done|done]. intros r Hr. apply F2.
      eapply allocated_later; [exact H1|]. by apply He'.
Qed.

(** The program starts only when the byte was [GO], and then the record is committed. *)
Lemma owns_child w0 : exist_at G w0 -> waiting g i w0 -> owns (child g i) (fun _ _ _ => True) G w0.
Proof.
  intros He Hwt. apply owns_child_try; [done|done| |].
  { intros w Hl Hw _. apply moves_set_kernel; [done|]. apply found_later, Hw. }
  intros [] w Hl Hw He1 Hwt1. apply owns_child_try; [done|done| |].
  { intros w1 H1 Hw1 (gate & E & Ei & _). apply moves_gate; [done|]. intros gate' E' [Hr Hc Ho Hcl Hran Her Hs Hf].
    assert (gate' = gate) as -> by congruence. split_and!; try done. split; cbn; try done. intros p [= <-]. eauto. }
  intros [] w1 H1 Hw1 He2 Hwt2. eapply owns_seq; [done|by apply (uwp_call _ (fun _ _ => True))|].
  intros [text|] w2 H2 Hw2 K2 He3 _; [apply owns_child_fails; by eapply waiting_later|].
  assert (waiting g i w2) as Hwt3 by by eapply waiting_later.
  eapply (owns_seq _ _ (fun b w => b = Some GO -> (exists gate, u_gates w !! g = Some gate /\ g_go gate = true) /\ (i ∈ u_committed w \/ dead i w)));
    [done| |].
  { apply uwp_await. intros w3 w4 b H3 Hw3 E. unfold gate_read in E. destruct (alive i (u_kernel w3)); [|done].
    destruct (u_gates w3 !! g) as [gate|] eqn:Eg; [|done]. cbn in E.
    destruct (gate_child_later _ _ _ _ H3 (waiting_child _ _ _ Hwt3)) as (gate' & E' & Ei). assert (gate' = gate) as -> by congruence.
    destruct (g_inbox gate) as [|x rest] eqn:Ein.
    - destruct (_ || _); [done|]. injection E as <- <-. split; [by apply moves_refl|done].
    - injection E as <- <-.
      assert (Hm : moves w3 (on_gate g (set_g_inbox rest) w3)).
      { apply moves_gate; [done|]. intros gate1 E1 [Hr Hc Ho Hcl Hran Her Hs Hf]. assert (gate1 = gate) as -> by congruence.
        split_and!; try done. split; cbn; try done. intros HGO. apply Ho. rewrite Ein. by right. }
      split; [done|]. intros w5 H5 Hw5 [= ->]. pose proof (ui_gates _ Hw3 _ _ Eg) as Hgate.
      destruct (go_open _ _ Hgate) as (Hgo & j & Ej & Hj); [rewrite Ein; by left|]. assert (j = i) as -> by congruence.
      assert (unix_later w3 w5) as H35 by (destruct Hm as (_ & Hm & _); by etrans). split.
      + destruct (ul_gates _ _ H35 _ _ Eg) as (gate5 & E5 & _ & Hgo5 & _). exists gate5. auto.
      + destruct Hj as [Hj|Hj]; [left; by apply (ul_committed _ _ H35)|right; eapply dead_later; [done|by apply (go_child _ _ Hgate)|done]]. }
  intros b w3 H3 Hw3 K3 He4 Hb. assert (waiting g i w3) as Hwt4 by by eapply waiting_later.
  case_bool_decide as Eb; [|by apply owns_child_fails]. destruct (Hb Eb) as [(gate3 & Eg3 & Hgo) Hc]. clear Hb.
  eapply owns_seq; [done|by apply (uwp_call _ (fun _ _ => True))|].
  intros [text|] w4 H4 Hw4 K4 He5 _; [apply owns_child_fails; by eapply waiting_later|].
  assert (waiting g i w4) as Hwt5 by by eapply waiting_later. apply owns_bind. apply rwp_await; standing.
  intros w5 w6 x H5 Hw5 K5 E. destruct (alive i (u_kernel w5)) eqn:Ha; [|done].
  assert (unix_later w3 w5) as H35 by by etrans.
  destruct (ul_gates _ _ H35 _ _ Eg3) as (gate & Eg & _ & Hgo5 & _).
  destruct (waiting_later _ _ _ _ _ H5 K5 HG Hwt5) as (gate' & Eg' & Ei & _). assert (gate' = gate) as -> by congruence.
  assert (i ∈ u_committed w5) as Hi.
  { destruct Hc as [Hc|Hc]; [by apply (ul_committed _ _ H35)|]. exfalso.
    pose proof (dead_later i _ _ H35 (gate_child_used _ _ _ Hw3 (waiting_child _ _ _ Hwt4)) Hc) as Hd. unfold dead in Hd. congruence. }
  injection E as E <-. split; [|done]. subst w6. eapply moves_owned; [|eapply (program_runs w5 g i gate); auto]. set_solver.
Qed.
End Child.

(** *** [Command::spawn], on a thread of its own *)

(** What the thread may return: the child was let go or is gone; or it is gone and never ran, or
    was never made. *)
Definition spawn_result (g : nat) (r : result unit string) (w : UnixWorld) : Prop :=
  forall gate i, u_gates w !! g = Some gate -> g_child gate = Some i ->
  match r with Ok _ => dead i w \/ g_pipe gate = PipeClosed | Err _ => dead i w /\ i ∉ u_started w end.

Lemma spawn_result_later g i r w w' :
  unix_inv w -> unix_later w w' -> gate_child g i w -> spawn_result g r w -> spawn_result g r w'.
Proof.
  intros Hw Hl (gate & E & Ei) Hr gate' j E' Ej. destruct (ul_gates _ _ Hl _ _ E) as (gate1 & E1 & Hc & _ & Hp).
  assert (gate1 = gate') as -> by congruence. assert (j = i) as -> by (rewrite (Hc i Ei) in Ej; congruence).
  pose proof (go_child _ _ (ui_gates _ Hw _ _ E) _ Ei) as Hu. specialize (Hr gate i E Ei). destruct r as [u|e].
  - destruct Hr as [Hd|Hp']; [left; by eapply dead_later|right; auto].
  - destruct Hr as [Hd Hn]. split; [by eapply dead_later|by eapply never_started_later].
Qed.

Section Spawner.
Context (g : nat).
Let G : gset right := {[Spawning g; Running g]}.

Lemma spawner_splits : G = {[Running g]} ∪ {[Spawning g]} /\ ({[Running g]} : gset right) ## {[Spawning g]}.
Proof. split; unfold G; set_solver. Qed.

(** The end of the pipe says what became of the child. *)
Lemma uwp_pipe_end i w0 :
  unix_inv w0 -> gate_child g i w0 ->
  uwp (await (pipe_end g i)) (fun failed w => spawn_result g (match failed with None => Ok tt | Some text => Err text end) w) w0.
Proof.
  intros Hw0 Hg. apply uwp_await. intros w w' failed Hl Hw E. pose proof (gate_child_later _ _ _ _ Hl Hg) as Hg1.
  unfold pipe_end in E. destruct Hg1 as (gate & Eg & Ei). rewrite Eg in E. cbn in E.
  assert (Hr : w' = w /\ match failed with None => dead i w \/ g_pipe gate = PipeClosed | Some _ => dead i w /\ i ∉ u_started w end).
  { pose proof (ui_gates _ Hw _ _ Eg) as Hok. destruct (g_pipe gate) eqn:Ep.
    - destruct (alive i (u_kernel w)) eqn:Ha; [done|]. injection E as <- <-. split; [done|]. by left.
    - injection E as <- <-. split; [done|]. destruct (go_error _ _ Hok _ Ep) as (j & Ej & Hd).
      assert (j = i) as -> by congruence. split; [done|]. intros Hs. pose proof (go_ran _ _ Hok _ Ei Hs). congruence.
    - injection E as <- <-. split; [done|]. by right. }
  destruct Hr as [-> Hr0]. assert (Hr : spawn_result g (match failed with None => Ok tt | Some text => Err text end) w).
  { intros gate' j E' Ej. assert (gate' = gate) as -> by congruence. assert (j = i) as -> by congruence. by destruct failed. }
  split; [by apply moves_refl|]. intros w1 H1 Hw1.
  eapply spawn_result_later; [exact Hw|done| |done]. by exists gate.
Qed.

(** The thread closes its end of the socket and ends, with a result that is true (and stays so while
    it alone may fork). *)
Lemma owns_thread_ends spawned G' w0 :
  unix_inv w0 -> exist_at G' w0 -> Spawning g ∈ G' -> ((exists i, gate_child g i w0) \/ unforked g w0) -> spawn_result g spawned w0 ->
  owns (modify (on_gate g close_child_end) ;;; modify (on_gate g (set_g_thread spawned))) (fun _ _ _ => True) G' w0.
Proof.
  intros Hw0 He Hin Hc Hr. eapply owns_seq; [done|apply (uwp_modify _ (fun _ _ => True)); intros w Hl Hw; split; [|done]|].
  { apply moves_gate_plain; [done|]. intros ?; cbn; auto 10. }
  intros [] w Hl Hw K He' _. apply rwp_act; standing. intros w1 H1 Hw1 K1. split; [|done].
  eapply moves_owned; [|apply thread_ends; [done|]]; [set_solver|]. assert (unix_later w0 w1) as H01 by by etrans.
  assert (keeps G' w0 w1) as K01 by (intros r Hr'; etrans; [by apply K|by apply K1]).
  destruct Hc as [[i Hi]|(gate & E & Ec & _)]; [exact (spawn_result_later _ _ _ _ _ Hw0 H01 Hi Hr)|].
  intros gate' j E' Ej. pose proof (K01 _ Hin) as Hk. cbn in Hk. rewrite E, E' in Hk. cbn in Hk. congruence.
Qed.

Lemma spawn_result_unforked r w : unforked g w -> spawn_result g r w.
Proof. intros (gate & E & Ec & _) gate' i E' Ei. congruence. Qed.

(** The fork and what follows, up to the result. *)
Lemma owns_spawner command w0 : unix_inv w0 -> exist_at G w0 -> unforked g w0 -> owns (spawner here_group g command) (fun _ _ _ => True) G w0.
Proof.
  destruct spawner_splits as [EG Hdisj].
  assert (Hsp : Spawning g ∈ G) by (unfold G; set_solver). assert (Hru : Running g ∈ G) by (unfold G; set_solver).
  assert (Hend : forall r w, unix_inv w -> exist_at G w -> unforked g w ->
    owns (modify (on_gate g close_child_end) ;;; modify (on_gate g (set_g_thread r))) (fun _ _ _ => True) G w).
  { intros r w Hw He Hu. apply owns_thread_ends; [done..|by right|by apply spawn_result_unforked]. }
  intros Hw0 He Hun. unfold spawner. apply owns_bind. unfold command_spawn.
  eapply owns_seq; [done|by apply (uwp_call _ (fun _ _ => True))|]. intros [text|] w Hl Hw K He1 _;
    assert (unforked g w) as Hun1 by (eapply unforked_later; eauto); [|].
  { intros w1 H1 Hw1 K1. apply Hend; [done|by eapply exist_later; standing|by eapply unforked_later]. }
  eapply owns_seq; [done|by apply (uwp_call _ (fun _ _ => True))|]. intros i w1 H1 Hw1 K1 He2 _.
  assert (unforked g w1) as Hun2 by (eapply unforked_later; eauto). apply owns_bind. apply rwp_act; standing. intros w2 H2 Hw2 K2.
  assert (unforked g w2) as (gate & Eg & Ec & Et & Hp) by (eapply unforked_later; eauto). unfold fork_child. rewrite Eg.
  assert (exist_at G w2) as He3 by (by eapply exist_later; standing).
  destruct (os_fork i Here here_group (u_kernel w2)) as [k|] eqn:Ef.
  2:{ split; [apply moves_all_with, moves_refl; done|]. cbn [fst snd]. intros w3 H3 Hw3 K3 w4 H4 Hw4 K4.
    apply Hend; [done|eapply exist_later; [exact allocated_later| |exact He3]; by etrans|].
    eapply unforked_later; [exact H4|exact K4|done|done|]. eapply unforked_later; [exact H3|exact K3|done|done|]. by exists gate. }
  rewrite Ec. cbn [fst snd]. split; [eapply moves_owned; [|by eapply child_forked]; set_solver|].
  set (w3 := on_gate g (set_g_child i) (set_kernel k w2)). intros w4 H4 Hw4 K4.
  assert (Hwt : waiting g i w3). { exists (set_g_child i gate). split_and!; [|done|done]. cbn. by rewrite lookup_alter_eq, Eg. }
  assert (Hwt4 : waiting g i w4) by (eapply waiting_later; eauto).
  assert (He4 : exist_at G w4).
  { eapply exist_later; [exact allocated_later|exact H4|]. intros r Hr. apply He3 in Hr. done. }
  apply owns_bind. rewrite EG. apply rwp_fork; standing; [done|]. rewrite <- EG. intros w5 H5 Hw5 K5. split.
  { split; [set_solver|]. eapply waiting_later; eauto. }
  assert (Hgc : gate_child g i w5) by (eapply gate_child_later; [exact H5|by apply waiting_child]).
  assert (He5 : exist_at {[Spawning g]} w5).
  { eapply exist_later; [exact allocated_later|exact H5|]. intros r Hr. apply He4. unfold G. set_solver. }
  intros w6 H6 Hw6 K6. assert (He6 : exist_at {[Spawning g]} w6) by (by eapply exist_later; standing).
  assert (Hgc6 : gate_child g i w6) by (by eapply gate_child_later).
  assert (Hfin : forall r w, unix_later w6 w -> unix_inv w -> exist_at {[Spawning g]} w -> spawn_result g r w ->
    owns (Ret r) (fun a G' w => owns (modify (on_gate g close_child_end) ;;; modify (on_gate g (set_g_thread a))) (fun _ _ _ => True) G' w) {[Spawning g]} w).
  { intros r w7 H7 Hw7 He7 Hr w8 H8 Hw8 K8. assert (gate_child g i w7) as Hgc7 by (by eapply gate_child_later). apply owns_thread_ends; [done| |set_solver| |].
    - by eapply exist_later; standing.
    - left. exists i. by eapply gate_child_later.
    - exact (spawn_result_later _ _ _ _ _ Hw7 H8 Hgc7 Hr). }
  eapply owns_seq; [done|by apply uwp_pipe_end|]. intros [text|] w7 H7 Hw7 K7 He7 Hr; [|by apply Hfin].
  eapply owns_seq; [done|apply uwp_reap|]. intros e w8 H8 Hw8 K8 He8 _. apply Hfin; [by etrans|done|done|].
  eapply spawn_result_later; [exact Hw7|done| |done]. eapply gate_child_later; [|exact Hgc6]. done.
Qed.
End Spawner.

(** *** [gated_spawn] *)

Lemma uwp_gate_plain g f w0 : gate_plain f -> uwp (modify (on_gate g f)) (fun _ _ => True) w0.
Proof. intros Hf. apply uwp_modify. intros w Hl Hw. split; [|done]. by apply moves_gate_plain. Qed.

Lemma close_owner_plain : gate_plain close_owner_end.
Proof. intros gate; cbn; auto 10. Qed.

Lemma close_child_plain : gate_plain close_child_end.
Proof. intros gate; cbn; auto 10. Qed.

#[local] Hint Resolve uwp_gate_plain close_owner_plain close_child_plain : core.

Lemma uwp_gate_returns {X} g (r : X) w0 : uwp (gate_returns g r) (fun _ _ => True) w0.
Proof.
  apply (uwp_seq _ _ (fun _ _ => True)); [auto|]. intros [] w1 H1 Hw1 _.
  apply (uwp_seq _ _ (fun _ _ => True)); [|intros; by apply uwp_ret].
  apply uwp_modify. intros w Hl Hw. split; [|done]. by apply moves_other.
Qed.

(** [join] gives a result that is true, once there is a child. *)
Lemma uwp_join g i w0 : gate_child g i w0 -> uwp (join_spawner g) (fun r w => spawn_result g r w) w0.
Proof.
  intros Hc. apply uwp_await. intros w w' r Hl Hw E. destruct (u_gates w !! g) as [gate|] eqn:Eg; [|done]. cbn in E.
  destruct (g_thread gate) as [r'|] eqn:Et; [|done]. injection E as <- <-. split; [by apply moves_refl|]. intros w1 H1 _.
  apply (spawn_result_later _ i _ w); [done|done|by eapply gate_child_later|]. pose proof (ui_gates _ Hw _ _ Eg) as Hok.
  intros gate' j E' Ej. assert (gate' = gate) as -> by congruence. destruct r' as [[]|e].
  - by apply (go_spawned _ _ Hok).
  - by apply (go_failed _ _ Hok e).
Qed.

Lemma uwp_join_any g w0 : uwp (join_spawner g) (fun _ _ => True) w0.
Proof.
  apply uwp_await. intros w w' r Hl Hw E. destruct (u_gates w !! g) as [gate|]; [|done]. cbn in E.
  destruct (g_thread gate); [|done]. injection E as <- <-. split; [by apply moves_refl|done].
Qed.

Lemma uwp_gate_abort g w0 : uwp (gate_abort g) (fun _ _ => True) w0.
Proof.
  apply (uwp_seq _ _ (fun _ _ => True)); [|intros; auto]. apply uwp_asks. intros w [u|text] Hl Hw; (split; [|done]); [|by apply moves_refl].
  change (unix_answer _ (GateSend g ABORT) (Ok u) w) with (on_gate g (add_byte ABORT) w). by apply moves_gate_plain, add_byte_plain.
Qed.

(** [GO] was not sent; only the launch can change that. *)
Definition silent (g : nat) (w : UnixWorld) : Prop := exists gate, u_gates w !! g = Some gate /\ g_go gate = false.

Lemma silent_later g w w' G : unix_later w w' -> keeps G w w' -> Sending g ∈ G -> silent g w -> silent g w'.
Proof.
  intros Hl Hk Hin (gate & E & Hs). destruct (ul_gates _ _ Hl _ _ E) as (gate' & E' & _). exists gate'. split; [done|].
  specialize (Hk _ Hin). cbn in Hk. rewrite E, E' in Hk. cbn in Hk. congruence.
Qed.

(** The spawning thread is done and [GO] was not sent, or the thread says that the spawn failed. *)
Lemma failed_silent g l r w : unix_inv w -> launch_of g l w -> silent g w -> spawn_result g r w -> launch_failed (launch_os_pid l) w.
Proof.
  intros Hw (j & (gate & E & Ej) & Hp & _) (gate' & E' & Hs) Hr. assert (gate' = gate) as -> by congruence.
  pose proof (ui_gates _ Hw _ _ E) as Hok.
  assert (g_pipe gate <> PipeClosed) as Hn by (intros Hc; pose proof (go_closed _ _ Hok Hc); congruence).
  exists g, j. split_and!; [by exists gate|done| |].
  - specialize (Hr gate j E Ej). destruct r; [by destruct Hr|apply Hr].
  - intros Hst. by apply Hn, (go_ran _ _ Hok j).
Qed.

Lemma failed_error g l e w : launch_of g l w -> spawn_result g (Err e) w -> launch_failed (launch_os_pid l) w.
Proof. intros (j & (gate & E & Ej) & Hp & _) Hr. destruct (Hr gate j E Ej). exists g, j. split_and!; [by exists gate|done..]. Qed.

Section Gated.
Context (g : nat).
Abbreviation G := ({[Sending g]} : gset right).

Lemma sending_in : Sending g ∈ G.
Proof. set_solver. Qed.
#[local] Hint Resolve sending_in : core.

Lemma owns_returns {X} (r : X) w0 : exist_at G w0 -> owns (gate_returns g r) (fun _ _ _ => True) G w0.
Proof. intros He. eapply owns_plain; [done|apply uwp_gate_returns]. Qed.

(** The launch fails: its entry is given up. *)
Lemma owns_gives_up {X} (r : X) k d l w0 :
  unix_inv w0 -> exist_at G w0 -> knows k d w0 -> wd_os_pid d = launch_os_pid l -> launch_failed (launch_os_pid l) w0 ->
  owns (abandon k ;;; gate_returns g r) (fun _ _ _ => True) G w0.
Proof.
  intros Hw He Hk Ed Hf. eapply owns_seq; [done|apply (uwp_abandon k d); [done|done|by rewrite Ed]|].
  intros [] w Hl Hw' K He' _. by apply owns_returns.
Qed.

Lemma owns_open_gate rounds l k d w0 :
  unix_inv w0 -> exist_at G w0 -> launch_of g l w0 -> l ∈ u_committed w0 -> knows k d w0 -> wd_os_pid d = launch_os_pid l ->
  silent g w0 -> owns (open_gate rounds g l k) (fun _ _ _ => True) G w0.
Proof.
  intros Hw0 He Hof Hc Hk Ed Hs. apply owns_bind. apply rwp_call; standing. intros w opened Hl Hw K.
  assert (launch_of g l w) as Hof1 by (eapply launch_of_later; [| |eassumption]; eassumption).
  assert (Hgo : exists i, gate_child g i w /\ (i ∈ u_committed w \/ dead i w)).
  { destruct Hof1 as (i & Hg & _ & Hi). exists i. split; [done|]. destruct Hi as [->|Hd]; [left; by apply (ul_committed _ _ Hl)|by right]. }
  assert (Hs1 : silent g w) by (by eapply silent_later).
  set (w1 := unix_answer _ (GateSend g GO) opened w).
  assert (Hm : moves_with G w w1 /\ match opened with Ok _ => True | Err _ => silent g w1 end).
  { destruct opened as [u|e]; [split; [by apply go_sent|done]|]. split; [apply moves_all_with, moves_refl; done|done]. }
  destruct Hm as [Hm Hs2]. split; [done|]. destruct Hm as (Hw1 & H1 & _). intros w2 H2 Hw2 K2.
  assert (unix_later w w2) as H02 by by etrans. assert (unix_later w0 w2) as H002 by by etrans.
  assert (exist_at G w2) as He2 by (by eapply exist_later; standing).
  assert (launch_of g l w2) as Hof2 by (eapply launch_of_later; [| |eassumption]; eassumption). destruct (id Hof2) as (i & Hg & _).
  eapply owns_seq; [done|by apply (uwp_join _ i)|]. intros spawned w3 H3 Hw3 K3 He3 Hr.
  assert (Hs3 : match opened with Ok _ => True | Err _ => silent g w3 end).
  { destruct opened; [done|]. eapply silent_later; [exact H3|exact K3|done|]. eapply silent_later; [exact H2|exact K2|done|done]. }
  assert (launch_of g l w3) as Hof3 by (eapply launch_of_later; [| |eassumption]; eassumption).
  assert (Hf : match opened, spawned with Ok _, Ok _ => True | _, _ => launch_failed (launch_os_pid l) w3 end).
  { destruct opened as [u|e], spawned as [u'|e']; [done|by eapply failed_error|by eapply failed_silent|by eapply failed_silent]. }
  eapply owns_seq; [done|auto|]. intros [] w4 H4 Hw4 K4 He4 _.
  assert (unix_later w0 w4) as H04 by (by do 2 (etrans; [eassumption|])).
  assert (knows k d w4) as Hk4 by (by eapply knows_later).
  assert (Hfail : forall e, launch_failed (launch_os_pid l) w3 ->
    owns (abandon k ;;; gate_returns (X := result (KeptLaunch * nat) KeptError) g (Err e)) (fun _ _ _ => True) G w4).
  { intros e Hf'. eapply owns_gives_up; [done|done|done|done|]. eapply launch_failed_later; [exact Hw3|done|done]. }
  destruct opened as [u|e], spawned as [v|e']; cbv beta iota zeta; try by apply Hfail.
  eapply owns_plain; [done|].
  apply (uwp_seq _ _ (fun _ _ => True)); [by apply uwp_call|]. intros exe w5 H5 Hw5 _.
  apply (uwp_seq _ _ (fun _ _ => True)); [apply uwp_modify; intros; split; [by apply moves_watched_plain|done]|]. intros [] w6 H6 Hw6 _.
  apply (uwp_seq _ _ (fun _ _ => True)); [apply uwp_modify; intros; split; [by apply moves_watched_plain|done]|]. intros [] w7 H7 Hw7 _.
  apply (uwp_seq _ _ (fun _ _ => True)); [apply uwp_watch|]. intros. apply uwp_gate_returns.
Qed.

(** A new entry of an instance that is given out. *)
Lemma uwp_register d w0 :
  given (watched_instance d) w0 -> wd_ended d = None -> wd_exit d = None ->
  (forall i, wd_pidfd d = Some i -> given i w0 /\ (i = watched_instance d \/ dead (watched_instance d) w0)) ->
  uwp (act (register d)) (fun k w => knows k d w) w0.
Proof.
  intros Hg He Hx Hp. apply uwp_act. intros w Hl Hw.
  destruct (moves_register w d Hw) as [Hm E]; [by eapply given_later|done|done| |].
  { intros i Ei. destruct (Hp i Ei) as [Hi [->|Hd]]; (split; [by eapply given_later|]); [by left|right; by eapply dead_later]. }
  split; [done|]. intros w' Hl' Hw'. eapply knows_later; [done|]. apply knows_lookup; [apply Hm|done].
Qed.

Lemma owns_commit_and_open rounds os_pid token w0 :
  unix_inv w0 -> exist_at G w0 -> given (mkKeptLaunch os_pid token) w0 -> launch_of g (mkKeptLaunch os_pid token) w0 -> silent g w0 ->
  owns (commit_and_open rounds g os_pid token) (fun _ _ _ => True) G w0.
Proof.
  intros Hw0 He Hg Hof Hs. eapply owns_seq; [done|exact (uwp_open_pidfd (mkKeptLaunch os_pid token) w0 Hg)|].
  intros pidfd w Hl Hw K He1 Hp.
  eapply owns_seq; [done|apply uwp_register; [by eapply given_later|done|done|exact Hp]|]. intros k w1 H1 Hw1 K1 He2 Hk.
  set (launch := mkKeptLaunch os_pid token) in *. set (d := set_launching true _) in Hk.
  assert (launch_of g launch w1) as Hof1 by (eapply launch_of_later; [exact Hw0|by etrans|done]).
  assert (silent g w1) as Hs1 by (eapply silent_later; [exact H1|done|done|]; by eapply silent_later).
  eapply (owns_seq _ _ (fun r w => match r with Ok _ => launch ∈ u_committed w | Err _ => True end)); [done| |].
  { apply uwp_asks. intros w2 [u|e] H2 Hw2; [|split; [by apply moves_refl|done]].
    change (unix_answer _ (Commit launch) (Ok u) w2) with (mark_committed launch w2). split.
    - apply (moves_commit _ g); [done|]. eapply launch_of_later; [| |eassumption]; eassumption.
    - intros w3 H3 _. apply (ul_committed _ _ H3). cbn. set_solver. }
  intros r w2 H2 Hw2 K2 He3 Hc. assert (launch_of g launch w2) as Hof2 by (eapply launch_of_later; [| |eassumption]; eassumption).
  assert (silent g w2) as Hs2 by (by eapply silent_later). assert (knows k d w2) as Hk2 by (by eapply knows_later).
  destruct r as [u|e]; [by eapply owns_open_gate|].
  eapply owns_seq; [done|apply uwp_gate_abort|]. intros [] w3 H3 Hw3 K3 He4 _.
  assert (launch_of g launch w3) as Hof3 by (eapply launch_of_later; [| |eassumption]; eassumption). destruct (id Hof3) as (i & Hgi & _).
  eapply owns_seq; [done|by apply (uwp_join _ i)|]. intros r w4 H4 Hw4 K4 He5 Hr.
  eapply (owns_gives_up _ k d launch); [done|done| |done|].
  - eapply knows_later; [|exact Hk2]. by etrans.
  - eapply failed_silent; [done|exact (launch_of_later _ _ _ _ Hw3 H4 Hof3)| |exact Hr]. eapply silent_later; [exact H4|exact K4|done|].
    eapply silent_later; [exact H3|exact K3|done|done].
Qed.

Lemma uwp_read_report w0 :
  uwp (await (read_report g)) (fun o w => forall p, o = Some p -> exists i, gate_child g i w /\ launch_os_pid i = p) w0.
Proof.
  apply uwp_await. intros w w' o Hl Hw E. unfold read_report in E. destruct (u_gates w !! g) as [gate|] eqn:Eg; [|done]. cbn in E.
  destruct (g_report gate) as [p|] eqn:Er.
  - injection E as <- <-. assert (Hm : moves w (on_gate g (set_g_report None) w)) by (apply moves_gate_plain; [done|]; intros ?; cbn; auto 10).
    split; [done|]. intros w'' Hl' _ p' [= <-]. destruct (go_report _ _ (ui_gates _ Hw _ _ Eg) _ Er) as (i & Ei & Ep).
    exists i. split; [|done]. apply (gate_child_later _ _ w); [destruct Hm as (_ & Hm & _); by etrans|]. by exists gate.
  - destruct (_ || _); [done|]. injection E as <- <-. split; [by apply moves_refl|done].
Qed.

(** The child is told to give up, and the launch fails before anything is registered. *)
Lemma uwp_gives_up {X} (r : result unit string -> X) w0 :
  uwp (gate_abort g ;;; let! spawned := join_spawner g in gate_returns g (r spawned)) (fun _ _ => True) w0.
Proof.
  eapply uwp_seq; [apply uwp_gate_abort|]. intros [] w Hl Hw _. eapply uwp_seq; [apply uwp_join_any|].
  intros spawned w1 H1 Hw1 _. apply uwp_gate_returns.
Qed.

Lemma owns_gated_child rounds command w0 :
  unix_inv w0 -> exist_at ({[Spawning g; Running g]} ∪ G) w0 -> unforked g w0 -> silent g w0 ->
  owns (gated_child rounds g command) (fun _ _ _ => True) ({[Spawning g; Running g]} ∪ G) w0.
Proof.
  intros Hw0 He Hun Hs. set (G3 := {[Spawning g; Running g]} ∪ G) in *.
  assert (Spawning g ∈ G3 /\ Running g ∈ G3 /\ Sending g ∈ G3) as (Hi1 & Hi2 & Hi3) by (unfold G3; set_solver).
  eapply owns_seq; [done|by apply (uwp_call _ (fun _ _ => True))|]. intros [text|] w Hl Hw K He1 _.
  { eapply owns_plain; [done|]. apply (uwp_seq _ _ (fun _ _ => True)); [auto|]. intros. apply uwp_gate_returns. }
  assert (unforked g w) as Hun1 by (by eapply unforked_later). assert (silent g w) as Hs1 by (by eapply silent_later).
  apply owns_bind. apply rwp_fork; standing; [set_solver|]. intros w1 H1 Hw1 K1. split; [split; [done|by eapply unforked_later]|].
  assert (Hs2 : silent g w1) by (by eapply silent_later).
  assert (He2 : exist_at G w1). { eapply exist_later; [exact allocated_later|exact H1|]. intros r Hr. apply He1. unfold G3. set_solver. }
  intros w2 H2 Hw2 K2. assert (exist_at G w2) as He3 by (by eapply exist_later; standing).
  eapply owns_seq; [done|by apply (uwp_call _ (fun _ _ => True))|]. intros fails w3 H3 Hw3 K3 He4 _.
  eapply (owns_seq _ _ (fun r w => match r with Ok p => exists i, gate_child g i w /\ launch_os_pid i = p | Err _ => True end)); [done| |].
  { destruct fails as [text|]; [by apply uwp_ret|]. eapply uwp_seq; [apply uwp_read_report|]. intros [p|] w4 H4 Hw4 Hp; apply uwp_ret; [|done].
    intros w5 H5 _. destruct (Hp p eq_refl) as (i & Hi & Ei). exists i. split; [by eapply gate_child_later|done]. }
  intros [p|e] w4 H4 Hw4 K4 He5 Hp; [|eapply owns_plain; [done|apply uwp_gives_up]].
  destruct Hp as (i & Hg & <-). eapply owns_seq; [done|exact (uwp_start_time i w4 (gate_child_used _ _ _ Hw4 Hg))|].
  intros [token|] w5 H5 Hw5 K5 He6 Ht; [|eapply owns_plain; [done|exact (uwp_gives_up (fun _ => _) _)]].
  destruct (Ht token eq_refl) as [Hu Hne]. apply owns_commit_and_open; [done|done|done| |].
  - exists i. split_and!; [by eapply gate_child_later|done|].
    destruct (decide (token = launch_start_token i)) as [->|Hn]; [left; by destruct i|right; by apply Hne].
  - assert (unix_later w1 w5 /\ keeps G w1 w5) as [H15 K15].
    { split; [by do 3 (etrans; [eassumption|])|]. intros r Hr. do 3 (etrans; [by (apply K2 || apply K3 || apply K4)|]). by apply K5. }
    by eapply silent_later.
Qed.
End Gated.

Lemma uwp_sys_try {A X} context (f : UnixWorld -> UnixWorld * X) failed (k : X -> UProg A) w0 :
  (forall w, unix_inv w -> moves w (f w).1) ->
  (forall e w, unix_inv w -> uwp (failed e) (fun _ _ => True) w) -> (forall x w, unix_inv w -> uwp (k x) (fun _ _ => True) w) ->
  uwp (sys_try context f failed k) (fun _ _ => True) w0.
Proof.
  intros Hf He Hk. eapply uwp_seq; [by apply (uwp_call _ (fun _ _ => True))|]. intros [text|] w Hl Hw _; [by apply He|].
  apply (uwp_seq _ _ (fun _ _ => True)); [apply uwp_act; intros; split; [by apply Hf|done]|]. intros. by apply Hk.
Qed.

Lemma uwp_open_log log w0 : uwp (open_log log) (fun _ _ => True) w0.
Proof.
  unfold open_log. destruct log as [path|]; [|by apply uwp_ret].
  apply uwp_sys_try; [apply moves_refl|intros; by apply uwp_ret|intros [] w Hw].
  apply uwp_sys_try; [apply moves_refl|intros; by apply uwp_ret|intros; by apply uwp_ret].
Qed.

(** A new gate, with its rights. *)
Definition new_rights (w : UnixWorld) : gset right := {[Spawning (u_next w); Running (u_next w)]} ∪ {[Sending (u_next w)]}.

Lemma new_gate_facts w w' :
  unix_later (new_gate w).1 w' -> keeps (∅ ∪ new_rights w) (new_gate w).1 w' ->
  unforked (u_next w) w' /\ silent (u_next w) w' /\ exist_at (new_rights w) w'.
Proof.
  intros Hl Hk. rewrite union_empty_l_L in Hk.
  assert (E : u_gates (new_gate w).1 !! u_next w = Some gate_new) by (cbn; by rewrite lookup_insert_eq).
  split_and!.
  - eapply unforked_later; [exact Hl|exact Hk|unfold new_rights; set_solver..|]. by exists gate_new.
  - eapply silent_later; [exact Hl|exact Hk|unfold new_rights; set_solver|]. by exists gate_new.
  - eapply exist_later; [exact allocated_later|exact Hl|]. intros r Hr. unfold allocated. cbn.
    unfold new_rights in Hr. assert (right_gate r = u_next w) as ->; [|lia].
    apply elem_of_union in Hr as [[Hr|Hr]%elem_of_union|Hr]; apply elem_of_singleton in Hr as ->; done.
Qed.

Lemma owns_gated_spawn rounds spec log w0 : owns (gated_spawn rounds spec log) (fun _ _ _ => True) ∅ w0.
Proof.
  apply (owns_seq _ _ (fun _ _ => True)); [by intros r ?%elem_of_empty| |].
  { apply uwp_await. intros w w' x Hl Hw E. unfold lock_gate in E. destruct (u_gate_locked w); [done|]. injection E as <- _.
    split; [|done]. by apply moves_other. }
  intros [] w Hl Hw _ He _. eapply owns_seq; [done|by apply (uwp_call _ (fun _ _ => True))|]. intros [text|] w1 H1 Hw1 _ He1 _.
  { eapply owns_plain; [done|]. apply (uwp_seq _ _ (fun _ _ => True)); [|intros; by apply uwp_ret].
    apply uwp_modify. intros w2 H2 Hw2. split; [by apply moves_other|done]. }
  apply owns_bind. apply (rwp_new _ _ _ _ _ _ _ _ new_rights); standing. intros w2 H2 Hw2 _. split_and!.
  - by apply moves_all_with, moves_new_gate.
  - intros r Hr. unfold allocated. cbn. assert (right_gate r = u_next w2) as ->; [|lia]. unfold new_rights in Hr.
    apply elem_of_union in Hr as [[Hr|Hr]%elem_of_union|Hr]; apply elem_of_singleton in Hr as ->; done.
  - cbn [snd new_gate]. intros w3 H3 Hw3 K3. destruct (new_gate_facts _ _ H3 K3) as (Hun & Hs & He3). rewrite union_empty_l_L in *.
    assert (Spawning (u_next w2) ∈ new_rights w2 /\ Running (u_next w2) ∈ new_rights w2 /\ Sending (u_next w2) ∈ new_rights w2)
      as (Hi1 & Hi2 & Hi3) by (unfold new_rights; set_solver).
    eapply owns_seq; [done|apply uwp_open_log|]. intros [u|e] w4 H4 Hw4 K4 He4 _.
    + apply owns_gated_child; [done|done|by eapply unforked_later|by eapply silent_later].
    + eapply owns_plain; [done|]. apply (uwp_seq _ _ (fun _ _ => True)); [auto|]. intros. apply uwp_gate_returns.
Qed.
End Launch.

(** ** [attach] *)

Section Attach.
(** [there], [known]: what held when the call began. *)
Context (rounds : nat) (r : KeptRecord) (there : bool) (known : option nat).

Definition record_given (w : UnixWorld) : Prop := given (record_instance r) w.
Definition call_of (x : result (option nat) KeptError) : Attached := mkAttached r there known x.

(** An instance that did not have its number then never has it again. *)
Definition there_ok (w : UnixWorld) : Prop := record_given w /\ (there = false -> present (record_instance r) (u_kernel w) = false).

Lemma there_later w w' : unix_later w w' -> there_ok w -> there_ok w'.
Proof. intros Hl [Hg Ht]. split; [by eapply given_later|]. intros E. apply (kl_absent _ _ (ul_kernel _ _ Hl)); [exact Hg|by apply Ht]. Qed.

(** What an observation shows: that the instance was there when the call began, if it is the
    recorded one; that it is gone, if it is not. *)
Lemma uwp_observe w0 :
  there_ok w0 ->
  uwp (observe (rec_os_pid r)) (fun x w =>
    match x with
    | Ok None => dead (record_instance r) w
    | Ok (Some o) => if is_same_instance r o then there = true /\ same_boot r w else record_gone r w
    | Err _ => True
    end) w0.
Proof.
  intros Hth. pose proof Hth as [Hg _].
  eapply (uwp_seq _ _ (fun o w => match o with
    | Some t => if t =? rec_start_token r then there = true else dead (record_instance r) w
    | None => True end)).
  { apply uwp_proc_read; [done|]. intros w w' Hl Hw Hl' Hw'. destruct (start_time (rec_os_pid r) (u_kernel w)) as [t|] eqn:E; [|done].
    destruct (Z.eqb_spec t (rec_start_token r)) as [->|Hne].
    - destruct (there_later _ _ Hl Hth) as [_ Ht]. apply start_time_present in E. destruct there; [done|].
      specialize (Ht eq_refl). change (present (record_instance r) (u_kernel w) = true) in E. congruence.
    - eapply dead_later; [done|by eapply given_later|]. by eapply absent_ended, (start_time_absent (record_instance r)). }
  intros [t|] w Hl Hw Ht.
  - eapply uwp_seq; [apply uwp_boot_id|]. intros boot w1 H1 Hw1 Hb. apply uwp_ret. intros w2 H2 Hw2. unfold is_same_instance. cbn.
    assert (unix_later w w2) as H02 by by etrans.
    destruct (t =? rec_start_token r); cbn [andb].
    + assert (same_boot r w1 \/ record_gone r w1) as Hsb.
      { unfold same_boot. destruct (rec_boot_id r) as [b|] eqn:Eb; [|by left]. destruct boot as [now|]; [|left; intros ? _; by right].
        destruct (decide (b = now)) as [->|Hne]; [left; intros ? [= <-]; by left|]. right. right. exists b. split; [done|congruence]. }
      destruct (rec_boot_id r) as [b|] eqn:Eb; [destruct boot as [now|]|].
      * case_bool_decide as Ebn.
        -- split; [done|]. intros b' E'. rewrite Eb in E'. injection E' as <-. left. subst b. rewrite Hb.
           by rewrite (kl_boot _ _ (ul_kernel _ _ H2)).
        -- right. exists b. split; [done|]. rewrite (kl_boot _ _ (ul_kernel _ _ H2)), <- Hb. done.
      * split; [done|]. intros b' _. right. by apply (ul_unread _ _ H2).
      * split; [done|]. intros b' E'. congruence.
    + left. eapply dead_later; [exact H02|by eapply given_later|done].
  - eapply uwp_seq; [apply (uwp_absent (record_instance r)); by eapply given_later|]. intros [] w1 H1 Hw1 Ha.
    + apply uwp_ret. intros w2 H2 _. eapply dead_later; [done|eapply given_later; [|exact Hg]; by etrans|by apply Ha].
    + assert (record_given w1) as Hg1 by (eapply given_later; [|exact Hg]; by etrans).
      eapply uwp_seq; [exact (uwp_zombie (record_instance r) w1 Hg1)|]. intros [] w2 H2 Hw2 Hz; apply uwp_ret; [|done].
      intros w3 H3 _. eapply dead_later; [done|by eapply given_later|by apply Hz].
Qed.

Lemma uwp_ret_attached x w0 :
  unix_inv w0 -> record_given w0 -> attached_ok w0 (call_of x) -> uwp (Ret x) (fun x w => attached_ok w (call_of x)) w0.
Proof. intros Hw Hg Hx. apply uwp_ret. intros w Hl _. by eapply attached_ok_later. Qed.

Lemma uwp_watch_attached k w0 :
  unix_inv w0 -> record_given w0 -> attached_ok w0 (call_of (Ok (Some k))) ->
  uwp (watch rounds k ;;; Ret (Ok (Some k))) (fun x w => attached_ok w (call_of x)) w0.
Proof.
  intros Hw0 Hg Hx. eapply uwp_seq; [apply uwp_watch|]. intros [] w Hl Hw _.
  apply uwp_ret_attached; [done|by eapply given_later|exact (attached_ok_later _ _ (call_of _) Hw0 Hl Hg Hx)].
Qed.

Lemma registered_known w k d :
  unix_inv w -> registered (rec_os_pid r) w = Some (k, d) -> wd_start_token d = rec_start_token r ->
  u_watched w !! k = Some d /\ watched_instance d = record_instance r.
Proof.
  intros Hw E Et. unfold registered in E. destruct (u_registry w !! rec_os_pid r) as [k'|] eqn:Ek; [|done]. cbn in E.
  destruct (u_watched w !! k') as [d'|] eqn:Ed; [|done]. cbn in E. injection E as -> ->.
  destruct (ui_registry _ Hw _ _ Ek) as (d' & Ed' & Ep). assert (d' = d) as -> by congruence.
  split; [done|]. unfold watched_instance, record_instance. congruence.
Qed.

Lemma uwp_register_once owner exe pidfd w0 :
  record_given w0 ->
  (forall i, pidfd = Some i -> given i w0 /\ (i = record_instance r \/ dead (record_instance r) w0)) ->
  uwp (act (register_once (watched_new (rec_os_pid r) (rec_start_token r) owner exe pidfd))) (fun k w => entry_of r k w) w0.
Proof.
  intros Hg Hp. apply uwp_act. intros w Hl Hw. unfold register_once. cbn [wd_os_pid wd_start_token watched_new].
  assert (record_given w) as Hgw by by eapply given_later. set (d := watched_new _ _ _ _ _).
  assert (Hnew : moves w (register d w).1 /\ forall w', unix_later (register d w).1 w' -> unix_inv w' -> entry_of r (register d w).2 w').
  { destruct (moves_register w d Hw) as [Hm E]; [done..| |].
    { intros i Ei. destruct (Hp i Ei) as [Hi [->|Hd]]; (split; [by eapply given_later|]); [by left|right; by eapply dead_later]. }
    split; [done|]. intros w' Hl' _. destruct (ul_watched _ _ Hl' _ _ E) as (d' & E' & Hs & _). exists d'. done. }
  destruct (registered (rec_os_pid r) w) as [[k d']|] eqn:E; [|exact Hnew].
  destruct (Z.eqb_spec (wd_start_token d') (rec_start_token r)) as [Et|]; [|exact Hnew]. cbn [fst snd].
  split; [by apply moves_refl|]. intros w' Hl' _. apply (entry_of_later _ _ w); [done|]. exists d'. by apply registered_known.
Qed.

Lemma uwp_attach_seen pidfd w0 :
  unix_inv w0 -> record_given w0 -> there = true -> same_boot r w0 ->
  (forall i, pidfd = Some i -> given i w0 /\ (i = record_instance r \/ dead (record_instance r) w0)) ->
  uwp (attach_seen rounds r pidfd) (fun x w => attached_ok w (call_of x)) w0.
Proof.
  intros Hw0 Hg Hth Hb Hp. apply (uwp_seq _ _ (fun _ _ => True)); [by apply uwp_proc_read|]. intros ours w Hl Hw _.
  assert (record_given w) as Hgw by by eapply given_later.
  eapply uwp_seq; [exact (uwp_zombie (record_instance r) w Hgw)|]. intros [] w1 H1 Hw1 Hz.
  - assert (record_given w1) as Hg1 by by eapply given_later. specialize (Hz eq_refl).
    apply (uwp_seq _ _ (fun _ _ => True)).
    { destruct ours; [|by apply uwp_ret]. eapply uwp_seq; [apply uwp_send_group|]. intros s w2 H2 Hw2 _.
      eapply uwp_seq; [apply uwp_reap|]. intros. by apply uwp_ret. }
    intros [] w2 H2 Hw2 _. apply uwp_ret_attached; [done|by eapply given_later|]. left. left. by eapply dead_later.
  - apply (uwp_seq _ _ (fun _ _ => True)); [by apply uwp_call|]. intros exe w2 H2 Hw2 _.
    assert (unix_later w0 w2) as H02 by (by do 2 (etrans; [eassumption|])).
    eapply uwp_seq; [apply uwp_register_once; [by eapply given_later|]|].
    { intros i Ei. destruct (Hp i Ei) as [Hi [->|Hd]]; (split; [by eapply given_later|]); [by left|right; by eapply dead_later]. }
    intros k w3 H3 Hw3 Hk. apply uwp_watch_attached; [done|eapply given_later; [|exact Hg]; by etrans|].
    split; [exact Hk|]. right. split; [done|]. eapply same_boot_later; [|exact Hb]. by etrans.
Qed.

Lemma big_number_dead w : unix_inv w -> i32_max < rec_os_pid r -> dead (record_instance r) w.
Proof.
  intros Hw Hb. apply not_true_iff_false. rewrite alive_spec. intros (pr & E & _). destruct (ui_kernel _ Hw _ _ E) as [_ Hn]. cbn in Hn. lia.
Qed.

Lemma uwp_attach_new w0 : unix_inv w0 -> there_ok w0 -> uwp (attach_new rounds r) (fun x w => attached_ok w (call_of x)) w0.
Proof.
  intros Hw0 Hth. pose proof Hth as [Hg _]. unfold attach_new. destruct (Z.ltb_spec i32_max (rec_os_pid r)) as [Hb|Hb].
  { apply uwp_ret_attached; [done..|]. left. left. by apply big_number_dead. }
  eapply uwp_seq; [exact (uwp_open_pidfd (record_instance r) w0 Hg)|]. intros pidfd w Hl Hw Hp.
  assert (there_ok w) as Hthw by by eapply there_later.
  eapply uwp_seq; [by apply uwp_observe|]. intros [[o|]|e] w1 H1 Hw1 Ho; assert (record_given w1) as Hg1 by (eapply given_later; [exact H1|apply Hthw]).
  - destruct (is_same_instance r o) eqn:Es.
    + destruct Ho as [Ht Hsb]. apply uwp_attach_seen; [done..|]. intros i Ei.
      destruct (Hp i Ei) as [Hi [->|Hd]]; (split; [by eapply given_later|]); [by left|right; by eapply dead_later; [|apply Hthw|]].
    + apply uwp_ret_attached; [done..|]. by left.
  - apply uwp_ret_attached; [done..|]. by left; left.
  - by apply uwp_ret_attached.
Qed.

(** From the look at the registry on. *)
Lemma uwp_attach_known o w0 :
  unix_inv w0 -> there_ok w0 -> known = fst <$> o ->
  (forall k d, o = Some (k, d) -> wd_start_token d = rec_start_token r -> knows k d w0 /\ watched_instance d = record_instance r) ->
  uwp (attach_known rounds r o) (fun x w => attached_ok w (call_of x)) w0.
Proof.
  intros Hw0 Hth Ek Hk. pose proof Hth as [Hg _]. destruct o as [[k d]|]; [|by apply uwp_attach_new]. cbn in Ek.
  unfold attach_known. destruct (Z.eqb_spec (wd_start_token d) (rec_start_token r)) as [Et|]; [|by apply uwp_attach_new].
  destruct (Hk k d eq_refl Et) as [Hkn Ei].
  assert (Hent : forall w, unix_later w0 w -> entry_of r k w).
  { intros w Hl. destruct (kn_entry _ _ _ (knows_later _ _ _ _ Hl Hkn)) as (d' & E' & Hs). exists d'. split; [done|].
    by rewrite (proj1 Hs). }
  apply (uwp_seq _ _ (fun b w => b = true -> ended_ok k d w)).
  { eapply uwp_seq; [by apply (uwp_lock_ended k d)|]. intros o w1 H1 Hw1 Ho.
    apply (uwp_seq _ _ (fun _ w => o <> None -> ended_ok k d w)).
    - apply uwp_unlock_ended. intros w2 H2 _ Hn. eapply ended_ok_later; [done|by eapply knows_later|by apply Ho].
    - intros [] w2 H2 Hw2 Hn. apply uwp_ret. intros w3 H3 _ E. eapply ended_ok_later; [done|eapply knows_later; [|exact Hkn]; by etrans|].
      apply Hn. by destruct o. }
  intros [] w1 H1 Hw1 He; assert (record_given w1) as Hg1 by (by eapply given_later).
  - apply uwp_ret_attached; [done..|]. destruct (He eq_refl) as [Ha|Hd].
    + right. cbn. destruct (Hent w1 H1) as (d1 & Ed1 & Ei1). pose proof (wo_abandoned _ _ _ (ui_watched _ Hw1 _ _ Ed1) Ha) as Hf.
      unfold watched_instance, record_instance in Ei1. injection Ei1 as <- _. exact Hf.
    + left. left. cbn. by rewrite <- Ei.
  - apply uwp_watch_attached; [done..|]. split; [by apply Hent|]. left. exact Ek.
Qed.
End Attach.

Lemma uwp_attach_call rounds r w0 : uwp (attach_call rounds r) (fun _ _ => True) w0.
Proof.
  eapply (uwp_seq _ _ (fun start w => there_ok r start.1 w /\ forall k d, start.2 = Some (k, d) ->
    wd_start_token d = rec_start_token r -> knows k d w /\ watched_instance d = record_instance r)).
  { apply uwp_act. intros w Hl Hw. cbn [attach_starts fst snd].
    assert (Hm : moves w (set_kernel (reserve (record_instance r) (u_kernel w)) w)) by (apply moves_set_kernel, reserve_later; [done|apply Hw]).
    split; [done|]. intros w' Hl' Hw'. split.
    - eapply there_later; [exact Hl'|]. split; [unfold record_given, given; cbn; set_solver|]. intros E. exact E.
    - intros k d E Et. destruct (registered_known r _ _ _ Hw E Et) as [Ed Ei]. split; [|done].
      apply (knows_later _ _ w); [|by apply knows_lookup]. destruct Hm as (_ & Hm & _). by etrans. }
  intros [there o] w Hl Hw [Hth Hk]. cbn [fst snd] in *.
  eapply uwp_seq; [by apply (uwp_attach_known rounds r there (fst <$> o))|]. intros x w1 H1 Hw1 Hx.
  apply uwp_modify. intros w2 H2 Hw2. split; [|done]. pose proof Hth as [Hg _].
  assert (given (record_instance r) w1) as Hg1 by by eapply given_later.
  apply moves_attached; [done|exact (given_later _ _ _ H2 Hg1)|exact (attached_ok_later _ _ (call_of _ _ _ _) Hw1 H2 Hg1 Hx)].
Qed.

(** ** The target *)

Section Target.
Context (nix_try_from : Z -> result Z string) (k : nat).

Lemma uwp_confirmed d w0 : given (watched_instance d) w0 -> uwp (confirmed_alive d) (fun _ _ => True) w0.
Proof.
  intros Hg. eapply uwp_seq; [exact (uwp_start_time (watched_instance d) w0 Hg)|]. intros t w Hl Hw _.
  case_bool_decide; [|by apply uwp_ret]. eapply uwp_seq; [apply (uwp_zombie (watched_instance d)); by eapply given_later|].
  intros. by apply uwp_ret.
Qed.

Lemma uwp_signal_pinned d n w0 : uwp (signal_pinned d n) (fun _ _ => True) w0.
Proof.
  eapply uwp_seq; [apply uwp_send_group|]. intros s w Hl Hw _. destruct (sent_result s); [|by apply uwp_ret].
  eapply uwp_seq; [apply uwp_send_process|]. intros. by apply uwp_ret.
Qed.

Lemma uwp_signal_live d n w0 : given (watched_instance d) w0 -> uwp (signal_live d n) (fun _ _ => True) w0.
Proof.
  intros Hg. unfold signal_live. destruct (wd_owner d), (wd_pidfd d) as [i|]; try apply uwp_signal_pinned.
  - eapply uwp_seq; [apply uwp_send_pidfd|]. intros s w Hl Hw _.
    assert (Hc : uwp (let! confirmed := confirmed_alive d in
      if confirmed : bool then let! sent := send_group (wd_os_pid d) n in Ret (sent_result sent) else Ret (Ok tt)) (fun _ _ => True) w).
    { eapply uwp_seq; [apply uwp_confirmed; by eapply given_later|]. intros [] w1 H1 Hw1 _; [|by apply uwp_ret].
      eapply uwp_seq; [apply uwp_send_group|]. intros. by apply uwp_ret. }
    destruct s as [u|[|text]]; [exact Hc|exact Hc|by apply uwp_ret].
  - eapply uwp_seq; [by apply uwp_confirmed|]. intros [] w1 H1 Hw1 _; [apply uwp_signal_pinned|by apply uwp_ret].
Qed.

Lemma uwp_target_signal s w0 : uwp (target_signal nix_try_from k s) (fun _ _ => True) w0.
Proof.
  unfold target_signal. destruct (to_nix nix_try_from s) as [n|e]; [|by apply uwp_ret].
  apply (uwp_seq _ _ (fun o w => forall d, o = Some d -> knows k d w)).
  { apply uwp_reads. intros w w' Hl Hw Hl' Hw' d E. eapply knows_later; [done|]. by apply knows_lookup. }
  intros [d|] w Hl Hw Hd; [|by apply uwp_ret]. specialize (Hd d eq_refl).
  eapply uwp_seq; [by apply (uwp_lock_ended k d)|]. intros [e|] w1 H1 Hw1 _.
  - apply (uwp_seq _ _ (fun _ _ => True)); [by apply uwp_unlock_ended|]. intros. by apply uwp_ret.
  - eapply uwp_seq; [apply uwp_signal_live; eapply given_later; [done|apply Hd]|]. intros x w2 H2 Hw2 _.
    apply (uwp_seq _ _ (fun _ _ => True)); [by apply uwp_unlock_ended|]. intros. by apply uwp_ret.
Qed.

Lemma uwp_target_exited rounds w0 : uwp (target_exited rounds k) (fun _ _ => True) w0.
Proof.
  eapply uwp_seq; [apply uwp_watch|]. intros [] w Hl Hw _. apply uwp_await. intros w1 w2 e H1 Hw1 E. split; [|done].
  unfold published in E. destruct (u_watched w1 !! k) as [d|]; [|done]. cbn in E. destruct (wd_exit d); [|done]. by injection E as <- <-.
Qed.
End Target.

(** ** Tasks and calls *)

Section Body.
Context (nix_try_from : Z -> result Z string) (here_group : Z) (rounds : nat).

Lemma fill_cell_moves j c w : unix_inv w -> moves w (fill_cell j c w).
Proof. intros Hw. unfold fill_cell. destruct (u_cells w !! j) as [[]|]; try by apply moves_refl. by apply moves_other. Qed.

Lemma owns_launch_task j spec log w0 : owns (launch_task rounds j spec log) (fun _ _ _ => True) ∅ w0.
Proof.
  intros w Hl Hw _. split; [by apply moves_all_with, fill_cell_moves|]. intros w1 [] [= <-].
  split; [by apply moves_all_with, moves_refl|]. exists ∅. split; [by intros r ?%elem_of_empty|]. rewrite union_empty_l_L.
  apply owns_bind. eapply rwp_mono; standing; [|exact (owns_gated_spawn rounds spec log w)].
  intros r G w2 H2 Hw2 _. apply rwp_act; standing. intros w3 H3 Hw3 _. split; [by apply moves_all_with, fill_cell_moves|done].
Qed.

Lemma uwp_launch spec log w0 : uwp (launch spec log) (fun _ _ => True) w0.
Proof.
  apply (uwp_seq _ _ (fun _ _ => True)); [apply uwp_act; intros; split; [apply moves_other; cbn; auto with lia|done]|]. intros j w Hl Hw _.
  apply (uwp_seq _ _ (fun _ _ => True)); [by apply uwp_fork|]. intros [] w1 H1 Hw1 _.
  apply uwp_wait; [intros; by apply moves_other|]. intros w2 w3 r H2 Hw2 E. cbn in E. unfold take_launch in E.
  assert (Hm : moves w2 w3).
  { destruct (u_cells w2 !! j) as [[]|]; try done; injection E as <- <-; by apply moves_other. }
  split; [done|]. destruct r as [r|]; [by apply uwp_ret|].
  apply (uwp_seq _ _ (fun _ _ => True)); [by apply uwp_call|]. intros. by apply uwp_ret.
Qed.

Lemma owns_body t G w0 :
  unix_inv w0 -> exist_at G w0 -> unix_task_pre t G w0 -> owns (unix_body here_group rounds t) (fun _ _ _ => True) G w0.
Proof.
  intros Hw0 He. destruct t as [g command|g i|j spec log|k polls]; cbn [unix_body unix_task_pre].
  - intros [-> Hu]. by apply owns_spawner.
  - intros [Hr Hwt]. by apply owns_child.
  - intros _. eapply rwp_weaken; standing; [done| |apply owns_launch_task]. set_solver.
  - intros _. eapply owns_plain; [done|apply uwp_watcher].
Qed.

Lemma outside_moves e w : unix_inv w -> moves w (outside e w).
Proof.
  intros Hw. destruct e as [e|g held|]; cbn.
  - apply moves_set_kernel; [done|]. apply event_later, Hw.
  - apply moves_gate_plain; [done|]. intros gate; cbn; auto 10.
  - assert (Hl : unix_later w (set_gates (close_owner_end <$> u_gates w) w)).
    { split; cbn; try done; [|intros k d E; by exists d]. intros g gate E. exists (close_owner_end gate).
      by rewrite lookup_fmap, E. }
    split_and!; [|done|].
    + apply (inv_of_later w); cbn; try done; try by apply Hw.
      * intros g gate. rewrite lookup_fmap_Some. intros (gate0 & <- & E). right.
        apply gate_plain_ok; [apply close_owner_plain|by eapply (ui_gates _ Hw)].
      * assert (Hch : forall g i, gate_child g i (set_gates (close_owner_end <$> u_gates w) w) -> gate_child g i w).
        { intros g i (gate & E & Ei). cbn in E. apply lookup_fmap_Some in E as (gate0 & <- & E). by exists gate0. }
        intros g g' i H1 H2. eapply (ui_children _ Hw); eauto.
      * by left.
      * by left.
      * intros g Hg. by rewrite lookup_fmap, (ui_next_gates _ Hw).
    + intros r _. destruct r as [g|g|g]; cbn; rewrite lookup_fmap; by destruct (u_gates w !! g).
Qed.

(** What clients call, and what happens outside. *)
Inductive unix_api : UProg unit -> Prop :=
| Api_launch spec log : unix_api (launch spec log ;;; Ret tt)
| Api_attach r : unix_api (attach_call rounds r)
| Api_signal k s : unix_api (target_signal nix_try_from k s ;;; Ret tt)
| Api_exited k : unix_api (target_exited rounds k ;;; Ret tt)
| Api_outside e : unix_api (modify (outside e)).

Lemma uwp_api p w0 : unix_api p -> uwp p (fun _ _ => True) w0.
Proof.
  intros [spec log|r|k s|k|e].
  - eapply uwp_seq; [apply uwp_launch|]. intros. by apply uwp_ret.
  - apply uwp_attach_call.
  - eapply uwp_seq; [apply uwp_target_signal|]. intros. by apply uwp_ret.
  - eapply uwp_seq; [apply uwp_target_exited|]. intros. by apply uwp_ret.
  - apply uwp_modify. intros w Hl Hw. split; [by apply outside_moves|done].
Qed.
End Body.

Definition unix_new (k : Kernel) : UnixWorld := mkUnixWorld k ∅ false ∅ ∅ ∅ 0 ∅ ∅ [] ∅ ∅ false [].

Lemma unix_new_inv k : kernel_wf k -> unix_inv (unix_new k).
Proof.
  intros Hk. split; cbn; try done; try set_solver. intros g g' i (gate & E & _). cbn in E. by rewrite lookup_empty in E.
Qed.

(** The worlds that this process reaches with the rest of the machine, from a kernel [k]. *)
Definition unix_reachable (nix_try_from : Z -> result Z string) (here_group : Z) (rounds : nat) (k : Kernel)
    (c : UnixWorld * list (UProg unit)) : Prop :=
  rtc (step unix_answer (unix_body here_group rounds) (unix_api nix_try_from rounds)) (unix_new k, []) c.

Lemma unix_reachable_inv nix_try_from here_group rounds k c :
  kernel_wf k -> unix_reachable nix_try_from here_group rounds k c ->
  unix_inv c.1 /\ forall m, Panic m ∉ c.2.
Proof.
  intros Hk Hr.
  destruct (rwp_adequate unix_answer unix_inv unix_later allocated frame allocated_later unix_task_pre (unix_body here_group rounds)
    (unix_api nix_try_from rounds)) with (c := (unix_new k, [] : list (UProg unit))) (c' := c) as [Hok _].
  - intros p w Hw Hp. eapply owns_plain; [by intros r ?%elem_of_empty|by eapply uwp_api].
  - intros t G w Hw He Ht. by apply owns_body.
  - exact Hr.
  - split; [by apply unix_new_inv|]. exists ∅. split; [by intros r ?%elem_of_empty|constructor].
  - split; [apply Hok|]. intros m. exact (pool_owned_panics _ _ _ _ _ _ _ _ Hok).
Qed.
