(* ===== verification/KeptUnixTheorems.v ===== *)
(** * KeptUnixTheorems: what holds of the launcher in every run

    Launches, attaches, signals and waits of any number of clients, their gated children, the
    watchers, and whatever the rest of the machine does, in any order; calls dropped where
    they wait; system calls that fail. The theorems hold in every world such a run reaches. *)

From stdpp Require Import base list relations gmap strings.
From S2P Require Import Prelude StdModel Values KeptDomain Ports Conc KeptState KeptStore Display Unix KeptUnix KeptUnixInv KeptUnixSafe.

Open Scope Z_scope.
Open Scope prog_scope.

(** ** A run to look at *)

(** A machine with this process, number 1000, alone in its group. *)
Definition demo_kernel : Kernel :=
  mkKernel {[1000 := mkUnixProcess 1 Elsewhere 1000 None]} {[mkKeptLaunch 1000 1]} "boot" [].

Lemma demo_kernel_wf : kernel_wf demo_kernel.
Proof. intros p pr. cbn. rewrite lookup_singleton_Some. intros [<- <-]. split; [set_solver|done]. Qed.

Definition demo_child : KeptLaunch := mkKeptLaunch 2000 77.

(** Every call succeeds; [hidden] is what a listing of a group leaves out. *)
Definition unix_oracle (hidden : gset Z) (w : UnixWorld) (X : Type) (q : UnixPort X) : option X :=
  match q in UnixPort X return option X with
  | CallFails => Some None
  | Forks _ => Some demo_child
  | Readable _ => Some true
  | BootReads => Some true
  | Listed _ => Some (Some hidden)
  | Commit _ => Some (Ok tt)
  | GateSend _ _ => Some (Ok tt)
  | PidfdOpens _ => Some true
  | PidfdWatched => Some true
  | PidfdFails => None
  | ExeOf _ => Some None
  | UnixNow => Some 0
  | UnixSleep _ => Some tt
  | BlockingRefused => None
  end.

Definition demo_try_from (raw : Z) : result Z string := if (1 <=? raw) && (raw <=? 31) then Ok raw else Err "EINVAL".

Abbreviation turns := (list (choice (S := UnixWorld) (Q := UnixPort) (T := UnixTask))).

Definition demo_exec (hidden : gset Z) (choices : turns) : UnixWorld * list (UProg unit) :=
  exec unix_answer (unix_body 1000 5) (unix_oracle hidden) 200 choices (unix_new demo_kernel, []).

Lemma demo_exec_reachable hidden choices :
  Forall (begins (unix_api demo_try_from 5)) choices ->
  unix_reachable demo_try_from 1000 5 demo_kernel (demo_exec hidden choices).
Proof. apply exec_reachable. Qed.

Definition demo_record : KeptRecord :=
  mkKeptRecord (mkKeptName "db") 2000 77 (Some "boot") None "sleep" [] (fingerprint_of (spec_new "sleep") None) None Term None "owner" 0.

(** A launch to its end; the child exits; the watcher reaps it; a client attaches late. *)
Definition demo_launch : turns :=
  [Begin (launch (spec_new "sleep") None ;;; Ret tt); Run 0; Run 1; Run 2; Run 3; Run 1; Run 3; Run 2; Run 1; Run 0].
Definition demo_exit : turns :=
  [Begin (modify (outside (Outside (OsExit demo_child (WExited 3))))); Run 5; Run 4].
Definition demo_attach : turns := [Begin (attach_call 5 demo_record); Run 6].

(** ** The properties *)

(** C12. The gate holds: in every run, whatever fails and whoever dies at whatever moment, a
    program that the launcher started was started only after the record of that very
    instance had been committed; and nothing panics. *)
Theorem programs_run_recorded nix_try_from here_group rounds k c :
  kernel_wf k -> unix_reachable nix_try_from here_group rounds k c ->
  (forall i, i ∈ u_started c.1 -> i ∈ u_committed c.1) /\ forall m, Panic m ∉ c.2.
Proof.
  intros Hk Hr. destruct (unix_reachable_inv _ _ _ _ _ Hk Hr) as [Hw Hp]. split; [|done]. intros i. apply (ui_started _ Hw).
Qed.

Lemma programs_run_recorded_witness :
  demo_child ∈ u_started (demo_exec ∅ demo_launch).1 /\ demo_child ∈ u_committed (demo_exec ∅ demo_launch).1.
Proof.
  assert (demo_child ∈ u_started (demo_exec ∅ demo_launch).1) as Hs by (apply (bool_decide_unpack _); by vm_compute).
  split; [exact Hs|]. apply (programs_run_recorded demo_try_from 1000 5 demo_kernel (demo_exec ∅ demo_launch) demo_kernel_wf); [|exact Hs].
  apply demo_exec_reachable. repeat constructor.
Defined.


Definition demo_watched : Watched :=
  default (watched_new 0 0 Child None None) (u_watched (demo_exec ∅ (demo_launch ++ demo_exit)).1 !! 2%nat).


(** C14. What [attach] answers about a record is true: "gone" only when the recorded instance
    has exited, or ran under another boot, or a launch whose child had the number failed before
    it started anything; a target only for the recorded instance itself, which had its number when the call
    began (and ran under this boot, as far as the boot is known), or was being watched then. *)
Theorem attach_answers_true nix_try_from here_group rounds k c a :
  kernel_wf k -> unix_reachable nix_try_from here_group rounds k c -> a ∈ u_attached c.1 ->
  match at_answer a with
  | Ok None =>
      alive (record_instance (at_record a)) (u_kernel c.1) = false \/
      (exists b, rec_boot_id (at_record a) = Some b /\ b <> k_boot (u_kernel c.1)) \/
      exists g gate j, u_gates c.1 !! g = Some gate /\ g_child gate = Some j /\ launch_os_pid j = rec_os_pid (at_record a) /\
        alive j (u_kernel c.1) = false /\ j ∉ u_started c.1
  | Ok (Some n) =>
      (exists d, u_watched c.1 !! n = Some d /\ watched_instance d = record_instance (at_record a)) /\
      (at_known a = Some n \/
       (at_there a = true /\ forall b, rec_boot_id (at_record a) = Some b -> b = k_boot (u_kernel c.1) \/ u_unread c.1 = true))
  | Err _ => True
  end.
Proof.
  intros Hk Hr Hx. destruct (unix_reachable_inv _ _ _ _ _ Hk Hr) as [Hw _].
  destruct (ui_attached _ Hw _ Hx) as [_ Ha]. unfold attached_ok in Ha. destruct (at_answer a) as [[n|]|]; [exact Ha| |done].
  destruct Ha as [[Hd|Hb]|(g & j & (gate & E & Ej) & Hp & Hd & Hn)]; [by left|by right; left|]. right. right. by exists g, gate, j.
Qed.

(** The record of a launch, attached while its program runs and after it has exited; the record of a process that
    another program started; and a record whose number somebody else has. *)
Definition demo_answers (choices : turns) : list Attached := u_attached (demo_exec ∅ choices).1.
Definition foreign_record (token : Z) : KeptRecord :=
  mkKeptRecord (mkKeptName "other") 1000 token (Some "boot") None "sleep" [] (fingerprint_of (spec_new "sleep") None) None Term None "owner" 0.

Example attach_watched : demo_answers (demo_launch ++ [Begin (attach_call 5 demo_record); Run 5]) = [mkAttached demo_record true (Some 2%nat) (Ok (Some 2%nat))].
Proof. by vm_compute. Qed.
Example attach_foreign : demo_answers [Begin (attach_call 5 (foreign_record 1)); Run 0] = [mkAttached (foreign_record 1) true None (Ok (Some 0%nat))].
Proof. by vm_compute. Qed.
Example attach_number_reused : demo_answers [Begin (attach_call 5 (foreign_record 2)); Run 0] = [mkAttached (foreign_record 2) false None (Ok None)].
Proof. by vm_compute. Qed.

Lemma attach_answers_true_witness :
  mkAttached (foreign_record 1) true None (Ok (Some 0%nat)) ∈ demo_answers [Begin (attach_call 5 (foreign_record 1)); Run 0] /\
  exists d, u_watched (demo_exec ∅ [Begin (attach_call 5 (foreign_record 1)); Run 0]).1 !! 0%nat = Some d /\
    watched_instance d = mkKeptLaunch 1000 1.
Proof.
  assert (mkAttached (foreign_record 1) true None (Ok (Some 0%nat)) ∈ demo_answers [Begin (attach_call 5 (foreign_record 1)); Run 0]) as Hin.
  { rewrite attach_foreign. constructor. }
  split; [exact Hin|].
  refine (proj1 (attach_answers_true demo_try_from 1000 5 demo_kernel _ _ demo_kernel_wf _ Hin)).
  apply demo_exec_reachable. repeat constructor.
Defined.

(** ** Two runs the comments rule out *)

(** A member of the group that the listing does not show (its entry under /proc is hidden, or cannot be
    read) runs on while the group is reported empty. *)
Definition hidden_member : KeptLaunch := mkKeptLaunch 3000 88.
Definition demo_hidden : turns :=
  demo_launch ++
  [Begin (modify (outside (Outside (OsFork hidden_member Elsewhere 2000)))); Run 5;
   Begin (modify (outside (Outside (OsExit demo_child (WExited 3))))); Run 6; Run 4].

Lemma hidden_member_reported_empty :
  exists c d e, unix_reachable demo_try_from 1000 5 demo_kernel c /\ u_watched c.1 !! 2%nat = Some d /\
    wd_exit d = Some e /\ kexit_stragglers e = false /\ alive hidden_member (u_kernel c.1) = true.
Proof.
  exists (demo_exec {[3000]} demo_hidden). eexists _, _. split; [apply demo_exec_reachable; repeat constructor|].
  split_and!; by vm_compute.
Qed.

(** The watcher has reaped the child; the machine gives its number to a process that leads a
    group of its own; the next look of the watcher at the group kills it. *)
Definition late_leader : KeptLaunch := mkKeptLaunch 2000 99.
Definition demo_recycled : UnixWorld * list (UProg unit) :=
  let c := exec unix_answer (unix_body 1000 5) (unix_oracle ∅) 10 [Run 4]
    (demo_exec ∅ (demo_launch ++ [Begin (modify (outside (Outside (OsExit demo_child (WExited 3))))); Run 5])) in
  exec unix_answer (unix_body 1000 5) (unix_oracle ∅) 200
    [Begin (modify (outside (Outside (OsFork late_leader Elsewhere 1000)))); Run 6;
     Begin (modify (outside (Outside (OsFound late_leader)))); Run 7; Run 4] c.

Lemma recycled_group_killed :
  unix_reachable demo_try_from 1000 5 demo_kernel demo_recycled /\
  SentGroup 2000 SIGKILL [late_leader] ∈ k_sent (u_kernel demo_recycled.1).
Proof.
  split.
  - unfold unix_reachable; etrans; [|apply exec_reachable; repeat constructor].
    etrans; [|apply exec_reachable; repeat constructor]. apply demo_exec_reachable. repeat constructor.
  - assert (k_sent (u_kernel demo_recycled.1) !! 1%nat = Some (SentGroup 2000 SIGKILL [late_leader])) as E by (by vm_compute).
    by eapply list_elem_of_lookup_2.
Qed.
