(* ===== verification/KeptUnixOrder.v ===== *)
(** * KeptUnixOrder: what one launch does, in which order

    One protocol of [gated_spawn], for all answers of the system and of [commit], and for
    every pace of the spawning thread and of the child. *)

From stdpp Require Import base list gmap strings.
From S2P Require Import Prelude StdModel Values KeptDomain Ports Conc Protocol Rights KeptState KeptStore Display Unix KeptUnix KeptUnixInv KeptUnixSafe KeptUnixTheorems.

Open Scope Z_scope.
Open Scope prog_scope.

#[global] Instance kept_error_eq_dec : EqDecision KeptError.
Proof. solve_decision. Defined.

(** A question with its answer, or a task that was started. *)
Inductive asked : Type :=
| Asked {X : Type} (q : UnixPort X) (x : X)
| Forked (t : UnixTask).
Definition unix_label (X : Type) (q : UnixPort X) : X -> asked := Asked q.

Definition unix_trace {A} (p : UProg A) (ls : list asked) (r : option A) : Prop :=
  trace unix_answer unix_label Forked p ls r.

(** ** The protocol *)

(** Nothing is started; the child waits at its gate [g]; it was told to give up; its record is
    committed; the commit was refused (and the child told to give up, or not yet); the gate was
    opened, or the byte did not go out; the watcher runs. *)
Inductive launch_phase : Type :=
| PhaseIdle
| PhaseGated (g : nat)
| PhaseAborted
| PhaseRecorded (g : nat) (l : KeptLaunch)
| PhaseRefused (g : nat) (e : KeptError) (told : bool)
| PhaseOpened (l : KeptLaunch) (sent : bool)
| PhaseWatched (l : KeptLaunch).

Definition at_gate (g g' : nat) (p : launch_phase) : option launch_phase := if decide (g = g') then Some p else None.

(** A byte to the gate: [GO] only for a committed record, [ABORT] only without one. *)
Definition launch_send (p : launch_phase) (g : nat) (b : Z) (r : result unit string) : option launch_phase :=
  match p with
  | PhaseGated g' => if b =? ABORT then at_gate g g' PhaseAborted else None
  | PhaseRefused g' e false => if b =? ABORT then at_gate g g' (PhaseRefused g' e true) else None
  | PhaseRecorded g' l =>
      if b =? GO then at_gate g g' (PhaseOpened l (match r with Ok _ => true | Err _ => false end)) else None
  | _ => None
  end.

Definition launch_delta (p : launch_phase) (l : asked) : option launch_phase :=
  match l with
  | Forked (RunSpawner g _) => match p with PhaseIdle => Some (PhaseGated g) | _ => None end
  | Forked (RunWatcher _ _) => match p with PhaseOpened i true => Some (PhaseWatched i) | _ => None end
  | Forked _ => None
  | Asked q x =>
      match q in UnixPort X return X -> option launch_phase with
      | Commit i => fun r =>
          match p with
          | PhaseGated g => Some (match r with Ok _ => PhaseRecorded g i | Err e => PhaseRefused g e false end)
          | _ => None
          end
      | GateSend g b => launch_send p g b
      | CallFails => fun _ => Some p
      | Readable _ => fun _ => Some p
      | PidfdOpens _ => fun _ => Some p
      | ExeOf _ => fun _ => Some p
      | _ => fun _ => None
      end x
  end.

(** What a launch may return, where it has come to. *)
Definition launch_returns (p : launch_phase) (r : result (KeptLaunch * nat) KeptError) : Prop :=
  match p, r with
  | PhaseIdle, Err _ | PhaseAborted, Err _ => True
  | PhaseRefused _ e true, Err e' => e = e'
  | PhaseOpened _ _, Err _ => True
  | PhaseOpened i true, Ok (i', _) | PhaseWatched i, Ok (i', _) => i = i'
  | _, _ => False
  end.

Abbreviation obeys := (Protocol.obeys (answer := unix_answer) (label := unix_label) (started := Forked)
  launch_delta (fun _ => True)) (only parsing).

(** ** Programs that only look *)

Definition looks (l : asked) : bool :=
  match l with
  | Asked CallFails _ | Asked (Readable _) _ | Asked (PidfdOpens _) _ | Asked (ExeOf _) _ => true
  | _ => false
  end.

Definition looking {A} (p : UProg A) : Prop :=
  Protocol.obeys (answer := unix_answer) (label := unix_label) (started := Forked) (only looks) (fun _ => True) p tt (fun _ _ => True).

Lemma looking_obeys {A} (p : UProg A) ph (post : launch_phase -> A -> Prop) :
  looking p -> (forall a, post ph a) -> obeys p ph post.
Proof.
  intros Hq Hp. eapply obeys_mono; [done| |eapply (obeys_only launch_delta (fun _ => True) looks p ph (fun _ => True) Hq)]; [|done|].
  - by intros q a [-> _].
  - intros [X q x|t]; cbn; [|done]. by destruct q.
Qed.

Lemma looking_bind {A B} (p : UProg A) (g : A -> UProg B) : looking p -> (forall a, looking (g a)) -> looking (bind p g).
Proof. intros Hp Hg. eapply obeys_bind; [exact Hp|]. intros [] a _. apply Hg. Qed.

Lemma looking_call {X} (q : UnixPort X) : (forall x, looks (Asked q x) = true) -> looking (call q).
Proof. intros Hq x. exists tt. change (only looks tt (unix_label X q x)) with (if looks (Asked q x) then Some tt else None). by rewrite (Hq x). Qed.

Lemma looking_act {X} (f : UnixWorld -> UnixWorld * X) : looking (act f).
Proof. done. Qed.

Lemma looking_await {X} (f : UnixWorld -> option (UnixWorld * X)) : looking (await f).
Proof. split; [done|]. intros s s' x _. by exists tt. Qed.

Lemma looking_ret {A} (a : A) : looking (Ret a).
Proof. done. Qed.

Create HintDb looking.
#[local] Hint Resolve looking_bind looking_call looking_act looking_await looking_ret : looking.

Lemma looking_proc_read {X} p (unread : X) f : looking (proc_read p unread f).
Proof. apply looking_bind; [by apply looking_call|]. by intros []. Qed.

Lemma looking_open_pidfd p : looking (open_pidfd p).
Proof. apply looking_bind; [by apply looking_call|]. by intros []. Qed.

Lemma looking_abandon k : looking (abandon k).
Proof. repeat (apply looking_bind; [first [apply looking_await|apply looking_act]|intros ?]). apply looking_act. Qed.

Lemma looking_returns {X} g (r : X) : looking (gate_returns g r).
Proof. done. Qed.

Lemma looking_sys_try {A X} context (f : UnixWorld -> UnixWorld * X) failed (k : X -> UProg A) :
  (forall e, looking (failed e)) -> (forall x, looking (k x)) -> looking (sys_try context f failed k).
Proof. intros Hf Hk. apply looking_bind; [by apply looking_call|]. intros [text|]; [apply Hf|]. by apply looking_bind. Qed.

Lemma looking_open_log log : looking (open_log log).
Proof. destruct log; [|done]. by do 2 (apply looking_sys_try; [done|intros _]). Qed.

(** ** The launch *)

Section Launch.
Context (rounds : nat).

Lemma obeys_gate_abort g ph ph' (post : launch_phase -> unit -> Prop) :
  (forall r, launch_send ph g ABORT r = Some ph') -> post ph' tt -> obeys (gate_abort g) ph post.
Proof. intros Hs Hp r. exists ph'. split; [apply Hs|]. by intros s. Qed.

Lemma obeys_watch k i :
  obeys (watch rounds k) (PhaseOpened i true) (fun ph _ => forall n, launch_returns ph (Ok (i, n))).
Proof.
  intros s. set (launching := (_ : bool)). destruct launching; [done|]. intros s1. set (over := (_ : bool)).
  destruct over; [done|]. intros s2. set (started := (_ : bool)). destruct started; [done|]. by exists (PhaseWatched i).
Qed.

(** A launch goes on with something that only looks. *)
Lemma obeys_looking_then {A B} (p : UProg A) (g : A -> UProg B) ph post :
  looking p -> (forall a, obeys (g a) ph post) -> obeys (bind p g) ph post.
Proof.
  intros Hq Hg. apply (obeys_bind _ _ _ _ _ (fun ph' _ => ph' = ph)); [by apply looking_obeys|]. intros ph' a ->. apply Hg.
Qed.

Lemma obeys_returns {X} g (r : X) ph (post : launch_phase -> X -> Prop) : post ph r -> obeys (gate_returns g r) ph post.
Proof. intros Hp. by intros s s1. Qed.

Lemma obeys_open_gate g i k : obeys (open_gate rounds g i k) (PhaseRecorded g i) launch_returns.
Proof.
  eapply obeys_bind with (mid := fun ph (opened : result unit string) => ph = PhaseOpened i (match opened with Ok _ => true | Err _ => false end)).
  { apply obeys_call. intros r. eexists. split; [|reflexivity]. cbn. unfold at_gate. by rewrite decide_True. }
  intros ph opened ->. apply obeys_looking_then; [apply looking_await|]. intros spawned. apply obeys_looking_then; [apply looking_act|]. intros [].
  destruct opened as [[]|e], spawned as [[]|e2]; cbv beta iota zeta.
  - apply obeys_looking_then; [by apply looking_call|]. intros exe.
    do 2 (apply obeys_looking_then; [apply looking_act|]; intros []).
    eapply obeys_bind; [apply obeys_watch|]. intros ph [] Hp. by apply obeys_returns.
  - apply obeys_looking_then; [apply looking_abandon|]. intros []. by apply obeys_returns.
  - apply obeys_looking_then; [apply looking_abandon|]. intros []. by apply obeys_returns.
  - apply obeys_looking_then; [apply looking_abandon|]. intros []. by apply obeys_returns.
Qed.

Lemma obeys_commit_and_open g p t : obeys (commit_and_open rounds g p t) (PhaseGated g) launch_returns.
Proof.
  apply obeys_looking_then; [apply looking_open_pidfd|]. intros pidfd. apply obeys_looking_then; [apply looking_act|]. intros k.
  eapply obeys_bind with (mid := fun ph (r : result unit KeptError) =>
    ph = match r with Ok _ => PhaseRecorded g (mkKeptLaunch p t) | Err e => PhaseRefused g e false end).
  { apply obeys_call. intros r. by eexists. }
  intros ph [[]|e] ->.
  - apply obeys_open_gate.
  - eapply obeys_bind; [apply (obeys_gate_abort _ _ (PhaseRefused g e true) (fun ph _ => ph = PhaseRefused g e true)); [|done]; cbn; unfold at_gate; by rewrite decide_True|].
    intros ph [] ->. apply obeys_looking_then; [apply looking_await|]. intros _.
    apply obeys_looking_then; [apply looking_abandon|]. intros []. by apply obeys_returns.
Qed.

Lemma obeys_gated_child g command : obeys (gated_child rounds g command) PhaseIdle launch_returns.
Proof.
  assert (Hab : obeys (gate_abort g) (PhaseGated g) (fun ph _ => ph = PhaseAborted)).
  { apply (obeys_gate_abort _ _ PhaseAborted); [|done]. intros r. cbn. unfold at_gate. by rewrite decide_True. }
  apply obeys_looking_then; [by apply looking_call|]. intros [text|]; [apply obeys_looking_then; [apply looking_act|]; intros []; by apply obeys_returns|].
  eapply obeys_bind with (mid := fun ph _ => ph = PhaseGated g); [by exists (PhaseGated g)|]. intros ph [] ->.
  apply obeys_looking_then; [by apply looking_call|]. intros fails. apply obeys_looking_then.
  { destruct fails; [done|]. apply looking_bind; [apply looking_await|done]. }
  intros [p|e].
  - apply obeys_looking_then; [apply looking_proc_read|]. intros [t|]; [apply obeys_commit_and_open|].
    eapply obeys_bind; [exact Hab|]. intros ph [] ->. apply obeys_looking_then; [apply looking_await|]. intros _. by apply obeys_returns.
  - eapply obeys_bind; [exact Hab|]. intros ph [] ->. apply obeys_looking_then; [apply looking_await|]. intros spawned. by apply obeys_returns.
Qed.

Lemma obeys_gated_spawn spec log : obeys (gated_spawn rounds spec log) PhaseIdle launch_returns.
Proof.
  apply obeys_looking_then; [apply looking_await|]. intros []. apply obeys_looking_then; [by apply looking_call|].
  intros [text|]; [by apply obeys_looking_then|].
  apply obeys_looking_then; [apply looking_act|]. intros g.
  apply obeys_looking_then; [apply looking_open_log|]. intros [[]|e]; [apply obeys_gated_child|].
  apply obeys_looking_then; [apply looking_act|]. intros []. by apply obeys_returns.
Qed.
End Launch.

(** C15. The protocol of a launch, for all answers and every pace of the others: one spawning
    thread; [commit] is called at most once, with the identity the child reported, and only while the
    child waits at its gate; the byte that lets the child go on goes out at most once, and only
    after the commit succeeded; the byte that makes it give up only when nothing was committed (and always
    when the commit was refused); the watcher starts last, after the gate was opened; [Ok] is
    returned only for the instance that was committed and let go, and an error of the commit
    as it is. And in every run of the launcher, what was committed is the identity of a gated child: its
    number is the child's, and its start time too, unless the child had died by then. *)
Theorem gated_launch_protocol rounds :
  (forall spec log ls r, unix_trace (gated_spawn rounds spec log) ls r ->
    exists p, run_from launch_delta PhaseIdle ls = Some p /\ forall x, r = Some x -> launch_returns p x) /\
  (forall nix_try_from here_group k c i, kernel_wf k -> unix_reachable nix_try_from here_group rounds k c -> i ∈ u_committed c.1 ->
    exists g gate j, u_gates c.1 !! g = Some gate /\ g_child gate = Some j /\ launch_os_pid j = launch_os_pid i /\
      (j = i \/ alive j (u_kernel c.1) = false)).
Proof.
  split.
  - intros spec log ls r Htr. eapply obeys_sound in Htr as (p & Hp & Hr); [|apply obeys_gated_spawn]. exists p. split; [exact Hp|]. exact Hr.
  - intros nix_try_from here_group k c i Hk Hr Hi. destruct (unix_reachable_inv _ _ _ _ _ Hk Hr) as [Hw _].
    destruct (ui_committed _ Hw i Hi) as (g & j & (gate & E & Ej) & Hp & Hj). by exists g, gate, j.
Qed.

(** ** A launch that succeeds *)

Section Demo.
(** The others do their part at once, wherever the launch waits. *)
Definition steady : UnixWorld :=
  mkUnixWorld (mkKernel {[2000 := mkUnixProcess 77 Here 2000 None]} {[mkKeptLaunch 2000 77]} "boot" [])
    {[0%nat := mkGate (Some (mkKeptLaunch 2000 77)) [] (Some 2000) true false false PipeClosed (Some (Ok tt)) true]} false
    ∅ {[0%nat := watched_new 2000 77 Child None None]} ∅ 0 ∅ ∅ [] ∅ ∅ false [].

Definition steady_oracle (X : Type) (q : UnixPort X) : option X :=
  match q in UnixPort X return option X with
  | CallFails => Some None
  | Readable _ => Some true
  | PidfdOpens _ => Some false
  | Commit _ => Some (Ok tt)
  | GateSend _ _ => Some (Ok tt)
  | ExeOf _ => Some None
  | _ => None
  end.

Fixpoint steady_trace {A} (fuel : nat) (p : UProg A) : list asked * option A :=
  match fuel with
  | O => ([], None)
  | S fuel =>
      match p with
      | Ret a => ([], Some a)
      | Panic _ => ([], None)
      | Act f k => steady_trace fuel (k (f steady).2)
      | Call q k =>
          match steady_oracle _ q with
          | Some x => let '(ls, r) := steady_trace fuel (k x) in (Asked q x :: ls, r)
          | None => ([], None)
          end
      | Wait e _ k =>
          match fire unix_answer (fun _ => steady_oracle) e steady with
          | Some (_, x) => let '(ls, r) := steady_trace fuel (k x) in (labels unix_label e x ++ ls, r)
          | None => ([], None)
          end
      | Fork t k => let '(ls, r) := steady_trace fuel k in (Forked t :: ls, r)
      end
  end.

Lemma steady_trace_trace {A} fuel (p : UProg A) : unix_trace p (steady_trace fuel p).1 (steady_trace fuel p).2.
Proof.
  revert p. induction fuel as [|fuel IH]; intros p; cbn [steady_trace]; [constructor|]. destruct p as [a|m|X f k|X q k|X e d k|t k].
  - constructor.
  - constructor.
  - eapply tr_act, IH.
  - destruct (steady_oracle X q) as [x|]; [|constructor]. specialize (IH (k x)). destruct (steady_trace _ _). by apply (tr_call _ unix_label).
  - destruct (fire _ _ e steady) as [[s' x]|] eqn:E; [|constructor].
    specialize (IH (k x)). destruct (steady_trace _ _). eapply tr_wait; [by eapply fire_fires|done].
  - specialize (IH k). destruct (steady_trace _ _). by apply tr_fork.
Qed.

Definition steady_launch : list asked * option (result (KeptLaunch * nat) KeptError) :=
  steady_trace 60 (gated_spawn 5 (spec_new "sleep") None).

Lemma gated_launch_protocol_witness :
  steady_launch.2 = Some (Ok (mkKeptLaunch 2000 77, 0%nat)) /\
  (exists p, run_from launch_delta PhaseIdle steady_launch.1 = Some p /\ launch_returns p (Ok (mkKeptLaunch 2000 77, 0%nat))) /\
  exists g gate j, u_gates (demo_exec ∅ demo_launch).1 !! g = Some gate /\ g_child gate = Some j /\ launch_os_pid j = 2000.
Proof.
  assert (steady_launch.2 = Some (Ok (mkKeptLaunch 2000 77, 0%nat))) as E by (by vm_compute). split; [exact E|].
  destruct (gated_launch_protocol 5) as [Htrace Hall]. split.
  - destruct (Htrace (spec_new "sleep") None steady_launch.1 steady_launch.2) as (p & Hp & Hr); [apply steady_trace_trace|].
    exists p. split; [exact Hp|]. by apply Hr.
  - destruct (Hall demo_try_from 1000 demo_kernel (demo_exec ∅ demo_launch) demo_child demo_kernel_wf) as (g & gate & j & Eg & Ej & Ep & _).
    + apply demo_exec_reachable. repeat constructor.
    + apply (bool_decide_unpack _). by vm_compute.
    + exists g, gate, j. split; [exact Eg|split; [exact Ej|exact Ep]].
Defined.
End Demo.
