(* ===== verification/Procfs.v ===== *)
(** * Procfs: the texts of /proc

    What shepherd-infra/src/kept/unix.rs, backend/unix.rs and usage/linux.rs read from the files
    of a process on Linux, as functions of their bytes (or of the error of reading them). A file that is
    not UTF-8 is an error of [read_to_string]; bytes beyond ASCII are not white space (the kernel
    writes none after the name of a command). *)

From stdpp Require Import base list strings pretty.
From Stdlib Require Import Ascii SpecFloat.
From S2P Require Import Prelude StdModel Values Observation Usage KeptDomain FileSystem KeptState KeptStore.

Open Scope Z_scope.

(** ** [std::fs::read_to_string] *)

(** The ranges of the bytes that follow a first byte of UTF-8. *)
Definition utf8_follow (b : Z) : option (list (Z * Z)) :=
  let cont := (128, 191) in
  if in_range 0 127 b then Some []
  else if in_range 194 223 b then Some [cont]
  else if b =? 224 then Some [(160, 191); cont]
  else if b =? 237 then Some [(128, 159); cont]
  else if in_range 225 239 b then Some [cont; cont]
  else if b =? 240 then Some [(144, 191); cont; cont]
  else if in_range 241 243 b then Some [cont; cont; cont]
  else if b =? 244 then Some [(128, 143); cont; cont]
  else None.

(** [need]: the ranges that the bytes of the present character still have to be in. *)
Fixpoint utf8_run (need : list (Z * Z)) (l : list Z) : bool :=
  match l, need with
  | [], [] => true
  | [], _ => false
  | b :: l, [] => match utf8_follow b with Some need => utf8_run need l | None => false end
  | b :: l, (lo, hi) :: need => in_range lo hi b && utf8_run need l
  end.
Definition is_utf8 (bytes : string) : bool := utf8_run [] (bytes_of bytes).

(** A file that is read: its bytes, or why it cannot be read. *)
Abbreviation File := (result string string) (only parsing).

Definition read_to_string (file : File) : result string string :=
  match file with
  | Ok bytes => if is_utf8 bytes then Ok bytes else Err "stream did not contain valid UTF-8"
  | Err e => Err e
  end.

(** ** [str] *)

(** [str::rsplit_once] of a character. *)
Fixpoint rsplit_once (c : ascii) (s : string) : option (string * string) :=
  match s with
  | EmptyString => None
  | String a s =>
      match rsplit_once c s with
      | Some (x, y) => Some (String a x, y)
      | None => if Ascii.eqb a c then Some (EmptyString, s) else None
      end
  end.

(** [char::is_whitespace], in ASCII: space, tab, line feed, vertical tab, form feed, carriage
    return. *)
Definition is_whitespace (a : ascii) : bool :=
  match N_of_ascii a with 32 | 9 | 10 | 11 | 12 | 13 => true | _ => false end%N.

Definition cons_word (w : string) (ws : list string) : list string :=
  match w with EmptyString => ws | _ => w :: ws end.

(** The word in progress at the start of the text, and the later words. *)
Fixpoint ws_split (s : string) : string * list string :=
  match s with
  | EmptyString => (EmptyString, [])
  | String a s =>
      let '(w, ws) := ws_split s in
      if is_whitespace a then (EmptyString, cons_word w ws) else (String a w, ws)
  end.
Definition split_whitespace (s : string) : list string := let '(w, ws) := ws_split s in cons_word w ws.

Fixpoint trim_start (s : string) : string :=
  match s with
  | EmptyString => EmptyString
  | String a s' => if is_whitespace a then trim_start s' else s
  end.
Fixpoint trim_end (s : string) : string :=
  match s with
  | EmptyString => EmptyString
  | String a s =>
      match trim_end s with
      | EmptyString => if is_whitespace a then EmptyString else String a EmptyString
      | s => String a s
      end
  end.
Definition trim (s : string) : string := trim_end (trim_start s).

(** [str::lines]: no line after a final line feed; a line that ends with one loses it, and a
    carriage return before it. *)
Definition line_feed : ascii := ascii_of_N 10.
Definition carriage_return : string := String (ascii_of_N 13) EmptyString.
Definition close_line (line : string) (terminated : bool) : string :=
  if terminated then default line (strip_suffix carriage_return line) else line.
Fixpoint split_lines (s : string) : string * bool * list string :=
  match s with
  | EmptyString => (EmptyString, false, [])
  | String a s =>
      let '(l, terminated, ls) := split_lines s in
      if Ascii.eqb a line_feed
      then (EmptyString, true, match s with EmptyString => ls | _ => close_line l terminated :: ls end)
      else (String a l, terminated, ls)
  end.
Definition lines (s : string) : list string :=
  match s with
  | EmptyString => []
  | _ => let '(l, terminated, ls) := split_lines s in close_line l terminated :: ls
  end.

Fixpoint strip_prefix (prefix s : string) : option string :=
  match prefix, s with
  | EmptyString, _ => Some s
  | String a prefix, String b s => if Ascii.eqb a b then strip_prefix prefix s else None
  | String _ _, EmptyString => None
  end.

(** ** Numbers *)

Definition digit_of (a : ascii) : option Z :=
  let n := Z.of_N (N_of_ascii a) - 48 in
  if (0 <=? n) && (n <=? 9) then Some n else None.

Definition invalid_digit : string := "invalid digit found in string".
Definition too_large : string := "number too large to fit in target type".

Fixpoint digits (max acc : Z) (s : string) : result Z string :=
  match s with
  | EmptyString => Ok acc
  | String a s =>
      match digit_of a with
      | None => Err invalid_digit
      | Some d => if acc * 10 + d <=? max then digits max (acc * 10 + d) s else Err too_large
      end
  end.

(** [str::parse] of an unsigned number up to [max], of a [u64] and of an [i32], with the text of
    a [ParseIntError] (of an [i32] nobody looks at the error). *)
Definition parse_unsigned (max : Z) (s : string) : result Z string :=
  match s with
  | EmptyString => Err "cannot parse integer from empty string"
  | _ =>
      match strip_prefix "+" s with
      | Some EmptyString => Err invalid_digit
      | Some s => digits max 0 s
      | None => digits max 0 s
      end
  end.
Definition parse_u64 : string -> result Z string := parse_unsigned u64_max.
Definition parse_i32 (s : string) : option Z :=
  match strip_prefix "-" s with
  | Some EmptyString => None
  | Some s => n ← result_ok (digits (2 ^ 31) 0 s); Some (- n)
  | None => result_ok (parse_unsigned (2 ^ 31 - 1) s)
  end.
Definition parse_u64_ok (s : string) : option Z := result_ok (parse_u64 s).

(** ** /proc/<pid>/stat *)

(** The fields after the ")" that closes the name of the command, from field 3 (the state) on. *)
Definition stat_fields (stat : string) : option (list string) :=
  parts ← rsplit_once ")" stat; Some (split_whitespace parts.2).

Definition stat_field (file : File) (index : nat) : option string :=
  stat ← result_ok (read_to_string file); fields ← stat_fields stat; fields !! index.

Definition stat_zombie (file : File) : bool :=
  match stat_field file 0 with Some s => bool_decide (s = "Z" \/ s = "X") | None => false end.
Definition stat_parent (file : File) : option Z := s ← stat_field file 1; parse_i32 s.
Definition stat_group (file : File) : option Z := s ← stat_field file 2; parse_i32 s.

(** [read_start_time]: field 22. *)
Definition stat_start_time (file : File) : option Z := s ← stat_field file 19; parse_u64_ok s.

(** [sample_sync]: user and system time, in clock ticks, of the text. *)
Definition stat_ticks (stat : string) : result Z StatsError :=
  match stat_fields stat with
  | None => Err (StatsError_Backend "invalid proc stat")
  | Some fields =>
      match s ← fields !! 11%nat; parse_u64_ok s, s ← fields !! 12%nat; parse_u64_ok s with
      | Some user, Some system => Ok (u64_saturating_add user system)
      | _, _ => Err (StatsError_Backend "invalid CPU counters")
      end
  end.

(** ** /proc/<pid>/status and /proc/<pid>/io *)

(** [kb * 1024] with overflow checks: [None] is the panic. *)
Definition parse_kb (field : string) : option Z :=
  match s ← split_whitespace field !! 0%nat; parse_u64_ok s with
  | Some kb => if kb * 1024 <=? u64_max then Some (kb * 1024) else None
  | None => Some 0
  end.

Definition parse_state (field : string) : ProcessState :=
  match field with
  | String "R" _ => StateRunning
  | String "S" _ | String "D" _ => StateSleeping
  | String "T" _ => StateStopped
  | String "Z" _ => StateZombie
  | _ => StateUnknown
  end.

Record StatusFields : Type := mkStatusFields {
  sf_rss : Z;
  sf_vsize : option Z;
  sf_peak : option Z;
  sf_state : ProcessState;
}.

(** The body of the loop over the lines of status. *)
Definition status_line (f : StatusFields) (line : string) : option StatusFields :=
  match strip_prefix "VmRSS:" line with
  | Some rest => kb ← parse_kb rest; Some (mkStatusFields kb (sf_vsize f) (sf_peak f) (sf_state f))
  | None =>
      match strip_prefix "VmSize:" line with
      | Some rest => kb ← parse_kb rest; Some (mkStatusFields (sf_rss f) (Some kb) (sf_peak f) (sf_state f))
      | None =>
          match strip_prefix "VmHWM:" line with
          | Some rest => kb ← parse_kb rest; Some (mkStatusFields (sf_rss f) (sf_vsize f) (Some kb) (sf_state f))
          | None =>
              match strip_prefix "State:" line with
              | Some rest => Some (mkStatusFields (sf_rss f) (sf_vsize f) (sf_peak f) (parse_state (trim rest)))
              | None => Some f
              end
          end
      end
  end.

Fixpoint status_lines (f : StatusFields) (ls : list string) : option StatusFields :=
  match ls with
  | [] => Some f
  | line :: ls => f' ← status_line f line; status_lines f' ls
  end.

(** [lines().find_map(|line| line.strip_prefix(key))]. *)
Fixpoint find_prefix (key : string) (ls : list string) : option string :=
  match ls with
  | [] => None
  | line :: ls => match strip_prefix key line with Some rest => Some rest | None => find_prefix key ls end
  end.

Definition io_field (io key : string) : option Z := v ← find_prefix key (lines io); parse_u64_ok (trim v).

(** [sample_process], of the two files; [None] is a panic. *)
Definition sample_process (status io : File) : option (result RawStats StatsError) :=
  match read_to_string status with
  | Err e => Some (Err (StatsError_Backend e))
  | Ok status =>
      f ← status_lines (mkStatusFields 0 None None StateUnknown) (lines status);
      match read_to_string io with
      | Err e => Some (Err (StatsError_Backend e))
      | Ok io =>
          Some (Ok (mkRawStats (S754_zero false) (sf_rss f) (sf_vsize f) (sf_peak f)
            (io_field io "read_bytes:") (io_field io "write_bytes:") None (sf_state f)))
      end
  end.

(** ** usage/linux.rs *)

Definition unavailable {A} (text : string) : result A UsageFailure := Err (Unavailable text).

(** [?] on results. *)
Definition try_result {A B E} (r : result A E) (k : A -> result B E) : result B E :=
  match r with Ok a => k a | Err e => Err e end.
Notation "'let?' x ':=' r 'in' k" := (try_result r (fun x => k))
  (at level 200, x pattern, r at level 100, k at level 200, right associativity).

Definition or_unavailable {A} (r : result A string) : result A UsageFailure :=
  match r with Ok a => Ok a | Err text => unavailable text end.
Definition some_or_unavailable {A} (o : option A) (text : string) : result A UsageFailure := ok_or o (Unavailable text).

Definition stat_number (fields : list string) (index : nat) : result Z UsageFailure :=
  let? text := some_or_unavailable (fields !! index) "short stat" in
  or_unavailable (parse_u64 text).

(** [stat]: the start time and the CPU time, in ticks. *)
Definition usage_stat (file : File) : result (Z * Z) UsageFailure :=
  let? text := or_unavailable (read_to_string file) in
  let? fields := some_or_unavailable (stat_fields text) "invalid stat" in
  let? start := stat_number fields 19 in
  let? user := stat_number fields 11 in
  let? system := stat_number fields 12 in
  let? ticks := some_or_unavailable (u64_checked_add user system) "CPU overflow" in
  Ok (start, ticks).

Definition u64_checked_mul (a b : Z) : option Z := if a * b <=? u64_max then Some (a * b) else None.

Definition usage_rss (file : File) : result Z UsageFailure :=
  let? status := or_unavailable (read_to_string file) in
  let? text := some_or_unavailable (s ← find_prefix "VmRSS:" (lines status); split_whitespace s !! 0%nat)
    "resident memory unavailable" in
  let? kb := or_unavailable (parse_u64 text) in
  some_or_unavailable (u64_checked_mul kb 1024) "RSS overflow".

Definition usage_boot (file : File) : result Z UsageFailure :=
  let? stat := or_unavailable (read_to_string file) in
  let? text := some_or_unavailable (find_prefix "btime " (lines stat)) "boot time unavailable" in
  or_unavailable (parse_u64 text).

Definition usage_hz (hz : result (option Z) string) : result Z UsageFailure :=
  let? hz := or_unavailable hz in
  let? hz := some_or_unavailable hz "clock frequency unavailable" in
  if hz <=? 0 then unavailable "invalid clock frequency" else Ok hz.

(** [Duration::from_secs_f64]: rounded to the nearest nanosecond, ties to even; [None] is the panic. *)
Definition round_half_even (n d : Z) : Z :=
  let q := n / d in
  let r := n mod d in
  if 2 * r <? d then q else if d <? 2 * r then q + 1 else if Z.even q then q else q + 1.
Definition from_secs_f64 (x : f64) : option Duration :=
  match x with
  | S754_zero _ => Some 0
  | S754_finite false m e =>
      let nanos :=
        if 0 <=? e then Zpos m * 2 ^ e * nanos_per_sec else round_half_even (Zpos m * nanos_per_sec) (2 ^ (- e)) in
      if nanos <=? Duration_MAX then Some nanos else None
  | _ => None
  end.

(** The start in seconds of the epoch; [None] is the panic of [+]. *)
Definition start_seconds (boot start hz : Z) : option Z := u64_checked_add boot (start / hz).

(** [sample], of the files it reads one after the other; [None] is a panic. *)
Definition linux_sample (identity : ObservedProcessIdentity) (stat1 status boot stat2 : File)
    (hz : result (option Z) string) (now : Z) : option (result ProcessUsage UsageFailure) :=
  match
    (let? first := usage_stat stat1 in
     let? rss := usage_rss status in
     let? boot := usage_boot boot in
     let? hz := usage_hz hz in
     Ok (first, rss, boot, hz))
  with
  | Err e => Some (Err e)
  | Ok ((start, ticks), rss, boot, hz) =>
      matches ← match oi_start_time identity with
                | None => Some true
                | Some s => seconds ← start_seconds boot start hz; Some (s =? seconds)
                end;
      match (if matches : bool then let? second := usage_stat stat2 in Ok second.1 else Ok start) with
      | Err e => Some (Err e)
      | Ok again =>
          if negb matches || negb (again =? start) then Some (Err UsageIdentityChanged)
          else
            cpu ← from_secs_f64 (f64_div (f64_of_Z ticks) (f64_of_Z hz));
            Some (Ok (mkProcessUsage identity start now cpu rss None None None None))
      end
  end.

(** ** The line of a process *)

Fixpoint all_chars (ok : ascii -> bool) (s : string) : bool :=
  match s with EmptyString => true | String a s => ok a && all_chars ok s end.

Definition is_ascii (a : ascii) : bool := (N_of_ascii a <? 128)%N.

(** A field after the name: not empty, in ASCII, and without white space and parentheses. *)
Definition plain_char (a : ascii) : bool := negb (is_whitespace a) && negb (Ascii.eqb a ")") && is_ascii a.
Definition plain (s : string) : Prop := s <> EmptyString /\ all_chars plain_char s = true.

Fixpoint spaced (fields : list string) : string :=
  match fields with [] => EmptyString | field :: fields => " " +:+ field +:+ spaced fields end.

(** What the kernel writes: the number, the name of the command (any bytes, set by the program
    itself) in parentheses, and the fields. *)
Definition stat_line (pid : Z) (comm : string) (fields : list string) : string :=
  decimal pid +:+ " (" +:+ comm +:+ ")" +:+ spaced fields +:+ String line_feed EmptyString.

Definition no_char (c : ascii) (s : string) : bool := all_chars (fun a => negb (Ascii.eqb a c)) s.

Lemma all_chars_app ok s t : all_chars ok (s +:+ t) = all_chars ok s && all_chars ok t.
Proof. induction s as [|a s IH]; [done|]. rewrite sapp_cons. cbn. by rewrite IH, andb_assoc. Qed.

Lemma all_chars_impl ok1 ok2 s : (forall a, ok1 a = true -> ok2 a = true) -> all_chars ok1 s = true -> all_chars ok2 s = true.
Proof. intros H. induction s as [|a s IH]; [done|]. cbn. rewrite !andb_true_iff. naive_solver. Qed.

Lemma rsplit_once_none c s : no_char c s = true -> rsplit_once c s = None.
Proof.
  induction s as [|a s IH]; [done|]. unfold no_char in *. cbn. rewrite andb_true_iff, negb_true_iff. intros [Ha Hs].
  rewrite (IH Hs). by rewrite Ha.
Qed.

Lemma rsplit_once_app c s t : no_char c t = true -> rsplit_once c (s +:+ String c t) = Some (s, t).
Proof.
  intros Ht. induction s as [|a s IH].
  - change (EmptyString +:+ String c t) with (String c t). cbn. by rewrite rsplit_once_none, Ascii.eqb_refl by done.
  - rewrite sapp_cons. cbn. by rewrite IH.
Qed.

Lemma ws_split_word s t : all_chars plain_char s = true -> ws_split (s +:+ t) = (s +:+ (ws_split t).1, (ws_split t).2).
Proof.
  induction s as [|a s IH].
  - intros _. change (EmptyString +:+ t) with t. by destruct (ws_split t).
  - rewrite !sapp_cons. cbn [ws_split all_chars]. unfold plain_char at 1. rewrite !andb_true_iff, !negb_true_iff.
    intros [[[Ha _] _] Hs]. by rewrite (IH Hs), Ha.
Qed.

Lemma ws_split_spaced fields : Forall plain fields ->
  ws_split (spaced fields +:+ String line_feed EmptyString) = (EmptyString, fields).
Proof.
  induction 1 as [|field fields [Hne Hf] _ IH]; [done|]. cbn [spaced].
  change (" " +:+ field +:+ spaced fields) with (String " " (field +:+ spaced fields)).
  rewrite sapp_cons, sapp_assoc. cbn [ws_split]. rewrite ws_split_word, IH by done. cbn. rewrite sapp_nil_r. by destruct field.
Qed.

Lemma stat_fields_line pid comm fields : Forall plain fields -> stat_fields (stat_line pid comm fields) = Some fields.
Proof.
  intros Hf. unfold stat_fields, stat_line.
  replace (decimal pid +:+ " (" +:+ comm +:+ ")" +:+ spaced fields +:+ String line_feed EmptyString)
    with ((decimal pid +:+ " (" +:+ comm) +:+ String ")" (spaced fields +:+ String line_feed EmptyString))
    by (rewrite !sapp_assoc; reflexivity).
  rewrite rsplit_once_app; cbn.
  - unfold split_whitespace. by rewrite ws_split_spaced.
  - unfold no_char. rewrite all_chars_app. induction Hf as [|field fields [_ Hp] _ IH]; [done|].
    rewrite andb_true_iff in *. destruct IH as [IH _]. split; [|done]. cbn [spaced]. rewrite !all_chars_app, !andb_true_iff.
    split_and!; [done| |done]. eapply all_chars_impl; [|exact Hp]. intros a. unfold plain_char. by rewrite !andb_true_iff; intros [[_ ?] _].
Qed.

(** *** A number and its digits *)

Lemma digit_of_pretty d : (d < 10)%N -> digit_of (pretty_N_char d) = Some (Z.of_N d).
Proof.
  intros Hd. assert (d = 0 \/ d = 1 \/ d = 2 \/ d = 3 \/ d = 4 \/ d = 5 \/ d = 6 \/ d = 7 \/ d = 8 \/ d = 9)%N as H by lia.
  by destruct H as [->|[->|[->|[->|[->|[->|[->|[->|[->| ->]]]]]]]]].
Qed.

Lemma digits_pretty max x s : Z.of_N x <= max ->
  digits max 0 (pretty_N_go x s) = digits max (Z.of_N x) s.
Proof.
  revert s. induction (N.lt_wf_0 x) as [x _ IH]. intros s Hx. destruct (decide (0 < x)%N) as [Hp|Hp].
  - rewrite pretty_N_go_step by done. assert (x / 10 < x)%N by (apply N.div_lt; lia).
    pose proof (N.div_mod x 10 ltac:(lia)). pose proof (N.mod_lt x 10 ltac:(lia)).
    rewrite IH by lia. cbn [digits]. rewrite digit_of_pretty by done.
    replace (Z.of_N (x / 10) * 10 + Z.of_N (x mod 10)) with (Z.of_N x) by lia.
    rewrite (proj2 (Z.leb_le _ _) Hx). done.
  - assert (x = 0%N) as -> by lia. by rewrite pretty_N_go_0.
Qed.

Lemma parse_u64_decimal n : 0 <= n <= u64_max -> parse_u64_ok (decimal n) = Some n.
Proof.
  intros Hn. unfold parse_u64_ok, parse_u64. assert (Hp : decimal n = pretty (Z.to_N n)) by (destruct n; [done..|lia]).
  rewrite Hp. destruct (decide (n = 0)) as [->|Hz]; [done|].
  assert (Hd : parse_unsigned u64_max (pretty (Z.to_N n)) = digits u64_max 0 (pretty (Z.to_N n))).
  { unfold pretty, pretty_N. rewrite decide_False by lia.
    assert (Hs : forall x s, (0 < x)%N -> exists d s', (d < 10)%N /\ pretty_N_go x s = String (pretty_N_char d) s').
    { clear. intros x. induction (N.lt_wf_0 x) as [x _ IH]. intros s Hx. rewrite pretty_N_go_step by done.
      destruct (decide (0 < x / 10)%N) as [Hq|Hq].
      - apply IH; [apply N.div_lt; lia|done].
      - assert ((x / 10)%N = 0%N) as -> by (destruct (x / 10)%N; [done|lia]). rewrite pretty_N_go_0. eexists _, _. split; [|reflexivity]. apply N.mod_lt. lia. }
    destruct (Hs (Z.to_N n) EmptyString ltac:(lia)) as (d & s' & Hlt & ->).
    assert (d = 0 \/ d = 1 \/ d = 2 \/ d = 3 \/ d = 4 \/ d = 5 \/ d = 6 \/ d = 7 \/ d = 8 \/ d = 9)%N as H by lia.
    by destruct H as [->|[->|[->|[->|[->|[->|[->|[->|[->| ->]]]]]]]]]. }
  rewrite Hd. unfold pretty, pretty_N. rewrite decide_False by lia. rewrite digits_pretty by lia. cbn. by rewrite Z2N.id by lia.
Qed.

(** *** Which lines are text *)

Definition byte_of (a : ascii) : Z := Z.of_N (N_of_ascii a).

Lemma bytes_of_cons a s : bytes_of (String a s) = byte_of a :: bytes_of s.
Proof. done. Qed.

Lemma bytes_of_app s t : bytes_of (s +:+ t) = bytes_of s ++ bytes_of t.
Proof. induction s as [|a s IH]; [done|]. rewrite sapp_cons, !bytes_of_cons, IH. done. Qed.

Lemma utf8_ascii_byte a : is_ascii a = true -> utf8_follow (byte_of a) = Some [] /\ byte_of a < 128.
Proof.
  unfold is_ascii, byte_of, utf8_follow, in_range. rewrite N.ltb_lt. intros Ha. rewrite (proj2 (Z.leb_le _ _)), (proj2 (Z.leb_le _ _)) by lia.
  split; [done|lia].
Qed.

Lemma utf8_ascii_prefix s t : all_chars is_ascii s = true -> is_utf8 (s +:+ t) = is_utf8 t.
Proof.
  unfold is_utf8. induction s as [|a s IH]; [done|]. cbn [all_chars]. rewrite andb_true_iff. intros [Ha Hs].
  rewrite sapp_cons, bytes_of_cons. cbn [utf8_run]. destruct (utf8_ascii_byte a Ha) as [-> _]. by apply IH.
Qed.

(** A byte of ASCII completes no character that was begun. *)
Definition high (r : Z * Z) : Prop := 128 <= r.1.

Lemma utf8_follow_high b need : utf8_follow b = Some need -> Forall high need.
Proof.
  unfold utf8_follow. repeat case_match; intros [= <-]; repeat constructor; unfold high; cbn; lia.
Qed.

Lemma utf8_run_ascii s : all_chars is_ascii s = true -> utf8_run [] (bytes_of s) = true.
Proof.
  induction s as [|a s IH]; [done|]. cbn [all_chars]. rewrite andb_true_iff. intros [Ha Hs]. rewrite bytes_of_cons. cbn [utf8_run].
  destruct (utf8_ascii_byte a Ha) as [-> _]. by apply IH.
Qed.

Lemma utf8_run_suffix need l t : all_chars is_ascii t = true -> Forall high need -> utf8_run need (l ++ bytes_of t) = utf8_run need l.
Proof.
  intros Ht. revert need. induction l as [|b l IH]; intros need Hn; cbn [app].
  - destruct need as [|[lo hi] need]; [by apply utf8_run_ascii|]. inversion Hn as [|? ? Hlo]; subst.
    destruct t as [|a t]; [done|]. rewrite bytes_of_cons. cbn. cbn in Ht. apply andb_true_iff in Ht as [Ha _].
    destruct (utf8_ascii_byte a Ha) as [_ Hb]. unfold in_range. unfold high in Hlo. cbn in Hlo.
    by rewrite (proj2 (Z.leb_gt _ _)) by lia.
  - cbn [utf8_run]. destruct need as [|[lo hi] need].
    + destruct (utf8_follow b) as [need|] eqn:E; [|done]. apply IH. by eapply utf8_follow_high.
    + inversion Hn; subst. by rewrite IH.
Qed.

Lemma utf8_ascii_suffix s t : all_chars is_ascii t = true -> is_utf8 (s +:+ t) = is_utf8 s.
Proof. intros Ht. unfold is_utf8. rewrite bytes_of_app. by apply utf8_run_suffix. Qed.

Lemma decimal_ascii n : all_chars is_ascii (decimal n) = true.
Proof.
  assert (Hd : forall d, (d < 10)%N -> is_ascii (pretty_N_char d) = true).
  { intros d Hd. assert (d = 0 \/ d = 1 \/ d = 2 \/ d = 3 \/ d = 4 \/ d = 5 \/ d = 6 \/ d = 7 \/ d = 8 \/ d = 9)%N as H by lia.
    by destruct H as [->|[->|[->|[->|[->|[->|[->|[->|[->| ->]]]]]]]]]. }
  assert (Hg : forall x s, all_chars is_ascii s = true -> all_chars is_ascii (pretty_N_go x s) = true).
  { intros x. induction (N.lt_wf_0 x) as [x _ IH]. intros s Hs. destruct (decide (0 < x)%N) as [Hp|Hp].
    - rewrite pretty_N_go_step by done. apply IH; [apply N.div_lt; lia|]. cbn. rewrite Hd, Hs; [done|apply N.mod_lt; lia].
    - assert (x = 0%N) as -> by lia. by rewrite pretty_N_go_0. }
  assert (Hn : forall x : N, all_chars is_ascii (pretty x) = true).
  { intros x. unfold pretty, pretty_N. case_decide; [done|]. by apply Hg. }
  destruct n as [|p|p]; [done|exact (Hn (Npos p))|]. change (decimal (Zneg p)) with ("-" +:+ pretty (Npos p)). rewrite all_chars_app. by rewrite Hn.
Qed.

Lemma plain_char_ascii a : plain_char a = true -> is_ascii a = true.
Proof. unfold plain_char. rewrite andb_true_iff. by intros [_ Ha]. Qed.

Lemma spaced_ascii fields : Forall plain fields -> all_chars is_ascii (spaced fields) = true.
Proof.
  induction 1 as [|field fields [_ Hf] _ IH]; [done|]. cbn [spaced]. rewrite !all_chars_app, IH.
  rewrite (all_chars_impl plain_char is_ascii field plain_char_ascii Hf). reflexivity.
Qed.

(** The line is text when the name is. *)
Lemma stat_line_utf8 pid comm fields : Forall plain fields -> is_utf8 (stat_line pid comm fields) = is_utf8 comm.
Proof.
  intros Hf. unfold stat_line. rewrite utf8_ascii_prefix by apply decimal_ascii. rewrite utf8_ascii_prefix by done.
  rewrite utf8_ascii_suffix; [done|]. rewrite !all_chars_app. by rewrite spaced_ascii.
Qed.

(** C38. A process cannot forge what is read about it. For every name that is UTF-8 (with parentheses
    and spaces too), each field of the line that the kernel writes is read back as it was
    written, and so is the start time that identifies the instance; for a name that is not
    UTF-8 nothing is read at all: no field, no start time, no times of a sample. *)
Theorem stat_reads_exact pid comm fields :
  Forall plain fields ->
  if is_utf8 comm then
    (forall n, stat_field (Ok (stat_line pid comm fields)) n = fields !! n) /\
    forall t, fields !! 19%nat = Some (decimal t) -> 0 <= t <= u64_max -> stat_start_time (Ok (stat_line pid comm fields)) = Some t
  else
    (forall n, stat_field (Ok (stat_line pid comm fields)) n = None) /\
    stat_start_time (Ok (stat_line pid comm fields)) = None /\
    exists text, usage_stat (Ok (stat_line pid comm fields)) = Err (Unavailable text).
Proof.
  intros Hf. pose proof (stat_fields_line pid comm fields Hf) as Hs. pose proof (stat_line_utf8 pid comm fields Hf) as Hu.
  destruct (is_utf8 comm).
  - assert (Hn : forall n, stat_field (Ok (stat_line pid comm fields)) n = fields !! n).
    { intros n. unfold stat_field, read_to_string. rewrite Hu. cbn. by rewrite Hs. }
    split; [exact Hn|]. intros t Ht Hr. unfold stat_start_time. rewrite Hn, Ht. by apply parse_u64_decimal.
  - assert (Hn : forall n, stat_field (Ok (stat_line pid comm fields)) n = None).
    { intros n. unfold stat_field, read_to_string. by rewrite Hu. }
    split_and!; [exact Hn|unfold stat_start_time; by rewrite Hn|]. unfold usage_stat, read_to_string. rewrite Hu. by eexists.
Qed.

(** A process that calls itself like the rest of a line, and one whose name is cut in the middle of a
    character. *)
Definition forged_fields : list string :=
  ["S"; "1"; "42"; "42"; "0"; "-1"; "4194560"; "100"; "0"; "0"; "0"; "7"; "5"; "0"; "0"; "20"; "0"; "1"; "0"; "123456"; "1000"].
Definition cut_name : string := String (ascii_of_N 195) EmptyString.
Lemma stat_reads_exact_witness :
  (stat_field (Ok (stat_line 42 "x) Z 1 (" forged_fields)) 0 = Some "S" /\
   stat_start_time (Ok (stat_line 42 "x) Z 1 (" forged_fields)) = Some 123456) /\
  stat_start_time (Ok (stat_line 42 cut_name forged_fields)) = None.
Proof.
  assert (Forall plain forged_fields) as Hf by (repeat constructor; discriminate). split.
  - destruct (stat_reads_exact 42 "x) Z 1 (" forged_fields Hf) as [Hn Ht].
    split; [rewrite Hn; reflexivity|]. apply Ht; [reflexivity|done].
  - destruct (stat_reads_exact 42 cut_name forged_fields Hf) as (_ & Hn & _). exact Hn.
Defined.
