(* ===== verification/Samplers.v ===== *)
(** * Samplers: resource usage on macOS and Windows

    shepherd-infra/src/usage/macos.rs and usage/windows.rs, over the answers of the system calls:
    the records of proc_pid_rusage and its older versions, the conversion of Mach time, the list
    of a process group, whose buffer grows until the list fits, and FILETIMEs. *)

From stdpp Require Import base list gmap strings.
From S2P Require Import Prelude StdModel Values Observation Usage FileSystem KeptState KeptStore Procfs.

Open Scope Z_scope.

(** [TryFromIntError]. *)
Definition out_of_range : string := "out of range integral type conversion attempted".

(** ** usage/macos.rs *)

(** The fields of rusage_info_v4 that are read, zero where an older version does not write. *)
Record MacRusage : Type := mkMacRusage {
  ri_user_time : Z;
  ri_system_time : Z;
  ri_proc_start_abstime : Z;
  ri_resident_size : Z;
  ri_phys_footprint : Z;
  ri_lifetime_max_phys_footprint : Z;
  ri_diskio_bytesread : Z;
  ri_diskio_byteswritten : Z;
}.

Definition RUSAGE_INFO_V0 : Z := 0.
Definition RUSAGE_INFO_V2 : Z := 2.
Definition RUSAGE_INFO_V4 : Z := 4.

(** A failed call: whether it is EINVAL, and its text. *)
Definition MacCall : Type := Z -> result MacRusage (bool * string).

(** The loop of [read_with]; [None] is [unreachable!()]. *)
Fixpoint read_flavors (call : MacCall) (flavors : list Z) : option (result (MacRusage * Z) string) :=
  match flavors with
  | [] => None
  | flavor :: flavors =>
      match call flavor with
      | Ok raw => Some (Ok (raw, flavor))
      | Err (einval, text) =>
          if einval && negb (flavor =? RUSAGE_INFO_V0) then read_flavors call flavors else Some (Err text)
      end
  end.
Definition read_with (call : MacCall) : option (result (MacRusage * Z) string) :=
  read_flavors call [RUSAGE_INFO_V4; RUSAGE_INFO_V2; RUSAGE_INFO_V0].

(** [nanos]: in [u128], whose operations would panic if they overflowed ([None]). *)
Definition u128_max : Z := 2 ^ 128 - 1.
Definition u128_checked (z : Z) : option Z := if z <=? u128_max then Some z else None.
Definition nanos (user system numer denom : Z) : option (result Z UsageFailure) :=
  if denom =? 0 then Some (unavailable "invalid Mach timebase")
  else
    sum ← u128_checked (user + system);
    scaled ← u128_checked (sum * numer);
    Some (if scaled / denom <=? u64_max then Ok (scaled / denom) else unavailable out_of_range).

(** [then_some]. *)
Definition then_some {A} (b : bool) (x : A) : option A := if b then Some x else None.

(** [sample]: the start before (seconds and microseconds), the record, the start after, and the
    timebase, unless its query failed; [None] is a panic. *)
Definition mac_sample (identity : ObservedProcessIdentity) (before : result (Z * Z) string) (call : MacCall) (now : Z)
    (after : result (Z * Z) string) (timebase : option (Z * Z)) : option (result ProcessUsage UsageFailure) :=
  if 2 ^ 31 - 1 <? Z.of_N (oi_os_pid identity) then Some (unavailable out_of_range)
  else if Z.of_N (oi_os_pid identity) <=? 0 then Some (unavailable "invalid PID")
  else
    match before with
    | Err text => Some (unavailable text)
    | Ok before =>
        if match oi_start_time identity with Some s => negb (s =? before.1) | None => false end
        then Some (Err UsageIdentityChanged)
        else
          record ← read_with call;
          match record with
          | Err text => Some (unavailable text)
          | Ok (raw, flavor) =>
              match after with
              | Err text => Some (unavailable text)
              | Ok after =>
                  if negb ((before.1 =? after.1) && (before.2 =? after.2)) then Some (Err UsageIdentityChanged)
                  else
                    match timebase with
                    | None => Some (unavailable "Mach timebase query failed")
                    | Some (numer, denom) =>
                        cpu ← nanos (ri_user_time raw) (ri_system_time raw) numer denom;
                        Some (let? cpu := cpu in
                              Ok (mkProcessUsage identity (ri_proc_start_abstime raw) now cpu (ri_resident_size raw)
                                    (Some (ri_phys_footprint raw))
                                    (then_some (RUSAGE_INFO_V4 <=? flavor) (ri_lifetime_max_phys_footprint raw))
                                    (then_some (RUSAGE_INFO_V2 <=? flavor) (ri_diskio_bytesread raw))
                                    (then_some (RUSAGE_INFO_V2 <=? flavor) (ri_diskio_byteswritten raw))))
                    end
              end
          end
    end.

(** *** The members of a group *)

(** proc_listpgrppids with a buffer of this capacity: the count (negative: it failed), what is in the buffer then,
    and the text of the error. Each capacity is tried once. *)
Definition ListPids : Type := Z -> Z * list Z * string.

Definition LIST_CAPACITY : Z := 64.
Definition LIST_BOUND : Z := 1048576.

Fixpoint list_loop (fuel : nat) (call : ListPids) (capacity : Z) : option (result (list Z) ObservationError) :=
  match fuel with
  | O => None
  | S fuel =>
      let '(count, pids, text) := call capacity in
      if count <? 0 then Some (Err (ObservationBackend text))
      else if count <? capacity then Some (Ok (take (Z.to_nat count) pids))
      else
        let capacity := capacity * 2 in
        if LIST_BOUND <? capacity then Some (Err (ObservationBackend "PID list exceeds sampling bound"))
        else list_loop fuel call capacity
  end.
Definition LIST_ROUNDS : nat := 15.
Definition mac_group_members (call : ListPids) : option (result (list Z) ObservationError) := list_loop LIST_ROUNDS call LIST_CAPACITY.

(** [group]: the members but the leader, sampled; one that has left the group by then is no
    measurement of it. *)
Definition mac_group (pgid : Z) (pids : result (list Z) ObservationError) (sample : ObservedProcessIdentity -> result ProcessUsage UsageFailure)
    (getpgid : Z -> option Z) (started_at finished_at : Z) : result UsageSnapshot ObservationError :=
  match pids with
  | Err e => Err e
  | Ok pids =>
      let members :=
        map (fun p => mkObservedIdentity (Z.to_N p) None) (filter (fun p => (0 <? p) && negb (p =? pgid) = true) pids) in
      let result := collect sample members SelectProcessGroup started_at finished_at in
      Ok (mkUsageSnapshot (us_selection result) (us_started_at result) (us_finished_at result)
            (map (fun entry =>
               if bool_decide (getpgid (Z.of_N (oi_os_pid (ue_identity entry))) = Some pgid) then entry
               else mkUsageEntry (ue_identity entry) (Err UsageIdentityChanged)) (us_entries result)))
  end.

(** ** usage/windows.rs *)

(** A FILETIME: its high and its low half. *)
Definition ticks (t : Z * Z) : Z := Z.lor (Z.shiftl t.1 32) t.2.

Definition u64_checked_sub (a b : Z) : option Z := if b <=? a then Some (a - b) else None.
Definition EPOCH_SECONDS : Z := 11644473600.

(** [sample]: of the opening of the process, its creation, kernel and user time, and its working set. *)
Definition windows_sample (identity : ObservedProcessIdentity) (opened : option string)
    (times : result ((Z * Z) * (Z * Z) * (Z * Z)) string) (memory : result Z string) (now : Z) : result ProcessUsage UsageFailure :=
  match opened with
  | Some text => unavailable text
  | None =>
      let? times := or_unavailable times in
      let '(creation, kernel, user) := times in
      let start := ticks creation in
      let? epoch := some_or_unavailable (u64_checked_sub (start / 10000000) EPOCH_SECONDS) "invalid process creation time" in
      if match oi_start_time identity with Some s => negb (s =? epoch) | None => false end then Err UsageIdentityChanged
      else
        let? resident := or_unavailable memory in
        let? cpu := some_or_unavailable (t ← u64_checked_add (ticks user) (ticks kernel); u64_checked_mul t 100) "CPU overflow" in
        Ok (mkProcessUsage identity start now cpu resident None None None None)
  end.

(** ** Properties *)

(** An older version of the record is asked for only when the newer one is not known, and the loop ends
    with an answer. *)
Lemma read_with_spec call :
  exists r, read_with call = Some r /\
  match r with
  | Ok (raw, flavor) => call flavor = Ok raw /\ flavor ∈ [RUSAGE_INFO_V4; RUSAGE_INFO_V2; RUSAGE_INFO_V0] /\
      forall newer, newer ∈ [RUSAGE_INFO_V4; RUSAGE_INFO_V2] -> flavor < newer -> exists text, call newer = Err (true, text)
  | Err text => exists flavor einval, call flavor = Err (einval, text) /\ (einval = false \/ flavor = RUSAGE_INFO_V0)
  end.
Proof.
  unfold read_with. cbn [read_flavors].
  destruct (call RUSAGE_INFO_V4) as [raw|[[] text]] eqn:E4; cbn.
  - eexists. split; [done|]. split_and!; [done|set_solver|]. intros newer Hn Hlt. set_unfold in Hn. unfold RUSAGE_INFO_V4, RUSAGE_INFO_V2 in *. lia.
  - destruct (call RUSAGE_INFO_V2) as [raw|[[] text2]] eqn:E2; cbn.
    + eexists. split; [done|]. split_and!; [done|set_solver|]. intros newer Hn Hlt. set_unfold in Hn.
      destruct Hn as [->|[->|[]]]; [by eexists|unfold RUSAGE_INFO_V2 in Hlt; lia].
    + destruct (call RUSAGE_INFO_V0) as [raw|[einval text0]] eqn:E0; cbn.
      * eexists. split; [done|]. split_and!; [done|set_solver|]. intros newer Hn Hlt. set_unfold in Hn.
        destruct Hn as [->|[->|[]]]; by eexists.
      * rewrite andb_false_r. eexists. split; [done|]. exists RUSAGE_INFO_V0, einval. split; [done|by right].
    + eexists. split; [done|]. exists RUSAGE_INFO_V2, false. split; [done|by left].
  - eexists. split; [done|]. exists RUSAGE_INFO_V4, false. split; [done|by left].
Qed.

(** The conversion of Mach time never overflows: both counters are at most [u64], the timebase at most
    [u32]; what does not fit a [u64] is an error. *)
Lemma nanos_exact user system numer denom :
  0 <= user <= u64_max -> 0 <= system <= u64_max -> 0 <= numer < 2 ^ 32 -> 0 < denom < 2 ^ 32 ->
  nanos user system numer denom =
    Some (if (user + system) * numer / denom <=? u64_max then Ok ((user + system) * numer / denom) else unavailable out_of_range).
Proof.
  intros Hu Hs Hn Hd. unfold nanos, u128_checked, u128_max, u64_max in *.
  rewrite (proj2 (Z.eqb_neq denom 0)) by lia. rewrite (proj2 (Z.leb_le (user + system) _)) by lia. cbn [mbind option_bind].
  rewrite (proj2 (Z.leb_le ((user + system) * numer) _)) by nia. done.
Qed.

(** The start before and the start after a sample are the same, and it is the one asked for. *)
Lemma mac_sample_same_process identity before call now after timebase u :
  mac_sample identity before call now after timebase = Some (Ok u) ->
  before = after /\ pu_identity u = identity /\
  forall s, oi_start_time identity = Some s -> exists start, before = Ok start /\ start.1 = s.
Proof.
  unfold mac_sample. destruct (_ <? _); [done|]. destruct (_ <=? _); [done|]. destruct before as [[s us]|text]; [|done].
  generalize (read_with call). intros record. cbn.
  destruct (match oi_start_time identity with Some s0 => negb (s0 =? s) | None => false end) eqn:Hs; [done|].
  destruct record as [[[raw flavor]|text]|]; cbn; [|done..]. destruct after as [[s' us']|text]; [|done]. cbn.
  destruct ((s =? s') && (us =? us')) eqn:He; [|done]. cbn. apply andb_true_iff in He as [->%Z.eqb_eq ->%Z.eqb_eq].
  destruct timebase as [[numer denom]|]; [|done]. destruct (nanos _ _ _ _) as [[cpu|e]|]; cbn; [|done..]. intros [= <-].
  split_and!; [done..|]. intros s0 E. rewrite E in Hs. apply negb_false_iff, Z.eqb_eq in Hs. subst s0. by eexists.
Qed.

(** *** The members of a group *)

(** What proc_listpgrppids answers of a group with these members: as many as the buffer holds, unless it
    fails. *)
Definition lists_members (members : list Z) (call : ListPids) : Prop :=
  forall capacity, 0 <= capacity -> let '(count, pids, _) := call capacity in
    count < 0 \/ (count = Z.min capacity (Z.of_nat (length members)) /\ take (Z.to_nat count) pids = take (Z.to_nat count) members).

Lemma list_loop_spec members call fuel capacity :
  lists_members members call -> 0 < capacity -> LIST_BOUND < capacity * 2 ^ (Z.of_nat fuel) -> capacity <= LIST_BOUND ->
  exists r, list_loop fuel call capacity = Some r /\
  match r with
  | Ok pids => pids = members
  | Err _ => (exists capacity, (call capacity).1.1 < 0) \/ LIST_BOUND < 2 * Z.of_nat (length members)
  end.
Proof.
  intros Hc. revert capacity. induction fuel as [|fuel IH]; intros capacity Hpos Hb Hle; [cbn in Hb; lia|].
  cbn [list_loop]. specialize (Hc capacity ltac:(lia)) as Hcap. destruct (call capacity) as [[count pids] text] eqn:Ec.
  destruct (count <? 0) eqn:Hneg.
  { eexists. split; [done|]. left. exists capacity. rewrite Ec. by apply Z.ltb_lt. }
  apply Z.ltb_ge in Hneg. destruct Hcap as [?|[Hcount Hpids]]; [lia|].
  destruct (count <? capacity) eqn:Hlt.
  { apply Z.ltb_lt in Hlt. eexists. split; [done|]. rewrite Hpids. apply take_ge. lia. }
  apply Z.ltb_ge in Hlt. destruct (LIST_BOUND <? capacity * 2) eqn:Hbound.
  { apply Z.ltb_lt in Hbound. eexists. split; [done|]. right. lia. }
  apply Z.ltb_ge in Hbound. apply IH; [lia| |done].
  replace (Z.of_nat (S fuel)) with (Z.succ (Z.of_nat fuel)) in Hb by lia. rewrite Z.pow_succ_r in Hb by lia. lia.
Qed.

(** The loop ends within its 15 rounds, and a list that it returns is the whole group, never a part of it;
    without a failure of the call only a group of more than half a million gives none. *)
Theorem group_members_complete members call :
  lists_members members call ->
  exists r, mac_group_members call = Some r /\
  match r with
  | Ok pids => pids = members
  | Err _ => (exists capacity, (call capacity).1.1 < 0) \/ LIST_BOUND < 2 * Z.of_nat (length members)
  end.
Proof. intros Hc. by apply list_loop_spec. Qed.

Definition lists (members : list Z) : ListPids :=
  fun capacity => (Z.min capacity (Z.of_nat (length members)), take (Z.to_nat capacity) members, EmptyString).

Lemma lists_lists members : lists_members members (lists members).
Proof.
  intros capacity Hpos. right. split; [done|]. rewrite take_take. f_equal. lia.
Qed.

Lemma group_members_complete_witness :
  let members := map Z.of_nat (seq 1 200) in mac_group_members (lists members) = Some (Ok members) /\
  exists r, mac_group_members (lists members) = Some r /\
  match r with
  | Ok pids => pids = members
  | Err _ => (exists capacity, (lists members capacity).1.1 < 0) \/ LIST_BOUND < 2 * Z.of_nat (length members)
  end.
Proof. intros members. split; [by vm_compute|]. apply (group_members_complete members (lists members)), lists_lists. Defined.

(** A process that is measured as a member of a group was in the group after its measurement, and is not
    the leader. *)
Lemma mac_group_entries pgid pids sample getpgid t1 t2 result entry :
  mac_group pgid (Ok pids) sample getpgid t1 t2 = Ok result -> entry ∈ us_entries result -> is_Some (result_ok (ue_measurement entry)) ->
  let p := Z.of_N (oi_os_pid (ue_identity entry)) in p ∈ pids /\ p <> pgid /\ getpgid p = Some pgid.
Proof.
  intros [= <-] Hin Hok. cbn in Hin. apply list_elem_of_fmap in Hin as (e & -> & Hin).
  case_bool_decide as Hg; [|by destruct Hok]. apply list_elem_of_fmap in Hin as (i & -> & Hin). cbn in *. rename Hg into Hpgid.
  assert (Hsub : forall seen l, i ∈ dedup_pids seen l -> i ∈ l).
  { intros seen l. revert seen. induction l as [|x l IH]; intros seen; cbn; [done|].
    destruct (decide _); [intros ?; right; by eapply IH|]. intros [->|?]%elem_of_cons; [left|right; by eapply IH]. }
  apply Hsub, list_elem_of_fmap in Hin as (q & -> & Hq). cbn in *. apply list_elem_of_filter in Hq as [Hq Hin].
  apply andb_true_iff in Hq as [Hpos Hne]. apply Z.ltb_lt in Hpos. apply negb_true_iff, Z.eqb_neq in Hne.
  rewrite Z2N.id in * by lia. done.
Qed.

(** *** FILETIMEs *)

Lemma ticks_spec high low : 0 <= high < 2 ^ 32 -> 0 <= low < 2 ^ 32 -> ticks (high, low) = high * 2 ^ 32 + low /\ ticks (high, low) <= u64_max.
Proof.
  intros Hh Hl. unfold ticks, u64_max. cbn [fst snd].
  assert (E : Z.lor (Z.shiftl high 32) low = high * 2 ^ 32 + low).
  { rewrite Z.shiftl_mul_pow2 by lia. symmetry. rewrite <- Z.add_lor_land. 
    assert (H0 : Z.land (high * 2 ^ 32) low = 0); [|lia].
    apply Z.bits_inj'. intros n Hn. rewrite Z.land_spec, Z.bits_0. destruct (Z.lt_ge_cases n 32).
    - by rewrite Z.mul_pow2_bits_low.
    - rewrite (Z.bits_above_log2 low n), andb_false_r; [done|lia|].
      destruct (decide (low = 0)) as [->|]; [cbn; lia|]. apply Z.log2_lt_pow2; [lia|].
      apply (Z.lt_le_trans _ (2 ^ 32)); [lia|]. apply Z.pow_le_mono_r; lia. }
  rewrite E. split; [done|lia].
Qed.

(** A measurement is of the process asked for, and its CPU time is exact. *)
Lemma windows_sample_exact identity opened times memory now u :
  windows_sample identity opened times memory now = Ok u ->
  exists creation kernel user, times = Ok (creation, kernel, user) /\ pu_identity u = identity /\
    pu_cpu_time u = (ticks user + ticks kernel) * 100 /\ pu_cpu_time u <= u64_max /\
    forall s, oi_start_time identity = Some s -> s = ticks creation / 10000000 - EPOCH_SECONDS.
Proof.
  unfold windows_sample. destruct opened; [done|]. destruct times as [[[creation kernel] user]|text]; cbn; [|done].
  unfold u64_checked_sub. destruct (_ <=? _) eqn:Hle; cbn; [|done].
  destruct (match oi_start_time identity with Some _ => _ | None => _ end) eqn:Hs; [done|].
  destruct memory as [resident|text]; cbn; [|done]. unfold u64_checked_add, u64_checked_mul.
  destruct (decide _) as [Ha|]; cbn; [|done]. destruct (_ <=? u64_max) eqn:Hm; cbn; [|done]. intros [= <-]. cbn.
  exists creation, kernel, user. split_and!; [done..|by apply Z.leb_le|].
  intros s E. rewrite E in Hs. by apply negb_false_iff, Z.eqb_eq in Hs.
Qed.
