(* ===== verification/Cgroup.v ===== *)
(** * Cgroup: the adapter's own directories, and its accounting

    The part of shepherd-infra/src/backend/cgroup.rs that the Unix backend ([Native]) does not run
    itself: the probe that [Cgroups::new] and [Cgroups::detect] make, the destructors of
    [Group] and [Cgroups], and the accounting files as functions of their text. A system call may fail
    with any text; what other programs do with these directories is among its failures. *)

From stdpp Require Import base list gmap strings.
From Stdlib Require Import Ascii.
From S2P Require Import Prelude StdModel Values Observation Usage Conc FileSystem KeptState KeptStore Procfs.

Open Scope Z_scope.
Open Scope prog_scope.

(** ** The probe *)

(** [cg_next]: the static counter. [cg_left]: whether a directory could not be removed. *)
Record CgroupWorld : Type := mkCgroupWorld {
  cg_dirs : gset PathBuf;
  cg_next : Z;
  cg_left : bool;
}.

Inductive CgroupPort : Type -> Type :=
(** Does this call fail? With which text? *)
| CgFails : CgroupPort (option string)
| CgEnvironment : CgroupPort (option PathBuf)
| CgText (path : PathBuf) : CgroupPort (result string string)
(** The opening of a directory, and the type of its file system. *)
| CgMagic (path : PathBuf) : CgroupPort (result Z string)
| CgProcessId : CgroupPort Z.

Definition cgroup_answer (X : Type) (q : CgroupPort X) (x : X) (w : CgroupWorld) : CgroupWorld := w.

Abbreviation CProg := (Prog (S := CgroupWorld) (Q := CgroupPort) (T := unit)).

Definition CGROUP2_SUPER_MAGIC : Z := 1667723888.

(** [Path::join] of a relative path. *)
Definition path_join (base rel : PathBuf) : PathBuf :=
  match strip_suffix "/" base with Some _ => base +:+ rel | None => base +:+ "/" +:+ rel end.

(** [fs::create_dir] and [fs::remove_dir]. *)
Definition create_dir (path : PathBuf) : CProg (result unit string) :=
  let! fails := call CgFails in
  match fails with
  | Some text => Ret (Err text)
  | None =>
      act (fun w =>
        if decide (path ∈ cg_dirs w) then (w, Err "File exists (os error 17)")
        else (mkCgroupWorld ({[path]} ∪ cg_dirs w) (cg_next w) (cg_left w), Ok tt))
  end.
Definition remove_dir (path : PathBuf) : CProg unit :=
  let! fails := call CgFails in
  modify (fun w =>
    match fails with
    | Some _ => mkCgroupWorld (cg_dirs w) (cg_next w) true
    | None => mkCgroupWorld (cg_dirs w ∖ {[path]}) (cg_next w) (cg_left w)
    end).

(** [Group::create], [Group::kill] and the drop of a [Group]. *)
Definition make_group (path : PathBuf) : CProg (result unit string) :=
  let! made := create_dir path in
  match made with
  | Err text => Ret (Err text)
  | Ok _ =>
      let! fails := call CgFails in
      match fails with Some text => remove_dir path ;;; Ret (Err text) | None => Ret (Ok tt) end
  end.
Definition drop_group (path : PathBuf) : CProg unit := call CgFails ;;; remove_dir path.

(** [NEXT.fetch_add(1, Relaxed)]. *)
Definition next_root : CProg Z := act (fun w => (mkCgroupWorld (cg_dirs w) ((cg_next w + 1) mod 2 ^ 64) (cg_left w), cg_next w)).

Definition root_name (pid n : Z) : string := "shepherd-" +:+ decimal pid +:+ "-" +:+ decimal n.

(** [Cgroups::new]: a group is made in the ancestor, its kill file is used, a group is made in it, and
    both are dropped; then the directory of the adapter is made. *)
Definition cgroups_new (ancestor : PathBuf) : CProg (result PathBuf string) :=
  let! magic := call (CgMagic ancestor) in
  match magic with
  | Err text => Ret (Err text)
  | Ok magic =>
      if negb (magic =? CGROUP2_SUPER_MAGIC) then Ret (Err "ancestor is not cgroup v2")
      else
        let! pid := call CgProcessId in
        let! n := next_root in
        let root := path_join ancestor (root_name pid n) in
        let! group := make_group root in
        match group with
        | Err text => Ret (Err text)
        | Ok _ =>
            let! kill_fails := call CgFails in
            match kill_fails with
            | Some text => drop_group root ;;; Ret (Err text)
            | None =>
                let probe := path_join root "probe" in
                let! child := make_group probe in
                match child with
                | Err text => drop_group root ;;; Ret (Err text)
                | Ok _ =>
                    let! open_fails := call CgFails in
                    match open_fails with
                    | Some text => drop_group probe ;;; drop_group root ;;; Ret (Err text)
                    | None =>
                        drop_group probe ;;;
                        drop_group root ;;;
                        let! made := create_dir root in
                        Ret (match made with Ok _ => Ok root | Err text => Err text end)
                    end
                end
            end
        end
  end.

(** [trim_start_matches('/')]. *)
Fixpoint trim_slashes (s : string) : string :=
  match s with String a s' => if Ascii.eqb a "/" then trim_slashes s' else s | EmptyString => s end.

Definition CGROUP_MOUNT : PathBuf := "/sys/fs/cgroup".

(** [Cgroups::detect]. *)
Definition cgroups_detect : CProg (result PathBuf string) :=
  let! root := call CgEnvironment in
  match root with
  | Some root => cgroups_new root
  | None =>
      let! membership := call (CgText "/proc/self/cgroup") in
      match membership with
      | Err text => Ret (Err text)
      | Ok membership =>
          match find_prefix "0::" (lines membership) with
          | None => Ret (Err "not in cgroup v2")
          | Some relative =>
              let! made := cgroups_new (path_join CGROUP_MOUNT (trim_slashes relative)) in
              match made with Ok root => Ret (Ok root) | Err _ => cgroups_new CGROUP_MOUNT end
          end
      end
  end.

(** The drop of [Cgroups]: each group is killed, then dropped; then the directory goes. *)
Fixpoint drop_groups (groups : list PathBuf) : CProg unit :=
  match groups with [] => Ret tt | path :: groups => drop_group path ;;; drop_groups groups end.
Fixpoint kill_groups (groups : list PathBuf) : CProg unit :=
  match groups with [] => Ret tt | _ :: groups => call CgFails ;;; kill_groups groups end.
Definition cgroups_drop (root : PathBuf) (groups : list PathBuf) : CProg unit :=
  kill_groups groups ;;; drop_groups groups ;;; remove_dir root.

(** ** The accounting files *)

(** One line of io.stat: the first word with the prefix, a number. *)
Definition io_line (prefix line : string) : option Z := v ← find_prefix prefix (split_whitespace line); parse_u64_ok v.

(** [io_sum]. *)
Fixpoint io_total (prefix : string) (total : Z) (ls : list string) : option Z :=
  match ls with
  | [] => Some total
  | line :: ls => v ← io_line prefix line; total ← u64_checked_add total v; io_total prefix total ls
  end.
Definition io_sum (text prefix : string) : option Z := io_total prefix 0 (lines text).

Definition file_value (text : result string string) : option Z := s ← result_ok text; parse_u64_ok (trim s).

(** [accounting], of the texts that it reads one after the other. *)
Definition cgroup_accounting (events1 cpu io memory pids events2 : result string string) (now : Z) : result ScopeAccounting string :=
  match events1 with
  | Err text => Err text
  | Ok _ =>
      let cpu := s ← result_ok cpu; v ← find_prefix "usage_usec " (lines s); parse_u64_ok v in
      let read := s ← result_ok io; io_sum s "rbytes=" in
      let written := s ← result_ok io; io_sum s "wbytes=" in
      let result := mkScopeAccounting LinuxCgroup now (micros ← cpu; Some (micros * 1000)) (file_value memory) None read written (file_value pids) in
      match events2 with Err text => Err text | Ok _ => Ok result end
  end.

(** ** Properties *)

(** What a probe leaves: nothing, or its one directory, unless a directory could not be removed. *)
Definition leaves_only (w0 : CgroupWorld) (r : result PathBuf string) (w : CgroupWorld) : Prop :=
  cg_left w = false -> cg_left w0 = false /\
  match r with Ok root => root ∉ cg_dirs w0 /\ cg_dirs w = {[root]} ∪ cg_dirs w0 | Err _ => cg_dirs w = cg_dirs w0 end.

Abbreviation alone_cg p post w := (alone cgroup_answer p post w) (only parsing).

Lemma call_alone {X} (q : CgroupPort X) (post : X -> CgroupWorld -> Prop) w : (forall x, post x w) -> alone_cg (call q : CProg X) post w.
Proof. intros H x. apply H. Qed.
Lemma next_root_alone (post : Z -> CgroupWorld -> Prop) w :
  post (cg_next w) (mkCgroupWorld (cg_dirs w) ((cg_next w + 1) mod 2 ^ 64) (cg_left w)) -> alone_cg next_root post w.
Proof. done. Qed.

Lemma remove_dir_alone path (post : unit -> CgroupWorld -> Prop) w :
  (forall w', (cg_left w' = false -> cg_left w = false /\ cg_dirs w' = cg_dirs w ∖ {[path]}) -> post tt w') ->
  alone_cg (remove_dir path) post w.
Proof. intros H [text|]; cbn; by apply H. Qed.

Lemma drop_group_alone path (post : unit -> CgroupWorld -> Prop) w :
  (forall w', (cg_left w' = false -> cg_left w = false /\ cg_dirs w' = cg_dirs w ∖ {[path]}) -> post tt w') ->
  alone_cg (drop_group path) post w.
Proof. intros H x. by apply remove_dir_alone. Qed.

Lemma create_dir_alone path (post : result unit string -> CgroupWorld -> Prop) w :
  (forall text, post (Err text) w) ->
  (path ∉ cg_dirs w -> post (Ok tt) (mkCgroupWorld ({[path]} ∪ cg_dirs w) (cg_next w) (cg_left w))) ->
  alone_cg (create_dir path) post w.
Proof. intros He Ho [text|]; cbn; [apply He|]. change (cgroup_answer _ CgFails None w) with w.
  destruct (decide (path ∈ cg_dirs w)); cbn; [apply He|by apply Ho]. Qed.

Lemma make_group_alone path (post : result unit string -> CgroupWorld -> Prop) w :
  (forall text w', (cg_left w' = false -> cg_left w = false /\ cg_dirs w' = cg_dirs w) -> post (Err text) w') ->
  (path ∉ cg_dirs w -> post (Ok tt) (mkCgroupWorld ({[path]} ∪ cg_dirs w) (cg_next w) (cg_left w))) ->
  alone_cg (make_group path) post w.
Proof.
  intros He Ho. apply alone_bind, create_dir_alone; [intros text; by apply He|]. intros Hn [text|]; [|by apply Ho].
  apply (alone_bind _ (remove_dir path)), remove_dir_alone. intros w' Hw'. apply He. intros Hl. destruct (Hw' Hl) as [? ->]. split; [done|]. cbn. set_solver.
Qed.

(** The probe leaves nothing behind when it fails, at whatever call, and one new directory when it
    succeeds, unless a directory could not be removed. *)
Theorem cgroups_new_leaves_only ancestor w :
  alone cgroup_answer (cgroups_new ancestor) (leaves_only w) w.
Proof.
  unfold cgroups_new. apply (alone_bind _ (call _)), call_alone. intros [magic|text]; [|by intros ?]. cbv beta iota.
  destruct (negb _); [by intros ?|]. apply (alone_bind _ (call _)), call_alone. intros pid.
  apply (alone_bind _ next_root), next_root_alone. generalize (path_join ancestor (root_name pid (cg_next w))). intros root.
  apply (alone_bind _ (make_group root)), make_group_alone; [intros text w' Hw' Hl; by apply Hw'|]. intros Hroot. cbn in Hroot.
  apply (alone_bind _ (call CgFails)), call_alone. intros [text|].
  { apply (alone_bind _ (drop_group root)), drop_group_alone. intros w' Hw' Hl. destruct (Hw' Hl) as [? ->]. split; [done|]. cbn. set_solver. }
  set (probe := path_join root "probe"). apply (alone_bind _ (make_group probe)), make_group_alone.
  { intros text w2 Hw2. apply (alone_bind _ (drop_group root)), drop_group_alone. intros w' Hw' Hl. destruct (Hw' Hl) as [Hl2 ->].
    destruct (Hw2 Hl2) as [? ->]. split; [done|]. cbn. set_solver. }
  intros Hprobe. cbn in Hprobe. apply (alone_bind _ (call CgFails)), call_alone. intros [text|].
  { apply (alone_bind _ (drop_group probe)), drop_group_alone. intros w2 Hw2. apply (alone_bind _ (drop_group root)), drop_group_alone. intros w' Hw' Hl.
    destruct (Hw' Hl) as [Hl2 ->]. destruct (Hw2 Hl2) as [? ->]. split; [done|]. cbn. set_solver. }
  apply (alone_bind _ (drop_group probe)), drop_group_alone. intros w2 Hw2. apply (alone_bind _ (drop_group root)), drop_group_alone. intros w3 Hw3.
  assert (Hd : cg_left w3 = false -> cg_left w = false /\ cg_dirs w3 = cg_dirs w).
  { intros Hl. destruct (Hw3 Hl) as [Hl2 ->]. destruct (Hw2 Hl2) as [? ->]. split; [done|]. cbn. set_solver. }
  apply (alone_bind _ (create_dir root)), create_dir_alone; [intros text Hl; by apply Hd|]. intros Hn Hl. cbn in *.
  destruct (Hd Hl) as [Hl0 E]. rewrite E in *. done.
Qed.

Theorem cgroups_detect_leaves_only w : alone cgroup_answer cgroups_detect (leaves_only w) w.
Proof.
  unfold cgroups_detect. apply (alone_bind _ (call _)), call_alone. intros [root|]; [apply cgroups_new_leaves_only|].
  apply (alone_bind _ (call _)), call_alone. intros [membership|text]; [|by intros ?]. cbv beta iota.
  destruct (find_prefix "0::" (lines membership)) as [relative|]; [|by intros ?]. apply (alone_bind _ (cgroups_new _)).
  eapply alone_mono; [|apply cgroups_new_leaves_only]. intros [root|text] w1 H1; [exact H1|].
  eapply alone_mono; [|apply cgroups_new_leaves_only]. intros r w2 H2 Hl. destruct (H2 Hl) as [Hl1 Hr].
  destruct (H1 Hl1) as [Hl0 E]. cbn in *. rewrite E in Hr. done.
Qed.

(** *** Sums *)

Lemma digits_nonneg max s : forall acc n, 0 <= acc -> digits max acc s = Ok n -> 0 <= n.
Proof.
  induction s as [|a s IH]; intros acc n Ha; cbn; [by intros [= <-]|]. unfold digit_of.
  destruct ((0 <=? _) && _) eqn:E; [|done]. apply andb_true_iff in E as [E _]. apply Z.leb_le in E.
  destruct (_ <=? max); [|done]. apply IH. lia.
Qed.
Lemma parse_u64_nonneg s n : parse_u64_ok s = Some n -> 0 <= n.
Proof.
  unfold parse_u64_ok, parse_u64, parse_unsigned. destruct s as [|a s]; [done|].
  assert (H : forall r : result Z string, result_ok r = Some n -> r = Ok n) by (by intros [] [= ->]).
  destruct (strip_prefix "+" _) as [[|b t]|]; [done|intros ?%H; by eapply digits_nonneg..].
Qed.

Definition sum_Z (vs : list Z) : Z := foldr Z.add 0 vs.

Lemma io_line_nonneg prefix line v : io_line prefix line = Some v -> 0 <= v.
Proof. unfold io_line. destruct (find_prefix _ _) as [t|]; [|done]. apply parse_u64_nonneg. Qed.

Lemma io_values_nonneg prefix ls : forall vs, mapM (io_line prefix) ls = Some vs -> 0 <= sum_Z vs.
Proof.
  induction ls as [|line ls IH]; intros vs; cbn; [by intros [= <-]|]. destruct (io_line prefix line) as [x|] eqn:Ex; cbn; [|done].
  destruct (mapM _ ls) as [xs|]; cbn; [|done]. intros [= <-]. apply io_line_nonneg in Ex. specialize (IH xs eq_refl).
  change (0 <= x + sum_Z xs). lia.
Qed.

Lemma io_total_exact prefix ls : forall total, 0 <= total <= u64_max ->
  io_total prefix total ls = (vs ← mapM (io_line prefix) ls; if total + sum_Z vs <=? u64_max then Some (total + sum_Z vs) else None).
Proof.
  induction ls as [|line ls IH]; intros total Ht; cbn [io_total mapM].
  - cbn. rewrite Z.add_0_r. by rewrite (proj2 (Z.leb_le total _)) by lia.
  - destruct (io_line prefix line) as [v|] eqn:Ev; cbn; [|done]. apply io_line_nonneg in Ev.
    unfold u64_checked_add. destruct (decide (total + v <= u64_max)) as [Hle|Hgt]; cbn.
    + rewrite IH by lia. destruct (mapM _ ls) as [vs|]; cbn; [|done]. by rewrite Z.add_assoc.
    + destruct (mapM _ ls) as [vs|] eqn:Em; cbn; [|done]. apply io_values_nonneg in Em. rewrite (proj2 (Z.leb_gt _ _)); [done|].
      change (u64_max < total + (v + sum_Z vs)). lia.
Qed.

(** A total of io.stat is the sum over all of its lines: one line without a number, or a sum that does not
    fit, and there is none. *)
Theorem io_sum_exact text prefix :
  io_sum text prefix =
    (vs ← mapM (io_line prefix) (lines text); if sum_Z vs <=? u64_max then Some (sum_Z vs) else None).
Proof. unfold io_sum. rewrite io_total_exact by (unfold u64_max; lia). done. Qed.

Example io_sums :
  let device a b := a +:+ String line_feed EmptyString +:+ b in
  io_sum (device "8:0 rbytes=7 wbytes=3" "8:1 rbytes=9 wbytes=5") "rbytes=" = Some 16 /\
  io_sum "" "rbytes=" = Some 0 /\ io_sum "8:0 wbytes=7" "rbytes=" = None /\ io_sum "8:0 rbytes=no" "rbytes=" = None /\
  io_sum (device "8:0 rbytes=18446744073709551615" "8:1 rbytes=1") "rbytes=" = None.
Proof. by vm_compute. Qed.
