(* ===== verification/CgroupTree.v ===== *)
(** * CgroupTree: the removal of a group and of the groups below it

    [remove_empty_tree] of shepherd-infra/src/backend/cgroup.rs over a store of directories. A path is
    the pair of a pinned directory and a name in it: that is what /proc/self/fd/N/name means, and of the
    path of the outermost call the model keeps the last component. Before every system call
    other programs may do anything to the store, and the call may fail with any text. A record of what
    was opened and removed is kept for the statements. *)

From stdpp Require Import base list gmap strings.
From S2P Require Import Prelude StdModel Conc.

Open Scope prog_scope.

Definition Inode : Type := nat.

(** What a directory holds: a control file, which goes with its directory, a directory or a symlink. *)
Inductive Entry : Type :=
| ControlFile
| Directory (d : Inode)
| Symlink (target : string).

#[export] Instance Entry_dec : EqDecision Entry.
Proof. solve_decision. Defined.

Abbreviation Entries := (list (string * Entry)).

Inductive TreeEvent : Type :=
| Opened (parent : Inode) (name : string) (d : Inode)
| Removed (parent : Inode) (name : string).

(** [tw_disturbed]: a call failed, or another program changed the store. *)
Record TreeWorld : Type := mkTreeWorld {
  tw_dirs : gmap Inode Entries;
  tw_log : list TreeEvent;
  tw_disturbed : bool;
}.

Inductive TreePort : Type -> Type :=
(** The store after the other programs ran. *)
| TpOthers : TreePort (gmap Inode Entries)
| TpFails : TreePort (option string).

Definition tree_answer (X : Type) (q : TreePort X) : X -> TreeWorld -> TreeWorld :=
  match q with
  | TpOthers => fun dirs w => mkTreeWorld dirs (tw_log w) (tw_disturbed w || negb (bool_decide (dirs = tw_dirs w)))
  | TpFails => fun fails w => mkTreeWorld (tw_dirs w) (tw_log w) (tw_disturbed w || bool_decide (is_Some fails))
  end.

Abbreviation TProg := (Prog (S := TreeWorld) (Q := TreePort) (T := unit)).

Definition syscall {X} (f : TreeWorld -> TreeWorld * result X string) : TProg (result X string) :=
  call TpOthers ;;;
  let! fails := call TpFails in
  match fails with Some text => Ret (Err text) | None => act f end.

Definition entry_at (name : string) (es : Entries) : option Entry := snd <$> List.find (fun e => bool_decide (e.1 = name)) es.
Definition remove_names (names : list string) (es : Entries) : Entries := filter (fun e => e.1 ∉ names) es.
Definition find_entry (parent : Inode) (name : string) (w : TreeWorld) : option Entry := es ← tw_dirs w !! parent; entry_at name es.

(** [open] with [O_DIRECTORY | O_NOFOLLOW]. *)
Definition open_directory (parent : Inode) (name : string) : TProg (result Inode string) :=
  syscall (fun w =>
    match find_entry parent name w with
    | Some (Directory d) => (mkTreeWorld (tw_dirs w) (Opened parent name d :: tw_log w) (tw_disturbed w), Ok d)
    | Some _ => (w, Err "Not a directory (os error 20)")
    | None => (w, Err "No such file or directory (os error 2)")
    end).

(** [fs::read_dir]: the names, and whether each is a directory. *)
Definition is_dir (e : Entry) : bool := match e with Directory _ => true | _ => false end.
Definition kinds (es : Entries) : list (string * bool) := (fun e => (e.1, is_dir e.2)) <$> es.
Definition read_dir (d : Inode) : TProg (result (list (string * bool)) string) :=
  syscall (fun w => (w, match tw_dirs w !! d with Some es => Ok (kinds es) | None => Ok [] end)).

(** [fs::remove_dir] in cgroupfs. *)
Definition blocks (e : Entry) : bool := match e with ControlFile => false | _ => true end.
Definition remove_dir_at (parent : Inode) (name : string) : TProg (result unit string) :=
  syscall (fun w =>
    match tw_dirs w !! parent, find_entry parent name w with
    | Some es, Some (Directory d) =>
        if existsb (fun e => blocks e.2) (default [] (tw_dirs w !! d)) then (w, Err "Directory not empty (os error 39)")
        else (mkTreeWorld (<[parent := remove_names [name] es]> (delete d (tw_dirs w))) (Removed parent name :: tw_log w) (tw_disturbed w), Ok tt)
    | Some _, Some _ => (w, Err "Not a directory (os error 20)")
    | _, _ => (w, Err "No such file or directory (os error 2)")
    end).

(** The loop over the entries: the next entry (or the end), its type, and the call for a directory. *)
Fixpoint walk_entries (remove : string -> TProg (result unit string)) (todo : list (string * bool)) : TProg (result unit string) :=
  let! next := syscall (fun w => (w, Ok tt)) in
  match next with
  | Err text => Ret (Err text)
  | Ok _ =>
      match todo with
      | [] => Ret (Ok tt)
      | (name, dir) :: todo =>
          let! kind := syscall (fun w => (w, Ok dir)) in
          match kind with
          | Err text => Ret (Err text)
          | Ok true =>
              let! removed := remove name in
              match removed with Err text => Ret (Err text) | Ok _ => walk_entries remove todo end
          | Ok false => walk_entries remove todo
          end
      end
  end.

(** [levels]: how many nested calls the process has descriptors for. *)
Fixpoint remove_empty_tree (levels : nat) (parent : Inode) (name : string) : TProg (result unit string) :=
  match levels with
  | O => Ret (Err "Too many open files (os error 24)")
  | S levels =>
      let! directory := open_directory parent name in
      match directory with
      | Err text => Ret (Err text)
      | Ok d =>
          let! listed := read_dir d in
          match listed with
          | Err text => Ret (Err text)
          | Ok todo =>
              let! walked := walk_entries (remove_empty_tree levels d) todo in
              match walked with Err text => Ret (Err text) | Ok _ => remove_dir_at parent name end
          end
      end
  end.

(** ** Rules *)

Abbreviation alone_t p post w := (alone tree_answer p post w) (only parsing).

(** A call on a store of which nothing is known: others ran first. *)
Lemma syscall_alone {X} (f : TreeWorld -> TreeWorld * result X string) (post : result X string -> TreeWorld -> Prop) w :
  (forall r w', tw_log w' = tw_log w -> post (Err r) w') ->
  (forall w', tw_log w' = tw_log w -> post (f w').2 (f w').1) ->
  alone_t (syscall f) post w.
Proof. intros He Ho dirs [text|]; cbn; [by apply He|by apply Ho]. Qed.

(** A program that leaves a disturbed world disturbed. *)
Definition lost {A} (p : TProg A) : Prop := forall w, tw_disturbed w = true -> alone_t p (fun _ w' => tw_disturbed w' = true) w.
Definition quiet {A} (Q : A -> TreeWorld -> Prop) (a : A) (w : TreeWorld) : Prop := tw_disturbed w = false -> Q a w.

Lemma lost_bind {A B} (p : TProg A) (g : A -> TProg B) : lost p -> (forall a, lost (g a)) -> lost (bind p g).
Proof. intros Hp Hg w Hw. apply alone_bind. eapply alone_mono; [|by apply Hp]. intros a w' Hw'. by apply Hg. Qed.
Lemma lost_ret {A} (a : A) : lost (Ret a).
Proof. by intros w. Qed.
Lemma lost_syscall {X} (f : TreeWorld -> TreeWorld * result X string) : (forall w, tw_disturbed (f w).1 = tw_disturbed w) -> lost (syscall f).
Proof. intros Hf w Hw dirs [text|]; cbn; rewrite ?Hf; cbn; by rewrite Hw. Qed.

(** Only the undisturbed case of a call is left. *)
Lemma syscall_last {X} (f : TreeWorld -> TreeWorld * result X string) (post : result X string -> TreeWorld -> Prop) w :
  (forall w, tw_disturbed (f w).1 = tw_disturbed w) -> (forall r w', tw_disturbed w' = true -> post r w') ->
  post (f w).2 (f w).1 -> alone_t (syscall f) post w.
Proof.
  intros Hf Hl H dirs [text|]; cbn; [apply Hl; cbn; by rewrite orb_true_r|].
  destruct (decide (dirs = tw_dirs w)) as [->|Hd].
  - rewrite (bool_decide_true (_ = _)) by done. cbn. rewrite !orb_false_r. by destruct w.
  - apply Hl. rewrite Hf. cbn. rewrite bool_decide_false by done. cbn. by rewrite !orb_true_r.
Qed.
Lemma lost_quiet {A} (p : TProg A) (Q : A -> TreeWorld -> Prop) w : lost p -> tw_disturbed w = true -> alone_t p (quiet Q) w.
Proof. intros Hp Hw. eapply alone_mono; [|by apply Hp]. intros a w' H1 H2. congruence. Qed.
Lemma syscall_quiet {X B} (f : TreeWorld -> TreeWorld * result X string) (g : result X string -> TProg B) (Q : B -> TreeWorld -> Prop) w :
  (forall w, tw_disturbed (f w).1 = tw_disturbed w) -> (forall r, lost (g r)) ->
  alone_t (g (f w).2) (quiet Q) (f w).1 -> alone_t (bind (syscall f) g) (quiet Q) w.
Proof. intros Hf Hg H. apply alone_bind, syscall_last; [done| |done]. intros r w'. by apply lost_quiet. Qed.

(** The same for what the function ends with. *)
Lemma bind_quiet {A B} (p : TProg A) (g : A -> TProg B) (Q : A -> TreeWorld -> Prop) (Q' : B -> TreeWorld -> Prop) w :
  alone_t p (quiet Q) w -> (forall a, lost (g a)) -> (forall a w', Q a w' -> alone_t (g a) (quiet Q') w') ->
  alone_t (bind p g) (quiet Q') w.
Proof.
  intros Hp Hg H. apply alone_bind. eapply alone_mono; [|exact Hp]. intros a w' Hq. destruct (tw_disturbed w') eqn:E.
  - by apply lost_quiet.
  - by apply H, Hq.
Qed.

Ltac lost_step :=
  match goal with
  | |- lost (bind _ _) => apply lost_bind; [|intros ?]
  | |- lost (syscall _) => apply lost_syscall; intros ?; repeat case_match; done
  | |- lost (Ret _) => apply lost_ret
  | |- lost (match ?x with _ => _ end) => destruct x
  end.

Lemma lost_walk remove todo : (forall name, lost (remove name)) -> lost (walk_entries remove todo).
Proof. intros Hr. induction todo as [|[name dir] todo IH]; cbn [walk_entries]; repeat first [lost_step | apply Hr | apply IH]. Qed.

Lemma lost_remove levels : forall parent name, lost (remove_empty_tree levels parent name).
Proof.
  induction levels as [|levels IH]; intros parent name; cbn [remove_empty_tree]; unfold open_directory, read_dir, remove_dir_at;
    repeat first [lost_step | apply lost_walk, IH].
Qed.

(** ** Removals stay inside *)

(** The places below a path: the path itself, and every name in a directory that was opened at one. *)
Inductive inside (log : list TreeEvent) (parent : Inode) (name : string) : Inode -> string -> Prop :=
| inside_top : inside log parent name parent name
| inside_in p n d n' : inside log parent name p n -> Opened p n d ∈ log -> inside log parent name d n'.

Lemma inside_later log log' parent name p n : log ⊆ log' -> inside log parent name p n -> inside log' parent name p n.
Proof. intros Hl. induction 1 as [|p n d n' _ IH Ho]; [apply inside_top|]. eapply inside_in; [exact IH|by apply Hl]. Qed.
Lemma inside_trans log parent name p n q m : inside log parent name p n -> inside log p n q m -> inside log parent name q m.
Proof. intros H. induction 1 as [|p' n' d m' _ IH Ho]; [done|]. by eapply inside_in. Qed.

Definition removed_inside (parent : Inode) (name : string) (w w' : TreeWorld) : Prop :=
  tw_log w ⊆ tw_log w' /\ forall p n, Removed p n ∈ tw_log w' -> Removed p n ∈ tw_log w \/ inside (tw_log w') parent name p n.

Lemma removed_inside_refl parent name w w' : tw_log w' = tw_log w -> removed_inside parent name w w'.
Proof. intros E. unfold removed_inside. rewrite E. split; [done|]. intros p n H. by left. Qed.
Lemma removed_inside_trans parent name w1 w2 w3 :
  removed_inside parent name w1 w2 -> removed_inside parent name w2 w3 -> removed_inside parent name w1 w3.
Proof.
  intros [Hl1 Hr1] [Hl2 Hr2]. split; [by etransitivity|]. intros p n [H%Hr1|H]%Hr2; [|by right].
  destruct H as [H|H]; [by left|right]. by eapply inside_later.
Qed.
Lemma removed_inside_nested parent name p n w w' :
  inside (tw_log w) parent name p n -> removed_inside p n w w' -> removed_inside parent name w w'.
Proof.
  intros Hi [Hl Hr]. split; [done|]. intros q m [H|H]%Hr; [by left|right].
  eapply inside_trans; [|exact H]. by eapply inside_later.
Qed.

(** The walk of an opened directory, for a removal that stays inside of its entries. *)
Lemma walk_inside levels parent name d todo :
  (forall n w, alone_t (remove_empty_tree levels d n) (fun _ w' => removed_inside d n w w') w) ->
  forall w, Opened parent name d ∈ tw_log w ->
  alone_t (walk_entries (remove_empty_tree levels d) todo) (fun _ w' => removed_inside parent name w w') w.
Proof.
  intros Hrem. induction todo as [|[n dir] todo IH]; intros w Ho; cbn [walk_entries];
    apply alone_bind, syscall_alone; try by (intros; apply removed_inside_refl).
  intros w1 E1. apply (alone_bind _ (syscall _)), syscall_alone; [intros r w2 E2; apply removed_inside_refl; cbn in E2; congruence|].
  intros w2 E2. cbn in E2; rewrite E1 in E2. cbn [fst snd].
  assert (Hw : removed_inside parent name w w2) by by apply removed_inside_refl.
  assert (Ho2 : Opened parent name d ∈ tw_log w2) by by rewrite E2.
  assert (Hnext : forall w3, removed_inside parent name w2 w3 ->
    alone_t (walk_entries (remove_empty_tree levels d) todo) (fun _ w' => removed_inside parent name w w') w3).
  { intros w3 H3. eapply alone_mono; [|apply IH; by apply (proj1 H3)]. intros r w4 H4. eapply removed_inside_trans; [exact Hw|]. by eapply removed_inside_trans. }
  destruct dir; [|by apply Hnext, removed_inside_refl].
  apply alone_bind. eapply alone_mono; [|apply Hrem]. intros r w3 H3.
  apply (removed_inside_nested parent name) in H3; [|eapply inside_in; [apply inside_top|done]].
  destruct r; [by apply Hnext|]. by eapply removed_inside_trans.
Qed.

(** Whatever other programs do meanwhile, and whichever call fails: only the path itself and entries of
    directories that were reached from it without following a symlink are removed. *)
Theorem remove_empty_tree_inside levels : forall parent name w,
  alone tree_answer (remove_empty_tree levels parent name) (fun _ w' => removed_inside parent name w w') w.
Proof.
  induction levels as [|levels IH]; intros parent name w; [by apply removed_inside_refl|]. cbn [remove_empty_tree].
  apply alone_bind, syscall_alone; [intros; by apply removed_inside_refl|]. intros w1 E1.
  destruct (find_entry parent name w1) as [[|d|target]|] eqn:Ef; cbn [fst snd]; try by apply removed_inside_refl.
  assert (H1 : removed_inside parent name w (mkTreeWorld (tw_dirs w1) (Opened parent name d :: tw_log w1) (tw_disturbed w1))).
  { split; cbn; rewrite E1; [set_solver|]. intros p n [[=]|H]%elem_of_cons. by left. }
  apply (alone_bind _ (read_dir d)), syscall_alone; [intros r w2 E2; eapply removed_inside_trans; [exact H1|by apply removed_inside_refl]|]. intros w2 E2.
  assert (H2 : removed_inside parent name w w2) by (eapply removed_inside_trans; [exact H1|by apply removed_inside_refl]).
  cbn [fst snd]. destruct (match tw_dirs w2 !! d with Some es => _ | None => _ end) as [todo|text]; [|done].
  apply (alone_bind _ (walk_entries _ _)). eapply alone_mono; [|apply (walk_inside _ parent name); [apply IH|rewrite E2; cbn; by apply list_elem_of_here]].
  intros r w3 H3. assert (H03 : removed_inside parent name w w3) by by eapply removed_inside_trans.
  destruct r as [[]|text]; [|done]. apply syscall_alone; [intros; eapply removed_inside_trans; [exact H03|by apply removed_inside_refl]|].
  intros w4 E4. eapply removed_inside_trans; [exact H03|].
  repeat case_match; cbn; try by apply removed_inside_refl.
  split; cbn; rewrite E4; [set_solver|]. intros p n [[= -> ->]|H9]%elem_of_cons; [right; apply inside_top|by left].
Qed.

(** ** What an undisturbed removal does *)

(** A tree of at most [k] levels of directories and control files, with the directories [F]. *)
Fixpoint clean_entries (clean : Inode -> gset Inode -> Prop) (es : Entries) (F : gset Inode) : Prop :=
  match es with
  | [] => F = ∅
  | (_, ControlFile) :: es => clean_entries clean es F
  | (_, Directory d) :: es => exists F1 F2, clean d F1 /\ clean_entries clean es F2 /\ F1 ## F2 /\ F = F1 ∪ F2
  | (_, Symlink _) :: _ => False
  end.
Fixpoint clean (k : nat) (dirs : gmap Inode Entries) (d : Inode) (F : gset Inode) : Prop :=
  match k with
  | O => False
  | S k => exists es F', dirs !! d = Some es /\ NoDup es.*1 /\ clean_entries (clean k dirs) es F' /\ d ∉ F' /\ F = {[d]} ∪ F'
  end.

(** The store without the directories [F], and with [es] in [d]. *)
Definition pruned (dirs dirs' : gmap Inode Entries) (F : gset Inode) (d : Inode) (es : Entries) : Prop :=
  d ∉ F /\ dirs' !! d = Some es /\ forall i, i <> d -> dirs' !! i = if decide (i ∈ F) then None else dirs !! i.

Lemma clean_entries_mono (P1 P2 : Inode -> gset Inode -> Prop) es : forall F,
  (forall d F1, F1 ⊆ F -> P1 d F1 -> P2 d F1) -> clean_entries P1 es F -> clean_entries P2 es F.
Proof.
  induction es as [|[n [|d|t]] es IH]; intros F HP; cbn; [done|by apply IH| |done].
  intros (F1 & F2 & H1 & H2 & Hd & ->). exists F1, F2. split_and!; [apply HP; [set_solver|done]| |done|done].
  apply IH; [|done]. intros d' F' Hs. apply HP. set_solver.
Qed.

Lemma clean_agree dirs dirs' k : forall d F, (forall i, i ∈ F -> dirs' !! i = dirs !! i) -> clean k dirs d F -> clean k dirs' d F.
Proof.
  induction k as [|k IH]; intros d F Ha; cbn; [done|]. intros (es & F' & Hd & Hn & He & Hf & ->). exists es, F'.
  split_and!; [rewrite Ha; [done|set_solver]|done| |done|done]. eapply clean_entries_mono; [|exact He].
  intros d1 F1 Hs. apply IH. intros i Hi. apply Ha. set_solver.
Qed.

(** The names of the directories among the entries. *)
Definition dir_names (es : Entries) : list string := (filter (fun e => is_dir e.2) es).*1.

Lemma remove_names_app ns1 ns2 es : remove_names ns2 (remove_names ns1 es) = remove_names (ns1 ++ ns2) es.
Proof. unfold remove_names. rewrite list_filter_filter. apply list_filter_iff. intros e. rewrite elem_of_app. naive_solver. Qed.

Lemma remove_names_nil es : remove_names [] es = es.
Proof. induction es as [|e es IH]; [done|]. unfold remove_names. rewrite filter_cons_True by set_solver. by f_equal. Qed.

Lemma entry_at_remove n n' es : n <> n' -> entry_at n (remove_names [n'] es) = entry_at n es.
Proof.
  intros Hn. unfold entry_at, remove_names. induction es as [|[m e] es IH]; [done|]. rewrite filter_cons. cbn.
  destruct (decide (m ∉ [n'])) as [Hm|Hm]; cbn; [by case_match|]. rewrite bool_decide_false; [done|].
  intros ->. apply Hm. set_solver.
Qed.

Lemma entry_at_elem es : NoDup es.*1 -> Forall (fun e => entry_at e.1 es = Some e.2) es.
Proof.
  unfold entry_at. induction es as [|[m e] es IH]; intros Hn; [by constructor|]. apply NoDup_cons in Hn as [Hm Hn]. constructor.
  - cbn. by rewrite bool_decide_true.
  - specialize (IH Hn). rewrite Forall_forall in IH |- *. intros [n' e'] Hin. cbn. rewrite bool_decide_false; [by apply (IH (n', e'))|].
    intros ->. apply Hm, list_elem_of_fmap. by exists (n', e').
Qed.

Lemma clean_unblocked P es F : clean_entries P es F -> existsb (fun e => blocks e.2) (remove_names (dir_names es) es) = false.
Proof.
  intros Hc. apply not_true_iff_false. intros (e & [Hd Hin]%list_elem_of_In%list_elem_of_filter & Hb)%existsb_exists.
  assert (Hdir : is_dir e.2 = true).
  { clear Hd. revert F Hc. induction es as [|[n [|d|t]] es IH]; intros F Hc; cbn in *; [by apply elem_of_nil in Hin| | |done].
    - apply elem_of_cons in Hin as [->|Hin]; [done|]. by eapply IH.
    - destruct Hc as (F1 & F2 & _ & Hc & _). apply elem_of_cons in Hin as [->|Hin]; [done|]. by eapply IH. }
  apply Hd, list_elem_of_fmap. exists e. split; [done|]. apply list_elem_of_filter. by rewrite Hdir.
Qed.

Lemma pruned_refl dirs d es : dirs !! d = Some es -> pruned dirs dirs ∅ d es.
Proof. intros Hd. split_and!; [set_solver|done|]. intros i _. by rewrite decide_False by set_solver. Qed.
Lemma pruned_trans dirs0 dirs1 dirs2 F1 F2 d es1 es2 :
  pruned dirs0 dirs1 F1 d es1 -> pruned dirs1 dirs2 F2 d es2 -> pruned dirs0 dirs2 (F1 ∪ F2) d es2.
Proof.
  intros (Hd1 & _ & H1) (Hd2 & He & H2). split_and!; [set_solver|done|]. intros i Hi. rewrite H2, H1 by done.
  repeat case_decide; set_solver.
Qed.

Definition removes (p : TProg (result unit string)) (F : gset Inode) (d : Inode) (es : Entries) (w : TreeWorld) : Prop :=
  alone_t p (quiet (fun r w' => r = Ok tt /\ pruned (tw_dirs w) (tw_dirs w') F d es)) w.

Lemma removes_trans (p : TProg (result unit string)) g F1 F2 d es1 es2 w :
  removes p F1 d es1 w -> (forall r, lost (g r)) ->
  (forall w', pruned (tw_dirs w) (tw_dirs w') F1 d es1 -> removes (g (Ok tt)) F2 d es2 w') ->
  removes (bind p g) (F1 ∪ F2) d es2 w.
Proof.
  intros Hp Hl Hg. eapply bind_quiet; [exact Hp|done|]. intros r w' [-> Hw']. eapply alone_mono; [|by apply Hg].
  intros r w2 Hq H2. destruct (Hq H2) as [-> Hw2]. split; [done|]. by eapply pruned_trans.
Qed.

Lemma walk_clean levels k d es :
  (forall n d' F w pes, tw_dirs w !! d = Some pes -> entry_at n pes = Some (Directory d') -> clean k (tw_dirs w) d' F -> d ∉ F ->
    removes (remove_empty_tree levels d n) F d (remove_names [n] pes) w) ->
  forall F w des, tw_dirs w !! d = Some des -> Forall (fun e => entry_at e.1 des = Some e.2) es -> NoDup es.*1 ->
  clean_entries (clean k (tw_dirs w)) es F -> d ∉ F ->
  removes (walk_entries (remove_empty_tree levels d) (kinds es)) F d (remove_names (dir_names es) des) w.
Proof.
  intros Hrem. assert (Hl : forall todo, lost (walk_entries (remove_empty_tree levels d) todo)) by (intros; apply lost_walk, lost_remove).
  induction es as [|[n e] es IH]; intros F w des Hd Hes Hn Hc HF.
  - apply syscall_quiet; [done|intros []; apply lost_ret|]. cbn in Hc |- *. subst F. intros _. split; [done|].
    rewrite remove_names_nil. by apply pruned_refl.
  - apply Forall_cons in Hes as [He Hes]. apply NoDup_cons in Hn as [Hnn Hn]. unfold removes. cbn [kinds fmap list_fmap walk_entries].
    apply syscall_quiet; [done|intros []; repeat first [lost_step | apply lost_remove | apply Hl]|]. cbn [fst snd].
    apply (syscall_quiet (fun w => (w, Ok (is_dir e)))); [done|intros [[]|]; repeat first [lost_step | apply lost_remove | apply Hl]|]. cbn [fst snd].
    destruct e as [|d'|target]; cbn [is_dir]; [by apply IH| |done]. cbn in Hc, He. destruct Hc as (F1 & F2 & Hc1 & Hc2 & Hdis & ->).
    apply (removes_trans _ _ F1 F2 d (remove_names [n] des)).
    + apply (Hrem n d'); [done..|set_solver].
    + intros []; [apply Hl|apply lost_ret].
    + intros w' (_ & Hd' & Hw'). replace (remove_names (dir_names _) des) with (remove_names (dir_names es) (remove_names [n] des)) by apply remove_names_app.
      apply IH; [done| |done| |set_solver].
      * rewrite Forall_forall in Hes |- *. intros e' He'. rewrite entry_at_remove; [by apply Hes|].
        intros <-. apply Hnn, list_elem_of_fmap. by exists e'.
      * eapply clean_entries_mono; [|exact Hc2]. intros d1 F3 Hs. apply clean_agree. intros i Hi. rewrite Hw' by set_solver. by rewrite decide_False by set_solver.
Qed.

(** A tree of directories and control files, no deeper than there are descriptors for: when no call fails and
    no other program interferes, the removal succeeds, every directory of the tree is gone with its name,
    and every other directory is as it was. *)
Theorem remove_empty_tree_removes levels : forall k parent name d F es w,
  (k <= levels)%nat -> tw_dirs w !! parent = Some es -> entry_at name es = Some (Directory d) -> clean k (tw_dirs w) d F -> parent ∉ F ->
  removes (remove_empty_tree levels parent name) F parent (remove_names [name] es) w.
Proof.
  induction levels as [|levels IH]; intros k parent name d F pes w Hk Hp He Hc HF; [by replace k with O in Hc by lia|].
  destruct k as [|k]; [done|]. destruct Hc as (es & F' & Hd & Hn & Hc & HdF & ->).
  assert (Hl : forall d todo, lost (walk_entries (remove_empty_tree levels d) todo)) by (intros; apply lost_walk, lost_remove).
  unfold removes. cbn [remove_empty_tree].
  apply syscall_quiet; [intros; by repeat case_match|intros []; unfold read_dir, remove_dir_at; repeat first [lost_step | apply Hl]|].
  assert (Hf : find_entry parent name w = Some (Directory d)) by (unfold find_entry; by rewrite Hp).
  rewrite Hf. cbn [fst snd].
  apply syscall_quiet; [done|intros []; unfold remove_dir_at; repeat first [lost_step | apply Hl]|].
  cbn [fst snd tw_dirs]. rewrite Hd. cbn [fst snd].
  eapply bind_quiet; [|intros []; unfold remove_dir_at; repeat lost_step|].
  { apply (walk_clean levels k d es); [|done|by apply entry_at_elem|done|exact Hc|done].
    intros n d' F1 w1 pes1 ????. apply (IH k _ _ d'); [lia|done..]. }
  cbn [tw_dirs]. intros r w3 [-> (_ & Hd3 & Hw3)]. apply syscall_last; [intros; by repeat case_match|congruence|].
  assert (Hp3 : tw_dirs w3 !! parent = Some pes) by (rewrite Hw3 by set_solver; by rewrite decide_False by set_solver).
  assert (Hf3 : find_entry parent name w3 = Some (Directory d)) by (unfold find_entry; by rewrite Hp3).
  rewrite Hp3, Hf3, Hd3. change (default [] (Some ?x)) with x. rewrite (clean_unblocked _ _ _ Hc). intros _. cbn. split; [done|].
  split_and!; [done|by rewrite lookup_insert_eq|]. intros i Hi. rewrite lookup_insert_ne by done.
  destruct (decide (i = d)) as [->|Hid]; [rewrite lookup_delete_eq, decide_True by set_solver; done|].
  rewrite lookup_delete_ne, Hw3 by done. repeat case_decide; set_solver.
Qed.

(** A symlink in the place of the directory is refused. *)
Theorem symlink_refused levels parent name target w : find_entry parent name w = Some (Symlink target) ->
  alone tree_answer (remove_empty_tree (S levels) parent name)
    (quiet (fun r w' => r = Err "Not a directory (os error 20)" /\ tw_dirs w' = tw_dirs w)) w.
Proof.
  intros Hf. cbn [remove_empty_tree]. apply syscall_quiet; [intros; by repeat case_match| |by rewrite Hf].
  intros []; unfold read_dir, remove_dir_at; repeat first [lost_step | apply lost_walk, lost_remove].
Qed.

Lemma walk_files remove todo w : Forall (fun e => e.2 = false) todo -> (forall name, lost (remove name)) ->
  alone_t (walk_entries remove todo) (quiet (fun r w' => r = Ok tt /\ w' = w)) w.
Proof.
  intros Ht Hl. induction Ht as [|[n dir] todo Hdir _ IH]; cbn [walk_entries];
    (apply syscall_quiet; [done|intros []; repeat first [lost_step | apply Hl | by apply lost_walk]|]); [by intros _|].
  cbn [fst snd] in *. subst dir. apply (syscall_quiet (fun w => (w, Ok false))); [done| |exact IH].
  intros [[]|]; repeat first [lost_step | apply Hl | by apply lost_walk].
Qed.

(** The test of the source: a group with a symlink to a directory outside of it. The link is not followed,
    and it keeps the group from being removed; without it the group goes. *)
Definition link_store : gmap Inode Entries :=
  list_to_map [(0%nat, [("scope", Directory 1%nat); ("outside", Directory 2%nat)]); (1%nat, [("cgroup.procs", ControlFile); ("link", Symlink "outside")]); (2%nat, [])].

Example link_keeps_the_group levels :
  alone tree_answer (remove_empty_tree (S levels) 0%nat "scope")
    (quiet (fun r w' => r = Err "Directory not empty (os error 39)" /\ tw_dirs w' = link_store)) (mkTreeWorld link_store [] false).
Proof.
  cbn [remove_empty_tree].
  apply syscall_quiet; [intros; by repeat case_match|intros []; unfold read_dir, remove_dir_at; repeat first [lost_step | apply lost_walk, lost_remove]|].
  cbn [fst snd find_entry]. apply syscall_quiet; [done|intros []; unfold remove_dir_at; repeat first [lost_step | apply lost_walk, lost_remove]|].
  apply (bind_quiet (walk_entries _ _) _ (fun r w' => r = Ok tt /\ tw_dirs w' = link_store)).
  - eapply alone_mono; [|apply walk_files; [by repeat constructor|apply lost_remove]]. intros r w' Hq Hw'. by destruct (Hq Hw') as [-> ->].
  - intros []; unfold remove_dir_at; repeat lost_step.
  - intros r w' [-> Hw']. apply syscall_last; [intros; by repeat case_match|intros ?? E1 E2; congruence|].
    unfold find_entry. rewrite Hw'. by intros _.
Qed.

(** Two levels of groups. *)
Definition two_levels : gmap Inode Entries :=
  list_to_map [(0%nat, [("scope", Directory 1%nat); ("other", Directory 3%nat)]); (1%nat, [("cgroup.procs", ControlFile); ("sub", Directory 2%nat)]);
    (2%nat, [("cgroup.procs", ControlFile)]); (3%nat, [])].

Lemma remove_empty_tree_removes_witness :
  removes (remove_empty_tree 8 0%nat "scope") {[1%nat; 2%nat]} 0%nat [("other", Directory 3%nat)] (mkTreeWorld two_levels [] false).
Proof.
  apply (remove_empty_tree_removes 8 2 0%nat "scope" 1%nat {[1%nat; 2%nat]} [("scope", Directory 1%nat); ("other", Directory 3%nat)]
    (mkTreeWorld two_levels [] false)); [lia|reflexivity|reflexivity| |set_solver].
  exists [("cgroup.procs", ControlFile); ("sub", Directory 2%nat)], {[2%nat]}. split; [reflexivity|]. split; [apply (bool_decide_unpack _); reflexivity|].
  split; [|split; [set_solver|reflexivity]]. exists {[2%nat]}, ∅. split; [|split; [reflexivity|split; [set_solver|set_solver]]].
  exists [("cgroup.procs", ControlFile)], ∅. split; [reflexivity|]. split; [apply NoDup_singleton|]. split; [reflexivity|]. set_solver.
Defined.
