(* ===== verification/Null.v ===== *)
(** * Null: the in-memory backend

    shepherd-infra/src/backend/null.rs, the backend of portable tests: processes that exit when the
    name of their program or a signal says so. A critical section is one step; the number of a
    process overflows with the panic of a debug build. *)

From stdpp Require Import base list gmap strings.
From Stdlib Require Import SpecFloat.
From S2P Require Import Prelude StdModel Values Conc KeptDomain Ports.

Open Scope Z_scope.
Open Scope prog_scope.

(** ** State *)

(** [null_exit]: the watch channel of the exit. *)
Record NullProc : Type := mkNullProc {
  null_scope : ProcessScopeId;
  ignores_graceful : bool;
  null_exit : nat;
}.

(** [nl_exits]: what was sent on each channel. History: which channel was made for which process, and
    what [wait] returned. *)
Record NullWorld : Type := mkNullWorld {
  nl_next_pid : Z;
  nl_procs : gmap Z NullProc;
  nl_exits : gmap nat (option RawExit);
  nl_next : nat;
  nl_spawned : gmap Z nat;
  nl_waits : list (Z * result RawExit WaitError);
}.
Definition set_null_procs (x : gmap Z NullProc) (w : NullWorld) : NullWorld :=
  mkNullWorld (nl_next_pid w) x (nl_exits w) (nl_next w) (nl_spawned w) (nl_waits w).
Definition set_null_exits (x : gmap nat (option RawExit)) (w : NullWorld) : NullWorld :=
  mkNullWorld (nl_next_pid w) (nl_procs w) x (nl_next w) (nl_spawned w) (nl_waits w).
Definition log_null_wait (pid : Z) (r : result RawExit WaitError) (w : NullWorld) : NullWorld :=
  mkNullWorld (nl_next_pid w) (nl_procs w) (nl_exits w) (nl_next w) (nl_spawned w) (nl_waits w ++ [(pid, r)]).

(** It asks nothing and starts no task. *)
Definition NullPort (X : Type) : Type := Empty_set.
Definition null_answer (X : Type) (q : NullPort X) (x : X) (w : NullWorld) : NullWorld := w.

Abbreviation LProg := (Prog (S := NullWorld) (Q := NullPort) (T := Empty_set)).

(** ** Exits *)

Definition GRACEFUL_EXIT : RawExit := mkRawExit (Some 0) None false.
Definition KILLED_EXIT : RawExit := mkRawExit None (Some Kill) false.

(** A process that has exited cannot exit again. *)
Definition null_deliver (exit : RawExit) (c : nat) (w : NullWorld) : NullWorld :=
  set_null_exits (alter (fun sent => match sent with Some e => Some e | None => Some exit end) c (nl_exits w)) w.

Definition null_apply_signal (signal : Signal) (p : NullProc) (w : NullWorld) : NullWorld :=
  match signal with
  | Kill => null_deliver KILLED_EXIT (null_exit p) w
  | Term | Interrupt => if ignores_graceful p then w else null_deliver GRACEFUL_EXIT (null_exit p) w
  | _ => w
  end.

Definition null_members (scope : option ProcessScopeId) (w : NullWorld) : list NullProc :=
  filter (fun p => match scope with None => true | Some scope => bool_decide (null_scope p = scope) end = true)
    (map_to_list (nl_procs w)).*2.

(** ** The methods *)

(** The critical section of [spawn]; [None]: the number overflows. *)
Definition null_register (scope : ProcessScopeId) (program : list Z) (w : NullWorld) : NullWorld * option Z :=
  let pid := nl_next_pid w + 1 in
  if 2 ^ 32 <=? pid then (w, None)
  else
    let c := nl_next w in
    let exit := if bool_decide (program = bytes_of "exit-immediately") then Some GRACEFUL_EXIT else None in
    let p := mkNullProc scope (bool_decide (program = bytes_of "ignore-graceful")) c in
    (mkNullWorld pid (<[pid := p]> (nl_procs w)) (<[c := exit]> (nl_exits w)) (S c) (<[pid := c]> (nl_spawned w)) (nl_waits w), Some pid).

Definition null_spawn (scope : ProcessScopeId) (spec : ProcessSpec) : LProg (result Spawned SpawnError) :=
  let program := lossy (spec_program spec) in
  let! pid := act (null_register scope program) in
  match pid with
  | None => Panic "attempt to add with overflow"
  | Some pid => Ret (Ok (mkSpawned (mkOsIdentity pid (StartTime pid))))
  end.

Definition null_signal (target : Spawned) (signal : Signal) : LProg (result unit TerminateError) :=
  modify (fun w => match nl_procs w !! os_pid (spawned_os target) with Some p => null_apply_signal signal p w | None => w end) ;;;
  Ret (Ok tt).

Definition signal_members (signal : Signal) (scope : option ProcessScopeId) (w : NullWorld) : NullWorld :=
  foldl (fun w p => null_apply_signal signal p w) w (null_members scope w).

Definition null_signal_scope (scope : ProcessScopeId) (signal : Signal) : LProg (result unit TerminateError) :=
  modify (signal_members signal (Some scope)) ;;; Ret (Ok tt).

Definition null_hard_kill_scope (scope : ProcessScopeId) : LProg unit := modify (signal_members Kill (Some scope)).
Definition null_hard_kill_all : LProg unit := modify (signal_members Kill None).

(** The sender of a channel is in its process. *)
Definition null_closed (c : nat) (w : NullWorld) : bool := negb (existsb (fun p => Nat.eqb (null_exit p) c) (map_to_list (nl_procs w)).*2).

(** The loop of [borrow_and_update] and [changed]. *)
Definition null_result (c : nat) (w : NullWorld) : option (NullWorld * option RawExit) :=
  match nl_exits w !! c with
  | Some (Some e) => Some (w, Some e)
  | _ => if null_closed c w then Some (w, None) else None
  end.

Definition null_answered (pid : Z) (r : result RawExit WaitError) : LProg (result RawExit WaitError) :=
  modify (log_null_wait pid r) ;;; Ret r.

Definition null_wait (target : Spawned) : LProg (result RawExit WaitError) :=
  let pid := os_pid (spawned_os target) in
  let! c := reads (fun w => option_map null_exit (nl_procs w !! pid)) in
  match c with
  | None => null_answered pid (Err (WaitError_UnknownProcess 0%N))
  | Some c =>
      let! exit := await (null_result c) in
      match exit with
      | None => null_answered pid (Err (WaitError_Backend "null waiter closed"))
      | Some exit =>
          modify (fun w => set_null_procs (delete pid (nl_procs w)) w) ;;;
          null_answered pid (Ok exit)
      end
  end.

Definition null_sample (target : Spawned) : LProg (result RawStats StatsError) :=
  let! p := reads (fun w => nl_procs w !! os_pid (spawned_os target)) in
  Ret (match p with
       | None => Err (StatsError_UnknownProcess 0%N)
       | Some _ => Ok (mkRawStats (S754_zero false) 1048576 (Some 4194304) None None None (Some 0) StateRunning)
       end).

Definition null_capabilities : Capabilities := mkCapabilities NoContainment Supported Supported Unsupported Unsupported true.

Definition null_new : NullWorld := mkNullWorld 0 ∅ ∅ 0 ∅ [].

Inductive null_api : LProg unit -> Prop :=
| null_api_spawn scope spec : null_api (null_spawn scope spec ;;; Ret tt)
| null_api_signal target signal : null_api (null_signal target signal ;;; Ret tt)
| null_api_signal_scope scope signal : null_api (null_signal_scope scope signal ;;; Ret tt)
| null_api_hard_kill_scope scope : null_api (null_hard_kill_scope scope)
| null_api_hard_kill_all : null_api null_hard_kill_all
| null_api_wait target : null_api (null_wait target ;;; Ret tt)
| null_api_sample target : null_api (null_sample target ;;; Ret tt).

(** ** What holds in every run *)

Definition null_delivered (w : NullWorld) (c : nat) (e : RawExit) : Prop := nl_exits w !! c = Some (Some e).

Record null_ok (w : NullWorld) : Prop := {
  nl_pids : forall pid c, nl_spawned w !! pid = Some c -> pid <= nl_next_pid w;
  nl_channels : forall pid c, nl_spawned w !! pid = Some c -> (c < nl_next w)%nat /\ is_Some (nl_exits w !! c);
  nl_fresh : forall c, (nl_next w <= c)%nat -> nl_exits w !! c = None;
  nl_registered : forall pid p, nl_procs w !! pid = Some p -> nl_spawned w !! pid = Some (null_exit p);
  (** A process leaves the map after its exit only. *)
  nl_removed : forall pid c, nl_spawned w !! pid = Some c ->
    (exists p, nl_procs w !! pid = Some p /\ null_exit p = c) \/ exists e, null_delivered w c e;
  nl_answers : forall pid r, (pid, r) ∈ nl_waits w ->
    r = Err (WaitError_UnknownProcess 0%N) \/ exists c e, r = Ok e /\ nl_spawned w !! pid = Some c /\ null_delivered w c e;
}.

(** An exit is final, and a number is given out once. *)
Record null_later (w w' : NullWorld) : Prop := {
  nr_exits : forall c e, null_delivered w c e -> null_delivered w' c e;
  nr_spawned : forall pid c, nl_spawned w !! pid = Some c -> nl_spawned w' !! pid = Some c;
}.
#[global] Instance null_later_preorder : PreOrder null_later.
Proof. split; [by split|]. intros w1 w2 w3 [E1 S1] [E2 S2]. split; eauto. Qed.

Definition null_step (w w' : NullWorld) : Prop := null_ok w -> null_ok w' /\ null_later w w'.

Lemma null_step_trans w1 w2 w3 : null_step w1 w2 -> null_step w2 w3 -> null_step w1 w3.
Proof. intros H1 H2 Hw. destruct (H1 Hw) as [Hw2 L1]. destruct (H2 Hw2) as [? L2]. split; [done|by etrans]. Qed.

Lemma deliver_delivered exit c w c' e : null_delivered w c' e -> null_delivered (null_deliver exit c w) c' e.
Proof.
  unfold null_delivered, null_deliver. cbn. destruct (decide (c' = c)) as [->|?]; [|by rewrite lookup_alter_ne].
  rewrite lookup_alter_eq. by intros ->.
Qed.

Lemma null_step_deliver exit c w : null_step w (null_deliver exit c w).
Proof.
  intros [P C N G M A]. split; [|split; [apply deliver_delivered|done]]. split; cbn; try done.
  - intros pid c' E. destruct (C pid c' E) as [? [x Hx]]. split; [done|]. destruct (decide (c' = c)) as [->|?].
    + rewrite lookup_alter_eq, Hx. by eexists.
    + rewrite lookup_alter_ne by done. by eexists.
  - intros c' Hc. rewrite lookup_alter_None. by apply N.
  - intros pid c' E. destruct (M pid c' E) as [?|[e He]]; [by left|right]. exists e. by apply deliver_delivered.
  - intros pid r Hin. destruct (A pid r Hin) as [?|(c' & e & ? & ? & He)]; [by left|right]. exists c', e.
    split_and!; [done..|]. by apply deliver_delivered.
Qed.

Lemma null_step_signal signal p w : null_step w (null_apply_signal signal p w).
Proof. unfold null_apply_signal. destruct signal; try destruct (ignores_graceful p); solve [apply null_step_deliver|done]. Qed.

Lemma null_step_members signal scope w : null_step w (signal_members signal scope w).
Proof.
  unfold signal_members. generalize (null_members scope w). intros l. revert w.
  induction l as [|p l IH]; intros w; cbn [foldl]; [done|]. eapply null_step_trans; [apply null_step_signal|apply IH].
Qed.

Lemma null_step_register scope program w : null_step w (null_register scope program w).1.
Proof.
  unfold null_register. destruct (2 ^ 32 <=? nl_next_pid w + 1); [done|]. cbn [fst]. intros [P C N G M A].
  assert (Hnew : nl_spawned w !! (nl_next_pid w + 1) = None).
  { apply eq_None_not_Some. intros [c E]. specialize (P _ c E). lia. }
  assert (Hold : forall pid c, nl_spawned w !! pid = Some c -> <[nl_next_pid w + 1 := nl_next w]> (nl_spawned w) !! pid = Some c).
  { intros pid c E. rewrite lookup_insert_ne; [done|]. intros <-. congruence. }
  assert (Hsent : forall c x, is_Some (nl_exits w !! c) -> <[nl_next w := x]> (nl_exits w) !! c = nl_exits w !! c).
  { intros c x [y Hy]. rewrite lookup_insert_ne; [done|]. intros <-. rewrite N in Hy by lia. done. }
  assert (Hdel : forall c e x, null_delivered w c e -> <[nl_next w := x]> (nl_exits w) !! c = Some (Some e)).
  { intros c e x He. rewrite Hsent; [done|]. by eexists. }
  split; [|split; [intros c e; by apply Hdel|done]]. split; cbn.
  - intros pid c [[<- <-]|[_ E]]%lookup_insert_Some; [lia|]. specialize (P pid c E). lia.
  - intros pid c [[<- <-]|[_ E]]%lookup_insert_Some; [rewrite lookup_insert_eq; split; [lia|by eexists]|].
    destruct (C pid c E) as [? Hx]. rewrite Hsent by done. split; [lia|done].
  - intros c Hn. rewrite lookup_insert_ne by lia. apply N. lia.
  - intros pid p [[<- <-]|[_ E]]%lookup_insert_Some; [apply lookup_insert_eq|]. by apply Hold, G.
  - intros pid c [[<- <-]|[Hne E]]%lookup_insert_Some.
    + left. eexists. by rewrite lookup_insert_eq.
    + destruct (M pid c E) as [(p & Ep & Hp)|[e He]]; [left; exists p; by rewrite lookup_insert_ne|right; exists e; by apply Hdel].
  - intros pid r Hin. destruct (A pid r Hin) as [?|(c & e & ? & ? & He)]; [by left|right]. exists c, e. split_and!; [done|by apply Hold|by apply Hdel].
Qed.

(** An answered process is forgotten. *)
Lemma null_step_forget pid c e w :
  nl_spawned w !! pid = Some c -> null_delivered w c e -> null_step w (set_null_procs (delete pid (nl_procs w)) w).
Proof.
  intros Hs He [P C N G M A]. split; [|by split]. split; cbn; try done.
  - intros pid' p [_ E]%lookup_delete_Some. by apply G.
  - intros pid' c' E. destruct (decide (pid' = pid)) as [->|?].
    + right. exists e. assert (c' = c) as -> by congruence. done.
    + destruct (M pid' c' E) as [(p & ? & ?)|?]; [left|by right]. exists p. by rewrite lookup_delete_ne.
Qed.

Lemma null_step_log pid r w :
  (r = Err (WaitError_UnknownProcess 0%N) \/ exists c e, r = Ok e /\ nl_spawned w !! pid = Some c /\ null_delivered w c e) ->
  null_step w (log_null_wait pid r w).
Proof.
  intros Hr [P C N G M A]. split; [|by split]. split; cbn; try done.
  intros pid' r' [Hin|Hin%list_elem_of_singleton]%elem_of_app; [by apply A|]. by injection Hin as -> ->.
Qed.

(** The channel of a process that left the map carries an exit: nobody finds it closed. *)
Lemma null_open w pid c :
  null_ok w -> nl_spawned w !! pid = Some c -> null_closed c w = true -> exists e, null_delivered w c e.
Proof.
  intros Hw Hs Hc. destruct (nl_removed _ Hw pid c Hs) as [(p & Ep & Hp)|?]; [|done]. exfalso.
  apply negb_true_iff, not_true_iff_false in Hc. apply Hc, existsb_exists. exists p. split; [|by apply Nat.eqb_eq].
  apply list_elem_of_In, list_elem_of_fmap. exists (pid, p). split; [done|]. by apply elem_of_map_to_list.
Qed.

Abbreviation nwp p post w := (wp (T := Empty_set) null_answer null_ok null_later (fun _ _ => True) (fun m _ => m = "attempt to add with overflow") p post w)
  (only parsing).

Lemma nwp_act {X} (f : NullWorld -> NullWorld * X) w : (forall w, null_step w (f w).1) -> nwp (act f) (fun _ _ => True) w.
Proof. intros Hf. apply wp_act. intros w1 _ H1. by destruct (Hf w1 H1). Qed.

Lemma nwp_answered pid r w (Pre : NullWorld -> Prop) :
  (forall w1 w2, null_later w1 w2 -> Pre w1 -> Pre w2) -> Pre w ->
  (forall w, Pre w -> r = Err (WaitError_UnknownProcess 0%N) \/ exists c e, r = Ok e /\ nl_spawned w !! pid = Some c /\ null_delivered w c e) ->
  nwp (null_answered pid r) (fun _ _ => True) w.
Proof.
  intros Hl Hp Hr. apply wp_bind; [apply _|]. apply wp_modify. intros w1 H01 H1.
  destruct (null_step_log pid r w1) as [? ?]; [by apply Hr, (Hl w)|done|]. split_and!; [done..|]. intros w2 _ _. by apply wp_ret.
Qed.

Lemma nwp_wait target w : nwp (null_wait target) (fun _ _ => True) w.
Proof.
  unfold null_wait. set (pid := os_pid (spawned_os target)). apply wp_bind; [apply _|]. apply wp_reads; [apply _|]. intros w0 w1 _ H0 H01 H1.
  destruct (nl_procs w0 !! pid) as [p|] eqn:Ep; cbn [option_map]; cycle 1.
  { apply (nwp_answered _ _ _ (fun _ => True)); [done..|]. intros ? _. by left. }
  assert (Hs : nl_spawned w1 !! pid = Some (null_exit p)) by (by apply (nr_spawned _ _ H01), (nl_registered _ H0)).
  set (c := null_exit p) in *. clearbody c. clear H0 H01 Ep p w0. apply wp_bind; [apply _|]. apply wp_wait; [apply _|].
  intros w2 w3 exit H12 H2 Hf. cbn in Hf. pose proof (nr_spawned _ _ H12 _ _ Hs) as Hs2.
  assert (w3 = w2 /\ exists e, exit = Some e /\ null_delivered w2 c e) as (-> & e & -> & He).
  { unfold null_result in Hf. destruct (nl_exits w2 !! c) as [[e|]|] eqn:Ee.
    1: injection Hf as <- <-; split; [done|]; by exists e.
    all: destruct (null_closed c w2) eqn:Hc; [|done]; destruct (null_open w2 pid c H2 Hs2 Hc) as [e He];
      unfold null_delivered in He; congruence. }
  split_and!; [done..|]. intros w4 H24 H4. apply wp_bind; [apply _|]. apply wp_modify. intros w5 H45 H5.
  assert (Hs5 : nl_spawned w5 !! pid = Some c) by (by apply (nr_spawned _ _ H45), (nr_spawned _ _ H24)).
  assert (He5 : null_delivered w5 c e) by (by apply (nr_exits _ _ H45), (nr_exits _ _ H24)).
  destruct (null_step_forget pid c e w5 Hs5 He5 H5) as [H6 L6]. split_and!; [done..|]. intros w7 H67 H7.
  apply (nwp_answered _ _ _ (fun w => nl_spawned w !! pid = Some c /\ null_delivered w c e)).
  - intros w8 w9 H89 [? ?]. split; [by apply (nr_spawned _ _ H89)|by apply (nr_exits _ _ H89)].
  - split; [by apply (nr_spawned _ _ H67), (nr_spawned _ _ L6)|by apply (nr_exits _ _ H67), (nr_exits _ _ L6)].
  - intros w8 [? ?]. right. by exists c, e.
Qed.

Lemma nwp_then {A} (p : LProg A) w : nwp p (fun _ _ => True) w -> nwp (p ;;; Ret tt) (fun _ _ => True) w.
Proof. intros Hp. apply wp_bind; [apply _|]. eapply wp_mono; [apply _| |exact Hp]. intros a w1 _ _ _. by apply wp_ret. Qed.

Lemma nwp_api p w : null_api p -> nwp p (fun _ _ => True) w.
Proof.
  intros Hp. destruct Hp as [scope spec|target signal|scope signal|scope| |target|target].
  - apply nwp_then. unfold null_spawn. apply wp_bind; [apply _|]. eapply wp_mono; [apply _| |apply nwp_act; intros w1; apply null_step_register].
    intros [pid|] w1 _ _ _; [by apply wp_ret|]. by intros w2 _ _.
  - apply nwp_then. unfold null_signal. apply wp_bind; [apply _|].
    eapply wp_mono; [apply _| |apply nwp_act; intros w1; cbn; destruct (nl_procs w1 !! _); [apply null_step_signal|done]].
    intros u w1 _ _ _. by apply wp_ret.
  - apply nwp_then. unfold null_signal_scope. apply wp_bind; [apply _|].
    eapply wp_mono; [apply _| |apply nwp_act; intros w1; apply null_step_members]. intros u w1 _ _ _. by apply wp_ret.
  - apply nwp_act. intros w1. apply null_step_members.
  - apply nwp_act. intros w1. apply null_step_members.
  - apply nwp_then, nwp_wait.
  - apply nwp_then. unfold null_sample. apply wp_bind; [apply _|]. apply wp_reads; [apply _|]. intros w1 w2 _ _ _ _. by apply wp_ret.
Qed.

Definition null_reachable (c : Conc.config) : Prop := rtc (step null_answer (fun t : Empty_set => match t with end) null_api) (null_new, []) c.

Lemma null_new_ok : null_ok null_new.
Proof. split; cbn; try done. intros pid r Hin. by apply elem_of_nil in Hin. Qed.

Lemma null_pool_ok c : null_reachable c ->
  pool_ok null_answer null_ok null_later (fun _ _ => True) (fun m _ => m = "attempt to add with overflow") c.
Proof.
  intros Hr. refine (proj1 (wp_adequate _ _ _ _ _ _ null_api _ _ _ c Hr _)).
  - intros p w _ Hp. by apply nwp_api.
  - intros [].
  - split; [apply null_new_ok|done].
Qed.

(** What [wait] returns is the one exit that was ever delivered to the process, or that there is no such
    process; "null waiter closed" is never returned, and nothing panics but the 2^32nd spawn. *)
Theorem null_waits_true c :
  null_reachable c ->
  (forall pid r, (pid, r) ∈ nl_waits c.1 ->
     r = Err (WaitError_UnknownProcess 0%N) \/
     exists ch e, r = Ok e /\ nl_spawned c.1 !! pid = Some ch /\ null_delivered c.1 ch e) /\
  (forall m, Panic m ∈ c.2 -> m = "attempt to add with overflow").
Proof.
  intros Hr. pose proof (null_pool_ok c Hr) as Hp. split; [apply (nl_answers _ (proj1 Hp))|]. intros m Hm.
  exact (pool_ok_panics null_answer null_ok null_later _ _ c m Hp Hm).
Qed.

(** ** The kill of a scope *)

Lemma signal_delivers signal l : forall w c e, null_delivered w c e -> null_delivered (foldl (fun w p => null_apply_signal signal p w) w l) c e.
Proof.
  induction l as [|p l IH]; intros w c e He; cbn [foldl]; [done|]. apply IH. unfold null_apply_signal.
  destruct signal; try destruct (ignores_graceful p); solve [by apply deliver_delivered|done].
Qed.

Lemma kill_delivers p l : p ∈ l -> forall w, is_Some (nl_exits w !! null_exit p) ->
  exists e, null_delivered (foldl (fun w p => null_apply_signal Kill p w) w l) (null_exit p) e.
Proof.
  induction l as [|q l IH]; intros Hin w [x Hx]; [by apply elem_of_nil in Hin|]. cbn [foldl].
  apply elem_of_cons in Hin as [<-|Hin].
  - exists (match x with Some e => e | None => KILLED_EXIT end). apply signal_delivers. unfold null_delivered. cbn.
    rewrite lookup_alter_eq, Hx. by destruct x.
  - apply IH; [done|]. cbn. destruct (decide (null_exit p = null_exit q)) as [E|?].
    + rewrite E, lookup_alter_eq. rewrite E in Hx. rewrite Hx. by eexists.
    + rewrite lookup_alter_ne by done. by eexists.
Qed.

(** A kill of a scope ends every process of it, and changes no exit. *)
Theorem null_kill_ends scope w pid p :
  null_ok w -> nl_procs w !! pid = Some p -> null_scope p = scope ->
  exists e, null_delivered (signal_members Kill (Some scope) w) (null_exit p) e /\
    forall e0, null_delivered w (null_exit p) e0 -> e = e0.
Proof.
  intros Hw Ep Hs. destruct (kill_delivers p (null_members (Some scope) w)) with (w := w) as [e He].
  - unfold null_members. rewrite list_elem_of_filter, list_elem_of_fmap. split; [by apply bool_decide_eq_true|].
    exists (pid, p). split; [done|]. by apply elem_of_map_to_list.
  - destruct (nl_channels _ Hw pid (null_exit p)) as [_ Hx]; [by apply nl_registered|done].
  - exists e. split; [exact He|]. intros e0 H0. apply (signal_delivers Kill (null_members (Some scope) w)) in H0.
    unfold null_delivered in *. congruence.
Qed.
