(* ===== verification/Native.v ===== *)
(** * Native: the Unix backend, on Linux

    shepherd-infra/src/backend/unix.rs with sampling.rs and cgroup.rs, over the kernel of
    [Unix]. A critical section under the mutex of the state is one step; the answers of
    the system calls that may fail in it are asked for before it. A [std::process::Child]
    that was not waited for is an entry of [nw_handles]; one that was dropped is one of
    [nw_orphans], which a thread of its own waits for. The readers of captured output are those
    of [Output]; here they are questions. The backend lives as long as its tasks. *)

From stdpp Require Import base list gmap strings.
From Stdlib Require Import SpecFloat.
From S2P Require Import Prelude StdModel Values Observation Usage KeptDomain Ports Conc KeptState KeptStore Display Unix KeptUnix Procfs.

Open Scope Z_scope.
Open Scope prog_scope.

(** ** State *)

(** [(os_pid, reuse_token)]; no token is 0. *)
Abbreviation ChildKey := (Z * Z)%type (only parsing).

Definition child_key (os : OsIdentity) : ChildKey :=
  (os_pid os, match reuse_token os with StartTime t => t | TokenUnavailable => 0 end).

(** A pidfd is the instance it names; the channels are numbers. *)
Record ChildSlot : Type := mkChildSlot {
  cs_scope : ProcessScopeId;
  cs_output : option ProcessOutput;
  cs_sampling : nat;
  cs_retry : nat;
  cs_sender : nat;
  cs_pidfd : option KeptLaunch;
}.

(** The pipe to the anchor's input is open as long as the anchor is in the state. *)
Record Anchor : Type := mkAnchor {
  an_exit : nat;
  an_kill_issued : bool;
}.
Definition issue_kill (a : Anchor) : Anchor := mkAnchor (an_exit a) true.

Record ScopeGroup : Type := mkScopeGroup {
  gr_pgid : Z;
  gr_live : Z;
  gr_wait_failed : bool;
}.
Definition set_live (n : Z) (g : ScopeGroup) : ScopeGroup := mkScopeGroup (gr_pgid g) n (gr_wait_failed g).
Definition set_wait_failed (g : ScopeGroup) : ScopeGroup := mkScopeGroup (gr_pgid g) (gr_live g) true.

Record BackendState : Type := mkBackendState {
  st_children : gmap ChildKey ChildSlot;
  st_cpu_samples : gmap ChildKey (Instant * Z);
  st_groups : gmap ProcessScopeId ScopeGroup;
  st_anchors : gmap ProcessScopeId Anchor;
  st_locks : gmap ProcessScopeId nat;
}.
Definition set_children (x : gmap ChildKey ChildSlot) (st : BackendState) : BackendState :=
  mkBackendState x (st_cpu_samples st) (st_groups st) (st_anchors st) (st_locks st).
Definition set_cpu_samples (x : gmap ChildKey (Instant * Z)) (st : BackendState) : BackendState :=
  mkBackendState (st_children st) x (st_groups st) (st_anchors st) (st_locks st).
Definition set_groups (x : gmap ProcessScopeId ScopeGroup) (st : BackendState) : BackendState :=
  mkBackendState (st_children st) (st_cpu_samples st) x (st_anchors st) (st_locks st).
Definition set_anchors (x : gmap ProcessScopeId Anchor) (st : BackendState) : BackendState :=
  mkBackendState (st_children st) (st_cpu_samples st) (st_groups st) x (st_locks st).
Definition set_locks (x : gmap ProcessScopeId nat) (st : BackendState) : BackendState :=
  mkBackendState (st_children st) (st_cpu_samples st) (st_groups st) (st_anchors st) x.

(** ** Channels *)

(** The watch channel of a child's exit. [ec_version]: how many values were sent. History: the
    instance it speaks of. *)
Record ExitChannel : Type := mkExitChannel {
  ec_value : option (result RawExit string);
  ec_version : nat;
  ec_instance : KeptLaunch;
}.

(** The watch channel of an anchor's exit. History: the handle of the anchor and its instance. *)
Record AnchorChannel : Type := mkAnchorChannel {
  ac_value : option (result unit string);
  ac_handle : nat;
  ac_instance : KeptLaunch;
}.

(** The retry channel of a waiter, of capacity one; its sender is in the slot, its receiver in the
    waiter. *)
Record RetryChannel : Type := mkRetryChannel {
  rt_queued : bool;
  rt_sender : bool;
  rt_receiver : bool;
}.

Inductive SampleCell : Type :=
| SampleOpen
| SampleDone (r : result RawStats StatsError)
| SampleFailed
| SampleClosed.

(** ** The world *)

(** What was reaped, with its status; the scopes of which a spawn found the anchor gone that it had
    just ensured (a cleanup ran in the middle of the spawn); each use of a group's number (a
    signal, or a child that joins), and whether the group's founder was an unreaped child then;
    the instances that [signal] reached through a pidfd; the exits that [wait] returned. *)
Record NativeHistory : Type := mkNativeHistory {
  nh_reaped : gmap KeptLaunch WaitStatus;
  nh_overlapped : gset ProcessScopeId;
  nh_uses : list (ProcessScopeId * bool);
  nh_signals : list (OsIdentity * KeptLaunch);
  nh_waits : list (OsIdentity * RawExit);
}.

(** [nw_cgroups]: the groups of the cgroup adapter, if there is one. *)
Record NativeWorld : Type := mkNativeWorld {
  nw_kernel : Kernel;
  nw_handles : gmap nat KeptLaunch;
  nw_orphans : gmap nat KeptLaunch;
  nw_state : BackendState;
  nw_mutexes : gmap nat bool;
  nw_exits : gmap nat ExitChannel;
  nw_anchor_exits : gmap nat AnchorChannel;
  nw_retries : gmap nat RetryChannel;
  nw_sampling : gmap nat bool;
  nw_permits : nat;
  nw_cells : gmap nat SampleCell;
  nw_next : nat;
  nw_cgroups : option (gmap ProcessScopeId PathBuf);
  nw_history : NativeHistory;
}.

Definition set_nkernel (x : Kernel) (w : NativeWorld) : NativeWorld :=
  mkNativeWorld x (nw_handles w) (nw_orphans w) (nw_state w) (nw_mutexes w) (nw_exits w) (nw_anchor_exits w) (nw_retries w) (nw_sampling w) (nw_permits w) (nw_cells w) (nw_next w) (nw_cgroups w) (nw_history w).
Definition set_handles (x : gmap nat KeptLaunch) (w : NativeWorld) : NativeWorld :=
  mkNativeWorld (nw_kernel w) x (nw_orphans w) (nw_state w) (nw_mutexes w) (nw_exits w) (nw_anchor_exits w) (nw_retries w) (nw_sampling w) (nw_permits w) (nw_cells w) (nw_next w) (nw_cgroups w) (nw_history w).
Definition set_orphans (x : gmap nat KeptLaunch) (w : NativeWorld) : NativeWorld :=
  mkNativeWorld (nw_kernel w) (nw_handles w) x (nw_state w) (nw_mutexes w) (nw_exits w) (nw_anchor_exits w) (nw_retries w) (nw_sampling w) (nw_permits w) (nw_cells w) (nw_next w) (nw_cgroups w) (nw_history w).
Definition set_state (x : BackendState) (w : NativeWorld) : NativeWorld :=
  mkNativeWorld (nw_kernel w) (nw_handles w) (nw_orphans w) x (nw_mutexes w) (nw_exits w) (nw_anchor_exits w) (nw_retries w) (nw_sampling w) (nw_permits w) (nw_cells w) (nw_next w) (nw_cgroups w) (nw_history w).
Definition set_mutexes (x : gmap nat bool) (w : NativeWorld) : NativeWorld :=
  mkNativeWorld (nw_kernel w) (nw_handles w) (nw_orphans w) (nw_state w) x (nw_exits w) (nw_anchor_exits w) (nw_retries w) (nw_sampling w) (nw_permits w) (nw_cells w) (nw_next w) (nw_cgroups w) (nw_history w).
Definition set_exits (x : gmap nat ExitChannel) (w : NativeWorld) : NativeWorld :=
  mkNativeWorld (nw_kernel w) (nw_handles w) (nw_orphans w) (nw_state w) (nw_mutexes w) x (nw_anchor_exits w) (nw_retries w) (nw_sampling w) (nw_permits w) (nw_cells w) (nw_next w) (nw_cgroups w) (nw_history w).
Definition set_anchor_exits (x : gmap nat AnchorChannel) (w : NativeWorld) : NativeWorld :=
  mkNativeWorld (nw_kernel w) (nw_handles w) (nw_orphans w) (nw_state w) (nw_mutexes w) (nw_exits w) x (nw_retries w) (nw_sampling w) (nw_permits w) (nw_cells w) (nw_next w) (nw_cgroups w) (nw_history w).
Definition set_retries (x : gmap nat RetryChannel) (w : NativeWorld) : NativeWorld :=
  mkNativeWorld (nw_kernel w) (nw_handles w) (nw_orphans w) (nw_state w) (nw_mutexes w) (nw_exits w) (nw_anchor_exits w) x (nw_sampling w) (nw_permits w) (nw_cells w) (nw_next w) (nw_cgroups w) (nw_history w).
Definition set_sampling (x : gmap nat bool) (w : NativeWorld) : NativeWorld :=
  mkNativeWorld (nw_kernel w) (nw_handles w) (nw_orphans w) (nw_state w) (nw_mutexes w) (nw_exits w) (nw_anchor_exits w) (nw_retries w) x (nw_permits w) (nw_cells w) (nw_next w) (nw_cgroups w) (nw_history w).
Definition set_permits (x : nat) (w : NativeWorld) : NativeWorld :=
  mkNativeWorld (nw_kernel w) (nw_handles w) (nw_orphans w) (nw_state w) (nw_mutexes w) (nw_exits w) (nw_anchor_exits w) (nw_retries w) (nw_sampling w) x (nw_cells w) (nw_next w) (nw_cgroups w) (nw_history w).
Definition set_ncells (x : gmap nat SampleCell) (w : NativeWorld) : NativeWorld :=
  mkNativeWorld (nw_kernel w) (nw_handles w) (nw_orphans w) (nw_state w) (nw_mutexes w) (nw_exits w) (nw_anchor_exits w) (nw_retries w) (nw_sampling w) (nw_permits w) x (nw_next w) (nw_cgroups w) (nw_history w).
Definition set_nnext (x : nat) (w : NativeWorld) : NativeWorld :=
  mkNativeWorld (nw_kernel w) (nw_handles w) (nw_orphans w) (nw_state w) (nw_mutexes w) (nw_exits w) (nw_anchor_exits w) (nw_retries w) (nw_sampling w) (nw_permits w) (nw_cells w) x (nw_cgroups w) (nw_history w).
Definition set_cgroups (x : option (gmap ProcessScopeId PathBuf)) (w : NativeWorld) : NativeWorld :=
  mkNativeWorld (nw_kernel w) (nw_handles w) (nw_orphans w) (nw_state w) (nw_mutexes w) (nw_exits w) (nw_anchor_exits w) (nw_retries w) (nw_sampling w) (nw_permits w) (nw_cells w) (nw_next w) x (nw_history w).
Definition set_nhistory (x : NativeHistory) (w : NativeWorld) : NativeWorld :=
  mkNativeWorld (nw_kernel w) (nw_handles w) (nw_orphans w) (nw_state w) (nw_mutexes w) (nw_exits w) (nw_anchor_exits w) (nw_retries w) (nw_sampling w) (nw_permits w) (nw_cells w) (nw_next w) (nw_cgroups w) x.
Definition set_reaped (x : gmap KeptLaunch WaitStatus) (h : NativeHistory) : NativeHistory :=
  mkNativeHistory x (nh_overlapped h) (nh_uses h) (nh_signals h) (nh_waits h).
Definition set_overlapped (x : gset ProcessScopeId) (h : NativeHistory) : NativeHistory :=
  mkNativeHistory (nh_reaped h) x (nh_uses h) (nh_signals h) (nh_waits h).
Definition set_uses (x : list (ProcessScopeId * bool)) (h : NativeHistory) : NativeHistory :=
  mkNativeHistory (nh_reaped h) (nh_overlapped h) x (nh_signals h) (nh_waits h).
Definition set_signals (x : list (OsIdentity * KeptLaunch)) (h : NativeHistory) : NativeHistory :=
  mkNativeHistory (nh_reaped h) (nh_overlapped h) (nh_uses h) x (nh_waits h).
Definition set_waits (x : list (OsIdentity * RawExit)) (h : NativeHistory) : NativeHistory :=
  mkNativeHistory (nh_reaped h) (nh_overlapped h) (nh_uses h) (nh_signals h) x.

Definition nbump (w : NativeWorld) : NativeWorld := set_nnext (S (nw_next w)) w.
Definition on_state (f : BackendState -> BackendState) (w : NativeWorld) : NativeWorld := set_state (f (nw_state w)) w.
Definition on_history (f : NativeHistory -> NativeHistory) (w : NativeWorld) : NativeWorld := set_nhistory (f (nw_history w)) w.
Definition note_reaped (i : KeptLaunch) (s : WaitStatus) (w : NativeWorld) : NativeWorld :=
  on_history (fun h => set_reaped (<[i := s]> (nh_reaped h)) h) w.
Definition mark_overlapped (scope : ProcessScopeId) (w : NativeWorld) : NativeWorld :=
  on_history (fun h => set_overlapped ({[scope]} ∪ nh_overlapped h) h) w.
Definition log_signal (os : OsIdentity) (i : KeptLaunch) (w : NativeWorld) : NativeWorld :=
  on_history (fun h => set_signals (nh_signals h ++ [(os, i)]) h) w.
Definition log_wait (os : OsIdentity) (e : RawExit) (w : NativeWorld) : NativeWorld :=
  on_history (fun h => set_waits (nh_waits h ++ [(os, e)]) h) w.

(** The founder of the group [g] is an unreaped child of this process. *)
Definition group_pinned (g : Z) (w : NativeWorld) : bool :=
  existsb (fun e => (launch_os_pid e.2 =? g) && present e.2 (nw_kernel w)) (map_to_list (nw_handles w)).
Definition log_use (scope : ProcessScopeId) (g : Z) (w : NativeWorld) : NativeWorld :=
  on_history (fun h => set_uses (nh_uses h ++ [(scope, group_pinned g w)]) h) w.

(** ** Questions and tasks *)

(** What a fork runs: standard input is null or, for an anchor, a pipe; the outputs are null or piped. *)
Record NativeCommand : Type := mkNativeCommand {
  nc_command : Command;
  nc_input_piped : bool;
  nc_outputs_piped : bool;
}.

(** A shell that ignores the usual signals and waits for its input to be closed. *)
Definition anchor_command : NativeCommand :=
  mkNativeCommand (mkCommand "/bin/sh" ["-c"; "trap '' HUP INT TERM; read shepherd_scope_anchor"] None [] None) true false.

(** A child has an end of its input to take when the command piped it. *)
Definition has_stdin (command : NativeCommand) : bool := nc_input_piped command.

Definition backend_apply_env (env : EnvPolicy) : list EnvOp :=
  match env with
  | Inherit => []
  | Overrides entries => map (fun e => match e.2 with Some value => EnvSet e.1 value | None => EnvRemove e.1 end) entries
  | Clear entries => EnvClear :: map (fun e => EnvSet e.1 e.2) entries
  end.

Definition root_command (spec : ProcessSpec) : NativeCommand :=
  mkNativeCommand (mkCommand (spec_program spec) (spec_args spec) (spec_cwd spec) (backend_apply_env (spec_env spec)) None) false
    (match spec_output spec with Capture _ _ => true | Discard => false end).

Inductive NativePort : Type -> Type :=
(** Does this call fail? With which text? *)
| NvFails : NativePort (option string)
(** The identity of the child that a fork of this command makes. *)
| NvForks (command : NativeCommand) : NativePort KeptLaunch
(** An error of [try_wait], and whether it is ECHILD. *)
| NvWaitFails : NativePort (option (string * bool))
(** A SIGCHLD, or the end of its stream. *)
| NvSigchld : NativePort bool
| NvReadable (p : Z) : NativePort bool
(** Which entries of /proc can be read, and which groups refuse a signal, as one section finds them. *)
| NvReadables : NativePort (Z -> bool)
| NvRefusals : NativePort (ProcessScopeId -> option string)
| NvPidfdOpens (p : Z) : NativePort bool
(** The bytes of a file, or why it cannot be read. *)
| NvText (path : string) : NativePort (result string string)
| NvClockTick : NativePort (result (option Z) string)
| NvNow : NativePort Instant
| NvSleep (d : Duration) : NativePort unit
| NvBlockingRefused : NativePort string
(** A reader of a captured stream, and [finish_readers], of [Output]. *)
| NvDrained (output : ProcessOutput) (stdout : bool) : NativePort unit
| NvReadersFinished (output : ProcessOutput) : NativePort unit
| NvAccounting (directory : PathBuf) : NativePort (result ScopeAccounting string).

Inductive NativeTask : Type :=
| RunAnchor (polls : nat) (scope : ProcessScopeId) (pgid : Z) (h c : nat)
| RunWaiter (polls : nat) (scope : ProcessScopeId) (h c rt : nat) (output : option ProcessOutput)
| RunReader (output : ProcessOutput) (stdout : bool)
| RunSample (cell flag : nat) (target : Spawned).

Definition native_answer (X : Type) (q : NativePort X) (x : X) (w : NativeWorld) : NativeWorld := w.

Abbreviation NProg := (Prog (S := NativeWorld) (Q := NativePort) (T := NativeTask)).
Abbreviation NEvent := (Event (S := NativeWorld) (Q := NativePort)).

(** ** Children *)

(** [child.as_mut().expect(..).try_wait()]: [None] is the panic. *)
Definition try_wait (h : nat) (failed : option (string * bool)) (w : NativeWorld) :
    NativeWorld * option (result (option WaitStatus) (string * bool)) :=
  match nw_handles w !! h, failed with
  | None, _ => (w, None)
  | Some _, Some e => (w, Some (Err e))
  | Some i, None =>
      match waitpid (launch_os_pid i) (nw_kernel w) with
      | None => (w, Some (Ok None))
      | Some (k, inl status) =>
          (note_reaped i status (set_handles (delete h (nw_handles w)) (set_nkernel k w)), Some (Ok (Some status)))
      | Some (_, inr _) => (w, Some (Err ("No child processes (os error 10)", true)))
      end
  end.

(** The child is no longer owned (after ECHILD). *)
Definition disown_child (h : nat) (w : NativeWorld) : NativeWorld := set_handles (delete h (nw_handles w)) w.

(** The drop of [NativeChild]: a thread waits for a child that is still owned. *)
Definition orphan_child (h : nat) (w : NativeWorld) : NativeWorld :=
  match nw_handles w !! h with
  | Some i => set_orphans (<[h := i]> (nw_orphans w)) (disown_child h w)
  | None => w
  end.
Definition reap_orphan (h : nat) (w : NativeWorld) : NativeWorld :=
  match nw_orphans w !! h with
  | Some i =>
      match waitpid (launch_os_pid i) (nw_kernel w) with
      | Some (k, inl status) => note_reaped i status (set_orphans (delete h (nw_orphans w)) (set_nkernel k w))
      | _ => w
      end
  | None => w
  end.

(** [Child::kill], of a child that is still owned; then it is dropped. *)
Definition kill_unregistered (h : nat) (refused : option string) (w : NativeWorld) : NativeWorld :=
  match nw_handles w !! h with
  | Some i => orphan_child h (set_nkernel (kill_process (launch_os_pid i) SIGKILL refused (nw_kernel w)).1 w)
  | None => w
  end.

Section Backend.
(** [nix]'s [Signal::try_from], and the number of this process's own group. *)
Context (nix_try_from : Z -> result Z string) (here_group : Z).

(** [Command::spawn] of a child that calls [setpgid(0, target)] before it runs its program: the
    identity [i] is the kernel's choice. A child that fails is reaped by [spawn]. *)
Definition spawn_native (i : KeptLaunch) (target : Z) (w : NativeWorld) : NativeWorld * result nat string :=
  match os_fork i Here here_group (nw_kernel w) with
  | None => (w, Err "fork")
  | Some k =>
      let started k := (nbump (set_handles (<[nw_next w := i]> (nw_handles w)) (set_nkernel k w)), Ok (nw_next w)) in
      if target =? 0 then started (os_found i k)
      else if bool_decide (in_group target k = [])
      then (set_nkernel (set_table (delete (launch_os_pid i) (k_table k)) k) w, Err "Operation not permitted (os error 1)")
      else started (set_table (alter (with_group target) (launch_os_pid i) (k_table k)) k)
  end.

Definition native_read_start_time (p : Z) : NProg (option Z) :=
  let! readable := call (NvReadable p) in
  if readable : bool then reads (fun w => start_time p (nw_kernel w)) else Ret None.

Definition native_open_pidfd (p : Z) : NProg (option KeptLaunch) :=
  let! opens := call (NvPidfdOpens p) in
  if opens : bool then reads (fun w => identity_at p (nw_kernel w)) else Ret None.

Definition identity_still_matches (os : OsIdentity) : NProg bool :=
  match reuse_token os with
  | TokenUnavailable => Ret true
  | StartTime expected =>
      let! actual := native_read_start_time (os_pid os) in
      Ret (match actual with Some actual => actual =? expected | None => false end)
  end.

(** ** Scopes and their groups *)

Definition has_cgroups (w : NativeWorld) : bool := match nw_cgroups w with Some _ => true | None => false end.
Definition containment (w : NativeWorld) : Containment := if has_cgroups w then CgroupV2 else ProcessGroup.

Definition scope_lock (scope : ProcessScopeId) (w : NativeWorld) : NativeWorld * nat :=
  match st_locks (nw_state w) !! scope with
  | Some m => (w, m)
  | None =>
      let m := nw_next w in
      (nbump (set_mutexes (<[m := false]> (nw_mutexes w)) (on_state (fun st => set_locks (<[scope := m]> (st_locks st)) st) w)), m)
  end.

Definition lock_mutex (m : nat) (w : NativeWorld) : option (NativeWorld * unit) :=
  match nw_mutexes w !! m with Some false => Some (set_mutexes (<[m := true]> (nw_mutexes w)) w, tt) | _ => None end.
Definition unlock_mutex (m : nat) (w : NativeWorld) : NativeWorld := set_mutexes (<[m := false]> (nw_mutexes w)) w.

Definition anchor_exit (a : Anchor) (w : NativeWorld) : option (result unit string) :=
  c ← nw_anchor_exits w !! an_exit a; ac_value c.

(** *** [ensure_anchor] *)

Inductive anchor_check : Type :=
| AnchorKept
| AnchorRefused (e : SpawnError)
| AnchorMissing
| AnchorWithoutGroup.

Definition remove_group (scope : ProcessScopeId) (st : BackendState) : BackendState :=
  set_groups (delete scope (st_groups st)) st.
Definition remove_anchor (scope : ProcessScopeId) (st : BackendState) : BackendState :=
  set_anchors (delete scope (st_anchors st)) st.

Definition check_anchor (scope : ProcessScopeId) (w : NativeWorld) : NativeWorld * anchor_check :=
  match st_anchors (nw_state w) !! scope with
  | None => (w, AnchorMissing)
  | Some a =>
      if an_kill_issued a then (w, AnchorRefused (SpawnError_ScopeClosed scope))
      else
        match anchor_exit a w with
        | None => (w, AnchorKept)
        | Some (Err error) => (w, AnchorRefused (SpawnError_Os ("anchor reap failed: " +:+ error)))
        | Some (Ok _) =>
            match st_groups (nw_state w) !! scope with
            | None => (w, AnchorWithoutGroup)
            | Some g =>
                if negb (gr_live g =? 0) || negb (bool_decide (in_group (gr_pgid g) (nw_kernel w) = []))
                then (w, AnchorRefused (SpawnError_Os "scope anchor exited while its group may still exist; cleanup required"))
                else (on_state (fun st => remove_group scope (remove_anchor scope st)) w, AnchorMissing)
            end
        end
  end.

(** The anchor's process, a group of its own, and the channel of its exit. *)
Definition spawn_anchor (i : KeptLaunch) (w : NativeWorld) : NativeWorld * result (nat * nat) string :=
  match spawn_native i 0 w with
  | (w, Err text) => (w, Err text)
  | (w, Ok h) => (nbump (set_anchor_exits (<[nw_next w := mkAnchorChannel None h i]> (nw_anchor_exits w)) w), Ok (h, nw_next w))
  end.

Definition insert_anchor (scope : ProcessScopeId) (pgid : Z) (c : nat) : NativeWorld -> NativeWorld :=
  on_state (fun st =>
    set_groups (<[scope := mkScopeGroup pgid 0 false]> (st_groups st))
      (set_anchors (<[scope := mkAnchor c false]> (st_anchors st)) st)).

Definition new_anchor (polls : nat) (scope : ProcessScopeId) : NProg (result unit SpawnError) :=
  let! fails := call NvFails in
  match fails with
  | Some text => Ret (Err (SpawnError_Os text))
  | None =>
      let! fails := call NvFails in
      match fails with
      | Some text => Ret (Err (SpawnError_Os text))
      | None =>
          let! i := call (NvForks anchor_command) in
          let! spawned := act (spawn_anchor i) in
          match spawned with
          | Err text => Ret (Err (SpawnError_Os text))
          | Ok (h, c) =>
              if negb (has_stdin anchor_command) then Panic "anchor stdin"
              else
                fork (RunAnchor polls scope (launch_os_pid i) h c) ;;;
                modify (insert_anchor scope (launch_os_pid i) c) ;;;
                Ret (Ok tt)
          end
      end
  end.

Definition ensure_anchor (polls : nat) (scope : ProcessScopeId) : NProg (result unit SpawnError) :=
  let! grouped := reads has_cgroups in
  if grouped : bool then Ret (Ok tt)
  else
    let! checked := act (check_anchor scope) in
    match checked with
    | AnchorKept => Ret (Ok tt)
    | AnchorRefused e => Ret (Err e)
    | AnchorMissing => new_anchor polls scope
    | AnchorWithoutGroup => Panic "anchor group"
    end.

(** *** [AnchorWait] *)

Definition publish_anchor (c : nat) (r : result unit string) (w : NativeWorld) : NativeWorld :=
  set_anchor_exits (alter (fun a => mkAnchorChannel (Some r) (ac_handle a) (ac_instance a)) c (nw_anchor_exits w)) w.

(** [poll_exit], under the mutex of the state; a child that is still owned when the poll is over is
    dropped with the worker. *)
Definition poll_exit (h c : nat) (failed : option (string * bool)) (w : NativeWorld) : NativeWorld * option bool :=
  match try_wait h failed w with
  | (w, None) => (w, None)
  | (w, Some (Ok (Some _))) => (publish_anchor c (Ok tt) w, Some true)
  | (w, Some (Ok None)) => (w, Some false)
  | (w, Some (Err (text, echild))) =>
      (orphan_child h (publish_anchor c (Err text) (if echild then disown_child h w else w)), Some true)
  end.
Definition anchor_stream_closed (h c : nat) (w : NativeWorld) : NativeWorld :=
  orphan_child h (publish_anchor c (Err "anchor SIGCHLD stream closed") w).

(** The drop of a worker that is still armed, with the child it owns. *)
Definition anchor_dropped (scope : ProcessScopeId) (pgid : Z) (h c : nat) (w : NativeWorld) : NativeWorld :=
  let w :=
    match nw_handles w !! h with
    | Some _ => log_use scope pgid (set_nkernel (killpg pgid SIGKILL None (nw_kernel w)).1 w)
    | None => w
    end in
  let w :=
    on_state (fun st =>
      match st_groups st !! scope with
      | Some g => if gr_pgid g =? pgid then set_anchors (alter issue_kill scope (st_anchors st)) st else st
      | None => st
      end) w in
  orphan_child h (publish_anchor c (Err "anchor waiter interrupted; synchronous group kill issued, reap unverified") w).

Fixpoint anchor_loop (polls : nat) (h c : nat) : NProg unit :=
  let! failed := call NvWaitFails in
  let! over := act (poll_exit h c failed) in
  match over with
  | None => Panic "owned anchor"
  | Some true => Ret tt
  | Some false =>
      let! open := ask NvSigchld in
      if open : bool
      then match polls with O => await (fun _ => None) | S polls => anchor_loop polls h c end
      else modify (anchor_stream_closed h c)
  end.

Definition anchor_task (polls : nat) (scope : ProcessScopeId) (pgid : Z) (h c : nat) : NProg unit :=
  Wait (Ready (fun w => Some (w, tt))) (anchor_dropped scope pgid h c) (fun _ =>
    cancel_with (anchor_dropped scope pgid h c) (anchor_loop polls h c)).

(** ** [spawn] *)

(** A slot goes: the sender of its retry channel is dropped. *)
Definition drop_slot (key : ChildKey) (w : NativeWorld) : NativeWorld :=
  match st_children (nw_state w) !! key with
  | Some slot => set_retries (alter (fun r => mkRetryChannel (rt_queued r) false (rt_receiver r)) (cs_retry slot) (nw_retries w)) w
  | None => w
  end.

(** The registration of a child with its channels. *)
Definition register_slot (scope : ProcessScopeId) (os : OsIdentity) (output : option ProcessOutput) (pidfd : option KeptLaunch)
    (i : KeptLaunch) (w : NativeWorld) : NativeWorld * (nat * nat) :=
  let w := drop_slot (child_key os) w in
  let c := nw_next w in
  let rt := S c in
  let flag := S rt in
  let slot := mkChildSlot scope output flag rt c pidfd in
  let w := set_exits (<[c := mkExitChannel None 0 i]> (nw_exits w)) (nbump (nbump (nbump w))) in
  let w := set_retries (<[rt := mkRetryChannel false true true]> (nw_retries w)) w in
  let w := set_sampling (<[flag := false]> (nw_sampling w)) w in
  (on_state (fun st => set_children (<[child_key os := slot]> (st_children st)) st) w, (c, rt)).

Definition register_group (scope : ProcessScopeId) (pgid : Z) (new_group : bool) (st : BackendState) : BackendState :=
  set_groups
    (if new_group then <[scope := mkScopeGroup pgid 1 false]> (st_groups st)
     else match st_groups st !! scope with
          | Some g => <[scope := set_live (u64_saturating_add (gr_live g) 1) g]> (st_groups st)
          | None => <[scope := mkScopeGroup pgid 1 false]> (st_groups st)
          end) st.

(** [register_child]. A group that is gone here was cleaned up in the middle of the spawn. *)
Definition register_child (scope : ProcessScopeId) (os : OsIdentity) (new_group : bool) (output : option ProcessOutput)
    (pidfd : option KeptLaunch) (i : KeptLaunch) (w : NativeWorld) : NativeWorld * (nat * nat) :=
  let '(w, channels) := register_slot scope os output pidfd i w in
  let w := match st_groups (nw_state w) !! scope with
           | None => if has_cgroups w then w else mark_overlapped scope w
           | Some _ => w
           end in
  let pgid := if os_pid os <=? 2 ^ 31 - 1 then os_pid os else 0 in
  (on_state (register_group scope pgid new_group) w, channels).

Inductive spawn_attempt : Type :=
| SpawnClosed
| SpawnAgain
| SpawnedChild (h : nat) (i : KeptLaunch) (new_group : bool)
| SpawnRefused (text : string).

(** [spawn_in_group]: a failure of the system, or the identity of the child. *)
Definition spawn_in_group (failed : option string) (i : KeptLaunch) (target : Z) (w : NativeWorld) : NativeWorld * result nat string :=
  match failed with Some text => (w, Err text) | None => spawn_native i target w end.

(** The critical section of the loop of [spawn]. *)
Definition spawn_section (scope : ProcessScopeId) (failed1 : option string) (i1 : KeptLaunch) (failed2 : option string) (i2 : KeptLaunch)
    (w : NativeWorld) : NativeWorld * spawn_attempt :=
  let st := nw_state w in
  if match st_groups st !! scope with Some g => gr_wait_failed g | None => false end then (w, SpawnClosed)
  else if match st_anchors st !! scope with
          | Some a => an_kill_issued a || match anchor_exit a w with Some _ => true | None => false end
          | None => false
          end then (w, SpawnAgain)
  else
    let anchored := match st_anchors st !! scope with Some _ => true | None => false end in
    let existing := match st_groups st !! scope with
                    | Some g => if (0 <? gr_live g) || anchored then Some (gr_pgid g) else None
                    | None => None
                    end in
    let w := match existing with
             | Some g => log_use scope g w
             | None => if has_cgroups w then w else mark_overlapped scope w
             end in
    match spawn_in_group failed1 i1 (default 0 existing) w with
    | (w, Ok h) => (w, SpawnedChild h i1 (match existing with Some _ => false | None => true end))
    | (w, Err text) =>
        match existing with
        | Some _ =>
            if negb anchored then
              match spawn_in_group failed2 i2 0 (on_state (remove_group scope) w) with
              | (w, Ok h) => (w, SpawnedChild h i2 true)
              | (w, Err text) => (w, SpawnRefused text)
              end
            else (w, SpawnRefused text)
        | None => (w, SpawnRefused text)
        end
    end.

(** The loop goes round again when the anchor was reaped since it was ensured. *)
Fixpoint spawn_loop (rounds polls : nat) (scope : ProcessScopeId) (spec : ProcessSpec) : NProg (result (nat * KeptLaunch * bool) SpawnError) :=
  let! ensured := ensure_anchor polls scope in
  match ensured with
  | Err e => Ret (Err e)
  | Ok _ =>
      let! failed1 := call NvFails in
      let! i1 := call (NvForks (root_command spec)) in
      let! failed2 := call NvFails in
      let! i2 := call (NvForks (root_command spec)) in
      let! attempt := act (spawn_section scope failed1 i1 failed2 i2) in
      match attempt with
      | SpawnClosed => Ret (Err (SpawnError_ScopeClosed scope))
      | SpawnRefused text => Ret (Err (SpawnError_Os text))
      | SpawnedChild h i new_group => Ret (Ok (h, i, new_group))
      | SpawnAgain => match rounds with O => await (fun _ => None) | S rounds => spawn_loop rounds polls scope spec end
      end
  end.

Definition owns_child (h : nat) (w : NativeWorld) : bool := match nw_handles w !! h with Some _ => true | None => false end.

(** [child.child.as_mut().expect("owned child")]. *)
Definition expect_child (h : nat) : NProg unit :=
  let! owned := reads (owns_child h) in
  if owned : bool then Ret tt else Panic "owned child".

(** The readers of the captured streams. A pipe that cannot be converted kills the child. *)
Definition start_reader (h : nat) (output : ProcessOutput) (stdout : bool) : NProg (result unit SpawnError) :=
  expect_child h ;;;
  let! fails := call NvFails in
  match fails with
  | Some text =>
      expect_child h ;;;
      let! refused := call NvFails in
      modify (kill_unregistered h refused) ;;;
      Ret (Err (SpawnError_Os text))
  | None => fork (RunReader output stdout) ;;; Ret (Ok tt)
  end.

Definition start_readers (h : nat) (output : option ProcessOutput) : NProg (result unit SpawnError) :=
  match output with
  | None => Ret (Ok tt)
  | Some output =>
      let! started := start_reader h output true in
      match started with Err e => Ret (Err e) | Ok _ => start_reader h output false end
  end.

Definition new_output (mode : OutputMode) (w : NativeWorld) : NativeWorld * option ProcessOutput :=
  match mode with
  | Discard => (w, None)
  | Capture _ _ => (nbump w, Some (mkProcessOutput (nw_next w)))
  end.

Definition spawned_child (polls : nat) (scope : ProcessScopeId) (spec : ProcessSpec) (h : nat) (i : KeptLaunch) (new_group : bool) :
    NProg (result Spawned SpawnError) :=
  let pid := launch_os_pid i in
  let! token := native_read_start_time pid in
  let os := mkOsIdentity pid (match token with Some t => StartTime t | None => TokenUnavailable end) in
  let! pidfd := native_open_pidfd pid in
  let! output := act (new_output (spec_output spec)) in
  let! readers := start_readers h output in
  match readers with
  | Err e => Ret (Err e)
  | Ok _ =>
      let! channels := act (register_child scope os new_group output pidfd i) in
      fork (RunWaiter polls scope h channels.1 channels.2 output) ;;;
      Ret (Ok (mkSpawned os))
  end.

(** *** The cgroup adapter *)

Definition group_path (scope : ProcessScopeId) : PathBuf := "scope-" +:+ scope_id_display scope.

Definition insert_cgroup (scope : ProcessScopeId) (w : NativeWorld) : NativeWorld :=
  match nw_cgroups w with Some groups => set_cgroups (Some (<[scope := group_path scope]> groups)) w | None => w end.
Definition remove_cgroup (scope : ProcessScopeId) (w : NativeWorld) : NativeWorld :=
  match nw_cgroups w with Some groups => set_cgroups (Some (delete scope groups)) w | None => w end.
Definition cgroup_of (scope : ProcessScopeId) (w : NativeWorld) : option PathBuf := groups ← nw_cgroups w; groups !! scope.

(** [Group::create]: the directory, then its kill file; a failed open removes the directory. *)
Definition group_create : NProg (result unit string) :=
  let! fails := call NvFails in
  match fails with
  | Some text => Ret (Err text)
  | None =>
      let! fails := call NvFails in
      match fails with Some text => call NvFails ;;; Ret (Err text) | None => Ret (Ok tt) end
  end.

(** [Cgroups::membership]: the group is made once; its [cgroup.procs] is opened. *)
Definition membership (scope : ProcessScopeId) : NProg (result unit string) :=
  let! grouped := reads has_cgroups in
  if negb grouped then Ret (Ok tt)
  else
    let! known := reads (cgroup_of scope) in
    let! created := (match known with
                     | Some _ => Ret (Ok tt)
                     | None =>
                         let! created := group_create in
                         match created with Err text => Ret (Err text) | Ok _ => modify (insert_cgroup scope) ;;; Ret (Ok tt) end
                     end) in
    match created with
    | Err text => Ret (Err text)
    | Ok _ =>
        let! fails := call NvFails in
        match fails with Some text => Ret (Err text) | None => Ret (Ok tt) end
    end.

(** [Cgroups::kill]: the write of the kill file. *)
Definition cgroup_kill (scope : ProcessScopeId) : NProg (result unit string) :=
  let! known := reads (cgroup_of scope) in
  match known with
  | None => Ret (Ok tt)
  | Some _ => let! fails := call NvFails in Ret (match fails with Some text => Err text | None => Ok tt end)
  end.

Definition spawn_locked (rounds polls : nat) (scope : ProcessScopeId) (spec : ProcessSpec) : NProg (result Spawned SpawnError) :=
  let! member := membership scope in
  match member with
  | Err text => Ret (Err (SpawnError_Os text))
  | Ok _ =>
      let! spawned := spawn_loop rounds polls scope spec in
      match spawned with
      | Err e => Ret (Err e)
      | Ok (h, i, new_group) => spawned_child polls scope spec h i new_group
      end
  end.

Definition backend_spawn (rounds polls : nat) (scope : ProcessScopeId) (spec : ProcessSpec) : NProg (result Spawned SpawnError) :=
  let! m := act (scope_lock scope) in
  await (lock_mutex m) ;;;
  let! r := spawn_locked rounds polls scope spec in
  modify (unlock_mutex m) ;;;
  Ret r.

(** ** The waiter of a child *)

Definition exit_code (s : WaitStatus) : RawExit :=
  match s with
  | WExited code => mkRawExit (Some code) None false
  | WSignaled signal core => mkRawExit None (Some (signal_from_raw signal)) core
  end.

Fixpoint wait_os_child (polls : nat) (h : nat) : NProg (result WaitStatus (string * bool)) :=
  let! failed := call NvWaitFails in
  let! tried := act (try_wait h failed) in
  match tried with
  | None => Panic "owned child"
  | Some (Err e) => Ret (Err e)
  | Some (Ok (Some status)) => Ret (Ok status)
  | Some (Ok None) =>
      let! open := ask NvSigchld in
      if open : bool
      then match polls with O => await (fun _ => None) | S polls => wait_os_child polls h end
      else Ret (Err ("SIGCHLD stream closed", false))
  end.

Definition publish_wait_state (scope : ProcessScopeId) (ok : bool) (st : BackendState) : BackendState :=
  set_groups (alter (fun g => if ok then set_live (u64_saturating_sub (gr_live g) 1) g else set_wait_failed g) scope (st_groups st)) st.
Definition send_exit (c : nat) (raw : result RawExit string) (w : NativeWorld) : NativeWorld :=
  set_exits (alter (fun e => mkExitChannel (Some raw) (S (ec_version e)) (ec_instance e)) c (nw_exits w)) w.
Definition publish_wait_result (scope : ProcessScopeId) (c : nat) (raw : result RawExit string) : NProg unit :=
  modify (on_state (publish_wait_state scope (result_is_ok raw))) ;;;
  modify (send_exit c raw).

(** [retry_rx.recv()]: true for a retry, false when its sender is gone. *)
Definition recv_retry (rt : nat) (w : NativeWorld) : option (NativeWorld * bool) :=
  match nw_retries w !! rt with
  | Some (mkRetryChannel true sender receiver) => Some (set_retries (<[rt := mkRetryChannel false sender receiver]> (nw_retries w)) w, true)
  | Some (mkRetryChannel false true _) => None
  | _ => Some (w, false)
  end.

(** A try, its publication, and the wait for a retry; the result says whether the loop goes on. *)
Definition waiter_round (polls : nat) (scope : ProcessScopeId) (h c rt : nat) : NProg bool :=
  let! status := wait_os_child polls h in
  match status with
  | Ok status => publish_wait_result scope c (Ok (exit_code status)) ;;; Ret false
  | Err (text, echild) =>
      (if echild : bool then modify (disown_child h) else Ret tt) ;;;
      publish_wait_result scope c (Err text) ;;;
      if echild : bool then Ret false else await (recv_retry rt)
  end.

Fixpoint waiter_loop (rounds polls : nat) (scope : ProcessScopeId) (h c rt : nat) : NProg unit :=
  let! again := waiter_round polls scope h c rt in
  if again : bool
  then match rounds with O => await (fun _ => None) | S rounds => waiter_loop rounds polls scope h c rt end
  else Ret tt.

Definition close_retries (rt : nat) (w : NativeWorld) : NativeWorld :=
  set_retries (alter (fun r => mkRetryChannel (rt_queued r) (rt_sender r) false) rt (nw_retries w)) w.

(** The task holds the child, dropped when it ends or is dropped itself, and the receiver. *)
Definition waiter_task (polls : nat) (scope : ProcessScopeId) (h c rt : nat) (output : option ProcessOutput) : NProg unit :=
  guarded (fun w => close_retries rt (orphan_child h w))
    (Wait (Ready (fun w => Some (w, tt))) id (fun _ =>
      waiter_loop polls polls scope h c rt ;;;
      match output with Some output => ask (NvReadersFinished output) | None => Ret tt end)).

(** ** Signals *)

(** The first look of [signal]: is the child registered, and has it a pidfd? *)
Definition has_child (key : ChildKey) (w : NativeWorld) : bool :=
  match st_children (nw_state w) !! key with Some _ => true | None => false end.

Definition signal_text (e : Errno) : TerminateError :=
  match e with ESRCH => TerminateError_Signal "No such process (os error 3)" | OtherErrno text => TerminateError_Signal text end.
(** [ESRCH] is no error. *)
Definition signal_sent (r : result unit Errno) : result unit TerminateError :=
  match r with Ok _ | Err ESRCH => Ok tt | Err e => Err (signal_text e) end.

(** Under the mutex of the state: [None] when the child has no pidfd. *)
Definition signal_by_pidfd (target : OsIdentity) (signal : Signal) (refused : option string) (w : NativeWorld) :
    NativeWorld * option (result unit TerminateError) :=
  match slot ← st_children (nw_state w) !! child_key target; cs_pidfd slot with
  | None => (w, None)
  | Some i =>
      match to_nix nix_try_from signal with
      | Err e => (w, Some (Err e))
      | Ok n =>
          let '(k, r) := kill_pidfd i n refused (nw_kernel w) in
          let w := set_nkernel k w in
          (match r with Ok _ => log_signal target i w | Err _ => w end, Some (signal_sent r))
      end
  end.

Definition backend_signal (target : Spawned) (signal : Signal) : NProg (result unit TerminateError) :=
  let os := spawned_os target in
  let! known := reads (has_child (child_key os)) in
  if negb known then Ret (Ok tt)
  else
    let! refused := call NvFails in
    let! sent := act (signal_by_pidfd os signal refused) in
    match sent with
    | Some r => Ret r
    | None =>
        match reuse_token os with
        | TokenUnavailable => Ret (Err (TerminateError_Signal "no safe process identity available"))
        | StartTime _ =>
            let! matches := identity_still_matches os in
            if negb matches then Ret (Ok tt)
            else
              match to_nix nix_try_from signal with
              | Err e => Ret (Err e)
              | Ok n =>
                  let! refused := call NvFails in
                  act (fun w =>
                    let '(k, r) := kill_process (if os_pid os <=? 2 ^ 31 - 1 then os_pid os else 0) n refused (nw_kernel w) in
                    (set_nkernel k w, signal_sent r))
              end
        end
    end.

(** [signal_group]. *)
Definition signal_group (scope : ProcessScopeId) (signal : Z) (refused : option string) (w : NativeWorld) :
    NativeWorld * result unit TerminateError :=
  let st := nw_state w in
  match st_groups st !! scope with
  | None => (w, Ok tt)
  | Some g =>
      let anchor := st_anchors st !! scope in
      if gr_wait_failed g && match anchor with Some _ => false | None => true end
      then (w, Err (TerminateError_Signal "scope group identity unverified after wait failure"))
      else if match anchor with Some a => an_kill_issued a | None => false end then (w, Ok tt)
      else if match a ← anchor; anchor_exit a w with Some _ => true | None => false end then
        if bool_decide (in_group (gr_pgid g) (nw_kernel w) = []) then (w, Ok tt)
        else (w, Err (TerminateError_Signal "scope anchor was reaped; refusing to signal an unpinned group"))
      else
        let '(k, r) := killpg (gr_pgid g) signal refused (nw_kernel w) in
        let w := log_use scope (gr_pgid g) (set_nkernel k w) in
        match signal_sent r with
        | Err e => (w, Err e)
        | Ok _ =>
            (if signal =? SIGKILL
             then on_state (fun st => set_anchors (alter issue_kill scope (st_anchors st)) st) w
             else w, Ok tt)
        end
  end.

(** [retry.try_send(())] of the slots of a scope. *)
Definition queue_retry (rt : nat) (w : NativeWorld) : NativeWorld :=
  set_retries (alter (fun r => if rt_receiver r then mkRetryChannel true (rt_sender r) true else r) rt (nw_retries w)) w.
Definition in_scope (scope : option ProcessScopeId) (e : ChildKey * ChildSlot) : bool :=
  match scope with None => true | Some scope => bool_decide (cs_scope e.2 = scope) end.
Definition scope_children (scope : option ProcessScopeId) (w : NativeWorld) : list (ChildKey * ChildSlot) :=
  filter (fun e => in_scope scope e = true) (map_to_list (st_children (nw_state w))).
Definition queue_retries (scope : ProcessScopeId) (w : NativeWorld) : NativeWorld :=
  foldl (fun w e => queue_retry (cs_retry e.2) w) w (scope_children (Some scope) w).

Definition backend_signal_scope (scope : ProcessScopeId) (signal : Signal) : NProg (result unit TerminateError) :=
  let! grouped := reads has_cgroups in
  if grouped && bool_decide (signal = Kill) then
    let! killed := cgroup_kill scope in
    modify (queue_retries scope) ;;;
    Ret (match killed with Ok _ => Ok tt | Err text => Err (TerminateError_Signal text) end)
  else
    match to_nix nix_try_from signal with
    | Err e => Ret (Err e)
    | Ok n =>
        let! refused := call NvFails in
        act (fun w =>
          let '(w, r) := signal_group scope n refused w in
          (if bool_decide (signal = Kill) then queue_retries scope w else w, r))
    end.

(** [kill_registered_roots]: by pidfd, or by a number whose start time still matches. *)
Definition kill_root (readable : Z -> bool) (w : NativeWorld) (e : ChildKey * ChildSlot) : NativeWorld :=
  let '((pid, token), slot) := e in
  let w :=
    match cs_pidfd slot with
    | Some i => set_nkernel (kill_pidfd i SIGKILL None (nw_kernel w)).1 w
    | None =>
        if negb (token =? 0) && readable pid && bool_decide (start_time pid (nw_kernel w) = Some token)
        then set_nkernel (kill_process pid SIGKILL None (nw_kernel w)).1 w
        else w
    end in
  queue_retry (cs_retry slot) w.
Definition kill_registered_roots (scope : option ProcessScopeId) (readable : Z -> bool) (w : NativeWorld) : NativeWorld :=
  foldl (kill_root readable) w (scope_children scope w).

Definition backend_hard_kill_scope (scope : ProcessScopeId) : NProg unit :=
  let! grouped := reads has_cgroups in
  if grouped : bool then
    cgroup_kill scope ;;;
    let! readable := call NvReadables in
    modify (kill_registered_roots (Some scope) readable)
  else
    let! refusals := call NvRefusals in
    let! readable := call NvReadables in
    modify (fun w => kill_registered_roots (Some scope) readable (signal_group scope SIGKILL (refusals scope) w).1).

(** [Cgroups::kill_all] and the sweep of every group. *)
Fixpoint cgroup_kill_all (scopes : list ProcessScopeId) : NProg unit :=
  match scopes with
  | [] => Ret tt
  | scope :: scopes => cgroup_kill scope ;;; cgroup_kill_all scopes
  end.
Definition cgroup_scopes (w : NativeWorld) : list ProcessScopeId :=
  match nw_cgroups w with Some groups => (map_to_list groups).*1 | None => [] end.

Definition backend_hard_kill_all : NProg unit :=
  let! grouped := reads has_cgroups in
  if grouped : bool then
    let! scopes := reads cgroup_scopes in
    cgroup_kill_all scopes ;;;
    let! readable := call NvReadables in
    modify (kill_registered_roots None readable)
  else
    let! refusals := call NvRefusals in
    let! readable := call NvReadables in
    modify (fun w =>
      kill_registered_roots None readable
        (foldl (fun w scope => (signal_group scope SIGKILL (refusals scope) w).1) w (map_to_list (st_groups (nw_state w))).*1)).

(** ** [wait] *)

Definition exit_of (c : nat) (w : NativeWorld) : option (result RawExit string) := e ← nw_exits w !! c; ec_value e.
Definition version_of (c : nat) (w : NativeWorld) : nat := match nw_exits w !! c with Some e => ec_version e | None => O end.

(** The subscription; when it sees a failure it asks for a retry. The result: the channel, and the version
    after which a value counts. *)
Definition wait_subscribe (target : OsIdentity) (w : NativeWorld) : NativeWorld * option (nat * nat) :=
  match st_children (nw_state w) !! child_key target with
  | None => (w, None)
  | Some slot => (w, Some (cs_sender slot, cs_retry slot))
  end.

(** [retry.try_send]: false when the waiter is gone. *)
Definition send_retry (rt : nat) (w : NativeWorld) : NativeWorld * bool :=
  (queue_retry rt w, match nw_retries w !! rt with Some r => rt_receiver r | None => false end).

(** A value that was sent after [seen]. *)
Definition exit_after (c : nat) (seen : nat) (w : NativeWorld) : option (NativeWorld * unit) :=
  if (seen <? version_of c w)%nat then Some (w, tt) else None.
Definition exit_seen (c : nat) (w : NativeWorld) : option (NativeWorld * result RawExit string) :=
  e ← exit_of c w; Some (w, e).

Definition forget_child (key : ChildKey) (w : NativeWorld) : NativeWorld :=
  on_state (fun st => set_cpu_samples (delete key (st_cpu_samples st)) (set_children (delete key (st_children st)) st)) (drop_slot key w).

Definition wait_failed (r : option (result RawExit string)) : bool := match r with Some (Err _) => true | _ => false end.

Definition backend_wait (target : Spawned) : NProg (result RawExit WaitError) :=
  let os := spawned_os target in
  let! channels := act (wait_subscribe os) in
  match channels with
  | None => Ret (Err (WaitError_Backend ("no child registered for pid " +:+ decimal (os_pid os))))
  | Some (c, rt) =>
      let! seen := reads (fun w => (exit_of c w, version_of c w)) in
      let! retried := (if wait_failed seen.1 then act (send_retry rt) else Ret false) in
      (if retried : bool then await (exit_after c seen.2) else Ret tt) ;;;
      let! exit := await (exit_seen c) in
      match exit with
      | Ok raw => modify (fun w => log_wait os raw (forget_child (child_key os) w)) ;;; Ret (Ok raw)
      | Err text => Ret (Err (WaitError_Backend text))
      end
  end.

(** ** [cleanup_scope] *)

(** [Cgroups::finish]: at most 500 looks, 10 ms apart. *)
Definition FINISH_LOOKS : nat := 500.
Definition FINISH_RETRY : Duration := from_millis 10.
Definition CLEANUP_TIMEOUT : Duration := from_secs 5.

(** [remove_empty_tree] opens, lists and removes; any of it may fail. *)
Fixpoint cgroup_finish (looks : nat) (scope : ProcessScopeId) : NProg (result unit string) :=
  match looks with
  | O => Ret (Err "cgroup remains populated after kill")
  | S looks =>
      let! known := reads (cgroup_of scope) in
      match known with
      | None => Ret (Ok tt)
      | Some path =>
          let! events := call (NvText (path +:+ "/cgroup.events")) in
          match read_to_string events with
          | Err text => Ret (Err text)
          | Ok events =>
              if bool_decide ("populated 0" ∈ lines events) then
                let! fails := call NvFails in
                match fails with
                | Some text => Ret (Err text)
                | None => modify (remove_cgroup scope) ;;; Ret (Ok tt)
                end
              else ask (NvSleep FINISH_RETRY) ;;; cgroup_finish looks scope
          end
      end
  end.

Definition subscribe_anchor (scope : ProcessScopeId) (w : NativeWorld) : option nat := an_exit <$> st_anchors (nw_state w) !! scope.
Definition anchor_ready (c : nat) (w : NativeWorld) : option (NativeWorld * result unit string) :=
  a ← nw_anchor_exits w !! c; r ← ac_value a; Some (w, r).

Definition forget_scope (scope : ProcessScopeId) : NativeWorld -> NativeWorld :=
  on_state (fun st =>
    mkBackendState (st_children st) (st_cpu_samples st) (delete scope (st_groups st)) (delete scope (st_anchors st)) (delete scope (st_locks st))).

(** The wait for the anchor, for five seconds at most. *)
Definition await_anchor (c : nat) : NProg (result unit TerminateError) :=
  let! first := Wait (Biased (anchor_ready c) (Answer (NvSleep CLEANUP_TIMEOUT))) id Ret in
  Ret (match first with
       | inl (Ok _) => Ok tt
       | inl (Err text) => Err (TerminateError_Signal text)
       | inr _ => Err (TerminateError_Signal "anchor reap timed out")
       end).

Definition backend_cleanup_scope (scope : ProcessScopeId) : NProg (result unit TerminateError) :=
  let! killed := backend_signal_scope scope Kill in
  match killed with
  | Err e => Ret (Err e)
  | Ok _ =>
      let! grouped := reads has_cgroups in
      let! finished := (if grouped : bool then cgroup_finish FINISH_LOOKS scope else Ret (Ok tt)) in
      match finished with
      | Err text => Ret (Err (TerminateError_Signal text))
      | Ok _ =>
          let! anchor := reads (subscribe_anchor scope) in
          let! reaped := (match anchor with Some c => await_anchor c | None => Ret (Ok tt) end) in
          match reaped with
          | Err e => Ret (Err e)
          | Ok _ => modify (forget_scope scope) ;;; Ret (Ok tt)
          end
      end
  end.

(** ** [sample] *)

(** [as f32] of an [f64], and [f64::max] (of numbers). *)
Definition f32_of_f64 (x : f64) : f32 :=
  match x with
  | S754_finite s m e => binary_normalize 24 128 (if s then Zneg m else Zpos m) e s
  | _ => x
  end.
Definition f64_max (x y : f64) : f64 := match SFcompare x y with Some Lt => y | _ => x end.
Definition nano : f64 := f64_div (f64_of_Z 1) (f64_of_Z nanos_per_sec).

(** The share of a CPU since the previous sample. *)
Definition cpu_share (previous : option (Instant * Z)) (now : Instant) (ticks hz : Z) : f32 :=
  match previous with
  | None => S754_zero false
  | Some (time, old) =>
      f32_of_f64 (f64_div (f64_div (f64_of_Z (u64_saturating_sub ticks old)) (f64_of_Z hz))
        (f64_max (as_secs_f64 (duration_saturating_sub now time)) nano))
  end.

Definition with_cpu (cpu : f32) (s : RawStats) : RawStats :=
  mkRawStats cpu (rs_memory_rss_bytes s) (rs_virtual_memory_bytes s) (rs_peak_rss_bytes s) (rs_io_read_bytes s)
    (rs_io_write_bytes s) (rs_descendant_count s) (rs_state s).

(** The critical section: the sample replaces the previous one; [None]: the child was reaped. *)
Definition store_sample (key : ChildKey) (now : Instant) (ticks : Z) (w : NativeWorld) :
    NativeWorld * option (option (Instant * Z)) :=
  if has_child key w then
    (on_state (fun st => set_cpu_samples (<[key := (now, ticks)]> (st_cpu_samples st)) st) w, Some (st_cpu_samples (nw_state w) !! key))
  else (w, None).

Definition stats_failed {A} (text : string) : result A StatsError := Err (StatsError_Backend text).

Definition clock_rate (hz : result (option Z) string) : result Z StatsError :=
  match hz with
  | Err text => stats_failed text
  | Ok None => stats_failed "clock frequency unavailable"
  | Ok (Some hz) => if hz <=? 0 then stats_failed "invalid clock tick rate" else Ok hz
  end.

Definition proc_file (os : OsIdentity) (name : string) : string := "/proc/" +:+ decimal (os_pid os) +:+ "/" +:+ name.

(** The panic of [*] with overflow checks. *)
Definition multiply_overflow : string := "attempt to multiply with overflow".

(** [sample_sync]. *)
Definition sample_sync (target : Spawned) : NProg (result RawStats StatsError) :=
  let os := spawned_os target in
  match reuse_token os with
  | TokenUnavailable => Ret (stats_failed "no safe sample identity available")
  | StartTime _ =>
      let! matches := identity_still_matches os in
      if negb matches then Ret (stats_failed "process identity no longer matches")
      else
        let! status := call (NvText (proc_file os "status")) in
        let! io := call (NvText (proc_file os "io")) in
        match sample_process status io with
        | None => Panic multiply_overflow
        | Some (Err e) => Ret (Err e)
        | Some (Ok raw) =>
            let! stat := call (NvText (proc_file os "stat")) in
            match (match read_to_string stat with Err text => stats_failed text | Ok stat => stat_ticks stat end) with
            | Err e => Ret (Err e)
            | Ok ticks =>
                let! now := call NvNow in
                let! hz := call NvClockTick in
                let! previous := act (store_sample (child_key os) now ticks) in
                match previous, clock_rate hz with
                | None, _ => Ret (stats_failed "child reaped during sample")
                | Some _, Err e => Ret (Err e)
                | Some previous, Ok hz =>
                    let! matches := identity_still_matches os in
                    Ret (if matches : bool then Ok (with_cpu (cpu_share previous now ticks hz) raw)
                         else stats_failed "child changed during sample")
                end
            end
        end
  end.

(** *** [SamplingPool] *)

Definition SAMPLING_PERMITS : nat := 16.

(** The flag of a child that is being sampled: [compare_exchange], and the drop of [ActiveSample]. *)
Definition try_active (flag : nat) (w : NativeWorld) : NativeWorld * bool :=
  match nw_sampling w !! flag with
  | Some false => (set_sampling (<[flag := true]> (nw_sampling w)) w, true)
  | _ => (w, false)
  end.
Definition release_active (flag : nat) (w : NativeWorld) : NativeWorld := set_sampling (<[flag := false]> (nw_sampling w)) w.

Definition acquire_permit (w : NativeWorld) : option (NativeWorld * unit) :=
  match nw_permits w with O => None | S n => Some (set_permits n w, tt) end.
Definition release_permit (w : NativeWorld) : NativeWorld := set_permits (S (nw_permits w)) w.
Definition release_sample (flag : nat) (w : NativeWorld) : NativeWorld := release_permit (release_active flag w).

Definition new_sample_cell (w : NativeWorld) : NativeWorld * nat :=
  (nbump (set_ncells (<[nw_next w := SampleOpen]> (nw_cells w)) w), nw_next w).
Definition fill_sample (j : nat) (c : SampleCell) (w : NativeWorld) : NativeWorld :=
  match nw_cells w !! j with Some SampleOpen => set_ncells (<[j := c]> (nw_cells w)) w | _ => w end.
Definition take_sample (j : nat) (w : NativeWorld) : option (NativeWorld * option (result RawStats StatsError)) :=
  match nw_cells w !! j with
  | Some (SampleDone r) => Some (set_ncells (delete j (nw_cells w)) w, Some r)
  | Some SampleFailed => Some (set_ncells (delete j (nw_cells w)) w, None)
  | _ => None
  end.
Definition drop_sample (j : nat) (w : NativeWorld) : NativeWorld := set_ncells (<[j := SampleClosed]> (nw_cells w)) w.

(** The blocking task owns the flag and the permit, and gives them back before its result is seen; a
    panic of it unwinds to the pool of blocking threads, which makes it a [JoinError]. *)
Definition sample_task (j flag : nat) (target : Spawned) : NProg unit :=
  Wait (Ready (fun w => Some (w, tt))) (fun w => fill_sample j SampleFailed (release_sample flag w)) (fun _ =>
    let! r := catch (sample_sync target) in
    modify (release_sample flag) ;;;
    modify (fill_sample j (match r with Ok r => SampleDone r | Err _ => SampleFailed end))).

(** [SamplingPool::run]. *)
Definition pool_run (flag : nat) (target : Spawned) : NProg (result RawStats StatsError) :=
  let! active := act (try_active flag) in
  if negb active then Ret (stats_failed "previous native sample still running")
  else
    Wait (Ready acquire_permit) (release_active flag) (fun _ =>
      let! j := act new_sample_cell in
      fork (RunSample j flag target) ;;;
      Wait (Ready (take_sample j)) (drop_sample j) (fun r =>
        match r with
        | Some r => Ret r
        | None => let! text := call NvBlockingRefused in Ret (stats_failed ("native sample failed: " +:+ text))
        end)).

Definition sampling_flag (key : ChildKey) (w : NativeWorld) : option nat := cs_sampling <$> st_children (nw_state w) !! key.

Definition backend_sample (target : Spawned) : NProg (result RawStats StatsError) :=
  let! flag := reads (sampling_flag (child_key (spawned_os target))) in
  match flag with
  | None => Ret (stats_failed "process reaped")
  | Some flag => pool_run flag target
  end.

(** ** Other observations *)

Definition backend_output (target : Spawned) (w : NativeWorld) : option ProcessOutput :=
  slot ← st_children (nw_state w) !! child_key (spawned_os target); cs_output slot.

Definition backend_capabilities (w : NativeWorld) : Capabilities :=
  mkCapabilities (containment w) Supported Supported Supported Supported true.

(** [accounting_directory] and [accounting], in a blocking task of [usage::blocking]. *)
Definition backend_scope_usage (scope : ProcessScopeId) : NProg (result ScopeUsage ObservationError) :=
  let! grouped := reads has_cgroups in
  if negb grouped then Ret (Err ObservationUnsupported)
  else
    let! known := reads (cgroup_of scope) in
    match known with
    | None => Ret (Err (ObservationBackend "scope cgroup unavailable"))
    | Some path =>
        let! a := call (NvAccounting path) in
        Ret (match a with Ok a => Ok (Accounting a) | Err text => Err (ObservationBackend text) end)
    end.

(** ** The tasks, and what happens outside *)

Definition native_body (t : NativeTask) : NProg unit :=
  match t with
  | RunAnchor polls scope pgid h c => anchor_task polls scope pgid h c
  | RunWaiter polls scope h c rt output => waiter_task polls scope h c rt output
  | RunReader output stdout => ask (NvDrained output stdout)
  | RunSample j flag target => sample_task j flag target
  end.

(** Nobody else waits for the children of this process, or takes them away. *)
Definition others (e : OsEvent) (k : Kernel) : bool :=
  match e with OsReap p | OsAdopt p => negb (child_of_here p k) | _ => true end.

Inductive NativeOutside : Type :=
| NativeOutsideEvent (e : OsEvent)
| NativeOrphanReaped (h : nat).

Definition native_outside (e : NativeOutside) (w : NativeWorld) : NativeWorld :=
  match e with
  | NativeOutsideEvent e => if others e (nw_kernel w) then set_nkernel (os_event e (nw_kernel w)) w else w
  | NativeOrphanReaped h => reap_orphan h w
  end.
End Backend.

(** [UnixProcessBackend::new], or one with a cgroup adapter. *)
Definition native_new (k : Kernel) (cgroups : option (gmap ProcessScopeId PathBuf)) : NativeWorld :=
  mkNativeWorld k ∅ ∅ (mkBackendState ∅ ∅ ∅ ∅ ∅) ∅ ∅ ∅ ∅ ∅ SAMPLING_PERMITS ∅ 0 cgroups (mkNativeHistory ∅ ∅ [] [] []).
