(* ===== verification/NativeInv.v ===== *)
(** * NativeInv: what always holds of the Unix backend

    The invariant of [Native], and the updates that keep it. [m] says of each handle of a
    child which instance it owns, if it still owns one, and of which anchor's channel it
    is; the programs own their entries of it. *)

From stdpp Require Import base list gmap strings.
From S2P Require Import Prelude StdModel Values KeptDomain Ports Conc KeptState KeptStore Display Unix KeptUnix Procfs Native.

Open Scope Z_scope.

(** ** Children that this process has to wait for *)

Definition ours (i : KeptLaunch) (k : Kernel) : Prop :=
  exists pr, k_table k !! launch_os_pid i = Some pr /\ up_token pr = launch_start_token i /\ up_parent pr = Here.

Lemma ours_present i k : ours i k -> present i k = true.
Proof. intros (pr & E & Et & _). apply present_spec. eauto. Qed.

Lemma ours_identity i k : ours i k -> identity_at (launch_os_pid i) k = Some i.
Proof. intros (pr & E & Et & _). unfold identity_at, identity. rewrite E. cbn. rewrite Et. by destruct i. Qed.

Lemma ours_start_time i k : ours i k -> start_time (launch_os_pid i) k = Some (launch_start_token i).
Proof. intros (pr & E & Et & _). unfold start_time. rewrite E. cbn. by rewrite Et. Qed.

Lemma ours_used i k : kernel_wf k -> ours i k -> i ∈ k_used k.
Proof. intros Hk (pr & E & Et & _). destruct (Hk _ _ E) as [Hu _]. unfold identity in Hu. rewrite Et in Hu. by destruct i. Qed.

(** Two of them with one number are one. *)
Lemma ours_number i j k : ours i k -> ours j k -> launch_os_pid i = launch_os_pid j -> i = j.
Proof.
  intros (pr & E & Et & _) (pr' & E' & Et' & _) Hn. rewrite Hn in E. destruct i, j; cbn in *. congruence.
Qed.

(** A later kernel that takes none of them away. *)
Definition kernel_moves (k k' : Kernel) : Prop :=
  kernel_wf k' /\ kernel_later k k' /\ forall i, ours i k -> ours i k'.

Lemma kernel_moves_refl k : kernel_wf k -> kernel_moves k k.
Proof. intros Hk. split_and!; [done|reflexivity|done]. Qed.

Lemma moves_alter k f p :
  kernel_wf k -> (forall pr, up_token (f pr) = up_token pr) -> (forall pr, up_exit pr <> None -> up_exit (f pr) <> None) ->
  (forall pr, k_table k !! p = Some pr -> up_parent (f pr) = up_parent pr \/ up_parent pr = Elsewhere) ->
  kernel_moves k (set_table (alter f p (k_table k)) k).
Proof.
  intros Hk Ht Hx Hp. destruct (alter_later k f p Hk Ht Hx) as [Hw Hl]. split_and!; [done|done|].
  intros i (pr & E & Et & Eh). unfold ours. cbn. destruct (decide (launch_os_pid i = p)) as [Ep|Hne].
  - rewrite Ep in E |- *. exists (f pr). rewrite lookup_alter_eq, E. split_and!; [done|by rewrite Ht|]. destruct (Hp pr E); congruence.
  - exists pr. by rewrite lookup_alter_ne.
Qed.

Lemma moves_delete k p :
  kernel_wf k -> (forall pr, k_table k !! p = Some pr -> up_parent pr = Elsewhere) ->
  kernel_moves k (set_table (delete p (k_table k)) k).
Proof.
  intros Hk Hp. destruct (delete_later k p Hk) as [Hw Hl]. split_and!; [done|done|].
  intros i (pr & E & Et & Eh). exists pr. cbn. split; [|done]. apply lookup_delete_Some. split; [|done].
  intros Ep. rewrite <- Ep in E. rewrite (Hp _ E) in Eh. done.
Qed.

Lemma fork_free i par g k k' : os_fork i par g k = Some k' ->
  k_table k !! launch_os_pid i = None /\ i ∉ k_used k /\
  k' = mkKernel (<[launch_os_pid i := mkUnixProcess (launch_start_token i) par g None]> (k_table k)) ({[i]} ∪ k_used k) (k_boot k) (k_sent k).
Proof.
  unfold os_fork. destruct (number_free _ _ && _ && _) eqn:G; [|done]. intros [= <-].
  rewrite !andb_true_iff, negb_true_iff, bool_decide_eq_false in G. destruct G as [[Hf Hu] _].
  unfold number_free in Hf. rewrite !andb_true_iff, !bool_decide_eq_true in Hf. destruct Hf as [[_ Hn] _]. done.
Qed.

Lemma moves_fork i par g k k' : kernel_wf k -> os_fork i par g k = Some k' -> kernel_moves k k'.
Proof.
  intros Hk Hf. destruct (fork_later _ _ _ _ _ Hk Hf) as [Hw Hl]. split_and!; [done|done|].
  destruct (fork_free _ _ _ _ _ Hf) as (Hn & _ & ->). intros j (pr & E & H). exists pr. cbn. split; [|done].
  rewrite lookup_insert_ne; [done|]. intros Ep. rewrite Ep in Hn. congruence.
Qed.

Lemma moves_event e k : kernel_wf k -> others e k = true -> kernel_moves k (os_event e k).
Proof.
  intros Hk Ho. destruct e as [i par g|i status|p|i|i g|p]; cbn in *.
  - destruct (os_fork i par g k) eqn:E; cbn; [by eapply moves_fork|by apply kernel_moves_refl].
  - unfold os_exit. destruct (alive i k); [|by apply kernel_moves_refl]. apply moves_alter; [done..|by left].
  - destruct (zombie p k); [|by apply kernel_moves_refl]. apply moves_delete; [done|]. intros pr E.
    unfold child_of_here in Ho. rewrite E in Ho. apply negb_true_iff, bool_decide_eq_false in Ho. by destruct (up_parent pr).
  - unfold os_found. destruct (alive i k); [|by apply kernel_moves_refl]. apply moves_alter; [done..|by left].
  - destruct (_ && _); [|by apply kernel_moves_refl]. apply moves_alter; [done..|by left].
  - apply moves_alter; [done..|]. intros pr E. right. unfold child_of_here in Ho. rewrite E in Ho.
    apply negb_true_iff, bool_decide_eq_false in Ho. by destruct (up_parent pr).
Qed.

Lemma moves_sent k k' : kernel_wf k -> k_table k' = k_table k -> k_used k' = k_used k -> k_boot k' = k_boot k -> kernel_moves k k'.
Proof.
  intros Hk Et Eu Eb. destruct (same_later k k' Hk Et Eu Eb). split_and!; [done|done|].
  intros i (pr & E & ?). exists pr. by rewrite Et.
Qed.

Lemma moves_killpg g n r k : kernel_wf k -> kernel_moves k (killpg g n r k).1.
Proof. intros Hk. unfold killpg. destruct (in_group g k), r; try by apply kernel_moves_refl. by apply moves_sent. Qed.
Lemma moves_kill p n r k : kernel_wf k -> kernel_moves k (kill_process p n r k).1.
Proof. intros Hk. unfold kill_process. destruct (k_table k !! p), r; try by apply kernel_moves_refl. by apply moves_sent. Qed.
Lemma moves_kill_pidfd i n r k : kernel_wf k -> kernel_moves k (kill_pidfd i n r k).1.
Proof. intros Hk. unfold kill_pidfd. destruct (present i k), r; try by apply kernel_moves_refl. by apply moves_sent. Qed.

(** A wait takes away the instance it names, and no other. *)
Lemma waitpid_ours i k k' s :
  kernel_wf k -> ours i k -> waitpid (launch_os_pid i) k = Some (k', inl s) ->
  kernel_wf k' /\ kernel_later k k' /\ present i k' = false /\ forall j, ours j k -> j <> i -> ours j k'.
Proof.
  intros Hk Hi Hw. destruct (waitpid_later _ _ _ _ Hk Hw) as [Hwf Hl]. split_and!; [done|done| |].
  - unfold waitpid in Hw. destruct (k_table k !! launch_os_pid i) as [pr|] eqn:E; [|done].
    destruct (up_parent pr), (up_exit pr); try done. injection Hw as <- _. apply not_true_iff_false.
    rewrite present_spec. cbn. intros (pr' & E' & _). by rewrite lookup_delete_eq in E'.
  - intros j Hj Hne. assert (Hn : launch_os_pid j <> launch_os_pid i) by (intros En; apply Hne; by eapply ours_number).
    unfold waitpid in Hw. destruct (k_table k !! launch_os_pid i) as [pr|]; [|done].
    destruct (up_parent pr), (up_exit pr); try done. injection Hw as <- _.
    destruct Hj as (pr' & E' & H). exists pr'. cbn. by rewrite lookup_delete_ne.
Qed.

(** An unreaped child is never refused to its parent: no ECHILD. *)
Lemma waitpid_no_error i k k' : ours i k -> waitpid (launch_os_pid i) k <> Some (k', inr tt).
Proof. intros (pr & E & _ & Ep). unfold waitpid. rewrite E, Ep. by destruct (up_exit pr). Qed.

(** ** The invariant *)

(** What a handle owns, and whose anchor it is. *)
Abbreviation Handles := (gmap nat (option KeptLaunch * option nat)) (only parsing).

(** [i] is the instance that a key or an identity names, as far as it says. *)
Definition names_instance (i : KeptLaunch) (pid token : Z) : Prop :=
  launch_os_pid i = pid /\ (token <> 0 -> launch_start_token i = token).

Definition children_of_backend (w : NativeWorld) (h : nat) (i : KeptLaunch) : Prop :=
  nw_handles w !! h = Some i \/ nw_orphans w !! h = Some i.

Definition slot_ok (w : NativeWorld) (key : ChildKey) (slot : ChildSlot) : Prop :=
  exists e, nw_exits w !! cs_sender slot = Some e /\ names_instance (ec_instance e) key.1 key.2 /\
    forall i, cs_pidfd slot = Some i -> i = ec_instance e.

Record native_ok (mode : bool) (m : Handles) (w : NativeWorld) : Prop := {
  nk_kernel : kernel_wf (nw_kernel w);
  nk_mode : has_cgroups w = mode;
  nk_owned : forall h o kd, m !! h = Some (o, kd) -> nw_handles w !! h = o;
  nk_handle : forall h i, nw_handles w !! h = Some i -> exists kd, m !! h = Some (Some i, kd);
  nk_orphan : forall h i, nw_orphans w !! h = Some i -> exists kd, m !! h = Some (None, kd);
  nk_ours : forall h i, children_of_backend w h i -> ours i (nw_kernel w);
  nk_inj : forall h1 h2 i, children_of_backend w h1 i -> children_of_backend w h2 i -> h1 = h2;
  nk_next : forall h, (nw_next w <= h)%nat -> m !! h = None /\ nw_exits w !! h = None /\ nw_anchor_exits w !! h = None;
  nk_kind : forall h i c, m !! h = Some (Some i, Some c) ->
    exists a, nw_anchor_exits w !! c = Some a /\ ac_handle a = h /\ ac_instance a = i;
  nk_anchor : forall c a, nw_anchor_exits w !! c = Some a ->
    (ac_value a = None -> m !! ac_handle a = Some (Some (ac_instance a), Some c)) /\
    (ac_value a = Some (Ok tt) -> is_Some (nh_reaped (nw_history w) !! ac_instance a));
  nk_anchored : forall s an, st_anchors (nw_state w) !! s = Some an -> mode = false /\
    exists a g, nw_anchor_exits w !! an_exit an = Some a /\ st_groups (nw_state w) !! s = Some g /\
      (gr_pgid g = launch_os_pid (ac_instance a) \/ s ∈ nh_overlapped (nw_history w));
  nk_group : forall s, is_Some (st_groups (nw_state w) !! s) ->
    is_Some (st_anchors (nw_state w) !! s) \/ mode = true \/ s ∈ nh_overlapped (nw_history w);
  nk_slots : forall key slot, st_children (nw_state w) !! key = Some slot -> slot_ok w key slot;
  nk_exits : forall c e raw, nw_exits w !! c = Some e -> ec_value e = Some (Ok raw) ->
    exists s, nh_reaped (nw_history w) !! ec_instance e = Some s /\ raw = exit_code s;
  nk_reaped : forall i, is_Some (nh_reaped (nw_history w) !! i) -> i ∈ k_used (nw_kernel w) /\ present i (nw_kernel w) = false;
  nk_uses : forall s b, (s, b) ∈ nh_uses (nw_history w) -> b = true \/ mode = true \/ s ∈ nh_overlapped (nw_history w);
  nk_signals : forall os i, (os, i) ∈ nh_signals (nw_history w) -> names_instance i (child_key os).1 (child_key os).2;
  nk_waits : forall os raw, (os, raw) ∈ nh_waits (nw_history w) -> exists i s,
    names_instance i (child_key os).1 (child_key os).2 /\ nh_reaped (nw_history w) !! i = Some s /\ raw = exit_code s;
}.

(** What is known once stays so: a channel speaks of one instance, what was reaped was reaped. *)
Record world_later (w w' : NativeWorld) : Prop := {
  wl_exits : forall c e, nw_exits w !! c = Some e -> exists e', nw_exits w' !! c = Some e' /\ ec_instance e' = ec_instance e;
  wl_anchors : forall c a, nw_anchor_exits w !! c = Some a ->
    exists a', nw_anchor_exits w' !! c = Some a' /\ ac_instance a' = ac_instance a;
  wl_reaped : forall i s, nh_reaped (nw_history w) !! i = Some s -> nh_reaped (nw_history w') !! i = Some s;
  wl_overlapped : nh_overlapped (nw_history w) ⊆ nh_overlapped (nw_history w');
}.

#[global] Instance world_later_preorder : PreOrder world_later.
Proof.
  split.
  - intros w. split; eauto.
  - intros w1 w2 w3 [E1 A1 R1 O1] [E2 A2 R2 O2]. split.
    + intros c e H. destruct (E1 c e H) as (e' & H' & Ee). destruct (E2 c e' H') as (e'' & ? & ?). exists e''. split; [done|congruence].
    + intros c a H. destruct (A1 c a H) as (a' & H' & Ea). destruct (A2 c a' H') as (a'' & ? & ?). exists a''. split; [done|congruence].
    + eauto.
    + set_solver.
Qed.

(** The part of a world that the invariant speaks of. *)
Record alike (w w' : NativeWorld) : Prop := {
  al_kernel : nw_kernel w' = nw_kernel w;
  al_mode : has_cgroups w' = has_cgroups w;
  al_handles : nw_handles w' = nw_handles w;
  al_orphans : nw_orphans w' = nw_orphans w;
  al_exits : nw_exits w' = nw_exits w;
  al_anchor_exits : nw_anchor_exits w' = nw_anchor_exits w;
  al_next : (nw_next w <= nw_next w')%nat;
  al_children : st_children (nw_state w') = st_children (nw_state w);
  al_groups : st_groups (nw_state w') = st_groups (nw_state w);
  al_anchors : st_anchors (nw_state w') = st_anchors (nw_state w);
  al_history : nw_history w' = nw_history w;
}.

Lemma alike_self w : alike w w.
Proof. by split. Qed.

(** A step that keeps the invariant, whoever owns which handle. *)
Definition step_ok (mode : bool) (w w' : NativeWorld) : Prop :=
  forall m, native_ok mode m w -> native_ok mode m w' /\ world_later w w'.

Section Steps.
Context {mode : bool}.
Abbreviation ok := (native_ok mode) (only parsing).
Abbreviation stays := (step_ok mode) (only parsing).

Lemma stays_refl w : stays w w.
Proof. intros m Hm. done. Qed.

Lemma stays_trans w1 w2 w3 : stays w1 w2 -> stays w2 w3 -> stays w1 w3.
Proof. intros H1 H2 m Hm. destruct (H1 m Hm) as [H L1]. destruct (H2 m H) as [? L2]. split; [done|by etrans]. Qed.

Lemma stays_alike w w' : alike w w' -> stays w w'.
Proof.
  intros [E1 E2 E3 E4 E5 E6 E7 E8 E9 E10 E11] m []. split.
  - split; unfold children_of_backend, slot_ok in *; rewrite ?E1, ?E2, ?E3, ?E4, ?E5, ?E6, ?E8, ?E9, ?E10, ?E11; try assumption.
    intros h Hh. apply nk_next0. lia.
  - split; rewrite ?E5, ?E6, ?E11; eauto.
Qed.
End Steps.
