(* ===== verification/NativeSteps.v ===== *)
(** * NativeSteps: the critical sections of the Unix backend keep its invariant

    One lemma per operation of [Native]: it keeps [native_ok], and what was known of the world
    stays so. The operations that give out or release a handle say how the owners change. *)

From stdpp Require Import base list gmap strings.
From S2P Require Import Prelude StdModel Values KeptDomain Ports Conc KeptState KeptStore Display Unix KeptUnix Procfs Native NativeInv.

Open Scope Z_scope.

Section Steps.
Context {mode : bool}.
Abbreviation ok := (native_ok mode) (only parsing).
Abbreviation stays := (step_ok mode) (only parsing).

(** ** Parts of the world *)

Lemma stays_kernel w k : (kernel_wf (nw_kernel w) -> kernel_moves (nw_kernel w) k) -> stays w (set_nkernel k w).
Proof.
  intros Hk m Hm. destruct (Hk (nk_kernel _ _ _ Hm)) as (Hwf & Hl & Ho). destruct Hm. split; [|by split; eauto].
  split; try assumption; cbn.
  - intros h i Hh. by apply Ho, (nk_ours h).
  - intros i Hi. destruct (nk_reaped i Hi) as [Hu Hp]. split; [by apply Hl|]. by apply (kl_absent _ _ Hl).
Qed.

Lemma stays_state w f :
  (forall m, ok m w ->
    (forall s an, st_anchors (f (nw_state w)) !! s = Some an -> mode = false /\
      exists a g, nw_anchor_exits w !! an_exit an = Some a /\ st_groups (f (nw_state w)) !! s = Some g /\
        (gr_pgid g = launch_os_pid (ac_instance a) \/ s ∈ nh_overlapped (nw_history w))) /\
    (forall s, is_Some (st_groups (f (nw_state w)) !! s) ->
      is_Some (st_anchors (f (nw_state w)) !! s) \/ mode = true \/ s ∈ nh_overlapped (nw_history w)) /\
    (forall key slot, st_children (f (nw_state w)) !! key = Some slot -> slot_ok w key slot)) ->
  stays w (on_state f w).
Proof.
  intros Hf m Hm. destruct (Hf m Hm) as (H1 & H2 & H3). destruct Hm. split; [|by split; eauto]. split; assumption.
Qed.

(** Only the groups and the anchors change. *)
Lemma stays_scopes w f :
  st_children (f (nw_state w)) = st_children (nw_state w) ->
  (forall m, ok m w ->
    (forall s an, st_anchors (f (nw_state w)) !! s = Some an -> mode = false /\
      exists a g, nw_anchor_exits w !! an_exit an = Some a /\ st_groups (f (nw_state w)) !! s = Some g /\
        (gr_pgid g = launch_os_pid (ac_instance a) \/ s ∈ nh_overlapped (nw_history w))) /\
    (forall s, is_Some (st_groups (f (nw_state w)) !! s) ->
      is_Some (st_anchors (f (nw_state w)) !! s) \/ mode = true \/ s ∈ nh_overlapped (nw_history w))) ->
  stays w (on_state f w).
Proof.
  intros Ec Hf. apply stays_state. intros m Hm. destruct (Hf m Hm) as [H1 H2]. split_and!; [done..|].
  rewrite Ec. apply Hm.
Qed.

(** Only the children change, and there are not more. *)
Lemma stays_children w f :
  st_anchors (f (nw_state w)) = st_anchors (nw_state w) -> st_groups (f (nw_state w)) = st_groups (nw_state w) ->
  st_children (f (nw_state w)) ⊆ st_children (nw_state w) -> stays w (on_state f w).
Proof.
  intros Ea Eg Hc. apply stays_state. intros m Hm. rewrite Ea, Eg. split_and!; [apply Hm..|].
  intros key slot E. apply Hm. by apply (lookup_weaken _ _ _ _ E).
Qed.

Lemma stays_mark_overlapped s w : stays w (mark_overlapped s w).
Proof.
  intros m []. split.
  - split; try assumption; cbn.
    + intros s' an E. destruct (nk_anchored s' an E) as (? & a & g & ? & ? & Hg). split; [done|].
      exists a, g. split_and!; [done..|]. set_solver.
    + intros s' Hs. specialize (nk_group s' Hs). set_solver.
    + intros s' b Hb. specialize (nk_uses s' b Hb). set_solver.
  - split; cbn; eauto. set_solver.
Qed.

Lemma marked_overlapped s w : s ∈ nh_overlapped (nw_history (mark_overlapped s w)).
Proof. cbn. set_solver. Qed.

(** ** Uses of a group's number *)

Lemma pinned_owned h i w m : ok m w -> nw_handles w !! h = Some i -> group_pinned (launch_os_pid i) w = true.
Proof.
  intros Hm E. unfold group_pinned. apply existsb_exists. exists (h, i). split.
  - apply list_elem_of_In, elem_of_map_to_list. exact E.
  - cbn. rewrite Z.eqb_refl. cbn. apply ours_present. apply (nk_ours _ _ _ Hm h). by left.
Qed.

Lemma stays_log_use s g w :
  (forall m, ok m w -> group_pinned g w = true \/ mode = true \/ s ∈ nh_overlapped (nw_history w)) -> stays w (log_use s g w).
Proof.
  intros Hu m Hm. specialize (Hu m Hm). destruct Hm. split; [|by split; eauto].
  split; try assumption; cbn. intros s' b. rewrite elem_of_app, list_elem_of_singleton. intros [Hb|[= -> ->]]; [eauto|done].
Qed.

(** An anchor that was not reaped pins the group of its scope. *)
Lemma anchored_pinned m w s an g :
  ok m w -> st_anchors (nw_state w) !! s = Some an -> anchor_exit an w = None -> st_groups (nw_state w) !! s = Some g ->
  group_pinned (gr_pgid g) w = true \/ s ∈ nh_overlapped (nw_history w).
Proof.
  intros Hm Ha Hx Hg. destruct (nk_anchored _ _ _ Hm s an Ha) as (_ & a & g' & Ec & Hg' & Hp).
  rewrite Hg in Hg'. injection Hg' as <-. destruct Hp as [->|?]; [left|by right].
  unfold anchor_exit in Hx. rewrite Ec in Hx. destruct (nk_anchor _ _ _ Hm _ _ Ec) as [Ho _].
  eapply pinned_owned; [done|]. by apply (nk_owned _ _ _ Hm _ _ _ (Ho Hx)).
Qed.

Lemma group_use_ok m w s g :
  ok m w -> st_groups (nw_state w) !! s = Some g ->
  (forall an, st_anchors (nw_state w) !! s = Some an -> anchor_exit an w = None) ->
  group_pinned (gr_pgid g) w = true \/ mode = true \/ s ∈ nh_overlapped (nw_history w).
Proof.
  intros Hm Hg Ha. destruct (st_anchors (nw_state w) !! s) as [an|] eqn:E.
  - destruct (anchored_pinned m w s an g Hm E (Ha an eq_refl) Hg); auto.
  - destruct (nk_group _ _ _ Hm s) as [[? ?]|?]; [by eexists|congruence|auto].
Qed.

(** ** Anchors and groups of the state *)

Lemma stays_issue_kill s w : stays w (on_state (fun st => set_anchors (alter issue_kill s (st_anchors st)) st) w).
Proof.
  apply stays_scopes; [done|]. intros m Hm. cbn. split.
  - intros s' an. rewrite lookup_alter_Some. intros [(-> & an' & E & ->)|[_ E]]; exact (nk_anchored _ _ _ Hm _ _ E).
  - intros s' Hs. rewrite lookup_alter_is_Some. by apply Hm.
Qed.

Lemma stays_alter_group f s w :
  (forall g, gr_pgid (f g) = gr_pgid g) -> stays w (on_state (fun st => set_groups (alter f s (st_groups st)) st) w).
Proof.
  intros Hf. apply stays_scopes; [done|]. intros m Hm. cbn. split.
  - intros s' an E. destruct (nk_anchored _ _ _ Hm s' an E) as (Hmode & a & g & Ea & Eg & Hp). split; [done|].
    destruct (decide (s' = s)) as [->|Hne].
    + exists a, (f g). rewrite lookup_alter_eq, Eg, Hf. by split_and!.
    + exists a, g. by rewrite lookup_alter_ne.
  - intros s' Hs. rewrite lookup_alter_is_Some in Hs. by apply Hm.
Qed.

Lemma stays_publish_wait_state s b w : stays w (on_state (publish_wait_state s b) w).
Proof. apply stays_alter_group. intros g. by destruct b. Qed.

(** A scope without an anchor loses its group; a scope loses both. *)
Lemma stays_remove_group s w : st_anchors (nw_state w) !! s = None -> stays w (on_state (remove_group s) w).
Proof.
  intros Hs. apply stays_scopes; [done|]. intros m Hm. cbn. split.
  - intros s' an E. destruct (nk_anchored _ _ _ Hm s' an E) as (? & a & g & ? & ? & ?). split; [done|]. exists a, g.
    split_and!; [done| |done]. rewrite lookup_delete_ne; [done|]. congruence.
  - intros s' [g [Hne E]%lookup_delete_Some]. apply Hm. by exists g.
Qed.

Lemma stays_forgotten s w f :
  st_children (f (nw_state w)) = st_children (nw_state w) -> st_anchors (f (nw_state w)) = delete s (st_anchors (nw_state w)) ->
  st_groups (f (nw_state w)) = delete s (st_groups (nw_state w)) -> stays w (on_state f w).
Proof.
  intros Ec Ea Eg. apply stays_scopes; [done|]. intros m Hm. rewrite Ea, Eg. split.
  - intros s' an [Hne E]%lookup_delete_Some. rewrite lookup_delete_ne; [|done]. by apply Hm.
  - intros s' [g [Hne E]%lookup_delete_Some]. rewrite lookup_delete_ne; [|done]. apply Hm. by exists g.
Qed.

Lemma stays_forget_scope s w : stays w (forget_scope s w).
Proof. by apply (stays_forgotten s). Qed.

Lemma stays_forget_anchor s w : stays w (on_state (fun st => remove_group s (remove_anchor s st)) w).
Proof. by apply (stays_forgotten s). Qed.

Lemma stays_insert_anchor s pgid c w :
  mode = false -> (exists a, nw_anchor_exits w !! c = Some a /\ launch_os_pid (ac_instance a) = pgid) ->
  stays w (insert_anchor s pgid c w).
Proof.
  intros Hmode (a & Ec & Ea). apply stays_scopes; [done|]. intros m Hm. cbn. split.
  - intros s' an. rewrite !lookup_insert_Some. intros [[<- <-]|[Hne E]].
    + split; [done|]. exists a, (mkScopeGroup pgid 0 false). rewrite lookup_insert_eq. cbn. auto.
    + rewrite lookup_insert_ne; [|done]. by apply Hm.
  - intros s'. destruct (decide (s = s')) as [->|Hne]; [rewrite !lookup_insert_eq; eauto|].
    rewrite !lookup_insert_ne; [|done..]. apply Hm.
Qed.

(** The group that a registration counts its child in. *)
Lemma stays_register_group s pgid b w :
  (b = true -> mode = true \/ s ∈ nh_overlapped (nw_history w)) ->
  (st_groups (nw_state w) !! s = None -> mode = true \/ s ∈ nh_overlapped (nw_history w)) ->
  stays w (on_state (register_group s pgid b) w).
Proof.
  intros Hb Hnone. apply stays_scopes; [done|]. intros m Hm. unfold register_group. cbn.
  assert (Hother : forall g0, mode = true \/ s ∈ nh_overlapped (nw_history w) ->
    (forall s' an, st_anchors (nw_state w) !! s' = Some an -> mode = false /\
      exists a g, nw_anchor_exits w !! an_exit an = Some a /\ <[s := g0]> (st_groups (nw_state w)) !! s' = Some g /\
        (gr_pgid g = launch_os_pid (ac_instance a) \/ s' ∈ nh_overlapped (nw_history w))) /\
    (forall s', is_Some (<[s := g0]> (st_groups (nw_state w)) !! s') ->
      is_Some (st_anchors (nw_state w) !! s') \/ mode = true \/ s' ∈ nh_overlapped (nw_history w))).
  { intros g0 Hs. split.
    - intros s' an E. destruct (nk_anchored _ _ _ Hm s' an E) as (Hf & a & g & Ea & Eg & Hp). split; [done|].
      destruct (decide (s = s')) as [->|Hne].
      + exists a, g0. rewrite lookup_insert_eq. destruct Hs; [congruence|]. auto.
      + exists a, g. by rewrite lookup_insert_ne.
    - intros s'. destruct (decide (s = s')) as [->|Hne]; [by right|]. rewrite lookup_insert_ne; [|done]. apply Hm. }
  destruct b; [by apply Hother, Hb|]. destruct (st_groups (nw_state w) !! s) as [g|] eqn:E; [|by apply Hother, Hnone].
  split.
  - intros s' an Ean. destruct (nk_anchored _ _ _ Hm s' an Ean) as (Hf & a & g' & Ea & Eg & Hp). split; [done|].
    destruct (decide (s = s')) as [->|Hne].
    + exists a, (set_live (u64_saturating_add (gr_live g) 1) g). rewrite lookup_insert_eq. rewrite E in Eg. injection Eg as <-. auto.
    + exists a, g'. by rewrite lookup_insert_ne.
  - intros s' Hs. apply Hm. destruct (decide (s = s')) as [->|Hne]; [by exists g|]. by rewrite lookup_insert_ne in Hs.
Qed.

(** ** Channels *)

Lemma stays_new_exit i w : stays w (set_exits (<[nw_next w := mkExitChannel None 0 i]> (nw_exits w)) (nbump w)).
Proof.
  intros m Hm. assert (Hf : nw_exits w !! nw_next w = None) by (apply (nk_next _ _ _ Hm); lia). destruct Hm.
  assert (Hlater : forall c e, nw_exits w !! c = Some e -> <[nw_next w := mkExitChannel None 0 i]> (nw_exits w) !! c = Some e).
  { intros c e E. rewrite lookup_insert_ne; [done|]. congruence. }
  split; [|split; cbn; eauto].
  split; try assumption; cbn.
  - intros h Hh. rewrite lookup_insert_ne; [apply nk_next|]; lia.
  - intros key slot E. destruct (nk_slots key slot E) as (e & He & H). exists e. cbn. auto.
  - intros c e raw. rewrite lookup_insert_Some. intros [[<- <-]|[_ E]]; [done|eauto].
Qed.

Lemma stays_send_exit c raw w :
  (forall e x, nw_exits w !! c = Some e -> raw = Ok x ->
    exists s, nh_reaped (nw_history w) !! ec_instance e = Some s /\ x = exit_code s) ->
  stays w (send_exit c raw w).
Proof.
  intros Hc m []. unfold send_exit. set (f := fun e => mkExitChannel (Some raw) (S (ec_version e)) (ec_instance e)).
  assert (Hlater : forall c' e, nw_exits w !! c' = Some e ->
    exists e', alter f c (nw_exits w) !! c' = Some e' /\ ec_instance e' = ec_instance e).
  { intros c' e E. destruct (decide (c' = c)) as [->|Hne].
    - exists (f e). by rewrite lookup_alter_eq, E.
    - exists e. by rewrite lookup_alter_ne. }
  split; [|split; cbn; eauto].
  split; try assumption; cbn.
  - intros h Hh. destruct (nk_next h Hh) as (? & Hx & ?). split_and!; [done| |done].
    destruct (decide (h = c)) as [->|?]; [by rewrite lookup_alter_eq, Hx|by rewrite lookup_alter_ne].
  - intros key slot E. destruct (nk_slots key slot E) as (e & He & Hn & Hp).
    destruct (Hlater _ _ He) as (e' & He' & Ee). exists e'. cbn. rewrite Ee. auto.
  - intros c' e raw'. rewrite lookup_alter_Some. intros [(-> & e0 & E & ->)|[_ E]]; cbn; [|eauto].
    intros [= ->]. by apply (Hc e0 raw').
Qed.

Lemma alike_drop_slot key w : alike w (drop_slot key w).
Proof. unfold drop_slot. destruct (st_children (nw_state w) !! key); by split. Qed.

(** The registration of a child: the channel speaks of its instance. *)
Lemma register_slot_ok s os output pidfd i w m :
  ok m w -> names_instance i (child_key os).1 (child_key os).2 -> (forall j, pidfd = Some j -> j = i) ->
  ok m (register_slot s os output pidfd i w).1 /\ world_later w (register_slot s os output pidfd i w).1 /\
  (exists e, nw_exits (register_slot s os output pidfd i w).1 !! (register_slot s os output pidfd i w).2.1 = Some e /\ ec_instance e = i) /\
  nw_history (register_slot s os output pidfd i w).1 = nw_history w.
Proof.
  intros Hm Hn Hp. unfold register_slot. set (w1 := drop_slot (child_key os) w). set (c := nw_next w1). cbn [fst snd].
  destruct (stays_alike w w1 (alike_drop_slot _ _) m Hm) as [Hm1 L1].
  destruct (stays_new_exit i w1 m Hm1) as [Hm2 L2]. set (w2 := set_exits _ (nbump w1)) in Hm2, L2.
  set (w3 := set_sampling _ _).
  assert (Ha : alike w2 w3) by (split; try done; cbn; lia).
  destruct (stays_alike w2 w3 Ha m Hm2) as [Hm3 L3].
  assert (Ec : nw_exits w3 !! c = Some (mkExitChannel None 0 i)) by (cbn; by rewrite lookup_insert_eq).
  set (slot := mkChildSlot s output (S (S c)) (S c) c pidfd).
  assert (Hs : stays w3 (on_state (fun st => set_children (<[child_key os := slot]> (st_children st)) st) w3)).
  { apply stays_state. intros m' Hm'. split_and!; [apply Hm'..|]. intros key slot'. cbn. rewrite lookup_insert_Some.
    intros [[<- <-]|[_ E]]; [|by apply Hm']. exists (mkExitChannel None 0 i). split_and!; [exact Ec|apply Hn|exact Hp]. }
  destruct (Hs m Hm3) as [Hm4 L4]. split_and!.
  - exact Hm4.
  - etrans; [exact L1|]. etrans; [exact L2|]. by etrans.
  - exists (mkExitChannel None 0 i). split; [exact Ec|done].
  - subst w3 w1. unfold drop_slot. by destruct (st_children (nw_state w) !! child_key os).
Qed.

Lemma stays_log_signal os i w : names_instance i (child_key os).1 (child_key os).2 -> stays w (log_signal os i w).
Proof.
  intros Hi m []. split; [|by split; eauto]. split; try assumption; cbn.
  intros os' i'. rewrite elem_of_app, list_elem_of_singleton. intros [H|[= -> ->]]; [by apply nk_signals|done].
Qed.

Lemma stays_log_wait os raw w :
  (exists i s, names_instance i (child_key os).1 (child_key os).2 /\ nh_reaped (nw_history w) !! i = Some s /\ raw = exit_code s) ->
  stays w (log_wait os raw w).
Proof.
  intros Hi m []. split; [|by split; eauto]. split; try assumption; cbn.
  intros os' raw'. rewrite elem_of_app, list_elem_of_singleton. intros [H|[= -> ->]]; [by apply nk_waits|done].
Qed.

Lemma stays_forget_child key w : stays w (forget_child key w).
Proof.
  unfold forget_child. eapply stays_trans; [apply stays_alike, (alike_drop_slot key)|].
  apply stays_children; [done..|]. cbn. apply delete_subseteq.
Qed.

(** [register_child]: what was known when the group was chosen is known still. *)
Lemma register_child_ok s os new_group output pidfd i w0 w m :
  ok m w -> world_later w0 w -> names_instance i (child_key os).1 (child_key os).2 -> (forall j, pidfd = Some j -> j = i) ->
  (new_group = true -> mode = true \/ s ∈ nh_overlapped (nw_history w0)) ->
  ok m (register_child s os new_group output pidfd i w).1 /\ world_later w (register_child s os new_group output pidfd i w).1 /\
  exists e, nw_exits (register_child s os new_group output pidfd i w).1 !! (register_child s os new_group output pidfd i w).2.1 = Some e /\
    ec_instance e = i.
Proof.
  intros Hm Hl0 Hn Hp Hg. unfold register_child.
  destruct (register_slot_ok s os output pidfd i w m Hm Hn Hp) as (Hm1 & L1 & He & Eh).
  destruct (register_slot s os output pidfd i w) as [w1 channels]. cbn [fst snd] in *.
  set (w2 := match st_groups (nw_state w1) !! s with None => if has_cgroups w1 then w1 else mark_overlapped s w1 | Some _ => w1 end).
  assert (H2 : ok m w2 /\ world_later w1 w2 /\ nw_exits w2 = nw_exits w1 /\ nw_state w2 = nw_state w1 /\
    (st_groups (nw_state w2) !! s = None -> mode = true \/ s ∈ nh_overlapped (nw_history w2))).
  { subst w2. destruct (st_groups (nw_state w1) !! s) eqn:Eg; [split_and!; [done..|congruence]|].
    destruct (has_cgroups w1) eqn:Ec; [split_and!; [done..|]; left; by rewrite <- (nk_mode _ _ _ Hm1)|].
    destruct (stays_mark_overlapped s w1 m Hm1). split_and!; [done..|]. intros _. right. apply marked_overlapped. }
  destruct H2 as (Hm2 & L2 & Ex & _ & Hnone). clearbody w2.
  assert (Hs : stays w2 (on_state (register_group s (if os_pid os <=? 2 ^ 31 - 1 then os_pid os else 0) new_group) w2)).
  { apply stays_register_group; [|done]. intros Eb. destruct (Hg Eb) as [?|Ho]; [by left|right].
    apply (wl_overlapped _ _ L2), (wl_overlapped _ _ L1), (wl_overlapped _ _ Hl0), Ho. }
  destruct (Hs m Hm2) as [Hm3 L3]. split_and!; [done|by do 2 (etrans; [eassumption|])|]. cbn. by rewrite Ex.
Qed.

(** ** Signals *)

Lemma stays_queue_retry rt w : stays w (queue_retry rt w).
Proof. apply stays_alike. by split. Qed.

Lemma stays_foldl {X} (f : NativeWorld -> X -> NativeWorld) l w : (forall w x, stays w (f w x)) -> stays w (foldl f w l).
Proof.
  intros Hf. revert w. induction l as [|x l IH]; intros w; [apply stays_refl|]. eapply stays_trans; [apply Hf|apply IH].
Qed.

Lemma stays_queue_retries s w : stays w (queue_retries s w).
Proof. apply stays_foldl. intros w' e. apply stays_queue_retry. Qed.

Lemma stays_kill_root readable w e : stays w (kill_root readable w e).
Proof.
  destruct e as [[pid token] slot]. unfold kill_root. eapply stays_trans; [|apply stays_queue_retry].
  destruct (cs_pidfd slot); [apply stays_kernel, moves_kill_pidfd|].
  destruct (_ && _); [apply stays_kernel, moves_kill|apply stays_refl].
Qed.

Lemma stays_kill_registered_roots s readable w : stays w (kill_registered_roots s readable w).
Proof. apply stays_foldl. intros w' e. apply stays_kill_root. Qed.

Lemma stays_killpg_use s g n refused w :
  (forall m, ok m w -> group_pinned g w = true \/ mode = true \/ s ∈ nh_overlapped (nw_history w)) ->
  stays w (log_use s g (set_nkernel (killpg g n refused (nw_kernel w)).1 w)).
Proof.
  intros Hu. intros m Hm.
  destruct (stays_kernel w (killpg g n refused (nw_kernel w)).1 (moves_killpg _ _ _ _) m Hm) as [Hm' L].
  assert (Ep : group_pinned g (set_nkernel (killpg g n refused (nw_kernel w)).1 w) = group_pinned g w).
  { unfold group_pinned. cbn. f_equal. unfold killpg. by destruct (in_group g (nw_kernel w)), refused. }
  destruct (stays_log_use s g (set_nkernel (killpg g n refused (nw_kernel w)).1 w)) with (m := m) as [Hm2 L2]; [|done|].
  - intros _ _. rewrite Ep. by apply (Hu m).
  - split; [done|]. by etrans.
Qed.

Lemma stays_signal_group s n refused w : stays w (signal_group s n refused w).1.
Proof.
  unfold signal_group. destruct (st_groups (nw_state w) !! s) as [g|] eqn:Eg; [|apply stays_refl].
  destruct (gr_wait_failed g && _); [apply stays_refl|].
  destruct (match st_anchors (nw_state w) !! s with Some a => an_kill_issued a | None => false end); [apply stays_refl|].
  destruct (match a ← st_anchors (nw_state w) !! s; anchor_exit a w with Some _ => true | None => false end) eqn:Ex.
  { destruct (bool_decide _); apply stays_refl. }
  destruct (killpg (gr_pgid g) n refused (nw_kernel w)) as [k r] eqn:Ek.
  assert (Hu : stays w (log_use s (gr_pgid g) (set_nkernel k w))).
  { replace k with (killpg (gr_pgid g) n refused (nw_kernel w)).1 by by rewrite Ek. apply stays_killpg_use.
    intros m Hm. apply (group_use_ok m w s g Hm Eg). intros an Ea. rewrite Ea in Ex. cbn in Ex. by destruct (anchor_exit an w). }
  destruct (signal_sent r); [|exact Hu]. destruct (n =? SIGKILL); [|exact Hu].
  eapply stays_trans; [exact Hu|]. apply stays_issue_kill.
Qed.

Lemma stays_signal_by_pidfd nix_try_from os signal refused w : stays w (signal_by_pidfd nix_try_from os signal refused w).1.
Proof.
  unfold signal_by_pidfd. destruct (st_children (nw_state w) !! child_key os) as [slot|] eqn:E; [cbn|apply stays_refl].
  destruct (cs_pidfd slot) as [i|] eqn:Ep; [|apply stays_refl]. destruct (to_nix nix_try_from signal) as [n|e]; [|apply stays_refl].
  destruct (kill_pidfd i n refused (nw_kernel w)) as [k r] eqn:Ek. cbn [fst].
  assert (Hk : stays w (set_nkernel k w)).
  { replace k with (kill_pidfd i n refused (nw_kernel w)).1 by by rewrite Ek. apply stays_kernel, moves_kill_pidfd. }
  destruct r; [|exact Hk]. intros m Hm. destruct (Hk m Hm) as [Hm' L].
  destruct (stays_log_signal os i (set_nkernel k w)) with (m := m) as [Hm2 L2]; [|done|split; [done|by etrans]].
  destruct (nk_slots _ _ _ Hm _ _ E) as (e & _ & Hn & Hi). by rewrite (Hi i Ep).
Qed.

(** ** [ensure_anchor] *)

Lemma check_anchor_ok s w m : ok m w ->
  ok m (check_anchor s w).1 /\ world_later w (check_anchor s w).1 /\ (check_anchor s w).2 <> AnchorWithoutGroup.
Proof.
  intros Hm. unfold check_anchor. destruct (st_anchors (nw_state w) !! s) as [an|] eqn:E; [|done].
  destruct (an_kill_issued an); [done|]. destruct (anchor_exit an w) as [[]|] eqn:Ex; [|done|done].
  destruct (st_groups (nw_state w) !! s) as [g|] eqn:Eg.
  - destruct (_ || _); [done|]. destruct (stays_forget_anchor s w m Hm). done.
  - exfalso. destruct (nk_anchored _ _ _ Hm s an E) as (_ & ch & g & _ & Eg' & _). congruence.
Qed.
End Steps.
