(* ===== verification/NativeOwners.v ===== *)
(** * NativeOwners: the children that the Unix backend owns

    The operations of [Native] that give out a handle of a child (a spawn), give it an anchor's
    channel, or release it (reaped, given up, or left to a thread of its own), and how the owners of
    [NativeInv] change. *)

From stdpp Require Import base list gmap strings.
From S2P Require Import Prelude StdModel Values KeptDomain Ports Conc KeptState KeptStore Display Unix KeptUnix Procfs Native NativeInv NativeSteps.

Open Scope Z_scope.

Section Owners.
Context {mode : bool}.
Abbreviation ok := (native_ok mode) (only parsing).
Abbreviation stays := (step_ok mode) (only parsing).

Lemma owned_handle m w h i kd : ok m w -> m !! h = Some (Some i, kd) -> nw_handles w !! h = Some i.
Proof. intros Hm E. exact (nk_owned _ _ _ Hm _ _ _ E). Qed.

Lemma owned_ours m w h i kd : ok m w -> m !! h = Some (Some i, kd) -> ours i (nw_kernel w).
Proof. intros Hm E. apply (nk_ours _ _ _ Hm h). left. by eapply owned_handle. Qed.

(** ** Release *)

Definition released (h : nat) (kd : option nat) (k : Kernel) (reaped : gmap KeptLaunch WaitStatus) (orphans : gmap nat KeptLaunch)
    (r : result unit string) (w : NativeWorld) : NativeWorld :=
  let w := on_history (set_reaped reaped) (set_orphans orphans (set_handles (delete h (nw_handles w)) (set_nkernel k w))) in
  match kd with Some c => publish_anchor c r w | None => w end.

(** Left alone, left to a thread of its own, or reaped. *)
Definition release_of (h : nat) (i : KeptLaunch) (w : NativeWorld) (k : Kernel) (reaped : gmap KeptLaunch WaitStatus)
    (orphans : gmap nat KeptLaunch) : Prop :=
  (k = nw_kernel w /\ reaped = nh_reaped (nw_history w) /\ (orphans = nw_orphans w \/ orphans = <[h := i]> (nw_orphans w))) \/
  exists s, waitpid (launch_os_pid i) (nw_kernel w) = Some (k, inl s) /\
    reaped = <[i := s]> (nh_reaped (nw_history w)) /\ orphans = nw_orphans w.

Section Release.
Context (m : gmap nat (option KeptLaunch * option nat)) (w : NativeWorld) (Hm : ok m w).
Context (h : nat) (i : KeptLaunch) (kd : option nat) (Eh : m !! h = Some (Some i, kd)).
Context (k : Kernel) (reaped : gmap KeptLaunch WaitStatus) (orphans : gmap nat KeptLaunch) (Hr : release_of h i w k reaped orphans).
Context (r : result unit string) (Hok : r = Ok tt -> is_Some (reaped !! i)).
Let w' := released h kd k reaped orphans r w.

Lemma released_children h' j : children_of_backend w' h' j ->
  children_of_backend w h' j /\ (nh_reaped (nw_history w) <> reaped -> j <> i).
Proof.
  pose proof (owned_handle _ _ _ _ _ Hm Eh) as Hh.
  assert (Hold : children_of_backend w' h' j -> children_of_backend w h' j /\ (orphans = nw_orphans w -> h' <> h)).
  { unfold w', children_of_backend, released. destruct kd; cbn; rewrite !lookup_delete_Some.
    all: intros [[Hne E]|E]; [by split; [left|]|].
    all: destruct Hr as [(_ & _ & [->| ->])|(s & _ & _ & ->)].
    1,3,4,6: split; [by right|]; intros _ ->; destruct (nk_orphan _ _ _ Hm h j E); congruence.
    all: apply lookup_insert_Some in E as [[<- <-]|[_ E]]; (split; [by (left + right)|]).
    all: intros Eo; pose proof (lookup_insert_eq (nw_orphans w) h i) as Hx; rewrite Eo in Hx;
      destruct (nk_orphan _ _ _ Hm h i Hx); congruence. }
  intros Hc. destruct (Hold Hc) as [Hw Hne]. split; [done|]. intros Hd ->.
  destruct Hr as [(_ & Er & _)|(s & _ & _ & Eo)]; [congruence|].
  apply (Hne Eo). apply (nk_inj _ _ _ Hm h' h i Hw). by left.
Qed.

Lemma released_reaped j s : nh_reaped (nw_history w) !! j = Some s -> reaped !! j = Some s.
Proof.
  destruct Hr as [(_ & -> & _)|(s' & _ & -> & _)]; [done|]. intros E. rewrite lookup_insert_ne; [done|]. intros ->.
  destruct (nk_reaped _ _ _ Hm j) as [_ Hp]; [by exists s|]. pose proof (ours_present _ _ (owned_ours _ _ _ _ _ Hm Eh)). congruence.
Qed.

Lemma released_history : nh_reaped (nw_history w') = reaped /\ nh_overlapped (nw_history w') = nh_overlapped (nw_history w) /\
  nh_uses (nw_history w') = nh_uses (nw_history w) /\ nh_signals (nw_history w') = nh_signals (nw_history w) /\
  nh_waits (nw_history w') = nh_waits (nw_history w).
Proof. unfold w', released. by destruct kd. Qed.

Lemma released_anchor_exits c a : nw_anchor_exits w !! c = Some a ->
  exists a', nw_anchor_exits w' !! c = Some a' /\ ac_handle a' = ac_handle a /\ ac_instance a' = ac_instance a /\
    (kd <> Some c -> a' = a) /\ (kd = Some c -> ac_value a' = Some r).
Proof.
  intros E. unfold w', released. destruct kd as [c'|]; cbn.
  - destruct (decide (c = c')) as [->|Hne].
    + rewrite lookup_alter_eq, E. eexists. split_and!; done.
    + rewrite lookup_alter_ne; [|done]. exists a. split_and!; try done. congruence.
  - by exists a.
Qed.

Lemma released_anchor_exits_inv c a' : nw_anchor_exits w' !! c = Some a' -> is_Some (nw_anchor_exits w !! c).
Proof.
  unfold w', released. destruct kd as [c'|]; cbn; [|by eexists]. rewrite lookup_alter_Some.
  intros [(-> & a & E & _)|[_ E]]; by eexists.
Qed.

Lemma released_kernel : kernel_wf k /\ kernel_later (nw_kernel w) k /\ nw_kernel w' = k /\
  (forall j, ours j (nw_kernel w) -> (nh_reaped (nw_history w) <> reaped -> j <> i) -> ours j k) /\
  (is_Some (reaped !! i) -> i ∈ k_used k /\ present i k = false).
Proof.
  assert (Ek : nw_kernel w' = k) by (unfold w', released; by destruct kd).
  pose proof (nk_kernel _ _ _ Hm) as Hwf. pose proof (owned_ours _ _ _ _ _ Hm Eh) as Hi. destruct Hr as [(Hk & Er & _)|(s & Hw & Er & _)].
  - rewrite Ek, Hk, Er. split_and!; [done..| |]; [done|]. intros Hx. by apply (nk_reaped _ _ _ Hm).
  - destruct (waitpid_ours _ _ _ _ Hwf Hi Hw) as (Hwf' & Hl & Hp & Ho). rewrite Ek, Er. split_and!; try done.
    + intros j Hj Hne. apply Ho; [done|]. apply Hne. intros E. pose proof (lookup_insert_eq (nh_reaped (nw_history w)) i s) as Hx.
      rewrite <- E in Hx. destruct (nk_reaped _ _ _ Hm i) as [_ Hp']; [by exists s|]. pose proof (ours_present _ _ Hi). congruence.
    + intros _. split; [|done]. by apply Hl, ours_used.
Qed.

Lemma ok_release : ok (<[h := (None, kd)]> m) w' /\ world_later w w'.
Proof.
  destruct released_kernel as (Hwf & Hl & Ek & Hours & Hri). destruct released_history as (Hre & Hov & Hus & Hsi & Hwa).
  pose proof released_reaped as Hgrow.
  assert (Est : nw_state w' = nw_state w /\ nw_next w' = nw_next w /\ nw_exits w' = nw_exits w /\ has_cgroups w' = has_cgroups w /\
    nw_handles w' = delete h (nw_handles w) /\ nw_orphans w' = orphans) by (unfold w', released; by destruct kd).
  destruct Est as (Est & Enx & Eex & Emo & Eha & Eor).
  assert (Hkeep : forall c a, nw_anchor_exits w !! c = Some a -> exists a', nw_anchor_exits w' !! c = Some a' /\ ac_handle a' = ac_handle a /\
    ac_instance a' = ac_instance a) by (intros c a E; destruct (released_anchor_exits c a E) as (a' & ? & ? & ? & _); eauto).
  split; [split|split].
  - by rewrite Ek.
  - rewrite Emo. apply Hm.
  - intros h' o kd'. rewrite Eha, lookup_insert_Some. intros [[<- [= <- <-]]|[Hne E]]; [by rewrite lookup_delete_eq|].
    rewrite lookup_delete_ne; [|done]. by apply (nk_owned _ _ _ Hm h' o kd').
  - intros h' j. rewrite Eha, lookup_delete_Some. intros [Hne E]. rewrite lookup_insert_ne; [|done]. by apply Hm.
  - intros h' j. rewrite Eor. intros E. destruct (decide (h = h')) as [<-|Hne]; [rewrite lookup_insert_eq; eauto|].
    rewrite lookup_insert_ne; [|done]. apply (nk_orphan _ _ _ Hm h' j).
    destruct Hr as [(_ & _ & [<-| ->])|(s & _ & _ & <-)]; [done| |done]. by rewrite lookup_insert_ne in E.
  - intros h' j Hc. destruct (released_children h' j Hc) as [Hw Hne]. rewrite Ek. apply Hours; [|done]. by apply (nk_ours _ _ _ Hm h').
  - intros h1 h2 j H1 H2. apply released_children in H1 as [H1 _]. apply released_children in H2 as [H2 _]. by apply (nk_inj _ _ _ Hm h1 h2 j).
  - intros h'. rewrite Enx, Eex. intros Hh. destruct (nk_next _ _ _ Hm h' Hh) as (Hn1 & Hn2 & Hn3). split_and!; [|done|].
    + rewrite lookup_insert_ne; [done|]. congruence.
    + destruct (nw_anchor_exits w' !! h') eqn:E; [|done]. destruct (released_anchor_exits_inv _ _ E). congruence.
  - intros h' j c. rewrite lookup_insert_Some. intros [[_ [=]]|[Hne E]].
    destruct (nk_kind _ _ _ Hm h' j c E) as (a & Ea & Eah & Eai). destruct (Hkeep c a Ea) as (a' & ? & ? & ?). exists a'.
    split_and!; [done|congruence..].
  - intros c a' Ea'. destruct (released_anchor_exits_inv _ _ Ea') as [a Ea].
    destruct (released_anchor_exits c a Ea) as (a'' & E & Eah & Eai & Hold & Hnew). rewrite Ea' in E. injection E as <-.
    rewrite Hre, Eai, Eah. destruct (decide (kd = Some c)) as [Ec|Ec].
    + rewrite (Hnew Ec). split; [done|]. intros [= Er]. rewrite Ec in Eh. destruct (nk_kind _ _ _ Hm h i c Eh) as (a0 & Ea0 & _ & Ei).
      rewrite Ea in Ea0. injection Ea0 as <-. rewrite Ei. by apply Hok.
    + rewrite (Hold Ec). destruct (nk_anchor _ _ _ Hm c a Ea) as [H1 H2]. split.
      * intros Hv. rewrite lookup_insert_ne; [by apply H1|]. intros E. specialize (H1 Hv). congruence.
      * intros Hv. destruct (H2 Hv) as [s Es]. exists s. by apply Hgrow.
  - rewrite Est, Hov. intros s an E. destruct (nk_anchored _ _ _ Hm s an E) as (? & a & g & Ea & Eg & Hp). split; [done|].
    destruct (Hkeep _ a Ea) as (a' & ? & _ & Eai). exists a', g. by rewrite Eai.
  - rewrite Est, Hov. apply Hm.
  - rewrite Est. intros key slot E. destruct (nk_slots _ _ _ Hm key slot E) as (e & ? & ?). exists e. by rewrite Eex.
  - rewrite Eex, Hre. intros c e raw Ee Ev. destruct (nk_exits _ _ _ Hm c e raw Ee Ev) as (s & ? & ?). exists s. split; [by apply Hgrow|done].
  - rewrite Hre, Ek. intros j Hj. destruct (decide (j = i)) as [->|Hne]; [by apply Hri|].
    destruct (nk_reaped _ _ _ Hm j) as [Hu Hp].
    { destruct Hr as [(_ & Er & _)|(s & _ & Er & _)]; rewrite Er in Hj; [done|]. by rewrite lookup_insert_ne in Hj. }
    split; [by apply Hl|]. by apply (kl_absent _ _ Hl).
  - rewrite Hus, Hov. apply Hm.
  - rewrite Hsi. apply Hm.
  - rewrite Hwa, Hre. intros os raw Hin. destruct (nk_waits _ _ _ Hm os raw Hin) as (j & s & ? & ? & ?). exists j, s. split_and!; [done| |done].
    by apply Hgrow.
  - rewrite Eex. eauto.
  - intros c a Ea. destruct (Hkeep c a Ea) as (a' & ? & _ & ?). eauto.
  - rewrite Hre. exact Hgrow.
  - by rewrite Hov.
Qed.
End Release.

Lemma releases_orphan m w h i kd r :
  ok m w -> m !! h = Some (Some i, kd) -> (is_Some kd -> r <> Ok tt) ->
  ok (<[h := (None, kd)]> m) (released h kd (nw_kernel w) (nh_reaped (nw_history w)) (<[h := i]> (nw_orphans w)) r w) /\
  world_later w (released h kd (nw_kernel w) (nh_reaped (nw_history w)) (<[h := i]> (nw_orphans w)) r w).
Proof.
  intros Hm E Hr. assert (Hof : release_of h i w (nw_kernel w) (nh_reaped (nw_history w)) (<[h := i]> (nw_orphans w))) by (left; eauto).
  destruct kd as [c|].
  - apply (ok_release m w Hm h i (Some c) E _ _ _ Hof). intros Er. by destruct (Hr (mk_is_Some _ _ eq_refl)).
  - pose proof (ok_release m w Hm h i None E _ _ _ Hof (Err EmptyString)) as H. apply H. done.
Qed.

Lemma orphan_child_ok m w h i :
  ok m w -> m !! h = Some (Some i, None) -> ok (<[h := (None, None)]> m) (orphan_child h w) /\ world_later w (orphan_child h w).
Proof.
  intros Hm E. pose proof (releases_orphan m w h i None (Err EmptyString) Hm E) as H. unfold orphan_child.
  rewrite (owned_handle _ _ _ _ _ Hm E). destruct w as [? ? ? ? ? ? ? ? ? ? ? ? ? []]. apply H. by intros [? ?].
Qed.

Lemma orphan_child_released m w h kd : ok m w -> m !! h = Some (None, kd) -> orphan_child h w = w.
Proof. intros Hm E. unfold orphan_child. by rewrite (nk_owned _ _ _ Hm _ _ _ E). Qed.

Lemma publish_orphan_ok m w h i c text :
  ok m w -> m !! h = Some (Some i, Some c) ->
  ok (<[h := (None, Some c)]> m) (orphan_child h (publish_anchor c (Err text) w)) /\
  world_later w (orphan_child h (publish_anchor c (Err text) w)).
Proof.
  intros Hm E. pose proof (releases_orphan m w h i (Some c) (Err text) Hm E) as H. pose proof (owned_handle _ _ _ _ _ Hm E) as Eh.
  unfold orphan_child. cbn. rewrite Eh. destruct w as [? ? ? ? ? ? ? ? ? ? ? ? ? []]. by apply H.
Qed.

Lemma disown_child_ok m w h i :
  ok m w -> m !! h = Some (Some i, None) -> ok (<[h := (None, None)]> m) (disown_child h w) /\ world_later w (disown_child h w).
Proof.
  intros Hm E. assert (Hof : release_of h i w (nw_kernel w) (nh_reaped (nw_history w)) (nw_orphans w)) by (left; auto).
  pose proof (ok_release m w Hm h i None E _ _ _ Hof (Err EmptyString)) as H.
  destruct w as [? ? ? ? ? ? ? ? ? ? ? ? ? []]. by apply H.
Qed.

(** ** Polls *)

Lemma try_wait_ok m w h i failed :
  ok m w -> m !! h = Some (Some i, None) ->
  exists r, (try_wait h failed w).2 = Some r /\
    match r with
    | Ok (Some s) => ok (<[h := (None, None)]> m) (try_wait h failed w).1 /\ world_later w (try_wait h failed w).1 /\
        nh_reaped (nw_history (try_wait h failed w).1) !! i = Some s
    | _ => (try_wait h failed w).1 = w
    end.
Proof.
  intros Hm E. unfold try_wait. rewrite (owned_handle _ _ _ _ _ Hm E). destruct failed as [e|]; [by eexists|].
  destruct (waitpid (launch_os_pid i) (nw_kernel w)) as [[k [s|[]]]|] eqn:Ew; [|by eexists|by eexists].
  eexists. split; [done|]. cbn [fst].
  assert (Hof : release_of h i w k (<[i := s]> (nh_reaped (nw_history w))) (nw_orphans w)) by (right; eauto).
  pose proof (ok_release m w Hm h i None E _ _ _ Hof (Err EmptyString)) as H.
  assert (Hl : nh_reaped (nw_history (note_reaped i s (set_handles (delete h (nw_handles w)) (set_nkernel k w)))) !! i = Some s)
    by (cbn; by rewrite lookup_insert_eq).
  destruct w as [? ? ? ? ? ? ? ? ? ? ? ? ? []]. destruct H; done.
Qed.

Lemma poll_exit_ok m w h i c failed :
  ok m w -> m !! h = Some (Some i, Some c) ->
  exists b, (poll_exit h c failed w).2 = Some b /\
    if b : bool then ok (<[h := (None, Some c)]> m) (poll_exit h c failed w).1 /\ world_later w (poll_exit h c failed w).1
    else (poll_exit h c failed w).1 = w.
Proof.
  intros Hm E. unfold poll_exit, try_wait. pose proof (owned_handle _ _ _ _ _ Hm E) as Eh. rewrite Eh. destruct failed as [[text echild]|].
  { exists true. split; [done|]. cbn [fst]. destruct echild; [|by eapply publish_orphan_ok].
    assert (Hof : release_of h i w (nw_kernel w) (nh_reaped (nw_history w)) (nw_orphans w)) by (left; auto).
    pose proof (ok_release m w Hm h i (Some c) E _ _ _ Hof (Err text)) as H. unfold orphan_child. cbn. rewrite lookup_delete_eq.
    destruct w as [? ? ? ? ? ? ? ? ? ? ? ? ? []]. by apply H. }
  destruct (waitpid (launch_os_pid i) (nw_kernel w)) as [[k [s|[]]]|] eqn:Ew.
  - exists true. split; [done|]. cbn [fst].
    assert (Hof : release_of h i w k (<[i := s]> (nh_reaped (nw_history w))) (nw_orphans w)) by (right; eauto).
    pose proof (ok_release m w Hm h i (Some c) E _ _ _ Hof (Ok tt)) as H. rewrite lookup_insert_eq in H.
    destruct w as [? ? ? ? ? ? ? ? ? ? ? ? ? []]. apply H. by eexists.
  - by destruct (waitpid_no_error _ _ _ (owned_ours _ _ _ _ _ Hm E) Ew).
  - by exists false.
Qed.

(** ** New handles *)

Lemma next_fresh m w : ok m w -> m !! nw_next w = None /\ nw_handles w !! nw_next w = None /\ nw_orphans w !! nw_next w = None /\
  nw_anchor_exits w !! nw_next w = None.
Proof.
  intros Hm. destruct (nk_next _ _ _ Hm (nw_next w)) as (E & _ & Ea); [lia|]. split_and!; [done|..|done].
  - destruct (nw_handles w !! nw_next w) eqn:Eh; [|done]. destruct (nk_handle _ _ _ Hm _ _ Eh). congruence.
  - destruct (nw_orphans w !! nw_next w) eqn:Eh; [|done]. destruct (nk_orphan _ _ _ Hm _ _ Eh). congruence.
Qed.

Lemma ok_gains_handle m w k i :
  ok m w -> kernel_moves (nw_kernel w) k -> ours i k -> i ∉ k_used (nw_kernel w) ->
  ok (<[nw_next w := (Some i, None)]> m) (nbump (set_handles (<[nw_next w := i]> (nw_handles w)) (set_nkernel k w))) /\
  world_later w (nbump (set_handles (<[nw_next w := i]> (nw_handles w)) (set_nkernel k w))).
Proof.
  intros Hm0 Hk Hi Hu. destruct (next_fresh _ _ Hm0) as (Fm & Fh & Fo & _). set (n := nw_next w) in *.
  destruct (stays_kernel w k (fun _ => Hk) m Hm0) as [Hm _].
  assert (Hnew : forall h j, children_of_backend w h j -> h <> n /\ j <> i).
  { intros h j Hc. split; [intros ->; destruct Hc; congruence|]. intros ->. apply Hu, ours_used; [apply Hm0|]. by apply (nk_ours _ _ _ Hm0 h). }
  assert (Hcase : forall h j, children_of_backend (nbump (set_handles (<[n := i]> (nw_handles w)) (set_nkernel k w))) h j ->
    (h = n /\ j = i) \/ children_of_backend w h j).
  { intros h j [Hc|Hc]; cbn in Hc; [|by right; right]. apply lookup_insert_Some in Hc as [[<- <-]|[_ Hc]]; [by left|by right; left]. }
  split; [|by split; eauto]. destruct Hm. split; try assumption; cbn in *.
  - intros h o kd. rewrite !lookup_insert_Some. intros [[<- [= <- <-]]|[Hne E]]; [by rewrite lookup_insert_eq|].
    rewrite lookup_insert_ne; [|done]. by apply (nk_owned h o kd).
  - intros h j. rewrite lookup_insert_Some. intros [[<- <-]|[Hne E]]; [rewrite lookup_insert_eq; eauto|].
    rewrite lookup_insert_ne; [|done]. by apply nk_handle.
  - intros h j E. destruct (nk_orphan h j E) as [kd Ek]. exists kd. rewrite lookup_insert_ne; [done|]. congruence.
  - intros h j [[-> ->]|Hc]%Hcase; [done|]. by apply Hk, (NativeInv.nk_ours _ _ _ Hm0 h).
  - intros h1 h2 j [[-> ->]|H1]%Hcase [[-> E]|H2]%Hcase; [done| | |by apply (NativeInv.nk_inj _ _ _ Hm0 h1 h2 j)].
    + by destruct (Hnew _ _ H2).
    + subst j. by destruct (Hnew _ _ H1).
  - intros h Hh. destruct (nk_next h) as (? & ? & ?); [lia|]. rewrite lookup_insert_ne; [done|]. lia.
  - intros h j c. rewrite lookup_insert_Some. intros [[_ [=]]|[_ E]]. by apply nk_kind.
  - intros c a Ea. destruct (nk_anchor c a Ea) as [H1 H2]. split; [|done]. intros Hv. specialize (H1 Hv).
    rewrite lookup_insert_ne; [done|]. congruence.
Qed.

Lemma ok_new_channel m w h i :
  ok m w -> m !! h = Some (Some i, None) ->
  ok (<[h := (Some i, Some (nw_next w))]> m)
    (nbump (set_anchor_exits (<[nw_next w := mkAnchorChannel None h i]> (nw_anchor_exits w)) w)) /\
  world_later w (nbump (set_anchor_exits (<[nw_next w := mkAnchorChannel None h i]> (nw_anchor_exits w)) w)).
Proof.
  intros Hm E. destruct (next_fresh _ _ Hm) as (Fm & _ & _ & Fa). set (n := nw_next w) in *.
  assert (Hkeep : forall c a, nw_anchor_exits w !! c = Some a ->
    <[n := mkAnchorChannel None h i]> (nw_anchor_exits w) !! c = Some a).
  { intros c a Ea. rewrite lookup_insert_ne; [done|]. congruence. }
  destruct Hm. split; [|split; cbn; eauto]. split; try assumption; cbn.
  - intros h' o kd. rewrite lookup_insert_Some. intros [[<- [= <- <-]]|[_ E']]; [by apply (nk_owned h _ None)|by apply (nk_owned h' o kd)].
  - intros h' j Ej. destruct (decide (h = h')) as [<-|Hne].
    + destruct (nk_handle h j Ej) as [kd Ek]. rewrite lookup_insert_eq. rewrite E in Ek. injection Ek as <- <-. eauto.
    + rewrite lookup_insert_ne; [|done]. by apply nk_handle.
  - intros h' j Ej. destruct (nk_orphan h' j Ej) as [kd Ek]. exists kd. rewrite lookup_insert_ne; [done|]. congruence.
  - intros h' Hh. destruct (nk_next h') as (? & ? & ?); [unfold n in *; lia|]. rewrite !lookup_insert_ne; [done|unfold n in *; lia|congruence].
  - intros h' j c. rewrite lookup_insert_Some. intros [[<- [= <- <-]]|[Hne E']].
    + rewrite lookup_insert_eq. eauto.
    + destruct (nk_kind h' j c E') as (a & Ea & ?). exists a. split; [by apply Hkeep|done].
  - intros c a. rewrite lookup_insert_Some. intros [[<- <-]|[Hne Ea]]; cbn.
    + split; [|done]. intros _. by rewrite lookup_insert_eq.
    + destruct (nk_anchor c a Ea) as [H1 H2]. split; [|done]. intros Hv. specialize (H1 Hv). rewrite lookup_insert_ne; [done|]. congruence.
  - intros s an Es. destruct (nk_anchored s an Es) as (? & a & g & Ea & ?). split; [done|]. exists a, g. split; [by apply Hkeep|done].
Qed.

Section Spawns.
Context (here_group : Z).

Lemma forked_ours i g k k' : os_fork i Here g k = Some k' -> ours i k' /\ i ∉ k_used k.
Proof.
  intros Hf. destruct (fork_free _ _ _ _ _ Hf) as (_ & Hu & ->). split; [|done].
  eexists. cbn. by rewrite lookup_insert_eq.
Qed.

Lemma kernel_moves_trans k1 k2 k3 : kernel_moves k1 k2 -> kernel_moves k2 k3 -> kernel_moves k1 k3.
Proof. intros (_ & L1 & H1) (W & L2 & H2). split_and!; [done|by etrans|auto]. Qed.

(** A fork that is undone. *)
Lemma moves_unfork i k k' :
  kernel_wf k -> os_fork i Here here_group k = Some k' -> kernel_moves k (set_table (delete (launch_os_pid i) (k_table k')) k').
Proof.
  intros Hk Hf. destruct (moves_fork _ _ _ _ _ Hk Hf) as (Hw & Hl & Ho). destruct (delete_later k' (launch_os_pid i) Hw) as [Hw' Hl'].
  split_and!; [done|by etrans|]. intros j Hj. destruct (Ho j Hj) as (pr & E & H). exists pr. cbn. split; [|done].
  apply lookup_delete_Some. split; [|done]. intros Ep. destruct (fork_free _ _ _ _ _ Hf) as (Hn & _). destruct Hj as (pr' & E' & _). congruence.
Qed.

Lemma moves_found i k : kernel_wf k -> kernel_moves k (os_found i k).
Proof. intros Hk. unfold os_found. destruct (alive i k); [|by apply kernel_moves_refl]. apply moves_alter; [done..|by left]. Qed.

Lemma spawn_native_ok i target w m :
  ok m w ->
  world_later w (spawn_native here_group i target w).1 /\
  nh_overlapped (nw_history (spawn_native here_group i target w).1) = nh_overlapped (nw_history w) /\
  match (spawn_native here_group i target w).2 with
  | Ok h => m !! h = None /\ ok (<[h := (Some i, None)]> m) (spawn_native here_group i target w).1
  | Err _ => ok m (spawn_native here_group i target w).1 /\ nw_state (spawn_native here_group i target w).1 = nw_state w
  end.
Proof.
  intros Hm. pose proof (nk_kernel _ _ _ Hm) as Hk. destruct (next_fresh _ _ Hm) as (Fm & _).
  unfold spawn_native. destruct (os_fork i Here here_group (nw_kernel w)) as [k|] eqn:Ef; [|done].
  destruct (forked_ours _ _ _ _ Ef) as [Hi Hu]. pose proof (moves_fork _ _ _ _ _ Hk Ef) as Hmv.
  assert (Hstart : forall k', kernel_moves k k' ->
    world_later w (nbump (set_handles (<[nw_next w := i]> (nw_handles w)) (set_nkernel k' w))) /\
    ok (<[nw_next w := (Some i, None)]> m) (nbump (set_handles (<[nw_next w := i]> (nw_handles w)) (set_nkernel k' w)))).
  { intros k' Hk'. destruct (ok_gains_handle m w k' i Hm) as [H L]; [by eapply kernel_moves_trans|by apply Hk'|done|done]. }
  destruct (target =? 0); [|case_bool_decide].
  - destruct (Hstart (os_found i k)) as [L H]; [by apply moves_found, Hmv|]. done.
  - destruct (stays_kernel w _ (fun _ => moves_unfork _ _ _ Hk Ef) m Hm) as [H' L]. done.
  - destruct (Hstart (set_table (alter (with_group target) (launch_os_pid i) (k_table k)) k)) as [L H'].
    { apply moves_alter; [apply Hmv|done..|by left]. }
    done.
Qed.

Lemma spawn_anchor_ok i w m :
  ok m w ->
  world_later w (spawn_anchor here_group i w).1 /\
  match (spawn_anchor here_group i w).2 with
  | Ok (h, c) => m !! h = None /\ ok (<[h := (Some i, Some c)]> m) (spawn_anchor here_group i w).1 /\
      exists a, nw_anchor_exits (spawn_anchor here_group i w).1 !! c = Some a /\ ac_instance a = i
  | Err _ => ok m (spawn_anchor here_group i w).1
  end.
Proof.
  intros Hm. destruct (spawn_native_ok i 0 w m Hm) as (L & _ & Hr). unfold spawn_anchor.
  destruct (spawn_native here_group i 0 w) as [w1 [h|text]]; cbn [fst snd] in *; [|by destruct Hr].
  destruct Hr as [Fh H1]. destruct (ok_new_channel _ w1 h i H1) as [H2 L2]; [by rewrite lookup_insert_eq|].
  rewrite insert_insert_eq in H2. split_and!; [by etrans|done|done|]. exists (mkAnchorChannel None h i). split; [|done].
  cbn. by rewrite lookup_insert_eq.
Qed.

(** What the critical section of [spawn] leaves. *)
Definition attempted (m : gmap nat (option KeptLaunch * option nat)) (s : ProcessScopeId) (w : NativeWorld) (r : spawn_attempt) : Prop :=
  match r with
  | SpawnedChild h i new_group => m !! h = None /\ ok (<[h := (Some i, None)]> m) w /\
      (new_group = true -> mode = true \/ s ∈ nh_overlapped (nw_history w))
  | _ => ok m w
  end.

Lemma spawn_section_ok s failed1 i1 failed2 i2 w m :
  ok m w ->
  world_later w (spawn_section here_group s failed1 i1 failed2 i2 w).1 /\
  attempted m s (spawn_section here_group s failed1 i1 failed2 i2 w).1 (spawn_section here_group s failed1 i1 failed2 i2 w).2.
Proof.
  intros Hm. unfold spawn_section.
  destruct (match st_groups (nw_state w) !! s with Some g => gr_wait_failed g | None => false end); [done|].
  destruct (match st_anchors (nw_state w) !! s with Some a => _ | None => false end) eqn:Ea; [done|].
  set (anchored := match st_anchors (nw_state w) !! s with Some _ => true | None => false end).
  set (existing := match st_groups (nw_state w) !! s with Some g => _ | None => None end).
  set (w1 := match existing with Some g => log_use s g w | None => _ end).
  assert (H1 : ok m w1 /\ world_later w w1 /\ nw_state w1 = nw_state w /\
    (existing = None -> mode = true \/ s ∈ nh_overlapped (nw_history w1))).
  { subst w1. destruct existing as [g|] eqn:Ee.
    - assert (Hg : exists gr, st_groups (nw_state w) !! s = Some gr /\ g = gr_pgid gr).
      { subst existing. destruct (st_groups (nw_state w) !! s) as [gr|]; [|done]. destruct (_ || _); [|done].
        injection Ee as <-. eauto. }
      destruct Hg as (gr & Eg & ->). assert (Hu : stays w (log_use s (gr_pgid gr) w)); [|by destruct (Hu m Hm)].
      apply stays_log_use. intros m' Hm'. apply (group_use_ok m' w s gr Hm' Eg). intros an E. rewrite E in Ea.
      destruct (anchor_exit an w); [|done]. by rewrite orb_true_r in Ea.
    - destruct (has_cgroups w) eqn:Eg.
      + split_and!; [done..|]. left. by rewrite <- (nk_mode _ _ _ Hm).
      + destruct (stays_mark_overlapped s w m Hm) as [H L]. split_and!; [done..|]. intros _. right. apply marked_overlapped. }
  destruct H1 as (Hm1 & L1 & Est & Hnone). clearbody w1.
  assert (Hin : forall failed i target w0, ok m w0 ->
    world_later w0 (spawn_in_group here_group failed i target w0).1 /\
    nh_overlapped (nw_history (spawn_in_group here_group failed i target w0).1) = nh_overlapped (nw_history w0) /\
    match (spawn_in_group here_group failed i target w0).2 with
    | Ok h => m !! h = None /\ ok (<[h := (Some i, None)]> m) (spawn_in_group here_group failed i target w0).1
    | Err _ => ok m (spawn_in_group here_group failed i target w0).1 /\ nw_state (spawn_in_group here_group failed i target w0).1 = nw_state w0
    end).
  { intros failed i target w0 Hw0. unfold spawn_in_group. destruct failed; [done|]. by apply spawn_native_ok. }
  destruct (Hin failed1 i1 (default 0 existing) w1 Hm1) as (L2 & O2 & H2).
  destruct (spawn_in_group here_group failed1 i1 (default 0 existing) w1) as [w2 [h|text]]; cbn [fst snd] in *.
  { destruct H2 as [Fh H2]. split; [by etrans|]. split_and!; [done..|]. rewrite O2. by destruct existing; [|intros _; apply Hnone]. }
  destruct H2 as [H2 Est2]. destruct existing as [g|] eqn:Ee; [|split; [by etrans|done]].
  destruct anchored eqn:Ean; cbn [negb]; [split; [by etrans|done]|].
  assert (Hna : st_anchors (nw_state w2) !! s = None).
  { rewrite Est2, Est. subst anchored. by destruct (st_anchors (nw_state w) !! s). }
  destruct (stays_remove_group s w2 Hna m H2) as [H3 L3]. set (w3 := on_state (remove_group s) w2) in *.
  assert (Ho : mode = true \/ s ∈ nh_overlapped (nw_history w3)).
  { assert (Hg : is_Some (st_groups (nw_state w2) !! s)).
    { rewrite Est2, Est. subst existing. destruct (st_groups (nw_state w) !! s); [by eexists|done]. }
    destruct (nk_group _ _ _ H2 s Hg) as [[? ?]|H]; [congruence|done]. }
  destruct (Hin failed2 i2 0 w3 H3) as (L4 & O4 & H4).
  destruct (spawn_in_group here_group failed2 i2 0 w3) as [w4 [h|text']]; cbn [fst snd] in *.
  - destruct H4 as [Fh H4]. split; [by do 3 (etrans; [eassumption|])|]. split_and!; [done..|]. intros _. by rewrite O4.
  - destruct H4 as [H4 _]. split; [by do 3 (etrans; [eassumption|])|done].
Qed.
End Spawns.

(** ** Drops *)

Lemma kill_unregistered_ok m w h i refused :
  ok m w -> m !! h = Some (Some i, None) ->
  ok (<[h := (None, None)]> m) (kill_unregistered h refused w) /\ world_later w (kill_unregistered h refused w).
Proof.
  intros Hm E. unfold kill_unregistered. rewrite (owned_handle _ _ _ _ _ Hm E).
  destruct (stays_kernel w _ (moves_kill (launch_os_pid i) SIGKILL refused _) m Hm) as [H1 L1].
  destruct (orphan_child_ok m _ h i H1 E) as [H2 L2]. split; [done|by etrans].
Qed.

Lemma stays_issue_kill_of s pgid w :
  stays w (on_state (fun st => match st_groups st !! s with
                               | Some g => if gr_pgid g =? pgid then set_anchors (alter issue_kill s (st_anchors st)) st else st
                               | None => st
                               end) w).
Proof.
  assert (Hid : stays w (on_state (fun st => st) w)) by (apply stays_alike; by split).
  pose proof (stays_issue_kill (mode := mode) s w) as Hk. unfold on_state in *.
  destruct (st_groups (nw_state w) !! s) as [g|]; [destruct (gr_pgid g =? pgid)|]; done.
Qed.

Lemma anchor_dropped_ok m w s h i c :
  ok m w -> m !! h = Some (Some i, Some c) ->
  ok (<[h := (None, Some c)]> m) (anchor_dropped s (launch_os_pid i) h c w) /\
  world_later w (anchor_dropped s (launch_os_pid i) h c w).
Proof.
  intros Hm E. unfold anchor_dropped. rewrite (owned_handle _ _ _ _ _ Hm E).
  assert (Hu : stays w (log_use s (launch_os_pid i) (set_nkernel (killpg (launch_os_pid i) SIGKILL None (nw_kernel w)).1 w))).
  { apply stays_killpg_use. intros m' Hm'. left. apply (pinned_owned h i w m' Hm'). exact (owned_handle _ _ _ _ _ Hm E). }
  destruct (Hu m Hm) as [H1 L1]. set (w1 := log_use s _ _) in *.
  destruct (stays_issue_kill_of s (launch_os_pid i) w1 m H1) as [H2 L2].
  destruct (publish_orphan_ok m _ h i c "anchor waiter interrupted; synchronous group kill issued, reap unverified" H2 E) as [H3 L3].
  split; [done|]. etrans; [exact L1|]. by etrans.
Qed.

(** ** The threads of the orphans, and the others *)

Lemma stays_reap_orphan h w : stays w (reap_orphan h w).
Proof.
  intros m Hm. unfold reap_orphan. destruct (nw_orphans w !! h) as [i|] eqn:E; [|done].
  destruct (waitpid (launch_os_pid i) (nw_kernel w)) as [[k [s|[]]]|] eqn:Ew; [|done|done].
  assert (Hi : ours i (nw_kernel w)) by (apply (nk_ours _ _ _ Hm h); by right).
  destruct (waitpid_ours _ _ _ _ (nk_kernel _ _ _ Hm) Hi Ew) as (Hwf & Hl & Hp & Ho).
  assert (Hgrow : forall j t, nh_reaped (nw_history w) !! j = Some t -> <[i := s]> (nh_reaped (nw_history w)) !! j = Some t).
  { intros j t Et. rewrite lookup_insert_ne; [done|]. intros <-. destruct (nk_reaped _ _ _ Hm i) as [_ Hp']; [by eexists|].
    pose proof (ours_present _ _ Hi). congruence. }
  assert (Hc : forall h' j, children_of_backend (note_reaped i s (set_orphans (delete h (nw_orphans w)) (set_nkernel k w))) h' j ->
    children_of_backend w h' j /\ j <> i).
  { intros h' j Hj. assert (Hw : children_of_backend w h' j).
    { destruct Hj as [Hj|Hj]; cbn in Hj; [by left|]. apply lookup_delete_Some in Hj as [_ Hj]. by right. }
    split; [done|]. intros ->. assert (h' = h) as -> by (apply (nk_inj _ _ _ Hm h' h i Hw); by right).
    destruct Hj as [Hj|Hj]; cbn in Hj; [|by rewrite lookup_delete_eq in Hj].
    destruct (nk_handle _ _ _ Hm _ _ Hj). destruct (nk_orphan _ _ _ Hm _ _ E). congruence. }
  destruct Hm. split; [|split; cbn; eauto]. split; try assumption.
  - cbn. intros h' j [_ E']%lookup_delete_Some. exact (nk_orphan h' j E').
  - intros h' j [Hw Hne]%Hc. apply Ho; [by apply (nk_ours h')|done].
  - intros h1 h2 j [H1 _]%Hc [H2 _]%Hc. by apply (nk_inj h1 h2 j).
  - cbn. intros c a Ea. destruct (nk_anchor c a Ea) as [H1 H2]. split; [done|]. intros Hv. destruct (H2 Hv) as [t Et]. eauto.
  - cbn. intros c e raw Ee Ev. destruct (nk_exits c e raw Ee Ev) as (t & ? & ?). eauto.
  - cbn. intros j. destruct (decide (j = i)) as [->|Hne].
    + intros _. split; [|done]. by apply Hl, ours_used.
    + rewrite lookup_insert_ne; [|done]. intros Hj. destruct (nk_reaped j Hj). split; [by apply Hl|]. by apply (kl_absent _ _ Hl).
  - cbn. intros os raw Hin. destruct (nk_waits os raw Hin) as (j & t & ? & ? & ?). eauto 10.
Qed.

Lemma stays_outside e w : stays w (native_outside e w).
Proof.
  destruct e as [e|h]; cbn; [|apply stays_reap_orphan]. destruct (others e (nw_kernel w)) eqn:Eo; [|apply stays_refl].
  apply stays_kernel. intros Hk. by apply moves_event.
Qed.
End Owners.
