(* ===== verification/NativeSafe.v ===== *)
(** * NativeSafe: what holds of the Unix backend in every run

    Callers spawn, wait, signal, kill, sample and clean up in any order; the tasks that reap
    children and anchors interleave with them step by step, and so do the kernel and
    every other process of the machine. A task owns the handle of its child in a ghost map; what a
    program has seen of the world is a snapshot, and every world is later than it. *)

From iris.algebra Require Import auth mra.
From iris.proofmode Require Import proofmode.
From iris.base_logic.lib Require Import ghost_map own.
From stdpp Require Import base list relations gmap strings.
From S2P Require Import Prelude StdModel Values Observation Usage KeptDomain Ports Conc Ownership KeptState KeptStore Display Unix KeptUnix Procfs Native NativeInv NativeSteps NativeOwners.

Open Scope Z_scope.
Open Scope prog_scope.

Section Safe.
(** [nix]'s [Signal::try_from], this process's own group, and whether there is a cgroup adapter. *)
Context (nix_try_from : Z -> result Z string) (here_group : Z) (mode : bool).

Abbreviation NProg := (Prog (S := NativeWorld) (Q := NativePort) (T := NativeTask)).
Abbreviation NEvent := (Event (S := NativeWorld) (Q := NativePort)).
Abbreviation ok := (native_ok mode) (only parsing).
Abbreviation stays := (step_ok mode) (only parsing).

(** ** The calls of the interface *)

Inductive native_api (a : nat) : NProg unit -> Prop :=
| napi_spawn rounds polls scope spec : native_api a (backend_spawn here_group rounds polls scope spec ;;; Ret tt)
| napi_wait target : native_api a (backend_wait target ;;; Ret tt)
| napi_signal target signal : native_api a (backend_signal nix_try_from target signal ;;; Ret tt)
| napi_signal_scope scope signal : native_api a (backend_signal_scope nix_try_from scope signal ;;; Ret tt)
| napi_hard_kill_scope scope : native_api a (backend_hard_kill_scope scope)
| napi_hard_kill_all : native_api a backend_hard_kill_all
| napi_cleanup scope : native_api a (backend_cleanup_scope nix_try_from scope ;;; Ret tt)
| napi_sample target : native_api a (backend_sample target ;;; Ret tt)
| napi_scope_usage scope : native_api a (backend_scope_usage scope ;;; Ret tt)
| napi_outside e : native_api a (modify (native_outside e)).

(** ** Programs that own nothing *)

(** A task that owns nothing. *)
Definition plain_task (t : NativeTask) : Prop := match t with RunReader _ _ | RunSample _ _ _ => True | _ => False end.

(** Each step keeps the invariant, in every world it may start in; there is no panic unless [panics]. *)
Fixpoint calm (panics : Prop) {A} (p : NProg A) : Prop :=
  match p with
  | Ret _ => True
  | Panic _ => panics
  | Act f k => forall m w, ok m w -> ok m (f w).1 /\ world_later w (f w).1 /\ calm panics (k (f w).2)
  | Call q k => forall x, calm panics (k x)
  | Wait e d k => (forall w, stays w (d w)) /\ forall w w' x, fires native_answer e w w' x -> stays w w' /\ calm panics (k x)
  | Fork t k => plain_task t /\ calm panics k
  end.
Abbreviation neutral := (calm False).

Section Calm.
Context (panics : Prop).
Abbreviation neutral := (calm panics).

Lemma neutral_bind {A B} (p : NProg A) (g : A -> NProg B) : neutral p -> (forall x, neutral (g x)) -> neutral (bind p g).
Proof.
  intros Hp Hg. induction p as [v|m|X f k IH|X q k IH|X e d k IH|t k IH]; cbn [calm bind] in *; [done|done| | | |].
  - intros m w Hw. destruct (Hp m w Hw) as (? & ? & ?). eauto.
  - eauto.
  - destruct Hp as [Hd Hp]. split; [done|]. intros w w' x Hf. destruct (Hp w w' x Hf). eauto.
  - destruct Hp. eauto.
Qed.

Lemma neutral_act {X} (f : NativeWorld -> NativeWorld * X) : (forall w, stays w (f w).1) -> neutral (act f).
Proof. intros Hf m w Hw. by destruct (Hf w m Hw). Qed.
Lemma neutral_modify (f : NativeWorld -> NativeWorld) : (forall w, stays w (f w)) -> neutral (modify f).
Proof. intros Hf. by apply neutral_act. Qed.
Lemma neutral_reads {X} (f : NativeWorld -> X) : neutral (reads f).
Proof. apply neutral_act. intros w. apply stays_refl. Qed.
Lemma neutral_call {X} (q : NativePort X) : neutral (call q).
Proof. done. Qed.
Lemma neutral_ask {X} (q : NativePort X) : neutral (ask q).
Proof. split; [intros w; apply stays_refl|]. intros w w' x ->. split; [apply stays_refl|done]. Qed.
Lemma neutral_await {X} (f : NativeWorld -> option (NativeWorld * X)) :
  (forall w w' x, f w = Some (w', x) -> stays w w') -> neutral (await f).
Proof. intros Hf. split; [intros w; apply stays_refl|]. intros w w' x Hw. split; [by eapply Hf|done]. Qed.
Lemma neutral_never {X} : neutral (await (fun _ => None) : NProg X).
Proof. by apply neutral_await. Qed.
Lemma neutral_fork t : plain_task t -> neutral (fork t).
Proof. done. Qed.
End Calm.

(** A program that catches panics has none. *)
Lemma neutral_catch {A} (p : NProg A) : calm True p -> neutral (catch p).
Proof.
  induction p as [v|m|X f k IH|X q k IH|X e d k IH|t k IH]; cbn [calm catch]; intros Hp; [done|done| | | |].
  - intros m w Hw. destruct (Hp m w Hw) as (? & ? & ?). eauto.
  - eauto.
  - destruct Hp as [Hd Hp]. split; [done|]. intros w w' x Hf. destruct (Hp w w' x Hf). eauto.
  - destruct Hp. eauto.
Qed.

Lemma stays_same w w' : alike w w' -> stays w w'.
Proof. apply stays_alike. Qed.

Ltac neutral_step :=
  lazymatch goal with
  | |- calm _ (bind _ _) => apply neutral_bind; [|intros ?]
  | |- calm _ (Ret _) => exact I
  | |- calm True (Panic _) => exact I
  | |- calm _ (reads _) => apply neutral_reads
  | |- calm _ (call _) => apply neutral_call
  | |- calm _ (ask _) => apply neutral_ask
  | |- calm _ (await (fun _ => None)) => apply neutral_never
  | |- calm _ (match ?x with _ => _ end) => destruct x
  end.
Ltac neutral_steps := repeat neutral_step.

Lemma neutral_identity P os : calm P (identity_still_matches os).
Proof. unfold identity_still_matches, native_read_start_time. neutral_steps. Qed.

Lemma neutral_membership scope : neutral (membership scope).
Proof.
  unfold membership, group_create. neutral_steps. apply neutral_modify. intros w. apply stays_same. unfold insert_cgroup.
  destruct (nw_cgroups w) eqn:E; [|apply alike_self]. split; try done. cbn. unfold has_cgroups. cbn. by rewrite E.
Qed.

Lemma neutral_cgroup_kill scope : neutral (cgroup_kill scope).
Proof. unfold cgroup_kill. neutral_steps. Qed.

Lemma neutral_cgroup_kill_all scopes : neutral (cgroup_kill_all scopes).
Proof. induction scopes as [|s scopes IH]; cbn [cgroup_kill_all]; [done|]. neutral_step; [apply neutral_cgroup_kill|exact IH]. Qed.

Lemma neutral_cgroup_finish looks scope : neutral (cgroup_finish looks scope).
Proof.
  induction looks as [|looks IH]; cbn [cgroup_finish]; [done|]. repeat (neutral_step || exact IH).
  apply neutral_modify. intros w. apply stays_same. unfold remove_cgroup.
  destruct (nw_cgroups w) eqn:E; [|apply alike_self]. split; try done. cbn. unfold has_cgroups. cbn. by rewrite E.
Qed.

Lemma neutral_signal target signal : neutral (backend_signal nix_try_from target signal).
Proof.
  unfold backend_signal. neutral_steps.
  - apply neutral_act. intros w. apply stays_signal_by_pidfd.
  - apply neutral_identity.
  - apply neutral_act. intros w. destruct (kill_process _ _ _ _) as [k r] eqn:E. cbn [fst].
    apply (f_equal fst) in E. cbn in E. rewrite <- E. apply stays_kernel, moves_kill.
Qed.

Lemma neutral_signal_scope scope signal : neutral (backend_signal_scope nix_try_from scope signal).
Proof.
  unfold backend_signal_scope. neutral_steps.
  - apply neutral_cgroup_kill.
  - apply neutral_modify. intros w. apply stays_queue_retries.
  - apply neutral_act. intros w. destruct (signal_group _ _ _ w) as [w1 r] eqn:E. cbn [fst].
    assert (H1 : stays w w1) by (apply (f_equal fst) in E; cbn in E; rewrite <- E; apply stays_signal_group).
    destruct (bool_decide _); [|done]. eapply stays_trans; [done|]. apply stays_queue_retries.
Qed.

Lemma neutral_hard_kill_scope scope : neutral (backend_hard_kill_scope scope).
Proof.
  unfold backend_hard_kill_scope. neutral_steps.
  - apply neutral_cgroup_kill.
  - apply neutral_modify. intros w. apply stays_kill_registered_roots.
  - apply neutral_modify. intros w. eapply stays_trans; [apply stays_signal_group|apply stays_kill_registered_roots].
Qed.

Lemma neutral_hard_kill_all : neutral backend_hard_kill_all.
Proof.
  unfold backend_hard_kill_all. neutral_steps.
  - apply neutral_cgroup_kill_all.
  - apply neutral_modify. intros w. apply stays_kill_registered_roots.
  - apply neutral_modify. intros w. eapply stays_trans; [|apply stays_kill_registered_roots].
    apply stays_foldl. intros w' s. apply stays_signal_group.
Qed.

Lemma neutral_await_anchor c : neutral (await_anchor c).
Proof.
  unfold await_anchor. neutral_step; [|neutral_steps]. split; [intros w; apply stays_refl|].
  intros w w' [x|u]; cbn [fires].
  - intros Hf. split; [|done]. unfold anchor_ready in Hf. destruct (nw_anchor_exits w !! c) as [ch|]; [|done]. cbn in Hf.
    destruct (ac_value ch); [|done]. cbn in Hf. injection Hf as <- _. apply stays_refl.
  - intros [_ ->]. split; [apply stays_refl|done].
Qed.

Lemma neutral_cleanup scope : neutral (backend_cleanup_scope nix_try_from scope).
Proof.
  unfold backend_cleanup_scope. neutral_step; [apply neutral_signal_scope|]. neutral_steps.
  all: first [apply neutral_cgroup_finish|apply neutral_await_anchor|apply neutral_modify; intros w; apply stays_forget_scope].
Qed.

Lemma neutral_scope_usage scope : neutral (backend_scope_usage scope).
Proof. unfold backend_scope_usage. neutral_steps. Qed.

(** *** Samples *)

Lemma stays_release_sample flag w : stays w (release_sample flag w).
Proof. apply stays_same. by split. Qed.
Lemma stays_fill_sample j c w : stays w (fill_sample j c w).
Proof. apply stays_same. unfold fill_sample. destruct (nw_cells w !! j) as [[]|]; by split. Qed.

Lemma calm_sample_sync target : calm True (sample_sync target).
Proof.
  unfold sample_sync. neutral_steps.
  all: try apply neutral_identity.
  apply neutral_act. intros w. unfold store_sample. destruct (has_child _ w); [|apply stays_refl].
  apply stays_children; done.
Qed.

Lemma neutral_sample_task j flag target : neutral (sample_task j flag target).
Proof.
  split; [intros w; eapply stays_trans; [apply stays_release_sample|apply stays_fill_sample]|].
  intros w w' x [= <- _]. split; [apply stays_refl|]. neutral_steps; [apply neutral_catch, calm_sample_sync|..].
  - apply neutral_modify. intros w'. apply stays_release_sample.
  - apply neutral_modify. intros w'. apply stays_fill_sample.
Qed.

Lemma neutral_pool_run flag target : neutral (pool_run flag target).
Proof.
  unfold pool_run. neutral_steps.
  { apply neutral_act. intros w. unfold try_active. destruct (nw_sampling w !! flag) as [[]|]; apply stays_same; by split. }
  split; [intros w; apply stays_same; by split|]. intros w w' u Hf. cbn in Hf. unfold acquire_permit in Hf.
  destruct (nw_permits w) as [|n]; [done|]. injection Hf as <- _. split; [apply stays_same; by split|].
  neutral_steps.
  { apply neutral_act. intros w'. apply stays_same. split; try done. cbn. lia. }
  { done. }
  split; [intros w'; apply stays_same; by split|]. intros w1 w2 r Hf. cbn in Hf. unfold take_sample in Hf.
  split; [|neutral_steps]. destruct (nw_cells w1 !! _) as [[]|]; simplify_eq; apply stays_same; by split.
Qed.

Lemma neutral_sample target : neutral (backend_sample target).
Proof. unfold backend_sample. neutral_steps. apply neutral_pool_run. Qed.

(** ** The logic *)

Section Logic.
Context `{!ghost_mapG Σ nat (option KeptLaunch * option nat), !inG Σ (authR (mraUR world_later))} (γh γw : gname).

Definition native_interp (_ : gset nat) (w : NativeWorld) : iProp Σ :=
  ∃ m, ghost_map_auth γh 1 m ∗ own γw (● to_mra w) ∗ ⌜ok m w⌝.

(** Every world from here on is later than [w]. *)
Definition seen (w : NativeWorld) : iProp Σ := own γw (◯ to_mra w).

#[global] Instance seen_persistent w : Persistent (seen w).
Proof. apply _. Qed.

(** A handle, with its child or released, and the channel of its anchor. *)
Definition holds (h : nat) (i : KeptLaunch) (kd : option nat) : iProp Σ := h ↪[γh] (Some i, kd).
Definition let_go (h : nat) (kd : option nat) : iProp Σ := h ↪[γh] (None, kd).
(** The handle of a waiter, in either state. *)
Definition handle_left (h : nat) : iProp Σ := ∃ o, h ↪[γh] (o, None).

(** The channel [c] speaks of [i]; [i] was reaped with the status [s]. *)
Definition speaks_of (c : nat) (i : KeptLaunch) : iProp Σ :=
  ∃ w, seen w ∗ ⌜exists e, nw_exits w !! c = Some e /\ ec_instance e = i⌝.
Definition was_reaped (i : KeptLaunch) (s : WaitStatus) : iProp Σ :=
  ∃ w, seen w ∗ ⌜nh_reaped (nw_history w) !! i = Some s⌝.
(** The group of a child of [scope] that was given a group of its own. *)
Definition grouped_by (new_group : bool) (scope : ProcessScopeId) : iProp Σ :=
  ∃ w, seen w ∗ ⌜new_group = true -> mode = true \/ scope ∈ nh_overlapped (nw_history w)⌝.

#[global] Instance speaks_of_persistent c i : Persistent (speaks_of c i).
Proof. apply _. Qed.
#[global] Instance was_reaped_persistent i s : Persistent (was_reaped i s).
Proof. apply _. Qed.
#[global] Instance grouped_by_persistent b scope : Persistent (grouped_by b scope).
Proof. apply _. Qed.

Definition native_task (a : nat) (t : NativeTask) : iProp Σ :=
  match t with
  | RunAnchor _ _ pgid h c => ∃ i, ⌜pgid = launch_os_pid i⌝ ∗ holds h i (Some c)
  | RunWaiter _ _ h c _ _ => ∃ i, holds h i None ∗ speaks_of c i
  | _ => True
  end.

Abbreviation nowp a p Φ Ψ := (owp native_answer native_interp native_task a p Φ Ψ) (only parsing).

(** *** Steps *)

Lemma interp_ok D w : native_interp D w ⊢ ⌜exists m, ok m w⌝.
Proof. iIntros "(%m & _ & _ & %Hm)". by iExists m. Qed.

Lemma interp_holds D w h i kd : native_interp D w -∗ holds h i kd -∗ ⌜exists m, ok m w /\ m !! h = Some (Some i, kd)⌝.
Proof. iIntros "(%m & Ha & _ & %Hm) Hh". iDestruct (ghost_map_lookup with "Ha Hh") as %E. by iExists m. Qed.

Lemma interp_later D w w0 : native_interp D w -∗ seen w0 -∗ ⌜world_later w0 w⌝.
Proof.
  iIntros "(%m & _ & Hw & _) Hs". iDestruct (own_valid_2 with "Hw Hs") as %[Hi _]%auth_both_valid_discrete.
  iPureIntro. exact (proj1 (to_mra_included (R := world_later) _ _) Hi).
Qed.

Lemma grow_world w w' : world_later w w' -> own γw (● to_mra w) ==∗ own γw (● to_mra w') ∗ seen w'.
Proof.
  iIntros (Hl) "Hw". iMod (own_update with "Hw") as "[$ $]"; [|done].
  apply auth_update_alloc. by apply mra_local_update_grow.
Qed.

Lemma interp_stays D w w' : stays w w' -> native_interp D w ==∗ native_interp D w' ∗ seen w'.
Proof.
  iIntros (Hs) "(%m & Ha & Hw & %Hm)". destruct (Hs m Hm) as [Hm' Hl]. iMod (grow_world _ _ Hl with "Hw") as "[Hw $]".
  iModIntro. iExists m. by iFrame.
Qed.

(** A step that changes the entry of its handle. *)
Lemma interp_handle D w w' h v v' :
  (forall m, ok m w -> m !! h = Some v -> ok (<[h := v']> m) w' /\ world_later w w') ->
  h ↪[γh] v -∗ native_interp D w ==∗ native_interp D w' ∗ h ↪[γh] v' ∗ seen w'.
Proof.
  iIntros (Hs) "Hh (%m & Ha & Hw & %Hm)". iDestruct (ghost_map_lookup with "Ha Hh") as %E. destruct (Hs m Hm E) as [Hm' Hl].
  iMod (grow_world _ _ Hl with "Hw") as "[Hw $]". iMod (ghost_map_update v' with "Ha Hh") as "[Ha $]".
  iModIntro. iExists _. by iFrame.
Qed.

(** A step that makes a handle. *)
Lemma interp_new D w w' h v m :
  ok m w -> m !! h = None -> ok (<[h := v]> m) w' -> world_later w w' ->
  ghost_map_auth γh 1 m -∗ own γw (● to_mra w) ==∗ native_interp D w' ∗ h ↪[γh] v ∗ seen w'.
Proof.
  iIntros (Hm E Hm' Hl) "Ha Hw". iMod (grow_world _ _ Hl with "Hw") as "[Hw $]".
  iMod (ghost_map_insert h v with "Ha") as "[Ha $]"; [done|]. iModIntro. iExists _. by iFrame.
Qed.

Lemma owp_stays {X} a (f : NativeWorld -> NativeWorld * X) Ψ :
  (forall w, stays w (f w).1) -> ⊢ nowp a (act f) (fun x => ∃ w, seen (f w).1 ∗ ⌜x = (f w).2⌝) Ψ.
Proof.
  iIntros (Hf). iApply owp_act. iIntros (D w _) "Hs". iMod (interp_stays with "Hs") as "[$ #Hw]"; [apply Hf|].
  iModIntro. iExists w. by iFrame "Hw".
Qed.

Lemma owp_stays_modify a (f : NativeWorld -> NativeWorld) P Ψ :
  (forall w, stays w (f w)) -> P ⊢ nowp a (modify f) (fun _ => P) Ψ.
Proof.
  iIntros (Hf) "HP". iApply owp_modify. iIntros (D w _) "Hs". iMod (interp_stays with "Hs") as "[$ _]"; [apply Hf|].
  by iFrame.
Qed.

Lemma owp_call_any {X} a (q : NativePort X) P Ψ : P ⊢ nowp a (call q) (fun _ => P) Ψ.
Proof. iIntros "HP". iApply owp_call. iIntros (D w x _) "$". by iFrame. Qed.

Lemma owp_neutral {A} a (p : NProg A) : neutral p -> ⊢ nowp a p (fun _ => True) True.
Proof.
  intros Hp. iInduction p as [v|m|X f k|X q k|X e d k|t k] "IH" forall (Hp); cbn [owp calm] in *.
  - done.
  - done.
  - iIntros (D w _) "Hs". iDestruct (interp_ok with "Hs") as %[m Hm].
    iDestruct "Hs" as "(%m' & Ha & Hw & %Hm')". destruct (Hp m' w Hm') as (H1 & H2 & H3).
    iMod (grow_world _ _ H2 with "Hw") as "[Hw _]". iModIntro. iSplitL "Ha Hw"; [iExists m'; by iFrame|]. by iApply "IH".
  - iIntros (D w x _) "Hs". iModIntro. iFrame "Hs". iApply "IH". iPureIntro. apply Hp.
  - destruct Hp as [Hd Hp]. iSplit.
    + iIntros (D w _) "Hs". iMod (interp_stays with "Hs") as "[$ _]"; [apply Hd|done].
    + iIntros (D w w' x _ Hf) "Hs". destruct (Hp w w' x Hf) as [Hs Hk].
      iMod (interp_stays with "Hs") as "[$ _]"; [done|]. iModIntro. by iApply "IH".
  - destruct Hp as [Ht Hp]. iModIntro. iSplitR; [by destruct t|]. by iApply "IH".
Qed.

(** A first part that owns nothing. *)
Lemma owp_neutral_bind {A B} a (p : NProg A) (g : A -> NProg B) Φ :
  neutral p -> (∀ x, nowp a (g x) Φ True) ⊢ nowp a (bind p g) Φ True.
Proof.
  iIntros (Hp) "Hg". iApply (owp_seq with "[]"); [by iApply (owp_neutral a p Hp)|]. iSplit; [|by iIntros].
  iIntros (x) "_". by iApply "Hg".
Qed.

Lemma owp_call_bind {X B} a (q : NativePort X) (g : X -> NProg B) Φ Ψ :
  (∀ x, nowp a (g x) Φ Ψ) ⊢ nowp a (bind (call q) g) Φ Ψ.
Proof. iIntros "Hg". iApply owp_bind. iApply owp_call. iIntros (D w x _) "$". by iModIntro. Qed.

Lemma owp_never {X} a P (Φ : X -> iProp Σ) Ψ : (P ⊢ Ψ) -> P ⊢ nowp a (await (fun _ => None)) Φ Ψ.
Proof.
  iIntros (HP) "HP". iApply owp_wait. iSplit; [by iApply HP|]. iIntros (D w w' x _ Hf). by cbn in Hf.
Qed.

(** *** Spawns *)

Lemma has_cgroups_spec a Ψ : ⊢ nowp a (reads has_cgroups) (fun b => ⌜b = mode⌝) Ψ.
Proof.
  iApply owp_reads. iIntros (D w _) "Hs". iDestruct (interp_ok with "Hs") as %[m Hm]. iModIntro. iFrame "Hs".
  iPureIntro. apply Hm.
Qed.

Lemma spawn_anchor_spec a i Ψ :
  ⊢ nowp a (act (spawn_anchor here_group i))
      (fun r => match r with
                | Ok (h, c) => holds h i (Some c) ∗ ∃ w, seen w ∗ ⌜exists ch, nw_anchor_exits w !! c = Some ch /\ ac_instance ch = i⌝
                | Err _ => True
                end) Ψ.
Proof.
  iApply owp_act. iIntros (D w _) "(%m & Ha & Hw & %Hm)". destruct (spawn_anchor_ok here_group i w m Hm) as [Hl Hr].
  destruct (spawn_anchor here_group i w) as [w' [[h c]|text]]; cbn [fst snd] in *.
  - destruct Hr as (Hf & Hm' & Hc). iMod (interp_new with "Ha Hw") as "($ & $ & #Hw)"; [done..|].
    iModIntro. iExists w'. by iFrame "Hw".
  - iMod (grow_world with "Hw") as "[Hw _]"; [done|]. iModIntro. iSplit; [|done]. iExists m. by iFrame.
Qed.

Lemma new_anchor_spec a polls scope : mode = false -> ⊢ nowp a (new_anchor here_group polls scope) (fun _ => True) True.
Proof.
  iIntros (Hmode). unfold new_anchor. iApply owp_call_bind. iIntros (f1). destruct f1; [by iApply owp_ret|].
  iApply owp_call_bind. iIntros (f2). destruct f2; [by iApply owp_ret|].
  iApply owp_call_bind. iIntros (i).
  iApply owp_bind. iApply (owp_wand with "[]"); [iApply (spawn_anchor_spec a i True)|]. iSplit; [|by iIntros].
  iIntros ([[h c]|text]) "H"; iModIntro; [|by iApply owp_ret]. iDestruct "H" as "[Hh (%w0 & #Hw0 & %Hc)]".
  cbn [has_stdin anchor_command nc_input_piped negb].
  iApply owp_bind. iApply owp_fork. iSplitL "Hh"; [iExists i; by iFrame|].
  iApply owp_bind. iApply owp_modify. iIntros (D w _) "Hs". iDestruct (interp_later with "Hs Hw0") as %Hl.
  iMod (interp_stays with "Hs") as "[$ _]"; [|by iModIntro; iApply owp_ret].
  apply stays_insert_anchor; [done|]. destruct Hc as (ch & Ec & Ei). destruct (wl_anchors _ _ Hl c ch Ec) as (ch' & Ec' & Ei').
  exists ch'. split; [done|]. by rewrite Ei' Ei.
Qed.

Lemma ensure_anchor_spec a polls scope : ⊢ nowp a (ensure_anchor here_group polls scope) (fun _ => True) True.
Proof.
  unfold ensure_anchor. iApply owp_bind. iApply (owp_wand with "[]"); [iApply (has_cgroups_spec a True)|]. iSplit; [|by iIntros].
  iIntros (b) "->". iModIntro. destruct mode eqn:Emode; [by iApply owp_ret|].
  iApply owp_bind. iApply owp_act. iIntros (D w _) "(%m & Ha & Hw & %Hm)". destruct (check_anchor_ok scope w m Hm) as (Hm' & Hl & Hr).
  iMod (grow_world with "Hw") as "[Hw _]"; [exact Hl|]. iModIntro. iSplitL; [iExists m; by iFrame|].
  destruct (check_anchor scope w).2; [by iApply owp_ret..|by iApply new_anchor_spec|done].
Qed.

(** What the loop of [spawn] hands to the rest of it. *)
Definition spawn_result (scope : ProcessScopeId) (r : result (nat * KeptLaunch * bool) SpawnError) : iProp Σ :=
  match r with
  | Ok (h, i, new_group) => holds h i None ∗ grouped_by new_group scope
  | Err _ => True
  end.

Lemma spawn_section_spec a scope failed1 i1 failed2 i2 Ψ :
  ⊢ nowp a (act (spawn_section here_group scope failed1 i1 failed2 i2))
      (fun r => match r with SpawnedChild h i b => spawn_result scope (Ok (h, i, b)) | _ => True end) Ψ.
Proof.
  iApply owp_act. iIntros (D w _) "(%m & Ha & Hw & %Hm)".
  destruct (spawn_section_ok here_group scope failed1 i1 failed2 i2 w m Hm) as [Hl Hr].
  destruct (spawn_section here_group scope failed1 i1 failed2 i2 w) as [w' r]. cbn [fst snd] in *. unfold attempted in Hr.
  destruct r as [| |h i b|text]; cycle 2.
  { destruct Hr as (Hf & Hm' & Hb). iMod (interp_new with "Ha Hw") as "($ & $ & #Hw)"; [done..|]. iModIntro. iExists w'. by iFrame "Hw". }
  all: iMod (grow_world with "Hw") as "[Hw _]"; [done|]; iModIntro; iSplit; [|done]; iExists m; by iFrame.
Qed.

Lemma spawn_loop_spec a rounds polls scope spec : ⊢ nowp a (spawn_loop here_group rounds polls scope spec) (spawn_result scope) True.
Proof.
  iInduction rounds as [|rounds] "IH"; cbn [spawn_loop].
  all: iApply owp_bind; iApply (owp_wand with "[]"); [iApply ensure_anchor_spec|]; iSplit; [|by iIntros].
  all: iIntros ([[]|e]) "_"; iModIntro; [|by iApply owp_ret].
  all: do 4 (iApply owp_call_bind; iIntros (?)).
  all: iApply owp_bind; iApply (owp_wand with "[]"); [iApply (spawn_section_spec a scope _ _ _ _ True)|]; iSplit; [|by iIntros].
  all: iIntros ([| |h i b|text]) "H"; iModIntro; [by iApply owp_ret| |by iApply owp_ret|by iApply owp_ret].
  - by iApply (owp_never _ True).
  - iApply "IH".
Qed.

Lemma start_time_spec a h i Ψ :
  holds h i None -∗ nowp a (native_read_start_time (launch_os_pid i))
    (fun t => ⌜forall x, t = Some x -> x = launch_start_token i⌝ ∗ holds h i None) Ψ.
Proof.
  iIntros "Hh". unfold native_read_start_time. iApply owp_call_bind. iIntros (b). destruct b; cycle 1.
  { iApply owp_ret. by iFrame. }
  iApply owp_reads. iIntros (D w _) "Hs". iDestruct (interp_holds with "Hs Hh") as %(m & Hm & E). iModIntro. iFrame.
  iPureIntro. intros x Ex. rewrite (ours_start_time _ _ (owned_ours _ _ _ _ _ Hm E)) in Ex. congruence.
Qed.

Lemma open_pidfd_spec a h i Ψ :
  holds h i None -∗ nowp a (native_open_pidfd (launch_os_pid i)) (fun fd => ⌜forall j, fd = Some j -> j = i⌝ ∗ holds h i None) Ψ.
Proof.
  iIntros "Hh". unfold native_open_pidfd. iApply owp_call_bind. iIntros (b). destruct b; cycle 1.
  { iApply owp_ret. by iFrame. }
  iApply owp_reads. iIntros (D w _) "Hs". iDestruct (interp_holds with "Hs Hh") as %(m & Hm & E). iModIntro. iFrame.
  iPureIntro. intros j Ej. rewrite (ours_identity _ _ (owned_ours _ _ _ _ _ Hm E)) in Ej. congruence.
Qed.

Lemma expect_child_spec a h i Ψ : holds h i None -∗ nowp a (expect_child h) (fun _ => holds h i None) Ψ.
Proof.
  iIntros "Hh". unfold expect_child. iApply owp_bind. iApply owp_reads. iIntros (D w _) "Hs".
  iDestruct (interp_holds with "Hs Hh") as %(m & Hm & E). iModIntro. iFrame "Hs".
  unfold owns_child. rewrite (owned_handle _ _ _ _ _ Hm E). by iApply owp_ret.
Qed.

Lemma start_reader_spec a h i output stdout :
  holds h i None -∗ nowp a (start_reader h output stdout) (fun r => match r with Ok _ => holds h i None | Err _ => True end) True.
Proof.
  iIntros "Hh". unfold start_reader. iApply (owp_seq with "[Hh]"); [by iApply (expect_child_spec _ _ _ True%I with "Hh")|].
  iSplit; [|by iIntros]. iIntros ([]) "Hh". iApply owp_call_bind. iIntros (f). destruct f as [text|]; cycle 1.
  { iModIntro. iFrame. iModIntro. done. }
  iApply (owp_seq with "[Hh]"); [by iApply (expect_child_spec _ _ _ True%I with "Hh")|]. iSplit; [|by iIntros]. iIntros ([]) "Hh".
  iApply owp_call_bind. iIntros (refused). iApply owp_bind. iApply owp_modify. iIntros (D w _) "Hs".
  iMod (interp_handle with "Hh Hs") as "[$ _]"; [|by iModIntro; iApply owp_ret].
  intros m Hm E. by eapply kill_unregistered_ok.
Qed.

Lemma start_readers_spec a h i output :
  holds h i None -∗ nowp a (start_readers h output) (fun r => match r with Ok _ => holds h i None | Err _ => True end) True.
Proof.
  iIntros "Hh". unfold start_readers. destruct output as [output|]; [|by iApply owp_ret].
  iApply (owp_seq with "[Hh]"); [by iApply (start_reader_spec with "Hh")|]. iSplit; [|by iIntros].
  iIntros ([[]|e]) "Hh"; [by iApply start_reader_spec|by iApply owp_ret].
Qed.

Lemma register_child_spec a scope os new_group output pidfd h i Ψ :
  names_instance i (child_key os).1 (child_key os).2 -> (forall j, pidfd = Some j -> j = i) ->
  grouped_by new_group scope -∗ holds h i None -∗
  nowp a (act (register_child scope os new_group output pidfd i)) (fun r => holds h i None ∗ speaks_of r.1 i) Ψ.
Proof.
  iIntros (Hn Hp) "(%w0 & #Hw0 & %Hg) Hh". iApply owp_act. iIntros (D w _) "Hs". iDestruct (interp_later with "Hs Hw0") as %Hl0.
  iAssert (⌜forall m, ok m w -> ok m (register_child scope os new_group output pidfd i w).1 /\
      world_later w (register_child scope os new_group output pidfd i w).1 /\
      exists e, nw_exits (register_child scope os new_group output pidfd i w).1 !!
        (register_child scope os new_group output pidfd i w).2.1 = Some e /\ ec_instance e = i⌝)%I as %Hr.
  { iPureIntro. intros m Hm. by apply (register_child_ok scope os new_group output pidfd i w0 w m). }
  iDestruct "Hs" as "(%m & Ha & Hw & %Hm)". destruct (Hr m Hm) as (Hm' & Hl & He).
  iMod (grow_world with "Hw") as "[Hw #Hseen]"; [exact Hl|]. iModIntro. iSplitL "Ha Hw"; [iExists m; by iFrame|].
  iFrame "Hh". iExists _. by iFrame "Hseen".
Qed.

Lemma spawned_child_spec a polls scope spec h i new_group :
  holds h i None -∗ grouped_by new_group scope -∗ nowp a (spawned_child polls scope spec h i new_group) (fun _ => True) True.
Proof.
  iIntros "Hh #Hg". unfold spawned_child.
  iApply (owp_seq with "[Hh]"); [by iApply (start_time_spec a h i True with "Hh")|]. iSplit; [|by iIntros]. iIntros (token) "[%Ht Hh]".
  set (os := mkOsIdentity _ _).
  iApply (owp_seq with "[Hh]"); [by iApply (open_pidfd_spec a h i True with "Hh")|]. iSplit; [|by iIntros]. iIntros (pidfd) "[%Hp Hh]".
  iApply owp_neutral_bind.
  { apply neutral_act. intros w. apply stays_same. unfold new_output. destruct (spec_output spec); split; try done. cbn. lia. }
  iIntros (output). iApply (owp_seq with "[Hh]"); [by iApply (start_readers_spec with "Hh")|]. iSplit; [|by iIntros].
  iIntros ([[]|e]) "Hh"; [|by iApply owp_ret].
  iApply (owp_seq with "[Hh]").
  { iApply (register_child_spec a scope os new_group output pidfd h i True with "Hg Hh"); [|done]. subst os.
    split; [done|]. cbn. destruct token as [t|]; [|done]. intros _. symmetry. by apply Ht. }
  iSplit; [|by iIntros]. iIntros (channels) "[Hh Hc]". iApply owp_bind. iApply owp_fork. iSplitL; [iExists i; by iFrame|]. by iApply owp_ret.
Qed.

Lemma stays_unlock_mutex k w : stays w (unlock_mutex k w).
Proof. apply stays_same. by split. Qed.

Lemma backend_spawn_spec a rounds polls scope spec : ⊢ nowp a (backend_spawn here_group rounds polls scope spec) (fun _ => True) True.
Proof.
  unfold backend_spawn, spawn_locked. iApply owp_neutral_bind.
  { apply neutral_act. intros w. unfold scope_lock. destruct (st_locks (nw_state w) !! scope); apply stays_same; split; try done. cbn. lia. }
  iIntros (k). iApply owp_neutral_bind.
  { apply neutral_await. intros w w' [] Hf. unfold lock_mutex in Hf. destruct (nw_mutexes w !! k) as [[]|]; simplify_eq.
    apply stays_same. by split. }
  iIntros ([]). iApply (owp_seq native_answer native_interp native_task a _ _ (fun _ => True)%I True%I with "[]").
  - iApply owp_neutral_bind; [apply neutral_membership|]. iIntros (member).
    destruct member as [[]|text]; [|by iApply owp_ret].
    iApply (owp_seq with "[]"); [iApply spawn_loop_spec|]. iSplit; [|by iIntros].
    iIntros ([[[h i] b]|e]) "H"; [|by iApply owp_ret]. iDestruct "H" as "[Hh #Hg]". by iApply (spawned_child_spec with "Hh").
  - iSplit; [|by iIntros]. iIntros (r) "_". iApply owp_bind. iApply owp_stays_modify; [apply stays_unlock_mutex|by iModIntro].
Qed.

(** *** The task of an anchor *)

Lemma anchor_dropped_drops a scope h i c :
  holds h i (Some c) ⊢ drops native_interp a (anchor_dropped scope (launch_os_pid i) h c) True.
Proof.
  iIntros "Hh" (D w _) "Hs". iMod (interp_handle with "Hh Hs") as "[$ _]"; [|done]. intros m Hm E. by apply anchor_dropped_ok.
Qed.

Lemma poll_exit_spec a h i c failed Ψ :
  holds h i (Some c) -∗
  nowp a (act (poll_exit h c failed)) (fun r => ∃ b, ⌜r = Some b⌝ ∗ if b : bool then True else holds h i (Some c)) Ψ.
Proof.
  iIntros "Hh". iApply owp_act. iIntros (D w _) "(%m & Ha & Hw & %Hm)". iDestruct (ghost_map_lookup with "Ha Hh") as %E.
  destruct (poll_exit_ok m w h i c failed Hm E) as (b & Er & Hb). rewrite Er. destruct b.
  - destruct Hb as [Hm' Hl]. iMod (grow_world _ _ Hl with "Hw") as "[Hw _]". iMod (ghost_map_update with "Ha Hh") as "[Ha _]".
    iModIntro. iSplitL; [iExists _; by iFrame|]. by iExists true.
  - rewrite Hb. iModIntro. iSplitL "Ha Hw"; [iExists m; by iFrame|]. iExists false. by iFrame.
Qed.

Lemma anchor_loop_spec a polls scope h i c :
  holds h i (Some c) -∗ nowp a (anchor_loop polls h c) (fun _ => True) (drops native_interp a (anchor_dropped scope (launch_os_pid i) h c) True).
Proof.
  iIntros "Hh". iInduction polls as [|polls] "IH"; cbn [anchor_loop].
  all: iApply owp_call_bind; iIntros (failed).
  all: iApply (owp_seq with "[Hh]"); [by iApply (poll_exit_spec a h i c failed False with "Hh")|]; iSplit; [|by iIntros].
  all: iIntros (r) "(%b & -> & Hh)"; destruct b; [by iApply owp_ret|].
  all: iApply owp_bind; iApply owp_wait; iSplit; [by iApply anchor_dropped_drops|].
  all: iIntros (D w w' open _ ->) "$"; iModIntro; destruct open.
  2,4: iApply owp_modify; iIntros (D' w1 _) "Hs"; iMod (interp_handle with "Hh Hs") as "[$ _]"; [|done];
    intros m Hm E; by eapply publish_orphan_ok.
  - iApply (owp_never with "Hh"). apply anchor_dropped_drops.
  - by iApply "IH".
Qed.

Lemma anchor_task_spec a polls scope h i c :
  holds h i (Some c) -∗ nowp a (anchor_task polls scope (launch_os_pid i) h c) (fun _ => True) True.
Proof.
  iIntros "Hh". unfold anchor_task. iSplit; [by iApply anchor_dropped_drops|]. iIntros (D w w' x _ [= <- _]) "$". iModIntro.
  iApply owp_cancel_with. by iApply anchor_loop_spec.
Qed.

(** *** The task of a child *)

Lemma handle_dropped a h rt : handle_left h ⊢ drops native_interp a (fun w => close_retries rt (orphan_child h w)) True.
Proof.
  iIntros "(%o & Hh)" (D w _) "Hs".
  iMod (interp_handle D w (orphan_child h w) h (o, None) (None, None) with "Hh Hs") as "(Hs & _ & _)".
  { intros m Hm E. destruct o as [i|]; [by eapply orphan_child_ok|]. rewrite (orphan_child_released m w h None Hm E).
    by rewrite insert_id. }
  iMod (interp_stays with "Hs") as "[$ _]"; [|done]. apply stays_same. by split.
Qed.

Lemma holds_left h i : holds h i None ⊢ handle_left h.
Proof. iIntros "Hh". by iExists _. Qed.
Lemma let_go_left h : let_go h None ⊢ handle_left h.
Proof. iIntros "Hh". by iExists _. Qed.

Lemma try_wait_spec a h i failed Ψ :
  holds h i None -∗
  nowp a (act (try_wait h failed)) (fun r => ∃ t, ⌜r = Some t⌝ ∗
    match t with Ok (Some s) => let_go h None ∗ was_reaped i s | _ => holds h i None end) Ψ.
Proof.
  iIntros "Hh". iApply owp_act. iIntros (D w _) "(%m & Ha & Hw & %Hm)". iDestruct (ghost_map_lookup with "Ha Hh") as %E.
  destruct (try_wait_ok m w h i failed Hm E) as (t & Er & Ht). rewrite Er. destruct t as [[s|]|e].
  - destruct Ht as (Hm' & Hl & Hs). iMod (grow_world _ _ Hl with "Hw") as "[Hw #Hseen]". iMod (ghost_map_update with "Ha Hh") as "[Ha Hh]".
    iModIntro. iSplitL "Ha Hw"; [iExists _; by iFrame|]. iExists (Ok (Some s)). iFrame. iSplit; [done|]. iExists _. by iFrame "Hseen".
  - rewrite Ht. iModIntro. iSplitL "Ha Hw"; [iExists m; by iFrame|]. iExists (Ok None). by iFrame.
  - rewrite Ht. iModIntro. iSplitL "Ha Hw"; [iExists m; by iFrame|]. iExists (Err e). by iFrame.
Qed.

Lemma wait_os_child_spec a polls h i :
  holds h i None -∗
  nowp a (wait_os_child polls h)
    (fun r => match r with Ok s => let_go h None ∗ was_reaped i s | Err _ => holds h i None end) (handle_left h).
Proof.
  iIntros "Hh". iInduction polls as [|polls] "IH"; cbn [wait_os_child].
  all: iApply owp_call_bind; iIntros (failed).
  all: iApply (owp_seq with "[Hh]"); [by iApply (try_wait_spec a h i failed False with "Hh")|]; iSplit; [|by iIntros].
  all: iIntros (r) "(%t & -> & Hh)"; destruct t as [[s|]|e]; [by iApply owp_ret| |by iApply owp_ret].
  all: iApply owp_bind; iApply owp_wait; iSplit; [by iApply holds_left|].
  all: iIntros (D w w' open _ ->) "$"; iModIntro; destruct open; [|by iApply owp_ret].
  - iApply (owp_never with "Hh"). apply holds_left.
  - by iApply "IH".
Qed.

(** A result that may be sent on the channel of [i]. *)
Definition sendable (i : KeptLaunch) (raw : result RawExit string) : iProp Σ :=
  match raw with Ok x => ∃ s, was_reaped i s ∗ ⌜x = exit_code s⌝ | Err _ => True end.

Lemma publish_wait_result_spec a scope c i raw P Ψ :
  speaks_of c i -∗ sendable i raw -∗ P -∗ nowp a (publish_wait_result scope c raw) (fun _ => P) Ψ.
Proof.
  iIntros "(%w1 & #Hw1 & %Hc) Hr HP". unfold publish_wait_result. iApply owp_bind. iApply owp_modify. iIntros (D w _) "Hs".
  iMod (interp_stays with "Hs") as "[$ _]"; [apply stays_publish_wait_state|]. iModIntro.
  iApply owp_modify. iIntros (D' w' _) "Hs". iDestruct (interp_later with "Hs Hw1") as %Hl1.
  iAssert (⌜forall x, raw = Ok x -> exists s, nh_reaped (nw_history w') !! i = Some s /\ x = exit_code s⌝)%I as %Hx.
  { destruct raw as [x|]; [|by iPureIntro]. iDestruct "Hr" as "(%s & (%w2 & #Hw2 & %Hs) & ->)".
    iDestruct (interp_later with "Hs Hw2") as %Hl2. iPureIntro. intros x' [= <-]. exists s. split; [|done]. by apply (wl_reaped _ _ Hl2). }
  iMod (interp_stays with "Hs") as "[$ _]"; [|by iFrame]. apply stays_send_exit. intros e x Ee Er.
  destruct Hc as (e0 & Ee0 & Ei). destruct (wl_exits _ _ Hl1 c e0 Ee0) as (e' & Ee' & Ei'). rewrite Ee in Ee'. injection Ee' as <-.
  rewrite Ei' Ei. by apply Hx.
Qed.

Lemma waiter_round_spec a polls scope h c rt i :
  speaks_of c i -∗ holds h i None -∗
  nowp a (waiter_round polls scope h c rt) (fun again => if again : bool then holds h i None else handle_left h) (handle_left h).
Proof.
  iIntros "#Hc Hh". unfold waiter_round.
  iApply (owp_seq with "[Hh]"); [by iApply (wait_os_child_spec with "Hh")|]. iSplit; [|by iIntros "$"].
  iIntros ([s|[text echild]]) "Hh".
  - iDestruct "Hh" as "[Hh #Hs]". iApply owp_bind.
    iApply (owp_mono with "[Hh]"); [|iApply (publish_wait_result_spec with "Hc [] Hh"); by iExists s; iFrame "Hs"].
    iIntros (u) "Hh". iApply owp_ret. by iApply let_go_left.
  - destruct echild; iApply owp_bind.
    + iApply owp_modify. iIntros (D w _) "Hs". iMod (interp_handle D w (disown_child h w) h with "Hh Hs") as "($ & Hh & _)".
      { intros m Hm E. by eapply disown_child_ok. }
      iModIntro. iApply owp_bind. iApply (owp_mono with "[Hh]"); [|by iApply (publish_wait_result_spec with "Hc [] Hh")].
      iIntros (u) "Hh". iApply owp_ret. by iApply let_go_left.
    + iApply owp_ret. iApply owp_bind. iApply (owp_mono with "[Hh]"); [|by iApply (publish_wait_result_spec with "Hc [] Hh")].
      iIntros (u) "Hh". iApply owp_wait. iSplit; [by iApply holds_left|]. iIntros (D w w' again _ Hf) "Hs".
      iMod (interp_stays with "Hs") as "[$ _]"; cycle 1.
      { iModIntro. destruct again; [done|by iApply holds_left]. }
      cbn in Hf. unfold recv_retry in Hf. apply stays_same. destruct (nw_retries w !! rt) as [[[] [] ?]|]; simplify_eq; by split.
Qed.

Lemma waiter_loop_spec a rounds polls scope h c rt i :
  speaks_of c i -∗ holds h i None -∗
  nowp a (waiter_loop rounds polls scope h c rt) (fun _ => handle_left h) (handle_left h).
Proof.
  iIntros "#Hc Hh". iInduction rounds as [|rounds] "IH"; cbn [waiter_loop].
  all: iApply (owp_seq with "[Hh]"); [by iApply (waiter_round_spec with "Hc Hh")|]; iSplit; [|by iIntros "$"].
  all: iIntros (again) "Hh"; destruct again; [|by iApply owp_ret].
  - iApply (owp_never with "Hh"). apply holds_left.
  - by iApply "IH".
Qed.

Lemma waiter_task_spec a polls scope h c rt output i :
  speaks_of c i -∗ holds h i None -∗ nowp a (waiter_task polls scope h c rt output) (fun _ => True) True.
Proof.
  iIntros "#Hc Hh". unfold waiter_task. iApply owp_guarded.
  iApply (owp_wand _ _ _ _ _ (fun _ => handle_left h) _ (handle_left h) with "[Hh]"); cycle 1.
  { iSplit; [iIntros (u)|]; iIntros "Hh"; iModIntro; by iApply handle_dropped. }
  iSplit; [iIntros (D w _) "$"; iModIntro; by iApply holds_left|]. iIntros (D w w' x _ [= <- _]) "$". iModIntro.
  iApply (owp_seq with "[Hh]"); [by iApply (waiter_loop_spec with "Hc Hh")|]. iSplit; [|by iIntros "$"].
  iIntros ([]) "Hh". destruct output as [output|]; [|by iApply owp_ret].
  iApply owp_wait. iSplit; [done|]. iIntros (D' w1 w2 u _ ->) "$". by iFrame.
Qed.

Lemma native_body_spec a t : native_task a t ⊢ nowp a (native_body t) (fun _ => True) True.
Proof.
  destruct t as [polls scope pgid h c|polls scope h c rt output|output stdout|j flag target]; cbn [native_task native_body].
  - iIntros "(%i & -> & Hh)". by iApply anchor_task_spec.
  - iIntros "(%i & Hh & #Hc)". by iApply (waiter_task_spec with "Hc Hh").
  - iIntros "_". iApply owp_neutral. apply neutral_ask.
  - iIntros "_". iApply owp_neutral. apply neutral_sample_task.
Qed.

(** *** [wait] *)

Lemma backend_wait_spec a target : ⊢ nowp a (backend_wait target) (fun _ => True) True.
Proof.
  unfold backend_wait. set (os := spawned_os target).
  iApply (owp_seq _ _ _ a _ _ (fun r => match r with
      | Some (c, _) => ∃ i, speaks_of c i ∗ ⌜names_instance i (child_key os).1 (child_key os).2⌝
      | None => True end)%I True%I with "[]").
  { iApply owp_act. iIntros (D w _) "Hs". iDestruct (interp_ok with "Hs") as %[m Hm]. unfold wait_subscribe.
    destruct (st_children (nw_state w) !! child_key os) as [slot|] eqn:E; cbn [fst snd]; [|by iFrame].
    iMod (interp_stays D w w with "Hs") as "[$ #Hw]"; [apply stays_refl|]. iModIntro.
    destruct (nk_slots _ _ _ Hm _ _ E) as (e & Ee & Hn & _). iExists (ec_instance e). iSplit; [|done]. iExists w. iFrame "Hw". eauto. }
  iSplit; [|by iIntros]. iIntros ([[c rt]|]) "H"; [|by iApply owp_ret]. iDestruct "H" as "(%i & #Hc & %Hn)".
  iApply owp_neutral_bind; [apply neutral_reads|]. iIntros (looked).
  iApply owp_neutral_bind.
  { destruct (wait_failed looked.1); [|done]. apply neutral_act. intros w. apply stays_queue_retry. }
  iIntros (retried). iApply owp_neutral_bind.
  { destruct retried; [|done]. apply neutral_await. intros w w' x Hf. unfold exit_after in Hf.
    destruct (_ <? _)%nat; simplify_eq. apply stays_refl. }
  iIntros ([]). iApply owp_bind. iApply owp_wait. iSplit; [done|]. iIntros (D w w' exit _ Hf) "Hs".
  cbn in Hf. unfold exit_seen, exit_of in Hf. destruct (nw_exits w !! c) as [e|] eqn:Ee; [|done]. cbn in Hf.
  destruct (ec_value e) as [v|] eqn:Ev; [|done]. cbn in Hf. injection Hf as <- <-.
  iDestruct (interp_ok with "Hs") as %[m Hm]. iDestruct "Hc" as "(%w1 & #Hw1 & %Hc)". iDestruct (interp_later with "Hs Hw1") as %Hl1.
  iMod (interp_stays D w w with "Hs") as "[$ #Hw]"; [apply stays_refl|]. iModIntro. destruct v as [raw|text]; [|by iApply owp_ret].
  assert (Hr : exists s, nh_reaped (nw_history w) !! i = Some s /\ raw = exit_code s).
  { destruct Hc as (e0 & Ee0 & <-). destruct (wl_exits _ _ Hl1 c e0 Ee0) as (e' & Ee' & <-). rewrite Ee in Ee'. injection Ee' as <-.
    exact (nk_exits _ _ _ Hm c e raw Ee Ev). }
  iApply owp_bind. iApply owp_modify. iIntros (D' w2 _) "Hs". iDestruct (interp_later with "Hs Hw") as %Hl2.
  iMod (interp_stays with "Hs") as "[$ _]"; [|by iModIntro; iApply owp_ret].
  eapply stays_trans; [apply stays_forget_child|]. apply stays_log_wait. destruct Hr as (s & Es & ->). exists i, s.
  split_and!; [exact Hn| |done]. apply (wl_reaped _ _ Hl2) in Es. unfold forget_child, drop_slot.
  by destruct (st_children (nw_state w2) !! child_key os).
Qed.

Lemma native_api_spec a p : native_api a p -> ⊢ nowp a p (fun _ => True) True.
Proof.
  intros Hp. destruct Hp as [rounds polls scope spec|target|target signal|scope signal|scope| |scope|target|scope|e].
  - iApply (owp_seq with "[]"); [iApply backend_spawn_spec|]. iSplit; iIntros; [by iApply owp_ret|done].
  - iApply (owp_seq with "[]"); [iApply backend_wait_spec|]. iSplit; iIntros; [by iApply owp_ret|done].
  - iApply owp_neutral. neutral_step; [apply neutral_signal|done].
  - iApply owp_neutral. neutral_step; [apply neutral_signal_scope|done].
  - iApply owp_neutral. apply neutral_hard_kill_scope.
  - iApply owp_neutral. apply neutral_hard_kill_all.
  - iApply owp_neutral. neutral_step; [apply neutral_cleanup|done].
  - iApply owp_neutral. neutral_step; [apply neutral_sample|done].
  - iApply owp_neutral. neutral_step; [apply neutral_scope_usage|done].
  - iApply owp_neutral. apply neutral_modify. intros w. apply stays_outside.
Qed.

Lemma native_die D w (a : nat) : native_interp D w ==∗ native_interp ({[a]} ∪ D) (id w).
Proof. by iIntros "$". Qed.
End Logic.
End Safe.
