(* ===== verification/NativeTheorems.v ===== *)
(** * NativeTheorems: properties of the Unix backend

    Every world that callers of the backend, its tasks, the kernel and the other processes of the
    machine reach satisfies [native_ok]; what follows from it for groups, pidfds and
    exits, and runs on which it is seen. *)

From iris.algebra Require Import auth mra.
From iris.proofmode Require Import proofmode.
From iris.base_logic.lib Require Import ghost_map own.
From stdpp Require Import base list relations gmap strings.
From S2P Require Import Prelude StdModel Values Observation Usage KeptDomain Ports Conc Ownership KeptState KeptStore Display Unix KeptUnix Procfs Native NativeInv NativeSteps NativeOwners NativeSafe.

Open Scope Z_scope.
Open Scope prog_scope.

(** The ghost state of the proofs. *)
Class nativeG (Σ : gFunctors) : Set := {
  #[global] nativeG_handles :: ghost_mapG Σ nat (option KeptLaunch * option nat);
  #[global] nativeG_seen :: inG Σ (authR (mraUR world_later));
}.
Definition nativeΣ : gFunctors := #[ghost_mapΣ nat (option KeptLaunch * option nat); GFunctor (authR (mraUR world_later))].

#[global] Instance subG_nativeΣ Σ : subG nativeΣ Σ -> nativeG Σ.
Proof. solve_inG. Qed.

Section Reachable.
Context (nix_try_from : Z -> result Z string) (here_group : Z) (k : Kernel) (cgroups : option (gmap ProcessScopeId PathBuf)).

Definition native_reachable (c : config) : Prop :=
  rtc (pstep native_answer (fun _ => native_body) (fun _ => id) (native_api nix_try_from here_group))
    (mkConfig ∅ (native_new k cgroups) []) c.

Lemma native_new_ok : kernel_wf k -> native_ok (has_cgroups (native_new k cgroups)) ∅ (native_new k cgroups).
Proof.
  intros Hk. split; cbn; try done.
  - by intros h i [?|?].
  - by intros h1 h2 i [?|?].
  - by intros s [? ?].
  - by intros i [? ?].
  - intros s b Hin. by apply elem_of_nil in Hin.
  - intros os i Hin. by apply elem_of_nil in Hin.
  - intros os raw Hin. by apply elem_of_nil in Hin.
Qed.

Lemma native_pool : kernel_wf k -> ⊢ |==> ∃ γh γw : gname,
  pool_res native_answer (Σ := nativeΣ) (native_interp (has_cgroups (native_new k cgroups)) γh γw) (native_task γh γw)
    (mkConfig (T := NativeTask) (Q := NativePort) ∅ (native_new k cgroups) []).
Proof.
  iIntros (Hk). iMod (ghost_map_alloc_empty (K := nat) (V := option KeptLaunch * option nat)) as (γh) "Ha".
  iMod (own_alloc (● to_mra (native_new k cgroups) : authR (mraUR world_later))) as (γw) "Hw"; [by apply auth_auth_valid|].
  iModIntro. iExists γh, γw. iSplitL; [|done]. iExists ∅. iFrame. iPureIntro. by apply native_new_ok.
Qed.

Lemma native_world_ok c : kernel_wf k -> native_reachable c ->
  exists m, native_ok (has_cgroups (native_new k cgroups)) m (c_state c).
Proof.
  intros Hk Hr.
  apply (pure_soundness (PROP := iPropI nativeΣ)), (uPred.bupd_soundness (M := iResUR nativeΣ)); [apply _|].
  iMod (native_pool Hk) as (γh γw) "Hp".
  iApply (owp_adequate native_answer (fun _ => native_body) (fun _ => id) _ (native_task γh γw) (native_api nix_try_from here_group)
    (native_api_spec nix_try_from here_group _ γh γw) (native_body_spec _ γh γw) (native_die _ γh γw)
    (fun _ w => exists m, native_ok (has_cgroups (native_new k cgroups)) m w) _ c); [..|exact Hr|done|iExact "Hp"].
  intros D w. apply interp_ok.
Qed.



(** A signal that [signal] sends by pidfd reaches the child that its target names: the process of
    that number and that start time, whoever has the number now. *)
Theorem pidfd_signals_reach_target c os i :
  kernel_wf k -> native_reachable c -> (os, i) ∈ nh_signals (nw_history (c_state c)) ->
  launch_os_pid i = os_pid os /\ (forall t, reuse_token os = StartTime t -> t <> 0 -> launch_start_token i = t).
Proof.
  intros Hk Hr Hin. destruct (native_world_ok c Hk Hr) as [m Hm]. destruct (nk_signals _ _ _ Hm os i Hin) as [Hp Ht].
  split; [done|]. intros t Et Hne. cbn in Ht. rewrite Et in Ht. by apply Ht.
Qed.

End Reachable.

(** ** Runs *)

Section Runs.
Definition native_kernel : Kernel :=
  mkKernel {[1000 := mkUnixProcess 1 Elsewhere 1000 None]} {[mkKeptLaunch 1000 1]} "boot" [].

Lemma native_kernel_wf : kernel_wf native_kernel.
Proof. intros p pr. cbn. rewrite lookup_singleton_Some. intros [<- <-]. split; [set_solver|done]. Qed.

(** Every call succeeds; numbers are given out in order; a SIGCHLD arrives while there is a zombie. *)
Definition native_oracle (w : NativeWorld) (X : Type) (q : NativePort X) : option X :=
  match q in NativePort X return option X with
  | NvFails => Some None
  | NvForks _ => Some (mkKeptLaunch (2000 + Z.of_nat (size (k_used (nw_kernel w)))) 77)
  | NvWaitFails => Some None
  | NvSigchld => if existsb (fun e => exited e.2) (map_to_list (k_table (nw_kernel w))) then Some true else None
  | NvReadable _ => Some true
  | NvReadables => Some (fun _ => true)
  | NvRefusals => Some (fun _ => None)
  | NvPidfdOpens _ => Some true
  | NvText _ => Some (Err EmptyString)
  | NvClockTick => Some (Ok (Some 100))
  | NvNow => Some 0
  | NvSleep _ => None
  | NvBlockingRefused => Some EmptyString
  | NvDrained _ _ => Some tt
  | NvReadersFinished _ => Some tt
  | NvAccounting _ => Some (Err EmptyString)
  end.

Definition native_try_from (raw : Z) : result Z string := if (1 <=? raw) && (raw <=? 31) then Ok raw else Err "EINVAL".

Abbreviation turns := (list (turn (S := NativeWorld) (Q := NativePort) (T := NativeTask))).

Definition native_run (cgroups : option (gmap ProcessScopeId PathBuf)) (ts : turns) : config :=
  take_turns native_answer (fun _ => native_body) (fun _ => id) native_oracle 200 ts (mkConfig ∅ (native_new native_kernel cgroups) []).

Lemma native_run_reachable cgroups ts :
  Forall (enters (native_api native_try_from 1000)) ts -> native_reachable native_try_from 1000 native_kernel cgroups (native_run cgroups ts).
Proof. apply take_turns_reachable. Qed.

Definition demo_scope : ProcessScopeId := 1%N.
Definition demo_launched : KeptLaunch := mkKeptLaunch 2002 77.
Definition demo_os : OsIdentity := mkOsIdentity 2002 (StartTime 77).

(** A child is spawned in a new scope, is signalled, exits, and is waited for; then its scope is signalled. *)
Definition demo_life : turns :=
  [Enter 0 (backend_spawn 1000 2 2 demo_scope (spec_new "sleep") ;;; Ret tt); Go 0; Go 1; Go 2;
   Enter 0 (backend_signal native_try_from (mkSpawned demo_os) Interrupt ;;; Ret tt); Go 3;
   Enter 0 (modify (native_outside (NativeOutsideEvent (OsExit demo_launched (WExited 3))))); Go 4; Go 2;
   Enter 0 (backend_wait (mkSpawned demo_os) ;;; Ret tt); Go 5;
   Enter 0 (backend_signal_scope native_try_from demo_scope Interrupt ;;; Ret tt); Go 6]%nat.

Lemma demo_life_reachable : native_reachable native_try_from 1000 native_kernel None (native_run None demo_life).
Proof. apply native_run_reachable. repeat constructor. Qed.



Lemma pidfd_signals_reach_target_witness :
  exists c : config, native_reachable native_try_from 1000 native_kernel None c /\
    nh_signals (nw_history (c_state c)) = [(demo_os, demo_launched)] /\
    launch_os_pid demo_launched = os_pid demo_os /\ (forall t, reuse_token demo_os = StartTime t -> t <> 0 -> launch_start_token demo_launched = t).
Proof.
  exists (native_run None demo_life). split; [apply demo_life_reachable|].
  assert (E : nh_signals (nw_history (c_state (native_run None demo_life))) = [(demo_os, demo_launched)]) by (by vm_compute).
  split; [exact E|].
  apply (pidfd_signals_reach_target native_try_from 1000 native_kernel None _ demo_os demo_launched native_kernel_wf demo_life_reachable).
  rewrite E. apply list_elem_of_here.
Defined.


(** With the cgroup adapter there is no anchor: once the child that founded the group is reaped, its
    number may belong to another process, and [signal_scope] signals that one. *)
Definition foreign : KeptLaunch := mkKeptLaunch 2001 99.
Definition demo_reuse : turns :=
  [Enter 0 (backend_spawn 1000 2 2 demo_scope (spec_new "sleep") ;;; Ret tt); Go 0; Go 1;
   Enter 0 (modify (native_outside (NativeOutsideEvent (OsExit (mkKeptLaunch 2001 77) (WExited 0))))); Go 2; Go 1;
   Enter 0 (modify (native_outside (NativeOutsideEvent (OsFork foreign Elsewhere 1000)))); Go 3;
   Enter 0 (modify (native_outside (NativeOutsideEvent (OsFound foreign)))); Go 4;
   Enter 0 (backend_signal_scope native_try_from demo_scope Term ;;; Ret tt); Go 5]%nat.

Lemma cgroup_scope_signals_recycled_group :
  let c := native_run (Some ∅) demo_reuse in
  native_reachable native_try_from 1000 native_kernel (Some ∅) c /\
  k_sent (nw_kernel (c_state c)) = [SentGroup 2001 15 [foreign]] /\
  nh_uses (nw_history (c_state c)) = [(demo_scope, false)] /\ nh_overlapped (nw_history (c_state c)) = ∅.
Proof. intros c. split; [apply native_run_reachable; repeat constructor|]. split_and!; by vm_compute. Qed.
End Runs.
