(* ===== verification/Windows.v ===== *)
(** * Windows: the Job Object backend

    shepherd-infra/src/backend/windows.rs, over a Windows kernel as this process sees it: process
    objects with recycled numbers, jobs, and handles. A critical section under the mutex of
    the state is one step, but that of [wait], which is several: the waiters send without the mutex.
    The answers of the system calls that may fail in a section are asked for before it. The readers of captured output are those of [Output], and the pool of samples that
    of [Native]; here they are questions. The backend lives as long as its tasks. *)

From stdpp Require Import base list gmap strings.
From S2P Require Import Prelude StdModel Values Observation Usage Ports Conc KeptUnix Procfs Native.

Open Scope Z_scope.
Open Scope prog_scope.

(** ** The kernel *)

(** A process object: its number, its creation time, its job, whether its first thread was not resumed
    yet, the exit code of a termination that is under way, its exit code, and whether the
    object is gone. *)
Record WinProcess : Type := mkWinProcess {
  wp_pid : Z;
  wp_created : Z;
  wp_job : option nat;
  wp_suspended : bool;
  wp_doomed : option Z;
  wp_exit : option Z;
  wp_gone : bool;
}.
Definition wp_assign (j : nat) (p : WinProcess) : WinProcess :=
  mkWinProcess (wp_pid p) (wp_created p) (Some j) (wp_suspended p) (wp_doomed p) (wp_exit p) (wp_gone p).
Definition wp_resume (p : WinProcess) : WinProcess :=
  mkWinProcess (wp_pid p) (wp_created p) (wp_job p) false (wp_doomed p) (wp_exit p) (wp_gone p).
(** The first termination of a process that runs decides. *)
Definition wp_terminate (code : Z) (p : WinProcess) : WinProcess :=
  match wp_exit p, wp_doomed p with
  | None, None => mkWinProcess (wp_pid p) (wp_created p) (wp_job p) (wp_suspended p) (Some code) None (wp_gone p)
  | _, _ => p
  end.
Definition wp_ended (code : Z) (p : WinProcess) : WinProcess :=
  mkWinProcess (wp_pid p) (wp_created p) (wp_job p) (wp_suspended p) (wp_doomed p) (Some code) (wp_gone p).
Definition wp_freed (p : WinProcess) : WinProcess :=
  mkWinProcess (wp_pid p) (wp_created p) (wp_job p) (wp_suspended p) (wp_doomed p) (wp_exit p) true.

(** A number, and which object it names, is in use as long as the object exists. *)
Definition at_number (pid : Z) (ps : gmap nat WinProcess) : option (nat * WinProcess) :=
  head (filter (fun e => (wp_pid e.2 =? pid) && negb (wp_gone e.2) = true) (map_to_list ps)).

Definition in_job (j : nat) (p : WinProcess) : bool := bool_decide (wp_job p = Some j).
Definition wp_running (p : WinProcess) : bool := match wp_exit p with None => true | Some _ => false end.

(** [TerminateJobObject], and the close of a job that kills its processes. *)
Definition terminate_job (j : nat) (code : Z) (ps : gmap nat WinProcess) : gmap nat WinProcess :=
  fmap (fun p => if in_job j p then wp_terminate code p else p) ps.
(** [ActiveProcesses]. *)
Definition active_processes (j : nat) (ps : gmap nat WinProcess) : list (nat * WinProcess) :=
  filter (fun e => in_job j e.2 && wp_running e.2 = true) (map_to_list ps).

Definition STILL_ACTIVE : Z := 259.
Definition KILLED : Z := 3758096385.
(** [u32 as i32]. *)
Definition i32_of_u32 (z : Z) : Z := if z <? 2 ^ 31 then z else z - 2 ^ 32.

(** ** State *)

Abbreviation WinKey := (Z * Z)%type (only parsing).
Definition win_key (os : OsIdentity) : WinKey :=
  (os_pid os, match reuse_token os with StartTime t => t | TokenUnavailable => 0 end).

(** A process handle is the object it names; channels and flags are numbers. *)
Record WinSlot : Type := mkWinSlot {
  ws_scope : ProcessScopeId;
  ws_process : nat;
  ws_exit : nat;
  ws_retry : nat;
  ws_output : option ProcessOutput;
  ws_killed : nat;
  ws_previous : option (Instant * Z);
}.
Definition set_previous (x : option (Instant * Z)) (s : WinSlot) : WinSlot :=
  mkWinSlot (ws_scope s) (ws_process s) (ws_exit s) (ws_retry s) (ws_output s) (ws_killed s) x.

(** The watch channel of an exit: its value, how many values were sent, and whether the waiter has its
    sender still. History: the object it speaks of, and its flag. *)
Record WinExitChannel : Type := mkWinExitChannel {
  we_value : option (result RawExit string);
  we_version : nat;
  we_task : bool;
  we_object : nat;
  we_flag : nat;
}.

(** What [wait] returned, of which object; for each cleanup that succeeded, the scope and every process that was
    ever in a job of it; the processes that a spawn created, with their scopes. *)
Record WinHistory : Type := mkWinHistory {
  wh_waits : list (OsIdentity * nat * RawExit);
  wh_cleaned : list (ProcessScopeId * list nat);
  wh_spawned : gmap nat ProcessScopeId;
  wh_job_scopes : gmap nat ProcessScopeId;
}.

(** [ww_children]: the objects that a [tokio::process::Child] holds a handle of. *)
Record WinWorld : Type := mkWinWorld {
  ww_procs : gmap nat WinProcess;
  ww_children : gmap nat nat;
  ww_jobs : gmap ProcessScopeId nat;
  ww_slots : gmap WinKey WinSlot;
  ww_exits : gmap nat WinExitChannel;
  ww_retries : gmap nat RetryChannel;
  ww_killed : gmap nat bool;
  ww_next : nat;
  ww_history : WinHistory;
}.
Definition set_wprocs (x : gmap nat WinProcess) (w : WinWorld) : WinWorld :=
  mkWinWorld x (ww_children w) (ww_jobs w) (ww_slots w) (ww_exits w) (ww_retries w) (ww_killed w) (ww_next w) (ww_history w).
Definition set_wchildren (x : gmap nat nat) (w : WinWorld) : WinWorld :=
  mkWinWorld (ww_procs w) x (ww_jobs w) (ww_slots w) (ww_exits w) (ww_retries w) (ww_killed w) (ww_next w) (ww_history w).
Definition set_jobs (x : gmap ProcessScopeId nat) (w : WinWorld) : WinWorld :=
  mkWinWorld (ww_procs w) (ww_children w) x (ww_slots w) (ww_exits w) (ww_retries w) (ww_killed w) (ww_next w) (ww_history w).
Definition set_slots (x : gmap WinKey WinSlot) (w : WinWorld) : WinWorld :=
  mkWinWorld (ww_procs w) (ww_children w) (ww_jobs w) x (ww_exits w) (ww_retries w) (ww_killed w) (ww_next w) (ww_history w).
Definition set_wexits (x : gmap nat WinExitChannel) (w : WinWorld) : WinWorld :=
  mkWinWorld (ww_procs w) (ww_children w) (ww_jobs w) (ww_slots w) x (ww_retries w) (ww_killed w) (ww_next w) (ww_history w).
Definition set_wretries (x : gmap nat RetryChannel) (w : WinWorld) : WinWorld :=
  mkWinWorld (ww_procs w) (ww_children w) (ww_jobs w) (ww_slots w) (ww_exits w) x (ww_killed w) (ww_next w) (ww_history w).
Definition set_wkilled (x : gmap nat bool) (w : WinWorld) : WinWorld :=
  mkWinWorld (ww_procs w) (ww_children w) (ww_jobs w) (ww_slots w) (ww_exits w) (ww_retries w) x (ww_next w) (ww_history w).
Definition set_wnext (x : nat) (w : WinWorld) : WinWorld :=
  mkWinWorld (ww_procs w) (ww_children w) (ww_jobs w) (ww_slots w) (ww_exits w) (ww_retries w) (ww_killed w) x (ww_history w).
Definition set_whistory (x : WinHistory) (w : WinWorld) : WinWorld :=
  mkWinWorld (ww_procs w) (ww_children w) (ww_jobs w) (ww_slots w) (ww_exits w) (ww_retries w) (ww_killed w) (ww_next w) x.

Definition wbump (w : WinWorld) : WinWorld := set_wnext (S (ww_next w)) w.
Definition job_scope (w : WinWorld) (j : nat) : option ProcessScopeId := wh_job_scopes (ww_history w) !! j.
(** The scope in whose job a process is. *)
Definition process_scope (w : WinWorld) (p : WinProcess) : option ProcessScopeId := j ← wp_job p; job_scope w j.
Definition scope_members (scope : ProcessScopeId) (w : WinWorld) : list nat :=
  (filter (fun e => bool_decide (process_scope w e.2 = Some scope) = true) (map_to_list (ww_procs w))).*1.

Definition wlog_wait (os : OsIdentity) (o : nat) (e : RawExit) (w : WinWorld) : WinWorld :=
  let h := ww_history w in
  set_whistory (mkWinHistory (wh_waits h ++ [(os, o, e)]) (wh_cleaned h) (wh_spawned h) (wh_job_scopes h)) w.
Definition wlog_cleaned (scope : ProcessScopeId) (w : WinWorld) : WinWorld :=
  let h := ww_history w in
  set_whistory (mkWinHistory (wh_waits h) (wh_cleaned h ++ [(scope, scope_members scope w)]) (wh_spawned h) (wh_job_scopes h)) w.
Definition wlog_spawned (o : nat) (scope : ProcessScopeId) (w : WinWorld) : WinWorld :=
  let h := ww_history w in
  set_whistory (mkWinHistory (wh_waits h) (wh_cleaned h) (<[o := scope]> (wh_spawned h)) (wh_job_scopes h)) w.
Definition wlog_job (j : nat) (scope : ProcessScopeId) (w : WinWorld) : WinWorld :=
  let h := ww_history w in
  set_whistory (mkWinHistory (wh_waits h) (wh_cleaned h) (wh_spawned h) (<[j := scope]> (wh_job_scopes h))) w.

(** ** Questions and tasks *)

Record WinAccounting : Type := mkWinAccounting {
  wa_user_time : Z;
  wa_kernel_time : Z;
  wa_peak_job_memory : Z;
  wa_read : Z;
  wa_write : Z;
  wa_active : Z;
}.

Inductive WinPort : Type -> Type :=
(** Does this call fail? With which text? *)
| WnFails : WinPort (option string)
(** The number and the creation time of the process that a command creates. *)
| WnCreates (command : NativeCommand) : WinPort (Z * Z)
(** The threads that a snapshot lists for a process: for each, how its opening or its resumption fails, if it
    does. *)
| WnThreads : WinPort (list (option string))
(** Which jobs refuse their termination, as one section finds them. *)
| WnRefusals : WinPort (ProcessScopeId -> option string)
| WnWaitFails : WinPort string
| WnSleep (d : Duration) : WinPort unit
| WnNow : WinPort Instant
(** The pool: a sample runs, or is refused. *)
| WnPool : WinPort (option string)
(** User and kernel time; the working set and its peak; the transfers. *)
| WnTicks (object : nat) : WinPort (result (Z * Z) string)
| WnMemory (object : nat) : WinPort (result (Z * Z) string)
| WnIo (object : nat) : WinPort (result (Z * Z) string)
| WnAccounting (job : nat) : WinPort (result WinAccounting string)
| WnDrained (output : ProcessOutput) (stdout : bool) : WinPort unit
| WnReadersFinished (output : ProcessOutput) : WinPort unit.

Inductive WinTask : Type :=
| WnReader (output : ProcessOutput) (stdout : bool)
| WnWaiter (rounds : nat) (h c rt kf : nat) (output : option ProcessOutput).

Definition win_answer (X : Type) (q : WinPort X) (x : X) (w : WinWorld) : WinWorld := w.

Abbreviation WProg := (Prog (S := WinWorld) (Q := WinPort) (T := WinTask)).

(** ** [spawn] *)

(** The command, as it is built from the spec: no input, suspended, and pipes for captured output. *)
Definition win_env (env : EnvPolicy) : list EnvOp :=
  match env with
  | Inherit => []
  | Clear entries => EnvClear :: map (fun e => EnvSet e.1 e.2) entries
  | Overrides entries => map (fun e => match e.2 with Some v => EnvSet e.1 v | None => EnvRemove e.1 end) entries
  end.
Definition win_command (spec : ProcessSpec) : NativeCommand :=
  mkNativeCommand (mkCommand (spec_program spec) (spec_args spec) (spec_cwd spec) (win_env (spec_env spec)) None) false
    (match spec_output spec with Capture _ _ => true | Discard => false end).

(** A number that is in use is not given out, nor an identity twice. *)
Definition identity_taken (id : Z * Z) (ps : gmap nat WinProcess) : bool :=
  existsb (fun e => (wp_pid e.2 =? id.1) && (negb (wp_gone e.2) || (wp_created e.2 =? id.2))) (map_to_list ps).

(** [cmd.spawn()] with CREATE_SUSPENDED. *)
Definition create_process (scope : ProcessScopeId) (id : Z * Z) (w : WinWorld) : WinWorld * option nat :=
  if identity_taken id (ww_procs w) then (w, None)
  else
    let o := ww_next w in
    let h := S o in
    (wlog_spawned o scope
       (set_wchildren (<[h := o]> (ww_children w))
          (set_wprocs (<[o := mkWinProcess id.1 id.2 None true None None false]> (ww_procs w)) (wbump (wbump w)))), Some h).

Definition child_process (h : nat) (w : WinWorld) : option (nat * WinProcess) :=
  o ← ww_children w !! h; p ← ww_procs w !! o; Some (o, p).
Definition close_child (h : nat) (w : WinWorld) : WinWorld := set_wchildren (delete h (ww_children w)) w.

(** [new_job], for a scope that has none. *)
Definition ensure_job (scope : ProcessScopeId) (failed : option string) (w : WinWorld) : WinWorld * result nat string :=
  match ww_jobs w !! scope with
  | Some j => (w, Ok j)
  | None =>
      match failed with
      | Some text => (w, Err text)
      | None => (wlog_job (ww_next w) scope (set_jobs (<[scope := ww_next w]> (ww_jobs w)) (wbump w)), Ok (ww_next w))
      end
  end.

Definition alter_proc (f : WinProcess -> WinProcess) (o : nat) (w : WinWorld) : WinWorld := set_wprocs (alter f o (ww_procs w)) w.

(** The loop of [resume] over the listed threads of the process of this number. *)
Fixpoint resume_threads (pid : Z) (threads : list (option string)) (found : bool) (w : WinWorld) : WinWorld * result unit string :=
  match threads with
  | [] => (w, if found then Ok tt else Err "suspended primary thread not found")
  | Some text :: _ => (w, Err text)
  | None :: threads =>
      resume_threads pid threads true
        (match at_number pid (ww_procs w) with Some (o, _) => alter_proc wp_resume o w | None => w end)
  end.
Definition resume_process (pid : Z) (failed : option string) (threads : list (option string)) (w : WinWorld) : WinWorld * result unit string :=
  match failed with Some text => (w, Err text) | None => resume_threads pid threads false w end.

(** A slot goes: the sender of its retry channel is dropped. *)
Definition wdrop_slot (key : WinKey) (w : WinWorld) : WinWorld :=
  match ww_slots w !! key with
  | Some s => set_slots (delete key (ww_slots w))
                (set_wretries (alter (fun r => mkRetryChannel (rt_queued r) false (rt_receiver r)) (ws_retry s) (ww_retries w)) w)
  | None => w
  end.

Definition register_win_slot (scope : ProcessScopeId) (os : OsIdentity) (process : nat) (output : option ProcessOutput) (w : WinWorld) :
    WinWorld * (nat * nat * nat) :=
  let w := wdrop_slot (win_key os) w in
  let c := ww_next w in
  let rt := S c in
  let kf := S rt in
  let w := set_wexits (<[c := mkWinExitChannel None 0 true process kf]> (ww_exits w)) (wbump (wbump (wbump w))) in
  let w := set_wretries (<[rt := mkRetryChannel false true true]> (ww_retries w)) w in
  let w := set_wkilled (<[kf := false]> (ww_killed w)) w in
  (set_slots (<[win_key os := mkWinSlot scope process c rt output kf None]> (ww_slots w)) w, (c, rt, kf)).

(** The critical section of [setup]: the job, the assignment of the child, its resumption, its slot. *)
Definition setup_section (scope : ProcessScopeId) (h : nat) (os : OsIdentity) (process : nat) (output : option ProcessOutput)
    (job_fails assign_fails snapshot_fails : option string) (threads : list (option string)) (w : WinWorld) :
    WinWorld * result (nat * nat * nat) string :=
  match ensure_job scope job_fails w with
  | (w, Err text) => (w, Err text)
  | (w, Ok j) =>
      match assign_fails, ww_children w !! h with
      | Some text, _ => (w, Err text)
      | None, None => (w, Err "missing process handle")
      | None, Some child =>
          match resume_process (os_pid os) snapshot_fails threads (alter_proc (wp_assign j) child w) with
          | (w, Err text) => (w, Err text)
          | (w, Ok _) => let '(w, channels) := register_win_slot scope os process output w in (w, Ok channels)
          end
      end
  end.

Definition setup (scope : ProcessScopeId) (h : nat) (output : option ProcessOutput) : WProg (result (OsIdentity * (nat * nat * nat)) string) :=
  let! child := reads (child_process h) in
  match child with
  | None => Ret (Err "missing child pid")
  | Some (_, child) =>
      let pid := wp_pid child in
      let! open_fails := call WnFails in
      let! opened := reads (fun w => at_number pid (ww_procs w)) in
      match open_fails, opened with
      | Some text, _ => Ret (Err text)
      | None, None => Ret (Err "The parameter is incorrect. (os error 87)")
      | None, Some (process, p) =>
          let! times_fail := call WnFails in
          match times_fail with
          | Some text => Ret (Err text)
          | None =>
              let os := mkOsIdentity pid (StartTime (wp_created p)) in
              let! job_fails := call WnFails in
              let! assign_fails := call WnFails in
              let! snapshot_fails := call WnFails in
              let! threads := call WnThreads in
              let! registered := act (setup_section scope h os process output job_fails assign_fails snapshot_fails threads) in
              Ret (match registered with Ok channels => Ok (os, channels) | Err text => Err text end)
          end
      end
  end.

(** [TerminateProcess]: of a process that has exited it is refused. *)
Definition terminate_process (o : nat) (code : Z) (w : WinWorld) : WinWorld * result unit string :=
  match ww_procs w !! o with
  | Some p => if wp_running p then (alter_proc (wp_terminate code) o w, Ok tt) else (w, Err "Access is denied. (os error 5)")
  | None => (w, Err "The handle is invalid. (os error 6)")
  end.

(** [child.wait()]. *)
Definition child_exit (h : nat) (w : WinWorld) : option (WinWorld * Z) :=
  '(_, p) ← child_process h w; code ← wp_exit p; Some (w, code).

(** A child whose setup failed is killed and waited for. *)
Definition discard_child (h : nat) : WProg unit :=
  let! refused := call WnFails in
  (match refused with
   | Some _ => Ret tt
   | None => modify (fun w => match ww_children w !! h with Some o => (terminate_process o 1 w).1 | None => w end)
   end) ;;;
  Wait (Either (Ready (child_exit h)) (Answer WnWaitFails)) (close_child h) (fun _ => modify (close_child h)).

Definition win_output (mode : OutputMode) (w : WinWorld) : WinWorld * option ProcessOutput :=
  match mode with
  | Discard => (w, None)
  | Capture _ _ => (wbump w, Some (mkProcessOutput (ww_next w)))
  end.

Definition win_spawn (rounds : nat) (scope : ProcessScopeId) (spec : ProcessSpec) : WProg (result Spawned SpawnError) :=
  let! output := act (win_output (spec_output spec)) in
  let! fails := call WnFails in
  match fails with
  | Some text => Ret (Err (SpawnError_Os text))
  | None =>
      let! id := call (WnCreates (win_command spec)) in
      let! created := act (create_process scope id) in
      match created with
      | None => await (fun _ => None)
      | Some h =>
          let! set := setup scope h output in
          match set with
          | Err text => discard_child h ;;; Ret (Err (SpawnError_Os text))
          | Ok (os, (c, rt, kf)) =>
              (match output with
               | Some output => fork (WnReader output true) ;;; fork (WnReader output false)
               | None => Ret tt
               end) ;;;
              fork (WnWaiter rounds h c rt kf output) ;;;
              Ret (Ok (mkSpawned os))
          end
      end
  end.

(** ** The waiter of a child *)

Definition flag_set (kf : nat) (w : WinWorld) : bool := bool_decide (ww_killed w !! kf = Some true).

(** The exit that a status is reported as, at the time of this look at the flag. *)
Definition win_exit (killed : bool) (code : Z) : RawExit :=
  mkRawExit (Some (i32_of_u32 code)) (if killed && (i32_of_u32 code =? i32_of_u32 KILLED) then Some Kill else None) false.

Definition wsend_exit (c : nat) (v : result RawExit string) (w : WinWorld) : WinWorld :=
  set_wexits (alter (fun e => mkWinExitChannel (Some v) (S (we_version e)) (we_task e) (we_object e) (we_flag e)) c (ww_exits w)) w.

(** [retry_rx.recv()]: true for a retry, false when its sender is gone. *)
Definition wrecv_retry (rt : nat) (w : WinWorld) : option (WinWorld * bool) :=
  match ww_retries w !! rt with
  | Some (mkRetryChannel true sender receiver) => Some (set_wretries (<[rt := mkRetryChannel false sender receiver]> (ww_retries w)) w, true)
  | Some (mkRetryChannel false true _) => None
  | _ => Some (w, false)
  end.

Fixpoint win_waiter_loop (rounds : nat) (h c rt kf : nat) : WProg unit :=
  let! status := Wait (Either (Ready (child_exit h)) (Answer WnWaitFails)) id Ret in
  let! exit := (match status with
                | inl code => let! killed := reads (flag_set kf) in Ret (Ok (win_exit killed code))
                | inr text => Ret (Err text)
                end) in
  modify (wsend_exit c exit) ;;;
  match exit with
  | Ok _ => Ret tt
  | Err _ =>
      let! again := await (wrecv_retry rt) in
      if again : bool
      then match rounds with O => await (fun _ => None) | S rounds => win_waiter_loop rounds h c rt kf end
      else Ret tt
  end.

(** The end of the task: the child, the receiver of the retries and the sender of the exit are dropped. *)
Definition waiter_ends (h c rt : nat) (w : WinWorld) : WinWorld :=
  let w := close_child h w in
  let w := set_wretries (alter (fun r => mkRetryChannel (rt_queued r) (rt_sender r) false) rt (ww_retries w)) w in
  set_wexits (alter (fun e => mkWinExitChannel (we_value e) (we_version e) false (we_object e) (we_flag e)) c (ww_exits w)) w.

Definition win_waiter (rounds : nat) (h c rt kf : nat) (output : option ProcessOutput) : WProg unit :=
  guarded (waiter_ends h c rt)
    (Wait (Ready (fun w => Some (w, tt))) id (fun _ =>
      win_waiter_loop rounds h c rt kf ;;;
      match output with Some output => ask (WnReadersFinished output) | None => Ret tt end)).

(** ** Signals *)

Definition win_signal_failed {A} (text : string) : result A TerminateError := Err (TerminateError_Signal text).

Definition set_flag (kf : nat) (w : WinWorld) : WinWorld := set_wkilled (<[kf := true]> (ww_killed w)) w.

(** [signal] under the mutex: the exit code, the flag, the termination. *)
Definition signal_section (key : WinKey) (query_fails terminate_fails : option string) (w : WinWorld) : WinWorld * result unit TerminateError :=
  match ww_slots w !! key with
  | None => (w, Ok tt)
  | Some slot =>
      match query_fails with
      | Some text => (w, win_signal_failed text)
      | None =>
          if negb (match ww_procs w !! ws_process slot with Some p => default STILL_ACTIVE (wp_exit p) | None => 0 end =? STILL_ACTIVE)
          then (w, Ok tt)
          else
            let w := set_flag (ws_killed slot) w in
            match terminate_fails with
            | Some text => (w, win_signal_failed text)
            | None =>
                let '(w, r) := terminate_process (ws_process slot) KILLED w in
                (w, match r with Ok _ => Ok tt | Err text => win_signal_failed text end)
            end
      end
  end.

Definition win_signal (target : Spawned) (signal : Signal) : WProg (result unit TerminateError) :=
  if negb (bool_decide (signal = Kill)) then Ret (win_signal_failed "Windows has no general graceful process signal")
  else
    let! query_fails := call WnFails in
    let! terminate_fails := call WnFails in
    act (signal_section (win_key (spawned_os target)) query_fails terminate_fails).

(** The slots of a scope; [None]: all of them. *)
Definition win_slots (scope : option ProcessScopeId) (w : WinWorld) : list WinSlot :=
  filter (fun s => match scope with None => true | Some scope => bool_decide (ws_scope s = scope) end = true) (map_to_list (ww_slots w)).*2.
Definition flag_slots (scope : option ProcessScopeId) (w : WinWorld) : WinWorld :=
  foldl (fun w s => set_flag (ws_killed s) w) w (win_slots scope w).
(** [retry.try_send(())]. *)
Definition wqueue_retry (rt : nat) (w : WinWorld) : WinWorld :=
  set_wretries (alter (fun r => if rt_receiver r then mkRetryChannel true (rt_sender r) true else r) rt (ww_retries w)) w.
Definition retry_slots (scope : option ProcessScopeId) (w : WinWorld) : WinWorld :=
  foldl (fun w s => wqueue_retry (ws_retry s) w) w (win_slots scope w).

Definition kill_job (refused : option string) (scope : ProcessScopeId) (w : WinWorld) : WinWorld * result unit TerminateError :=
  match ww_jobs w !! scope, refused with
  | None, _ => (w, Ok tt)
  | Some _, Some text => (w, win_signal_failed text)
  | Some j, None => (set_wprocs (terminate_job j KILLED (ww_procs w)) w, Ok tt)
  end.

(** Under the mutex: the flags, the job, the retries. *)
Definition kill_scope_section (scope : ProcessScopeId) (refused : option string) (w : WinWorld) : WinWorld * result unit TerminateError :=
  let '(w, r) := kill_job refused scope (flag_slots (Some scope) w) in
  (retry_slots (Some scope) w, r).

Definition win_signal_scope (scope : ProcessScopeId) (signal : Signal) : WProg (result unit TerminateError) :=
  if negb (bool_decide (signal = Kill)) then Ret (win_signal_failed "Job Objects support force termination only")
  else let! refused := call WnFails in act (kill_scope_section scope refused).

Definition win_hard_kill_scope (scope : ProcessScopeId) : WProg unit :=
  let! refused := call WnFails in
  modify (fun w => (kill_scope_section scope refused w).1).

Definition win_hard_kill_all : WProg unit :=
  let! refusals := call WnRefusals in
  modify (fun w =>
    retry_slots None
      (foldl (fun w scope => (kill_job (refusals scope) scope w).1) (flag_slots None w) (map_to_list (ww_jobs w)).*1)).

(** ** [cleanup_scope] *)

Definition CLEANUP_LOOKS : nat := 500.
Definition CLEANUP_POLL : Duration := from_millis 10.

(** The look of one round, under the mutex: done, failed, or neither. The close of the job kills what is in
    it. *)
Definition cleanup_look (scope : ProcessScopeId) (query_fails : option string) (w : WinWorld) :
    WinWorld * option (result unit TerminateError) :=
  match ww_jobs w !! scope, query_fails with
  | None, _ => (wlog_cleaned scope w, Some (Ok tt))
  | Some _, Some text => (w, Some (win_signal_failed text))
  | Some j, None =>
      if Z.of_nat (length (active_processes j (ww_procs w))) =? 0
      then (wlog_cleaned scope (set_wprocs (terminate_job j 0 (ww_procs w)) (set_jobs (delete scope (ww_jobs w)) w)), Some (Ok tt))
      else (w, None)
  end.

Fixpoint cleanup_loop (looks : nat) (scope : ProcessScopeId) : WProg (result unit TerminateError) :=
  match looks with
  | O => Ret (win_signal_failed "Job Object still has active processes")
  | S looks =>
      let! query_fails := call WnFails in
      let! looked := act (cleanup_look scope query_fails) in
      match looked with
      | Some r => Ret r
      | None => ask (WnSleep CLEANUP_POLL) ;;; cleanup_loop looks scope
      end
  end.

Definition win_cleanup_scope (scope : ProcessScopeId) : WProg (result unit TerminateError) :=
  let! killed := win_signal_scope scope Kill in
  match killed with Err e => Ret (Err e) | Ok _ => cleanup_loop CLEANUP_LOOKS scope end.

(** ** [wait] *)

Definition exit_channel (c : nat) (w : WinWorld) : option WinExitChannel := ww_exits w !! c.
Definition win_value (c : nat) (w : WinWorld) : option (result RawExit string) := e ← exit_channel c w; we_value e.
Definition win_version (c : nat) (w : WinWorld) : nat := match exit_channel c w with Some e => we_version e | None => O end.
(** No sender is left: neither in the waiter nor in a slot. *)
Definition win_closed (c : nat) (w : WinWorld) : bool :=
  negb (match exit_channel c w with Some e => we_task e | None => false end) &&
  negb (existsb (fun s => Nat.eqb (ws_exit s) c) (map_to_list (ww_slots w)).*2).

Definition win_subscribe (key : WinKey) (w : WinWorld) : option (nat * nat) :=
  slot ← ww_slots w !! key; Some (ws_exit slot, ws_retry slot).

(** [retry.try_send]: false when the waiter is gone. *)
Definition wsend_retry (rt : nat) (w : WinWorld) : WinWorld * bool :=
  (wqueue_retry rt w, match ww_retries w !! rt with Some r => rt_receiver r | None => false end).

(** [rx.changed()]: a value after the version [seen], or no sender. *)
Definition win_changed (c seen : nat) (w : WinWorld) : option (WinWorld * bool) :=
  if (seen <? win_version c w)%nat then Some (w, true) else if win_closed c w then Some (w, false) else None.
(** The loop of [borrow_and_update] and [changed]. *)
Definition win_result (c : nat) (w : WinWorld) : option (WinWorld * option (result RawExit string)) :=
  match win_value c w with
  | Some v => Some (w, Some v)
  | None => if win_closed c w then Some (w, None) else None
  end.

Definition win_wait_failed (v : option (result RawExit string)) : bool := match v with Some (Err _) => true | _ => false end.
Definition waiter_closed {A} : result A WaitError := Err (WaitError_Backend "waiter closed").

Definition forget_slot (os : OsIdentity) (c : nat) (raw : RawExit) (w : WinWorld) : WinWorld :=
  wdrop_slot (win_key os) (match exit_channel c w with Some e => wlog_wait os (we_object e) raw w | None => w end).

Definition win_wait_result (os : OsIdentity) (c : nat) : WProg (result RawExit WaitError) :=
  let! r := await (win_result c) in
  match r with
  | None => Ret waiter_closed
  | Some (Ok raw) => modify (forget_slot os c raw) ;;; Ret (Ok raw)
  | Some (Err text) => Ret (Err (WaitError_Backend text))
  end.

Definition win_wait (target : Spawned) : WProg (result RawExit WaitError) :=
  let os := spawned_os target in
  let! channels := reads (win_subscribe (win_key os)) in
  match channels with
  | None => Ret (Err (WaitError_Backend "unknown process handle"))
  | Some (c, rt) =>
      let! seen := reads (fun w => (win_value c w, win_version c w)) in
      if negb (win_wait_failed seen.1) then win_wait_result os c
      else
        let! queued := act (wsend_retry rt) in
        let! again := (if queued : bool then Ret (Some seen.2)
                       else
                         let! now := reads (win_value c) in
                         Ret (match now with Some (Ok _) => None | _ => Some O end)) in
        match queued, again with
        | false, Some _ => Ret waiter_closed
        | _, None => win_wait_result os c
        | true, Some seen =>
            let! changed := await (win_changed c seen) in
            if changed : bool then win_wait_result os c else Ret waiter_closed
        end
  end.

(** ** Observations *)

(** The critical section of a sample; [None]: the slot is gone. *)
Definition wstore_sample (key : WinKey) (now : Instant) (ticks : Z) (w : WinWorld) : WinWorld * option (option (Instant * Z)) :=
  match ww_slots w !! key with
  | None => (w, None)
  | Some slot => (set_slots (<[key := set_previous (Some (now, ticks)) slot]> (ww_slots w)) w, Some (ws_previous slot))
  end.

Definition win_sample_sync (target : Spawned) (process : nat) : WProg (result RawStats StatsError) :=
  let! times := call (WnTicks process) in
  match times with
  | Err text => Ret (stats_failed text)
  | Ok (kernel, user) =>
      let ticks := u64_saturating_add kernel user in
      let! now := call WnNow in
      let! memory := call (WnMemory process) in
      match memory with
      | Err text => Ret (stats_failed text)
      | Ok (rss, peak) =>
          let! io := call (WnIo process) in
          match io with
          | Err text => Ret (stats_failed text)
          | Ok (read, write) =>
              let! previous := act (wstore_sample (win_key (spawned_os target)) now ticks) in
              match previous with
              | None => Ret (stats_failed "process reaped during sample")
              | Some previous =>
                  Ret (Ok (mkRawStats (cpu_share previous now ticks 10000000) rss None (Some peak) (Some read) (Some write) None StateUnknown))
              end
          end
      end
  end.

Definition slot_process (key : WinKey) (w : WinWorld) : option nat := ws_process <$> (ww_slots w !! key).

Definition win_sample (target : Spawned) : WProg (result RawStats StatsError) :=
  let! process := reads (slot_process (win_key (spawned_os target))) in
  match process with
  | None => Ret (stats_failed "process reaped")
  | Some process =>
      let! refused := call WnPool in
      match refused with Some text => Ret (stats_failed text) | None => win_sample_sync target process end
  end.

Definition win_scope_usage (scope : ProcessScopeId) : WProg (result ScopeUsage ObservationError) :=
  let! job := reads (fun w => ww_jobs w !! scope) in
  match job with
  | None => Ret (Err (ObservationBackend "scope job unavailable"))
  | Some j =>
      let! duplicate_fails := call WnFails in
      match duplicate_fails with
      | Some text => Ret (Err (ObservationBackend text))
      | None =>
          let! accounting := call (WnAccounting j) in
          match accounting with
          | Err text => Ret (Err (ObservationBackend text))
          | Ok a =>
              let! now := call WnNow in
              let ticks := t ← u64_checked_add (wa_user_time a) (wa_kernel_time a); u64_checked_mul t 100 in
              Ret (Ok (Accounting (mkScopeAccounting WindowsJob now ticks None (Some (wa_peak_job_memory a))
                (Some (wa_read a)) (Some (wa_write a)) (Some (wa_active a)))))
          end
      end
  end.

Definition win_output_of (target : Spawned) (w : WinWorld) : option ProcessOutput :=
  slot ← ww_slots w !! win_key (spawned_os target); ws_output slot.

Definition win_capabilities : Capabilities := mkCapabilities JobObject Supported Supported Supported Supported true.

(** ** The tasks, and what happens outside *)

Definition win_body (t : WinTask) : WProg unit :=
  match t with
  | WnReader output stdout => ask (WnDrained output stdout)
  | WnWaiter rounds h c rt kf output => win_waiter rounds h c rt kf output
  end.

(** A handle of this process keeps an object. *)
Definition held (o : nat) (w : WinWorld) : bool :=
  existsb (fun e => Nat.eqb e.2 o) (map_to_list (ww_children w)) || existsb (fun s => Nat.eqb (ws_process s) o) (map_to_list (ww_slots w)).*2.

(** A process starts (in the job of its parent, if that is one of a job); a process exits; an object
    goes that no handle keeps. *)
Inductive WinOutside : Type :=
| WinStarts (parent : option nat) (pid created : Z)
| WinExits (o : nat) (code : Z)
| WinGoes (o : nat).

Definition win_outside (e : WinOutside) (w : WinWorld) : WinWorld :=
  match e with
  | WinStarts parent pid created =>
      let starts job := set_wprocs (<[ww_next w := mkWinProcess pid created job false None None false]> (ww_procs w)) (wbump w) in
      if identity_taken (pid, created) (ww_procs w) then w
      else
        match parent with
        | None => starts None
        | Some parent =>
            match ww_procs w !! parent with
            | Some p => if wp_running p && negb (wp_suspended p) then starts (wp_job p) else w
            | None => w
            end
        end
  | WinExits o code =>
      match ww_procs w !! o with
      | Some p => if wp_running p && (0 <=? code) && (code <? 2 ^ 32) then alter_proc (wp_ended code) o w else w
      | None => w
      end
  | WinGoes o =>
      match ww_procs w !! o with
      | Some p => if negb (wp_running p) && negb (held o w) then alter_proc wp_freed o w else w
      | None => w
      end
  end.

(** [WindowsJobBackend::new]. *)
Definition win_new : WinWorld := mkWinWorld ∅ ∅ ∅ ∅ ∅ ∅ ∅ 0 (mkWinHistory [] [] ∅ ∅).
