(* ===== verification/WindowsInv.v ===== *)
(** * WindowsInv: the invariant of the Job Object backend

    What holds between any two steps ([win_ok]), what stays known of a world ([win_later]), and
    the steps that keep the one and grow the other. The map [m] says which child each open handle of a
    [Child] is, and what is done with it. *)

From stdpp Require Import base list gmap strings.
From S2P Require Import Prelude StdModel Values Observation Usage Ports Conc Procfs Native Windows.

Open Scope Z_scope.
Open Scope prog_scope.

(** What is done with the handle of a child: it is in no job and has no slot yet; its waiter asks for its
    exit; its exit was sent. *)
Inductive ChildUse : Type := Fresh | Watched | Reported.
Abbreviation Owned := (gmap nat (nat * ChildUse)) (only parsing).

Abbreviation spawned_in w o := (wh_spawned (ww_history w) !! o) (only parsing).
Abbreviation scope_of_job w j := (wh_job_scopes (ww_history w) !! j) (only parsing).

(** [raw] reports the exit of the process [o], whose flag is [kf]. *)
Definition exit_true (w : WinWorld) (o kf : nat) (raw : RawExit) : Prop :=
  exists p code killed, ww_procs w !! o = Some p /\ wp_exit p = Some code /\ raw = win_exit killed code /\
    (killed = true -> ww_killed w !! kf = Some true) /\ (wp_doomed p = Some KILLED -> killed = true).

(** [raw] reports the exit of the process [o], with the flag of its slot. *)
Definition answer_true (w : WinWorld) (o : nat) (raw : RawExit) : Prop :=
  exists c e, ww_exits w !! c = Some e /\ we_object e = o /\ exit_true w o (we_flag e) raw.

(** A channel whose exit may still be asked for has its slot. *)
Definition unanswered (e : WinExitChannel) : bool := match we_value e with Some (Ok _) => false | _ => true end.

Definition slot_ok (w : WinWorld) (key : WinKey) (s : WinSlot) : Prop :=
  exists e p, ww_exits w !! ws_exit s = Some e /\ we_object e = ws_process s /\ we_flag e = ws_killed s /\
    ww_procs w !! ws_process s = Some p /\ key = (wp_pid p, wp_created p) /\ wp_gone p = false /\
    is_Some (wp_job p) /\ spawned_in w (ws_process s) = Some (ws_scope s).

Record channel_ok (w : WinWorld) (c : nat) (e : WinExitChannel) : Prop := {
  ck_spawned : is_Some (spawned_in w (we_object e));
  ck_flag : is_Some (ww_killed w !! we_flag e);
  ck_value : forall raw, we_value e = Some (Ok raw) -> exit_true w (we_object e) (we_flag e) raw;
  ck_slot : unanswered e = true -> exists key s, ww_slots w !! key = Some s /\ ws_exit s = c;
  ck_doomed : forall p, ww_procs w !! we_object e = Some p -> wp_doomed p = Some KILLED -> ww_killed w !! we_flag e = Some true;
}.

(** A process that the backend made, in [scope]. *)
Record process_ok (scope : ProcessScopeId) (w : WinWorld) (p : WinProcess) : Prop := {
  pk_contained : wp_suspended p = false -> is_Some (wp_job p);
  pk_job : forall j, wp_job p = Some j -> scope_of_job w j = Some scope;
  pk_undoomed : wp_job p = None -> wp_doomed p <> Some KILLED;
}.

Record win_ok (m : Owned) (w : WinWorld) : Prop := {
  wk_children : ww_children w = fst <$> m;
  wk_next : forall n, (ww_next w <= n)%nat ->
    ww_procs w !! n = None /\ m !! n = None /\ ww_exits w !! n = None /\ ww_killed w !! n = None /\ scope_of_job w n = None;
  wk_pids : forall o1 o2 p1 p2, ww_procs w !! o1 = Some p1 -> ww_procs w !! o2 = Some p2 -> wp_pid p1 = wp_pid p2 ->
    (wp_gone p1 = false /\ wp_gone p2 = false) \/ wp_created p1 = wp_created p2 -> o1 = o2;
  wk_child : forall h o u, m !! h = Some (o, u) -> exists p, ww_procs w !! o = Some p /\ wp_gone p = false /\
    is_Some (spawned_in w o) /\
    (u = Fresh -> wp_job p = None /\ forall c e, ww_exits w !! c = Some e -> we_object e <> o);
  wk_child_inj : forall h1 h2 o b1 b2, m !! h1 = Some (o, b1) -> m !! h2 = Some (o, b2) -> h1 = h2;
  wk_spawned : forall o scope, spawned_in w o = Some scope -> exists p, ww_procs w !! o = Some p /\ process_ok scope w p;
  wk_slots : forall key s, ww_slots w !! key = Some s -> slot_ok w key s;
  wk_channels : forall c e, ww_exits w !! c = Some e -> channel_ok w c e;
  wk_channel_inj : forall c1 c2 e1 e2, ww_exits w !! c1 = Some e1 -> ww_exits w !! c2 = Some e2 ->
    we_object e1 = we_object e2 -> c1 = c2;
  wk_jobs : forall scope j, ww_jobs w !! scope = Some j -> scope_of_job w j = Some scope;
  wk_members : forall o p j, ww_procs w !! o = Some p -> wp_job p = Some j ->
    exists scope, scope_of_job w j = Some scope /\ (wp_exit p = None -> ww_jobs w !! scope = Some j);
  wk_cleaned : forall scope os o, (scope, os) ∈ wh_cleaned (ww_history w) -> o ∈ os ->
    exists p, ww_procs w !! o = Some p /\ is_Some (wp_exit p);
  wk_waits : forall os o raw, (os, o, raw) ∈ wh_waits (ww_history w) ->
    (exists p, ww_procs w !! o = Some p /\ win_key os = (wp_pid p, wp_created p)) /\ answer_true w o raw;
  wk_unsent : forall h o u c e, m !! h = Some (o, u) -> u <> Reported -> ww_exits w !! c = Some e -> we_object e = o ->
    unanswered e = true;
}.

(** What is known once stays so. *)
Record win_later (w w' : WinWorld) : Prop := {
  wl_channels : forall c e, ww_exits w !! c = Some e ->
    exists e', ww_exits w' !! c = Some e' /\ we_object e' = we_object e /\ we_flag e' = we_flag e /\
      forall raw, we_value e = Some (Ok raw) -> we_value e' = Some (Ok raw);
  wl_procs : forall o p, ww_procs w !! o = Some p -> exists p', ww_procs w' !! o = Some p' /\
    wp_pid p' = wp_pid p /\ wp_created p' = wp_created p /\
    forall code, wp_exit p = Some code -> wp_exit p' = Some code /\ wp_doomed p' = wp_doomed p;
  wl_flags : forall kf, ww_killed w !! kf = Some true -> ww_killed w' !! kf = Some true;
  wl_spawned : forall o scope, spawned_in w o = Some scope -> spawned_in w' o = Some scope;
}.

#[global] Instance win_later_preorder : PreOrder win_later.
Proof.
  split.
  - intros w. split; eauto 10.
  - intros w1 w2 w3 [E1 P1 F1 S1] [E2 P2 F2 S2]. split.
    + intros c e H. destruct (E1 c e H) as (e' & H' & ? & ? & V1). destruct (E2 c e' H') as (e'' & ? & ? & ? & V2).
      exists e''. split_and!; [done|congruence|congruence|]. intros raw Hv. by apply V2, V1.
    + intros o p H. destruct (P1 o p H) as (p' & H' & ? & ? & X1). destruct (P2 o p' H') as (p'' & ? & ? & ? & X2).
      exists p''. split_and!; [done|congruence..|]. intros code E. destruct (X1 code E) as [E' D1].
      destruct (X2 code E') as [? D2]. split; [done|congruence].
    + eauto.
    + eauto.
Qed.

Lemma exit_true_later w w' o kf raw : win_later w w' -> exit_true w o kf raw -> exit_true w' o kf raw.
Proof.
  intros [_ Hp Hf _] (p & code & killed & E & X & R & F & D). destruct (Hp o p E) as (p' & E' & _ & _ & X').
  destruct (X' code X) as [X'' D']. exists p', code, killed. split_and!; [done|done|done|eauto|].
  rewrite D'. exact D.
Qed.

Lemma answer_true_later w w' o raw : win_later w w' -> answer_true w o raw -> answer_true w' o raw.
Proof.
  intros Hl (c & e & Ee & Eo & Ht). destruct (wl_channels _ _ Hl c e Ee) as (e' & Ee' & Eo' & Ef & _).
  exists c, e'. split_and!; [done|congruence|]. rewrite Ef. by eapply exit_true_later.
Qed.

(** A step that keeps the invariant, whoever owns which handle. *)
Definition win_step (w w' : WinWorld) : Prop := forall m, win_ok m w -> win_ok m w' /\ win_later w w'.

Lemma win_step_refl w : win_step w w.
Proof. intros m Hm. done. Qed.
Lemma win_step_trans w1 w2 w3 : win_step w1 w2 -> win_step w2 w3 -> win_step w1 w3.
Proof. intros H1 H2 m Hm. destruct (H1 m Hm) as [H L1]. destruct (H2 m H) as [? L2]. split; [done|by etrans]. Qed.

(** ** Steps of the kernel *)

(** A process goes on: its identity, its job and its suspension stay, and an exit is for ever. *)
Record proc_moves (p p' : WinProcess) : Prop := {
  pm_pid : wp_pid p' = wp_pid p;
  pm_created : wp_created p' = wp_created p;
  pm_job : wp_job p' = wp_job p;
  pm_suspended : wp_suspended p' = wp_suspended p;
  pm_gone : wp_gone p' = wp_gone p;
  pm_exit : forall code, wp_exit p = Some code -> wp_exit p' = Some code /\ wp_doomed p' = wp_doomed p;
}.
Lemma proc_moves_refl p : proc_moves p p.
Proof. by split. Qed.
Lemma proc_moves_terminate code p : proc_moves p (wp_terminate code p).
Proof. unfold wp_terminate. split; destruct (wp_exit p) eqn:X, (wp_doomed p) eqn:D; cbn; try done; intros code'; split; congruence. Qed.

(** All processes go on; one that becomes doomed by [KILLED] is in a job, and its flag is set. *)
Lemma win_step_procs w ps' :
  (forall o, match ww_procs w !! o, ps' !! o with
             | Some p, Some p' => proc_moves p p'
             | None, None => True
             | _, _ => False
             end) ->
  (forall m o p p', win_ok m w -> ww_procs w !! o = Some p -> ps' !! o = Some p' -> wp_doomed p' = Some KILLED ->
     wp_doomed p <> Some KILLED -> is_Some (spawned_in w o) ->
     is_Some (wp_job p) /\ forall c e, ww_exits w !! c = Some e -> we_object e = o -> ww_killed w !! we_flag e = Some true) ->
  win_step w (set_wprocs ps' w).
Proof.
  intros Hps Hdoom m Hm. pose proof Hm as [Kc Kn Kp Kh Ki Ks Kl Ke Kei Kj Km Kcl Kw Kt].
  assert (Hto : forall o p, ww_procs w !! o = Some p -> exists p', ps' !! o = Some p' /\ proc_moves p p').
  { intros o p E. specialize (Hps o). rewrite E in Hps. destruct (ps' !! o) as [p'|]; [by exists p'|done]. }
  assert (Hfrom : forall o p', ps' !! o = Some p' -> exists p, ww_procs w !! o = Some p /\ proc_moves p p').
  { intros o p' E. specialize (Hps o). rewrite E in Hps. destruct (ww_procs w !! o) as [p|]; [by exists p|done]. }
  assert (Hl : win_later w (set_wprocs ps' w)).
  { split; cbn; [eauto 10| |done|done]. intros o p E. destruct (Hto o p E) as (p' & E' & M). exists p'. destruct M. eauto 10. }
  split; [|exact Hl]. split; cbn.
  - done.
  - intros n Hn. destruct (Kn n Hn) as (E & ?). specialize (Hps n). rewrite E in Hps. by destruct (ps' !! n).
  - intros o1 o2 p1 p2 E1 E2. destruct (Hfrom _ _ E1) as (q1 & F1 & M1). destruct (Hfrom _ _ E2) as (q2 & F2 & M2).
    rewrite (pm_pid _ _ M1), (pm_pid _ _ M2), (pm_created _ _ M1), (pm_created _ _ M2), (pm_gone _ _ M1), (pm_gone _ _ M2).
    by apply Kp.
  - intros h o fresh E. destruct (Kh h o fresh E) as (p & Ep & G & S & F). destruct (Hto o p Ep) as (p' & E' & M).
    exists p'. rewrite (pm_gone _ _ M), (pm_job _ _ M). done.
  - exact Ki.
  - intros o scope E. destruct (Ks o scope E) as (p & Ep & [C J U]). destruct (Hto o p Ep) as (p' & E' & M). exists p'.
    split; [done|]. split; cbn; rewrite ?(pm_suspended _ _ M), ?(pm_job _ _ M); [done|done|]. intros Hn Hd.
    destruct (Hdoom m o p p') as [[j Ej] _]; [done..|by apply U|by exists scope|congruence].
  - intros key s E. destruct (Kl key s E) as (e & p & ? & ? & ? & Ep & Hk & G & J & S). destruct (Hto _ p Ep) as (p' & E' & M).
    exists e, p'. cbn. rewrite (pm_job _ _ M), (pm_pid _ _ M), (pm_created _ _ M), (pm_gone _ _ M). by split_and!.
  - intros c e E. destruct (Ke c e E) as [A B V L D]. split; cbn; [done|done| |done|].
    + intros raw Hv. eapply exit_true_later; [exact Hl|]. by apply V.
    + intros p' E' Hd. destruct (Hfrom _ _ E') as (p & Ep & M).
      destruct (decide (wp_doomed p = Some KILLED)) as [Hp|Hp]; [by apply (D p)|].
      destruct (Hdoom m (we_object e) p p') as [_ H]; [done..|]. by apply (H c e).
  - exact Kei.
  - exact Kj.
  - intros o p' j E' Hj. destruct (Hfrom _ _ E') as (p & Ep & M). rewrite (pm_job _ _ M) in Hj.
    destruct (Km o p j Ep Hj) as (scope & ? & Hr). exists scope. split; [done|]. intros Hx. apply Hr.
    destruct (wp_exit p) as [code|] eqn:X; [|done]. destruct (pm_exit _ _ M code X). congruence.
  - intros scope os o H1 H2. destruct (Kcl scope os o H1 H2) as (p & Ep & [code X]). destruct (Hto o p Ep) as (p' & E' & M).
    exists p'. split; [done|]. destruct (pm_exit _ _ M code X). by exists code.
  - intros os o raw H. destruct (Kw os o raw H) as ((p & Ep & Hk) & Ht). split.
    + destruct (Hto o p Ep) as (p' & E' & M). exists p'. rewrite (pm_pid _ _ M), (pm_created _ _ M). done.
    + by eapply answer_true_later.
  - exact Kt.
Qed.

(** The part of a world that the invariant speaks of; a slot may keep another sample. *)
Record win_alike (w w' : WinWorld) : Prop := {
  wa_procs : ww_procs w' = ww_procs w;
  wa_children : ww_children w' = ww_children w;
  wa_jobs : ww_jobs w' = ww_jobs w;
  wa_slots : ww_slots w' = ww_slots w;
  wa_exits : ww_exits w' = ww_exits w;
  wa_killed : ww_killed w' = ww_killed w;
  wa_next : (ww_next w <= ww_next w')%nat;
  wa_history : ww_history w' = ww_history w;
}.

Lemma win_step_alike w w' : win_alike w w' -> win_step w w'.
Proof.
  intros [E1 E2 E3 E4 E5 E6 E7 E8] m [Kc Kn Kp Kh Ki Ks Kl Ke Kei Kj Km Kcl Kw Kt]. split.
  - split; unfold slot_ok, answer_true, exit_true in *; rewrite ?E1, ?E2, ?E3, ?E4, ?E5, ?E6, ?E8; try assumption.
    + intros n Hn. apply Kn. lia.
    + intros o scope E. destruct (Ks o scope E) as (p & Ep & [C J U]). exists p. split; [done|]. by split; rewrite ?E8.
    + intros c e E. destruct (Ke c e E) as [A B V L D].
      split; unfold exit_true in *; rewrite ?E1, ?E4, ?E6, ?E8; assumption.
  - split; rewrite ?E1, ?E5, ?E6, ?E8; eauto 10.
Qed.

Lemma win_step_retries x w : win_step w (set_wretries x w).
Proof. by apply win_step_alike. Qed.

(** A kill flag is raised. *)
Lemma win_step_flag kf w : is_Some (ww_killed w !! kf) -> win_step w (set_flag kf w).
Proof.
  intros Hkf m [Kc Kn Kp Kh Ki Ks Kl Ke Kei Kj Km Kcl Kw Kt].
  assert (Hf : forall k b, ww_killed w !! k = Some b -> <[kf := true]> (ww_killed w) !! k = Some (b || bool_decide (k = kf))).
  { intros k b E. destruct (decide (k = kf)) as [->|Hne].
    - by rewrite lookup_insert_eq, bool_decide_eq_true_2, orb_true_r.
    - by rewrite lookup_insert_ne, bool_decide_eq_false_2, orb_false_r by done. }
  assert (Hl : win_later w (set_flag kf w)).
  { split; cbn; [eauto 10|eauto 10| |done]. intros k E. by rewrite (Hf k true E). }
  split; [|exact Hl]. split; try assumption; cbn.
  - intros n Hn. destruct (Kn n Hn) as (? & ? & ? & E & ?). split_and!; try done. rewrite lookup_insert_ne; [done|].
    intros ->. destruct Hkf. congruence.
  - intros o scope E. destruct (Ks o scope E) as (p & Ep & [C J U]). by exists p.
  - intros c e E. destruct (Ke c e E) as [A [b B] V L D]. split; cbn; [done| | |done|].
    + rewrite (Hf _ _ B). by eexists.
    + intros raw Hv. eapply exit_true_later; [exact Hl|]. by apply V.
    + intros p Ep Hd. by rewrite (Hf _ _ (D p Ep Hd)).
  - intros os o raw H. destruct (Kw os o raw H) as (? & Ht). split; [done|]. by eapply answer_true_later.
Qed.

(** A sample of a slot is replaced. *)
Lemma win_step_sample key now ticks w : win_step w (wstore_sample key now ticks w).1.
Proof.
  unfold wstore_sample. destruct (ww_slots w !! key) as [slot|] eqn:Es; [|apply win_step_refl]. cbn [fst].
  intros m [Kc Kn Kp Kh Ki Ks Kl Ke Kei Kj Km Kcl Kw Kt]. split; [|split; cbn; eauto 10].
  split; try assumption; cbn.
  - intros o scope E. destruct (Ks o scope E) as (p & Ep & [C J U]). by exists p.
  - intros k s. destruct (decide (k = key)) as [->|Hne].
    + rewrite lookup_insert_eq. intros [= <-]. exact (Kl key slot Es).
    + rewrite lookup_insert_ne by done. apply Kl.
  - intros c e E. destruct (Ke c e E) as [A B V L D]. split; cbn; try done. intros Hu.
    destruct (L Hu) as (k & s & E' & Hs). destruct (decide (k = key)) as [->|Hne].
    + exists key, (set_previous (Some (now, ticks)) slot). rewrite lookup_insert_eq. split; [done|]. cbn. congruence.
    + exists k, s. by rewrite lookup_insert_ne.
Qed.

(** ** Terminations *)

Lemma terminate_doomed code p : wp_doomed (wp_terminate code p) = Some KILLED -> wp_doomed p <> Some KILLED -> code = KILLED.
Proof. unfold wp_terminate. destruct (wp_exit p), (wp_doomed p) eqn:D; cbn; congruence. Qed.

Lemma win_step_alter o f w :
  (forall p, ww_procs w !! o = Some p -> proc_moves p (f p)) ->
  (forall m p, win_ok m w -> ww_procs w !! o = Some p -> wp_doomed (f p) = Some KILLED -> wp_doomed p <> Some KILLED ->
     is_Some (spawned_in w o) ->
     is_Some (wp_job p) /\ forall c e, ww_exits w !! c = Some e -> we_object e = o -> ww_killed w !! we_flag e = Some true) ->
  win_step w (alter_proc f o w).
Proof.
  intros Hf Hd. apply win_step_procs.
  - intros o'. destruct (decide (o' = o)) as [->|Hne].
    + rewrite lookup_alter_eq. destruct (ww_procs w !! o) eqn:E; cbn; [by apply Hf|done].
    + rewrite lookup_alter_ne by done. destruct (ww_procs w !! o'); [apply proc_moves_refl|done].
  - intros m o' p p' Hm E E' D' D S. destruct (decide (o' = o)) as [->|Hne].
    + rewrite lookup_alter_eq, E in E'. injection E' as <-. by apply (Hd m p).
    + rewrite lookup_alter_ne in E' by done. congruence.
Qed.

Lemma win_step_terminate o code w : code <> KILLED -> win_step w (terminate_process o code w).1.
Proof.
  intros Hc. unfold terminate_process. destruct (ww_procs w !! o) as [p|]; [|apply win_step_refl].
  destruct (wp_running p); [|apply win_step_refl]. apply win_step_alter.
  - intros q _. apply proc_moves_terminate.
  - intros m q _ _ H1 H2 _. by destruct Hc; eapply terminate_doomed.
Qed.

(** The one channel of a slot's process is the slot's. *)
Lemma slot_channel m w key s c e :
  win_ok m w -> ww_slots w !! key = Some s -> ww_exits w !! c = Some e -> we_object e = ws_process s ->
  c = ws_exit s /\ we_flag e = ws_killed s.
Proof.
  intros Hm Es E Eo. destruct (wk_slots _ _ Hm key s Es) as (e' & p & E' & Eo' & Ef & _).
  assert (c = ws_exit s) as -> by (apply (wk_channel_inj _ _ Hm c _ e e'); [done..|congruence]). split; [done|congruence].
Qed.

Lemma win_step_slot_flag key s w : ww_slots w !! key = Some s -> win_step w (set_flag (ws_killed s) w).
Proof.
  intros Es m Hm. destruct (wk_slots _ _ Hm key s Es) as (e & p & E & _ & Ef & _).
  apply (win_step_flag (ws_killed s) w); [|done]. rewrite <- Ef. apply (ck_flag _ _ _ (wk_channels _ _ Hm _ _ E)).
Qed.

Lemma win_step_signal key f1 f2 w : win_step w (signal_section key f1 f2 w).1.
Proof.
  unfold signal_section. destruct (ww_slots w !! key) as [s|] eqn:Es; [|apply win_step_refl].
  destruct f1 as [text|]; [apply win_step_refl|].
  destruct (negb _) eqn:Hx; [apply win_step_refl|]. pose proof (win_step_slot_flag key s w Es) as Hflag.
  destruct f2 as [text|]; [exact Hflag|].
  destruct (terminate_process _ _ _) as [w' r] eqn:Et. apply (f_equal fst) in Et. cbn in Et. subst w'. cbn [fst].
  eapply win_step_trans; [exact Hflag|]. unfold terminate_process. cbn.
  destruct (ww_procs w !! ws_process s) as [p|] eqn:Ep; [|apply win_step_refl].
  destruct (wp_running p) eqn:Er; [|apply win_step_refl]. apply win_step_alter.
  - intros q _. apply proc_moves_terminate.
  - cbn. intros m q Hm Eq _ _ Hs. rewrite Ep in Eq. injection Eq as <-. split.
    + destruct (wk_slots _ _ Hm key s Es) as (e & p' & _ & _ & _ & Ep' & _ & _ & J & _). cbn in Ep'. congruence.
    + intros c e E Eo. destruct (slot_channel m _ key s c e Hm Es E Eo) as [_ ->]. apply lookup_insert_eq.
Qed.

(** *** The kill of scopes *)

Lemma flag_slots_spec scope w :
  exists flags, flag_slots scope w = set_wkilled flags w /\
    (forall s, s ∈ win_slots scope w -> flags !! ws_killed s = Some true).
Proof.
  unfold flag_slots. assert (H : forall l w0, exists flags, foldl (fun w s => set_flag (ws_killed s) w) w0 l = set_wkilled flags w0 /\
    (forall s, s ∈ l -> flags !! ws_killed s = Some true) /\ forall kf, ww_killed w0 !! kf = Some true -> flags !! kf = Some true).
  { induction l as [|s l IH]; intros w0; cbn [foldl].
    - exists (ww_killed w0). split_and!; [by destruct w0|by intros s ?%elem_of_nil|done].
    - destruct (IH (set_flag (ws_killed s) w0)) as (flags & -> & Hl & Hm). cbn in Hm. exists flags. split_and!; [done|..].
      + intros s' [->|Hin]%elem_of_cons; [|by apply Hl]. apply Hm, lookup_insert_eq.
      + intros kf E. apply Hm. destruct (decide (kf = ws_killed s)) as [->|?]; [apply lookup_insert_eq|by rewrite lookup_insert_ne]. }
  destruct (H (win_slots scope w) w) as (flags & E & Hl & _). by exists flags.
Qed.

Lemma win_slots_slot scope w s : s ∈ win_slots scope w -> exists key, ww_slots w !! key = Some s.
Proof.
  unfold win_slots. rewrite list_elem_of_filter, list_elem_of_fmap. intros [_ ([key s'] & -> & Hin)].
  exists key. by apply elem_of_map_to_list in Hin.
Qed.
Lemma slot_win_slots scope w key s :
  ww_slots w !! key = Some s -> match scope with None => True | Some scope => ws_scope s = scope end -> s ∈ win_slots scope w.
Proof.
  intros E Hs. unfold win_slots. rewrite list_elem_of_filter, list_elem_of_fmap. split.
  - destruct scope; [by apply bool_decide_eq_true|done].
  - exists (key, s). by rewrite elem_of_map_to_list.
Qed.

Lemma win_step_flag_slots scope w : win_step w (flag_slots scope w).
Proof.
  unfold flag_slots.
  assert (H : forall l w0, ww_slots w0 = ww_slots w -> (forall s, s ∈ l -> exists key, ww_slots w !! key = Some s) ->
    win_step w0 (foldl (fun w s => set_flag (ws_killed s) w) w0 l)).
  { induction l as [|s l IH]; intros w0 E0 Hl; cbn [foldl]; [apply win_step_refl|].
    destruct (Hl s) as [key Es]; [left|]. eapply win_step_trans.
    - apply (win_step_slot_flag key). by rewrite E0.
    - apply IH; [done|]. intros s' ?. apply Hl. by right. }
  apply H; [done|]. apply win_slots_slot.
Qed.

Lemma win_step_retry_slots scope w : win_step w (retry_slots scope w).
Proof.
  unfold retry_slots. generalize (win_slots scope w). intros l. revert w.
  induction l as [|s l IH]; intros w; cbn [foldl]; [apply win_step_refl|].
  eapply win_step_trans; [apply win_step_retries|apply IH].
Qed.

Definition flagged (scope : ProcessScopeId) (w : WinWorld) : Prop :=
  forall key s, ww_slots w !! key = Some s -> ws_scope s = scope -> ww_killed w !! ws_killed s = Some true.

Lemma flag_slots_flagged o scope w : match o with None => True | Some s => s = scope end -> flagged scope (flag_slots o w).
Proof.
  intros Ho. destruct (flag_slots_spec o w) as (flags & -> & Hf). intros key s Es Esc. cbn in Es |- *.
  apply Hf. eapply slot_win_slots; [exact Es|]. destruct o; [congruence|done].
Qed.

Lemma terminate_job_lookup j code ps o :
  terminate_job j code ps !! o = (p ← ps !! o; Some (if in_job j p then wp_terminate code p else p)).
Proof. unfold terminate_job. rewrite lookup_fmap. by destruct (ps !! o). Qed.

Lemma terminate_job_moves j code ps o :
  match ps !! o, terminate_job j code ps !! o with Some p, Some p' => proc_moves p p' | None, None => True | _, _ => False end.
Proof.
  rewrite terminate_job_lookup. destruct (ps !! o) as [p|]; cbn; [|done].
  destruct (in_job j p); [apply proc_moves_terminate|apply proc_moves_refl].
Qed.

Lemma win_step_kill_job refused scope w : flagged scope w -> win_step w (kill_job refused scope w).1.
Proof.
  intros Hfl. unfold kill_job. destruct (ww_jobs w !! scope) as [j|] eqn:Ej; [|apply win_step_refl].
  destruct refused as [text|]; [apply win_step_refl|]. cbn [fst]. apply win_step_procs; [apply terminate_job_moves|].
  intros m o p p' Hm Ep Ep' Hd' Hd [sc Hs]. rewrite terminate_job_lookup, Ep in Ep'. cbn in Ep'. injection Ep' as <-.
  destruct (in_job j p) eqn:Hj; [|done]. unfold in_job in Hj. apply bool_decide_eq_true in Hj.
  split; [by exists j|]. intros c e Ee Eo.
  destruct (wk_spawned _ _ Hm o sc Hs) as (q & Eq & [_ Pj _]). rewrite Ep in Eq. injection Eq as <-.
  assert (sc = scope) as ->. { specialize (Pj j Hj). rewrite (wk_jobs _ _ Hm scope j Ej) in Pj. congruence. }
  destruct (wk_channels _ _ Hm c e Ee) as [_ _ V L _]. destruct (unanswered e) eqn:Hu.
  - destruct (L eq_refl) as (key & s & Es & <-). destruct (wk_slots _ _ Hm key s Es) as (e' & q & Ee' & Eo' & Ef & _ & _ & _ & _ & Hsc).
    rewrite Ee in Ee'. injection Ee' as <-. rewrite Ef. apply (Hfl key s Es). rewrite <- Eo', Eo in Hsc. congruence.
  - exfalso. unfold unanswered in Hu. destruct (we_value e) as [[raw|]|] eqn:Ev; try done.
    destruct (V raw eq_refl) as (q & code & killed & Eq & X & _). rewrite Eo, Ep in Eq. injection Eq as <-.
    apply Hd. unfold wp_terminate in Hd'. by rewrite X in Hd'.
Qed.

Lemma win_step_kill_scope scope refused w : win_step w (kill_scope_section scope refused w).1.
Proof.
  unfold kill_scope_section. destruct (kill_job _ _ _) as [w1 r] eqn:E. apply (f_equal fst) in E. cbn in E. subst w1. cbn [fst].
  eapply win_step_trans; [apply win_step_flag_slots|]. eapply win_step_trans; [|apply win_step_retry_slots].
  apply win_step_kill_job. by apply flag_slots_flagged.
Qed.

Lemma win_step_hard_kill_all refusals w :
  win_step w (retry_slots None
    (foldl (fun w scope => (kill_job (refusals scope) scope w).1) (flag_slots None w) (map_to_list (ww_jobs w)).*1)).
Proof.
  eapply win_step_trans; [apply win_step_flag_slots|]. eapply win_step_trans; [|apply win_step_retry_slots].
  assert (H : forall l w0, (forall scope, flagged scope w0) ->
    win_step w0 (foldl (fun w scope => (kill_job (refusals scope) scope w).1) w0 l)).
  { induction l as [|scope l IH]; intros w0 Hf; cbn [foldl]; [apply win_step_refl|].
    eapply win_step_trans; [by apply win_step_kill_job|]. apply IH. intros scope'. unfold kill_job.
    destruct (ww_jobs w0 !! scope), (refusals scope); exact (Hf scope'). }
  apply H. intros scope. by apply flag_slots_flagged.
Qed.

(** ** The cleanup of a scope *)

Lemma no_active j ps o p :
  (Z.of_nat (length (active_processes j ps)) =? 0) = true -> ps !! o = Some p -> wp_job p = Some j -> is_Some (wp_exit p).
Proof.
  intros H Ep Ej. apply Z.eqb_eq in H. assert (Hn : active_processes j ps = []) by (destruct (active_processes j ps); cbn in H; [done|lia]).
  destruct (wp_exit p) as [code|] eqn:X; [by exists code|]. exfalso.
  assert (Hin : (o, p) ∈ active_processes j ps).
  { unfold active_processes. rewrite list_elem_of_filter. split; [|by apply elem_of_map_to_list].
    unfold in_job, wp_running. cbn. by rewrite bool_decide_eq_true_2, X. }
  rewrite Hn in Hin. by apply elem_of_nil in Hin.
Qed.

(** What is in a job that is not in the state, or that is empty, has exited. *)
Lemma scope_members_ended m w scope :
  win_ok m w -> (forall j o p, ww_jobs w !! scope = Some j -> ww_procs w !! o = Some p -> wp_job p = Some j -> is_Some (wp_exit p)) ->
  forall o, o ∈ scope_members scope w -> exists p, ww_procs w !! o = Some p /\ is_Some (wp_exit p).
Proof.
  intros Hm Hj o Hin. unfold scope_members in Hin. apply list_elem_of_fmap in Hin as ([o' p] & -> & Hin).
  apply list_elem_of_filter in Hin as [Hs Hin]. apply elem_of_map_to_list in Hin. cbn in *. exists p. split; [done|].
  apply bool_decide_eq_true in Hs. unfold process_scope in Hs. destruct (wp_job p) as [j|] eqn:Ej; [|done]. cbn in Hs.
  destruct (wk_members _ _ Hm o' p j Hin Ej) as (scope' & Esc & Hr). unfold job_scope in Hs. rewrite Esc in Hs. injection Hs as ->.
  destruct (wp_exit p) as [code|] eqn:X; [by exists code|]. rewrite <- X. by apply (Hj j o' p (Hr eq_refl)).
Qed.

Lemma win_step_log_cleaned scope w :
  (forall m, win_ok m w -> forall o, o ∈ scope_members scope w -> exists p, ww_procs w !! o = Some p /\ is_Some (wp_exit p)) ->
  win_step w (wlog_cleaned scope w).
Proof.
  intros Hc m Hm. pose proof Hm as [Kc Kn Kp Kh Ki Ks Kl Ke Kei Kj Km Kcl Kw Kt]. split; [|split; cbn; eauto 10].
  split; try assumption; cbn.
  - intros o sc E. destruct (Ks o sc E) as (p & Ep & [C J U]). by exists p.
  - intros c e E. destruct (Ke c e E) as [A B V L D]. by split.
  - intros sc os o [H|H%list_elem_of_singleton]%elem_of_app; [intros Ho; by apply (Kcl sc os o)|]. injection H as -> ->. by apply (Hc m).
Qed.

(** The empty job of a scope is closed. *)
Lemma win_step_close_job scope j w :
  ww_jobs w !! scope = Some j -> (forall o p, ww_procs w !! o = Some p -> wp_job p = Some j -> is_Some (wp_exit p)) ->
  win_step w (set_wprocs (terminate_job j 0 (ww_procs w)) (set_jobs (delete scope (ww_jobs w)) w)).
Proof.
  intros Ej Hx. apply (win_step_trans _ (set_jobs (delete scope (ww_jobs w)) w)).
  - intros m [Kc Kn Kp Kh Ki Ks Kl Ke Kei Kj Km Kcl Kw Kt]. split; [|split; cbn; eauto 10]. split; try assumption; cbn.
    + intros o sc E. destruct (Ks o sc E) as (p & Ep & [C J U]). by exists p.
    + intros c e E. destruct (Ke c e E) as [A B V L D]. by split.
    + intros sc j' [_ E]%lookup_delete_Some. by apply Kj.
    + intros o p j' Ep Ejob. destruct (Km o p j' Ep Ejob) as (sc & Esc & Hr). exists sc. split; [done|]. intros X.
      apply lookup_delete_Some. split; [|by apply Hr]. intros ->. rewrite (Hr X) in Ej. injection Ej as ->.
      destruct (Hx o p Ep Ejob). congruence.
  - apply win_step_procs; [apply terminate_job_moves|]. cbn. intros m o p p' _ Ep Ep' Hd' Hd _. exfalso.
    rewrite terminate_job_lookup, Ep in Ep'. cbn in Ep'. injection Ep' as <-. destruct (in_job j p); [|done].
    by apply terminate_doomed in Hd'.
Qed.

Lemma win_step_cleanup_look scope f w : win_step w (cleanup_look scope f w).1.
Proof.
  unfold cleanup_look. destruct (ww_jobs w !! scope) as [j|] eqn:Ej.
  - destruct f as [text|]; [apply win_step_refl|]. destruct (_ =? 0) eqn:Ha; [|apply win_step_refl]. cbn [fst].
    eapply win_step_trans; [apply win_step_close_job; [exact Ej|]|].
    + intros o p. by eapply no_active.
    + apply win_step_log_cleaned. intros m Hm o. eapply scope_members_ended; [exact Hm|]; cbn. intros j' o' p E.
      by rewrite lookup_delete_eq in E.
  - apply win_step_log_cleaned. intros m Hm o. eapply scope_members_ended; [exact Hm|]. congruence.
Qed.
