(* ===== verification/WindowsOwners.v ===== *)
(** * WindowsOwners: the steps that make, register and release a child

    A spawn owns the handle of its child until a waiter does; nobody else changes that entry of the
    map [m]. *)

From stdpp Require Import base list gmap strings.
From S2P Require Import Prelude StdModel Values Observation Usage Ports Conc Procfs Native Windows WindowsInv.

Open Scope Z_scope.
Open Scope prog_scope.

(** ** A process starts *)

Lemma identity_free id w o p :
  identity_taken id (ww_procs w) = false -> ww_procs w !! o = Some p -> wp_pid p = id.1 ->
  wp_gone p = true /\ wp_created p <> id.2.
Proof.
  intros Ht Ep Epid. destruct (decide (wp_gone p = true /\ wp_created p <> id.2)) as [?|Hn]; [done|].
  exfalso. apply not_true_iff_false in Ht. apply Ht. unfold identity_taken. apply existsb_exists.
  exists (o, p). split; [by apply list_elem_of_In, elem_of_map_to_list|]. cbn.
  rewrite Epid, Z.eqb_refl. destruct (wp_gone p); [|done]. cbn. apply Z.eqb_eq.
  destruct (decide (wp_created p = id.2)); [done|]. by destruct Hn.
Qed.

Definition new_process (p : WinProcess) (w : WinWorld) : WinWorld := set_wprocs (<[ww_next w := p]> (ww_procs w)) (wbump w).

Lemma win_step_new_process p w :
  identity_taken (wp_pid p, wp_created p) (ww_procs w) = false ->
  (forall m j, win_ok m w -> wp_job p = Some j -> exists scope, scope_of_job w j = Some scope /\ ww_jobs w !! scope = Some j) ->
  win_step w (new_process p w).
Proof.
  intros Ht Hj m Hm. pose proof Hm as [Kc Kn Kp Kh Ki Ks Kl Ke Kei Kj Km Kcl Kw Kt].
  assert (Hnone : ww_procs w !! ww_next w = None) by (apply (Kn (ww_next w)); lia).
  assert (Hold : forall o q, ww_procs w !! o = Some q -> <[ww_next w := p]> (ww_procs w) !! o = Some q).
  { intros o q E. rewrite lookup_insert_ne; [done|]. intros <-. congruence. }
  assert (Hl : win_later w (new_process p w)) by (split; cbn; eauto 10).
  split; [|exact Hl]. split; try assumption; cbn.
  - intros n Hn. destruct (Kn n) as (? & ? & ? & ? & ?); [lia|]. split_and!; try done. rewrite lookup_insert_ne; [done|lia].
  - assert (Hfresh : forall o q, ww_procs w !! o = Some q -> wp_pid q = wp_pid p ->
      (wp_gone q = false /\ wp_gone p = false) \/ wp_created q = wp_created p -> False).
    { intros o q E Epid Hor. destruct (identity_free _ w o q Ht E Epid) as [Hg Hne]. cbn in Hne. naive_solver congruence. }
    intros o1 o2 p1 p2 [[<- <-]|[_ E1]]%lookup_insert_Some [[<- <-]|[_ E2]]%lookup_insert_Some Hpid Hor; [done|..].
    + exfalso. apply (Hfresh o2 p2 E2); [done|]. destruct Hor as [[? ?]|?]; [by left|by right].
    + exfalso. by apply (Hfresh o1 p1 E1).
    + by apply (Kp o1 o2 p1 p2).
  - intros h o fresh E. destruct (Kh h o fresh E) as (q & Eq & ?). exists q. split; [by apply Hold|done].
  - intros o scope E. destruct (Ks o scope E) as (q & Eq & [C J U]). exists q. split; [by apply Hold|by split].
  - intros key s E. destruct (Kl key s E) as (e & q & ? & ? & ? & Eq & ?). exists e, q. cbn. split_and!; try done; [by apply Hold|naive_solver..].
  - intros c e E. destruct (Ke c e E) as [A B V L D]. split; cbn; try done.
    + intros raw Hv. eapply exit_true_later; [exact Hl|]. by apply V.
    + intros q Eq Hd. apply (D q); [|done]. destruct A as [sc A]. destruct (Ks _ sc A) as (q' & Eq' & _).
      rewrite (Hold _ _ Eq') in Eq. congruence.
  - intros o q j [[<- <-]|[_ E]]%lookup_insert_Some Ejob.
    + destruct (Hj m j Hm Ejob) as (scope & ? & ?). by exists scope.
    + by apply (Km o q j).
  - intros scope os o H1 H2. destruct (Kcl scope os o H1 H2) as (q & Eq & X). exists q. split; [by apply Hold|done].
  - intros os o raw H. destruct (Kw os o raw H) as ((q & Eq & ?) & Hx). split; [exists q; split; [by apply Hold|done]|].
    by eapply answer_true_later.
Qed.

(** ** A child is made *)

Lemma create_process_ok scope id w m :
  win_ok m w ->
  match (create_process scope id w).2 with
  | None => (create_process scope id w).1 = w
  | Some h => exists o, m !! h = None /\ win_ok (<[h := (o, Fresh)]> m) (create_process scope id w).1 /\
      win_later w (create_process scope id w).1 /\ spawned_in (create_process scope id w).1 o = Some scope
  end.
Proof.
  intros Hm. unfold create_process. destruct (identity_taken id (ww_procs w)) eqn:Ht; [done|]. cbn [fst snd].
  set (p := mkWinProcess id.1 id.2 None true None None false). set (o := ww_next w).
  destruct (win_step_new_process p w) with (m := m) as [Hm1 Hl1]; [by destruct id|done|exact Hm|].
  pose proof Hm as [_ Kn0 _ Kh0 _ Ks0 _ Ke0 _ _ _ _ _].
  assert (Hs : spawned_in w o = None).
  { destruct (spawned_in w o) as [sc|] eqn:E; [|done]. destruct (Ks0 o sc E) as (q & Eq & _).
    destruct (Kn0 o) as (En & _); [lia|]. congruence. }
  assert (Hh : forall h b, m !! h = Some (o, b) -> False).
  { intros h b E. destruct (Kh0 h o b E) as (q & Eq & _). destruct (Kn0 o) as (En & _); [lia|]. congruence. }
  assert (Hc : forall c e, ww_exits w !! c = Some e -> we_object e <> o).
  { intros c e E Eo. destruct (ck_spawned _ _ _ (Ke0 c e E)) as [sc Esc]. rewrite Eo in Esc. congruence. }
  destruct (Kn0 (S o)) as (En1 & En2 & En3 & En4 & En5); [lia|].
  set (w' := wlog_spawned o scope _). exists o.
  pose proof Hm1 as [Kc Kn Kp Kh Ki Ks Kl Ke Kei Kj Km Kcl Kw Kt].
  assert (Ep : ww_procs w' !! o = Some p) by apply lookup_insert_eq.
  assert (Hl2 : win_later (new_process p w) w').
  { split; cbn; [eauto 10|eauto 10|done|]. intros o' sc E. rewrite lookup_insert_ne; [done|]. intros <-. congruence. }
  split; [done|]. split; [|split; [by etrans|apply lookup_insert_eq]].
  split; try assumption; cbn.
  - rewrite fmap_insert. cbn. by rewrite <- Kc.
  - intros n Hn. destruct (Kn n) as (? & ? & ? & ? & ?); [cbn; lia|]. split_and!; try done. rewrite lookup_insert_ne; [done|]. lia.
  - intros h o' fresh [[<- [= <- <-]]|[Hne E]]%lookup_insert_Some.
    + exists p. split_and!; [done|done|by rewrite lookup_insert_eq; eexists|]. intros _. split; [done|]. exact Hc.
    + destruct (Kh h o' fresh E) as (q & Eq & G & S & F). exists q. split_and!; [exact Eq|done| |done].
      destruct (decide (o' = o)) as [->|?]; [rewrite lookup_insert_eq; by eexists|by rewrite lookup_insert_ne].
  - intros h1 h2 o' b1 b2 [[<- [= <- <-]]|[_ E1]]%lookup_insert_Some [[<- E2]|[_ E2]]%lookup_insert_Some.
    + done.
    + by destruct (Hh h2 b2).
    + injection E2 as <- <-. by destruct (Hh h1 b1).
    + by eapply Ki.
  - intros o' sc [[<- <-]|[_ E]]%lookup_insert_Some.
    + exists p. split; [done|]. by split.
    + destruct (Ks o' sc E) as (q & Eq & [C J U]). exists q. split; [exact Eq|by split].
  - intros key s E. destruct (Kl key s E) as (e & q & ? & ? & ? & Eq & ? & ? & ? & Hsp). exists e, q. split_and!; try done. cbn.
    rewrite lookup_insert_ne; [done|]. intros Eo. rewrite <- Eo in Hsp. cbn in Hsp. congruence.
  - intros c e E. destruct (Ke c e E) as [A B V L D]. split; cbn; try done.
    rewrite lookup_insert_ne; [done|]. intros Eo. by destruct (Hc c e E).
  - intros h o' u c e [[<- [= <- <-]]|[_ E]]%lookup_insert_Some; [|by apply (Kt h o' u c e)]. intros _ Ee Eo. by destruct (Hc c e).
Qed.

(** ** The setup of a child *)

Lemma ensure_job_ok scope failed w :
  win_step w (ensure_job scope failed w).1 /\
  match (ensure_job scope failed w).2 with
  | Ok j => ww_jobs (ensure_job scope failed w).1 !! scope = Some j
  | Err _ => True
  end /\
  ww_procs (ensure_job scope failed w).1 = ww_procs w /\ ww_exits (ensure_job scope failed w).1 = ww_exits w /\
  ww_children (ensure_job scope failed w).1 = ww_children w.
Proof.
  unfold ensure_job. destruct (ww_jobs w !! scope) as [j|] eqn:Ej; [split; [apply win_step_refl|done]|].
  destruct failed as [text|]; [split; [apply win_step_refl|done]|]. cbn. split; [|by rewrite lookup_insert_eq].
  intros m [Kc Kn Kp Kh Ki Ks Kl Ke Kei Kj Km Kcl Kw Kt].
  assert (Hold : forall j s, scope_of_job w j = Some s -> <[ww_next w := scope]> (wh_job_scopes (ww_history w)) !! j = Some s).
  { intros j s E. rewrite lookup_insert_ne; [done|]. intros <-. destruct (Kn (ww_next w)) as (_ & _ & _ & _ & E'); [lia|]. congruence. }
  split; [|split; cbn; eauto 10]. split; try assumption; cbn.
  - intros n Hn. destruct (Kn n) as (? & ? & ? & ? & ?); [lia|]. split_and!; try done. rewrite lookup_insert_ne; [done|lia].
  - intros o sc E. destruct (Ks o sc E) as (p & Ep & [C J U]). exists p. split; [done|]. split; [done| |done].
    intros j Hj. by apply Hold, J.
  - intros c e E. destruct (Ke c e E) as [A B V L D]. by split.
  - intros sc j [[<- <-]|[_ E]]%lookup_insert_Some; [apply lookup_insert_eq|]. by apply Hold, Kj.
  - intros o p j Ep Hj. destruct (Km o p j Ep Hj) as (sc & Esc & Hr). exists sc. split; [by apply Hold|]. intros X.
    rewrite lookup_insert_ne; [by apply Hr|]. intros <-. rewrite (Hr X) in Ej. congruence.
Qed.

(** A child is used, and its exit is reported. *)
Lemma use_child m w h o u u' :
  win_ok m w -> m !! h = Some (o, u) -> u <> Reported -> u' <> Fresh -> win_ok (<[h := (o, u')]> m) w.
Proof.
  intros [Kc Kn Kp Kh Ki Ks Kl Ke Kei Kj Km Kcl Kw Kt] E Hu Hu'. split; try assumption.
  - rewrite fmap_insert, Kc. cbn. rewrite insert_id; [done|]. by rewrite lookup_fmap, E.
  - intros n Hn. destruct (Kn n Hn) as (? & Em & ? & ? & ?). split_and!; try done. rewrite lookup_insert_ne; [done|].
    intros ->. congruence.
  - intros h' o' fresh [[<- [= <- <-]]|[Hne E']]%lookup_insert_Some.
    + destruct (Kh h o _ E) as (p & Ep & G & S & _). exists p. by split_and!.
    + by apply (Kh h').
  - intros h1 h2 o' b1 b2 E1 E2. apply lookup_insert_Some in E1 as [[<- [= <- _]]|[_ E1]], E2 as [[<- E2]|[_ E2]].
    + done.
    + by eapply Ki.
    + injection E2 as <- _. by eapply Ki.
    + by eapply Ki.
  - intros h' o' v c e [[<- [= <- <-]]|[_ E']]%lookup_insert_Some Hv; [|by apply (Kt h' o' v c e)]. by apply (Kt h o u c e).
Qed.

(** The change of one process, which stays in the map of its number. *)
Lemma alter_child m w o p f :
  win_ok m w -> ww_procs w !! o = Some p ->
  wp_pid (f p) = wp_pid p -> wp_created (f p) = wp_created p ->
  wp_gone (f p) = wp_gone p \/ (wp_gone (f p) = true /\ (forall h u, m !! h <> Some (o, u)) /\ (forall key s, ww_slots w !! key = Some s -> ws_process s <> o)) ->
  wp_exit (f p) = wp_exit p -> wp_doomed (f p) = wp_doomed p ->
  (forall h, m !! h <> Some (o, Fresh)) -> (wp_job p <> None -> wp_job (f p) = wp_job p) ->
  (forall scope, spawned_in w o = Some scope -> process_ok scope w (f p)) ->
  (forall j, wp_job (f p) = Some j -> exists scope, scope_of_job w j = Some scope /\ (wp_exit p = None -> ww_jobs w !! scope = Some j)) ->
  win_ok m (alter_proc f o w) /\ win_later w (alter_proc f o w).
Proof.
  intros [Kc Kn Kp Kh Ki Ks Kl Ke Kei Kj Km Kcl Kw Kt] Ep Hpid Hcr Hg Hx Hd Hm Hjob Hok Hj.
  assert (Hgf : wp_gone (f p) = false -> wp_gone p = false) by naive_solver congruence.
  assert (Hto : forall o' q, ww_procs w !! o' = Some q -> exists q', alter f o (ww_procs w) !! o' = Some q' /\
      wp_pid q' = wp_pid q /\ wp_created q' = wp_created q /\ wp_exit q' = wp_exit q /\ wp_doomed q' = wp_doomed q).
  { intros o' q E. destruct (decide (o' = o)) as [->|?].
    - rewrite lookup_alter_eq, E. assert (q = p) as -> by congruence. eexists. split; [done|]. by split_and!.
    - rewrite lookup_alter_ne by done. by exists q. }
  assert (Hfrom : forall o' q', alter f o (ww_procs w) !! o' = Some q' ->
      exists q, ww_procs w !! o' = Some q /\ (q' = q /\ o' <> o \/ q' = f p /\ o' = o /\ q = p)).
  { intros o' q' E. apply lookup_alter_Some in E as [(-> & q & E & ->)|[? E]].
    - rewrite Ep in E. injection E as <-. exists p. split; [done|]. by right.
    - exists q'. split; [done|]. left. done. }
  assert (Hl : win_later w (alter_proc f o w)).
  { split; cbn; [eauto 10| |done|done]. intros o' q E. destruct (Hto o' q E) as (q' & E' & ? & ? & X & D). exists q'.
    split_and!; try done. intros code. rewrite X, D. done. }
  split; [|exact Hl]. split; try assumption; cbn.
  - intros n Hn. destruct (Kn n Hn) as (En & ?). split; [|done]. apply eq_None_not_Some. intros [q' E]. destruct (Hfrom n q' E) as (q & ? & _). congruence.
  - intros o1 o2 q1 q2 E1 E2 Epid Hor. destruct (Hfrom _ _ E1) as (r1 & F1 & C1), (Hfrom _ _ E2) as (r2 & F2 & C2).
    apply (Kp o1 o2 r1 r2 F1 F2); destruct C1 as [[-> _]|(-> & _ & ->)], C2 as [[-> _]|(-> & _ & ->)]; rewrite ?Hpid, ?Hcr in *; naive_solver.
  - intros h o' u E. destruct (Kh h o' u E) as (q & Eq & G & S & F). destruct (decide (o' = o)) as [->|Hne].
    + exists (f p). rewrite lookup_alter_eq, Ep. rewrite Eq in Ep. injection Ep as ->.
      destruct Hg as [Hg|(_ & Hno & _)]; [|by destruct (Hno h u)]. split_and!; [done|congruence|done|].
      intros ->. by destruct (Hm h).
    + exists q. rewrite lookup_alter_ne by done. done.
  - intros o' sc E. destruct (Ks o' sc E) as (q & Eq & [C J U]). destruct (decide (o' = o)) as [->|Hne].
    + exists (f p). rewrite lookup_alter_eq, Ep. split; [done|]. destruct (Hok sc E) as [C' J' U']. by split.
    + exists q. rewrite lookup_alter_ne by done. split; [done|by split].
  - intros key s E. destruct (Kl key s E) as (e & q & ? & ? & ? & Eq & Hk & G & [j J] & S). destruct (decide (ws_process s = o)) as [Eo|Hne].
    + rewrite Eo in Eq. rewrite Ep in Eq. injection Eq as <-. exists e, (f p). cbn.
      destruct Hg as [Hg|(_ & _ & Hno)]; [|by destruct (Hno key s)]. rewrite Eo, lookup_alter_eq, Ep, Hpid, Hcr, Hg.
      rewrite Eo in *. split_and!; try done. rewrite Hjob by congruence. by exists j.
    + exists e, q. cbn. rewrite lookup_alter_ne by done. by split_and!.
  - intros c e E. destruct (Ke c e E) as [A B V L D]. split; cbn; try done.
    + intros raw Hv. eapply exit_true_later; [exact Hl|]. by apply V.
    + intros q' E' Hd'. destruct (Hfrom _ _ E') as (q & Eq & Hq). apply (D q Eq).
      destruct Hq as [[-> _]|(-> & _ & ->)]; [done|congruence].
  - intros o' q' j E' Hj'. destruct (Hfrom _ _ E') as (q & Eq & [[-> _]|(-> & -> & ->)]).
    + by apply (Km o' q j).
    + destruct (Hj j Hj') as (sc & ? & Hr). exists sc. split; [done|]. rewrite Hx. done.
  - intros scope os o' H1 H2. destruct (Kcl scope os o' H1 H2) as (q & Eq & X). destruct (Hto o' q Eq) as (q' & E' & ? & ? & X' & ?).
    exists q'. split; [done|]. by rewrite X'.
  - intros os o' raw H. destruct (Kw os o' raw H) as ((q & Eq & Hk) & Ht). split.
    + destruct (Hto o' q Eq) as (q' & E' & E1 & E2 & _). exists q'. split; [done|]. congruence.
    + by eapply answer_true_later.
Qed.

(** A number that is in use names one object. *)
Lemma at_number_unique m w o p pid :
  win_ok m w -> ww_procs w !! o = Some p -> wp_pid p = pid -> wp_gone p = false -> at_number pid (ww_procs w) = Some (o, p).
Proof.
  intros Hm Ep Epid Hg. unfold at_number.
  assert (Hin : (o, p) ∈ filter (fun e : nat * WinProcess => (wp_pid e.2 =? pid) && negb (wp_gone e.2) = true) (map_to_list (ww_procs w))).
  { apply list_elem_of_filter. split; [cbn; by rewrite Epid, Z.eqb_refl, Hg|by apply elem_of_map_to_list]. }
  destruct (filter _ _) as [|[o' p'] l] eqn:E; [by apply elem_of_nil in Hin|]. cbn. f_equal.
  assert (Hin' : (o', p') ∈ (o', p') :: l) by left. rewrite <- E in Hin'. apply list_elem_of_filter in Hin' as [Hf Hin'].
  apply elem_of_map_to_list in Hin'. cbn in Hf. apply andb_true_iff in Hf as [Hf1 Hf2]. apply Z.eqb_eq in Hf1. apply negb_true_iff in Hf2.
  assert (o' = o) as ->. { apply (wk_pids _ _ Hm o' o p' p); [done|done|congruence|by left]. } congruence.
Qed.

Lemma resume_ok m w o p :
  win_ok m w -> ww_procs w !! o = Some p -> is_Some (wp_job p) -> (forall h, m !! h <> Some (o, Fresh)) ->
  win_ok m (alter_proc wp_resume o w) /\ win_later w (alter_proc wp_resume o w).
Proof.
  intros Hm Ep Hj Hh. eapply alter_child; try done; [by left|..].
  - intros scope Hs. destruct (wk_spawned _ _ Hm o scope Hs) as (q & Eq & [C J U]). rewrite Ep in Eq. injection Eq as <-.
    split; cbn; [done|exact J|exact U].
  - intros j Ej. by apply (wk_members _ _ Hm o p).
Qed.

(** What a child keeps while it is set up. *)
Definition registrable (p p' : WinProcess) : Prop :=
  wp_pid p' = wp_pid p /\ wp_created p' = wp_created p /\ wp_gone p' = wp_gone p /\ wp_doomed p' = wp_doomed p.

Lemma resume_threads_ok m o threads : forall found w p,
  win_ok m w -> ww_procs w !! o = Some p -> wp_gone p = false -> is_Some (wp_job p) -> (forall h, m !! h <> Some (o, Fresh)) ->
  let w' := (resume_threads (wp_pid p) threads found w).1 in
  win_ok m w' /\ win_later w w' /\ ww_children w' = ww_children w /\ ww_exits w' = ww_exits w /\
  (exists p', ww_procs w' !! o = Some p' /\ is_Some (wp_job p') /\ registrable p p').
Proof.
  induction threads as [|[text|] threads IH]; intros found w p Hm Ep Hg Hj Hh; cbn [resume_threads].
  1,2: split_and!; [done..|by exists p].
  rewrite (at_number_unique m w o p _ Hm Ep eq_refl Hg). destruct (resume_ok m w o p Hm Ep Hj Hh) as [Hm1 Hl1].
  destruct (IH true (alter_proc wp_resume o w) (wp_resume p)) as (H1 & H2 & H3 & H4 & H5); try done.
  { cbn. by rewrite lookup_alter_eq, Ep. }
  cbn in *. split_and!; try done; by etrans.
Qed.

Lemma resume_process_ok m o failed threads w p :
  win_ok m w -> ww_procs w !! o = Some p -> wp_gone p = false -> is_Some (wp_job p) -> (forall h, m !! h <> Some (o, Fresh)) ->
  let w' := (resume_process (wp_pid p) failed threads w).1 in
  win_ok m w' /\ win_later w w' /\ ww_children w' = ww_children w /\ ww_exits w' = ww_exits w /\
  (exists p', ww_procs w' !! o = Some p' /\ is_Some (wp_job p') /\ registrable p p').
Proof.
  intros Hm Ep Hg Hj Hh. unfold resume_process. destruct failed as [text|]; [split_and!; [done..|by exists p]|]. by apply resume_threads_ok.
Qed.

Lemma assign_ok m w h o p scope j :
  win_ok m w -> m !! h = Some (o, Watched) -> ww_procs w !! o = Some p -> wp_job p = None ->
  spawned_in w o = Some scope -> ww_jobs w !! scope = Some j ->
  win_ok m (alter_proc (wp_assign j) o w) /\ win_later w (alter_proc (wp_assign j) o w).
Proof.
  intros Hm Eh Ep Hn Hs Hj. pose proof (wk_jobs _ _ Hm scope j Hj) as Hsc. eapply alter_child; try done; [by left|..].
  - intros h' E. assert (h' = h) as -> by (by eapply (wk_child_inj _ _ Hm)). congruence.
  - intros scope' Hs'. assert (scope' = scope) as -> by congruence.
    destruct (wk_spawned _ _ Hm o scope Hs) as (q & Eq & [C J U]). rewrite Ep in Eq. injection Eq as <-.
    split; cbn; [by eexists| |done]. by intros j' [= <-].
  - cbn. intros j' [= <-]. by exists scope.
Qed.

Lemma register_ok m w o p os scope output :
  win_ok m w -> ww_procs w !! o = Some p -> wp_gone p = false -> is_Some (wp_job p) -> wp_doomed p <> Some KILLED ->
  spawned_in w o = Some scope -> win_key os = (wp_pid p, wp_created p) ->
  (forall c e, ww_exits w !! c = Some e -> we_object e <> o) -> (forall h, m !! h <> Some (o, Fresh)) ->
  let '(w', (c, rt, kf)) := register_win_slot scope os o output w in
  win_ok m w' /\ win_later w w' /\ exists e, ww_exits w' !! c = Some e /\ we_object e = o /\ we_flag e = kf.
Proof.
  intros Hm Ep Hg Hj Hd Hs Hk Hc Hh. pose proof Hm as [Kc Kn Kp Kh Ki Ks Kl Ke Kei Kj Km Kcl Kw Kt].
  assert (Hfree : ww_slots w !! win_key os = None).
  { destruct (ww_slots w !! win_key os) as [s|] eqn:E; [|done]. exfalso.
    destruct (Kl _ s E) as (e & q & Ee & Eo & _ & Eq & Hk' & Hg' & _). rewrite Hk in Hk'. injection Hk' as Hk1 Hk2.
    assert (ws_process s = o) as Eo' by (apply (Kp _ _ q p); [exact Eq|exact Ep|congruence|by left]). apply (Hc _ e Ee). congruence. }
  unfold register_win_slot, wdrop_slot. rewrite Hfree. cbn -[Nat.eqb].
  set (c := ww_next w). set (kf := S (S c)).
  assert (Ec : ww_exits w !! c = None) by (apply (Kn c); lia). assert (Ekf : ww_killed w !! kf = None) by (apply (Kn kf); lia).
  assert (Hold : forall x y, ww_exits w !! x = Some y -> <[c := mkWinExitChannel None 0 true o kf]> (ww_exits w) !! x = Some y).
  { intros x y E. rewrite lookup_insert_ne; [done|]. congruence. }
  assert (Hkf : forall x y, ww_killed w !! x = Some y -> <[kf := false]> (ww_killed w) !! x = Some y).
  { intros x y E. rewrite lookup_insert_ne; [done|]. congruence. }
  match goal with |- win_ok m ?x /\ _ => set (w' := x) end.
  assert (Hl : win_later w w') by (split; cbn; [|eauto 10|intros x; by apply Hkf|done]; intros x y E; exists y; split_and!; [by apply Hold|done..]).
  split; [|split; [exact Hl|]].
  2:{ eexists. split; [apply lookup_insert_eq|]. done. }
  split; try assumption; cbn.
  - intros n Hn. destruct (Kn n) as (? & ? & ? & ? & ?); [lia|]. split_and!; try done; (rewrite lookup_insert_ne; [done|lia]).
  - intros h o' u E. destruct (Kh h o' u E) as (q & Eq & G & S & F). exists q. split_and!; [done..|].
    intros Hf. destruct (F Hf) as [HJ HF]. split; [done|]. intros x y [[<- <-]|[_ Ey]]%lookup_insert_Some; [|by apply (HF x)].
    cbn. intros <-. subst u. by destruct (Hh h).
  - intros o' sc E. destruct (Ks o' sc E) as (q & Eq & [C J U]). exists q. split; [done|by split].
  - intros key s [[<- <-]|[_ E]]%lookup_insert_Some.
    + eexists _, p. cbn. split_and!; [apply lookup_insert_eq|done..].
    + destruct (Kl key s E) as (e & q & Ee & ? & ? & ?). exists e, q. cbn. split_and!; [by apply Hold|naive_solver..].
  - intros x e [[<- <-]|[Hne E]]%lookup_insert_Some.
    + split; cbn; [by exists scope|by rewrite lookup_insert_eq|done| |].
      * intros _. exists (win_key os). eexists. split; [apply lookup_insert_eq|done].
      * intros q Eq Hdq. congruence.
    + destruct (Ke x e E) as [A [b B] V L D]. split; cbn.
      * done.
      * exists b. by apply Hkf.
      * intros raw Hv. eapply exit_true_later; [exact Hl|]. by apply V.
      * intros Hu. destruct (L Hu) as (key & s & Es & Ex). exists key, s. split; [|done].
        rewrite lookup_insert_ne; [done|]. intros <-. congruence.
      * intros q Eq Hdq. apply Hkf. by apply (D q).
  - intros x1 x2 e1 e2 [[<- <-]|[_ E1]]%lookup_insert_Some [[<- <-]|[_ E2]]%lookup_insert_Some Ho; [done|..].
    + cbn in Ho. by destruct (Hc x2 e2).
    + cbn in Ho. by destruct (Hc x1 e1).
    + by apply (Kei x1 x2 e1 e2).
  - intros os' o' raw H. destruct (Kw os' o' raw H) as (? & Hx). split; [done|]. by eapply answer_true_later.
  - intros h o' u x e E Hu [[<- <-]|[_ Ee]]%lookup_insert_Some; [done|]. by apply (Kt h o' u x e).
Qed.

Lemma setup_section_ok scope h o p output f1 f2 f3 threads m w :
  let os := mkOsIdentity (wp_pid p) (StartTime (wp_created p)) in
  win_ok m w -> m !! h = Some (o, Fresh) -> ww_procs w !! o = Some p -> spawned_in w o = Some scope ->
  let '(w', r) := setup_section scope h os o output f1 f2 f3 threads w in
  win_ok (<[h := (o, Watched)]> m) w' /\ win_later w w' /\
  match r with
  | Ok (c, rt, kf) => exists e, ww_exits w' !! c = Some e /\ we_object e = o /\ we_flag e = kf
  | Err _ => True
  end.
Proof.
  intros os Hm Eh Ep Hs. destruct (wk_child _ _ Hm h o Fresh Eh) as (p0 & Ep0 & Hg & _ & Hf). rewrite Ep in Ep0. injection Ep0 as <-.
  destruct (Hf eq_refl) as [Hj Hc]. destruct (wk_spawned _ _ Hm o scope Hs) as (p0 & Ep0 & [_ _ Hund]).
  rewrite Ep in Ep0. injection Ep0 as <-. specialize (Hund Hj).
  assert (Hm0 : win_ok (<[h := (o, Watched)]> m) w) by (by eapply (use_child _ _ _ _ Fresh Watched)).
  assert (Hh : forall h', <[h := (o, Watched)]> m !! h' <> Some (o, Fresh)).
  { intros h' E. assert (h' = h) as -> by (eapply (wk_child_inj _ _ Hm0); [done|apply lookup_insert_eq]).
    by rewrite lookup_insert_eq in E. }
  assert (Hch : ww_children w !! h = Some o) by (rewrite (wk_children _ _ Hm), lookup_fmap, Eh; done).
  unfold setup_section. destruct (ensure_job_ok scope f1 w) as (Hst & Hjob & E1 & E2 & E3).
  destruct (ensure_job scope f1 w) as [w1 [j|text]]; cbn [fst snd] in *; destruct (Hst _ Hm0) as [Hm1 Hl1]; [|done].
  rewrite E3, Hch. destruct f2 as [text|]; [done|].
  destruct (assign_ok _ w1 h o p scope j Hm1) as [Hm2 Hl2]; [apply lookup_insert_eq|congruence|done|by apply (wl_spawned _ _ Hl1)|done|].
  set (w2 := alter_proc (wp_assign j) o w1) in *.
  assert (Ep2 : ww_procs w2 !! o = Some (wp_assign j p)) by (cbn; by rewrite lookup_alter_eq, E1, Ep).
  destruct (resume_process_ok _ o f3 threads w2 (wp_assign j p) Hm2 Ep2 Hg) as (Hm3 & Hl3 & E4 & E5 & p3 & Ep3 & Hj3 & R1 & R2 & R3 & R4);
    [by eexists|done|].
  change (os_pid os) with (wp_pid (wp_assign j p)).
  destruct (resume_process (wp_pid (wp_assign j p)) f3 threads w2) as [w3 [[]|text]]; cbn [fst snd] in *.
  2:{ split; [done|]. split; [by do 2 (etrans; [eassumption|])|done]. }
  assert (Hl : win_later w w3) by (by do 2 (etrans; [eassumption|])).
  pose proof (register_ok _ w3 o p3 os scope output Hm3 Ep3) as Hr.
  destruct (register_win_slot scope os o output w3) as [w4 [[c rt] kf]]. destruct Hr as (Hm4 & Hl4 & He).
  - by rewrite R3.
  - done.
  - rewrite R4. done.
  - by apply (wl_spawned _ _ Hl).
  - cbn. by rewrite R1, R2.
  - intros x e. rewrite E5. cbn. rewrite E2. apply Hc.
  - done.
  - split; [done|]. split; [by etrans|done].
Qed.

(** ** The end of a child, and of its waiter *)

Lemma close_child_ok m w h : win_ok m w -> win_ok (delete h m) (close_child h w) /\ win_later w (close_child h w).
Proof.
  intros [Kc Kn Kp Kh Ki Ks Kl Ke Kei Kj Km Kcl Kw Kt]. split; [|split; cbn; eauto 10]. split; try assumption; cbn.
  - by rewrite fmap_delete, Kc.
  - intros n Hn. destruct (Kn n Hn) as (? & ? & ? & ? & ?). split_and!; try done. rewrite lookup_delete_None. by right.
  - intros h' o u [_ E]%lookup_delete_Some. by apply (Kh h').
  - intros h1 h2 o b1 b2 [_ E1]%lookup_delete_Some [_ E2]%lookup_delete_Some. by eapply Ki.
  - intros o sc E. destruct (Ks o sc E) as (p & Ep & [C J U]). by exists p.
  - intros c e E. destruct (Ke c e E) as [A B V L D]. by split.
  - intros h' o u c e [_ E]%lookup_delete_Some. by apply (Kt h').
Qed.

(** A channel goes on; an exit that it carries is true. *)
Lemma alter_channel m w c g :
  win_ok m w -> (forall e, we_object (g e) = we_object e /\ we_flag (g e) = we_flag e) ->
  (forall e, ww_exits w !! c = Some e ->
     (forall raw, we_value (g e) = Some (Ok raw) -> exit_true w (we_object e) (we_flag e) raw) /\
     (unanswered (g e) = true -> unanswered e = true) /\
     (forall raw, we_value e = Some (Ok raw) -> we_value (g e) = Some (Ok raw)) /\
     (unanswered (g e) = unanswered e \/ forall h u, m !! h = Some (we_object e, u) -> u = Reported)) ->
  let w' := set_wexits (alter g c (ww_exits w)) w in win_ok m w' /\ win_later w w'.
Proof.
  intros Hm Hg Hc w'. pose proof Hm as [Kc Kn Kp Kh Ki Ks Kl Ke Kei Kj Km Kcl Kw Kt].
  assert (Hto : forall x e, ww_exits w !! x = Some e -> exists e', alter g c (ww_exits w) !! x = Some e' /\
    we_object e' = we_object e /\ we_flag e' = we_flag e /\ forall raw, we_value e = Some (Ok raw) -> we_value e' = Some (Ok raw)).
  { intros x e E. destruct (decide (x = c)) as [->|?].
    - rewrite lookup_alter_eq, E. exists (g e). split_and!; [done|apply Hg|apply Hg|apply (Hc e E)].
    - rewrite lookup_alter_ne by done. by exists e. }
  assert (Hfrom : forall x e', alter g c (ww_exits w) !! x = Some e' -> exists e, ww_exits w !! x = Some e /\
    we_object e' = we_object e /\ we_flag e' = we_flag e /\ (x = c /\ e' = g e \/ e' = e)).
  { intros x e' E. apply lookup_alter_Some in E as [(-> & e & E & ->)|[_ E]].
    - exists e. destruct (Hg e). split_and!; try done. by left.
    - exists e'. split_and!; try done. by right. }
  assert (Hl : win_later w w') by (split; cbn; eauto 10).
  split; [|exact Hl]. split; try assumption; cbn.
  - intros n Hn. destruct (Kn n Hn) as (? & ? & ? & ? & ?). split_and!; try done. apply eq_None_not_Some. intros [e' E].
    destruct (Hfrom n e' E) as (e & ? & _). congruence.
  - intros h o u E. destruct (Kh h o u E) as (p & Ep & G & S & F). exists p. split_and!; try done. intros Hu.
    destruct (F Hu) as [? HF]. split; [done|]. intros x e' E'. destruct (Hfrom x e' E') as (e & Ee & -> & _). by apply (HF x).
  - intros o sc E. destruct (Ks o sc E) as (p & Ep & [C J U]). by exists p.
  - intros key s E. destruct (Kl key s E) as (e & p & Ee & ? & ? & ?). destruct (Hto _ e Ee) as (e' & ? & ? & ? & _).
    exists e', p. cbn. split_and!; [done|congruence|congruence|naive_solver..].
  - intros x e' E'. destruct (Hfrom x e' E') as (e & Ee & Eo & Ef & Hw). destruct (Ke x e Ee) as [A B V L D].
    split; cbn; rewrite ?Eo, ?Ef; [done|done| | |done].
    + intros raw Hv. eapply exit_true_later; [exact Hl|]. destruct Hw as [[-> ->]| ->]; [by apply (Hc e Ee)|by apply V].
    + intros Hu. apply L. destruct Hw as [[-> ->]| ->]; [by apply (Hc e Ee)|done].
  - intros x1 x2 e1 e2 E1 E2 Ho. destruct (Hfrom _ _ E1) as (f1 & ? & ? & _), (Hfrom _ _ E2) as (f2 & ? & ? & _).
    apply (Kei x1 x2 f1 f2); [done..|congruence].
  - intros os o raw H. destruct (Kw os o raw H) as (? & Hx). split; [done|]. by eapply answer_true_later.
  - intros h o u x e' E Hu E' Eo. destruct (Hfrom x e' E') as (e & Ee & Eo' & _ & Hw).
    assert (Hun : unanswered e = true) by (apply (Kt h o u x e); [done..|congruence]).
    destruct Hw as [[-> ->]| ->]; [|done]. destruct (Hc e Ee) as (_ & _ & _ & [->|Hr]); [done|]. destruct Hu. apply (Hr h). congruence.
Qed.

Lemma waiter_ends_ok m w h c rt : win_ok m w -> win_ok (delete h m) (waiter_ends h c rt w) /\ win_later w (waiter_ends h c rt w).
Proof.
  intros Hm. destruct (close_child_ok m w h Hm) as [Hm1 Hl1]. unfold waiter_ends.
  destruct (win_step_retries (alter (fun r => mkRetryChannel (rt_queued r) (rt_sender r) false) rt (ww_retries (close_child h w)))
    (close_child h w) _ Hm1) as [Hm2 Hl2].
  match type of Hm2 with win_ok _ ?x => destruct (alter_channel (delete h m) x c
    (fun e => mkWinExitChannel (we_value e) (we_version e) false (we_object e) (we_flag e)) Hm2) as [Hm3 Hl3] end.
  - done.
  - intros e E. split_and!; [|done|done|by left]. intros raw Hv. by apply (ck_value _ _ _ (wk_channels _ _ Hm2 c e E)).
  - split; [exact Hm3|]. by do 2 (etrans; [eassumption|]).
Qed.

(** The waiter of a child sends what it saw. *)
Lemma send_exit_ok m w h o c kf raw :
  win_ok m w -> m !! h = Some (o, Watched) -> (exists e, ww_exits w !! c = Some e /\ we_object e = o /\ we_flag e = kf) ->
  exit_true w o kf raw ->
  win_ok (<[h := (o, Reported)]> m) (wsend_exit c (Ok raw) w) /\ win_later w (wsend_exit c (Ok raw) w).
Proof.
  intros Hm Eh (e & Ee & Eo & Ef) Ht. apply alter_channel; [by apply (use_child _ _ _ _ Watched Reported)|done|].
  intros e' E'. rewrite Ee in E'. injection E' as <-.
  assert (Hu : unanswered e = true) by (by apply (wk_unsent _ _ Hm h o Watched c e)). split_and!; cbn.
  - intros raw' [= <-]. congruence.
  - done.
  - intros raw' Hv. unfold unanswered in Hu. by rewrite Hv in Hu.
  - right. intros h' u [[<- E]|[Hne E]]%lookup_insert_Some; [congruence|]. destruct Hne.
    apply (wk_child_inj _ _ Hm h h' o Watched u); congruence.
Qed.

Lemma send_failure_ok m w h o c text :
  win_ok m w -> m !! h = Some (o, Watched) -> (exists e, ww_exits w !! c = Some e /\ we_object e = o) ->
  win_ok m (wsend_exit c (Err text) w) /\ win_later w (wsend_exit c (Err text) w).
Proof.
  intros Hm Eh (e & Ee & Eo). apply alter_channel; [done..|]. intros e' E'. rewrite Ee in E'. injection E' as <-.
  assert (Hu : unanswered e = true) by (by apply (wk_unsent _ _ Hm h o Watched c e)). split_and!; cbn; [done|done| |by left].
  intros raw' Hv. unfold unanswered in Hu. by rewrite Hv in Hu.
Qed.

(** ** An exit is returned *)

Lemma drop_slot_ok m w key :
  win_ok m w -> (forall s, ww_slots w !! key = Some s -> exists e, ww_exits w !! ws_exit s = Some e /\ unanswered e = false) ->
  win_ok m (wdrop_slot key w) /\ win_later w (wdrop_slot key w).
Proof.
  intros Hm Hs. unfold wdrop_slot. destruct (ww_slots w !! key) as [s|] eqn:Es; [|done].
  destruct (win_step_retries (alter (fun r => mkRetryChannel (rt_queued r) false (rt_receiver r)) (ws_retry s) (ww_retries w)) w m Hm) as [Hm1 Hl1].
  split; [|split; cbn; eauto 10]. destruct (Hs s eq_refl) as (es & Ees & Hes). clear Hm Hl1.
  destruct Hm1 as [Kc Kn Kp Kh Ki Ks Kl Ke Kei Kj Km Kcl Kw Kt]. cbn in *. split; try assumption; cbn.
  - intros o sc E. destruct (Ks o sc E) as (q & Eq & [C J U]). by exists q.
  - intros k x [_ E]%lookup_delete_Some. by apply Kl.
  - intros c e E. destruct (Ke c e E) as [A B V L D]. split; cbn; try done.
    intros Hu. destruct (L Hu) as (k & x & Ek & Hx). exists k, x. split; [|done]. cbn in Ek. apply lookup_delete_Some. split; [|done].
    intros <-. congruence.
Qed.

Lemma forget_slot_ok m w os c raw :
  win_ok m w -> (exists e, ww_exits w !! c = Some e /\ we_value e = Some (Ok raw) /\
    exists p, ww_procs w !! we_object e = Some p /\ win_key os = (wp_pid p, wp_created p)) ->
  win_ok m (forget_slot os c raw w) /\ win_later w (forget_slot os c raw w).
Proof.
  intros Hm (e & Ee & Ev & p & Ep & Hk). unfold forget_slot, exit_channel. rewrite Ee.
  assert (H1 : win_ok m (wlog_wait os (we_object e) raw w) /\ win_later w (wlog_wait os (we_object e) raw w)).
  { pose proof Hm as [Kc Kn Kp Kh Ki Ks Kl Ke Kei Kj Km Kcl Kw Kt]. split; [|split; cbn; eauto 10]. split; try assumption; cbn.
    - intros o sc E. destruct (Ks o sc E) as (q & Eq & [C J U]). by exists q.
    - intros x y E. destruct (Ke x y E) as [A B V L D]. by split.
    - intros os' o raw' [H|H%list_elem_of_singleton]%elem_of_app; [by apply (Kw os')|]. injection H as -> -> ->. split.
      + by exists p.
      + exists c, e. split_and!; [done|done|]. by apply (ck_value _ _ _ (Ke c e Ee)). }
  destruct H1 as [Hm1 Hl1]. destruct (drop_slot_ok m (wlog_wait os (we_object e) raw w) (win_key os)) as [Hm2 Hl2]; [done| |].
  - cbn. intros s Es. destruct (wk_slots _ _ Hm (win_key os) s Es) as (e' & q & Ee' & Eo & _ & Eq & Hk' & _).
    exists e'. split; [done|]. rewrite Hk in Hk'. injection Hk' as Hk1 Hk2.
    assert (ws_process s = we_object e) as Ho by (apply (wk_pids _ _ Hm _ _ q p); [done|done|congruence|right; congruence]).
    destruct (slot_channel m w (win_key os) s c e Hm Es Ee (eq_sym Ho)) as [Hc _]. rewrite <- Hc, Ee in Ee'. injection Ee' as <-.
    unfold unanswered. by rewrite Ev.
  - split; [done|]. by etrans.
Qed.

(** ** What happens outside *)

Lemma win_step_outside e w : win_step w (win_outside e w).
Proof.
  destruct e as [parent pid created|o code|o]; cbn [win_outside].
  - destruct (identity_taken (pid, created) (ww_procs w)) eqn:Ht; [apply win_step_refl|].
    destruct parent as [parent|]; [|by apply (win_step_new_process (mkWinProcess pid created None false None None false))].
    destruct (ww_procs w !! parent) as [p|] eqn:Ep; [|apply win_step_refl].
    destruct (wp_running p && negb (wp_suspended p)) eqn:Hr; [|apply win_step_refl].
    apply (win_step_new_process (mkWinProcess pid created (wp_job p) false None None false)); [done|].
    cbn. intros m j Hm Hj. destruct (wk_members _ _ Hm parent p j Ep Hj) as (scope & ? & Hx). exists scope. split; [done|]. apply Hx.
    apply andb_true_iff in Hr as [Hr _]. unfold wp_running in Hr. by destruct (wp_exit p).
  - destruct (ww_procs w !! o) as [p|] eqn:Ep; [|apply win_step_refl].
    destruct (wp_running p && (0 <=? code) && (code <? 2 ^ 32)) eqn:Hr; [|apply win_step_refl].
    apply andb_true_iff in Hr as [[Hr _]%andb_true_iff _]. unfold wp_running in Hr. apply win_step_alter.
    + intros q Eq. rewrite Ep in Eq. injection Eq as <-. split; try done. intros code'. by destruct (wp_exit p).
    + done.
  - destruct (ww_procs w !! o) as [p|] eqn:Ep; [|apply win_step_refl].
    destruct (negb (wp_running p) && negb (held o w)) eqn:Hr; [|apply win_step_refl].
    apply andb_true_iff in Hr as [Hx Hh]. intros m Hm. 
    assert (Hc : forall h u, m !! h <> Some (o, u)).
    { intros h u E. apply negb_true_iff, orb_false_iff in Hh as [Hh _]. apply not_true_iff_false in Hh. apply Hh, existsb_exists.
      exists (h, o). split; [|apply Nat.eqb_refl]. apply list_elem_of_In, elem_of_map_to_list. by rewrite (wk_children _ _ Hm), lookup_fmap, E. }
    eapply alter_child; try done.
    + right. split_and!; [done|done|]. intros key s Es Eo. apply negb_true_iff, orb_false_iff in Hh as [_ Hh].
      apply not_true_iff_false in Hh. apply Hh, existsb_exists. exists s. split; [|by apply Nat.eqb_eq].
      apply list_elem_of_In, list_elem_of_fmap. exists (key, s). split; [done|]. by apply elem_of_map_to_list.
    + intros scope Hs. destruct (wk_spawned _ _ Hm o scope Hs) as (q & Eq & [C J U]). rewrite Ep in Eq. injection Eq as <-. by split.
    + intros j Hj. by apply (wk_members _ _ Hm o p).
Qed.

Lemma win_new_ok : win_ok ∅ win_new.
Proof. split; cbn; try done; by intros ? ? ? ?%elem_of_nil. Qed.
