(* ===== verification/WindowsSafe.v ===== *)
(** * WindowsSafe: what holds of the Job Object backend in every run

    Callers spawn, wait, signal, kill, sample and clean up in any order; the tasks that wait for
    children interleave with them step by step, and so do the kernel and every other
    process of the machine. A task owns the handle of its child in a ghost map; what a program has
    seen of the world is a snapshot, and every world is later than it. *)

From iris.algebra Require Import auth mra.
From iris.proofmode Require Import proofmode.
From iris.base_logic.lib Require Import ghost_map own.
From stdpp Require Import base list relations gmap strings.
From S2P Require Import Prelude StdModel Values Observation Usage Ports Conc Ownership Procfs Native Windows WindowsInv WindowsOwners.

Open Scope Z_scope.
Open Scope prog_scope.

Abbreviation WEvent := (Event (S := WinWorld) (Q := WinPort)).

(** ** The calls of the interface *)

Inductive win_api (a : nat) : WProg unit -> Prop :=
| wapi_spawn rounds scope spec : win_api a (win_spawn rounds scope spec ;;; Ret tt)
| wapi_wait target : win_api a (win_wait target ;;; Ret tt)
| wapi_signal target signal : win_api a (win_signal target signal ;;; Ret tt)
| wapi_signal_scope scope signal : win_api a (win_signal_scope scope signal ;;; Ret tt)
| wapi_hard_kill_scope scope : win_api a (win_hard_kill_scope scope)
| wapi_hard_kill_all : win_api a win_hard_kill_all
| wapi_cleanup scope : win_api a (win_cleanup_scope scope ;;; Ret tt)
| wapi_sample target : win_api a (win_sample target ;;; Ret tt)
| wapi_scope_usage scope : win_api a (win_scope_usage scope ;;; Ret tt)
| wapi_outside e : win_api a (modify (win_outside e)).

(** ** Programs that own nothing *)

Definition unowned_task (t : WinTask) : Prop := match t with WnReader _ _ => True | WnWaiter _ _ _ _ _ _ => False end.

(** Each step keeps the invariant, in every world it may start in; there is no panic. *)
Fixpoint bystander {A} (p : WProg A) : Prop :=
  match p with
  | Ret _ => True
  | Panic _ => False
  | Act f k => forall w, win_step w (f w).1 /\ bystander (k (f w).2)
  | Call q k => forall x, bystander (k x)
  | Wait e d k => (forall w, win_step w (d w)) /\ forall w w' x, fires win_answer e w w' x -> win_step w w' /\ bystander (k x)
  | Fork t k => unowned_task t /\ bystander k
  end.

Lemma bystander_bind {A B} (p : WProg A) (g : A -> WProg B) : bystander p -> (forall x, bystander (g x)) -> bystander (bind p g).
Proof.
  intros Hp Hg. induction p as [v|m|X f k IH|X q k IH|X e d k IH|t k IH]; cbn [bystander bind] in *; [done|done| | | |].
  - intros w. destruct (Hp w) as (? & ?). eauto.
  - eauto.
  - destruct Hp as [Hd Hp]. split; [done|]. intros w w' x Hf. destruct (Hp w w' x Hf). eauto.
  - destruct Hp. eauto.
Qed.

Lemma bystander_act {X} (f : WinWorld -> WinWorld * X) : (forall w, win_step w (f w).1) -> bystander (act f).
Proof. intros Hf w. split; [apply Hf|done]. Qed.
Lemma bystander_modify (f : WinWorld -> WinWorld) : (forall w, win_step w (f w)) -> bystander (modify f).
Proof. intros Hf. by apply bystander_act. Qed.
Lemma bystander_reads {X} (f : WinWorld -> X) : bystander (reads f).
Proof. apply bystander_act. intros w. apply win_step_refl. Qed.
Lemma bystander_ask {X} (q : WinPort X) : bystander (ask q).
Proof. split; [intros w; apply win_step_refl|]. intros w w' x ->. split; [apply win_step_refl|done]. Qed.
Lemma bystander_call {X} (q : WinPort X) : bystander (call q).
Proof. done. Qed.

Ltac bystand_step :=
  lazymatch goal with
  | |- bystander (bind _ _) => apply bystander_bind; [|intros ?]
  | |- bystander (Ret _) => exact I
  | |- bystander (reads _) => apply bystander_reads
  | |- bystander (call _) => apply bystander_call
  | |- bystander (ask _) => apply bystander_ask
  | |- bystander (match ?x with _ => _ end) => destruct x
  end.
Ltac bystand := repeat bystand_step.

Lemma bystander_signal target signal : bystander (win_signal target signal).
Proof. unfold win_signal. bystand. apply bystander_act. intros w. apply win_step_signal. Qed.

Lemma bystander_signal_scope scope signal : bystander (win_signal_scope scope signal).
Proof. unfold win_signal_scope. bystand. apply bystander_act. intros w. apply win_step_kill_scope. Qed.

Lemma bystander_hard_kill_scope scope : bystander (win_hard_kill_scope scope).
Proof. unfold win_hard_kill_scope. bystand. apply bystander_modify. intros w. apply win_step_kill_scope. Qed.

Lemma bystander_hard_kill_all : bystander win_hard_kill_all.
Proof. unfold win_hard_kill_all. bystand. apply bystander_modify. intros w. apply win_step_hard_kill_all. Qed.

Lemma bystander_cleanup scope : bystander (win_cleanup_scope scope).
Proof.
  unfold win_cleanup_scope. bystand_step; [apply bystander_signal_scope|]. bystand_step; [|done].
  generalize CLEANUP_LOOKS. intros looks. induction looks as [|looks IH]; cbn [cleanup_loop]; [done|].
  bystand; [|exact IH]. apply bystander_act. intros w. apply win_step_cleanup_look.
Qed.

Lemma bystander_sample target : bystander (win_sample target).
Proof. unfold win_sample, win_sample_sync. bystand. apply bystander_act. intros w. apply win_step_sample. Qed.

Lemma bystander_scope_usage scope : bystander (win_scope_usage scope).
Proof. unfold win_scope_usage. bystand. Qed.

(** ** The logic *)

Section Logic.
Context `{!ghost_mapG Σ nat (nat * ChildUse), !inG Σ (authR (mraUR win_later))} (γh γw : gname).

Definition win_interp (_ : gset nat) (w : WinWorld) : iProp Σ :=
  ∃ m, ghost_map_auth γh 1 m ∗ own γw (● to_mra w) ∗ ⌜win_ok m w⌝.

(** Every world from here on is later than one of which [P] holds. *)
Definition known (P : WinWorld -> Prop) : iProp Σ := ∃ w, own γw (◯ to_mra w) ∗ ⌜P w⌝.

#[global] Instance known_persistent P : Persistent (known P).
Proof. apply _. Qed.

(** A handle of the process [o], and what was done with it. *)
Definition child_of (h o : nat) (u : ChildUse) : iProp Σ := h ↪[γh] (o, u).

(** Facts that stay. *)
Definition is_spawned (o : nat) (scope : ProcessScopeId) (w : WinWorld) : Prop := spawned_in w o = Some scope.
Definition is_named (o : nat) (os : OsIdentity) (w : WinWorld) : Prop :=
  exists p, ww_procs w !! o = Some p /\ win_key os = (wp_pid p, wp_created p).
Definition is_channel (c o kf : nat) (w : WinWorld) : Prop :=
  exists e, ww_exits w !! c = Some e /\ we_object e = o /\ we_flag e = kf.

Definition win_task (a : nat) (t : WinTask) : iProp Σ :=
  match t with
  | WnReader _ _ => True
  | WnWaiter _ h c _ kf _ => ∃ o, child_of h o Watched ∗ known (is_channel c o kf)
  end.

Abbreviation wowp a p Φ Ψ := (owp win_answer win_interp win_task a p Φ Ψ) (only parsing).

Lemma is_spawned_later o scope w w' : win_later w w' -> is_spawned o scope w -> is_spawned o scope w'.
Proof. intros Hl. apply (wl_spawned _ _ Hl). Qed.
Lemma is_named_later o os w w' : win_later w w' -> is_named o os w -> is_named o os w'.
Proof. intros Hl (p & Ep & Hk). destruct (wl_procs _ _ Hl o p Ep) as (p' & Ep' & E1 & E2 & _). exists p'. by rewrite E1 E2. Qed.
Lemma is_channel_later c o kf w w' : win_later w w' -> is_channel c o kf w -> is_channel c o kf w'.
Proof. intros Hl (e & Ee & Eo & Ef). destruct (wl_channels _ _ Hl c e Ee) as (e' & Ee' & E1 & E2 & _). exists e'. by rewrite E1 E2. Qed.
(** The exit that a channel carries. *)
Definition carries (c : nat) (raw : RawExit) (w : WinWorld) : Prop := exists e, ww_exits w !! c = Some e /\ we_value e = Some (Ok raw).
Lemma carries_later c raw w w' : win_later w w' -> carries c raw w -> carries c raw w'.
Proof. intros Hl (e & Ee & Ev). destruct (wl_channels _ _ Hl c e Ee) as (e' & Ee' & _ & _ & E). exists e'. split; [done|by apply E]. Qed.

(** *** Steps *)

Lemma interp_win_ok D w : win_interp D w ⊢ ⌜exists m, win_ok m w⌝.
Proof. iIntros "(%m & _ & _ & %Hm)". by iExists m. Qed.

Lemma interp_child D w h o u : win_interp D w -∗ child_of h o u -∗ ⌜exists m, win_ok m w /\ m !! h = Some (o, u)⌝.
Proof. iIntros "(%m & Ha & _ & %Hm) Hh". iDestruct (ghost_map_lookup with "Ha Hh") as %E. by iExists m. Qed.

Lemma interp_known (P : WinWorld -> Prop) D w :
  (forall w1 w2, win_later w1 w2 -> P w1 -> P w2) -> win_interp D w -∗ known P -∗ ⌜P w⌝.
Proof.
  iIntros (HP) "(%m & _ & Hw & _) (%w0 & Hs & %H0)". iDestruct (own_valid_2 with "Hw Hs") as %[Hi _]%auth_both_valid_discrete.
  iPureIntro. apply (HP w0); [|done]. exact (proj1 (to_mra_included (R := win_later) _ _) Hi).
Qed.

Lemma grow_win w w' : win_later w w' -> own γw (● to_mra w) ==∗ own γw (● to_mra w') ∗ own γw (◯ to_mra w').
Proof.
  iIntros (Hl) "Hw". iMod (own_update with "Hw") as "[$ $]"; [|done].
  apply auth_update_alloc. by apply mra_local_update_grow.
Qed.

Lemma interp_step D w w' : win_step w w' -> win_interp D w ==∗ win_interp D w'.
Proof.
  iIntros (Hs) "(%m & Ha & Hw & %Hm)". destruct (Hs m Hm) as [Hm' Hl]. iMod (grow_win _ _ Hl with "Hw") as "[Hw _]".
  iModIntro. iExists m. by iFrame.
Qed.

(** What holds now is known. *)
Lemma interp_know D w (P : WinWorld -> Prop) : P w -> win_interp D w ==∗ win_interp D w ∗ known P.
Proof.
  iIntros (HP) "(%m & Ha & Hw & %Hm)". iMod (grow_win w w with "Hw") as "[Hw #Hs]"; [done|]. iModIntro.
  iSplitL; [iExists m; by iFrame|]. iExists w. by iFrame "Hs".
Qed.

(** A step of the owner of a handle, after which [P] is known. *)
Lemma interp_use (P : WinWorld -> Prop) D w w' h o u u' :
  (forall m, win_ok m w -> m !! h = Some (o, u) -> win_ok (<[h := (o, u')]> m) w' /\ win_later w w' /\ P w') ->
  child_of h o u -∗ win_interp D w ==∗ win_interp D w' ∗ child_of h o u' ∗ known P.
Proof.
  iIntros (Hs) "Hh (%m & Ha & Hw & %Hm)". iDestruct (ghost_map_lookup with "Ha Hh") as %E. destruct (Hs m Hm E) as (Hm' & Hl & HP).
  iMod (grow_win _ _ Hl with "Hw") as "[Hw #Hs]". iMod (ghost_map_update (o, u') with "Ha Hh") as "[Ha $]".
  iModIntro. iSplitL; [iExists _; by iFrame|]. iExists w'. by iFrame "Hs".
Qed.

(** A step that closes a handle. *)
Lemma interp_close D w w' h o u :
  (forall m, win_ok m w -> win_ok (delete h m) w' /\ win_later w w') -> child_of h o u -∗ win_interp D w ==∗ win_interp D w'.
Proof.
  iIntros (Hs) "Hh (%m & Ha & Hw & %Hm)". destruct (Hs m Hm) as (Hm' & Hl).
  iMod (grow_win _ _ Hl with "Hw") as "[Hw _]". iMod (ghost_map_delete with "Ha Hh") as "Ha". iModIntro. iExists _. by iFrame.
Qed.

Lemma wowp_bystander {A} a (p : WProg A) : bystander p -> ⊢ wowp a p (fun _ => True) True.
Proof.
  intros Hp. iInduction p as [v|m|X f k|X q k|X e d k|t k] "IH" forall (Hp); cbn [owp bystander] in *.
  - done.
  - done.
  - iIntros (D w _) "Hs". destruct (Hp w) as (H1 & H2). iMod (interp_step with "Hs") as "$"; [exact H1|]. iModIntro. by iApply "IH".
  - iIntros (D w x _) "Hs". iModIntro. iFrame "Hs". iApply "IH". iPureIntro. apply Hp.
  - destruct Hp as [Hd Hp]. iSplit.
    + iIntros (D w _) "Hs". iMod (interp_step with "Hs") as "$"; [apply Hd|done].
    + iIntros (D w w' x _ Hf) "Hs". destruct (Hp w w' x Hf) as [Hs Hk]. iMod (interp_step with "Hs") as "$"; [done|]. iModIntro. by iApply "IH".
  - destruct Hp as [Ht Hp]. iModIntro. iSplitR; [by destruct t|]. by iApply "IH".
Qed.

Lemma wowp_bystander_bind {A B} a (p : WProg A) (g : A -> WProg B) Φ :
  bystander p -> (∀ x, wowp a (g x) Φ True) ⊢ wowp a (bind p g) Φ True.
Proof.
  iIntros (Hp) "Hg". iApply (owp_seq with "[]"); [by iApply (wowp_bystander a p Hp)|]. iSplit; [|by iIntros].
  iIntros (x) "_". by iApply "Hg".
Qed.

Lemma wowp_call_bind {X B} a (q : WinPort X) (g : X -> WProg B) Φ Ψ :
  (∀ x, wowp a (g x) Φ Ψ) ⊢ wowp a (bind (call q) g) Φ Ψ.
Proof. iIntros "Hg". iApply owp_bind. iApply owp_call. iIntros (D w x _) "$". by iModIntro. Qed.

(** *** Spawns *)

Lemma create_process_spec a scope id Ψ :
  ⊢ wowp a (act (create_process scope id))
      (fun r => match r with Some h => ∃ o, child_of h o Fresh ∗ known (is_spawned o scope) | None => True end) Ψ.
Proof.
  iApply owp_act. iIntros (D w _) "(%m & Ha & Hw & %Hm)". pose proof (create_process_ok scope id w m Hm) as Hr.
  destruct (create_process scope id w) as [w' [h|]]; cbn [fst snd] in *.
  - destruct Hr as (o & Eh & Hm' & Hl & Hs). iMod (grow_win _ _ Hl with "Hw") as "[Hw #Hseen]".
    iMod (ghost_map_insert h (o, Fresh) with "Ha") as "[Ha Hh]"; [done|]. iModIntro. iSplitL "Ha Hw"; [iExists _; by iFrame|].
    iExists o. iFrame "Hh". iExists w'. by iFrame "Hseen".
  - subst w'. iModIntro. iSplitL; [iExists m; by iFrame|done].
Qed.

(** What a setup leaves of its child. *)
Definition set_up (h o : nat) (r : result (nat * nat * nat) string) : iProp Σ :=
  match r with
  | Ok (c, rt, kf) => child_of h o Watched ∗ known (is_channel c o kf)
  | Err _ => ∃ u, child_of h o u
  end.

Lemma setup_section_spec a scope h o os output f1 f2 f3 threads Ψ :
  known (is_named o os) -∗ ⌜exists pid t, os = mkOsIdentity pid (StartTime t)⌝ -∗ child_of h o Fresh -∗ known (is_spawned o scope) -∗
  wowp a (act (setup_section scope h os o output f1 f2 f3 threads)) (set_up h o) Ψ.
Proof.
  iIntros "#Hn (%pid & %t & ->) Hh #Hs". iApply owp_act. iIntros (D w _) "Hi".
  iDestruct (interp_known with "Hi Hn") as %(p & Ep & Hk); [apply is_named_later|].
  iDestruct (interp_known with "Hi Hs") as %Hsp; [apply is_spawned_later|]. cbn in Hk. injection Hk as -> ->.
  set (s := setup_section _ _ _ _ _ _ _ _ _ w).
  iMod (interp_use (fun w' => match s.2 with Ok (c, rt, kf) => is_channel c o kf w' | Err _ => True end) D w s.1 h o Fresh Watched
    with "Hh Hi") as "($ & Hh & #Hc)".
  { intros m Hm Eh. pose proof (setup_section_ok scope h o p output f1 f2 f3 threads m w Hm Eh Ep Hsp) as Hr. subst s.
    destruct (setup_section _ _ _ _ _ _ _ _ _ w) as [w' [[[c rt] kf]|text]]; destruct Hr as (? & ? & ?); done. }
  iModIntro. destruct s as [w' [[[c rt] kf]|text]]; cbn; [by iFrame|by iExists _].
Qed.

Lemma setup_spec a scope h o output Ψ :
  child_of h o Fresh -∗ known (is_spawned o scope) -∗
  wowp a (setup scope h output)
    (fun r => match r with Ok (os, (c, rt, kf)) => child_of h o Watched ∗ known (is_channel c o kf) | Err _ => ∃ u, child_of h o u end) Ψ.
Proof.
  iIntros "Hh #Hs". unfold setup. iApply owp_bind. iApply owp_reads. iIntros (D w _) "Hi".
  iDestruct (interp_child with "Hi Hh") as %(m & Hm & E). destruct (wk_child _ _ Hm h o Fresh E) as (p & Ep & Hg & _).
  assert (Ec : child_process h w = Some (o, p)).
  { unfold child_process. rewrite (wk_children _ _ Hm) lookup_fmap E. cbn. by rewrite Ep. }
  rewrite Ec. iMod (interp_know D w (is_named o (mkOsIdentity (wp_pid p) (StartTime (wp_created p)))) with "Hi") as "[$ #Hn]"; [by exists p|].
  iModIntro. clear D w m Hm E Ep Hg Ec. iApply wowp_call_bind. iIntros (open_fails). iApply owp_bind. iApply owp_reads.
  iIntros (D w _) "Hi". iDestruct (interp_child with "Hi Hh") as %(m & Hm & E). destruct (wk_child _ _ Hm h o Fresh E) as (p' & Ep' & Hg & _).
  iDestruct (interp_known with "Hi Hn") as %(p2 & Ep2 & Hk); [apply is_named_later|].
  rewrite Ep' in Ep2. injection Ep2 as <-. cbn in Hk. injection Hk as Hk1 Hk2.
  rewrite (at_number_unique m w o p' _ Hm Ep' (eq_sym Hk1) Hg). iFrame "Hi". iModIntro.
  destruct open_fails as [text|]; [iApply owp_ret; by iExists _|].
  iApply wowp_call_bind. iIntros (times_fail). destruct times_fail as [text|]; [iApply owp_ret; by iExists _|]. rewrite -Hk2.
  do 4 (iApply wowp_call_bind; iIntros (?)). iApply (owp_seq with "[Hh]").
  { iApply (setup_section_spec a _ _ _ _ _ _ _ _ _ False with "Hn [] Hh Hs"). iPureIntro. by do 2 eexists. }
  iSplit; [|by iIntros]. iIntros ([[[c rt] kf]|text]) "H"; by iApply owp_ret.
Qed.

Lemma close_child_drops a h o u : child_of h o u ⊢ drops win_interp a (close_child h) True.
Proof. iIntros "Hh" (D w _) "Hi". iMod (interp_close with "Hh Hi") as "$"; [|done]. intros m. apply close_child_ok. Qed.

Lemma child_exit_spec h w w' code :
  child_exit h w = Some (w', code) -> w' = w /\ exists o p, ww_children w !! h = Some o /\ ww_procs w !! o = Some p /\ wp_exit p = Some code.
Proof.
  unfold child_exit, child_process. destruct (ww_children w !! h) as [o|]; [|done]. cbn. destruct (ww_procs w !! o) as [p|] eqn:Ep; [|done].
  cbn. destruct (wp_exit p) eqn:X; [|done]. cbn. intros [= <- <-]. split; [done|]. by exists o, p.
Qed.

Lemma discard_child_spec a h o u : child_of h o u -∗ wowp a (discard_child h) (fun _ => True) True.
Proof.
  iIntros "Hh". unfold discard_child. iApply wowp_call_bind. iIntros (refused).
  iApply (owp_seq _ _ _ a _ _ (fun _ => child_of h o u) (child_of h o u) with "[Hh]").
  { destruct refused as [text|]; [by iApply owp_ret|]. iApply owp_modify. iIntros (D w _) "Hi".
    iMod (interp_step with "Hi") as "$"; [|by iFrame]. destruct (ww_children w !! h); [by apply win_step_terminate|apply win_step_refl]. }
  iSplit; [|by iIntros]. iIntros (_) "Hh". iSplit; [by iApply close_child_drops|].
  iIntros (D w w' x _ Hf) "Hi". iMod (interp_step D w w' with "Hi") as "$".
  { destruct x as [code|text]; cbn in Hf; [|subst w'; apply win_step_refl].
    destruct (child_exit_spec h w w' code Hf) as [-> _]. apply win_step_refl. }
  iModIntro. iApply (owp_modify win_answer win_interp win_task a (close_child h) (fun _ => True)%I True%I).
  iIntros (D' w1 _) "Hi". iMod (interp_close with "Hh Hi") as "$"; [|done]. intros m. apply close_child_ok.
Qed.

Lemma win_spawn_spec a rounds scope spec : ⊢ wowp a (win_spawn rounds scope spec) (fun _ => True) True.
Proof.
  unfold win_spawn. iApply wowp_bystander_bind.
  { apply bystander_act. intros w. unfold win_output. destruct (spec_output spec); apply win_step_alike; split; try done. cbn. lia. }
  iIntros (output). iApply wowp_call_bind. iIntros (fails). destruct fails as [text|]; [by iApply owp_ret|].
  iApply wowp_call_bind. iIntros (id). iApply owp_bind. iApply (owp_wand with "[]"); [iApply (create_process_spec a scope id True)|].
  iSplit; [|by iIntros]. iIntros ([h|]) "Hr"; iModIntro; cycle 1.
  { iApply owp_wait. iSplit; [done|]. iIntros (D w w' x _ Hf). by cbn in Hf. }
  iDestruct "Hr" as "(%o & Hh & #Hs)". iApply owp_bind. iApply (owp_wand with "[Hh]"); [by iApply (setup_spec a scope h o output True with "Hh")|].
  iSplit; [|by iIntros]. iIntros ([[os [[c rt] kf]]|text]) "Hr"; iModIntro.
  - iDestruct "Hr" as "[Hh #Hc]". iApply wowp_bystander_bind; [by destruct output|]. iIntros ([]).
    iApply owp_bind. iApply owp_fork. iSplitL; [iExists o; by iFrame|]. by iApply owp_ret.
  - iDestruct "Hr" as "(%u & Hh)". iApply (owp_seq with "[Hh]"); [by iApply (discard_child_spec with "Hh")|].
    iSplit; [|by iIntros]. iIntros ([]) "_". by iApply owp_ret.
Qed.

(** *** The waiter *)

(** The exit [code] of [o] is known. *)
Definition exited_with (o : nat) (code : Z) (w : WinWorld) : Prop := exists p, ww_procs w !! o = Some p /\ wp_exit p = Some code.
Lemma exited_with_later o code w w' : win_later w w' -> exited_with o code w -> exited_with o code w'.
Proof.
  intros Hl (p & Ep & X). destruct (wl_procs _ _ Hl o p Ep) as (p' & Ep' & _ & _ & X'). exists p'. split; [done|]. by apply X'.
Qed.

(** A result that may be sent of [o], whose flag is [kf]. *)
Definition reportable (o kf : nat) (r : result RawExit string) : iProp Σ :=
  match r with Ok raw => known (fun w => exit_true w o kf raw) | Err _ => True end.

Lemma report_spec a h o c kf r Ψ :
  child_of h o Watched -∗ known (is_channel c o kf) -∗ reportable o kf r -∗
  wowp a (modify (wsend_exit c r)) (fun _ => child_of h o (match r with Ok _ => Reported | Err _ => Watched end)) Ψ.
Proof.
  iIntros "Hh #Hc Hr". iApply owp_modify. iIntros (D w _) "Hi". iDestruct (interp_known with "Hi Hc") as %Hc; [apply is_channel_later|].
  destruct r as [raw|text]; cbn.
  - iDestruct (interp_known with "Hi Hr") as %Ht; [intros ??; apply exit_true_later|].
    iMod (interp_use (fun _ => True) D w _ h o Watched Reported with "Hh Hi") as "($ & $ & _)"; [|done].
    intros m Hm E. destruct (send_exit_ok m w h o c kf raw Hm E Hc Ht). done.
  - iMod (interp_use (fun _ => True) D w _ h o Watched Watched with "Hh Hi") as "($ & $ & _)"; [|done].
    intros m Hm E. rewrite insert_id; [|done]. destruct Hc as (e & Ee & Eo & _). destruct (send_failure_ok m w h o c text Hm E); [by exists e|done].
Qed.

(** The look at the flag, after the exit. *)
Lemma flag_spec a h o c kf code u Ψ :
  child_of h o u -∗ known (is_channel c o kf) -∗ known (exited_with o code) -∗
  wowp a (reads (flag_set kf)) (fun killed => child_of h o u ∗ known (fun w => exit_true w o kf (win_exit killed code))) Ψ.
Proof.
  iIntros "Hh #Hc #Hx". iApply owp_reads. iIntros (D w _) "Hi". iDestruct (interp_known with "Hi Hc") as %(e & Ee & <- & <-); [apply is_channel_later|].
  iDestruct (interp_known with "Hi Hx") as %(p & Ep & X); [apply exited_with_later|]. iDestruct (interp_win_ok with "Hi") as %[m Hm].
  iMod (interp_know D w (fun w' => exit_true w' (we_object e) (we_flag e) (win_exit (flag_set (we_flag e) w) code)) with "Hi") as "[$ #Ht]".
  { exists p, code, (flag_set (we_flag e) w). unfold flag_set. rewrite bool_decide_eq_true. split_and!; try done.
    intros Hd. by apply (ck_doomed _ _ _ (wk_channels _ _ Hm _ e Ee) p). }
  iModIntro. by iFrame.
Qed.

Definition waited (h o : nat) : iProp Σ := ∃ u, child_of h o u.

Lemma wrecv_retry_step rt w w' x : wrecv_retry rt w = Some (w', x) -> win_step w w'.
Proof.
  unfold wrecv_retry. destruct (ww_retries w !! rt) as [[[] [] ?]|]; intros [= <- <-]; first [apply win_step_retries|apply win_step_refl].
Qed.

Lemma win_waiter_loop_spec a rounds h o c rt kf :
  child_of h o Watched -∗ known (is_channel c o kf) -∗ wowp a (win_waiter_loop rounds h c rt kf) (fun _ => waited h o) (waited h o).
Proof.
  iIntros "Hh #Hc". iInduction rounds as [|rounds] "IH"; cbn [win_waiter_loop].
  all: iApply owp_bind; iSplit; [iIntros (D w _) "$"; by iExists _|].
  all: iIntros (D w w' status _ Hf) "Hi".
  all: iAssert (win_interp D w ∗ child_of h o Watched ==∗ win_interp D w' ∗ child_of h o Watched ∗
      match status with inl code => known (exited_with o code) | inr _ => True end)%I with "[]" as "Hst".
  1,3: iIntros "[Hi Hh]"; destruct status as [code|text]; cbn in Hf; [|subst w'; by iFrame];
    destruct (child_exit_spec h w w' code Hf) as (-> & o' & p & Eh & Ep & X);
    iDestruct (interp_child with "Hi Hh") as %(m & Hm & E);
    assert (o' = o) as -> by (rewrite (wk_children _ _ Hm) lookup_fmap E in Eh; cbn in Eh; congruence);
    iMod (interp_know D w (exited_with o code) with "Hi") as "[$ $]"; [by exists p|]; by iFrame.
  all: iMod ("Hst" with "[$Hi $Hh]") as "($ & Hh & #Hx)"; iModIntro; iModIntro.
  all: iApply (owp_seq _ _ _ a _ _ (fun r => child_of h o Watched ∗ reportable o kf r)%I (waited h o) with "[Hh]").
  1,3: destruct status as [code|text]; [|by iApply owp_ret; iFrame];
    iApply (owp_seq with "[Hh]"); [by iApply (flag_spec a h o c kf code Watched False with "Hh Hc Hx")|];
    iSplit; [|by iIntros]; iIntros (killed) "[Hh #Ht]"; iApply owp_ret; by iFrame.
  all: iSplit; [|by iIntros "$"]; iIntros (exit) "[Hh Hr]".
  all: iApply (owp_seq with "[Hh Hr]"); [by iApply (report_spec a h o c kf exit False with "Hh Hc Hr")|]; iSplit; [|by iIntros]; iIntros ([]) "Hh".
  all: destruct exit as [raw|text]; [iApply owp_ret; by iExists _|].
  all: iApply owp_bind; iApply owp_wait; iSplit; [by iExists _|].
  all: iIntros (D' w1 w2 again _ Hg) "Hi"; iMod (interp_step with "Hi") as "$"; [by apply (wrecv_retry_step rt w1 w2 again)|]; iModIntro.
  all: destruct again; [|iApply owp_ret; by iExists _].
  - iApply owp_wait. iSplit; [by iExists _|]. iIntros (D3 w3 w4 x _ H3). by cbn in H3.
  - by iApply "IH".
Qed.

Lemma waiter_ends_drops a h o c rt : waited h o ⊢ drops win_interp a (waiter_ends h c rt) True.
Proof.
  iIntros "(%u & Hh)" (D w _) "Hi". iMod (interp_close with "Hh Hi") as "$"; [|done]. intros m. apply waiter_ends_ok.
Qed.

Lemma win_waiter_spec a rounds h o c rt kf output :
  child_of h o Watched -∗ known (is_channel c o kf) -∗ wowp a (win_waiter rounds h c rt kf output) (fun _ => True) True.
Proof.
  iIntros "Hh #Hc". unfold win_waiter. iApply owp_guarded.
  iApply (owp_wand _ _ _ _ _ (fun _ => waited h o) _ (waited h o) with "[Hh]"); cycle 1.
  { iSplit; [iIntros (u)|]; iIntros "Hh"; iModIntro; by iApply waiter_ends_drops. }
  iSplit; [iIntros (D w _) "$"; by iExists _|]. iIntros (D w w' x _ [= <- _]) "$". iModIntro.
  iApply (owp_seq with "[Hh]"); [by iApply (win_waiter_loop_spec with "Hh Hc")|]. iSplit; [|by iIntros "$"].
  iIntros ([]) "Hh". destruct output as [output|]; [|by iApply owp_ret].
  iApply owp_wait. iSplit; [done|]. iIntros (D' w1 w2 u _ ->) "$". by iFrame.
Qed.

Lemma win_body_spec a t : win_task a t ⊢ wowp a (win_body t) (fun _ => True) True.
Proof.
  destruct t as [output stdout|rounds h c rt kf output]; cbn [win_task win_body].
  - iIntros "_". iApply wowp_bystander. apply bystander_ask.
  - iIntros "(%o & Hh & #Hc)". by iApply (win_waiter_spec with "Hh").
Qed.

(** *** [wait] *)

Lemma win_wait_result_spec a os c o kf :
  known (is_channel c o kf) -∗ known (is_named o os) -∗ wowp a (win_wait_result os c) (fun _ => True) True.
Proof.
  iIntros "#Hc #Hn". unfold win_wait_result. iApply owp_bind. iApply owp_wait. iSplit; [done|]. iIntros (D w w' r _ Hf) "Hi".
  cbn in Hf. unfold win_result in Hf. destruct (win_value c w) as [v|] eqn:Ev; cycle 1.
  { destruct (win_closed c w); [|done]. injection Hf as <- <-. iFrame "Hi". iModIntro. by iApply owp_ret. }
  injection Hf as <- <-. destruct v as [raw|text]; cycle 1. { iFrame "Hi". iModIntro. by iApply owp_ret. }
  iMod (interp_know D w (carries c raw) with "Hi") as "[$ #Hv]".
  { unfold win_value, exit_channel in Ev. destruct (ww_exits w !! c) as [e|] eqn:Ee; [|done]. by exists e. }
  iModIntro. iApply owp_bind. iApply owp_modify. iIntros (D' w1 _) "Hi".
  iDestruct (interp_known with "Hi Hv") as %(e & Ee & Evalue); [apply carries_later|].
  iDestruct (interp_known with "Hi Hc") as %(e1 & Ee1 & Eo & _); [apply is_channel_later|]. rewrite Ee in Ee1. injection Ee1 as <-.
  iDestruct (interp_known with "Hi Hn") as %Hn; [apply is_named_later|].
  iMod (interp_step with "Hi") as "$"; [|by iModIntro; iApply owp_ret].
  intros m Hm. apply forget_slot_ok; [done|]. exists e. split_and!; [done|done|by rewrite Eo].
Qed.

Lemma win_wait_spec a target : ⊢ wowp a (win_wait target) (fun _ => True) True.
Proof.
  unfold win_wait. set (os := spawned_os target).
  iApply (owp_seq _ _ _ a _ _ (fun r => match r with
      | Some (c, _) => ∃ o kf, known (is_channel c o kf) ∗ known (is_named o os)
      | None => True end)%I True%I with "[]").
  { iApply owp_reads. iIntros (D w _) "Hi". iDestruct (interp_win_ok with "Hi") as %[m Hm]. unfold win_subscribe.
    destruct (ww_slots w !! win_key os) as [s|] eqn:Es; cbn; [|by iFrame].
    destruct (wk_slots _ _ Hm _ s Es) as (e & p & Ee & Eo & _ & Ep & Hk & _).
    iMod (interp_know D w (is_channel (ws_exit s) (we_object e) (we_flag e)) with "Hi") as "[Hi #Hc]"; [by exists e|].
    iMod (interp_know D w (is_named (we_object e) os) with "Hi") as "[$ #Hn]"; [exists p; by rewrite Eo|].
    iModIntro. iExists _, _. by iFrame "Hc Hn". }
  iSplit; [|by iIntros]. iIntros ([[c rt]|]) "H"; [|by iApply owp_ret]. iDestruct "H" as "(%o & %kf & #Hc & #Hn)".
  iApply wowp_bystander_bind; [apply bystander_reads|]. iIntros (looked).
  destruct (negb (win_wait_failed looked.1)); [by iApply win_wait_result_spec|].
  iApply wowp_bystander_bind; [apply bystander_act; intros w; apply win_step_retries|]. iIntros (queued).
  iApply wowp_bystander_bind; [destruct queued; bystand|]. iIntros (again).
  destruct queued, again; [|by iApply win_wait_result_spec|by iApply owp_ret|by iApply win_wait_result_spec].
  iApply wowp_bystander_bind.
  { split; [intros w; apply win_step_refl|]. intros w w' x Hf. cbn in Hf. unfold win_changed in Hf. split; [|done].
    repeat case_match; simplify_eq; apply win_step_refl. }
  iIntros (changed). destruct changed; [by iApply win_wait_result_spec|by iApply owp_ret].
Qed.

Lemma win_api_spec a p : win_api a p -> ⊢ wowp a p (fun _ => True) True.
Proof.
  intros Hp. destruct Hp as [rounds scope spec|target|target signal|scope signal|scope| |scope|target|scope|e].
  - iApply (owp_seq with "[]"); [iApply win_spawn_spec|]. iSplit; iIntros; [by iApply owp_ret|done].
  - iApply (owp_seq with "[]"); [iApply win_wait_spec|]. iSplit; iIntros; [by iApply owp_ret|done].
  - iApply wowp_bystander. bystand_step; [apply bystander_signal|done].
  - iApply wowp_bystander. bystand_step; [apply bystander_signal_scope|done].
  - iApply wowp_bystander. apply bystander_hard_kill_scope.
  - iApply wowp_bystander. apply bystander_hard_kill_all.
  - iApply wowp_bystander. bystand_step; [apply bystander_cleanup|done].
  - iApply wowp_bystander. bystand_step; [apply bystander_sample|done].
  - iApply wowp_bystander. bystand_step; [apply bystander_scope_usage|done].
  - iApply wowp_bystander. apply bystander_modify. intros w. apply win_step_outside.
Qed.

Lemma win_die D w (a : nat) : win_interp D w ==∗ win_interp ({[a]} ∪ D) (id w).
Proof. by iIntros "$". Qed.
End Logic.
