(* ===== verification/WindowsTheorems.v ===== *)
(** * WindowsTheorems: properties of the Job Object backend

    Every world that callers of the backend, its tasks, the kernel and the other processes of the
    machine reach satisfies [win_ok]; what follows from it for jobs, cleanups and exits, and runs on
    which it is seen. *)

From iris.algebra Require Import auth mra.
From iris.proofmode Require Import proofmode.
From iris.base_logic.lib Require Import ghost_map own.
From stdpp Require Import base list relations gmap strings.
From S2P Require Import Prelude StdModel Values Observation Usage Ports Conc Ownership Procfs Native Windows WindowsInv WindowsOwners WindowsSafe.

Open Scope Z_scope.
Open Scope prog_scope.

(** The ghost state of the proofs. *)
Class winG (Σ : gFunctors) : Set := {
  #[global] winG_handles :: ghost_mapG Σ nat (nat * ChildUse);
  #[global] winG_seen :: inG Σ (authR (mraUR win_later));
}.
Definition winΣ : gFunctors := #[ghost_mapΣ nat (nat * ChildUse); GFunctor (authR (mraUR win_later))].

#[global] Instance subG_winΣ Σ : subG winΣ Σ -> winG Σ.
Proof. solve_inG. Qed.

Definition win_reachable (c : config) : Prop :=
  rtc (pstep win_answer (fun _ => win_body) (fun _ => id) win_api) (mkConfig ∅ win_new []) c.

Lemma win_pool : ⊢ |==> ∃ γh γw : gname,
  pool_res win_answer (Σ := winΣ) (win_interp γh γw) (win_task γh γw) (mkConfig (T := WinTask) (Q := WinPort) ∅ win_new []).
Proof.
  iMod (ghost_map_alloc_empty (K := nat) (V := nat * ChildUse)) as (γh) "Ha".
  iMod (own_alloc (● to_mra win_new : authR (mraUR win_later))) as (γw) "Hw"; [by apply auth_auth_valid|].
  iModIntro. iExists γh, γw. iSplitL; [|done]. iExists ∅. iFrame. iPureIntro. exact win_new_ok.
Qed.

Lemma win_world_ok c : win_reachable c -> exists m, win_ok m (c_state c).
Proof.
  intros Hr. apply (pure_soundness (PROP := iPropI winΣ)), (uPred.bupd_soundness (M := iResUR winΣ)); [apply _|].
  iMod win_pool as (γh γw) "Hp".
  iApply (owp_adequate win_answer (fun _ => win_body) (fun _ => id) _ (win_task γh γw) win_api
    (win_api_spec γh γw) (win_body_spec γh γw) (win_die γh γw) (fun _ w => exists m, win_ok m w) _ c); [..|exact Hr|done|iExact "Hp"].
  intros D w. apply interp_win_ok.
Qed.

(** ** The kill of a scope *)

Lemma retry_slots_procs scope w : ww_procs (retry_slots scope w) = ww_procs w.
Proof.
  unfold retry_slots. generalize (win_slots scope w). intros l. revert w.
  induction l as [|s l IH]; intros w; cbn [foldl]; [done|]. by rewrite IH.
Qed.

(** The kill of a scope terminates what is in its registered job, and nothing else. *)
Lemma kill_scope_procs scope w o :
  ww_procs (kill_scope_section scope None w).1 !! o =
    (p ← ww_procs w !! o;
     Some (if bool_decide (is_Some (wp_job p) /\ wp_job p = ww_jobs w !! scope) then wp_terminate KILLED p else p)).
Proof.
  unfold kill_scope_section, kill_job. destruct (flag_slots_spec (Some scope) w) as (flags & -> & _). cbn.
  destruct (ww_jobs w !! scope) as [j|] eqn:Ej; cbn; rewrite retry_slots_procs; cbn.
  - rewrite terminate_job_lookup. destruct (ww_procs w !! o) as [p|]; [|done]. cbn. unfold in_job. 
    rewrite (bool_decide_ext (wp_job p = Some j) (is_Some (wp_job p) /\ wp_job p = Some j)); [done|].
    split; [intros ->; split; [by eexists|done]|by intros [_ ?]].
  - destruct (ww_procs w !! o) as [p|]; [|done]. cbn. rewrite bool_decide_eq_false_2; [done|]. intros [[j Hj] Hn]. congruence.
Qed.

Lemma kill_scope_answers scope w : (kill_scope_section scope None w).2 = Ok tt.
Proof. unfold kill_scope_section, kill_job. by destruct (ww_jobs _ !! scope). Qed.

Lemma terminate_dooms code p : wp_running p = true -> is_Some (wp_doomed (wp_terminate code p)).
Proof. unfold wp_running, wp_terminate. destruct (wp_exit p); [done|]. intros _. destruct (wp_doomed p) eqn:D; cbn; rewrite ?D; by eexists. Qed.

Lemma kill_scope_reaches m w scope o p :
  win_ok m w -> ww_procs w !! o = Some p -> process_scope w p = Some scope -> wp_running p = true ->
  exists p', ww_procs (kill_scope_section scope None w).1 !! o = Some p' /\ is_Some (wp_doomed p').
Proof.
  intros Hm Ep Hs Hx. pose proof (kill_scope_procs scope w o) as Hk. rewrite Ep in Hk. cbn in Hk.
  rewrite bool_decide_eq_true_2 in Hk; [eexists; split; [exact Hk|by apply terminate_dooms]|].
  unfold process_scope in Hs. destruct (wp_job p) as [j|] eqn:Ej; [|done]. split; [by eexists|]. cbn in Hs.
  destruct (wk_members _ _ Hm o p j Ep Ej) as (sc & Esc & Hj). unfold job_scope in Hs. rewrite Esc in Hs. injection Hs as ->.
  rewrite Hj; [done|]. unfold wp_running in Hx. by destruct (wp_exit p).
Qed.

Lemma kill_scope_spares m w scope o p :
  win_ok m w -> ww_procs w !! o = Some p -> process_scope w p <> Some scope -> ww_procs (kill_scope_section scope None w).1 !! o = Some p.
Proof.
  intros Hm Ep Hs. pose proof (kill_scope_procs scope w o) as Hk. rewrite Ep in Hk. cbn in Hk.
  rewrite bool_decide_eq_false_2 in Hk; [exact Hk|]. intros [[j Ej] Hj]. apply Hs.
  unfold process_scope. rewrite Ej. cbn. apply (wk_jobs _ _ Hm). congruence.
Qed.

(** C18. A scope contains what it started, in every run. A child that was spawned in a scope and whose first thread
    was resumed is in a job of that scope. The kill of a scope, unless the kernel refuses it, terminates every
    running process in any job of the scope, children and their descendants, and no other
    process. And when [cleanup_scope] has returned [Ok], every process that was ever in a job of the
    scope by then has exited. *)
Theorem windows_scopes_contained c :
  win_reachable c -> let w := c_state c in
  (forall o scope p, wh_spawned (ww_history w) !! o = Some scope -> ww_procs w !! o = Some p -> wp_suspended p = false ->
     process_scope w p = Some scope) /\
  (forall scope, let '(w', r) := kill_scope_section scope None w in
     r = Ok tt /\
     forall o p, ww_procs w !! o = Some p ->
       (process_scope w p = Some scope -> wp_running p = true -> exists p', ww_procs w' !! o = Some p' /\ is_Some (wp_doomed p')) /\
       (process_scope w p <> Some scope -> ww_procs w' !! o = Some p)) /\
  (forall scope members o, (scope, members) ∈ wh_cleaned (ww_history w) -> o ∈ members ->
     exists p, ww_procs w !! o = Some p /\ is_Some (wp_exit p)).
Proof.
  intros Hr w. destruct (win_world_ok c Hr) as [m Hm]. fold w in Hm. split_and!.
  - intros o scope p Hs Ep Hp. destruct (wk_spawned _ _ Hm o scope Hs) as (p' & Ep' & [C J _]). rewrite Ep in Ep'. injection Ep' as <-.
    destruct (C Hp) as [j Hj]. unfold process_scope. rewrite Hj. cbn. by apply J.
  - intros scope. pose proof (kill_scope_answers scope w) as Ha. pose proof (kill_scope_reaches m w scope) as Hk.
    pose proof (kill_scope_spares m w scope) as Hn.
    destruct (kill_scope_section scope None w) as [w' r]. cbn [fst snd] in *. split; [done|]. eauto.
  - intros scope members o. by apply (wk_cleaned _ _ Hm).
Qed.

(** C19. What [wait] returns is true, in every run: the process that its target names by number and creation time
    has exited, with the code that is returned; [Kill] is reported when the backend killed
    the process and that was its end, and only for a process whose kill flag was raised. *)
Theorem windows_waits_true c os o raw :
  win_reachable c -> (os, o, raw) ∈ wh_waits (ww_history (c_state c)) ->
  exists p code, ww_procs (c_state c) !! o = Some p /\ win_key os = (wp_pid p, wp_created p) /\
    wp_exit p = Some code /\ raw_code raw = Some (i32_of_u32 code) /\ raw_core_dumped raw = false /\
    (wp_doomed p = Some KILLED -> code = KILLED -> raw_signal raw = Some Kill) /\
    (is_Some (raw_signal raw) -> raw_signal raw = Some Kill /\ i32_of_u32 code = i32_of_u32 KILLED /\
       exists ch e, ww_exits (c_state c) !! ch = Some e /\ we_object e = o /\ ww_killed (c_state c) !! we_flag e = Some true).
Proof.
  intros Hr Hin. destruct (win_world_ok c Hr) as [m Hm]. destruct (wk_waits _ _ Hm os o raw Hin) as ((p & Ep & Hk) & ch & e & Ee & <- & Ht).
  destruct Ht as (p' & code & killed & Ep' & X & -> & Hf & Hd). rewrite Ep in Ep'. injection Ep' as <-.
  exists p, code. split_and!; [done..| |]; cbn.
  - intros Hdoom ->. by rewrite (Hd Hdoom) Z.eqb_refl.
  - destruct killed; cbn; [|by intros [? ?]]. destruct (_ =? _) eqn:Ec; [|by intros [? ?]]. intros _.
    split_and!; [done|by apply Z.eqb_eq|]. exists ch, e. split_and!; [done..|by apply Hf].
Qed.

(** A process that ended with the code 259 is taken for a running one: a signal that came after its exit,
    which does nothing for every other code, raises its flag and is refused. *)
Theorem still_active_code_signal (key : WinKey) (slot : WinSlot) (p : WinProcess) (code : Z) (w : WinWorld) :
  ww_slots w !! key = Some slot -> ww_procs w !! ws_process slot = Some p -> wp_exit p = Some code ->
  signal_section key None None w =
    if code =? STILL_ACTIVE then (set_flag (ws_killed slot) w, win_signal_failed "Access is denied. (os error 5)") else (w, Ok tt).
Proof.
  intros Hs Hp He. unfold signal_section. rewrite Hs Hp He. change (default STILL_ACTIVE (Some code)) with code. destruct (code =? STILL_ACTIVE); cbn [negb]; [|done].
  unfold terminate_process. change (ww_procs (set_flag (ws_killed slot) w)) with (ww_procs w). rewrite Hp. unfold wp_running. by rewrite He.
Qed.

(** ** Runs *)

Section Runs.
(** Every call succeeds; numbers are given out in order. *)
Definition win_oracle (w : WinWorld) (X : Type) (q : WinPort X) : option X :=
  match q in WinPort X return option X with
  | WnFails => Some None
  | WnCreates _ => Some (2000 + Z.of_nat (size (ww_procs w)), 77)
  | WnThreads => Some [None]
  | WnRefusals => Some (fun _ => None)
  | WnWaitFails => None
  | WnSleep _ => Some tt
  | WnNow => Some 0
  | WnPool => Some None
  | WnTicks _ => Some (Ok (1, 2))
  | WnMemory _ => Some (Ok (4096, 8192))
  | WnIo _ => Some (Ok (10, 20))
  | WnAccounting _ => Some (Err EmptyString)
  | WnDrained _ _ => Some tt
  | WnReadersFinished _ => Some tt
  end.

Abbreviation turns := (list (turn (S := WinWorld) (Q := WinPort) (T := WinTask))).

Definition win_run (ts : turns) : config :=
  take_turns win_answer (fun _ => win_body) (fun _ => id) win_oracle 200 ts (mkConfig ∅ win_new []).

Lemma win_run_reachable ts : Forall (enters win_api) ts -> win_reachable (win_run ts).
Proof. apply take_turns_reachable. Qed.

Definition win_demo_scope : ProcessScopeId := 1%N.
Definition win_demo_os : OsIdentity := mkOsIdentity 2000 (StartTime 77).

(** A child is spawned, and starts a process of its own. *)
Definition win_demo_spawn : turns :=
  [Enter 0 (win_spawn 2 win_demo_scope (spec_new "sleep") ;;; Ret tt); Go 0;
   Enter 0 (modify (win_outside (WinStarts (Some 0) 3000 5))); Go 2]%nat.

Lemma win_demo_spawn_reachable : win_reachable (win_run win_demo_spawn).
Proof. apply win_run_reachable. repeat constructor. Qed.

(** Then the scope is cleaned up, both processes end, and the child is waited for. *)
Definition win_demo_life : turns :=
  win_demo_spawn ++
  [Enter 0 (win_signal_scope win_demo_scope Kill ;;; Ret tt); Go 3;
   Enter 0 (modify (win_outside (WinExits 0 KILLED))); Go 4; Go 1;
   Enter 0 (win_wait (mkSpawned win_demo_os) ;;; Ret tt); Go 5;
   Enter 0 (modify (win_outside (WinExits 6 KILLED))); Go 6;
   Enter 0 (win_cleanup_scope win_demo_scope ;;; Ret tt); Go 7]%nat.

Lemma win_demo_life_reachable : win_reachable (win_run win_demo_life).
Proof. apply win_run_reachable. repeat constructor. Qed.

Lemma windows_scopes_contained_witness :
  exists (c c' : config) p q, win_reachable c /\ win_reachable c' /\
    ww_procs (c_state c) !! 0%nat = Some p /\ process_scope (c_state c) p = Some win_demo_scope /\
    ww_procs (c_state c) !! 6%nat = Some q /\ wp_running q = true /\
    (exists q', ww_procs (kill_scope_section win_demo_scope None (c_state c)).1 !! 6%nat = Some q' /\ is_Some (wp_doomed q')) /\
    wh_cleaned (ww_history (c_state c')) = [(win_demo_scope, [6; 0]%nat)] /\
    exists q', ww_procs (c_state c') !! 6%nat = Some q' /\ is_Some (wp_exit q').
Proof.
  set (c := win_run win_demo_spawn). set (c' := win_run win_demo_life).
  assert (Ep : ww_procs (c_state c) !! 0%nat = Some (mkWinProcess 2000 77 (Some 2%nat) false None None false)) by (by vm_compute).
  assert (Eq : ww_procs (c_state c) !! 6%nat = Some (mkWinProcess 3000 5 (Some 2%nat) false None None false)) by (by vm_compute).
  assert (Es : wh_spawned (ww_history (c_state c)) !! 0%nat = Some win_demo_scope) by (by vm_compute).
  assert (Eo : process_scope (c_state c) (mkWinProcess 3000 5 (Some 2%nat) false None None false) = Some win_demo_scope) by (by vm_compute).
  assert (Ec : wh_cleaned (ww_history (c_state c')) = [(win_demo_scope, [6; 0]%nat)]) by (by vm_compute).
  pose proof (windows_scopes_contained c win_demo_spawn_reachable) as (Hc & Hk & _).
  pose proof (windows_scopes_contained c' win_demo_life_reachable) as (_ & _ & Hcl).
  exists c, c'. do 2 eexists. split; [apply win_demo_spawn_reachable|]. split; [apply win_demo_life_reachable|].
  split; [exact Ep|]. split; [by apply (Hc 0%nat)|]. split; [exact Eq|]. split; [done|]. split; [|split; [exact Ec|]].
  - specialize (Hk win_demo_scope). destruct (kill_scope_section win_demo_scope None (c_state c)) as [w' r]. cbn [fst].
    destruct Hk as [_ Hk]. by apply (Hk 6%nat _ Eq).
  - apply (Hcl win_demo_scope [6; 0]%nat 6%nat); [rewrite Ec|]; apply list_elem_of_here.
Defined.

Lemma windows_waits_true_witness :
  let raw := mkRawExit (Some (i32_of_u32 KILLED)) (Some Kill) false in
  exists c : config, win_reachable c /\ wh_waits (ww_history (c_state c)) = [(win_demo_os, 0%nat, raw)] /\
  exists p code, ww_procs (c_state c) !! 0%nat = Some p /\ win_key win_demo_os = (wp_pid p, wp_created p) /\
    wp_exit p = Some code /\ raw_code raw = Some (i32_of_u32 code) /\ raw_core_dumped raw = false /\
    (wp_doomed p = Some KILLED -> code = KILLED -> raw_signal raw = Some Kill) /\
    (is_Some (raw_signal raw) -> raw_signal raw = Some Kill /\ i32_of_u32 code = i32_of_u32 KILLED /\
       exists ch e, ww_exits (c_state c) !! ch = Some e /\ we_object e = 0%nat /\ ww_killed (c_state c) !! we_flag e = Some true).
Proof.
  intros raw. exists (win_run win_demo_life). split; [apply win_demo_life_reachable|].
  assert (E : wh_waits (ww_history (c_state (win_run win_demo_life))) = [(win_demo_os, 0%nat, raw)]) by (by vm_compute).
  split; [exact E|]. apply (windows_waits_true _ win_demo_os 0%nat raw win_demo_life_reachable). rewrite E. apply list_elem_of_here.
Defined.
End Runs.
