(* ===== verification/Blocking.v ===== *)
(** * Blocking: the supervisor for callers without an async context

    shepherd/src/blocking.rs. [drive] is the decision on which thread, and how, a future is driven;
    [with_scope_options] and [run_async] are programs that ask the supervisor of
    supervisor.rs, the clock and the captured output ([BlockingPort]). The other methods of
    [BlockingSupervisor] and of [BlockingScopedProcesses] drive one method of the supervisor
    or forward to it. *)

From stdpp Require Import base list strings.
From S2P Require Import Prelude StdModel Values Ports Conc History Output.

Open Scope Z_scope.
Open Scope prog_scope.

(** ** Runtimes and threads *)

Inductive RuntimeFlavor : Type := CurrentThread | MultiThread.

Record RuntimeHandle : Type := mkRuntimeHandle {
  rh_id : nat;
  rh_flavor : RuntimeFlavor;
}.

Inductive Driver : Type :=
| DriverOwned (runtime : RuntimeHandle)
| DriverHandle (handle : RuntimeHandle).
Definition driver_handle (d : Driver) : RuntimeHandle := match d with DriverOwned r => r | DriverHandle h => h end.

(** A thread: the runtime it is inside of, if any, and whether it is inside of a [LocalSet]. *)
Record Thread : Type := mkThread {
  th_current : option RuntimeHandle;
  th_local_set : bool;
}.
(** A scoped helper thread is outside of every runtime. *)
Definition helper_thread : Thread := mkThread None false.

(** How a future is driven: after [block_in_place] or not, on a helper thread or on the caller's, by the
    runtime or by its handle. *)
Inductive Executor : Type :=
| RuntimeBlockOn (runtime : RuntimeHandle)
| HandleBlockOn (handle : RuntimeHandle).
Record Drive : Type := mkDrive {
  dr_in_place : bool;
  dr_helper : bool;
  dr_executor : Executor;
}.

#[global] Instance runtime_flavor_eq_dec : EqDecision RuntimeFlavor.
Proof. solve_decision. Defined.
#[global] Instance runtime_handle_eq_dec : EqDecision RuntimeHandle.
Proof. solve_decision. Defined.

Definition refused_handle : string := "shepherd::blocking::from_handle cannot drive a current-thread runtime: Handle::block_on does not run I/O or timers on current-thread. Use BlockingSupervisor::from_runtime(runtime) from synchronous code, or BlockingSupervisor::new().".
Definition refused_nested : string := "shepherd::blocking cannot drive a current-thread runtime from the thread that is already running it (nested block_on deadlocks). Use BlockingSupervisor::new() or call from a thread that is not that runtime's driver.".
(** The panic of [block_in_place] in a [LocalSet]. *)
Definition refused_local_set : string := "can call blocking only when running on the multi-threaded runtime".

(** [block_on_from_sync_thread]. *)
Definition block_on_from_sync_thread (d : Driver) : result Executor string :=
  match d with
  | DriverOwned r => Ok (RuntimeBlockOn r)
  | DriverHandle h => match rh_flavor h with CurrentThread => Err refused_handle | MultiThread => Ok (HandleBlockOn h) end
  end.

(** [drive_on_helper_thread]; a panic of the helper is resumed by the caller. *)
Definition drive_on_helper_thread (in_place : bool) (d : Driver) : result Drive string :=
  match block_on_from_sync_thread d with Ok e => Ok (mkDrive in_place true e) | Err m => Err m end.

Definition drive_with (d : Driver) (caller : Thread) : result Drive string :=
  match th_current caller with
  | None => match block_on_from_sync_thread d with Ok e => Ok (mkDrive false false e) | Err m => Err m end
  | Some current =>
      if bool_decide (rh_id current = rh_id (driver_handle d)) then
        match rh_flavor current with
        | CurrentThread => Err refused_nested
        | MultiThread => if th_local_set caller then Err refused_local_set else drive_on_helper_thread true d
        end
      else drive_on_helper_thread false d
  end.

(** The drop of an owned runtime: in the background inside of a runtime, where an ordinary drop panics. *)
Inductive RuntimeDrop : Type := DropInBackground | DropWaiting.
Definition owned_runtime_drop (caller : Thread) : RuntimeDrop :=
  match th_current caller with Some _ => DropInBackground | None => DropWaiting end.

(** ** Builder *)

Record BlockingSupervisorBuilder : Type := mkBlockingSupervisorBuilder {
  bb_stats_interval : Duration;
  bb_worker_threads : Z;
}.
Definition blocking_builder_new : BlockingSupervisorBuilder := mkBlockingSupervisorBuilder (from_secs 1) 2.
Definition builder_stats_interval (interval : Duration) (b : BlockingSupervisorBuilder) : BlockingSupervisorBuilder :=
  mkBlockingSupervisorBuilder interval (bb_worker_threads b).
Definition builder_worker_threads (threads : Z) (b : BlockingSupervisorBuilder) : BlockingSupervisorBuilder :=
  mkBlockingSupervisorBuilder (bb_stats_interval b) (Z.max threads 2).

(** [build]: the owned runtime, which is multi-threaded. *)
Definition builder_build (b : BlockingSupervisorBuilder) (runtime_id : nat) : Driver :=
  DriverOwned (mkRuntimeHandle runtime_id MultiThread).

(** A built supervisor refuses no caller but one that runs in a [LocalSet] of its own runtime. *)
Lemma built_drives b i caller :
  (forall r, th_current caller = Some r -> rh_id r = i -> rh_flavor r = MultiThread) ->
  (exists how, drive_with (builder_build b i) caller = Ok how) \/
  (drive_with (builder_build b i) caller = Err refused_local_set /\ th_local_set caller = true).
Proof.
  intros Hc. unfold drive_with, drive_on_helper_thread, builder_build, block_on_from_sync_thread. cbn -[bool_decide].
  destruct (th_current caller) as [r|]; [|left; by eexists]. case_bool_decide as E; [|left; by eexists].
  rewrite (Hc r eq_refl E). destruct (th_local_set caller); [by right|left; by eexists].
Qed.

(** ** Data of a run *)

Record RunOptions : Type := mkRunOptions {
  ro_deadline : Duration;
  ro_terminate : TerminateOptions;
  ro_output_drain : Duration;
}.
Definition run_with_deadline (deadline : Duration) : RunOptions :=
  mkRunOptions deadline (mkTerminateOptions (from_millis 100) (Some (from_secs 5))) (from_secs 1).

Inductive BlockingRun : Type :=
| RunCompleted (exit : ProcessExit) (output : option OutputSnapshot) (termination : ScopeTerminationReport)
| RunTimedOut (output : option OutputSnapshot) (termination : ScopeTerminationReport).

Inductive BlockingRunError : Type :=
| RunScope (e : ScopeCreationError)
| RunSpawn (e : SpawnError)
| RunWait (e : WaitError)
| RunTerminate (e : TerminateError)
| RunUnverified (run : option BlockingRunError) (termination : ScopeTerminationReport).

Definition run_timed_out (r : BlockingRun) : bool := match r with RunTimedOut _ _ => true | RunCompleted _ _ _ => false end.
Definition run_termination (r : BlockingRun) : ScopeTerminationReport :=
  match r with RunCompleted _ _ t | RunTimedOut _ t => t end.
Definition run_output (r : BlockingRun) : option OutputSnapshot :=
  match r with RunCompleted _ o _ | RunTimedOut o _ => o end.
Definition run_all_verified (r : BlockingRun) : bool :=
  match r with
  | RunCompleted exit _ termination => is_verified (exit_outcome exit) && report_all_verified termination
  | RunTimedOut _ termination => report_all_verified termination
  end.
Definition into_verified (r : BlockingRun) : result BlockingRun BlockingRunError :=
  if run_all_verified r then Ok r else Err (RunUnverified None (run_termination r)).

(** What a completed spawn gives: its process and the captured output; the exit is a question. *)
Record Observation : Type := mkObservation {
  obs_pid : ProcessId;
  obs_output : option ProcessOutput;
}.

Record BlockingScopedProcesses : Type := mkBlockingScopedProcesses {
  bsp_scope : ProcessScopeId;
  bsp_processes : list ProcessId;
}.

(** [WithScopeResult], with a value of the body. *)
Record BlockingScopeResult {A : Type} : Type := mkBlockingScopeResult {
  bsr_scope : ProcessScopeId;
  bsr_result : result A SpawnError;
  bsr_termination : result ScopeTerminationReport TerminateError;
}.
#[global] Arguments BlockingScopeResult : clear implicits.
#[global] Arguments mkBlockingScopeResult {A} _ _ _.

(** What passes is a run whose cleanup is verified, and whose exit is, if it was waited for. *)
Lemma into_verified_ok r r' :
  into_verified r = Ok r' ->
  r' = r /\ Forall (fun x => is_verified x.2 = true) (report_outcomes (run_termination r)) /\
  forall exit output termination, r = RunCompleted exit output termination -> is_verified (exit_outcome exit) = true.
Proof.
  unfold into_verified. destruct (run_all_verified r) eqn:E; [|done]. intros [= <-]. split; [done|].
  assert (Ht : report_all_verified (run_termination r) = true /\
    forall exit output termination, r = RunCompleted exit output termination -> is_verified (exit_outcome exit) = true).
  { destruct r as [exit o t|o t]; cbn in E |- *; [apply andb_true_iff in E as [? ?]; split; [done|]; by intros ??? [= <- <- <-]|by split]. }
  destruct Ht as [Ht He]. split; [|exact He]. apply Forall_forall. intros x Hx. unfold report_all_verified in Ht.
  rewrite forallb_forall in Ht. apply Ht. by apply list_elem_of_In.
Qed.

(** ** Questions to the supervisor and the body *)

Section Blocking.
Context {A : Type}.

Inductive BlockingPort : Type -> Type :=
(** A future is driven from here on, until it is done. *)
| BlDrive (how : Drive) : BlockingPort unit
(** [create_observed_scope]: it panics when shutdown has started. *)
| BlCreateObserved : BlockingPort (unwound ProcessScopeId)
| BlSpawn (scope : ProcessScopeId) (spec : ProcessSpec) : BlockingPort (result ProcessId SpawnError)
| BlBody (processes : BlockingScopedProcesses) : BlockingPort (unwound A)
(** [ObservedScope::finish]. *)
| BlFinish (scope : ProcessScopeId) (options : TerminateOptions) : BlockingPort (result ScopeTerminationReport TerminateError)
| BlTryCreateScope : BlockingPort (result ProcessScopeId ScopeCreationError)
| BlSpawnObserved (scope : ProcessScopeId) (spec : ProcessSpec) : BlockingPort nat
| BlComplete (spawn : nat) : BlockingPort (result Observation SpawnError)
| BlExit (pid : ProcessId) : BlockingPort ProcessExit
(** The timer of [timeout(deadline, ..)]. *)
| BlDeadline (deadline : Duration) : BlockingPort unit
| BlTerminate (scope : ProcessScopeId) (options : TerminateOptions) : BlockingPort (result ScopeTerminationReport TerminateError)
| BlTakeAdmission (spawn : nat) : BlockingPort (option Observation)
| BlRead (output : ProcessOutput) : BlockingPort OutputSnapshot
| BlNow : BlockingPort Instant
| BlSleep (d : Duration) : BlockingPort unit.

Abbreviation BProg := (Prog (S := unit) (Q := BlockingPort) (T := Empty_set)).

Definition blocking_answer (X : Type) (q : BlockingPort X) (x : X) (w : unit) : unit := w.

Section Facade.
Context (driver : Driver) (caller : Thread).

(** [drive]: the refusal is a panic before the future is polled. *)
Definition drive {X} (p : BProg X) : BProg X :=
  match drive_with driver caller with
  | Err m => Panic m
  | Ok how => call (BlDrive how) ;;; p
  end.

(** ** [with_scope_options] *)

(** The loop over the specs: the processes, or the first error. *)
Fixpoint spawn_specs (scope : ProcessScopeId) (specs : list ProcessSpec) (processes : list ProcessId) :
    BProg (list ProcessId * option SpawnError) :=
  match specs with
  | [] => Ret (processes, None)
  | spec :: specs =>
      let! spawned := drive (ask (BlSpawn scope spec)) in
      match spawned with
      | Ok pid => spawn_specs scope specs (processes ++ [pid])
      | Err error => Ret (processes, Some error)
      end
  end.

Definition finish_observed_scope (scope : ProcessScopeId) (options : TerminateOptions) :
    BProg (result ScopeTerminationReport TerminateError) :=
  drive (ask (BlFinish scope options)).

Definition with_scope_options (specs : list ProcessSpec) (options : TerminateOptions) : BProg (BlockingScopeResult A) :=
  let! observed := drive (call BlCreateObserved) in
  match observed with
  | Unwound => Panic "create_scope after shutdown"
  | Returned scope =>
      let! (processes, spawn_error) := spawn_specs scope specs [] in
      match spawn_error with
      | Some error =>
          let! termination := finish_observed_scope scope options in
          Ret (mkBlockingScopeResult scope (Err error) termination)
      | None =>
          let! value := call (BlBody (mkBlockingScopedProcesses scope processes)) in
          let! termination := finish_observed_scope scope options in
          match value with
          | Returned value => Ret (mkBlockingScopeResult scope (Ok value) termination)
          | Unwound => Panic "the body panicked"
          end
      end
  end.

Definition blocking_with_scope (specs : list ProcessSpec) : BProg (BlockingScopeResult A) :=
  with_scope_options specs terminate_default.

(** ** [run] *)

Definition DRAIN_POLL : Duration := from_millis 10.

Definition with_chunks (chunks : list OutputChunk) (s : OutputSnapshot) : OutputSnapshot :=
  mkOutputSnapshot chunks (os_tail s) (os_dropped_bytes s) (os_stdout_closed s) (os_stderr_closed s) (os_errors s).

(** The loop of [drain_output], from its condition on, for a number of polls: with more of them than fit
    the budget it never ends here (BlockingOrder.v). *)
Definition out_of_polls : string := "the clock stands still".
Fixpoint drain_loop (polls : nat) (output : ProcessOutput) (deadline : Instant) (chunks : list OutputChunk) (snapshot : OutputSnapshot) :
    BProg OutputSnapshot :=
  if os_stdout_closed snapshot && os_stderr_closed snapshot then Ret (with_chunks chunks snapshot)
  else
    let! now := call BlNow in
    if deadline <=? now then Ret (with_chunks chunks snapshot)
    else
      ask (BlSleep DRAIN_POLL) ;;;
      let! snapshot := call (BlRead output) in
      match polls with
      | O => Panic out_of_polls
      | S polls => drain_loop polls output deadline (chunks ++ os_chunks snapshot) snapshot
      end.

Definition drain_output (polls : nat) (output : option ProcessOutput) (budget : Duration) : BProg (option OutputSnapshot) :=
  match output with
  | None => Ret None
  | Some output =>
      let! now := call BlNow in
      let! snapshot := call (BlRead output) in
      let! drained := drain_loop polls output (now + budget) (os_chunks snapshot) snapshot in
      Ret (Some drained)
  end.

(** The attempt under the deadline: the observation it got to, and its exit, its error, or neither. *)
Definition attempt (spawn : nat) (deadline : Duration) : BProg (option Observation * option (result ProcessExit SpawnError)) :=
  let! first := Wait (Either (Answer (BlComplete spawn)) (Answer (BlDeadline deadline))) id Ret in
  match first with
  | inl (Err error) => Ret (None, Some (Err error))
  | inr _ => Ret (None, None)
  | inl (Ok observation) =>
      let! second := Wait (Either (Answer (BlExit (obs_pid observation))) (Answer (BlDeadline deadline))) id Ret in
      match second with
      | inl exit => Ret (Some observation, Some (Ok exit))
      | inr _ => Ret (Some observation, None)
      end
  end.

Definition finish_scope (scope : ProcessScopeId) (options : TerminateOptions) : BProg (result ScopeTerminationReport BlockingRunError) :=
  let! terminated := ask (BlTerminate scope options) in
  Ret (match terminated with Ok report => Ok report | Err e => Err (RunTerminate e) end).

Definition finish_scope_after_error (scope : ProcessScopeId) (options : TerminateOptions) (error : BlockingRunError) : BProg BlockingRunError :=
  let! finished := finish_scope scope options in
  Ret (match finished with
       | Ok termination => if report_all_verified termination then error else RunUnverified (Some error) termination
       | Err cleanup => cleanup
       end).

Definition observed_output (o : option Observation) : option ProcessOutput := o ← o; obs_output o.

Definition run_async (polls : nat) (spec : ProcessSpec) (options : RunOptions) : BProg (result BlockingRun BlockingRunError) :=
  let! created := call BlTryCreateScope in
  match created with
  | Err e => Ret (Err (RunScope e))
  | Ok scope =>
      let! spawn := call (BlSpawnObserved scope spec) in
      let! (observation, outcome) := attempt spawn (ro_deadline options) in
      match outcome with
      | Some (Ok exit) =>
          let! finished := finish_scope scope (ro_terminate options) in
          match finished with
          | Err e => Ret (Err e)
          | Ok termination =>
              let! output := drain_output polls (observed_output observation) (ro_output_drain options) in
              Ret (Ok (RunCompleted exit output termination))
          end
      | Some (Err error) =>
          let! error := finish_scope_after_error scope (ro_terminate options) (RunSpawn error) in
          Ret (Err error)
      | None =>
          let! finished := finish_scope scope (ro_terminate options) in
          match finished with
          | Err e => Ret (Err e)
          | Ok termination =>
              let! observation := (match observation with Some o => Ret (Some o) | None => call (BlTakeAdmission spawn) end) in
              let! output := drain_output polls (observed_output observation) (ro_output_drain options) in
              Ret (Ok (RunTimedOut output termination))
          end
      end
  end.

Definition run_with_options (polls : nat) (spec : ProcessSpec) (options : RunOptions) : BProg (result BlockingRun BlockingRunError) :=
  drive (run_async polls spec options).
Definition blocking_run (polls : nat) (spec : ProcessSpec) (deadline : Duration) : BProg (result BlockingRun BlockingRunError) :=
  run_with_options polls spec (run_with_deadline deadline).
End Facade.
End Blocking.
#[global] Arguments BlockingPort : clear implicits.
