(* ===== verification/BlockingOrder.v ===== *)
(** * BlockingOrder: what a call of the blocking facade does, in which order

    [run_with_options] and [with_scope_options] along an automaton each, for all answers of the supervisor,
    of the clock and of the output, on every thread and with every runtime. Each is run
    under [catch], so that what was done before a panic counts too. *)

From stdpp Require Import base list strings.
From S2P Require Import Prelude StdModel Values Ports Conc Protocol History Output Blocking.

Open Scope Z_scope.
Open Scope prog_scope.

#[global] Instance driver_eq_dec : EqDecision Driver.
Proof. solve_decision. Defined.

(** The guards of a phase that is known. *)
Local Ltac decided :=
  cbn -[bool_decide];
  repeat (rewrite bool_decide_eq_true_2 by done || rewrite bool_decide_eq_false_2 by done);
  reflexivity.

(** ** How a future may be driven *)

(** The driving thread is outside of every runtime; the runtime is the supervisor's, with a scheduler that
    runs while it is driven; a worker of the same runtime is released first, and can be. *)
Definition drives (d : Driver) (caller : Thread) (how : Drive) : bool :=
  (dr_helper how || bool_decide (th_current caller = None)) &&
  match dr_executor how with
  | RuntimeBlockOn r => bool_decide (d = DriverOwned r)
  | HandleBlockOn h => bool_decide (d = DriverHandle h) && bool_decide (rh_flavor h = MultiThread)
  end &&
  match th_current caller with
  | Some r =>
      if bool_decide (rh_id r = rh_id (driver_handle d))
      then dr_in_place how && bool_decide (rh_flavor r = MultiThread) && negb (th_local_set caller)
      else negb (dr_in_place how)
  | None => negb (dr_in_place how)
  end.

Lemma drive_with_drives d caller how : drive_with d caller = Ok how -> drives d caller how = true.
Proof.
  unfold drive_with, drive_on_helper_thread, block_on_from_sync_thread, drives.
  destruct (th_current caller) as [c|] eqn:Ec; [case_bool_decide; [destruct (rh_flavor c) eqn:Ef; [done|]; destruct (th_local_set caller); [done|]|]|];
    (destruct d as [r|h]; [|destruct (rh_flavor h) eqn:Eh; [done|]]); intros [= <-]; cbn -[bool_decide];
    repeat rewrite bool_decide_eq_true_2 by done; try done; by rewrite bool_decide_eq_false_2.
Qed.

Section Order.
Context {A : Type} (driver : Driver) (caller : Thread).

(** A question with its answer. *)
Inductive asked : Type :=
| Asked {X : Type} (q : BlockingPort A X) (x : X).
Definition blocking_label (X : Type) (q : BlockingPort A X) : X -> asked := Asked q.
Definition no_task (t : Empty_set) : asked := match t with end.

Abbreviation BProg := (Prog (S := unit) (Q := BlockingPort A) (T := Empty_set)).

Definition blocking_trace {B} (p : BProg B) (ls : list asked) (r : option B) : Prop :=
  trace blocking_answer blocking_label no_task p ls r.

Definition given {P} (b : bool) (o : option P) : option P := if b then o else None.

(** ** A run with a deadline *)

Section Run.
Context (spec : ProcessSpec) (options : RunOptions).

(** The captured output: not read; until when it may be; everything read so far; the same, with the clock
    looked at since, early or late; after the sleep. *)
Inductive draining : Type :=
| NotDraining
| Budgeted (until : Instant)
| Read (until : Instant) (all : OutputSnapshot)
| Early (until : Instant) (all : OutputSnapshot)
| Late (all : OutputSnapshot)
| Slept (until : Instant) (all : OutputSnapshot).

(** What a run knows: the scope, the spawn, its process, how the attempt ended ([None] for the deadline), the
    cleanup, whether the admission was asked for, and the output. *)
Record running : Type := mkRunning {
  rn_driven : bool;
  rn_scope : option (result ProcessScopeId ScopeCreationError);
  rn_spawn : option nat;
  rn_seen : option Observation;
  rn_ended : option (option (result ProcessExit SpawnError));
  rn_cleanup : option (result ScopeTerminationReport TerminateError);
  rn_admission : bool;
  rn_drain : draining;
}.
Definition run_start : running := mkRunning false None None None None None false NotDraining.

Definition with_drain (s : running) (d : draining) : running :=
  mkRunning (rn_driven s) (rn_scope s) (rn_spawn s) (rn_seen s) (rn_ended s) (rn_cleanup s) (rn_admission s) d.
Definition ended_as (s : running) (seen : option Observation) (e : option (option (result ProcessExit SpawnError))) : option running :=
  Some (mkRunning (rn_driven s) (rn_scope s) (rn_spawn s) seen e (rn_cleanup s) (rn_admission s) (rn_drain s)).

(** The cleanup was answered, and the attempt did not fail: the output counts. *)
Definition cleaned (s : running) : bool :=
  match rn_cleanup s, rn_ended s with
  | Some (Ok _), Some None | Some (Ok _), Some (Some (Ok _)) => true
  | _, _ => false
  end.
Definition closed (o : OutputSnapshot) : bool := os_stdout_closed o && os_stderr_closed o.
(** All chunks that were read, with the rest of the last reading. *)
Definition joined (chunks : list OutputChunk) (o : OutputSnapshot) : OutputSnapshot := with_chunks (chunks ++ os_chunks o) o.

Definition run_delta (s : running) (l : asked) : option running :=
  match l with
  | Asked q x =>
      match q in BlockingPort _ X return X -> option running with
      | BlDrive how => fun _ =>
          given (negb (rn_driven s) && drives driver caller how)
            (Some (mkRunning true (rn_scope s) (rn_spawn s) (rn_seen s) (rn_ended s) (rn_cleanup s) (rn_admission s) (rn_drain s)))
      | BlTryCreateScope => fun r =>
          given (rn_driven s && bool_decide (rn_scope s = None))
            (Some (mkRunning true (Some r) (rn_spawn s) (rn_seen s) (rn_ended s) (rn_cleanup s) (rn_admission s) (rn_drain s)))
      | BlSpawnObserved scope spec' => fun h =>
          given (bool_decide (rn_scope s = Some (Ok scope)) && bool_decide (spec' = spec) && bool_decide (rn_spawn s = None))
            (Some (mkRunning true (rn_scope s) (Some h) (rn_seen s) (rn_ended s) (rn_cleanup s) (rn_admission s) (rn_drain s)))
      | BlComplete h => fun r =>
          given (bool_decide (rn_spawn s = Some h) && bool_decide (obs_pid <$> rn_seen s = None) && bool_decide (rn_ended s = None))
            match r with
            | Ok o => ended_as s (Some o) None
            | Err e => ended_as s None (Some (Some (Err e)))
            end
      | BlExit pid => fun r =>
          given (bool_decide (obs_pid <$> rn_seen s = Some pid) && bool_decide (rn_ended s = None)) (ended_as s (rn_seen s) (Some (Some (Ok r))))
      | BlDeadline d => fun _ =>
          given (bool_decide (d = ro_deadline options) && negb (bool_decide (rn_spawn s = None)) && bool_decide (rn_ended s = None))
            (ended_as s (rn_seen s) (Some None))
      | BlTerminate scope opts => fun r =>
          given (bool_decide (rn_scope s = Some (Ok scope)) && bool_decide (opts = ro_terminate options) &&
                 negb (bool_decide (rn_ended s = None)) && bool_decide (rn_cleanup s = None))
            (Some (mkRunning true (rn_scope s) (rn_spawn s) (rn_seen s) (rn_ended s) (Some r) (rn_admission s) (rn_drain s)))
      | BlTakeAdmission h => fun r =>
          given (cleaned s && bool_decide (rn_ended s = Some None) && bool_decide (rn_spawn s = Some h) &&
                 bool_decide (obs_pid <$> rn_seen s = None) && negb (rn_admission s))
            (Some (mkRunning true (rn_scope s) (rn_spawn s) r (rn_ended s) (rn_cleanup s) true (rn_drain s)))
      | BlNow => fun t =>
          given (cleaned s && negb (bool_decide (observed_output (rn_seen s) = None)))
            match rn_drain s with
            | NotDraining => Some (with_drain s (Budgeted (t + ro_output_drain options)))
            | Read until all => given (negb (closed all)) (Some (with_drain s (if until <=? t then Late all else Early until all)))
            | _ => None
            end
      | BlRead output => fun r =>
          given (bool_decide (observed_output (rn_seen s) = Some output))
            match rn_drain s with
            | Budgeted until => Some (with_drain s (Read until (joined [] r)))
            | Slept until all => Some (with_drain s (Read until (joined (os_chunks all) r)))
            | _ => None
            end
      | BlSleep d => fun _ =>
          match rn_drain s with
          | Early until all => given (d =? DRAIN_POLL) (Some (with_drain s (Slept until all)))
          | _ => None
          end
      | BlCreateObserved | BlSpawn _ _ | BlBody _ | BlFinish _ _ => fun _ => None
      end x
  end.

(** The output of the result: none without a captured output; otherwise all that was read, until both
    streams were closed or the budget was used up. *)
Definition drained (s : running) (output : option OutputSnapshot) : Prop :=
  match observed_output (rn_seen s), rn_drain s with
  | None, NotDraining => output = None
  | Some _, Read _ all => closed all = true /\ output = Some all
  | Some _, Late all => output = Some all
  | _, _ => False
  end.

Definition run_ends (s : running) (r : result (result BlockingRun BlockingRunError) string) : Prop :=
  match r with
  | Ok (Ok (RunCompleted exit output termination)) =>
      rn_ended s = Some (Some (Ok exit)) /\ rn_cleanup s = Some (Ok termination) /\ drained s output
  | Ok (Ok (RunTimedOut output termination)) =>
      rn_ended s = Some None /\ rn_cleanup s = Some (Ok termination) /\ drained s output /\ (rn_seen s = None -> rn_admission s = true)
  | Ok (Err (RunScope e)) => rn_scope s = Some (Err e) /\ rn_spawn s = None
  | Ok (Err (RunSpawn e)) => rn_ended s = Some (Some (Err e)) /\ exists t, rn_cleanup s = Some (Ok t) /\ report_all_verified t = true
  | Ok (Err (RunUnverified (Some (RunSpawn e)) t)) =>
      rn_ended s = Some (Some (Err e)) /\ rn_cleanup s = Some (Ok t) /\ report_all_verified t = false
  | Ok (Err (RunTerminate e)) => rn_cleanup s = Some (Err e)
  | Ok (Err _) => False
  | Err m => (s = run_start /\ drive_with driver caller = Err m) \/ m = out_of_polls
  end.

(** The clock of a run: what it showed last with the time slept since, as long as it never shows
    less than that. *)
Definition clock_delta (c : option Instant) (l : asked) : option (option Instant) :=
  match l with
  | Asked q x =>
      match q in BlockingPort _ X return X -> option (option Instant) with
      | BlNow => fun t => Some (e ← c; if e <=? t then Some t else None)
      | BlSleep d => fun _ => Some (e ← c; Some (e + d))
      | _ => fun _ => Some c
      end x
  end.

Abbreviation obeys := (Protocol.obeys (answer := blocking_answer) (label := blocking_label) (started := no_task)
  run_delta (fun _ => True)) (only parsing).

(** One question, whose answer goes on. *)
Lemma run_call {X} (q : BlockingPort A X) s (post : running -> result X string -> Prop) :
  (forall x, exists s', run_delta s (Asked q x) = Some s' /\ post s' (Ok x)) -> obeys (catch (call q)) s post.
Proof. intros H x. destruct (H x) as (s' & Hd & Hp). exists s'. by split. Qed.
Lemma run_ask {X} (q : BlockingPort A X) s (post : running -> result X string -> Prop) :
  (forall x, exists s', run_delta s (Asked q x) = Some s' /\ post s' (Ok x)) -> obeys (catch (ask q)) s post.
Proof.
  intros H. split; [done|]. intros w w' x _. destruct (H x) as (s' & Hd & Hp). exists s'. split; [|done].
  cbn [labels run_from]. unfold blocking_label. by rewrite Hd.
Qed.

(** *** The output *)

Definition drain_ends (s : running) (s' : running) (r : result OutputSnapshot string) : Prop :=
  match r with
  | Ok all => exists d, s' = with_drain s d /\
      match d with Read _ all' => closed all' = true /\ all = all' | Late all' => all = all' | _ => False end
  | Err m => m = out_of_polls
  end.

Lemma obeys_drain_loop polls output until chunks raw s :
  cleaned s = true -> observed_output (rn_seen s) = Some output ->
  obeys (catch (drain_loop polls output until chunks raw)) (with_drain s (Read until (with_chunks chunks raw))) (drain_ends s).
Proof.
  intros Hc Ho. revert chunks raw.
  assert (Hg : cleaned s && negb (bool_decide (observed_output (rn_seen s) = None)) = true)
    by (rewrite Hc, bool_decide_eq_false_2; [done|congruence]).
  induction polls as [|polls IH]; intros chunks raw; cbn [drain_loop];
    (destruct (os_stdout_closed raw && os_stderr_closed raw) eqn:Ecl; [by eexists|]);
    (eapply obeys_catch_bind with (mid := fun s' r => exists t, r = Ok t /\
       s' = with_drain s (if until <=? t then Late (with_chunks chunks raw) else Early until (with_chunks chunks raw)));
     [apply run_call; intros t; eexists; split; [|by exists t]|intros s' t (? & [= <-] & ->)|by intros s' m (? & ? & _)]).
  1,3: change (given (cleaned s && negb (bool_decide (observed_output (rn_seen s) = None)))
    (given (negb (closed raw)) (Some (with_drain s (if until <=? t then Late (with_chunks chunks raw) else Early until (with_chunks chunks raw)))))
      = Some (with_drain s (if until <=? t then Late (with_chunks chunks raw) else Early until (with_chunks chunks raw))));
    unfold closed; by rewrite Hg, Ecl.
  all: destruct (until <=? t); [by eexists|].
  all: eapply obeys_catch_bind with (mid := fun s' r => r = Ok tt /\ s' = with_drain s (Slept until (with_chunks chunks raw)));
    [apply run_ask; intros []; eexists; (split; [reflexivity|]); done|intros s' [] [_ ->]|by intros s' m [? _]].
  all: eapply obeys_catch_bind with (mid := fun s' r => exists snap, r = Ok snap /\
       s' = with_drain s (Read until (with_chunks (chunks ++ os_chunks snap) snap)));
     [apply run_call; intros snap; eexists; split; [|by exists snap]|intros s' snap (? & [= <-] & ->)|by intros s' m (? & ? & _)].
  1,3: cbn -[bool_decide]; by rewrite bool_decide_eq_true_2.
  - done.
  - apply IH.
Qed.

Lemma obeys_drain_output polls s :
  cleaned s = true -> rn_drain s = NotDraining ->
  obeys (catch (drain_output polls (observed_output (rn_seen s)) (ro_output_drain options))) s
    (fun s' r => match r with Ok o => exists d, s' = with_drain s d /\ drained s' o | Err m => m = out_of_polls end).
Proof.
  intros Hc Hd. destruct (observed_output (rn_seen s)) as [output|] eqn:Eo; cbn [drain_output].
  2:{ exists NotDraining. split; [by destruct s; cbn in Hd; subst|]. unfold drained. by rewrite Eo, Hd. }
  eapply obeys_catch_bind with (mid := fun s' r => exists t, r = Ok t /\ s' = with_drain s (Budgeted (t + ro_output_drain options)));
    [apply run_call; intros t; eexists; split; [|by exists t]|intros s' t (? & [= <-] & ->)|by intros s' m (? & ? & _)].
  { change (given (cleaned s && negb (bool_decide (observed_output (rn_seen s) = None)))
      (match rn_drain s with
       | NotDraining => Some (with_drain s (Budgeted (t + ro_output_drain options)))
       | Read until all => given (negb (closed all)) (Some (with_drain s (if until <=? t then Late all else Early until all)))
       | _ => None
       end) = Some (with_drain s (Budgeted (t + ro_output_drain options)))).
    by rewrite Hc, Hd, bool_decide_eq_false_2 by congruence. }
  eapply obeys_catch_bind with (mid := fun s' r => exists snap, r = Ok snap /\
       s' = with_drain s (Read (t + ro_output_drain options) (with_chunks (os_chunks snap) snap)));
     [apply run_call; intros snap; eexists; split; [|by exists snap]|intros s' snap (? & [= <-] & ->)|by intros s' m (? & ? & _)].
  { cbn -[bool_decide]. by rewrite bool_decide_eq_true_2. }
  eapply obeys_catch_bind; [by apply obeys_drain_loop| |].
  - intros s' all (d & -> & Hall). exists d. split; [done|].
    unfold drained. cbn [with_drain rn_seen rn_drain]. rewrite Eo. destruct d; try done; [by destruct Hall as [? ->]|by rewrite Hall].
  - by intros s' m ->.
Qed.

(** *** The attempt and the cleanup *)

Definition attempting (scope : ProcessScopeId) (h : nat) (seen : option Observation) : running :=
  mkRunning true (Some (Ok scope)) (Some h) seen None None false NotDraining.
Definition finishing (scope : ProcessScopeId) (h : nat) (seen : option Observation) (e : option (result ProcessExit SpawnError))
    (t : option (result ScopeTerminationReport TerminateError)) : running :=
  mkRunning true (Some (Ok scope)) (Some h) seen (Some e) t false NotDraining.

Lemma obeys_attempt scope h :
  obeys (catch (attempt h (ro_deadline options))) (attempting scope h None)
    (fun s' r => exists o e, r = Ok (o, e) /\ s' = finishing scope h o e None).
Proof.
  split; [done|]. intros w w' [[o|e]|[]] _; cbn [labels]; unfold blocking_label;
    (eexists; split; [decided|]); [|by eexists _, _|by eexists _, _].
  split; [done|]. intros w1 w1' [x|[]] _; cbn [labels]; unfold blocking_label;
    (eexists; split; [decided|]); by eexists _, _.
Qed.

Lemma obeys_finish_scope scope h o e :
  obeys (catch (finish_scope scope (ro_terminate options))) (finishing scope h o e None)
    (fun s' r => exists t, s' = finishing scope h o e (Some t) /\
      r = Ok (match t with Ok report => Ok report | Err e => Err (RunTerminate e) end)).
Proof.
  unfold finish_scope. eapply obeys_catch_bind with (mid := fun s' r => exists t, r = Ok t /\ s' = finishing scope h o e (Some t));
    [apply run_ask; intros t; eexists; split; [|by exists t]|intros s' t (? & [= <-] & ->)|by intros s' m (? & ? & _)].
  - decided.
  - by exists t.
Qed.

Lemma obeys_finish_scope_after_error scope h o e :
  obeys (catch (finish_scope_after_error scope (ro_terminate options) (RunSpawn e))) (finishing scope h o (Some (Err e)) None)
    (fun s' r => exists x, r = Ok x /\ run_ends s' (Ok (Err x))).
Proof.
  unfold finish_scope_after_error. eapply obeys_catch_bind; [by apply obeys_finish_scope| |by intros s' m (t & _ & ?)].
  intros s' f (t & -> & [= ->]). eexists. split; [done|]. destruct t as [t|c]; [|done].
  destruct (report_all_verified t) eqn:Et; [|done]. split; [done|]. by exists t.
Qed.

Lemma obeys_run_async polls s :
  s = mkRunning true None None None None None false NotDraining ->
  obeys (catch (run_async polls spec options)) s run_ends.
Proof.
  intros ->. unfold run_async.
  eapply obeys_catch_bind with (mid := fun s' r => exists c, r = Ok c /\ s' = mkRunning true (Some c) None None None None false NotDraining);
    [apply run_call; intros c; eexists; (split; [done|]); by exists c|intros s' c (? & [= <-] & ->)|by intros s' m (? & ? & _)].
  destruct c as [scope|e]; [|done].
  eapply obeys_catch_bind with (mid := fun s' r => exists h, r = Ok h /\ s' = attempting scope h None);
    [apply run_call; intros h; eexists; (split; [|by exists h])|intros s' h (? & [= <-] & ->)|by intros s' m (? & ? & _)].
  { decided. }
  eapply obeys_catch_bind; [apply obeys_attempt|intros s' [o' e'] (o & e & [= -> ->] & ->)|by intros s' m (? & ? & ? & _)].
  destruct e as [[x|e]|].
  - eapply obeys_catch_bind; [apply obeys_finish_scope|intros s' f (t & -> & [= ->])|by intros s' m (? & _ & ?)].
    destruct t as [t|c]; [|done]. set (s := finishing _ _ _ _ _).
    eapply obeys_catch_bind; [by apply (obeys_drain_output polls s)|intros s' out (d & -> & Hd)|by intros s' m ->; right].
    done.
  - eapply obeys_catch_bind; [apply obeys_finish_scope_after_error|intros s' x (? & [= <-] & Hx)|by intros s' m (? & ? & _)].
    exact Hx.
  - eapply obeys_catch_bind; [apply obeys_finish_scope|intros s' f (t & -> & [= ->])|by intros s' m (? & _ & ?)].
    destruct t as [t|c]; [|done].
    set (s := fun o' b => mkRunning true (Some (Ok scope)) (Some h) o' (Some None) (Some (Ok t)) b NotDraining).
    eapply obeys_catch_bind with (mid := fun s' r => exists o' b, r = Ok o' /\ s' = s o' b /\ (o' = None -> b = true)).
    { destruct o as [o|]; [by exists (Some o), false|]. apply run_call. intros o. eexists. split; [|by exists o, true].
      decided. }
    2:{ by intros s' m (? & ? & ? & _). }
    intros s' o' (? & b & [= <-] & -> & Hb).
    eapply obeys_catch_bind; [by apply (obeys_drain_output polls (s o' b))|intros s' out (d & -> & Hd)|by intros s' m ->; right].
    by split_and!.
Qed.

(** *** The clock *)

Abbreviation clocked := (Protocol.obeys (answer := blocking_answer) (label := blocking_label) (started := no_task)
  clock_delta (fun _ => True)) (only parsing).

Lemma clocked_drain_loop polls output until chunks raw c :
  (forall e, c = Some e -> until - e < Z.of_nat polls * DRAIN_POLL) ->
  clocked (catch (drain_loop polls output until chunks raw)) c (fun c' r => is_Some c' -> exists o, r = Ok o).
Proof.
  revert chunks raw c. induction polls as [|polls IH]; intros chunks raw c Hc; cbn [drain_loop];
    (destruct (os_stdout_closed raw && os_stderr_closed raw); [by intros _; eexists|]);
    intros t; eexists; (split; [reflexivity|]); cbn [bind catch Protocol.obeys]; (destruct (until <=? t) eqn:Et; [by intros _; eexists|]);
    apply Z.leb_gt in Et; (split; [done|]); intros w w' [] _; eexists; (split; [reflexivity|]); intros snap; eexists; (split; [reflexivity|]).
  - intros [e' He']. destruct c as [e|]; [|done]. specialize (Hc e eq_refl). cbn in He'.
    destruct (e <=? t) eqn:E; [apply Z.leb_le in E; lia|done].
  - apply IH. intros e' He'. destruct c as [e|]; [|done]. specialize (Hc e eq_refl). cbn in He'.
    destruct (e <=? t) eqn:E; [apply Z.leb_le in E; injection He' as <-; unfold DRAIN_POLL in *; lia|done].
Qed.

Lemma clocked_drain_output polls output budget c :
  budget < Z.of_nat polls * DRAIN_POLL ->
  clocked (catch (drain_output polls output budget)) c (fun c' r => is_Some c' -> exists o, r = Ok o).
Proof.
  intros Hb. destruct output as [output|]; [|by intros _; eexists]. cbn [drain_output].
  intros t. eexists. split; [reflexivity|]. intros snap. eexists. split; [reflexivity|]. cbn [bind].
  eapply obeys_catch_bind; [apply (clocked_drain_loop polls output (t + budget))|by intros ? ? _ _; eexists|].
  - intros e He. destruct c as [e0|]; [|done]. cbn in He. destruct (e0 <=? t); [|done]. injection He as <-. lia.
  - intros c' m H Hs. by destruct (H Hs).
Qed.

Lemma clocked_run_async polls c :
  ro_output_drain options < Z.of_nat polls * DRAIN_POLL ->
  clocked (catch (run_async polls spec options)) c (fun c' r => is_Some c' -> exists o, r = Ok o).
Proof.
  intros Hb. unfold run_async, attempt, finish_scope_after_error, finish_scope.
  assert (Hdrain : forall output c (k : option OutputSnapshot -> result BlockingRun BlockingRunError),
    clocked (catch (bind (drain_output polls output (ro_output_drain options)) (fun o => Ret (k o)))) c
      (fun c' r => is_Some c' -> exists o, r = Ok o)).
  { intros output c' k. eapply obeys_catch_bind; [by apply clocked_drain_output|by intros ? ? _ _; eexists|].
    intros c1 m H Hs. by destruct (H Hs). }
  intros [scope|e]; eexists; (split; [reflexivity|]); [|by intros _; eexists]. intros h. eexists. split; [reflexivity|].
  split; [done|]. intros w w' [[o|e]|[]] _; eexists; (split; [reflexivity|]).
  - split; [done|]. intros w1 w1' [x|[]] _; eexists; (split; [reflexivity|]);
      (split; [done|]); intros w2 w2' [t|e] _; eexists; (split; [reflexivity|]); try (by intros _; eexists); apply Hdrain.
  - split; [done|]. intros w2 w2' t _. eexists. split; [reflexivity|]. destruct t as [t|e']; by intros _; eexists.
  - split; [done|]. intros w2 w2' [t|e] _; eexists; (split; [reflexivity|]); [|by intros _; eexists].
    intros o. eexists. split; [reflexivity|]. apply Hdrain.
Qed.

Lemma obeys_run polls :
  obeys (catch (run_with_options driver caller polls spec options)) run_start run_ends.
Proof.
  unfold run_with_options, drive. destruct (drive_with driver caller) as [how|m] eqn:Ed; [|by left].
  eapply obeys_catch_bind with (mid := fun s' r => r = Ok tt /\ s' = mkRunning true None None None None None false NotDraining).
  - apply run_call. intros []. eexists. split; [|by split]. cbn. by rewrite (drive_with_drives _ _ _ Ed).
  - intros s' [] [_ ->]. by apply (obeys_run_async polls).
  - by intros s' m [? _].
Qed.
Lemma clocked_run polls c :
  ro_output_drain options < Z.of_nat polls * DRAIN_POLL ->
  clocked (catch (run_with_options driver caller polls spec options)) c
    (fun c' r => is_Some c' -> (exists o, r = Ok o) \/ exists m, r = Err m /\ drive_with driver caller = Err m).
Proof.
  intros Hb. unfold run_with_options, drive. destruct (drive_with driver caller) as [how|m] eqn:Ed.
  - intros []. eexists. split; [reflexivity|].
    eapply obeys_mono; [by intros| |by apply clocked_run_async]. intros c' r H Hs. left. by apply H.
  - intros _. right. by exists m.
Qed.

(** C28. A run with a deadline, in every run of it and whatever the supervisor answers: it is
    driven once, from a thread outside of Tokio, on a runtime whose scheduler runs, with the caller's
    worker released where it is the same runtime's, or refused before anything is asked; it makes one
    scope and one spawn of the spec in it; the deadline counts from the spawn to the exit; the
    scope is terminated exactly once, with the options given, after the attempt has ended; only then the
    output is read, to the end of both streams or of its budget, and no chunk is lost. The
    result says what happened: the exit that was answered, the deadline, the refusal of the
    scope, the failure of the cleanup, or the spawn's error, bare only if the cleanup is
    verified. With more polls than fit the drain budget and a clock that goes on, the run is
    refused or returns a result. *)
Theorem blocking_run_protocol polls ls r :
  blocking_trace (catch (run_with_options driver caller polls spec options)) ls r ->
  (exists s, run_from run_delta run_start ls = Some s /\ forall x, r = Some x -> run_ends s x) /\
  (forall start c m, ro_output_drain options < Z.of_nat polls * DRAIN_POLL ->
     run_from clock_delta (Some start) ls = Some (Some c) -> r = Some (Err m) -> drive_with driver caller = Err m).
Proof.
  intros Htr. split; [by apply (obeys_sound run_delta (fun _ => True) _ run_start run_ends ls r (obeys_run polls))|].
  intros start c m Hb Hc ->.
  destruct (obeys_sound clock_delta (fun _ => True) _ (Some start) _ ls _ (clocked_run polls (Some start) Hb) Htr) as (c' & Hc' & Hm).
  rewrite Hc in Hc'. injection Hc' as <-. destruct (Hm _ eq_refl (ex_intro _ c eq_refl)) as [[o ?]|(m' & [= ->] & ?)]; done.
Qed.
End Run.

(** ** A scoped block *)

Section Block.
Context (specs : list ProcessSpec) (options : TerminateOptions).

(** What a block knows: whether a future is driven, the scope, the specs that are left, the processes
    and the error of the spawns, what the body did, and the cleanup. *)
Record block_state : Type := mkBlocking {
  bk_driving : bool;
  bk_scope : option (unwound ProcessScopeId);
  bk_left : list ProcessSpec;
  bk_processes : list ProcessId;
  bk_error : option SpawnError;
  bk_body : option (unwound A);
  bk_finished : option (result ScopeTerminationReport TerminateError);
}.
Definition block_begins : block_state := mkBlocking false None specs [] None None None.

Definition block_in_scope (s : block_state) (scope : ProcessScopeId) : bool :=
  match bk_scope s with Some (Returned scope') => bool_decide (scope = scope') | _ => false end.
Definition unset {X} (o : option X) : bool := match o with None => true | Some _ => false end.

Definition block_delta (s : block_state) (l : asked) : option block_state :=
  match l with
  | Asked q x =>
      match q in BlockingPort _ X return X -> option block_state with
      | BlDrive how => fun _ =>
          given (negb (bk_driving s) && drives driver caller how)
            (Some (mkBlocking true (bk_scope s) (bk_left s) (bk_processes s) (bk_error s) (bk_body s) (bk_finished s)))
      | BlCreateObserved => fun r =>
          given (bk_driving s && unset (bk_scope s))
            (Some (mkBlocking false (Some r) (bk_left s) (bk_processes s) (bk_error s) (bk_body s) (bk_finished s)))
      | BlSpawn scope spec => fun r =>
          match bk_left s with
          | next :: rest =>
              given (bk_driving s && block_in_scope s scope && bool_decide (spec = next) && unset (bk_error s) && unset (bk_body s))
                (Some (mkBlocking false (bk_scope s) rest
                         (bk_processes s ++ match r with Ok pid => [pid] | Err _ => [] end)
                         (match r with Ok _ => None | Err e => Some e end) (bk_body s) (bk_finished s)))
          | [] => None
          end
      | BlBody processes => fun r =>
          match bk_left s with
          | [] =>
              given (negb (bk_driving s) && block_in_scope s (bsp_scope processes) && bool_decide (bsp_processes processes = bk_processes s) &&
                     unset (bk_error s) && unset (bk_body s) && unset (bk_finished s))
                (Some (mkBlocking false (bk_scope s) [] (bk_processes s) None (Some r) None))
          | _ => None
          end
      | BlFinish scope opts => fun r =>
          given (bk_driving s && block_in_scope s scope && bool_decide (opts = options) && (negb (unset (bk_error s)) || negb (unset (bk_body s))) &&
                 unset (bk_finished s))
            (Some (mkBlocking false (bk_scope s) (bk_left s) (bk_processes s) (bk_error s) (bk_body s) (Some r)))
      | _ => fun _ => None
      end x
  end.

Definition block_ends (s : block_state) (r : result (BlockingScopeResult A) string) : Prop :=
  match r with
  | Ok r =>
      bk_scope s = Some (Returned (bsr_scope r)) /\ bk_finished s = Some (bsr_termination r) /\
      match bsr_result r with
      | Ok value => bk_body s = Some (Returned value)
      | Err e => bk_error s = Some e /\ bk_body s = None
      end
  | Err m =>
      (s = block_begins /\ drive_with driver caller = Err m) \/
      (bk_scope s = Some Unwound /\ bk_left s = specs /\ bk_body s = None) \/
      (bk_body s = Some Unwound /\ is_Some (bk_finished s))
  end.

Abbreviation obeys := (Protocol.obeys (answer := blocking_answer) (label := blocking_label) (started := no_task)
  block_delta (fun _ => True)) (only parsing).

(** A driven question: it is driven, then answered. *)
Definition driving (s : block_state) : block_state :=
  mkBlocking true (bk_scope s) (bk_left s) (bk_processes s) (bk_error s) (bk_body s) (bk_finished s).

Lemma block_drive {X} (p : BProg X) s how (post : block_state -> result X string -> Prop) :
  drive_with driver caller = Ok how -> bk_driving s = false -> obeys (catch p) (driving s) post -> obeys (catch (drive driver caller p)) s post.
Proof.
  intros Hd Hs Hp. unfold drive. rewrite Hd. intros []. exists (driving s). split; [|exact Hp].
  cbn. by rewrite Hs, (drive_with_drives _ _ _ Hd).
Qed.

Lemma block_ask {X} (q : BlockingPort A X) s (post : block_state -> result X string -> Prop) :
  (forall x, exists s', block_delta s (Asked q x) = Some s' /\ post s' (Ok x)) -> obeys (catch (ask q)) s post.
Proof.
  intros H. split; [done|]. intros w w' x _. destruct (H x) as (s' & Hd & Hp). exists s'. split; [|done].
  cbn [labels run_from]. unfold blocking_label. by rewrite Hd.
Qed.

Section Driven.
Context (how : Drive) (Hhow : drive_with driver caller = Ok how) (scope : ProcessScopeId).

(** The spawns are over: all of them, or up to the first error. *)
Definition spawning (left : list ProcessSpec) (processes : list ProcessId) (error : option SpawnError) : block_state :=
  mkBlocking false (Some (Returned scope)) left processes error None None.

Lemma obeys_spawn_specs left processes :
  obeys (catch (spawn_specs driver caller scope left processes)) (spawning left processes None)
    (fun s r => exists processes' error left', r = Ok (processes', error) /\ s = spawning left' processes' error /\
       (error = None -> left' = [])).
Proof.
  revert processes. induction left as [|spec left IH]; intros processes; [by eexists _, _, _|]. cbn [spawn_specs].
  eapply obeys_catch_bind with (mid := fun s r => exists spawned, r = Ok spawned /\
    s = spawning left (processes ++ match spawned with Ok pid => [pid] | Err _ => [] end) (match spawned with Ok _ => None | Err e => Some e end)).
  - eapply block_drive; [exact Hhow|done|]. apply block_ask. intros spawned. eexists. split; [|by exists spawned].
    decided.
  - intros s [pid|e] (? & [= <-] & ->); [apply IH|]. eexists _, _, left. split; [done|]. by rewrite app_nil_r.
  - by intros s m (? & ? & _).
Qed.

Lemma obeys_finish_observed_scope s :
  bk_driving s = false -> bk_scope s = Some (Returned scope) -> bk_finished s = None ->
  unset (bk_error s) && unset (bk_body s) = false ->
  obeys (catch (finish_observed_scope driver caller scope options)) s
    (fun s' r => exists t, r = Ok t /\ s' = mkBlocking false (Some (Returned scope)) (bk_left s) (bk_processes s) (bk_error s) (bk_body s) (Some t)).
Proof.
  intros Hd Hs Hf Hu. destruct s as [d sc left ps e b f]. cbn in Hd, Hs, Hf, Hu. subst.
  eapply block_drive; [exact Hhow|done|]. apply block_ask. intros t. eexists. split; [|by exists t].
  cbn -[bool_decide]. rewrite !bool_decide_eq_true_2 by done. by destruct e, b.
Qed.
End Driven.

Lemma obeys_with_scope :
  obeys (catch (with_scope_options driver caller specs options)) block_begins block_ends.
Proof.
  unfold with_scope_options. destruct (drive_with driver caller) as [how|m] eqn:Ed.
  2:{ unfold drive. rewrite Ed. by left. }
  eapply obeys_catch_bind with (mid := fun s r => exists o, r = Ok o /\ s = mkBlocking false (Some o) specs [] None None None);
    [|intros s o (? & [= <-] & ->)|by intros s m (? & ? & _)].
  { eapply block_drive; [exact Ed|done|]. intros o. eexists. split; [reflexivity|]. by exists o. }
  destruct o as [scope|]; [|right; left; done].
  eapply obeys_catch_bind; [by apply (obeys_spawn_specs how)|intros s [ps e] (ps' & e' & left & [= <- <-] & -> & He)|by intros s m (? & ? & ? & ? & _)].
  destruct e as [e|].
  { eapply obeys_catch_bind; [by eapply (obeys_finish_observed_scope how)|intros s t (? & [= <-] & ->)|by intros s m (? & ? & _)]. done. }
  rewrite He by done. clear He left.
  eapply obeys_catch_bind with (mid := fun s r => exists b, r = Ok b /\ s = mkBlocking false (Some (Returned scope)) [] ps None (Some b) None);
    [intros b; eexists; split; [|by exists b]; decided|intros s b (? & [= <-] & ->)|by intros s m (? & ? & _)].
  eapply obeys_catch_bind; [by eapply (obeys_finish_observed_scope how)|intros s t (? & [= <-] & ->)|by intros s m (? & ? & _)].
  destruct b as [v|]; [done|]. right. right. split; [done|]. by exists t.
Qed.

(** C29. A scoped block, in every run of it: a driver that cannot drive refuses before anything
    is asked; one scope is made; the specs are spawned in order up to the first error; only with all
    of them spawned the body runs, once, with exactly their processes and outside of
    every driven future; then, after the error or the body and also when the body panicked,
    the scope is finished exactly once with the options given. The result is the body's value or the first spawn
    error, with the report of that cleanup. *)
Theorem blocking_scope_protocol ls r :
  blocking_trace (catch (with_scope_options driver caller specs options)) ls r ->
  exists s, run_from block_delta block_begins ls = Some s /\ forall x, r = Some x -> block_ends s x.
Proof. intros Htr. exact (obeys_sound block_delta (fun _ => True) _ block_begins block_ends ls r obeys_with_scope Htr). Qed.
End Block.
End Order.

(** ** Two runs *)

(** A run whose spawn does not complete in time, from inside of another runtime; the process that was admitted late
    has written. *)
Definition demo_owner : Driver := DriverOwned (mkRuntimeHandle 1 CurrentThread).
Definition demo_elsewhere : Thread := mkThread (Some (mkRuntimeHandle 9 CurrentThread)) true.
Definition demo_written : OutputSnapshot := mkOutputSnapshot [mkOutputChunk Stdout [104; 105]] [] 0 true true [].
Definition demo_report : ScopeTerminationReport := mkReport 4 [(7%N, ForcedRequired)].
Definition demo_options : RunOptions := run_with_deadline 50.
(** A block of two processes on a worker of the supervisor's own runtime. *)
Definition demo_handle : Driver := DriverHandle (mkRuntimeHandle 1 MultiThread).
Definition demo_worker : Thread := mkThread (Some (mkRuntimeHandle 1 MultiThread)) false.
Definition demo_specs : list ProcessSpec := [spec_new "first"; spec_new "second"].

Definition blocking_oracle (w : unit) (X : Type) (q : BlockingPort Z X) : option X :=
  match q in BlockingPort _ X return option X with
  | BlDrive _ => Some tt
  | BlCreateObserved => Some (Returned 4%N)
  | BlSpawn _ spec => Some (Ok (if bool_decide (spec = spec_new "first") then 5%N else 6%N))
  | BlBody _ => Some (Returned 42)
  | BlFinish _ _ => Some (Ok (mkReport 4 [(5%N, ExitedNaturally); (6%N, GracefulSuccess)]))
  | BlTryCreateScope => Some (Ok 4%N)
  | BlSpawnObserved _ _ => Some 0%nat
  | BlComplete _ => None
  | BlExit _ => None
  | BlDeadline _ => Some tt
  | BlTerminate _ _ => Some (Ok demo_report)
  | BlTakeAdmission _ => Some (Some (mkObservation 7 (Some (mkProcessOutput 3))))
  | BlRead _ => Some demo_written
  | BlNow => Some 10
  | BlSleep _ => Some tt
  end.

Definition demo_run : list asked * option (result (result BlockingRun BlockingRunError) string) :=
  exec_trace blocking_answer blocking_oracle blocking_label no_task 100 tt
    (catch (run_with_options demo_owner demo_elsewhere 101 (spec_new "first") demo_options)).
Definition demo_block : list asked * option (result (BlockingScopeResult Z) string) :=
  exec_trace blocking_answer blocking_oracle blocking_label no_task 100 tt
    (catch (with_scope_options demo_handle demo_worker demo_specs terminate_default)).

Lemma blocking_run_protocol_witness :
  demo_run.2 = Some (Ok (Ok (RunTimedOut (Some demo_written) demo_report))) /\ length demo_run.1 = 8%nat /\
  exists s, run_from (run_delta demo_owner demo_elsewhere (spec_new "first") demo_options) run_start demo_run.1 = Some s /\
    forall x, demo_run.2 = Some x -> run_ends demo_owner demo_elsewhere s x.
Proof.
  split; [by vm_compute|]. split; [by vm_compute|].
  refine (proj1 (blocking_run_protocol demo_owner demo_elsewhere (spec_new "first") demo_options 101 demo_run.1 demo_run.2 _)).
  apply exec_trace_trace.
Defined.

Lemma blocking_scope_protocol_witness :
  demo_block.2 = Some (Ok (mkBlockingScopeResult 4%N (Ok 42) (Ok (mkReport 4 [(5%N, ExitedNaturally); (6%N, GracefulSuccess)])))) /\
  exists s, run_from (block_delta demo_handle demo_worker terminate_default) (block_begins demo_specs) demo_block.1 = Some s /\
    forall x, demo_block.2 = Some x -> block_ends demo_handle demo_worker demo_specs s x.
Proof.
  split; [by vm_compute|].
  apply (blocking_scope_protocol demo_handle demo_worker demo_specs terminate_default), exec_trace_trace.
Defined.
