(* ===== verification/State.v ===== *)
(** * State: the shared state of one supervisor

    [Inner] of shepherd-app/src/supervisor.rs, with the cells it shares: the
    [Arc<Mutex<..>>] serial lock of each scope ([in_operations], addressed by the
    scope it was created for), the [watch] channel of each observed scope
    ([in_watches]), the queue of the integration publisher, the scoped handles given
    out ([in_scoped]) and the results of the tasks the supervisor joins (by handle). The last fields are history variables:
    the answered port calls, every attachment ever made, the task a handle stands
    for, and the values returned to callers. *)

From stdpp Require Import base list gmap strings.
From S2P Require Import Prelude StdModel Values Registry Waiters Usage Observation Ports History Conc.

Open Scope Z_scope.

(** [ScopeOperation]: a [tokio::sync::Mutex] over the scope's final report. *)
Record ScopeOperation : Type := mkScopeOperation {
  op_locked : bool;
  op_report : option ScopeTerminationReport;
}.

(** A [watch] channel: its value and the number of senders alive. *)
Record Watch : Type := mkWatch {
  watch_value : option (result ScopeTerminationReport TerminateError);
  watch_senders : nat;
}.

(** The receiving end of the publisher's queue: in the handler, in its task, or dropped. *)
Inductive Receiver : Type := ReceiverIdle | ReceiverTaken | ReceiverClosed.

Section State.
Context {W F : Type}.

(** [WaitFuture]s: [std::future::ready(exit)] or a future of the waiters. *)
Inductive Observer : Type :=
| ObserverReady (exit : ProcessExit)
| ObserverWait (f : F).

Record SpawnObservation : Type := mkSpawnObservation {
  so_pid : ProcessId;
  so_output : option ProcessOutput;
  so_exit : F;
}.

(** What a joined task is for. *)
Inductive WorkerOf : Type :=
| SpawnsInto (scope : ProcessScopeId)
| Terminates (pid : ProcessId).

(** The handle of a scoped block: [sp_owned] is behind a mutex of its own. *)
Record ScopedProcesses : Type := mkScopedProcesses {
  sp_scope : ProcessScopeId;
  sp_processes : list ProcessId;
  sp_owned : gset ProcessId;
}.

(** The tasks the program spawns on the runtime. *)
Inductive Task : Type :=
| TaskSpawn (handle : nat) (scope : ProcessScopeId) (spec : ProcessSpec) (admission : option nat)
| TaskMonitor (scope : ProcessScopeId) (pid : ProcessId) (spawned : Spawned)
| TaskPublisher
| TaskScopeClosed (scope : ProcessScopeId)
| TaskTerminate (handle : nat) (pid : ProcessId) (observer : Observer) (opts : TerminateOptions)
| TaskSampler (pending : list (ProcessId * Spawned * bool))
| TaskScopeCleanup (scope : ProcessScopeId) (opts : TerminateOptions)
| TaskScopeCleanupJoin (scope : ProcessScopeId).

(** What a finished call of the public interface gave its caller. *)
Inductive returned : Type :=
| RetCreateScope (r : result ProcessScopeId ScopeCreationError)
| RetSpawn (scope : ProcessScopeId) (r : result ProcessId SpawnError)
| RetObservation (r : result SpawnObservation SpawnError)
| RetOutput (pid : ProcessId) (o : option ProcessOutput)
| RetStats (pid : ProcessId) (r : result ProcessStats StatsError)
| RetWait (pid : ProcessId) (r : result ProcessExit WaitError)
| RetTerminate (pid : ProcessId) (r : result ProcessExit TerminateError)
| RetTerminateScope (scope : ProcessScopeId) (r : result ScopeTerminationReport TerminateError)
| RetShutdown (r : result ShutdownReport ShutdownError)
(** The handle that a scoped block gave its closure. *)
| RetBlock (h : nat)
| RetScopedSpawn (h : nat) (r : result ProcessId SpawnError)
| RetScopedWait (h : nat) (pid : ProcessId) (r : result ProcessExit WaitError)
| RetScopedOutput (h : nat) (pid : ProcessId) (o : option ProcessOutput)
| RetRead.

Record Inner : Type := mkInner {
  in_registry : ScopeRegistry;
  in_waiters : W;
  in_spawn_times : gmap ProcessId Instant;
  in_shutting_down : bool;
  in_creating : bool;
  in_owners_dropped : bool;
  in_scope_operations : gset ProcessScopeId;
  in_operations : gmap ProcessScopeId ScopeOperation;
  in_samples : gmap ProcessId (result ProcessStats StatsError);
  in_sampler_started : bool;
  in_sampler_locked : bool;
  in_sampler_task : bool;
  in_sampler_aborted : bool;
  in_sampler_ended : bool;
  in_outputs : gmap ProcessId ProcessOutput;
  in_scope_results : gset ProcessScopeId;
  in_watches : gmap ProcessScopeId Watch;
  in_completed_scope_results : list ProcessScopeId;
  in_stats_interval : Duration;
  in_completed : list ProcessId;
  in_reports : gmap ProcessScopeId RetainedScopeReport;
  in_pending_outcomes : gmap ProcessScopeId (gmap ProcessId TerminationOutcome);
  in_completed_scopes : list ProcessScopeId;
  in_shutdown_locked : bool;
  in_os_pids : OsPidHistory;
  in_receiver : Receiver;
  in_queue : list IntegrationEvent;
  in_next_handle : nat;
  in_spawns : gmap nat (result (result ProcessId SpawnError) string);
  in_joined : gmap nat (result (ProcessId * result ProcessExit TerminateError) string);
  in_worker_of : gmap nat WorkerOf;
  in_admissions : gmap nat SpawnObservation;
  in_finished : gset ProcessScopeId;
  in_cleanups : gmap ProcessScopeId (option string);
  in_scoped : gmap nat ScopedProcesses;
  in_calls : list port_call;
  in_attached : gmap ProcessId (ProcessScopeId * OsIdentity);
  in_committing : gset ProcessScopeId;
  in_returned : list returned;
}.

Definition set_registry (v : ScopeRegistry) (s : Inner) : Inner :=
  mkInner v (in_waiters s) (in_spawn_times s) (in_shutting_down s) (in_creating s) (in_owners_dropped s)
    (in_scope_operations s) (in_operations s) (in_samples s) (in_sampler_started s)
    (in_sampler_locked s) (in_sampler_task s) (in_sampler_aborted s) (in_sampler_ended s) (in_outputs s)
    (in_scope_results s) (in_watches s) (in_completed_scope_results s) (in_stats_interval s)
    (in_completed s) (in_reports s) (in_pending_outcomes s) (in_completed_scopes s)
    (in_shutdown_locked s) (in_os_pids s) (in_receiver s) (in_queue s) (in_next_handle s) (in_spawns s)
    (in_joined s) (in_worker_of s) (in_admissions s) (in_finished s) (in_cleanups s) (in_scoped s)
    (in_calls s) (in_attached s) (in_committing s) (in_returned s).
Definition set_waiters (v : W) (s : Inner) : Inner :=
  mkInner (in_registry s) v (in_spawn_times s) (in_shutting_down s) (in_creating s)
    (in_owners_dropped s) (in_scope_operations s) (in_operations s) (in_samples s)
    (in_sampler_started s) (in_sampler_locked s) (in_sampler_task s) (in_sampler_aborted s)
    (in_sampler_ended s) (in_outputs s) (in_scope_results s) (in_watches s)
    (in_completed_scope_results s) (in_stats_interval s) (in_completed s) (in_reports s)
    (in_pending_outcomes s) (in_completed_scopes s) (in_shutdown_locked s) (in_os_pids s)
    (in_receiver s) (in_queue s) (in_next_handle s) (in_spawns s) (in_joined s) (in_worker_of s)
    (in_admissions s) (in_finished s) (in_cleanups s) (in_scoped s) (in_calls s) (in_attached s)
    (in_committing s) (in_returned s).
Definition set_spawn_times (v : gmap ProcessId Instant) (s : Inner) : Inner :=
  mkInner (in_registry s) (in_waiters s) v (in_shutting_down s) (in_creating s) (in_owners_dropped s)
    (in_scope_operations s) (in_operations s) (in_samples s) (in_sampler_started s)
    (in_sampler_locked s) (in_sampler_task s) (in_sampler_aborted s) (in_sampler_ended s) (in_outputs s)
    (in_scope_results s) (in_watches s) (in_completed_scope_results s) (in_stats_interval s)
    (in_completed s) (in_reports s) (in_pending_outcomes s) (in_completed_scopes s)
    (in_shutdown_locked s) (in_os_pids s) (in_receiver s) (in_queue s) (in_next_handle s) (in_spawns s)
    (in_joined s) (in_worker_of s) (in_admissions s) (in_finished s) (in_cleanups s) (in_scoped s)
    (in_calls s) (in_attached s) (in_committing s) (in_returned s).
Definition set_shutting_down (v : bool) (s : Inner) : Inner :=
  mkInner (in_registry s) (in_waiters s) (in_spawn_times s) v (in_creating s) (in_owners_dropped s)
    (in_scope_operations s) (in_operations s) (in_samples s) (in_sampler_started s)
    (in_sampler_locked s) (in_sampler_task s) (in_sampler_aborted s) (in_sampler_ended s) (in_outputs s)
    (in_scope_results s) (in_watches s) (in_completed_scope_results s) (in_stats_interval s)
    (in_completed s) (in_reports s) (in_pending_outcomes s) (in_completed_scopes s)
    (in_shutdown_locked s) (in_os_pids s) (in_receiver s) (in_queue s) (in_next_handle s) (in_spawns s)
    (in_joined s) (in_worker_of s) (in_admissions s) (in_finished s) (in_cleanups s) (in_scoped s)
    (in_calls s) (in_attached s) (in_committing s) (in_returned s).
Definition set_creating (v : bool) (s : Inner) : Inner :=
  mkInner (in_registry s) (in_waiters s) (in_spawn_times s) (in_shutting_down s) v (in_owners_dropped s)
    (in_scope_operations s) (in_operations s) (in_samples s) (in_sampler_started s)
    (in_sampler_locked s) (in_sampler_task s) (in_sampler_aborted s) (in_sampler_ended s) (in_outputs s)
    (in_scope_results s) (in_watches s) (in_completed_scope_results s) (in_stats_interval s)
    (in_completed s) (in_reports s) (in_pending_outcomes s) (in_completed_scopes s)
    (in_shutdown_locked s) (in_os_pids s) (in_receiver s) (in_queue s) (in_next_handle s) (in_spawns s)
    (in_joined s) (in_worker_of s) (in_admissions s) (in_finished s) (in_cleanups s) (in_scoped s)
    (in_calls s) (in_attached s) (in_committing s) (in_returned s).
Definition set_owners_dropped (v : bool) (s : Inner) : Inner :=
  mkInner (in_registry s) (in_waiters s) (in_spawn_times s) (in_shutting_down s) (in_creating s) v
    (in_scope_operations s) (in_operations s) (in_samples s) (in_sampler_started s)
    (in_sampler_locked s) (in_sampler_task s) (in_sampler_aborted s) (in_sampler_ended s) (in_outputs s)
    (in_scope_results s) (in_watches s) (in_completed_scope_results s) (in_stats_interval s)
    (in_completed s) (in_reports s) (in_pending_outcomes s) (in_completed_scopes s)
    (in_shutdown_locked s) (in_os_pids s) (in_receiver s) (in_queue s) (in_next_handle s) (in_spawns s)
    (in_joined s) (in_worker_of s) (in_admissions s) (in_finished s) (in_cleanups s) (in_scoped s)
    (in_calls s) (in_attached s) (in_committing s) (in_returned s).
Definition set_scope_operations (v : gset ProcessScopeId) (s : Inner) : Inner :=
  mkInner (in_registry s) (in_waiters s) (in_spawn_times s) (in_shutting_down s) (in_creating s)
    (in_owners_dropped s) v (in_operations s) (in_samples s) (in_sampler_started s)
    (in_sampler_locked s) (in_sampler_task s) (in_sampler_aborted s) (in_sampler_ended s) (in_outputs s)
    (in_scope_results s) (in_watches s) (in_completed_scope_results s) (in_stats_interval s)
    (in_completed s) (in_reports s) (in_pending_outcomes s) (in_completed_scopes s)
    (in_shutdown_locked s) (in_os_pids s) (in_receiver s) (in_queue s) (in_next_handle s) (in_spawns s)
    (in_joined s) (in_worker_of s) (in_admissions s) (in_finished s) (in_cleanups s) (in_scoped s)
    (in_calls s) (in_attached s) (in_committing s) (in_returned s).
Definition set_operations (v : gmap ProcessScopeId ScopeOperation) (s : Inner) : Inner :=
  mkInner (in_registry s) (in_waiters s) (in_spawn_times s) (in_shutting_down s) (in_creating s)
    (in_owners_dropped s) (in_scope_operations s) v (in_samples s) (in_sampler_started s)
    (in_sampler_locked s) (in_sampler_task s) (in_sampler_aborted s) (in_sampler_ended s) (in_outputs s)
    (in_scope_results s) (in_watches s) (in_completed_scope_results s) (in_stats_interval s)
    (in_completed s) (in_reports s) (in_pending_outcomes s) (in_completed_scopes s)
    (in_shutdown_locked s) (in_os_pids s) (in_receiver s) (in_queue s) (in_next_handle s) (in_spawns s)
    (in_joined s) (in_worker_of s) (in_admissions s) (in_finished s) (in_cleanups s) (in_scoped s)
    (in_calls s) (in_attached s) (in_committing s) (in_returned s).
Definition set_samples (v : gmap ProcessId (result ProcessStats StatsError)) (s : Inner) : Inner :=
  mkInner (in_registry s) (in_waiters s) (in_spawn_times s) (in_shutting_down s) (in_creating s)
    (in_owners_dropped s) (in_scope_operations s) (in_operations s) v (in_sampler_started s)
    (in_sampler_locked s) (in_sampler_task s) (in_sampler_aborted s) (in_sampler_ended s) (in_outputs s)
    (in_scope_results s) (in_watches s) (in_completed_scope_results s) (in_stats_interval s)
    (in_completed s) (in_reports s) (in_pending_outcomes s) (in_completed_scopes s)
    (in_shutdown_locked s) (in_os_pids s) (in_receiver s) (in_queue s) (in_next_handle s) (in_spawns s)
    (in_joined s) (in_worker_of s) (in_admissions s) (in_finished s) (in_cleanups s) (in_scoped s)
    (in_calls s) (in_attached s) (in_committing s) (in_returned s).
Definition set_sampler_started (v : bool) (s : Inner) : Inner :=
  mkInner (in_registry s) (in_waiters s) (in_spawn_times s) (in_shutting_down s) (in_creating s)
    (in_owners_dropped s) (in_scope_operations s) (in_operations s) (in_samples s) v
    (in_sampler_locked s) (in_sampler_task s) (in_sampler_aborted s) (in_sampler_ended s) (in_outputs s)
    (in_scope_results s) (in_watches s) (in_completed_scope_results s) (in_stats_interval s)
    (in_completed s) (in_reports s) (in_pending_outcomes s) (in_completed_scopes s)
    (in_shutdown_locked s) (in_os_pids s) (in_receiver s) (in_queue s) (in_next_handle s) (in_spawns s)
    (in_joined s) (in_worker_of s) (in_admissions s) (in_finished s) (in_cleanups s) (in_scoped s)
    (in_calls s) (in_attached s) (in_committing s) (in_returned s).
Definition set_sampler_locked (v : bool) (s : Inner) : Inner :=
  mkInner (in_registry s) (in_waiters s) (in_spawn_times s) (in_shutting_down s) (in_creating s)
    (in_owners_dropped s) (in_scope_operations s) (in_operations s) (in_samples s)
    (in_sampler_started s) v (in_sampler_task s) (in_sampler_aborted s) (in_sampler_ended s)
    (in_outputs s) (in_scope_results s) (in_watches s) (in_completed_scope_results s)
    (in_stats_interval s) (in_completed s) (in_reports s) (in_pending_outcomes s)
    (in_completed_scopes s) (in_shutdown_locked s) (in_os_pids s) (in_receiver s) (in_queue s)
    (in_next_handle s) (in_spawns s) (in_joined s) (in_worker_of s) (in_admissions s) (in_finished s)
    (in_cleanups s) (in_scoped s) (in_calls s) (in_attached s) (in_committing s) (in_returned s).
Definition set_sampler_task (v : bool) (s : Inner) : Inner :=
  mkInner (in_registry s) (in_waiters s) (in_spawn_times s) (in_shutting_down s) (in_creating s)
    (in_owners_dropped s) (in_scope_operations s) (in_operations s) (in_samples s)
    (in_sampler_started s) (in_sampler_locked s) v (in_sampler_aborted s) (in_sampler_ended s)
    (in_outputs s) (in_scope_results s) (in_watches s) (in_completed_scope_results s)
    (in_stats_interval s) (in_completed s) (in_reports s) (in_pending_outcomes s)
    (in_completed_scopes s) (in_shutdown_locked s) (in_os_pids s) (in_receiver s) (in_queue s)
    (in_next_handle s) (in_spawns s) (in_joined s) (in_worker_of s) (in_admissions s) (in_finished s)
    (in_cleanups s) (in_scoped s) (in_calls s) (in_attached s) (in_committing s) (in_returned s).
Definition set_sampler_aborted (v : bool) (s : Inner) : Inner :=
  mkInner (in_registry s) (in_waiters s) (in_spawn_times s) (in_shutting_down s) (in_creating s)
    (in_owners_dropped s) (in_scope_operations s) (in_operations s) (in_samples s)
    (in_sampler_started s) (in_sampler_locked s) (in_sampler_task s) v (in_sampler_ended s)
    (in_outputs s) (in_scope_results s) (in_watches s) (in_completed_scope_results s)
    (in_stats_interval s) (in_completed s) (in_reports s) (in_pending_outcomes s)
    (in_completed_scopes s) (in_shutdown_locked s) (in_os_pids s) (in_receiver s) (in_queue s)
    (in_next_handle s) (in_spawns s) (in_joined s) (in_worker_of s) (in_admissions s) (in_finished s)
    (in_cleanups s) (in_scoped s) (in_calls s) (in_attached s) (in_committing s) (in_returned s).
Definition set_sampler_ended (v : bool) (s : Inner) : Inner :=
  mkInner (in_registry s) (in_waiters s) (in_spawn_times s) (in_shutting_down s) (in_creating s)
    (in_owners_dropped s) (in_scope_operations s) (in_operations s) (in_samples s)
    (in_sampler_started s) (in_sampler_locked s) (in_sampler_task s) (in_sampler_aborted s) v
    (in_outputs s) (in_scope_results s) (in_watches s) (in_completed_scope_results s)
    (in_stats_interval s) (in_completed s) (in_reports s) (in_pending_outcomes s)
    (in_completed_scopes s) (in_shutdown_locked s) (in_os_pids s) (in_receiver s) (in_queue s)
    (in_next_handle s) (in_spawns s) (in_joined s) (in_worker_of s) (in_admissions s) (in_finished s)
    (in_cleanups s) (in_scoped s) (in_calls s) (in_attached s) (in_committing s) (in_returned s).
Definition set_outputs (v : gmap ProcessId ProcessOutput) (s : Inner) : Inner :=
  mkInner (in_registry s) (in_waiters s) (in_spawn_times s) (in_shutting_down s) (in_creating s)
    (in_owners_dropped s) (in_scope_operations s) (in_operations s) (in_samples s)
    (in_sampler_started s) (in_sampler_locked s) (in_sampler_task s) (in_sampler_aborted s)
    (in_sampler_ended s) v (in_scope_results s) (in_watches s) (in_completed_scope_results s)
    (in_stats_interval s) (in_completed s) (in_reports s) (in_pending_outcomes s)
    (in_completed_scopes s) (in_shutdown_locked s) (in_os_pids s) (in_receiver s) (in_queue s)
    (in_next_handle s) (in_spawns s) (in_joined s) (in_worker_of s) (in_admissions s) (in_finished s)
    (in_cleanups s) (in_scoped s) (in_calls s) (in_attached s) (in_committing s) (in_returned s).
Definition set_scope_results (v : gset ProcessScopeId) (s : Inner) : Inner :=
  mkInner (in_registry s) (in_waiters s) (in_spawn_times s) (in_shutting_down s) (in_creating s)
    (in_owners_dropped s) (in_scope_operations s) (in_operations s) (in_samples s)
    (in_sampler_started s) (in_sampler_locked s) (in_sampler_task s) (in_sampler_aborted s)
    (in_sampler_ended s) (in_outputs s) v (in_watches s) (in_completed_scope_results s)
    (in_stats_interval s) (in_completed s) (in_reports s) (in_pending_outcomes s)
    (in_completed_scopes s) (in_shutdown_locked s) (in_os_pids s) (in_receiver s) (in_queue s)
    (in_next_handle s) (in_spawns s) (in_joined s) (in_worker_of s) (in_admissions s) (in_finished s)
    (in_cleanups s) (in_scoped s) (in_calls s) (in_attached s) (in_committing s) (in_returned s).
Definition set_watches (v : gmap ProcessScopeId Watch) (s : Inner) : Inner :=
  mkInner (in_registry s) (in_waiters s) (in_spawn_times s) (in_shutting_down s) (in_creating s)
    (in_owners_dropped s) (in_scope_operations s) (in_operations s) (in_samples s)
    (in_sampler_started s) (in_sampler_locked s) (in_sampler_task s) (in_sampler_aborted s)
    (in_sampler_ended s) (in_outputs s) (in_scope_results s) v (in_completed_scope_results s)
    (in_stats_interval s) (in_completed s) (in_reports s) (in_pending_outcomes s)
    (in_completed_scopes s) (in_shutdown_locked s) (in_os_pids s) (in_receiver s) (in_queue s)
    (in_next_handle s) (in_spawns s) (in_joined s) (in_worker_of s) (in_admissions s) (in_finished s)
    (in_cleanups s) (in_scoped s) (in_calls s) (in_attached s) (in_committing s) (in_returned s).
Definition set_completed_scope_results (v : list ProcessScopeId) (s : Inner) : Inner :=
  mkInner (in_registry s) (in_waiters s) (in_spawn_times s) (in_shutting_down s) (in_creating s)
    (in_owners_dropped s) (in_scope_operations s) (in_operations s) (in_samples s)
    (in_sampler_started s) (in_sampler_locked s) (in_sampler_task s) (in_sampler_aborted s)
    (in_sampler_ended s) (in_outputs s) (in_scope_results s) (in_watches s) v (in_stats_interval s)
    (in_completed s) (in_reports s) (in_pending_outcomes s) (in_completed_scopes s)
    (in_shutdown_locked s) (in_os_pids s) (in_receiver s) (in_queue s) (in_next_handle s) (in_spawns s)
    (in_joined s) (in_worker_of s) (in_admissions s) (in_finished s) (in_cleanups s) (in_scoped s)
    (in_calls s) (in_attached s) (in_committing s) (in_returned s).
Definition set_stats_interval (v : Duration) (s : Inner) : Inner :=
  mkInner (in_registry s) (in_waiters s) (in_spawn_times s) (in_shutting_down s) (in_creating s)
    (in_owners_dropped s) (in_scope_operations s) (in_operations s) (in_samples s)
    (in_sampler_started s) (in_sampler_locked s) (in_sampler_task s) (in_sampler_aborted s)
    (in_sampler_ended s) (in_outputs s) (in_scope_results s) (in_watches s)
    (in_completed_scope_results s) v (in_completed s) (in_reports s) (in_pending_outcomes s)
    (in_completed_scopes s) (in_shutdown_locked s) (in_os_pids s) (in_receiver s) (in_queue s)
    (in_next_handle s) (in_spawns s) (in_joined s) (in_worker_of s) (in_admissions s) (in_finished s)
    (in_cleanups s) (in_scoped s) (in_calls s) (in_attached s) (in_committing s) (in_returned s).
Definition set_completed (v : list ProcessId) (s : Inner) : Inner :=
  mkInner (in_registry s) (in_waiters s) (in_spawn_times s) (in_shutting_down s) (in_creating s)
    (in_owners_dropped s) (in_scope_operations s) (in_operations s) (in_samples s)
    (in_sampler_started s) (in_sampler_locked s) (in_sampler_task s) (in_sampler_aborted s)
    (in_sampler_ended s) (in_outputs s) (in_scope_results s) (in_watches s)
    (in_completed_scope_results s) (in_stats_interval s) v (in_reports s) (in_pending_outcomes s)
    (in_completed_scopes s) (in_shutdown_locked s) (in_os_pids s) (in_receiver s) (in_queue s)
    (in_next_handle s) (in_spawns s) (in_joined s) (in_worker_of s) (in_admissions s) (in_finished s)
    (in_cleanups s) (in_scoped s) (in_calls s) (in_attached s) (in_committing s) (in_returned s).
Definition set_reports (v : gmap ProcessScopeId RetainedScopeReport) (s : Inner) : Inner :=
  mkInner (in_registry s) (in_waiters s) (in_spawn_times s) (in_shutting_down s) (in_creating s)
    (in_owners_dropped s) (in_scope_operations s) (in_operations s) (in_samples s)
    (in_sampler_started s) (in_sampler_locked s) (in_sampler_task s) (in_sampler_aborted s)
    (in_sampler_ended s) (in_outputs s) (in_scope_results s) (in_watches s)
    (in_completed_scope_results s) (in_stats_interval s) (in_completed s) v (in_pending_outcomes s)
    (in_completed_scopes s) (in_shutdown_locked s) (in_os_pids s) (in_receiver s) (in_queue s)
    (in_next_handle s) (in_spawns s) (in_joined s) (in_worker_of s) (in_admissions s) (in_finished s)
    (in_cleanups s) (in_scoped s) (in_calls s) (in_attached s) (in_committing s) (in_returned s).
Definition set_pending_outcomes (v : gmap ProcessScopeId (gmap ProcessId TerminationOutcome)) (s : Inner) : Inner :=
  mkInner (in_registry s) (in_waiters s) (in_spawn_times s) (in_shutting_down s) (in_creating s)
    (in_owners_dropped s) (in_scope_operations s) (in_operations s) (in_samples s)
    (in_sampler_started s) (in_sampler_locked s) (in_sampler_task s) (in_sampler_aborted s)
    (in_sampler_ended s) (in_outputs s) (in_scope_results s) (in_watches s)
    (in_completed_scope_results s) (in_stats_interval s) (in_completed s) (in_reports s) v
    (in_completed_scopes s) (in_shutdown_locked s) (in_os_pids s) (in_receiver s) (in_queue s)
    (in_next_handle s) (in_spawns s) (in_joined s) (in_worker_of s) (in_admissions s) (in_finished s)
    (in_cleanups s) (in_scoped s) (in_calls s) (in_attached s) (in_committing s) (in_returned s).
Definition set_completed_scopes (v : list ProcessScopeId) (s : Inner) : Inner :=
  mkInner (in_registry s) (in_waiters s) (in_spawn_times s) (in_shutting_down s) (in_creating s)
    (in_owners_dropped s) (in_scope_operations s) (in_operations s) (in_samples s)
    (in_sampler_started s) (in_sampler_locked s) (in_sampler_task s) (in_sampler_aborted s)
    (in_sampler_ended s) (in_outputs s) (in_scope_results s) (in_watches s)
    (in_completed_scope_results s) (in_stats_interval s) (in_completed s) (in_reports s)
    (in_pending_outcomes s) v (in_shutdown_locked s) (in_os_pids s) (in_receiver s) (in_queue s)
    (in_next_handle s) (in_spawns s) (in_joined s) (in_worker_of s) (in_admissions s) (in_finished s)
    (in_cleanups s) (in_scoped s) (in_calls s) (in_attached s) (in_committing s) (in_returned s).
Definition set_shutdown_locked (v : bool) (s : Inner) : Inner :=
  mkInner (in_registry s) (in_waiters s) (in_spawn_times s) (in_shutting_down s) (in_creating s)
    (in_owners_dropped s) (in_scope_operations s) (in_operations s) (in_samples s)
    (in_sampler_started s) (in_sampler_locked s) (in_sampler_task s) (in_sampler_aborted s)
    (in_sampler_ended s) (in_outputs s) (in_scope_results s) (in_watches s)
    (in_completed_scope_results s) (in_stats_interval s) (in_completed s) (in_reports s)
    (in_pending_outcomes s) (in_completed_scopes s) v (in_os_pids s) (in_receiver s) (in_queue s)
    (in_next_handle s) (in_spawns s) (in_joined s) (in_worker_of s) (in_admissions s) (in_finished s)
    (in_cleanups s) (in_scoped s) (in_calls s) (in_attached s) (in_committing s) (in_returned s).
Definition set_os_pids (v : OsPidHistory) (s : Inner) : Inner :=
  mkInner (in_registry s) (in_waiters s) (in_spawn_times s) (in_shutting_down s) (in_creating s)
    (in_owners_dropped s) (in_scope_operations s) (in_operations s) (in_samples s)
    (in_sampler_started s) (in_sampler_locked s) (in_sampler_task s) (in_sampler_aborted s)
    (in_sampler_ended s) (in_outputs s) (in_scope_results s) (in_watches s)
    (in_completed_scope_results s) (in_stats_interval s) (in_completed s) (in_reports s)
    (in_pending_outcomes s) (in_completed_scopes s) (in_shutdown_locked s) v (in_receiver s)
    (in_queue s) (in_next_handle s) (in_spawns s) (in_joined s) (in_worker_of s) (in_admissions s)
    (in_finished s) (in_cleanups s) (in_scoped s) (in_calls s) (in_attached s) (in_committing s)
    (in_returned s).
Definition set_receiver (v : Receiver) (s : Inner) : Inner :=
  mkInner (in_registry s) (in_waiters s) (in_spawn_times s) (in_shutting_down s) (in_creating s)
    (in_owners_dropped s) (in_scope_operations s) (in_operations s) (in_samples s)
    (in_sampler_started s) (in_sampler_locked s) (in_sampler_task s) (in_sampler_aborted s)
    (in_sampler_ended s) (in_outputs s) (in_scope_results s) (in_watches s)
    (in_completed_scope_results s) (in_stats_interval s) (in_completed s) (in_reports s)
    (in_pending_outcomes s) (in_completed_scopes s) (in_shutdown_locked s) (in_os_pids s) v (in_queue s)
    (in_next_handle s) (in_spawns s) (in_joined s) (in_worker_of s) (in_admissions s) (in_finished s)
    (in_cleanups s) (in_scoped s) (in_calls s) (in_attached s) (in_committing s) (in_returned s).
Definition set_queue (v : list IntegrationEvent) (s : Inner) : Inner :=
  mkInner (in_registry s) (in_waiters s) (in_spawn_times s) (in_shutting_down s) (in_creating s)
    (in_owners_dropped s) (in_scope_operations s) (in_operations s) (in_samples s)
    (in_sampler_started s) (in_sampler_locked s) (in_sampler_task s) (in_sampler_aborted s)
    (in_sampler_ended s) (in_outputs s) (in_scope_results s) (in_watches s)
    (in_completed_scope_results s) (in_stats_interval s) (in_completed s) (in_reports s)
    (in_pending_outcomes s) (in_completed_scopes s) (in_shutdown_locked s) (in_os_pids s)
    (in_receiver s) v (in_next_handle s) (in_spawns s) (in_joined s) (in_worker_of s) (in_admissions s)
    (in_finished s) (in_cleanups s) (in_scoped s) (in_calls s) (in_attached s) (in_committing s)
    (in_returned s).
Definition set_next_handle (v : nat) (s : Inner) : Inner :=
  mkInner (in_registry s) (in_waiters s) (in_spawn_times s) (in_shutting_down s) (in_creating s)
    (in_owners_dropped s) (in_scope_operations s) (in_operations s) (in_samples s)
    (in_sampler_started s) (in_sampler_locked s) (in_sampler_task s) (in_sampler_aborted s)
    (in_sampler_ended s) (in_outputs s) (in_scope_results s) (in_watches s)
    (in_completed_scope_results s) (in_stats_interval s) (in_completed s) (in_reports s)
    (in_pending_outcomes s) (in_completed_scopes s) (in_shutdown_locked s) (in_os_pids s)
    (in_receiver s) (in_queue s) v (in_spawns s) (in_joined s) (in_worker_of s) (in_admissions s)
    (in_finished s) (in_cleanups s) (in_scoped s) (in_calls s) (in_attached s) (in_committing s)
    (in_returned s).
Definition set_spawns (v : gmap nat (result (result ProcessId SpawnError) string)) (s : Inner) : Inner :=
  mkInner (in_registry s) (in_waiters s) (in_spawn_times s) (in_shutting_down s) (in_creating s)
    (in_owners_dropped s) (in_scope_operations s) (in_operations s) (in_samples s)
    (in_sampler_started s) (in_sampler_locked s) (in_sampler_task s) (in_sampler_aborted s)
    (in_sampler_ended s) (in_outputs s) (in_scope_results s) (in_watches s)
    (in_completed_scope_results s) (in_stats_interval s) (in_completed s) (in_reports s)
    (in_pending_outcomes s) (in_completed_scopes s) (in_shutdown_locked s) (in_os_pids s)
    (in_receiver s) (in_queue s) (in_next_handle s) v (in_joined s) (in_worker_of s) (in_admissions s)
    (in_finished s) (in_cleanups s) (in_scoped s) (in_calls s) (in_attached s) (in_committing s)
    (in_returned s).
Definition set_joined (v : gmap nat (result (ProcessId * result ProcessExit TerminateError) string)) (s : Inner) : Inner :=
  mkInner (in_registry s) (in_waiters s) (in_spawn_times s) (in_shutting_down s) (in_creating s)
    (in_owners_dropped s) (in_scope_operations s) (in_operations s) (in_samples s)
    (in_sampler_started s) (in_sampler_locked s) (in_sampler_task s) (in_sampler_aborted s)
    (in_sampler_ended s) (in_outputs s) (in_scope_results s) (in_watches s)
    (in_completed_scope_results s) (in_stats_interval s) (in_completed s) (in_reports s)
    (in_pending_outcomes s) (in_completed_scopes s) (in_shutdown_locked s) (in_os_pids s)
    (in_receiver s) (in_queue s) (in_next_handle s) (in_spawns s) v (in_worker_of s) (in_admissions s)
    (in_finished s) (in_cleanups s) (in_scoped s) (in_calls s) (in_attached s) (in_committing s)
    (in_returned s).
Definition set_worker_of (v : gmap nat WorkerOf) (s : Inner) : Inner :=
  mkInner (in_registry s) (in_waiters s) (in_spawn_times s) (in_shutting_down s) (in_creating s)
    (in_owners_dropped s) (in_scope_operations s) (in_operations s) (in_samples s)
    (in_sampler_started s) (in_sampler_locked s) (in_sampler_task s) (in_sampler_aborted s)
    (in_sampler_ended s) (in_outputs s) (in_scope_results s) (in_watches s)
    (in_completed_scope_results s) (in_stats_interval s) (in_completed s) (in_reports s)
    (in_pending_outcomes s) (in_completed_scopes s) (in_shutdown_locked s) (in_os_pids s)
    (in_receiver s) (in_queue s) (in_next_handle s) (in_spawns s) (in_joined s) v (in_admissions s)
    (in_finished s) (in_cleanups s) (in_scoped s) (in_calls s) (in_attached s) (in_committing s)
    (in_returned s).
Definition set_admissions (v : gmap nat SpawnObservation) (s : Inner) : Inner :=
  mkInner (in_registry s) (in_waiters s) (in_spawn_times s) (in_shutting_down s) (in_creating s)
    (in_owners_dropped s) (in_scope_operations s) (in_operations s) (in_samples s)
    (in_sampler_started s) (in_sampler_locked s) (in_sampler_task s) (in_sampler_aborted s)
    (in_sampler_ended s) (in_outputs s) (in_scope_results s) (in_watches s)
    (in_completed_scope_results s) (in_stats_interval s) (in_completed s) (in_reports s)
    (in_pending_outcomes s) (in_completed_scopes s) (in_shutdown_locked s) (in_os_pids s)
    (in_receiver s) (in_queue s) (in_next_handle s) (in_spawns s) (in_joined s) (in_worker_of s) v
    (in_finished s) (in_cleanups s) (in_scoped s) (in_calls s) (in_attached s) (in_committing s)
    (in_returned s).
Definition set_finished (v : gset ProcessScopeId) (s : Inner) : Inner :=
  mkInner (in_registry s) (in_waiters s) (in_spawn_times s) (in_shutting_down s) (in_creating s)
    (in_owners_dropped s) (in_scope_operations s) (in_operations s) (in_samples s)
    (in_sampler_started s) (in_sampler_locked s) (in_sampler_task s) (in_sampler_aborted s)
    (in_sampler_ended s) (in_outputs s) (in_scope_results s) (in_watches s)
    (in_completed_scope_results s) (in_stats_interval s) (in_completed s) (in_reports s)
    (in_pending_outcomes s) (in_completed_scopes s) (in_shutdown_locked s) (in_os_pids s)
    (in_receiver s) (in_queue s) (in_next_handle s) (in_spawns s) (in_joined s) (in_worker_of s)
    (in_admissions s) v (in_cleanups s) (in_scoped s) (in_calls s) (in_attached s) (in_committing s)
    (in_returned s).
Definition set_cleanups (v : gmap ProcessScopeId (option string)) (s : Inner) : Inner :=
  mkInner (in_registry s) (in_waiters s) (in_spawn_times s) (in_shutting_down s) (in_creating s)
    (in_owners_dropped s) (in_scope_operations s) (in_operations s) (in_samples s)
    (in_sampler_started s) (in_sampler_locked s) (in_sampler_task s) (in_sampler_aborted s)
    (in_sampler_ended s) (in_outputs s) (in_scope_results s) (in_watches s)
    (in_completed_scope_results s) (in_stats_interval s) (in_completed s) (in_reports s)
    (in_pending_outcomes s) (in_completed_scopes s) (in_shutdown_locked s) (in_os_pids s)
    (in_receiver s) (in_queue s) (in_next_handle s) (in_spawns s) (in_joined s) (in_worker_of s)
    (in_admissions s) (in_finished s) v (in_scoped s) (in_calls s) (in_attached s) (in_committing s)
    (in_returned s).
Definition set_scoped (v : gmap nat ScopedProcesses) (s : Inner) : Inner :=
  mkInner (in_registry s) (in_waiters s) (in_spawn_times s) (in_shutting_down s) (in_creating s)
    (in_owners_dropped s) (in_scope_operations s) (in_operations s) (in_samples s)
    (in_sampler_started s) (in_sampler_locked s) (in_sampler_task s) (in_sampler_aborted s)
    (in_sampler_ended s) (in_outputs s) (in_scope_results s) (in_watches s)
    (in_completed_scope_results s) (in_stats_interval s) (in_completed s) (in_reports s)
    (in_pending_outcomes s) (in_completed_scopes s) (in_shutdown_locked s) (in_os_pids s)
    (in_receiver s) (in_queue s) (in_next_handle s) (in_spawns s) (in_joined s) (in_worker_of s)
    (in_admissions s) (in_finished s) (in_cleanups s) v (in_calls s) (in_attached s) (in_committing s)
    (in_returned s).
Definition set_calls (v : list port_call) (s : Inner) : Inner :=
  mkInner (in_registry s) (in_waiters s) (in_spawn_times s) (in_shutting_down s) (in_creating s)
    (in_owners_dropped s) (in_scope_operations s) (in_operations s) (in_samples s)
    (in_sampler_started s) (in_sampler_locked s) (in_sampler_task s) (in_sampler_aborted s)
    (in_sampler_ended s) (in_outputs s) (in_scope_results s) (in_watches s)
    (in_completed_scope_results s) (in_stats_interval s) (in_completed s) (in_reports s)
    (in_pending_outcomes s) (in_completed_scopes s) (in_shutdown_locked s) (in_os_pids s)
    (in_receiver s) (in_queue s) (in_next_handle s) (in_spawns s) (in_joined s) (in_worker_of s)
    (in_admissions s) (in_finished s) (in_cleanups s) (in_scoped s) v (in_attached s) (in_committing s)
    (in_returned s).
Definition set_attached (v : gmap ProcessId (ProcessScopeId * OsIdentity)) (s : Inner) : Inner :=
  mkInner (in_registry s) (in_waiters s) (in_spawn_times s) (in_shutting_down s) (in_creating s)
    (in_owners_dropped s) (in_scope_operations s) (in_operations s) (in_samples s)
    (in_sampler_started s) (in_sampler_locked s) (in_sampler_task s) (in_sampler_aborted s)
    (in_sampler_ended s) (in_outputs s) (in_scope_results s) (in_watches s)
    (in_completed_scope_results s) (in_stats_interval s) (in_completed s) (in_reports s)
    (in_pending_outcomes s) (in_completed_scopes s) (in_shutdown_locked s) (in_os_pids s)
    (in_receiver s) (in_queue s) (in_next_handle s) (in_spawns s) (in_joined s) (in_worker_of s)
    (in_admissions s) (in_finished s) (in_cleanups s) (in_scoped s) (in_calls s) v (in_committing s)
    (in_returned s).
Definition set_committing (v : gset ProcessScopeId) (s : Inner) : Inner :=
  mkInner (in_registry s) (in_waiters s) (in_spawn_times s) (in_shutting_down s) (in_creating s)
    (in_owners_dropped s) (in_scope_operations s) (in_operations s) (in_samples s)
    (in_sampler_started s) (in_sampler_locked s) (in_sampler_task s) (in_sampler_aborted s)
    (in_sampler_ended s) (in_outputs s) (in_scope_results s) (in_watches s)
    (in_completed_scope_results s) (in_stats_interval s) (in_completed s) (in_reports s)
    (in_pending_outcomes s) (in_completed_scopes s) (in_shutdown_locked s) (in_os_pids s)
    (in_receiver s) (in_queue s) (in_next_handle s) (in_spawns s) (in_joined s) (in_worker_of s)
    (in_admissions s) (in_finished s) (in_cleanups s) (in_scoped s) (in_calls s) (in_attached s) v
    (in_returned s).
Definition set_returned (v : list returned) (s : Inner) : Inner :=
  mkInner (in_registry s) (in_waiters s) (in_spawn_times s) (in_shutting_down s) (in_creating s)
    (in_owners_dropped s) (in_scope_operations s) (in_operations s) (in_samples s)
    (in_sampler_started s) (in_sampler_locked s) (in_sampler_task s) (in_sampler_aborted s)
    (in_sampler_ended s) (in_outputs s) (in_scope_results s) (in_watches s)
    (in_completed_scope_results s) (in_stats_interval s) (in_completed s) (in_reports s)
    (in_pending_outcomes s) (in_completed_scopes s) (in_shutdown_locked s) (in_os_pids s)
    (in_receiver s) (in_queue s) (in_next_handle s) (in_spawns s) (in_joined s) (in_worker_of s)
    (in_admissions s) (in_finished s) (in_cleanups s) (in_scoped s) (in_calls s) (in_attached s)
    (in_committing s) v.

(** ** Shorthands used by every component *)

Definition SProg (A : Type) : Type := @Prog Inner Port Task A.

(** The history of port answers. *)
Definition record_call (c : port_call) (s : Inner) : Inner := set_calls (c :: in_calls s) s.

Definition answer (X : Type) (q : Port X) (x : X) (s : Inner) : Inner := record_call (port_label X q x) s.

Definition new_handle (s : Inner) : Inner * nat :=
  (set_next_handle (S (in_next_handle s)) s, in_next_handle s).

Definition new_worker (w : WorkerOf) (s : Inner) : Inner * nat :=
  let '(s, h) := new_handle s in (set_worker_of (<[h := w]> (in_worker_of s)) s, h).

Definition log_return (r : returned) (s : Inner) : Inner := set_returned (r :: in_returned s) s.
End State.

#[global] Arguments Inner : clear implicits.
#[global] Arguments Observer : clear implicits.
#[global] Arguments SpawnObservation : clear implicits.
#[global] Arguments Task : clear implicits.
#[global] Arguments returned : clear implicits.
#[global] Arguments SProg : clear implicits.
