(* ===== verification/Dispatch.v ===== *)
(** * Dispatch: the event dispatcher and the three domain-event handlers

    shepherd-app/src/dispatch.rs. A handler is a program per event; the dispatcher
    runs every handler on every event, in order, whatever they return. The
    publisher behind the integration translator is a task of its own, fed by a
    queue of 64 events. *)

From stdpp Require Import base list gmap strings.
From S2P Require Import Prelude StdModel Values Process Scope Registry Waiters Ports History Conc State.

Open Scope Z_scope.
Open Scope prog_scope.

Section Dispatch.
Context {W F : Type} `{!WaitersPort W F}.

Abbreviation Inner := (Inner W F) (only parsing).
Abbreviation SProg := (SProg W F) (only parsing).

(** [EventHandler::handle]. A handler fails only on a poisoned registry mutex; mutex
    poisoning is not modelled (no critical section of the program panics while it holds
    one, short of exhausting the 64-bit identifiers). *)
Abbreviation EventHandler := (DomainEvent -> SProg (result unit HandlerError)) (only parsing).

(** Errors are logged. *)
Definition dispatch (handlers : list EventHandler) (events : list DomainEvent) : SProg unit :=
  for_each events (fun event =>
    for_each handlers (fun handle => handle event ;;; Ret tt)).

(** ** WaitNotifierHandler *)

Definition signal_waiters (pid : ProcessId) (exit : ProcessExit) (s : Inner) : Inner :=
  set_waiters (signal_exit (in_waiters s) pid exit) s.

(** The recorded exit of a process that the registry still tracks in [scope]. *)
Definition tracked_exit (r : ScopeRegistry) (scope : ProcessScopeId) (pid : ProcessId) : option ProcessExit :=
  sc ← registry_get r scope; p ← scope_get sc pid; process_exit p.

(** The critical section for an unverified exit, under the registry lock. *)
Definition notify_unverified (scope : ProcessScopeId) (pid : ProcessId) (exit : ProcessExit) (s : Inner) : Inner :=
  if exit_unverified (tracked_exit (in_registry s) scope pid) then signal_waiters pid exit s else s.

(** [with_registry] is [self.registry.is_some()]. *)
Definition wait_notifier (with_registry : bool) : EventHandler := fun event =>
  match event with
  | ProcessReaped scope pid exit =>
      (if negb (is_verified (exit_outcome exit)) && with_registry
       then modify (notify_unverified scope pid exit)
       else modify (signal_waiters pid exit)) ;;;
      Ret (Ok tt)
  | _ => Ret (Ok tt)
  end.

(** ** RegistryPruneHandler *)

Definition update_scope (scope : ProcessScopeId) (f : ProcessScope -> ProcessScope) (s : Inner) : Inner :=
  match registry_get (in_registry s) scope with
  | Some sc => set_registry (registry_set (in_registry s) scope (f sc)) s
  | None => s
  end.

Definition registry_prune_handler : EventHandler := fun event =>
  modify (fun s =>
    match event with
    | ProcessReaped scope pid exit =>
        if is_verified (exit_outcome exit) then update_scope scope (fun sc => prune sc pid) s else s
    | ScopeClosed _ => s
    | _ => s
    end) ;;;
  Ret (Ok tt).

(** ** IntegrationTranslator *)

Definition PUBLISHER_QUEUE : nat := 64.

Definition integration_event (event : DomainEvent) : option IntegrationEvent :=
  match event with
  | ProcessReaped scope pid exit => Some (ProcessTerminated scope pid (exit_outcome exit))
  | ScopeClosed scope => Some (ScopeTerminated scope)
  | _ => None
  end.

(** [self.receiver.lock().take()]. *)
Definition take_receiver (s : Inner) : Inner * bool :=
  match in_receiver s with
  | ReceiverIdle => (set_receiver ReceiverTaken s, true)
  | _ => (s, false)
  end.

(** [self.sender.try_send(event)]. *)
Definition try_send (event : IntegrationEvent) (s : Inner) : Inner * bool :=
  match in_receiver s with
  | ReceiverClosed => (s, false)
  | _ =>
      if (length (in_queue s) <? PUBLISHER_QUEUE)%nat
      then (set_queue (in_queue s ++ [event]) s, true)
      else (s, false)
  end.

Definition integration_translator : EventHandler := fun event =>
  match integration_event event with
  | None => Ret (Ok tt)
  | Some event =>
      let! taken := act take_receiver in
      (if taken then fork TaskPublisher else Ret tt) ;;;
      act (try_send event) ;;;
      Ret (Ok tt)
  end.

(** [receiver.recv()], while the senders live. *)
Definition recv (s : Inner) : option (Inner * IntegrationEvent) :=
  match in_queue s with
  | event :: queue => Some (set_queue queue s, event)
  | [] => None
  end.

(** One turn of the publisher's loop; dropping the task drops the receiver. *)
Definition publisher_task : SProg unit :=
  cancel_with (fun s => set_queue [] (set_receiver ReceiverClosed s))
    (let! event := await recv in
     timeout (TimerElapsed (from_secs 1)) (ask (PublisherPublish event)) ;;;
     fork TaskPublisher).

(** ** The dispatcher of a supervisor *)

Definition supervisor_handlers : list EventHandler :=
  [wait_notifier true; registry_prune_handler; integration_translator].

Definition dispatch_events (events : list DomainEvent) : SProg unit := dispatch supervisor_handlers events.
End Dispatch.
