(* ===== verification/Supervisor.v ===== *)
(** * Supervisor: the application service, operation by operation

    shepherd-app/src/supervisor.rs. Each method is a program; each region between
    taking and releasing a [std::sync::Mutex] is one atomic step. The ports answer
    anything. Calls that the source makes on a task of its own are tasks here. *)

From stdpp Require Import base list gmap strings.
From S2P Require Import Prelude StdModel Values Process Scope Registry Waiters Usage.
From S2P Require Import Observation Ports History Conc State Dispatch.

Open Scope Z_scope.
Open Scope prog_scope.

Section Supervisor.
Context {W F : Type} `{!WaitersPort W F}.

Abbreviation Inner := (Inner W F) (only parsing).
Abbreviation SProg := (SProg W F) (only parsing).

(** ** Construction *)

(** [with_stats_interval]; [w] is the injected waiters. *)
Definition with_stats_interval (w : W) (stats_interval : Duration) : Inner :=
  {| in_registry := registry_new;
     in_waiters := w;
     in_spawn_times := ∅;
     in_shutting_down := false;
     in_creating := false;
     in_owners_dropped := false;
     in_scope_operations := ∅;
     in_operations := ∅;
     in_samples := ∅;
     in_sampler_started := false;
     in_sampler_locked := false;
     in_sampler_task := false;
     in_sampler_aborted := false;
     in_sampler_ended := false;
     in_outputs := ∅;
     in_scope_results := ∅;
     in_watches := ∅;
     in_completed_scope_results := [];
     in_stats_interval := Z.max stats_interval (from_millis 1);
     in_completed := [];
     in_reports := ∅;
     in_pending_outcomes := ∅;
     in_completed_scopes := [];
     in_shutdown_locked := false;
     in_os_pids := os_history_default;
     in_receiver := ReceiverIdle;
     in_queue := [];
     in_next_handle := 0;
     in_spawns := ∅;
     in_joined := ∅;
     in_worker_of := ∅;
     in_admissions := ∅;
     in_finished := ∅;
     in_cleanups := ∅;
     in_scoped := ∅;
     in_calls := [];
     in_attached := ∅;
     in_committing := ∅;
     in_returned := [] |}.

Definition supervisor_new (w : W) : Inner := with_stats_interval w (from_secs 1).

(** ** Shared accessors *)

Definition scope_of_get (r : ScopeRegistry) (pid : ProcessId) : option ProcessScope :=
  scope ← scope_of r pid; registry_get r scope.

(** [registry.scope_of(pid).and_then(get).and_then(|s| s.get(pid))]. *)
Definition find_process (r : ScopeRegistry) (pid : ProcessId) : option Process :=
  sc ← scope_of_get r pid; scope_get sc pid.

Definition has_report (scope : ProcessScopeId) (s : Inner) : bool :=
  bool_decide (is_Some (in_reports s !! scope)).

Definition scope_operation (scope : ProcessScopeId) (s : Inner) : bool :=
  bool_decide (scope ∈ in_scope_operations s).

Definition retained (scope : ProcessScopeId) (s : Inner) : option ScopeTerminationReport :=
  retained_report <$> in_reports s !! scope.

(** [operation.lock().await]: the guarded value is read under the guard. *)
Definition try_lock_operation (scope : ProcessScopeId) (s : Inner) :
    option (Inner * option ScopeTerminationReport) :=
  op ← in_operations s !! scope;
  if op_locked op then None
  else Some (set_operations (<[scope := mkScopeOperation true (op_report op)]> (in_operations s)) s,
             op_report op).

Definition unlock_operation (scope : ProcessScopeId) (s : Inner) : Inner :=
  match in_operations s !! scope with
  | Some op => set_operations (<[scope := mkScopeOperation false (op_report op)]> (in_operations s)) s
  | None => s
  end.

(** [*serial = Some(report)]. *)
Definition set_serial (scope : ProcessScopeId) (report : ScopeTerminationReport) (s : Inner) : Inner :=
  match in_operations s !! scope with
  | Some op => set_operations (<[scope := mkScopeOperation (op_locked op) (Some report)]> (in_operations s)) s
  | None => s
  end.

Definition with_operation {A} (scope : ProcessScopeId)
    (p : option ScopeTerminationReport -> SProg A) : SProg A :=
  let! serial := await (try_lock_operation scope) in guarded (unlock_operation scope) (p serial).

Definition waiters_wait (pid : ProcessId) (s : Inner) : Inner * F :=
  let '(w, f) := wait (in_waiters s) pid in (set_waiters w s, f).

(** The future of the waiters resolves. *)
Definition exit_ready (f : F) (s : Inner) : option (Inner * ProcessExit) :=
  exit ← poll (in_waiters s) f; Some (s, exit).

Definition observer_ready (o : Observer F) (s : Inner) : option (Inner * ProcessExit) :=
  match o with ObserverReady exit => Some (s, exit) | ObserverWait f => exit_ready f s end.

Definition observe_output (completed : list ProcessId * gmap ProcessId ProcessOutput) (s : Inner) : Inner :=
  set_completed completed.1 (set_outputs completed.2 s).

Definition retain_completed_output (pid : ProcessId) (s : Inner) : Inner :=
  observe_output (retain_completed (in_completed s) (in_outputs s) pid) s.

Definition insert_pending (scope : ProcessScopeId) (f : gmap ProcessId TerminationOutcome -> gmap ProcessId TerminationOutcome)
    (s : Inner) : Inner :=
  set_pending_outcomes
    (<[scope := f (default ∅ (in_pending_outcomes s !! scope))]> (in_pending_outcomes s)) s.

(** [.entry(pid).and_modify(|previous| if !previous.is_verified() { .. }).or_insert(outcome)]. *)
Definition merge_outcome (pid : ProcessId) (outcome : TerminationOutcome)
    (m : gmap ProcessId TerminationOutcome) : gmap ProcessId TerminationOutcome :=
  match m !! pid with
  | Some previous => if is_verified previous then m else <[pid := outcome]> m
  | None => <[pid := outcome]> m
  end.

Definition is_scope_closed_event (event : DomainEvent) : bool :=
  match event with ScopeClosed _ => true | _ => false end.

(** [events.retain(|event| !matches!(event, ScopeClosed { .. }))]. *)
Definition without_closed (events : list DomainEvent) : list DomainEvent :=
  List.filter (fun event => negb (is_scope_closed_event event)) events.

(** ** Creating scopes *)

(** The registry is locked, and the flag that shutdown raises (without that lock) is loaded:
    [true] when the creation goes on, with the lock held. *)
Definition begin_creation (s : Inner) : option (Inner * bool) :=
  if in_creating s then None
  else if in_shutting_down s then Some (s, false)
  else Some (set_creating true s, true).

(** The creation, the callback and the operation lock, with the registry still locked by this
    call; then it is unlocked. The value is [None] when the identifiers are exhausted. *)
Definition create_and_publish (before_publish : ProcessScopeId -> Inner -> Inner) (s : Inner) :
    option (Inner * option ProcessScopeId) :=
  if in_creating s then
    let s := set_creating false s in
    Some match registry_create_scope (in_registry s) with
         | None => (s, None)
         | Some (r, scope) =>
             let s := before_publish scope (set_registry r s) in
             (set_scope_operations ({[scope]} ∪ in_scope_operations s)
                (set_operations (<[scope := mkScopeOperation false None]> (in_operations s)) s),
              Some scope)
         end
  else None.

(** Shutdown may raise its flag between the two steps: then the scope is created all the same. *)
Definition try_create_scope_before_publish (before_publish : ProcessScopeId -> Inner -> Inner) :
    SProg (result ProcessScopeId ScopeCreationError) :=
  let! admitted := await begin_creation in
  if admitted then
    let! created := cancel_with (set_creating false) (await (create_and_publish before_publish)) in
    match created with
    | Some scope => Ret (Ok scope)
    | None => Panic "identifier overflow"
    end
  else Ret (Err SupervisorClosed).

Definition try_create_scope : SProg (result ProcessScopeId ScopeCreationError) :=
  try_create_scope_before_publish (fun _ s => s).

Definition expect_scope (p : SProg (result ProcessScopeId ScopeCreationError)) : SProg ProcessScopeId :=
  let! r := p in
  match r with
  | Ok scope => Ret scope
  | Err _ => Panic "cannot create a scope after supervisor shutdown starts"
  end.

Definition create_scope : SProg ProcessScopeId := expect_scope try_create_scope.

(** The channel's sender is stored under the scope and kept by the backstop. *)
Definition publish_watch (scope : ProcessScopeId) (s : Inner) : Inner :=
  set_scope_results ({[scope]} ∪ in_scope_results s)
    (set_watches (<[scope := mkWatch None 2]> (in_watches s)) s).

Definition try_create_observed_scope : SProg (result ProcessScopeId ScopeCreationError) :=
  try_create_scope_before_publish publish_watch.

Definition create_observed_scope : SProg ProcessScopeId := expect_scope try_create_observed_scope.

(** ** Reads *)

Definition supervisor_processes (scope : ProcessScopeId) (s : Inner) : option (list ProcessId) :=
  live_process_ids <$> registry_get (in_registry s) scope.

Definition scope_usage (scope : ProcessScopeId) : SProg (result ScopeUsage ObservationError) :=
  let! known := reads (supervisor_processes scope) in
  match known with
  | None => Ret (Err (ObservationBackend "unknown scope"))
  | Some _ => ask (BackendScopeUsage scope)
  end.

Definition tracked_os (pid : ProcessId) (s : Inner) : option OsIdentity :=
  process_os <$> find_process (in_registry s) pid.

Definition supervisor_os_pid (pid : ProcessId) : SProg (option Z) :=
  let! live := reads (tracked_os pid) in
  match live with
  | Some os => Ret (Some (os_pid os))
  | None => reads (fun s => os_history_get (in_os_pids s) pid)
  end.

Definition stats (pid : ProcessId) : SProg (result ProcessStats StatsError) :=
  reads (fun s =>
    match find_process (in_registry s) pid with
    | Some p =>
        if is_live (process_state p) then default (Err (StatsError_NotReady pid)) (in_samples s !! pid)
        else Err (StatsError_UnknownProcess pid)
    | None => Err (StatsError_UnknownProcess pid)
    end).

Definition take_output (pid : ProcessId) : SProg (option ProcessOutput) :=
  act (fun s =>
    let '(completed, outputs, output) := take_completed (in_completed s) (in_outputs s) pid in
    (observe_output (completed, outputs) s, output)).

(** ** The sampler *)

(** The targets of a tick: every live process, with its OS identity. [None] is a failed
    [expect]. *)
Definition sampler_targets (r : ScopeRegistry) : option (list (ProcessId * Spawned)) :=
  mjoin <$> mapM (fun id =>
    sc ← registry_get r id;
    mapM (fun pid => p ← scope_get sc pid; Some (pid, mkSpawned (process_os p))) (live_process_ids sc))
    (scope_ids r).

(** The observations in flight after a tick: those of processes no longer live are aborted,
    and each live process that has none gets one. *)
Definition sampler_tick (targets : list (ProcessId * Spawned)) (pending : list (ProcessId * Spawned * bool)) :
    list (ProcessId * Spawned * bool) :=
  let live := targets.*1 in
  let active := pending.*1.*1 in
  map (fun x => (x.1, x.2 || negb (bool_decide (x.1.1 ∈ live)))) pending ++
  map (fun x => (x, false)) (List.filter (fun x => negb (bool_decide (x.1 ∈ active))) targets).

(** The outcome of one observation; [None] when it was aborted. *)
Definition observed_sample (o : observation) : option (result RawStats StatsError) :=
  match o with
  | Observed (Returned r) => Some r
  | Observed Unwound => Some (Err (StatsError_Backend "sampler panicked"))
  | ObservationTimeout => Some (Err (StatsError_Backend "sampler timeout"))
  | ObservationAborted => None
  end.

(** Publish a sample unless the process is no longer live, under the registry lock. *)
Definition insert_sample (pid : ProcessId) (sample : result ProcessStats StatsError) (s : Inner) : Inner :=
  match find_process (in_registry s) pid with
  | Some p =>
      if is_live (process_state p) then set_samples (<[pid := sample]> (in_samples s)) s else s
  | None => s
  end.

Definition record_sample (pid : ProcessId) (r : result RawStats StatsError) : SProg unit :=
  match r with
  | Ok raw =>
      let! start := reads (fun s => in_spawn_times s !! pid) in
      let! uptime := match start with
                     | Some start => let! now := call ClockNow in Ret (duration_saturating_sub now start)
                     | None => Ret 0
                     end in
      modify (insert_sample pid (Ok (stats_from_raw pid raw uptime)))
  | Err e => modify (insert_sample pid (Err e))
  end.

Definition sampler_event (interval : Duration) (pending : list (ProcessId * Spawned * bool)) :
    SProg (unit + (nat * observation)) :=
  match pending with
  | [] => let! u := ask (IntervalTick interval) in Ret (inl u)
  | _ => select2 (Answer (IntervalTick interval)) (Answer (BackendSampled (pending.*1)))
  end.

(** One turn of the sampler's loop. The task holds a weak reference: a supervisor that is gone
    has no state left to observe. *)
Definition sampler_task (pending : list (ProcessId * Spawned * bool)) : SProg unit :=
  cancel_with (set_sampler_ended true)
    (let! interval := reads in_stats_interval in
     let! event := sampler_event interval pending in
     match event with
     | inl _ =>
         let! targets := reads (fun s => sampler_targets (in_registry s)) in
         match targets with
         | Some targets => fork (TaskSampler (sampler_tick targets pending))
         | None => Panic "scope exists"
         end
     | inr (i, observed) =>
         match pending !! i with
         | None => fork (TaskSampler pending)
         | Some (pid, _, _) =>
             match observed_sample observed with
             | Some r => record_sample pid r
             | None => Ret tt
             end ;;;
             fork (TaskSampler (delete i pending))
         end
     end).

Definition start_sampler : SProg unit :=
  let! started := act (fun s => (set_sampler_started true s, in_sampler_started s)) in
  if started then Ret tt
  else
    fork (TaskSampler []) ;;;
    let! locked := reads in_sampler_locked in
    if locked then Panic "sampler startup serialized with shutdown"
    else modify (set_sampler_task true).

(** ** The monitor of a process *)

Definition failed_wait : RawExit := mkRawExit None None false.

(** The outcome a monitor records, from what happened. *)
Definition monitor_outcome (wait_failed terminating : bool) (raw : RawExit) : TerminationOutcome :=
  if wait_failed then CleanupUnverified ReapFailed
  else if negb terminating then ExitedNaturally
  else if bool_decide (raw_signal raw = Some Kill) then ForcedRequired
  else GracefulSuccess.

Definition monitor_exit (pid : ProcessId) (p : Process) (waited : result RawExit WaitError) : ProcessExit :=
  let '(raw, wait_failed) :=
    match waited with Ok raw => (raw, false) | Err _ => (failed_wait, true) end in
  mkProcessExit pid (raw_code raw) (raw_signal raw)
    (monitor_outcome wait_failed (is_terminating (process_state p)) raw)
    (bool_decide (raw_signal raw = Some Kill)).

(** The monitor's critical section under the registry lock: [None] when the scope or the
    process is gone, else the events to dispatch. *)
Definition monitor_record (scope : ProcessScopeId) (pid : ProcessId) (waited : result RawExit WaitError)
    (s : Inner) : Inner * option (list DomainEvent) :=
  match registry_get (in_registry s) scope with
  | None => (s, None)
  | Some sc =>
      match scope_get sc pid with
      | None => (s, None)
      | Some p =>
          let exit := monitor_exit pid p waited in
          let '(sc1, exited) := record_exit sc pid in
          let '(sc2, reaped) := record_reaped sc1 pid exit in
          let events := events_of exited ++ events_of reaped in
          let s := set_registry (registry_set (in_registry s) scope sc2) s in
          let s := if negb (is_open sc2)
                   then insert_pending scope (<[pid := exit_outcome exit]>) s else s in
          (s, Some (without_closed events))
      end
  end.

Definition caught (message : string) (r : unwound (result RawExit WaitError)) : result RawExit WaitError :=
  match r with Returned r => r | Unwound => Err (WaitError_Backend message) end.

Definition monitor_task (scope : ProcessScopeId) (pid : ProcessId) (spawned : Spawned) : SProg unit :=
  let! answered := ask (BackendWait spawned) in
  let waited := caught "waiter panicked" answered in
  let! events := act (monitor_record scope pid waited) in
  match events with
  | None => Ret tt
  | Some events =>
      modify (fun s => set_samples (delete pid (in_samples s)) s) ;;;
      (if result_is_ok waited then modify (retain_completed_output pid) else Ret tt) ;;;
      dispatch_events events ;;;
      modify (fun s => set_spawn_times (delete pid (in_spawn_times s)) s)
  end.

(** ** Spawning *)

(** Without a handler of its own, a panic of the backend's [wait] unwinds the caller. *)
Definition kill_orphan (spawned : Spawned) : SProg unit :=
  ask (BackendSignal spawned Kill) ;;;
  let! answered := ask (BackendWait spawned) in
  match answered with Returned _ => Ret tt | Unwound => Panic "backend wait panicked" end.

Inductive Attach : Type :=
| AttachOk (pid : ProcessId) (events : list DomainEvent)
| AttachClosed
| AttachUnknown
| AttachOverflow.

(** The attachment of a spawned process, under the registry lock. *)
Definition attach (scope : ProcessScopeId) (spawned : Spawned) (spec : ProcessSpec) (s : Inner) : Inner * Attach :=
  match next_process_id (in_registry s) with
  | None => (s, AttachOverflow)
  | Some (r, pid) =>
      match registry_get r scope with
      | None => (set_registry r s, AttachUnknown)
      | Some sc =>
          let '(sc', attached) := attach_spawned sc pid (spawned_os spawned) spec in
          let s := set_registry (registry_set r scope sc') s in
          match attached with
          | Ok event =>
              (set_attached (<[pid := (scope, spawned_os spawned)]> (in_attached s)) (record_call (DidAttach pid) s),
               AttachOk pid [event])
          | Err _ => (s, AttachClosed)
          end
      end
  end.

(** The admission test of a spawn that holds the operation lock. *)
Definition admit_spawn (scope : ProcessScopeId) (r : ScopeRegistry) : result unit SpawnError :=
  match registry_get r scope with
  | None => Err (SpawnError_UnknownScope scope)
  | Some sc => if is_open sc then Ok tt else Err (SpawnError_ScopeClosed scope)
  end.

(** After the attachment: observation, ownership monitoring, then dispatch. *)
Definition spawn_attached (scope : ProcessScopeId) (pid : ProcessId) (spawned : Spawned)
    (events : list DomainEvent) (admission : option nat) : SProg (result ProcessId SpawnError) :=
  let! now := call ClockNow in
  modify (fun s => set_spawn_times (<[pid := now]> (in_spawn_times s)) s) ;;;
  modify (fun s => set_os_pids (remember (in_os_pids s) pid (os_pid (spawned_os spawned))) s) ;;;
  let! output := call (BackendOutput spawned) in
  match admission, output with
  | Some admission, _ =>
      let! exit := act (waiters_wait pid) in
      modify (fun s => set_admissions (<[admission := mkSpawnObservation pid output exit]> (in_admissions s)) s)
  | None, Some output => modify (fun s => set_outputs (<[pid := output]> (in_outputs s)) s)
  | None, None => Ret tt
  end ;;;
  fork (TaskMonitor scope pid spawned) ;;;
  start_sampler ;;;
  dispatch_events events ;;;
  Ret (Ok pid).

Definition spawn_admitted (scope : ProcessScopeId) (spec : ProcessSpec) (admission : option nat) :
    SProg (result ProcessId SpawnError) :=
  let! answered := ask (BackendSpawn scope spec) in
  match answered with
  | Err e => Ret (Err e)
  | Ok spawned =>
      let! dropped := reads in_owners_dropped in
      if dropped then
        call BackendHardKillAll ;;;
        kill_orphan spawned ;;;
        Ret (Err (SpawnError_ScopeClosed scope))
      else
        let! attached := act (attach scope spawned spec) in
        match attached with
        | AttachOk pid events => spawn_attached scope pid spawned events admission
        | AttachClosed => kill_orphan spawned ;;; Ret (Err (SpawnError_ScopeClosed scope))
        | AttachUnknown => kill_orphan spawned ;;; Ret (Err (SpawnError_UnknownScope scope))
        | AttachOverflow => Panic "identifier overflow"
        end
  end.

Definition spawn_owned (scope : ProcessScopeId) (spec : ProcessSpec) (admission : option nat) :
    SProg (result ProcessId SpawnError) :=
  let! known := reads (scope_operation scope) in
  if negb known then
    let! closed := reads (has_report scope) in
    Ret (Err (if closed then SpawnError_ScopeClosed scope else SpawnError_UnknownScope scope))
  else with_operation scope (fun serial =>
    match serial with
    | Some _ => Ret (Err (SpawnError_ScopeClosed scope))
    | None =>
        let! down := reads in_shutting_down in
        if down then Ret (Err (SpawnError_ScopeClosed scope)) else
        let! closed := reads (has_report scope) in
        if closed then Ret (Err (SpawnError_ScopeClosed scope)) else
        let! admitted := reads (fun s => admit_spawn scope (in_registry s)) in
        match admitted with
        | Err e => Ret (Err e)
        | Ok _ => spawn_admitted scope spec admission
        end
    end).

(** The spawn worker, with what its [JoinHandle] reports. *)
Definition spawn_task (handle : nat) (scope : ProcessScopeId) (spec : ProcessSpec) (admission : option nat) :
    SProg unit :=
  cancel_with (fun s => set_spawns (<[handle := Err "task was cancelled"]> (in_spawns s)) s)
    (let! r := catch (spawn_owned scope spec admission) in
     modify (fun s => set_spawns (<[handle := r]> (in_spawns s)) s)).

Definition joined_spawn (handle : nat) : SProg (result ProcessId SpawnError) :=
  let! r := await (fun s => r ← in_spawns s !! handle; Some (s, r)) in
  match r with
  | Ok r => Ret r
  | Err e => Ret (Err (SpawnError_Os ("spawn worker failed: " +:+ e)))
  end.

Definition supervisor_spawn (scope : ProcessScopeId) (spec : ProcessSpec) : SProg (result ProcessId SpawnError) :=
  let! handle := act (new_worker (SpawnsInto scope)) in
  fork (TaskSpawn handle scope spec None) ;;;
  joined_spawn handle.

(** [spawn_observed] and [ObservedSpawn]: the handle names the join handle and the admission
    channel of its worker. *)
Definition spawn_observed (scope : ProcessScopeId) (spec : ProcessSpec) : SProg nat :=
  let! handle := act (new_worker (SpawnsInto scope)) in
  fork (TaskSpawn handle scope spec (Some handle)) ;;;
  Ret handle.

Definition take_admission (handle : nat) (s : Inner) : Inner * option (SpawnObservation F) :=
  (set_admissions (delete handle (in_admissions s)) s, in_admissions s !! handle).

(** [completion] is [self.completion.is_some()]: a completion can be consumed once. *)
Definition observed_complete (completion : bool) (handle : nat) : SProg (result (SpawnObservation F) SpawnError) :=
  if negb completion then Ret (Err (SpawnError_Os "observed spawn completion already consumed")) else
  let! r := joined_spawn handle in
  match r with
  | Err e => Ret (Err e)
  | Ok _ =>
      let! o := act (take_admission handle) in
      match o with
      | Some o => Ret (Ok o)
      | None => Ret (Err (SpawnError_Os "observed spawn admission already consumed or unavailable"))
      end
  end.

(** ** Waiting for one process *)

Inductive WaitRegistration : Type :=
| WaitDone (r : result ProcessExit WaitError)
| WaitOn (f : F).

(** The registration, under the registry lock. *)
Definition wait_register (pid : ProcessId) (s : Inner) : Inner * WaitRegistration :=
  match scope_of_get (in_registry s) pid with
  | None => (s, WaitDone (ok_or (try_get (in_waiters s) pid) (WaitError_UnknownProcess pid)))
  | Some sc =>
      match p ← scope_get sc pid; process_exit p with
      | Some exit => (s, WaitDone (Ok exit))
      | None => let '(s, f) := waiters_wait pid s in (s, WaitOn f)
      end
  end.

Definition supervisor_wait (pid : ProcessId) : SProg (result ProcessExit WaitError) :=
  let! known := reads (fun s => try_get (in_waiters s) pid) in
  match known with
  | Some exit => Ret (Ok exit)
  | None =>
      let! r := act (wait_register pid) in
      match r with
      | WaitDone r => Ret r
      | WaitOn f => let! exit := await (exit_ready f) in Ret (Ok exit)
      end
  end.

(** ** Terminating one process *)

(** [.filter(|exit| exit.outcome.is_verified())]. *)
Definition verified_exit (o : option ProcessExit) : option ProcessExit :=
  match o with Some exit => if is_verified (exit_outcome exit) then Some exit else None | None => None end.

Definition recovered_exit (pid : ProcessId) (raw : RawExit) : ProcessExit :=
  let killed := bool_decide (raw_signal raw = Some Kill) in
  mkProcessExit pid (raw_code raw) (raw_signal raw)
    (if killed then ForcedRequired else GracefulSuccess) killed.

(** The recovery's critical section under the registry lock: the exit it settles on and the
    events to dispatch. *)
Definition recover (scope : ProcessScopeId) (pid : ProcessId) (raw : RawExit) (s : Inner) :
    Inner * result (ProcessExit * list DomainEvent) TerminateError :=
  let exit := recovered_exit pid raw in
  let settle exit events s :=
    (signal_waiters pid exit (retain_completed_output pid s), Ok (exit, without_closed events)) in
  match registry_get (in_registry s) scope with
  | None => settle exit [] s
  | Some sc =>
      match scope_get sc pid with
      | None => settle exit [] s
      | Some p =>
          match verified_exit (process_exit p) with
          | Some previous => settle previous [] s
          | None =>
              let '(sc', r) := record_reaped sc pid exit in
              let s := set_registry (registry_set (in_registry s) scope sc') s in
              match r with
              | Err e => (s, Err (TerminateError_Domain e))
              | Ok events =>
                  settle exit events
                    (if negb (is_open sc') then insert_pending scope (<[pid := exit_outcome exit]>) s else s)
              end
          end
      end
  end.

Definition record_recovered_exit (scope : ProcessScopeId) (pid : ProcessId) (raw : RawExit) :
    SProg (result ProcessExit TerminateError) :=
  let! r := act (recover scope pid raw) in
  match r with
  | Err e => Ret (Err e)
  | Ok (exit, events) => dispatch_events events ;;; Ret (Ok exit)
  end.

Definition unverified_exit (pid : ProcessId) (reason : UnverifiedReason) : ProcessExit :=
  mkProcessExit pid None None (CleanupUnverified reason) true.

(** The end of a retry: the second observation's result, [None] when it timed out. *)
Definition retry_result (scope : ProcessScopeId) (pid : ProcessId) (timeout : Duration)
    (observed : option (result RawExit WaitError)) : SProg (result ProcessExit TerminateError) :=
  match observed with
  | Some (Ok raw) => record_recovered_exit scope pid raw
  | Some (Err _) => Ret (Ok (unverified_exit pid ReapFailed))
  | None => Ret (Ok (unverified_exit pid (WaitTimedOut timeout)))
  end.

Definition retry_quarantined (scope : ProcessScopeId) (pid : ProcessId) (spawned : Spawned)
    (graceful : Signal) (opts : TerminateOptions) : SProg (result ProcessExit TerminateError) :=
  ask (BackendSignal spawned graceful) ;;;
  let! first := select2 (Answer (BackendWait spawned)) (Answer (ClockSleep (opt_grace opts))) in
  let observed :=
    match first with inl r => Some (caught "retry waiter panicked" r) | inr _ => None end in
  match observed with
  | Some (Ok raw) => record_recovered_exit scope pid raw
  | _ =>
      match observed with Some _ => ask (ClockSleep (opt_grace opts)) | None => Ret tt end ;;;
      ask (BackendSignal spawned Kill) ;;;
      match opt_force_timeout opts with
      | Some timeout =>
          let! r := select2 (Answer (BackendWait spawned)) (Answer (ClockSleep timeout)) in
          retry_result scope pid timeout
            match r with inl r => Some (caught "retry waiter panicked" r) | inr _ => None end
      | None =>
          let! r := ask (BackendWait spawned) in
          retry_result scope pid 0 (Some (caught "retry waiter panicked" r))
      end
  end.

Inductive TerminateRequest : Type :=
| RequestDone (r : result ProcessExit TerminateError)
| RequestPanic (message : string)
| RequestMade (scope : ProcessScopeId) (spawned : Spawned) (graceful : Signal)
    (events : list DomainEvent) (quarantined : bool) (exit_future : F).

(** Its second half: the request itself, and the exit future. *)
Definition request_after (scope : ProcessScopeId) (sc : ProcessScope) (pid : ProcessId) (p : Process)
    (quarantined : bool) (s : Inner) : Inner * TerminateRequest :=
  let '(sc', r) := request_termination sc pid in
  let s := set_registry (registry_set (in_registry s) scope sc') s in
  match r with
  | Err e => (s, RequestDone (Err (TerminateError_Domain e)))
  | Ok events =>
      let '(s, f) := waiters_wait pid s in
      (s, RequestMade scope (mkSpawned (process_os p)) (spec_graceful_signal (process_spec p)) events quarantined f)
  end.

(** The request's critical section under the registry lock. *)
Definition terminate_request (pid : ProcessId) (s : Inner) : Inner * TerminateRequest :=
  match scope_of (in_registry s) pid with
  | None => (s, RequestDone (ok_or (try_get (in_waiters s) pid) (TerminateError_UnknownProcess pid)))
  | Some scope =>
      match registry_get (in_registry s) scope with
      | None => (s, RequestPanic "scope exists")
      | Some sc =>
          match scope_get sc pid with
          | None => (s, RequestDone (Err (TerminateError_UnknownProcess pid)))
          | Some p =>
              match process_exit p with
              | Some exit =>
                  if is_verified (exit_outcome exit) then (s, RequestDone (Ok exit))
                  else request_after scope sc pid p true s
              | None => request_after scope sc pid p false s
              end
          end
      end
  end.

Definition verified_known (pid : ProcessId) (s : Inner) : option ProcessExit :=
  verified_exit (try_get (in_waiters s) pid).

(** The escalation, under the registry lock; its result is ignored. *)
Definition escalate (scope : ProcessScopeId) (pid : ProcessId) (s : Inner) : Inner :=
  update_scope scope (fun sc => (escalate_termination sc pid).1) s.

(** The force phase, and the wait that is bounded by the force timeout. *)
Definition force_phase (scope : ProcessScopeId) (pid : ProcessId) (spawned : Spawned)
    (opts : TerminateOptions) (exit_future : F) : SProg (result ProcessExit TerminateError) :=
  modify (escalate scope pid) ;;;
  ask (BackendSignal spawned Kill) ;;;
  match opt_force_timeout opts with
  | Some timeout =>
      let! r := select2 (Ready (exit_ready exit_future)) (Answer (ClockSleep timeout)) in
      Ret (Ok match r with inl exit => exit | inr _ => unverified_exit pid (WaitTimedOut timeout) end)
  | None => let! exit := await (exit_ready exit_future) in Ret (Ok exit)
  end.

Definition terminate (pid : ProcessId) (opts : TerminateOptions) : SProg (result ProcessExit TerminateError) :=
  let! known := reads (verified_known pid) in
  match known with
  | Some exit => Ret (Ok exit)
  | None =>
      let! request := act (terminate_request pid) in
      match request with
      | RequestDone r => Ret r
      | RequestPanic message => Panic message
      | RequestMade scope spawned graceful events quarantined exit_future =>
          if quarantined then retry_quarantined scope pid spawned graceful opts
          else
            dispatch_events events ;;;
            let! known := reads (fun s => try_get (in_waiters s) pid) in
            match known with
            | Some exit =>
                if is_verified (exit_outcome exit) then Ret (Ok exit)
                else retry_quarantined scope pid spawned graceful opts
            | None =>
                ask (BackendSignal spawned graceful) ;;;
                let! r := select2 (Ready (exit_ready exit_future)) (Answer (ClockSleep (opt_grace opts))) in
                match r with
                | inl exit => Ret (Ok exit)
                | inr _ => force_phase scope pid spawned opts exit_future
                end
            end
      end
  end.

(** ** Terminating a scope *)

(** One observer per tracked process: its recorded exit, or a registered wait. *)
Fixpoint register_observers (sc : ProcessScope) (pids : list ProcessId) (s : Inner) :
    Inner * list (ProcessId * Observer F) :=
  match pids with
  | [] => (s, [])
  | pid :: pids =>
      let '(s, o) :=
        match p ← scope_get sc pid; process_exit p with
        | Some exit => (s, ObserverReady exit)
        | None => let '(s, f) := waiters_wait pid s in (s, ObserverWait f)
        end in
      let '(s, l) := register_observers sc pids s in (s, (pid, o) :: l)
  end.

(** The exits already recorded in the scope. *)
Definition recorded_exits (sc : ProcessScope) : list (ProcessId * TerminationOutcome) :=
  omap (fun pid => p ← scope_get sc pid; exit ← process_exit p; Some (pid, exit_outcome exit)) (process_ids sc).

(** [.entry(pid).or_insert(outcome)] for each of them. *)
Definition retain_exits (exits : list (ProcessId * TerminationOutcome)) (m : gmap ProcessId TerminationOutcome) :
    gmap ProcessId TerminationOutcome :=
  foldl (fun m x => match m !! x.1 with Some _ => m | None => <[x.1 := x.2]> m end) m exits.

(** The start of a cleanup, under the registry lock: the scope drains, and every process it
    still tracks is observed. *)
Definition begin_cleanup (scope : ProcessScopeId) (s : Inner) :
    Inner * result (list DomainEvent * list (ProcessId * Observer F)) TerminateError :=
  match registry_get (in_registry s) scope with
  | None => (s, Err (TerminateError_UnknownScope scope))
  | Some sc =>
      let '(sc, events) := begin_scope_termination sc in
      let s := set_registry (registry_set (in_registry s) scope sc) s in
      let exits := recorded_exits sc in
      let s := match exits with [] => s | _ => insert_pending scope (retain_exits exits) s end in
      let '(s, live) := register_observers sc (process_ids sc) s in
      (s, Ok (without_closed events, live))
  end.

(** A termination worker: the observer is polled first; an unverified exit only ends the
    select when it came from the termination. *)
Definition worker_task (handle : nat) (pid : ProcessId) (observer : Observer F) (opts : TerminateOptions) : SProg unit :=
  cancel_with (fun s => set_joined (<[handle := Err "task was cancelled"]> (in_joined s)) s)
    (let! r := catch (select_biased (observer_ready observer)
                        (fun exit => if is_verified (exit_outcome exit) then Some (Ok exit) else None)
                        (terminate pid opts)) in
     modify (fun s => set_joined
       (<[handle := match r with Ok result => Ok (pid, result) | Err e => Err e end]> (in_joined s)) s)).

(** [set.spawn]. *)
Fixpoint spawn_workers (live : list (ProcessId * Observer F)) (opts : TerminateOptions) : SProg (list nat) :=
  match live with
  | [] => Ret []
  | (pid, observer) :: live =>
      let! handle := act (new_worker (Terminates pid)) in
      fork (TaskTerminate handle pid observer opts) ;;;
      let! handles := spawn_workers live opts in
      Ret (handle :: handles)
  end.

(** [set.join_next()]: the first finished worker of the set. *)
Fixpoint join_next (handles : list nat) (s : Inner) :
    option (Inner * (nat * result (ProcessId * result ProcessExit TerminateError) string)) :=
  match handles with
  | [] => None
  | h :: handles =>
      match in_joined s !! h with
      | Some r => Some (s, (h, r))
      | None => join_next handles s
      end
  end.

Definition worker_outcome (r : result ProcessExit TerminateError) : TerminationOutcome :=
  match r with Ok exit => exit_outcome exit | Err _ => CleanupUnverified ProcessDisappeared end.

(** [while let Some(joined) = set.join_next().await { .. }]: [n] workers are left. *)
Fixpoint join_workers (scope : ProcessScopeId) (n : nat) (handles : list nat) : SProg (option TerminateError) :=
  match n with
  | O => Ret None
  | S n =>
      let! (h, joined) := await (join_next handles) in
      match joined with
      | Ok (pid, r) =>
          modify (insert_pending scope (merge_outcome pid (worker_outcome r))) ;;;
          join_workers scope n (List.filter (fun x => negb (x =? h)%nat) handles)
      | Err error => Ret (Some (TerminateError_Signal ("termination worker failed: " +:+ error)))
      end
  end.

(** One outcome after the sweep: an unverified one is observed again. *)
Definition reobserve (opts : TerminateOptions) (x : ProcessId * TerminationOutcome) :
    SProg (ProcessId * TerminationOutcome) :=
  let '(pid, outcome) := x in
  if is_verified outcome then Ret (pid, outcome)
  else
    let! waited := match opt_force_timeout opts with
                   | Some t => timeout (TimerElapsed t) (supervisor_wait pid)
                   | None => let! r := supervisor_wait pid in Ret (Some r)
                   end in
    Ret match waited with Some (Ok exit) => (pid, exit_outcome exit) | _ => (pid, outcome) end.

(** Merging the observed outcomes into the retained ones; the result sorted by process id. *)
Definition merge_outcomes (scope : ProcessScopeId) (outcomes : list (ProcessId * TerminationOutcome)) (s : Inner) :
    Inner * list (ProcessId * TerminationOutcome) :=
  let s := insert_pending scope (fun m => foldl (fun m x => merge_outcome x.1 x.2 m) m outcomes) s in
  (s, bt_entries (default ∅ (in_pending_outcomes s !! scope))).

(** The report of a verified scope, retained as the newest of a bounded history. *)
Definition publish_to_watch (scope : ProcessScopeId) (r : result ScopeTerminationReport TerminateError) (s : Inner) : Inner :=
  match in_watches s !! scope with
  | Some w =>
      set_watches (<[scope := mkWatch (publish_scope_cleanup_result (watch_value w) r) (watch_senders w)]> (in_watches s)) s
  | None => s
  end.

(** Dropping a sender. *)
Definition drop_sender (scope : ProcessScopeId) (s : Inner) : Inner :=
  match in_watches s !! scope with
  | Some w => set_watches (<[scope := mkWatch (watch_value w) (watch_senders w - 1)]> (in_watches s)) s
  | None => s
  end.

(** [while completed.len() > 256 { scope_results.remove(&completed.pop_front()) }]. *)
Fixpoint evict_scope_results (fuel : nat) (s : Inner) : Inner :=
  match fuel with
  | O => s
  | S fuel =>
      if (COMPLETED_BOUND <? length (in_completed_scope_results s))%nat then
        match in_completed_scope_results s with
        | old :: rest =>
            evict_scope_results fuel
              (drop_sender old (set_scope_results (in_scope_results s ∖ {[old]}) (set_completed_scope_results rest s)))
        | [] => s
        end
      else s
  end.

Definition complete_scope_result (scope : ProcessScopeId) (s : Inner) : Inner :=
  let s := set_completed_scope_results (in_completed_scope_results s ++ [scope]) s in
  evict_scope_results (length (in_completed_scope_results s)) s.

Definition complete_scope (scope : ProcessScopeId) (s : Inner) : Inner :=
  let '(completed, reports) :=
    push_bounded SCOPE_REPORT_HISTORY_BOUND (in_completed_scopes s) (in_reports s) scope in
  set_committing (in_committing s ∖ {[scope]}) (set_completed_scopes completed (set_reports reports s)).

(** [reports.insert(..)] and [registry.remove(scope)]: until [complete_scope], the commit of the
    scope is under way ([in_committing]). *)
Definition retain_scope_report (scope : ProcessScopeId) (report : ScopeTerminationReport) (s : Inner) : Inner :=
  set_committing ({[scope]} ∪ in_committing s) (set_reports (<[scope := retain report]> (in_reports s)) s).

Definition remove_scope (scope : ProcessScopeId) (s : Inner) : Inner :=
  set_committing ({[scope]} ∪ in_committing s) (set_registry (registry_remove (in_registry s) scope) s).

(** A verified report is kept for in-flight callers, published, retained, and only then is the
    scope forgotten. Nothing here suspends. *)
Definition commit_report (scope : ProcessScopeId) (report : ScopeTerminationReport) : SProg unit :=
  modify (set_serial scope report) ;;;
  let! sender := reads (fun s => bool_decide (scope ∈ in_scope_results s)) in
  (if sender then
     modify (publish_to_watch scope (Ok report)) ;;;
     modify (complete_scope_result scope)
   else Ret tt) ;;;
  modify (retain_scope_report scope report) ;;;
  modify (remove_scope scope) ;;;
  modify (fun s => set_scope_operations (in_scope_operations s ∖ {[scope]}) s) ;;;
  modify (fun s => set_pending_outcomes (delete scope (in_pending_outcomes s)) s) ;;;
  modify (complete_scope scope) ;;;
  fork (TaskScopeClosed scope).

(** After the workers: the containment sweep, the second observation, the report. *)
Definition sweep_and_report (scope : ProcessScopeId) (opts : TerminateOptions) :
    SProg (result ScopeTerminationReport TerminateError) :=
  let! swept := ask (BackendCleanupScope scope) in
  match swept with
  | Err e => Ret (Err e)
  | Ok _ =>
      let! outcomes := reads (fun s => map_to_list (default ∅ (in_pending_outcomes s !! scope))) in
      let! outcomes := map_each outcomes (reobserve opts) in
      let! outcomes := act (merge_outcomes scope outcomes) in
      let report := mkReport scope outcomes in
      (if report_all_verified report then commit_report scope report else Ret tt) ;;;
      Ret (Ok report)
  end.

Definition terminate_scope_locked (scope : ProcessScopeId) (opts : TerminateOptions)
    (serial : option ScopeTerminationReport) : SProg (result ScopeTerminationReport TerminateError) :=
  match serial with
  | Some report => Ret (Ok report)
  | None =>
      let! known := reads (retained scope) in
      match known with
      | Some report => Ret (Ok report)
      | None =>
          let! begun := act (begin_cleanup scope) in
          match begun with
          | Err e => Ret (Err e)
          | Ok (events, live) =>
              dispatch_events events ;;;
              let! handles := spawn_workers live opts in
              let! failed := join_workers scope (length handles) handles in
              match failed with
              | Some e => Ret (Err e)
              | None => sweep_and_report scope opts
              end
          end
      end
  end.

Definition terminate_scope_operation (scope : ProcessScopeId) (opts : TerminateOptions) :
    SProg (result ScopeTerminationReport TerminateError) :=
  with_operation scope (terminate_scope_locked scope opts).

Definition terminate_scope (scope : ProcessScopeId) (opts : TerminateOptions) :
    SProg (result ScopeTerminationReport TerminateError) :=
  let! known := reads (retained scope) in
  match known with
  | Some report => Ret (Ok report)
  | None =>
      let! operation := reads (scope_operation scope) in
      if operation then terminate_scope_operation scope opts
      else
        let! known := reads (retained scope) in
        Ret (ok_or known (TerminateError_UnknownScope scope))
  end.

(** ** Shutdown *)

(** The scopes with their operations, under the registry and operation-map locks; [None] is
    the failed [expect]. *)
Definition shutdown_snapshot (s : Inner) : option (list ProcessScopeId) :=
  mapM (fun scope => if decide (scope ∈ in_scope_operations s) then Some scope else None)
    (scope_ids (in_registry s)).

(** Taken once the registry is free: not in the middle of a creation. *)
Definition lock_snapshot (s : Inner) : option (Inner * option (list ProcessScopeId)) :=
  if in_creating s then None else Some (s, shutdown_snapshot s).

Fixpoint terminate_all (scopes : list ProcessScopeId) : SProg (list ScopeTerminationReport * nat) :=
  match scopes with
  | [] => Ret ([], 0%nat)
  | scope :: scopes =>
      let! r := terminate_scope_operation scope terminate_default in
      let! (reports, unverified) := terminate_all scopes in
      Ret match r with
          | Ok report => (report :: reports, if report_all_verified report then unverified else S unverified)
          | Err _ => (reports, S unverified)
          end
  end.

(** Joining the sampler under its lock. *)
Definition join_sampler : SProg unit :=
  await (fun s => if in_sampler_locked s then None else Some (set_sampler_locked true s, tt)) ;;;
  guarded (set_sampler_locked false)
    (let! running := reads in_sampler_task in
     if running then
       modify (set_sampler_aborted true) ;;;
       await (fun s => if in_sampler_ended s then Some (s, tt) else None) ;;;
       modify (set_sampler_task false)
     else Ret tt).

Definition shutdown : SProg (result ShutdownReport ShutdownError) :=
  modify (set_shutting_down true) ;;;
  await (fun s => if in_shutdown_locked s then None else Some (set_shutdown_locked true s, tt)) ;;;
  guarded (set_shutdown_locked false)
    (let! scopes := await lock_snapshot in
     match scopes with
     | None => Panic "registered scope operation"
     | Some scopes =>
         let! (reports, unverified) := terminate_all scopes in
         if (0 <? unverified)%nat then Ret (Err (ShutdownUnverified unverified))
         else join_sampler ;;; Ret (Ok (mkShutdownReport reports))
     end).

(** [CleanupGuard::drop]: the last user-facing handle is gone. *)
Definition drop_supervisor : SProg unit :=
  modify (set_owners_dropped true) ;;;
  modify (set_shutting_down true) ;;;
  call BackendHardKillAll.

(** ** Observed scopes and scoped blocks *)

Definition backstop_verified (scope : ProcessScopeId) (s : Inner) : option ScopeTerminationReport :=
  w ← in_watches s !! scope; verified_result (watch_value w).

Definition interrupted_error : TerminateError :=
  TerminateError_Signal "scope cleanup interrupted or unverified; synchronous backstop issued".

(** [ScopeCleanupBackstop::drop], armed; then its sender is dropped. *)
Definition drop_backstop (scope : ProcessScopeId) (s : Inner) : Inner :=
  drop_sender scope
    match backstop_verified scope s with
    | Some _ => s
    | None => publish_to_watch scope (Err interrupted_error) (record_call (DidHardKillScope scope) s)
    end.

(** [ScopeCleanupBackstop::complete] and the drop of the disarmed backstop. *)
Definition complete_backstop (scope : ProcessScopeId) (r : result ScopeTerminationReport TerminateError) (s : Inner) : Inner :=
  drop_sender scope (publish_to_watch scope r s).

Definition is_verified_result (r : result ScopeTerminationReport TerminateError) : bool :=
  match r with Ok report => report_all_verified report | Err _ => false end.

Definition finish_scope_cleanup (scope : ProcessScopeId) (opts : TerminateOptions) :
    SProg (result ScopeTerminationReport TerminateError) :=
  cancel_with (drop_backstop scope)
    (let! known := reads (backstop_verified scope) in
     let! result := match known with
                    | Some report => Ret (Ok report)
                    | None => terminate_scope scope opts
                    end in
     let! known := reads (backstop_verified scope) in
     let result := match known with Some report => Ok report | None => result end in
     (if is_verified_result result then Ret tt else call (BackendHardKillScope scope)) ;;;
     modify (complete_backstop scope result) ;;;
     Ret result).

(** [ObservedScope] dropped before [finish]. *)
Definition drop_observed_scope (scope : ProcessScopeId) : SProg unit := modify (drop_backstop scope).

Definition stopped_error : TerminateError := TerminateError_Signal "scope cleanup worker stopped".

(** [borrow_and_update().clone()] or [changed().await]: the published result, or the error of
    a channel without senders. *)
Definition watch_ready (scope : ProcessScopeId) (s : Inner) :
    option (Inner * result ScopeTerminationReport TerminateError) :=
  w ← in_watches s !! scope;
  match watch_value w with
  | Some r => Some (s, r)
  | None => if (watch_senders w =? 0)%nat then Some (s, Err stopped_error) else None
  end.

Definition wait_scope_cleanup (scope : ProcessScopeId) : SProg (result ScopeTerminationReport TerminateError) :=
  let! known := reads (fun s => bool_decide (scope ∈ in_scope_results s)) in
  if known then await (watch_ready scope) else Ret (Err (TerminateError_UnknownScope scope)).

(** The cleanup task of a scoped block: it waits for the block's guard, then finishes. *)
Definition scope_cleanup_task (scope : ProcessScopeId) (opts : TerminateOptions) : SProg unit :=
  cancel_with (fun s => set_cleanups (<[scope := Some "task was cancelled"]> (in_cleanups s)) s)
    (let! r := catch
       (cancel_with (drop_backstop scope)
          (await (fun s => if decide (scope ∈ in_finished s) then Some (s, tt) else None)) ;;;
        finish_scope_cleanup scope opts) in
     modify (fun s => set_cleanups
       (<[scope := match r with Ok _ => None | Err e => Some e end]> (in_cleanups s)) s)).

Definition cleanup_join_task (scope : ProcessScopeId) : SProg unit :=
  cancel_with (drop_sender scope)
    (let! failed := await (fun s => r ← in_cleanups s !! scope; Some (s, r)) in
     match failed with
     | Some error =>
         modify (publish_to_watch scope (Err (TerminateError_Signal ("scope cleanup worker failed: " +:+ error))))
     | None => Ret tt
     end ;;;
     modify (drop_sender scope)).

Fixpoint spawn_all (scope : ProcessScopeId) (specs : list ProcessSpec) (processes : list ProcessId) :
    SProg (list ProcessId * option SpawnError) :=
  match specs with
  | [] => Ret (processes, None)
  | spec :: specs =>
      let! r := supervisor_spawn scope spec in
      match r with
      | Ok pid => spawn_all scope specs (processes ++ [pid])
      | Err error => Ret (processes, Some error)
      end
  end.

(** *** The handle given to the closure *)

Definition scoped_new (scope : ProcessScopeId) (processes : list ProcessId) : SProg nat :=
  act (fun s =>
    let '(s, h) := new_handle s in
    (set_scoped (<[h := mkScopedProcesses scope processes (list_to_set processes)]> (in_scoped s)) s, h)).

(** A handle that was never made names scope 0, which never exists. *)
Definition scoped_handle (h : nat) (s : Inner) : ScopedProcesses :=
  default (mkScopedProcesses 0 [] ∅) (in_scoped s !! h).

Definition set_owned (h : nat) (owned : gset ProcessId) (s : Inner) : Inner :=
  match in_scoped s !! h with
  | Some c => set_scoped (<[h := mkScopedProcesses (sp_scope c) (sp_processes c) owned]> (in_scoped s)) s
  | None => s
  end.

(** The test of [owned.retain]. *)
Definition observable (scope : ProcessScopeId) (s : Inner) (pid : ProcessId) : bool :=
  match registry_get (in_registry s) scope with Some sc => scope_contains sc pid | None => false end
  || bool_decide (is_Some (in_outputs s !! pid))
  || match try_get (in_waiters s) pid with Some _ => true | None => false end.

(** [observable_owned]; the locks of the handle, the registry and the outputs are held. *)
Definition observable_owned (h : nat) (s : Inner) : Inner * gset ProcessId :=
  let c := scoped_handle h s in
  let owned := filter (fun pid => observable (sp_scope c) s pid = true) (sp_owned c) in
  (set_owned h owned s, owned).

Definition authorized_len (h : nat) : SProg nat :=
  let! owned := act (observable_owned h) in Ret (size owned).

Definition scoped_spawn (h : nat) (spec : ProcessSpec) : SProg (result ProcessId SpawnError) :=
  let! c := reads (scoped_handle h) in
  let! r := supervisor_spawn (sp_scope c) spec in
  match r with
  | Ok pid =>
      modify (fun s => let '(s, owned) := observable_owned h s in set_owned h ({[pid]} ∪ owned) s) ;;;
      Ret (Ok pid)
  | Err e => Ret (Err e)
  end.

Definition scoped_wait (h : nat) (pid : ProcessId) : SProg (result ProcessExit WaitError) :=
  let! owned := act (observable_owned h) in
  if decide (pid ∈ owned) then
    let! r := supervisor_wait pid in
    modify (fun s => (observable_owned h s).1) ;;;
    Ret r
  else Ret (Err (WaitError_UnknownProcess pid)).

Definition scoped_take_output (h : nat) (pid : ProcessId) : SProg (option ProcessOutput) :=
  let! owned := act (observable_owned h) in
  if decide (pid ∈ owned) then
    let! output := take_output pid in
    modify (fun s => (observable_owned h s).1) ;;;
    Ret output
  else Ret None.

Record WithScopeResult (A : Type) : Type := mkWithScopeResult {
  ws_scope : ProcessScopeId;
  ws_result : result A SpawnError;
  ws_termination : result ScopeTerminationReport TerminateError;
}.

(** [with_scope_options]; [closure] is the caller's code, which gets the handle. The guard
    [ScopeExit] fires on success, error, panic and cancellation alike. *)
Definition with_scope_options {A} (specs : list ProcessSpec) (opts : TerminateOptions)
    (closure : nat -> SProg A) : SProg (WithScopeResult A) :=
  let! scope := create_observed_scope in
  modify (fun s => match in_watches s !! scope with
                   | Some w => set_watches (<[scope := mkWatch (watch_value w) (watch_senders w + 1)]> (in_watches s)) s
                   | None => s
                   end) ;;;
  fork (TaskScopeCleanup scope opts) ;;;
  fork (TaskScopeCleanupJoin scope) ;;;
  let! result :=
    guarded (fun s => set_finished ({[scope]} ∪ in_finished s) s)
      (let! (processes, spawn_error) := spawn_all scope specs [] in
       match spawn_error with
       | Some error => Ret (Err error)
       | None => let! h := scoped_new scope processes in let! v := closure h in Ret (Ok v)
       end) in
  let! termination := await (watch_ready scope) in
  Ret {| ws_scope := scope; ws_result := result; ws_termination := termination |}.

(** ** The tasks *)

Definition task_body (t : Task F) : SProg unit :=
  match t with
  | TaskSpawn handle scope spec admission => spawn_task handle scope spec admission
  | TaskMonitor scope pid spawned => monitor_task scope pid spawned
  | TaskPublisher => publisher_task
  | TaskScopeClosed scope => dispatch_events [ScopeClosed scope]
  | TaskTerminate handle pid observer opts => worker_task handle pid observer opts
  | TaskSampler pending => sampler_task pending
  | TaskScopeCleanup scope opts => scope_cleanup_task scope opts
  | TaskScopeCleanupJoin scope => cleanup_join_task scope
  end.
End Supervisor.
