(* ===== verification/SupervisorInv.v ===== *)
(** * SupervisorInv: the invariant of a supervisor and what its steps may change

    [sup_inv] holds of every reachable state; [sup_rel] relates a state to every
    later one, whoever moved. Together they are the invariant and the rely-guarantee
    relation of the logic of Conc: a critical section is [ok] when it keeps both. *)

From stdpp Require Import base list gmap strings.
From S2P Require Import Prelude StdModel Values Process Scope Registry Waiters Ports History.
From S2P Require Import Conc State Dispatch Supervisor.

Open Scope Z_scope.

Section Inv.
Context {W F : Type} `{!WaitersPort W F, !WaitersLaws W F}.

Abbreviation Inner := (Inner W F) (only parsing).
Implicit Types (s : Inner) (scope : ProcessScopeId) (pid : ProcessId).

(** ** What the history says *)

(** [c] was answered after [pid] was attached (the history is newest first). *)
Definition called_after (s : Inner) (pid : ProcessId) (c : port_call) : Prop :=
  exists after before, in_calls s = after ++ before /\ c ∈ after /\ DidAttach pid ∈ before.

(** [pid] was attached to [scope] with the OS identity [os]. *)
Definition attached_as (s : Inner) (pid : ProcessId) (scope : ProcessScopeId) (os : OsIdentity) : Prop :=
  in_attached s !! pid = Some (scope, os) /\ DidAttach pid ∈ in_calls s.

(** The backend's [wait] on the OS identity that was attached as [pid] has answered an exit
    since the attachment. *)
Definition reaped (s : Inner) (pid : ProcessId) : Prop :=
  exists scope os raw, in_attached s !! pid = Some (scope, os) /\
    called_after s pid (DidWait (mkSpawned os) (Returned (Ok raw))).

(** A verified outcome is backed by that answer. *)
Definition backed (s : Inner) (pid : ProcessId) (o : TerminationOutcome) : Prop :=
  is_verified o = true -> reaped s pid.

(** The containment sweep of [scope] has succeeded. *)
Definition swept (s : Inner) (scope : ProcessScopeId) : Prop := DidCleanupScope scope (Ok tt) ∈ in_calls s.

Definition scope_at (s : Inner) (scope : ProcessScopeId) : option ProcessScope := scopes (in_registry s) !! scope.

Definition admits (s : Inner) (scope : ProcessScopeId) : Prop :=
  exists sc, scope_at s scope = Some sc /\ scope_state sc = Open.

(** [scope] was created, admits nothing more, and every process ever attached to it was reaped. *)
Definition settled (s : Inner) (scope : ProcessScopeId) : Prop :=
  (scope <= next_scope (in_registry s))%N /\ ~ admits s scope /\
  forall pid os, in_attached s !! pid = Some (scope, os) -> reaped s pid.

(** What a verified report of [scope] stands for. *)
Definition report_ok (s : Inner) (scope : ProcessScopeId) (r : ScopeTerminationReport) : Prop :=
  report_scope r = scope /\ report_all_verified r = true /\ settled s scope /\ swept s scope /\
  forall pid o, (pid, o) ∈ report_outcomes r -> reaped s pid.

Definition verified_report_ok (s : Inner) (scope : ProcessScopeId) (r : ScopeTerminationReport) : Prop :=
  report_all_verified r = true -> report_ok s scope r.

(** A future of the waiters for [pid] can only give backed exits. *)
Definition fut_ok (s : Inner) (f : F) (pid : ProcessId) : Prop :=
  fut_of (in_waiters s) f pid /\
  forall e, poll (in_waiters s) f = Some e -> backed s pid (exit_outcome e).

Definition observation_ok (s : Inner) (o : SpawnObservation F) : Prop :=
  is_Some (in_attached s !! so_pid o) /\ fut_ok s (so_exit o) (so_pid o).

(** The scoped handle [h] was given [pid], or [pid] was attached to its scope. *)
Definition scoped_member (s : Inner) (h : nat) (pid : ProcessId) : Prop :=
  exists c, in_scoped s !! h = Some c /\
    (pid ∈ sp_processes c \/ exists os, in_attached s !! pid = Some (sp_scope c, os)).

(** Every process that the scoped handle [h] was given belongs to its scope. *)
Definition block_handle (s : Inner) (h : nat) : Prop :=
  exists c, in_scoped s !! h = Some c /\
    forall pid, pid ∈ sp_processes c -> exists os, in_attached s !! pid = Some (sp_scope c, os).

(** A successful shutdown: no scope can be created any more, and all of them are settled. *)
Definition all_settled (s : Inner) : Prop :=
  in_shutting_down s = true /\ in_creating s = false /\
  forall scope, (0 < scope <= next_scope (in_registry s))%N -> settled s scope.

(** The panics that can reach a caller or end a task, each with what must have happened: a creation
    after the shutdown started, the caller's own closure, the exhaustion of the 64-bit
    identifiers, a backend whose [wait] panicked, and the startup of the sampler after a shutdown
    verified every scope. *)
Definition may_panic (m : string) (s : Inner) : Prop :=
  (m = "cannot create a scope after supervisor shutdown starts"%string /\ in_shutting_down s = true) \/
  (m = "closure panicked"%string /\ exists h, RetBlock h ∈ in_returned s) \/
  (m = "identifier overflow"%string /\
     (id_succ (next_scope (in_registry s)) = None \/ id_succ (next_process (in_registry s)) = None)) \/
  (m = "backend wait panicked"%string /\ exists p, DidWait p Unwound ∈ in_calls s) \/
  (m = "sampler startup serialized with shutdown"%string /\ all_settled s).

(** What a join handle can report of a task that did not finish. *)
Definition task_failure (m : string) (s : Inner) : Prop := m = "task was cancelled"%string \/ may_panic m s.

(** What a value returned to a caller stands for, from then on. *)
Definition returned_ok (s : Inner) (r : returned F) : Prop :=
  match r with
  | RetSpawn scope (Ok pid) => exists os, in_attached s !! pid = Some (scope, os)
  | RetObservation (Ok o) => observation_ok s o
  | RetWait pid (Ok e) | RetTerminate pid (Ok e) => backed s pid (exit_outcome e)
  | RetTerminateScope scope (Ok r) => verified_report_ok s scope r
  | RetBlock h => block_handle s h
  | RetScopedSpawn h (Ok pid) => scoped_member s h pid
  | RetScopedWait h pid (Ok e) => scoped_member s h pid /\ backed s pid (exit_outcome e)
  | RetScopedOutput h pid (Some _) => scoped_member s h pid
  | RetShutdown (Ok _) => all_settled s
  | _ => True
  end.

Definition pending_of (s : Inner) (scope : ProcessScopeId) : gmap ProcessId TerminationOutcome :=
  default ∅ (in_pending_outcomes s !! scope).

(** ** The invariant *)

Record sup_inv (s : Inner) : Prop := {
  inv_registry : registry_wf (in_registry s);
  inv_waiters : waiters_inv (in_waiters s);
  inv_operations : forall scope, is_Some (scope_at s scope) -> scope ∈ in_scope_operations s;
  inv_tracked : forall scope sc pid p, scope_at s scope = Some sc -> processes sc !! pid = Some p ->
    in_attached s !! pid = Some (scope, process_os p) /\
    (exit_verified (process_exit p) = true -> reaped s pid);
  inv_attached : forall pid scope os, in_attached s !! pid = Some (scope, os) ->
    (pid <= next_process (in_registry s))%N /\ (0 < scope <= next_scope (in_registry s))%N /\
    ((exists sc, scope_at s scope = Some sc /\ is_Some (processes sc !! pid)) \/ reaped s pid);
  inv_marks : forall pid x, in_attached s !! pid = Some x -> DidAttach pid ∈ in_calls s;
  inv_known : forall pid e, try_get (in_waiters s) pid = Some e -> backed s pid (exit_outcome e);
  inv_pending : forall scope m pid o, in_pending_outcomes s !! scope = Some m -> m !! pid = Some o -> backed s pid o;
  inv_reports : forall scope r, in_reports s !! scope = Some r -> report_ok s scope (retained_report r);
  inv_serials : forall scope op r, in_operations s !! scope = Some op -> op_report op = Some r -> report_ok s scope r;
  inv_watches : forall scope w r, in_watches s !! scope = Some w -> verified_result (watch_value w) = Some r ->
    report_ok s scope r;
  inv_spawns : forall h pid, in_spawns s !! h = Some (Ok (Ok pid)) ->
    exists scope os, in_worker_of s !! h = Some (SpawnsInto scope) /\ in_attached s !! pid = Some (scope, os);
  inv_joined : forall h pid r, in_joined s !! h = Some (Ok (pid, r)) ->
    in_worker_of s !! h = Some (Terminates pid) /\ forall e, r = Ok e -> backed s pid (exit_outcome e);
  inv_workers : forall h, is_Some (in_worker_of s !! h) -> (h < in_next_handle s)%nat;
  inv_admissions : forall h o, in_admissions s !! h = Some o -> observation_ok s o;
  inv_returned : forall r, r ∈ in_returned s -> returned_ok s r;
  inv_scoped : forall h c, in_scoped s !! h = Some c ->
    (h < in_next_handle s)%nat /\ forall pid, pid ∈ sp_owned c -> scoped_member s h pid;
  inv_outputs : output_history_wf (in_completed s) (in_outputs s);
  inv_os_pids : os_history_wf (in_os_pids s);
  inv_completed_scopes : (length (in_completed_scopes s) <= SCOPE_REPORT_HISTORY_BOUND)%nat;
  inv_queue : (length (in_queue s) <= PUBLISHER_QUEUE)%nat;
  inv_sampler_locked : in_sampler_locked s = true -> all_settled s;
  inv_failures : forall m,
    (exists h, in_spawns s !! h = Some (Err m)) \/ (exists h, in_joined s !! h = Some (Err m)) \/
    (exists scope, in_cleanups s !! scope = Some (Some m)) -> task_failure m s;
  inv_kept_reports : forall scope, is_Some (in_reports s !! scope) ->
    scope ∈ in_completed_scopes s \/ scope ∈ in_committing s;
  inv_kept_operations : forall scope, scope ∈ in_scope_operations s ->
    is_Some (scope_at s scope) \/ scope ∈ in_committing s;
  inv_kept_results : forall scope, scope ∈ in_scope_results s ->
    is_Some (scope_at s scope) \/ scope ∈ in_completed_scope_results s;
  inv_completed_results : (length (in_completed_scope_results s) <= COMPLETED_BOUND)%nat;
}.

(** ** The relation to later states *)

(** The scopes created so far, and the one that a creation under way is about to add. *)
Definition creations (s : Inner) : N := (next_scope (in_registry s) + if in_creating s then 1 else 0)%N.

Record sup_rel (s s' : Inner) : Prop := {
  rel_ids : (next_scope (in_registry s) <= next_scope (in_registry s'))%N /\
            (next_process (in_registry s) <= next_process (in_registry s'))%N;
  (** A scope that left the registry never returns. *)
  rel_removed : forall scope, (scope <= next_scope (in_registry s))%N -> scope_at s scope = None ->
    scope_at s' scope = None;
  (** A scope that stopped admitting processes never admits one again. *)
  rel_closed : forall scope sc sc', (scope <= next_scope (in_registry s))%N ->
    scope_at s scope = Some sc -> scope_state sc <> Open ->
    scope_at s' scope = Some sc' ->
    scope_state sc' <> Open /\ forall pid, is_Some (processes sc' !! pid) -> is_Some (processes sc !! pid);
  (** Once shutdown has started, only the creation under way still goes through. *)
  rel_down : in_shutting_down s = true ->
    in_shutting_down s' = true /\ (creations s' <= creations s)%N;
  rel_dropped : in_owners_dropped s = true -> in_owners_dropped s' = true;
  rel_attached : forall pid x, in_attached s !! pid = Some x -> in_attached s' !! pid = Some x;
  rel_no_attach : forall pid scope os, (scope <= next_scope (in_registry s))%N -> ~ admits s scope ->
    in_attached s' !! pid = Some (scope, os) -> in_attached s !! pid = Some (scope, os);
  rel_calls : in_calls s `suffix_of` in_calls s';
  rel_futures : forall f pid, fut_of (in_waiters s) f pid -> fut_of (in_waiters s') f pid /\
    (forall e, poll (in_waiters s') f = Some e -> poll (in_waiters s) f = Some e \/ backed s' pid (exit_outcome e)) /\
    (forall e, poll (in_waiters s) f = Some e -> is_verified (exit_outcome e) = true ->
       poll (in_waiters s') f = Some e);
  (** While a scope is registered, its recorded outcomes are not forgotten. *)
  rel_pending : forall scope pid, (scope <= next_scope (in_registry s))%N -> is_Some (scope_at s' scope) ->
    is_Some (pending_of s scope !! pid) -> is_Some (pending_of s' scope !! pid);
  rel_workers : (in_next_handle s <= in_next_handle s')%nat /\
    forall h x, in_worker_of s !! h = Some x -> in_worker_of s' !! h = Some x;
  rel_scoped : forall h c, in_scoped s !! h = Some c ->
    exists c', in_scoped s' !! h = Some c' /\ sp_scope c' = sp_scope c /\ sp_processes c' = sp_processes c;
  (** A verified cleanup result is never replaced. *)
  rel_watches : forall scope w r, in_watches s !! scope = Some w -> verified_result (watch_value w) = Some r ->
    exists w', in_watches s' !! scope = Some w' /\ watch_value w' = watch_value w;
  rel_returned : forall r, r ∈ in_returned s -> r ∈ in_returned s';
  (** Operation locks and result channels are made with their scope, once. *)
  rel_operations : forall scope, (scope <= next_scope (in_registry s))%N ->
    scope ∉ in_scope_operations s -> scope ∉ in_scope_operations s';
  rel_results : forall scope, (scope <= next_scope (in_registry s))%N ->
    (scope ∈ in_scope_results s -> scope ∈ in_completed_scope_results s) ->
    (scope ∈ in_scope_results s' -> scope ∈ in_completed_scope_results s');
}.

Lemma calls_mono s s' c : sup_rel s s' -> c ∈ in_calls s -> c ∈ in_calls s'.
Proof. intros H Hc. destruct (rel_calls _ _ H) as [l ->]. apply elem_of_app. by right. Qed.

Lemma called_after_mono s s' pid c : sup_rel s s' -> called_after s pid c -> called_after s' pid c.
Proof.
  intros H (after & before & E & Hc & Ha). destruct (rel_calls _ _ H) as [l El].
  exists (l ++ after), before. rewrite El, E, app_assoc. split_and!; [done| |done]. apply elem_of_app. by right.
Qed.

Lemma attached_as_mono s s' pid scope os : sup_rel s s' -> attached_as s pid scope os -> attached_as s' pid scope os.
Proof. intros H [Ha Hm]. split; [by apply (rel_attached _ _ H)|by eapply calls_mono]. Qed.

Lemma attached_as_inv s pid scope os : sup_inv s -> in_attached s !! pid = Some (scope, os) -> attached_as s pid scope os.
Proof. intros HI Ha. split; [done|]. by eapply (inv_marks _ HI). Qed.

Lemma reaped_mono s s' pid : sup_rel s s' -> reaped s pid -> reaped s' pid.
Proof.
  intros H (scope & os & raw & Ha & Hc). exists scope, os, raw. split.
  - by apply (rel_attached _ _ H).
  - by eapply called_after_mono.
Qed.

Lemma backed_mono s s' pid o : sup_rel s s' -> backed s pid o -> backed s' pid o.
Proof. intros H Hb Hv. eapply reaped_mono; eauto. Qed.

Lemma swept_mono s s' scope : sup_rel s s' -> swept s scope -> swept s' scope.
Proof. apply calls_mono. Qed.

Lemma admits_back s s' scope :
  sup_rel s s' -> (scope <= next_scope (in_registry s))%N -> ~ admits s scope -> ~ admits s' scope.
Proof.
  intros H Hle Hn (sc' & Hsc' & Ho). destruct (scope_at s scope) as [sc|] eqn:E.
  - destruct (rel_closed _ _ H scope sc sc' Hle E) as [Hc _]; [|done|done].
    intros Hop. apply Hn. by exists sc.
  - rewrite (rel_removed _ _ H scope Hle E) in Hsc'. done.
Qed.

Lemma settled_mono s s' scope : sup_rel s s' -> settled s scope -> settled s' scope.
Proof.
  intros H (Hle & Hn & Hall). split_and!.
  - destruct (rel_ids _ _ H). lia.
  - by apply (admits_back s).
  - intros pid os Ha. eapply reaped_mono; [done|]. eapply Hall. by apply (rel_no_attach _ _ H).
Qed.

Lemma report_ok_mono s s' scope r : sup_rel s s' -> report_ok s scope r -> report_ok s' scope r.
Proof.
  intros H (? & ? & ? & ? & Hr). split_and!; [done|done| | |].
  - by eapply settled_mono.
  - by eapply swept_mono.
  - intros pid o Hin. eapply reaped_mono; eauto.
Qed.

Lemma fut_ok_mono s s' f pid : sup_rel s s' -> fut_ok s f pid -> fut_ok s' f pid.
Proof.
  intros H [Hf He]. destruct (rel_futures _ _ H f pid Hf) as (Hf' & Hp & _). split; [done|].
  intros e Hpe. destruct (Hp e Hpe) as [Hold|Hb]; [|done]. eapply backed_mono; eauto.
Qed.

Lemma observation_ok_mono s s' o : sup_rel s s' -> observation_ok s o -> observation_ok s' o.
Proof.
  intros H [[x Hx] Hf]. split; [|by eapply fut_ok_mono]. exists x. by apply (rel_attached _ _ H).
Qed.

Lemma scoped_member_mono s s' h pid : sup_rel s s' -> scoped_member s h pid -> scoped_member s' h pid.
Proof.
  intros H (c & Hc & Hm). destruct (rel_scoped _ _ H h c Hc) as (c' & Hc' & Es & Ep). exists c'. split; [done|].
  rewrite Es, Ep. destruct Hm as [?|[os Ha]]; [by left|right]. exists os. by apply (rel_attached _ _ H).
Qed.

Lemma block_handle_mono s s' h : sup_rel s s' -> block_handle s h -> block_handle s' h.
Proof.
  intros H (c & Hc & Hm). destruct (rel_scoped _ _ H h c Hc) as (c' & Hc' & Es & Ep). exists c'. split; [done|].
  rewrite Es, Ep. intros pid Hpid. destruct (Hm pid Hpid) as [os Ha]. exists os. by apply (rel_attached _ _ H).
Qed.

Lemma all_settled_mono s s' : sup_rel s s' -> all_settled s -> all_settled s'.
Proof.
  intros H (Hd & Hc & Hall). destruct (rel_down _ _ H Hd) as [Hd' Hle]. destruct (rel_ids _ _ H) as [Hid _].
  unfold creations in Hle. rewrite Hc in Hle. destruct (in_creating s') eqn:Hc'; [lia|].
  split_and!; [done..|]. intros scope Hs. eapply settled_mono; [done|]. apply Hall. lia.
Qed.

Lemma may_panic_mono m s s' : may_panic m s -> sup_rel s s' -> may_panic m s'.
Proof.
  intros Hm H. unfold may_panic in *. destruct Hm as [[-> Hm]|[[-> [h Hm]]|[[-> Hm]|[[-> [p Hm]]|[-> Hm]]]]].
  - left. split; [done|]. by apply (rel_down _ _ H).
  - right; left. split; [done|]. exists h. by apply (rel_returned _ _ H).
  - do 2 right; left. split; [done|]. destruct (rel_ids _ _ H) as [H1 H2].
    destruct Hm as [Hm|Hm]; [left|right]; by eapply id_succ_None_mono.
  - do 3 right; left. split; [done|]. exists p. by eapply calls_mono.
  - do 4 right. split; [done|]. by eapply all_settled_mono.
Qed.

Lemma task_failure_mono m s s' : sup_rel s s' -> task_failure m s -> task_failure m s'.
Proof. intros H [?|Hm]; [by left|right]. by eapply may_panic_mono. Qed.

Lemma returned_ok_mono s s' r : sup_rel s s' -> returned_ok s r -> returned_ok s' r.
Proof.
  intros H. destruct r as [|? []|[]| | |? []|? []|? []|[]| |? []|? ? []|? ? []|]; simpl; try done.
  - intros [x Hx]. exists x. by apply (rel_attached _ _ H).
  - by apply observation_ok_mono.
  - by apply backed_mono.
  - by apply backed_mono.
  - intros Hr Hv. eapply report_ok_mono; [done|]. by apply Hr.
  - by apply all_settled_mono.
  - by apply block_handle_mono.
  - by apply scoped_member_mono.
  - intros [Hm Hb]. split; [by eapply scoped_member_mono|by eapply backed_mono].
  - by apply scoped_member_mono.
Qed.

#[export] Instance sup_rel_refl : Reflexive sup_rel.
Proof.
  intros s. split; try done.
  - naive_solver.
  - intros f pid Hf. naive_solver.
  - eauto.
  - eauto.
Qed.

#[export] Instance sup_rel_trans : Transitive sup_rel.
Proof.
  intros s1 s2 s3 H12 H23. pose proof (rel_ids _ _ H12). pose proof (rel_ids _ _ H23). split.
  - lia.
  - intros scope Hle Hn. apply (rel_removed _ _ H23); [lia|]. by apply (rel_removed _ _ H12).
  - intros scope sc1 sc3 Hle H1 Hc H3. destruct (scope_at s2 scope) as [sc2|] eqn:E2.
    + destruct (rel_closed _ _ H12 scope sc1 sc2 Hle H1 Hc E2) as [Hc2 Hp2].
      destruct (rel_closed _ _ H23 scope sc2 sc3 ltac:(lia) E2 Hc2 H3) as [Hc3 Hp3]. eauto.
    + by rewrite (rel_removed _ _ H23 scope ltac:(lia) E2) in H3.
  - intros Hd. destruct (rel_down _ _ H12 Hd) as [Hd2 E2]. destruct (rel_down _ _ H23 Hd2) as [Hd3 E3].
    split; [done|lia].
  - intros. by apply (rel_dropped _ _ H23), (rel_dropped _ _ H12).
  - intros. by apply (rel_attached _ _ H23), (rel_attached _ _ H12).
  - intros pid scope os Hle Hn Ha. apply (rel_no_attach _ _ H12); [done..|].
    apply (rel_no_attach _ _ H23); [lia| |done]. by apply (admits_back s1).
  - etrans; [apply (rel_calls _ _ H12)|apply (rel_calls _ _ H23)].
  - intros f pid Hf1. destruct (rel_futures _ _ H12 f pid Hf1) as (Hf2 & Hb2 & Hk2).
    destruct (rel_futures _ _ H23 f pid Hf2) as (Hf3 & Hb3 & Hk3). split_and!; [done| |eauto].
    intros e He. destruct (Hb3 e He) as [He2|?]; [|by right]. destruct (Hb2 e He2) as [?|Hb]; [by left|right].
    by eapply backed_mono.
  - intros scope pid Hle Hs3 Hp1. apply (rel_pending _ _ H23); [lia|done|].
    apply (rel_pending _ _ H12); [done| |done].
    destruct (scope_at s2 scope) eqn:E; [done|].
    rewrite (rel_removed _ _ H23 scope) in Hs3; [by destruct Hs3|lia|done].
  - destruct (rel_workers _ _ H12), (rel_workers _ _ H23). split; [lia|eauto].
  - intros h c Hc. destruct (rel_scoped _ _ H12 h c Hc) as (c2 & Hc2 & Es2 & Ep2).
    destruct (rel_scoped _ _ H23 h c2 Hc2) as (c3 & Hc3 & Es3 & Ep3). exists c3. split_and!; congruence.
  - intros scope w r Hw Hr. destruct (rel_watches _ _ H12 scope w r Hw Hr) as (w2 & Hw2 & E2).
    rewrite <- E2 in Hr. destruct (rel_watches _ _ H23 scope w2 r Hw2 Hr) as (w3 & Hw3 & E3).
    exists w3. split; [done|]. by rewrite E3.
  - intros. by apply (rel_returned _ _ H23), (rel_returned _ _ H12).
  - intros scope Hle Hn. apply (rel_operations _ _ H23); [lia|]. by apply (rel_operations _ _ H12).
  - intros scope Hle Hn. apply (rel_results _ _ H23); [lia|]. by apply (rel_results _ _ H12).
Qed.
End Inv.
