(* ===== verification/SupervisorSteps.v ===== *)
(** * SupervisorSteps: the critical sections keep the supervisor's invariant

    One lemma per kind of update of the shared state: under the stated conditions
    it is [ok], that is, the invariant holds after it and the change is allowed by
    [sup_rel]. *)

From stdpp Require Import base list gmap strings.
From S2P Require Import Prelude StdModel Values Process Scope Registry Waiters Ports History.
From S2P Require Import Conc State Dispatch Supervisor SupervisorInv.

Open Scope Z_scope.

(** The fields of the invariant that an update leaves alone hold by conversion, or because what
    they claim holds of every later state. *)
Ltac inv_keep HI :=
  first
    [ exact (inv_registry _ HI) | exact (inv_waiters _ HI) | exact (inv_operations _ HI)
    | exact (inv_tracked _ HI) | exact (inv_attached _ HI) | exact (inv_marks _ HI) | exact (inv_known _ HI)
    | exact (inv_pending _ HI) | exact (inv_reports _ HI) | exact (inv_serials _ HI)
    | exact (inv_watches _ HI) | exact (inv_spawns _ HI) | exact (inv_joined _ HI)
    | exact (inv_workers _ HI) | exact (inv_admissions _ HI) | exact (inv_returned _ HI)
    | exact (inv_scoped _ HI) | exact (inv_outputs _ HI) | exact (inv_os_pids _ HI) | exact (inv_completed_scopes _ HI)
    | exact (inv_queue _ HI) | exact (inv_sampler_locked _ HI) | exact (inv_failures _ HI)
    | exact (inv_kept_reports _ HI) | exact (inv_kept_operations _ HI) | exact (inv_kept_results _ HI)
    | exact (inv_completed_results _ HI) ].

Ltac inv_later HI HR :=
  first
    [ inv_keep HI
    | (let H1 := fresh in let H2 := fresh in let H3 := fresh in intros ? ? ? ? H1 H2;
         destruct (inv_tracked _ HI _ _ _ _ H1 H2) as [? H3]; split; [assumption|];
         intros ?; eapply reaped_mono; [exact HR|]; apply H3; assumption)
    | (let H1 := fresh in let H2 := fresh in intros ? ? ? H1;
         destruct (inv_attached _ HI _ _ _ H1) as (? & ? & H2); split; [assumption|]; split; [assumption|];
         destruct H2 as [H2|H2]; [left; exact H2|right; eapply reaped_mono; [exact HR|exact H2]])
    | (let H1 := fresh in let H2 := fresh in intros ? ? ? H1;
         destruct (inv_joined _ HI _ _ _ H1) as [? H2]; split; [assumption|];
         intros ? ?; eapply backed_mono; [exact HR|]; apply H2; assumption)
    | (let H := fresh in intros ? ? H; eapply calls_mono; [exact HR|]; exact (inv_marks _ HI _ _ H))
    | (let H := fresh in intros ? ? H; eapply backed_mono; [exact HR|]; exact (inv_known _ HI _ _ H))
    | (let H1 := fresh in let H2 := fresh in intros ? ? ? ? H1 H2; eapply backed_mono; [exact HR|];
         exact (inv_pending _ HI _ _ _ _ H1 H2))
    | (let H := fresh in intros ? ? H; eapply report_ok_mono; [exact HR|]; exact (inv_reports _ HI _ _ H))
    | (let H1 := fresh in let H2 := fresh in intros ? ? ? H1 H2; eapply report_ok_mono; [exact HR|];
         exact (inv_serials _ HI _ _ _ H1 H2))
    | (let H1 := fresh in let H2 := fresh in intros ? ? ? H1 H2; eapply report_ok_mono; [exact HR|];
         exact (inv_watches _ HI _ _ _ H1 H2))
    | (let H1 := fresh in let H2 := fresh in intros ? ? H1; destruct (inv_scoped _ HI _ _ H1) as [? H2];
         split; [assumption|]; intros ? ?; eapply scoped_member_mono; [exact HR|]; apply H2; assumption)
    | (let H := fresh in intros ? ? H; eapply observation_ok_mono; [exact HR|]; exact (inv_admissions _ HI _ _ H))
    | (let H := fresh in intros H; eapply all_settled_mono; [exact HR|]; exact (inv_sampler_locked _ HI H))
    | (let H := fresh in intros ? H; eapply task_failure_mono; [exact HR|]; exact (inv_failures _ HI _ H))
    | (let H := fresh in intros ? H; eapply returned_ok_mono; [exact HR|]; exact (inv_returned _ HI _ H)) ].

Ltac rel_keep s :=
  let H := constr:(sup_rel_refl s) in
  first
    [ exact (rel_ids _ _ H) | exact (rel_removed _ _ H) | exact (rel_closed _ _ H) | exact (rel_down _ _ H)
    | exact (rel_dropped _ _ H) | exact (rel_attached _ _ H) | exact (rel_no_attach _ _ H)
    | exact (rel_calls _ _ H) | exact (rel_futures _ _ H) | exact (rel_pending _ _ H)
    | exact (rel_workers _ _ H) | exact (rel_scoped _ _ H) | exact (rel_watches _ _ H) | exact (rel_returned _ _ H)
    | exact (rel_operations _ _ H) | exact (rel_results _ _ H)
    | (let Hp := fresh in intros ? ? _ _ Hp; exact Hp)
    | (let Hf := fresh in intros ? ? Hf; split; [exact Hf|]; split;
         [(let He := fresh in intros ? He; left; exact He)|(let He := fresh in intros ? He _; exact He)]) ].

Definition ok {W F : Type} `{!WaitersPort W F, !WaitersLaws W F} (s s' : Inner W F) : Prop :=
  sup_inv s' /\ sup_rel s s'.

(** What is left of [ok s s'] after the unchanged parts. *)
Ltac ok_intro s HI :=
  match goal with
  | |- ok s ?s' => assert (HR : sup_rel s s'); [|split; [constructor; try inv_later HI HR|exact HR]]
  end.

Section Steps.
Context {W F : Type} `{!WaitersPort W F, !WaitersLaws W F}.

Abbreviation Inner := (Inner W F) (only parsing).
Implicit Types (s : Inner) (scope : ProcessScopeId) (pid : ProcessId).

Lemma ok_refl s : sup_inv s -> ok s s.
Proof. by split. Qed.

Lemma ok_trans s1 s2 s3 : ok s1 s2 -> ok s2 s3 -> ok s1 s3.
Proof. intros [_ H12] [HI H23]. split; [done|]. by etrans. Qed.

Lemma ok_calls s c : sup_inv s -> ok s (record_call c s).
Proof.
  intros HI. ok_intro s HI. constructor; try rel_keep s. by apply suffix_cons_r.
Qed.

Lemma ok_return s r : sup_inv s -> returned_ok s r -> ok s (log_return r s).
Proof.
  intros HI Hr. ok_intro s HI.
  - constructor; try rel_keep s. intros d Hd. by right.
  - intros x [->|Hx]%elem_of_cons; [by eapply returned_ok_mono|].
    eapply returned_ok_mono; [done|]. by apply (inv_returned _ HI).
Qed.

Lemma ok_down s : sup_inv s -> ok s (set_shutting_down true s).
Proof. intros HI. ok_intro s HI. by constructor; try rel_keep s. Qed.

Lemma ok_owners_dropped s : sup_inv s -> ok s (set_owners_dropped true s).
Proof. intros HI. ok_intro s HI. by constructor; try rel_keep s. Qed.

(** ** Waiters *)

Lemma ok_signal s pid e : sup_inv s -> backed s pid (exit_outcome e) -> ok s (signal_waiters pid e s).
Proof.
  intros HI Hb. pose proof (inv_waiters _ HI) as HW. ok_intro s HI.
  - constructor; try rel_keep s. intros f q Hf. split; [by apply fut_signal|].
    change (in_waiters (signal_waiters pid e s)) with (signal_exit (in_waiters s) pid e).
    change (backed (signal_waiters pid e s)) with (backed s).
    destruct (poll (in_waiters s) f) as [v|] eqn:Ev.
    + destruct (poll_signal_ready _ _ _ pid e v HW Hf Ev) as [E|(-> & Hv & E)]; rewrite E.
      * split; [|naive_solver]. intros x [= <-]. by left.
      * split; [intros x [= <-]; by right|]. intros x [= <-]. congruence.
    + split; [|done]. intros x Hx. destruct (decide (q = pid)) as [->|Hne].
      * rewrite (poll_signal_pending _ _ _ e HW Hf Ev) in Hx. simplify_eq. by right.
      * rewrite (poll_signal_other _ _ _ pid e HW Hf) in Hx by done. by rewrite Ev in Hx.
  - by apply signal_inv.
  - intros q x. change (in_waiters (signal_waiters pid e s)) with (signal_exit (in_waiters s) pid e).
    change (backed (signal_waiters pid e s)) with (backed s).
    destruct (decide (q = pid)) as [->|Hne].
    + rewrite signal_same by done. intros [= <-]. unfold merge_exit.
      destruct (try_get (in_waiters s) pid) as [o|] eqn:Eo; [|done].
      destruct (is_verified (exit_outcome o)); [|done]. by apply (inv_known _ HI).
    + destruct (signal_other (in_waiters s) pid e q HW Hne) as [->|E]; [apply (inv_known _ HI)|congruence].
Qed.

Lemma ok_wait s pid : sup_inv s ->
  ok s (waiters_wait pid s).1 /\ fut_ok (waiters_wait pid s).1 (waiters_wait pid s).2 pid.
Proof.
  intros HI. pose proof (inv_waiters _ HI) as HW. unfold waiters_wait.
  pose proof (wait_fut (in_waiters s) pid HW) as Hf. pose proof (wait_poll (in_waiters s) pid HW) as Hp.
  pose proof (wait_inv (in_waiters s) pid HW) as Hi. pose proof (wait_get (in_waiters s) pid) as Hg.
  pose proof (fut_wait (in_waiters s)) as Hfw. pose proof (poll_wait (in_waiters s)) as Hpw.
  destruct (wait (in_waiters s) pid) as [w f] eqn:E. cbn [fst snd] in *.
  assert (HR : sup_rel s (set_waiters w s)).
  { constructor; try rel_keep s. intros g q Hgq. cbn. specialize (Hpw g q pid HW Hgq).
    specialize (Hfw g q pid HW Hgq). rewrite E in Hpw, Hfw. cbn in Hpw, Hfw. rewrite Hpw. naive_solver. }
  assert (HI' : sup_inv (set_waiters w s)).
  { constructor; try inv_later HI HR; [done|]. intros q e. cbn. rewrite Hg by done. apply (inv_known _ HI). }
  split; [by split|]. split; [done|]. cbn. intros e. rewrite Hp. apply (inv_known _ HI).
Qed.

(** ** Operations on a scope of the registry *)

(** The processes of a scope after an operation: as before except for their lifecycle, and
    new evidence is what the operation recorded. *)
Lemma scope_apply_process sc op pid p' :
  scope_wf sc -> processes (scope_apply sc op).1 !! pid = Some p' ->
  (exists p, processes sc !! pid = Some p /\ process_os p' = process_os p /\
     (process_exit p' = process_exit p \/ exists e, op = SReap pid e /\ process_exit p' = Some e)) \/
  (exists os spec, op = SAttach pid os spec /\ p' = process_running pid os spec).
Proof.
  intros Hwf. destruct op as [k os spec|k|k| |k|k e|k]; simpl.
  - unfold attach_spawned. destruct (negb _); simpl; [naive_solver|].
    destruct (scope_contains sc k); simpl; [naive_solver|]. rewrite lookup_insert_Some. naive_solver.
  - unfold request_termination. destruct (processes sc !! k) as [p|] eqn:Hk; simpl; [|naive_solver].
    pose proof (process_apply_identity p OpRequestGraceful) as Hid.
    destruct (request_graceful p) as [q b] eqn:Er; simpl. rewrite lookup_insert_Some.
    assert (process_exit q = process_exit p) as Hx by (unfold request_graceful in Er; destruct (process_state p); by simplify_eq).
    intros [[<- <-]|[_ ?]]; [|eauto 10]. left. exists p. simpl in Hid. rewrite Er in Hid. naive_solver.
  - unfold escalate_termination. destruct (processes sc !! k) as [p|] eqn:Hk; simpl; [|naive_solver].
    rewrite lookup_insert_Some. intros [[<- <-]|[_ ?]]; [|eauto 10]. left. exists p.
    unfold escalate_to_force. destruct (process_state p); simpl; eauto.
  - rewrite begin_scope_lookup, fmap_Some. intros (p & Hp & ->). left. exists p.
    unfold request_graceful. destruct (process_state p); simpl; eauto.
  - unfold record_exit. destruct (processes sc !! k) as [p|] eqn:Hk; simpl; [|naive_solver].
    destruct (mark_exited p) as [q b] eqn:Er; simpl. rewrite lookup_insert_Some.
    assert (process_exit q = process_exit p /\ process_os q = process_os p) as [Hx Ho].
    { unfold mark_exited in Er. destruct (is_live _); by simplify_eq. }
    intros [[<- <-]|[_ ?]]; eauto 10.
  - unfold record_reaped. destruct (processes sc !! k) as [p|] eqn:Hk; simpl; [|naive_solver].
    destruct (mark_reaped p e) as [q b] eqn:Er.
    assert (process_os q = process_os p /\ (process_exit q = process_exit p \/ process_exit q = Some e)) as [Ho Hx].
    { unfold mark_reaped in Er. destruct (process_state p); try destruct (_ && _); simplify_eq; eauto. }
    intros Hin. assert (<[k:=q]> (processes sc) !! pid = Some p') as Hin'.
    { destruct b; simpl in Hin; [|done]. by destruct (_ && _). }
    apply lookup_insert_Some in Hin' as [[<- <-]|[_ ?]]; [|eauto 10].
    left. exists p. destruct Hx; eauto 10.
  - assert (prune sc k = sc \/ processes (prune sc k) = delete k (processes sc)) as [->| ->]
      by (unfold prune; case_match; auto); [eauto 10|].
    rewrite lookup_delete_Some. intros [_ ?]. eauto 10.
Qed.

(** A process disappears only by a prune of verified evidence. *)
Lemma scope_apply_gone sc op pid p :
  scope_wf sc -> processes sc !! pid = Some p -> processes (scope_apply sc op).1 !! pid = None ->
  exit_verified (process_exit p) = true.
Proof.
  intros Hwf Hp Hn. pose proof (scope_apply_entry sc op pid (wf_ids _ Hwf)) as He.
  rewrite Hp, Hn in He. by inversion He.
Qed.

Lemma scope_apply_closed sc op : scope_state sc <> Open -> scope_state (scope_apply sc op).1 <> Open.
Proof.
  intros Hc. destruct (scope_apply_state sc op) as [->|[(_ & ? & _)|(_ & -> & _)]]; done.
Qed.

Lemma scope_apply_closed_shrinks sc op pid :
  scope_wf sc -> scope_state sc <> Open -> is_Some (processes (scope_apply sc op).1 !! pid) ->
  is_Some (processes sc !! pid).
Proof.
  intros Hwf Hc [p' Hp']. destruct (processes sc !! pid) eqn:E; [by eauto|].
  pose proof (scope_apply_entry sc op pid (wf_ids _ Hwf)) as He. rewrite E, Hp' in He. by inversion He.
Qed.

Definition scope_op_ok (s : Inner) (op : scope_op) : Prop :=
  match op with
  | SAttach _ _ _ => False
  | SReap pid e => backed s pid (exit_outcome e)
  | _ => True
  end.

Lemma scope_at_set s scope sc scope' :
  scope_at (set_registry (registry_set (in_registry s) scope sc) s) scope' =
  if decide (scope = scope') then Some sc else scope_at s scope'.
Proof.
  unfold scope_at; cbn. destruct (decide (scope = scope')) as [<-|Hne].
  - by rewrite lookup_insert_eq.
  - by rewrite lookup_insert_ne.
Qed.

(** What is kept of the registered scopes, when each of them is still registered. *)
Lemma kept_registered s (at' : ProcessScopeId -> option ProcessScope) :
  sup_inv s -> (forall i, is_Some (scope_at s i) -> is_Some (at' i)) ->
  (forall i, i ∈ in_scope_operations s -> is_Some (at' i) \/ i ∈ in_committing s) /\
  (forall i, i ∈ in_scope_results s -> is_Some (at' i) \/ i ∈ in_completed_scope_results s).
Proof.
  intros HI Hat. split; intros i Hi.
  - destruct (inv_kept_operations _ HI i Hi); [left; by apply Hat|by right].
  - destruct (inv_kept_results _ HI i Hi); [left; by apply Hat|by right].
Qed.

Lemma ok_scope_op s scope sc op :
  sup_inv s -> scope_at s scope = Some sc -> scope_op_ok s op ->
  ok s (set_registry (registry_set (in_registry s) scope (scope_apply sc op).1) s).
Proof.
  intros HI Hsc Hop. pose proof (rg_scopes _ (inv_registry _ HI) _ _ Hsc) as Hwf. ok_intro s HI.
  - constructor; try rel_keep s.
    + intros scope' _ Hn. rewrite scope_at_set. case_decide; [congruence|done].
    + intros scope' sc1 sc2 _ H1 Hc. rewrite scope_at_set. case_decide as E; [|naive_solver].
      subst scope'. rewrite Hsc in H1. simplify_eq. intros [= <-]. split.
      * by apply scope_apply_closed.
      * intros pid. by apply scope_apply_closed_shrinks.
  - apply registry_apply_wf; [apply HI|done|]. intros pid os spec ->. done.
  - intros scope'. rewrite scope_at_set. case_decide as E; [|apply (inv_operations _ HI)].
    subst. intros _. apply (inv_operations _ HI). eauto.
  - intros scope' sc' pid p. rewrite scope_at_set. case_decide as E; [|apply (inv_tracked _ HI)].
    subst scope'. intros [= <-] Hp.
    destruct (scope_apply_process sc op pid p Hwf Hp) as [(q & Hq & Ho & Hx)|(os & spec & -> & _)]; [|done].
    destruct (inv_tracked _ HI _ _ _ _ Hsc Hq) as [Ha Hv]. rewrite Ho. split; [done|].
    destruct Hx as [->|(e & -> & ->)]; [done|exact Hop].
  - intros pid scope' os Ha. destruct (inv_attached _ HI _ _ _ Ha) as (H1 & H2 & H3). split_and!; [done|apply H2..|].
    destruct H3 as [(sc' & Hsc' & p & Hp)|?]; [|by right]. rewrite scope_at_set.
    destruct (decide (scope = scope')) as [<-|]; [|left; exists sc'; split; [done|by eexists]].
    rewrite Hsc in Hsc'. simplify_eq.
    destruct (processes (scope_apply sc' op).1 !! pid) as [p'|] eqn:E; [left; eauto|right].
    apply (inv_tracked _ HI _ _ _ _ Hsc Hp). by eapply scope_apply_gone.
  - apply (kept_registered s); [done|]. intros i Hi. rewrite scope_at_set. case_decide; [by eexists|done].
  - apply (kept_registered s); [done|]. intros i Hi. rewrite scope_at_set. case_decide; [by eexists|done].
Qed.

Lemma ok_update_scope s scope op :
  sup_inv s -> scope_op_ok s op ->
  ok s (update_scope scope (fun sc => (scope_apply sc op).1) s).
Proof.
  intros HI Hop. unfold update_scope, registry_get. destruct (scopes (in_registry s) !! scope) as [sc|] eqn:E.
  - by apply ok_scope_op.
  - by apply ok_refl.
Qed.

(** ** Attachment, creation and removal *)

Lemma next_process_none r r' pid i sc :
  registry_wf r -> next_process_id r = Some (r', pid) -> scopes r' !! i = Some sc -> processes sc !! pid = None.
Proof.
  intros Hr E Hi. destruct (next_process_id_wf _ _ _ Hr E) as (_ & Es & _ & _ & _ & Hno).
  destruct (processes sc !! pid) eqn:Ep; [|done]. destruct (Hno i). exists sc. rewrite <- Es. eauto.
Qed.

(** What [attach] did, and that a process it attached is admitted evidence-free. *)
Definition attach_post (s' : Inner) (scope : ProcessScopeId) (spawned : Spawned) (a : Attach) : Prop :=
  match a with
  | AttachOk pid events =>
      attached_as s' pid scope (spawned_os spawned) /\ events = [ProcessSpawned scope pid]
  | AttachOverflow => id_succ (next_process (in_registry s')) = None
  | _ => True
  end.

Lemma ok_next_process s r pid :
  sup_inv s -> next_process_id (in_registry s) = Some (r, pid) -> ok s (set_registry r s).
Proof.
  intros HI E. destruct (next_process_id_wf _ _ _ (inv_registry _ HI) E) as (Hr & Es & En & Ep & Hlt & _).
  assert (forall i, scope_at (set_registry r s) i = scope_at s i) as Hat by (intros i; unfold scope_at; cbn; by rewrite Es).
  ok_intro s HI.
  - constructor; try rel_keep s.
    + cbn. lia.
    + intros i _. by rewrite Hat.
    + intros i sc sc' _ H1 Hc. rewrite Hat, H1. naive_solver.
    + unfold creations. cbn. by rewrite En.
  - done.
  - intros i. rewrite Hat. apply (inv_operations _ HI).
  - intros i sc q p. rewrite Hat. apply (inv_tracked _ HI).
  - intros q i os Ha. destruct (inv_attached _ HI _ _ _ Ha) as (H1 & H2 & H3). cbn. split_and!; [lia|lia|lia|].
    destruct H3 as [(sc & Hsc & Hq)|?]; [left|by right]. exists sc. by rewrite Hat.
  - apply (kept_registered s); [done|]. intros i. by rewrite Hat.
  - apply (kept_registered s); [done|]. intros i. by rewrite Hat.
Qed.

Lemma ok_attached s scope sc sc' pid os spec :
  sup_inv s -> scope_at s scope = Some sc -> scope_state sc = Open -> processes sc !! pid = None ->
  (0 < pid <= next_process (in_registry s))%N -> (forall i, ~ owns (in_registry s) i pid) ->
  in_attached s !! pid = None ->
  scope_apply sc (SAttach pid os spec) = (sc', [ProcessSpawned scope pid]) ->
  ok s (set_attached (<[pid := (scope, os)]> (in_attached s))
         (record_call (DidAttach pid) (set_registry (registry_set (in_registry s) scope sc') s))).
Proof.
  intros HI Hsc Hopen Hnone Hpid Hno Hfresh Eop.
  assert (sc' = (scope_apply sc (SAttach pid os spec)).1) as -> by by rewrite Eop.
  pose proof (rg_scopes _ (inv_registry _ HI) _ _ Hsc) as Hwf.
  pose proof (rg_ids _ (inv_registry _ HI) _ _ Hsc) as [_ Hscope].
  assert (Hproc : processes (scope_apply sc (SAttach pid os spec)).1 =
    <[pid := process_running pid os spec]> (processes sc)).
  { cbn. unfold attach_spawned, scope_contains. rewrite Hopen, Hnone, bool_decide_eq_false_2 by (by intros []). done. }
  set (s' := set_attached _ _).
  assert (Hat : forall i, scope_at s' i =
    if decide (scope = i) then Some (scope_apply sc (SAttach pid os spec)).1 else scope_at s i) by apply scope_at_set.
  ok_intro s HI.
  - constructor; try rel_keep s.
    + intros i _ Hn. rewrite Hat. case_decide; [congruence|done].
    + intros i sc1 sc2 _ H1 Hc. rewrite Hat. case_decide as E; [|naive_solver]. subst. congruence.
    + intros q x Hq. cbn. rewrite lookup_insert_ne; [done|]. congruence.
    + intros q i o Hle Hn. cbn. rewrite lookup_insert_Some. intros [[<- [= <- <-]]|[_ ?]]; [|done].
      destruct Hn. by exists sc.
    + by apply suffix_cons_r.
  - apply registry_apply_wf; [apply HI|done|]. intros q o sp [= -> -> ->]. done.
  - intros i. rewrite Hat. case_decide as E; [|apply (inv_operations _ HI)].
    subst. intros _. apply (inv_operations _ HI). eauto.
  - intros i sc2 q p. rewrite Hat. case_decide as E.
    + subst i. intros <-%(inj Some) Hp.
      destruct (scope_apply_process sc _ q p Hwf Hp) as [(p0 & Hq & Ho & Hx)|(o & sp & [= -> -> ->] & ->)].
      * destruct (inv_tracked _ HI _ _ _ _ Hsc Hq) as [Ha Hv]. rewrite Ho. cbn.
        rewrite lookup_insert_ne by congruence. split; [done|].
        destruct Hx as [->|(e & ? & _)]; [|done]. intros. eapply reaped_mono; [exact HR|]. auto.
      * cbn. rewrite lookup_insert_eq. done.
    + intros H1 Hp. destruct (inv_tracked _ HI _ _ _ _ H1 Hp) as [Ha Hv]. cbn.
      rewrite lookup_insert_ne by congruence. split; [done|]. intros. eapply reaped_mono; [exact HR|]. auto.
  - intros q i o. cbn. rewrite lookup_insert_Some. intros [[<- [= <- <-]]|[Hne Ha]].
    + split_and!; [lia|lia|lia|]. left. eexists. rewrite Hat, decide_True by done. split; [done|].
      rewrite Hproc, lookup_insert_eq. eauto.
    + destruct (inv_attached _ HI _ _ _ Ha) as (H1 & H2 & H3). split_and!; [lia|lia|lia|].
      destruct H3 as [(sc2 & Hsc2 & p & Hp)|?]; [left|right; by eapply reaped_mono].
      rewrite Hat. case_decide as E; [|by eauto]. subst i. rewrite Hsc in Hsc2. simplify_eq.
      eexists. split; [done|]. rewrite Hproc, lookup_insert_ne by done. eauto.
  - intros q x. cbn. rewrite lookup_insert_Some. intros [[<- _]|[_ Ha]]; [left|right]. by eapply (inv_marks _ HI).
  - intros h q Hq. destruct (inv_spawns _ HI h q Hq) as (i & o & Hw & Ha). exists i, o. split; [done|].
    by apply (rel_attached _ _ HR).
  - apply (kept_registered s); [done|]. intros i Hi. rewrite Hat. case_decide; [by eexists|done].
  - apply (kept_registered s); [done|]. intros i Hi. rewrite Hat. case_decide; [by eexists|done].
Qed.

Lemma attach_ok s scope spawned spec :
  sup_inv s -> ok s (attach scope spawned spec s).1 /\
  attach_post (attach scope spawned spec s).1 scope spawned (attach scope spawned spec s).2.
Proof.
  intros HI. unfold attach. destruct (next_process_id (in_registry s)) as [[r pid]|] eqn:E; cbn [fst snd].
  2: { split; [by apply ok_refl|]. unfold next_process_id in E. cbn. by destruct (id_succ (next_process (in_registry s))). }
  pose proof (ok_next_process s r pid HI E) as Hok.
  destruct (next_process_id_wf _ _ _ (inv_registry _ HI) E) as (Hr & Es & En & Ep & Hlt & Hno).
  unfold registry_get. destruct (scopes r !! scope) as [sc|] eqn:Esc; cbn [fst snd]; [|done].
  destruct (attach_spawned sc pid (spawned_os spawned) spec) as [sc' att] eqn:Ea.
  assert (Hop : scope_apply sc (SAttach pid (spawned_os spawned) spec) =
    (sc', match att with Ok ev => [ev] | Err _ => [] end)) by (cbn; by rewrite Ea).
  pose proof (next_process_none _ _ _ _ _ (inv_registry _ HI) E Esc) as Hnone.
  pose proof (rg_ids _ Hr _ _ Esc) as [Hid _].
  unfold attach_spawned in Ea. destruct (scope_state sc) eqn:Est; cbn in Ea.
  2,3: simplify_eq; cbn [fst snd]; split; [|done]; destruct Hok as [HI1 HR1]; eapply ok_trans; [by split|];
       pose proof (ok_scope_op (set_registry r s) _ _ (SPrune (next_process r)) HI1 Esc I) as Hp;
       cbn in Hp; unfold prune in Hp; rewrite Hnone in Hp; exact Hp.
  unfold scope_contains in Ea. rewrite Hnone, bool_decide_eq_false_2 in Ea by (by intros []). cbn in Ea.
  simplify_eq. cbn [fst snd]. split; [|split; [split; [cbn; by rewrite lookup_insert_eq|left]|done]].
  destruct Hok as [HI1 HR1]. eapply ok_trans; [by split|].
  apply (ok_attached (set_registry r s) (scope_id sc) sc _ (next_process r) _ spec HI1); try done.
  - cbn. lia.
  - intros i (sc0 & Hi & Hp). apply (Hno i). exists sc0. cbn in Hi. by rewrite <- Es.
  - cbn. destruct (in_attached s !! next_process r) as [[i o]|] eqn:Ei; [|done].
    apply (inv_attached _ HI) in Ei as [? _]. lia.
Qed.

(** A scope leaves the registry once it is settled. *)
Lemma ok_remove s scope :
  sup_inv s -> settled s scope -> (scope ∈ in_scope_results s -> scope ∈ in_completed_scope_results s) ->
  ok s (remove_scope scope s).
Proof.
  intros HI (Hle & Hn & Hall) Hres.
  set (s' := remove_scope scope s).
  assert (Hat : forall i, scope_at s' i = if decide (scope = i) then None else scope_at s i).
  { intros i. unfold scope_at. cbn. case_decide as E; [subst; by rewrite lookup_delete_eq|by rewrite lookup_delete_ne]. }
  ok_intro s HI.
  - constructor; try rel_keep s.
    + intros i _ Hi. rewrite Hat. by case_decide.
    + intros i sc sc' _ H1 Hc. rewrite Hat. case_decide; [done|]. rewrite H1. naive_solver.
  - apply registry_remove_wf, HI.
  - intros i. rewrite Hat. case_decide; [by intros []|]. apply (inv_operations _ HI).
  - intros i sc q p. rewrite Hat. case_decide; [done|]. apply (inv_tracked _ HI).
  - intros q i os Ha. destruct (inv_attached _ HI _ _ _ Ha) as (H1 & H2 & H3). split_and!; [done|apply H2..|].
    destruct (decide (scope = i)) as [<-|Hne]; [right; by eapply Hall|].
    destruct H3 as [(sc & Hsc & Hp)|?]; [left|by right]. exists sc. by rewrite Hat, decide_False.
  - intros i Hi. cbn. destruct (inv_kept_reports _ HI i Hi); [by left|right; set_solver].
  - intros i Hi. rewrite Hat. cbn. case_decide as E; [right; set_solver|].
    destruct (inv_kept_operations _ HI i Hi); [by left|right; set_solver].
  - intros i Hi. rewrite Hat. cbn. case_decide as E; [right; subst i; by apply Hres|]. by apply (inv_kept_results _ HI).
Qed.

Lemma ok_forget_operation s scope :
  sup_inv s -> scope_at s scope = None ->
  ok s (set_scope_operations (in_scope_operations s ∖ {[scope]}) s).
Proof.
  intros HI Hn. ok_intro s HI.
  - constructor; try rel_keep s. intros i _ Hi. cbn. set_solver.
  - intros i Hi. cbn. apply elem_of_difference. split; [by apply (inv_operations _ HI)|].
    rewrite elem_of_singleton. intros ->. change (is_Some (scope_at s scope)) in Hi. rewrite Hn in Hi. by destruct Hi.
  - intros i Hi. cbn in Hi. apply elem_of_difference in Hi as [Hi _]. by apply (inv_kept_operations _ HI).
Qed.

(** ** Outcomes *)

Lemma pending_insert s scope m i :
  default ∅ (<[scope := m]> (in_pending_outcomes s) !! i) = if decide (scope = i) then m else pending_of s i.
Proof.
  unfold pending_of. case_decide as E; [subst; by rewrite lookup_insert_eq|by rewrite lookup_insert_ne].
Qed.

Lemma inv_pending_of s scope pid o : sup_inv s -> pending_of s scope !! pid = Some o -> backed s pid o.
Proof.
  intros HI. unfold pending_of. destruct (in_pending_outcomes s !! scope) eqn:E; cbn; [|by rewrite lookup_empty].
  by eapply (inv_pending _ HI).
Qed.

Lemma ok_pending s scope f :
  sup_inv s ->
  (forall pid o, f (pending_of s scope) !! pid = Some o -> backed s pid o) ->
  (forall pid, is_Some (pending_of s scope !! pid) -> is_Some (f (pending_of s scope) !! pid)) ->
  ok s (insert_pending scope f s).
Proof.
  intros HI Hb Hd. ok_intro s HI.
  - constructor; try rel_keep s. intros i pid _ _ Hp. unfold pending_of at 1. cbn. rewrite pending_insert.
    case_decide as E; [subst; by apply Hd|done].
  - intros i m pid o. cbn. rewrite lookup_insert_Some. intros [[<- <-]|[_ Hi]]; [apply Hb|by eapply (inv_pending _ HI)].
Qed.

Lemma ok_pending_insert s scope pid o :
  sup_inv s -> backed s pid o -> ok s (insert_pending scope <[pid := o]> s).
Proof.
  intros HI Hb. apply ok_pending; [done| |].
  - intros q o'. rewrite lookup_insert_Some. intros [[<- <-]|[_ Hq]]; [done|by eapply inv_pending_of].
  - intros q Hq. destruct (decide (q = pid)) as [->|]; [rewrite lookup_insert_eq; eauto|by rewrite lookup_insert_ne].
Qed.

Lemma merge_outcome_lookup m pid o q o' :
  merge_outcome pid o m !! q = Some o' -> m !! q = Some o' \/ (q = pid /\ o' = o).
Proof.
  unfold merge_outcome. destruct (m !! pid) as [p|].
  - destruct (is_verified p); [by left|]. rewrite lookup_insert_Some. naive_solver.
  - rewrite lookup_insert_Some. naive_solver.
Qed.

Lemma merge_outcome_dom m pid o q :
  is_Some (merge_outcome pid o m !! q) <-> q = pid \/ is_Some (m !! q).
Proof.
  unfold merge_outcome. destruct (m !! pid) as [p|] eqn:E.
  - destruct (is_verified p).
    + split; [by right|]. intros [->|?]; [by rewrite E|done].
    + rewrite lookup_insert_is_Some. destruct (decide (pid = q)); naive_solver.
  - rewrite lookup_insert_is_Some. destruct (decide (pid = q)); naive_solver.
Qed.

Lemma merge_outcomes_lookup l m q o :
  foldl (fun m x => merge_outcome x.1 x.2 m) m l !! q = Some o -> m !! q = Some o \/ (q, o) ∈ l.
Proof.
  revert m. induction l as [|[p o1] l IH]; intros m; cbn; [by left|].
  intros [H|?]%IH; [|by right; right]. apply merge_outcome_lookup in H as [?|[-> ->]]; [by left|right; by left].
Qed.

Lemma merge_outcomes_dom l m q :
  is_Some (foldl (fun m x => merge_outcome x.1 x.2 m) m l !! q) <-> q ∈ l.*1 \/ is_Some (m !! q).
Proof.
  revert m. induction l as [|[p o1] l IH]; intros m; cbn.
  - split; [by right|]. by intros [?%elem_of_nil|].
  - rewrite IH, merge_outcome_dom, elem_of_cons. naive_solver.
Qed.

Lemma ok_forget_pending s scope :
  sup_inv s -> scope_at s scope = None -> ok s (set_pending_outcomes (delete scope (in_pending_outcomes s)) s).
Proof.
  intros HI Hn. ok_intro s HI.
  - constructor; try rel_keep s. intros i pid _ Hi Hp. unfold pending_of in *. cbn.
    destruct (decide (scope = i)) as [<-|Hne]; [|by rewrite lookup_delete_ne].
    change (is_Some (scope_at s scope)) in Hi. rewrite Hn in Hi. by destruct Hi.
  - intros i m pid o. cbn. rewrite lookup_delete_Some. intros [_ Hi]. by eapply (inv_pending _ HI).
Qed.

(** ** Reports *)

Lemma ok_report s scope r :
  sup_inv s -> report_ok s scope r -> ok s (retain_scope_report scope r s).
Proof.
  intros HI Hr. ok_intro s HI.
  - constructor; rel_keep s.
  - intros i x. cbn. rewrite lookup_insert_Some. intros [[<- <-]|[_ Hi]].
    + by rewrite retained_retain.
    + by apply (inv_reports _ HI).
  - intros i. cbn. rewrite lookup_insert_is_Some. intros [<-|[_ Hi]]; [right; set_solver|].
    destruct (inv_kept_reports _ HI i Hi); [by left|right; set_solver].
  - intros i Hi. destruct (inv_kept_operations _ HI i Hi); [by left|right; cbn; set_solver].
Qed.

Lemma ok_complete_scope s scope :
  sup_inv s -> scope ∉ in_scope_operations s -> ok s (complete_scope scope s).
Proof.
  intros HI Hops. unfold complete_scope.
  pose proof (push_bounded_length SCOPE_REPORT_HISTORY_BOUND (in_completed_scopes s) (in_reports s) scope) as Hl.
  pose proof (push_bounded_sub SCOPE_REPORT_HISTORY_BOUND (in_completed_scopes s) (in_reports s) scope) as Hsub.
  pose proof (push_bounded_kept SCOPE_REPORT_HISTORY_BOUND (in_completed_scopes s) (in_reports s) scope) as Hkept.
  destruct (push_bounded _ _ _ _) as [completed reports]. cbn in Hl, Hsub, Hkept. ok_intro s HI.
  - constructor; rel_keep s.
  - intros i x Hi. cbn in Hi. apply (inv_reports _ HI). by apply Hsub.
  - done.
  - intros i [x Hi]. cbn in Hi. destruct (decide (i = scope)) as [->|Hne]; [left; eapply Hkept; [done|by right]|].
    destruct (inv_kept_reports _ HI i) as [Hc|Hc]; [eexists; by apply Hsub|left; eapply Hkept; [done|by left]|].
    right. cbn. set_solver.
  - intros i Hi. cbn in Hi. destruct (inv_kept_operations _ HI i Hi); [by left|right; cbn; set_solver].
Qed.

(** Changing one operation's cell; its report stays, or becomes a good one. *)
Lemma ok_operation s scope op :
  sup_inv s ->
  (forall r, op_report op = Some r -> report_ok s scope r) ->
  ok s (set_operations (<[scope := op]> (in_operations s)) s).
Proof.
  intros HI Hr. ok_intro s HI.
  - constructor; rel_keep s.
  - intros i x r. cbn. rewrite lookup_insert_Some. intros [[<- <-]|[_ Hi]] Hx; [by apply Hr|].
    by eapply (inv_serials _ HI).
Qed.

Lemma ok_unlock s scope : sup_inv s -> ok s (unlock_operation scope s).
Proof.
  intros HI. unfold unlock_operation. destruct (in_operations s !! scope) as [op|] eqn:E; [|by apply ok_refl].
  apply ok_operation; [done|]. intros r Hr. by eapply (inv_serials _ HI).
Qed.

Lemma ok_try_lock s scope s' serial :
  sup_inv s -> try_lock_operation scope s = Some (s', serial) ->
  ok s s' /\ forall r, serial = Some r -> report_ok s' scope r.
Proof.
  intros HI. unfold try_lock_operation. destruct (in_operations s !! scope) as [op|] eqn:E; cbn; [|done].
  destruct (op_locked op); [done|]. intros [= <- <-].
  assert (ok s (set_operations (<[scope := mkScopeOperation true (op_report op)]> (in_operations s)) s)) as Hok.
  { apply ok_operation; [done|]. intros r Hr. by eapply (inv_serials _ HI). }
  split; [done|]. intros r Hr. eapply report_ok_mono; [apply Hok|]. by eapply (inv_serials _ HI).
Qed.

Lemma ok_set_serial s scope r : sup_inv s -> report_ok s scope r -> ok s (set_serial scope r s).
Proof.
  intros HI Hr. unfold set_serial. destruct (in_operations s !! scope) as [op|] eqn:E; [|by apply ok_refl].
  apply ok_operation; [done|]. cbn. by intros ? [= <-].
Qed.

(** ** Cleanup results *)

Lemma ok_watch s scope w w' :
  sup_inv s -> in_watches s !! scope = Some w ->
  (forall r, verified_result (watch_value w) = Some r -> watch_value w' = watch_value w) ->
  (forall r, verified_result (watch_value w') = Some r -> report_ok s scope r) ->
  ok s (set_watches (<[scope := w']> (in_watches s)) s).
Proof.
  intros HI Hw Hkeep Hr. ok_intro s HI.
  - constructor; try rel_keep s. intros i x r Hx Hv. cbn. destruct (decide (i = scope)) as [->|Hne].
    + rewrite lookup_insert_eq. rewrite Hw in Hx. simplify_eq. exists w'. eauto.
    + rewrite lookup_insert_ne by done. eauto.
  - intros i x r. cbn. rewrite lookup_insert_Some. intros [[<- <-]|[_ Hi]] Hx; [by apply Hr|].
    by eapply (inv_watches _ HI).
Qed.

Lemma ok_senders s scope w n :
  sup_inv s -> in_watches s !! scope = Some w ->
  ok s (set_watches (<[scope := mkWatch (watch_value w) n]> (in_watches s)) s).
Proof. intros HI Hw. eapply ok_watch; [done..|]. intros r. exact (inv_watches _ HI _ _ _ Hw). Qed.

Lemma ok_drop_sender s scope : sup_inv s -> ok s (drop_sender scope s).
Proof.
  intros HI. unfold drop_sender. destruct (in_watches s !! scope) as [w|] eqn:E; [|by apply ok_refl].
  by apply ok_senders.
Qed.

Lemma evict_scope_results_done fuel s :
  (length (in_completed_scope_results s) <= COMPLETED_BOUND)%nat -> evict_scope_results fuel s = s.
Proof.
  intros Hl. destruct fuel as [|fuel]; cbn [evict_scope_results]; [done|].
  by destruct (Nat.ltb_spec COMPLETED_BOUND (length (in_completed_scope_results s))); [lia|].
Qed.

(** A full queue loses its oldest entry. *)
Lemma complete_scope_result_once scope s :
  (length (in_completed_scope_results s) <= COMPLETED_BOUND)%nat ->
  exists old l, in_completed_scope_results s ++ [scope] = old :: l /\
    complete_scope_result scope s =
      if (COMPLETED_BOUND <=? length (in_completed_scope_results s))%nat
      then drop_sender old (set_scope_results (in_scope_results s ∖ {[old]}) (set_completed_scope_results l s))
      else set_completed_scope_results (old :: l) s.
Proof.
  intros Hl. destruct (in_completed_scope_results s ++ [scope]) as [|old l] eqn:E; [by destruct (in_completed_scope_results s)|].
  exists old, l. split; [done|]. assert (length (old :: l) = S (length (in_completed_scope_results s))) as El.
  { rewrite <- E, length_app. cbn. lia. }
  unfold complete_scope_result. rewrite E. cbn zeta.
  change (in_completed_scope_results (set_completed_scope_results (old :: l) s)) with (old :: l).
  rewrite El. cbn [evict_scope_results].
  change (in_completed_scope_results (set_completed_scope_results (old :: l) s)) with (old :: l).
  rewrite El. destruct (Nat.leb_spec COMPLETED_BOUND (length (in_completed_scope_results s))) as [Hle|Hgt].
  - destruct (Nat.ltb_spec COMPLETED_BOUND (S (length (in_completed_scope_results s)))); [|lia].
    apply evict_scope_results_done. unfold drop_sender. destruct (in_watches _ !! old); cbn in *; lia.
  - by destruct (Nat.ltb_spec COMPLETED_BOUND (S (length (in_completed_scope_results s)))); [lia|].
Qed.

Lemma ok_complete_scope_result s scope :
  sup_inv s -> ok s (complete_scope_result scope s) /\
    (scope ∈ in_scope_results (complete_scope_result scope s) ->
     scope ∈ in_completed_scope_results (complete_scope_result scope s)).
Proof.
  intros HI. pose proof (inv_completed_results _ HI) as Hb.
  destruct (complete_scope_result_once scope s Hb) as (old & l & E & ->).
  assert (El : S (length l) = S (length (in_completed_scope_results s))).
  { change (length (old :: l) = S (length (in_completed_scope_results s))). rewrite <- E, length_app. cbn. lia. }
  assert (Hin : forall i, i ∈ in_completed_scope_results s \/ i = scope -> i = old \/ i ∈ l).
  { intros i Hi. apply elem_of_cons. rewrite <- E. set_solver. }
  destruct (Nat.leb_spec COMPLETED_BOUND (length (in_completed_scope_results s))) as [Hle|Hgt].
  - set (s1 := set_scope_results _ _).
    assert (Hok : ok s s1).
    { ok_intro s HI.
      - constructor; try rel_keep s.
        + cbn. intros i _ Hi Hi'. apply elem_of_difference in Hi' as [Hi' Hne].
          destruct (Hin i) as [->|?]; [left; by apply Hi|set_solver|done].
      - intros i Hi. cbn in Hi. apply elem_of_difference in Hi as [Hi Hne].
        destruct (inv_kept_results _ HI i Hi) as [?|Hc]; [by left|right]. cbn.
        destruct (Hin i (or_introl Hc)); [set_solver|done].
      - cbn. lia. }
    split; [eapply ok_trans; [exact Hok|]; by apply ok_drop_sender, Hok|].
    assert (Hsame : forall i, i ∈ in_scope_results s1 -> i = scope -> i ∈ in_completed_scope_results s1).
    { intros i Hi ->. cbn in Hi |- *. destruct (Hin scope (or_intror eq_refl)); [set_solver|done]. }
    unfold drop_sender. destruct (in_watches s1 !! old); intros Hi; by apply (Hsame scope Hi).
  - split.
    + ok_intro s HI.
      * constructor; try rel_keep s. cbn. intros i _ Hi Hi'. rewrite <- E. set_solver.
      * intros i Hi. destruct (inv_kept_results _ HI i Hi) as [?|Hc]; [by left|right]. cbn. rewrite <- E. set_solver.
      * cbn. lia.
    + intros _. cbn. rewrite <- E. set_solver.
Qed.

Lemma ok_publish s scope r :
  sup_inv s -> (forall report, r = Ok report -> verified_report_ok s scope report) ->
  ok s (publish_to_watch scope r s).
Proof.
  intros HI Hr. unfold publish_to_watch. destruct (in_watches s !! scope) as [w|] eqn:E; [|by apply ok_refl].
  eapply ok_watch; [done..| |]; cbn [watch_value].
  - intros x Hx. by eapply publish_verified_kept.
  - intros x [Hx|[-> Hx]]%publish_verified_from; [by eapply (inv_watches _ HI)|]. by apply Hr.
Qed.

(** ** Creating a scope *)

(** The new scope, its operation cell and, when it is observed, its result channel. *)
Lemma ok_create s r scope before :
  sup_inv s -> (before = (fun _ s => s) \/ before = publish_watch) ->
  in_creating s = true -> registry_create_scope (in_registry s) = Some (r, scope) ->
  let s1 := before scope (set_registry r (set_creating false s)) in
  ok s (set_scope_operations ({[scope]} ∪ in_scope_operations s1)
          (set_operations (<[scope := mkScopeOperation false None]> (in_operations s1)) s1)).
Proof.
  intros HI Hb Hd Ec. destruct (registry_create_scope_wf _ _ _ (inv_registry _ HI) Ec) as (Hr & Hn & Es & En & Hlt & Ep).
  cbn zeta. set (s' := set_scope_operations _ _).
  assert (Hfields : in_registry s' = r /\ in_shutting_down s' = in_shutting_down s /\ in_creating s' = false /\
    in_attached s' = in_attached s /\ in_committing s' = in_committing s /\
    in_scope_operations s' = {[scope]} ∪ in_scope_operations s /\
    in_operations s' = <[scope := mkScopeOperation false None]> (in_operations s) /\
    in_completed_scope_results s' = in_completed_scope_results s).
  { unfold s'. destruct Hb as [Eb|Eb]; rewrite Eb; done. }
  destruct Hfields as (Ereg & Edown & Ecr & Eatt & Ecom & Eops & Ecells & Ecomp).
  assert (Hres : forall i, i ∈ in_scope_results s' -> i = scope \/ i ∈ in_scope_results s).
  { unfold s'. destruct Hb as [Eb|Eb]; rewrite Eb; cbn; [by right|]. intros i. rewrite elem_of_union, elem_of_singleton. tauto. }
  assert (Hfresh : forall w x, in_watches s !! scope = Some w -> verified_result (watch_value w) = Some x -> False).
  { intros w x Hw Hx. destruct (inv_watches _ HI _ _ _ Hw Hx) as (_ & _ & (Hle & _) & _). lia. }
  assert (Hwatch : forall i w x, verified_result (watch_value w) = Some x ->
    in_watches s' !! i = Some w <-> in_watches s !! i = Some w).
  { intros i w x Hx. unfold s'. destruct Hb as [Eb|Eb]; rewrite Eb; cbn; [done|]. rewrite lookup_insert_Some. split.
    - intros [[<- <-]|[_ ?]]; done.
    - intros Hi. right. split; [|done]. intros <-. by eapply Hfresh. }
  assert (Hat : forall i, scope_at s' i = if decide (scope = i) then Some (scope_new scope) else scope_at s i).
  { intros i. unfold scope_at. rewrite Ereg, Es.
    case_decide as E; [subst i; by rewrite lookup_insert_eq|by rewrite lookup_insert_ne]. }
  assert (HR : sup_rel s s').
  { constructor; try (unfold s'; destruct Hb as [Eb|Eb]; rewrite Eb; rel_keep s).
    - rewrite Ereg. lia.
    - intros i Hle Hi. rewrite Hat, decide_False by (intros ->; lia). done.
    - intros i sc sc' Hle H1 Hc. rewrite Hat, decide_False by (intros ->; lia). rewrite H1. naive_solver.
    - rewrite Edown. intros Hs. split; [done|]. unfold creations. rewrite Ereg, Ecr, Hd, En. cbn match. lia.
    - intros i w x Hw Hx. exists w. split; [|done]. by eapply Hwatch.
    - intros i Hle Hi. rewrite Eops. apply not_elem_of_union. split; [|done]. intros ->%elem_of_singleton. lia.
    - intros i Hle Hi Hi'. rewrite Ecomp. apply Hi. destruct (Hres i Hi') as [->|?]; [lia|done]. }
  split; [|exact HR].
  constructor; try (unfold s'; destruct Hb as [Eb|Eb]; unfold s' in HR; rewrite Eb in HR; rewrite Eb; inv_later HI HR).
  - by rewrite Ereg.
  - intros i. rewrite Hat, Eops. intros Hi. case_decide; [set_solver|].
    apply elem_of_union_r. by apply (inv_operations _ HI).
  - intros i sc q p. rewrite Hat. case_decide.
    + intros <-%(inj Some) Hp. cbn in Hp. by rewrite lookup_empty in Hp.
    + intros H1 H2. destruct (inv_tracked _ HI _ _ _ _ H1 H2) as [Ha Hv]. rewrite Eatt. split; [done|].
      intros Hx. eapply reaped_mono; [exact HR|]. by apply Hv.
  - intros q i os Ha. rewrite Eatt in Ha. destruct (inv_attached _ HI _ _ _ Ha) as (H1 & H2 & H3). rewrite Ereg, Ep, En.
    split_and!; [done|lia|lia|]. destruct H3 as [(sc & Hsc & Hp)|?]; [left|right; by eapply reaped_mono].
    exists sc. rewrite Hat, decide_False by (intros ->; lia). done.
  - intros i op r' Hi Hop. rewrite Ecells in Hi. apply lookup_insert_Some in Hi as [[<- <-]|[_ Hi]]; [done|].
    eapply report_ok_mono; [exact HR|]. by eapply (inv_serials _ HI).
  - intros i w x Hw Hx. apply (Hwatch i w x Hx) in Hw. eapply report_ok_mono; [exact HR|]. by eapply (inv_watches _ HI).
  - intros i Hi. rewrite Hat. rewrite Eops in Hi. rewrite Ecom. case_decide; [left; by eexists|].
    apply (inv_kept_operations _ HI). set_solver.
  - intros i Hi. rewrite Hat. rewrite Ecomp. case_decide; [left; by eexists|].
    destruct (Hres i Hi) as [->|Hi']; [done|]. by apply (inv_kept_results _ HI).
Qed.

Lemma ok_creation_over s : sup_inv s -> ok s (set_creating false s).
Proof.
  intros HI. ok_intro s HI.
  - constructor; try rel_keep s. intros Hd. split; [done|]. unfold creations. cbn. destruct (in_creating s); lia.
Qed.

Lemma ok_begin_creation s s' b : sup_inv s -> begin_creation s = Some (s', b) ->
  ok s s' /\ (b = false -> in_shutting_down s' = true).
Proof.
  intros HI. unfold begin_creation. destruct (in_creating s); [done|].
  destruct (in_shutting_down s) eqn:Hd; intros [= <- <-].
  - split; [by apply ok_refl|done].
  - split; [|done]. ok_intro s HI.
    + constructor; try rel_keep s. intros Hd'. congruence.
Qed.

Lemma ok_create_and_publish s s' before r :
  sup_inv s -> (before = (fun _ s => s) \/ before = publish_watch) -> create_and_publish before s = Some (s', r) ->
  ok s s' /\ (r = None -> id_succ (next_scope (in_registry s')) = None).
Proof.
  intros HI Hb. unfold create_and_publish. destruct (in_creating s) eqn:Hc; [|done]. cbn zeta.
  change (in_registry (set_creating false s)) with (in_registry s).
  destruct (registry_create_scope (in_registry s)) as [[g scope]|] eqn:Ec; cbn [fst snd]; intros [= <- <-].
  2: { split; [by apply ok_creation_over|]. intros _. cbn. unfold registry_create_scope, next_scope_id in Ec.
       by destruct (id_succ (next_scope (in_registry s))). }
  split; [|done]. by apply ok_create.
Qed.

(** ** The other fields *)

Lemma ok_outputs s h :
  sup_inv s -> output_history_wf h.1 h.2 -> ok s (observe_output h s).
Proof.
  intros HI Hh. ok_intro s HI; [constructor; rel_keep s|done].
Qed.

Lemma ok_retain_output s pid : sup_inv s -> ok s (retain_completed_output pid s).
Proof. intros HI. apply ok_outputs; [done|]. apply output_history_retain, HI. Qed.

Lemma ok_insert_output s pid o : sup_inv s -> ok s (set_outputs (<[pid := o]> (in_outputs s)) s).
Proof.
  intros HI. ok_intro s HI; [constructor; rel_keep s|]. apply output_history_insert, HI.
Qed.

Lemma ok_remember s pid os : sup_inv s -> ok s (set_os_pids (remember (in_os_pids s) pid os) s).
Proof. intros HI. ok_intro s HI; [constructor; rel_keep s|]. apply remember_wf, HI. Qed.

Lemma ok_queue s q : sup_inv s -> (length q <= PUBLISHER_QUEUE)%nat -> ok s (set_queue q s).
Proof. intros HI Hq. ok_intro s HI; [constructor; rel_keep s|done]. Qed.

Lemma ok_new_handle s : sup_inv s -> ok s (new_handle s).1.
Proof.
  intros HI. ok_intro s HI.
  - constructor; try rel_keep s. cbn. split; [lia|done].
  - intros h Hh. cbn in *. pose proof (inv_workers _ HI h Hh). lia.
  - intros h c Hc. cbn in Hc. destruct (inv_scoped _ HI h c Hc) as [Hlt Hm]. cbn. split; [lia|exact Hm].
Qed.

Lemma ok_new_worker s x :
  sup_inv s -> ok s (new_worker x s).1 /\ in_worker_of (new_worker x s).1 !! (new_worker x s).2 = Some x.
Proof.
  intros HI. split; [|cbn; by rewrite lookup_insert_eq].
  assert (Hnew : in_worker_of s !! in_next_handle s = None).
  { destruct (in_worker_of s !! in_next_handle s) eqn:E; [|done].
    pose proof (inv_workers _ HI (in_next_handle s) ltac:(eauto)). lia. }
  ok_intro s HI.
  - constructor; try rel_keep s. cbn. split; [lia|]. intros h q Hq. rewrite lookup_insert_ne; [done|congruence].
  - intros h q Hh. destruct (inv_spawns _ HI h q Hh) as (i & os & Hw & Ha). exists i, os. split; [|done]. cbn.
    rewrite lookup_insert_ne; [done|congruence].
  - intros h q r Hh. destruct (inv_joined _ HI h q r Hh) as [Hw Hr]. split; [|done]. cbn.
    rewrite lookup_insert_ne; [done|congruence].
  - intros h. cbn. rewrite lookup_insert_is_Some. intros [<-|[_ Hh%(inv_workers _ HI)]]; lia.
  - intros h c Hc. cbn in Hc. destruct (inv_scoped _ HI h c Hc) as [Hlt Hm]. cbn. split; [lia|exact Hm].
Qed.

Lemma ok_joined s h r :
  sup_inv s ->
  (forall pid x, r = Ok (pid, x) -> in_worker_of s !! h = Some (Terminates pid) /\
     forall e, x = Ok e -> backed s pid (exit_outcome e)) ->
  (forall m, r = Err m -> task_failure m s) ->
  ok s (set_joined (<[h := r]> (in_joined s)) s).
Proof.
  intros HI Hr Hm. ok_intro s HI; [constructor; rel_keep s| |].
  - intros k pid x. cbn. rewrite lookup_insert_Some. intros [[<- ->]|[_ Hk]]; [by apply Hr|].
    by apply (inv_joined _ HI).
  - intros m [[k Hk]|[[k Hk]|[i Hi]]]; [apply (inv_failures _ HI); eauto| |apply (inv_failures _ HI); eauto].
    cbn in Hk. apply lookup_insert_Some in Hk as [[_ ->]|[_ Hk]]; [by apply Hm|apply (inv_failures _ HI); eauto].
Qed.

Lemma ok_spawns s h r :
  sup_inv s ->
  (forall pid, r = Ok (Ok pid) ->
     exists scope os, in_worker_of s !! h = Some (SpawnsInto scope) /\ in_attached s !! pid = Some (scope, os)) ->
  (forall m, r = Err m -> task_failure m s) ->
  ok s (set_spawns (<[h := r]> (in_spawns s)) s).
Proof.
  intros HI Hr Hm. ok_intro s HI; [constructor; rel_keep s| |].
  - intros k pid. cbn. rewrite lookup_insert_Some. intros [[<- ->]|[_ Hk]]; [by apply Hr|].
    by eapply (inv_spawns _ HI).
  - intros m [[k Hk]|[[k Hk]|[i Hi]]]; [|apply (inv_failures _ HI); eauto..].
    cbn in Hk. apply lookup_insert_Some in Hk as [[_ ->]|[_ Hk]]; [by apply Hm|apply (inv_failures _ HI); eauto].
Qed.

(** What the join handle of a block's cleanup reports. *)
Lemma ok_cleanups s scope r :
  sup_inv s -> (forall m, r = Some m -> task_failure m s) -> ok s (set_cleanups (<[scope := r]> (in_cleanups s)) s).
Proof.
  intros HI Hm. ok_intro s HI; [constructor; rel_keep s|].
  intros m [[k Hk]|[[k Hk]|[i Hi]]]; [apply (inv_failures _ HI); eauto..|].
  cbn in Hi. apply lookup_insert_Some in Hi as [[_ ->]|[_ Hi]]; [by apply Hm|apply (inv_failures _ HI); eauto].
Qed.

(** The sampler's lock is taken by a shutdown that has verified every scope. *)
Lemma ok_sampler_lock s b : sup_inv s -> (b = true -> all_settled s) -> ok s (set_sampler_locked b s).
Proof.
  intros HI Hb. ok_intro s HI; [constructor; rel_keep s|]. intros E. eapply all_settled_mono; [exact HR|]. by apply Hb.
Qed.

Lemma ok_scoped_new s scope l :
  sup_inv s ->
  let s' := set_scoped (<[in_next_handle s := mkScopedProcesses scope l (list_to_set l)]> (in_scoped s)) (new_handle s).1 in
  ok s s'.
Proof.
  intros HI s'. subst s'.
  assert (Hnew : in_scoped s !! in_next_handle s = None).
  { destruct (in_scoped s !! in_next_handle s) eqn:E; [|done]. pose proof (proj1 (inv_scoped _ HI _ _ E)). lia. }
  ok_intro s HI.
  - constructor; try rel_keep s.
    + cbn. split; [lia|done].
    + cbn. intros h c Hc. rewrite lookup_insert_ne by congruence. eauto.
  - intros h Hh. cbn in *. pose proof (inv_workers _ HI h Hh). lia.
  - intros h c. cbn. rewrite lookup_insert_Some. intros [[<- <-]|[Hne Hc]].
    + split; [lia|]. cbn. intros pid Hpid. eexists. cbn. rewrite lookup_insert_eq. split; [done|]. left. cbn. set_solver.
    + destruct (inv_scoped _ HI h c Hc) as [Hlt Hm]. split; [lia|]. intros pid Hpid.
      eapply scoped_member_mono; [exact HR|]. by apply Hm.
Qed.

(** The owned set of a handle may shrink, and gain processes attached to its scope. *)
Lemma ok_set_owned s h owned :
  sup_inv s -> (forall pid, pid ∈ owned -> is_Some (in_scoped s !! h) -> scoped_member s h pid) ->
  ok s (set_owned h owned s).
Proof.
  intros HI Hm. unfold set_owned. destruct (in_scoped s !! h) as [c|] eqn:E; [|by apply ok_refl].
  destruct (inv_scoped _ HI h c E) as [Hlt _].
  ok_intro s HI.
  - constructor; try rel_keep s. cbn. intros k x Hx. destruct (decide (h = k)) as [<-|Hne].
    + rewrite lookup_insert_eq. rewrite E in Hx. injection Hx as <-. eexists. split; [done|]. by split.
    + rewrite lookup_insert_ne by done. eauto.
  - intros k x. cbn. rewrite lookup_insert_Some. intros [[<- <-]|[Hne Hx]].
    + split; [lia|]. intros pid Hpid. eapply scoped_member_mono; [exact HR|]. apply Hm; [done|eauto].
    + destruct (inv_scoped _ HI k x Hx) as [Hlt' Hx']. split; [lia|]. intros pid Hpid.
      eapply scoped_member_mono; [exact HR|]. by apply Hx'.
Qed.

Lemma ok_observable_owned s h :
  sup_inv s -> ok s (observable_owned h s).1 /\
  forall pid, pid ∈ (observable_owned h s).2 -> scoped_member s h pid.
Proof.
  intros HI. unfold observable_owned. cbn zeta. cbn [fst snd].
  assert (Hall : forall pid, pid ∈ filter (fun pid => observable (sp_scope (scoped_handle h s)) s pid = true)
    (sp_owned (scoped_handle h s)) -> scoped_member s h pid).
  { intros pid [_ Hpid]%elem_of_filter. unfold scoped_handle in Hpid.
    destruct (in_scoped s !! h) as [c|] eqn:E; cbn in Hpid; [|set_solver]. by apply (inv_scoped _ HI h c E). }
  split; [|done]. apply ok_set_owned; [done|]. intros pid Hpid _. by apply Hall.
Qed.

Lemma ok_admission s h o :
  sup_inv s -> observation_ok s o -> ok s (set_admissions (<[h := o]> (in_admissions s)) s).
Proof.
  intros HI Ho. ok_intro s HI; [constructor; rel_keep s|].
  intros k x. cbn. rewrite lookup_insert_Some. intros [[<- <-]|[_ Hk]]; [exact Ho|].
  by apply (inv_admissions _ HI k).
Qed.

Lemma ok_take_admission s h :
  sup_inv s -> ok s (take_admission h s).1 /\
  forall o, (take_admission h s).2 = Some o -> observation_ok (take_admission h s).1 o.
Proof.
  intros HI. split.
  - ok_intro s HI; [constructor; rel_keep s|].
    intros k x. cbn. rewrite lookup_delete_Some. intros [_ Hk]. by apply (inv_admissions _ HI k).
  - cbn. intros o Ho. by apply (inv_admissions _ HI h).
Qed.
End Steps.

(** An update of fields that the invariant and [sup_rel] do not mention. *)
Ltac ok_inert s HI := split; [constructor; inv_keep HI|constructor; rel_keep s].
