(* ===== verification/SupervisorSafe.v ===== *)
(** * SupervisorSafe: every program of the supervisor keeps the invariant

    One lemma per operation and task: among arbitrary other activity it keeps
    [sup_inv], moves along [sup_rel], panics only as [may_panic] says, and its
    value is what [returned_ok] says. The postconditions are the specifications the
    callers use. *)

From stdpp Require Import base list gmap strings.
From S2P Require Import Prelude StdModel Values Process Scope Registry Waiters Usage.
From S2P Require Import Observation Ports History Conc State Dispatch Supervisor SupervisorInv.
From S2P Require Import SupervisorSteps.

Open Scope Z_scope.

(** Chains of known steps between states. *)
Ltac sup_later :=
  match goal with
  | |- sup_rel ?a ?a => reflexivity
  | H : sup_rel ?a ?b |- sup_rel ?a ?c =>
      first [exact H | assert_fails (constr_eq a b); transitivity b; [exact H|]; clear H; sup_later]
  end.

Section Safe.
Context {W F : Type} `{!WaitersPort W F, !WaitersLaws W F}.

Abbreviation Inner := (Inner W F) (only parsing).
Abbreviation SProg := (SProg W F) (only parsing).
Implicit Types (s : Inner) (scope : ProcessScopeId) (pid : ProcessId).

Definition observer_ok (s : Inner) (o : Observer F) (pid : ProcessId) : Prop :=
  match o with
  | ObserverReady e => backed s pid (exit_outcome e)
  | ObserverWait f => fut_ok s f pid
  end.

Definition task_pre (t : Task F) (s : Inner) : Prop :=
  match t with
  | TaskMonitor scope pid spawned => attached_as s pid scope (spawned_os spawned)
  | TaskSpawn h scope _ _ => in_worker_of s !! h = Some (SpawnsInto scope)
  | TaskTerminate h pid o _ => in_worker_of s !! h = Some (Terminates pid) /\ observer_ok s o pid
  | _ => True
  end.

Definition swp {A} (p : SProg A) (post : A -> Inner -> Prop) (s0 : Inner) : Prop :=
  wp (@answer W F) sup_inv sup_rel task_pre may_panic p post s0.

#[export] Instance sup_rel_preorder : PreOrder (@sup_rel W F _ _).
Proof. split; apply _. Qed.

Lemma observer_ok_mono s s' o pid : sup_rel s s' -> observer_ok s o pid -> observer_ok s' o pid.
Proof. destruct o; cbn; [apply backed_mono|apply fut_ok_mono]. Qed.

(** ** Rules *)

Lemma swp_bind {A B} (p : SProg A) (g : A -> SProg B) P post s0 :
  swp p P s0 -> (forall x s, sup_rel s0 s -> sup_inv s -> P x s -> swp (g x) post s) ->
  swp (bind p g) post s0.
Proof. intros Hp Hg. apply wp_bind; [apply _|]. eapply wp_mono; [apply _|exact Hg|exact Hp]. Qed.

Lemma swp_mono {A} (p : SProg A) (P post : A -> Inner -> Prop) s0 :
  swp p P s0 -> (forall a s, sup_rel s0 s -> sup_inv s -> P a s -> post a s) -> swp p post s0.
Proof. intros Hp H. eapply wp_mono; [apply _|exact H|exact Hp]. Qed.

Lemma swp_ret {A} (a : A) (post : A -> Inner -> Prop) s0 :
  (forall s, sup_rel s0 s -> sup_inv s -> post a s) -> swp (Ret a) post s0.
Proof. done. Qed.

Lemma swp_later {A} (p : SProg A) post s0 s1 : sup_rel s0 s1 -> swp p post s0 -> swp p post s1.
Proof. apply wp_later, _. Qed.

(** What is known after a critical section: it ran in some state [s1] in between. *)
Lemma swp_act {X} (f : Inner -> Inner * X) s0 :
  (forall s, sup_rel s0 s -> sup_inv s -> ok s (f s).1) ->
  swp (act f) (fun x s => exists s1, sup_rel s0 s1 /\ sup_inv s1 /\ x = (f s1).2 /\ sup_rel (f s1).1 s) s0.
Proof.
  intros H. apply wp_act. intros s H0 Hs. destruct (H s H0 Hs) as [HI HR]. split_and!; [done..|]. eauto 10.
Qed.

Lemma swp_modify (f : Inner -> Inner) s0 :
  (forall s, sup_rel s0 s -> sup_inv s -> ok s (f s)) ->
  swp (modify f) (fun _ s => exists s1, sup_rel s0 s1 /\ sup_inv s1 /\ sup_rel (f s1) s) s0.
Proof.
  intros H. eapply swp_mono; [by apply swp_act|]. intros [] s _ _ (s1 & ? & ? & _ & ?). eauto.
Qed.

Lemma swp_update (f : Inner -> Inner) s0 :
  (forall s, sup_rel s0 s -> sup_inv s -> ok s (f s)) -> swp (modify f) (fun _ _ => True) s0.
Proof. intros H. eapply swp_mono; [by apply swp_modify|done]. Qed.

Lemma swp_reads {X} (f : Inner -> X) s0 :
  swp (reads f) (fun x s => exists s1, sup_rel s0 s1 /\ sup_inv s1 /\ x = f s1 /\ sup_rel s1 s) s0.
Proof. apply (swp_act (fun s => (s, f s))). intros s _ Hs. by apply ok_refl. Qed.

(** [c] was answered between [s0] and [s]. *)
Definition called_since (s0 s : Inner) (c : port_call) : Prop :=
  exists l, in_calls s = l ++ in_calls s0 /\ c ∈ l.

Lemma called_since_answer s0 s s' c : sup_rel s0 s -> sup_rel (record_call c s) s' -> called_since s0 s' c.
Proof.
  intros H0 H. destruct (rel_calls _ _ H0) as [l0 E0], (rel_calls _ _ H) as [l E]. cbn in E.
  exists (l ++ c :: l0). rewrite E, E0, <- app_assoc. split; [done|]. apply elem_of_app. right. left.
Qed.

Lemma called_since_mono s0 s s' c : sup_rel s s' -> called_since s0 s c -> called_since s0 s' c.
Proof.
  intros H (l & E & Hc). destruct (rel_calls _ _ H) as [l' E']. exists (l' ++ l).
  rewrite E', E, app_assoc. split; [done|]. apply elem_of_app. by right.
Qed.

Lemma called_since_calls s0 s c : called_since s0 s c -> c ∈ in_calls s.
Proof. intros (l & -> & Hc). apply elem_of_app. by left. Qed.

Lemma called_since_after s0 s pid scope os c :
  attached_as s0 pid scope os -> called_since s0 s c -> called_after s pid c.
Proof. intros [_ Hm] (l & E & Hc). by exists l, (in_calls s0). Qed.

Lemma swp_call {X} (q : Port X) s0 : swp (call q) (fun x s => called_since s0 s (port_label X q x)) s0.
Proof.
  apply wp_call. intros s x H0 Hs. destruct (ok_calls s (port_label X q x) Hs) as [HI HR]. split_and!; [done..|].
  intros s' H' _. by eapply called_since_answer.
Qed.

(** What an event can have done when it fires. *)
Lemma swp_wait {X} (e : Event X) (P : X -> Inner -> Prop) s0 :
  (forall s s' x, sup_rel s0 s -> sup_inv s -> fires (@answer W F) e s s' x ->
     ok s s' /\ forall s'', sup_rel s' s'' -> sup_inv s'' -> P x s'') ->
  swp (Wait e id Ret) P s0.
Proof.
  intros H. apply wp_wait; [apply _|]. intros s s' x H0 Hs Hf. destruct (H s s' x H0 Hs Hf) as [[HI HR] HP]. done.
Qed.

Lemma swp_ask {X} (q : Port X) s0 : swp (ask q) (fun x s => called_since s0 s (port_label X q x)) s0.
Proof.
  apply swp_wait. intros s s' x H0 Hs Hf. cbn in Hf. subst s'. split; [by apply ok_calls|].
  intros s'' H' _. by eapply called_since_answer.
Qed.

Lemma swp_await {X} (f : Inner -> option (Inner * X)) s0 :
  (forall s s' x, sup_rel s0 s -> sup_inv s -> f s = Some (s', x) -> ok s s') ->
  swp (await f) (fun x s => exists s1 s2, sup_rel s0 s1 /\ sup_inv s1 /\ f s1 = Some (s2, x) /\ sup_rel s2 s) s0.
Proof. intros H. apply swp_wait. intros s s' x H0 Hs Hf. split; [by eapply H|]. eauto 10. Qed.

Lemma swp_fork t s0 :
  (forall s, sup_rel s0 s -> sup_inv s -> task_pre t s) -> swp (fork t) (fun _ _ => True) s0.
Proof. intros H. apply wp_fork. eauto. Qed.

Lemma swp_panic {A} m (post : A -> Inner -> Prop) s0 : (forall s, sup_rel s0 s -> sup_inv s -> may_panic m s) -> swp (Panic m) post s0.
Proof. done. Qed.

Lemma swp_cancel_with {A} d (p : SProg A) post s0 :
  (forall s, sup_inv s -> ok s (d s)) -> swp p post s0 -> swp (cancel_with d p) post s0.
Proof. intros Hd. apply wp_cancel_with; [apply _|exact may_panic_mono|]. intros s Hs. by apply Hd. Qed.

Lemma swp_guarded {A} d (p : SProg A) (post : A -> Inner -> Prop) s0 :
  (forall s, sup_inv s -> ok s (d s)) ->
  (forall a s s', sup_rel s0 s -> post a s -> sup_rel s s' -> sup_inv s' -> post a s') ->
  swp p post s0 -> swp (guarded d p) post s0.
Proof. intros Hd. apply wp_guarded; [apply _|exact may_panic_mono|]. intros s Hs. by apply Hd. Qed.

Lemma swp_timeout {A} (d : Duration) (p : SProg A) (post : option A -> Inner -> Prop) s0 :
  (forall s, sup_rel s0 s -> sup_inv s -> post None s) ->
  swp p (fun a s => post (Some a) s) s0 -> swp (timeout (TimerElapsed d) p) post s0.
Proof. apply wp_timeout; [apply _|]. intros x s Hs. by apply ok_calls. Qed.

Lemma swp_catch {A} (p : SProg A) (post : result A string -> Inner -> Prop) s0 :
  (forall m s, sup_rel s0 s -> sup_inv s -> may_panic m s -> post (Err m) s) ->
  swp p (fun a s => post (Ok a) s) s0 -> swp (catch p) post s0.
Proof. intros H. apply wp_catch; [apply _|exact H]. Qed.

Lemma swp_ignore {A} (p : SProg A) P s0 : swp p P s0 -> swp (bind p (fun _ => Ret tt)) (fun _ _ => True) s0.
Proof. intros Hp. eapply swp_bind; [exact Hp|done]. Qed.

(** ** Dispatch *)

Definition event_ok (s : Inner) (event : DomainEvent) : Prop :=
  match event with ProcessReaped _ pid e => backed s pid (exit_outcome e) | _ => True end.

Lemma event_ok_mono s s' event : sup_rel s s' -> event_ok s event -> event_ok s' event.
Proof. destruct event; cbn; try done. apply backed_mono. Qed.

Lemma events_ok_mono s s' events : sup_rel s s' -> Forall (event_ok s) events -> Forall (event_ok s') events.
Proof. intros H He. eapply Forall_impl; [exact He|]. intros e. by apply event_ok_mono. Qed.

Lemma without_closed_ok s events : Forall (event_ok s) events -> Forall (event_ok s) (without_closed events).
Proof.
  rewrite !Forall_forall. intros H e He. apply H. apply list_elem_of_In in He.
  apply filter_In in He as [He _]. by apply list_elem_of_In.
Qed.

Lemma ok_notify_unverified s scope pid e :
  sup_inv s -> backed s pid (exit_outcome e) -> ok s (notify_unverified scope pid e s).
Proof.
  intros HI Hb. unfold notify_unverified. destruct (exit_unverified _); [by apply ok_signal|by apply ok_refl].
Qed.

Lemma swp_wait_notifier b event s0 :
  event_ok s0 event -> swp (wait_notifier b event) (fun _ _ => True) s0.
Proof.
  intros He. destruct event as [| | |scope pid e|]; try done. cbn in He. cbn [wait_notifier].
  eapply swp_bind with (P := fun _ _ => True); [|by intros].
  destruct (_ && _); apply swp_update; intros s H0 Hs.
  - apply ok_notify_unverified; [done|]. by eapply backed_mono.
  - apply ok_signal; [done|]. by eapply backed_mono.
Qed.

Lemma swp_prune_handler event s0 : swp (registry_prune_handler event) (fun _ _ => True) s0.
Proof.
  eapply swp_bind; [|by intros]. apply swp_update. intros s _ Hs.
  destruct event as [| | |scope pid e|]; try by apply ok_refl.
  destruct (is_verified _); [|by apply ok_refl]. by apply (ok_update_scope s scope (SPrune pid)).
Qed.

Lemma ok_take_receiver s : sup_inv s -> ok s (take_receiver s).1.
Proof. intros HI. unfold take_receiver. destruct (in_receiver s); cbn; [ok_inert s HI|by apply ok_refl..]. Qed.

Lemma ok_try_send s event : sup_inv s -> ok s (try_send event s).1.
Proof.
  intros HI. unfold try_send. assert (ok s (if (length (in_queue s) <? PUBLISHER_QUEUE)%nat
    then (set_queue (in_queue s ++ [event]) s, true) else (s, false)).1) as Hs.
  { destruct (Nat.ltb_spec (length (in_queue s)) PUBLISHER_QUEUE) as [Hlt|]; [|by apply ok_refl].
    apply ok_queue; [done|]. rewrite length_app. cbn. lia. }
  destruct (in_receiver s); [exact Hs|exact Hs|by apply ok_refl].
Qed.

Lemma swp_translator event s0 : swp (integration_translator event) (fun _ _ => True) s0.
Proof.
  unfold integration_translator. destruct (integration_event event) as [e|]; [|done].
  eapply swp_bind; [apply swp_act; intros s _ Hs; by apply ok_take_receiver|]. intros taken s1 _ _ _.
  eapply swp_bind; [|intros _ s2 _ _ _].
  { instantiate (1 := fun _ _ => True). destruct taken; [by apply swp_fork|done]. }
  eapply swp_bind; [|by intros]. apply swp_act. intros s _ Hs. by apply ok_try_send.
Qed.

Lemma swp_dispatch events s0 :
  Forall (event_ok s0) events -> swp (dispatch_events events) (fun _ _ => True) s0.
Proof.
  intros He. eapply swp_mono with (P := fun _ s => Forall (event_ok s) []); [|done]. unfold dispatch_events, dispatch.
  apply wp_for_each with (inv := fun l s => Forall (event_ok s) l); [apply _| |done|].
  2: { intros l s s' Hl HR _. by eapply events_ok_mono. }
  intros event l s _ Hs Hl. apply Forall_cons in Hl as [Hev Hl]. cbn [for_each supervisor_handlers].
  assert (Hfin : forall s', sup_rel s s' -> Forall (event_ok s') l) by (intros; by eapply events_ok_mono).
  eapply swp_bind; [by eapply swp_ignore, swp_wait_notifier|]. intros _ s1 H1 _ _.
  eapply swp_bind; [by eapply swp_ignore, swp_prune_handler|]. intros _ s2 H2 _ _.
  eapply swp_bind; [by eapply swp_ignore, swp_translator|]. intros _ s3 H3 _ _.
  apply swp_ret. intros s4 H4 _. apply Hfin. by do 3 (etrans; [eassumption|]).
Qed.

Lemma swp_publisher s0 : swp publisher_task (fun _ _ => True) s0.
Proof.
  apply swp_cancel_with.
  { intros s HI. ok_intro s HI; [constructor; rel_keep s|]. cbn. lia. }
  eapply swp_bind; [apply swp_await|].
  { intros s s' x _ Hs. unfold recv. destruct (in_queue s) as [|e q] eqn:E; intros [= <- <-].
    apply ok_queue; [done|]. pose proof (inv_queue _ Hs) as Hq. rewrite E in Hq. cbn in Hq. lia. }
  intros e s1 _ _ _. eapply swp_bind; [|intros _ s2 _ _ _; by apply swp_fork].
  instantiate (1 := fun _ _ => True). apply swp_timeout; [done|]. eapply swp_mono; [apply swp_ask|done].
Qed.

(** ** The sampler *)

Lemma live_ids_tracked s scope sc pid :
  sup_inv s -> scope_at s scope = Some sc -> pid ∈ live_process_ids sc -> is_Some (processes sc !! pid).
Proof.
  intros HI Hsc Hpid. pose proof (rg_scopes _ (inv_registry _ HI) _ _ Hsc) as Hwf.
  apply list_elem_of_fmap in Hpid as (p & -> & [_ Hp]%list_elem_of_filter).
  apply elem_of_bt_values in Hp as [k Hk]. rewrite (wf_ids _ Hwf _ _ Hk). eauto.
Qed.

Lemma sampler_targets_total s : sup_inv s -> is_Some (sampler_targets (in_registry s)).
Proof.
  intros HI. unfold sampler_targets. apply fmap_is_Some, mapM_is_Some, Forall_forall.
  intros id Hid. unfold scope_ids in Hid. apply elem_of_bt_keys in Hid as [sc Hsc].
  unfold registry_get, compose. rewrite Hsc. cbn. apply mapM_is_Some, Forall_forall. intros pid Hpid.
  destruct (live_ids_tracked _ _ _ _ HI Hsc Hpid) as [p Hp]. unfold scope_get, compose. rewrite Hp. by eexists.
Qed.

Lemma ok_insert_sample s pid sample : sup_inv s -> ok s (insert_sample pid sample s).
Proof.
  intros HI. unfold insert_sample. destruct (find_process _ _) as [p|]; [|by apply ok_refl].
  destruct (is_live _); [ok_inert s HI|by apply ok_refl].
Qed.

Lemma swp_record_sample pid r s0 : swp (record_sample pid r) (fun _ _ => True) s0.
Proof.
  assert (Hins : forall x s1, swp (modify (insert_sample pid x)) (fun _ _ => True) s1).
  { intros x s1. apply swp_update. intros s _ Hs. by apply ok_insert_sample. }
  unfold record_sample. destruct r as [raw|e]; [|apply Hins].
  eapply swp_bind; [apply swp_reads|]. intros start s1 _ _ _.
  eapply swp_bind; [|intros uptime s2 _ _ _; apply Hins]. instantiate (1 := fun _ _ => True).
  destruct start; [|done]. eapply swp_bind; [apply swp_call|]. done.
Qed.

Lemma swp_sampler pending s0 : swp (sampler_task pending) (fun _ _ => True) s0.
Proof.
  apply swp_cancel_with; [intros s HI; ok_inert s HI|].
  eapply swp_bind; [apply swp_reads|]. intros interval s1 _ _ _.
  eapply swp_bind with (P := fun _ _ => True).
  { unfold sampler_event. destruct pending.
    - eapply swp_bind; [apply swp_ask|]. done.
    - apply swp_wait. intros s s' [x|x] _ Hs Hf; cbn in Hf; subst s'; (split; [by apply ok_calls|done]). }
  intros [[]|[i o]] s2 _ _ _.
  - eapply swp_bind; [apply swp_reads|]. intros targets s3 _ _ (s4 & _ & HI & -> & _).
    destruct (sampler_targets_total s4 HI) as [l ->]. by apply swp_fork.
  - destruct (pending !! i) as [[[pid sp] b]|]; [|by apply swp_fork].
    eapply swp_bind with (P := fun _ _ => True); [|intros _ s3 _ _ _; by apply swp_fork].
    destruct (observed_sample o); [apply swp_record_sample|done].
Qed.

Lemma swp_start_sampler s0 : swp start_sampler (fun _ _ => True) s0.
Proof.
  eapply swp_bind; [apply swp_act; intros s _ HI; ok_inert s HI|]. intros [] s1 _ _ _; [done|].
  eapply swp_bind; [by apply swp_fork|]. intros _ s2 _ _ _.
  eapply swp_bind; [apply swp_reads|]. intros [] s3 _ _ Hl.
  - destruct Hl as (s4 & _ & HI4 & E & H43). apply swp_panic. intros s H _. do 4 right. split; [done|].
    eapply all_settled_mono; [|exact (inv_sampler_locked _ HI4 (eq_sym E))]. sup_later.
  - apply swp_update. intros s _ HI. ok_inert s HI.
Qed.

(** ** The monitor and the recovery of an exit *)

Lemma set_registry_twice s scope sc1 sc2 :
  let s1 := set_registry (registry_set (in_registry s) scope sc1) s in
  set_registry (registry_set (in_registry s1) scope sc2) s1 = set_registry (registry_set (in_registry s) scope sc2) s.
Proof.
  cbn zeta. unfold registry_set at 1. cbn [in_registry set_registry scopes next_scope next_process].
  unfold set_registry. cbn. f_equal. unfold registry_set. cbn. by rewrite insert_insert_eq.
Qed.

Lemma record_exit_events_ok s sc pid : Forall (event_ok s) (events_of (record_exit sc pid).2).
Proof.
  unfold record_exit. destruct (processes sc !! pid) as [p|]; [|by constructor].
  destruct (mark_exited p) as [q []]; cbn; repeat constructor.
Qed.

Lemma record_reaped_events_ok s sc pid e :
  backed s pid (exit_outcome e) -> Forall (event_ok s) (events_of (record_reaped sc pid e).2).
Proof.
  intros Hb. unfold record_reaped. destruct (processes sc !! pid) as [p|]; [|by constructor].
  destruct (mark_reaped p e) as [q []]; [|by repeat constructor].
  cbn zeta. destruct (_ && _); cbn; repeat constructor; exact Hb.
Qed.

(** Recording a reap, and the outcome of a draining scope. *)
Lemma record_reaped_ok s scope sc pid e (b : bool) :
  sup_inv s -> scope_at s scope = Some sc -> backed s pid (exit_outcome e) ->
  let s1 := set_registry (registry_set (in_registry s) scope (record_reaped sc pid e).1) s in
  ok s (if b then insert_pending scope <[pid := exit_outcome e]> s1 else s1).
Proof.
  intros HI Hsc Hb s1. assert (ok s s1) as Hok.
  { pose proof (ok_scope_op s scope sc (SReap pid e) HI Hsc Hb) as H. cbn in H. subst s1.
    by destruct (record_reaped sc pid e). }
  destruct b; [|done]. eapply ok_trans; [done|]. apply ok_pending_insert; [apply Hok|].
  eapply backed_mono; [apply Hok|done].
Qed.

Definition wait_answered (s : Inner) (scope : ProcessScopeId) (pid : ProcessId) (spawned : Spawned)
    (raw : RawExit) : Prop :=
  attached_as s pid scope (spawned_os spawned) /\ called_after s pid (DidWait spawned (Returned (Ok raw))).

Lemma wait_answered_reaped s scope pid spawned raw : wait_answered s scope pid spawned raw -> reaped s pid.
Proof. intros [[Ha _] Hc]. exists scope, (spawned_os spawned), raw. by destruct spawned. Qed.

Lemma wait_answered_mono s s' scope pid spawned raw :
  sup_rel s s' -> wait_answered s scope pid spawned raw -> wait_answered s' scope pid spawned raw.
Proof. intros H [Ha Hc]. split; [by eapply attached_as_mono|by eapply called_after_mono]. Qed.

Lemma monitor_exit_backed s scope pid spawned p message answered :
  attached_as s pid scope (spawned_os spawned) -> called_after s pid (DidWait spawned answered) ->
  backed s pid (exit_outcome (monitor_exit pid p (caught message answered))).
Proof.
  intros Ha Hc Hv. unfold monitor_exit in Hv.
  destruct answered as [[raw|e]|]; cbn in Hv; [|done|done].
  by eapply wait_answered_reaped.
Qed.

Lemma monitor_record_ok s scope pid spawned message answered :
  sup_inv s -> attached_as s pid scope (spawned_os spawned) -> called_after s pid (DidWait spawned answered) ->
  let r := monitor_record scope pid (caught message answered) s in
  ok s r.1 /\ forall events, r.2 = Some events -> Forall (event_ok s) events.
Proof.
  intros HI Ha Hc. unfold monitor_record, registry_get.
  destruct (scopes (in_registry s) !! scope) as [sc|] eqn:Hsc; [|by split; [apply ok_refl|]].
  unfold scope_get. destruct (processes sc !! pid) as [p|] eqn:Hp; [|by split; [apply ok_refl|]].
  pose proof (monitor_exit_backed s scope pid spawned p message answered Ha Hc) as Hb.
  set (e := monitor_exit pid p (caught message answered)) in *.
  pose proof (ok_scope_op s scope sc (SExit pid) HI Hsc I) as Hok1. cbn in Hok1.
  pose proof (record_exit_events_ok s sc pid) as Hev1.
  destruct (record_exit sc pid) as [sc1 exited] eqn:E1. cbn in Hok1, Hev1.
  set (s1 := set_registry (registry_set (in_registry s) scope sc1) s) in Hok1.
  assert (Hsc1 : scope_at s1 scope = Some sc1) by (subst s1; by rewrite scope_at_set, decide_True).
  pose proof (record_reaped_ok s1 scope sc1 pid e) as Hok2.
  pose proof (record_reaped_events_ok s sc1 pid e Hb) as Hev2.
  destruct (record_reaped sc1 pid e) as [sc2 reaped_events] eqn:E2. cbn [fst snd] in Hok2, Hev2 |- *.
  split.
  - eapply ok_trans; [exact Hok1|]. destruct Hok1 as [HI1 HR1].
    specialize (Hok2 (negb (is_open sc2)) HI1 Hsc1 ltac:(by eapply backed_mono)). cbn zeta in Hok2.
    subst s1. rewrite set_registry_twice in Hok2. exact Hok2.
  - intros events [= <-]. apply without_closed_ok. by apply Forall_app.
Qed.

Lemma swp_monitor scope pid spawned s0 :
  attached_as s0 pid scope (spawned_os spawned) ->
  swp (monitor_task scope pid spawned) (fun _ _ => True) s0.
Proof.
  intros Ha. eapply swp_bind; [apply swp_ask|]. intros answered s1 H1 HI1 Hc. cbn in Hc.
  pose proof (called_since_after _ _ _ _ _ _ Ha Hc) as Hc1.
  assert (Ha1 : forall s, sup_rel s1 s -> attached_as s pid scope (spawned_os spawned)).
  { intros s H. eapply attached_as_mono; [|exact Ha]. by etrans. }
  assert (Hrec : forall s, sup_rel s1 s -> sup_inv s ->
    let r := monitor_record scope pid (caught "waiter panicked" answered) s in
    ok s r.1 /\ forall events, r.2 = Some events -> Forall (event_ok s) events).
  { intros s H HI. eapply monitor_record_ok; [done|by apply Ha1|by eapply called_after_mono]. }
  eapply swp_bind; [apply swp_act|].
  { intros s H HI. by apply Hrec. }
  intros events s2 _ _ (s3 & H3 & HI3 & Eev & H32). destruct events as [events|]; [|done].
  destruct (Hrec s3 H3 HI3) as [Hok Hev]. specialize (Hev events (eq_sym Eev)).
  assert (Hev2 : Forall (event_ok s2) events).
  { eapply events_ok_mono; [|exact Hev]. etrans; [apply Hok|exact H32]. }
  eapply swp_bind; [apply swp_update; intros s _ HI; ok_inert s HI|]. intros _ s4 H4 _ _.
  eapply swp_bind with (P := fun _ _ => True).
  { destruct (result_is_ok _); [|done]. apply swp_update. intros s _ HI. by apply ok_retain_output. }
  intros _ s5 H5 _ _.
  eapply swp_bind; [apply swp_dispatch; eapply events_ok_mono; [|exact Hev2]; by etrans|].
  intros _ s6 _ _ _. apply swp_update. intros s _ HI. ok_inert s HI.
Qed.

Lemma swp_kill_orphan spawned s0 : swp (kill_orphan spawned) (fun _ _ => True) s0.
Proof.
  eapply swp_bind; [apply swp_ask|]. intros _ s1 _ _ _.
  eapply swp_bind; [apply swp_ask|]. intros [r|] s2 _ _ Hc; [done|]. apply swp_panic. intros s H _.
  do 3 right; left. split; [done|]. exists spawned. eapply calls_mono; [exact H|]. by eapply called_since_calls.
Qed.

Lemma recover_ok s scope pid spawned raw :
  sup_inv s -> wait_answered s scope pid spawned raw ->
  let r := recover scope pid raw s in
  ok s r.1 /\ forall e events, r.2 = Ok (e, events) ->
    backed s pid (exit_outcome e) /\ Forall (event_ok s) events.
Proof.
  intros HI Hw. pose proof (wait_answered_reaped _ _ _ _ _ Hw) as Hr.
  assert (Hsettle : forall e events s1, ok s s1 -> backed s pid (exit_outcome e) -> Forall (event_ok s) events ->
    let r := (signal_waiters pid e (retain_completed_output pid s1), Ok (e, without_closed events) : result _ TerminateError) in
    ok s r.1 /\ forall e' events', r.2 = Ok (e', events') ->
      backed s pid (exit_outcome e') /\ Forall (event_ok s) events').
  { intros e events s1 Hok Hb Hev r. cbn. split.
    - eapply ok_trans; [exact Hok|]. destruct Hok as [HI1 HR1].
      pose proof (ok_retain_output s1 pid HI1) as [HI2 HR2]. eapply ok_trans; [by split|].
      apply ok_signal; [done|]. by do 2 (eapply backed_mono; [eassumption|]).
    - intros e' events' [= <- <-]. split; [done|]. by apply without_closed_ok. }
  assert (Hrec : backed s pid (exit_outcome (recovered_exit pid raw))) by by intros _.
  unfold recover, registry_get. cbv beta zeta.
  destruct (scopes (in_registry s) !! scope) as [sc|] eqn:Hsc; [|apply Hsettle; [by apply ok_refl|done|by constructor]].
  unfold scope_get. destruct (processes sc !! pid) as [p|] eqn:Hp; [|apply Hsettle; [by apply ok_refl|done|by constructor]].
  destruct (verified_exit (process_exit p)) as [e|] eqn:Ev.
  - apply Hsettle; [by apply ok_refl| |by constructor]. intros _. by eapply wait_answered_reaped.
  - pose proof (record_reaped_ok s scope sc pid (recovered_exit pid raw)) as Hok.
    pose proof (record_reaped_events_ok s sc pid _ Hrec) as Hev.
    destruct (record_reaped sc pid (recovered_exit pid raw)) as [sc' [events|err]]; cbn [fst snd] in *.
    + apply Hsettle; [|done|done]. by apply (Hok (negb (is_open sc'))).
    + split; [by apply (Hok false)|done].
Qed.

Definition exit_post {E} (pid : ProcessId) (r : result ProcessExit E) (s : Inner) : Prop :=
  forall e, r = Ok e -> backed s pid (exit_outcome e).

Lemma exit_post_mono {E} pid (r : result ProcessExit E) s s' : sup_rel s s' -> exit_post pid r s -> exit_post pid r s'.
Proof. intros H Hp e He. eapply backed_mono; eauto. Qed.

Lemma swp_record_recovered scope pid spawned raw s0 :
  wait_answered s0 scope pid spawned raw -> swp (record_recovered_exit scope pid raw) (exit_post pid) s0.
Proof.
  intros Hw. assert (Hrec : forall s, sup_rel s0 s -> sup_inv s -> let r := recover scope pid raw s in
    ok s r.1 /\ forall e events, r.2 = Ok (e, events) -> backed s pid (exit_outcome e) /\ Forall (event_ok s) events).
  { intros s H HI. eapply recover_ok; [done|]. by eapply wait_answered_mono. }
  eapply swp_bind; [apply swp_act; intros s H HI; by apply Hrec|].
  intros r s1 _ HI1 (s2 & H2 & HI2 & Er & H21). destruct r as [[e events]|err].
  - destruct (Hrec s2 H2 HI2) as [Hok Hpost]. destruct (Hpost e events (eq_sym Er)) as [Hb Hev].
    assert (HR : sup_rel s2 s1) by (etrans; [apply Hok|done]).
    eapply swp_bind; [apply swp_dispatch; by eapply events_ok_mono|]. intros _ s3 H3 _ _.
    apply swp_ret. intros s4 H4 _ x [= <-]. eapply backed_mono; [|exact Hb]. by do 2 (etrans; [eassumption|]).
  - apply swp_ret. by intros s3 _ _ x [= ].
Qed.

(** ** Waiting and terminating *)

Lemma find_process_tracked s pid p :
  sup_inv s -> find_process (in_registry s) pid = Some p ->
  exists scope sc, scope_at s scope = Some sc /\ processes sc !! pid = Some p.
Proof.
  intros HI. unfold find_process, scope_of_get, registry_get, scope_get.
  destruct (scope_of (in_registry s) pid) as [scope|]; [|done]. cbn.
  destruct (scopes (in_registry s) !! scope) as [sc|] eqn:E; [|done]. cbn. eauto.
Qed.

(** Recorded evidence of a tracked process is backed. *)
Lemma tracked_exit_backed s scope sc pid p e :
  sup_inv s -> scope_at s scope = Some sc -> processes sc !! pid = Some p -> process_exit p = Some e ->
  backed s pid (exit_outcome e).
Proof. intros HI Hsc Hp He Hv. apply (inv_tracked _ HI _ _ _ _ Hsc Hp). by rewrite He. Qed.

Lemma exit_ready_ok s f s' e : sup_inv s -> exit_ready f s = Some (s', e) -> ok s s'.
Proof. unfold exit_ready. destruct (poll (in_waiters s) f); cbn; intros HI [= <- <-]. by apply ok_refl. Qed.

Lemma exit_ready_backed s f pid s' e :
  fut_ok s f pid -> exit_ready f s = Some (s', e) -> s' = s /\ backed s pid (exit_outcome e).
Proof. unfold exit_ready. intros [_ Hf]. destruct (poll (in_waiters s) f) eqn:E; cbn; intros [= <- <-]. eauto. Qed.

Lemma swp_exit_ready f pid s0 :
  fut_ok s0 f pid -> swp (await (exit_ready f)) (fun e s => backed s pid (exit_outcome e)) s0.
Proof.
  intros Hf. eapply swp_mono; [apply swp_await|].
  - intros s s' e _ HI H. by eapply exit_ready_ok.
  - intros e s _ _ (s1 & s2 & H1 & HI1 & He & H2).
    destruct (exit_ready_backed s1 f pid s2 e) as [-> Hb]; [by eapply fut_ok_mono|done|]. by eapply backed_mono.
Qed.

Lemma swp_known_exit pid (f : Inner -> option ProcessExit) s0 :
  (forall s e, f s = Some e -> try_get (in_waiters s) pid = Some e) ->
  swp (reads f) (fun o s => forall e, o = Some e -> backed s pid (exit_outcome e)) s0.
Proof.
  intros Hf. eapply swp_mono; [apply swp_reads|]. intros o s _ _ (s1 & _ & HI & -> & H) e He.
  eapply backed_mono; [done|]. apply (inv_known _ HI). by apply Hf.
Qed.

Lemma wait_register_ok s pid :
  sup_inv s -> let r := wait_register pid s in
  ok s r.1 /\ match r.2 with WaitDone r' => exit_post pid r' r.1 | WaitOn f => fut_ok r.1 f pid end.
Proof.
  intros HI. unfold wait_register. destruct (scope_of_get (in_registry s) pid) as [sc|] eqn:Esc; cbn zeta.
  2: { split; [by apply ok_refl|]. cbn. intros e He. apply (inv_known _ HI).
       destruct (try_get (in_waiters s) pid); by simplify_eq/=. }
  destruct (p ← scope_get sc pid; process_exit p) as [e|] eqn:Ee.
  - split; [by apply ok_refl|]. cbn. intros e' [= <-].
    destruct (scope_get sc pid) as [p|] eqn:Ep; [|done]. cbn in Ee.
    unfold scope_of_get, registry_get in Esc. destruct (scope_of (in_registry s) pid) as [scope|]; [|done]. cbn in Esc.
    by eapply tracked_exit_backed.
  - pose proof (ok_wait s pid HI) as [Hok Hf]. destruct (waiters_wait pid s) as [s1 f]. done.
Qed.

Lemma swp_wait_op pid s0 : swp (supervisor_wait pid) (exit_post pid) s0.
Proof.
  eapply swp_bind; [by apply (swp_known_exit pid)|]. intros o s1 _ _ Ho. destruct o as [e|].
  - apply swp_ret. intros s2 H2 _ x [= <-]. eapply backed_mono; [done|]. by apply Ho.
  - eapply swp_bind; [apply swp_act; intros s _ HI; by apply wait_register_ok|].
    intros r s2 _ _ (s3 & _ & HI3 & -> & H32). destruct (wait_register_ok s3 pid HI3) as [_ Hr].
    destruct (wait_register pid s3) as [s4 [r|f]]; cbn [fst snd] in *.
    + apply swp_ret. intros s5 H5 _. eapply exit_post_mono; [|exact Hr]. by etrans.
    + eapply swp_bind; [apply swp_exit_ready; by eapply fut_ok_mono|]. intros e s5 _ _ Hb.
      apply swp_ret. intros s6 H6 _ x [= <-]. by eapply backed_mono.
Qed.

Lemma unverified_exit_post {E} pid reason s : exit_post pid (Ok (unverified_exit pid reason) : result _ E) s.
Proof. by intros e [= <-] [=]. Qed.

Lemma swp_retry_result scope pid spawned t message answered s0 :
  attached_as s0 pid scope (spawned_os spawned) ->
  (forall r, answered = Some r -> called_after s0 pid (DidWait spawned r)) ->
  swp (retry_result scope pid t (caught message <$> answered)) (exit_post pid) s0.
Proof.
  intros Ha Hc. destruct answered as [[[raw|e]|]|]; cbn.
  - eapply swp_record_recovered. split; [done|]. by apply Hc.
  - apply swp_ret. intros. apply unverified_exit_post.
  - apply swp_ret. intros. apply unverified_exit_post.
  - apply swp_ret. intros. apply unverified_exit_post.
Qed.

(** A race of a port's answer against a sleep. *)
Lemma swp_race {X} (q : Port X) d s0 :
  swp (select2 (Answer q) (Answer (ClockSleep d)))
    (fun r s => match r with inl x => called_since s0 s (port_label X q x) | inr _ => True end) s0.
Proof.
  apply swp_wait. intros s s' [x|x] H0 HI Hf; cbn in Hf; subst s'; (split; [by apply ok_calls|]); intros s'' H _; [|done].
  by eapply called_since_answer.
Qed.

(** After the grace period of a retry: the kill, and whatever the last observation says. *)
Lemma swp_kill_and_observe scope pid spawned opts s0 :
  attached_as s0 pid scope (spawned_os spawned) ->
  swp (ask (BackendSignal spawned Kill) ;;;
    match opt_force_timeout opts with
    | Some timeout =>
        let! r := select2 (Answer (BackendWait spawned)) (Answer (ClockSleep timeout)) in
        retry_result scope pid timeout
          match r with inl r => Some (caught "retry waiter panicked" r) | inr _ => None end
    | None =>
        let! r := ask (BackendWait spawned) in
        retry_result scope pid 0 (Some (caught "retry waiter panicked" r))
    end)%prog (exit_post pid) s0.
Proof.
  intros Ha. eapply swp_bind; [apply swp_ask|]. intros _ s1 H1 _ _.
  assert (Ha1 : attached_as s1 pid scope (spawned_os spawned)) by by eapply attached_as_mono.
  destruct (opt_force_timeout opts) as [t|].
  - eapply swp_bind; [apply swp_race|]. intros r s2 H2 _ Hr.
    assert (Ha2 : attached_as s2 pid scope (spawned_os spawned)) by by eapply attached_as_mono.
    destruct r as [r|u]; [|by apply (swp_retry_result scope pid spawned t "" None)].
    apply (swp_retry_result scope pid spawned t _ (Some r)); [done|]. intros ? [= <-].
    exact (called_since_after _ _ _ _ _ _ Ha1 Hr).
  - eapply swp_bind; [apply swp_ask|]. intros r s2 H2 _ Hr.
    apply (swp_retry_result scope pid spawned 0 _ (Some r)); [by eapply attached_as_mono|]. intros ? [= <-].
    exact (called_since_after _ _ _ _ _ _ Ha1 Hr).
Qed.

Lemma swp_retry scope pid spawned graceful opts s0 :
  attached_as s0 pid scope (spawned_os spawned) ->
  swp (retry_quarantined scope pid spawned graceful opts) (exit_post pid) s0.
Proof.
  intros Ha. unfold retry_quarantined.
  eapply swp_bind; [apply swp_ask|]. intros _ s1 H1 _ _.
  assert (Ha1 : attached_as s1 pid scope (spawned_os spawned)) by by eapply attached_as_mono.
  eapply swp_bind; [apply swp_race|]. intros first s2 H2 HI2 Hfirst.
  assert (Ha2 : attached_as s2 pid scope (spawned_os spawned)) by by eapply attached_as_mono.
  assert (Hgrace : swp (ask (ClockSleep (opt_grace opts))) (fun _ _ => True) s2) by by eapply swp_mono; [apply swp_ask|].
  destruct first as [[[raw|e]|]|u]; cbn [caught].
  - eapply swp_record_recovered. split; [done|]. exact (called_since_after _ _ _ _ _ _ Ha1 Hfirst).
  - eapply swp_bind; [exact Hgrace|]. intros _ s3 H3 _ _. apply swp_kill_and_observe. by eapply attached_as_mono.
  - eapply swp_bind; [exact Hgrace|]. intros _ s3 H3 _ _. apply swp_kill_and_observe. by eapply attached_as_mono.
  - by apply swp_kill_and_observe.
Qed.

Lemma request_after_ok s scope sc pid p b :
  sup_inv s -> scope_at s scope = Some sc -> processes sc !! pid = Some p ->
  let r := request_after scope sc pid p b s in
  ok s r.1 /\
  match r.2 with
  | RequestDone (Ok _) => False
  | RequestMade scope spawned _ events _ f =>
      attached_as r.1 pid scope (spawned_os spawned) /\ Forall (event_ok r.1) events /\ fut_ok r.1 f pid
  | RequestPanic _ => False
  | _ => True
  end.
Proof.
  intros HI Hsc Hp. pose proof (ok_scope_op s scope sc (SRequest pid) HI Hsc I) as Hok. cbn in Hok.
  unfold request_after. destruct (request_termination sc pid) as [sc' r] eqn:E. cbn [fst snd] in Hok.
  destruct r as [events|err]; cbn zeta; [|done].
  set (s1 := set_registry _ s) in *. destruct (ok_wait s1 pid ltac:(apply Hok)) as [Hok2 Hf].
  destruct (waiters_wait pid s1) as [s2 f]. cbn [fst snd] in *. split; [by eapply ok_trans|]. split_and!.
  - eapply attached_as_mono; [exact (proj2 Hok2)|]. eapply attached_as_mono; [exact (proj2 Hok)|].
    apply attached_as_inv; [done|]. by apply (inv_tracked _ HI _ _ _ _ Hsc Hp).
  - unfold request_termination in E. rewrite Hp in E. destruct (request_graceful p) as [q []]; simplify_eq; repeat constructor.
  - done.
Qed.

Lemma terminate_request_ok s pid :
  sup_inv s -> let r := terminate_request pid s in
  ok s r.1 /\
  match r.2 with
  | RequestDone r' => exit_post pid r' r.1
  | RequestMade scope spawned _ events _ f =>
      attached_as r.1 pid scope (spawned_os spawned) /\ Forall (event_ok r.1) events /\ fut_ok r.1 f pid
  | RequestPanic _ => False
  end.
Proof.
  intros HI. unfold terminate_request. destruct (scope_of (in_registry s) pid) as [scope|] eqn:Eo; cbn zeta.
  2: { split; [by apply ok_refl|]. cbn. intros e He. apply (inv_known _ HI).
       destruct (try_get (in_waiters s) pid); by simplify_eq/=. }
  apply scope_of_Some in Eo as (sc & Hsc & p & Hp). unfold registry_get. rewrite Hsc. unfold scope_get. rewrite Hp.
  assert (Hafter : forall b, let r := request_after scope sc pid p b s in
    ok s r.1 /\ match r.2 with
    | RequestDone r' => exit_post pid r' r.1
    | RequestMade scope spawned _ events _ f =>
        attached_as r.1 pid scope (spawned_os spawned) /\ Forall (event_ok r.1) events /\ fut_ok r.1 f pid
    | RequestPanic _ => False end).
  { intros b. destruct (request_after_ok s scope sc pid p b HI Hsc Hp) as [Hok Hr]. split; [done|].
    destruct (request_after scope sc pid p b s) as [s1 [[]| |]]; cbn in *; done. }
  destruct (process_exit p) as [e|] eqn:Ee; [|apply Hafter].
  destruct (is_verified (exit_outcome e)); [|apply Hafter].
  split; [by apply ok_refl|]. cbn. intros x [= <-]. by eapply tracked_exit_backed.
Qed.

Lemma swp_race_exit f pid d s0 :
  fut_ok s0 f pid ->
  swp (select2 (Ready (exit_ready f)) (Answer (ClockSleep d)))
    (fun r s => match r with inl e => backed s pid (exit_outcome e) | inr _ => True end) s0.
Proof.
  intros Hfut. apply swp_wait. intros s s' [e|x] H0 HI Hf; cbn in Hf.
  - destruct (exit_ready_backed s f pid s' e) as [-> Hb]; [by eapply fut_ok_mono|done|].
    split; [by apply ok_refl|]. intros s'' H _. by eapply backed_mono.
  - subst s'. split; [by apply ok_calls|done].
Qed.

Lemma swp_force scope pid spawned opts f s0 :
  fut_ok s0 f pid -> swp (force_phase scope pid spawned opts f) (exit_post pid) s0.
Proof.
  intros Hf. eapply swp_bind; [apply swp_update|].
  { intros s _ HI. by apply (ok_update_scope s scope (SEscalate pid)). }
  intros _ s1 H1 _ _. eapply swp_bind; [apply swp_ask|]. intros _ s2 H2 _ _.
  assert (fut_ok s2 f pid) as Hf2 by (eapply fut_ok_mono; [|exact Hf]; by etrans).
  destruct (opt_force_timeout opts) as [t|].
  - eapply swp_bind; [by apply swp_race_exit|]. intros [e|u] s3 H3 _ Hr.
    + apply swp_ret. intros s4 H4 _ x [= <-]. by eapply backed_mono.
    + apply swp_ret. intros s4 H4 _. apply unverified_exit_post.
  - eapply swp_bind; [by apply swp_exit_ready|]. intros e s3 H3 _ Hr.
    apply swp_ret. intros s4 H4 _ x [= <-]. by eapply backed_mono.
Qed.

Lemma swp_terminate pid opts s0 : swp (terminate pid opts) (exit_post pid) s0.
Proof.
  eapply swp_bind; [apply (swp_known_exit pid)|].
  { intros s e. unfold verified_known, verified_exit. destruct (try_get (in_waiters s) pid) as [x|]; [|done].
    destruct (is_verified _); [|done]. done. }
  intros o s1 _ _ Ho. destruct o as [e|].
  { apply swp_ret. intros s2 H2 _ x [= <-]. eapply backed_mono; [done|]. by apply Ho. }
  eapply swp_bind; [apply swp_act; intros s _ HI; by apply terminate_request_ok|].
  intros r s2 _ _ (s3 & _ & HI3 & -> & H32). destruct (terminate_request_ok s3 pid HI3) as [_ Hr].
  destruct (terminate_request pid s3) as [s4 [r|m|scope spawned graceful events quarantined f]]; cbn [fst snd] in *.
  { apply swp_ret. intros s5 H5 _. eapply exit_post_mono; [|exact Hr]. by etrans. }
  { done. }
  destruct Hr as (Ha & Hev & Hf).
  assert (Ha2 : forall s, sup_rel s2 s -> attached_as s pid scope (spawned_os spawned)).
  { intros s H. eapply attached_as_mono; [|exact Ha]. by etrans. }
  destruct quarantined; [by apply swp_retry, Ha2|].
  eapply swp_bind; [apply swp_dispatch; by eapply events_ok_mono|]. intros _ s5 H5 _ _.
  eapply swp_bind; [by apply (swp_known_exit pid)|]. intros o s6 H6 _ Hk.
  assert (H26 : sup_rel s2 s6) by by etrans.
  destruct o as [e|].
  { destruct (is_verified _); [|by apply swp_retry, Ha2].
    apply swp_ret. intros s7 H7 _ x [= <-]. eapply backed_mono; [done|]. by apply Hk. }
  eapply swp_bind; [apply swp_ask|]. intros _ s7 H7 _ _.
  assert (fut_ok s7 f pid) as Hf7 by (eapply fut_ok_mono; [|exact Hf]; by do 2 (etrans; [eassumption|])).
  eapply swp_bind; [by apply swp_race_exit|]. intros [e|u] s8 H8 _ Hr.
  - apply swp_ret. intros s9 H9 _ x [= <-]. by eapply backed_mono.
  - apply swp_force. by eapply fut_ok_mono.
Qed.
End Safe.
