(* ===== verification/SupervisorScopes.v ===== *)
(** * SupervisorScopes: spawning, scope cleanup and shutdown keep the invariant

    The second half of SupervisorSafe: the operations that hold a scope's operation
    lock. The central argument is [sweep_and_report]: when every process that was
    tracked at the start of draining has a verified outcome, the scope is settled. *)

From stdpp Require Import base list gmap strings.
From S2P Require Import Prelude StdModel Values Process Scope Registry Waiters Usage.
From S2P Require Import Observation Ports History Conc State Dispatch Supervisor SupervisorInv.
From S2P Require Import SupervisorSteps SupervisorSafe.

Open Scope Z_scope.

Section Scopes.
Context {W F : Type} `{!WaitersPort W F, !WaitersLaws W F}.

Abbreviation Inner := (Inner W F) (only parsing).
Abbreviation SProg := (SProg W F) (only parsing).
Implicit Types (s : Inner) (scope : ProcessScopeId) (pid : ProcessId).

(** ** The operation lock *)

Lemma swp_with_operation {A} scope (p : option ScopeTerminationReport -> SProg A) (post : A -> Inner -> Prop) s0 :
  (forall serial s, sup_rel s0 s -> sup_inv s -> (forall r, serial = Some r -> report_ok s scope r) ->
     swp (p serial) post s) ->
  (forall a s s', post a s -> sup_rel s s' -> post a s') ->
  swp (with_operation scope p) post s0.
Proof.
  intros Hp Hst. eapply swp_bind; [apply swp_await|].
  { intros s s' serial _ HI E. by apply (ok_try_lock s scope s' serial). }
  intros serial s1 H1 HI1 (s2 & s3 & _ & HI2 & E & H3). apply swp_guarded.
  - intros s HI. by apply ok_unlock.
  - eauto.
  - apply Hp; [done..|]. intros r Hr. eapply report_ok_mono; [exact H3|]. by apply (ok_try_lock s2 scope s3 serial HI2 E).
Qed.

(** ** Spawning *)

Definition spawn_post (scope : ProcessScopeId) (r : result ProcessId SpawnError) (s : Inner) : Prop :=
  forall pid, r = Ok pid -> exists os, in_attached s !! pid = Some (scope, os).

Lemma spawn_post_mono scope r s s' : spawn_post scope r s -> sup_rel s s' -> spawn_post scope r s'.
Proof. intros Hp H pid ->. destruct (Hp pid eq_refl) as [x Hx]. exists x. by apply (rel_attached _ _ H). Qed.

Lemma swp_spawn_err scope e s0 : swp (Ret (Err e)) (spawn_post scope) s0.
Proof. apply swp_ret. by intros s _ _ pid [=]. Qed.

Lemma swp_spawn_attached scope pid spawned events admission s0 :
  attached_as s0 pid scope (spawned_os spawned) -> Forall (event_ok s0) events ->
  swp (spawn_attached scope pid spawned events admission) (spawn_post scope) s0.
Proof.
  intros Ha Hev. assert (Hat : forall s, sup_rel s0 s -> attached_as s pid scope (spawned_os spawned)).
  { intros s H. by eapply attached_as_mono. }
  eapply swp_bind; [apply swp_call|]. intros now s1 H1 _ _.
  eapply swp_bind; [apply swp_update; intros s _ HI; ok_inert s HI|]. intros _ s2 H2 _ _.
  eapply swp_bind; [apply swp_update; intros s _ HI; by apply ok_remember|]. intros _ s3 H3 _ _.
  eapply swp_bind; [apply swp_call|]. intros output s4 H4 _ _.
  assert (H04 : sup_rel s0 s4) by (sup_later).
  eapply swp_bind with (P := fun _ _ => True).
  { destruct admission as [h|].
    - eapply swp_bind; [apply swp_act; intros s _ HI; by apply ok_wait|].
      intros f s5 H5 _ (s6 & _ & HI6 & -> & H65). apply swp_update. intros s H HI. apply ok_admission; [done|].
      split; cbn; [exists (scope, spawned_os spawned); eapply Hat; sup_later|].
      eapply fut_ok_mono; [|apply ok_wait; exact HI6]. sup_later.
    - destruct output as [o|]; [|done]. apply swp_update. intros s _ HI. by apply ok_insert_output. }
  intros _ s5 H5 _ _. assert (H05 : sup_rel s0 s5) by sup_later.
  eapply swp_bind; [apply swp_fork; intros s H _; apply Hat; sup_later|]. intros _ s6 H6 _ _.
  eapply swp_bind; [apply swp_start_sampler|]. intros _ s7 H7 _ _.
  eapply swp_bind; [apply swp_dispatch; eapply events_ok_mono; [|exact Hev]; sup_later|].
  intros _ s8 H8 _ _. apply swp_ret. intros s9 H9 _ x [= <-]. exists (spawned_os spawned). apply Hat.
  sup_later.
Qed.

Lemma swp_spawn_admitted scope spec admission s0 : swp (spawn_admitted scope spec admission) (spawn_post scope) s0.
Proof.
  eapply swp_bind; [apply swp_ask|]. intros [spawned|e] s1 _ _ _; [|apply swp_spawn_err].
  eapply swp_bind; [apply swp_reads|]. intros dropped s2 _ _ _. destruct dropped.
  { eapply swp_bind; [apply swp_call|]. intros _ s3 _ _ _.
    eapply swp_bind; [apply swp_kill_orphan|]. intros _ s4 _ _ _. apply swp_spawn_err. }
  eapply swp_bind; [apply swp_act; intros s _ HI; by apply attach_ok|].
  intros a s3 _ _ (s4 & _ & HI4 & Ea & H43). destruct (attach_ok s4 scope spawned spec HI4) as [_ Hp].
  rewrite <- Ea in Hp. destruct a as [pid events| | |]; cbn in Hp.
  - destruct Hp as [Ha ->]. apply swp_spawn_attached; [by eapply attached_as_mono|by repeat constructor].
  - eapply swp_bind; [apply swp_kill_orphan|]. intros _ s5 _ _ _. apply swp_spawn_err.
  - eapply swp_bind; [apply swp_kill_orphan|]. intros _ s5 _ _ _. apply swp_spawn_err.
  - apply swp_panic. intros s H _. do 2 right; left. split; [done|right].
    eapply id_succ_None_mono; [exact Hp|]. destruct (rel_ids _ _ H43), (rel_ids _ _ H). lia.
Qed.

Lemma swp_spawn_owned scope spec admission s0 : swp (spawn_owned scope spec admission) (spawn_post scope) s0.
Proof.
  eapply swp_bind; [apply swp_reads|]. intros known s1 _ _ _. destruct (negb known).
  { eapply swp_bind; [apply swp_reads|]. intros closed s2 _ _ _. apply swp_spawn_err. }
  apply swp_with_operation; [|by intros; eapply spawn_post_mono].
  intros serial s2 _ _ _. destruct serial; [apply swp_spawn_err|].
  eapply swp_bind; [apply swp_reads|]. intros [] s3 _ _ _; [apply swp_spawn_err|].
  eapply swp_bind; [apply swp_reads|]. intros [] s4 _ _ _; [apply swp_spawn_err|].
  eapply swp_bind; [apply swp_reads|]. intros [[]|e] s5 _ _ _; [apply swp_spawn_admitted|apply swp_spawn_err].
Qed.

Lemma swp_spawn_task h scope spec admission s0 :
  in_worker_of s0 !! h = Some (SpawnsInto scope) -> swp (spawn_task h scope spec admission) (fun _ _ => True) s0.
Proof.
  intros Hh. apply swp_cancel_with; [intros s HI; apply ok_spawns; [done..|]; intros m [= <-]; by left|].
  eapply swp_bind with (P := fun r s => match r with Ok x => spawn_post scope x s | Err m => may_panic m s end).
  - apply swp_catch; [done|]. eapply swp_mono; [apply swp_spawn_owned|done].
  - intros r s1 H1 _ Hr. apply swp_update. intros s H HI. apply ok_spawns; [done|..].
    + intros pid ->. destruct (Hr pid eq_refl) as [os Ha]. exists scope, os. split; [|by apply (rel_attached _ _ H)].
      by apply (rel_workers _ _ H), (rel_workers _ _ H1).
    + intros m ->. right. by eapply may_panic_mono.
Qed.

(** The process that the worker behind a handle has attached. *)
Definition joined_post (h : nat) (r : result ProcessId SpawnError) (s : Inner) : Prop :=
  forall pid, r = Ok pid -> exists scope os,
    in_worker_of s !! h = Some (SpawnsInto scope) /\ in_attached s !! pid = Some (scope, os).

Lemma swp_joined_spawn h s0 : swp (joined_spawn h) (joined_post h) s0.
Proof.
  eapply swp_bind; [apply swp_await|].
  { intros s s' r _ HI. destruct (in_spawns s !! h); cbn; [|done]. intros [= <- <-]. by apply ok_refl. }
  intros r s1 _ _ (s2 & s3 & _ & HI2 & E & H3). destruct r as [r|m]; [|by apply swp_ret; intros s _ _ pid [=]].
  apply swp_ret. intros s4 H4 _ pid ->. destruct (in_spawns s2 !! h) as [x|] eqn:Ex; cbn in E; [|done].
  injection E as <- ->. destruct (inv_spawns _ HI2 h pid Ex) as (scope & os & Hw & Ha). exists scope, os.
  split; [by apply (rel_workers _ _ H4), (rel_workers _ _ H3)|by apply (rel_attached _ _ H4), (rel_attached _ _ H3)].
Qed.

(** A new handle stands for its worker from then on. *)
Lemma swp_new_worker x s0 : swp (act (new_worker x)) (fun h s => in_worker_of s !! h = Some x) s0.
Proof.
  eapply swp_mono; [apply swp_act; intros s _ HI; exact (proj1 (ok_new_worker s x HI))|].
  intros h s1 _ _ (s2 & _ & HI2 & -> & H21). apply (rel_workers _ _ H21). exact (proj2 (ok_new_worker s2 x HI2)).
Qed.

Lemma swp_spawn scope spec s0 : swp (supervisor_spawn scope spec) (spawn_post scope) s0.
Proof.
  eapply swp_bind; [apply swp_new_worker|]. intros h s1 _ _ Hh.
  eapply swp_bind; [apply swp_fork; intros s H _; by apply (rel_workers _ _ H)|]. intros _ s2 H2 _ _.
  eapply swp_mono; [apply swp_joined_spawn|]. intros r s3 H3 _ Hr pid ->.
  destruct (Hr pid eq_refl) as (i & os & Hw & Ha). exists os. rewrite Ha.
  apply (rel_workers _ _ H2), (rel_workers _ _ H3) in Hh. rewrite Hw in Hh. by injection Hh as ->.
Qed.

Lemma swp_spawn_observed scope spec s0 : swp (spawn_observed scope spec) (fun _ _ => True) s0.
Proof.
  eapply swp_bind; [apply swp_new_worker|]. intros h s1 _ _ Hh.
  eapply swp_bind; [apply swp_fork; intros s H _; by apply (rel_workers _ _ H)|]. done.
Qed.

Lemma swp_observed_complete b h s0 :
  swp (observed_complete b h) (fun r s => forall o, r = Ok o -> observation_ok s o) s0.
Proof.
  unfold observed_complete. destruct (negb b); [by apply swp_ret; intros s _ _ o [=]|].
  eapply swp_bind; [apply swp_joined_spawn|]. intros [pid|e] s1 _ _ _; [|by apply swp_ret; intros s _ _ o [=]].
  eapply swp_bind; [apply swp_act; intros s _ HI; by apply ok_take_admission|].
  intros o s2 _ _ (s3 & _ & HI3 & -> & H32). destruct (ok_take_admission s3 h HI3) as [_ Ho].
  destruct (take_admission h s3).2 as [o|]; apply swp_ret; intros s4 H4 _ x [=]; subst.
  eapply observation_ok_mono; [|by apply Ho]. sup_later.
Qed.

(** ** The workers of a cleanup *)

Lemma swp_worker h pid o opts s0 :
  in_worker_of s0 !! h = Some (Terminates pid) -> observer_ok s0 o pid ->
  swp (worker_task h pid o opts) (fun _ _ => True) s0.
Proof.
  intros Hh Ho. apply swp_cancel_with; [intros s HI; apply ok_joined; [done..|]; intros m [= <-]; by left|].
  eapply swp_bind with (P := fun r s => match r with Ok x => exit_post pid x s | Err m => may_panic m s end).
  - apply swp_catch; [done|].
    apply wp_select_biased; [apply _| |apply swp_terminate].
    intros s s' e H HI E. assert (s' = s /\ backed s pid (exit_outcome e)) as [-> Hb].
    { destruct o as [x|f]; cbn in E, Ho.
      - injection E as <- <-. split; [done|]. by eapply backed_mono.
      - apply (exit_ready_backed s f pid); [by eapply fut_ok_mono|done]. }
    split_and!; [done..|]. intros a s'' Ea H' _ x ->. destruct (is_verified _); [|done].
    injection Ea as <-. by eapply backed_mono.
  - intros r s1 H1 _ Hr. apply swp_update. intros s H HI. apply ok_joined; [done|..].
    + intros q x E. destruct r as [y|m]; [|done]. injection E as <- ->. split.
      * by apply (rel_workers _ _ H), (rel_workers _ _ H1).
      * intros e ->. eapply backed_mono; [exact H|]. by eapply Hr.
    + intros m E. destruct r as [y|m']; [done|]. injection E as ->. right. by eapply may_panic_mono.
Qed.

Lemma register_observers_ok sc pids s :
  sup_inv s ->
  (forall pid p e, processes sc !! pid = Some p -> process_exit p = Some e -> backed s pid (exit_outcome e)) ->
  let r := register_observers sc pids s in
  ok s r.1 /\ Forall (fun x => observer_ok r.1 x.2 x.1) r.2 /\ r.2.*1 = pids.
Proof.
  revert s. induction pids as [|pid pids IH]; intros s HI Hb; cbn zeta; cbn [register_observers].
  { split_and!; [by apply ok_refl|constructor|done]. }
  assert (Hone : exists s1 o,
    match p ← scope_get sc pid; process_exit p with
    | Some exit => (s, ObserverReady exit)
    | None => let '(s, f) := waiters_wait pid s in (s, ObserverWait f)
    end = (s1, o) /\ ok s s1 /\ observer_ok s1 o pid).
  { unfold scope_get. destruct (processes sc !! pid) as [p|] eqn:Ep; cbn.
    - destruct (process_exit p) as [e|] eqn:Ee.
      + eexists _, _. split; [done|]. split; [by apply ok_refl|]. cbn. by eapply Hb.
      + pose proof (ok_wait s pid HI) as [Hok Hf]. destruct (waiters_wait pid s) as [s1 f]. eauto.
    - pose proof (ok_wait s pid HI) as [Hok Hf]. destruct (waiters_wait pid s) as [s1 f]. eauto. }
  destruct Hone as (s1 & o & -> & Hok & Ho). destruct Hok as [HI1 HR1].
  destruct (IH s1 HI1) as (Hok2 & Hall & Hfst).
  { intros q p e Hq He. eapply backed_mono; [exact HR1|]. by eapply Hb. }
  destruct (register_observers sc pids s1) as [s2 l]. cbn [fst snd] in *. split_and!.
  - eapply ok_trans; [by split|exact Hok2].
  - constructor; [|done]. cbn. eapply observer_ok_mono; [apply Hok2|done].
  - cbn. by f_equal.
Qed.

Lemma register_observers_registry sc pids s : in_registry (register_observers sc pids s).1 = in_registry s.
Proof.
  revert s. induction pids as [|pid pids IH]; intros s; cbn; [done|].
  destruct (p ← scope_get sc pid; process_exit p) as [e|].
  - specialize (IH s). by destruct (register_observers sc pids s).
  - unfold waiters_wait. destruct (wait (in_waiters s) pid) as [w f].
    specialize (IH (set_waiters w s)). by destruct (register_observers sc pids (set_waiters w s)).
Qed.

(** From here on the scope admits nothing, and tracks at most the processes of [D]. *)
Definition tracked_within (s : Inner) (scope : ProcessScopeId) (D : list ProcessId) : Prop :=
  (scope <= next_scope (in_registry s))%N /\
  forall sc, scope_at s scope = Some sc ->
    scope_state sc <> Open /\ forall pid, is_Some (processes sc !! pid) -> pid ∈ D.

Lemma tracked_within_mono s s' scope D : sup_rel s s' -> tracked_within s scope D -> tracked_within s' scope D.
Proof.
  intros H [Hle Hsc]. split; [destruct (rel_ids _ _ H); lia|]. intros sc' Hsc'.
  destruct (scope_at s scope) as [sc|] eqn:E.
  - destruct (Hsc sc eq_refl) as [Hc Hd]. destruct (rel_closed _ _ H scope sc sc' Hle E Hc Hsc') as [Hc' Hd']. eauto.
  - by rewrite (rel_removed _ _ H scope Hle E) in Hsc'.
Qed.

Lemma retain_exits_lookup exits m q o :
  retain_exits exits m !! q = Some o -> m !! q = Some o \/ (q, o) ∈ exits.
Proof.
  unfold retain_exits. revert m. induction exits as [|[p o1] l IH]; intros m; cbn; [by left|].
  intros [H|?]%IH; [|by right; right]. destruct (m !! p); [by left|].
  apply lookup_insert_Some in H as [[-> ->]|[_ ?]]; [right; by left|by left].
Qed.

Lemma retain_exits_dom exits m q : is_Some (m !! q) -> is_Some (retain_exits exits m !! q).
Proof.
  unfold retain_exits. revert m. induction exits as [|[p o1] l IH]; intros m Hq; cbn; [done|].
  apply IH. destruct (m !! p) eqn:E; [done|]. apply lookup_insert_is_Some.
  destruct (decide (p = q)); [by left|by right].
Qed.

Lemma recorded_exits_backed s scope sc pid o :
  sup_inv s -> scope_at s scope = Some sc -> (pid, o) ∈ recorded_exits sc -> backed s pid o.
Proof.
  intros HI Hsc Hin. unfold recorded_exits in Hin. apply list_elem_of_omap in Hin as (q & _ & E).
  unfold scope_get in E. destruct (processes sc !! q) as [p|] eqn:Ep; cbn in E; [|done].
  destruct (process_exit p) as [e|] eqn:Ee; cbn in E; [|done]. injection E as -> <-.
  by eapply tracked_exit_backed.
Qed.

Lemma begin_cleanup_ok s scope :
  sup_inv s -> let r := begin_cleanup scope s in
  ok s r.1 /\ forall events live, r.2 = Ok (events, live) ->
    Forall (event_ok r.1) events /\ Forall (fun x => observer_ok r.1 x.2 x.1) live /\
    tracked_within r.1 scope live.*1.
Proof.
  intros HI. unfold begin_cleanup, registry_get.
  destruct (scopes (in_registry s) !! scope) as [sc|] eqn:Hsc; cbn zeta; [|by split; [apply ok_refl|]].
  pose proof (ok_scope_op s scope sc SBegin HI Hsc I) as Hok. cbn in Hok.
  pose proof (begin_scope_events sc) as Hevs. pose proof (begin_scope_state sc) as Hst.
  destruct (begin_scope_termination sc) as [sc1 events]. cbn [fst snd] in *.
  set (s1 := set_registry (registry_set (in_registry s) scope sc1) s) in *.
  assert (Hsc1 : scope_at s1 scope = Some sc1) by (subst s1; by rewrite scope_at_set, decide_True).
  set (s2 := match recorded_exits sc1 with [] => s1 | _ => insert_pending scope (retain_exits (recorded_exits sc1)) s1 end).
  assert (Hok2 : ok s1 s2).
  { subst s2. destruct (recorded_exits sc1) as [|x l] eqn:El; [apply ok_refl, Hok|]. rewrite <- El.
    apply ok_pending; [apply Hok| |].
    - intros pid o [?|Hin]%retain_exits_lookup; [eapply inv_pending_of; [apply Hok|done]|].
      eapply recorded_exits_backed; [apply Hok|done|done].
    - intros pid. apply retain_exits_dom. }
  assert (Hsc2 : scope_at s2 scope = Some sc1) by (subst s2; by destruct (recorded_exits sc1)).
  destruct (register_observers_ok sc1 (process_ids sc1) s2) as (Hok3 & Hobs & Hfst).
  { apply Hok2. }
  { intros pid p e Hp He. eapply tracked_exit_backed; [apply Hok2|done|done|done]. }
  assert (Hreg : scope_at (register_observers sc1 (process_ids sc1) s2).1 scope = Some sc1).
  { unfold scope_at. by rewrite register_observers_registry. }
  destruct (register_observers sc1 (process_ids sc1) s2) as [s3 live]. cbn [fst snd] in *.
  split; [by do 2 (eapply ok_trans; [eassumption|])|].
  intros events' live' [= <- <-]. split_and!; [|done|].
  - apply without_closed_ok. rewrite Hevs by apply (rg_scopes _ (inv_registry _ HI) _ _ Hsc).
    apply Forall_forall. by intros ev (pid & -> & _)%list_elem_of_fmap.
  - rewrite Hfst. split.
    + assert (sup_rel s s3) as HR by (by do 2 (eapply ok_trans; [eassumption|])).
      destruct (rel_ids _ _ HR). destruct (rg_ids _ (inv_registry _ HI) _ _ Hsc). lia.
    + intros sc' Hsc'. rewrite Hreg in Hsc'. injection Hsc' as <-. split.
      * rewrite Hst. by destruct (scope_state sc).
      * intros pid. unfold process_ids. by rewrite <- elem_of_bt_keys.
Qed.

(** ** Joining the workers *)

(** The outcome of [pid] is recorded, or the scope has left the registry meanwhile. *)
Definition accounted_for (s : Inner) (scope : ProcessScopeId) (pid : ProcessId) : Prop :=
  is_Some (pending_of s scope !! pid) \/ scope_at s scope = None.

Lemma accounted_for_mono s s' scope pid :
  sup_rel s s' -> (scope <= next_scope (in_registry s))%N -> accounted_for s scope pid -> accounted_for s' scope pid.
Proof.
  intros H Hle [Hp|Hn].
  - destruct (scope_at s' scope) as [sc|] eqn:E; [left|by right]. apply (rel_pending _ _ H); [done| |done]. by rewrite E.
  - right. by apply (rel_removed _ _ H).
Qed.

Lemma swp_spawn_workers live opts s0 :
  Forall (fun x => observer_ok s0 x.2 x.1) live ->
  swp (spawn_workers live opts)
    (fun handles s => forall pid, pid ∈ live.*1 -> exists h, h ∈ handles /\ in_worker_of s !! h = Some (Terminates pid)) s0.
Proof.
  revert s0. induction live as [|[pid o] live IH]; intros s0 Hl; cbn [spawn_workers].
  { apply swp_ret. intros s _ _ pid Hp. by apply elem_of_nil in Hp. }
  apply Forall_cons in Hl as [Ho Hl]. cbn in Ho.
  eapply swp_bind; [apply swp_new_worker|]. intros h s1 H1 _ Hh.
  eapply swp_bind; [apply swp_fork; intros s H _; split; [by apply (rel_workers _ _ H)|]|].
  { eapply observer_ok_mono; [|exact Ho]. sup_later. }
  intros _ s3 H3 _ _. eapply swp_bind; [apply IH|].
  { eapply Forall_impl; [exact Hl|]. intros x. apply observer_ok_mono. sup_later. }
  intros handles s4 H4 _ Hc. apply swp_ret. intros s5 H5 _ q [->|Hq]%elem_of_cons.
  - exists h. split; [by left|]. apply (rel_workers _ _ H5), (rel_workers _ _ H4), (rel_workers _ _ H3), Hh.
  - destruct (Hc q Hq) as (k & Hk & Hw). exists k. split; [by right|]. by apply (rel_workers _ _ H5).
Qed.

Lemma join_next_spec handles s s' h r :
  join_next handles s = Some (s', (h, r)) -> s' = s /\ h ∈ handles /\ in_joined s !! h = Some r.
Proof.
  induction handles as [|k handles IH]; cbn; [done|]. destruct (in_joined s !! k) eqn:E.
  - intros [= <- <- <-]. split_and!; [done|by left|done].
  - intros H. destruct (IH H) as (? & ? & ?). split_and!; [done|by right|done].
Qed.

Lemma filter_remove_length (h : nat) l :
  h ∈ l -> (length (List.filter (fun x => negb (x =? h)%nat) l) < length l)%nat.
Proof.
  induction l as [|k l IH]; [by intros ?%elem_of_nil|]. intros Hin. cbn [List.filter length].
  assert (length (List.filter (fun x => negb (x =? h)%nat) l) <= length l)%nat by apply List.filter_length_le.
  destruct (Nat.eqb_spec k h) as [->|Hne]; cbn; [lia|].
  apply elem_of_cons in Hin as [?|Hin]; [congruence|]. specialize (IH Hin). lia.
Qed.

Lemma filter_remove_elem (h k : nat) l : k ∈ l -> k <> h -> k ∈ List.filter (fun x => negb (x =? h)%nat) l.
Proof.
  intros Hk Hne. apply list_elem_of_In, filter_In. split; [by apply list_elem_of_In|].
  by apply negb_true_iff, Nat.eqb_neq.
Qed.

Lemma worker_outcome_backed s pid r : exit_post pid r s -> backed s pid (worker_outcome r).
Proof. intros Hr. destruct r as [e|err]; [by apply Hr|]. by intros [=]. Qed.

Lemma swp_join_workers scope (D : list ProcessId) n handles s0 :
  (scope <= next_scope (in_registry s0))%N -> (length handles <= n)%nat ->
  (forall pid, pid ∈ D -> accounted_for s0 scope pid \/ exists h, h ∈ handles /\ in_worker_of s0 !! h = Some (Terminates pid)) ->
  swp (join_workers scope n handles) (fun r s => r = None -> forall pid, pid ∈ D -> accounted_for s scope pid) s0.
Proof.
  revert handles s0. induction n as [|n IH]; intros handles s0 Hle Hlen Hcov; cbn [join_workers].
  { apply swp_ret. intros s H _ _ pid Hpid. eapply accounted_for_mono; [done..|].
    destruct (Hcov pid Hpid) as [?|(h & Hh & _)]; [done|]. destruct handles; [by apply elem_of_nil in Hh|cbn in Hlen; lia]. }
  eapply swp_bind; [apply swp_await|].
  { intros s s' [h r] _ HI E. apply join_next_spec in E as (-> & _). by apply ok_refl. }
  intros [h joined] s1 H1 _ (s2 & s3 & H2 & HI2 & E & H31). apply join_next_spec in E as (-> & Hh & Hj).
  destruct joined as [[pid r]|m]; [|by apply swp_ret].
  destruct (inv_joined _ HI2 _ _ _ Hj) as [Hw Hr].
  assert (Hb : forall s, sup_rel s1 s -> backed s pid (worker_outcome r)).
  { intros s H. apply worker_outcome_backed. eapply exit_post_mono; [|exact Hr]. sup_later. }
  assert (Hmerge : forall s, sup_rel s1 s -> sup_inv s ->
    ok s (insert_pending scope (merge_outcome pid (worker_outcome r)) s)).
  { intros s H HI. apply ok_pending; [done| |].
    - intros q o [?|[-> ->]]%merge_outcome_lookup; [by eapply inv_pending_of|by apply Hb].
    - intros q Hq. apply merge_outcome_dom. by right. }
  assert (Hle1 : forall s, sup_rel s0 s -> (scope <= next_scope (in_registry s))%N).
  { intros s H. destruct (rel_ids _ _ H). lia. }
  eapply swp_bind; [by apply swp_modify|].
  intros _ s4 H4 _ (s5 & H5 & HI5 & H54). apply IH.
  - apply Hle1. sup_later.
  - pose proof (filter_remove_length h handles Hh). lia.
  - intros q Hq. destruct (Hcov q Hq) as [Hacc|(k & Hk & Hkq)].
    + left. eapply accounted_for_mono; [|done|exact Hacc]. sup_later.
    + destruct (decide (k = h)) as [->|Hne].
      * left. apply (rel_workers _ _ H2) in Hkq. rewrite Hw in Hkq. injection Hkq as ->.
        eapply accounted_for_mono; [exact H54| |].
        { destruct (Hmerge s5 H5 HI5) as [_ HR]. destruct (rel_ids _ _ HR).
          pose proof (Hle1 s5 ltac:(sup_later)). lia. }
        left. unfold pending_of at 1. cbn. rewrite pending_insert, decide_True by done.
        apply merge_outcome_dom. by left.
      * right. exists k. split; [by apply filter_remove_elem|].
        apply (rel_workers _ _ H4), (rel_workers _ _ H1), Hkq.
Qed.

(** ** The sweep and the report *)

Definition outcome_post (x : ProcessId * TerminationOutcome) (s : Inner) : Prop := backed s x.1 x.2.

Lemma swp_reobserve opts x s0 : outcome_post x s0 -> swp (reobserve opts x) outcome_post s0.
Proof.
  destruct x as [pid o]. unfold outcome_post, reobserve. cbn [fst snd]. intros Hb. destruct (is_verified o) eqn:Ev.
  { apply swp_ret. intros s H _. by eapply backed_mono. }
  eapply swp_bind with (P := fun w s => forall e, w = Some (Ok e) -> backed s pid (exit_outcome e)).
  - destruct (opt_force_timeout opts) as [t|].
    + apply swp_timeout; [by intros|]. eapply swp_mono; [apply swp_wait_op|]. intros r s _ _ Hr e [= ->]. by apply Hr.
    + eapply swp_bind; [apply swp_wait_op|]. intros r s1 _ _ Hr. apply swp_ret. intros s H _ e [= ->].
      eapply backed_mono; [exact H|]. by apply Hr.
  - intros w s1 H1 _ Hw. apply swp_ret. intros s H _.
    assert (backed s pid o) as Hbo by (eapply backed_mono; [|exact Hb]; sup_later).
    destruct w as [[e|]|]; cbn; [|done..]. eapply backed_mono; [exact H|]. by apply Hw.
Qed.

Lemma ok_merge_outcomes s scope l :
  sup_inv s -> Forall (fun x => outcome_post x s) l -> ok s (merge_outcomes scope l s).1.
Proof.
  intros HI Hl. unfold merge_outcomes. cbn [fst]. apply ok_pending; [done| |].
  - intros pid o [?|Hin]%merge_outcomes_lookup; [by eapply inv_pending_of|].
    rewrite Forall_forall in Hl. exact (Hl _ Hin).
  - intros pid Hp. apply merge_outcomes_dom. by right.
Qed.

(** Every process that may still be tracked has a verified outcome: the scope is settled. *)
Lemma settled_by_outcomes s scope (D : list ProcessId) :
  sup_inv s -> tracked_within s scope D ->
  (forall pid, pid ∈ D -> accounted_for s scope pid) ->
  (forall pid o, pending_of s scope !! pid = Some o -> is_verified o = true) ->
  settled s scope.
Proof.
  intros HI [Hle Htr] Hacc Hver. split_and!; [done| |].
  - intros (sc & Hsc & Ho). by destruct (Htr sc Hsc).
  - intros pid os Ha. destruct (inv_attached _ HI _ _ _ Ha) as (_ & _ & [(sc & Hsc & Hp)|?]); [|done].
    destruct (Htr sc Hsc) as [_ Hd]. destruct (Hacc pid (Hd pid Hp)) as [[o Hpo]|Hn]; [|congruence].
    eapply inv_pending_of; [done|exact Hpo|]. by eapply Hver.
Qed.

Lemma swp_commit_report scope r s0 :
  report_ok s0 scope r -> swp (commit_report scope r) (fun _ _ => True) s0.
Proof.
  intros Hr. assert (Hrs : forall s, sup_rel s0 s -> report_ok s scope r) by (intros; by eapply report_ok_mono).
  assert (Hgone : forall s s', scope_at s scope = None -> sup_rel s0 s -> sup_rel s s' -> scope_at s' scope = None).
  { intros s s' Hn H0 H. apply (rel_removed _ _ H); [|done]. by destruct (Hrs s H0) as (_ & _ & (? & _) & _). }
  eapply swp_bind; [apply swp_update; intros s H HI; apply ok_set_serial; auto|]. intros _ s1 H1 _ _.
  assert (Hle : forall s, sup_rel s0 s -> (scope <= next_scope (in_registry s))%N).
  { intros s H0. by destruct (Hrs s H0) as (_ & _ & (? & _) & _). }
  eapply swp_bind; [apply swp_reads|]. intros sender s2 H2 _ (s2' & H2' & _ & -> & H22).
  assert (H02 : sup_rel s0 s2) by sup_later. assert (H02' : sup_rel s0 s2') by sup_later.
  eapply swp_bind with (P := fun _ s => scope ∈ in_scope_results s -> scope ∈ in_completed_scope_results s).
  { case_bool_decide as Hs.
    - eapply swp_bind; [apply swp_update|].
      + intros s H HI. apply ok_publish; [done|]. intros x [= <-] _. apply Hrs. sup_later.
      + intros _ s3 H3 _ _. eapply swp_mono; [apply swp_modify; intros s _ HI; by apply ok_complete_scope_result|].
        intros _ s _ _ (s4 & H4 & HI4 & H4s). destruct (ok_complete_scope_result s4 scope HI4) as [[_ HR] Hc].
        apply (rel_results _ _ H4s); [|exact Hc]. apply Hle. sup_later.
    - apply swp_ret. intros s H _. apply (rel_results s2' s); [sup_later|by apply Hle|done]. }
  intros _ s3 H3 _ Hres. assert (H03 : sup_rel s0 s3) by sup_later.
  eapply swp_bind; [apply swp_update|].
  { intros s H HI. apply ok_report; [done|]. apply Hrs. sup_later. }
  intros _ s4 H4 _ _. assert (H04 : sup_rel s0 s4) by sup_later.
  eapply swp_bind; [apply swp_modify|].
  { intros s H HI. apply ok_remove; [done|apply Hrs; sup_later|]. apply (rel_results s3 s); [sup_later|by apply Hle|done]. }
  intros _ s5 H5 _ (s6 & H6 & HI6 & H65).
  assert (H05 : sup_rel s0 s5) by sup_later.
  assert (Hn5 : scope_at s5 scope = None).
  { assert (settled s6 scope) as Hset6 by (apply Hrs; sup_later).
    assert (Hres6 : scope ∈ in_scope_results s6 -> scope ∈ in_completed_scope_results s6).
    { apply (rel_results s3 s6); [sup_later|by apply Hle|done]. }
    destruct (ok_remove s6 scope HI6 Hset6 Hres6) as [_ HR]. eapply Hgone; [| |exact H65].
    - unfold scope_at. cbn. by rewrite lookup_delete_eq.
    - transitivity s6; [sup_later|exact HR]. }
  eapply swp_bind; [apply swp_modify|].
  { intros s H HI. apply ok_forget_operation; [done|]. by eapply Hgone. }
  intros _ s7 H7 _ (s7' & H7' & HI7' & H77).
  assert (Hno : scope ∉ in_scope_operations s7).
  { destruct (ok_forget_operation s7' scope HI7') as [_ HR]; [by eapply Hgone|].
    apply (rel_operations _ _ H77); [|cbn; set_solver]. apply Hle. sup_later. }
  assert (H07 : sup_rel s0 s7) by sup_later. eapply swp_bind; [apply swp_update|].
  { intros s H HI. apply ok_forget_pending; [done|]. eapply Hgone; [exact Hn5|done|]. sup_later. }
  intros _ s8 H8 _ _. eapply swp_bind; [apply swp_update|].
  { intros s H HI. apply ok_complete_scope; [done|]. apply (rel_operations s7 s); [sup_later|by apply Hle|done]. }
  intros _ s9 _ _ _. by apply swp_fork.
Qed.

Definition report_post (scope : ProcessScopeId) (r : result ScopeTerminationReport TerminateError) (s : Inner) : Prop :=
  forall report, r = Ok report -> verified_report_ok s scope report.

Lemma report_post_mono scope r s s' : report_post scope r s -> sup_rel s s' -> report_post scope r s'.
Proof. intros Hp H report E Hv. eapply report_ok_mono; [done|]. by apply Hp. Qed.

Lemma swp_report_err scope e s0 : swp (Ret (Err e)) (report_post scope) s0.
Proof. apply swp_ret. by intros s _ _ r [=]. Qed.

Lemma swp_report scope r s0 : verified_report_ok s0 scope r -> swp (Ret (Ok r)) (report_post scope) s0.
Proof. intros Hr. apply swp_ret. intros s H _ x [= <-] Hv. eapply report_ok_mono; [done|]. by apply Hr. Qed.

Lemma swp_sweep scope (D : list ProcessId) opts s0 :
  tracked_within s0 scope D -> (forall pid, pid ∈ D -> accounted_for s0 scope pid) ->
  swp (sweep_and_report scope opts) (report_post scope) s0.
Proof.
  intros Htr Hacc.
  assert (Hat : forall s, sup_rel s0 s -> tracked_within s scope D /\ forall pid, pid ∈ D -> accounted_for s scope pid).
  { intros s H. split; [by eapply tracked_within_mono|]. intros pid Hpid.
    eapply accounted_for_mono; [exact H|apply Htr|by apply Hacc]. }
  eapply swp_bind; [apply swp_ask|]. intros [[]|e] s1 H1 _ Hsw; [|apply swp_report_err].
  apply called_since_calls in Hsw. cbn in Hsw.
  eapply swp_bind; [apply swp_reads|]. intros outcomes s2 H2 HI2 (s3 & H3 & HI3 & -> & H32).
  eapply swp_bind with (P := fun l s => Forall (fun x => outcome_post x s) l).
  { apply wp_map_each; [apply _| |].
    - intros [pid o] s H _ Hin. apply swp_reobserve. unfold outcome_post. cbn.
      apply elem_of_map_to_list in Hin. eapply backed_mono; [|by eapply inv_pending_of]. sup_later.
    - intros x s s' Hx H _. by eapply backed_mono. }
  intros l s4 H4 _ Hl.
  eapply swp_bind; [apply swp_act|].
  { intros s H HI. apply ok_merge_outcomes; [done|]. eapply Forall_impl; [exact Hl|]. intros x Hx. by eapply backed_mono. }
  intros outcomes s5 H5 HI5 (s6 & H6 & HI6 & -> & H65).
  set (s7 := (merge_outcomes scope l s6).1) in *.
  assert (Hok7 : ok s6 s7).
  { apply ok_merge_outcomes; [done|]. eapply Forall_impl; [exact Hl|]. intros x Hx. by eapply backed_mono. }
  change (merge_outcomes scope l s6).2 with (bt_entries (pending_of s7 scope)).
  set (report := mkReport scope (bt_entries (pending_of s7 scope))).
  assert (Hreport : verified_report_ok s5 scope report).
  { intros Hv. eapply report_ok_mono; [exact H65|]. destruct Hok7 as [HI7 HR7].
    assert (H07 : sup_rel s0 s7) by sup_later. destruct (Hat s7 H07) as [Htr7 Hacc7].
    assert (Hver : forall pid o, pending_of s7 scope !! pid = Some o -> is_verified o = true).
    { intros pid o Hp. eapply report_all_verified_spec; [exact Hv|]. by apply elem_of_bt_entries. }
    split_and!; [done|done| | |].
    - by eapply settled_by_outcomes.
    - apply (swept_mono s1); [sup_later|exact Hsw].
    - intros pid o Hin%elem_of_bt_entries. eapply inv_pending_of; [done|exact Hin|]. by eapply Hver. }
  eapply swp_bind with (P := fun _ _ => True).
  { destruct (report_all_verified report) eqn:Ev; [|done]. by apply swp_commit_report, Hreport. }
  intros _ s8 H8 _ _. apply swp_report. intros Hv. eapply report_ok_mono; [exact H8|]. by apply Hreport.
Qed.

Lemma swp_retained scope s0 :
  swp (reads (retained scope)) (fun o s => forall r, o = Some r -> report_ok s scope r) s0.
Proof.
  eapply swp_mono; [apply swp_reads|]. intros o s _ _ (s1 & _ & HI & -> & H) r Hr. unfold retained in Hr.
  destruct (in_reports s1 !! scope) as [x|] eqn:E; [|done]. injection Hr as <-.
  eapply report_ok_mono; [done|]. by apply (inv_reports _ HI).
Qed.

Lemma swp_terminate_locked scope opts serial s0 :
  (forall r, serial = Some r -> report_ok s0 scope r) ->
  swp (terminate_scope_locked scope opts serial) (report_post scope) s0.
Proof.
  intros Hserial. destruct serial as [r|]; [apply swp_report; intros _; by apply Hserial|].
  eapply swp_bind; [apply swp_retained|]. intros [r|] s1 _ _ Hr; [apply swp_report; intros _; by apply Hr|].
  eapply swp_bind; [apply swp_act; intros s _ HI; by apply begin_cleanup_ok|].
  intros begun s2 _ _ (s3 & _ & HI3 & Eb & H32). destruct begun as [[events live]|e]; [|apply swp_report_err].
  destruct (begin_cleanup_ok s3 scope HI3) as [_ Hpost]. destruct (Hpost events live (eq_sym Eb)) as (Hev & Hobs & Htr).
  eapply swp_bind; [apply swp_dispatch; by eapply events_ok_mono|]. intros _ s4 H4 _ _.
  eapply swp_bind; [apply swp_spawn_workers|].
  { eapply Forall_impl; [exact Hobs|]. intros x. apply observer_ok_mono. sup_later. }
  intros handles s5 H5 _ Hcov.
  assert (Htr5 : tracked_within s5 scope live.*1) by (eapply tracked_within_mono; [|exact Htr]; sup_later).
  eapply swp_bind; [apply (swp_join_workers scope live.*1); [apply Htr5|done|by intros pid Hp; right; apply Hcov]|].
  intros failed s6 H6 _ Hacc. destruct failed as [e|]; [apply swp_report_err|].
  apply (swp_sweep scope live.*1); [by eapply tracked_within_mono|by apply Hacc].
Qed.

Lemma swp_terminate_operation scope opts s0 :
  swp (terminate_scope_operation scope opts) (report_post scope) s0.
Proof.
  apply swp_with_operation; [|by intros; eapply report_post_mono]. intros. by apply swp_terminate_locked.
Qed.

Lemma swp_terminate_scope scope opts s0 : swp (terminate_scope scope opts) (report_post scope) s0.
Proof.
  eapply swp_bind; [apply swp_retained|]. intros [r|] s1 _ _ Hr; [apply swp_report; intros _; by apply Hr|].
  eapply swp_bind; [apply swp_reads|]. intros [] s2 _ _ _; [apply swp_terminate_operation|].
  eapply swp_bind; [apply swp_retained|]. intros o s3 _ _ Ho. apply swp_ret. intros s4 H4 _ r E Hv.
  destruct o as [x|]; [|done]. injection E as ->. eapply report_ok_mono; [done|]. by apply Ho.
Qed.

(** ** Shutdown *)

Lemma swp_terminate_all l s0 :
  swp (terminate_all l) (fun r s => r.2 = 0%nat -> forall scope, scope ∈ l -> settled s scope) s0.
Proof.
  revert s0. induction l as [|scope l IH]; intros s0; cbn [terminate_all].
  { apply swp_ret. intros s _ _ _ scope Hs. by apply elem_of_nil in Hs. }
  eapply swp_bind; [apply swp_terminate_operation|]. intros r s1 _ _ Hr.
  eapply swp_bind; [apply IH|]. intros [reports unverified] s2 H2 _ Hall. apply swp_ret. intros s3 H3 _ E i Hi.
  assert (unverified = 0%nat /\ settled s1 scope) as [-> Hset].
  { destruct r as [x|e]; cbn in E; [|done]. destruct (report_all_verified x) eqn:Ev; [|done].
    split; [done|]. by destruct (Hr x eq_refl Ev) as (_ & _ & ? & _). }
  apply elem_of_cons in Hi as [->|Hi].
  - eapply settled_mono; [|exact Hset]. sup_later.
  - eapply settled_mono; [exact H3|]. by apply Hall.
Qed.

(** A scope that is not registered has nothing left to reap. *)
Lemma unregistered_settled s scope :
  sup_inv s -> (scope <= next_scope (in_registry s))%N -> scope_at s scope = None -> settled s scope.
Proof.
  intros HI Hle Hn. split_and!; [done| |].
  - intros (sc & Hsc & _). congruence.
  - intros pid os Ha. destruct (inv_attached _ HI _ _ _ Ha) as (_ & _ & [(sc & Hsc & _)|?]); [congruence|done].
Qed.

Lemma shutdown_snapshot_total s : sup_inv s -> shutdown_snapshot s = Some (scope_ids (in_registry s)).
Proof.
  intros HI. unfold shutdown_snapshot. assert (Forall (fun i => is_Some (scope_at s i)) (scope_ids (in_registry s))) as Hf.
  { apply Forall_forall. intros i. apply elem_of_bt_keys. }
  induction Hf as [|i l Hi _ IH]; [done|]. cbn.
  rewrite decide_True by by apply (inv_operations _ HI). cbn. rewrite IH. done.
Qed.

Lemma swp_join_sampler s0 : all_settled s0 -> swp join_sampler (fun _ _ => True) s0.
Proof.
  intros Ha. eapply swp_bind; [apply swp_await|].
  { intros s s' x H HI. destruct (in_sampler_locked s); [done|]. intros [= <- <-].
    apply ok_sampler_lock; [done|]. intros _. by eapply all_settled_mono. }
  intros _ s1 _ _ _. apply swp_guarded; [intros s HI; by apply ok_sampler_lock|done|].
  eapply swp_bind; [apply swp_reads|]. intros [] s2 _ _ _; [|done].
  eapply swp_bind; [apply swp_update; intros s _ HI; ok_inert s HI|]. intros _ s3 _ _ _.
  eapply swp_bind; [apply swp_await|].
  { intros s s' x _ HI. destruct (in_sampler_ended s); [|done]. intros [= <- <-]. by apply ok_refl. }
  intros _ s4 _ _ _. apply swp_update. intros s _ HI. ok_inert s HI.
Qed.

Definition shutdown_post (r : result ShutdownReport ShutdownError) (s : Inner) : Prop :=
  result_is_ok r = true -> all_settled s.

Lemma shutdown_post_mono r s s' : shutdown_post r s -> sup_rel s s' -> shutdown_post r s'.
Proof. intros Hp H E. eapply all_settled_mono; [exact H|]. by apply Hp. Qed.

(** Every scope that was registered when no creation could follow is settled: so are all. *)
Lemma all_settled_later s s' :
  sup_inv s -> in_shutting_down s = true -> in_creating s = false -> sup_rel s s' ->
  (forall scope, is_Some (scope_at s scope) -> settled s' scope) -> all_settled s'.
Proof.
  intros HI Hd Hc H Hall. destruct (rel_down _ _ H Hd) as [Hd' Hle]. destruct (rel_ids _ _ H) as [Hid _].
  unfold creations in Hle. rewrite Hc in Hle. destruct (in_creating s') eqn:Hc'; [lia|].
  split_and!; [done..|]. intros scope Hs. destruct (scope_at s scope) as [sc|] eqn:E; [apply Hall; by eexists|].
  eapply settled_mono; [exact H|]. apply unregistered_settled; [done|lia|done].
Qed.

Lemma swp_shutdown s0 : swp shutdown shutdown_post s0.
Proof.
  eapply swp_bind; [apply swp_modify; intros s _ HI; by apply ok_down|]. intros _ s1 _ HI1 (s2 & _ & HI2 & H21).
  assert (Hd : forall s, sup_rel s1 s -> in_shutting_down s = true).
  { intros s H. apply (rel_down _ _ H). by apply (rel_down _ _ H21). }
  eapply swp_bind; [apply swp_await|].
  { intros s s' x _ HI. destruct (in_shutdown_locked s); [done|]. intros [= <- <-]. ok_inert s HI. }
  intros _ s3 H3 _ _. apply swp_guarded; [intros s HI; ok_inert s HI|intros a s s' _ Hp H _; by eapply shutdown_post_mono|].
  eapply swp_bind; [apply swp_await|].
  { intros s s' x _ HI. unfold lock_snapshot. destruct (in_creating s); [done|]. intros [= <- <-]. by apply ok_refl. }
  intros o s4 H4 _ (s5 & s5' & H5 & HI5 & E & H54). unfold lock_snapshot in E.
  destruct (in_creating s5) eqn:Hc; [done|]. injection E as <- <-. rewrite (shutdown_snapshot_total s5 HI5).
  eapply swp_bind; [apply swp_terminate_all|]. intros [reports unverified] s6 H6 _ Hall. cbn in Hall.
  destruct (Nat.ltb_spec 0 unverified) as [|Hz]; [by apply swp_ret; intros s _ _ [=]|].
  assert (unverified = 0%nat) as Hzero by lia.
  assert (H15 : sup_rel s1 s5) by sup_later.
  assert (Hset : all_settled s6).
  { apply (all_settled_later s5); [done|by apply Hd|done|sup_later|].
    intros scope Hs. apply (Hall Hzero). by apply elem_of_bt_keys. }
  eapply swp_bind; [by apply swp_join_sampler|]. intros _ s7 H7 _ _. apply swp_ret. intros s8 H8 _ _.
  eapply all_settled_mono; [|exact Hset]. sup_later.
Qed.

Lemma swp_drop_supervisor s0 : swp drop_supervisor (fun _ _ => True) s0.
Proof.
  eapply swp_bind; [apply swp_update; intros s _ HI; by apply ok_owners_dropped|]. intros _ s1 _ _ _.
  eapply swp_bind; [apply swp_update; intros s _ HI; by apply ok_down|]. intros _ s2 _ _ _.
  eapply swp_mono; [apply swp_call|done].
Qed.

(** ** Observed scopes and scoped blocks *)

(** A refused creation: the shutdown has started. *)
Definition create_post (r : result ProcessScopeId ScopeCreationError) (s : Inner) : Prop :=
  result_is_ok r = false -> in_shutting_down s = true.

Lemma swp_create before s0 :
  before = (fun _ s => s) \/ before = publish_watch -> swp (try_create_scope_before_publish before) create_post s0.
Proof.
  intros Hb. eapply swp_bind; [apply swp_await; intros s s' b _ HI E; by apply (ok_begin_creation s s' b)|].
  intros admitted s1 _ _ (s2 & s3 & _ & HI2 & E & H31).
  destruct (ok_begin_creation s2 s3 admitted HI2 E) as [_ Hdown]. destruct admitted.
  2: { apply swp_ret. intros s H _ _. eapply (rel_down s3 s); [sup_later|by apply Hdown]. }
  eapply swp_bind.
  { apply swp_cancel_with; [intros s HI; by apply ok_creation_over|]. apply swp_await.
    intros s s' r _ HI Er. by apply (ok_create_and_publish s s' before r). }
  intros [scope|] s4 _ _ (s5 & s6 & _ & HI5 & Er & H64); [by apply swp_ret; intros s _ _ [=]|].
  apply swp_panic. intros s H _. do 2 right; left. split; [done|left].
  destruct (ok_create_and_publish s5 s6 before None HI5 Hb Er) as [_ Hnone].
  eapply id_succ_None_mono; [by apply Hnone|]. assert (HR : sup_rel s6 s) by sup_later. apply (rel_ids _ _ HR).
Qed.

Lemma swp_expect_scope p s0 : swp p create_post s0 -> swp (expect_scope p) (fun _ _ => True) s0.
Proof.
  intros Hp. eapply swp_bind; [exact Hp|]. intros [scope|e] s1 _ _ Hc; [done|]. apply swp_panic. intros s H _. left.
  split; [done|]. apply (rel_down _ _ H). by apply Hc.
Qed.

Lemma backstop_verified_ok s scope r : sup_inv s -> backstop_verified scope s = Some r -> report_ok s scope r.
Proof.
  intros HI. unfold backstop_verified. destruct (in_watches s !! scope) as [w|] eqn:E; [|done]. cbn.
  by eapply (inv_watches _ HI).
Qed.

Lemma swp_backstop scope s0 :
  swp (reads (backstop_verified scope)) (fun o s => forall r, o = Some r -> report_ok s scope r) s0.
Proof.
  eapply swp_mono; [apply swp_reads|]. intros o s _ _ (s1 & _ & HI & -> & H) r Hr.
  eapply report_ok_mono; [done|]. by apply backstop_verified_ok.
Qed.

Lemma ok_drop_backstop s scope : sup_inv s -> ok s (drop_backstop scope s).
Proof.
  intros HI. unfold drop_backstop. destruct (backstop_verified scope s); [by apply ok_drop_sender|].
  destruct (ok_calls s (DidHardKillScope scope) HI) as [HI1 HR1]. eapply ok_trans; [by split|].
  destruct (ok_publish (record_call (DidHardKillScope scope) s) scope (Err interrupted_error) HI1) as [HI2 HR2]; [done|].
  eapply ok_trans; [by split|]. by apply ok_drop_sender.
Qed.

Lemma ok_complete_backstop s scope r : sup_inv s -> report_post scope r s -> ok s (complete_backstop scope r s).
Proof.
  intros HI Hr. destruct (ok_publish s scope r HI Hr) as [HI2 HR2]. eapply ok_trans; [by split|]. by apply ok_drop_sender.
Qed.

Lemma swp_finish scope opts s0 : swp (finish_scope_cleanup scope opts) (report_post scope) s0.
Proof.
  apply swp_cancel_with; [intros s HI; by apply ok_drop_backstop|].
  eapply swp_bind; [apply swp_backstop|]. intros known s1 _ _ Hk.
  eapply swp_bind with (P := report_post scope).
  { destruct known as [r|]; [apply swp_report; intros _; by apply Hk|apply swp_terminate_scope]. }
  intros result s2 _ _ Hr. eapply swp_bind; [apply swp_backstop|]. intros known2 s3 H3 _ Hk2. cbn zeta.
  set (result' := match known2 with Some report => Ok report | None => result end).
  assert (Hr' : report_post scope result' s3).
  { subst result'. destruct known2 as [x|]; [intros r [= <-] _; by apply Hk2|by eapply report_post_mono]. }
  eapply swp_bind with (P := fun _ _ => True).
  { destruct (is_verified_result result'); [done|]. eapply swp_mono; [apply swp_call|done]. }
  intros _ s4 H4 _ _. eapply swp_bind; [apply swp_update|].
  { intros s H HI. apply ok_complete_backstop; [done|]. eapply report_post_mono; [exact Hr'|sup_later]. }
  intros _ s5 H5 _ _. apply swp_ret. intros s6 H6 _. eapply report_post_mono; [exact Hr'|sup_later].
Qed.

Lemma swp_watch_ready scope s0 : swp (await (watch_ready scope)) (report_post scope) s0.
Proof.
  eapply swp_mono; [apply swp_await|].
  - intros s s' r _ HI. unfold watch_ready. destruct (in_watches s !! scope) as [w|]; [|done]. cbn.
    destruct (watch_value w); [intros [= <- <-]; by apply ok_refl|].
    destruct (_ =? _)%nat; [|done]. intros [= <- <-]. by apply ok_refl.
  - intros r s _ _ (s1 & s2 & _ & HI & E & H) x -> Hv. unfold watch_ready in E.
    destruct (in_watches s1 !! scope) as [w|] eqn:Ew; [|done]. cbn in E. destruct (watch_value w) as [v|] eqn:Ev.
    + injection E as <- ->. eapply report_ok_mono; [exact H|]. eapply (inv_watches _ HI); [done|].
      rewrite Ev. cbn. by rewrite Hv.
    + by destruct (_ =? _)%nat.
Qed.

Lemma swp_wait_scope_cleanup scope s0 : swp (wait_scope_cleanup scope) (report_post scope) s0.
Proof.
  eapply swp_bind; [apply swp_reads|]. intros [] s1 _ _ _; [apply swp_watch_ready|apply swp_report_err].
Qed.

Lemma swp_scope_cleanup scope opts s0 : swp (scope_cleanup_task scope opts) (fun _ _ => True) s0.
Proof.
  apply swp_cancel_with; [intros s HI; apply ok_cleanups; [done|]; intros m [= <-]; by left|].
  eapply swp_bind with (P := fun r s => match r with Ok _ => True | Err m => may_panic m s end).
  2: { intros r s1 _ _ Hr. apply swp_update. intros s H HI. apply ok_cleanups; [done|].
       intros m E. destruct r; [done|]. injection E as ->. right. by eapply may_panic_mono. }
  apply swp_catch; [done|]. eapply swp_bind with (P := fun _ _ => True).
  2: { intros _ s1 _ _ _. eapply swp_mono; [apply swp_finish|done]. }
  apply swp_cancel_with; [intros s HI; by apply ok_drop_backstop|]. eapply swp_mono; [apply swp_await|done].
  intros s s' x _ HI. destruct (decide _); [|done]. intros [= <- <-]. by apply ok_refl.
Qed.

Lemma swp_cleanup_join scope s0 : swp (cleanup_join_task scope) (fun _ _ => True) s0.
Proof.
  apply swp_cancel_with; [intros s HI; by apply ok_drop_sender|].
  eapply swp_bind; [apply swp_await|].
  { intros s s' x _ HI. destruct (in_cleanups s !! scope); cbn; [|done]. intros [= <- <-]. by apply ok_refl. }
  intros failed s1 _ _ _. eapply swp_bind with (P := fun _ _ => True).
  { destruct failed as [m|]; [|done]. apply swp_update. intros s _ HI. by apply ok_publish. }
  intros _ s2 _ _ _. apply swp_update. intros s _ HI. by apply ok_drop_sender.
Qed.

(** Every process of [l] was attached to [scope]. *)
Definition all_attached (scope : ProcessScopeId) (l : list ProcessId) (s : Inner) : Prop :=
  forall pid, pid ∈ l -> exists os, in_attached s !! pid = Some (scope, os).

Lemma all_attached_mono scope l s s' : sup_rel s s' -> all_attached scope l s -> all_attached scope l s'.
Proof. intros H Hl pid Hpid. destruct (Hl pid Hpid) as [os Ha]. exists os. by apply (rel_attached _ _ H). Qed.

Lemma swp_spawn_all scope specs l s0 :
  all_attached scope l s0 -> swp (spawn_all scope specs l) (fun r s => all_attached scope r.1 s) s0.
Proof.
  revert l s0. induction specs as [|spec specs IH]; intros l s0 Hl; cbn [spawn_all].
  { apply swp_ret. intros s H _. by eapply all_attached_mono. }
  eapply swp_bind; [apply swp_spawn|]. intros [pid|e] s1 H1 _ Hr.
  - apply IH. intros q [Hq|Hq]%elem_of_app; [|apply list_elem_of_singleton in Hq as ->]; [by apply (all_attached_mono scope l s0)|by apply Hr].
  - apply swp_ret. intros s H _. eapply all_attached_mono; [|exact Hl]. sup_later.
Qed.

(** The handle of a block, made of processes attached to its scope. *)
Lemma swp_scoped_new scope l s0 :
  all_attached scope l s0 -> swp (scoped_new scope l) (fun h s => block_handle s h) s0.
Proof.
  intros Hl. eapply swp_mono; [apply swp_act; intros s _ HI; exact (ok_scoped_new s scope l HI)|].
  intros h s1 H1 _ (s2 & H2 & HI2 & Eh & H21). cbn in Eh. subst h. eapply block_handle_mono; [exact H21|].
  eexists. cbn. rewrite lookup_insert_eq. split; [done|]. cbn. by apply (all_attached_mono scope l s0).
Qed.

Lemma swp_with_scope {A} specs opts (closure : nat -> SProg A) s0 :
  (forall h s, block_handle s h -> swp (closure h) (fun _ _ => True) s) ->
  swp (with_scope_options specs opts closure) (fun r s => report_post (ws_scope _ r) (ws_termination _ r) s) s0.
Proof.
  intros Hc. eapply swp_bind; [apply swp_expect_scope, swp_create; by right|]. intros scope s1 _ _ _.
  eapply swp_bind; [apply swp_update|].
  { intros s _ HI. destruct (in_watches s !! scope) as [w|] eqn:E; [by apply ok_senders|by apply ok_refl]. }
  intros _ s2 _ _ _. eapply swp_bind; [by apply swp_fork|]. intros _ s3 _ _ _.
  eapply swp_bind; [by apply swp_fork|]. intros _ s4 _ _ _.
  eapply swp_bind with (P := fun _ _ => True).
  { apply swp_guarded; [intros s HI; ok_inert s HI|done|].
    eapply swp_bind; [apply swp_spawn_all; by intros pid Hpid%elem_of_nil|]. intros [l o] s5 _ _ Hl.
    destruct o; [done|]. eapply swp_bind; [by apply swp_scoped_new|]. intros h s6 _ _ Hh.
    eapply swp_bind; [by apply Hc|]. done. }
  intros result s5 _ _ _. eapply swp_bind; [apply swp_watch_ready|]. intros t s6 _ _ Ht.
  apply swp_ret. intros s7 H7 _. by eapply report_post_mono.
Qed.

(** ** The operations of a scoped handle *)

Lemma swp_take_output pid s0 : swp (take_output pid) (fun _ _ => True) s0.
Proof.
  eapply swp_mono; [apply swp_act|done]. intros s _ HI. cbn. apply ok_outputs; [done|].
  pose proof (output_history_take (in_completed s) (in_outputs s) pid (inv_outputs _ HI)) as Ht. exact Ht.
Qed.

Lemma swp_observable_owned h s0 :
  swp (act (observable_owned h)) (fun owned s => forall pid, pid ∈ owned -> scoped_member s h pid) s0.
Proof.
  eapply swp_mono; [apply swp_act; intros s _ HI; exact (proj1 (ok_observable_owned s h HI))|].
  intros owned s1 _ _ (s2 & _ & HI2 & -> & H21) pid Hpid.
  eapply scoped_member_mono; [exact H21|]. destruct (ok_observable_owned s2 h HI2) as [[_ HR] Hm].
  eapply scoped_member_mono; [exact HR|]. by apply Hm.
Qed.

Lemma swp_prune_owned h s0 : swp (modify (fun s => (observable_owned h s).1)) (fun _ _ => True) s0.
Proof. apply swp_update. intros s _ HI. exact (proj1 (ok_observable_owned s h HI)). Qed.

Lemma swp_scoped_wait h pid s0 :
  swp (scoped_wait h pid)
    (fun r s => forall e, r = Ok e -> scoped_member s h pid /\ backed s pid (exit_outcome e)) s0.
Proof.
  eapply swp_bind; [apply swp_observable_owned|]. intros owned s1 _ _ Hm.
  destruct (decide (pid ∈ owned)) as [Hin|_]; [|by apply swp_ret; intros s _ _ e [=]].
  eapply swp_bind; [apply swp_wait_op|]. intros r s2 H2 _ Hr. eapply swp_bind; [apply swp_prune_owned|].
  intros _ s3 H3 _ _. apply swp_ret. intros s4 H4 _ e ->. split.
  - eapply scoped_member_mono; [|by apply Hm]. sup_later.
  - eapply backed_mono; [|by apply Hr]. sup_later.
Qed.

Lemma swp_scoped_take_output h pid s0 :
  swp (scoped_take_output h pid) (fun o s => forall x, o = Some x -> scoped_member s h pid) s0.
Proof.
  eapply swp_bind; [apply swp_observable_owned|]. intros owned s1 _ _ Hm.
  destruct (decide (pid ∈ owned)) as [Hin|_]; [|by apply swp_ret; intros s _ _ e [=]].
  eapply swp_bind; [apply swp_take_output|]. intros r s2 H2 _ _. eapply swp_bind; [apply swp_prune_owned|].
  intros _ s3 H3 _ _. apply swp_ret. intros s4 H4 _ x _. eapply scoped_member_mono; [|by apply Hm]. sup_later.
Qed.

(** The handle at the start of a spawn, while its scope exists. *)
Lemma scoped_handle_later s s' h pid os :
  sup_rel s s' -> sup_inv s' -> in_attached s' !! pid = Some (sp_scope (scoped_handle h s), os) -> scoped_member s' h pid.
Proof.
  intros H HI Ha. unfold scoped_handle in Ha. destruct (in_scoped s !! h) as [c|] eqn:E; cbn in Ha.
  - destruct (rel_scoped _ _ H h c E) as (c' & Hc' & Es & _). exists c'. split; [done|]. right. exists os. by rewrite Es.
  - destruct (inv_attached _ HI _ _ _ Ha) as (_ & ? & _). lia.
Qed.

Lemma swp_scoped_spawn h spec s0 :
  swp (scoped_spawn h spec) (fun r s => forall pid, r = Ok pid -> scoped_member s h pid) s0.
Proof.
  eapply swp_bind; [apply swp_reads|]. intros c s1 _ _ (sc & _ & _ & -> & H1).
  eapply swp_bind; [apply swp_spawn|]. intros [pid|e] s2 H2 HI2 Hr; [|by apply swp_ret; intros s _ _ x [=]].
  destruct (Hr pid eq_refl) as [os Ha].
  assert (Hm : forall s, sup_rel s2 s -> scoped_member s h pid).
  { intros s H. eapply scoped_member_mono; [exact H|]. eapply scoped_handle_later; [|done|exact Ha]. sup_later. }
  eapply swp_bind; [apply swp_update|intros _ s3 H3 _ _; apply swp_ret; intros s4 H4 _ x [= <-]; apply Hm; sup_later].
  intros s H HI. destruct (observable_owned h s) as [s' owned] eqn:E.
  destruct (ok_observable_owned s h HI) as [Hok Hown]. rewrite E in Hok, Hown. cbn [fst snd] in Hok, Hown.
  eapply ok_trans; [exact Hok|]. destruct Hok as [HI' HR]. apply ok_set_owned; [done|].
  intros q [Hq|Hq]%elem_of_union _; eapply scoped_member_mono; [exact HR| |exact HR|by apply Hown].
  apply elem_of_singleton in Hq as ->. by apply Hm.
Qed.
End Scopes.
