(* ===== verification/SupervisorTheorems.v ===== *)
(** * SupervisorTheorems: what a supervisor guarantees, under every interleaving

    The calls of the public interface run concurrently with the supervisor's tasks,
    with each other, with a backend that answers anything, and with cancellation of
    any of them at any suspension. The theorems read the history of a reachable
    state: what was returned to callers, against what the backend answered. *)

From stdpp Require Import base list gmap strings relations.
From S2P Require Import Prelude StdModel Values Process Scope Registry Waiters Usage.
From S2P Require Import Observation Ports History Conc State Dispatch Supervisor SupervisorInv.
From S2P Require Import SupervisorSteps SupervisorSafe SupervisorScopes.

Open Scope Z_scope.
Open Scope prog_scope.

Section Theorems.
Context {W F : Type} `{!WaitersPort W F, !WaitersLaws W F}.

Abbreviation Inner := (Inner W F) (only parsing).
Abbreviation SProg := (SProg W F) (only parsing).
Implicit Types (s : Inner) (scope : ProcessScopeId) (pid : ProcessId).

(** ** The system *)

(** A call of the public interface: its value is logged when it returns. *)
Definition calling {A} (p : SProg A) (ret : A -> returned F) : SProg unit :=
  let! x := p in modify (log_return (ret x)).

(** The closure of a scoped block returns or panics some time later; what it does with the
    supervisor meanwhile are calls of their own. *)
Definition closure_code (h : nat) : SProg unit :=
  modify (log_return (RetBlock h)) ;;;
  let! r := select2 (Ready (fun s => Some (s, tt))) (Ready (fun s => Some (s, tt))) in
  match r with inl _ => Ret tt | inr _ => Panic "closure panicked" end.

Inductive supervisor_call : SProg unit -> Prop :=
| call_try_create_scope : supervisor_call (calling try_create_scope RetCreateScope)
| call_create_scope : supervisor_call (calling create_scope (fun scope => RetCreateScope (Ok scope)))
| call_try_create_observed : supervisor_call (calling try_create_observed_scope RetCreateScope)
| call_spawn scope spec : supervisor_call (calling (supervisor_spawn scope spec) (RetSpawn scope))
| call_spawn_observed scope spec : supervisor_call (calling (spawn_observed scope spec) (fun _ => RetRead))
| call_complete b h : supervisor_call (calling (observed_complete b h) RetObservation)
| call_processes scope : supervisor_call (calling (reads (supervisor_processes scope)) (fun _ => RetRead))
| call_scope_usage scope : supervisor_call (calling (scope_usage scope) (fun _ => RetRead))
| call_os_pid pid : supervisor_call (calling (supervisor_os_pid pid) (fun _ => RetRead))
| call_stats pid : supervisor_call (calling (stats pid) (RetStats pid))
| call_take_output pid : supervisor_call (calling (take_output pid) (RetOutput pid))
| call_wait pid : supervisor_call (calling (supervisor_wait pid) (RetWait pid))
| call_terminate pid opts : supervisor_call (calling (terminate pid opts) (RetTerminate pid))
| call_terminate_scope scope opts : supervisor_call (calling (terminate_scope scope opts) (RetTerminateScope scope))
| call_finish scope opts : supervisor_call (calling (finish_scope_cleanup scope opts) (RetTerminateScope scope))
| call_drop_observed scope : supervisor_call (calling (drop_observed_scope scope) (fun _ => RetRead))
| call_wait_cleanup scope : supervisor_call (calling (wait_scope_cleanup scope) (RetTerminateScope scope))
| call_with_scope specs opts :
    supervisor_call (calling (with_scope_options specs opts closure_code)
      (fun r => RetTerminateScope (ws_scope _ r) (ws_termination _ r)))
| call_scoped_new scope l : supervisor_call (calling (scoped_new scope l) (fun _ => RetRead))
| call_scoped_spawn h spec : supervisor_call (calling (scoped_spawn h spec) (RetScopedSpawn h))
| call_scoped_wait h pid : supervisor_call (calling (scoped_wait h pid) (RetScopedWait h pid))
| call_scoped_output h pid : supervisor_call (calling (scoped_take_output h pid) (RetScopedOutput h pid))
| call_authorized_len h : supervisor_call (calling (authorized_len h) (fun _ => RetRead))
| call_shutdown : supervisor_call (calling shutdown RetShutdown)
| call_drop : supervisor_call (calling drop_supervisor (fun _ => RetRead)).

Definition sup_config : Type := Inner * list (SProg unit).

Definition sup_step : sup_config -> sup_config -> Prop := step (@answer W F) task_body supervisor_call.

(** Waiters that know nothing yet. *)
Definition fresh_waiters (w : W) : Prop := waiters_inv w /\ forall pid, try_get w pid = None.

(** The configurations of a supervisor constructed over [w]. *)
Definition reachable (w : W) (interval : Duration) (c : sup_config) : Prop :=
  rtc sup_step (with_stats_interval w interval, []) c.

(** ** Every configuration is good *)

Lemma sup_init_inv w interval : fresh_waiters w -> sup_inv (with_stats_interval w interval).
Proof.
  intros [Hw Hn].
  assert (Hat : forall scope, @scope_at W F (with_stats_interval w interval) scope = None).
  { intros scope. unfold scope_at. cbn. apply lookup_empty. }
  split; try (intros *; cbn; rewrite lookup_empty; done).
  - apply registry_new_wf.
  - exact Hw.
  - intros scope. rewrite Hat. by intros [].
  - intros pid e. cbn. by rewrite Hn.
  - intros r Hr. by apply elem_of_nil in Hr.
  - split; cbn; [constructor| |lia]. intros pid Hp. by apply elem_of_nil in Hp.
  - apply os_history_default_wf.
  - cbn. lia.
  - cbn. lia.
  - done.
  - intros m. cbn. intros [[h H]|[[h H]|[h H]]]; by rewrite lookup_empty in H.
  - intros scope Hs. cbn in Hs. set_solver.
  - intros scope Hs. cbn in Hs. set_solver.
  - cbn. lia.
Qed.

Lemma swp_task t s : sup_inv s -> task_pre t s -> swp (task_body t) (fun _ _ => True) s.
Proof.
  intros _ Ht. destruct t as [h scope spec a|scope pid sp| |scope|h pid o opts|pending|scope opts|scope];
    cbn [task_body task_pre] in *.
  - by apply swp_spawn_task.
  - by apply swp_monitor.
  - apply swp_publisher.
  - apply swp_dispatch. by repeat constructor.
  - destruct Ht. by apply swp_worker.
  - apply swp_sampler.
  - apply swp_scope_cleanup.
  - apply swp_cleanup_join.
Qed.

Lemma swp_calling {A} (p : SProg A) (ret : A -> returned F) P s0 :
  swp p P s0 -> (forall a s s', P a s -> sup_rel s s' -> returned_ok s' (ret a)) ->
  swp (calling p ret) (fun _ _ => True) s0.
Proof.
  intros Hp Hr. eapply swp_bind; [exact Hp|]. intros a s1 _ _ Ha. apply swp_update.
  intros s H HI. apply ok_return; [done|]. by eapply Hr.
Qed.

Lemma swp_calling_any {A} (p : SProg A) (ret : A -> returned F) s0 :
  swp p (fun _ _ => True) s0 -> (forall a s, returned_ok s (ret a)) -> swp (calling p ret) (fun _ _ => True) s0.
Proof. intros Hp Hr. eapply swp_calling; [exact Hp|]. intros. apply Hr. Qed.

Lemma report_returned scope r s s' :
  report_post scope r s -> sup_rel s s' -> returned_ok s' (RetTerminateScope scope r).
Proof. intros Hr H. destruct r as [x|e]; [|done]. intros Hv. eapply report_ok_mono; [done|]. by apply Hr. Qed.

Lemma swp_closure h s0 : block_handle s0 h -> swp (closure_code h) (fun _ _ => True) s0.
Proof.
  intros Hh. eapply swp_bind; [apply swp_modify|].
  { intros s H HI. apply ok_return; [done|]. by eapply block_handle_mono. }
  intros _ s0' _ _ (s1' & _ & _ & H10).
  eapply swp_bind with (P := fun _ _ => True).
  - apply swp_wait. intros s s' [x|x] _ HI Hf; cbn in Hf; injection Hf as <-; (split; [by apply ok_refl|done]).
  - intros [x|x] s1 H1 _ _; [done|]. apply swp_panic. intros s H _. right; left. split; [done|]. exists h.
    apply (rel_returned _ _ H), (rel_returned _ _ H1), (rel_returned _ _ H10). left.
Qed.

Lemma swp_scope_usage scope s0 : swp (scope_usage scope) (fun _ _ => True) s0.
Proof.
  eapply swp_bind; [apply swp_reads|]. intros [l|] s1 _ _ _; [|done]. eapply swp_mono; [apply swp_ask|done].
Qed.

Lemma swp_os_pid pid s0 : swp (supervisor_os_pid pid) (fun _ _ => True) s0.
Proof.
  eapply swp_bind; [apply swp_reads|]. intros [os|] s1 _ _ _; [done|]. eapply swp_mono; [apply swp_reads|done].
Qed.

Lemma swp_supervisor_call p s : sup_inv s -> supervisor_call p -> swp p (fun _ _ => True) s.
Proof.
  intros _ Hc. destruct Hc.
  - apply swp_calling_any; [eapply swp_mono; [apply swp_create; by left|done]|done].
  - apply swp_calling_any; [apply swp_expect_scope, swp_create; by left|done].
  - apply swp_calling_any; [eapply swp_mono; [apply swp_create; by right|done]|done].
  - eapply swp_calling; [apply swp_spawn|]. intros r s1 s2 Hr H. destruct r as [pid|e]; [|done]. cbn.
    by apply (spawn_post_mono scope (Ok pid) s1 s2 Hr H).
  - apply swp_calling_any; [apply swp_spawn_observed|done].
  - eapply swp_calling; [apply swp_observed_complete|]. intros r s1 s2 Hr H. destruct r as [o|e]; [|done]. cbn.
    eapply observation_ok_mono; [exact H|]. by apply Hr.
  - apply swp_calling_any; [eapply swp_mono; [apply swp_reads|done]|done].
  - apply swp_calling_any; [apply swp_scope_usage|done].
  - apply swp_calling_any; [apply swp_os_pid|done].
  - apply swp_calling_any; [eapply swp_mono; [apply swp_reads|done]|done].
  - apply swp_calling_any; [apply swp_take_output|done].
  - eapply swp_calling; [apply swp_wait_op|]. intros r s1 s2 Hr H. destruct r as [e|e]; [|done]. cbn.
    eapply backed_mono; [exact H|]. by apply Hr.
  - eapply swp_calling; [apply swp_terminate|]. intros r s1 s2 Hr H. destruct r as [e|e]; [|done]. cbn.
    eapply backed_mono; [exact H|]. by apply Hr.
  - eapply swp_calling; [apply swp_terminate_scope|]. intros. by eapply report_returned.
  - eapply swp_calling; [apply swp_finish|]. intros. by eapply report_returned.
  - apply swp_calling_any; [apply swp_update; intros s1 _ HI; by apply ok_drop_backstop|done].
  - eapply swp_calling; [apply swp_wait_scope_cleanup|]. intros. by eapply report_returned.
  - eapply swp_calling; [apply swp_with_scope; intros; by apply swp_closure|]. cbn. intros r s1 s2 Hr H. by eapply report_returned.
  - apply swp_calling_any; [|done]. eapply swp_mono; [apply swp_act; intros s1 _ HI; exact (ok_scoped_new s1 scope l HI)|done].
  - eapply swp_calling; [apply swp_scoped_spawn|]. intros r s1 s2 Hr H. destruct r as [pid|e]; [|done]. cbn.
    eapply scoped_member_mono; [exact H|]. by apply Hr.
  - eapply swp_calling; [apply swp_scoped_wait|]. intros r s1 s2 Hr H. destruct r as [e|e]; [|done]. cbn.
    destruct (Hr e eq_refl). split; [by eapply scoped_member_mono|by eapply backed_mono].
  - eapply swp_calling; [apply swp_scoped_take_output|]. intros o s1 s2 Hr H. destruct o as [x|]; [|done]. cbn.
    eapply scoped_member_mono; [exact H|]. by eapply Hr.
  - apply swp_calling_any; [|done]. eapply swp_bind; [apply swp_observable_owned|]. done.
  - eapply swp_calling; [apply swp_shutdown|]. intros r s1 s2 Hr H. destruct r as [x|e]; [|done]. cbn.
    exact (shutdown_post_mono _ _ _ Hr H eq_refl).
  - apply swp_calling_any; [apply swp_drop_supervisor|done].
Qed.

Lemma steps_ok c c' :
  pool_ok (@answer W F) sup_inv sup_rel task_pre may_panic c -> rtc sup_step c c' ->
  pool_ok (@answer W F) sup_inv sup_rel task_pre may_panic c' /\ sup_rel c.1 c'.1.
Proof.
  intros Hc Hs. refine (wp_adequate _ _ _ _ _ may_panic supervisor_call _ _ c c' Hs Hc).
  - intros p s HI Hp. by apply swp_supervisor_call.
  - intros t s HI Ht. by apply swp_task.
Qed.

Lemma reachable_ok w interval c :
  fresh_waiters w -> reachable w interval c ->
  pool_ok (@answer W F) sup_inv sup_rel task_pre may_panic c.
Proof.
  intros Hw Hr. apply (steps_ok (with_stats_interval w interval, [])); [|done].
  split; [by apply sup_init_inv|constructor].
Qed.

Lemma reachable_inv w interval s l : fresh_waiters w -> reachable w interval (s, l) -> sup_inv s.
Proof. intros Hw Hr. apply (reachable_ok w interval (s, l) Hw Hr). Qed.

Lemma size_list_to_set_le (l : list ProcessScopeId) : (size (list_to_set l : gset ProcessScopeId) <= length l)%nat.
Proof.
  induction l as [|x l IH]; cbn; [by rewrite size_empty|].
  rewrite size_union_alt, size_singleton.
  assert (size ((list_to_set l : gset ProcessScopeId) ∖ {[x]}) <= size (list_to_set l : gset ProcessScopeId))%nat.
  { apply subseteq_size. set_solver. }
  lia.
Qed.

Lemma kept_reports_size s : sup_inv s -> (size (in_reports s) <= 256 + size (in_committing s))%nat.
Proof.
  intros HI. rewrite <- size_dom.
  assert (dom (in_reports s) ⊆@{gset ProcessScopeId} list_to_set (in_completed_scopes s) ∪ in_committing s) as Hsub.
  { intros scope Hs%elem_of_dom. apply elem_of_union. destruct (inv_kept_reports _ HI scope Hs); [left|by right].
    by apply elem_of_list_to_set. }
  apply subseteq_size in Hsub. pose proof (size_union_alt (list_to_set (in_completed_scopes s)) (in_committing s)) as Hu.
  pose proof (size_list_to_set_le (in_completed_scopes s)) as Hl. pose proof (inv_completed_scopes _ HI) as Hb.
  unfold SCOPE_REPORT_HISTORY_BOUND in Hb.
  assert (size (in_committing s ∖ list_to_set (in_completed_scopes s)) <= size (in_committing s))%nat.
  { apply subseteq_size. set_solver. }
  lia.
Qed.

(** The backend's [wait] on [os] has answered an exit since [os] was attached as [pid]. *)
Definition waited (s : Inner) (pid : ProcessId) (os : OsIdentity) : Prop :=
  exists raw, called_after s pid (DidWait (mkSpawned os) (Returned (Ok raw))).

Lemma reaped_waited s pid scope os : in_attached s !! pid = Some (scope, os) -> reaped s pid -> waited s pid os.
Proof. intros Ha (scope' & os' & raw & Ha' & Hc). rewrite Ha in Ha'. injection Ha' as <- <-. by exists raw. Qed.

Lemma reaped_attached s pid :
  reaped s pid -> exists scope os, in_attached s !! pid = Some (scope, os) /\ waited s pid os.
Proof. intros (scope & os & raw & Ha & Hc). exists scope, os. split; [done|]. by exists raw. Qed.

(** ** The guarantees *)

(** C1. A verified cleanup report is true: whenever any call (a scope termination, the end of
    an observed scope or of a scoped block, a wait for the result) has returned a report of
    [scope] whose outcomes are all verified, the backend's containment sweep of the scope has
    succeeded, the scope admits no process any more, and the backend's [wait] has answered an
    exit for every process that was ever attached to the scope, after its attachment and
    whether or not the report lists it. It holds in every reachable configuration, so under any interleaving with other
    calls, monitors, panics, failing or lying signals, and cancellations. *)
Theorem verified_report_reaps_scope w interval s l scope r :
  fresh_waiters w -> reachable w interval (s, l) ->
  RetTerminateScope scope (Ok r) ∈ in_returned s -> report_all_verified r = true ->
  report_scope r = scope /\
  DidCleanupScope scope (Ok tt) ∈ in_calls s /\
  ~ admits s scope /\
  (forall pid os, in_attached s !! pid = Some (scope, os) -> waited s pid os) /\
  (forall pid o, (pid, o) ∈ report_outcomes r -> exists i os, in_attached s !! pid = Some (i, os) /\ waited s pid os).
Proof.
  intros Hw Hr Hin Hv. pose proof (reachable_inv w interval s l Hw Hr) as HI.
  destruct (inv_returned _ HI _ Hin Hv) as (Hid & _ & (_ & Hn & Hall) & Hsw & Hout).
  split_and!; [done..| |].
  - intros pid os Ha. eapply reaped_waited; [done|]. by eapply Hall.
  - intros pid o Ho. by eapply reaped_attached, Hout.
Qed.

(** C2. A successful shutdown leaves nothing running: once [shutdown] has returned [Ok], the
    backend's [wait] has answered an exit for every process this supervisor ever attached, in
    any scope, after its attachment; no scope admits a process, and none can be created any more. *)
Theorem shutdown_reaps_everything w interval s l r :
  fresh_waiters w -> reachable w interval (s, l) -> RetShutdown (Ok r) ∈ in_returned s ->
  in_shutting_down s = true /\
  (forall scope, ~ admits s scope) /\
  (forall pid scope os, in_attached s !! pid = Some (scope, os) -> waited s pid os).
Proof.
  intros Hw Hr Hin. pose proof (reachable_inv w interval s l Hw Hr) as HI.
  destruct (inv_returned _ HI _ Hin) as (Hd & _ & Hall). split_and!; [done| |].
  - intros scope Ha. pose proof Ha as (sc & Hsc & _).
    destruct (rg_ids _ (inv_registry _ HI) _ _ Hsc) as [_ Hb]. by destruct (Hall scope Hb) as (_ & Hn & _).
  - intros pid scope os Ha. destruct (inv_attached _ HI _ _ _ Ha) as (_ & Hb & _).
    eapply reaped_waited; [done|]. by eapply (Hall scope Hb).
Qed.

(** C3. A verified exit is true: an exit with a verified outcome, whether it is returned by
    [wait] or by [terminate], resolves the future of an observed spawn, or is recorded in the
    waiters, in the registry or among the outcomes of a cleanup, is always backed by an
    answer of the backend's [wait] for the OS process that was attached under that id, given
    after the attachment. *)
Theorem verified_exit_reaped w interval s l pid :
  fresh_waiters w -> reachable w interval (s, l) ->
  (exists e, is_verified (exit_outcome e) = true /\
     (RetWait pid (Ok e) ∈ in_returned s \/ (exists h, RetScopedWait h pid (Ok e) ∈ in_returned s) \/
      RetTerminate pid (Ok e) ∈ in_returned s \/
      (exists o, RetObservation (Ok o) ∈ in_returned s /\ so_pid o = pid /\ poll (in_waiters s) (so_exit o) = Some e) \/
      try_get (in_waiters s) pid = Some e \/
      (exists p, find_process (in_registry s) pid = Some p /\ process_exit p = Some e))) \/
  (exists scope o, pending_of s scope !! pid = Some o /\ is_verified o = true) ->
  exists scope os, in_attached s !! pid = Some (scope, os) /\ waited s pid os.
Proof.
  intros Hw Hr H. pose proof (reachable_inv w interval s l Hw Hr) as HI. apply reaped_attached.
  destruct H as [(e & Hv & H)|(scope & o & Hp & Hv)]; [|by eapply (inv_pending_of s scope)].
  destruct H as [H|[(h & H)|[H|[(o & H & <- & Hp)|[H|(p & H & He)]]]]].
  - exact (inv_returned _ HI _ H Hv).
  - exact (proj2 (inv_returned _ HI _ H) Hv).
  - exact (inv_returned _ HI _ H Hv).
  - destruct (inv_returned _ HI _ H) as [_ [_ Hf]]. by eapply Hf.
  - by eapply (inv_known _ HI).
  - destruct (find_process_tracked s pid p HI H) as (scope & sc & Hsc & Hpr).
    by eapply tracked_exit_backed.
Qed.

(** C33. A scoped handle reaches its own scope only. An exit or a capture obtained through a
    handle, a process spawned through it, and every process it authorizes was given to it when
    it was made or was attached to its scope; and the handle that a scoped block gives its
    closure was only given processes attached to the scope of the block. *)
Theorem scoped_handle_isolated w interval s l :
  fresh_waiters w -> reachable w interval (s, l) ->
  (forall h pid,
     (exists e, RetScopedWait h pid (Ok e) ∈ in_returned s) \/
     (exists o, RetScopedOutput h pid (Some o) ∈ in_returned s) \/
     RetScopedSpawn h (Ok pid) ∈ in_returned s \/
     (exists c, in_scoped s !! h = Some c /\ pid ∈ sp_owned c) ->
     exists c, in_scoped s !! h = Some c /\
       (pid ∈ sp_processes c \/ exists os, in_attached s !! pid = Some (sp_scope c, os))) /\
  (forall h, RetBlock h ∈ in_returned s ->
     exists c, in_scoped s !! h = Some c /\
       forall pid, pid ∈ sp_processes c -> exists os, in_attached s !! pid = Some (sp_scope c, os)).
Proof.
  intros Hw Hr. pose proof (reachable_inv w interval s l Hw Hr) as HI. split.
  - intros h pid [(e & H)|[(o & H)|[H|(c & Hc & Hp)]]].
    + exact (proj1 (inv_returned _ HI _ H)).
    + exact (inv_returned _ HI _ H).
    + exact (inv_returned _ HI _ H).
    + exact (proj2 (inv_scoped _ HI h c Hc) pid Hp).
  - intros h H. exact (inv_returned _ HI _ H).
Qed.

(** C31. The supervisor's own expectations never fail. Whatever has panicked in a reachable
    configuration (a call or a task whose panic nobody caught, a spawn worker, a termination
    worker, the cleanup of a block: what their join handles report), [may_panic] says why: a
    scope was demanded after the shutdown started; the caller's closure panicked, which had
    been called; the 64-bit identifiers are exhausted; the backend's [wait] panicked, for an
    orphan; or the sampler was started after a shutdown has verified every scope. (A joined
    task may also have been cancelled.) In particular every registered scope has its operation lock when a
    shutdown looks it up, a scope found for a process exists, and the sampler finds every scope
    and process it was told of. *)
Theorem supervisor_panics w interval s l :
  fresh_waiters w -> reachable w interval (s, l) ->
  (forall m, Panic m ∈ l -> may_panic m s) /\
  (forall m, (exists h, in_spawns s !! h = Some (Err m)) \/ (exists h, in_joined s !! h = Some (Err m)) \/
     (exists scope, in_cleanups s !! scope = Some (Some m)) -> m = "task was cancelled"%string \/ may_panic m s) /\
  (forall scope, is_Some (scopes (in_registry s) !! scope) -> scope_operation scope s = true) /\
  is_Some (shutdown_snapshot s) /\ is_Some (sampler_targets (in_registry s)).
Proof.
  intros Hw Hr. pose proof (reachable_inv w interval s l Hw Hr) as HI. split_and!.
  - intros m Hm. pose proof (reachable_ok w interval (s, l) Hw Hr) as Hok.
    exact (pool_ok_panics _ _ _ _ may_panic (s, l) m Hok Hm).
  - exact (inv_failures _ HI).
  - intros scope Hs. apply bool_decide_eq_true. by apply (inv_operations _ HI).
  - rewrite shutdown_snapshot_total by done. eauto.
  - by apply sampler_targets_total.
Qed.

(** C7. What has become final stays final, whatever runs next: a scope that left the registry
    never returns; a scope that stopped admitting processes never admits one again; once
    shutdown has started, at most the creation that had already seen the flag down, if there is
    one, adds its scope, and no other is created; a published verified cleanup result is never
    replaced, and an exit future that resolved with a verified exit keeps that value. *)
Theorem supervisor_history w interval s l s' l' :
  fresh_waiters w -> reachable w interval (s, l) -> rtc sup_step (s, l) (s', l') ->
  (forall scope, (scope <= next_scope (in_registry s))%N -> scope_at s scope = None -> scope_at s' scope = None) /\
  (forall scope, (scope <= next_scope (in_registry s))%N -> ~ admits s scope -> ~ admits s' scope) /\
  (in_shutting_down s = true ->
     in_shutting_down s' = true /\
     (next_scope (in_registry s') <= next_scope (in_registry s) + if in_creating s then 1 else 0)%N /\
     (in_creating s = false -> in_creating s' = false)) /\
  (forall scope w r, in_watches s !! scope = Some w -> watch_value w = Some (Ok r) -> report_all_verified r = true ->
     exists w', in_watches s' !! scope = Some w' /\ watch_value w' = Some (Ok r)) /\
  (forall f pid e, fut_of (in_waiters s) f pid -> poll (in_waiters s) f = Some e ->
     is_verified (exit_outcome e) = true -> poll (in_waiters s') f = Some e).
Proof.
  intros Hw Hr Hs. pose proof (reachable_ok w interval (s, l) Hw Hr) as Hok.
  destruct (steps_ok _ _ Hok Hs) as [_ HR]. cbn in HR. split_and!.
  - apply (rel_removed _ _ HR).
  - intros scope. by apply admits_back.
  - intros Hd. destruct (rel_down _ _ HR Hd) as [Hd' Hle]. destruct (rel_ids _ _ HR) as [Hid _].
    unfold creations in Hle. split_and!; [done|destruct (in_creating s'); lia|]. intros Hc. rewrite Hc in Hle.
    destruct (in_creating s'); [lia|done].
  - intros scope x r Hx Hv Hver.
    destruct (rel_watches _ _ HR scope x r Hx) as (x' & Hx' & E); [rewrite Hv; cbn; by rewrite Hver|].
    exists x'. split; [done|]. by rewrite E.
  - intros f pid e Hf Hp Hv. destruct (rel_futures _ _ HR f pid Hf) as (_ & _ & Hk). by apply Hk.
Qed.

End Theorems.

(** ** Concrete runs *)

Section Runs.
(** A backend that spawns OS process 100, whose [wait] answers exit code 0; signals and sweeps
    succeed, and no timer ever fires. *)
Definition demo_oracle {W F} (s : Inner W F) (X : Type) (q : Port X) : option X :=
  match q in Port X return option X with
  | BackendSpawn _ _ => Some (Ok (mkSpawned (mkOsIdentity 100 TokenUnavailable)))
  | BackendSignal _ _ => Some (Ok tt)
  | BackendCleanupScope _ => Some (Ok tt)
  | BackendWait _ => Some (Returned (Ok (mkRawExit (Some 0) None false)))
  | BackendSampled _ => None
  | BackendScopeUsage _ => Some (Err ObservationUnsupported)
  | BackendOutput _ => Some None
  | BackendHardKillAll => Some tt
  | BackendHardKillScope _ => Some tt
  | ClockNow => Some 0
  | ClockSleep _ => None
  | TimerElapsed _ => None
  | IntervalTick _ => None
  | PublisherPublish _ => Some tt
  end.

Abbreviation choice_of := (@choice (Inner InMemoryWaiters WaitFuture) Port (Task WaitFuture)) (only parsing).

Definition demo_start : @sup_config InMemoryWaiters WaitFuture := (supervisor_new in_memory_new, []).

Definition demo (choices : list choice_of) : @sup_config InMemoryWaiters WaitFuture :=
  exec (@answer _ _) task_body (fun s X q => demo_oracle s X q) 500 choices demo_start.

Lemma in_memory_fresh : fresh_waiters in_memory_new.
Proof. split; [apply in_memory_new_inv|]. intros pid. done. Qed.

Definition the_spec : ProcessSpec := spec_new "server".

Definition run_create : choice_of := Begin (calling try_create_scope RetCreateScope).
Definition run_spawn : choice_of := Begin (calling (supervisor_spawn 1 the_spec) (RetSpawn 1)).
Definition run_terminate_scope : choice_of :=
  Begin (calling (terminate_scope 1 terminate_default) (RetTerminateScope 1)).

Lemma demo_reachable choices s l :
  Forall (begins supervisor_call) choices -> demo choices = (s, l) -> reachable in_memory_new (from_secs 1) (s, l).
Proof. intros Hb <-. by apply exec_reachable. Qed.

(** A scope with one process, terminated: the graceful signal is followed by the monitor's
    observation of the exit. *)
Definition run_cleanup : list choice_of :=
  [run_create; Run 0; run_spawn; Run 1; Run 2; Run 1; run_terminate_scope; Run 5; Run 6; Run 3; Run 6; Run 5].

Definition the_report : ScopeTerminationReport := mkReport 1 [(1%N, GracefulSuccess)].

Lemma run_cleanup_calls : Forall (begins supervisor_call) run_cleanup.
Proof. repeat constructor. Qed.

Lemma verified_report_reaps_scope_witness :
  exists s l, reachable in_memory_new (from_secs 1) (s, l) /\
    RetTerminateScope 1 (Ok the_report) ∈ in_returned s /\
    in_attached s !! 1%N = Some (1%N, mkOsIdentity 100 TokenUnavailable) /\
    waited s 1 (mkOsIdentity 100 TokenUnavailable).
Proof.
  destruct (demo run_cleanup) as [s l] eqn:E. exists s, l.
  pose proof (demo_reachable run_cleanup s l run_cleanup_calls E) as Hr.
  assert (in_returned s = in_returned (demo run_cleanup).1) as Eret by by rewrite E.
  assert (in_attached s = in_attached (demo run_cleanup).1) as Eatt by by rewrite E.
  assert (RetTerminateScope 1 (Ok the_report) ∈ in_returned s) as Hin.
  { rewrite Eret. vm_compute. left. }
  assert (in_attached s !! 1%N = Some (1%N, mkOsIdentity 100 TokenUnavailable)) as Ha.
  { rewrite Eatt. vm_compute. reflexivity. }
  split; [exact Hr|]. split; [exact Hin|]. split; [exact Ha|].
  destruct (verified_report_reaps_scope in_memory_new (from_secs 1) s l 1 the_report in_memory_fresh Hr Hin eq_refl)
    as (_ & _ & _ & Hall & _).
  exact (Hall 1%N _ Ha).
Defined.

Lemma verified_exit_reaped_witness :
  exists s l, reachable in_memory_new (from_secs 1) (s, l) /\
    try_get (in_waiters s) 1 = Some (mkProcessExit 1 (Some 0) None GracefulSuccess false) /\
    exists scope os, in_attached s !! 1%N = Some (scope, os) /\ waited s 1 os.
Proof.
  destruct (demo run_cleanup) as [s l] eqn:E. exists s, l.
  pose proof (demo_reachable run_cleanup s l run_cleanup_calls E) as Hr.
  assert (in_waiters s = in_waiters (demo run_cleanup).1) as Ew by by rewrite E.
  assert (try_get (in_waiters s) 1 = Some (mkProcessExit 1 (Some 0) None GracefulSuccess false)) as Hk.
  { rewrite Ew. vm_compute. reflexivity. }
  split; [exact Hr|]. split; [exact Hk|].
  apply (verified_exit_reaped in_memory_new (from_secs 1) s l 1 in_memory_fresh Hr). left.
  exists (mkProcessExit 1 (Some 0) None GracefulSuccess false). split; [reflexivity|].
  right; right; right; right; left. exact Hk.
Defined.

(** A scope is demanded of a supervisor that was shut down: the one documented panic. *)
Definition run_late_create : list choice_of :=
  [Begin (calling shutdown RetShutdown); Run 0; Begin (calling create_scope (fun scope => RetCreateScope (Ok scope))); Run 1].

Lemma run_late_create_calls : Forall (begins supervisor_call) run_late_create.
Proof. repeat constructor. Qed.

Lemma supervisor_panics_witness :
  exists s l, reachable in_memory_new (from_secs 1) (s, l) /\
    Panic "cannot create a scope after supervisor shutdown starts" ∈ l /\
    may_panic "cannot create a scope after supervisor shutdown starts" s.
Proof.
  destruct (demo run_late_create) as [s l] eqn:E. exists s, l.
  pose proof (demo_reachable run_late_create s l run_late_create_calls E) as Hr. split; [exact Hr|].
  assert (l = (demo run_late_create).2) as El by by rewrite E.
  assert (Panic "cannot create a scope after supervisor shutdown starts" ∈ l) as Hp by (rewrite El; vm_compute; right; left).
  split; [exact Hp|]. exact (proj1 (supervisor_panics in_memory_new (from_secs 1) s l in_memory_fresh Hr) _ Hp).
Defined.


(** The same supervisor shut down: the sampler is aborted and joined. *)
Definition run_shutdown : list choice_of :=
  [run_create; Run 0; run_spawn; Run 1; Run 2; Run 1; Run 4; Begin (calling shutdown RetShutdown); Run 5; Run 6;
   Run 3; Run 6; Run 5; Cut 4; Run 4].

Lemma run_shutdown_calls : Forall (begins supervisor_call) run_shutdown.
Proof. repeat constructor. Qed.

Lemma shutdown_reaps_everything_witness :
  exists s l, reachable in_memory_new (from_secs 1) (s, l) /\
    RetShutdown (Ok (mkShutdownReport [the_report])) ∈ in_returned s /\
    waited s 1 (mkOsIdentity 100 TokenUnavailable).
Proof.
  destruct (demo run_shutdown) as [s l] eqn:E. exists s, l.
  pose proof (demo_reachable run_shutdown s l run_shutdown_calls E) as Hr.
  assert (in_returned s = in_returned (demo run_shutdown).1) as Eret by by rewrite E.
  assert (in_attached s = in_attached (demo run_shutdown).1) as Eatt by by rewrite E.
  assert (RetShutdown (Ok (mkShutdownReport [the_report])) ∈ in_returned s) as Hin.
  { rewrite Eret. vm_compute. left. }
  assert (in_attached s !! 1%N = Some (1%N, mkOsIdentity 100 TokenUnavailable)) as Ha.
  { rewrite Eatt. vm_compute. reflexivity. }
  split; [exact Hr|]. split; [exact Hin|].
  destruct (shutdown_reaps_everything in_memory_new (from_secs 1) s l _ in_memory_fresh Hr Hin) as (_ & _ & Hall).
  exact (Hall 1%N 1%N _ Ha).
Defined.

(** The shutdown raises its flag between the two steps of a creation: the scope is created all
    the same, as [supervisor_history] allows. Each turn is one step here. *)
Definition single_steps (c : @sup_config InMemoryWaiters WaitFuture) (choices : list choice_of) : sup_config :=
  exec (@answer _ _) task_body (fun s X q => demo_oracle s X q) 1 choices c.

Definition before_flag : sup_config :=
  single_steps demo_start [run_create; Run 0; Begin (calling shutdown RetShutdown); Run 1].

Lemma creation_after_flag :
  reachable in_memory_new (from_secs 1) before_flag /\ in_shutting_down before_flag.1 = true /\
  scope_at before_flag.1 1 = None /\
  exists c, rtc sup_step before_flag c /\ is_Some (scope_at c.1 1).
Proof.
  split; [apply exec_reachable; repeat constructor|]. split; [vm_compute; reflexivity|]. split; [vm_compute; reflexivity|].
  exists (single_steps before_flag [Run 0]). split; [apply exec_reachable; repeat constructor|].
  eexists. vm_compute. reflexivity.
Qed.

(** A scope is removed by its cleanup; after a shutdown it is still gone. *)
Lemma supervisor_history_witness :
  exists s l s' l', reachable in_memory_new (from_secs 1) (s, l) /\ rtc sup_step (s, l) (s', l') /\
    scope_at s 1 = None /\ scope_at s' 1 = None.
Proof.
  destruct (demo run_cleanup) as [s l] eqn:E.
  pose proof (demo_reachable run_cleanup s l run_cleanup_calls E) as Hr.
  exists s, l, s, (l ++ [calling shutdown RetShutdown]).
  assert (rtc sup_step (s, l) (s, l ++ [calling shutdown RetShutdown])) as Hs.
  { apply rtc_once, step_call, call_shutdown. }
  assert (in_registry s = in_registry (demo run_cleanup).1) as Ereg by by rewrite E.
  assert (scope_at s 1 = None) as Hn by (unfold scope_at; rewrite Ereg; vm_compute; reflexivity).
  assert ((1 <= next_scope (in_registry s))%N) as Hle by (rewrite Ereg; vm_compute; discriminate).
  split; [exact Hr|]. split; [exact Hs|]. split; [exact Hn|].
  destruct (supervisor_history in_memory_new (from_secs 1) s l s _ in_memory_fresh Hr Hs) as (Hrem & _).
  exact (Hrem 1%N Hle Hn).
Defined.

(** A scoped block whose closure got handle 1, through which its process is awaited. *)
Definition run_block : list choice_of :=
  [Begin (calling (with_scope_options [the_spec] terminate_default closure_code)
      (fun r => RetTerminateScope (ws_scope _ r) (ws_termination _ r)));
   Run 0; Run 3; Run 0; Begin (calling (scoped_wait 1 1) (RetScopedWait 1 1)); Run 6; Run 4; Run 6].

Lemma run_block_calls : Forall (begins supervisor_call) run_block.
Proof. repeat constructor. Qed.

Lemma scoped_handle_isolated_witness :
  exists s l, reachable in_memory_new (from_secs 1) (s, l) /\
    RetScopedWait 1 1 (Ok (mkProcessExit 1 (Some 0) None ExitedNaturally false)) ∈ in_returned s /\
    RetBlock 1 ∈ in_returned s /\
    (exists c, in_scoped s !! 1%nat = Some c /\
       (1%N ∈ sp_processes c \/ exists os, in_attached s !! 1%N = Some (sp_scope c, os))) /\
    exists c, in_scoped s !! 1%nat = Some c /\
       forall pid, pid ∈ sp_processes c -> exists os, in_attached s !! pid = Some (sp_scope c, os).
Proof.
  destruct (demo run_block) as [s l] eqn:E. exists s, l.
  pose proof (demo_reachable run_block s l run_block_calls E) as Hr.
  assert (in_returned s = in_returned (demo run_block).1) as Eret by by rewrite E.
  assert (RetScopedWait 1 1 (Ok (mkProcessExit 1 (Some 0) None ExitedNaturally false)) ∈ in_returned s) as Hin.
  { rewrite Eret. vm_compute. left. }
  assert (RetBlock 1 ∈ in_returned s) as Hb by (rewrite Eret; vm_compute; right; left).
  split; [exact Hr|]. split; [exact Hin|]. split; [exact Hb|].
  destruct (scoped_handle_isolated in_memory_new (from_secs 1) s l in_memory_fresh Hr) as [Hm Hbl].
  split; [apply Hm; left; eexists; exact Hin|exact (Hbl 1%nat Hb)].
Defined.
End Runs.
