(* ===== verification/SupervisorOrder.v ===== *)
(** * SupervisorOrder: the order in which the supervisor calls its backend

    For one call among any others, whatever the shared state is between its steps:
    the calls it makes of the ports and the tasks it starts, in order, follow a
    protocol given as an automaton. *)

From stdpp Require Import base list gmap strings relations.
From S2P Require Import Prelude StdModel Values Process Scope Registry Waiters Usage.
From S2P Require Import Observation Ports History Conc Protocol State Dispatch Supervisor SupervisorInv.
From S2P Require Import SupervisorSafe SupervisorTheorems.

Open Scope Z_scope.
Open Scope prog_scope.

Section Order.
Context {W F : Type} `{!WaitersPort W F}.

Abbreviation Inner := (Inner W F) (only parsing).
Abbreviation SProg := (SProg W F) (only parsing).

Inductive action : Type :=
| Called (c : port_call)
| Started (t : Task F).

Definition called (X : Type) (q : Port X) (x : X) : action := Called (port_label X q x).

Definition sup_trace {A} (p : SProg A) (ls : list action) (r : option A) : Prop :=
  trace (@answer W F) called Started p ls r.

(** [follows] for the supervisor's actions. *)
Abbreviation follows := (Protocol.follows (answer := @answer W F) (label := called) (started := Started)) (only parsing).

Section Automaton.
Context {P : Type} (delta : P -> action -> option P).

(** Dispatching events only starts the publisher. *)
Lemma follows_dispatch events p0 p :
  delta p (Started TaskPublisher) = Some p -> follows delta (dispatch_events events) p0 p (fun p' _ => p' = p).
Proof.
  intros Hpub. unfold dispatch_events, dispatch. induction events as [|event events IH]; cbn [for_each].
  { by apply follows_ret. }
  assert (Hnote : follows delta (wait_notifier true event ;;; Ret tt) p0 p (fun p' _ => p' = p)).
  { eapply follows_bind with (mid := fun p' _ => p' = p); [|intros p' _ ->; by apply follows_ret].
    destruct event as [| | |scope pid e|]; try (by apply follows_ret). cbn [wait_notifier].
    eapply follows_bind with (mid := fun p' _ => p' = p); [|intros p' _ ->; by apply follows_ret].
    destruct (_ && _); apply follows_act. }
  assert (Hprune : follows delta (registry_prune_handler event ;;; Ret tt) p0 p (fun p' _ => p' = p)).
  { eapply follows_bind with (mid := fun p' _ => p' = p); [|intros p' _ ->; by apply follows_ret].
    eapply follows_bind; [apply follows_act|]. intros p' _ ->. by apply follows_ret. }
  assert (Htrans : follows delta (integration_translator event ;;; Ret tt) p0 p (fun p' _ => p' = p)).
  { eapply follows_bind with (mid := fun p' _ => p' = p); [|intros p' _ ->; by apply follows_ret].
    unfold integration_translator. destruct (integration_event event); [|by apply follows_ret].
    eapply follows_bind; [apply follows_act|]. intros p' taken ->.
    eapply follows_bind with (mid := fun p' _ => p' = p).
    { destruct taken; [apply follows_fork; eauto|by apply follows_ret]. }
    intros p' _ ->. eapply follows_bind; [apply follows_act|]. intros p' _ ->. by apply follows_ret. }
  eapply follows_bind with (mid := fun p' _ => p' = p).
  { cbn [for_each supervisor_handlers].
    eapply follows_bind; [exact Hnote|]. intros p' _ ->.
    eapply follows_bind; [exact Hprune|]. intros p' _ ->.
    eapply follows_bind; [exact Htrans|]. intros p' _ ->. by apply follows_ret. }
  intros p' _ ->. exact IH.
Qed.
End Automaton.

(** ** Two-phase termination *)

(** No signal yet; the process was asked to terminate; its grace period has passed; it was killed. *)
Inductive term_phase : Type := TermIdle | TermRequested | TermGraceOver | TermForced.

Section Termination.
Context (opts : TerminateOptions) (target : Spawned) (graceful : Signal).

Definition term_delta (p : term_phase) (l : action) : option term_phase :=
  match l with
  | Called (DidSignal t signal _) =>
      match p with
      | TermIdle => if decide (t = target /\ signal = graceful) then Some TermRequested else None
      | TermGraceOver => if decide (t = target /\ signal = Kill) then Some TermForced else None
      | _ => None
      end
  | Called (DidSleep d) =>
      match p with
      | TermRequested => if decide (d = opt_grace opts) then Some TermGraceOver else None
      | TermForced => if decide (opt_force_timeout opts = Some d) then Some TermForced else None
      | _ => None
      end
  | Called (DidWait t _) =>
      match p with
      | TermRequested | TermForced => if decide (t = target) then Some p else None
      | _ => None
      end
  | Started TaskPublisher => Some p
  | _ => None
  end.

Lemma follows_recovered scope pid raw p0 p :
  follows term_delta (record_recovered_exit scope pid raw) p0 p (fun _ _ => True).
Proof.
  eapply follows_bind; [apply follows_act|]. intros p' [[e events]|err] ->; [|by apply follows_ret].
  eapply follows_bind; [by apply follows_dispatch|]. intros p' _ _. by apply follows_ret.
Qed.

Lemma follows_retry_result scope pid t o p0 p :
  follows term_delta (retry_result scope pid t o) p0 p (fun _ _ => True).
Proof. destruct o as [[raw|e]|]; [apply follows_recovered|by apply follows_ret..]. Qed.

(** The steps of the automaton. *)
Lemma term_requested x : term_delta TermIdle (called _ (BackendSignal target graceful) x) = Some TermRequested.
Proof. cbn. by rewrite decide_True. Qed.

Lemma term_forced x : term_delta TermGraceOver (called _ (BackendSignal target Kill) x) = Some TermForced.
Proof. cbn. by rewrite decide_True. Qed.

Lemma term_grace_over x : term_delta TermRequested (called _ (ClockSleep (opt_grace opts)) x) = Some TermGraceOver.
Proof. cbn. by rewrite decide_True. Qed.

Lemma term_timeout t x :
  opt_force_timeout opts = Some t -> term_delta TermForced (called _ (ClockSleep t) x) = Some TermForced.
Proof. intros E. cbn. by rewrite decide_True. Qed.

Lemma term_wait p x :
  p = TermRequested \/ p = TermForced -> term_delta p (called _ (BackendWait target) x) = Some p.
Proof. intros [-> | ->]; cbn; by rewrite decide_True. Qed.

Hint Resolve term_requested term_forced term_grace_over term_timeout term_wait : core.

(** After the grace period: the kill, and whatever the last observation says. *)
Lemma follows_kill_and_observe scope pid p0 :
  follows term_delta
    (ask (BackendSignal target Kill) ;;;
     match opt_force_timeout opts with
     | Some timeout =>
         let! r := select2 (Answer (BackendWait target)) (Answer (ClockSleep timeout)) in
         retry_result scope pid timeout
           match r with inl r => Some (caught "retry waiter panicked" r) | inr _ => None end
     | None =>
         let! r := ask (BackendWait target) in
         retry_result scope pid 0 (Some (caught "retry waiter panicked" r))
     end) p0 TermGraceOver (fun _ _ => True).
Proof.
  eapply follows_bind with (mid := fun p _ => p = TermForced); [apply follows_ask; eauto|].
  intros p _ ->. destruct (opt_force_timeout opts) as [t|] eqn:E.
  - eapply follows_bind with (mid := fun p _ => p = TermForced); [apply follows_race; eauto|].
    intros p r ->. apply follows_retry_result.
  - eapply follows_bind with (mid := fun p _ => p = TermForced); [apply follows_ask; eauto|].
    intros p r ->. apply follows_retry_result.
Qed.

Lemma follows_retry scope pid p0 :
  follows term_delta (retry_quarantined scope pid target graceful opts) p0 TermIdle (fun _ _ => True).
Proof.
  unfold retry_quarantined.
  eapply follows_bind with (mid := fun p _ => p = TermRequested); [apply follows_ask; eauto|]. intros p _ ->.
  eapply follows_bind with (mid := fun p r =>
    p = match r with inl _ => TermRequested | inr _ => TermGraceOver end); [apply follows_race; eauto|].
  intros p [r|u] ->; cbn zeta.
  - destruct (caught "retry waiter panicked" r) as [raw|e]; [apply follows_recovered|].
    eapply follows_bind with (mid := fun p _ => p = TermGraceOver); [apply follows_ask; eauto|].
    intros p _ ->. apply follows_kill_and_observe.
  - eapply follows_bind with (mid := fun p _ => p = TermGraceOver); [by apply follows_ret|].
    intros p _ ->. apply follows_kill_and_observe.
Qed.

Lemma follows_force scope pid f p0 :
  follows term_delta (force_phase scope pid target opts f) p0 TermGraceOver (fun _ _ => True).
Proof.
  eapply follows_bind; [apply follows_act|]. intros p _ ->.
  eapply follows_bind with (mid := fun p _ => p = TermForced); [apply follows_ask; eauto|].
  intros p _ ->. destruct (opt_force_timeout opts) as [t|] eqn:E.
  - eapply follows_bind with (mid := fun _ _ => True); [apply follows_race_ready; eauto|].
    intros p r _. by apply follows_ret.
  - eapply follows_bind; [apply follows_await|]. intros p r _. by apply follows_ret.
Qed.

(** Everything that follows the request. *)
Lemma follows_requested scope pid events (quarantined : bool) f :
  follows term_delta
    (if quarantined then retry_quarantined scope pid target graceful opts
     else
       dispatch_events events ;;;
       let! known := reads (fun s => try_get (in_waiters s) pid) in
       match known with
       | Some exit =>
           if is_verified (exit_outcome exit) then Ret (Ok exit)
           else retry_quarantined scope pid target graceful opts
       | None =>
           ask (BackendSignal target graceful) ;;;
           let! r := select2 (Ready (exit_ready f)) (Answer (ClockSleep (opt_grace opts))) in
           match r with
           | inl exit => Ret (Ok exit)
           | inr _ => force_phase scope pid target opts f
           end
       end) TermIdle TermIdle (fun _ _ => True).
Proof.
  destruct quarantined; [apply follows_retry|].
  eapply follows_bind; [by apply follows_dispatch|]. intros p _ ->.
  eapply follows_bind; [apply follows_act|]. intros p known ->. destruct known as [e|].
  { destruct (is_verified _); [by apply follows_ret|apply follows_retry]. }
  eapply follows_bind with (mid := fun p _ => p = TermRequested); [apply follows_ask; eauto|]. intros p _ ->.
  eapply follows_bind with (mid := fun p r =>
    p = match r with inl _ => TermRequested | inr _ => TermGraceOver end); [apply follows_race_ready; eauto|].
  intros p [e|u] ->; [by apply follows_ret|apply follows_force].
Qed.
End Termination.

(** The request names the process that the registry tracks under the identifier. *)
Lemma terminate_request_made pid (s : Inner) s' scope spawned graceful events quarantined f :
  terminate_request pid s = (s', RequestMade scope spawned graceful events quarantined f) ->
  exists p, find_process (in_registry s) pid = Some p /\
    spawned = mkSpawned (process_os p) /\ graceful = spec_graceful_signal (process_spec p).
Proof.
  unfold terminate_request, find_process, scope_of_get.
  destruct (scope_of (in_registry s) pid) as [i|]; [|done]. cbn.
  destruct (registry_get (in_registry s) i) as [sc|]; [|done]. cbn.
  destruct (scope_get sc pid) as [p|]; [|done]. intros H. exists p. split; [done|].
  assert (Hafter : forall b, request_after i sc pid p b s = (s', RequestMade scope spawned graceful events quarantined f) ->
    spawned = mkSpawned (process_os p) /\ graceful = spec_graceful_signal (process_spec p)).
  { intros b. unfold request_after. destruct (request_termination sc pid) as [sc' [ev|err]]; [|done].
    destruct (waiters_wait pid _) as [s1 g]. by intros [= _ _ <- <-]. }
  destruct (process_exit p) as [e|]; [|by eapply Hafter]. destruct (is_verified (exit_outcome e)); [done|by eapply Hafter].
Qed.

Definition sup_visits {A} (p : SProg A) (ss : list Inner) (ls : list action) (r : option A) : Prop :=
  visits (@answer W F) called Started p ss ls r.

(** C5. Termination is two-phase. A run of [terminate], completed or cut short, among any other
    activity, does nothing to the backend unless in some state of the run the registry tracked
    a process under the identifier; then its signals are, at most, first the graceful signal
    of that process's specification, sent to that process's OS identity, and then a kill of
    the same process after the whole grace period. Nothing else is asked of the backend than
    to wait for that process after a signal, the only other sleep is the force timeout after
    the kill, and no task is started but the event publisher. *)
Theorem terminate_two_phase pid opts ss ls r :
  sup_visits (terminate pid opts) ss ls r ->
  ls = [] \/
  exists s p phase, s ∈ ss /\ find_process (in_registry s) pid = Some p /\
    run_from (term_delta opts (mkSpawned (process_os p)) (spec_graceful_signal (process_spec p))) TermIdle ls = Some phase.
Proof.
  intros Hv. apply visits_act in Hv as [[-> _]|(s0 & ss0 & -> & Hv)]; [by left|].
  change ((fun s => (s, verified_known pid s)) s0).2 with (verified_known pid s0) in Hv. cbn beta iota in Hv.
  destruct (verified_known pid s0) as [e|]; [by inversion Hv; left|].
  apply visits_act in Hv as [[-> _]|(s & ss1 & -> & Hv)]; [by left|]. cbn beta iota in Hv.
  destruct (terminate_request pid s) as [s' [x|m|scope spawned graceful events quarantined f]] eqn:E; cbn [snd] in Hv.
  - by inversion Hv; left.
  - by inversion Hv; left.
  - right. destruct (terminate_request_made _ _ _ _ _ _ _ _ _ E) as (p & Hp & -> & ->). apply visits_trace in Hv.
    destruct (follows_sound _ _ _ _ _ _
      (follows_requested opts (mkSpawned (process_os p)) (spec_graceful_signal (process_spec p)) scope pid events quarantined f) Hv)
      as (phase & Hr & _).
    exists s, p, phase. split_and!; [right; left|done|exact Hr].
Qed.

(** ** Owned spawning *)

(** Nothing spawned yet; the backend refused; it gave a process; the process was killed; it was
    killed and waited for; it is monitored under an identifier. *)
Inductive spawn_phase : Type :=
| SpawnIdle
| SpawnRefused
| SpawnHolding (p : Spawned)
| SpawnKilled (p : Spawned)
| SpawnDisposed
| SpawnOwned (pid : ProcessId).

Definition spawn_delta (scope : ProcessScopeId) (spec : ProcessSpec) (p : spawn_phase) (l : action) : option spawn_phase :=
  match p, l with
  | SpawnIdle, Called (DidSpawn scope' spec' r) =>
      if decide (scope' = scope /\ spec' = spec)
      then Some match r with Ok spawned => SpawnHolding spawned | Err _ => SpawnRefused end
      else None
  | SpawnHolding t, Called (DidSignal target Kill _) => if decide (target = t) then Some (SpawnKilled t) else None
  | SpawnHolding t, Called (DidHardKillAll | DidObserve) => Some p
  | SpawnHolding t, Started (TaskMonitor scope' pid target) =>
      if decide (scope' = scope /\ target = t) then Some (SpawnOwned pid) else None
  | SpawnKilled t, Called (DidWait target _) => if decide (target = t) then Some SpawnDisposed else None
  | SpawnOwned _, Started (TaskSampler _ | TaskPublisher) => Some p
  | _, _ => None
  end.

(** What a finished spawn worker leaves behind. *)
Definition spawn_outcome (p : spawn_phase) (r : result ProcessId SpawnError) : Prop :=
  match r with
  | Ok pid => p = SpawnOwned pid
  | Err _ => p = SpawnIdle \/ p = SpawnRefused \/ p = SpawnDisposed
  end.

Lemma follows_kill_orphan scope spec spawned p0 :
  follows (spawn_delta scope spec) (kill_orphan spawned) p0 (SpawnHolding spawned) (fun p _ => p = SpawnDisposed).
Proof.
  eapply follows_bind with (mid := fun p _ => p = SpawnKilled spawned).
  { apply follows_ask. intros x. exists (SpawnKilled spawned). split; [|done]. cbn. by rewrite decide_True. }
  intros p _ ->. eapply follows_bind with (mid := fun p _ => p = SpawnDisposed).
  { apply follows_ask. intros x. exists SpawnDisposed. split; [|done]. cbn. by rewrite decide_True. }
  intros p [x|] ->; [by apply follows_ret|apply follows_panic].
Qed.

Lemma follows_start_sampler scope spec pid p0 :
  follows (spawn_delta scope spec) start_sampler p0 (SpawnOwned pid) (fun p _ => p = SpawnOwned pid).
Proof.
  eapply follows_bind; [apply follows_act|]. intros p [] ->; [by apply follows_ret|].
  eapply follows_bind with (mid := fun p _ => p = SpawnOwned pid); [apply follows_fork; eauto|]. intros p _ ->.
  eapply follows_bind; [apply follows_act|]. intros p [] ->; [apply follows_panic|]. apply follows_act.
Qed.

Lemma follows_spawn_attached scope spec pid spawned events admission p0 :
  follows (spawn_delta scope spec) (spawn_attached scope pid spawned events admission) p0 (SpawnHolding spawned)
    spawn_outcome.
Proof.
  unfold spawn_attached.
  eapply follows_bind with (mid := fun p _ => p = SpawnHolding spawned); [apply follows_call; eauto|]. intros p now ->.
  eapply follows_bind; [apply follows_act|]. intros p _ ->.
  eapply follows_bind; [apply follows_act|]. intros p _ ->.
  eapply follows_bind with (mid := fun p _ => p = SpawnHolding spawned); [apply follows_call; eauto|]. intros p output ->.
  eapply follows_bind with (mid := fun p _ => p = SpawnHolding spawned).
  { destruct admission as [h|].
    - eapply follows_bind; [apply follows_act|]. intros p f ->. apply follows_act.
    - destruct output; [apply follows_act|by apply follows_ret]. }
  intros p _ ->. eapply follows_bind with (mid := fun p _ => p = SpawnOwned pid).
  { apply follows_fork. exists (SpawnOwned pid). split; [|done]. cbn. by rewrite decide_True. }
  intros p _ ->. eapply follows_bind; [apply follows_start_sampler|]. intros p _ ->.
  eapply follows_bind; [by apply follows_dispatch|]. intros p _ ->. by apply follows_ret.
Qed.

Lemma follows_spawn_owned scope spec admission :
  follows (spawn_delta scope spec) (spawn_owned scope spec admission) SpawnIdle SpawnIdle spawn_outcome.
Proof.
  eapply follows_bind; [apply follows_act|]. intros p known ->. destruct (negb known).
  { eapply follows_bind; [apply follows_act|]. intros p closed ->. apply follows_ret. cbn. auto. }
  eapply follows_bind; [apply follows_await|]. intros p serial ->. apply follows_guarded.
  destruct serial; [apply follows_ret; cbn; auto|].
  eapply follows_bind; [apply follows_act|]. intros p [] ->; [apply follows_ret; cbn; auto|].
  eapply follows_bind; [apply follows_act|]. intros p [] ->; [apply follows_ret; cbn; auto|].
  eapply follows_bind; [apply follows_act|]. intros p [u|e] ->; [|apply follows_ret; cbn; auto].
  eapply follows_bind with (mid := fun p r =>
    p = match r with Ok spawned => SpawnHolding spawned | Err _ => SpawnRefused end).
  { apply follows_ask. intros x. eexists. split; [cbn; by rewrite decide_True|done]. }
  intros p [spawned|e] ->; [|apply follows_ret; cbn; auto].
  eapply follows_bind; [apply follows_act|]. intros p dropped ->. destruct dropped.
  { eapply follows_bind with (mid := fun p _ => p = SpawnHolding spawned); [apply follows_call; eauto|]. intros p _ ->.
    eapply follows_bind; [apply follows_kill_orphan|]. intros p _ ->. apply follows_ret. cbn. auto. }
  eapply follows_bind; [apply follows_act|]. intros p a ->. destruct a as [pid events| | |].
  - apply follows_spawn_attached.
  - eapply follows_bind; [apply follows_kill_orphan|]. intros p _ ->. apply follows_ret. cbn. auto.
  - eapply follows_bind; [apply follows_kill_orphan|]. intros p _ ->. apply follows_ret. cbn. auto.
  - apply follows_panic.
Qed.

(** C4. A spawned process is never leaked: when the spawn worker ends, then either the backend
    spawned nothing, or the worker returned the identifier under which it has started a
    monitor of exactly the process that the backend gave, or that process was killed and its
    exit awaited. At most one process is spawned, and it is not signalled once monitored. *)
Theorem spawn_never_leaks scope spec admission ls r :
  sup_trace (spawn_owned scope spec admission) ls r ->
  exists p, run_from (spawn_delta scope spec) SpawnIdle ls = Some p /\ forall a, r = Some a -> spawn_outcome p a.
Proof. apply follows_sound, follows_spawn_owned. Qed.

(** ** Observed cleanup ends verified or in a hard kill *)

Definition kill_delta (scope : ProcessScopeId) (killed : bool) (l : action) : option bool :=
  Some match l with
       | Called (DidHardKillScope scope') => killed || bool_decide (scope' = scope)
       | _ => killed
       end.

Lemma run_kill scope b ls :
  run_from (kill_delta scope) b ls = Some true -> b = true \/ Called (DidHardKillScope scope) ∈ ls.
Proof.
  revert b. induction ls as [|l ls IH]; intros b; cbn; [intros [= ->]; by left|].
  intros [H|?]%IH; [|by right; right]. destruct l as [c|t]; [|by left].
  destruct c; try by left. apply orb_true_iff in H as [?|H]; [by left|].
  apply bool_decide_eq_true in H as ->. right. left.
Qed.

Lemma follows_finish scope opts :
  follows (kill_delta scope) (finish_scope_cleanup scope opts) false false
    (fun p r => is_verified_result r = false -> p = true).
Proof.
  apply follows_cancel_with.
  eapply follows_bind; [apply follows_act|]. intros p known _.
  eapply follows_bind; [apply follows_any; by eexists|]. intros p1 result _.
  eapply follows_bind; [apply follows_act|]. intros p2 known2 _. cbn zeta.
  set (result' := match known2 with Some report => Ok report | None => result end).
  eapply follows_bind with (mid := fun p _ => is_verified_result result' = false -> p = true).
  { destruct (is_verified_result result'); [by apply follows_ret|]. apply follows_call. intros x.
    exists (p2 || bool_decide (scope = scope)). split; [done|]. intros _.
    by rewrite bool_decide_eq_true_2, orb_true_r. }
  intros p3 _ Hp3. eapply follows_bind; [apply follows_act|]. intros p4 _ ->. by apply follows_ret.
Qed.

Lemma drop_sender_value scope (s : Inner) :
  forall w, in_watches (drop_sender scope s) !! scope = Some w ->
  exists w', in_watches s !! scope = Some w' /\ watch_value w = watch_value w'.
Proof.
  intros w. unfold drop_sender. destruct (in_watches s !! scope) as [w'|] eqn:E; [|by rewrite E].
  cbn. rewrite lookup_insert_eq. intros [= <-]. eauto.
Qed.

Lemma drop_sender_calls scope (s : Inner) : in_calls (drop_sender scope s) = in_calls s.
Proof. unfold drop_sender. by destruct (in_watches s !! scope). Qed.

Lemma drop_sender_backstop scope (s : Inner) : backstop_verified scope (drop_sender scope s) = backstop_verified scope s.
Proof.
  unfold drop_sender, backstop_verified. destruct (in_watches s !! scope) as [w|] eqn:E; [|by rewrite E].
  cbn. by rewrite lookup_insert_eq.
Qed.

(** Dropping an armed backstop. *)
Lemma drop_backstop_spec scope (s : Inner) :
  let s' := drop_backstop scope s in
  is_Some (backstop_verified scope s') \/
  DidHardKillScope scope ∈ in_calls s' /\
  forall w, in_watches s' !! scope = Some w -> is_Some (watch_value w).
Proof.
  unfold drop_backstop. destruct (backstop_verified scope s) as [r|] eqn:E.
  - left. rewrite drop_sender_backstop, E. eauto.
  - right. split.
    + rewrite drop_sender_calls. unfold publish_to_watch. cbn.
      destruct (in_watches s !! scope); cbn; left.
    + intros w Hw. apply drop_sender_value in Hw as (w' & Hw' & ->). unfold publish_to_watch in Hw'. cbn in Hw'.
      destruct (in_watches s !! scope) as [x|] eqn:Ex; cbn in Hw'; [|congruence].
      rewrite lookup_insert_eq in Hw'. injection Hw' as <-. cbn. unfold publish_scope_cleanup_result.
      unfold backstop_verified in E. rewrite Ex in E. cbn in E. rewrite E. eauto.
Qed.

(** C6. An observed scope is never abandoned silently. When [finish] returns anything but a
    verified report, it has issued the synchronous hard kill of the scope first; and when it
    is dropped at any of its suspensions, then a verified report is already published, or the
    drop issues the hard kill and leaves a result for those who wait for the scope. *)
Theorem finish_verified_or_killed scope opts :
  (forall ls r, sup_trace (finish_scope_cleanup scope opts) ls (Some r) -> is_verified_result r = false ->
     Called (DidHardKillScope scope) ∈ ls) /\
  (forall X (e : Event X) dr k s, becomes (@answer W F) (finish_scope_cleanup scope opts) (Wait e dr k) ->
     is_Some (backstop_verified scope (dr s)) \/
     DidHardKillScope scope ∈ in_calls (dr s) /\
     forall w, in_watches (dr s) !! scope = Some w -> is_Some (watch_value w)).
Proof.
  split.
  - intros ls r Htr Hv. destruct (follows_sound _ _ _ _ _ _ (follows_finish scope opts) Htr) as (p & Hp & Hr).
    rewrite (Hr r eq_refl Hv) in Hp. by destruct (run_kill _ _ _ Hp).
  - intros X e dr k s Hb. destruct (cancel_with_dropped _ _ _ _ _ _ _ Hb) as [dr0 ->]. apply drop_backstop_spec.
Qed.
End Order.

(** ** Concrete runs *)

Section Runs.
(** A backend whose processes ignore every signal: [wait] never answers, the timers elapse. *)
Definition stubborn_oracle {W F} (s : Inner W F) (X : Type) (q : Port X) : option X :=
  match q in Port X return option X with
  | BackendWait _ => None
  | ClockSleep _ => Some tt
  | q => demo_oracle s _ q
  end.

(** The supervisor of [demo] with one scope and one running process. *)
Definition running_process : Inner InMemoryWaiters WaitFuture :=
  (demo [run_create; Run 0; run_spawn; Run 1; Run 2; Run 1]).1.

Definition trace_of {A} (oracle : Inner InMemoryWaiters WaitFuture -> forall X, Port X -> option X)
    (s : Inner InMemoryWaiters WaitFuture) (p : SProg InMemoryWaiters WaitFuture A) :
    list (@action WaitFuture) * option A :=
  exec_trace (@answer _ _) oracle called Started 500 s p.

Lemma trace_of_trace {A} oracle s (p : SProg InMemoryWaiters WaitFuture A) :
  sup_trace p (trace_of oracle s p).1 (trace_of oracle s p).2.
Proof. apply exec_trace_trace. Qed.

Definition the_process : Spawned := mkSpawned (mkOsIdentity 100 TokenUnavailable).

(** The process ignores its signals: both phases of the termination run. *)
Lemma terminate_two_phase_witness :
  exists ss ls r, sup_visits (terminate 1 terminate_default) ss ls r /\
    ls = [Called (DidSignal the_process Term (Ok tt)); Called (DidSleep (from_secs 5));
          Called (DidSignal the_process Kill (Ok tt)); Called (DidSleep (from_secs 10))] /\
    r = Some (Ok (mkProcessExit 1 None None (CleanupUnverified (WaitTimedOut (from_secs 10))) true)) /\
    exists s p phase, s ∈ ss /\ find_process (in_registry s) 1 = Some p /\
      run_from (term_delta (F := WaitFuture) terminate_default (mkSpawned (process_os p))
        (spec_graceful_signal (process_spec p))) TermIdle ls = Some phase.
Proof.
  pose proof (exec_trace_visits (@answer _ _) (fun s X q => stubborn_oracle s X q) called Started 500 running_process
    (terminate 1 terminate_default)) as Ht.
  eexists _, _, _. split; [exact Ht|].
  split; [vm_compute; reflexivity|]. split; [vm_compute; reflexivity|].
  destruct (terminate_two_phase 1 terminate_default _ _ _ Ht) as [Hn|H]; [vm_compute in Hn; discriminate|exact H].
Defined.

(** The supervisor is dropped while the backend spawns: the process is an orphan. *)
Lemma spawn_never_leaks_witness :
  exists ls r, sup_trace (F := WaitFuture) (spawn_owned 1 the_spec None) ls r /\
    ls = [Called (DidSpawn 1 the_spec (Ok the_process)); Called DidHardKillAll;
          Called (DidSignal the_process Kill (Ok tt));
          Called (DidWait the_process (Returned (Ok (mkRawExit (Some 0) None false))))] /\
    exists p, run_from (spawn_delta 1 the_spec) SpawnIdle ls = Some p /\ forall a, r = Some a -> spawn_outcome p a.
Proof.
  pose proof (trace_of_trace (fun s X q => demo_oracle s X q) (set_owners_dropped true running_process)
    (spawn_owned 1 the_spec None)) as Ht.
  eexists _, _. split; [exact Ht|]. split; [vm_compute; reflexivity|].
  exact (spawn_never_leaks 1 the_spec None _ _ Ht).
Defined.
End Runs.
